(* ===== verification/_CoqProject ===== *)
-Q . S2P
Prelude.v
Readers.v
Writers.v
Decimal.v
Resp.v
Redis.v
RedisServer.v
Matrix3.v
Interpreter.v
HashTable.v
HashLocks.v
SubsetSum.v
Locks.v
Executor.v
Queues.v
LockFree.v
SyncMap.v
Matrix2.v
Channels.v
Numeric.v
ConstexprMap.v
TimerHeap.v
IntrusiveList.v
Fibers.v
FiberInv.v
FiberCalls.v
FiberLoop.v
NameStrings.v
NamingRules.v
Net.v
Sockets.v
Proxy.v
Balancer.v
Ranges.v
Coroutines.v
MpscQueue.v
Determinant.v
Poller.v
RwCounter.v
TimerQueue.v
Rpc.v
Dialers.v
Sfinae.v
RpcGenerator.v
SubsetChecks.v
FixedQueue.v
DebugWriter.v
BalancerServe.v
Image.v
