(* ===== verification/Prelude.v ===== *)
(** * A verification development for the "C++ course" repository

    The repository is a course on advanced C++: some forty small programs and
    libraries, each in a directory of its own, and [tools/cactus], a library of
    fibers with readers and writers that the network tasks use.  This development
    models the programs that carry logic and proves what makes them correct.

    ** The parts and the files that model them

    - Bytes: [tools/cactus/io] ([IReader], [IBufferedReader], [BufferedReader],
      [ViewReader], [LoopReader] in Readers.v; [IWriter], [IBufferedWriter],
      [StringWriter], [BufferedWriter], [WriteTo] in Writers.v).  The abstract
      classes of the source are type classes; the laws [ReaderSpec],
      [BufferedReaderSpec], [WriterSpec] and [BufferedWriterSpec] are what a
      client may use, and each implementation has an instance.
    - Redis: Decimal.v ([std::to_string], [std::stoll]), Resp.v ([RespWriter],
      [RespReader], the types of messages) and Redis.v ([SimpleStorage], the
      server's [ReadCommand], [ProcessCommand] and the loop of a connection, the
      client), RedisServer.v ([Listen]: the fibers of all connections over one storage).
      [server_refines_exec] shows that what a connection sends is what an abstract
      meaning of the commands says, [redis_server_linearizable] that all connections
      together are one sequence of commands, whatever bytes their clients send.
    - matrix-3.0, an interpreter that runs loops by powers of matrices: Matrix3.v
      (matrices modulo 2^64) and Interpreter.v (tokenizer, expressions,
      interpreter).  [run_correct] compares it with the execution of the statements
      one by one.
    - matrix-2.0, products in the best order: Matrix2.v.
    - HashTable.v: the operations of [ConcurrentHashMap] on its table, against [gmap];
      HashLocks.v: its threads, which take and give back the striped mutexes one by one and
      read and write the table in between.
    - SubsetSum.v: [FindEqualSumSubsets] with its threads, against the definition
      of the problem.
    - Locks.v: [SpinLock], [RWSpinLock], the futex [Mutex], [RWLock], [Semaphore].
    - Executor.v: tasks with dependencies, triggers and times, the two queues, the
      executor's threads, futures and their combinators.  A call of a task or of the
      executor is one step: the mutexes of a task and of a queue are not in this model, and
      the cycle in which [Cancel] and [Close] take them is named as a finding.
    - Queues.v: [MPMCBoundedQueue].
    - LockFree.v: hazard pointers and the lock-free stack, with a heap in which
      freed addresses are used again.
    - SyncMap.v: [SyncMap], a map that is mostly read without its lock.
    - Channels.v: [BufferedChannel] and [UnbufferedChannel].
    - Numeric.v: range-sum, compile-eval, is-prime and reduce.
    - ConstexprMap.v: [ConstexprMap] and [Sort].
    - TimerHeap.v and IntrusiveList.v: the timers and the list of [tools/cactus],
      refined to a finite map and to a list.
    - The fibers of [tools/cactus/core] and [sync]: Fibers.v has the state of the
      scheduler and one definition for each of its operations (run queue, timers,
      wait queues, groups, cancellation, [Mutex], [CondVar]); FiberInv.v the invariant,
      FiberCalls.v that the calls keep it, FiberLoop.v the loop of the scheduler and
      the theorems.  A fiber is its position in the library; what it does between two
      calls of the library is arbitrary.
    - Poller.v: the poller of descriptors over epoll.  It uses the scheduler through the
      class [Scheduler], of which the fibers are an instance.
    - Network: Net.v ([SocketAddress], [IConn] and its contract [ConnSpec],
      [SocketConn]), Sockets.v (who owns which descriptor in dialling, listening and
      accepting), Proxy.v (socks4 and socksd), Balancer.v (peers and loads) and
      BalancerServe.v (the balancer with its open connections, composed of Balancer.v
      and Proxy.v), Dialers.v (fanout, portscan, portknock).
    - Rpc.v (tools/cactus/rpc: client and server over any connection; protobuf is the
      class [Protobuf] with its laws) and RpcGenerator.v (the plugin of protoc,
      as the calls that it makes on a printer).
    - clang-fun: NameStrings.v (edit distance, words and patterns of names) and
      NamingRules.v (the checker; a declaration is given by what is used of it).
    - Ranges.v ([Take], [Stride], [Get]), Coroutines.v (the scheduler of coroutine),
      MpscQueue.v, RwCounter.v, TimerQueue.v, Sfinae.v ([Advance], [CleverSet]).
    - Determinant.v: the determinant of compile-eval, compared with that of MathComp; it does
      not load this file, because MathComp and stdpp do not go together.
    - SubsetChecks.v: the check and the generators of data of subset-sum.
    - FixedQueue.v: the queue of the lecture on condition variables.
    - DebugWriter.v: the writer and the names of tools/cactus/core/debug.cpp.
    - Image.v: the container of pixels of jpeg-decoder.

    ** How the code is translated

    A w-bit integer is a [Z] with its wrap-around ([uwrap], [swrap]); signed
    arithmetic that would overflow gives [Fail UB] ([checked32], [checked64]).
    Fallible code returns an [outcome]: [Ok], or [Fail] of an exception, of
    undefined behaviour (an index outside of a vector, an empty [front()], signed
    overflow), of a failed check ([Abort]) or of [Fuel].  Stateful sequential code is in the state and
    error monad [M]; the handlers of one object work on another's state with [zoom].

    Concurrent code is a transition system: a shared state and a list of threads,
    each with a program counter.  A step of a thread is one atomic access, one
    critical section, one acquisition of a lock, or one call, as the file says, and
    [reachable] gives the states of all the interleavings of any number of threads.
    Accesses are sequentially consistent: weaker orders of the source are read as
    sequentially consistent ones.  A compare_exchange_weak may fail spuriously; a
    condition variable may wake spuriously where the rules say so; the choice of the
    thread that [notify_one] wakes is arbitrary.  The history that some shared states
    keep (what was pushed, what calls returned) is not read by any operation.

    ** What the theorems show

    Readers, writers, RESP: what is written is what is read, through every buffer;
    input from the network gives an answer or an exception, never undefined behaviour
    or an endless loop, with the exceptions that are named.  The server, the
    interpreter, the maps and the numeric programs are compared with a reference
    definition, errors included.  The concurrent objects satisfy invariants that give
    mutual exclusion, first-in-first-out order, linearizability, memory safety and
    the absence of forgotten sleepers in every reachable state; where a wake-up can be
    lost, a run that loses it is constructed.  The mutexes of the hash map are taken by steps
    of their own ([hash_map_linearizable] gives mutual exclusion of the threads on a bucket and
    the absence of deadlock), and so is that of rw-counter, whose [GetValue] reads the vector
    without it: [rw_counter_correct] says in which states that is a race, and bounds the value
    that is read otherwise.

    The scheduler of the fibers is safe for every behaviour of the fibers that follows
    its rules, runs them in order, and ends every wait as it promises, in rounds that include
    the timers; [fibers_safe] also says when the one check that can fail does, that the clock is
    not behind the time that [AdvanceTime] gave.  The poller is safe when at most one fiber
    waits for a direction of a descriptor, and [poller_correct] says what happens otherwise.  The
    connections, the proxies and the balancer are proved over the contracts of what
    they call ([ConnSpec], [Scheduler], [Protobuf]), and a concrete kernel
    ([Net.Toy]) meets them; the connections of [balancer_serves] may break
    ([BreakableSpec]).  [rpc_server_correct] gives the reply to every request but that for
    an unknown method, where the code follows a null pointer.  The checkers and generators
    (names, sets, stubs) are compared with the rules that they implement, and
    [check_names_correct] names what the code leaves out of the rules of the readme.

    ** Fuel

    Loops that are not structural take fuel.  The theorems state that some fuel is
    enough and that the result is the one claimed ([Run] of the interpreter, the
    server's loop, [Cancel] of the executor, whose recursion is bounded by the number
    of unfinished tasks, [ComputeOptMultNum], bounded by the number of operands,
    [RunTimers], bounded by the number of timers and one, [MakeConnection] of the
    balancer, bounded by the number of peers and one), or that no fuel is
    ([buffered_writer_large_write_diverges]).  The loops of [SocketConn] around a system
    call take as fuel how often the kernel may interrupt it or make it wait.

    ** Not modelled

    System calls (sockets, epoll, clocks), protobuf and the syntax trees of clang are
    parameters with what the code relies on.  Left out are the context switch of
    [tools/cactus/internal] (assembly and sanitizer hooks), the example of a rewriter in
    clang-fun and the set-up of the matchers in check_names.cpp (calls of clang), concepts
    (no code that runs), the decoder of jpeg-decoder (a stub), benchmarks and their
    drivers, timers and limits of memory, tests, examples and the other lectures.  The
    tickets of [Semaphore] and the counters of [RWLock] are natural numbers: they do not
    wrap around before 2^64 calls or threads.  *)

From stdpp Require Export base list strings gmap numbers relations sorting.
From Stdlib Require Export ZArith Lia Ascii.

#[global] Set Default Goal Selector "!".

(** ** Strings

    A [std::string] (or the memory a [std::span] refers to) is a list of
    characters; [str] turns a literal of the source into one. *)

Abbreviation bytes := (list ascii).

Definition str (s : string) : bytes := String.list_ascii_of_string s.

Definition ch_nul : ascii := "000"%char.
Definition ch_lf : ascii := "010"%char.
Definition ch_cr : ascii := "013"%char.
Definition CRLF : bytes := [ch_cr; ch_lf].

(** ** Machine integers

    A value of a w-bit unsigned type is a [Z] in [0, 2^w); [uwrap w] is the
    conversion (and the wrap-around of arithmetic) at that width, [swrap w] the
    conversion to the signed type of that width. *)

Definition uwrap (w x : Z) : Z := (x `mod` 2 ^ w)%Z.
Definition swrap (w x : Z) : Z := ((x + 2 ^ (w - 1)) `mod` 2 ^ w - 2 ^ (w - 1))%Z.

Abbreviation u64 := (uwrap 64).
Abbreviation u32 := (uwrap 32).
Abbreviation s64 := (swrap 64).
Abbreviation s32 := (swrap 32).

Definition kIntMin64 : Z := (- 2 ^ 63)%Z.
Definition kIntMax64 : Z := (2 ^ 63 - 1)%Z.

Definition in_s64 (x : Z) : bool := ((kIntMin64 <=? x) && (x <=? kIntMax64))%Z.

Definition in_s32 (x : Z) : bool := ((- 2 ^ 31 <=? x) && (x <? 2 ^ 31))%Z.

Create Rewrite HintDb words.

Lemma uwrap_range w x : (0 <= w)%Z → (0 <= uwrap w x < 2 ^ w)%Z.
Proof. intros ?. apply Z.mod_pos_bound. apply Z.pow_pos_nonneg; lia. Qed.

Lemma uwrap_small w x : (0 <= x < 2 ^ w)%Z → uwrap w x = x.
Proof. apply Z.mod_small. Qed.

Lemma uwrap_idem w x : (0 <= w)%Z → uwrap w (uwrap w x) = uwrap w x.
Proof. intros ?. apply uwrap_small, uwrap_range; lia. Qed.

Lemma uwrap_add_l w x y : uwrap w (uwrap w x + y) = uwrap w (x + y).
Proof. apply Zplus_mod_idemp_l. Qed.

Lemma uwrap_add_r w x y : uwrap w (x + uwrap w y) = uwrap w (x + y).
Proof. apply Zplus_mod_idemp_r. Qed.

Lemma uwrap_sub_l w x y : uwrap w (uwrap w x - y) = uwrap w (x - y).
Proof. apply Zminus_mod_idemp_l. Qed.

Lemma uwrap_sub_r w x y : uwrap w (x - uwrap w y) = uwrap w (x - y).
Proof. apply Zminus_mod_idemp_r. Qed.

Lemma uwrap_mul_l w x y : uwrap w (uwrap w x * y) = uwrap w (x * y).
Proof. apply Zmult_mod_idemp_l. Qed.

Lemma uwrap_mul_r w x y : uwrap w (x * uwrap w y) = uwrap w (x * y).
Proof. apply Zmult_mod_idemp_r. Qed.

#[export] Hint Rewrite uwrap_add_l uwrap_add_r uwrap_sub_l uwrap_sub_r
  uwrap_mul_l uwrap_mul_r : words.

(** Congruence modulo 2^w, the equality of unsigned arithmetic. *)
Definition eqm (w x y : Z) : Prop := uwrap w x = uwrap w y.

#[global] Instance eqm_equivalence w : Equivalence (eqm w).
Proof. split; [done| |]; unfold eqm; [by intros ??|by intros ??? -> ->]. Qed.

#[global] Instance add_eqm w : Proper (eqm w ==> eqm w ==> eqm w) Z.add.
Proof.
  intros x x' Hx y y' Hy. unfold eqm, uwrap in *. by rewrite Zplus_mod, Hx, Hy, <- Zplus_mod.
Qed.

#[global] Instance sub_eqm w : Proper (eqm w ==> eqm w ==> eqm w) Z.sub.
Proof.
  intros x x' Hx y y' Hy. unfold eqm, uwrap in *. by rewrite Zminus_mod, Hx, Hy, <- Zminus_mod.
Qed.

#[global] Instance mul_eqm w : Proper (eqm w ==> eqm w ==> eqm w) Z.mul.
Proof.
  intros x x' Hx y y' Hy. unfold eqm, uwrap in *. by rewrite Zmult_mod, Hx, Hy, <- Zmult_mod.
Qed.

#[global] Instance opp_eqm w : Proper (eqm w ==> eqm w) Z.opp.
Proof. intros x x' Hx. rewrite <- !Z.sub_0_l. by rewrite Hx. Qed.

Lemma eqm_uwrap w x : eqm w (uwrap w x) x.
Proof. unfold eqm, uwrap. apply Zmod_mod. Qed.

Lemma eqm_eq w x y : x = y → eqm w x y.
Proof. by intros ->. Qed.

Lemma eqm_small w x y : (0 <= x < 2 ^ w)%Z → (0 <= y < 2 ^ w)%Z → eqm w x y → x = y.
Proof. unfold eqm. intros ??. by rewrite !uwrap_small. Qed.

(** Sums over an initial segment of the natural numbers. *)
Fixpoint big_sum (n : nat) (f : nat → Z) : Z :=
  match n with O => 0 | S n' => big_sum n' f + f n' end%Z.

Lemma big_sum_eqm w n f g :
  (∀ i, i < n → eqm w (f i) (g i)) → eqm w (big_sum n f) (big_sum n g).
Proof.
  induction n as [|n IH]; intros H; cbn; [done|]. rewrite IH by auto with lia.
  by rewrite (H n) by lia.
Qed.

Lemma big_sum_ext n f g : (∀ i, i < n → f i = g i) → big_sum n f = big_sum n g.
Proof. induction n as [|n IH]; intros H; cbn; [done|]. rewrite IH, H by auto with lia. done. Qed.

Lemma big_sum_add n f g : big_sum n (λ i, f i + g i)%Z = (big_sum n f + big_sum n g)%Z.
Proof. induction n as [|n IH]; cbn; [done|]. rewrite IH. lia. Qed.

Lemma big_sum_sub n f g : big_sum n (λ i, f i - g i)%Z = (big_sum n f - big_sum n g)%Z.
Proof. induction n as [|n IH]; cbn; [done|]. rewrite IH. lia. Qed.

Lemma big_sum_mul_l n c f : big_sum n (λ i, c * f i)%Z = (c * big_sum n f)%Z.
Proof. induction n as [|n IH]; cbn; [lia|]. rewrite IH. lia. Qed.

Lemma big_sum_mul_r n c f : big_sum n (λ i, f i * c)%Z = (big_sum n f * c)%Z.
Proof. induction n as [|n IH]; cbn; [lia|]. rewrite IH. lia. Qed.

Lemma big_sum_0 n f : (∀ i, i < n → f i = 0%Z) → big_sum n f = 0%Z.
Proof. induction n as [|n IH]; intros H; cbn; [done|]. rewrite IH, H by auto with lia. done. Qed.

Lemma big_sum_swap n m f :
  big_sum n (λ i, big_sum m (λ j, f i j)) = big_sum m (λ j, big_sum n (λ i, f i j)).
Proof.
  induction n as [|n IH]; cbn.
  - by rewrite big_sum_0.
  - by rewrite IH, <- big_sum_add.
Qed.

Lemma big_sum_single n k f :
  k < n → (∀ i, i < n → i ≠ k → f i = 0%Z) → big_sum n f = f k.
Proof.
  induction n as [|n IH]; intros Hk H; [lia|]. cbn. destruct (decide (k = n)) as [->|Hne].
  - rewrite big_sum_0; [lia|]. intros i Hi. apply H; lia.
  - rewrite IH, (H n) by (auto with lia). lia.
Qed.

Lemma swrap_eqm w x : (0 < w)%Z → eqm w (swrap w x) x.
Proof.
  intros Hw. unfold eqm, swrap, uwrap.
  rewrite Zminus_mod_idemp_l. f_equal. lia.
Qed.

Lemma swrap_small w x :
  (0 < w)%Z → (- 2 ^ (w - 1) <= x < 2 ^ (w - 1))%Z → swrap w x = x.
Proof.
  intros Hw Hx. unfold swrap.
  assert (2 ^ w = 2 * 2 ^ (w - 1))%Z as Hp.
  { rewrite <- Z.pow_succ_r by lia. f_equal. lia. }
  rewrite Z.mod_small; lia.
Qed.

Lemma swrap_uwrap w x : swrap w (uwrap w x) = swrap w x.
Proof. unfold swrap, uwrap. by rewrite Zplus_mod_idemp_l. Qed.

Lemma in_s64_spec x : in_s64 x = true ↔ (- 2 ^ 63 <= x < 2 ^ 63)%Z.
Proof. unfold in_s64, kIntMin64, kIntMax64. rewrite andb_true_iff, !Z.leb_le. lia. Qed.

(** ** Effects

    Code that may fail returns an [outcome].  A failure is a C++ exception, a
    failed [CHECK] (which aborts the process), undefined behaviour the source
    runs into, or a model that was given too little fuel: only the first can be
    caught.  Code that also changes state lives in [M S A]; the state reached
    when an exception is thrown is kept, as in the source. *)

Inductive exn : Type :=
| EOFException
| RedisError (msg : string)
| RuntimeError (msg : string)
| MatrixException (msg : string)
| OutOfRange (msg : string)
| InvalidArgument
| LengthError
| BadCast
| BadTypeid
| SystemError
| TimeoutException (where_ : string)
| FiberCanceledException.

(** Whether [catch (std::exception&)] catches it: [FiberCanceledException] of
    tools/cactus/core/exceptions.h derives from nothing. *)
Definition is_std_exception (e : exn) : bool :=
  match e with FiberCanceledException => false | _ => true end.

Inductive failure : Type :=
| Exn (e : exn)
| Abort
| UB
| Fuel.

Inductive outcome (A : Type) : Type :=
| Ok (a : A)
| Fail (f : failure).
Arguments Ok {A} a.
Arguments Fail {A} f.

Definition M (S A : Type) : Type := S → outcome A * S.

Definition retM {S A} (a : A) : M S A := λ s, (Ok a, s).
Definition failM {S A} (f : failure) : M S A := λ s, (Fail f, s).
Definition throwM {S A} (e : exn) : M S A := failM (Exn e).
Definition bindM {S A B} (c : M S A) (k : A → M S B) : M S B :=
  λ s, match c s with
       | (Ok a, s') => k a s'
       | (Fail f, s') => (Fail f, s')
       end.
Definition getM {S} : M S S := λ s, (Ok s, s).
Definition putM {S} (s' : S) : M S () := λ _, (Ok (), s').
Definition modM {S} (f : S → S) : M S () := λ s, (Ok (), f s).

(** [try { c } catch (...) { h }]; [catch_std] is [catch (std::exception&)]. *)
Definition catch_all {S A} (c : M S A) (h : exn → M S A) : M S A :=
  λ s, match c s with
       | (Fail (Exn e), s') => h e s'
       | r => r
       end.
Definition catch_std {S A} (c : M S A) (h : exn → M S A) : M S A :=
  λ s, match c s with
       | (Fail (Exn e), s') => if is_std_exception e then h e s' else (Fail (Exn e), s')
       | r => r
       end.

(** Running code of a component inside the state that contains it. *)
Definition zoom {S T A} (get : S → T) (set : T → S → S) (c : M T A) : M S A :=
  λ s, let '(o, t) := c (get s) in (o, set t s).

(** Failing code without state. *)
Definition bindO {A B} (c : outcome A) (k : A → outcome B) : outcome B :=
  match c with Ok a => k a | Fail f => Fail f end.

Definition liftO {S A} (c : outcome A) : M S A := λ s, (c, s).

Fixpoint mapO {A B} (f : A → outcome B) (l : list A) : outcome (list B) :=
  match l with
  | [] => Ok []
  | x :: l => bindO (f x) (λ y, bindO (mapO f l) (λ ys, Ok (y :: ys)))
  end.

(** A loop over the elements of a list that updates a state. *)
Fixpoint forO {A B} (f : A → B → outcome B) (l : list A) (b : B) : outcome B :=
  match l with
  | [] => Ok b
  | x :: l => bindO (f x b) (forO f l)
  end.

Declare Scope cpp_scope.
Delimit Scope cpp_scope with cpp.
Notation "x <- c ;; k" := (bindM c (λ x, k))
  (at level 100, c at next level, right associativity) : cpp_scope.
Notation "c ;;; k" := (bindM c (λ _, k))
  (at level 100, right associativity) : cpp_scope.
Notation "x <-? c ;; k" := (bindO c (λ x, k))
  (at level 100, c at next level, right associativity) : cpp_scope.
Open Scope cpp_scope.

(** The result of signed 64-bit arithmetic: undefined when it overflows. *)
Definition checked64 (x : Z) : outcome Z := if in_s64 x then Ok x else Fail UB.

Lemma checked64_ok x : (- 2 ^ 63 <= x < 2 ^ 63)%Z → checked64 x = Ok x.
Proof. intros Hx%in_s64_spec. unfold checked64. by rewrite Hx. Qed.

(** The same for [int]. *)
Definition checked32 (x : Z) : outcome Z := if in_s32 x then Ok x else Fail UB.

Lemma checked32_ok x : (- 2 ^ 31 <= x < 2 ^ 31)%Z → checked32 x = Ok x.
Proof.
  intros Hx. unfold checked32, in_s32. by rewrite (proj2 (Z.leb_le _ _)), (proj2 (Z.ltb_lt _ _)) by lia.
Qed.

Lemma checked32_inv x y : checked32 x = Ok y → y = x ∧ (- 2 ^ 31 <= x < 2 ^ 31)%Z.
Proof.
  unfold checked32, in_s32. destruct (Z.leb_spec (- 2 ^ 31) x), (Z.ltb_spec x (2 ^ 31)); cbn [andb];
    try done. intros [= <-]. done.
Qed.

Lemma bindM_ok {S A B} (c : M S A) (k : A → M S B) s a s' :
  c s = (Ok a, s') → bindM c k s = k a s'.
Proof. unfold bindM. by intros ->. Qed.

Lemma bindM_fail {S A B} (c : M S A) (k : A → M S B) s f s' :
  c s = (Fail f, s') → bindM c k s = (Fail f, s').
Proof. unfold bindM. by intros ->. Qed.

Lemma bindM_ok_inv {S A B} (c : M S A) (k : A → M S B) s b s' :
  bindM c k s = (Ok b, s') → ∃ a s1, c s = (Ok a, s1) ∧ k a s1 = (Ok b, s').
Proof. unfold bindM. destruct (c s) as [[a|f] s1]; [by eauto|done]. Qed.

Lemma bindO_inv {A B} (c : outcome A) (k : A → outcome B) b :
  bindO c k = Ok b → ∃ a, c = Ok a ∧ k a = Ok b.
Proof. destruct c as [a|f]; [by exists a|done]. Qed.

Lemma liftO_inv {S A} (c : outcome A) (s : S) a s' : liftO c s = (Ok a, s') → c = Ok a ∧ s' = s.
Proof. by intros [= -> ->]. Qed.

Lemma bindM_assoc {S A B C} (c : M S A) (k : A → M S B) (k' : B → M S C) s :
  bindM (bindM c k) k' s = bindM c (λ a, bindM (k a) k') s.
Proof. unfold bindM. by destruct (c s) as [[] ?]. Qed.

Lemma bindM_get {S B} (k : S → M S B) s : bindM getM k s = k s s.
Proof. done. Qed.
Lemma bindM_put {S B} (k : () → M S B) s s' : bindM (putM s') k s = k () s'.
Proof. done. Qed.
Lemma bindM_mod {S B} (f : S → S) (k : () → M S B) s : bindM (modM f) k s = k () (f s).
Proof. done. Qed.
Lemma bindM_ret {S A B} (a : A) (k : A → M S B) s : bindM (retM a) k s = k a s.
Proof. done. Qed.
Lemma bindM_throw {S A B} e (k : A → M S B) s : bindM (throwM e) k s = (Fail (Exn e), s).
Proof. done. Qed.
Lemma bindM_lift {S A B} (c : outcome A) (k : A → M S B) s a :
  c = Ok a → bindM (liftO c) k s = k a s.
Proof. by intros ->. Qed.

Lemma mapO_ok {A B} (f : A → outcome B) (g : A → B) l :
  (∀ x, x ∈ l → f x = Ok (g x)) → mapO f l = Ok (g <$> l).
Proof.
  induction l as [|x l IH]; intros H; cbn; [done|].
  rewrite (H x) by (by constructor). cbn. rewrite IH; [done|]. intros y Hy. apply H. by constructor.
Qed.

(** A loop keeps an invariant indexed by the elements already visited. *)
Lemma forO_inv {A B} (I : list A → B → Prop) (f : A → B → outcome B) l b :
  I [] b →
  (∀ done x b, x ∈ l → I done b → ∃ b', f x b = Ok b' ∧ I (done ++ [x]) b') →
  ∃ b', forO f l b = Ok b' ∧ I l b'.
Proof.
  intros Hb Hstep.
  enough (∀ d b, I d b → ∃ b', forO f l b = Ok b' ∧ I (d ++ l) b') as H by by apply (H []).
  clear b Hb. induction l as [|x l IH]; intros d b Hb; cbn.
  - exists b. by rewrite app_nil_r.
  - destruct (Hstep d x b) as (b1&->&Hb1); [by constructor|done|]. cbn.
    destruct (IH) with (d := d ++ [x]) (b := b1) as (b2&->&?).
    + intros. apply Hstep; [by constructor|done].
    + done.
    + exists b2. by rewrite <- app_assoc in H.
Qed.

(** A loop over [0, n) keeps an invariant indexed by the counter. *)
Lemma forO_seq {B} (I : nat → B → Prop) (f : nat → B → outcome B) m n b :
  I m b →
  (∀ k b, m ≤ k < m + n → I k b → ∃ b', f k b = Ok b' ∧ I (S k) b') →
  ∃ b', forO f (seq m n) b = Ok b' ∧ I (m + n) b'.
Proof.
  revert m b. induction n as [|n IH]; intros m b Hb Hstep; cbn.
  - exists b. by rewrite Nat.add_0_r.
  - destruct (Hstep m b) as (b1&->&Hb1); [lia|done|]. cbn.
    destruct (IH (S m) b1 Hb1) as (b2&->&Hb2); [intros; apply Hstep; [lia|done]|].
    exists b2. by rewrite Nat.add_succ_r.
Qed.

Create Rewrite HintDb mrun.
#[export] Hint Rewrite @bindM_get @bindM_put @bindM_mod @bindM_ret @bindM_throw : mrun.

Lemma catch_all_ok {S A} (c : M S A) h s a s' :
  c s = (Ok a, s') → catch_all c h s = (Ok a, s').
Proof. unfold catch_all. by intros ->. Qed.

Lemma catch_all_exn {S A} (c : M S A) h s e s' :
  c s = (Fail (Exn e), s') → catch_all c h s = h e s'.
Proof. unfold catch_all. by intros ->. Qed.

Lemma zoom_run {S T A} (get : S → T) set (c : M T A) s o t :
  c (get s) = (o, t) → zoom get set c s = (o, set t s).
Proof. unfold zoom. by intros ->. Qed.

(** [mstep H] runs the first command of a sequence with the equation [H];
    [mpure] unfolds the commands that only compute, [mrun] runs those at the
    head of the sequence. *)
Ltac mstep H := erewrite bindM_ok; [| by apply H].
Ltac mpure :=
  repeat first
    [ progress unfold retM, failM, throwM, getM, putM, modM, liftO
    | progress (unfold bindM at 1) ]; cbn beta iota.
Ltac mrun := autorewrite with mrun; cbv beta zeta.

(** ** Transition systems

    Concurrent components are step relations between configurations.  An
    invariant that holds initially and is preserved by each step holds in each
    reachable configuration. *)

Section TransitionSystem.
Context {C : Type} (init : C → Prop) (step : C → C → Prop).

Definition reachable (c : C) : Prop := ∃ c0, init c0 ∧ rtc step c0 c.

Lemma reachable_init c : init c → reachable c.
Proof. intros ?. exists c. split; [done|apply rtc_refl]. Qed.

Lemma reachable_step c c' : reachable c → step c c' → reachable c'.
Proof. intros (c0&?&?) ?. exists c0. split; [done|]. by eapply rtc_r. Qed.

Lemma invariant_reachable (I : C → Prop) :
  (∀ c, init c → I c) → (∀ c c', I c → step c c' → I c') →
  ∀ c, reachable c → I c.
Proof.
  intros Hinit Hstep c (c0&H0&Hrtc). apply Hinit in H0.
  induction Hrtc; eauto.
Qed.
End TransitionSystem.

(** Histories of several owners (threads, connections) are lists of pairs; what belongs to the
    owner [i]: *)
Definition of_owner {A} (i : nat) (l : list (nat * A)) : list A := (filter (λ p, p.1 = i) l).*2.

Lemma of_owner_app {A} i (l l' : list (nat * A)) : of_owner i (l ++ l') = of_owner i l ++ of_owner i l'.
Proof. unfold of_owner. by rewrite filter_app, fmap_app. Qed.

Lemma of_owner_here {A} i (x : A) : of_owner i [(i, x)] = [x].
Proof. unfold of_owner. by rewrite filter_cons_True. Qed.

Lemma of_owner_other {A} i j (x : A) : i ≠ j → of_owner i [(j, x)] = [].
Proof. intros Hij. unfold of_owner. by rewrite filter_cons_False by (cbn; congruence). Qed.

Lemma of_owner_none {A} i (l : list (nat * A)) : Forall (λ p, p.1 < i) l → of_owner i l = [].
Proof.
  intros Hl. unfold of_owner. induction Hl as [|[j x] l Hj Hl IH]; [done|]. rewrite filter_cons_False; [done|cbn in *; lia].
Qed.

(** Threads are a list of positions in the code; [count f l] of them are where [f]
    says. *)
Definition count {A} (f : A → bool) (l : list A) : nat := length (filter (λ x, f x = true) l).

Lemma count_cons {A} (f : A → bool) x l : count f (x :: l) = Nat.b2n (f x) + count f l.
Proof.
  unfold count. rewrite filter_cons. case_decide as H; [by rewrite H|].
  apply not_true_is_false in H. by rewrite H.
Qed.

Lemma count_replicate {A} (f : A → bool) n x : f x = false → count f (replicate n x) = 0.
Proof. intros Hf. induction n as [|n IH]; [done|]. cbn [replicate]. by rewrite count_cons, Hf. Qed.

Lemma count_fmap {A B} (f : B → bool) (g : A → B) l : count f (g <$> l) = count (λ x, f (g x)) l.
Proof.
  induction l as [|x l IH]; [done|]. change (g <$> x :: l) with (g x :: (g <$> l)).
  by rewrite !count_cons, IH.
Qed.

Lemma count_ext {A} (f g : A → bool) l : (∀ x, f x = g x) → count f l = count g l.
Proof. intros Hfg. induction l as [|x l IH]; [done|]. by rewrite !count_cons, IH, Hfg. Qed.

Lemma count_none {A} (f : A → bool) l : (∀ x, x ∈ l → f x = false) → count f l = 0.
Proof.
  induction l as [|x l IH]; intros H; [done|]. rewrite count_cons, H by constructor.
  apply IH. intros y Hy. apply H. by constructor.
Qed.

Lemma count_le {A} (f : A → bool) l : count f l ≤ length l.
Proof. apply length_filter. Qed.

Lemma count_insert {A} (f : A → bool) l i x y :
  l !! i = Some x → count f (<[i:=y]> l) + Nat.b2n (f x) = count f l + Nat.b2n (f y).
Proof.
  revert i. induction l as [|z l IH]; intros [|i] Hi; [done|done| |].
  - injection Hi as ->. change (<[0:=y]> (x :: l)) with (y :: l). rewrite !count_cons. lia.
  - change (<[S i:=y]> (z :: l)) with (z :: <[i:=y]> l). rewrite !count_cons.
    specialize (IH i Hi). lia.
Qed.

Lemma count_lookup {A} (f : A → bool) l i x : l !! i = Some x → f x = true → 0 < count f l.
Proof.
  revert i. induction l as [|z l IH]; intros [|i] Hi Hf; [done|done| |]; rewrite count_cons.
  - injection Hi as ->. rewrite Hf. cbn. lia.
  - specialize (IH i Hi Hf). lia.
Qed.

Lemma count_two {A} (f : A → bool) l i j x y :
  l !! i = Some x → l !! j = Some y → f x = true → f y = true → i ≠ j → 2 ≤ count f l.
Proof.
  revert i j. induction l as [|z l IH]; intros i j Hi Hj Hx Hy Hne; [done|].
  rewrite count_cons. destruct i as [|i], j as [|j]; try done.
  - injection Hi as ->. rewrite Hx. pose proof (count_lookup f l j y Hj Hy). cbn. lia.
  - injection Hj as ->. rewrite Hy. pose proof (count_lookup f l i x Hi Hx). cbn. lia.
  - cbn in Hi, Hj. specialize (IH i j Hi Hj Hx Hy). lia.
Qed.

Lemma count_pos_lookup {A} (f : A → bool) l : 0 < count f l → ∃ i x, l !! i = Some x ∧ f x = true.
Proof.
  unfold count. intros Hc. destruct (filter _ l) as [|x k] eqn:E; [cbn in Hc; lia|].
  assert (x ∈ filter (λ x, f x = true) l) as Hx by (rewrite E; constructor).
  apply list_elem_of_filter in Hx as [Hf Hx]. apply list_elem_of_lookup in Hx as [i Hi]. by exists i, x.
Qed.

(** A thread [i] takes a step that changes the shared state and its position. *)
Definition thread_steps {S P : Type} (rule : S → P → S → P → Prop) (c c' : S * list P) : Prop :=
  ∃ i p s' p', c.2 !! i = Some p ∧ rule c.1 p s' p' ∧ c' = (s', <[i:=p']> c.2).

(** A step of a thread changes the number of threads at a place by the difference
    for that thread. *)
Ltac count_step Hi f p' := pose proof (count_insert f _ _ _ p' Hi).

(** ** Lists *)

(** [std::vector::resize] and [std::string::resize]. *)
Definition resize {A} (d : A) (n : nat) (l : list A) : list A :=
  take n l ++ replicate (n - length l) d.
#[global] Arguments resize : simpl never.

Lemma length_resize {A} (d : A) n l : length (resize d n l) = n.
Proof. unfold resize. rewrite length_app, length_take, length_replicate. lia. Qed.

Lemma resize_le {A} (d : A) n l : n ≤ length l → resize d n l = take n l.
Proof.
  intros ?. unfold resize. replace (n - length l) with 0 by lia. by rewrite app_nil_r.
Qed.

(** Overwriting [length xs] elements from position [i]. *)
Definition overwrite {A} (i : nat) (xs l : list A) : list A :=
  take i l ++ xs ++ drop (i + length xs) l.
#[global] Arguments overwrite : simpl never.

Lemma length_overwrite {A} i (xs l : list A) :
  i + length xs ≤ length l → length (overwrite i xs l) = length l.
Proof.
  intros ?. unfold overwrite. rewrite !length_app, length_take, length_drop. lia.
Qed.

Lemma take_overwrite {A} i (xs l : list A) :
  i + length xs ≤ length l → take (i + length xs) (overwrite i xs l) = take i l ++ xs.
Proof.
  intros ?. unfold overwrite. rewrite app_assoc.
  apply take_app_length'. rewrite length_app, length_take. lia.
Qed.

Lemma take_overwrite_lt {A} i j (xs l : list A) :
  j ≤ i → i ≤ length l → take j (overwrite i xs l) = take j l.
Proof.
  intros ??. unfold overwrite. rewrite take_app_le by (rewrite length_take; lia).
  rewrite take_take. f_equal. lia.
Qed.

Lemma overwrite_0 {A} (xs l : list A) : overwrite 0 xs l = xs ++ drop (length xs) l.
Proof. done. Qed.

Lemma elem_of_concat {A} (x : A) ls : x ∈ concat ls ↔ ∃ l, x ∈ l ∧ l ∈ ls.
Proof.
  induction ls as [|l ls IH]; cbn.
  - split; [intros []%elem_of_nil|intros (l&_&[]%elem_of_nil)].
  - rewrite elem_of_app, IH. split.
    + intros [?|(l'&?&?)]; [exists l|exists l']; (split; [done|]); by constructor.
    + intros (l'&?&[->|?]%elem_of_cons); [by left|right; by exists l'].
Qed.

Lemma drop_app_exact {A} n (l k : list A) : n = length l → drop n (l ++ k) = k.
Proof. intros ->. apply drop_app_length. Qed.

Lemma take_app_exact {A} n (l k : list A) : n = length l → take n (l ++ k) = l.
Proof. intros ->. apply take_app_length. Qed.

Lemma insert_snoc_take {A} (l : list A) n x :
  n < length l → take (S n) (<[n := x]> l) = take n l ++ [x].
Proof.
  intros Hn. rewrite (take_S_r _ n x).
  - by rewrite take_insert_ge.
  - by rewrite list_lookup_insert_eq.
Qed.

Lemma insert_inv {A} (l : list A) i p' j q :
  <[i:=p']> l !! j = Some q → (j = i ∧ q = p') ∨ (j ≠ i ∧ l !! j = Some q).
Proof.
  intros Hj. destruct (decide (i = j)) as [<-|Hne].
  - apply list_lookup_insert_Some in Hj as [(_&->&_)|[? _]]; [by left|done].
  - rewrite list_lookup_insert_ne in Hj by done. by right.
Qed.

Lemma lookup_overwrite_one {A} i (x : A) l : i < length l → overwrite i [x] l !! i = Some x.
Proof.
  intros ?. unfold overwrite. rewrite lookup_app_r by (rewrite length_take; lia).
  rewrite length_take, Nat.min_l, Nat.sub_diag by lia. done.
Qed.

Lemma take_S_overwrite_one {A} i (x : A) l :
  i < length l → take (S i) (overwrite i [x] l) = take i l ++ [x].
Proof.
  intros ?. rewrite <- (take_overwrite i [x] l) by (cbn; lia). f_equal. cbn. lia.
Qed.

Lemma take_resize {A} (d : A) i n l : i ≤ n → i ≤ length l → take i (resize d n l) = take i l.
Proof.
  intros ??. unfold resize. rewrite take_app_le by (rewrite length_take; lia).
  rewrite take_take. f_equal. lia.
Qed.
