(* ===== verification/Readers.v ===== *)
(** * Byte readers (tools/cactus/io/reader.h, reader.cpp, view.h)

    A reader is a state type with the [Read] of [cactus::IReader]; the
    [MutableView] argument is given by its size, and the bytes stored through it
    are the result.  [ReaderSpec] states what a reader promises to its clients
    (the RESP reader, the redis server): it owns a finite stream of bytes and
    hands out prefixes of it.  [IBufferedReader] adds [ReadNext] and
    [ReadBackUp]; [BufferedReaderSpec] is its contract, and the default [Read] of
    reader.cpp turns any such reader into a [ReaderSpec].  [BufferedReader] and
    [ViewReader] implement the contract. *)

From S2P Require Import Prelude.

(** ** Views *)

(** [Copy(out, in)]: the number of bytes copied, for the sizes of the views. *)
Definition Copy (out_size : nat) (input : bytes) : nat := min out_size (length input).

(** ** [IReader] *)

Class IReader (R : Type) := Read : nat → M R bytes.

Section IReaderOps.
Context {R : Type} `{!IReader R}.

(** The loop of [ReadFull]: [size] is the size of what is left of the view and
    [acc] what was stored in front of it. *)
Fixpoint ReadFull_loop (fuel size : nat) (acc : bytes) : M R bytes :=
  match size with
  | O => retM acc
  | S _ =>
      match fuel with
      | O => failM Fuel
      | S fuel' =>
          chunk <- Read size ;;
          if decide (chunk = []) then throwM EOFException
          else if decide (size < length chunk) then failM UB
          else ReadFull_loop fuel' (size - length chunk) (acc ++ chunk)
      end
  end.

Definition ReadFull (size : nat) : M R bytes := ReadFull_loop size size [].

(** [ReadAllToString]: [out] is the string with its current size, [pos] the
    number of bytes read so far. *)
Fixpoint ReadAllToString_loop (fuel : nat) (out : bytes) (pos : nat) : M R bytes :=
  match fuel with
  | O => failM Fuel
  | S fuel' =>
      let out := if decide (pos = length out) then resize ch_nul (length out * 2) out else out in
      chunk <- Read (length out - pos) ;;
      if decide (chunk = []) then retM (resize ch_nul pos out)
      else if decide (length out - pos < length chunk) then failM UB
      else ReadAllToString_loop fuel' (overwrite pos chunk out) (pos + length chunk)
  end.

Definition ReadAllToString (fuel : nat) : M R bytes :=
  ReadAllToString_loop fuel (replicate 1024 ch_nul) 0.
End IReaderOps.

(** What a reader promises: in a well-formed state it owns a finite stream, and
    [Read n] with [n > 0] hands out a prefix of at most [n] bytes, empty only at
    the end of the stream. *)
Class ReaderSpec (R : Type) `{!IReader R} := {
  reader_ok : R → Prop;
  stream : R → bytes;
  read_spec : ∀ n r, reader_ok r → 0 < n →
    ∃ chunk r', Read n r = (Ok chunk, r') ∧ reader_ok r' ∧
      stream r = chunk ++ stream r' ∧ length chunk ≤ n ∧
      (chunk = [] → stream r = [])
}.

Section ReaderFacts.
Context {R : Type} `{!IReader R, !ReaderSpec R}.
Implicit Types (r : R) (acc : bytes).

Lemma read_full_loop_spec fuel size acc r :
  reader_ok r → size ≤ fuel →
  (size ≤ length (stream r) →
    ∃ r', ReadFull_loop fuel size acc r = (Ok (acc ++ take size (stream r)), r') ∧
      reader_ok r' ∧ stream r' = drop size (stream r)) ∧
  (length (stream r) < size →
    ∃ r', ReadFull_loop fuel size acc r = (Fail (Exn EOFException), r') ∧
      reader_ok r' ∧ stream r' = []).
Proof.
  revert size acc r. induction fuel as [|fuel IH]; intros size acc r Hr Hfuel.
  { assert (size = 0) as -> by lia. split; [intros _|lia].
    exists r. cbn. by rewrite app_nil_r. }
  destruct size as [|size].
  { split; [intros _|lia]. exists r. cbn. by rewrite app_nil_r. }
  destruct (read_spec (S size) r Hr ltac:(lia)) as (chunk&r'&Hrd&Hr'&Hst&Hlen&Hnil).
  assert (ReadFull_loop (S fuel) (S size) acc r =
    if decide (chunk = []) then (Fail (Exn EOFException), r')
    else ReadFull_loop fuel (S size - length chunk) (acc ++ chunk) r') as Hrun.
  { cbn [ReadFull_loop]. mstep Hrd.
    destruct (decide (chunk = [])); [done|]. by rewrite decide_False by lia. }
  rewrite Hrun. destruct (decide (chunk = [])) as [->|Hne].
  { specialize (Hnil eq_refl). rewrite Hnil in *. cbn. split; [lia|].
    intros _. exists r'. done. }
  assert (0 < length chunk) by (destruct chunk; [done|cbn; lia]).
  destruct (IH (S size - length chunk) (acc ++ chunk) r' Hr' ltac:(lia)) as [IH1 IH2].
  rewrite Hst, length_app. split; intros Hsz.
  - destruct IH1 as (r''&->&?&Hd); [lia|]. exists r''. split; [|split; [done|]].
    + rewrite take_app, (take_ge chunk) by lia. by rewrite <- app_assoc.
    + rewrite Hd, drop_app, (drop_ge chunk) by lia. done.
  - apply IH2. lia.
Qed.

(** [ReadFull n] returns the next [n] bytes of the stream. *)
Lemma read_full_ok n r :
  reader_ok r → n ≤ length (stream r) →
  ∃ r', ReadFull n r = (Ok (take n (stream r)), r') ∧
    reader_ok r' ∧ stream r' = drop n (stream r).
Proof. intros Hr ?. by apply (read_full_loop_spec n n [] r). Qed.

Lemma read_full_app r s rest :
  reader_ok r → stream r = s ++ rest →
  ∃ r', ReadFull (length s) r = (Ok s, r') ∧ reader_ok r' ∧ stream r' = rest.
Proof.
  intros Hr Hs. destruct (read_full_ok (length s) r Hr) as (r'&H1&?&H2).
  { rewrite Hs, length_app. lia. }
  exists r'. rewrite H1, H2, Hs, take_app_length, drop_app_length. done.
Qed.

(** On a stream that is too short it throws, having consumed the stream. *)
Lemma read_full_eof n r :
  reader_ok r → length (stream r) < n →
  ∃ r', ReadFull n r = (Fail (Exn EOFException), r') ∧ reader_ok r' ∧ stream r' = [].
Proof. intros Hr ?. by apply (read_full_loop_spec n n [] r). Qed.

Lemma read_all_loop_spec fuel out pos r :
  reader_ok r → length (stream r) < fuel → pos ≤ length out → 0 < length out →
  ∃ r', ReadAllToString_loop fuel out pos r = (Ok (take pos out ++ stream r), r') ∧
    reader_ok r' ∧ stream r' = [].
Proof.
  revert out pos r. induction fuel as [|fuel IH]; [lia|].
  intros out pos r Hr Hfuel Hpos Hout. cbn [ReadAllToString_loop].
  set (out' := if decide (pos = length out) then _ else out).
  assert (pos < length out' ∧ take pos out' = take pos out) as [Hpos' Htake].
  { subst out'. case_decide; [|split; [lia|done]]. rewrite length_resize. split; [lia|].
    unfold resize. rewrite take_app_le by (rewrite length_take; lia).
    rewrite take_take. f_equal. lia. }
  clearbody out'.
  destruct (read_spec (length out' - pos) r Hr ltac:(lia)) as (chunk&r'&Hrd&Hr'&Hst&Hlen&Hnil).
  mstep Hrd. case_decide as Hc.
  { subst chunk. exists r'. rewrite Hnil in * by done. rewrite app_nil_r.
    rewrite resize_le, Htake by lia. done. }
  rewrite decide_False by lia.
  assert (0 < length chunk) by (destruct chunk; [done|cbn; lia]).
  destruct (IH (overwrite pos chunk out') (pos + length chunk) r' Hr') as (r''&->&?&?).
  - rewrite Hst, length_app in Hfuel. lia.
  - rewrite length_overwrite; lia.
  - rewrite length_overwrite; lia.
  - exists r''. rewrite take_overwrite by lia. rewrite Hst, Htake, <- app_assoc. done.
Qed.

Lemma read_all_to_string_ok fuel r :
  reader_ok r → length (stream r) < fuel →
  ∃ r', ReadAllToString fuel r = (Ok (stream r), r') ∧ reader_ok r' ∧ stream r' = [].
Proof.
  intros Hr Hf. unfold ReadAllToString.
  destruct (read_all_loop_spec fuel (replicate 1024 ch_nul) 0 r) as (r'&H&?); [done|done|lia| |].
  - rewrite length_replicate. lia.
  - by exists r'.
Qed.
End ReaderFacts.

(** ** [IBufferedReader]

    [ReadNext] hands out the next chunk, [ReadBackUp n] takes back its last [n]
    bytes. *)

Class IBufferedReader (R : Type) := {
  ReadNext : M R bytes;
  ReadBackUp : nat → M R ()
}.

(** [std::string::npos]: no limit. *)
Definition npos : Z := (2 ^ 64 - 1)%Z.

Section IBufferedReaderOps.
Context {R : Type} `{!IBufferedReader R}.

(** The default [Read]. *)
Definition IBufferedReader_Read (n : nat) : M R bytes :=
  chunk <- ReadNext ;;
  if decide (chunk = []) then retM []
  else
    let copy_size := Copy n chunk in
    let rest := drop copy_size chunk in
    (if decide (length rest ≠ 0) then ReadBackUp (length rest) else retM ()) ;;;
    retM (take copy_size chunk).

(** The inner loop of [ReadString] over a chunk, [buf] being what is left of it
    (the source counts it down in [i]); the result says whether the function
    returns from inside the loop. *)
Fixpoint ReadString_chunk (delim : ascii) (limit : Z) (buf result : bytes) :
    M R (bool * Z * bytes) :=
  match buf with
  | [] => retM (false, limit, result)
  | symbol :: buf' =>
      if (limit =? 0)%Z then ReadBackUp (length buf) ;;; retM (true, limit, result)
      else
        let limit := if (limit =? npos)%Z then limit else (limit - 1)%Z in
        let result := result ++ [symbol] in
        if decide (symbol = delim)
        then ReadBackUp (length buf') ;;; retM (true, limit, result)
        else ReadString_chunk delim limit buf' result
  end.

Fixpoint ReadString_loop (fuel : nat) (delim : ascii) (limit : Z) (result : bytes) : M R bytes :=
  match fuel with
  | O => failM Fuel
  | S fuel' =>
      buf <- ReadNext ;;
      if decide (buf = []) then retM result
      else
        x <- ReadString_chunk delim limit buf result ;;
        let '(stop, limit, result) := x in
        if (stop : bool) then retM result else ReadString_loop fuel' delim limit result
  end.

Definition ReadString (fuel : nat) (delim : ascii) (limit : Z) : M R bytes :=
  ReadString_loop fuel delim limit [].
End IBufferedReaderOps.

(** The contract of a buffered reader.  [window] is the part of the last chunk
    that can still be given back. *)
Class BufferedReaderSpec (R : Type) `{!IBufferedReader R} := {
  breader_ok : R → Prop;
  bstream : R → bytes;
  window : R → bytes;
  read_next_spec : ∀ r, breader_ok r →
    ∃ chunk r', ReadNext r = (Ok chunk, r') ∧ breader_ok r' ∧
      bstream r = chunk ++ bstream r' ∧ suffix chunk (window r') ∧
      (chunk = [] → bstream r = []);
  read_backup_spec : ∀ w x r, breader_ok r → window r = w ++ x →
    ∃ r', ReadBackUp (length x) r = (Ok (), r') ∧ breader_ok r' ∧
      bstream r' = x ++ bstream r ∧ window r' = w
}.

Section BufferedReaderFacts.
Context {R : Type} `{!IBufferedReader R, !BufferedReaderSpec R}.
Implicit Types (r : R).

Lemma read_backup_suffix x r :
  breader_ok r → suffix x (window r) →
  ∃ r', ReadBackUp (length x) r = (Ok (), r') ∧ breader_ok r' ∧ bstream r' = x ++ bstream r.
Proof.
  intros Hr [w Hw]. destruct (read_backup_spec w x r Hr Hw) as (r'&?&?&?&_). by exists r'.
Qed.

(** The default [Read] makes a reader out of a buffered reader. *)
Lemma buffered_read_spec n r :
  breader_ok r → 0 < n →
  ∃ chunk r', IBufferedReader_Read n r = (Ok chunk, r') ∧ breader_ok r' ∧
    bstream r = chunk ++ bstream r' ∧ length chunk ≤ n ∧
    (chunk = [] → bstream r = []).
Proof.
  intros Hr Hn. destruct (read_next_spec r Hr) as (chunk&r1&Hrn&Hr1&Hst&Hsuf&Hnil).
  unfold IBufferedReader_Read. mstep Hrn. case_decide as Hc.
  { subst chunk. exists [], r1. split_and!; [done..|cbn; lia|done]. }
  assert (0 < length chunk) by (destruct chunk; [done|cbn; lia]).
  set (k := Copy n chunk). assert (0 < k ≤ n ∧ k ≤ length chunk) as [Hk1 Hk2].
  { unfold k, Copy. lia. }
  assert (take k chunk ≠ []) as Hne.
  { intros E%(f_equal length). rewrite length_take in E. cbn in E. lia. }
  assert (∃ r2, (if decide (length (drop k chunk) ≠ 0) then ReadBackUp (length (drop k chunk))
      else retM ()) r1 = (Ok (), r2) ∧ breader_ok r2 ∧
      bstream r2 = drop k chunk ++ bstream r1) as (r2&Hbk&Hr2&Hst2).
  { case_decide as Hd.
    - apply read_backup_suffix; [done|]. etrans; [|exact Hsuf]. apply suffix_drop.
    - exists r1. assert (drop k chunk = []) as -> by (apply nil_length_inv; lia). done. }
  mstep Hbk. exists (take k chunk), r2. cbn. rewrite Hst2, app_assoc, take_drop.
  split_and!; [done..| |done]. rewrite length_take. lia.
Qed.

(** What [ReadString] returns, as a function of the stream. *)
Fixpoint take_until (delim : ascii) (limit : Z) (s : bytes) : bytes :=
  match s with
  | [] => []
  | c :: s' =>
      if (limit =? 0)%Z then []
      else c :: (if decide (c = delim) then []
                 else take_until delim (if (limit =? npos)%Z then limit else (limit - 1)%Z) s')
  end.

Lemma read_string_chunk_spec delim limit buf result r :
  breader_ok r → suffix buf (window r) →
  ∃ stop limit' p r',
    ReadString_chunk delim limit buf result r = (Ok (stop, limit', result ++ p), r') ∧
    breader_ok r' ∧ buf ++ bstream r = p ++ bstream r' ∧
    (∀ t, take_until delim limit (buf ++ t) =
            p ++ if (stop : bool) then [] else take_until delim limit' t) ∧
    (stop = false → p = buf).
Proof.
  revert limit result. induction buf as [|symbol buf IH]; intros limit result Hr Hsuf.
  { exists false, limit, [], r. rewrite app_nil_r. split_and!; done. }
  cbn [ReadString_chunk]. destruct (limit =? 0)%Z eqn:Hl.
  { destruct (read_backup_suffix (symbol :: buf) r Hr Hsuf) as (r'&Hbk&Hr'&Hst).
    mstep Hbk. exists true, limit, [], r'. rewrite app_nil_r. split_and!; try done.
    intros t. cbn. by rewrite Hl. }
  assert (suffix buf (window r)) as Hsuf'.
  { etrans; [|exact Hsuf]. by exists [symbol]. }
  set (limit1 := if (limit =? npos)%Z then limit else (limit - 1)%Z).
  case_decide as Hd.
  - destruct (read_backup_suffix buf r Hr Hsuf') as (r'&Hbk&Hr'&Hst).
    mstep Hbk. exists true, limit1, [symbol], r'. split_and!; try done.
    + cbn. by rewrite Hst.
    + intros t. cbn. rewrite Hl. by rewrite decide_True.
  - destruct (IH limit1 (result ++ [symbol]) Hr Hsuf') as (stop&l'&p&r'&Hrun&Hr'&Hst&Htu&Hf).
    exists stop, l', (symbol :: p), r'. rewrite Hrun, <- app_assoc. split_and!; try done.
    + cbn. by rewrite Hst.
    + intros t. cbn. rewrite Hl, decide_False by done. by rewrite Htu.
    + intros E. by rewrite Hf.
Qed.

Lemma read_string_loop_spec fuel delim limit result r :
  breader_ok r → length (bstream r) < fuel →
  ∃ r', ReadString_loop fuel delim limit result r =
      (Ok (result ++ take_until delim limit (bstream r)), r') ∧ breader_ok r' ∧
    bstream r = take_until delim limit (bstream r) ++ bstream r'.
Proof.
  revert limit result r. induction fuel as [|fuel IH]; [lia|].
  intros limit result r Hr Hfuel. cbn [ReadString_loop].
  destruct (read_next_spec r Hr) as (chunk&r1&Hrn&Hr1&Hst&Hsuf&Hnil).
  mstep Hrn. case_decide as Hc.
  { subst chunk. exists r1. rewrite Hnil in * by done. cbn. by rewrite app_nil_r. }
  assert (0 < length chunk) by (destruct chunk; [done|cbn; lia]).
  destruct (read_string_chunk_spec delim limit chunk result r1 Hr1 Hsuf)
    as (stop&l'&p&r2&Hrun&Hr2&Hst2&Htu&Hf).
  mstep Hrun. rewrite Hst, Htu. destruct stop.
  - exists r2. rewrite app_nil_r. by rewrite Hst2.
  - specialize (Hf eq_refl). subst p. apply app_inv_head in Hst2.
    destruct (IH l' (result ++ chunk) r2 Hr2) as (r3&Hrun3&Hr3&Hst3).
    { rewrite Hst, length_app, Hst2 in Hfuel. lia. }
    exists r3. rewrite Hrun3, Hst2, <- !app_assoc, <- Hst3. done.
Qed.

(** The bytes [take_until] takes: a prefix of at most [limit] bytes without a
    [delim] before its last byte, and cut short only by [delim] or [limit]. *)
Lemma take_until_spec delim limit s :
  (0 <= limit <= npos)%Z →
  let p := take_until delim limit s in
  (limit ≠ npos → (Z.of_nat (length p) <= limit)%Z) ∧
  (∀ i, p !! i = Some delim → S i = length p) ∧
  (p = s ∨ last p = Some delim ∨ (limit ≠ npos ∧ Z.of_nat (length p) = limit)).
Proof.
  revert limit. induction s as [|c s IH]; intros limit Hlim; cbn [take_until].
  { cbn. split_and!; [lia|done|by left]. }
  destruct (Z.eqb_spec limit 0) as [->|H0].
  { cbn. split_and!; [lia|done|]. right; right. unfold npos. done. }
  case_decide as Hd.
  { subst c. split_and!; [cbn; lia| |by right; left]. intros [|i] Hi; [done|].
    by destruct i. }
  set (limit1 := if (limit =? npos)%Z then limit else (limit - 1)%Z).
  assert (limit = npos ∧ limit1 = npos ∨ limit ≠ npos ∧ limit1 = limit - 1)%Z as Hl1.
  { unfold limit1. destruct (Z.eqb_spec limit npos); lia. }
  destruct (IH limit1 ltac:(lia)) as (IH1&IH2&IH3). split_and!.
  - intros. cbn [length]. lia.
  - intros [|i] Hi; [cbn in Hi; congruence|]. cbn [length]. f_equal. by apply IH2.
  - destruct IH3 as [IH3|[IH3|IH3]]; [left; by rewrite IH3|right; left|right; right].
    + by rewrite last_cons, IH3.
    + cbn [length]. lia.
Qed.
End BufferedReaderFacts.

(** ** [BufferedReader] *)

Module BufferedReader.
Section BufferedReader.
Context {U : Type}.

Record t : Type := mk {
  underlying_ : U;
  buffer_ : bytes;
  pos_ : nat;
  end_ : nat;
  cap_ : nat
}.

Definition set_underlying (u : U) (b : t) : t := mk u (buffer_ b) (pos_ b) (end_ b) (cap_ b).
Definition set_pos (p : nat) (b : t) : t := mk (underlying_ b) (buffer_ b) p (end_ b) (cap_ b).
Definition set_end (e : nat) (b : t) : t := mk (underlying_ b) (buffer_ b) (pos_ b) e (cap_ b).
Definition set_buffer (s : bytes) (b : t) : t := mk (underlying_ b) s (pos_ b) (end_ b) (cap_ b).

(** The constructor; [new char[buffer_size]] is uninitialised memory. *)
Definition make (reader : U) (memory : bytes) : t := mk reader memory 0 0 (length memory).

Context `{!IReader U}.

Definition ReadNext : M t bytes :=
  this <- getM ;;
  (if decide (pos_ this = end_ this) then modM (set_pos 0) ;;; modM (set_end 0) else retM ()) ;;;
  this <- getM ;;
  (if decide (end_ this = 0)
   then
     chunk <- zoom underlying_ set_underlying (Read (cap_ this)) ;;
     modM (λ b, set_end (length chunk) (set_buffer (overwrite 0 chunk (buffer_ b)) b))
   else retM ()) ;;;
  this <- getM ;;
  modM (set_pos (end_ this)) ;;;
  retM (take (end_ this - pos_ this) (drop (pos_ this) (buffer_ this))).

Definition ReadBackUp (size : nat) : M t () :=
  this <- getM ;;
  if decide (size ≤ pos_ this) then modM (set_pos (pos_ this - size)) else failM Abort.

#[global] Instance breader : IBufferedReader t :=
  {| Readers.ReadNext := ReadNext; Readers.ReadBackUp := ReadBackUp |}.
#[global] Instance reader : IReader t := IBufferedReader_Read.

Context `{!ReaderSpec U}.

Definition ok (b : t) : Prop :=
  reader_ok (underlying_ b) ∧ pos_ b ≤ end_ b ≤ cap_ b ∧
  length (buffer_ b) = cap_ b ∧ 0 < cap_ b.

Definition pending (b : t) : bytes := take (end_ b - pos_ b) (drop (pos_ b) (buffer_ b)).

Lemma fill_ok b :
  ok b → end_ b = 0 →
  ∃ b', ReadNext b = (Ok (pending b'), set_pos (end_ b') b') ∧ ok b' ∧ pos_ b' = 0 ∧
    stream (underlying_ b) = pending b' ++ stream (underlying_ b') ∧
    (pending b' = [] → stream (underlying_ b) = []).
Proof.
  intros (Hu&Hpe&Hlen&Hcap) He.
  destruct (read_spec (cap_ b) _ Hu Hcap) as (chunk&u'&Hrd&Hu'&Hst&Hle&Hnil).
  exists (mk u' (overwrite 0 chunk (buffer_ b)) 0 (length chunk) (cap_ b)).
  assert (pending (mk u' (overwrite 0 chunk (buffer_ b)) 0 (length chunk) (cap_ b)) = chunk) as Hp.
  { unfold pending. cbn [end_ pos_ buffer_]. rewrite Nat.sub_0_r, overwrite_0.
    apply take_app_length. }
  rewrite Hp. destruct b as [u buf p e c]; cbn in *. assert (p = 0) as -> by lia. subst e.
  split_and!; try done; cbn.
  - unfold ReadNext. mpure. rewrite !decide_True by done. unfold zoom. cbn.
    rewrite Hrd. cbn. by rewrite Hp.
  - unfold ok. cbn. split_and!; [done|lia|lia| |done].
    rewrite <- Hlen. apply (length_overwrite 0). cbn. lia.
Qed.

Lemma read_next_ok b :
  ok b →
  ∃ chunk b', ReadNext b = (Ok chunk, b') ∧ ok b' ∧
    pending b ++ stream (underlying_ b) = chunk ++ pending b' ++ stream (underlying_ b') ∧
    suffix chunk (take (pos_ b') (buffer_ b')) ∧
    (chunk = [] → pending b ++ stream (underlying_ b) = []).
Proof.
  intros Hok. assert (Hok' := Hok). destruct Hok' as (Hu&Hpe&Hlen&Hcap).
  assert (∀ b', ok b' → pending (set_pos (end_ b') b') = [] ∧
    suffix (pending b') (take (end_ b') (buffer_ b')) ∧ ok (set_pos (end_ b') b')) as Hset.
  { intros b' (?&?&?&?). unfold pending, ok. cbn. rewrite Nat.sub_diag. split_and!; try done.
    - exists (take (pos_ b') (buffer_ b')).
      rewrite <- (take_drop (pos_ b') (take (end_ b') (buffer_ b'))).
      rewrite take_take, skipn_firstn_comm. f_equal. f_equal. lia.
    - lia. }
  destruct (decide (pos_ b = end_ b)) as [E|NE].
  - assert (ReadNext b = ReadNext (set_end 0 (set_pos 0 b))) as ->.
    { unfold ReadNext, bindM, getM. cbn. by rewrite decide_True. }
    assert (pending b = []) as -> by (unfold pending; by rewrite E, Nat.sub_diag).
    destruct (fill_ok (set_end 0 (set_pos 0 b))) as (b'&->&Hb'&Hp&Hst&Hnil); [|done|].
    { unfold ok. cbn. split_and!; [done|lia..]. }
    destruct (Hset b' Hb') as (Hpd&Hsuf&Hok').
    exists (pending b'), (set_pos (end_ b') b'). rewrite Hpd. cbn in *. split_and!; done.
  - exists (pending b), (set_pos (end_ b) b). destruct (Hset b Hok) as (Hpd&Hsuf&Hok').
    rewrite Hpd. split_and!; try done.
    + unfold ReadNext, bindM, getM. rewrite decide_False by done. cbn.
      rewrite decide_False by lia. done.
    + intros Hp. exfalso. apply (f_equal length) in Hp. revert Hp. unfold pending. cbn.
      rewrite length_take, length_drop. lia.
Qed.

Lemma read_backup_ok w x b :
  ok b → take (pos_ b) (buffer_ b) = w ++ x →
  ∃ b', ReadBackUp (length x) b = (Ok (), b') ∧ ok b' ∧
    pending b' = x ++ pending b ∧ take (pos_ b') (buffer_ b') = w ∧
    underlying_ b' = underlying_ b.
Proof.
  intros (Hu&Hpe&Hlen&Hcap) Hw.
  assert (pos_ b = length w + length x) as Hp.
  { rewrite <- length_app, <- Hw, length_take. lia. }
  exists (set_pos (pos_ b - length x) b). split_and!; try done.
  - unfold ReadBackUp, bindM, getM. by rewrite decide_True by lia.
  - unfold ok. cbn. split_and!; [done|lia..].
  - unfold pending. cbn. rewrite <- (take_drop (pos_ b) (buffer_ b)) at 1. rewrite Hw, Hp.
    rewrite <- app_assoc, Nat.add_sub, drop_app_length.
    rewrite take_app, take_ge by lia. f_equal. f_equal. lia.
  - cbn. rewrite Hp, Nat.add_sub.
    rewrite <- (take_drop (pos_ b) (buffer_ b)), Hw, <- app_assoc. by apply take_app_length.
Qed.

#[global] Instance breader_spec : BufferedReaderSpec t.
Proof.
  refine {| breader_ok := ok; bstream b := pending b ++ stream (underlying_ b);
            window b := take (pos_ b) (buffer_ b) |}.
  - exact read_next_ok.
  - intros w x b Hok Hw. destruct (read_backup_ok w x b Hok Hw) as (b'&?&?&Hp&?&Hu).
    exists b'. rewrite Hp, Hu, <- app_assoc. done.
Defined.
#[global] Instance reader_spec : ReaderSpec t :=
  {| reader_ok := breader_ok; stream := bstream; read_spec := buffered_read_spec |}.
End BufferedReader.
Arguments t : clear implicits.
End BufferedReader.

(** ** [ViewReader] *)

Module ViewReader.
Record t : Type := mk { buf_ : bytes; pos_ : nat }.

Definition make (buf : bytes) : t := mk buf 0.

Definition ReadNext : M t bytes :=
  this <- getM ;;
  putM (mk (buf_ this) (length (buf_ this))) ;;;
  retM (drop (pos_ this) (buf_ this)).

Definition ReadBackUp (size : nat) : M t () :=
  this <- getM ;;
  if decide (size ≤ pos_ this) then putM (mk (buf_ this) (pos_ this - size)) else failM Abort.

#[global] Instance breader : IBufferedReader t :=
  {| Readers.ReadNext := ReadNext; Readers.ReadBackUp := ReadBackUp |}.
#[global] Instance reader : IReader t := IBufferedReader_Read.

#[global] Instance breader_spec : BufferedReaderSpec t.
Proof.
  refine {| breader_ok v := pos_ v ≤ length (buf_ v); bstream v := drop (pos_ v) (buf_ v);
            window v := take (pos_ v) (buf_ v) |}.
  - intros [buf p] Hp. cbn in *. exists (drop p buf), (mk buf (length buf)). cbn.
    rewrite drop_all, app_nil_r, firstn_all. split_and!; try done. apply suffix_drop.
  - intros w x [buf p] Hp Hw. cbn in *. exists (mk buf (p - length x)). cbn.
    assert (p = length w + length x) as ->.
    { rewrite <- length_app, <- Hw, length_take. lia. }
    unfold ReadBackUp, bindM, getM. cbn.
    rewrite decide_True by lia. rewrite Nat.add_sub. split_and!; [done|lia|..].
    + rewrite <- (take_drop (length w + length x) buf) at 1.
      by rewrite Hw, <- app_assoc, drop_app_length.
    + rewrite <- (take_drop (length w + length x) buf).
      by rewrite Hw, <- app_assoc, take_app_length.
Defined.
#[global] Instance reader_spec : ReaderSpec t :=
  {| reader_ok := breader_ok; stream := bstream; read_spec := buffered_read_spec |}.
End ViewReader.

(** ** [LoopReader]: one byte per [Read], from a view read in circles *)

Module LoopReader.
Record t : Type := mk { view_ : bytes; pos_ : nat }.

Definition make (view : bytes) : outcome t :=
  if decide (view = []) then Fail (Exn (RuntimeError "Empty view")) else Ok (mk view 0).

Definition Read (size : nat) : M t bytes :=
  if decide (size = 0) then retM []
  else
    this <- getM ;;
    match view_ this !! pos_ this with
    | Some b => putM (mk (view_ this) (S (pos_ this) mod length (view_ this))) ;;; retM [b]
    | None => failM UB
    end.

#[global] Instance reader : IReader t := Read.

(** The [i]-th byte the reader will deliver. *)
Definition nth_byte (r : t) (i : nat) : option ascii :=
  view_ r !! ((pos_ r + i) mod length (view_ r)).

Lemma read_full_loop_ok fuel size acc r :
  pos_ r < length (view_ r) → size ≤ fuel →
  ∃ out r', ReadFull_loop fuel size acc r = (Ok (acc ++ out), r') ∧
    length out = size ∧ (∀ i, i < size → out !! i = nth_byte r i) ∧
    view_ r' = view_ r ∧ pos_ r' = (pos_ r + size) mod length (view_ r).
Proof.
  revert size acc r. induction fuel as [|fuel IH]; intros size acc r Hr Hf.
  - assert (size = 0) as -> by lia. exists [], r. rewrite app_nil_r, Nat.add_0_r.
    rewrite Nat.mod_small by done. split_and!; [done..|lia|done|done].
  - destruct size as [|size].
    { exists [], r. rewrite app_nil_r, Nat.add_0_r.
      rewrite Nat.mod_small by done. split_and!; [done..|lia|done|done]. }
    destruct (lookup_lt_is_Some_2 (view_ r) (pos_ r) Hr) as [b Hb].
    set (r1 := mk (view_ r) (S (pos_ r) mod length (view_ r))).
    destruct (IH size (acc ++ [b]) r1) as (out&r'&Hrun&Hlen&Hout&Hv&Hp); [|lia|].
    { cbn. apply Nat.mod_upper_bound. lia. }
    exists (b :: out), r'. split_and!.
    + assert (Readers.Read (S size) r = (Ok [b], r1)) as Hrd.
      { unfold Readers.Read, reader, Read, bindM, getM. rewrite decide_False by done. by rewrite Hb. }
      cbn [ReadFull_loop]. mstep Hrd. rewrite decide_False by done. cbn [length].
      rewrite decide_False by lia. replace (S size - 1) with size by lia.
      by rewrite Hrun, <- app_assoc.
    + cbn. by rewrite Hlen.
    + intros [|i] Hi; cbn.
      * unfold nth_byte. by rewrite Nat.add_0_r, Nat.mod_small.
      * rewrite Hout by lia. unfold nth_byte. cbn.
        rewrite Nat.Div0.add_mod_idemp_l. f_equal. f_equal. lia.
    + done.
    + rewrite Hp. cbn. rewrite Nat.Div0.add_mod_idemp_l. f_equal. lia.
Qed.
End LoopReader.

(** ** Properties *)

(** A [BufferedReader] put in front of any reader delivers exactly the bytes
    the reader would have delivered: [ReadFull n] through it returns the next
    [n] bytes of the underlying stream, leaves the rest to be read, and throws
    [EOFException] when fewer than [n] bytes are left. *)
Theorem buffered_reader_read_full {U : Type} `{!IReader U, !ReaderSpec U} (u : U)
    (memory : bytes) (n : nat) :
  reader_ok u → 0 < length memory →
  (n ≤ length (stream u) →
    ∃ b', ReadFull n (BufferedReader.make u memory) = (Ok (take n (stream u)), b') ∧
      stream b' = drop n (stream u)) ∧
  (length (stream u) < n →
    ∃ b', ReadFull n (BufferedReader.make u memory) = (Fail (Exn EOFException), b')).
Proof.
  intros Hu Hm. set (b := BufferedReader.make u memory).
  assert (reader_ok b) as Hb by (cbn; unfold BufferedReader.ok; cbn; split_and!; [done|lia..]).
  assert (stream b = stream u) as Hst by done. rewrite <- Hst. split; intros Hn.
  - destruct (read_full_ok n b Hb Hn) as (b'&?&_&?). by exists b'.
  - destruct (read_full_eof n b Hb Hn) as (b'&?&_). by exists b'.
Qed.

Lemma buffered_reader_read_full_witness :
  ∃ b', ReadFull 4 (BufferedReader.make (ViewReader.make (str "foobar")) (replicate 3 ch_nul))
          = (Ok (str "foob"), b') ∧ stream b' = str "ar".
Proof.
  destruct (buffered_reader_read_full (ViewReader.make (str "foobar")) (replicate 3 ch_nul) 4)
    as [H _]; [cbn; lia|cbn; lia|]. apply H. cbn. lia.
Defined.

(** [ReadString(delim, limit)] of any buffered reader terminates and returns a
    prefix of the stream, leaving exactly the rest to be read: the prefix has at
    most [limit] bytes ([npos] meaning no limit), holds [delim] at most as its
    last byte, and stops before the end of the stream only at [delim] or at
    [limit]. *)
Theorem read_string_correct {R : Type} `{!IBufferedReader R, !BufferedReaderSpec R}
    (r : R) (delim : ascii) (limit : Z) (fuel : nat) :
  breader_ok r → (0 <= limit <= npos)%Z → length (bstream r) < fuel →
  ∃ p r', ReadString fuel delim limit r = (Ok p, r') ∧ breader_ok r' ∧
    bstream r = p ++ bstream r' ∧
    (limit ≠ npos → (Z.of_nat (length p) <= limit)%Z) ∧
    (∀ i, p !! i = Some delim → S i = length p) ∧
    (bstream r' = [] ∨ last p = Some delim ∨ (limit ≠ npos ∧ Z.of_nat (length p) = limit)).
Proof.
  intros Hr Hlim Hf.
  destruct (read_string_loop_spec fuel delim limit [] r Hr Hf) as (r'&Hrun&Hr'&Hst).
  destruct (take_until_spec delim limit (bstream r) Hlim) as (H1&H2&H3).
  exists (take_until delim limit (bstream r)), r'. split_and!; try done.
  destruct H3 as [H3|H3]; [left|by right].
  rewrite H3 in Hst. rewrite <- (app_nil_r (bstream r)) in Hst at 1.
  by apply app_inv_head in Hst.
Qed.

Lemma read_string_correct_witness :
  ∃ p r', ReadString 20 ch_lf npos (ViewReader.make (str "foo" ++ [ch_lf] ++ str "bar"))
            = (Ok p, r') ∧ str "foo" ++ [ch_lf] ++ str "bar" = p ++ bstream r'.
Proof.
  destruct (read_string_correct (ViewReader.make (str "foo" ++ [ch_lf] ++ str "bar"))
              ch_lf npos 20) as (p&r'&H&_&Hst&_); [cbn; lia|done|cbn; lia|].
  exists p, r'. split; [exact H|exact Hst].
Defined.

(** Reading [n] bytes from a [LoopReader] never fails, whatever [n]: it
    returns the view repeated from the current position, and keeps its position
    inside the view. *)
Theorem loop_reader_read_full (view : bytes) (r : LoopReader.t) (n : nat) :
  LoopReader.make view = Ok r →
  ∃ out r', ReadFull n r = (Ok out, r') ∧ length out = n ∧
    (∀ i, i < n → out !! i = view !! (i mod length view)) ∧
    LoopReader.pos_ r' < length view.
Proof.
  unfold LoopReader.make. case_decide as Hv; [done|]. intros [= <-].
  assert (0 < length view) by (destruct view; [done|cbn; lia]).
  destruct (LoopReader.read_full_loop_ok n n [] (LoopReader.mk view 0)) as (out&r'&?&?&?&_&Hp);
    [done|lia|].
  exists out, r'. split_and!; try done. rewrite Hp. apply Nat.mod_upper_bound. cbn. lia.
Qed.

Lemma loop_reader_read_full_witness :
  ∃ out r', ReadFull 5 (LoopReader.mk (str "ab") 0) = (Ok out, r') ∧ length out = 5 ∧
    (∀ i, i < 5 → out !! i = str "ab" !! (i mod length (str "ab"))) ∧
    LoopReader.pos_ r' < length (str "ab").
Proof. apply (loop_reader_read_full (str "ab")). reflexivity. Defined.
