(* ===== verification/Writers.v ===== *)
(** * Byte writers (tools/cactus/io/writer.h, writer.cpp)

    [WriterSpec] is what a writer promises to its clients (the RESP writer, the
    redis server): [Write] succeeds and appends.  An [IBufferedWriter] hands out
    views of its own memory; a view is its offset and size, and [Store] is the
    store through a view that [Copy] performs.  The default [Write] of writer.cpp
    is proved correct for any buffered writer that meets [BufferedWriterSpec],
    which [StringWriter] and [BufferedWriter] do.  [BufferedWriter] overrides
    [Write] with a version that does not return on large inputs. *)

From S2P Require Import Prelude Readers.

(** ** [IWriter] *)

Class IWriter (W : Type) := Write : bytes → M W ().

Class WriterSpec (W : Type) `{!IWriter W} := {
  writer_ok : W → Prop;
  written : W → bytes;
  write_spec : ∀ s w, writer_ok w →
    ∃ w', Write s w = (Ok (), w') ∧ writer_ok w' ∧ written w' = written w ++ s
}.

(** ** [IBufferedWriter] *)

Record view : Type := View { voff : nat; vsize : nat }.

Definition subspan (v : view) (n : nat) : view := View (voff v + n) (vsize v - n).

Class IBufferedWriter (W : Type) := {
  WriteNext : M W view;
  WriteBackUp : nat → M W ();
  Store : view → bytes → M W ();
  Flush : M W ()
}.

Section IBufferedWriterOps.
Context {W : Type} `{!IBufferedWriter W}.

(** The default [Write]. *)
Fixpoint IBufferedWriter_Write_loop (fuel : nat) (buf : bytes) : M W () :=
  match buf with
  | [] => retM ()
  | _ :: _ =>
      match fuel with
      | O => failM Fuel
      | S fuel' =>
          chunk <- WriteNext ;;
          let copy_size := Copy (vsize chunk) buf in
          Store chunk (take copy_size buf) ;;;
          let buf := drop copy_size buf in
          let chunk := subspan chunk copy_size in
          if decide (length buf = 0)
          then if decide (vsize chunk ≠ 0) then WriteBackUp (vsize chunk) else retM ()
          else IBufferedWriter_Write_loop fuel' buf
      end
  end.

Definition IBufferedWriter_Write (buf : bytes) : M W () :=
  IBufferedWriter_Write_loop (length buf) buf.

Definition Append (c : ascii) : M W () :=
  chunk <- WriteNext ;;
  Store chunk (take (Copy (vsize chunk) [c]) [c]) ;;;
  if decide (vsize chunk ≠ 1) then WriteBackUp (vsize chunk - 1) else retM ().
End IBufferedWriterOps.

(** The contract of a buffered writer.  Between [WriteNext] and the next call
    the writer has lent a view; [lent w v] says so, and what is stored at the
    front of the view and not given back counts as written. *)
Class BufferedWriterSpec (W : Type) `{!IBufferedWriter W} := {
  bwriter_ok : W → Prop;
  bwritten : W → bytes;
  lent : W → view → bytes → Prop;
  write_next_spec : ∀ w, bwriter_ok w →
    ∃ v w', WriteNext w = (Ok v, w') ∧ 0 < vsize v ∧ lent w' v (bwritten w);
  store_spec : ∀ w v base s, lent w v base → length s ≤ vsize v →
    ∃ w', Store v s w = (Ok (), w') ∧ lent w' (subspan v (length s)) (base ++ s);
  backup_spec : ∀ w v base, lent w v base →
    ∃ w', WriteBackUp (vsize v) w = (Ok (), w') ∧ bwriter_ok w' ∧ bwritten w' = base;
  lent_full : ∀ w v base, lent w v base → vsize v = 0 → bwriter_ok w ∧ bwritten w = base
}.

Section BufferedWriterFacts.
Context {W : Type} `{!IBufferedWriter W, !BufferedWriterSpec W}.
Implicit Types (w : W).

Lemma bwrite_loop_spec fuel buf w :
  bwriter_ok w → length buf ≤ fuel →
  ∃ w', IBufferedWriter_Write_loop fuel buf w = (Ok (), w') ∧ bwriter_ok w' ∧
    bwritten w' = bwritten w ++ buf.
Proof.
  revert buf w. induction fuel as [|fuel IH]; intros buf w Hw Hf.
  { destruct buf; [|cbn in Hf; lia]. exists w. cbn. by rewrite app_nil_r. }
  destruct buf as [|c buf0] eqn:Eb; [exists w; cbn; by rewrite app_nil_r|].
  cbn [IBufferedWriter_Write_loop]. rewrite <- Eb in *.
  assert (0 < length buf) as Hpos by (subst buf; cbn; lia). clear Eb c buf0.
  destruct (write_next_spec w Hw) as (v&w1&Hwn&Hv&Hl). mstep Hwn.
  set (k := Copy (vsize v) buf).
  assert (0 < k ≤ vsize v ∧ k ≤ length buf) as [Hk1 Hk2] by (unfold k, Copy; lia).
  assert (length (take k buf) = k) as Hlk by (rewrite length_take; lia).
  destruct (store_spec w1 v (bwritten w) (take k buf) Hl ltac:(lia)) as (w2&Hst&Hl2).
  mstep Hst. rewrite Hlk in Hl2. case_decide as Hd.
  - assert (take k buf = buf) as Htk.
    { apply take_ge. rewrite length_drop in Hd. lia. }
    rewrite Htk in Hl2. case_decide as Hz.
    + destruct (backup_spec _ _ _ Hl2) as (w3&?&?&?). by exists w3.
    + destruct (lent_full _ _ _ Hl2 ltac:(lia)) as [??]. exists w2. done.
  - assert (vsize (subspan v k) = 0) as Hz.
    { rewrite length_drop in Hd. cbn. unfold k, Copy in *. lia. }
    destruct (lent_full _ _ _ Hl2 Hz) as [Hw2 Hwr].
    destruct (IH (drop k buf) w2 Hw2) as (w3&Hrun&Hw3&Hwr3); [rewrite length_drop; lia|].
    exists w3. rewrite Hrun, Hwr3, Hwr, <- app_assoc, take_drop. done.
Qed.

Lemma bwrite_spec buf w :
  bwriter_ok w →
  ∃ w', IBufferedWriter_Write buf w = (Ok (), w') ∧ bwriter_ok w' ∧
    bwritten w' = bwritten w ++ buf.
Proof. intros ?. by apply bwrite_loop_spec. Qed.

Lemma append_spec c w :
  bwriter_ok w →
  ∃ w', Append c w = (Ok (), w') ∧ bwriter_ok w' ∧ bwritten w' = bwritten w ++ [c].
Proof.
  intros Hw. unfold Append.
  destruct (write_next_spec w Hw) as (v&w1&Hwn&Hv&Hl). mstep Hwn.
  assert (take (Copy (vsize v) [c]) [c] = [c]) as ->.
  { apply take_ge. unfold Copy. cbn. lia. }
  destruct (store_spec w1 v _ [c] Hl) as (w2&Hst&Hl2); [cbn; lia|]. mstep Hst.
  case_decide as Hz.
  - destruct (backup_spec _ _ _ Hl2) as (w3&?&?&?). by exists w3.
  - destruct (lent_full _ _ _ Hl2) as [??]; [cbn; lia|]. exists w2. done.
Qed.
End BufferedWriterFacts.

(** ** [StringWriter] *)

Module StringWriter.
Record t : Type := mk { str_ : bytes; size_ : nat }.

Definition make : t := mk [] 0.

Definition kMinSize : nat := 256.

Definition WriteNext : M t view :=
  this <- getM ;;
  (if decide (str_ this = []) then putM (mk (resize ch_nul kMinSize (str_ this)) (size_ this))
   else retM ()) ;;;
  this <- getM ;;
  (if decide (size_ this = length (str_ this))
   then putM (mk (resize ch_nul (2 * length (str_ this)) (str_ this)) (size_ this))
   else retM ()) ;;;
  this <- getM ;;
  putM (mk (str_ this) (length (str_ this))) ;;;
  retM (View (size_ this) (length (str_ this) - size_ this)).

(** A larger [size] would wrap [size_] around. *)
Definition WriteBackUp (size : nat) : M t () :=
  this <- getM ;;
  if decide (size ≤ size_ this) then putM (mk (str_ this) (size_ this - size)) else failM UB.

Definition Store (v : view) (s : bytes) : M t () :=
  this <- getM ;; putM (mk (overwrite (voff v) s (str_ this)) (size_ this)).

Definition Flush : M t () := retM ().

(** [StringWriter::View] *)
Definition contents (this : t) : bytes := take (size_ this) (str_ this).

#[global] Instance bwriter : IBufferedWriter t :=
  {| Writers.WriteNext := WriteNext; Writers.WriteBackUp := WriteBackUp;
     Writers.Store := Store; Writers.Flush := Flush |}.
#[global] Instance writer : IWriter t := IBufferedWriter_Write.

Definition lent (w : t) (v : view) (base : bytes) : Prop :=
  voff v + vsize v = length (str_ w) ∧ size_ w = length (str_ w) ∧ take (voff v) (str_ w) = base.

Lemma string_next_ok w :
  size_ w ≤ length (str_ w) →
  ∃ v w', WriteNext w = (Ok v, w') ∧ 0 < vsize v ∧ lent w' v (contents w).
Proof.
  destruct w as [s n]. cbn [str_ size_]. intros Hn.
  set (s1 := if decide (s = []) then resize ch_nul kMinSize s else s).
  set (s2 := if decide (n = length s1) then resize ch_nul (2 * length s1) s1 else s1).
  assert (0 < length s1 ∧ n ≤ length s1 ∧ take n s1 = take n s) as (Hs1&Hn1&Ht1).
  { subst s1. case_decide as Hs.
    - subst s. cbn in Hn. assert (n = 0) as -> by lia. rewrite length_resize, !take_0.
      unfold kMinSize. split_and!; [lia|lia|done].
    - split_and!; [|done|done]. destruct s; [done|cbn; lia]. }
  assert (n < length s2 ∧ take n s2 = take n s) as (Hs2&Ht2).
  { subst s2. case_decide as Hc; [|split; [lia|done]]. rewrite length_resize. split; [lia|].
    unfold resize. rewrite take_app_le, take_take by (rewrite length_take; lia).
    by rewrite Nat.min_l by lia. }
  exists (View n (length s2 - n)), (mk s2 (length s2)).
  split_and!; [|cbn; lia|unfold lent, contents; cbn; split_and!; [lia|done|done]].
  unfold WriteNext, bindM, getM, putM, retM. cbn [str_ size_].
  unfold s2, s1 in *. by repeat (case_decide; cbn [str_ size_]).
Qed.

#[global] Instance bwriter_spec : BufferedWriterSpec t.
Proof.
  refine {| bwriter_ok w := size_ w ≤ length (str_ w); bwritten := contents;
            Writers.lent := lent |}.
  - exact string_next_ok.
  - intros [s n] [o k] base xs (H1&H2&H3) Hle. cbn in *. eexists. split; [done|].
    unfold lent. cbn. rewrite length_overwrite, take_overwrite by lia. rewrite H3. split_and!; lia || done.
  - intros [s n] [o k] base (H1&H2&H3). cbn in *. exists (mk s (n - k)). cbn.
    unfold contents. cbn. replace (n - k) with o by lia. split_and!; [|lia|done].
    unfold WriteBackUp, bindM, getM, putM. cbn. rewrite decide_True by lia.
    by replace (n - k) with o by lia.
  - intros [s n] [o k] base (H1&H2&H3) Hk. unfold contents. cbn in *. split; [lia|].
    by replace n with o by lia.
Defined.

#[global] Instance writer_spec : WriterSpec t :=
  {| writer_ok := bwriter_ok; written := bwritten; write_spec := bwrite_spec |}.
End StringWriter.

(** ** [BufferedWriter] *)

Module BufferedWriter.
Section BufferedWriter.
Context {U : Type} `{!IWriter U}.

Record t : Type := mk { buffer_ : bytes; used_ : nat; buffer_size_ : nat; underlying_ : U }.

(** The constructor; [new char[buffer_size]] is uninitialised memory. *)
Definition make (underlying : U) (memory : bytes) : t :=
  mk memory 0 (length memory) underlying.

Definition set_used (n : nat) (b : t) : t := mk (buffer_ b) n (buffer_size_ b) (underlying_ b).
Definition set_underlying (u : U) (b : t) : t := mk (buffer_ b) (used_ b) (buffer_size_ b) u.
Definition set_buffer (s : bytes) (b : t) : t := mk s (used_ b) (buffer_size_ b) (underlying_ b).

Definition Flush : M t () :=
  this <- getM ;;
  zoom underlying_ set_underlying (Write (take (used_ this) (buffer_ this))) ;;;
  modM (set_used 0).

Definition WriteNext : M t view :=
  this <- getM ;;
  (if decide (used_ this = buffer_size_ this) then Flush else retM ()) ;;;
  this <- getM ;;
  modM (set_used (buffer_size_ this)) ;;;
  retM (View (used_ this) (buffer_size_ this - used_ this)).

Definition WriteBackUp (count : nat) : M t () :=
  this <- getM ;;
  if decide (count ≤ used_ this) then modM (set_used (used_ this - count)) else failM Abort.

Definition Store (v : view) (s : bytes) : M t () :=
  modM (λ b, set_buffer (overwrite (voff v) s (buffer_ b)) b).

#[global] Instance bwriter : IBufferedWriter t :=
  {| Writers.WriteNext := WriteNext; Writers.WriteBackUp := WriteBackUp;
     Writers.Store := Store; Writers.Flush := Flush |}.

(** [BufferedWriter::Write]: the recursive call is the virtual call of the
    source, to the same function with the same argument. *)
Fixpoint Write (fuel : nat) (buf : bytes) : M t () :=
  match fuel with
  | O => failM Fuel
  | S fuel' =>
      this <- getM ;;
      if decide (length buf < 2 * buffer_size_ this) then IBufferedWriter_Write buf
      else Flush ;;; Write fuel' buf
  end.

Context `{!WriterSpec U}.

Definition ok (b : t) : Prop :=
  writer_ok (underlying_ b) ∧ used_ b ≤ buffer_size_ b ∧
  length (buffer_ b) = buffer_size_ b ∧ 0 < buffer_size_ b.

Definition contents (b : t) : bytes := written (underlying_ b) ++ take (used_ b) (buffer_ b).

Definition lent (b : t) (v : view) (base : bytes) : Prop :=
  ok b ∧ used_ b = buffer_size_ b ∧ voff v + vsize v = buffer_size_ b ∧
  written (underlying_ b) ++ take (voff v) (buffer_ b) = base.

Lemma flush_ok b :
  ok b → ∃ u', Flush b = (Ok (), set_used 0 (set_underlying u' b)) ∧ writer_ok u' ∧
    written u' = contents b.
Proof.
  intros (Hu&?&?&?). destruct (write_spec (take (used_ b) (buffer_ b)) _ Hu) as (u'&Hw&?&?).
  exists u'. split_and!; [|done|done]. unfold Flush, bindM, getM, zoom. by rewrite Hw.
Qed.

Lemma write_next_ok b :
  ok b → ∃ v b', WriteNext b = (Ok v, b') ∧ 0 < vsize v ∧ lent b' v (contents b).
Proof.
  intros Hok. assert (Hok' := Hok). destruct Hok' as (Hu&Hle&Hlen&Hpos).
  destruct (decide (used_ b = buffer_size_ b)) as [E|NE].
  - destruct (flush_ok b Hok) as (u'&Hf&Hu'&Hw').
    exists (View 0 (buffer_size_ b)), (set_used (buffer_size_ b) (set_underlying u' b)).
    split_and!; [|done|].
    + unfold WriteNext. mpure. rewrite decide_True by done. rewrite Hf. cbn.
      by rewrite Nat.sub_0_r.
    + unfold lent, ok. cbn. rewrite take_0, app_nil_r, Hw'. split_and!; done.
  - exists (View (used_ b) (buffer_size_ b - used_ b)), (set_used (buffer_size_ b) b).
    split_and!; [|cbn; lia|].
    + unfold WriteNext. mpure. by rewrite decide_False by done.
    + unfold lent, ok. cbn. split_and!; lia || done.
Qed.

#[global] Instance bwriter_spec : BufferedWriterSpec t.
Proof.
  refine {| bwriter_ok := ok; bwritten := contents; Writers.lent := lent |}.
  - exact write_next_ok.
  - intros b [o k] base xs ((?&?&?&?)&Hu&Hv&Hb) Hle. cbn in *. eexists. split; [done|].
    unfold lent, ok. cbn. rewrite length_overwrite, take_overwrite by lia.
    rewrite app_assoc, Hb. split_and!; lia || done.
  - intros b [o k] base ((?&?&?&?)&Hu&Hv&Hb). cbn in *. exists (set_used o b).
    unfold WriteBackUp, bindM, getM, modM, ok, contents. cbn. rewrite decide_True by lia.
    replace (used_ b - k) with o by lia. split_and!; lia || done.
  - intros b [o k] base (?&Hu&Hv&Hb) Hk. cbn in *. split; [done|]. unfold contents.
    by replace (used_ b) with o by lia.
Defined.
End BufferedWriter.
Arguments t : clear implicits.
End BufferedWriter.

(** ** [IBufferedReader::WriteTo] *)

Section WriteTo.
Context {R W : Type} `{!IBufferedReader R, !IWriter W}.

Fixpoint WriteTo_loop (fuel total : nat) : M (R * W) nat :=
  match fuel with
  | O => failM Fuel
  | S fuel' =>
      buf <- zoom fst (λ r s, (r, s.2)) ReadNext ;;
      if decide (buf = []) then retM total
      else
        let total := total + length buf in
        zoom snd (λ w s, (s.1, w)) (Write buf) ;;;
        WriteTo_loop fuel' total
  end.

Definition WriteTo (fuel : nat) : M (R * W) nat := WriteTo_loop fuel 0.

Context `{!BufferedReaderSpec R, !WriterSpec W}.

Lemma write_to_loop_spec fuel total r w :
  breader_ok r → writer_ok w → length (bstream r) < fuel →
  ∃ r' w', WriteTo_loop fuel total (r, w) = (Ok (total + length (bstream r)), (r', w')) ∧
    bstream r' = [] ∧ writer_ok w' ∧ written w' = written w ++ bstream r.
Proof.
  revert total r w. induction fuel as [|fuel IH]; [lia|]. intros total r w Hr Hw Hf.
  destruct (read_next_spec r Hr) as (chunk&r1&Hrn&Hr1&Hst&_&Hnil).
  cbn [WriteTo_loop]. erewrite bindM_ok; [|apply zoom_run, Hrn]. case_decide as Hc.
  - subst chunk. exists r1, w. rewrite Hnil in * by done. rewrite app_nil_r, Nat.add_0_r. done.
  - assert (0 < length chunk) by (destruct chunk; [done|cbn; lia]).
    destruct (write_spec chunk w Hw) as (w1&Hwr&Hw1&Hwd).
    erewrite bindM_ok; [|apply zoom_run, Hwr]. cbn.
    destruct (IH (total + length chunk) r1 w1) as (r2&w2&Hrun&?&?&Hwd2); [done..| |].
    { rewrite Hst, length_app in Hf. lia. }
    exists r2, w2. rewrite Hrun, Hst, Hwd2, Hwd, <- app_assoc, length_app, Nat.add_assoc. done.
Qed.
End WriteTo.

(** ** Properties *)

(** Writing to a [StringWriter] any sequence of strings, in any sizes, leaves
    in its view exactly their concatenation (the buffer growth never loses or
    adds a byte). *)
Theorem string_writer_contents (ss : list bytes) :
  ∃ w, foldr (λ s k, Write s ;;; k) (retM ()) ss StringWriter.make = (Ok (), w) ∧
    StringWriter.contents w = concat ss.
Proof.
  assert (∀ ss (w : StringWriter.t), writer_ok w → ∃ w',
    foldr (λ s k, Write s ;;; k) (retM ()) ss w = (Ok (), w') ∧
    written w' = written w ++ concat ss) as Hgen.
  { clear ss. intros ss. induction ss as [|s ss IH]; intros w Hw.
    - exists w. cbn. by rewrite app_nil_r.
    - destruct (write_spec s w Hw) as (w1&Hs&Hw1&Hwr). cbn [foldr]. mstep Hs.
      destruct (IH w1 Hw1) as (w2&?&Hwr2). exists w2. cbn [concat].
      by rewrite Hwr2, Hwr, <- app_assoc. }
  destruct (Hgen ss StringWriter.make) as (w&?&?); [cbn; lia|]. by exists w.
Qed.

(** [BufferedWriter::Write] followed by [Flush] makes the underlying writer
    receive what was pending and then the argument, provided the argument is
    shorter than two buffers. *)
Theorem buffered_writer_write_flush {U : Type} `{!IWriter U, !WriterSpec U}
    (b : BufferedWriter.t U) (s : bytes) (fuel : nat) :
  BufferedWriter.ok b → length s < 2 * BufferedWriter.buffer_size_ b → 0 < fuel →
  ∃ b', (BufferedWriter.Write fuel s ;;; BufferedWriter.Flush) b = (Ok (), b') ∧
    written (BufferedWriter.underlying_ b') = BufferedWriter.contents b ++ s.
Proof.
  intros Hok Hs Hf. destruct fuel as [|fuel]; [lia|].
  destruct (bwrite_spec s b) as (b1&Hw&Hb1&Hwr); [exact Hok|].
  destruct (BufferedWriter.flush_ok b1 Hb1) as (u'&Hfl&_&Hu').
  exists (BufferedWriter.set_used 0 (BufferedWriter.set_underlying u' b1)).
  split; [|cbn; by rewrite Hu'].
  assert (BufferedWriter.Write (S fuel) s b = (Ok (), b1)) as Hrun.
  { cbn [BufferedWriter.Write]. unfold bindM at 1, getM. by rewrite decide_True. }
  by mstep Hrun.
Qed.

Lemma buffered_writer_write_flush_witness :
  ∃ b', (BufferedWriter.Write 1 (str "hello") ;;; BufferedWriter.Flush)
      (BufferedWriter.make StringWriter.make (replicate 3 ch_nul)) = (Ok (), b') ∧
    written (BufferedWriter.underlying_ b') = str "hello".
Proof.
  destruct (buffered_writer_write_flush
    (BufferedWriter.make StringWriter.make (replicate 3 ch_nul)) (str "hello") 1)
    as (b'&H1&H2); [unfold BufferedWriter.ok; cbn; split_and!; lia|cbn; lia|lia|].
  exists b'. split; [exact H1|rewrite H2; reflexivity].
Defined.

(** [BufferedWriter::Write] of two buffers or more never returns: with any
    number of recursive calls allowed it is still recursing (it calls itself with
    the same argument instead of writing to the underlying writer). *)
Theorem buffered_writer_large_write_diverges {U : Type} `{!IWriter U, !WriterSpec U}
    (b : BufferedWriter.t U) (s : bytes) (fuel : nat) :
  BufferedWriter.ok b → 2 * BufferedWriter.buffer_size_ b ≤ length s →
  (BufferedWriter.Write fuel s b).1 = Fail Fuel.
Proof.
  revert b. induction fuel as [|fuel IH]; [done|]. intros b Hok Hs.
  destruct (BufferedWriter.flush_ok b Hok) as (u'&Hfl&Hu'&_).
  cbn [BufferedWriter.Write]. unfold bindM at 1, getM. rewrite decide_False by lia.
  mstep Hfl. apply IH; [|done]. destruct Hok as (?&?&?&?).
  unfold BufferedWriter.ok. cbn. split_and!; done || lia.
Qed.

Lemma buffered_writer_large_write_diverges_witness :
  (BufferedWriter.Write 7 (str "hello!")
     (BufferedWriter.make StringWriter.make (replicate 3 ch_nul))).1 = Fail Fuel.
Proof.
  apply buffered_writer_large_write_diverges.
  - unfold BufferedWriter.ok. cbn. split_and!; lia.
  - cbn. lia.
Defined.

(** [WriteTo] copies the whole stream of a buffered reader to a writer and
    returns the number of bytes copied. *)
Theorem write_to_correct {R W : Type} `{!IBufferedReader R, !IWriter W}
    `{!BufferedReaderSpec R, !WriterSpec W} (r : R) (w : W) (fuel : nat) :
  breader_ok r → writer_ok w → length (bstream r) < fuel →
  ∃ r' w', WriteTo fuel (r, w) = (Ok (length (bstream r)), (r', w')) ∧
    bstream r' = [] ∧ written w' = written w ++ bstream r.
Proof.
  intros Hr Hw Hf. destruct (write_to_loop_spec fuel 0 r w Hr Hw Hf) as (r'&w'&?&?&_&?).
  by exists r', w'.
Qed.

Lemma write_to_correct_witness :
  ∃ r' w', WriteTo 5 (ViewReader.make (str "abc"), StringWriter.make) = (Ok 3, (r', w')) ∧
    bstream r' = [] ∧ written w' = str "abc".
Proof.
  destruct (write_to_correct (ViewReader.make (str "abc")) StringWriter.make 5)
    as (r'&w'&H1&H2&H3); [cbn; lia..|].
  exists r', w'. split; [exact H1|]. split; [exact H2|rewrite H3; reflexivity].
Defined.
