(* ===== verification/Decimal.v ===== *)
(** * Decimal conversions of the C++ standard library

    [to_string] is [std::to_string] on integers and [stoll] is
    [std::stoll(s, &pos)] in base ten, as [strtoll] defines it: leading white
    space, an optional sign, digits; the result comes with the number of
    characters consumed.  They are what redis/resp-reader, redis/resp-writer and
    redis/redis-server use to turn integers into bytes and back; the round trip
    between them is proved here. *)

From S2P Require Import Prelude.

Local Open Scope Z_scope.

Definition code (c : ascii) : Z := Z.of_N (N_of_ascii c).

Definition is_space (c : ascii) : bool := ((9 <=? code c) && (code c <=? 13)) || (code c =? 32).
Definition is_digit (c : ascii) : bool := (48 <=? code c) && (code c <=? 57).
Definition digit_val (c : ascii) : Z := code c - 48.
Definition digit_char (d : Z) : ascii := ascii_of_N (Z.to_N (48 + d)).

(** ** [std::to_string] *)

Fixpoint print_digits (fuel : nat) (n : Z) : bytes :=
  match fuel with
  | O => []
  | S fuel' =>
      if n <? 10 then [digit_char n]
      else print_digits fuel' (n / 10) ++ [digit_char (n mod 10)]
  end.

Definition print_nat (n : Z) : bytes := print_digits (S (Z.to_nat (Z.log2 n))) n.

Definition to_string (n : Z) : bytes :=
  if n <? 0 then "-"%char :: print_nat (- n) else print_nat n.

(** ** [std::stoll] *)

Fixpoint span (p : ascii → bool) (s : bytes) : bytes * bytes :=
  match s with
  | c :: s' => if p c then let '(a, b) := span p s' in (c :: a, b) else ([], s)
  | [] => ([], [])
  end.

Definition digits_value (ds : bytes) : Z := foldl (λ acc c, acc * 10 + digit_val c) 0 ds.

Definition stoll (s : bytes) : outcome (Z * nat) :=
  let '(spaces, s1) := span is_space s in
  let '(sign, s2) :=
    match s1 with
    | c :: s' => if decide (c = "-"%char) then (-1, s')
                 else if decide (c = "+"%char) then (1, s') else (1, s1)
    | [] => (1, s1)
    end in
  let '(ds, rest) := span is_digit s2 in
  match ds with
  | [] => Fail (Exn InvalidArgument)
  | _ :: _ =>
      let n := sign * digits_value ds in
      if in_s64 n then Ok (n, (length s - length rest)%nat)
      else Fail (Exn (OutOfRange "stoll"))
  end.

(** ** Facts *)

Lemma code_digit_char d : 0 <= d < 10 → code (digit_char d) = 48 + d.
Proof.
  intros Hd. unfold code, digit_char. rewrite N_ascii_embedding by lia. lia.
Qed.

Lemma is_digit_digit_char d : 0 <= d < 10 → is_digit (digit_char d) = true.
Proof. intros Hd. unfold is_digit. rewrite code_digit_char by done. lia. Qed.

Lemma digit_val_digit_char d : 0 <= d < 10 → digit_val (digit_char d) = d.
Proof. intros Hd. unfold digit_val. rewrite code_digit_char by done. lia. Qed.

Lemma digits_value_snoc ds c : digits_value (ds ++ [c]) = digits_value ds * 10 + digit_val c.
Proof. unfold digits_value. by rewrite foldl_app. Qed.

Lemma print_digits_spec fuel n :
  0 <= n < 2 ^ Z.of_nat fuel → (0 < fuel)%nat →
  digits_value (print_digits fuel n) = n ∧
  Forall (λ c, is_digit c = true) (print_digits fuel n) ∧
  (0 < length (print_digits fuel n))%nat.
Proof.
  revert n. induction fuel as [|fuel IH]; intros n Hn Hf; [lia|].
  cbn [print_digits]. destruct (Z.ltb_spec n 10) as [Hlt|Hge].
  { rewrite Forall_singleton. split_and!; [|apply is_digit_digit_char; lia|cbn; lia].
    unfold digits_value. cbn. rewrite digit_val_digit_char; lia. }
  destruct fuel as [|fuel]; [cbn in Hn; lia|].
  assert (0 <= n / 10 < 2 ^ Z.of_nat (S fuel)) as Hd.
  { split; [apply Z.div_pos; lia|]. apply Z.div_lt_upper_bound; [lia|].
    rewrite Nat2Z.inj_succ, Z.pow_succ_r in Hn by lia. lia. }
  destruct (IH (n / 10) Hd ltac:(lia)) as (IH1&IH2&IH3).
  pose proof (Z.mod_pos_bound n 10 ltac:(lia)). split_and!.
  - rewrite digits_value_snoc, IH1, digit_val_digit_char by done.
    pose proof (Z.div_mod n 10). lia.
  - apply Forall_app. split; [done|]. rewrite Forall_singleton. by apply is_digit_digit_char.
  - rewrite length_app. cbn. lia.
Qed.

Lemma print_nat_spec n :
  0 <= n →
  digits_value (print_nat n) = n ∧ Forall (λ c, is_digit c = true) (print_nat n) ∧
  print_nat n ≠ [].
Proof.
  intros Hn. unfold print_nat.
  destruct (print_digits_spec (S (Z.to_nat (Z.log2 n))) n) as (H1&H2&H3); [|lia|].
  - split; [done|]. rewrite Nat2Z.inj_succ, Z2Nat.id by apply Z.log2_nonneg.
    destruct (Z.eq_dec n 0) as [->|]; [cbn; lia|]. apply Z.log2_spec. lia.
  - split_and!; [done..|]. intros E. rewrite E in H3. cbn in H3. lia.
Qed.

Lemma span_all p s rest :
  Forall (λ c, p c = true) s → (∀ c r, rest = c :: r → p c = false) →
  span p (s ++ rest) = (s, rest).
Proof.
  intros Hs Hr. induction Hs as [|c s Hc Hs IH]; cbn.
  - destruct rest as [|c rest]; [done|]. cbn. by rewrite (Hr c rest).
  - by rewrite Hc, IH.
Qed.

Lemma span_none p s : (∀ c r, s = c :: r → p c = false) → span p s = ([], s).
Proof. intros H. by apply (span_all p [] s). Qed.

Lemma span_app p s : let '(a, b) := span p s in s = a ++ b.
Proof.
  induction s as [|c s IH]; [done|]. cbn. destruct (p c); [|done].
  destruct (span p s) as [a b]. cbn. by rewrite IH.
Qed.

Lemma digit_not_special c :
  is_digit c = true → is_space c = false ∧ c ≠ "-"%char ∧ c ≠ "+"%char ∧ c ≠ ch_cr ∧ c ≠ ch_lf.
Proof.
  unfold is_digit, is_space. intros H. split; [lia|].
  split_and!; intros ->; by vm_compute in H.
Qed.

Lemma print_nat_head n :
  0 <= n → ∃ c r, print_nat n = c :: r ∧ is_digit c = true.
Proof.
  intros Hn. destruct (print_nat_spec n Hn) as (_&Hd&Hne).
  destruct (print_nat n) as [|c r]; [done|]. inversion Hd; subst. eauto.
Qed.

Lemma stoll_to_string n :
  in_s64 n = true → stoll (to_string n) = Ok (n, length (to_string n)).
Proof.
  intros Hn. unfold to_string. destruct (Z.ltb_spec n 0) as [Hneg|Hpos].
  - destruct (print_nat_spec (- n) ltac:(lia)) as (Hv&Hd&Hne).
    unfold stoll. rewrite span_none by (by intros c r [= <- <-]). cbv beta iota.
    rewrite decide_True by done.
    rewrite <- (app_nil_r (print_nat (- n))) at 1. rewrite span_all by done.
    destruct (print_nat (- n)) as [|c r] eqn:E; [done|]. cbn [length].
    rewrite Hv. replace (-1 * - n) with n by lia. rewrite Hn, Nat.sub_0_r. done.
  - destruct (print_nat_spec n Hpos) as (Hv&Hd&Hne).
    destruct (print_nat_head n Hpos) as (c&r&E&Hc). rewrite E in *.
    destruct (digit_not_special c Hc) as (Hsp&Hm&Hp&_).
    unfold stoll. rewrite span_none by (by intros ?? [= <- <-]).
    rewrite !decide_False by done. rewrite <- (app_nil_r (c :: r)) at 1.
    rewrite span_all by done. rewrite Hv.
    replace (1 * n) with n by lia. rewrite Hn. cbn [length]. by rewrite Nat.sub_0_r.
Qed.

Lemma to_string_no_crlf n : (ch_cr ∉ to_string n) ∧ (ch_lf ∉ to_string n).
Proof.
  assert (∀ m, 0 <= m → ∀ c, c ∈ print_nat m → c ≠ ch_cr ∧ c ≠ ch_lf) as H.
  { intros m Hm c Hc. destruct (print_nat_spec m Hm) as (_&Hd&_).
    rewrite Forall_forall in Hd. apply digit_not_special, Hd, Hc. }
  unfold to_string. destruct (Z.ltb_spec n 0).
  - rewrite !not_elem_of_cons. split_and!; try done; intros Hc; by destruct (H (- n) ltac:(lia) _ Hc).
  - split; intros Hc; by destruct (H n ltac:(lia) _ Hc).
Qed.

Lemma print_digits_length fuel n : (length (print_digits fuel n) ≤ fuel)%nat.
Proof.
  revert n. induction fuel as [|fuel IH]; intros n; cbn; [lia|].
  destruct (n <? 10); [cbn; lia|]. rewrite length_app. cbn. specialize (IH (n / 10)). lia.
Qed.

Lemma to_string_length n : - 2 ^ 64 <= n <= 2 ^ 64 → (length (to_string n) ≤ 66)%nat.
Proof.
  assert (∀ m, 0 <= m <= 2 ^ 64 → (length (print_nat m) ≤ 65)%nat) as H.
  { intros m Hm. unfold print_nat. etrans; [apply print_digits_length|].
    assert (Z.log2 m <= 64).
    { rewrite <- (Z.log2_pow2 64) by lia. apply Z.log2_le_mono. lia. }
    lia. }
  intros Hn. unfold to_string. destruct (Z.ltb_spec n 0); cbn [length].
  - specialize (H (- n) ltac:(lia)). lia.
  - specialize (H n ltac:(lia)). lia.
Qed.

Lemma stoll_range s n k : stoll s = Ok (n, k) → in_s64 n = true.
Proof.
  unfold stoll. destruct (span is_space s) as [sp s1].
  destruct (match s1 with [] => _ | _ => _ end) as [sg s2].
  destruct (span is_digit s2) as [[|d ds] rest]; [done|].
  destruct (in_s64 _) eqn:E; [|done]. intros [= <- _]. done.
Qed.
