(* ===== verification/Resp.v ===== *)
(** * The RESP protocol (redis/resp_types.h, redis/resp-writer, redis/resp-reader)

    [RespWriter] works on any [IWriter] and [RespReader] on any [IReader]; the
    theorems are proved against the contracts [WriterSpec] and [ReaderSpec].  The
    reader is shown to implement the reference scanner [scan_line] on every
    input, and writing then reading is shown to be the identity on messages. *)

From S2P Require Import Prelude Readers Writers Decimal.

(** ** resp_types.h *)

Inductive ERespType : Type := SimpleString | Int | Error | BulkString | Array.

#[global] Instance ERespType_eq_dec : EqDecision ERespType.
Proof. solve_decision. Defined.

Definition CharToRespType (c : ascii) : outcome ERespType :=
  if decide (c = "+"%char) then Ok SimpleString
  else if decide (c = ":"%char) then Ok Int
  else if decide (c = "-"%char) then Ok Error
  else if decide (c = "$"%char) then Ok BulkString
  else if decide (c = "*"%char) then Ok Array
  else Fail (Exn (RedisError ("Unknown type byte '" +:+ String c "'"))).

Definition RespTypeToChar (type : ERespType) : ascii :=
  match type with
  | SimpleString => "+"%char
  | Int => ":"%char
  | Error => "-"%char
  | BulkString => "$"%char
  | Array => "*"%char
  end.

Definition ToString (type : ERespType) : string :=
  match type with
  | SimpleString => "SimpleString"
  | Int => "Int"
  | Error => "Error"
  | BulkString => "BulkString"
  | Array => "Array"
  end.

Lemma char_to_resp_type_inv type : CharToRespType (RespTypeToChar type) = Ok type.
Proof. by destruct type. Qed.

(** ** RespWriter *)

Module RespWriter.
Section RespWriter.
Context {W : Type} `{!IWriter W}.

Definition FinishMessageField : M W () := Write CRLF.

Definition WriteSimpleString (s : bytes) : M W () :=
  Write [RespTypeToChar SimpleString] ;;; Write s ;;; FinishMessageField.

Definition WriteError (s : bytes) : M W () :=
  Write [RespTypeToChar Error] ;;; Write s ;;; FinishMessageField.

Definition WriteInt (n : Z) : M W () :=
  Write [RespTypeToChar Int] ;;; Write (to_string n) ;;; FinishMessageField.

Definition WriteBulkString (s : bytes) : M W () :=
  Write [RespTypeToChar BulkString] ;;;
  Write (to_string (Z.of_nat (length s))) ;;;
  FinishMessageField ;;;
  Write s ;;;
  FinishMessageField.

Definition WriteNullBulkString : M W () :=
  Write [RespTypeToChar BulkString] ;;; Write (str "-1") ;;; FinishMessageField.

Definition StartArray (size : nat) : M W () :=
  Write [RespTypeToChar Array] ;;; Write (to_string (Z.of_nat size)) ;;; FinishMessageField.

Definition WriteNullArray : M W () :=
  Write [RespTypeToChar Array] ;;; Write (str "-1") ;;; FinishMessageField.

Fixpoint WriteInts (array : list Z) : M W () :=
  match array with
  | [] => retM ()
  | number :: rest => WriteInt number ;;; WriteInts rest
  end.

Definition WriteArrayInts (range : list Z) : M W () :=
  StartArray (length range) ;;; WriteInts range.

(** What each operation appends to the output. *)
Context `{!WriterSpec W}.
Implicit Types (w : W).

Definition appends (c : M W ()) (out : bytes) : Prop :=
  ∀ w, writer_ok w → ∃ w', c w = (Ok (), w') ∧ writer_ok w' ∧ written w' = written w ++ out.

Lemma appends_write s : appends (Write s) s.
Proof. intros w. apply write_spec. Qed.

Lemma appends_ret : appends (retM ()) [].
Proof. intros w Hw. exists w. by rewrite app_nil_r. Qed.

Lemma appends_seq (c k : M W ()) a b : appends c a → appends k b → appends (c ;;; k) (a ++ b).
Proof.
  intros Hc Hk w Hw. destruct (Hc w Hw) as (w1&H1&Hw1&E1).
  destruct (Hk w1 Hw1) as (w2&H2&Hw2&E2). exists w2. mstep H1.
  rewrite H2, E2, E1, <- app_assoc. done.
Qed.
End RespWriter.
End RespWriter.

Create HintDb resp.
#[global] Hint Resolve RespWriter.appends_write RespWriter.appends_ret RespWriter.appends_seq : resp.

(** A message of the protocol, as the writer writes it; [enc] is its encoding. *)
Inductive message : Type :=
| MSimple (s : bytes)
| MError (s : bytes)
| MInt (n : Z)
| MBulk (s : bytes)
| MNullBulk
| MArray (size : nat)
| MNullArray.

Definition enc (m : message) : bytes :=
  match m with
  | MSimple s => "+"%char :: s ++ CRLF
  | MError s => "-"%char :: s ++ CRLF
  | MInt n => ":"%char :: to_string n ++ CRLF
  | MBulk s => "$"%char :: to_string (Z.of_nat (length s)) ++ CRLF ++ s ++ CRLF
  | MNullBulk => "$"%char :: str "-1" ++ CRLF
  | MArray size => "*"%char :: to_string (Z.of_nat size) ++ CRLF
  | MNullArray => "*"%char :: str "-1" ++ CRLF
  end.

Definition write_message {W} `{!IWriter W} (m : message) : M W () :=
  match m with
  | MSimple s => RespWriter.WriteSimpleString s
  | MError s => RespWriter.WriteError s
  | MInt n => RespWriter.WriteInt n
  | MBulk s => RespWriter.WriteBulkString s
  | MNullBulk => RespWriter.WriteNullBulkString
  | MArray size => RespWriter.StartArray size
  | MNullArray => RespWriter.WriteNullArray
  end.

Fixpoint write_messages {W} `{!IWriter W} (ms : list message) : M W () :=
  match ms with [] => retM () | m :: ms => write_message m ;;; write_messages ms end.

Section WriterFacts.
Context {W : Type} `{!IWriter W, !WriterSpec W}.

Lemma appends_eq (c : M W ()) a b : RespWriter.appends c a → a = b → RespWriter.appends c b.
Proof. by intros ? <-. Qed.

Lemma write_message_enc m : RespWriter.appends (W := W) (write_message m) (enc m).
Proof.
  destruct m; (eapply appends_eq; [eauto 20 with resp|]); cbn; by rewrite ?app_nil_r.
Qed.

Lemma write_messages_enc ms :
  RespWriter.appends (W := W) (write_messages ms) (concat (enc <$> ms)).
Proof.
  induction ms as [|m ms IH]; cbn; [apply RespWriter.appends_ret|].
  apply RespWriter.appends_seq; [apply write_message_enc|done].
Qed.

(** An array of integers is its header followed by the integers. *)
Lemma write_array_ints_enc ns :
  RespWriter.appends (W := W) (RespWriter.WriteArrayInts ns)
    (concat (enc <$> MArray (length ns) :: (MInt <$> ns))).
Proof.
  cbn [fmap list_fmap concat]. apply RespWriter.appends_seq; [apply (write_message_enc (MArray _))|].
  induction ns as [|n ns IH]; [apply RespWriter.appends_ret|].
  cbn [RespWriter.WriteInts fmap list_fmap concat].
  apply RespWriter.appends_seq; [apply (write_message_enc (MInt n))|done].
Qed.
End WriterFacts.

(** ** RespReader *)

(** [std::pow(2, 16)] *)
Definition kMaxBuf : Z := 65536.

(** More iterations than the loop of [ReadBasicStringToBuf] can make. *)
Definition kBasicFuel : nat := Z.to_nat 65537.

Module RespReader.
Section RespReader.
Context {R : Type} `{!IReader R}.

Record t : Type := mk { reader_ : R; buf_ : bytes }.

Definition make (reader : R) : t := mk reader [].

Definition set_reader (r : R) (this : t) : t := mk r (buf_ this).
Definition set_buf (s : bytes) (this : t) : t := mk (reader_ this) s.

(** [reader_->ReadFull(...)] of [n] bytes, outside of [buf_] ... *)
Definition read_full (n : nat) : M t bytes := zoom reader_ set_reader (ReadFull n).

(** ... and into [buf_] at position [i]. *)
Definition read_into_buf (i n : nat) : M t () :=
  this <- getM ;;
  if decide (i + n ≤ length (buf_ this))
  then s <- read_full n ;; modM (λ this, set_buf (overwrite i s (buf_ this)) this)
  else failM UB.

(** [buf_[i]] *)
Definition buf_at (i : nat) : M t ascii :=
  this <- getM ;; match buf_ this !! i with Some c => retM c | None => failM UB end.

Definition ReadType : M t ERespType :=
  catch_all
    (s <- read_full 1 ;;
     match s with c :: _ => liftO (CharToRespType c) | [] => failM UB end)
    (λ _, throwM (RedisError "Error parsing simple string")).

Fixpoint ReadBasicString_loop (fuel size : nat) : M t nat :=
  match fuel with
  | O => failM Fuel
  | S fuel' =>
      read_into_buf size 1 ;;;
      c <- buf_at size ;;
      if decide (c = ch_cr) then retM size
      else if decide (c = ch_lf) then throwM (RedisError "Wrong string ending symbol")
      else
        let size := S size in
        this <- getM ;;
        (if decide (length (buf_ this) = size)
         then
           if (kMaxBuf <? Z.of_nat size * 2)%Z
           then throwM (RedisError "Wrong string ending symbol")
           else modM (set_buf (resize ch_nul (size * 2) (buf_ this)))
         else retM ()) ;;;
        ReadBasicString_loop fuel' size
  end.

Definition ReadBasicStringToBuf : M t () :=
  modM (set_buf (replicate 1023 ch_nul)) ;;;
  size <- ReadBasicString_loop kBasicFuel 0 ;;
  read_into_buf size 1 ;;;
  c <- buf_at size ;;
  if decide (c = ch_lf)
  then this <- getM ;; modM (set_buf (resize ch_nul size (buf_ this)))
  else throwM (RedisError "Wrong string ending symbol").

Definition ReadSimpleString : M t bytes :=
  catch_all (ReadBasicStringToBuf ;;; this <- getM ;; retM (buf_ this))
    (λ _, throwM (RedisError "Error parsing simple string")).

Definition ReadError : M t bytes :=
  catch_all (ReadBasicStringToBuf ;;; this <- getM ;; retM (buf_ this))
    (λ _, throwM (RedisError "Error parsing error")).

Definition ReadInt : M t Z :=
  catch_all
    (ReadBasicStringToBuf ;;;
     this <- getM ;;
     x <- liftO (stoll (buf_ this)) ;;
     let '(res, pos) := x in
     if decide (pos ≠ length (buf_ this)) then throwM (RedisError "Wrong integer string format")
     else
       c <- buf_at 0 ;;
       if decide (c = " "%char) then throwM (RedisError "Wrong integer string format")
       else retM res)
    (λ _, throwM (RedisError "Error parsing integer")).

(** [length + 2] is an addition of [int64_t] and overflows for the two largest
    lengths. *)
Definition ReadBulkString : M t (option bytes) :=
  catch_all
    (ReadBasicStringToBuf ;;;
     this <- getM ;;
     x <- liftO (stoll (buf_ this)) ;;
     let '(len, pos) := x in
     if decide (pos ≠ length (buf_ this) ∨ (len < -1)%Z)
     then throwM (RedisError "Wrong unsigned integer string format")
     else if decide (len = -1)%Z then retM None
     else if decide (kIntMax64 < len + 2)%Z then failM UB
     else
       let n := Z.to_nat len in
       modM (set_buf (replicate (n + 2) ch_nul)) ;;;
       read_into_buf 0 (n + 2) ;;;
       c1 <- buf_at n ;;
       c2 <- buf_at (n + 1) ;;
       if decide (c1 ≠ ch_cr ∨ c2 ≠ ch_lf)
       then throwM (RedisError "Wrong string ending symbol")
       else
         this <- getM ;;
         modM (set_buf (resize ch_nul n (buf_ this))) ;;;
         this <- getM ;; retM (Some (buf_ this)))
    (λ _, throwM (RedisError "Error parsing bulk string")).

Definition ReadArrayLength : M t Z :=
  catch_all
    (ReadBasicStringToBuf ;;;
     this <- getM ;;
     x <- liftO (stoll (buf_ this)) ;;
     let '(len, pos) := x in
     if decide (pos ≠ length (buf_ this) ∨ (len < -1)%Z)
     then throwM (RedisError "Wrong unsigned integer string format")
     else retM len)
    (λ _, throwM (RedisError "Error parsing array legth")).

Context `{!ReaderSpec R}.

Lemma read_full_run n t s rest :
  reader_ok (reader_ t) → stream (reader_ t) = s ++ rest → length s = n →
  ∃ r', read_full n t = (Ok s, set_reader r' t) ∧ reader_ok r' ∧ stream r' = rest.
Proof.
  intros Hr Hst <-. destruct (read_full_app (reader_ t) s rest Hr Hst) as (r'&H&?&?).
  exists r'. split; [|done]. by apply zoom_run.
Qed.

Lemma read_full_run_eof n t :
  reader_ok (reader_ t) → length (stream (reader_ t)) < n →
  ∃ r', read_full n t = (Fail (Exn EOFException), set_reader r' t) ∧ reader_ok r'.
Proof.
  intros Hr Hst. destruct (read_full_eof n (reader_ t) Hr Hst) as (r'&H&?&?).
  exists r'. split; [|done]. by apply zoom_run.
Qed.

Lemma read_into_buf_run i t s rest :
  reader_ok (reader_ t) → stream (reader_ t) = s ++ rest → i + length s ≤ length (buf_ t) →
  ∃ r', read_into_buf i (length s) t = (Ok (), mk r' (overwrite i s (buf_ t))) ∧
    reader_ok r' ∧ stream r' = rest.
Proof.
  intros Hr Hst Hi. destruct (read_full_run (length s) t s rest Hr Hst eq_refl) as (r'&H&?&?).
  exists r'. split; [|done]. unfold read_into_buf. unfold bindM at 1, getM.
  rewrite decide_True by done. by mstep H.
Qed.

Lemma read_into_buf_eof i n t :
  reader_ok (reader_ t) → length (stream (reader_ t)) < n → i + n ≤ length (buf_ t) →
  ∃ r', read_into_buf i n t = (Fail (Exn EOFException), set_reader r' t) ∧ reader_ok r'.
Proof.
  intros Hr Hst Hi. destruct (read_full_run_eof n t Hr Hst) as (r'&H&?).
  exists r'. split; [|done]. unfold read_into_buf. unfold bindM at 1, getM.
  rewrite decide_True by done. by erewrite bindM_fail.
Qed.

Lemma buf_at_run i t c : buf_ t !! i = Some c → buf_at i t = (Ok c, t).
Proof. unfold buf_at, bindM, getM. by intros ->. Qed.

(** The reference: a line is what precedes the first CR or LF; it must be ended
    by CR LF and be shorter than the largest buffer. *)
Definition plain (c : ascii) : bool := bool_decide (c ≠ ch_cr ∧ c ≠ ch_lf).
Definition kMaxLine : Z := 65472.

(** The sizes the buffer takes. *)
Definition buf_size_ok (n : nat) : Prop :=
  ∃ k : Z, (0 <= k <= 6)%Z ∧ Z.of_nat n = (1023 * 2 ^ k)%Z.

Lemma buf_size_cases n :
  buf_size_ok n →
  (Z.of_nat n = 1023 ∨ Z.of_nat n = 2046 ∨ Z.of_nat n = 4092 ∨ Z.of_nat n = 8184 ∨
   Z.of_nat n = 16368 ∨ Z.of_nat n = 32736 ∨ Z.of_nat n = 65472)%Z.
Proof.
  intros (k&Hk&Hn).
  assert (k = 0 ∨ k = 1 ∨ k = 2 ∨ k = 3 ∨ k = 4 ∨ k = 5 ∨ k = 6)%Z as Hc by lia.
  destruct Hc as [->|[->|[->|[->|[->|[->| ->]]]]]]; cbn in Hn; lia.
Qed.

Lemma buf_size_grow n :
  buf_size_ok n → (Z.of_nat n * 2 <= kMaxBuf)%Z → buf_size_ok (n * 2).
Proof.
  intros Hn Hle. destruct Hn as (k&Hk&Hn). exists (k + 1)%Z.
  rewrite Z.pow_add_r by lia. split; [|lia].
  assert (k ≠ 6)%Z; [|lia]. intros ->. unfold kMaxBuf in Hle. cbn in Hn. lia.
Qed.

Lemma basic_loop_spec st fuel size t :
  reader_ok (reader_ t) → stream (reader_ t) = st →
  (kMaxLine < Z.of_nat size + Z.of_nat fuel)%Z →
  size < length (buf_ t) → buf_size_ok (length (buf_ t)) →
  let '(line, rest) := span plain st in
  ∃ t', reader_ok (reader_ t') ∧
    if decide (head rest = Some ch_cr ∧ (Z.of_nat (size + length line) < kMaxLine)%Z)
    then ReadBasicString_loop fuel size t = (Ok (size + length line), t') ∧
      stream (reader_ t') = tail rest ∧ size + length line < length (buf_ t') ∧
      take (size + length line) (buf_ t') = take size (buf_ t) ++ line
    else ∃ e, ReadBasicString_loop fuel size t = (Fail (Exn e), t').
Proof.
  revert fuel size t. induction st as [|c st IH]; intros fuel size t Hr Hst Hfuel Hsz Hok;
    (pose proof (buf_size_cases _ Hok) as Hcases; unfold kMaxLine in *;
     destruct fuel as [|fuel]; [lia|]; cbn [ReadBasicString_loop]).
  { destruct (read_into_buf_eof size 1 t) as (r'&H&?); [done|rewrite Hst; cbn; lia|lia|].
    exists (set_reader r' t). split; [done|]. rewrite decide_False by (by intros [? _]).
    exists EOFException. by erewrite bindM_fail. }
  destruct (read_into_buf_run size t [c] st) as (r'&H&Hr'&Hst'); [done..|cbn; lia|].
  cbn [length] in H. mstep H. clear H.
  set (t1 := mk r' (overwrite size [c] (buf_ t))).
  assert (length (buf_ t1) = length (buf_ t)) as Hl1.
  { cbn. rewrite length_overwrite; [done|cbn; lia]. }
  assert (take (S size) (buf_ t1) = take size (buf_ t) ++ [c]) as Ht1.
  { by apply take_S_overwrite_one. }
  rewrite (bindM_ok _ _ t1 c t1) by (by apply buf_at_run, lookup_overwrite_one).
  cbn [span]. destruct (plain c) eqn:Hp.
  - apply bool_decide_eq_true in Hp as [Hp1 Hp2].
    rewrite !decide_False by done. mrun.
    destruct (span plain st) as [line rest] eqn:Espan.
    destruct (decide (length (buf_ t1) = S size)) as [Efull|Nfull].
    + destruct (Z.ltb_spec kMaxBuf (Z.of_nat (S size) * 2)) as [Hbig|Hsmall].
      * exists t1. split; [done|]. unfold kMaxBuf in Hbig. cbn [length].
        rewrite decide_False by (intros [_ ?]; lia). by eexists.
      * set (t2 := set_buf (resize ch_nul (S size * 2) (buf_ t1)) t1).
        specialize (IH fuel (S size) t2). unfold kMaxLine in IH. cbn [length].
        destruct IH as (t'&Ht'&IH); [done|done|lia|..].
        { unfold t2, set_buf. cbn [buf_]. rewrite length_resize. lia. }
        { unfold t2, set_buf. cbn [buf_]. rewrite length_resize.
          rewrite <- Efull, Hl1. apply buf_size_grow; [done|]. rewrite <- Hl1, Efull. lia. }
        exists t'. split; [done|]. mrun. fold t2.
        rewrite Nat.add_succ_comm in IH. case_decide; [|done].
        destruct IH as (?&?&?&IH). split_and!; [done..|]. rewrite IH. unfold t2, set_buf. cbn [buf_].
        rewrite take_resize, Ht1 by lia. by rewrite <- app_assoc.
    + specialize (IH fuel (S size) t1). unfold kMaxLine in IH. cbn [length].
      destruct IH as (t'&Ht'&IH); [done|done|lia|lia|by rewrite Hl1|].
      exists t'. split; [done|]. mrun.
      rewrite Nat.add_succ_comm in IH. case_decide; [|done].
      destruct IH as (?&?&?&IH). split_and!; [done..|]. by rewrite IH, Ht1, <- app_assoc.
  - exists t1. split; [done|]. cbn [head length]. rewrite Nat.add_0_r.
    destruct (decide (c = ch_cr)) as [->|Hcr].
    + rewrite decide_True by (split; [done|lia]). split_and!; [done..|lia|].
      rewrite app_nil_r. cbn. apply take_overwrite_lt; lia.
    + rewrite decide_False by (by intros [[= ?] _]).
      destruct (decide (c = ch_lf)) as [->|Hlf]; [by eexists|].
      apply bool_decide_eq_false in Hp. by destruct Hp.
Qed.

Definition scan_line (st : bytes) : option (bytes * bytes) :=
  let '(line, rest) := span plain st in
  match rest with
  | c1 :: c2 :: rest' =>
      if decide (c1 = ch_cr ∧ c2 = ch_lf ∧ (Z.of_nat (length line) < kMaxLine)%Z)
      then Some (line, rest') else None
  | _ => None
  end.

(** [ReadBasicStringToBuf] implements the reference on every stream: it never
    leaves its buffer, never runs out of iterations, and throws when the
    reference fails. *)
Lemma read_basic_spec t :
  reader_ok (reader_ t) →
  ∃ t', reader_ok (reader_ t') ∧
    match scan_line (stream (reader_ t)) with
    | Some (line, rest) =>
        ReadBasicStringToBuf t = (Ok (), t') ∧ buf_ t' = line ∧ stream (reader_ t') = rest
    | None => ∃ e, ReadBasicStringToBuf t = (Fail (Exn e), t')
    end.
Proof.
  intros Hr. unfold ReadBasicStringToBuf. mrun.
  set (t0 := set_buf (replicate 1023 ch_nul) t).
  pose proof (basic_loop_spec (stream (reader_ t)) kBasicFuel 0 t0 Hr eq_refl) as H.
  unfold scan_line. destruct (span plain _) as [line rest].
  destruct H as (t1&Hr1&H).
  { unfold kMaxLine, kBasicFuel. lia. }
  { unfold t0, set_buf. cbn [buf_]. rewrite length_replicate. lia. }
  { exists 0%Z. unfold t0, set_buf. cbn [buf_]. rewrite length_replicate. lia. }
  case_decide as Hc.
  - destruct Hc as [Hcr Hlen]. destruct H as (Hrun&Hst&Hlt&Htk).
    destruct rest as [|c1 rest]; [done|]. injection Hcr as ->. cbn [tail] in Hst.
    mstep Hrun. cbn [plus] in *. destruct rest as [|c2 rest].
    + destruct (read_into_buf_eof (length line) 1 t1) as (r'&H&?); [done|rewrite Hst; cbn; lia|lia|].
      exists (set_reader r' t1). split; [done|]. exists EOFException. by erewrite bindM_fail.
    + destruct (read_into_buf_run (length line) t1 [c2] rest) as (r'&H&Hr'&Hst');
        [done..|cbn; lia|]. cbn [length] in H. mstep H.
      erewrite bindM_ok; [|by apply buf_at_run, lookup_overwrite_one].
      destruct (decide (c2 = ch_lf)) as [->|Hlf].
      * rewrite decide_True by done. mrun. eexists (mk r' _). split; [done|].
        split; [done|]. split; [|done]. cbn [buf_].
        rewrite resize_le by (rewrite length_overwrite; cbn; lia).
        rewrite take_overwrite_lt by lia. by rewrite Htk.
      * rewrite decide_False by (by intros (_&?&_)). eexists (mk r' _).
        split; [done|]. by eexists.
  - destruct H as (e&H). exists t1. split; [done|].
    assert (match rest with
      | c1 :: c2 :: rest' => if decide (c1 = ch_cr ∧ c2 = ch_lf ∧ (Z.of_nat (length line) < kMaxLine)%Z)
          then Some (line, rest') else None
      | _ => None end = None) as ->.
    { destruct rest as [|c1 [|c2 rest]]; [done..|]. rewrite decide_False; [done|].
      intros (->&_&?). apply Hc. done. }
    exists e. by erewrite bindM_fail.
Qed.

(** Running an operation after a line was read, or failed to be. *)
Lemma read_basic_line t line rest :
  reader_ok (reader_ t) → scan_line (stream (reader_ t)) = Some (line, rest) →
  ∃ t', ReadBasicStringToBuf t = (Ok (), t') ∧ reader_ok (reader_ t') ∧ buf_ t' = line ∧
    stream (reader_ t') = rest.
Proof.
  intros Hr Hs. destruct (read_basic_spec t Hr) as (t'&Hr'&H). rewrite Hs in H.
  destruct H as (?&?&?). by exists t'.
Qed.

Lemma read_basic_bad t :
  reader_ok (reader_ t) → scan_line (stream (reader_ t)) = None →
  ∃ e t', ReadBasicStringToBuf t = (Fail (Exn e), t') ∧ reader_ok (reader_ t').
Proof.
  intros Hr Hs. destruct (read_basic_spec t Hr) as (t'&Hr'&H). rewrite Hs in H.
  destruct H as (e&?). by exists e, t'.
Qed.
End RespReader.
Arguments t : clear implicits.
End RespReader.

(** ** What the operations of the reader return *)

Section ReaderFacts.
Context {R : Type} `{!IReader R, !ReaderSpec R}.
Implicit Types (t : RespReader.t R).
Import RespReader.

Definition line_ok (s : bytes) : Prop :=
  Forall (λ c, plain c = true) s ∧ (Z.of_nat (length s) < kMaxLine)%Z.

Lemma scan_line_app line rest : line_ok line → scan_line (line ++ CRLF ++ rest) = Some (line, rest).
Proof.
  intros [Hp Hl]. unfold scan_line. rewrite span_all; [|done|by intros c r [= <- <-]].
  cbn. by rewrite decide_True.
Qed.

Lemma to_string_line_ok n : (- 2 ^ 64 <= n <= 2 ^ 64)%Z → line_ok (to_string n).
Proof.
  intros Hn. split.
  - destruct (to_string_no_crlf n) as [H1 H2]. apply Forall_forall. intros c Hc.
    apply bool_decide_eq_true. by split; intros ->.
  - pose proof (to_string_length n Hn). unfold kMaxLine. lia.
Qed.

Lemma read_type_ok t c type rest :
  reader_ok (reader_ t) → stream (reader_ t) = c :: rest → CharToRespType c = Ok type →
  ∃ t', ReadType t = (Ok type, t') ∧ reader_ok (reader_ t') ∧ stream (reader_ t') = rest.
Proof.
  intros Hr Hst Hc. destruct (read_full_run 1 t [c] rest Hr Hst eq_refl) as (r'&H&?&?).
  exists (set_reader r' t). split; [|done]. unfold ReadType. apply catch_all_ok.
  mstep H. cbv beta iota. unfold liftO. by rewrite Hc.
Qed.

Lemma read_simple_ok t line rest :
  reader_ok (reader_ t) → line_ok line → stream (reader_ t) = line ++ CRLF ++ rest →
  (∃ t', ReadSimpleString t = (Ok line, t') ∧ reader_ok (reader_ t') ∧ stream (reader_ t') = rest) ∧
  (∃ t', ReadError t = (Ok line, t') ∧ reader_ok (reader_ t') ∧ stream (reader_ t') = rest).
Proof.
  intros Hr Hl Hst.
  destruct (read_basic_line t line rest Hr) as (t'&H&?&Hb&?); [by rewrite Hst, scan_line_app|].
  split; exists t'; (split; [|done]); apply catch_all_ok; mstep H; mrun; by rewrite Hb.
Qed.

Lemma read_int_ok t n rest :
  reader_ok (reader_ t) → in_s64 n = true → stream (reader_ t) = to_string n ++ CRLF ++ rest →
  ∃ t', ReadInt t = (Ok n, t') ∧ reader_ok (reader_ t') ∧ stream (reader_ t') = rest.
Proof.
  intros Hr Hn Hst. assert (Hn' := Hn). apply in_s64_spec in Hn'.
  destruct (read_basic_line t (to_string n) rest Hr) as (t'&H&?&Hb&?).
  { rewrite Hst. apply scan_line_app, to_string_line_ok. lia. }
  exists t'. split; [|done]. apply catch_all_ok. mstep H. mrun. rewrite Hb.
  rewrite (bindM_lift _ _ _ _ (stoll_to_string n Hn)). rewrite decide_False by (by intros []).
  assert (∃ c r, to_string n = c :: r ∧ c ≠ " "%char) as (c&r&E&Hc).
  { unfold to_string. destruct (Z.ltb_spec n 0); [by eexists _, _|].
    destruct (print_nat_head n ltac:(lia)) as (c&r&->&Hd). exists c, r. split; [done|].
    intros ->. by vm_compute in Hd. }
  erewrite bindM_ok; [|apply buf_at_run; by rewrite Hb, E]. by rewrite decide_False.
Qed.

Lemma read_array_length_ok t n rest :
  reader_ok (reader_ t) → in_s64 n = true → (-1 <= n)%Z →
  stream (reader_ t) = to_string n ++ CRLF ++ rest →
  ∃ t', ReadArrayLength t = (Ok n, t') ∧ reader_ok (reader_ t') ∧ stream (reader_ t') = rest.
Proof.
  intros Hr Hn Hge Hst. assert (Hn' := Hn). apply in_s64_spec in Hn'.
  destruct (read_basic_line t (to_string n) rest Hr) as (t'&H&?&Hb&?).
  { rewrite Hst. apply scan_line_app, to_string_line_ok. lia. }
  exists t'. split; [|done]. apply catch_all_ok. mstep H. mrun. rewrite Hb.
  rewrite (bindM_lift _ _ _ _ (stoll_to_string n Hn)). by rewrite decide_False by lia.
Qed.

Lemma read_null_bulk_ok t rest :
  reader_ok (reader_ t) → stream (reader_ t) = str "-1" ++ CRLF ++ rest →
  ∃ t', ReadBulkString t = (Ok None, t') ∧ reader_ok (reader_ t') ∧ stream (reader_ t') = rest.
Proof.
  intros Hr Hst. destruct (read_basic_line t (str "-1") rest Hr) as (t'&H&?&Hb&?).
  { rewrite Hst. apply scan_line_app. split; [|done]. by repeat constructor. }
  exists t'. split; [|done]. apply catch_all_ok. mstep H. mrun. rewrite Hb. done.
Qed.

Lemma read_bulk_ok t s rest :
  reader_ok (reader_ t) → (Z.of_nat (length s) + 2 <= kIntMax64)%Z →
  stream (reader_ t) = to_string (Z.of_nat (length s)) ++ CRLF ++ s ++ CRLF ++ rest →
  ∃ t', ReadBulkString t = (Ok (Some s), t') ∧ reader_ok (reader_ t') ∧ stream (reader_ t') = rest.
Proof.
  intros Hr Hs Hst. set (n := Z.of_nat (length s)) in *.
  assert (in_s64 n = true) as Hn by (apply in_s64_spec; unfold kIntMax64 in Hs; lia).
  destruct (read_basic_line t (to_string n) (s ++ CRLF ++ rest) Hr) as (t1&H&Hr1&Hb&Hst1).
  { rewrite Hst. apply scan_line_app, to_string_line_ok. unfold kIntMax64 in Hs. lia. }
  unfold ReadBulkString. set (h := λ _, throwM _).
  assert (∀ t', (∃ r', reader_ok r' ∧ stream r' = rest ∧ t' = mk r' s) →
    reader_ok (reader_ t') ∧ stream (reader_ t') = rest) as Hfin by (by intros t' (?&?&?&->)).
  set (t2 := set_buf (replicate (length s + 2) ch_nul) t1).
  assert (length (s ++ CRLF) = length s + 2) as Hlen by (by rewrite length_app).
  destruct (read_into_buf_run 0 t2 (s ++ CRLF) rest) as (r'&H2&Hr'&Hst').
  { done. }
  { cbn. by rewrite Hst1, <- app_assoc. }
  { cbn [t2 set_buf buf_]. rewrite length_replicate. lia. }
  assert (overwrite 0 (s ++ CRLF) (buf_ t2) = s ++ CRLF) as Hov.
  { rewrite overwrite_0. cbn [t2 set_buf buf_].
    rewrite drop_ge, app_nil_r by (rewrite length_replicate; lia). done. }
  rewrite Hov, Hlen in H2.
  exists (mk r' s). split; [|by apply Hfin; eauto]. apply catch_all_ok. mstep H. mrun. rewrite Hb.
  rewrite (bindM_lift _ _ _ _ (stoll_to_string n Hn)).
  rewrite decide_False by lia. rewrite decide_False by lia. rewrite decide_False by lia.
  unfold n. rewrite Nat2Z.id. mrun. fold t2. mstep H2.
  erewrite bindM_ok; [|apply buf_at_run; cbn; by rewrite lookup_app_r, Nat.sub_diag by lia].
  erewrite bindM_ok; [|apply buf_at_run; cbn; rewrite lookup_app_r by lia;
    by replace (length s + 1 - length s) with 1 by lia].
  rewrite decide_False by (by intros [[]|[]]). mrun. cbn [buf_ set_buf reader_].
  rewrite resize_le by lia. by rewrite take_app_length.
Qed.
End ReaderFacts.

(** ** Messages *)

Section Messages.
Context {R : Type} `{!IReader R, !ReaderSpec R}.
Implicit Types (t : RespReader.t R).
Import RespReader.

(** Reading a message the way clients do: its type, then the payload. *)
Definition read_message : M (RespReader.t R) message :=
  type <- ReadType ;;
  match type with
  | SimpleString => s <- ReadSimpleString ;; retM (MSimple s)
  | Error => s <- ReadError ;; retM (MError s)
  | Int => n <- ReadInt ;; retM (MInt n)
  | BulkString =>
      o <- ReadBulkString ;;
      retM (match o with Some s => MBulk s | None => MNullBulk end)
  | Array =>
      n <- ReadArrayLength ;;
      retM (if decide (n = -1)%Z then MNullArray else MArray (Z.to_nat n))
  end.

Fixpoint read_messages (n : nat) : M (RespReader.t R) (list message) :=
  match n with
  | O => retM []
  | S n' => m <- read_message ;; ms <- read_messages n' ;; retM (m :: ms)
  end.

(** The messages the protocol can carry: lines without line ends and short
    enough, integers and lengths of 64 bits. *)
Definition message_ok (m : message) : Prop :=
  match m with
  | MSimple s | MError s => line_ok s
  | MInt n => in_s64 n = true
  | MBulk s => (Z.of_nat (length s) + 2 <= kIntMax64)%Z
  | MArray size => (Z.of_nat size <= kIntMax64)%Z
  | MNullBulk | MNullArray => True
  end.

Lemma read_message_ok t m rest :
  reader_ok (reader_ t) → message_ok m → stream (reader_ t) = enc m ++ rest →
  ∃ t', read_message t = (Ok m, t') ∧ reader_ok (reader_ t') ∧ stream (reader_ t') = rest.
Proof.
  intros Hr Hm Hst. unfold read_message.
  assert (∃ type payload, stream (reader_ t) = RespTypeToChar type :: payload ∧
    RespTypeToChar type :: payload = enc m ++ rest) as (type&payload&Hst'&Hp).
  { destruct m; [exists SimpleString|exists Error|exists Int|exists BulkString|exists BulkString
      |exists Array|exists Array]; eexists; (split; [by rewrite Hst|done]). }
  destruct (read_type_ok t _ type payload Hr Hst' (char_to_resp_type_inv type))
    as (t1&H1&Hr1&Hst1). mstep H1.
  destruct m as [s|s|n|s| |size|]; destruct type; try discriminate Hp; injection Hp as Hp; subst payload;
    rewrite <- ?app_assoc in Hst1.
  - destruct (read_simple_ok t1 s rest Hr1 Hm Hst1) as [(t2&H2&?) _].
    exists t2. mstep H2. done.
  - destruct (read_simple_ok t1 s rest Hr1 Hm Hst1) as [_ (t2&H2&?)].
    exists t2. mstep H2. done.
  - destruct (read_int_ok t1 n rest Hr1 Hm Hst1) as (t2&H2&?). exists t2. mstep H2. done.
  - destruct (read_bulk_ok t1 s rest Hr1 Hm) as (t2&H2&?). 
    { rewrite Hst1. change (ch_cr :: ch_lf :: s ++ CRLF) with (CRLF ++ s ++ CRLF).
      by rewrite <- !app_assoc. }
    exists t2. mstep H2. done.
  - destruct (read_null_bulk_ok t1 rest Hr1 Hst1) as (t2&H2&?). exists t2. mstep H2. done.
  - cbn in Hm. destruct (read_array_length_ok t1 (Z.of_nat size) rest Hr1) as (t2&H2&?);
      [apply in_s64_spec; unfold kIntMax64 in Hm; lia|lia|done|].
    exists t2. mstep H2. rewrite decide_False, Nat2Z.id by lia. done.
  - destruct (read_array_length_ok t1 (-1) rest Hr1) as (t2&H2&?); [done..|].
    exists t2. mstep H2. done.
Qed.

Lemma read_messages_ok t ms rest :
  reader_ok (reader_ t) → Forall message_ok ms →
  stream (reader_ t) = concat (enc <$> ms) ++ rest →
  ∃ t', read_messages (length ms) t = (Ok ms, t') ∧ reader_ok (reader_ t') ∧
    stream (reader_ t') = rest.
Proof.
  intros Hr Hms. revert t Hr. induction Hms as [|m ms Hm Hms IH]; intros t Hr Hst.
  { exists t. done. }
  cbn [fmap list_fmap concat] in Hst. rewrite <- app_assoc in Hst.
  destruct (read_message_ok t m _ Hr Hm Hst) as (t1&H1&Hr1&Hst1).
  destruct (IH t1 Hr1 Hst1) as (t2&H2&?). exists t2. cbn [length read_messages].
  mstep H1. mstep H2. done.
Qed.
End Messages.

(** ** Properties *)

(** C13 Round trip of the protocol: any sequence of messages that the protocol can
    carry ([message_ok]: simple strings and errors without CR and LF that are short
    enough for the line that the reader accepts, integers and lengths of 64 bits),
    written by [RespWriter], is read back by [RespReader] message by message, through
    any writer and reader that meet their contracts, and the bytes that follow are
    left unread.  Bulk strings may contain any bytes. *)
Theorem resp_roundtrip {R W : Type} `{!IReader R, !ReaderSpec R, !IWriter W, !WriterSpec W}
    (w : W) (r : R) (ms : list message) (rest : bytes) :
  writer_ok w → reader_ok r → Forall message_ok ms →
  ∃ w' out, write_messages ms w = (Ok (), w') ∧ written w' = written w ++ out ∧
    (stream r = out ++ rest →
     ∃ t', read_messages (length ms) (RespReader.make r) = (Ok ms, t') ∧
       stream (RespReader.reader_ t') = rest).
Proof.
  intros Hw Hr Hms. destruct (write_messages_enc ms w Hw) as (w'&H&_&Hwr).
  exists w', (concat (enc <$> ms)). split_and!; [done..|]. intros Hst.
  destruct (read_messages_ok (RespReader.make r) ms rest Hr Hms Hst) as (t'&?&_&?). by exists t'.
Qed.

Lemma resp_roundtrip_witness :
  ∃ t', read_messages 2 (RespReader.make (ViewReader.make
            (str "$2" ++ CRLF ++ str "hi" ++ CRLF ++ str ":-7" ++ CRLF ++ str "x")))
          = (Ok [MBulk (str "hi"); MInt (-7)], t') ∧
    stream (RespReader.reader_ t') = str "x".
Proof.
  destruct (resp_roundtrip StringWriter.make (ViewReader.make
      (str "$2" ++ CRLF ++ str "hi" ++ CRLF ++ str ":-7" ++ CRLF ++ str "x"))
      [MBulk (str "hi"); MInt (-7)] (str "x")) as (w'&out&Hw&Hout&H).
  - cbn. lia.
  - cbn. lia.
  - repeat constructor; done.
  - apply H. clear H. vm_compute in Hw. injection Hw as <-. vm_compute in Hout.
    rewrite <- Hout. reflexivity.
Defined.

Definition resp_safe {R A} `{!IReader R, !ReaderSpec R} (c : M (RespReader.t R) A) : Prop :=
  ∀ t, reader_ok (RespReader.reader_ t) →
    (∃ a t', c t = (Ok a, t')) ∨ (∃ msg t', c t = (Fail (Exn (RedisError msg)), t')).

Section Safety.
Context {R : Type} `{!IReader R, !ReaderSpec R}.
Implicit Types (t : RespReader.t R).
Import RespReader.

(** A body that only returns or throws is safe under a handler that throws a
    [RedisError]. *)
Definition may_throw {A} (o : outcome A) : Prop := (∃ a, o = Ok a) ∨ (∃ e, o = Fail (Exn e)).

Lemma catch_redis_safe {A} (c : M (RespReader.t R) A) msg t :
  may_throw (c t).1 →
  (∃ a t', catch_all c (λ _, throwM (RedisError msg)) t = (Ok a, t')) ∨
  (∃ m t', catch_all c (λ _, throwM (RedisError msg)) t = (Fail (Exn (RedisError m)), t')).
Proof.
  unfold catch_all. destruct (c t) as [o t'].
  intros [(a&H)|(e&H)]; cbn in H; subst o; [left|right]; by eexists _, _.
Qed.

(** Sequencing after [ReadBasicStringToBuf]: the rest of the body is only run on
    a line that was read. *)
Lemma read_basic_then {A} (k : M (RespReader.t R) A) t :
  reader_ok (reader_ t) →
  (∀ t' line rest, scan_line (stream (reader_ t)) = Some (line, rest) →
     reader_ok (reader_ t') → buf_ t' = line → stream (reader_ t') = rest → may_throw (k t').1) →
  may_throw ((ReadBasicStringToBuf ;;; k) t).1.
Proof.
  intros Hr Hk. destruct (scan_line (stream (reader_ t))) as [[line rest]|] eqn:Hs.
  - destruct (read_basic_line t line rest Hr Hs) as (t'&H&?&?&?). mstep H. by eapply Hk.
  - destruct (read_basic_bad t Hr Hs) as (e&t'&H&_). rewrite (bindM_fail _ _ _ _ _ H). right. eauto.
Qed.

Lemma stoll_outcome s : (∃ n k, stoll s = Ok (n, k) ∧ s ≠ []) ∨ (∃ e, stoll s = Fail (Exn e)).
Proof.
  destruct s as [|c s]; [right; by eexists|]. unfold stoll.
  destruct (span is_space (c :: s)) as [sp s1].
  destruct (match s1 with [] => _ | _ => _ end) as [sg s2].
  destruct (span is_digit s2) as [[|d ds] rest]; [right; by eexists|].
  destruct (in_s64 _); [left; by eexists _, _|right; by eexists].
Qed.

Lemma lift_stoll_then {A} (k : Z * nat → M (RespReader.t R) A) t :
  (∀ n p, stoll (buf_ t) = Ok (n, p) → buf_ t ≠ [] → may_throw (k (n, p) t).1) →
  may_throw (bindM (liftO (stoll (buf_ t))) k t).1.
Proof.
  intros Hk. destruct (stoll_outcome (buf_ t)) as [(n&p&H&?)|(e&H)].
  - rewrite (bindM_lift _ _ _ _ H). by apply Hk.
  - unfold bindM, liftO. rewrite H. right. by eexists.
Qed.

Lemma read_type_safe : resp_safe (R := R) ReadType.
Proof.
  intros t Hr. apply catch_redis_safe. destruct (stream (reader_ t)) as [|c rest] eqn:Hst.
  - destruct (read_full_run_eof 1 t Hr) as (r'&H&_); [rewrite Hst; cbn; lia|].
    rewrite (bindM_fail _ _ _ _ _ H). right. by eexists.
  - destruct (read_full_run 1 t [c] rest Hr Hst eq_refl) as (r'&H&_). mstep H. cbn.
    unfold CharToRespType. repeat case_decide; (left; by eexists) || (right; by eexists).
Qed.

Lemma read_simple_safe : resp_safe (R := R) ReadSimpleString ∧ resp_safe (R := R) ReadError.
Proof.
  split; intros t Hr; apply catch_redis_safe, read_basic_then; try done;
    intros; left; by eexists.
Qed.

Lemma read_int_safe : resp_safe (R := R) ReadInt.
Proof.
  intros t Hr. apply catch_redis_safe, read_basic_then; [done|].
  intros t' line rest _ Hr' Hb Hst. mrun. apply lift_stoll_then. intros n p Hn Hne.
  case_decide; [right; by eexists|]. destruct (buf_ t') as [|c s] eqn:E; [done|].
  erewrite bindM_ok; [|apply buf_at_run; by rewrite E].
  case_decide; [right|left]; by eexists.
Qed.

Lemma read_array_length_safe : resp_safe (R := R) ReadArrayLength.
Proof.
  intros t Hr. apply catch_redis_safe, read_basic_then; [done|].
  intros t' line rest _ Hr' Hb Hst. mrun. apply lift_stoll_then. intros n p Hn Hne.
  case_decide; [right|left]; by eexists.
Qed.

(** The header of a bulk string whose announced length overflows [length + 2]. *)
Definition bulk_overflow (st : bytes) : Prop :=
  ∃ line rest n, scan_line st = Some (line, rest) ∧ stoll line = Ok (n, length line) ∧
    (kIntMax64 < n + 2)%Z.

Lemma read_bulk_safe t :
  reader_ok (reader_ t) → ¬ bulk_overflow (stream (reader_ t)) →
  (∃ a t', ReadBulkString t = (Ok a, t')) ∨
  (∃ msg t', ReadBulkString t = (Fail (Exn (RedisError msg)), t')).
Proof.
  intros Hr Hno. apply catch_redis_safe, read_basic_then; [done|].
  intros t' line rest Hs Hr' Hb Hst. mrun. apply lift_stoll_then. intros n p Hn Hne.
  case_decide as Hc; [right; by eexists|].
  case_decide; [left; by eexists|]. rewrite decide_False.
  2: { intros Hbig. apply Hno. exists line, rest, n. rewrite <- Hb. split_and!; [by rewrite Hb| |done].
       rewrite Hn. f_equal. f_equal. by destruct (decide (p = length (buf_ t'))); [|tauto]. }
  mrun. set (k := Z.to_nat n). set (t2 := set_buf (replicate (k + 2) ch_nul) t').
  destruct (decide (k + 2 ≤ length rest)) as [Hle|Hgt].
  2: { destruct (read_into_buf_eof 0 (k + 2) t2) as (r'&Hrd&_); [done|cbn; rewrite Hst; lia| |].
       { cbn [t2 set_buf buf_]. rewrite length_replicate. lia. }
       rewrite (bindM_fail _ _ _ _ _ Hrd). right. by eexists. }
  assert (length (take (k + 2) rest) = k + 2) as Hlen by (rewrite length_take; lia).
  destruct (read_into_buf_run 0 t2 (take (k + 2) rest) (drop (k + 2) rest)) as (r'&Hrd&_).
  { done. }
  { cbn. by rewrite Hst, take_drop. }
  { cbn [t2 set_buf buf_]. rewrite length_replicate. lia. }
  rewrite Hlen in Hrd. mstep Hrd. set (t3 := mk r' _).
  assert (length (buf_ t3) = k + 2) as Hl3.
  { cbn [t3 buf_]. rewrite length_overwrite; cbn [t2 set_buf buf_]; rewrite length_replicate; lia. }
  destruct (lookup_lt_is_Some_2 (buf_ t3) k ltac:(lia)) as [c1 H1].
  destruct (lookup_lt_is_Some_2 (buf_ t3) (k + 1) ltac:(lia)) as [c2 H2].
  erewrite bindM_ok; [|by apply buf_at_run]. erewrite bindM_ok; [|by apply buf_at_run].
  case_decide; [right|left]; by eexists.
Qed.
End Safety.

(** Whatever bytes arrive, the operations of [RespReader] other than
    [ReadBulkString] return or throw a [RedisError]: they never index outside of
    their buffer, never loop forever and let no other exception escape. *)
Theorem resp_reader_safe {R : Type} `{!IReader R, !ReaderSpec R} :
  resp_safe (R := R) RespReader.ReadType ∧ resp_safe (R := R) RespReader.ReadSimpleString ∧
  resp_safe (R := R) RespReader.ReadError ∧ resp_safe (R := R) RespReader.ReadInt ∧
  resp_safe (R := R) RespReader.ReadArrayLength.
Proof.
  destruct (read_simple_safe (R := R)). split_and!;
    auto using read_type_safe, read_int_safe, read_array_length_safe.
Qed.

(** The three ways [ReadBulkString] can end. *)
Lemma read_bulk_overflows {R : Type} `{!IReader R, !ReaderSpec R} (t : RespReader.t R) :
  reader_ok (RespReader.reader_ t) → bulk_overflow (stream (RespReader.reader_ t)) →
  (RespReader.ReadBulkString t).1 = Fail UB.
Proof.
  intros Hr (line&rest&n&Hs&Hn&Hbig).
  destruct (RespReader.read_basic_line t line rest Hr Hs) as (t'&H&?&Hb&?).
  unfold RespReader.ReadBulkString, catch_all. mstep H. mrun. rewrite Hb.
  rewrite (bindM_lift _ _ _ _ Hn). unfold kIntMax64 in Hbig.
  rewrite decide_False by (intros [?|?]; [done|lia]). rewrite decide_False by lia.
  by rewrite decide_True by (unfold kIntMax64; lia).
Qed.

#[global] Instance bulk_overflow_dec st : Decision (bulk_overflow st).
Proof.
  unfold bulk_overflow. destruct (RespReader.scan_line st) as [[line rest]|] eqn:Hs.
  2: { right. by intros (?&?&?&?&_). }
  destruct (stoll line) as [[n k]|f] eqn:Hn.
  2: { right. intros (line'&?&?&[= <- <-]&Hn'&_). by rewrite Hn in Hn'. }
  destruct (decide (k = length line ∧ (kIntMax64 < n + 2)%Z)) as [[-> ?]|Hno].
  - left. by exists line, rest, n.
  - right. intros (line'&?&n'&[= <- <-]&Hn'&?). apply Hno. rewrite Hn in Hn'.
    by injection Hn' as <- <-.
Defined.

Lemma read_bulk_cases {R : Type} `{!IReader R, !ReaderSpec R} (t : RespReader.t R) :
  reader_ok (RespReader.reader_ t) →
  ((RespReader.ReadBulkString t).1 = Fail UB ∧ bulk_overflow (stream (RespReader.reader_ t))) ∨
  (∃ a t', RespReader.ReadBulkString t = (Ok a, t')) ∨
  (∃ msg t', RespReader.ReadBulkString t = (Fail (Exn (RedisError msg)), t')).
Proof.
  intros Hr. destruct (decide (bulk_overflow (stream (RespReader.reader_ t)))) as [Ho|Hno].
  - left. split; [by apply read_bulk_overflows|done].
  - right. by apply read_bulk_safe.
Qed.

(** [ReadBulkString] returns or throws a [RedisError] unless the announced
    length is one of the two largest 64-bit integers, on which it evaluates a
    signed addition that overflows. *)
Theorem read_bulk_string_overflow {R : Type} `{!IReader R, !ReaderSpec R} (t : RespReader.t R) :
  reader_ok (RespReader.reader_ t) →
  ((RespReader.ReadBulkString t).1 = Fail UB ↔ bulk_overflow (stream (RespReader.reader_ t))) ∧
  (¬ bulk_overflow (stream (RespReader.reader_ t)) →
   (∃ a t', RespReader.ReadBulkString t = (Ok a, t')) ∨
   (∃ msg t', RespReader.ReadBulkString t = (Fail (Exn (RedisError msg)), t'))).
Proof.
  intros Hr. split; [split; [|by apply read_bulk_overflows]|by apply read_bulk_safe].
  intros HUB. destruct (read_bulk_cases t Hr) as [[_ ?]|[(a&t'&E)|(m&t'&E)]]; [done|..];
    by rewrite E in HUB.
Qed.

Lemma read_bulk_string_overflow_witness :
  (RespReader.ReadBulkString (RespReader.make (ViewReader.make
      (str "9223372036854775807" ++ CRLF)))).1 = Fail UB.
Proof.
  destruct (read_bulk_string_overflow (RespReader.make (ViewReader.make
      (str "9223372036854775807" ++ CRLF)))) as [H _]; [cbn; lia|].
  apply H. exists (str "9223372036854775807"), [], 9223372036854775807%Z.
  split; [|split]; vm_compute; reflexivity.
Defined.

(** A line of 65472 characters or more is refused: whatever follows, reading
    it as a simple string throws, so an unbounded line cannot exhaust memory,
    while every shorter line is accepted. *)
Theorem simple_string_limit {R : Type} `{!IReader R, !ReaderSpec R} (t : RespReader.t R)
    (line rest : bytes) :
  reader_ok (RespReader.reader_ t) → Forall (λ c, RespReader.plain c = true) line →
  stream (RespReader.reader_ t) = line ++ CRLF ++ rest →
  ((Z.of_nat (length line) < 65472)%Z →
    ∃ t', RespReader.ReadSimpleString t = (Ok line, t')) ∧
  ((65472 <= Z.of_nat (length line))%Z →
    ∃ t', RespReader.ReadSimpleString t =
      (Fail (Exn (RedisError "Error parsing simple string")), t')).
Proof.
  intros Hr Hp Hst. split; intros Hl.
  - destruct (read_simple_ok t line rest Hr) as [(t'&?&_) _]; [by split|done|]. by exists t'.
  - destruct (RespReader.read_basic_bad t Hr) as (e&t'&H&_).
    { rewrite Hst. unfold RespReader.scan_line. rewrite span_all; [|done|by intros c r [= <- <-]].
      cbn. rewrite decide_False; [done|]. unfold RespReader.kMaxLine. lia. }
    exists t'. unfold RespReader.ReadSimpleString. erewrite catch_all_exn; [done|].
    by rewrite (bindM_fail _ _ _ _ _ H).
Qed.

Lemma simple_string_limit_witness :
  ∃ t', RespReader.ReadSimpleString (RespReader.make (ViewReader.make (str "OK" ++ CRLF)))
    = (Ok (str "OK"), t').
Proof.
  apply (simple_string_limit (RespReader.make (ViewReader.make (str "OK" ++ CRLF))) (str "OK") []).
  - cbn. lia.
  - by repeat constructor.
  - reflexivity.
  - reflexivity.
Defined.
