(* ===== verification/Redis.v ===== *)
(** * The redis server and client (redis/redis-server, redis/redis-client)

    [SimpleStorage] implements the interface [IStorage]; the server reads
    commands with [RespReader], runs them on a storage and answers with
    [RespWriter]; the client does the converse.  A connection is a pair of an
    incoming and an outgoing direction, each any reader or writer that meets its
    contract.  [exec] is the abstract meaning of a command; serving a connection
    is shown to refine it. *)

From S2P Require Import Prelude Readers Writers Decimal Resp.

(** ** storage.h *)

Class IStorage (St : Type) := {
  Get : bytes → M St (option bytes);
  Set_ : bytes → bytes → M St ();
  Change : bytes → Z → M St Z
}.

(** ** What a storage promises

    A storage holds an abstract map from keys to values. *)

Inductive value : Type :=
| VInt (n : Z)
| VStr (s : bytes).

(** The value [Set_] stores for a string. *)
Definition parse_value (v : bytes) : value :=
  match stoll v with
  | Ok (n, pos) => if decide (pos = length v) then VInt n else VStr v
  | Fail _ => VStr v
  end.

(** The string [Get] returns for a value. *)
Definition show_value (v : value) : bytes :=
  match v with VInt n => to_string n | VStr s => s end.

(** The integer [Change] starts from: a missing key counts as zero. *)
Definition int_of (kv : gmap bytes value) (key : bytes) : option Z :=
  match kv !! key with
  | Some (VInt n) => Some n
  | Some (VStr _) => None
  | None => Some 0%Z
  end.

(** What [Change] does to the map and returns, or the exception it throws. *)
Definition changed (kv : gmap bytes value) (key : bytes) (delta : Z)
    : outcome (Z * gmap bytes value) :=
  match int_of kv key with
  | Some n =>
      if in_s64 (n + delta) then Ok ((n + delta)%Z, <[key := VInt (n + delta)]> kv)
      else Fail (Exn (OutOfRange "oveflow"))
  | None => Fail (Exn BadTypeid)
  end.

Class StorageSpec (St : Type) `{!IStorage St} := {
  storage_ok : St → Prop;
  entries : St → gmap bytes value;
  get_spec : ∀ key s, storage_ok s →
    Get key s = (Ok (show_value <$> entries s !! key), s);
  set_spec : ∀ key v s, storage_ok s →
    ∃ s', Set_ key v s = (Ok (), s') ∧ storage_ok s' ∧
      entries s' = <[key := parse_value v]> (entries s);
  change_spec : ∀ key delta s, storage_ok s → in_s64 delta = true →
    match changed (entries s) key delta with
    | Ok (n, kv) => ∃ s', Change key delta s = (Ok n, s') ∧ storage_ok s' ∧ entries s' = kv
    | Fail f => Change key delta s = (Fail f, s)
    end
}.

(** ** simple_storage.h, simple_storage.cpp *)

Module SimpleStorage.
Record t : Type := mk { kv_storage_ : gmap bytes value }.

Definition make : t := mk ∅.

Definition put (key : bytes) (v : value) (this : t) : t := mk (<[key := v]> (kv_storage_ this)).

Definition Get (key : bytes) : M t (option bytes) :=
  this <- getM ;;
  match kv_storage_ this !! key with
  | Some (VInt n) => retM (Some (to_string n))
  | Some (VStr s) => retM (Some s)
  | None => retM None
  end.

Definition Set_ (key v : bytes) : M t () :=
  catch_all
    (x <- liftO (stoll v) ;;
     let '(int_value, pos) := x in
     if decide (pos ≠ length v) then throwM BadCast
     else modM (put key (VInt int_value)))
    (λ _, modM (put key (VStr v))).

Definition check_limits_func (num delta : Z) : outcome () :=
  if (0 <=? delta)%Z then
    limit <-? checked64 (kIntMax64 - delta) ;;
    if (limit <? num)%Z then Fail (Exn (OutOfRange "oveflow")) else Ok ()
  else
    limit <-? checked64 (kIntMin64 - delta) ;;
    if (num <? limit)%Z then Fail (Exn (OutOfRange "oveflow")) else Ok ().

Definition Change (key : bytes) (delta : Z) : M t Z :=
  this <- getM ;;
  match kv_storage_ this !! key with
  | Some (VStr _) => throwM BadTypeid
  | Some (VInt _) => retM ()
  | None => modM (put key (VInt 0))
  end ;;;
  this <- getM ;;
  match kv_storage_ this !! key with
  | Some (VInt int_value) =>
      liftO (check_limits_func int_value delta) ;;;
      new_value <- liftO (checked64 (int_value + delta)) ;;
      modM (put key (VInt new_value)) ;;;
      this <- getM ;;
      match kv_storage_ this !! key with
      | Some (VInt n) => retM n
      | _ => failM UB
      end
  | _ => failM UB
  end.

#[global] Instance storage : IStorage t :=
  {| Redis.Get := Get; Redis.Set_ := Set_; Redis.Change := Change |}.

Lemma set_run key v this :
  Set_ key v this = (Ok (), put key (parse_value v) this).
Proof.
  unfold Set_, parse_value, catch_all, bindM, liftO.
  destruct (stoll_outcome v) as [(n&k&->&_)|(e&->)]; [|done].
  destruct (decide (k = length v)); [rewrite decide_False by tauto|rewrite decide_True by done]; done.
Qed.

Lemma get_run key this :
  Get key this = (Ok (show_value <$> kv_storage_ this !! key), this).
Proof. unfold Get. mrun. by destruct (kv_storage_ this !! key) as [[]|]. Qed.

Lemma check_limits_ok num delta :
  in_s64 num = true → in_s64 delta = true →
  check_limits_func num delta =
    if in_s64 (num + delta) then Ok () else Fail (Exn (OutOfRange "oveflow")).
Proof.
  intros Hn%in_s64_spec Hd%in_s64_spec. unfold check_limits_func, kIntMax64, kIntMin64.
  destruct (in_s64 (num + delta)) eqn:Hs.
  - apply in_s64_spec in Hs.
    destruct (Z.leb_spec 0 delta); rewrite checked64_ok by lia; cbn; by case_match; [lia|].
  - assert (¬ (- 2 ^ 63 <= num + delta < 2 ^ 63)%Z) by (rewrite <- in_s64_spec, Hs; done).
    destruct (Z.leb_spec 0 delta); rewrite checked64_ok by lia; cbn; case_match; [done|lia|done|lia].
Qed.

(** Every stored integer is a 64-bit one. *)
Definition wf (this : t) : Prop :=
  ∀ key n, kv_storage_ this !! key = Some (VInt n) → in_s64 n = true.

Lemma wf_make : wf make.
Proof. intros key n. cbn. by rewrite lookup_empty. Qed.

Lemma wf_put key v this :
  wf this → (∀ n, v = VInt n → in_s64 n = true) → wf (put key v this).
Proof.
  intros Hwf Hv k n. cbn. destruct (decide (key = k)) as [->|Hne].
  - rewrite lookup_insert_eq. intros [= ->]. by apply Hv.
  - rewrite lookup_insert_ne by done. apply Hwf.
Qed.

Lemma wf_set key v this : wf this → wf (put key (parse_value v) this).
Proof.
  intros Hwf. apply wf_put; [done|]. intros n. unfold parse_value.
  destruct (stoll v) as [[m k]|] eqn:E; [|done]. case_decide; [|done].
  intros [= <-]. by apply stoll_range in E.
Qed.

Lemma wf_int_of this key n : wf this → int_of (kv_storage_ this) key = Some n → in_s64 n = true.
Proof.
  unfold int_of. intros Hwf. destruct (kv_storage_ this !! key) as [[]|] eqn:E; [|done|].
  - intros [= <-]. by eapply Hwf.
  - by intros [= <-].
Qed.

Lemma change_run key delta this :
  wf this → in_s64 delta = true →
  match int_of (kv_storage_ this) key with
  | Some n =>
      if in_s64 (n + delta)
      then Change key delta this = (Ok (n + delta)%Z, put key (VInt (n + delta)) this)
      else Change key delta this = (Fail (Exn (OutOfRange "oveflow")), this)
  | None => Change key delta this = (Fail (Exn BadTypeid), this)
  end.
Proof.
  intros Hwf Hd. assert (Hd' := Hd). apply in_s64_spec in Hd'.
  destruct (int_of (kv_storage_ this) key) as [n|] eqn:Hi.
  2: { unfold int_of in Hi. unfold Change. mrun.
       by destruct (kv_storage_ this !! key) as [[]|]. }
  pose proof (wf_int_of _ _ _ Hwf Hi) as Hn. apply in_s64_spec in Hn.
  assert (Change key delta this =
    (liftO (check_limits_func n delta) ;;; new_value <- liftO (checked64 (n + delta)) ;;
     modM (put key (VInt new_value)) ;;; this <- getM ;;
     match kv_storage_ this !! key with Some (VInt n) => retM n | _ => failM UB end)
      (match kv_storage_ this !! key with None => put key (VInt 0) this | _ => this end)) as ->.
  { unfold Change, int_of in *. mrun. destruct (kv_storage_ this !! key) as [[m|]|] eqn:E.
    - injection Hi as ->. mrun. by rewrite E.
    - done.
    - injection Hi as <-. mrun. cbn [put kv_storage_]. by rewrite lookup_insert_eq. }
  rewrite check_limits_ok by (done || by apply in_s64_spec).
  destruct (in_s64 (n + delta)) eqn:Hs.
  - rewrite (bindM_lift _ _ _ () eq_refl). apply in_s64_spec in Hs.
    rewrite (bindM_lift _ _ _ _ (checked64_ok _ Hs)). mrun.
    cbn [put kv_storage_]. rewrite lookup_insert_eq. unfold retM. f_equal.
    unfold int_of in Hi. destruct (kv_storage_ this !! key) as [[]|]; [done..|].
    unfold put. cbn. by rewrite insert_insert_eq.
  - assert (∃ m, kv_storage_ this !! key = Some (VInt m)) as [m Hm].
    { unfold int_of in Hi. destruct (kv_storage_ this !! key) as [[]|] eqn:E; [by eexists|done|].
      injection Hi as <-. by rewrite Z.add_0_l, Hd in Hs. }
    by rewrite Hm.
Qed.

#[global] Instance storage_spec : StorageSpec t.
Proof.
  refine {| storage_ok := wf; entries := kv_storage_ |}.
  - intros key s _. apply get_run.
  - intros key v s Hs. exists (put key (parse_value v) s).
    split_and!; [apply set_run|by apply wf_set|done].
  - intros key delta s Hs Hd. pose proof (change_run key delta s Hs Hd) as H. unfold changed.
    destruct (int_of _ key) as [n|] eqn:Hi; [|done]. destruct (in_s64 (n + delta)) eqn:Hn; [|done].
    exists (put key (VInt (n + delta)) s). 
    split_and!; [apply H| |done]. apply wf_put; [done|]. by intros ? [= <-].
Defined.
End SimpleStorage.

(** ** server.h, server.cpp *)

Inductive ECommands : Type := GET | SET | INCR | DECR.

#[global] Instance ECommands_eq_dec : EqDecision ECommands.
Proof. solve_decision. Defined.

Inductive Command : Type :=
| CommandGet (key_ : bytes)
| CommandSet (key_ value_ : bytes)
| CommandIncr (key_ : bytes)
| CommandDecr (key_ : bytes).

Definition GetType (c : Command) : ECommands :=
  match c with
  | CommandGet _ => GET
  | CommandSet _ _ => SET
  | CommandIncr _ => INCR
  | CommandDecr _ => DECR
  end.

Module Server.
Definition commands_ : gmap bytes ECommands :=
  list_to_map [(str "GET", GET); (str "SET", SET); (str "INCR", INCR); (str "DECR", DECR)].

Section Server.
Context {R W St : Type} `{!IReader R, !IWriter W, !IStorage St}.

(** The variables of [ReadCommand]; [command_type] starts without a value. *)
Record locals : Type := mk_locals {
  command_type : option ECommands;
  command_key : bytes;
  command_value : bytes
}.

(** One iteration of the loop over the elements of the array. *)
Definition ReadCommand_arg (command_len : Z) (i : nat) (l : locals)
    : M (RespReader.t R) locals :=
  if decide (i = 0) then
    type <- RespReader.ReadType ;;
    if decide (type ≠ BulkString) then throwM (RedisError "Wrong command format") else
    command_name <- RespReader.ReadBulkString ;;
    match command_name ≫= (commands_ !!.) with
    | None => throwM (RedisError "Wrong command name")
    | Some ty =>
        if decide (((ty = GET ∨ ty = INCR ∨ ty = DECR) ∧ command_len ≠ 2%Z) ∨
                   (ty = SET ∧ command_len ≠ 3%Z))
        then throwM (RedisError "Wrong command format")
        else retM (mk_locals (Some ty) (command_key l) (command_value l))
    end
  else if decide (i = 1) then
    type <- RespReader.ReadType ;;
    if decide (type ≠ BulkString) then throwM (RedisError "Wrong command format") else
    read_key <- RespReader.ReadBulkString ;;
    match read_key with
    | None => throwM (RedisError "Command null key")
    | Some key => retM (mk_locals (command_type l) key (command_value l))
    end
  else if decide (i = 2) then
    type <- RespReader.ReadType ;;
    if decide (type ≠ BulkString) then throwM (RedisError "Wrong command format") else
    read_value <- RespReader.ReadBulkString ;;
    match read_value with
    | None => throwM (RedisError "Command null key")
    | Some v => retM (mk_locals (command_type l) (command_key l) v)
    end
  else retM l.

(** [n] iterations are left, the next one for index [i]. *)
Fixpoint ReadCommand_loop (command_len : Z) (n i : nat) (l : locals) : M (RespReader.t R) locals :=
  match n with
  | O => retM l
  | S n' =>
      l <- ReadCommand_arg command_len i l ;;
      ReadCommand_loop command_len n' (S i) l
  end.

Definition ReadCommand : M (RespReader.t R) Command :=
  type <- RespReader.ReadType ;;
  if decide (type ≠ Array) then throwM (RedisError "Wrong command format") else
  len <- RespReader.ReadArrayLength ;;
  let command_len := u64 len in
  if ((command_len <? 2) || (3 <? command_len))%Z then throwM (RedisError "Unknown command") else
  l <- ReadCommand_loop command_len (Z.to_nat command_len) 0 (mk_locals None [] []) ;;
  match command_type l with
  | None => failM UB
  | Some GET => retM (CommandGet (command_key l))
  | Some SET => retM (CommandSet (command_key l) (command_value l))
  | Some INCR => retM (CommandIncr (command_key l))
  | Some DECR => retM (CommandDecr (command_key l))
  end.

(** The state a connection's fiber works on: its reader, its writer (the two
    directions of the connection) and the storage of the server. *)
Record session : Type := mk {
  reader : RespReader.t R;
  writer : W;
  storage_ : St
}.

Definition with_reader {A} (c : M (RespReader.t R) A) : M session A :=
  zoom reader (λ r s, mk r (writer s) (storage_ s)) c.
Definition with_writer {A} (c : M W A) : M session A :=
  zoom writer (λ w s, mk (reader s) w (storage_ s)) c.
Definition with_storage {A} (c : M St A) : M session A :=
  zoom storage_ (λ st s, mk (reader s) (writer s) st) c.

(** The result of [Change] goes through the unsigned [ino64_t]. *)
Definition ProcessCommand (command : Command) : M session () :=
  match command with
  | CommandGet key =>
      value <- with_storage (Get key) ;;
      match value with
      | Some v => with_writer (RespWriter.WriteBulkString v)
      | None => with_writer RespWriter.WriteNullBulkString
      end
  | CommandSet key v =>
      with_storage (Set_ key v) ;;;
      with_writer (RespWriter.WriteBulkString (str "OK"))
  | CommandIncr key =>
      n <- with_storage (Change key 1) ;;
      let new_value := u64 n in
      with_writer (RespWriter.WriteInt (s64 new_value))
  | CommandDecr key =>
      n <- with_storage (Change key (-1)) ;;
      let new_value := u64 n in
      with_writer (RespWriter.WriteInt (s64 new_value))
  end.

(** The loop of a connection's fiber. *)
Fixpoint Listen_conn (fuel : nat) : M session () :=
  match fuel with
  | O => failM Fuel
  | S fuel' =>
      continue <- catch_std
        (command <- with_reader ReadCommand ;; ProcessCommand command ;;; retM true)
        (λ _, retM false) ;;
      if continue : bool then Listen_conn fuel' else retM ()
  end.
End Server.
Arguments session : clear implicits.
End Server.

(** ** client.h, client.cpp *)

Module Client.
Section Client.
Context {R W : Type} `{!IReader R, !IWriter W}.

Definition commands_map_ (c : ECommands) : bytes :=
  match c with
  | GET => str "GET"
  | SET => str "SET"
  | INCR => str "INCR"
  | DECR => str "DECR"
  end.

Record t : Type := mk { reader_ : RespReader.t R; writer_ : W }.

Definition with_reader {A} (c : M (RespReader.t R) A) : M t A :=
  zoom reader_ (λ r s, mk r (writer_ s)) c.
Definition with_writer {A} (c : M W A) : M t A :=
  zoom writer_ (λ w s, mk (reader_ s) w) c.

(** [throw RedisError(error)]: the message is the text that was read. *)
Definition throw_read_error {A} : M t A :=
  error <- with_reader RespReader.ReadError ;;
  throwM (RedisError (String.string_of_list_ascii error)).

Definition Get (key : bytes) : M t (option bytes) :=
  with_writer (RespWriter.StartArray 2) ;;;
  with_writer (RespWriter.WriteBulkString (commands_map_ GET)) ;;;
  with_writer (RespWriter.WriteBulkString key) ;;;
  resp_type <- with_reader RespReader.ReadType ;;
  if decide (resp_type = BulkString) then
    resp <- with_reader RespReader.ReadBulkString ;;
    match resp with Some s => retM (Some s) | None => retM None end
  else if decide (resp_type = Error) then throw_read_error
  else throwM (RedisError "Wrong answer type").

Definition Set_ (key v : bytes) : M t () :=
  with_writer (RespWriter.StartArray 3) ;;;
  with_writer (RespWriter.WriteBulkString (commands_map_ SET)) ;;;
  with_writer (RespWriter.WriteBulkString key) ;;;
  with_writer (RespWriter.WriteBulkString v) ;;;
  resp_type <- with_reader RespReader.ReadType ;;
  if decide (resp_type = BulkString) then
    resp <- with_reader RespReader.ReadBulkString ;;
    if decide (resp = Some (str "OK")) then retM ()
    else throwM (RedisError "Unsuccessful SET")
  else if decide (resp_type = Error) then throw_read_error
  else throwM (RedisError "Wrong answer type").

Definition Increment (key : bytes) : M t Z :=
  with_writer (RespWriter.StartArray 2) ;;;
  with_writer (RespWriter.WriteBulkString (commands_map_ INCR)) ;;;
  with_writer (RespWriter.WriteBulkString key) ;;;
  resp_type <- with_reader RespReader.ReadType ;;
  if decide (resp_type = Int) then with_reader RespReader.ReadInt
  else if decide (resp_type = Error) then throw_read_error
  else throwM (RedisError "Wrong answer type").

Definition Decrement (key : bytes) : M t Z :=
  with_writer (RespWriter.StartArray 2) ;;;
  with_writer (RespWriter.WriteBulkString (commands_map_ DECR)) ;;;
  with_writer (RespWriter.WriteBulkString key) ;;;
  resp_type <- with_reader RespReader.ReadType ;;
  if decide (resp_type = Int) then with_reader RespReader.ReadInt
  else if decide (resp_type = Error) then throw_read_error
  else throwM (RedisError "Wrong answer type").
End Client.
Arguments t : clear implicits.
End Client.

(** ** The abstract meaning of a connection *)

(** A command's reply and its effect on the map; a command that cannot be run
    has no reply: the server closes the connection. *)
Definition exec (kv : gmap bytes value) (c : Command) : option (message * gmap bytes value) :=
  match c with
  | CommandGet key =>
      Some (match kv !! key with Some v => MBulk (show_value v) | None => MNullBulk end, kv)
  | CommandSet key v => Some (MBulk (str "OK"), <[key := parse_value v]> kv)
  | CommandIncr key =>
      match changed kv key 1 with Ok (n, kv') => Some (MInt n, kv') | Fail _ => None end
  | CommandDecr key =>
      match changed kv key (-1) with Ok (n, kv') => Some (MInt n, kv') | Fail _ => None end
  end.

(** The replies to a sequence of commands, up to the first that cannot be run. *)
Fixpoint exec_all (kv : gmap bytes value) (cs : list Command)
    : list message * gmap bytes value :=
  match cs with
  | [] => ([], kv)
  | c :: cs =>
      match exec kv c with
      | Some (reply, kv') => let '(rs, kv'') := exec_all kv' cs in (reply :: rs, kv'')
      | None => ([], kv)
      end
  end.

(** A command as an array of bulk strings. *)
Definition request (c : Command) : list message :=
  match c with
  | CommandGet key => [MArray 2; MBulk (str "GET"); MBulk key]
  | CommandSet key v => [MArray 3; MBulk (str "SET"); MBulk key; MBulk v]
  | CommandIncr key => [MArray 2; MBulk (str "INCR"); MBulk key]
  | CommandDecr key => [MArray 2; MBulk (str "DECR"); MBulk key]
  end.

Definition enc_all (ms : list message) : bytes := concat (enc <$> ms).

Definition command_ok (c : Command) : Prop := Forall message_ok (request c).

(** ** Reading a command *)

Section ReadCommandFacts.
Context {R : Type} `{!IReader R, !ReaderSpec R}.
Implicit Types (t : RespReader.t R).
Import RespReader.

(** A bulk string as an element of an array. *)
Lemma read_bulk_elem t s rest :
  reader_ok (reader_ t) → message_ok (MBulk s) → stream (reader_ t) = enc (MBulk s) ++ rest →
  ∃ t1 t2, ReadType t = (Ok BulkString, t1) ∧ ReadBulkString t1 = (Ok (Some s), t2) ∧
    reader_ok (reader_ t2) ∧ stream (reader_ t2) = rest.
Proof.
  intros Hr Hm Hst. cbn [enc] in Hst. rewrite <- app_comm_cons, <- !app_assoc in Hst.
  destruct (read_type_ok t _ BulkString _ Hr Hst eq_refl) as (t1&H1&Hr1&Hst1). destruct (read_bulk_ok t1 s rest Hr1 Hm Hst1) as (t2&?&?&?).
  by exists t1, t2.
Qed.

Lemma read_array_head t n rest :
  reader_ok (reader_ t) → message_ok (MArray n) → stream (reader_ t) = enc (MArray n) ++ rest →
  ∃ t1 t2, ReadType t = (Ok Array, t1) ∧ ReadArrayLength t1 = (Ok (Z.of_nat n), t2) ∧
    reader_ok (reader_ t2) ∧ stream (reader_ t2) = rest.
Proof.
  intros Hr Hm Hst. cbn [enc] in Hst. rewrite <- app_comm_cons, <- !app_assoc in Hst.
  destruct (read_type_ok t _ Array _ Hr Hst eq_refl) as (t1&H1&Hr1&Hst1). cbn in Hm.
  destruct (read_array_length_ok t1 (Z.of_nat n) rest Hr1) as (t2&?&?&?);
    [apply in_s64_spec; unfold kIntMax64 in Hm; lia|lia|done|].
  by exists t1, t2.
Qed.

(** The three iterations of the loop of [ReadCommand]. *)
Lemma read_arg0 len name ty l t rest :
  reader_ok (reader_ t) → message_ok (MBulk name) → stream (reader_ t) = enc (MBulk name) ++ rest →
  Server.commands_ !! name = Some ty → len = (match ty with SET => 3 | _ => 2 end)%Z →
  ∃ t', Server.ReadCommand_arg len 0 l t
      = (Ok (Server.mk_locals (Some ty) (Server.command_key l) (Server.command_value l)), t') ∧
    reader_ok (reader_ t') ∧ stream (reader_ t') = rest.
Proof.
  intros Hr Hm Hst Hty ->. destruct (read_bulk_elem t name rest Hr Hm Hst) as (t1&t2&H1&H2&?).
  exists t2. split; [|done]. unfold Server.ReadCommand_arg. rewrite decide_True by done.
  mstep H1. rewrite decide_False by tauto. mstep H2. cbn [mbind option_bind].
  rewrite Hty. rewrite decide_False; [done|].
  destruct ty; intros [[[|[]] ?]|[]]; done.
Qed.

Lemma read_arg1 len key l t rest :
  reader_ok (reader_ t) → message_ok (MBulk key) → stream (reader_ t) = enc (MBulk key) ++ rest →
  ∃ t', Server.ReadCommand_arg len 1 l t
      = (Ok (Server.mk_locals (Server.command_type l) key (Server.command_value l)), t') ∧
    reader_ok (reader_ t') ∧ stream (reader_ t') = rest.
Proof.
  intros Hr Hm Hst. destruct (read_bulk_elem t key rest Hr Hm Hst) as (t1&t2&H1&H2&?).
  exists t2. split; [|done]. unfold Server.ReadCommand_arg.
  rewrite decide_False, decide_True by done. mstep H1. rewrite decide_False by tauto. by mstep H2.
Qed.

Lemma read_arg2 len v l t rest :
  reader_ok (reader_ t) → message_ok (MBulk v) → stream (reader_ t) = enc (MBulk v) ++ rest →
  ∃ t', Server.ReadCommand_arg len 2 l t
      = (Ok (Server.mk_locals (Server.command_type l) (Server.command_key l) v), t') ∧
    reader_ok (reader_ t') ∧ stream (reader_ t') = rest.
Proof.
  intros Hr Hm Hst. destruct (read_bulk_elem t v rest Hr Hm Hst) as (t1&t2&H1&H2&?).
  exists t2. split; [|done]. unfold Server.ReadCommand_arg.
  rewrite decide_False, decide_False, decide_True by done.
  mstep H1. rewrite decide_False by tauto. by mstep H2.
Qed.

Lemma read_command_ok t c rest :
  reader_ok (reader_ t) → command_ok c → stream (reader_ t) = enc_all (request c) ++ rest →
  ∃ t', Server.ReadCommand t = (Ok c, t') ∧ reader_ok (reader_ t') ∧ stream (reader_ t') = rest.
Proof.
  unfold command_ok, enc_all. intros Hr Hc Hst.
  assert (∃ n name ty key tail, request c = [MArray n; MBulk name; MBulk key] ++ tail ∧
    Server.commands_ !! name = Some ty ∧ n = match ty with SET => 3 | _ => 2 end ∧
    tail = (match c with CommandSet _ v => [MBulk v] | _ => [] end) ∧
    c = match ty with GET => CommandGet key | INCR => CommandIncr key | DECR => CommandDecr key
        | SET => CommandSet key (match c with CommandSet _ v => v | _ => [] end) end)
    as (n&name&ty&key&tail&Hreq&Hty&Hn&Htail&Hcmd).
  { destruct c; by eexists _, _, _, _, _. }
  rewrite Hreq in Hst, Hc. rewrite fmap_app, concat_app in Hst.
  cbn [fmap list_fmap concat] in Hst. rewrite <- !app_assoc, app_nil_l in Hst.
  apply Forall_app in Hc as [Hc Hctail]. rewrite !Forall_cons in Hc. destruct Hc as (Hm0&Hm1&Hm2&_).
  destruct (read_array_head t n _ Hr Hm0 Hst) as (t1&t2&H1&H2&Hr2&Hst2).
  set (l0 := Server.mk_locals None [] []).
  destruct (read_arg0 (Z.of_nat n) name ty l0 t2 _ Hr2 Hm1 Hst2 Hty) as (t3&H3&Hr3&Hst3);
    [by destruct ty; subst n|].
  destruct (read_arg1 (Z.of_nat n) key (Server.mk_locals (Some ty) [] []) t3 _ Hr3 Hm2 Hst3)
    as (t4&H4&Hr4&Hst4). cbn in H3, H4.
  assert (u64 (Z.of_nat n) = Z.of_nat n) as Hu by (destruct ty; subst n; done).
  assert ((Z.of_nat n <? 2) || (3 <? Z.of_nat n) = false)%Z as Hrange
    by (destruct ty; subst n; done).
  destruct c as [key'|key' v|key'|key']; destruct ty; try discriminate Hcmd;
    injection Hcmd as ?; subst; cbn [fmap list_fmap concat] in Hst4;
    rewrite ?app_nil_l, ?app_nil_r in Hst4.
  2: { rewrite Forall_cons in Hctail. destruct Hctail as [Hm3 _].
    destruct (read_arg2 3 v (Server.mk_locals (Some SET) key []) t4 _ Hr4 Hm3 Hst4)
      as (t5&H5&?&?). exists t5. split; [|done]. unfold Server.ReadCommand.
    mstep H1. rewrite decide_False by tauto. mstep H2. rewrite Hu, Hrange, Nat2Z.id.
    cbn [Server.ReadCommand_loop]. rewrite bindM_assoc. mstep H3. rewrite bindM_assoc. mstep H4.
    rewrite bindM_assoc. mstep H5. done. }
  all: exists t4; split; [|done]; unfold Server.ReadCommand;
    mstep H1; rewrite decide_False by tauto; mstep H2; rewrite Hu, Hrange, Nat2Z.id;
    cbn [Server.ReadCommand_loop]; rewrite bindM_assoc; mstep H3; rewrite bindM_assoc; mstep H4; done.
Qed.
End ReadCommandFacts.

(** ** Serving a connection *)

Section Serving.
Context {R W St : Type} `{!IReader R, !ReaderSpec R, !IWriter W, !WriterSpec W,
  !IStorage St, !StorageSpec St}.
Implicit Types (s : Server.session R W St).
Import Server.

Definition session_ok s : Prop :=
  reader_ok (RespReader.reader_ (reader s)) ∧ writer_ok (writer s) ∧ storage_ok (storage_ s).

(** The bytes still to be read, the bytes sent and the contents of the storage. *)
Definition input s : bytes := stream (RespReader.reader_ (reader s)).
Definition output s : bytes := written (writer s).
Definition contents s : gmap bytes value := entries (storage_ s).

Lemma with_writer_appends (c : M W ()) out s :
  session_ok s → RespWriter.appends c out →
  ∃ s', with_writer c s = (Ok (), s') ∧ session_ok s' ∧ input s' = input s ∧
    output s' = output s ++ out ∧ contents s' = contents s.
Proof.
  intros (Hr&Hw&Hst) Hc. destruct (Hc _ Hw) as (w'&H&?&?).
  eexists. split; [by apply zoom_run|]. done.
Qed.

Lemma s64_u64 n : in_s64 n = true → s64 (u64 n) = n.
Proof. intros Hn%in_s64_spec. rewrite swrap_uwrap. apply swrap_small; lia. Qed.

Lemma changed_range kv key delta n kv' : changed kv key delta = Ok (n, kv') → in_s64 n = true.
Proof.
  unfold changed. destruct (int_of kv key); [|done]. destruct (in_s64 _) eqn:E; [|done].
  by intros [= <- _].
Qed.

(** Both commands that go through [Change]. *)
Lemma process_change key delta s :
  session_ok s → in_s64 delta = true →
  let c := n <- with_storage (Change key delta) ;;
           with_writer (RespWriter.WriteInt (s64 (u64 n))) in
  match changed (contents s) key delta with
  | Ok (n, kv) =>
      ∃ s', c s = (Ok (), s') ∧ session_ok s' ∧ input s' = input s ∧
        output s' = output s ++ enc (MInt n) ∧ contents s' = kv
  | Fail _ => ∃ e, c s = (Fail (Exn e), s) ∧ is_std_exception e = true
  end.
Proof.
  intros (Hr&Hw&Hst) Hd c. pose proof (change_spec key delta _ Hst Hd) as Hch.
  unfold contents. destruct (changed _ key delta) as [[n kv]|f] eqn:E.
  - destruct Hch as (st'&H&Hst'&Hkv). set (s1 := mk (reader s) (writer s) st').
    destruct (with_writer_appends (RespWriter.WriteInt (s64 (u64 n))) (enc (MInt n)) s1)
      as (s2&H2&?&?&?&?).
    { done. }
    { rewrite s64_u64 by eauto using changed_range. apply (write_message_enc (MInt n)). }
    exists s2. unfold c. erewrite bindM_ok; [|by apply zoom_run].
    fold s1. subst kv. done.
  - assert (∃ e, f = Exn e ∧ is_std_exception e = true) as (e&->&?).
    { unfold changed in E. destruct (int_of _ key); [destruct (in_s64 (_ + _))|]; try done;
        injection E as <-; by eexists. }
    exists e. split; [|done]. unfold c. erewrite bindM_fail; [|by apply zoom_run].
    by destruct s.
Qed.

Lemma process_command_ok c s :
  session_ok s →
  match exec (contents s) c with
  | Some (reply, kv) =>
      ∃ s', ProcessCommand c s = (Ok (), s') ∧ session_ok s' ∧ input s' = input s ∧
        output s' = output s ++ enc reply ∧ contents s' = kv
  | None => ∃ e, ProcessCommand c s = (Fail (Exn e), s) ∧ is_std_exception e = true
  end.
Proof.
  intros Hs. assert (Hs' := Hs). destruct Hs' as (Hr&Hw&Hst).
  destruct c as [key|key v|key|key]; cbn [exec ProcessCommand].
  - assert (with_storage (Get key) s = (Ok (show_value <$> contents s !! key), s)) as HG.
    { unfold with_storage. erewrite zoom_run by (by apply get_spec). by destruct s. }
    mstep HG. destruct (contents s !! key) as [v|] eqn:E; cbn [fmap option_fmap option_map].
    + destruct (with_writer_appends _ _ s Hs (write_message_enc (MBulk (show_value v))))
        as (s2&H2&?&?&?&?). by exists s2.
    + destruct (with_writer_appends _ _ s Hs (write_message_enc MNullBulk))
        as (s2&H2&?&?&?&?). by exists s2.
  - destruct (set_spec key v _ Hst) as (st'&H&Hst'&Hkv).
    set (s1 := mk (reader s) (writer s) st').
    destruct (with_writer_appends _ _ s1 (conj Hr (conj Hw Hst'))
      (write_message_enc (MBulk (str "OK")))) as (s2&H2&?&?&?&?).
    exists s2. erewrite bindM_ok; [|by apply zoom_run]. fold s1. unfold contents.
    rewrite <- Hkv. done.
  - pose proof (process_change key 1 s Hs eq_refl) as H. cbv zeta in H.
    by destruct (changed (contents s) key 1) as [[n kv]|].
  - pose proof (process_change key (-1) s Hs eq_refl) as H. cbv zeta in H.
    by destruct (changed (contents s) key (-1)) as [[n kv]|].
Qed.

(** One iteration of the fiber's loop. *)
Definition serve_one : M (session R W St) bool :=
  catch_std (command <- with_reader ReadCommand ;; ProcessCommand command ;;; retM true)
    (λ _, retM false).

Lemma listen_conn_S fuel s :
  Listen_conn (S fuel) s =
  (continue <- serve_one ;; if continue : bool then Listen_conn fuel else retM ()) s.
Proof. done. Qed.

Lemma serve_one_ok c rest s :
  session_ok s → command_ok c → input s = enc_all (request c) ++ rest →
  match exec (contents s) c with
  | Some (reply, kv) =>
      ∃ s', serve_one s = (Ok true, s') ∧ session_ok s' ∧ input s' = rest ∧
        output s' = output s ++ enc reply ∧ contents s' = kv
  | None =>
      ∃ s', serve_one s = (Ok false, s') ∧ session_ok s' ∧ input s' = rest ∧
        output s' = output s ∧ contents s' = contents s
  end.
Proof.
  intros (Hr&Hw&Hst) Hc Hin. destruct (read_command_ok (reader s) c rest Hr Hc Hin)
    as (t'&H&Hr'&Hrest).
  set (s1 := mk t' (writer s) (storage_ s)).
  assert (session_ok s1) as Hs1 by done.
  pose proof (process_command_ok c s1 Hs1) as Hp. unfold serve_one, catch_std.
  change (contents s) with (contents s1).
  erewrite bindM_ok; [|by apply zoom_run]. fold s1.
  destruct (exec (contents s1) c) as [[reply kv]|].
  - destruct Hp as (s2&H2&?&Hi&?&?). mstep H2. exists s2. rewrite Hi. done.
  - destruct Hp as (e&H2&He). rewrite (bindM_fail _ _ _ _ _ H2), He. by exists s1.
Qed.

(** At the end of the input there is no command to read. *)
Lemma read_command_eof (t : RespReader.t R) :
  reader_ok (RespReader.reader_ t) → stream (RespReader.reader_ t) = [] →
  ∃ msg t', ReadCommand t = (Fail (Exn (RedisError msg)), t') ∧ reader_ok (RespReader.reader_ t').
Proof.
  intros Hr Hin. destruct (RespReader.read_full_run_eof 1 t Hr) as (r'&H&Hr'); [rewrite Hin; cbn; lia|].
  set (t' := RespReader.set_reader r' t) in *. set (msg := "Error parsing simple string"%string).
  assert (RespReader.ReadType t = (Fail (Exn (RedisError msg)), t')) as HT.
  { unfold RespReader.ReadType. erewrite catch_all_exn; [done|]. by rewrite (bindM_fail _ _ _ _ _ H). }
  exists msg, t'. split; [apply (bindM_fail _ _ _ _ _ HT)|done].
Qed.

Lemma serve_one_eof s :
  session_ok s → input s = [] →
  ∃ s', serve_one s = (Ok false, s') ∧ session_ok s' ∧
    output s' = output s ∧ contents s' = contents s.
Proof.
  intros (Hr&Hw&Hst) Hin. destruct (read_command_eof (reader s) Hr Hin) as (msg&t'&HC&Hr').
  exists (mk t' (writer s) (storage_ s)). split; [|done]. unfold serve_one, catch_std.
  erewrite (bindM_fail (with_reader ReadCommand)) by (by apply zoom_run). done.
Qed.

Lemma listen_conn_ok cs fuel s :
  session_ok s → Forall command_ok cs → input s = concat (enc_all ∘ request <$> cs) →
  length cs < fuel →
  ∃ s', Listen_conn fuel s = (Ok (), s') ∧
    output s' = output s ++ enc_all (exec_all (contents s) cs).1 ∧
    contents s' = (exec_all (contents s) cs).2.
Proof.
  intros Hs Hcs. revert fuel s Hs. induction Hcs as [|c cs Hc Hcs IH]; intros fuel s Hs Hin Hf;
    (destruct fuel as [|fuel]; [cbn in Hf; lia|]); rewrite listen_conn_S.
  - destruct (serve_one_eof s Hs Hin) as (s'&H&_&?&?). exists s'. mstep H. by rewrite app_nil_r.
  - pose proof (serve_one_ok c _ s Hs Hc Hin) as H. cbn [exec_all].
    destruct (exec (contents s) c) as [[reply kv]|]; destruct H as (s1&H1&Hs1&Hi1&Ho1&Hc1).
    + cbn in Hf. destruct (IH fuel s1 Hs1 Hi1 ltac:(lia)) as (s2&H2&Ho2&Hc2).
      exists s2. mstep H1. split; [done|]. subst kv.
      destruct (exec_all (contents s1) cs) as [rs kv'']. cbn in *. split; [|done].
      rewrite Ho2, Ho1, <- app_assoc. done.
    + exists s1. mstep H1. split; [done|]. cbn. by rewrite app_nil_r.
Qed.
End Serving.

(** ** Any input

    A command is calm when, on any input, it leaves the reader usable, only
    consumes input, and returns, throws a [RedisError], or meets a bulk string
    whose announced length overflows. *)

Section Calm.
Context {R : Type} `{!IReader R, !ReaderSpec R}.
Implicit Types (t : RespReader.t R).
Import RespReader.

Definition unread t : bytes := stream (reader_ t).

Definition calm_outcome {A} (o : outcome A) (st : bytes) : Prop :=
  match o with
  | Ok _ => True
  | Fail (Exn (RedisError _)) => True
  | Fail UB => ∃ suf, suf `suffix_of` st ∧ bulk_overflow suf
  | Fail _ => False
  end.

Definition steady {A} (c : M (RespReader.t R) A) : Prop :=
  ∀ t, reader_ok (reader_ t) → reader_ok (reader_ (c t).2) ∧ unread (c t).2 `suffix_of` unread t.

Definition calm {A} (c : M (RespReader.t R) A) : Prop :=
  steady c ∧ ∀ t, reader_ok (reader_ t) → calm_outcome (c t).1 (unread t).

Lemma steady_ret {A} (a : A) : steady (retM a).
Proof. done. Qed.
Lemma steady_fail {A} f : steady (failM (A := A) f).
Proof. done. Qed.
Lemma steady_throw {A} e : steady (throwM (A := A) e).
Proof. done. Qed.
Lemma steady_get : steady getM.
Proof. done. Qed.
Lemma steady_lift {A} (o : outcome A) : steady (liftO o).
Proof. done. Qed.
Lemma steady_set_buf f : steady (modM (λ t, set_buf (f t) t)).
Proof. done. Qed.
Lemma steady_set_buf_const s : steady (modM (set_buf s)).
Proof. done. Qed.

Lemma steady_bind {A B} (c : M (RespReader.t R) A) (k : A → M (RespReader.t R) B) :
  steady c → (∀ a, steady (k a)) → steady (bindM c k).
Proof.
  intros Hc Hk t Hr. unfold bindM. destruct (Hc t Hr) as [Hr1 Hs1].
  destruct (c t) as [[a|f] t1]; cbn in *; [|done].
  destruct (Hk a t1 Hr1) as [Hr2 Hs2]. split; [done|]. by etrans.
Qed.

Lemma steady_catch {A} (c : M (RespReader.t R) A) h :
  steady c → (∀ e, steady (h e)) → steady (catch_all c h).
Proof.
  intros Hc Hk t Hr. unfold catch_all. destruct (Hc t Hr) as [Hr1 Hs1].
  destruct (c t) as [[a|[e| | |]] t1]; cbn in *; try done.
  destruct (Hk e t1 Hr1) as [Hr2 Hs2]. split; [done|]. by etrans.
Qed.

Lemma steady_read_full n : steady (read_full n).
Proof.
  intros t Hr. destruct (decide (n ≤ length (unread t))) as [Hle|Hgt].
  - destruct (read_full_ok n (reader_ t) Hr Hle) as (r'&H&?&Hd).
    unfold read_full. erewrite zoom_run by done. cbn. split; [done|].
    unfold unread. cbn. rewrite Hd. eexists. symmetry. apply take_drop.
  - destruct (read_full_eof n (reader_ t) Hr) as (r'&H&?&Hd); [unfold unread in *; lia|].
    unfold read_full. erewrite zoom_run by done. cbn. split; [done|].
    unfold unread. cbn. rewrite Hd. apply suffix_nil.
Qed.
End Calm.

Create HintDb steady.
#[global] Hint Resolve steady_ret steady_fail steady_throw steady_get steady_lift steady_set_buf
  steady_set_buf_const steady_read_full : steady.

(** Proves that a body is steady by following its structure. *)
Ltac steady :=
  repeat first
    [ apply steady_bind
    | apply steady_catch
    | by auto 2 with steady nocore
    | match goal with
      | |- ∀ _, _ => intros ?
      | |- steady (match ?x with _ => _ end) => destruct x
      end ].

Section CalmReader.
Context {R : Type} `{!IReader R, !ReaderSpec R}.
Implicit Types (t : RespReader.t R).
Import RespReader.

Lemma steady_read_into_buf i n : steady (R := R) (read_into_buf i n).
Proof. unfold read_into_buf. steady. Qed.
Lemma steady_buf_at i : steady (R := R) (buf_at i).
Proof. unfold buf_at. steady. Qed.
#[local] Hint Resolve steady_read_into_buf steady_buf_at : steady.

Lemma steady_basic_loop fuel size : steady (R := R) (ReadBasicString_loop fuel size).
Proof. revert size. induction fuel as [|fuel IH]; intros size; cbn; steady. Qed.
#[local] Hint Resolve steady_basic_loop : steady.

Lemma steady_basic : steady (R := R) ReadBasicStringToBuf.
Proof. unfold ReadBasicStringToBuf. steady. Qed.
#[local] Hint Resolve steady_basic : steady.

Lemma calm_safe {A} (c : M (RespReader.t R) A) : steady c → resp_safe c → calm c.
Proof.
  intros Hc Hs. split; [done|]. intros t Hr.
  destruct (Hs t Hr) as [(a&t'&->)|(msg&t'&->)]; done.
Qed.

Lemma calm_read_type : calm (R := R) ReadType.
Proof. apply calm_safe; [|apply read_type_safe]. unfold ReadType. steady. Qed.

Lemma calm_read_array_length : calm (R := R) ReadArrayLength.
Proof. apply calm_safe; [|apply read_array_length_safe]. unfold ReadArrayLength. steady. Qed.

Lemma calm_read_bulk : calm (R := R) ReadBulkString.
Proof.
  split; [unfold ReadBulkString; steady|]. intros t Hr.
  destruct (read_bulk_cases t Hr) as [[-> ?]|[(a&t'&->)|(msg&t'&->)]]; [|done..].
  exists (unread t). split; done.
Qed.

Lemma calm_ret {A} (a : A) : calm (R := R) (retM a).
Proof. done. Qed.
Lemma calm_throw {A} msg : calm (R := R) (throwM (A := A) (RedisError msg)).
Proof. done. Qed.

Lemma calm_bind_post {A B} (P : A → Prop) (c : M (RespReader.t R) A) (k : A → M (RespReader.t R) B) :
  calm c → (∀ t a t', c t = (Ok a, t') → P a) → (∀ a, P a → calm (k a)) → calm (bindM c k).
Proof.
  intros [Hc Hoc] HP Hk. split; intros t Hr; specialize (Hc t Hr); specialize (Hoc t Hr);
    specialize (HP t); unfold bindM; destruct (c t) as [[a|f] t1]; try done;
    cbn in *; destruct Hc as [Hr1 Hs1]; destruct (Hk a (HP _ _ eq_refl)) as [Hst Ho].
  - destruct (Hst t1 Hr1) as [Hr2 Hs2]. split; [done|by etrans].
  - specialize (Ho t1 Hr1). destruct (k a t1) as [[b|[[]| | |]] t2]; try done. cbn in *.
    destruct Ho as (suf&?&?). exists suf. split; [by etrans|done].
Qed.

Lemma calm_bind {A B} (c : M (RespReader.t R) A) (k : A → M (RespReader.t R) B) :
  calm c → (∀ a, calm (k a)) → calm (bindM c k).
Proof. intros Hc Hk. by apply (calm_bind_post (λ _, True)). Qed.

(** Reading the type of a message consumes input. *)
Lemma read_type_consumes t type t' :
  reader_ok (reader_ t) → ReadType t = (Ok type, t') → length (unread t') < length (unread t).
Proof.
  intros Hr H. unfold unread. destruct (stream (reader_ t)) as [|c rest] eqn:Hst.
  - destruct (read_full_run_eof 1 t Hr) as (r'&Hf&_); [rewrite Hst; cbn; lia|].
    unfold ReadType in H. erewrite catch_all_exn in H; [done|].
    by rewrite (bindM_fail _ _ _ _ _ Hf).
  - destruct (read_full_run 1 t [c] rest Hr Hst eq_refl) as (r'&Hf&_&Hrest).
    unfold ReadType, catch_all in H. rewrite (bindM_ok _ _ _ _ _ Hf) in H. cbv beta iota in H.
    unfold liftO in H. destruct (CharToRespType c) as [ty|[]]; try done. injection H as _ <-.
    cbn. rewrite Hrest. lia.
Qed.
End CalmReader.

#[global] Hint Resolve calm_read_type calm_read_array_length calm_read_bulk calm_ret calm_throw
  : steady.

Ltac calm :=
  repeat first
    [ apply calm_bind
    | by auto 2 with steady nocore
    | match goal with
      | |- ∀ _, _ => intros ?
      | |- calm (match ?x with _ => _ end) => destruct x
      end ].

Section AnyInput.
Context {R W St : Type} `{!IReader R, !ReaderSpec R, !IWriter W, !WriterSpec W,
  !IStorage St, !StorageSpec St}.
Implicit Types (s : Server.session R W St) (t : RespReader.t R).
Import Server.

Lemma calm_read_arg len i l : calm (R := R) (ReadCommand_arg len i l).
Proof. unfold ReadCommand_arg. calm. Qed.
#[local] Hint Resolve calm_read_arg : steady.

(** After the first iteration the command type has a value. *)
Definition typed (l : locals) : Prop := is_Some (command_type l).

Lemma read_arg_typed len i l t l' t' :
  ReadCommand_arg len i l t = (Ok l', t') → i = 0 ∨ typed l → typed l'.
Proof.
  unfold ReadCommand_arg, typed. intros H Hi.
  repeat (case_decide || case_match
    || (apply bindM_ok_inv in H as (?&?&?&H); cbv beta in H)); try done;
    injection H as <- <-; cbn; try done; by destruct Hi.
Qed.

Lemma read_loop_typed len n i l t l' t' :
  ReadCommand_loop len n i l t = (Ok l', t') → 0 < n + i → i = 0 ∨ typed l → typed l'.
Proof.
  revert i l t. induction n as [|n IH]; intros i l t H Hni Hi; cbn in H.
  - injection H as <- <-. destruct Hi; [lia|done].
  - apply bindM_ok_inv in H as (l1&t1&H1&H). eapply IH; [done|lia|right].
    by eapply read_arg_typed.
Qed.

Lemma calm_read_loop len n i l : calm (R := R) (ReadCommand_loop len n i l).
Proof. revert i l. induction n as [|n IH]; intros i l; cbn; calm. Qed.

Lemma calm_read_command : calm (R := R) ReadCommand.
Proof.
  unfold ReadCommand. apply calm_bind; [apply calm_read_type|intros type].
  case_decide; [apply calm_throw|]. apply calm_bind; [apply calm_read_array_length|intros len].
  cbv zeta. destruct ((u64 len <? 2) || (3 <? u64 len))%Z eqn:Hlen; [apply calm_throw|].
  apply (calm_bind_post typed); [apply calm_read_loop| |].
  - intros t l t' Hl. eapply read_loop_typed; [done|lia|by left].
  - intros l [ty Hty]. rewrite Hty. destruct ty; apply calm_ret.
Qed.

Lemma read_command_consumes t c t' :
  reader_ok (RespReader.reader_ t) → ReadCommand t = (Ok c, t') →
  length (unread t') < length (unread t).
Proof.
  intros Hr H. assert (H' := H). unfold ReadCommand in H. apply bindM_ok_inv in H as (ty&t1&H1&H).
  pose proof (read_type_consumes t ty t1 Hr H1) as Hlt.
  assert (∀ A (c : M (RespReader.t R) A) a, steady c → c t1 = (Ok a, t') →
    length (unread t') ≤ length (unread t1)) as Hst.
  { intros A c' a Hc E. destruct (calm_read_type (R := R)) as [Hs _]. specialize (Hs t Hr).
    rewrite H1 in Hs. destruct Hs as [Hr1 _]. destruct (Hc t1 Hr1) as [_ Hsuf].
    rewrite E in Hsuf. by apply suffix_length. }
  enough (length (unread t') ≤ length (unread t1)) by lia. eapply Hst; [|exact H]. cbv beta.
  case_decide; [apply steady_throw|]. apply steady_bind; [apply calm_read_array_length|intros len].
  cbv zeta. destruct (_ || _); [apply steady_throw|].
  apply steady_bind; [apply calm_read_loop|intros l].
  destruct (command_type l) as [[]|]; by auto with steady.
Qed.

(** The outcome of a connection, whatever arrives. *)
Definition conn_outcome (o : outcome ()) (st : bytes) : Prop :=
  o = Ok () ∨ (o = Fail UB ∧ ∃ suf, suf `suffix_of` st ∧ bulk_overflow suf).

Lemma serve_one_any s :
  session_ok s →
  (∃ s', serve_one s = (Ok true, s') ∧ session_ok s' ∧ input s' `suffix_of` input s ∧
     length (input s') < length (input s)) ∨
  (∃ s', serve_one s = (Ok false, s')) ∨
  (∃ s', serve_one s = (Fail UB, s') ∧ ∃ suf, suf `suffix_of` input s ∧ bulk_overflow suf).
Proof.
  intros (Hr&Hw&Hst). destruct calm_read_command as [Hsteady Hcalm].
  specialize (Hsteady (reader s) Hr). specialize (Hcalm (reader s) Hr).
  unfold serve_one, catch_std. destruct (ReadCommand (reader s)) as [o t1] eqn:H.
  cbn in Hsteady, Hcalm. destruct Hsteady as [Hr1 Hsuf].
  pose proof (zoom_run reader (λ r s, mk r (writer s) (storage_ s)) ReadCommand s o t1 H) as Hz.
  set (s1 := mk t1 (writer s) (storage_ s)) in Hz.
  destruct o as [c|f].
  - rewrite (bindM_ok _ _ _ _ _ Hz). pose proof (process_command_ok c s1) as Hp.
    assert (session_ok s1) as Hs1 by done. specialize (Hp Hs1).
    destruct (exec (contents s1) c) as [[reply kv]|].
    + destruct Hp as (s2&H2&?&Hi&_). left. exists s2. rewrite (bindM_ok _ _ _ _ _ H2), Hi.
      split_and!; [done..|]. by apply (read_command_consumes (reader s) c t1).
    + destruct Hp as (e&H2&He). right. left. exists s1.
      by rewrite (bindM_fail _ _ _ _ _ H2), He.
  - rewrite (bindM_fail _ _ _ _ _ Hz). right.
    destruct f as [[]| | |]; try done; [left; by exists s1|right; by exists s1].
Qed.

Lemma listen_conn_any fuel s :
  session_ok s → length (input s) < fuel → conn_outcome (Listen_conn fuel s).1 (input s).
Proof.
  revert s. induction fuel as [|fuel IH]; intros s Hs Hf; [lia|].
  rewrite listen_conn_S.
  destruct (serve_one_any s Hs) as [(s1&H&Hs1&Hsuf&Hlt)|[(s1&H)|(s1&H&Hov)]].
  - mstep H. destruct (IH s1 Hs1 ltac:(lia)) as [?|[? (suf&?&?)]]; [by left|right].
    split; [done|]. exists suf. split; [by etrans|done].
  - mstep H. by left.
  - rewrite (bindM_fail _ _ _ _ _ H). right. done.
Qed.
End AnyInput.

(** ** The client *)

Section ClientFacts.
Context {R W : Type} `{!IReader R, !ReaderSpec R, !IWriter W, !WriterSpec W}.
Implicit Types (c : Client.t R W).
Import Client.

Definition client_ok c : Prop := reader_ok (RespReader.reader_ (reader_ c)) ∧ writer_ok (writer_ c).
Definition incoming c : bytes := stream (RespReader.reader_ (reader_ c)).
Definition outgoing c : bytes := written (writer_ c).

(** Sending a message, then going on. *)
Lemma client_send {A} m (k : () → M (Client.t R W) A) c :
  client_ok c →
  ∃ c', bindM (with_writer (write_message m)) k c = k () c' ∧ client_ok c' ∧
    incoming c' = incoming c ∧ outgoing c' = outgoing c ++ enc m.
Proof.
  intros [Hr Hw]. destruct (write_message_enc m _ Hw) as (w'&H&?&?).
  exists (mk (reader_ c) w'). split; [|done]. erewrite bindM_ok; [|by apply zoom_run]. done.
Qed.

Lemma client_send_all {A} ms (k : M (Client.t R W) A) c :
  client_ok c →
  ∃ c', foldr (λ m k, with_writer (write_message m) ;;; k) k ms c = k c' ∧ client_ok c' ∧
    incoming c' = incoming c ∧ outgoing c' = outgoing c ++ enc_all ms.
Proof.
  revert c. induction ms as [|m ms IH]; intros c Hc; cbn [foldr].
  - exists c. by rewrite app_nil_r.
  - destruct (client_send m (λ _, foldr (λ m k, with_writer (write_message m) ;;; k) k ms) c Hc)
      as (c1&->&Hc1&Hi1&Ho1). destruct (IH c1 Hc1) as (c2&->&?&Hi2&Ho2).
    exists c2. rewrite Hi2, Ho2, Hi1, Ho1, <- app_assoc. done.
Qed.

(** Receiving with an operation of [RespReader]. *)
Lemma client_recv {A} (op : M (RespReader.t R) A) o t' c :
  op (reader_ c) = (o, t') → with_reader op c = (o, mk t' (writer_ c)).
Proof. intros H. exact (zoom_run _ _ op c _ _ H). Qed.

Definition answer_type (m : message) : ERespType :=
  match m with
  | MSimple _ => SimpleString
  | MError _ => Error
  | MInt _ => Int
  | MBulk _ | MNullBulk => BulkString
  | MArray _ | MNullArray => Array
  end.

Definition answer_body (m : message) : bytes := tail (enc m).

Lemma client_recv_type {A} m rest (k : ERespType → M (Client.t R W) A) c :
  client_ok c → incoming c = enc m ++ rest →
  ∃ c', bindM (with_reader RespReader.ReadType) k c = k (answer_type m) c' ∧ client_ok c' ∧
    incoming c' = answer_body m ++ rest ∧ outgoing c' = outgoing c.
Proof.
  intros [Hr Hw] Hin. unfold incoming in Hin.
  destruct (read_type_ok (reader_ c) (RespTypeToChar (answer_type m)) (answer_type m)
    (answer_body m ++ rest) Hr) as (t'&H&?&?).
  { rewrite Hin. by destruct m. }
  { apply char_to_resp_type_inv. }
  exists (mk t' (writer_ c)). split; [|done]. erewrite bindM_ok; [|by apply client_recv]. done.
Qed.

(** What a client's call returns for a reply, and the command it stands for. *)
Definition get_result (m : message) : outcome (option bytes) :=
  match m with
  | MBulk s => Ok (Some s)
  | MNullBulk => Ok None
  | MError s => Fail (Exn (RedisError (String.string_of_list_ascii s)))
  | _ => Fail (Exn (RedisError "Wrong answer type"))
  end.

Definition set_result (m : message) : outcome () :=
  match m with
  | MBulk s =>
      if decide (s = str "OK") then Ok () else Fail (Exn (RedisError "Unsuccessful SET"))
  | MNullBulk => Fail (Exn (RedisError "Unsuccessful SET"))
  | MError s => Fail (Exn (RedisError (String.string_of_list_ascii s)))
  | _ => Fail (Exn (RedisError "Wrong answer type"))
  end.

Definition int_result (m : message) : outcome Z :=
  match m with
  | MInt n => Ok n
  | MError s => Fail (Exn (RedisError (String.string_of_list_ascii s)))
  | _ => Fail (Exn (RedisError "Wrong answer type"))
  end.

(** A call sends exactly the request of its command and returns what the reply
    says; when it succeeds it has consumed the reply and nothing else. *)
Definition call_ok {A} (call : M (Client.t R W) A) (cmd : Command) (result : message → outcome A)
    : Prop :=
  ∀ c reply rest, client_ok c → message_ok reply → incoming c = enc reply ++ rest →
  ∃ c', call c = (result reply, c') ∧ client_ok c' ∧
    outgoing c' = outgoing c ++ enc_all (request cmd) ∧
    (∀ a, result reply = Ok a → incoming c' = rest).

Lemma throw_read_error_ok {A} s rest c :
  client_ok c → message_ok (MError s) → incoming c = answer_body (MError s) ++ rest →
  ∃ c', throw_read_error (A := A) c
      = (Fail (Exn (RedisError (String.string_of_list_ascii s))), c') ∧
    client_ok c' ∧ outgoing c' = outgoing c.
Proof.
  intros [Hr Hw] Hm Hin. cbn [answer_body enc tail] in Hin. rewrite <- app_assoc in Hin.
  destruct (read_simple_ok (reader_ c) s rest Hr Hm Hin) as [_ (t'&H&?&?)].
  exists (mk t' (writer_ c)). split; [|done]. unfold throw_read_error.
  erewrite bindM_ok; [|by apply client_recv]. done.
Qed.

Lemma recv_bulk_ok m rest c :
  client_ok c → message_ok m → answer_type m = BulkString → incoming c = answer_body m ++ rest →
  ∃ c', with_reader RespReader.ReadBulkString c
      = (Ok (match m with MBulk s => Some s | _ => None end), c') ∧
    client_ok c' ∧ outgoing c' = outgoing c ∧ incoming c' = rest.
Proof.
  intros [Hr Hw] Hm Ht Hin. destruct m; try done; cbn [answer_body enc tail] in Hin;
    rewrite <- !app_assoc in Hin.
  - destruct (read_bulk_ok (reader_ c) s rest Hr Hm Hin) as (t'&H&?&?).
    exists (mk t' (writer_ c)). split; [by apply client_recv|done].
  - destruct (read_null_bulk_ok (reader_ c) rest Hr Hin) as (t'&H&?&?).
    exists (mk t' (writer_ c)). split; [by apply client_recv|done].
Qed.

Lemma recv_int_ok n rest c :
  client_ok c → message_ok (MInt n) → incoming c = answer_body (MInt n) ++ rest →
  ∃ c', with_reader RespReader.ReadInt c = (Ok n, c') ∧ client_ok c' ∧
    outgoing c' = outgoing c ∧ incoming c' = rest.
Proof.
  intros [Hr Hw] Hm Hin. cbn [answer_body enc tail] in Hin. rewrite <- app_assoc in Hin.
  destruct (read_int_ok (reader_ c) n rest Hr Hm Hin) as (t'&H&?&?).
  exists (mk t' (writer_ c)). split; [by apply client_recv|done].
Qed.

(** The common shape of the four calls. *)
Lemma call_shape {A} cmd (finish : ERespType → M (Client.t R W) A) result :
  (∀ c m rest, client_ok c → message_ok m → incoming c = answer_body m ++ rest →
     ∃ c', finish (answer_type m) c = (result m, c') ∧ client_ok c' ∧
       outgoing c' = outgoing c ∧ (∀ a, result m = Ok a → incoming c' = rest)) →
  call_ok (foldr (λ m k, with_writer (write_message m) ;;; k)
    (resp_type <- with_reader RespReader.ReadType ;; finish resp_type) (request cmd)) cmd result.
Proof.
  intros Hfin c m rest Hc Hm Hin.
  destruct (client_send_all (request cmd)
    (bindM (with_reader RespReader.ReadType) finish) c Hc) as (c1&H1&Hc1&Hi1&Ho1).
  rewrite Hin in Hi1. destruct (client_recv_type m rest finish c1 Hc1 Hi1) as (c2&H2&Hc2&Hi2&Ho2).
  destruct (Hfin c2 m rest Hc2 Hm Hi2) as (c3&H3&?&Ho3&?). exists c3.
  rewrite Ho3, Ho2, Ho1, <- H3, <- H2, <- H1. done.
Qed.

Lemma client_get_ok key : call_ok (Get key) (CommandGet key) get_result.
Proof.
  apply (call_shape (CommandGet key)). intros c m rest Hc Hm Hin.
  destruct (decide (answer_type m = BulkString)) as [Ht|Ht].
  - destruct (recv_bulk_ok m rest c Hc Hm Ht Hin) as (c'&H&?&?&?). exists c'. mstep H. by destruct m.
  - case_decide.
    + destruct m as [|s| | | | |]; try done.
      destruct (throw_read_error_ok (A := option bytes) s rest c Hc Hm Hin) as (c'&H'&?&?). by exists c'.
    + exists c. split_and!; [by destruct m|done|done|by destruct m].
Qed.

Lemma client_set_ok key v : call_ok (Set_ key v) (CommandSet key v) set_result.
Proof.
  apply (call_shape (CommandSet key v)). intros c m rest Hc Hm Hin.
  destruct (decide (answer_type m = BulkString)) as [Ht|Ht].
  - destruct (recv_bulk_ok m rest c Hc Hm Ht Hin) as (c'&H&?&?&?). exists c'. mstep H.
    destruct m as [| | |s| | |]; try done. cbv beta iota delta [set_result].
    destruct (decide (s = str "OK")) as [->|Hne]; case_decide; simplify_eq; done.
  - case_decide.
    + destruct m as [|s| | | | |]; try done.
      destruct (throw_read_error_ok (A := ()) s rest c Hc Hm Hin) as (c'&H'&?&?). by exists c'.
    + exists c. split_and!; [by destruct m|done|done|by destruct m].
Qed.

Lemma client_int_ok c m rest :
  client_ok c → message_ok m → incoming c = answer_body m ++ rest →
  ∃ c', (if decide (answer_type m = Int) then with_reader RespReader.ReadInt
         else if decide (answer_type m = Error) then throw_read_error
         else throwM (RedisError "Wrong answer type")) c = (int_result m, c') ∧
    client_ok c' ∧ outgoing c' = outgoing c ∧
    (∀ a, int_result m = Ok a → incoming c' = rest).
Proof.
  intros Hc Hm Hin. destruct (decide (answer_type m = Int)) as [Ht|Ht].
  - destruct m; try done. destruct (recv_int_ok n rest c Hc Hm Hin) as (c'&H&?&?&?). by exists c'.
  - case_decide.
    + destruct m as [|s| | | | |]; try done.
      destruct (throw_read_error_ok (A := Z) s rest c Hc Hm Hin) as (c'&H'&?&?). by exists c'.
    + exists c. split_and!; [by destruct m|done|done|by destruct m].
Qed.
End ClientFacts.

(** ** Properties *)


(** [Change] is exact: on a string it throws [bad_typeid]; otherwise, a missing
    key counting as zero, it stores and returns the sum when the sum is a 64-bit
    integer and throws [out_of_range] without touching the storage when it is
    not.  No signed arithmetic overflows on the way, in the guard either, and the
    storage goes on holding 64-bit integers only. *)
Theorem storage_change_exact (key : bytes) (delta : Z) (this : SimpleStorage.t) :
  SimpleStorage.wf this → in_s64 delta = true →
  SimpleStorage.Change key delta this =
    match changed (SimpleStorage.kv_storage_ this) key delta with
    | Ok (n, kv) => (Ok n, SimpleStorage.mk kv)
    | Fail f => (Fail f, this)
    end ∧
  SimpleStorage.wf (SimpleStorage.Change key delta this).2.
Proof.
  intros Hwf Hd. pose proof (SimpleStorage.change_run key delta this Hwf Hd) as H. unfold changed.
  destruct (int_of _ key) as [n|]; [|by rewrite H].
  destruct (in_s64 (n + delta)) eqn:Hn; [|by rewrite H].
  rewrite H. split; [done|]. apply SimpleStorage.wf_put; [done|]. by intros ? [= <-].
Qed.

Lemma storage_change_exact_witness :
  SimpleStorage.Change (str "k") 1 (SimpleStorage.put (str "k") (VInt kIntMax64) SimpleStorage.make)
  = (Fail (Exn (OutOfRange "oveflow")),
     SimpleStorage.put (str "k") (VInt kIntMax64) SimpleStorage.make).
Proof.
  destruct (storage_change_exact (str "k") 1
    (SimpleStorage.put (str "k") (VInt kIntMax64) SimpleStorage.make)) as [H _].
  - apply SimpleStorage.wf_put; [apply SimpleStorage.wf_make|by intros n [= <-]].
  - reflexivity.
  - exact H.
Defined.

(** Reading back what was set: [Get] after [Set] returns a string with the same
    meaning, which is the very string that was set unless that string is an
    integer written in a non-canonical way; every other key keeps its value. *)
Theorem storage_set_get (key v : bytes) (this : SimpleStorage.t) :
  ∃ r this', SimpleStorage.Set_ key v this = (Ok (), this') ∧
    SimpleStorage.Get key this' = (Ok (Some r), this') ∧
    parse_value r = parse_value v ∧
    (r = v ∨ ∃ n, stoll v = Ok (n, length v) ∧ r = to_string n) ∧
    (∀ key', key' ≠ key →
       (SimpleStorage.Get key' this').1 = (SimpleStorage.Get key' this).1).
Proof.
  exists (show_value (parse_value v)), (SimpleStorage.put key (parse_value v) this).
  split_and!.
  - apply SimpleStorage.set_run.
  - rewrite SimpleStorage.get_run. cbn. by rewrite lookup_insert_eq.
  - unfold parse_value. destruct (stoll v) as [[n k]|f] eqn:E.
    + case_decide; cbn; [|by rewrite E, decide_False].
      rewrite stoll_to_string by (by eapply stoll_range). by rewrite decide_True.
    + cbn. by rewrite E.
  - unfold parse_value. destruct (stoll v) as [[n k]|f] eqn:E; [|by left].
    case_decide; [|by left]. right. exists n. by subst.
  - intros key' Hne. rewrite !SimpleStorage.get_run. cbn. by rewrite lookup_insert_ne.
Qed.

(** Finding: the string "007" is not stored verbatim, a client that sets it
    reads "7" back. *)
Theorem storage_normalises_integers :
  SimpleStorage.Get (str "k") (SimpleStorage.Set_ (str "k") (str "007") SimpleStorage.make).2
  = (Ok (Some (str "7")), SimpleStorage.put (str "k") (VInt 7) SimpleStorage.make).
Proof. vm_compute. reflexivity. Qed.

(** C10 Serving a connection refines the abstract meaning of the commands: for any
    sequence of well-formed requests, followed by the end of the stream, the fiber
    ends, having sent exactly the encodings of the replies of [exec_all], in
    order, up to the first command that cannot be run, and having left the storage
    as [exec_all] says. *)
Theorem server_refines_exec {R W St : Type} `{!IReader R, !ReaderSpec R, !IWriter W,
    !WriterSpec W, !IStorage St, !StorageSpec St}
    (cs : list Command) (fuel : nat) (s : Server.session R W St) :
  session_ok s → Forall command_ok cs → input s = concat (enc_all ∘ request <$> cs) →
  length cs < fuel →
  ∃ s', Server.Listen_conn fuel s = (Ok (), s') ∧
    output s' = output s ++ enc_all (exec_all (contents s) cs).1 ∧
    contents s' = (exec_all (contents s) cs).2.
Proof. apply listen_conn_ok. Qed.

Definition demo_session (st : bytes) : Server.session ViewReader.t StringWriter.t SimpleStorage.t :=
  Server.mk (RespReader.make (ViewReader.make st)) StringWriter.make SimpleStorage.make.

Lemma demo_session_ok st : session_ok (demo_session st).
Proof. split_and!; [cbn; lia|cbn; lia|apply SimpleStorage.wf_make]. Qed.

Lemma server_refines_exec_witness :
  let cs := [CommandSet (str "k") (str "41"); CommandIncr (str "k"); CommandGet (str "z")] in
  ∃ s', Server.Listen_conn 4 (demo_session (concat (enc_all ∘ request <$> cs))) = (Ok (), s') ∧
    output s' = str "$2" ++ CRLF ++ str "OK" ++ CRLF ++ str ":42" ++ CRLF ++ str "$-1" ++ CRLF.
Proof.
  intros cs. destruct (server_refines_exec cs 4 (demo_session (concat (enc_all ∘ request <$> cs))))
    as (s'&H&Ho&_).
  - apply demo_session_ok.
  - repeat constructor; vm_compute; done.
  - reflexivity.
  - cbn. lia.
  - exists s'. split; [exact H|]. rewrite Ho. vm_compute. reflexivity.
Defined.

(** Whatever bytes arrive, the fiber of a connection ends: with fuel for one
    iteration more than there are bytes, the loop is left by its [break]; no
    exception escapes the handler, and the only way to go wrong is a bulk string
    whose announced length overflows, somewhere in the input. *)
Theorem server_any_input {R W St : Type} `{!IReader R, !ReaderSpec R, !IWriter W,
    !WriterSpec W, !IStorage St, !StorageSpec St} (fuel : nat) (s : Server.session R W St) :
  session_ok s → length (input s) < fuel →
  conn_outcome (Server.Listen_conn fuel s).1 (input s).
Proof. apply listen_conn_any. Qed.

Lemma server_any_input_witness :
  conn_outcome (Server.Listen_conn 10 (demo_session (str "*2"))).1
    (input (demo_session (str "*2"))).
Proof.
  apply (server_any_input 10 (demo_session (str "*2"))).
  - apply demo_session_ok.
  - cbn. lia.
Defined.

(** The four calls of the client: whatever message the server answers, a call
    sends exactly the request of its command, returns what the reply says, turns
    an error reply into a [RedisError] with its text, rejects a reply of another
    type, and after a success is ready for the next reply. *)
Theorem client_calls {R W : Type} `{!IReader R, !ReaderSpec R, !IWriter W, !WriterSpec W}
    (key v : bytes) :
  call_ok (R := R) (W := W) (Client.Get key) (CommandGet key) get_result ∧
  call_ok (R := R) (W := W) (Client.Set_ key v) (CommandSet key v) set_result ∧
  call_ok (R := R) (W := W) (Client.Increment key) (CommandIncr key) int_result ∧
  call_ok (R := R) (W := W) (Client.Decrement key) (CommandDecr key) int_result.
Proof.
  split_and!; [apply client_get_ok|apply client_set_ok|..].
  - apply (call_shape (CommandIncr key)). intros. by apply client_int_ok.
  - apply (call_shape (CommandDecr key)). intros. by apply client_int_ok.
Qed.

Lemma show_parse_length v :
  (Z.of_nat (length v) + 2 <= kIntMax64)%Z →
  (Z.of_nat (length (show_value (parse_value v))) + 2 <= kIntMax64)%Z.
Proof.
  intros Hv. unfold parse_value. destruct (stoll v) as [[n k]|] eqn:E; [|done].
  case_decide; [|done]. cbn. apply stoll_range, in_s64_spec in E.
  pose proof (to_string_length n ltac:(lia)). unfold kIntMax64. lia.
Qed.

(** End to end: when a server receives the bytes a client sends for
    [Set key v] and [Get key], and that client receives what the server answers,
    the client's [Set] succeeds and its [Get] returns [v], up to the spelling of
    integers; the client has sent exactly what the server received. *)
Theorem client_server_set_get {R W R' W' St : Type} `{!IReader R, !ReaderSpec R, !IWriter W,
    !WriterSpec W, !IReader R', !ReaderSpec R', !IWriter W', !WriterSpec W',
    !IStorage St, !StorageSpec St}
    (key v : bytes) (c : Client.t R W) (s : Server.session R' W' St) :
  client_ok c → session_ok s → command_ok (CommandSet key v) →
  input s = concat (enc_all ∘ request <$> [CommandSet key v; CommandGet key]) →
  ∃ s', Server.Listen_conn 3 s = (Ok (), s') ∧
    (output s' = output s ++ incoming c →
     ∃ c', (Client.Set_ key v ;;; Client.Get key) c
         = (Ok (Some (show_value (parse_value v))), c') ∧
       outgoing c' = outgoing c ++ input s).
Proof.
  intros Hc Hs Hcmd Hin. set (cs := [CommandSet key v; CommandGet key]).
  assert (message_ok (MBulk key) ∧ message_ok (MBulk v)) as [Hk Hv].
  { unfold command_ok in Hcmd. cbn in Hcmd. rewrite !Forall_cons in Hcmd. by destruct_and!. }
  destruct (listen_conn_ok cs 3 s Hs) as (s'&H&Ho&_); [by repeat constructor|done|cbn; lia|].
  exists s'. split; [done|]. set (r2 := MBulk (show_value (parse_value v))).
  assert (enc_all (exec_all (contents s) cs).1 = enc (MBulk (str "OK")) ++ enc r2 ++ []) as Hr.
  { unfold cs. cbn [exec_all exec]. by rewrite lookup_insert_eq. }
  rewrite Ho, Hr. intros Hinc%app_inv_head. symmetry in Hinc.
  destruct (client_set_ok key v c (MBulk (str "OK")) (enc r2 ++ []) Hc) as (c1&H1&Hc1&Ho1&Hi1);
    [done..|].
  specialize (Hi1 () eq_refl).
  destruct (client_get_ok key c1 r2 [] Hc1 (show_parse_length v Hv) Hi1) as (c2&H2&_&Ho2&_).
  exists c2. split.
  - erewrite bindM_ok; [exact H2|exact H1].
  - rewrite Ho2, Ho1, <- app_assoc, Hin. cbn [fmap list_fmap concat]. by rewrite app_nil_r.
Qed.

Definition demo_client (st : bytes) : Client.t ViewReader.t StringWriter.t :=
  Client.mk (RespReader.make (ViewReader.make st)) StringWriter.make.

Lemma client_server_set_get_witness :
  ∃ c', (Client.Set_ (str "k") (str "+5") ;;; Client.Get (str "k"))
      (demo_client (str "$2" ++ CRLF ++ str "OK" ++ CRLF ++ str "$1" ++ CRLF ++ str "5" ++ CRLF))
    = (Ok (Some (str "5")), c').
Proof.
  set (requests := concat (enc_all ∘ request <$>
    [CommandSet (str "k") (str "+5"); CommandGet (str "k")])).
  set (replies := str "$2" ++ CRLF ++ str "OK" ++ CRLF ++ str "$1" ++ CRLF ++ str "5" ++ CRLF).
  destruct (client_server_set_get (str "k") (str "+5") (demo_client replies)
    (demo_session requests)) as (s'&H1&H2).
  - split; cbn; lia.
  - apply demo_session_ok.
  - repeat constructor; done.
  - reflexivity.
  - destruct H2 as (c'&Hc'&_).
    + vm_compute in H1. injection H1 as <-. vm_compute. reflexivity.
    + exists c'. exact Hc'.
Defined.
