(* ===== verification/RedisServer.v ===== *)
(** * The redis server with its connections (redis/redis-server/server.cpp: Listen)

    The fibers of all connections over one storage.  A fiber may be parked while it reads a
    command and while it writes the reply; the operation on the storage, between the two, does
    not park.  So a turn of a fiber is the reading of a command, which only uses the reader of
    the connection, or [ProcessCommand]; nobody else uses the writer that it waits for.

    Whatever the clients send, except a length of a bulk string that overflows, and whatever the
    order of new connections and turns, the server is one storage that runs the commands one after
    the other: there is an order of all commands, in which those of a connection are in the order
    in which they are read from what its client sends, that gives every reply that was sent. *)

From S2P Require Import Prelude Readers Writers Resp Redis.

Section Listen.
Context {R W St : Type} `{!IReader R, !IWriter W, !IStorage St}.

(** Where the fiber of a connection is. *)
Inductive place : Type := Reading | Processing (command : Command) | Ended.

(** [script], [base] and [sent] are auxiliary: the commands that can be read from what the
    client sends, what had been written before, and all that the client sends. *)
Record connection : Type := mkConn {
  reader : RespReader.t R; writer : W; at_ : place; script : list Command; base : bytes; sent : bytes
}.

(** [log] is auxiliary: the commands in the order in which they were processed, with the
    connection that sent them. *)
Record server : Type := mkServer { storage_ : St; conns : list connection; log : list (nat * Command) }.

(** The next turn of a fiber: the connection and the storage afterwards. *)
Definition turn (c : connection) (st : St) : outcome (connection * St) :=
  match at_ c with
  | Reading =>
      match Server.ReadCommand (reader c) with
      | (Ok command, r) => Ok (mkConn r (writer c) (Processing command) (script c) (base c) (sent c), st)
      | (Fail (Exn e), r) =>
          if is_std_exception e then Ok (mkConn r (writer c) Ended (script c) (base c) (sent c), st) else Fail (Exn e)
      | (Fail f, _) => Fail f
      end
  | Processing command =>
      match Server.ProcessCommand command (Server.mk (reader c) (writer c) st) with
      | (Ok _, s) => Ok (mkConn (Server.reader s) (Server.writer s) Reading (script c) (base c) (sent c), Server.storage_ s)
      | (Fail (Exn e), s) =>
          if is_std_exception e
          then Ok (mkConn (Server.reader s) (Server.writer s) Ended (script c) (base c) (sent c), Server.storage_ s)
          else Fail (Exn e)
      | (Fail f, _) => Fail f
      end
  | Ended => Ok (c, st)
  end.

Definition logged (i : nat) (c : connection) (l : list (nat * Command)) : list (nat * Command) :=
  match at_ c with Processing command => l ++ [(i, command)] | _ => l end.

(** What happens: a connection is accepted, and a fiber is spawned for it; or a fiber has its
    turn. *)
Inductive event : Type := Accept (c : connection) | Turn (i : nat).

Definition handle (e : event) (s : server) : outcome server :=
  match e with
  | Accept c => Ok (mkServer (storage_ s) (conns s ++ [c]) (log s))
  | Turn i =>
      match conns s !! i with
      | None => Ok s
      | Some c =>
          r <-? turn c (storage_ s) ;;
          Ok (mkServer r.2 (<[i := r.1]> (conns s)) (logged i c (log s)))
      end
  end.

Definition Listen (events : list event) (s : server) : outcome server := forO handle events s.
Definition make (st : St) : server := mkServer st [] [].

(** The commands that can be read from a connection, one after the other, until the reader
    throws. *)
Fixpoint read_all (fuel : nat) (t : RespReader.t R) : list Command :=
  match fuel with
  | 0 => []
  | S fuel => match Server.ReadCommand t with (Ok c, t) => c :: read_all fuel t | _ => [] end
  end.
End Listen.
Arguments connection : clear implicits.
Arguments server : clear implicits.
Arguments event : clear implicits.

(** ** One storage *)

(** The replies to the commands of all connections, with the connections they go to; a command
    that cannot be run has none. *)
Fixpoint exec_log (kv : gmap bytes value) (l : list (nat * Command)) : list (nat * message) * gmap bytes value :=
  match l with
  | [] => ([], kv)
  | (i, c) :: l =>
      match exec kv c with
      | Some (reply, kv) => let '(rs, kv) := exec_log kv l in ((i, reply) :: rs, kv)
      | None => exec_log kv l
      end
  end.

Lemma exec_log_app kv l l' :
  exec_log kv (l ++ l') =
  ((exec_log kv l).1 ++ (exec_log (exec_log kv l).2 l').1, (exec_log (exec_log kv l).2 l').2).
Proof.
  revert kv. induction l as [|[i c] l IH]; intros kv; cbn.
  - by destruct (exec_log kv l').
  - destruct (exec kv c) as [[reply kv']|]; [|apply IH]. rewrite IH. by destruct (exec_log kv' l).
Qed.

(** The replies come from the commands, so no other connection has one. *)
Lemma exec_log_conns kv l (P : nat → Prop) : Forall (λ p, P p.1) l → Forall (λ p, P p.1) (exec_log kv l).1.
Proof.
  intros Hl. revert kv. induction Hl as [|[i c] l Hi Hl IH]; intros kv; cbn [exec_log]; [constructor|].
  destruct (exec kv c) as [[reply kv']|]; [|apply IH]. specialize (IH kv'). destruct (exec_log kv' l). by constructor.
Qed.

(** ** The invariant *)

Section Facts.
Context {R W St : Type} `{!IReader R, !ReaderSpec R, !IWriter W, !WriterSpec W, !IStorage St, !StorageSpec St}.
Context (kv0 : gmap bytes value).
Implicit Types (c : connection R W) (s : server R W St) (l : list (nat * Command)).

(** A command takes at least one byte. *)
Definition requests (t : RespReader.t R) : list Command := read_all (length (unread t)) t.

Lemma read_all_enough fuel t :
  reader_ok (RespReader.reader_ t) → length (unread t) ≤ fuel → read_all fuel t = requests t.
Proof.
  intros Hr. unfold requests. remember (length (unread t)) as n eqn:En. assert (length (unread t) ≤ n) as Hn by lia. clear En.
  revert fuel t Hr Hn. induction n as [|n IH]; intros fuel t Hr Hn Hf.
  - destruct (read_command_eof t Hr) as (msg&t'&He&_); [by apply length_zero_iff_nil; unfold unread in Hn; lia|].
    destruct fuel as [|fuel]; cbn; [done|]. by rewrite He.
  - destruct fuel as [|fuel]; [lia|]. cbn. pose proof (proj1 (calm_read_command (R := R)) t Hr) as Hst.
    destruct (Server.ReadCommand t) as [[c|f] t'] eqn:E; [|done]. pose proof (read_command_consumes t c t' Hr E).
    f_equal. apply IH; [apply Hst|lia|lia].
Qed.

Lemma requests_step t :
  reader_ok (RespReader.reader_ t) →
  requests t = match Server.ReadCommand t with (Ok c, t') => c :: requests t' | _ => [] end.
Proof.
  intros Hr. pose proof (proj1 (calm_read_command (R := R)) t Hr) as Hst. rewrite <-(read_all_enough (S (length (unread t))) t Hr) by lia. cbn.
  destruct (Server.ReadCommand t) as [[c|f] t'] eqn:E; [|done]. f_equal. apply read_all_enough; [apply Hst|].
  pose proof (read_command_consumes t c t' Hr E). lia.
Qed.

(** Well-formed commands are read as they were sent. *)
Lemma requests_enc t cs tail :
  reader_ok (RespReader.reader_ t) → Forall command_ok cs → unread t = concat (enc_all ∘ request <$> cs) ++ tail →
  cs `prefix_of` requests t ∧ (tail = [] → requests t = cs).
Proof.
  intros Hr Hcs. revert t Hr. induction Hcs as [|c cs Hc Hcs IH]; intros t Hr Hin.
  - split; [apply prefix_nil|]. intros ->. rewrite (requests_step t Hr). by destruct (read_command_eof t Hr Hin) as (msg&t'&->&_).
  - cbn in Hin. rewrite <-app_assoc in Hin. destruct (read_command_ok t c _ Hr Hc Hin) as (t'&E&Hr'&Hin').
    rewrite (requests_step t Hr), E. destruct (IH t' Hr' Hin') as [Hpre Heq]. split; [by apply prefix_cons|].
    intros Ht. by rewrite (Heq Ht).
Qed.

Definition replies (i : nat) (l : list (nat * Command)) : list message := of_owner i (exec_log kv0 l).1.

(** What is still to come from a client: any bytes, but for a length of a bulk string that
    overflows; [rest] are the commands in them. *)
Definition sends c (rest : list Command) : Prop :=
  (∀ suf, suf `suffix_of` unread (reader c) → ¬ bulk_overflow suf) ∧ requests (reader c) = rest.

Record conn_inv (i : nat) c l : Prop := {
  ci_reader : reader_ok (RespReader.reader_ (reader c));
  ci_writer : writer_ok (writer c);
  ci_written : written (writer c) = base c ++ enc_all (replies i l);
  ci_sent : ∀ cs tail, Forall command_ok cs → sent c = concat (enc_all ∘ request <$> cs) ++ tail →
    cs `prefix_of` script c ∧ (tail = [] → script c = cs);
  ci_place : match at_ c with
    | Reading => ∃ rest, script c = of_owner i l ++ rest ∧ sends c rest ∧ length (replies i l) = length (of_owner i l)
    | Processing command => ∃ rest, script c = of_owner i l ++ command :: rest ∧ sends c rest ∧
        length (replies i l) = length (of_owner i l)
    | Ended => (script c = of_owner i l ∧ length (replies i l) = length (of_owner i l)) ∨
        (∃ rest, script c = of_owner i l ++ rest) ∧ S (length (replies i l)) = length (of_owner i l)
    end;
}.

Record server_inv s : Prop := {
  si_storage : storage_ok (storage_ s);
  si_contents : entries (storage_ s) = (exec_log kv0 (log s)).2;
  si_log : Forall (λ p, p.1 < length (conns s)) (log s);
  si_conns : ∀ i c, conns s !! i = Some c → conn_inv i c (log s);
}.

(** A connection that is accepted: its client sends any bytes without an overflowing length. *)
Definition event_ok (e : event R W) : Prop :=
  match e with
  | Accept c => reader_ok (RespReader.reader_ (reader c)) ∧ writer_ok (writer c) ∧ written (writer c) = base c ∧
      at_ c = Reading ∧ sends c (script c) ∧ sent c = unread (reader c)
  | Turn _ => True
  end.

(** The turns that a fiber still needs. *)
Definition turns_left (i : nat) c l : nat :=
  match at_ c with
  | Reading => 2 * (length (script c) - length (of_owner i l)) + 1
  | Processing _ => 2 * (length (script c) - length (of_owner i l))
  | Ended => 0
  end.

(** Processing a command does not read. *)
Lemma process_command_reader command (x : Server.session R W St) :
  Server.reader (Server.ProcessCommand command x).2 = Server.reader x.
Proof.
  destruct command; unfold Server.ProcessCommand, Server.with_storage, Server.with_writer, zoom, bindM; by repeat (case_match; simplify_eq/=).
Qed.

(** One more command: the reply, if there is one, goes to its connection. *)
Lemma replies_snoc i j l command :
  replies i (l ++ [(j, command)]) =
  replies i l ++ match exec (exec_log kv0 l).2 command with Some (reply, _) => of_owner i [(j, reply)] | None => [] end.
Proof.
  unfold replies. rewrite exec_log_app. cbn [fst]. rewrite of_owner_app. f_equal.
  cbn. by destruct (exec (exec_log kv0 l).2 command) as [[]|].
Qed.

(** A command of another connection changes nothing for this one. *)
Lemma conn_inv_frame i j c l command : i ≠ j → conn_inv i c l → conn_inv i c (l ++ [(j, command)]).
Proof.
  intros Hij [? ? Hw Hsent Hp]. assert (replies i (l ++ [(j, command)]) = replies i l) as Hr.
  { rewrite replies_snoc. destruct (exec _ command) as [[]|]; [by rewrite of_owner_other, app_nil_r|by rewrite app_nil_r]. }
  assert (of_owner i (l ++ [(j, command)]) = of_owner i l) as Hc by (by rewrite of_owner_app, of_owner_other, app_nil_r).
  split; [done|done|by rewrite Hr|done|]. by rewrite Hr, Hc.
Qed.

Lemma turns_left_frame i j c l command : i ≠ j → turns_left i c (l ++ [(j, command)]) = turns_left i c l.
Proof. intros Hij. unfold turns_left. by rewrite of_owner_app, of_owner_other, app_nil_r. Qed.

(** A turn of connection [i]: it does not fail, it keeps the invariant of the connection and the
    meaning of the storage, and the fiber is one turn nearer to its end. *)
Lemma turn_ok i c l st :
  conn_inv i c l → storage_ok st → entries st = (exec_log kv0 l).2 →
  ∃ c' st', turn c st = Ok (c', st') ∧ conn_inv i c' (logged i c l) ∧ storage_ok st' ∧
    entries st' = (exec_log kv0 (logged i c l)).2 ∧
    turns_left i c' (logged i c l) ≤ turns_left i c l - 1.
Proof.
  intros [Hr Hw Hwr Hsent Hp] Hst Hkv. unfold turn, logged, turns_left. destruct c as [r w [|command|] sc b se]; cbn [at_ reader writer script base sent] in *.
  - destruct Hp as (rest&Hsc&(Hquiet&Hin)&Hlen). destruct (calm_read_command (R := R)) as [Hsteady Hcalm].
    specialize (Hsteady r Hr). specialize (Hcalm r Hr). cbn [reader] in Hquiet, Hin. rewrite (requests_step r Hr) in Hin.
    destruct (Server.ReadCommand r) as [[command|f] r'] eqn:E; cbn in Hsteady, Hcalm, Hin; destruct Hsteady as [Hr' Hsuf]; subst rest.
    + do 2 eexists. split; [done|]. split_and!; [|done|done|].
      * split; cbn; [done|done|done|done|]. exists (requests r'). split_and!; [done| |done]. split; [|done].
        intros suf Hs. apply Hquiet. by etrans.
      * cbn. rewrite Hsc, length_app. cbn. lia.
    + destruct f as [[]| | |]; try done; [|destruct Hcalm as (suf&Hs&Ho); by destruct (Hquiet suf Hs)].
      cbn [is_std_exception]. do 2 eexists. split; [done|].
      split_and!; [|done|done|cbn; lia]. rewrite app_nil_r in Hsc. split; cbn; [done|done|done|done|by left].
  - destruct Hp as (rest&Hsc&(Hquiet&Hin)&Hlen).
    pose proof (process_command_ok command (Server.mk r w st) (conj Hr (conj Hw Hst))) as Hpc.
    unfold contents, input, output in Hpc. cbn [Server.storage_ Server.reader Server.writer] in Hpc. rewrite Hkv in Hpc.
    assert (of_owner i (l ++ [(i, command)]) = of_owner i l ++ [command]) as Hmine by (by rewrite of_owner_app, of_owner_here).
    pose proof (replies_snoc i i l command) as Hrep. pose proof (exec_log_app kv0 l [(i, command)]) as Hlog. cbn in Hlog.
    destruct (exec (exec_log kv0 l).2 command) as [[reply kv]|] eqn:E.
    + destruct Hpc as (s'&Hpc&(Hr'&Hw'&Hst')&Hi'&Ho'&Hk'). rewrite Hpc. do 2 eexists. split; [done|]. rewrite of_owner_here in Hrep.
      split_and!; [|done|by rewrite Hlog|].
      * split; cbn [at_ reader writer script base sent]; [done|done| |done|].
        -- rewrite Ho', Hwr, Hrep. unfold enc_all. rewrite fmap_app, concat_app, <-app_assoc. cbn. by rewrite app_nil_r.
        -- exists rest. rewrite Hmine, Hrep, !length_app. split_and!; [by rewrite <-app_assoc| |cbn; lia].
           pose proof (process_command_reader command (Server.mk r w st)) as Hrd. rewrite Hpc in Hrd. cbn in Hrd. rewrite Hrd.
           by split.
      * cbn. rewrite Hmine, Hsc, !length_app. cbn. lia.
    + destruct Hpc as (e&->&He). rewrite He. do 2 eexists. split; [done|]. rewrite app_nil_r in Hrep.
      split_and!; [|done|by rewrite Hlog|cbn; lia].
      split; cbn [at_ reader writer script base sent Server.reader Server.writer]; [done|done|by rewrite Hrep|done|].
      right. rewrite Hmine, Hrep, length_app. split; [exists rest; by rewrite <-app_assoc|cbn; lia].
  - do 2 eexists. split; [done|]. split_and!; done || (cbn; lia).
Qed.

Definition turns_of (i : nat) (e : event R W) : bool := match e with Turn j => bool_decide (j = i) | Accept _ => false end.

Lemma logged_frame i j c c' l : i ≠ j → conn_inv i c l → conn_inv i c (logged j c' l).
Proof. intros Hij Hc. unfold logged. destruct (at_ c'); [done| |done]. by apply conn_inv_frame. Qed.

Lemma logged_turns i j c c' l : i ≠ j → turns_left i c (logged j c' l) = turns_left i c l.
Proof. intros Hij. unfold logged. destruct (at_ c'); [done| |done]. by apply turns_left_frame. Qed.

Lemma handle_ok e s :
  server_inv s → event_ok e →
  ∃ s', handle e s = Ok s' ∧ server_inv s' ∧
    ∀ i c, conns s !! i = Some c → ∃ c', conns s' !! i = Some c' ∧ script c' = script c ∧ base c' = base c ∧
      turns_left i c' (log s') ≤ turns_left i c (log s) - Nat.b2n (turns_of i e).
Proof.
  intros [Hst Hkv Hlog Hcs] He. destruct e as [c|j]; cbn [handle turns_of].
  - destruct He as (Hr&Hw&Hb&Ha&Hs&Hsent). eexists. split; [done|].
    split; [split; cbn [storage_ conns log]; [done|done| |]|].
    + eapply Forall_impl; [exact Hlog|]. intros p Hp. rewrite length_app. cbn in *. lia.
    + intros i c' [Hi|[Hge [Hz <-]%list_lookup_singleton_Some]]%lookup_app_Some; [by apply Hcs|].
      replace i with (length (conns s)) by lia.
      assert (of_owner (length (conns s)) (log s) = []) as Hmine by (by apply of_owner_none).
      assert (replies (length (conns s)) (log s) = []) as Hrep
        by (apply of_owner_none, (exec_log_conns kv0 (log s) (λ n, n < length (conns s))); exact Hlog).
      split; [done|done|by rewrite Hrep, Hb, app_nil_r| |].
      { intros cs tail Hok Hin. rewrite Hsent in Hin. rewrite <-(proj2 Hs). by apply requests_enc. }
      rewrite Ha. exists (script c). by rewrite Hmine, Hrep.
    + intros i c' Hi. exists c'. cbn [conns log]. split_and!; [by apply lookup_app_l_Some|done|done|cbn; lia].
  - destruct (conns s !! j) as [c|] eqn:Ej.
    + destruct (turn_ok j c (log s) (storage_ s) (Hcs j c Ej) Hst Hkv) as (c'&st'&Ht&Hc'&Hst'&Hkv'&Hleft). rewrite Ht. cbn [bindO fst snd].
      eexists. split; [done|]. assert (j < length (conns s)) as Hj by (by eapply lookup_lt_Some).
      split; [split; cbn [storage_ conns log]; [done|done| |]|].
      * rewrite length_insert. unfold logged. destruct (at_ c); [done| |done]. apply Forall_app. split; [done|]. by constructor.
      * intros i x [[-> ->]|[Hne Hi]]%insert_inv; [done|]. apply logged_frame; [congruence|]. by apply Hcs.
      * intros i x Hi. cbn [conns log]. destruct (decide (j = i)) as [->|Hne].
        -- rewrite Ej in Hi. injection Hi as <-. exists c'. rewrite list_lookup_insert_eq, bool_decide_true by done.
           assert (script c' = script c ∧ base c' = base c) as [??].
           { unfold turn in Ht. by repeat case_match; simplify_eq. }
           split_and!; [done|done|done|cbn; lia].
        -- exists x. rewrite list_lookup_insert_ne, bool_decide_false by done. split_and!; [done|done|done|].
           rewrite logged_turns by congruence. cbn. lia.
    + exists s. split_and!; [done|by split|]. intros i c Hi. exists c. split_and!; [done|done|done|].
      rewrite bool_decide_false by congruence. cbn. lia.
Qed.

Lemma listen_ok events s :
  server_inv s → Forall event_ok events →
  ∃ s', Listen events s = Ok s' ∧ server_inv s' ∧
    ∀ i c, conns s !! i = Some c → ∃ c', conns s' !! i = Some c' ∧ script c' = script c ∧ base c' = base c ∧
      turns_left i c' (log s') ≤ turns_left i c (log s) - count (turns_of i) events.
Proof.
  intros Hs He. revert s Hs. induction He as [|e events He Hes IH]; intros s Hs; unfold Listen; cbn [forO].
  - exists s. split_and!; [done|done|]. intros i c Hc. exists c. change (count (turns_of i) []) with 0. split_and!; [done|done|done|lia].
  - destruct (handle_ok e s Hs He) as (s1&->&Hs1&H1). cbn [bindO]. destruct (IH s1 Hs1) as (s2&Hr&Hs2&H2).
    exists s2. split_and!; [exact Hr|done|]. intros i c Hc. destruct (H1 i c Hc) as (c1&Hc1&?&?&?).
    destruct (H2 i c1 Hc1) as (c2&Hc2&?&?&?). exists c2. rewrite count_cons. split_and!; [done|congruence|congruence|lia].
Qed.

Lemma empty_server_inv st : storage_ok st → entries st = kv0 → server_inv (make (R := R) (W := W) st).
Proof. intros Hst Hkv. split; cbn; [done|done|constructor|by intros i c]. Qed.
End Facts.


(** ** Witness: two clients that increment the same key *)

Module Demo.

Definition sending (bs : bytes) : connection ViewReader.t StringWriter.t :=
  let r := RespReader.make (ViewReader.make bs) in mkConn r StringWriter.make Reading (requests r) [] bs.

Definition client (cs : list Command) (tail : bytes) : connection ViewReader.t StringWriter.t :=
  sending (concat (enc_all ∘ request <$> cs) ++ tail).

Definition junk : bytes := str "*2" ++ CRLF ++ str ":9" ++ CRLF.

Definition events : list (event ViewReader.t StringWriter.t) :=
  [Accept (client [CommandIncr (str "k")] []); Accept (client [CommandIncr (str "k"); CommandGet (str "k")] junk);
   Turn 0; Turn 1; Turn 1; Turn 0; Turn 1; Turn 1; Turn 1].

(** No length in [bs] overflows. *)
Definition calm_bytes (bs : bytes) : bool :=
  forallb (λ n, bool_decide (¬ bulk_overflow (drop n bs))) (seq 0 (S (length bs))).

Lemma calm_bytes_ok bs suf : calm_bytes bs = true → suf `suffix_of` bs → ¬ bulk_overflow suf.
Proof.
  intros H [pre ->]. unfold calm_bytes in H. rewrite forallb_forall in H. specialize (H (length pre)).
  rewrite bool_decide_eq_true, drop_app_length in H. apply H, in_seq. rewrite length_app. lia.
Qed.

Lemma sending_ok bs : calm_bytes bs = true → event_ok (Accept (sending bs)).
Proof.
  intros H. split_and!; [cbn; lia|cbn; lia|done|done| |done]. split; [|done]. intros suf Hs. by apply (calm_bytes_ok bs).
Qed.

Lemma events_ok : Forall event_ok events.
Proof.
  unfold events, client. rewrite !Forall_cons, Forall_nil. split_and!; try done; apply sending_ok; vm_compute; done.
Qed.

Definition outputs (s : server ViewReader.t StringWriter.t SimpleStorage.t) : list bytes :=
  (StringWriter.contents ∘ writer) <$> conns s.


End Demo.
