(* ===== verification/Matrix3.v ===== *)
(** * Matrices modulo 2^64 (matrix-3.0/matrix.h)

    A [Matrix] is its rows together with the two sizes; reading or writing an
    element that does not exist is undefined behaviour.  Every operation is
    characterised by the shape and the entries of its result; a square matrix
    acts on row vectors, and [Pow] is shown to act as the iterated matrix. *)

From S2P Require Import Prelude.

Record Matrix : Type := mkMatrix {
  matrix_ : list (list Z);
  rows_num_ : nat;
  cols_num_ : nat
}.

Definition make (rows_num cols_num : nat) : Matrix :=
  mkMatrix (replicate rows_num (replicate cols_num 0%Z)) rows_num cols_num.

(** [matrix_[row_idx][col_idx]], read and written. *)
Definition get (m : Matrix) (row_idx col_idx : nat) : outcome Z :=
  match matrix_ m !! row_idx ≫= (.!! col_idx) with
  | Some x => Ok x
  | None => Fail UB
  end.

Definition set (row_idx col_idx : nat) (x : Z) (m : Matrix) : outcome Matrix :=
  match matrix_ m !! row_idx with
  | Some row =>
      if decide (col_idx < length row)
      then Ok (mkMatrix (<[row_idx := <[col_idx := x]> row]> (matrix_ m)) (rows_num_ m) (cols_num_ m))
      else Fail UB
  | None => Fail UB
  end.

(** The two nested loops over all elements, which compute each element once. *)
Definition for_all_elements (rows cols : nat) (f : nat → nat → outcome Z) : outcome Matrix :=
  rows_ <-? mapO (λ i, mapO (f i) (seq 0 cols)) (seq 0 rows) ;;
  Ok (mkMatrix rows_ rows cols).

Definition add_assign (lhs rhs : Matrix) : outcome Matrix :=
  for_all_elements (rows_num_ lhs) (cols_num_ lhs) (λ i j,
    x <-? get lhs i j ;; y <-? get rhs i j ;; Ok (u64 (x + y))).

Definition negate (m : Matrix) : outcome Matrix :=
  for_all_elements (rows_num_ m) (cols_num_ m) (λ i j, x <-? get m i j ;; Ok (u64 (- x))).

Definition sub_assign (lhs rhs : Matrix) : outcome Matrix :=
  negative <-? negate rhs ;; add_assign lhs negative.

(** [operator*]: [sum] is accumulated over [z]. *)
Definition mul (lhs rhs : Matrix) : outcome Matrix :=
  for_all_elements (rows_num_ lhs) (cols_num_ rhs) (λ i j,
    forO (λ z sum, x <-? get lhs i z ;; y <-? get rhs z j ;; Ok (u64 (sum + u64 (x * y))))
      (seq 0 (cols_num_ lhs)) 0%Z).

Definition mul_assign (lhs rhs : Matrix) : outcome Matrix := mul lhs rhs.

Definition Transpose (m : Matrix) : outcome Matrix :=
  for_all_elements (cols_num_ m) (rows_num_ m) (λ i j, get m j i).

Definition Identity (rows_num : nat) : outcome Matrix :=
  forO (λ i result, set i i 1%Z result) (seq 0 rows_num) (make rows_num rows_num).

(** The do-while loop of [Pow]; a 64-bit exponent needs at most 64 iterations. *)
Fixpoint Pow_loop (fuel : nat) (pow : Z) (res m : Matrix) : outcome Matrix :=
  match fuel with
  | O => Fail Fuel
  | S fuel' =>
      res <-? (if (Z.land pow 1 =? 0)%Z then Ok res else mul_assign res m) ;;
      m <-? mul_assign m m ;;
      let pow := Z.shiftr pow 1 in
      if (pow =? 0)%Z then Ok res else Pow_loop fuel' pow res m
  end.

Definition Pow (this : Matrix) (pow : Z) : outcome Matrix :=
  res <-? Identity (rows_num_ this) ;; Pow_loop 64 pow res this.

(** ** Shapes and entries *)

Definition shape (m : Matrix) (rows cols : nat) : Prop :=
  rows_num_ m = rows ∧ cols_num_ m = cols ∧ length (matrix_ m) = rows ∧
  Forall (λ row, length row = cols) (matrix_ m).

Definition entry (m : Matrix) (i j : nat) : Z := default 0%Z (matrix_ m !! i ≫= (.!! j)).

(** Every element is a 64-bit unsigned integer. *)
Definition ranged (m : Matrix) : Prop := ∀ i j, (0 <= entry m i j < 2 ^ 64)%Z.

Lemma get_ok m rows cols i j :
  shape m rows cols → i < rows → j < cols → get m i j = Ok (entry m i j).
Proof.
  intros (_&_&Hr&Hc) Hi Hj. unfold get, entry.
  destruct (lookup_lt_is_Some_2 (matrix_ m) i ltac:(lia)) as [row Hrow]. rewrite Hrow. cbn.
  pose proof (Forall_lookup_1 _ _ _ _ Hc Hrow) as Hlen. cbn in Hlen.
  destruct (lookup_lt_is_Some_2 row j ltac:(lia)) as [x Hx]. by rewrite Hx.
Qed.

Lemma lookup_seq_fmap {A} (f : nat → A) n i : i < n → (f <$> seq 0 n) !! i = Some (f i).
Proof. intros Hi. rewrite list_lookup_fmap, lookup_seq_lt by lia. done. Qed.

Lemma for_all_elements_ok rows cols f g :
  (∀ i j, i < rows → j < cols → f i j = Ok (g i j)) →
  ∃ m, for_all_elements rows cols f = Ok m ∧ shape m rows cols ∧
    (∀ i j, i < rows → j < cols → entry m i j = g i j) ∧
    (∀ i j, ¬ (i < rows ∧ j < cols) → entry m i j = 0%Z).
Proof.
  intros Hf. unfold for_all_elements.
  rewrite (mapO_ok _ (λ i, g i <$> seq 0 cols)).
  2: { intros i Hi%elem_of_seq. apply mapO_ok. intros j Hj%elem_of_seq. apply Hf; lia. }
  eexists. split; [done|]. split_and!.
  - split_and!; [done..| |]; cbn.
    + by rewrite length_fmap, length_seq.
    + apply Forall_forall. intros row (i&->&_)%list_elem_of_fmap. by rewrite length_fmap, length_seq.
  - intros i j Hi Hj. unfold entry. cbn. rewrite lookup_seq_fmap by done. cbn.
    by rewrite lookup_seq_fmap.
  - intros i j Hij. unfold entry. cbn. destruct (decide (i < rows)) as [Hi|Hi].
    + rewrite lookup_seq_fmap by done. cbn.
      rewrite lookup_ge_None_2; [done|]. rewrite length_fmap, length_seq. lia.
    + rewrite (lookup_ge_None_2 (_ <$> seq 0 rows)); [done|].
      rewrite length_fmap, length_seq. lia.
Qed.

Lemma for_all_elements_ranged rows cols f g m :
  (∀ i j, i < rows → j < cols → f i j = Ok (g i j)) → (∀ i j, (0 <= g i j < 2 ^ 64)%Z) →
  for_all_elements rows cols f = Ok m → ranged m.
Proof.
  intros Hf Hg Hm. destruct (for_all_elements_ok rows cols f g Hf) as (m'&Hm'&_&H1&H2).
  rewrite Hm in Hm'. injection Hm' as <-. intros i j.
  destruct (decide (i < rows ∧ j < cols)) as [[]|]; [rewrite H1 by done; apply Hg|].
  rewrite H2 by done. lia.
Qed.

(** The inner loop of [operator*]. *)
Lemma forO_sum n (a b : nat → outcome Z) (f : nat → Z) x y :
  (∀ z, z < n → a z = Ok (x z) ∧ b z = Ok (y z) ∧ f z = (x z * y z)%Z) →
  forO (λ z sum, p <-? a z ;; q <-? b z ;; Ok (u64 (sum + u64 (p * q)))) (seq 0 n) 0%Z
  = Ok (u64 (big_sum n f)).
Proof.
  induction n as [|n IH]; intros H; [done|].
  assert (∀ l1 l2 s, forO (λ z sum, p <-? a z ;; q <-? b z ;; Ok (u64 (sum + u64 (p * q)))) (l1 ++ l2) s
    = bindO (forO (λ z sum, p <-? a z ;; q <-? b z ;; Ok (u64 (sum + u64 (p * q)))) l1 s)
        (forO (λ z sum, p <-? a z ;; q <-? b z ;; Ok (u64 (sum + u64 (p * q)))) l2)) as Happ.
  { induction l1 as [|k l1 IHl]; intros l2 s; [done|]. cbn.
    destruct (a k) as [p|]; [|done]. cbn. destruct (b k) as [q|]; [|done]. cbn. apply IHl. }
  rewrite seq_S, Happ, IH by auto with lia. cbn. destruct (H n ltac:(lia)) as (->&->&E). cbn.
  rewrite E, uwrap_add_l, uwrap_add_r. done.
Qed.

Lemma mul_ok a b n m p :
  shape a n m → shape b m p →
  ∃ c, mul a b = Ok c ∧ shape c n p ∧ ranged c ∧
    ∀ i j, i < n → j < p → entry c i j = u64 (big_sum m (λ z, entry a i z * entry b z j)%Z).
Proof.
  intros Ha Hb. assert (Hsa := Ha). assert (Hsb := Hb). destruct Ha as (Hra&Hca&_). destruct Hb as (_&Hcb&_).
  unfold mul. rewrite Hra, Hca, Hcb.
  set (f := λ i j, forO _ _ 0%Z).
  assert (∀ i j, i < n → j < p →
    f i j = Ok (u64 (big_sum m (λ z, entry a i z * entry b z j)%Z))) as Hf.
  { intros i j Hi Hj. unfold f. eapply (forO_sum m (get a i) (λ z, get b z j)). intros z Hz.
    split_and!; [by eapply get_ok|by eapply get_ok|done]. }
  destruct (for_all_elements_ok n p f _ Hf) as (c&Hc&Hsc&He&_).
  exists c. split_and!; [done|done| |done].
  eapply for_all_elements_ranged; [exact Hf| |exact Hc]. intros. apply uwrap_range. lia.
Qed.

Lemma set_ok i j x m rows cols :
  shape m rows cols → i < rows → j < cols →
  ∃ m', set i j x m = Ok m' ∧ shape m' rows cols ∧
    ∀ i' j', entry m' i' j' = if decide (i' = i ∧ j' = j) then x else entry m i' j'.
Proof.
  intros (H1&H2&H3&H4) Hi Hj. unfold set.
  destruct (lookup_lt_is_Some_2 (matrix_ m) i ltac:(lia)) as [row Hrow]. rewrite Hrow.
  pose proof (Forall_lookup_1 _ _ _ _ H4 Hrow) as Hlen. cbn in Hlen.
  rewrite decide_True by lia. eexists. split; [done|]. split.
  - split_and!; [done..| |]; cbn; [by rewrite length_insert|].
    apply Forall_insert; [done|]. by rewrite length_insert.
  - intros i' j'. unfold entry. cbn. destruct (decide (i' = i)) as [->|Hne].
    + rewrite list_lookup_insert_eq by lia. cbn. destruct (decide (j' = j)) as [->|Hne'].
      * rewrite list_lookup_insert_eq by lia. by rewrite decide_True.
      * rewrite list_lookup_insert_ne by done. rewrite decide_False by tauto. by rewrite Hrow.
    + rewrite list_lookup_insert_ne by done. by rewrite decide_False by tauto.
Qed.

Lemma make_shape rows cols : shape (make rows cols) rows cols.
Proof.
  split_and!; [done..| |]; cbn; [by rewrite length_replicate|].
  apply Forall_replicate. by rewrite length_replicate.
Qed.

Lemma make_entry rows cols i j : entry (make rows cols) i j = 0%Z.
Proof.
  unfold entry. cbn. destruct (replicate rows _ !! i) as [row|] eqn:E; [|done].
  apply lookup_replicate in E as [-> _]. cbn. destruct (replicate cols 0%Z !! j) eqn:E; [|done].
  by apply lookup_replicate in E as [-> _].
Qed.

Lemma identity_ok n :
  ∃ m, Identity n = Ok m ∧ shape m n n ∧
    ∀ i j, i < n → j < n → entry m i j = if decide (i = j) then 1%Z else 0%Z.
Proof.
  unfold Identity.
  destruct (forO_inv (λ visited m, shape m n n ∧ ∀ i j,
      entry m i j = if decide (i = j ∧ i ∈ visited) then 1%Z else 0%Z)
    (λ i result, set i i 1%Z result) (seq 0 n) (make n n)) as (m&Hm&Hs&He).
  - split; [apply make_shape|]. intros i j. rewrite make_entry, decide_False; [done|].
    intros [_ []%elem_of_nil].
  - intros visited x m Hx%elem_of_seq [Hs He].
    destruct (set_ok x x 1%Z m n n Hs) as (m'&Hm'&Hs'&He'); [lia..|].
    exists m'. split_and!; [done..|]. intros i j. rewrite He', He.
    repeat case_decide; rewrite ?elem_of_app, ?list_elem_of_singleton in *;
      destruct_and?; try done; subst; tauto.
  - exists m. split_and!; [done..|]. intros i j Hi Hj. rewrite He.
    destruct (decide (i = j)) as [->|]; [rewrite decide_True|rewrite decide_False by tauto]; try done.
    split; [done|]. apply elem_of_seq. lia.
Qed.

(** ** Action on row vectors *)

(** The row vector [v] times [m], for an [n] by [n] matrix. *)
Definition act (n : nat) (m : Matrix) (v : nat → Z) (j : nat) : Z :=
  u64 (big_sum n (λ z, v z * entry m z j)%Z).

(** Vectors that agree on their [n] elements, as 64-bit unsigned integers. *)
Definition veq (n : nat) (v w : nat → Z) : Prop := ∀ j, j < n → eqm 64 (v j) (w j).

#[global] Instance veq_equivalence n : Equivalence (veq n).
Proof.
  split; [by intros v j _|by intros v w H j Hj; symmetry; apply H|].
  intros u v w H1 H2 j Hj. etrans; [by apply H1|by apply H2].
Qed.

#[global] Instance act_proper n m : Proper (veq n ==> veq n) (act n m).
Proof.
  intros v w H j Hj. unfold act. rewrite !eqm_uwrap. apply big_sum_eqm. intros i Hi.
  by rewrite (H i Hi).
Qed.

Lemma act_mul n a b c v :
  (∀ i j, i < n → j < n → entry c i j = u64 (big_sum n (λ z, entry a i z * entry b z j)%Z)) →
  veq n (act n c v) (act n b (act n a v)).
Proof.
  intros Hc j Hj. unfold act. rewrite !eqm_uwrap.
  transitivity (big_sum n (λ i, big_sum n (λ z, v i * (entry a i z * entry b z j))%Z)).
  - apply big_sum_eqm. intros i Hi. rewrite Hc, eqm_uwrap by done. by rewrite big_sum_mul_l.
  - rewrite big_sum_swap. apply big_sum_eqm. intros z Hz. rewrite eqm_uwrap, <- big_sum_mul_r.
    apply big_sum_eqm. intros i Hi. by rewrite Z.mul_assoc.
Qed.

Lemma act_identity n m v :
  (∀ i j, i < n → j < n → entry m i j = if decide (i = j) then 1%Z else 0%Z) →
  veq n (act n m v) v.
Proof.
  intros Hm j Hj. unfold act. rewrite eqm_uwrap. rewrite (big_sum_single n j); [|done|].
  - rewrite Hm, decide_True by done. by rewrite Z.mul_1_r.
  - intros i Hi Hne. rewrite Hm, decide_False by done. lia.
Qed.

Lemma mul_square a b n :
  shape a n n → shape b n n →
  ∃ c, mul a b = Ok c ∧ shape c n n ∧ ranged c ∧
    ∀ v, veq n (act n c v) (act n b (act n a v)).
Proof.
  intros Ha Hb. destruct (mul_ok a b n n n Ha Hb) as (c&?&?&?&He).
  exists c. split_and!; [done..|]. intros v. by apply act_mul.
Qed.

(** Iterating a map on vectors. *)
Definition iterate (k : Z) (f : (nat → Z) → nat → Z) (v : nat → Z) : nat → Z :=
  N.iter (Z.to_N k) f v.

Lemma iterate_0 f v : iterate 0 f v = v.
Proof. done. Qed.

Lemma iterate_add j k f v :
  (0 <= j)%Z → (0 <= k)%Z → iterate (j + k) f v = iterate j f (iterate k f v).
Proof. intros ??. unfold iterate. by rewrite Z2N.inj_add, N.iter_add. Qed.

Lemma iterate_proper n k f g v w :
  Proper (veq n ==> veq n) f → (∀ u, veq n (f u) (g u)) → veq n v w →
  veq n (iterate k f v) (iterate k g w).
Proof.
  intros Hf Hfg Hvw. unfold iterate. induction (Z.to_N k) as [|j IH] using N.peano_ind; [done|].
  rewrite !N.iter_succ. rewrite IH. apply Hfg.
Qed.

Lemma iterate_double n k f v :
  (0 <= k)%Z → Proper (veq n ==> veq n) f →
  veq n (iterate (2 * k) f v) (iterate k (λ u, f (f u)) v).
Proof.
  intros Hk Hf. unfold iterate. rewrite Z2N.inj_mul by lia. change (Z.to_N 2) with 2%N.
  induction (Z.to_N k) as [|j IH] using N.peano_ind; [done|].
  rewrite N.iter_succ. replace (2 * N.succ j)%N with (N.succ (N.succ (2 * j))) by lia.
  rewrite !N.iter_succ. by rewrite IH.
Qed.

Lemma pow_loop_ok n fuel pow res m :
  shape res n n → shape m n n → (0 <= pow < 2 ^ Z.of_nat fuel)%Z → (0 < fuel) →
  ∃ c, Pow_loop fuel pow res m = Ok c ∧ shape c n n ∧
    ∀ v, veq n (act n c v) (iterate pow (act n m) (act n res v)).
Proof.
  revert pow res m. induction fuel as [|fuel IH]; intros pow res m Hres Hm Hpow Hfuel; [lia|].
  cbn [Pow_loop]. change 1%Z with (Z.ones 1) at 1. rewrite (Z.land_ones pow 1), Z.shiftr_div_pow2 by lia.
  change (2 ^ 1)%Z with 2%Z.
  assert (∃ res', (if (pow `mod` 2 =? 0)%Z then Ok res else mul_assign res m) = Ok res' ∧
    shape res' n n ∧
    ∀ v, veq n (act n res' v) (iterate (pow `mod` 2) (act n m) (act n res v)))
    as (res'&->&Hres'&Hact).
  { destruct (Z.eqb_spec (pow `mod` 2) 0) as [->|Hne]; [by exists res|].
    destruct (mul_square res m n Hres Hm) as (c&?&?&_&Hc). exists c. split_and!; [done..|].
    intros v. assert (pow `mod` 2 = 1)%Z as -> by (pose proof (Z.mod_pos_bound pow 2); lia).
    apply Hc. }
  destruct (mul_square m m n Hm Hm) as (m'&Hm'&Hsm'&_&Hact'). cbn. unfold mul_assign.
  rewrite Hm'. cbn.
  pose proof (Z.div_mod pow 2 ltac:(lia)) as Hdm. pose proof (Z.mod_pos_bound pow 2 ltac:(lia)) as Hb.
  destruct (Z.eqb_spec (pow / 2) 0) as [E|Hne].
  { exists res'. split_and!; [done..|]. intros v. rewrite Hact.
    by replace (pow `mod` 2)%Z with pow by lia. }
  assert (0 <= pow / 2 < 2 ^ Z.of_nat fuel)%Z as Hpow'.
  { rewrite Nat2Z.inj_succ, Z.pow_succ_r in Hpow by lia. lia. }
  destruct (IH (pow / 2)%Z res' m' Hres' Hsm' Hpow') as (c&Hc&Hsc&Hcact).
  { destruct fuel; [cbn in Hpow'; lia|lia]. }
  exists c. split_and!; [done..|]. intros v. rewrite Hcact.
  etrans; [apply (iterate_proper n _ _ (λ u, act n m (act n m u)) _
    (iterate (pow `mod` 2) (act n m) (act n res v))); [apply _|done|by rewrite Hact]|].
  rewrite <- iterate_double by (apply _ || lia).
  rewrite <- iterate_add by lia. by rewrite <- Hdm.
Qed.

Lemma pow_ok n pow m :
  shape m n n → (0 <= pow < 2 ^ 64)%Z →
  ∃ c, Pow m pow = Ok c ∧ shape c n n ∧
    ∀ v, veq n (act n c v) (iterate pow (act n m) v).
Proof.
  intros Hm Hpow. unfold Pow. assert (rows_num_ m = n) as -> by apply Hm.
  destruct (identity_ok n) as (e&->&Hse&He). cbn.
  destruct (pow_loop_ok n 64 pow e m Hse Hm) as (c&?&?&Hact); [lia..|].
  exists c. split_and!; [done..|]. intros v. rewrite Hact.
  apply iterate_proper; [apply _|done|by apply act_identity].
Qed.

(** ** Properties *)

Lemma elementwise_ok n m f (g : nat → nat → Z) :
  (∀ i j, i < n → j < m → f i j = Ok (u64 (g i j))) →
  ∃ c, for_all_elements n m f = Ok c ∧ shape c n m ∧
    ∀ i j, i < n → j < m → entry c i j = u64 (g i j).
Proof.
  intros Hf. destruct (for_all_elements_ok n m f _ Hf) as (c&?&?&?&_). by exists c.
Qed.

Lemma add_ok a b n m :
  shape a n m → shape b n m →
  ∃ c, add_assign a b = Ok c ∧ shape c n m ∧
    ∀ i j, i < n → j < m → entry c i j = u64 (entry a i j + entry b i j).
Proof.
  intros Ha Hb. unfold add_assign.
  replace (rows_num_ a) with n by (symmetry; apply Ha).
  replace (cols_num_ a) with m by (symmetry; apply Ha).
  apply elementwise_ok. intros i j Hi Hj. by rewrite (get_ok a n m), (get_ok b n m).
Qed.

Lemma negate_ok a n m :
  shape a n m →
  ∃ c, negate a = Ok c ∧ shape c n m ∧ ∀ i j, i < n → j < m → entry c i j = u64 (- entry a i j).
Proof.
  intros Ha. unfold negate.
  replace (rows_num_ a) with n by (symmetry; apply Ha).
  replace (cols_num_ a) with m by (symmetry; apply Ha).
  apply (elementwise_ok n m _ (λ i j, - entry a i j)%Z). intros i j Hi Hj. by rewrite (get_ok a n m).
Qed.

Lemma sub_ok a b n m :
  shape a n m → shape b n m →
  ∃ c, sub_assign a b = Ok c ∧ shape c n m ∧
    ∀ i j, i < n → j < m → entry c i j = u64 (entry a i j - entry b i j).
Proof.
  intros Ha Hb. unfold sub_assign. destruct (negate_ok b n m Hb) as (nb&->&Hnb&He). cbn.
  destruct (add_ok a nb n m Ha Hnb) as (c&?&?&Hc). exists c. split_and!; [done..|].
  intros i j Hi Hj. rewrite Hc, He by done. by rewrite uwrap_add_r.
Qed.

Lemma transpose_ok a n m :
  shape a n m →
  ∃ c, Transpose a = Ok c ∧ shape c m n ∧ ∀ i j, i < m → j < n → entry c i j = entry a j i.
Proof.
  intros Ha. unfold Transpose.
  replace (rows_num_ a) with n by (symmetry; apply Ha).
  replace (cols_num_ a) with m by (symmetry; apply Ha).
  destruct (for_all_elements_ok m n (λ i j, get a j i) (λ i j, entry a j i)) as (c&?&?&?&_).
  - intros i j Hi Hj. by apply (get_ok a n m).
  - by exists c.
Qed.

(** The elementwise operators are exact modulo 2^64 on matrices of one shape,
    read and write no element that does not exist, and [Transpose] reverses
    products. *)
Theorem matrix_operators (n m p : nat) (a b c : Matrix) :
  shape a n m → shape b n m → shape c m p →
  (∃ s, add_assign a b = Ok s ∧ shape s n m ∧
     ∀ i j, i < n → j < m → entry s i j = u64 (entry a i j + entry b i j)) ∧
  (∃ s, sub_assign a b = Ok s ∧ shape s n m ∧
     ∀ i j, i < n → j < m → entry s i j = u64 (entry a i j - entry b i j)) ∧
  (∃ ac act_ at_ ct ct_at, mul a c = Ok ac ∧ Transpose ac = Ok act_ ∧ Transpose a = Ok at_ ∧
     Transpose c = Ok ct ∧ mul ct at_ = Ok ct_at ∧
     ∀ i j, i < p → j < n → entry act_ i j = entry ct_at i j).
Proof.
  intros Ha Hb Hc. split_and!; [by apply add_ok|by apply sub_ok|].
  destruct (mul_ok a c n m p Ha Hc) as (ac&Hac&Hsac&_&Eac).
  destruct (transpose_ok ac n p Hsac) as (act_&Hact&_&Eact).
  destruct (transpose_ok a n m Ha) as (at_&Hat&Hsat&Eat).
  destruct (transpose_ok c m p Hc) as (ct&Hct&Hsct&Ect).
  destruct (mul_ok ct at_ p m n Hsct Hsat) as (ct_at&Hm&_&_&Em).
  exists ac, act_, at_, ct, ct_at. split_and!; [done..|]. intros i j Hi Hj.
  rewrite Eact, Eac, Em by done. f_equal. apply big_sum_ext. intros z Hz.
  rewrite Ect, Eat by done. lia.
Qed.

Definition fib : Matrix := mkMatrix [[1; 1]; [1; 0]]%Z 2 2.

Lemma fib_shape : shape fib 2 2.
Proof. split_and!; try done. by repeat constructor. Qed.

Lemma matrix_operators_witness :
  ∃ s, sub_assign (make 2 2) fib = Ok s ∧ entry s 0 0 = (2 ^ 64 - 1)%Z.
Proof.
  destruct (matrix_operators 2 2 2 (make 2 2) fib fib) as (_&(s&H&_&E)&_).
  - apply make_shape.
  - apply fib_shape.
  - apply fib_shape.
  - exists s. split; [exact H|]. rewrite (E 0 0) by lia. reflexivity.
Defined.

(** Binary exponentiation: for every 64-bit exponent, [Pow] returns after at
    most 64 iterations a matrix that maps a row vector to what multiplying it
    [pow] times by the matrix gives, modulo 2^64. *)
Theorem pow_iterates (n : nat) (m : Matrix) (pow : Z) :
  shape m n n → (0 <= pow < 2 ^ 64)%Z →
  ∃ c, Pow m pow = Ok c ∧ shape c n n ∧ ∀ v, veq n (act n c v) (iterate pow (act n m) v).
Proof. intros Hm Hp. by apply pow_ok. Qed.

Lemma pow_iterates_witness :
  ∃ c, Pow fib 10 = Ok c ∧ entry c 0 1 = 55%Z.
Proof.
  destruct (pow_iterates 2 fib 10) as (c&H&_&_).
  - apply fib_shape.
  - lia.
  - exists c. split; [exact H|]. vm_compute in H. injection H as <-. reflexivity.
Defined.
