(* ===== verification/Interpreter.v ===== *)
(** * The interpreter of linear programs (matrix-3.0)

    [Tokenize] (tokenizer.h) splits the text into lines of tokens, the classes of
    expression.h parse and evaluate an expression to its coefficients, and
    [Interpreter] (interpreter.h) turns a program into the matrix of its effect
    on the vector of variables, with [Pow] for loops.  The reference is the
    obvious one: [parse_program] reads the same tokens into statements, and
    [run_stmts] executes them one after the other on the values of the
    variables.  [Run] is shown to compute what the reference computes. *)

From S2P Require Import Prelude Decimal Matrix3.

(** ** tokenizer.h *)

Inductive Token : Type :=
| kNumber (number : Z)
| kSymbol (symbol : ascii)
| kVar (var_name : bytes)
| kFor
| kEqv
| kTab
| kBadToken
| kNewLine
| kEnd.

#[global] Instance Token_eq_dec : EqDecision Token.
Proof. solve_decision. Defined.

Definition kOperations : bytes := str "()+-*".

Definition is_letter (c : ascii) : bool :=
  ((65 <=? code c) && (code c <=? 90) || (97 <=? code c) && (code c <=? 122))%Z.
Definition is_name_char (c : ascii) : bool :=
  is_letter c || bool_decide (c = "_"%char) || is_digit c.

(** The do-while loop over spaces: at most four are taken, [cnt] so far. *)
Fixpoint eat_spaces (in_ : bytes) (cnt : nat) : nat * bytes :=
  match in_ with
  | c :: rest =>
      if decide (c = " "%char ∧ cnt < 4) then eat_spaces rest (S cnt) else (cnt, in_)
  | [] => (cnt, [])
  end.

(** The do-while loop over digits. *)
Fixpoint read_number (in_ : bytes) (number : Z) : Z * bytes :=
  match in_ with
  | c :: rest =>
      if is_digit c then read_number rest (u64 (number * 10 + code c - 48)) else (number, in_)
  | [] => (number, [])
  end.

Fixpoint read_name (in_ : bytes) : bytes * bytes :=
  match in_ with
  | c :: rest => if is_name_char c then let '(s, r) := read_name rest in (c :: s, r) else ([], in_)
  | [] => ([], [])
  end.

Fixpoint Consume_loop (fuel : nat) (in_ : bytes) : outcome (Token * bytes) :=
  match fuel with
  | O => Fail Fuel
  | S fuel' =>
      match in_ with
      | [] => Ok (kEnd, [])
      | symbol :: rest =>
          if decide (symbol = ch_lf) then Ok (kNewLine, rest)
          else if decide (symbol = " "%char) then
            let '(whitespace_cnt, rest) := eat_spaces in_ 0 in
            if decide (whitespace_cnt = 4) then Ok (kTab, rest) else Consume_loop fuel' rest
          else if decide (symbol ∈ kOperations) then Ok (kSymbol symbol, rest)
          else if decide (symbol = "="%char) then Ok (kEqv, rest)
          else if is_digit symbol then
            let '(number, rest) := read_number in_ 0 in Ok (kNumber number, rest)
          else if is_letter symbol then
            let '(s, rest) := read_name in_ in
            Ok (if decide (s = str "for") then kFor else kVar s, rest)
          else Ok (kBadToken, rest)
      end
  end.

Definition Consume (in_ : bytes) : outcome (Token * bytes) := Consume_loop (S (length in_)) in_.

Fixpoint Tokenize_loop (fuel : nat) (in_ : bytes) (cur_line : list Token)
    (program_ : list (list Token)) : outcome (list (list Token)) :=
  match fuel with
  | O => Fail Fuel
  | S fuel' =>
      x <-? Consume in_ ;;
      let '(token, in_) := x in
      match token with
      | kEnd =>
          Ok (if decide (cur_line = []) then program_
              else if decide (last cur_line ≠ Some kNewLine)
              then program_ ++ [cur_line ++ [kNewLine]]
              else program_ ++ [cur_line])
      | kNewLine =>
          if decide (cur_line = []) then Tokenize_loop fuel' in_ cur_line program_
          else Tokenize_loop fuel' in_ [] (program_ ++ [cur_line ++ [token]])
      | kTab =>
          if decide (cur_line = [] ∨ last cur_line = Some kTab)
          then Tokenize_loop fuel' in_ (cur_line ++ [token]) program_
          else Tokenize_loop fuel' in_ cur_line program_
      | _ => Tokenize_loop fuel' in_ (cur_line ++ [token]) program_
      end
  end.

Definition Tokenize (in_ : bytes) : outcome (list (list Token)) :=
  Tokenize_loop (S (length in_)) in_ [] [].

(** A [Line] is the tokens between its two iterators. *)
Abbreviation Line := (list Token).

Definition Get : M Line Token :=
  line <- getM ;; match line with token :: _ => retM token | [] => failM UB end.

Definition Next : M Line () :=
  line <- getM ;;
  match line with [] => throwM (MatrixException "End line") | _ :: rest => putM rest end.

(** ** expression.h

    The objects of the classes [Constant], [Mul] and [Sum]: [_one] and [_two]
    tell whether the second operand is present. *)

Inductive Expression : Type :=
| Constant_none
| Constant_number (number : Z)
| Constant_var (index : nat)
| Constant_neg (constant_ : Expression)
| Constant_sum (sum_ : Expression)
| Mul_one (mul_ : Expression)
| Mul_two (mul_ constant_ : Expression)
| Sum_one (sum_ : Expression)
| Sum_two (sum_ : Expression) (op_ : ascii) (mul_ : Expression).

Definition make_mul (mul_ : Expression) (constant_ : option Expression) : Expression :=
  match constant_ with Some c => Mul_two mul_ c | None => Mul_one mul_ end.
Definition make_sum (sum_ : Expression) (rest : option (ascii * Expression)) : Expression :=
  match rest with Some (op, m) => Sum_two sum_ op m | None => Sum_one sum_ end.

Section Parser.
Context (vars : gmap bytes nat).

(** [vars.at(name)] *)
Definition vars_at {S} (name : bytes) : M S nat :=
  match vars !! name with
  | Some i => retM i
  | None => throwM (OutOfRange "map::at")
  end.

(** The constructors; [Mul_loop] and [Sum_loop] are their while loops. *)
Fixpoint Constant (fuel : nat) : M Line Expression :=
  match fuel with
  | O => failM Fuel
  | S fuel' =>
      token <- Get ;;
      match token with
      | kNumber number => Next ;;; retM (Constant_number number)
      | kVar var_name =>
          index <- vars_at var_name ;; Next ;;; retM (Constant_var index)
      | kSymbol symbol =>
          if decide (symbol = "-"%char) then
            Next ;;; constant_ <- Constant fuel' ;; retM (Constant_neg constant_)
          else if decide (symbol = "("%char) then
            Next ;;; sum_ <- Sum fuel' ;;
            token <- Get ;;
            if decide (token ≠ kSymbol ")"%char) then throwM (MatrixException "Wrong symbol")
            else Next ;;; retM (Constant_sum sum_)
          else retM Constant_none
      | _ => retM Constant_none
      end
  end
with Mul (fuel : nat) : M Line Expression :=
  match fuel with
  | O => failM Fuel
  | S fuel' => mul_ <- Constant fuel' ;; Mul_loop fuel' mul_ None
  end
with Mul_loop (fuel : nat) (mul_ : Expression) (constant_ : option Expression)
    : M Line Expression :=
  match fuel with
  | O => failM Fuel
  | S fuel' =>
      token <- Get ;;
      if decide (token = kSymbol "*"%char) then
        let mul_ := match constant_ with Some c => Mul_two mul_ c | None => mul_ end in
        Next ;;; constant_ <- Constant fuel' ;; Mul_loop fuel' mul_ (Some constant_)
      else retM (make_mul mul_ constant_)
  end
with Sum (fuel : nat) : M Line Expression :=
  match fuel with
  | O => failM Fuel
  | S fuel' => sum_ <- Mul fuel' ;; Sum_loop fuel' sum_ None
  end
with Sum_loop (fuel : nat) (sum_ : Expression) (rest : option (ascii * Expression))
    : M Line Expression :=
  match fuel with
  | O => failM Fuel
  | S fuel' =>
      token <- Get ;;
      match token with
      | kSymbol symbol =>
          if decide (symbol = "+"%char ∨ symbol = "-"%char) then
            let sum_ := match rest with Some (op, m) => Sum_two sum_ op m | None => sum_ end in
            Next ;;; mul_ <- Mul fuel' ;; Sum_loop fuel' sum_ (Some (symbol, mul_))
          else retM (make_sum sum_ rest)
      | _ => retM (make_sum sum_ rest)
      end
  end.

(** Enough fuel for a line. *)
Definition parse_fuel (line : Line) : nat := 4 * length line + 4.
Definition ParseSum : M Line Expression := line <- getM ;; Sum (parse_fuel line).
End Parser.

(** [Evaluate]: the coefficients of the variables, then the constant.  [vars_size]
    is [vars_.size()]; arithmetic is on [int64_t]. *)
Definition is_constant (vars_size : nat) (coeffs_ : list Z) : bool :=
  forallb (λ x, x =? 0)%Z (take vars_size coeffs_).

Fixpoint Evaluate (vars_size : nat) (e : Expression) : outcome (list Z) :=
  match e with
  | Constant_none => Ok (replicate (vars_size + 1) 0%Z)
  | Constant_number number => Ok (replicate vars_size 0%Z ++ [s64 number])
  | Constant_var index =>
      if decide (index < vars_size + 1) then Ok (<[index := 1%Z]> (replicate (vars_size + 1) 0%Z))
      else Fail UB
  | Constant_neg constant_ =>
      coeffs_ <-? Evaluate vars_size constant_ ;;
      mapO (λ coeff, checked64 (coeff * -1)) coeffs_
  | Constant_sum sum_ => Evaluate vars_size sum_
  | Mul_one mul_ => Evaluate vars_size mul_
  | Mul_two mul_ constant_ =>
      coeffs_ <-? Evaluate vars_size mul_ ;;
      other <-? Evaluate vars_size constant_ ;;
      let '(coeffs_, other) :=
        if is_constant vars_size coeffs_ then (coeffs_, other) else (other, coeffs_) in
      if is_constant vars_size coeffs_
      then mapO (λ x, checked64 (x * default 0%Z (last coeffs_))) other
      else Fail (Exn (MatrixException "Non constant product"))
  | Sum_one sum_ => Evaluate vars_size sum_
  | Sum_two sum_ op_ mul_ =>
      coeffs_ <-? Evaluate vars_size sum_ ;;
      other <-? Evaluate vars_size mul_ ;;
      if decide (op_ = "+"%char) then mapO (λ '(x, y), checked64 (x + y)) (zip coeffs_ other)
      else if decide (op_ = "-"%char) then mapO (λ '(x, y), checked64 (x - y)) (zip coeffs_ other)
      else Ok coeffs_
  end.

(** ** interpreter.h *)

Definition GatherVars (program : list (list Token)) : gmap bytes nat :=
  foldl (λ vars token,
    match token with
    | kVar var_name =>
        if decide (vars !! var_name = None) then <[var_name := size vars]> vars else vars
    | _ => vars
    end) ∅ (concat program).

(** [CountTabs]: the loop is structural on the line. *)
Fixpoint CountTabs_loop (line : Line) (tab_count : nat) : outcome (nat * Line) :=
  match line with
  | [] => Fail UB
  | kTab :: rest => CountTabs_loop rest (S tab_count)
  | _ :: _ => Ok (tab_count, line)
  end.
Definition CountTabs (line : Line) : outcome (nat * Line) := CountTabs_loop line 0.

Section Interpreter.
Context (vars_ : gmap bytes nat).
Abbreviation n := (size vars_).

(** The left-hand side of an assignment: the variable and the operator, which is
    the null character for a plain assignment. *)
Definition Equation (var_name : bytes) : M Line (nat * ascii) :=
  var_index <- vars_at vars_ var_name ;;
  Next ;;;
  token <- Get ;;
  op <- match token with
        | kSymbol op =>
            if decide (op ≠ "+"%char ∧ op ≠ "-"%char ∧ op ≠ "*"%char)
            then throwM (MatrixException "Wrong equation")
            else Next ;;; retM op
        | _ => retM ch_nul
        end ;;
  token <- Get ;;
  if decide (token ≠ kEqv) then throwM (MatrixException "Miss equation")
  else Next ;;; retM (var_index, op).

(** The identity with the coefficients in the column of the variable. *)
Definition transform_init (expr_vec : list Z) (var_index : nat) : outcome Matrix :=
  transform <-? Identity (n + 1) ;;
  forO (λ i, set i var_index (u64 (nth i expr_vec 0%Z))) (seq 0 (length expr_vec)) transform.

(** [transform(i, j) = f(transform(i, j))] *)
Definition update (f : Z → Z) (i j : nat) (transform : Matrix) : outcome Matrix :=
  x <-? get transform i j ;; set i j (f x) transform.

Definition transform_op (op : ascii) (var_index : nat) (transform : Matrix) : outcome Matrix :=
  if decide (op = "+"%char) then update (λ x, u64 (x + 1)) var_index var_index transform
  else if decide (op = "-"%char) then
    transform <-? forO (λ i, update (λ x, u64 (- x)) i var_index) (seq 0 (n + 1)) transform ;;
    update (λ x, u64 (x + 1)) var_index var_index transform
  else if decide (op = "*"%char) then
    transform <-? forO (λ i transform,
        x <-? get transform i var_index ;;
        if (x =? 0)%Z then Ok transform
        else Fail (Exn (MatrixException "Non consntant expression for *=")))
      (seq 0 n) transform ;;
    c <-? get transform n var_index ;;
    transform <-? set var_index var_index c transform ;;
    set n var_index 0%Z transform
  else Ok transform.

(** An assignment, from its first token to the end of the line. *)
Definition Assignment (var_name : bytes) : M Line Matrix :=
  lhs <- Equation var_name ;;
  let '(var_index, op) := lhs in
  e <- ParseSum vars_ ;;
  expr_vec <- liftO (Evaluate n e) ;;
  transform <- liftO (transform_init expr_vec var_index) ;;
  token <- Get ;;
  if decide (token ≠ kNewLine) then throwM (MatrixException "Wrong expression")
  else liftO (transform_op op var_index transform).

(** The head of a loop, after [for]. *)
Definition ForHead : M Line Z :=
  Next ;;;
  token <- Get ;;
  match token with
  | kNumber iter_count =>
      Next ;;;
      token <- Get ;;
      if decide (token ≠ kNewLine) then throwM (MatrixException "Wrong for loop format")
      else retM iter_count
  | _ => throwM (MatrixException "Wrong for loop format")
  end.

(** The body of a loop: the lines that follow and are indented more. *)
Fixpoint Subprogram (depth_ : nat) (program : list (list Token))
    : outcome (list (list Token) * list (list Token)) :=
  match program with
  | [] => Ok ([], [])
  | line :: rest =>
      x <-? CountTabs line ;;
      if decide (x.1 ≤ depth_) then Ok ([], program)
      else
        y <-? Subprogram depth_ rest ;;
        Ok (line :: y.1, y.2)
  end.

Definition runO {S A} (c : M S A) (s : S) : outcome A := (c s).1.

(** The loop of [CalculateTransformMatrix] over [program_], with the [res] so far. *)
Fixpoint Calculate_loop (fuel depth_ : nat) (res : Matrix) (program_ : list (list Token))
    : outcome Matrix :=
  match program_ with
  | [] => Ok res
  | it :: rest =>
      match fuel with
      | O => Fail Fuel
      | S fuel' =>
          x <-? CountTabs it ;;
          let '(tab_count, line) := x in
          if decide (tab_count ≠ depth_) then Fail (Exn (MatrixException "Wrong tab count")) else
          token <-? runO Get line ;;
          match token with
          | kVar var_name =>
              transform <-? runO (Assignment var_name) line ;;
              res <-? mul_assign res transform ;;
              Calculate_loop fuel' depth_ res rest
          | kFor =>
              iter_count <-? runO ForHead line ;;
              y <-? Subprogram depth_ rest ;;
              let '(subprogram, rest) := y in
              if decide (subprogram = []) then Fail (Exn (MatrixException "Empty for loop body")) else
              id <-? Identity (n + 1) ;;
              body <-? Calculate_loop fuel' (depth_ + 1) id subprogram ;;
              power <-? Pow body iter_count ;;
              res <-? mul_assign res power ;;
              Calculate_loop fuel' depth_ res rest
          | kNewLine => Calculate_loop fuel' depth_ res rest
          | _ => Fail (Exn (MatrixException "Wrong expression format"))
          end
      end
  end.

Definition CalculateTransformMatrix (program_ : list (list Token)) (depth_ : nat) : outcome Matrix :=
  res <-? Identity (n + 1) ;; Calculate_loop (length program_) depth_ res program_.
End Interpreter.

Definition Run (program : bytes) : outcome (gmap bytes Z) :=
  lines <-? Tokenize program ;;
  let vars := GatherVars lines in
  init_vec <-? set 0 (size vars) 1%Z (make 1 (size vars + 1)) ;;
  m <-? CalculateTransformMatrix vars lines 0 ;;
  res <-? mul init_vec m ;;
  values <-? mapO (λ '(var, index), x <-? get res 0 index ;; Ok (var, x)) (map_to_list vars) ;;
  Ok (list_to_map values).

(** ** The reference *)

(** The value of an expression for the values of the variables, over the
    integers. *)
Fixpoint value (env : nat → Z) (e : Expression) : Z :=
  match e with
  | Constant_none => 0
  | Constant_number number => number
  | Constant_var index => env index
  | Constant_neg e => - value env e
  | Constant_sum e | Mul_one e | Sum_one e => value env e
  | Mul_two a b => value env a * value env b
  | Sum_two a op b =>
      if decide (op = "+"%char) then value env a + value env b
      else if decide (op = "-"%char) then value env a - value env b else value env a
  end%Z.

#[warnings="-register-all"]
Inductive stmt : Type :=
| SAssign (var : nat) (op : ascii) (e : Expression)
| SFor (iter_count : Z) (body : list stmt).

Definition assigned (env : nat → Z) (var : nat) (op : ascii) (x : Z) : Z :=
  if decide (op = "+"%char) then u64 (env var + x)
  else if decide (op = "-"%char) then u64 (env var - x)
  else if decide (op = "*"%char) then u64 (env var * x)
  else u64 x.

Definition upd (i : nat) (x : Z) (env : nat → Z) (j : nat) : Z :=
  if decide (j = i) then x else env j.

Fixpoint run_stmt (s : stmt) (env : nat → Z) : nat → Z :=
  match s with
  | SAssign var op e => upd var (assigned env var op (value env e)) env
  | SFor iter_count body => iterate iter_count (λ env, foldl (λ env s, run_stmt s env) env body) env
  end.

Definition run_stmts (ss : list stmt) (env : nat → Z) : nat → Z :=
  foldl (λ env s, run_stmt s env) env ss.

(** The statements of a program at some depth of indentation. *)
Fixpoint parse_program (vars_ : gmap bytes nat) (fuel depth : nat) (program : list (list Token))
    : outcome (list stmt) :=
  match program with
  | [] => Ok []
  | it :: rest =>
      match fuel with
      | O => Fail Fuel
      | S fuel' =>
          x <-? CountTabs it ;;
          let '(tabs, line) := x in
          if decide (tabs ≠ depth) then Fail (Exn (MatrixException "Wrong tab count")) else
          match line with
          | kVar name :: _ =>
              s <-? runO (lhs <- Equation vars_ name ;;
                          e <- ParseSum vars_ ;;
                          token <- Get ;;
                          if decide (token ≠ kNewLine)
                          then throwM (MatrixException "Wrong expression")
                          else retM (SAssign lhs.1 lhs.2 e)) line ;;
              ss <-? parse_program vars_ fuel' depth rest ;;
              Ok (s :: ss)
          | kFor :: _ =>
              iter_count <-? runO ForHead line ;;
              y <-? Subprogram depth rest ;;
              if decide (y.1 = []) then Fail (Exn (MatrixException "Empty for loop body")) else
              body <-? parse_program vars_ fuel' (depth + 1) y.1 ;;
              ss <-? parse_program vars_ fuel' depth y.2 ;;
              Ok (SFor iter_count body :: ss)
          | kNewLine :: _ => parse_program vars_ fuel' depth rest
          | _ => Fail (Exn (MatrixException "Wrong expression format"))
          end
      end
  end.

(** Variables are numbered from zero. *)
Definition numbered (vars : gmap bytes nat) : Prop :=
  ∀ name i, vars !! name = Some i → i < size vars.

Lemma gather_vars_numbered program : numbered (GatherVars program).
Proof.
  unfold GatherVars. assert (numbered ∅) as H by (intros name i; by rewrite lookup_empty).
  revert H. generalize (∅ : gmap bytes nat).
  induction (concat program) as [|token ts IH]; intros vars H; cbn; [done|].
  apply IH. destruct token; try done. case_decide as Hn; [|done].
  intros name i. rewrite map_size_insert_None by done.
  destruct (decide (name = var_name)) as [->|Hne].
  - rewrite lookup_insert_eq. intros [= <-]. lia.
  - rewrite lookup_insert_ne by done. intros Hi%H. lia.
Qed.

(** ** Expressions *)

(** [coeffs] are coefficients of variables, then a constant; the vector ends in
    the constant one. *)
Definition linear (n : nat) (coeffs : list Z) (env : nat → Z) : Z :=
  big_sum (n + 1) (λ i, nth i coeffs 0 * env i)%Z.

Section Linear.
Context (n : nat) (env : nat → Z) (Henv : env n = 1%Z).
Implicit Types (a b c : list Z).

Lemma mapO_checked_inv {A} (f : A → Z) (l : list A) r :
  mapO (λ x, checked64 (f x)) l = Ok r → r = f <$> l.
Proof.
  revert r. induction l as [|x l IH]; intros r; cbn; [by intros [= <-]|].
  unfold checked64 at 1. destruct (in_s64 (f x)); [|done]. cbn.
  destruct (mapO _ l) as [ys|]; [|done]. cbn. intros [= <-]. by rewrite (IH ys).
Qed.

Lemma mapO_checked_pair_inv (f : Z → Z → Z) (l : list (Z * Z)) r :
  mapO (λ '(x, y), checked64 (f x y)) l = Ok r → r = (λ '(x, y), f x y) <$> l.
Proof.
  intros H. apply mapO_checked_inv. rewrite <- H. clear H r.
  induction l as [|[x y] l IH]; cbn; [done|]. by rewrite IH.
Qed.

Lemma nth_fmap (f : Z → Z) (l : list Z) i : f 0%Z = 0%Z → nth i (f <$> l) 0%Z = f (nth i l 0%Z).
Proof. intros Hf. rewrite <- Hf at 1. apply map_nth. Qed.

Lemma nth_zip_with (f : Z → Z → Z) a b i :
  f 0%Z 0%Z = 0%Z → length a = length b →
  nth i ((λ '(x, y), f x y) <$> zip a b) 0%Z = f (nth i a 0%Z) (nth i b 0%Z).
Proof.
  intros Hf. revert b i. induction a as [|x a IH]; intros [|y b] [|i] Hl; try done; cbn.
  apply IH. by injection Hl.
Qed.

Lemma linear_zip (f : Z → Z → Z) a b :
  f 0%Z 0%Z = 0%Z →
  length a = n + 1 → length b = n + 1 →
  length ((λ '(x, y), f x y) <$> zip a b) = n + 1 ∧
  (∀ i, nth i ((λ '(x, y), f x y) <$> zip a b) 0%Z = f (nth i a 0%Z) (nth i b 0%Z)).
Proof.
  intros Hf Ha Hb. split.
  - rewrite length_fmap, length_zip. lia.
  - intros i. apply nth_zip_with; [done|lia].
Qed.

(** A constant vector of coefficients stands for its last element. *)
Lemma linear_constant c :
  length c = n + 1 → is_constant n c = true → linear n c env = default 0%Z (last c).
Proof.
  intros Hl Hc. unfold linear. rewrite (big_sum_single (n + 1) n); [|lia|].
  - rewrite Henv. rewrite last_lookup, Hl. replace (Nat.pred (n + 1)) with n by lia.
    rewrite nth_lookup. destruct (c !! n); cbn; lia.
  - intros i Hi Hne. unfold is_constant in Hc.
    destruct (lookup_lt_is_Some_2 c i ltac:(lia)) as [x Hx].
    apply Is_true_true, forallb_True in Hc. rewrite Forall_forall in Hc. rewrite nth_lookup, Hx.
    assert (x ∈ take n c) as Hin.
    { apply (list_elem_of_lookup_2 _ i). by rewrite lookup_take_lt by lia. }
    apply Hc, Is_true_true, Z.eqb_eq in Hin. subst x. done.
Qed.

Lemma linear_scale c k r :
  r = (λ x, x * k)%Z <$> c → linear n r env = (linear n c env * k)%Z.
Proof.
  intros ->. unfold linear. rewrite <- big_sum_mul_r. apply big_sum_ext. intros i _.
  rewrite nth_fmap by lia. lia.
Qed.

Lemma linear_ok e cs :
  Evaluate n e = Ok cs → length cs = n + 1 ∧ eqm 64 (value env e) (linear n cs env).
Proof using Henv.
  revert cs. induction e as [|x|i|e IH|e IH|e IH|a IHa b IHb|e IH|a IHa op b IHb]; intros cs H; cbn in *.
  - injection H as <-. rewrite length_replicate. split; [done|]. unfold linear.
    rewrite big_sum_0; [done|]. intros j Hj. rewrite nth_lookup, lookup_replicate_2 by lia. done.
  - injection H as <-. assert (length (replicate n 0%Z ++ [s64 x]) = n + 1) as Hl
      by (by rewrite length_app, length_replicate).
    split; [done|]. rewrite linear_constant; [|done|].
    + rewrite last_snoc. cbn. by rewrite swrap_eqm by lia.
    + unfold is_constant. rewrite take_app_exact by (by rewrite length_replicate).
      apply Is_true_true, forallb_True, Forall_replicate. done.
  - case_decide; [|done]. injection H as <-. rewrite length_insert, length_replicate.
    split; [done|]. unfold linear. rewrite (big_sum_single _ i); [|lia|].
    + rewrite nth_lookup, list_lookup_insert_eq by (rewrite length_replicate; lia).
      cbn. by rewrite Z.mul_1_l.
    + intros j Hj Hne. rewrite nth_lookup, list_lookup_insert_ne by done.
      rewrite lookup_replicate_2 by lia. done.
  - destruct (Evaluate n e) as [c|]; [|done]. cbn in H. destruct (IH c eq_refl) as [Hl Hv].
    apply mapO_checked_inv in H. rewrite (linear_scale c (-1) cs H). subst cs.
    rewrite length_fmap. split; [done|]. rewrite <- Hv. by rewrite <- Z.opp_eq_mul_m1.
  - by apply IH.
  - by apply IH.
  - destruct (Evaluate n a) as [ca|]; [|done]. cbn in H.
    destruct (Evaluate n b) as [cb|]; [|done]. cbn in H.
    destruct (IHa ca eq_refl) as [Hla Hva]. destruct (IHb cb eq_refl) as [Hlb Hvb].
    destruct (is_constant n ca) eqn:Hca.
    + rewrite Hca in H. apply mapO_checked_inv in H. rewrite (linear_scale cb _ cs H). subst cs.
      rewrite length_fmap. split; [done|]. rewrite <- (linear_constant ca) by done.
      by rewrite Hva, Hvb, Z.mul_comm.
    + destruct (is_constant n cb) eqn:Hcb; [|done]. apply mapO_checked_inv in H.
      rewrite (linear_scale ca _ cs H). subst cs. rewrite length_fmap. split; [done|].
      rewrite <- (linear_constant cb) by done. by rewrite Hva, Hvb.
  - by apply IH.
  - destruct (Evaluate n a) as [ca|]; [|done]. cbn in H.
    destruct (Evaluate n b) as [cb|]; [|done]. cbn in H.
    destruct (IHa ca eq_refl) as [Hla Hva]. destruct (IHb cb eq_refl) as [Hlb Hvb].
    destruct (decide (op = "+"%char)); [|destruct (decide (op = "-"%char))].
    + apply (mapO_checked_pair_inv Z.add) in H. subst cs.
      destruct (linear_zip Z.add ca cb) as [Hl Hn]; [lia..|]. split; [done|].
      rewrite Hva, Hvb. unfold linear. rewrite <- big_sum_add. apply big_sum_eqm. intros i _.
      rewrite Hn. by rewrite Z.mul_add_distr_r.
    + apply (mapO_checked_pair_inv Z.sub) in H. subst cs.
      destruct (linear_zip Z.sub ca cb) as [Hl Hn]; [lia..|]. split; [done|].
      rewrite Hva, Hvb. unfold linear. rewrite <- big_sum_sub. apply big_sum_eqm. intros i _.
      rewrite Hn. by rewrite Z.mul_sub_distr_r.
    + injection H as <-. done.
Qed.
End Linear.

(** ** The matrix of an assignment *)

Section Transform.
Context (n x : nat) (Hx : x < n).

(** The identity with the column [col] at [x]. *)
Definition column_at (m : Matrix) (col : nat → Z) : Prop :=
  shape m (n + 1) (n + 1) ∧
  ∀ i j, i < n + 1 → j < n + 1 →
    entry m i j = if decide (j = x) then col i else if decide (i = j) then 1%Z else 0%Z.

Lemma act_column m col env j :
  column_at m col → j < n + 1 →
  eqm 64 (act (n + 1) m env j)
    (if decide (j = x) then big_sum (n + 1) (λ i, col i * env i)%Z else env j).
Proof.
  intros [_ He] Hj. unfold act. rewrite eqm_uwrap. case_decide as Hjx.
  - apply big_sum_eqm. intros i Hi. rewrite He, decide_True by done. by rewrite Z.mul_comm.
  - rewrite (big_sum_single _ j); [|done|].
    + rewrite He, decide_False, decide_True by done. by rewrite Z.mul_1_r.
    + intros i Hi Hij. rewrite He, decide_False, decide_False by done. lia.
Qed.

(** Writing into the column. *)
Lemma set_column i y m col :
  column_at m col → i < n + 1 →
  ∃ m', set i x y m = Ok m' ∧ column_at m' (λ k, if decide (k = i) then y else col k).
Proof using Hx.
  intros [Hs He] Hi. destruct (set_ok i x y m (n + 1) (n + 1) Hs Hi) as (m'&Hm'&Hs'&He'); [lia|].
  exists m'. split; [done|]. split; [done|]. intros k j Hk Hj. rewrite He', He by done.
  repeat case_decide; destruct_and?; try done; tauto.
Qed.

Lemma update_column f i m col :
  column_at m col → i < n + 1 →
  ∃ m', update f i x m = Ok m' ∧ column_at m' (λ k, if decide (k = i) then f (col k) else col k).
Proof using Hx.
  intros Hm Hi. unfold update. assert (Hm' := Hm). destruct Hm' as [Hs He].
  rewrite (get_ok m (n + 1) (n + 1)) by (done || lia). cbn.
  rewrite He, decide_True by (done || lia).
  destruct (set_column i (f (col i)) m col Hm Hi) as (m'&->&Hs'&He'). exists m'. split; [done|].
  split; [done|]. intros k j Hk Hj. rewrite He' by done. by repeat case_decide; subst.
Qed.

(** A loop that handles each row of the column once. *)
Lemma forO_column (f : nat → Matrix → outcome Matrix) (g : nat → Z → Z) k m col :
  k ≤ n + 1 →
  (∀ i m col, i < k → column_at m col →
     ∃ m', f i m = Ok m' ∧ column_at m' (λ r, if decide (r = i) then g r (col r) else col r)) →
  column_at m col →
  ∃ m', forO f (seq 0 k) m = Ok m' ∧ column_at m' (λ r, if decide (r < k) then g r (col r) else col r).
Proof.
  intros Hk Hf Hm. revert Hk Hf. induction k as [|k IH]; intros Hk Hf.
  { exists m. done. }
  rewrite seq_S. assert (∀ l1 l2 b, forO f (l1 ++ l2) b = bindO (forO f l1 b) (forO f l2)) as Happ.
  { induction l1 as [|y l1 IHl]; intros l2 b; [done|]. cbn. destruct (f y b); [apply IHl|done]. }
  rewrite Happ. destruct IH as (m1&->&Hm1); [lia|auto with lia|]. cbn.
  destruct (Hf k m1 _ ltac:(lia) Hm1) as (m2&->&Hs2&He2). cbn. exists m2. split; [done|].
  split; [done|]. intros i j Hi Hj. rewrite He2 by done.
  repeat case_decide; subst; try done; lia.
Qed.

Lemma identity_column :
  ∃ m, Identity (n + 1) = Ok m ∧ column_at m (λ i, if decide (i = x) then 1%Z else 0%Z).
Proof.
  destruct (identity_ok (n + 1)) as (m&Hm&Hs&He). exists m. split; [done|]. split; [done|].
  intros i j Hi Hj. rewrite He by done. by repeat case_decide; subst.
Qed.
End Transform.

Section Assign.
Context (vars_ : gmap bytes nat).
Abbreviation n := (size vars_).

Lemma transform_init_ok cs x :
  x < n → length cs = n + 1 →
  ∃ m, transform_init vars_ cs x = Ok m ∧ column_at n x m (λ i, u64 (nth i cs 0%Z)).
Proof.
  intros Hx Hl. unfold transform_init. destruct (identity_column n x) as (m0&->&Hm0). cbn.
  rewrite Hl. edestruct (forO_column n x Hx (λ i, set i x (u64 (nth i cs 0%Z)))
    (λ i _, u64 (nth i cs 0%Z)) (n + 1) m0) as (m&->&Hs&He); [lia| |exact Hm0|].
  { intros i m1 col1 Hi Hm1. destruct (set_column n x Hx i (u64 (nth i cs 0%Z)) m1 col1 Hm1 Hi)
      as (m'&->&Hs'&He'). exists m'. split; [done|]. split; [done|].
    intros k j Hk Hj. rewrite He' by done. by repeat case_decide; subst. }
  exists m. split; [done|]. split; [done|]. intros i j Hi Hj. rewrite He by done.
  by rewrite (decide_True (P := i < n + 1)).
Qed.

(** The check of [*=]: the loop leaves the matrix alone and only succeeds when the
    coefficients of the variables are zero. *)
Lemma check_constant_ok x m col m' :
  x < n → column_at n x m col →
  forO (λ i transform,
      y <-? get transform i x ;;
      if (y =? 0)%Z then Ok transform
      else Fail (Exn (MatrixException "Non consntant expression for *="))) (seq 0 n) m = Ok m' →
  m' = m ∧ ∀ i, i < n → col i = 0%Z.
Proof.
  intros Hx [Hs He]. enough (∀ l, (∀ i, i ∈ l → i < n) →
    forO (λ i transform, y <-? get transform i x ;;
      if (y =? 0)%Z then Ok transform
      else Fail (Exn (MatrixException "Non consntant expression for *="))) l m = Ok m' →
    m' = m ∧ ∀ i, i ∈ l → col i = 0%Z) as H.
  { intros Hf. apply H in Hf as [-> Hf].
    - split; [done|]. intros i Hi. apply Hf, elem_of_seq. lia.
    - intros i Hi%elem_of_seq. lia. }
  induction l as [|i l IH]; intros Hl Hf; cbn in Hf.
  { injection Hf as <-. split; [done|]. by intros i Hi%elem_of_nil. }
  assert (i < n) by (apply Hl; by constructor).
  rewrite (get_ok m (n + 1) (n + 1)) in Hf by (done || lia). cbn in Hf.
  rewrite He, decide_True in Hf by (done || lia).
  destruct (Z.eqb_spec (col i) 0) as [Hc|]; [|done]. cbn in Hf.
  destruct (IH) as [-> Hall]; [|done|].
  { intros k Hk. apply Hl. by constructor. }
  split; [done|]. intros k [->|?]%elem_of_cons; auto.
Qed.

(** The column after the operator has been taken into account. *)
Definition op_column (op : ascii) (x : nat) (col : nat → Z) (i : nat) : Z :=
  if decide (op = "+"%char) then if decide (i = x) then u64 (col i + 1) else col i
  else if decide (op = "-"%char) then
    if decide (i = x) then u64 (u64 (- col i) + 1) else u64 (- col i)
  else if decide (op = "*"%char) then
    if decide (i = n) then 0%Z else if decide (i = x) then col n else col i
  else col i.

Lemma transform_op_ok op x m col m' :
  x < n → column_at n x m col → transform_op vars_ op x m = Ok m' →
  column_at n x m' (op_column op x col) ∧ (op = "*"%char → ∀ i, i < n → col i = 0%Z).
Proof.
  intros Hx Hm H. unfold transform_op, op_column in *. repeat case_decide; subst; try done.
  - destruct (update_column n x Hx (λ y, u64 (y + 1)) x m col Hm) as (m1&Hm1&?); [lia|].
    rewrite Hm1 in H. injection H as <-. done.
  - destruct (forO_column n x Hx (λ i, update (λ y, u64 (- y)) i x) (λ _ y, u64 (- y)) (n + 1) m col)
      as (m1&Hm1&Hc1); [lia| |done|].
    { intros i m1 col1 Hi Hm1. by apply (update_column n x Hx (λ y, u64 (- y))). }
    rewrite Hm1 in H. cbn in H.
    destruct (update_column n x Hx (λ y, u64 (y + 1)) x m1 _ Hc1) as (m2&Hm2&Hs2&He2); [lia|].
    rewrite Hm2 in H. injection H as <-. split; [|done]. split; [done|]. intros i j Hi Hj.
    rewrite He2 by done. repeat case_decide; try done; lia.
  - destruct (forO _ (seq 0 n) m) as [m1|] eqn:E; [|done]. cbn in H.
    destruct (check_constant_ok x m col m1 Hx Hm E) as [-> Hz].
    rewrite (get_ok m (n + 1) (n + 1)) in H by (apply Hm || lia). cbn in H.
    assert (entry m n x = col n) as Hn.
    { destruct Hm as [_ He]. by rewrite He, decide_True by lia. }
    rewrite Hn in H. destruct (set_column n x Hx x (col n) m col Hm) as (m2&Hm2&Hc2); [lia|].
    rewrite Hm2 in H. cbn in H.
    destruct (set_column n x Hx n 0%Z m2 _ Hc2) as (m3&Hm3&Hc3); [lia|].
    rewrite Hm3 in H. injection H as <-. done.
  - injection H as <-. done.
Qed.

Lemma big_sum_delta (x k : nat) (env : nat → Z) :
  x < k → big_sum k (λ i, (if decide (i = x) then 1 else 0) * env i)%Z = env x.
Proof.
  intros Hx. rewrite (big_sum_single k x); [|done|].
  - rewrite decide_True by done. lia.
  - intros i _ Hne. rewrite decide_False by done. lia.
Qed.

(** The sum over the column of an assignment, for each operator. *)
Lemma op_column_sum op x (col env : nat → Z) :
  x < n → env n = 1%Z → (op = "*"%char → ∀ i, i < n → col i = 0%Z) →
  eqm 64 (big_sum (n + 1) (λ i, op_column op x col i * env i)%Z)
    (assigned env x op (big_sum (n + 1) (λ i, col i * env i)%Z)).
Proof.
  intros Hx Henv Hz. unfold op_column, assigned. repeat case_decide; rewrite eqm_uwrap.
  - rewrite <- (big_sum_delta x (n + 1) env) by lia. rewrite <- big_sum_add.
    apply big_sum_eqm. intros i _. case_decide; rewrite ?eqm_uwrap; apply eqm_eq; lia.
  - rewrite <- (big_sum_delta x (n + 1) env) by lia. rewrite <- big_sum_sub.
    apply big_sum_eqm. intros i _.
    case_decide; rewrite ?eqm_uwrap; apply eqm_eq; lia.
  - specialize (Hz ltac:(done)).
    rewrite (big_sum_single (n + 1) x); [|lia|].
    + rewrite decide_False, decide_True by lia. rewrite (big_sum_single (n + 1) n); [|lia|].
      * rewrite Henv. by rewrite Z.mul_1_r, Z.mul_comm.
      * intros i Hi Hne. rewrite Hz by lia. lia.
    + intros i Hi Hne. rewrite (decide_False (P := i = x)) by done. case_decide; [lia|].
      rewrite Hz by lia. lia.
  - done.
Qed.

Lemma assign_act op x e cs m0 m env :
  x < n → env n = 1%Z → Evaluate n e = Ok cs →
  transform_init vars_ cs x = Ok m0 → transform_op vars_ op x m0 = Ok m →
  shape m (n + 1) (n + 1) ∧ veq (n + 1) (act (n + 1) m env) (run_stmt (SAssign x op e) env).
Proof.
  intros Hx Henv He H0 Hop. destruct (linear_ok n env Henv e cs He) as [Hl Hv].
  destruct (transform_init_ok cs x Hx Hl) as (m0'&H0'&Hc0). rewrite H0 in H0'.
  injection H0' as <-. destruct (transform_op_ok op x m0 _ m Hx Hc0 Hop) as [Hc Hz].
  split; [apply Hc|]. intros j Hj. rewrite (act_column n x Hx m _ env j Hc Hj). cbn. unfold upd.
  case_decide; [subst j|done]. rewrite op_column_sum by done.
  assert (eqm 64 (big_sum (n + 1) (λ i, u64 (nth i cs 0%Z) * env i)%Z) (value env e)) as Hs.
  { rewrite Hv. apply big_sum_eqm. intros i _. by rewrite eqm_uwrap. }
  unfold assigned. repeat case_decide; rewrite !eqm_uwrap, Hs; done.
Qed.
End Assign.

(** ** Programs *)

Definition token_ok (t : Token) : Prop :=
  match t with kNumber x => (0 <= x < 2 ^ 64)%Z | _ => True end.
Definition line_ok (l : Line) : Prop := Forall token_ok l.

Lemma runO_inv {S A} (c : M S A) s a : runO c s = Ok a → ∃ s', c s = (Ok a, s').
Proof. unfold runO. destruct (c s) as [o s']. cbn. intros ->. by exists s'. Qed.

Ltac minv H :=
  repeat match type of H with
  | bindM _ _ _ = (Ok _, _) =>
      let a := fresh "a" in let s := fresh "s" in let E := fresh "E" in
      apply bindM_ok_inv in H as (a&s&E&H); cbv beta in H
  | bindO _ _ = Ok _ =>
      let a := fresh "a" in let E := fresh "E" in apply bindO_inv in H as (a&E&H); cbv beta in H
  end.

Lemma get_inv l t l' : Get l = (Ok t, l') → ∃ rest, l = t :: rest ∧ l' = l.
Proof. destruct l as [|t0 rest]; [done|]. intros [= <- <-]. by eexists. Qed.

Lemma next_inv l u l' : Next l = (Ok u, l') → ∃ t, l = t :: l'.
Proof. destruct l as [|t0 rest]; [done|]. intros [= _ <-]. by eexists. Qed.

Lemma count_tabs_suffix l k n' l' : CountTabs_loop l k = Ok (n', l') → ∃ pre, l = pre ++ l'.
Proof.
  revert k. induction l as [|t l IH]; intros k H; [done|].
  destruct t; cbn in H; try (injection H as <- <-; by exists []).
  apply IH in H as [pre ->]. by exists (kTab :: pre).
Qed.

Lemma subprogram_split depth program sub rest :
  Subprogram depth program = Ok (sub, rest) → program = sub ++ rest.
Proof.
  revert sub. induction program as [|l p IH]; intros sub H; cbn in H.
  { by injection H as <- <-. }
  destruct (CountTabs l) as [x|]; [|done]. cbn in H. case_decide; [by injection H as <- <-|].
  destruct (Subprogram depth p) as [[s r]|] eqn:E; [|done]. injection H as <- <-. cbn.
  by rewrite (IH s).
Qed.

Section Programs.
Context (vars_ : gmap bytes nat) (Hvars : numbered vars_).
Abbreviation n := (size vars_).
Implicit Types (env : nat → Z).

(** The matrix acts as the statements do, on vectors that end in one. *)
Definition acts (m : Matrix) (f : (nat → Z) → nat → Z) : Prop :=
  shape m (n + 1) (n + 1) ∧
  ∀ env, env n = 1%Z → veq (n + 1) (act (n + 1) m env) (f env) ∧ f env n = 1%Z.

Lemma equation_index name l x op l' : Equation vars_ name l = (Ok (x, op), l') → x < n.
Proof using Hvars.
  unfold Equation. intros H. apply bindM_ok_inv in H as (i&s&E&H). unfold vars_at in E.
  destruct (vars_ !! name) as [i'|] eqn:Hi; [|done]. injection E as <- <-.
  enough (x = i') as -> by by eapply Hvars.
  minv H. case_decide; [done|]. minv H. by injection H.
Qed.

Lemma assignment_acts name l m :
  runO (Assignment vars_ name) l = Ok m →
  ∃ x op e, acts m (run_stmt (SAssign x op e)) ∧
    runO (lhs <- Equation vars_ name ;;
          e <- ParseSum vars_ ;;
          token <- Get ;;
          if decide (token ≠ kNewLine) then throwM (MatrixException "Wrong expression")
          else retM (SAssign lhs.1 lhs.2 e)) l = Ok (SAssign x op e).
Proof using Hvars.
  intros [l' H]%runO_inv. unfold Assignment in H.
  apply bindM_ok_inv in H as ([x op]&l1&E1&H). cbv beta iota in H.
  apply bindM_ok_inv in H as (e&l2&E2&H). apply bindM_ok_inv in H as (cs&l3&[E3 ->]%liftO_inv&H).
  apply bindM_ok_inv in H as (m0&l4&[E4 ->]%liftO_inv&H). apply bindM_ok_inv in H as (t&l5&E5&H).
  case_decide as Ht; [done|]. apply liftO_inv in H as [H ->].
  pose proof (equation_index _ _ _ _ _ E1) as Hx.
  exists x, op, e. split.
  - split.
    + by eapply (assign_act vars_ op x e cs m0 m (λ _, 1%Z)).
    + intros env Henv. split; [by eapply assign_act|]. cbn. unfold upd.
      rewrite decide_False by lia. done.
  - unfold runO. rewrite (bindM_ok _ _ _ _ _ E1), (bindM_ok _ _ _ _ _ E2), (bindM_ok _ _ _ _ _ E5).
    case_decide; done.
Qed.

Lemma acts_mul a b f g c :
  acts a f → acts b g → mul_assign a b = Ok c → acts c (λ env, g (f env)).
Proof.
  intros [Hsa Ha] [Hsb Hb] H. destruct (mul_square a b (n + 1) Hsa Hsb) as (c'&Hc&Hsc&_&Hact).
  unfold mul_assign in H. rewrite Hc in H. injection H as ->. split; [done|]. intros env Henv.
  destruct (Ha env Henv) as [Ha1 Ha2]. destruct (Hb _ Ha2) as [Hb1 Hb2]. split; [|done].
  rewrite Hact, Ha1. done.
Qed.

Lemma acts_identity m : Identity (n + 1) = Ok m → acts m (λ env, env).
Proof.
  intros H. destruct (identity_ok (n + 1)) as (m'&Hm&Hs&He). rewrite H in Hm. injection Hm as ->.
  split; [done|]. intros env Henv. split; [|done]. by apply act_identity.
Qed.

Lemma acts_pow m f k c :
  acts m f → (0 <= k < 2 ^ 64)%Z → Pow m k = Ok c → acts c (iterate k f).
Proof.
  intros [Hs Hm] Hk H. destruct (pow_ok (n + 1) k m Hs Hk) as (c'&Hc&Hsc&Hact).
  rewrite H in Hc. injection Hc as ->. split; [done|]. intros env Henv.
  enough (veq (n + 1) (iterate k (act (n + 1) m) env) (iterate k f env) ∧ iterate k f env n = 1%Z)
    as [H1 H2] by (split; [by rewrite Hact|done]).
  unfold iterate. induction (Z.to_N k) as [|j [IH1 IH2]] using N.peano_ind; [done|].
  rewrite !N.iter_succ. destruct (Hm _ IH2) as [Hm1 Hm2]. split; [|done]. by rewrite IH1.
Qed.

Lemma acts_ext m f g : acts m f → (∀ env, f env = g env) → acts m g.
Proof. intros [Hs Hm] Hfg. split; [done|]. intros env Henv. rewrite <- Hfg. by apply Hm. Qed.

Lemma for_head_ok l k : line_ok l → runO ForHead l = Ok k → (0 <= k < 2 ^ 64)%Z.
Proof.
  intros Hl [l' H]%runO_inv. unfold ForHead in H.
  apply bindM_ok_inv in H as (u&l1&E1&H). apply next_inv in E1 as [t0 ->].
  apply bindM_ok_inv in H as (t&l2&E2&H). apply get_inv in E2 as (rest&->&->).
  destruct t as [x| | | | | | | |]; try done. minv H. case_decide; [done|].
  injection H as <- _. unfold line_ok in Hl. rewrite !Forall_cons in Hl. apply Hl.
Qed.

Lemma calculate_acts fuel depth res program f m :
  Forall line_ok program → acts res f → Calculate_loop vars_ fuel depth res program = Ok m →
  ∃ ss, parse_program vars_ fuel depth program = Ok ss ∧ acts m (λ env, run_stmts ss (f env)).
Proof using Hvars.
  revert depth res program f m. induction fuel as [|fuel IH]; intros depth res program f m Hp Hres H.
  { destruct program; [|done]. injection H as <-. by exists []. }
  destruct program as [|it rest]; [injection H as <-; by exists []|].
  apply Forall_cons in Hp as [Hit Hrest]. cbn [Calculate_loop parse_program] in *.
  apply bindO_inv in H as ([tabs line]&Et&H). rewrite Et. cbn [bindO].
  destruct (count_tabs_suffix _ _ _ _ Et) as [pre ->]. apply Forall_app in Hit as [_ Hline].
  case_decide as Htabs; [done|]. apply bindO_inv in H as (t&Eg&H).
  apply runO_inv in Eg as [l' Eg]. apply get_inv in Eg as (line'&->&_).
  destruct t as [x|c|name| | | | | |]; try done.
  - apply bindO_inv in H as (tr&Etr&H). apply bindO_inv in H as (res'&Er&H).
    destruct (assignment_acts name _ tr Etr) as (x&op&e&Hacts&Hs).
    unfold bindO at 1. rewrite Hs.
    destruct (IH _ _ _ _ _ Hrest (acts_mul _ _ _ _ _ Hres Hacts Er) H) as (ss&->&Hm).
    exists (SAssign x op e :: ss). done.
  - apply bindO_inv in H as (k&Ek&H). apply bindO_inv in H as ([sub rest']&Esub&H).
    rewrite Ek, Esub. cbn [bindO fst snd]. case_decide as Hne; [done|].
    apply bindO_inv in H as (id&Eid&H). apply bindO_inv in H as (body&Ebody&H).
    apply bindO_inv in H as (power&Epow&H). apply bindO_inv in H as (res'&Er&H).
    rewrite (subprogram_split _ _ _ _ Esub) in Hrest. apply Forall_app in Hrest as [Hsub Hrest'].
    destruct (IH _ _ _ _ _ Hsub (acts_identity _ Eid) Ebody) as (bs&->&Hbody). cbn [bindO].
    pose proof (acts_pow _ _ _ _ Hbody (for_head_ok _ _ Hline Ek) Epow) as Hpow.
    destruct (IH _ _ _ _ _ Hrest' (acts_mul _ _ _ _ _ Hres Hpow Er) H) as (ss&->&Hm).
    exists (SFor k bs :: ss). done.
  - by apply (IH _ _ _ _ _ Hrest Hres).
Qed.
End Programs.

(** ** Tokens *)

Lemma eat_spaces_length l cnt : length (eat_spaces l cnt).2 ≤ length l.
Proof.
  revert cnt. induction l as [|c l IH]; intros cnt; cbn; [lia|].
  case_decide; [|done]. specialize (IH (S cnt)). lia.
Qed.

Lemma read_number_spec l k :
  (0 <= k < 2 ^ 64)%Z →
  (0 <= (read_number l k).1 < 2 ^ 64)%Z ∧ length (read_number l k).2 ≤ length l.
Proof.
  revert k. induction l as [|c l IH]; intros k Hk; cbn; [done|].
  destruct (is_digit c); [|done].
  destruct (IH (u64 (k * 10 + code c - 48))) as [? ?]; [apply uwrap_range; lia|]. split; [done|lia].
Qed.

Lemma read_name_length l : length (read_name l).2 ≤ length l.
Proof.
  induction l as [|c l IH]; cbn; [lia|]. destruct (is_name_char c); [|done].
  destruct (read_name l) as [s r]. cbn in *. lia.
Qed.

(** [Consume] returns a token with a 64-bit number, never loops, and consumes at
    least a character unless it is at the end of the input. *)
Lemma consume_loop_ok fuel l :
  length l < fuel →
  ∃ t rest, Consume_loop fuel l = Ok (t, rest) ∧ token_ok t ∧
    (t = kEnd ∨ length rest < length l).
Proof.
  revert l. induction fuel as [|fuel IH]; intros l Hf; [lia|]. cbn [Consume_loop].
  destruct l as [|c l]; [by eexists _, _; split_and!; [done..|left]|]. cbn [length] in *.
  case_decide; [by eexists _, _; split_and!; [done..|right; lia]|].
  case_decide as Hsp.
  { subst c. cbn [eat_spaces]. rewrite decide_True by (split; [done|lia]).
    pose proof (eat_spaces_length l 1) as Hl. destruct (eat_spaces l 1) as [cnt rest]. cbn in Hl.
    case_decide; [by eexists _, _; split_and!; [done..|right; lia]|].
    destruct (IH rest ltac:(lia)) as (t&r&->&?&[?|?]); eexists _, _; split_and!; try done;
      [by left|right; lia]. }
  case_decide; [by eexists _, _; split_and!; [done..|right; lia]|].
  case_decide; [by eexists _, _; split_and!; [done..|right; lia]|].
  destruct (is_digit c) eqn:Hd.
  { cbn [read_number]. rewrite Hd.
    destruct (read_number_spec l (u64 (0 * 10 + code c - 48))) as [Hn Hl]; [apply uwrap_range; lia|].
    destruct (read_number l _) as [k rest]. cbn in Hn, Hl.
    eexists _, _. split_and!; [done|done|right; lia]. }
  destruct (is_letter c) eqn:Hc.
  { cbn [read_name]. unfold is_name_char at 1. rewrite Hc. cbn [orb].
    pose proof (read_name_length l) as Hl. destruct (read_name l) as [s rest]. cbn in Hl.
    eexists _, _. split_and!; [done|by case_decide|right; lia]. }
  by eexists _, _; split_and!; [done..|right; lia].
Qed.

(** A line as [Tokenize] makes it: tokens that are neither ends of line nor the end
    of the input, then an end of line. *)
Definition body_token (t : Token) : Prop := token_ok t ∧ t ≠ kNewLine ∧ t ≠ kEnd.
Definition full_line (l : Line) : Prop :=
  ∃ body, l = body ++ [kNewLine] ∧ body ≠ [] ∧ Forall body_token body.

Lemma tokenize_loop_ok fuel l cur program :
  length l < fuel → Forall body_token cur → Forall full_line program →
  ∃ lines, Tokenize_loop fuel l cur program = Ok lines ∧ Forall full_line lines.
Proof.
  revert l cur program. induction fuel as [|fuel IH]; intros l cur program Hf Hcur Hp; [lia|].
  cbn [Tokenize_loop]. destruct (consume_loop_ok (S (length l)) l ltac:(lia)) as (t&rest&Hc&Ht&Hl).
  unfold Consume. rewrite Hc. cbn [bindO].
  assert (∀ t, body_token t → Forall body_token (cur ++ [t])) as Hsnoc.
  { intros t' Ht'. apply Forall_app. by split; [|constructor]. }
  assert (cur ≠ [] → Forall full_line (program ++ [cur ++ [kNewLine]])) as Hline.
  { intros Hne. apply Forall_app. split; [done|]. constructor; [|done]. by exists cur. }
  destruct t; try (apply IH; [destruct Hl; [done|lia]|by apply Hsnoc|done]).
  - case_decide; apply IH; try done; (destruct Hl; [done|lia]) || by apply Hsnoc.
  - case_decide; apply IH; auto; destruct Hl; done || lia.
  - eexists. split; [done|]. case_decide; [done|]. case_decide as Hlast; [by apply Hline|].
    apply last_Some in Hlast as [l' ->].
    apply Forall_app in Hcur as [_ Hcur]. rewrite Forall_singleton in Hcur. by destruct Hcur as (_&?&_).
Qed.

Lemma tokenize_ok program : ∃ lines, Tokenize program = Ok lines ∧ Forall full_line lines.
Proof. apply tokenize_loop_ok; [lia|done|done]. Qed.

Lemma full_line_ok l : full_line l → line_ok l.
Proof.
  intros (body&->&_&Hb). apply Forall_app. split; [|by constructor].
  eapply Forall_impl; [done|]. by intros t [? _].
Qed.

(** ** The result of a program *)

(** Every variable holds a 64-bit unsigned integer. *)
Definition env_ranged (env : nat → Z) : Prop := ∀ i, (0 <= env i < 2 ^ 64)%Z.

Lemma run_stmt_ranged s : ∀ env, env_ranged env → env_ranged (run_stmt s env).
Proof.
  revert s. fix IH 1. intros [x op e|k body] env Henv; cbn.
  - intros i. unfold upd, assigned. repeat case_decide; done || (apply uwrap_range; lia).
  - unfold iterate. induction (Z.to_N k) as [|j IHj] using N.peano_ind; [done|].
    rewrite N.iter_succ. revert IHj. generalize (N.iter j (λ env0, foldl (λ env1 s, run_stmt s env1)
      env0 body) env). induction body as [|s body IHb]; intros env' Henv'; [done|].
    cbn. apply IHb, IH, Henv'.
Qed.

Lemma run_stmts_ranged ss env : env_ranged env → env_ranged (run_stmts ss env).
Proof.
  revert env. induction ss as [|s ss IH]; intros env Henv; [done|]. cbn.
  by apply IH, run_stmt_ranged.
Qed.

(** All variables start at zero; the vector ends in one. *)
Definition initial_env (n : nat) : nat → Z := λ i, if decide (i = n) then 1%Z else 0%Z.

Lemma initial_vec_ok n :
  ∃ m, set 0 n 1%Z (make 1 (n + 1)) = Ok m ∧ shape m 1 (n + 1) ∧
    ∀ j, entry m 0 j = initial_env n j.
Proof.
  destruct (set_ok 0 n 1%Z _ 1 (n + 1) (make_shape 1 (n + 1))) as (m&Hm&Hs&He); [lia..|].
  exists m. split_and!; [done..|]. intros j. rewrite He, make_entry. unfold initial_env.
  repeat case_decide; destruct_and?; try done; tauto.
Qed.

(** ** Parsing is safe

    On a line that ends in an end of line, the parser returns or throws: it never
    reads past the end, and the fuel of [parse_fuel] is enough. *)

Definition ends_nl (l : Line) : Prop := last l = Some kNewLine.

Lemma ends_nl_next t l : ends_nl (t :: l) → t ≠ kNewLine → ends_nl l.
Proof. unfold ends_nl. destruct l; [by intros [= ->]|done]. Qed.

Definition tame {A} (P : A → Line → Prop) (r : outcome A * Line) : Prop :=
  match r with
  | (Ok a, l) => P a l
  | (Fail (Exn _), _) => True
  | _ => False
  end.

Lemma tame_bind {A B} (P : A → Line → Prop) (Q : B → Line → Prop) (c : M Line A) k l :
  tame P (c l) → (∀ a l', P a l' → tame Q (k a l')) → tame Q (bindM c k l).
Proof. unfold bindM. destruct (c l) as [[a|[]] l']; cbn; auto. Qed.

Lemma tame_impl {A} (P Q : A → Line → Prop) r : tame P r → (∀ a l, P a l → Q a l) → tame Q r.
Proof. destruct r as [[a|[]] l']; cbn; auto. Qed.

Lemma tame_get l : ends_nl l → tame (λ t l', l' = l ∧ ∃ rest, l = t :: rest) (Get l).
Proof. destruct l as [|t l]; [done|]. intros _. cbn. split; [done|by eexists]. Qed.

Lemma tame_next t l :
  ends_nl (t :: l) → t ≠ kNewLine → tame (λ _ l', l' = l ∧ ends_nl l) (Next (t :: l)).
Proof. intros Hl Ht. cbn. eauto using ends_nl_next. Qed.

Section ParserSafe.
Context (vars_ : gmap bytes nat) (Hvars : numbered vars_).

Fixpoint expr_ok (e : Expression) : Prop :=
  match e with
  | Constant_none | Constant_number _ => True
  | Constant_var i => i < size vars_
  | Constant_neg e | Constant_sum e | Mul_one e | Sum_one e => expr_ok e
  | Mul_two a b | Sum_two a _ b => expr_ok a ∧ expr_ok b
  end.

(** What a constructor leaves of the line [l]. *)
Definition parsed (l : Line) (e : Expression) (l' : Line) : Prop :=
  expr_ok e ∧ ends_nl l' ∧ length l' ≤ length l.

Definition opt_ok (o : option Expression) : Prop := match o with Some e => expr_ok e | None => True end.

Lemma vars_at_tame name l :
  tame (λ i l', l' = l ∧ i < size vars_) (vars_at vars_ name l).
Proof using Hvars. unfold vars_at. destruct (vars_ !! name) eqn:E; cbn; eauto. Qed.

Definition parser_safe (fuel : nat) : Prop :=
  (∀ l, ends_nl l → 4 * length l + 1 ≤ fuel → tame (parsed l) (Constant vars_ fuel l)) ∧
  (∀ l, ends_nl l → 4 * length l + 3 ≤ fuel → tame (parsed l) (Mul vars_ fuel l)) ∧
  (∀ l m c, ends_nl l → 4 * length l + 2 ≤ fuel → expr_ok m → opt_ok c →
     tame (parsed l) (Mul_loop vars_ fuel m c l)) ∧
  (∀ l, ends_nl l → 4 * length l + 4 ≤ fuel → tame (parsed l) (Sum vars_ fuel l)) ∧
  (∀ l s r, ends_nl l → 4 * length l + 3 ≤ fuel → expr_ok s → opt_ok (snd <$> r) →
     tame (parsed l) (Sum_loop vars_ fuel s r l)).

Lemma constant_safe fuel :
  parser_safe fuel → ∀ l, ends_nl l → 4 * length l + 1 ≤ S fuel →
  tame (parsed l) (Constant vars_ (S fuel) l).
Proof using Hvars.
  intros (IHc&_&_&IHs&_) l Hl Hf. cbn [Constant].
  eapply tame_bind; [by apply tame_get|]. intros t l' [-> [rest ->]].
  destruct t as [x|c|name| | | | | |]; try done.
  - eapply tame_bind; [by apply tame_next|]. intros _ ? [-> ?]. split_and!; [done..|cbn; lia].
  - case_decide; [|case_decide; [|done]].
    + eapply tame_bind; [by apply tame_next|]. intros _ ? [-> Hr]. cbn in Hf.
      eapply tame_bind; [apply IHc; [done|lia]|]. intros e l' (?&?&?). split_and!; [done..|cbn; lia].
    + eapply tame_bind; [by apply tame_next|]. intros _ ? [-> Hr]. cbn in Hf.
      eapply tame_bind; [apply IHs; [done|lia]|]. intros e l' (He&Hl'&?).
      eapply tame_bind; [by apply tame_get|]. intros t ? [-> [rest' ->]].
      case_decide as Ht; [done|]. cbn in *.
      assert (t ≠ kNewLine) by (by rewrite Ht).
      split_and!; [done|by eapply ends_nl_next|cbn; lia].
  - eapply tame_bind; [apply vars_at_tame|]. intros i ? [-> ?].
    eapply tame_bind; [by apply tame_next|]. intros _ ? [-> ?]. split_and!; [done..|cbn; lia].
Qed.

Lemma mul_loop_safe fuel :
  parser_safe fuel → ∀ l m c, ends_nl l → 4 * length l + 2 ≤ S fuel → expr_ok m → opt_ok c →
  tame (parsed l) (Mul_loop vars_ (S fuel) m c l).
Proof.
  intros (IHc&_&IHl&_&_) l m c Hl Hf Hm Hc. cbn [Mul_loop].
  eapply tame_bind; [by apply tame_get|]. intros t l' [-> [rest ->]].
  case_decide as Ht.
  - subst t. eapply tame_bind; [by apply tame_next|]. intros _ ? [-> Hr]. cbn in Hf.
    eapply tame_bind; [apply IHc; [done|lia]|]. intros e l' (He&Hl'&?).
    eapply tame_impl; [apply IHl; [done|lia|by destruct c|done]|].
    intros e' l'' (?&?&?). split_and!; [done..|cbn; lia].
  - cbn. split_and!; [by destruct c|done|done].
Qed.

Lemma sum_loop_safe fuel :
  parser_safe fuel → ∀ l s r, ends_nl l → 4 * length l + 3 ≤ S fuel → expr_ok s →
  opt_ok (snd <$> r) → tame (parsed l) (Sum_loop vars_ (S fuel) s r l).
Proof.
  intros (_&IHm&_&_&IHl) l s r Hl Hf Hs Hr. cbn [Sum_loop].
  eapply tame_bind; [by apply tame_get|]. intros t l' [-> [rest ->]].
  assert (tame (parsed (t :: rest)) (retM (make_sum s r) (t :: rest))) as Hret.
  { cbn. split_and!; [by destruct r as [[]|]|done|done]. }
  destruct t as [x|c|name| | | | | |]; try exact Hret.
  case_decide as Hc; [|exact Hret].
  eapply tame_bind; [by apply tame_next|]. intros _ ? [-> Hrest]. cbn in Hf.
  eapply tame_bind; [apply IHm; [done|lia]|]. intros e l' (He&Hl'&?).
  eapply tame_impl; [apply IHl; [done|lia|by destruct r as [[]|]|done]|].
  intros e' l'' (?&?&?). split_and!; [done..|cbn; lia].
Qed.

Lemma parser_safe_all fuel : parser_safe fuel.
Proof using Hvars.
  induction fuel as [|fuel IH].
  { split_and!; intros; lia. }
  assert (IH' := IH). destruct IH' as (IHc&IHm&IHml&IHs&IHsl). split_and!.
  - by apply constant_safe.
  - intros l Hl Hf. cbn [Mul]. eapply tame_bind; [apply IHc; [done|lia]|].
    intros e l' (He&Hl'&?). eapply tame_impl; [apply IHml; [done|lia|done|done]|].
    intros e' l'' (?&?&?). split_and!; [done..|lia].
  - by apply mul_loop_safe.
  - intros l Hl Hf. cbn [Sum]. eapply tame_bind; [apply IHm; [done|lia]|].
    intros e l' (He&Hl'&?). eapply tame_impl; [apply IHsl; [done|lia|done|done]|].
    intros e' l'' (?&?&?). split_and!; [done..|lia].
  - by apply sum_loop_safe.
Qed.

Lemma parse_sum_safe l : ends_nl l → tame (parsed l) (ParseSum vars_ l).
Proof using Hvars. intros Hl. apply parser_safe_all; [done|]. unfold parse_fuel. lia. Qed.

Lemma equation_safe name l :
  ends_nl l →
  hd kNewLine l ≠ kNewLine →
  tame (λ r l', r.1 < size vars_ ∧ ends_nl l') (Equation vars_ name l).
Proof using Hvars.
  intros Hl Hhd. destruct l as [|t l]; [done|]. cbn in Hhd. unfold Equation.
  eapply tame_bind; [apply vars_at_tame|]. intros i ? [-> Hi].
  eapply tame_bind; [by apply tame_next|]. intros _ ? [-> Hl1].
  eapply tame_bind; [by apply tame_get|]. intros t1 ? [-> [l2 ->]].
  eapply (tame_bind (λ _ l', ends_nl l')).
  - destruct t1 as [x|c|nm| | | | | |]; try done. case_decide; [done|].
    eapply tame_bind; [by apply tame_next|]. by intros _ ? [-> ?].
  - intros op l3 Hl3. eapply tame_bind; [by apply tame_get|]. intros t3 ? [-> [l4 ->]].
    case_decide as Ht3; [done|].
    assert (t3 ≠ kNewLine) by (by rewrite Ht3).
    eapply tame_bind; [by apply tame_next|]. intros _ ? [-> ?]. done.
Qed.
End ParserSafe.

(** ** Every program is settled *)

(** A settled outcome is a result or an exception; it is undefined only if [U]. *)
Definition settled {A} (U : Prop) (P : A → Prop) (o : outcome A) : Prop :=
  match o with
  | Ok a => P a
  | Fail (Exn _) => True
  | Fail UB => U
  | Fail _ => False
  end.

Lemma settled_bind {A B} U (P : A → Prop) (Q : B → Prop) c k :
  settled U P c → (∀ a, P a → settled U Q (k a)) → settled U Q (bindO c k).
Proof. destruct c as [a|[]]; cbn; auto. Qed.

Lemma settled_impl {A} (U V : Prop) (P Q : A → Prop) o :
  settled U P o → (U → V) → (∀ a, P a → Q a) → settled V Q o.
Proof. destruct o as [a|[]]; cbn; auto. Qed.

Lemma settled_ok {A} U (P : A → Prop) o a : o = Ok a → P a → settled U P o.
Proof. by intros ->. Qed.

Lemma settled_mapO {A B} (f : A → outcome B) (U : Prop) l :
  (∀ x, settled U (λ _, True) (f x)) → settled U (λ _, True) (mapO f l).
Proof.
  intros Hf. induction l as [|x l IH]; cbn; [done|].
  eapply settled_bind; [apply Hf|]. intros y _. eapply settled_bind; [apply IH|]. done.
Qed.

Lemma settled_checked x : settled True (λ _, True) (checked64 x).
Proof. unfold checked64. by destruct (in_s64 x). Qed.

Lemma evaluate_settled n e : settled True (λ _, True) (Evaluate n e).
Proof.
  induction e as [|x|i|e IH|e IH|e IH|a IHa b IHb|e IH|a IHa op b IHb]; cbn; try done.
  - by case_decide.
  - eapply settled_bind; [done|]. intros c _. apply settled_mapO. intros x. apply settled_checked.
  - eapply settled_bind; [done|]. intros ca _. eapply settled_bind; [done|]. intros cb _.
    destruct (is_constant n ca); [destruct (is_constant n ca)|destruct (is_constant n cb)]; try done;
      apply settled_mapO; intros x; apply settled_checked.
  - eapply settled_bind; [done|]. intros ca _. eapply settled_bind; [done|]. intros cb _.
    repeat case_decide; try done; apply settled_mapO; intros [x y]; apply settled_checked.
Qed.

Section Settled.
Context (vars_ : gmap bytes nat) (Hvars : numbered vars_).
Abbreviation n := (size vars_).

Lemma transform_op_settled op x m col :
  x < n → column_at n x m col →
  settled False (λ m', shape m' (n + 1) (n + 1)) (transform_op vars_ op x m).
Proof.
  intros Hx Hm. destruct (transform_op vars_ op x m) as [m'|f] eqn:E.
  { apply (transform_op_ok vars_ op x m col m' Hx Hm E). }
  unfold transform_op in E. repeat case_decide; try done.
  - destruct (update_column n x Hx (λ y, u64 (y + 1)) x m col Hm) as (m1&Hm1&?); [lia|].
    by rewrite Hm1 in E.
  - destruct (forO_column n x Hx (λ i, update (λ y, u64 (- y)) i x) (λ _ y, u64 (- y)) (n + 1) m col)
      as (m1&Hm1&Hc1); [lia| |done|].
    { intros i m1 col1 Hi Hm1. by apply (update_column n x Hx (λ y, u64 (- y))). }
    rewrite Hm1 in E. cbn in E.
    destruct (update_column n x Hx (λ y, u64 (y + 1)) x m1 _ Hc1) as (m2&Hm2&_); [lia|].
    by rewrite Hm2 in E.
  - destruct (forO _ (seq 0 n) m) as [m1|f'] eqn:E1; cbn in E.
    + destruct (check_constant_ok vars_ x m col m1 Hx Hm E1) as [-> _].
      rewrite (get_ok m (n + 1) (n + 1)) in E by (apply Hm || lia). cbn in E.
      destruct (set_column n x Hx x (entry m n x) m col Hm) as (m2&Hm2&Hc2); [lia|].
      rewrite Hm2 in E. cbn in E.
      destruct (set_column n x Hx n 0%Z m2 _ Hc2) as (m3&Hm3&_); [lia|]. by rewrite Hm3 in E.
    + injection E as <-. cut (∀ i, i ∈ seq 0 n → i < n + 1).
      2: { intros i Hi%elem_of_seq. lia. }
      revert E1. generalize (seq 0 n). induction l as [|i l IH]; intros E1 Hl; [done|]. cbn in E1.
      rewrite (get_ok m (n + 1) (n + 1)) in E1;
        [|apply Hm|apply Hl; by constructor|lia]. cbn in E1.
      destruct (entry m i x =? 0)%Z; cbn in E1; [|by injection E1 as <-].
      apply IH; [done|]. intros k Hk. apply Hl. by constructor.
Qed.

(** An expression that is parsed somewhere in the program and whose evaluation
    overflows. *)
Definition overflowing (program : list Line) : Prop :=
  ∃ line l e l', line ∈ program ∧ l `suffix_of` line ∧ ParseSum vars_ l = (Ok e, l') ∧
    Evaluate n e = Fail UB.

Lemma settled_runO {A} U (P : A → Line → Prop) c l :
  tame P (c l) → settled U (λ a, ∃ l', c l = (Ok a, l') ∧ P a l') (runO c l).
Proof. unfold runO. destruct (c l) as [[a|[]] l']; cbn; [by eauto|done..]. Qed.

Lemma equation_suffix name l r l' : Equation vars_ name l = (Ok r, l') → l' `suffix_of` l.
Proof.
  assert (∀ l u l', Next l = (Ok u, l') → l' `suffix_of` l) as HN.
  { intros l1 u l1' [t ->]%next_inv. by exists [t]. }
  assert (∀ l t l', Get l = (Ok t, l') → l' = l) as HG by (by intros l1 t l1' (?&_&?)%get_inv).
  unfold Equation. intros H. apply bindM_ok_inv in H as (i&l1&E1&H).
  unfold vars_at in E1. destruct (vars_ !! name); [|done]. injection E1 as _ <-.
  apply bindM_ok_inv in H as (u&l2&E2&H). apply HN in E2.
  apply bindM_ok_inv in H as (t&l3&E3&H). apply HG in E3 as ->.
  apply bindM_ok_inv in H as (op&l4&E4&H).
  assert (l4 `suffix_of` l2) as E4'.
  { destruct t; try (by injection E4 as _ <-). case_decide; [done|].
    apply bindM_ok_inv in E4 as (u'&l5&E5&E6). injection E6 as _ <-. by eapply HN. }
  apply bindM_ok_inv in H as (t'&l5&E5&H). apply HG in E5 as ->. case_decide; [done|].
  apply bindM_ok_inv in H as (u'&l6&E6&H). apply HN in E6. injection H as _ <-.
  by do 2 (etrans; [done|]).
Qed.

Lemma assignment_settled name line l program :
  line ∈ program → l `suffix_of` line → ends_nl l → hd kNewLine l ≠ kNewLine →
  settled (overflowing program) (λ m, shape m (n + 1) (n + 1)) (runO (Assignment vars_ name) l).
Proof using Hvars.
  intros Hin Hsuf Hl Hhd. unfold runO, Assignment.
  pose proof (equation_safe vars_ Hvars name l Hl Hhd) as He. unfold bindM.
  destruct (Equation vars_ name l) as [[[x op]|[]] l1] eqn:E1; try done. destruct He as [Hx Hl1].
  cbn in Hx. pose proof (parse_sum_safe vars_ Hvars l1 Hl1) as Hp.
  destruct (ParseSum vars_ l1) as [[e|[]] l2] eqn:E2; try done. destruct Hp as (He&Hl2&_).
  unfold liftO. pose proof (evaluate_settled n e) as Hev.
  destruct (Evaluate n e) as [cs|[]] eqn:Ev; try done.
  2: { cbn. exists line, l1, e, l2. split_and!; [done| |done|done].
       etrans; [|done]. by eapply equation_suffix. }
  destruct (linear_ok n (λ _, 1%Z) eq_refl e cs Ev) as [Hlen _].
  destruct (transform_init_ok vars_ cs x Hx Hlen) as (m0&->&Hm0).
  destruct l2 as [|t l2]; [done|]. cbn. case_decide; [done|]. cbn.
  by eapply settled_impl; [eapply transform_op_settled; [exact Hx|exact Hm0]|..].
Qed.

Lemma count_tabs_full l k :
  ends_nl l → ∃ tabs l', CountTabs_loop l k = Ok (tabs, l') ∧ ends_nl l' ∧ l' `suffix_of` l ∧
    ∃ t rest, l' = t :: rest ∧ t ≠ kTab.
Proof.
  revert k. induction l as [|t l IH]; intros k Hl; [done|].
  destruct t; try (eexists _, _; split_and!; [done|done|done|by eexists _, _]).
  destruct (IH (S k)) as (tabs&l'&H1&H2&H3&H4); [by eapply ends_nl_next|].
  exists tabs, l'. split_and!; [done|done|by apply suffix_cons_r|done].
Qed.

Lemma for_head_safe l : ends_nl l → hd kNewLine l ≠ kNewLine → tame (λ _ _, True) (ForHead l).
Proof.
  intros Hl Hhd. destruct l as [|t l]; [done|]. unfold ForHead.
  eapply tame_bind; [by apply tame_next|]. intros _ ? [-> Hl1].
  eapply tame_bind; [by apply tame_get|]. intros t1 ? [-> [l2 ->]].
  destruct t1 as [x| | | | | | | |]; try done.
  eapply tame_bind; [by apply tame_next|]. intros _ ? [-> Hl2].
  eapply tame_bind; [by apply tame_get|]. intros t3 ? [-> _]. by case_decide.
Qed.

Lemma subprogram_ok depth program :
  Forall ends_nl program → ∃ y, Subprogram depth program = Ok y.
Proof.
  induction 1 as [|l p Hl Hp IH]; cbn; [by eexists|].
  destruct (count_tabs_full l 0 Hl) as (tabs&l'&H1&_). unfold CountTabs. rewrite H1. cbn.
  case_decide; [by eexists|]. destruct IH as [y ->]. by eexists.
Qed.

Lemma overflowing_mono p q : p ⊆ q → overflowing p → overflowing q.
Proof. intros Hpq (line&l&e&l'&?&?). exists line, l, e, l'. split; [by apply Hpq|done]. Qed.

Lemma calculate_settled fuel depth res program :
  Forall full_line program → length program ≤ fuel → shape res (n + 1) (n + 1) →
  settled (overflowing program) (λ m, shape m (n + 1) (n + 1))
    (Calculate_loop vars_ fuel depth res program).
Proof using Hvars.
  revert depth res program. induction fuel as [|fuel IH]; intros depth res program Hp Hf Hres.
  { destruct program; [done|cbn in Hf; lia]. }
  destruct program as [|it rest]; [done|]. apply Forall_cons in Hp as [Hit Hrest].
  cbn [length] in Hf. cbn [Calculate_loop].
  assert (∀ l, full_line l → ends_nl l) as Hends.
  { intros l (body&->&_). unfold ends_nl. by rewrite last_snoc. }
  destruct (count_tabs_full it 0 (Hends _ Hit)) as (tabs&line&H1&Hline&Hsuf&t&line'&->&Hnt).
  unfold CountTabs. rewrite H1. cbn [bindO]. case_decide; [done|]. cbn [runO Get getM fst].
  assert (∀ res', shape res' (n + 1) (n + 1) → settled (overflowing (it :: rest))
    (λ m, shape m (n + 1) (n + 1)) (Calculate_loop vars_ fuel depth res' rest)) as Hgo.
  { intros res' Hres'. eapply settled_impl; [apply IH; [done|lia|done]| |done].
    apply overflowing_mono. intros l Hl. by constructor. }
  assert (∀ m, shape m (n + 1) (n + 1) → settled (overflowing (it :: rest))
    (λ m, shape m (n + 1) (n + 1)) (mul_assign res m)) as Hmul.
  { intros m Hm. destruct (mul_square res m (n + 1) Hres Hm) as (c&Hc&Hsc&_).
    by eapply settled_ok. }
  change (runO Get (t :: line')) with (Ok t). cbn [bindO].
  destruct t as [x|c|name| | | | | |]; try done.
  - eapply settled_bind; [eapply assignment_settled; [by constructor|exact Hsuf|done|done]|].
    intros m Hm. eapply settled_bind; [by apply Hmul|]. done.
  - eapply settled_bind; [apply (settled_runO _ _ _ _ (for_head_safe _ Hline ltac:(done)))|].
    intros k (l'&Hk&_).
    destruct (subprogram_ok depth rest) as [[sub rest'] Hsub].
    { eapply Forall_impl; [exact Hrest|exact Hends]. }
    rewrite Hsub. cbn [bindO]. case_decide; [done|].
    destruct (identity_ok (n + 1)) as (id&->&Hid&_). cbn [bindO].
    pose proof (subprogram_split _ _ _ _ Hsub) as ->. apply Forall_app in Hrest as [Hs Hr].
    rewrite length_app in Hf.
    eapply settled_bind.
    { eapply settled_impl; [apply (IH (depth + 1) id sub); [done|lia|done]| |intros m Hm; exact Hm].
      apply overflowing_mono. intros l Hl. constructor. apply elem_of_app. by left. }
    intros body Hbody. assert (0 <= k < 2 ^ 64)%Z as Hk64.
    { eapply for_head_ok; [|unfold runO; by rewrite Hk].
      apply full_line_ok in Hit. destruct Hsuf as [pre ->]. by apply Forall_app in Hit as [_ ?]. }
    destruct (pow_ok (n + 1) k body Hbody Hk64) as (power&->&Hpow&_). cbn [bindO].
    eapply settled_bind; [by apply Hmul|]. intros res' Hres'.
    eapply settled_impl; [apply IH; [done|lia|done]| |done]. apply overflowing_mono.
    intros l Hl. constructor. apply elem_of_app. by right.
  - by apply Hgo.
Qed.
End Settled.

(** ** The result of [Run] *)

Lemma run_ok program result :
  Run program = Ok result →
  ∃ lines ss, Tokenize program = Ok lines ∧
    parse_program (GatherVars lines) (length lines) 0 lines = Ok ss ∧
    (∀ name, result !! name =
       run_stmts ss (initial_env (size (GatherVars lines))) <$> GatherVars lines !! name).
Proof.
  intros H. unfold Run in H. destruct (tokenize_ok program) as (lines&Hlines&Hfull).
  rewrite Hlines in H. cbn [bindO] in H. set (vars := GatherVars lines) in *.
  set (k := size vars) in *. exists lines.
  pose proof (gather_vars_numbered lines) as Hvars. fold vars in Hvars.
  destruct (initial_vec_ok k) as (v&Hv&Hsv&Hev). rewrite Hv in H. cbn [bindO] in H.
  apply bindO_inv in H as (m&Hm&H). unfold CalculateTransformMatrix in Hm.
  apply bindO_inv in Hm as (id&Hid&Hm).
  destruct (calculate_acts vars Hvars _ _ _ _ _ _ (Forall_impl _ _ _ Hfull full_line_ok)
    (acts_identity vars id Hid) Hm) as (ss&Hss&[Hsm Hact]).
  exists ss. split_and!; [done..|].
  apply bindO_inv in H as (res&Hres&H). apply bindO_inv in H as (values&Hvals&H). injection H as <-.
  destruct (mul_ok v m 1 (k + 1) (k + 1) Hsv Hsm) as (res'&Hres'&Hsr&_&Her).
  rewrite Hres in Hres'. injection Hres' as <-.
  assert (∀ i, i < k → entry res 0 i = run_stmts ss (initial_env k) i) as Hentry.
  { intros i Hi. rewrite Her by lia.
    assert (initial_env k k = 1%Z) as H1 by (unfold initial_env; by rewrite decide_True).
    destruct (Hact (initial_env k) H1) as [Ha _].
    apply (eqm_small 64); [apply uwrap_range; lia|apply run_stmts_ranged|].
    { intros j. unfold initial_env. case_decide; lia. }
    rewrite <- (Ha i) by lia. unfold act. rewrite !eqm_uwrap. apply big_sum_eqm. intros z _.
    by rewrite Hev. }
  rewrite (mapO_ok _ (λ '(var, index), (var, run_stmts ss (initial_env k) index))) in Hvals.
  2: { intros [name i] Hni%elem_of_map_to_list. assert (i < k) by by eapply Hvars.
       rewrite (get_ok res 1 (k + 1)) by (done || lia). cbn. by rewrite Hentry. }
  injection Hvals as <-. intros name.
  assert (∀ (f : nat → Z) (l : list (bytes * nat)),
    (λ '(var, index), (var, f index)) <$> l = prod_map (λ x, x) f <$> l) as Hfmap.
  { intros f l. apply list_fmap_ext. by intros i [? ?] _. }
  rewrite Hfmap, list_to_map_fmap, list_to_map_to_list, lookup_fmap. done.
Qed.

(** ** Properties *)

(** C12 The interpreter is correct: when [Run] returns, the tokens of the program are
    the tokens of a sequence of statements, and each variable of the result has
    the value that executing these statements one by one, loops included, from
    variables that are all zero, gives modulo 2^64. *)
Theorem run_correct (program : bytes) (result : gmap bytes Z) :
  Run program = Ok result →
  ∃ lines ss, Tokenize program = Ok lines ∧
    parse_program (GatherVars lines) (length lines) 0 lines = Ok ss ∧
    (∀ name, result !! name =
       run_stmts ss (initial_env (size (GatherVars lines))) <$> GatherVars lines !! name).
Proof. apply run_ok. Qed.

(** The lines of a program, joined. *)
Definition text (lines : list string) : bytes := concat ((λ l, str l ++ [ch_lf]) <$> lines).

Definition demo : bytes :=
  text ["A = 1"; "B = 1"; "for 3"; "    C = A"; "    C += B"; "    A = B"; "    B = C"].

Lemma run_correct_witness :
  ∃ lines ss, Tokenize demo = Ok lines ∧
    parse_program (GatherVars lines) (length lines) 0 lines = Ok ss ∧
    run_stmts ss (initial_env 3) 1 = 5%Z.
Proof.
  destruct (run_correct demo
    (match Run demo with Ok r => r | Fail _ => ∅ end)) as (lines&ss&H1&H2&H3).
  - vm_compute. reflexivity.
  - exists lines, ss. split; [exact H1|]. split; [exact H2|].
    vm_compute in H1. injection H1 as <-. vm_compute in H2. injection H2 as <-.
    vm_compute. reflexivity.
Defined.

(** [Run] always ends and reports every error by an exception: whatever the
    text, tokenizing, parsing and interpreting return or throw, never read past
    the end of a line or outside of a matrix, and need no more fuel than given;
    the one exception is an expression of the program whose signed coefficients
    overflow. *)
Theorem run_settled (program : bytes) :
  settled
    (∃ lines, Tokenize program = Ok lines ∧ overflowing (GatherVars lines) lines)
    (λ _, True) (Run program).
Proof.
  unfold Run. destruct (tokenize_ok program) as (lines&Hlines&Hfull). rewrite Hlines. cbn [bindO].
  set (vars := GatherVars lines). pose proof (gather_vars_numbered lines) as Hvars. fold vars in Hvars.
  destruct (initial_vec_ok (size vars)) as (v&->&Hsv&_). cbn [bindO].
  eapply (settled_bind _ (λ m, shape m (size vars + 1) (size vars + 1))).
  - unfold CalculateTransformMatrix. destruct (identity_ok (size vars + 1)) as (id&->&Hid&_).
    cbn [bindO]. eapply settled_impl; [by apply calculate_settled| |done].
    intros Ho. by exists lines.
  - intros m Hm. destruct (mul_ok v m 1 _ _ Hsv Hm) as (res&->&Hsr&_). cbn [bindO].
    rewrite (mapO_ok _ (λ '(var, index), (var, entry res 0 index))); [done|].
    intros [name i] Hni%elem_of_map_to_list. apply Hvars in Hni.
    by rewrite (get_ok res 1 (size vars + 1)) by (done || lia).
Qed.

(** An expression is linear in the sense of the program: when [Evaluate] returns
    coefficients, their combination with the values of the variables is the value
    of the expression modulo 2^64, for all values of the variables. *)
Theorem evaluate_linear (n : nat) (env : nat → Z) (e : Expression) (coeffs : list Z) :
  env n = 1%Z → Evaluate n e = Ok coeffs →
  length coeffs = n + 1 ∧ eqm 64 (value env e) (linear n coeffs env).
Proof. intros Henv. by apply linear_ok. Qed.

Lemma evaluate_linear_witness :
  eqm 64 (value (λ _, 1%Z) (Sum_two (Constant_var 0) "-"%char (Constant_number 7)))
    (linear 1 [1; -7]%Z (λ _, 1%Z)).
Proof.
  destruct (evaluate_linear 1 (λ _, 1%Z) (Sum_two (Constant_var 0) "-"%char (Constant_number 7))
    [1; -7]%Z) as [_ H].
  - reflexivity.
  - reflexivity.
  - exact H.
Defined.

(** Finding: coefficients are signed, so a sum that is well defined modulo 2^64
    overflows. *)
Theorem expression_overflow :
  Run (text ["A = 9223372036854775807 + 1"]) = Fail UB ∧
  value (λ _, 0%Z) (Sum_two (Constant_number 9223372036854775807) "+"%char (Constant_number 1))
  = (2 ^ 63)%Z.
Proof. split; vm_compute; reflexivity. Qed.

(** Finding: a missing operand counts as zero, so programs that are not well
    formed are accepted. *)
Theorem missing_operand_accepted :
  Run (text ["A ="]) = Run (text ["A = 0"]) ∧
  Run (text ["A = 5 +"]) = Run (text ["A = 5"]) ∧
  ∃ r, Run (text ["A = 5"]) = Ok r ∧ r !! str "A" = Some 5%Z.
Proof.
  split_and!; [vm_compute; reflexivity..|].
  exists {[ str "A" := 5%Z ]}. split; vm_compute; reflexivity.
Qed.
