(* ===== verification/HashTable.v ===== *)
(** * ConcurrentHashMap (hash-table/concurrent_hash_map.h)

    The table is a vector of lists, each sorted by key; the lock that guards a
    key is chosen by its hash modulo the number of mutexes, which does not change
    when the table grows.  Here the operations are functions on the table, called one after
    the other, and the table is shown to implement a finite map; the mutexes and the threads
    are in [HashLocks].  The [int] arithmetic of the constructor is unbounded: hints for
    which it overflows are left out. *)

From S2P Require Import Prelude.

(** What the table uses of the order of its keys: [operator>=]. *)
Class KeyOrder (K : Type) := {
  geb : K → K → bool;
  geb_refl : ∀ a, geb a a = true;
  geb_trans : ∀ a b c, geb a b = true → geb b c = true → geb a c = true;
  geb_antisym : ∀ a b, geb a b = true → geb b a = true → a = b;
  geb_total : ∀ a b, geb a b = true ∨ geb b a = true
}.

#[global] Instance key_order_Z : KeyOrder Z.
Proof. refine {| geb a b := (b <=? a)%Z |}; intros; lia. Defined.

Definition kLoadFactor : nat := 2.
Definition kUndefinedSize : Z := (-1)%Z.

Module ConcurrentHashMap.
Section ConcurrentHashMap.
Context {K V : Type} `{Countable K, !KeyOrder K} (hasher_ : K → nat).

(** [mutexes_] is known by its size here; [is_rehashing_] is the atomic flag. *)
Record t : Type := mk {
  table_ : list (list (K * V));
  mutexes_ : nat;
  size_ : nat;
  is_rehashing_ : bool
}.

(** The constructor; [int] division rounds toward zero. *)
Definition make (expected_size expected_threads_count : Z) : t :=
  let lists_cnt :=
    if decide (expected_size ≠ kUndefinedSize)
    then ((Z.quot ((Z.quot (expected_size - 1) 2 + 1) - 1) expected_threads_count + 1)
          * expected_threads_count)%Z
    else (4 * expected_threads_count)%Z in
  mk (replicate (Z.to_nat lists_cnt) []) (Z.to_nat lists_cnt) 0 false.

(** [FindPosInList]: the index of the first element whose key is not smaller. *)
Fixpoint FindPosInList (list : list (K * V)) (key : K) : nat :=
  match list with
  | [] => 0
  | it :: rest => if geb it.1 key then 0 else S (FindPosInList rest key)
  end.

Definition lists_at (table : list (list (K * V))) (list_idx : nat) : list (K * V) :=
  default [] (table !! list_idx).

Definition InsertIntoList (table : list (list (K * V))) (list_idx : nat) (elem : K * V)
    : bool * list (list (K * V)) :=
  let list := lists_at table list_idx in
  let pos := FindPosInList list elem.1 in
  if decide (fst <$> list !! pos = Some elem.1) then (false, table)
  else (true, <[list_idx := take pos list ++ elem :: drop pos list]> table).

Definition EraseFromList (table : list (list (K * V))) (list_idx : nat) (key : K)
    : bool * list (list (K * V)) :=
  let list := lists_at table list_idx in
  let pos := FindPosInList list key in
  if decide (fst <$> list !! pos = Some key)
  then (true, <[list_idx := take pos list ++ drop (S pos) list]> table)
  else (false, table).

(** The inner loop of [Rehash] on the list [list_idx], which is [kept] followed by
    the elements still to be visited. *)
Fixpoint Rehash_list (list_idx : nat) (kept rest : list (K * V)) (table : list (list (K * V)))
    : list (list (K * V)) :=
  match rest with
  | [] => table
  | elem :: rest =>
      let new_list_idx := hasher_ elem.1 `mod` length table in
      if decide (new_list_idx ≠ list_idx)
      then
        let table := (InsertIntoList table new_list_idx elem).2 in
        Rehash_list list_idx kept rest (<[list_idx := kept ++ rest]> table)
      else Rehash_list list_idx (kept ++ [elem]) rest table
  end.

Definition Rehash (this : t) : t :=
  let table := resize [] (length (table_ this) * 2) (table_ this) in
  let table := foldl (λ table list_idx, Rehash_list list_idx [] (lists_at table list_idx) table)
    table (seq 0 (length table)) in
  mk table (mutexes_ this) (size_ this) (is_rehashing_ this).

Definition list_of (this : t) (key : K) : nat := hasher_ key `mod` length (table_ this).
Definition mutex_of (this : t) (key : K) : nat := hasher_ key `mod` mutexes_ this.

(** The critical section of [Insert]: the result and whether to rehash. *)
Definition Insert_locked (key : K) (value : V) (this : t) : (bool * bool) * t :=
  let '(res, table) := InsertIntoList (table_ this) (list_of this key) (key, value) in
  let size := if res then S (size_ this) else size_ this in
  ((res, bool_decide (kLoadFactor < size / length table)),
   mk table (mutexes_ this) size (is_rehashing_ this)).

(** [is_rehashing_.test_and_set()] and [clear()]. *)
Definition test_and_set (this : t) : bool * t :=
  (is_rehashing_ this, mk (table_ this) (mutexes_ this) (size_ this) true).
Definition clear_flag (this : t) : t := mk (table_ this) (mutexes_ this) (size_ this) false.

(** [Insert] without other threads. *)
Definition Insert (key : K) (value : V) (this : t) : bool * t :=
  let '((res, need_rehash), this) := Insert_locked key value this in
  if need_rehash then
    let '(was_set, this) := test_and_set this in
    (res, if was_set then this else clear_flag (Rehash this))
  else (res, this).

Definition Erase (key : K) (this : t) : bool * t :=
  let '(res, table) := EraseFromList (table_ this) (list_of this key) key in
  (res, mk table (mutexes_ this) (if res then pred (size_ this) else size_ this)
          (is_rehashing_ this)).

Definition Clear (this : t) : t :=
  mk ((λ _, []) <$> table_ this) (mutexes_ this) 0 (is_rehashing_ this).

Definition Find (key : K) (this : t) : option V :=
  let list := lists_at (table_ this) (list_of this key) in
  match list !! FindPosInList list key with
  | Some (k, v) => if decide (k = key) then Some v else None
  | None => None
  end.

Definition At (key : K) (this : t) : outcome V :=
  match Find key this with
  | Some v => Ok v
  | None => Fail (Exn (OutOfRange "WTF"))
  end.

Definition Size (this : t) : nat := size_ this.

(** ** Sorted lists *)

Definition gtb (a b : K) : Prop := geb a b = true ∧ a ≠ b.
Definition sorted (l : list (K * V)) : Prop := StronglySorted (λ a b, gtb b.1 a.1) l.

(** The value of a key in a list. *)
Definition assoc (l : list (K * V)) (key : K) : option V := (list_to_map l : gmap K V) !! key.

Lemma geb_false a b : geb a b = false → gtb b a.
Proof.
  intros Hab. destruct (geb_total a b) as [?|Hba]; [congruence|]. split; [done|].
  intros ->. by rewrite geb_refl in Hab.
Qed.

Lemma gtb_trans a b c : gtb a b → gtb b c → gtb a c.
Proof.
  intros [Hab ?] [Hbc Hne]. split; [by eapply geb_trans|]. intros ->.
  apply Hne. by apply geb_antisym.
Qed.

(** The position splits a sorted list into smaller keys and keys not smaller. *)
Lemma find_pos_split l key :
  sorted l →
  let pos := FindPosInList l key in
  Forall (λ e, gtb key e.1) (take pos l) ∧ Forall (λ e, geb e.1 key = true) (drop pos l).
Proof.
  induction 1 as [|e l Hl IH He]; cbn; [done|]. destruct (geb e.1 key) eqn:E; cbn.
  - split; [done|]. constructor; [done|]. eapply Forall_impl; [exact He|].
    intros e' [Hge _]. cbn in *. by eapply geb_trans.
  - destruct IH as [IH1 IH2]. split; [|done]. constructor; [|done]. by apply geb_false.
Qed.

Lemma not_in_smaller l key : Forall (λ e : K * V, gtb key e.1) l → key ∉ l.*1.
Proof.
  intros Hl Hin. apply list_elem_of_fmap in Hin as (e&->&He). rewrite Forall_forall in Hl.
  by destruct (Hl e He).
Qed.

Lemma sorted_NoDup l : sorted l → NoDup l.*1.
Proof.
  induction 1 as [|e l Hl IH He]; cbn; constructor; [|done].
  intros Hin. apply list_elem_of_fmap in Hin as (e'&Heq&He'). rewrite Forall_forall in He.
  destruct (He e' He') as [_ Hne]. by apply Hne.
Qed.

(** What the element at the position tells about the key. *)
Lemma find_pos_assoc l key :
  sorted l →
  assoc l key = match l !! FindPosInList l key with
                | Some (k, v) => if decide (k = key) then Some v else None
                | None => None
                end.
Proof.
  unfold assoc. induction 1 as [|e l Hl IH He]; cbn; [done|]. destruct e as [k v]. cbn.
  destruct (geb k key) eqn:E; cbn.
  - case_decide as Hk; [subst; by rewrite lookup_insert_eq|].
    rewrite lookup_insert_ne by done. apply not_elem_of_list_to_map_1.
    intros Hin. apply list_elem_of_fmap in Hin as ([k' v']&->&He'). rewrite Forall_forall in He.
    destruct (He _ He') as [Hge Hne]. cbn in *. apply Hk. by apply geb_antisym.
  - rewrite lookup_insert_ne; [done|]. intros ->. by rewrite geb_refl in E.
Qed.

Lemma found_assoc l key :
  sorted l → fst <$> l !! FindPosInList l key = Some key ↔ is_Some (assoc l key).
Proof.
  intros Hl. rewrite find_pos_assoc by done. destruct (l !! _) as [[k v]|]; cbn.
  - case_decide as Hk.
    + subst k. split; [by eexists|done].
    + split; [by intros [= ?]|by intros [? ?]].
  - split; [done|by intros []].
Qed.

Lemma sorted_app l1 l2 :
  sorted l1 → sorted l2 → (∀ a b, a ∈ l1 → b ∈ l2 → gtb b.1 a.1) → sorted (l1 ++ l2).
Proof.
  induction 1 as [|e l Hl IH He]; intros Hl2 H12; cbn; [done|]. constructor.
  - apply IH; [done|]. intros a b Ha Hb. apply H12; [by constructor|done].
  - apply Forall_app. split; [done|]. apply Forall_forall. intros b Hb. apply H12; [constructor|done].
Qed.

Lemma sorted_take n l : sorted l → sorted (take n l).
Proof.
  intros Hl. revert n. induction Hl as [|e l Hl IH He]; intros [|n]; cbn; [constructor..|].
  constructor; [apply IH|by apply Forall_take].
Qed.

Lemma sorted_drop n l : sorted l → sorted (drop n l).
Proof.
  intros Hl. revert n. induction Hl as [|e l Hl IH He]; intros [|n]; cbn;
    [constructor|constructor|by constructor|apply IH].
Qed.

Lemma insert_sorted_list l key v :
  sorted l → assoc l key = None →
  let l' := take (FindPosInList l key) l ++ (key, v) :: drop (FindPosInList l key) l in
  sorted l' ∧ l' ≡ₚ (key, v) :: l.
Proof.
  intros Hl Hn. destruct (find_pos_split l key Hl) as [Hsm Hbig]. split.
  - assert (Forall (λ e, gtb e.1 key) (drop (FindPosInList l key) l)) as Hgt.
    { apply Forall_forall. intros [k w] He. rewrite Forall_forall in Hbig. split; [by apply Hbig|].
      intros Hk. cbn in Hk. subst k.
      unfold assoc in Hn. apply not_elem_of_list_to_map_2 in Hn. apply Hn.
      apply list_elem_of_fmap. exists (key, w). split; [done|]. rewrite <- (take_drop (FindPosInList l key) l).
      apply elem_of_app. by right. }
    apply sorted_app; [by apply sorted_take| |].
    + constructor; [by apply sorted_drop|done].
    + intros a b Ha Hb. rewrite Forall_forall in Hsm, Hgt. apply elem_of_cons in Hb as [->|Hb]; cbn.
      * by apply Hsm.
      * eapply gtb_trans; [by apply Hgt|by apply Hsm].
  - rewrite <- Permutation_middle. by rewrite take_drop.
Qed.

Lemma erase_sorted_list l key v :
  sorted l → l !! FindPosInList l key = Some (key, v) →
  let l' := take (FindPosInList l key) l ++ drop (S (FindPosInList l key)) l in
  sorted l' ∧ l ≡ₚ (key, v) :: l'.
Proof.
  intros Hl Hpos. set (pos := FindPosInList l key) in *. split.
  - rewrite <- (take_drop_middle l pos (key, v) Hpos) in Hl. clear Hpos.
    assert (∀ (a b : list (K * V)) e, sorted (a ++ e :: b) → sorted (a ++ b)) as Hrem.
    { induction a as [|x a IH]; intros b e Hs; cbn in *; inversion Hs as [|?? Hs' Hf]; subst; [done|].
      constructor; [by eapply IH|]. apply Forall_app in Hf as [? Hf]. apply Forall_app.
      split; [done|]. by inversion Hf. }
    by eapply Hrem.
  - rewrite <- (take_drop_middle l pos (key, v) Hpos) at 1. by rewrite <- Permutation_middle.
Qed.

(** ** Tables *)

(** Every list is sorted and holds the keys whose hash it is the list of. *)
Definition placed (table : list (list (K * V))) : Prop :=
  ∀ i l, table !! i = Some l →
    sorted l ∧ ∀ e, e ∈ l → hasher_ e.1 `mod` length table = i.

Definition contents (table : list (list (K * V))) : gmap K V := list_to_map (concat table).

Lemma lists_at_lookup table i l : table !! i = Some l → lists_at table i = l.
Proof. unfold lists_at. by intros ->. Qed.

Lemma list_idx_lookup (table : list (list (K * V))) key :
  0 < length table → ∃ l, table !! (hasher_ key `mod` length table) = Some l.
Proof.
  intros Hn. apply lookup_lt_is_Some_2. apply Nat.mod_upper_bound. lia.
Qed.

Lemma contents_lookup_offset (h : K → nat) table off key :
  (∀ i l, table !! i = Some l → ∀ e, e ∈ l → h e.1 = off + i) →
  contents table !! key =
    if decide (off ≤ h key) then assoc (lists_at table (h key - off)) key else None.
Proof.
  unfold contents. revert off. induction table as [|l table IH]; intros off Hp.
  { cbn. unfold lists_at, assoc. rewrite lookup_nil. cbn. rewrite lookup_empty.
    by case_decide. }
  cbn [concat]. rewrite list_to_map_app, lookup_union. rewrite (IH (S off)).
  2: { intros i l' Hi e He. rewrite (Hp (S i) l' Hi e He). lia. }
  change (list_to_map l !! key) with (assoc l key).
  destruct (decide (off = h key)) as [->|Hne].
  - rewrite (decide_False (P := S (h key) ≤ h key)) by lia. rewrite decide_True by lia.
    rewrite Nat.sub_diag. change (lists_at (l :: table) 0) with l. by destruct (assoc l key).
  - assert (assoc l key = None) as ->.
    { apply not_elem_of_list_to_map_1. intros Hin.
      apply list_elem_of_fmap in Hin as (e&->&He). apply Hne. rewrite (Hp 0 l eq_refl e He). lia. }
    rewrite (left_id_L None (∪)). destruct (decide (off ≤ h key)).
    + rewrite decide_True by lia. replace (h key - off) with (S (h key - S off)) by lia. done.
    + by rewrite decide_False by lia.
Qed.

Lemma contents_lookup table key :
  placed table →
  contents table !! key = assoc (lists_at table (hasher_ key `mod` length table)) key.
Proof.
  intros Hp. rewrite (contents_lookup_offset (λ k, hasher_ k `mod` length table) table 0).
  - rewrite decide_True by lia. by rewrite Nat.sub_0_r.
  - intros i l Hi e He. by apply (Hp i l Hi).
Qed.

Lemma concat_grow (table : list (list (K * V))) i l l' e :
  table !! i = Some l → l' ≡ₚ e :: l → concat (<[i := l']> table) ≡ₚ e :: concat table.
Proof.
  revert i. induction table as [|x table IH]; intros [|i] Hi Hl; try done; cbn in *.
  - injection Hi as ->. by rewrite Hl.
  - rewrite (IH i Hi Hl). by rewrite Permutation_middle.
Qed.

Lemma concat_shrink (table : list (list (K * V))) i l l' e :
  table !! i = Some l → l ≡ₚ e :: l' → concat table ≡ₚ e :: concat (<[i := l']> table).
Proof.
  revert i. induction table as [|x table IH]; intros [|i] Hi Hl; try done; cbn in *.
  - injection Hi as ->. by rewrite Hl.
  - rewrite (IH i Hi Hl). by rewrite Permutation_middle.
Qed.

Lemma placed_insert table i l' :
  placed table → sorted l' → (∀ e, e ∈ l' → hasher_ e.1 `mod` length table = i) →
  placed (<[i := l']> table).
Proof.
  intros Hp Hs Hh j l Hj. rewrite length_insert.
  apply list_lookup_insert_Some in Hj as [(<-&<-&_)|[_ Hj]]; [done|by apply Hp].
Qed.

Lemma assoc_perm (l l' : list (K * V)) key :
  sorted l → sorted l' → l ≡ₚ l' → assoc l key = assoc l' key.
Proof.
  intros Hl Hl' Hp. unfold assoc. f_equal. apply list_to_map_proper; [by apply sorted_NoDup|done].
Qed.

(** Inserting into and erasing from the list of a key. *)
Lemma insert_into_list_ok table key v :
  placed table → 0 < length table →
  let '(res, table') := InsertIntoList table (hasher_ key `mod` length table) (key, v) in
  placed table' ∧ length table' = length table ∧
  match contents table !! key with
  | Some _ => res = false ∧ table' = table
  | None => res = true ∧ contents table' = <[key := v]> (contents table) ∧
            concat table' ≡ₚ (key, v) :: concat table
  end.
Proof.
  intros Hp Hn. set (i := hasher_ key `mod` length table).
  destruct (list_idx_lookup table key Hn) as [l Hl]. fold i in Hl.
  destruct (Hp i l Hl) as [Hs Hh]. rewrite contents_lookup by done. fold i.
  unfold InsertIntoList. rewrite (lists_at_lookup _ _ _ Hl). cbn [fst].
  case_decide as Hf; apply (found_assoc l key Hs) in Hf || rewrite (found_assoc l key Hs) in Hf.
  - destruct Hf as [w ->]. done.
  - apply eq_None_not_Some in Hf. rewrite Hf.
    destruct (insert_sorted_list l key v Hs Hf) as [Hs' Hperm].
    set (l' := take _ l ++ _) in *.
    assert (placed (<[i := l']> table)) as Hp'.
    { apply placed_insert; [done..|]. intros e. rewrite Hperm, elem_of_cons.
      intros [->|He]; [done|by apply Hh]. }
    rewrite length_insert. split_and!; [done..| |by eapply concat_grow].
    apply map_eq. intros k. rewrite contents_lookup by done. rewrite length_insert.
    destruct (decide (hasher_ k `mod` length table = i)) as [Hk|Hk].
    + rewrite Hk. rewrite (lists_at_lookup _ i l') by (apply list_lookup_insert_eq; by eapply lookup_lt_Some).
      unfold assoc. rewrite (list_to_map_proper l' ((key, v) :: l)) by (by apply sorted_NoDup || done).
      cbn. destruct (decide (k = key)) as [->|Hne].
      * by rewrite !lookup_insert_eq.
      * rewrite !lookup_insert_ne by done. rewrite contents_lookup by done. rewrite Hk.
        by rewrite (lists_at_lookup _ _ _ Hl).
    + unfold lists_at. rewrite list_lookup_insert_ne by done.
      rewrite lookup_insert_ne by (by intros ->). by rewrite contents_lookup.
Qed.

Lemma erase_from_list_ok table key :
  placed table → 0 < length table →
  let '(res, table') := EraseFromList table (hasher_ key `mod` length table) key in
  placed table' ∧ length table' = length table ∧
  match contents table !! key with
  | Some v => res = true ∧ contents table' = delete key (contents table) ∧
              concat table ≡ₚ (key, v) :: concat table'
  | None => res = false ∧ table' = table
  end.
Proof.
  intros Hp Hn. set (i := hasher_ key `mod` length table).
  destruct (list_idx_lookup table key Hn) as [l Hl]. fold i in Hl.
  destruct (Hp i l Hl) as [Hs Hh]. rewrite contents_lookup by done. fold i.
  unfold EraseFromList. rewrite (lists_at_lookup _ _ _ Hl). rewrite find_pos_assoc by done.
  destruct (l !! FindPosInList l key) as [[k v]|] eqn:Hpos; cbn.
  2: { by rewrite decide_False. }
  destruct (decide (k = key)) as [->|Hne].
  2: { rewrite decide_False; [done|]. by intros [= ->]. }
  rewrite decide_True by done. destruct (erase_sorted_list l key v Hs Hpos) as [Hs' Hperm].
  set (l' := take _ l ++ _) in *.
  assert (placed (<[i := l']> table)) as Hp'.
  { apply placed_insert; [done..|]. intros e He. apply Hh. rewrite Hperm. by constructor. }
  rewrite length_insert. split_and!; [done..| |by eapply concat_shrink].
  apply map_eq. intros k. rewrite contents_lookup by done. rewrite length_insert.
  destruct (decide (hasher_ k `mod` length table = i)) as [Hk|Hk].
  - rewrite Hk. rewrite (lists_at_lookup _ i l') by (apply list_lookup_insert_eq; by eapply lookup_lt_Some).
    pose proof (sorted_NoDup _ Hs) as Hnd. pose proof Hnd as Hnd'. rewrite Hperm in Hnd'.
    apply NoDup_cons in Hnd' as [Hnk _].
    destruct (decide (k = key)) as [->|Hne].
    + rewrite lookup_delete_eq. by apply not_elem_of_list_to_map_1.
    + rewrite lookup_delete_ne by done. rewrite contents_lookup by done. rewrite Hk.
      rewrite (lists_at_lookup _ _ _ Hl). unfold assoc.
      rewrite (list_to_map_proper l ((key, v) :: l')) by done. cbn. by rewrite lookup_insert_ne.
  - unfold lists_at. rewrite list_lookup_insert_ne by done.
    rewrite lookup_delete_ne by (by intros ->). by rewrite contents_lookup.
Qed.

(** ** Rehashing *)

Section Rehash.
Context (orig : list (list (K * V))) (N : nat).
Abbreviation target e := (hasher_ (fst e) `mod` N).

(** The elements are those of [orig], with distinct keys, in sorted lists; lists
    before [idx] hold what belongs there, later ones only what belongs there or
    further on. *)
Definition rehashing (idx : nat) (table : list (list (K * V))) : Prop :=
  length table = N ∧ concat table ≡ₚ concat orig ∧ NoDup (concat table).*1 ∧
  ∀ j l, table !! j = Some l → sorted l ∧
    ∀ e, e ∈ l → (j < idx → target e = j) ∧ (idx ≤ j → j ≤ target e).

Lemma assoc_elsewhere table i j l l' e :
  NoDup (concat table).*1 → i ≠ j → table !! i = Some l → table !! j = Some l' → e ∈ l →
  assoc l' e.1 = None.
Proof.
  intros Hnd Hij Hi Hj He. apply not_elem_of_list_to_map_1. intros He'.
  apply list_elem_of_fmap in He' as (e'&Heq&He').
  assert (∀ (tb : list (list (K * V))) i j l l', NoDup (concat tb).*1 → i < j →
    tb !! i = Some l → tb !! j = Some l' →
    ∀ e e', e ∈ l → e' ∈ l' → e.1 = e'.1 → False) as Hlt.
  { clear. induction tb as [|x tb IH];
      intros [|i] [|j] l l' Hnd Hlt Hi Hj e e' He He' Heq; try lia; try done.
    - cbn in Hi, Hj. injection Hi as ->. cbn in Hnd. rewrite fmap_app in Hnd.
      apply NoDup_app in Hnd as (_&Hdis&_). apply (Hdis e.1).
      + by apply list_elem_of_fmap_2.
      + rewrite Heq. apply list_elem_of_fmap_2, elem_of_concat. exists l'.
        split; [done|]. by eapply list_elem_of_lookup_2.
    - cbn in Hi, Hj, Hnd. rewrite fmap_app in Hnd. apply NoDup_app in Hnd as (_&_&Hnd).
      eapply (IH i j l l' Hnd ltac:(lia) Hi Hj e e'); done. }
  destruct (Nat.lt_total i j) as [?|[?|?]];
    [by eapply (Hlt table i j l l' Hnd ltac:(lia) Hi Hj e e')|done|].
  by eapply (Hlt table j i l' l Hnd ltac:(lia) Hj Hi e' e).
Qed.

(** The inner loop: [kept] stays in the list [idx], [rest] is to be visited. *)
Definition rehashing_list (idx : nat) (kept rest : list (K * V)) (table : list (list (K * V)))
    : Prop :=
  rehashing idx table ∧ table !! idx = Some (kept ++ rest) ∧ ∀ e, e ∈ kept → target e = idx.

Lemma move_element idx kept e rest table :
  rehashing_list idx kept (e :: rest) table → target e ≠ idx →
  rehashing_list idx kept rest
    (<[idx := kept ++ rest]> (InsertIntoList table (target e) e).2).
Proof.
  intros ((Hlen&Hperm&Hnd&Hp)&Hidx&Hkept) Hne.
  assert (idx < N) as HidxN by (rewrite <- Hlen; by eapply lookup_lt_Some).
  assert (target e < N) as HtN by (apply Nat.mod_upper_bound; lia).
  destruct (lookup_lt_is_Some_2 table (target e) ltac:(lia)) as [l Hl].
  destruct (Hp _ _ Hl) as [Hsl Htl]. destruct (Hp _ _ Hidx) as [Hsi Hti].
  assert (assoc l e.1 = None) as Hn.
  { eapply (assoc_elsewhere table idx (target e) (kept ++ e :: rest) l e); try done.
    apply elem_of_app. right. constructor. }
  unfold InsertIntoList. rewrite (lists_at_lookup _ _ _ Hl). destruct e as [key v]. cbn [fst] in *.
  rewrite decide_False.
  2: { rewrite found_assoc by done. rewrite Hn. by intros []. }
  cbn [snd]. destruct (insert_sorted_list l key v Hsl Hn) as [Hsl' Hpl'].
  set (l' := take _ l ++ _) in *. set (table1 := <[hasher_ key `mod` N := l']> table) in *.
  assert (table1 !! idx = Some (kept ++ (key, v) :: rest)) as Hidx1.
  { unfold table1. by rewrite list_lookup_insert_ne. }
  pose proof (concat_grow table _ l l' (key, v) Hl Hpl') as Hg. fold table1 in Hg.
  pose proof (concat_shrink table1 idx _ (kept ++ rest) (key, v) Hidx1
    ltac:(by rewrite <- Permutation_middle)) as Hs.
  assert (concat (<[idx := kept ++ rest]> table1) ≡ₚ concat table) as Hc.
  { apply (Permutation_cons_inv (a := (key, v))). by rewrite <- Hs, <- Hg. }
  assert (sorted (kept ++ rest)) as Hskr.
  { clear -Hsi. revert Hsi. induction kept as [|x kept IH]; intros Hsi; cbn in *;
      inversion Hsi as [|?? Hs' Hf]; subst; [done|]. constructor; [by apply IH|].
    apply Forall_app in Hf as [? Hf]. apply Forall_app. split; [done|]. by inversion Hf. }
  split_and!; [|apply list_lookup_insert_eq; unfold table1; rewrite length_insert; lia|done].
  split_and!.
  - unfold table1. by rewrite !length_insert.
  - by rewrite Hc.
  - by rewrite Hc.
  - intros j lj Hj. apply list_lookup_insert_Some in Hj as [(<-&<-&_)|[Hij Hj]].
    + split; [done|]. intros e He. apply Hti. apply elem_of_app in He. apply elem_of_app.
      destruct He; [by left|right; by constructor].
    + apply list_lookup_insert_Some in Hj as [(<-&<-&_)|[_ Hj]]; [|by apply Hp].
      split; [done|]. intros e. rewrite Hpl', elem_of_cons. intros [->|He]; [|by apply Htl].
      done.
Qed.

Lemma rehash_list_ok idx kept rest table :
  rehashing_list idx kept rest table → rehashing (S idx) (Rehash_list idx kept rest table).
Proof.
  revert kept table. induction rest as [|e rest IH]; intros kept table Hr; cbn.
  - destruct Hr as ((Hlen&Hperm&Hnd&Hp)&Hidx&Hkept). split_and!; [done..|].
    intros j l Hj. destruct (Hp j l Hj) as [Hs Ht]. split; [done|]. intros e He.
    split; intros Hji; [|apply Ht; [done|lia]].
    destruct (decide (j = idx)) as [->|Hne]; [|apply Ht; [done|lia]].
    rewrite Hj, app_nil_r in Hidx. injection Hidx as ->. by apply Hkept.
  - assert (length table = N) as Hlen by apply Hr. rewrite Hlen. case_decide as Hne.
    + apply IH. by apply move_element.
    + apply IH. destruct Hr as (Hr&Hidx&Hkept). split_and!; [done| |].
      * by rewrite <- app_assoc.
      * intros e' [He'|He']%elem_of_app; [by apply Hkept|].
        apply list_elem_of_singleton in He' as ->. by apply dec_stable in Hne || done.
Qed.

Lemma rehash_lists_ok k idx table :
  rehashing idx table → idx + k = N →
  rehashing N (foldl (λ table i, Rehash_list i [] (lists_at table i) table) table (seq idx k)).
Proof.
  revert idx table. induction k as [|k IH]; intros idx table Hr Hk; cbn.
  { by replace N with idx by lia. }
  apply IH; [|lia]. apply rehash_list_ok. split_and!; [done| |].
  - cbn. unfold lists_at. assert (length table = N) by apply Hr.
    destruct (lookup_lt_is_Some_2 table idx ltac:(lia)) as [l ->]. done.
  - intros e []%elem_of_nil.
Qed.
End Rehash.

(** ** The invariant *)

(** The table has a power of two times as many lists as there are mutexes, its
    lists are sorted and hold the right keys, and [size_] counts the elements. *)
Definition wf (this : t) : Prop :=
  0 < mutexes_ this ∧ (∃ k, length (table_ this) = mutexes_ this * 2 ^ k) ∧
  placed (table_ this) ∧ size_ this = length (concat (table_ this)).

Definition abs (this : t) : gmap K V := contents (table_ this).

Lemma wf_length this : wf this → 0 < length (table_ this).
Proof. intros (Hm&[k ->]&_). pose proof (Nat.pow_nonzero 2 k). lia. Qed.

Lemma placed_NoDup table : placed table → NoDup (concat table).*1.
Proof.
  intros Hp. assert (∀ (tb : list (list (K * V))) off, (∀ i l, tb !! i = Some l → sorted l ∧
    ∀ e, e ∈ l → hasher_ e.1 `mod` length table = off + i) → NoDup (concat tb).*1) as H1.
  { induction tb as [|l tb IH]; intros off Htb; cbn; [constructor|]. rewrite fmap_app.
    apply NoDup_app. split_and!.
    - apply sorted_NoDup. by apply (Htb 0).
    - intros k Hk Hk'. apply list_elem_of_fmap in Hk as (e&->&He).
      apply list_elem_of_fmap in Hk' as (e'&Heq&He'). apply elem_of_concat in He' as (l'&He'&Hl').
      apply list_elem_of_lookup_1 in Hl' as [i Hi].
      pose proof (proj2 (Htb 0 l eq_refl) e He) as E1.
      pose proof (proj2 (Htb (S i) l' Hi) e' He') as E2. rewrite Heq in E1. lia.
    - apply (IH (S off)). intros i l' Hi. destruct (Htb (S i) l' Hi) as [? Hh]. split; [done|].
      intros e He. rewrite (Hh e He). lia. }
  apply (H1 table 0). intros i l Hi. by apply Hp.
Qed.

Lemma length_contents table : placed table → size (contents table) = length (concat table).
Proof.
  intros Hp. unfold contents. by apply map_size_list_to_map, placed_NoDup.
Qed.

(** The lists of keys that share a list are guarded by one mutex. *)
Lemma mod_mod_mul h m k : 0 < m → 0 < k → (h `mod` (m * k)) `mod` m = h `mod` m.
Proof.
  intros Hm Hk. rewrite Nat.Div0.mod_mul_r. rewrite (Nat.mul_comm m).
  rewrite Nat.Div0.mod_add. by apply Nat.Div0.mod_mod.
Qed.

Lemma mutex_of_list this key : wf this → list_of this key `mod` mutexes_ this = mutex_of this key.
Proof.
  intros (Hm&[k Hk]&_). unfold list_of, mutex_of. rewrite Hk.
  apply mod_mod_mul; [done|]. pose proof (Nat.pow_nonzero 2 k). lia.
Qed.

Lemma make_wf expected_size threads :
  (0 < threads)%Z → (0 <= expected_size ∨ expected_size = kUndefinedSize)%Z →
  wf (make expected_size threads) ∧ abs (make expected_size threads) = ∅ ∧
  mutexes_ (make expected_size threads) = length (table_ (make expected_size threads)).
Proof.
  intros Ht He. unfold make, wf, abs, contents. set (c := if decide _ then _ else _).
  assert (0 < c)%Z as Hc.
  { subst c. case_decide; [|lia].
    assert (0 <= Z.quot (expected_size - 1) 2)%Z.
    { destruct (decide (expected_size = 0%Z)) as [->|]; [done|]. apply Z.quot_pos; lia. }
    assert (0 <= Z.quot (Z.quot (expected_size - 1) 2 + 1 - 1) threads)%Z by (apply Z.quot_pos; lia).
    nia. }
  cbn. rewrite length_replicate.
  assert (∀ n, concat (replicate n ([] : list (K * V))) = []) as Hnil by (by induction n).
  rewrite Hnil. split_and!; [lia|exists 0; cbn; lia| |done|done|done].
  intros i l Hi. apply lookup_replicate in Hi as [-> _]. split; [constructor|].
  by intros e He'%elem_of_nil.
Qed.

Lemma insert_locked_ok key v this :
  wf this →
  let '((res, _), this') := Insert_locked key v this in
  wf this' ∧ res = bool_decide (abs this !! key = None) ∧
  abs this' = (if res then <[key := v]> (abs this) else abs this) ∧
  is_rehashing_ this' = is_rehashing_ this ∧ mutexes_ this' = mutexes_ this ∧
  length (table_ this') = length (table_ this).
Proof.
  intros Hwf. pose proof (wf_length this Hwf) as Hn. destruct Hwf as (Hm&Hk&Hp&Hs).
  pose proof (insert_into_list_ok (table_ this) key v Hp Hn) as H1.
  unfold Insert_locked, list_of. destruct (InsertIntoList _ _ _) as [res table'].
  destruct H1 as (Hp'&Hl'&H1). unfold wf, abs. cbn. rewrite Hl'.
  destruct (contents (table_ this) !! key) as [w|].
  - destruct H1 as [-> ->]. done.
  - destruct H1 as (->&Hc&Hperm). split_and!; try done. by rewrite Hperm, Hs.
Qed.

Lemma rehash_ok this :
  wf this → wf (Rehash this) ∧ abs (Rehash this) = abs this ∧
  is_rehashing_ (Rehash this) = is_rehashing_ this ∧ mutexes_ (Rehash this) = mutexes_ this.
Proof.
  intros Hwf. pose proof (wf_length this Hwf) as Hn. destruct Hwf as (Hm&[k Hk]&Hp&Hs).
  unfold Rehash. set (n := length (table_ this)) in *. rewrite length_resize.
  set (table0 := resize [] (n * 2) (table_ this)).
  assert (table0 = table_ this ++ replicate n []) as Ht0.
  { unfold table0, resize. rewrite take_ge by lia. do 2 f_equal. lia. }
  assert (concat table0 = concat (table_ this)) as Hc0.
  { rewrite Ht0, concat_app. assert (∀ n, concat (replicate n ([] : list (K * V))) = []) as Hnil
      by (by induction n0). by rewrite Hnil, app_nil_r. }
  destruct (rehash_lists_ok (table_ this) (n * 2) (n * 2) 0 table0) as (Hlen&Hperm&Hnd&Hpl).
  { split_and!; [apply length_resize|by rewrite Hc0|rewrite Hc0; by apply placed_NoDup|].
    intros j l Hj. rewrite Ht0 in Hj. apply lookup_app_Some in Hj as [Hj|[Hge Hj]].
    - destruct (Hp j l Hj) as [Hsl Hh]. split; [done|]. intros e He. split; [lia|]. intros _.
      rewrite <- (Hh e He). fold n. rewrite <- (mod_mod_mul (hasher_ e.1) n 2) by lia.
      apply Nat.Div0.mod_le.
    - apply lookup_replicate in Hj as [-> _]. split; [constructor|]. by intros e []%elem_of_nil. }
  { done. }
  set (table' := foldl _ table0 _) in *.
  assert (placed table') as Hp'.
  { intros i l Hi. destruct (Hpl i l Hi) as [Hsl Ht]. split; [done|]. intros e He.
    rewrite Hlen. apply Ht; [done|]. apply lookup_lt_Some in Hi. lia. }
  split_and!; [split_and!| | |]; cbn; try done.
  - exists (S k). rewrite Hlen, Hk. cbn. lia.
  - by rewrite Hperm, Hs.
  - unfold abs, contents. cbn. by apply list_to_map_proper.
Qed.

Lemma insert_ok key v this :
  wf this → is_rehashing_ this = false →
  let '(res, this') := Insert key v this in
  wf this' ∧ is_rehashing_ this' = false ∧ res = bool_decide (abs this !! key = None) ∧
  abs this' = (if res then <[key := v]> (abs this) else abs this).
Proof.
  intros Hwf Hfl. unfold Insert. pose proof (insert_locked_ok key v this Hwf) as H1.
  destruct (Insert_locked key v this) as [[res need] this1]. destruct H1 as (Hwf1&Hres&Habs&Hf1&_).
  destruct need; [|by rewrite Hf1]. unfold test_and_set. rewrite Hf1, Hfl.
  destruct (rehash_ok (mk (table_ this1) (mutexes_ this1) (size_ this1) true) Hwf1)
    as (Hwf2&Habs2&_&_). split_and!; [exact Hwf2|done|done|]. etrans; [exact Habs2|exact Habs].
Qed.

Lemma erase_ok key this :
  wf this →
  let '(res, this') := Erase key this in
  wf this' ∧ res = bool_decide (is_Some (abs this !! key)) ∧ abs this' = delete key (abs this) ∧
  is_rehashing_ this' = is_rehashing_ this ∧ mutexes_ this' = mutexes_ this ∧
  length (table_ this') = length (table_ this).
Proof.
  intros Hwf. pose proof (wf_length this Hwf) as Hn. destruct Hwf as (Hm&Hk&Hp&Hs).
  pose proof (erase_from_list_ok (table_ this) key Hp Hn) as H1.
  unfold Erase, list_of. destruct (EraseFromList _ _ _) as [res table'].
  destruct H1 as (Hp'&Hl'&H1). unfold wf, abs. cbn. rewrite Hl'.
  destruct (contents (table_ this) !! key) as [w|] eqn:Hkey.
  - destruct H1 as (->&Hc&Hperm). rewrite Hperm in Hs. cbn in Hs.
    split_and!; try done. by rewrite Hs.
  - destruct H1 as [-> ->]. split_and!; try done. by rewrite delete_id.
Qed.

Lemma clear_ok this :
  wf this → wf (Clear this) ∧ abs (Clear this) = ∅ ∧
  is_rehashing_ (Clear this) = is_rehashing_ this ∧ mutexes_ (Clear this) = mutexes_ this ∧
  length (table_ (Clear this)) = length (table_ this).
Proof.
  intros (Hm&Hk&Hp&Hs). unfold Clear, wf, abs, contents. cbn. rewrite length_fmap.
  assert (concat ((λ _, []) <$> table_ this) = ([] : list (K * V))) as Hc.
  { generalize (table_ this). by induction l. }
  rewrite Hc. split_and!; try done. intros i l Hi. apply list_lookup_fmap_Some in Hi as (l0&->&_).
  split; [constructor|]. by intros e []%elem_of_nil.
Qed.

Lemma find_ok key this : wf this → Find key this = abs this !! key.
Proof.
  intros Hwf. pose proof (wf_length this Hwf) as Hn. destruct Hwf as (Hm&Hk&Hp&Hs).
  unfold Find, abs, list_of. rewrite contents_lookup by done.
  destruct (list_idx_lookup (table_ this) key Hn) as [l Hl]. rewrite (lists_at_lookup _ _ _ Hl).
  destruct (Hp _ _ Hl) as [Hsl _]. by rewrite find_pos_assoc.
Qed.

(** ** Calls, one after the other *)

Inductive call : Type :=
| CInsert (key : K) (value : V)
| CErase (key : K)
| CClear
| CFind (key : K)
| CAt (key : K)
| CSize.

Inductive reply : Type :=
| RBool (b : bool)
| RUnit
| RFind (r : option V)
| RAt (r : outcome V)
| RSize (n : nat).

Definition run_call (c : call) (this : t) : reply * t :=
  match c with
  | CInsert key v => let '(r, this) := Insert key v this in (RBool r, this)
  | CErase key => let '(r, this) := Erase key this in (RBool r, this)
  | CClear => (RUnit, Clear this)
  | CFind key => (RFind (Find key this), this)
  | CAt key => (RAt (At key this), this)
  | CSize => (RSize (Size this), this)
  end.

(** The meaning of a call on a finite map. *)
Definition spec_call (c : call) (m : gmap K V) : reply * gmap K V :=
  match c with
  | CInsert key v =>
      match m !! key with
      | Some _ => (RBool false, m)
      | None => (RBool true, <[key := v]> m)
      end
  | CErase key => (RBool (bool_decide (is_Some (m !! key))), delete key m)
  | CClear => (RUnit, ∅)
  | CFind key => (RFind (m !! key), m)
  | CAt key =>
      (RAt (match m !! key with Some v => Ok v | None => Fail (Exn (OutOfRange "WTF")) end), m)
  | CSize => (RSize (size m), m)
  end.

Fixpoint run_calls {S} (run : call → S → reply * S) (cs : list call) (s : S) : list reply * S :=
  match cs with
  | [] => ([], s)
  | c :: cs =>
      let '(r, s) := run c s in
      let '(rs, s) := run_calls run cs s in (r :: rs, s)
  end.

Lemma run_call_ok c this :
  wf this → is_rehashing_ this = false →
  let '(r, this') := run_call c this in
  wf this' ∧ is_rehashing_ this' = false ∧ spec_call c (abs this) = (r, abs this').
Proof.
  intros Hwf Hfl. destruct c as [key v|key| |key|key|]; cbn [run_call spec_call].
  - pose proof (insert_ok key v this Hwf Hfl) as H1. destruct (Insert key v this) as [res this'].
    destruct H1 as (?&?&->&->). split_and!; [done..|]. by destruct (abs this !! key).
  - pose proof (erase_ok key this Hwf) as H1. destruct (Erase key this) as [res this'].
    destruct H1 as (?&->&->&->&_). done.
  - destruct (clear_ok this Hwf) as (?&->&->&_). done.
  - by rewrite find_ok.
  - unfold At. by rewrite find_ok.
  - split_and!; [done..|]. destruct Hwf as (_&_&Hp&Hs). unfold abs, Size.
    by rewrite length_contents, Hs.
Qed.

Lemma run_calls_ok cs this :
  wf this → is_rehashing_ this = false →
  let '(rs, this') := run_calls run_call cs this in
  wf this' ∧ run_calls spec_call cs (abs this) = (rs, abs this').
Proof.
  revert this. induction cs as [|c cs IH]; intros this Hwf Hfl; cbn; [done|].
  pose proof (run_call_ok c this Hwf Hfl) as H1. destruct (run_call c this) as [r this1].
  destruct H1 as (Hwf1&Hfl1&->). specialize (IH this1 Hwf1 Hfl1).
  destruct (run_calls run_call cs this1) as [rs this2]. destruct IH as [? ->]. done.
Qed.
End ConcurrentHashMap.
Arguments t : clear implicits.
End ConcurrentHashMap.

(** ** Properties *)

Section Properties.
Context {K V : Type} `{Countable K, !KeyOrder K} (hasher_ : K → nat).
Import ConcurrentHashMap.

(** C7 The table implements a finite map: for a table built with any sensible hint,
    any hash function and any sequence of calls, rehashing included, every reply
    is the reply of the finite map, [Insert] never overwriting. *)
Theorem hash_map_refines (expected_size threads : Z) (cs : list (call (K := K) (V := V))) :
  (0 < threads)%Z → (0 <= expected_size ∨ expected_size = kUndefinedSize)%Z →
  (run_calls (run_call hasher_) cs (make expected_size threads)).1
  = (run_calls spec_call cs ∅).1.
Proof.
  intros Ht He. destruct (make_wf (V := V) hasher_ expected_size threads Ht He) as (Hwf&Habs&_).
  pose proof (run_calls_ok hasher_ cs (make expected_size threads) Hwf eq_refl) as H1.
  destruct (run_calls _ cs (make _ _)) as [rs this]. destruct H1 as [_ H1].
  rewrite Habs in H1. by rewrite H1.
Qed.

(** The locks protect the lists: two keys in one list are guarded by one mutex,
    and rehashing, which doubles the table, leaves the mutex of every key as it
    is. *)
Theorem hash_map_stripes (this : t K V) (k1 k2 : K) :
  wf hasher_ this →
  (list_of hasher_ this k1 = list_of hasher_ this k2 →
   mutex_of hasher_ this k1 = mutex_of hasher_ this k2) ∧
  mutex_of hasher_ (Rehash hasher_ this) k1 = mutex_of hasher_ this k1.
Proof.
  intros Hwf. split.
  - intros Hl. rewrite <- !mutex_of_list by done. by rewrite Hl.
  - destruct (rehash_ok hasher_ this Hwf) as (_&_&_&Hm). unfold mutex_of. by rewrite Hm.
Qed.
End Properties.

Section Witnesses.
Import ConcurrentHashMap.

Lemma hash_map_refines_witness :
  (run_calls (run_call (K := Z) Z.to_nat)
    [CInsert 1%Z 10%Z; CInsert 5%Z 50%Z; CInsert 9%Z 90%Z; CInsert 5%Z 7%Z; CErase 1%Z;
     CFind 9%Z; CSize]
    (make 1 1)).1
  = [RBool true; RBool true; RBool true; RBool false; RBool true; RFind (Some 90%Z); RSize 2].
Proof.
  etrans.
  - apply (hash_map_refines (V := Z) Z.to_nat 1 1); lia.
  - vm_compute. reflexivity.
Defined.

Lemma hash_map_stripes_witness :
  mutex_of (K := Z) (V := Z) Z.to_nat (Rehash Z.to_nat (make 1 2)) 5%Z = 1.
Proof.
  destruct (hash_map_stripes (V := Z) Z.to_nat (make 1 2) 5%Z 7%Z) as [_ H].
  - apply make_wf; lia.
  - rewrite H. reflexivity.
Defined.
End Witnesses.
