(* ===== verification/HashLocks.v ===== *)
(** * The mutexes of ConcurrentHashMap (hash-table/concurrent_hash_map.h)

    Threads that call the operations of the hash table of [HashTable], at the grain of the
    single accesses to what they share: taking and releasing one mutex, reading
    [table_.size()], walking through a list, changing a list, each access to the atomic
    [size_] and to the flag.  A list is changed to what follows from the list that was walked
    through before: without the mutex of the key, the change of another thread in between would
    be lost.  In the same way [Rehash] reads the whole table and then writes it.

    A call takes effect at one of its own steps: a search at the walk, an insertion and an
    erasure when [size_] is changed (at the walk if there is nothing to do), [Clear] when
    [size_] is set to zero, [Size] when it is read.  Shown: these effects are a sequential
    history of a finite map with the replies that the threads return, each mutex is released by
    its owner, at most one thread rehashes, and there is no deadlock. *)

From S2P Require Import Prelude HashTable.
Import ConcurrentHashMap.

Section HashLocks.
Context {K V : Type} `{Countable K, !KeyOrder K} (hasher_ : K → nat).
Abbreviation call := (ConcurrentHashMap.call (K := K) (V := V)).
Abbreviation reply := (ConcurrentHashMap.reply (V := V)).
Abbreviation table := (list (list (K * V))).

(** Where a thread is in the code of its call; [r] is the reply it is going to return. *)
Inductive place : Type :=
| Lock                                   (* [std::lock_guard lock(mutexes_[mutex_idx])] *)
| Index                                  (* [hash % table_.size()] *)
| Look (list_idx : nat)                  (* [FindPosInList] *)
| Put (list_idx : nat) (l : list (K * V)) (* [emplace] or [erase]: the list becomes [l] *)
| Count                                  (* [++size_] or [--size_] *)
| Check (res : bool)                     (* [size_ / table_.size() > kLoadFactor] *)
| Unlock (r : reply) (need_rehash : bool)
| Flag (r : reply)                       (* [is_rehashing_.test_and_set()] *)
| RehashLock (r : reply) (i : nat)       (* the loop that locks: [i] mutexes are taken *)
| RehashRead (r : reply)
| RehashWrite (r : reply) (tb : table)
| RehashUnlock (r : reply) (i : nat)     (* the loop that unlocks: [i] mutexes are left *)
| ClearFlag (r : reply)
| ClearLock (i : nat)
| ClearLists
| ClearSize
| ClearUnlock (i : nat)
| ReadSize
| Return (r : reply).

(** [locks] has the owner of each mutex.  [meaning] and [history] are auxiliary: the finite
    map, and the calls in the order of their effects, with the threads and the replies. *)
Record world : Type := World {
  this : t K V;
  locks : list (option nat);
  meaning : gmap K V;
  history : list (nat * (call * reply))
}.

Definition set_this (x : t K V) (w : world) : world := World x (locks w) (meaning w) (history w).
Definition set_locks (ls : list (option nat)) (w : world) : world := World (this w) ls (meaning w) (history w).
Definition set_table (tb : table) (x : t K V) : t K V := mk tb (mutexes_ x) (size_ x) (is_rehashing_ x).
Definition set_size (n : nat) (x : t K V) : t K V := mk (table_ x) (mutexes_ x) n (is_rehashing_ x).

Definition lock (i tid : nat) (w : world) : option world :=
  match locks w !! i with Some None => Some (set_locks (<[i := Some tid]> (locks w)) w) | _ => None end.
Definition unlock (i : nat) (w : world) : world := set_locks (<[i := None]> (locks w)) w.

(** The call takes effect. *)
Definition commit (tid : nat) (c : call) (r : reply) (w : world) : world :=
  World (this w) (locks w) (spec_call c (meaning w)).2 (history w ++ [(tid, (c, r))]).

Definition key_of (c : call) : option K :=
  match c with CInsert key _ | CErase key | CFind key | CAt key => Some key | CClear | CSize => None end.

(** What the walk through the list [l] finds out: the list that the call is going to put, or
    the reply if it does not change anything. *)
Definition look (c : call) (l : list (K * V)) : list (K * V) + reply :=
  match c with
  | CInsert key v =>
      let pos := FindPosInList l key in
      if decide (fst <$> l !! pos = Some key) then inr (RBool false) else inl (take pos l ++ (key, v) :: drop pos l)
  | CErase key =>
      let pos := FindPosInList l key in
      if decide (fst <$> l !! pos = Some key) then inl (take pos l ++ drop (S pos) l) else inr (RBool false)
  | CFind key | CAt key =>
      let found :=
        match l !! FindPosInList l key with
        | Some (k, v) => if decide (k = key) then Some v else None
        | None => None
        end in
      match c with
      | CAt _ => inr (RAt (match found with Some v => Ok v | None => Fail (Exn (OutOfRange "WTF")) end))
      | _ => inr (RFind found)
      end
  | CClear => inr RUnit
  | CSize => inr (RSize 0)
  end.

(** The next step of thread [tid], which is at [p] in the call [c]; nothing while it has to
    wait for a mutex. *)
Definition thread_step (tid : nat) (c : call) (p : place) (w : world) : option (place * world) :=
  let mutexes := mutexes_ (this w) in
  match p with
  | Lock => key ← key_of c; w ← lock (mutex_of hasher_ (this w) key) tid w; Some (Index, w)
  | Index => key ← key_of c; Some (Look (list_of hasher_ (this w) key), w)
  | Look i =>
      match look c (lists_at (table_ (this w)) i) with
      | inl l => Some (Put i l, w)
      | inr r => Some (match c with CInsert _ _ => Check false | _ => Unlock r false end, commit tid c r w)
      end
  | Put i l => Some (Count, set_this (set_table (<[i := l]> (table_ (this w))) (this w)) w)
  | Count =>
      match c with
      | CInsert _ _ => Some (Check true, commit tid c (RBool true) (set_this (set_size (S (size_ (this w))) (this w)) w))
      | _ => Some (Unlock (RBool true) false, commit tid c (RBool true) (set_this (set_size (pred (size_ (this w))) (this w)) w))
      end
  | Check res => Some (Unlock (RBool res) (bool_decide (kLoadFactor < size_ (this w) / length (table_ (this w)))), w)
  | Unlock r need_rehash =>
      key ← key_of c;
      Some (if need_rehash then Flag r else Return r, unlock (mutex_of hasher_ (this w) key) w)
  | Flag r =>
      let '(was_set, x) := test_and_set (this w) in
      Some (if was_set then Return r else RehashLock r 0, set_this x w)
  | RehashLock r i =>
      if decide (i < mutexes) then w ← lock i tid w; Some (RehashLock r (S i), w) else Some (RehashRead r, w)
  | RehashRead r => Some (RehashWrite r (table_ (Rehash hasher_ (this w))), w)
  | RehashWrite r tb => Some (RehashUnlock r mutexes, set_this (set_table tb (this w)) w)
  | RehashUnlock r (S i) => Some (RehashUnlock r i, unlock i w)
  | RehashUnlock r 0 => Some (ClearFlag r, w)
  | ClearFlag r => Some (Return r, set_this (clear_flag (this w)) w)
  | ClearLock i =>
      if decide (i < mutexes) then w ← lock i tid w; Some (ClearLock (S i), w) else Some (ClearLists, w)
  | ClearLists => Some (ClearSize, set_this (set_table ((λ _, []) <$> table_ (this w)) (this w)) w)
  | ClearSize => Some (ClearUnlock mutexes, commit tid c RUnit (set_this (set_size 0 (this w)) w))
  | ClearUnlock (S i) => Some (ClearUnlock i, unlock i w)
  | ClearUnlock 0 => Some (Return RUnit, w)
  | ReadSize => Some (Return (RSize (Size (this w))), commit tid c (RSize (Size (this w))) w)
  | Return _ => None
  end.

Definition first_place (c : call) : place :=
  match c with CClear => ClearLock 0 | CSize => ReadSize | _ => Lock end.

(** [returned] is auxiliary: the calls that have returned, with their replies. *)
Record config : Type := Config {
  state : world;
  threads : nat → option (call * place);
  returned : list (nat * (call * reply))
}.

Definition set_thread (tid : nat) (x : option (call * place)) (f : nat → option (call * place)) (u : nat)
    : option (call * place) := if decide (u = tid) then x else f u.

(** A thread calls an operation, takes a step, or returns. *)
Definition move (tid : nat) (start : call) (g : config) : option config :=
  match threads g tid with
  | None => Some (Config (state g) (set_thread tid (Some (start, first_place start)) (threads g)) (returned g))
  | Some (c, Return r) => Some (Config (state g) (set_thread tid None (threads g)) (returned g ++ [(tid, (c, r))]))
  | Some (c, p) =>
      '(p', w) ← thread_step tid c p (state g);
      Some (Config w (set_thread tid (Some (c, p')) (threads g)) (returned g))
  end.

Definition step (g g' : config) : Prop := ∃ tid start, move tid start g = Some g'.

Definition init (expected_size expected_threads_count : Z) (g : config) : Prop :=
  let x := make expected_size expected_threads_count in
  g = Config (World x (replicate (mutexes_ x) None) ∅ []) (λ _, None) [].

(** ** The specification *)

(** The calls of a history, one after the other on a finite map, give the replies and end
    with [m']. *)
Fixpoint sequential (m : gmap K V) (h : list (nat * (call * reply))) (m' : gmap K V) : Prop :=
  match h with
  | [] => m' = m
  | (_, (c, r)) :: h => (spec_call c m).1 = r ∧ sequential (spec_call c m).2 h m'
  end.

(** The reply of a call that has taken effect. *)
Definition answer (p : place) : option reply :=
  match p with
  | Check res => Some (RBool res)
  | Unlock r _ | Flag r | RehashLock r _ | RehashRead r | RehashWrite r _ | RehashUnlock r _ | ClearFlag r | Return r => Some r
  | ClearUnlock _ => Some RUnit
  | _ => None
  end.

(** The call of a thread that has taken effect and not returned. *)
Definition unreturned (x : option (call * place)) : list (call * reply) :=
  match x with
  | Some (c, p) => match answer p with Some r => [(c, r)] | None => [] end
  | None => []
  end.

(** The mutexes that a thread at [p] in [c] has, and the one it waits for. *)
Definition has (x : t K V) (c : call) (p : place) (i : nat) : Prop :=
  match p with
  | Index | Look _ | Put _ _ | Count | Check _ | Unlock _ _ => mutex_of hasher_ x <$> key_of c = Some i
  | RehashLock _ n | RehashUnlock _ n | ClearLock n | ClearUnlock n => i < n
  | RehashRead _ | RehashWrite _ _ | ClearLists | ClearSize => i < mutexes_ x
  | _ => False
  end.

Definition waits (x : t K V) (c : call) (p : place) : option nat :=
  match p with
  | Lock => mutex_of hasher_ x <$> key_of c
  | RehashLock _ i | ClearLock i => if decide (i < mutexes_ x) then Some i else None
  | _ => None
  end.

Definition rehashing_at (x : option (call * place)) : bool :=
  match x with
  | Some (_, (RehashLock _ _ | RehashRead _ | RehashWrite _ _ | RehashUnlock _ _ | ClearFlag _)) => true
  | _ => false
  end.

(** ** The mutexes *)

Definition holds (g : config) (tid i : nat) : Prop :=
  ∃ c p, threads g tid = Some (c, p) ∧ has (this (state g)) c p i.

(** The owner of a mutex is the thread whose place says so. *)
Record locked (g : config) : Prop := {
  l_length : length (locks (state g)) = mutexes_ (this (state g));
  l_owner : ∀ i tid, i < mutexes_ (this (state g)) → locks (state g) !! i = Some (Some tid) ↔ holds g tid i;
}.

Lemma set_thread_same tid x f : set_thread tid x f tid = x.
Proof. unfold set_thread. by rewrite decide_True. Qed.
Lemma set_thread_other tid x f u : u ≠ tid → set_thread tid x f u = f u.
Proof. unfold set_thread. intros. by rewrite decide_False. Qed.

Lemma has_ext (x y : t K V) c p i : mutexes_ x = mutexes_ y → has x c p i ↔ has y c p i.
Proof. intros E. destruct p; cbn; try done; unfold mutex_of; by rewrite E. Qed.

(** No two threads have one mutex. *)
Lemma holds_exclusive g i u1 u2 :
  locked g → i < mutexes_ (this (state g)) → holds g u1 i → holds g u2 i → u1 = u2.
Proof.
  intros [_ Ho] Hi H1%(Ho i _ Hi) H2%(Ho i _ Hi). congruence.
Qed.

(** A change of the place of thread [tid], and of the mutexes it has. *)
Lemma locked_change g tid c x w' rs :
  locked g → mutexes_ (this w') = mutexes_ (this (state g)) → length (locks w') = length (locks (state g)) →
  (∀ i u, u ≠ tid → locks w' !! i = Some (Some u) ↔ locks (state g) !! i = Some (Some u)) →
  (∀ i, i < mutexes_ (this w') → locks w' !! i = Some (Some tid) ↔
     match x with Some p => has (this w') c p i | None => False end) →
  locked (Config w' (set_thread tid (pair c <$> x) (threads g)) rs).
Proof.
  intros [Hl Ho] Hm Hlen Hother Hmine. split; cbn [state]; [congruence|]. intros i u Hi. unfold holds. cbn [state threads].
  destruct (decide (u = tid)) as [->|Hne].
  - rewrite (Hmine i Hi). destruct x as [p|]; cbn [fmap option_fmap option_map].
    + split; [intros Hh; exists c, p; by rewrite set_thread_same|]. intros (c'&p'&E&Hh). rewrite set_thread_same in E. by injection E as <- <-.
    + split; [done|]. intros (c'&p'&E&_). by rewrite set_thread_same in E.
  - rewrite (Hother i u Hne), (Ho i u) by congruence. unfold holds. rewrite set_thread_other by done.
    split; intros (c'&p'&E&Hh); exists c', p'; (split; [done|]); revert Hh; by apply has_ext.
Qed.

(** No mutex is taken or released. *)
Lemma locked_same g tid c p p' w' rs :
  locked g → threads g tid = Some (c, p) → mutexes_ (this w') = mutexes_ (this (state g)) → locks w' = locks (state g) →
  (∀ i, i < mutexes_ (this w') → has (this w') c p' i ↔ has (this w') c p i) →
  locked (Config w' (set_thread tid (Some (c, p')) (threads g)) rs).
Proof.
  intros Hg E Hm Hl Hh. apply (locked_change g tid c (Some p')); rewrite ?Hl; try done.
  intros i Hi. rewrite (l_owner _ Hg) by congruence. rewrite (Hh i Hi), (has_ext _ (this (state g))) by done. unfold holds.
  split; [|by intros; exists c, p]. intros (c'&p1&E'&?). rewrite E in E'. by injection E' as <- <-.
Qed.

Lemma locked_lock g tid c p p' w' j rs :
  locked g → threads g tid = Some (c, p) → lock j tid (state g) = Some w' →
  (∀ i, i < mutexes_ (this w') → has (this w') c p' i ↔ i = j ∨ has (this w') c p i) →
  locked (Config w' (set_thread tid (Some (c, p')) (threads g)) rs).
Proof.
  intros Hg E Hlock Hh. unfold lock in Hlock. destruct (locks (state g) !! j) as [[?|]|] eqn:Ej; try done. injection Hlock as <-.
  assert (j < length (locks (state g))) as Hj by (by eapply lookup_lt_Some).
  apply (locked_change g tid c (Some p')); cbn [set_locks locks this] in *; [done|done|by rewrite length_insert|..].
  - intros i u Hu. destruct (decide (i = j)) as [->|]; [|by rewrite list_lookup_insert_ne].
    rewrite list_lookup_insert_eq, Ej by done. split; [|done]. intros [= ->]. done.
  - intros i Hi. rewrite (Hh i Hi). destruct (decide (i = j)) as [->|]; [rewrite list_lookup_insert_eq by done; tauto|].
    rewrite list_lookup_insert_ne, (l_owner _ Hg) by done. unfold holds.
    split; [intros (c'&p1&E'&?); rewrite E in E'; injection E' as <- <-; by right|]. intros [?|?]; [done|]. by exists c, p.
Qed.

Lemma locked_unlock g tid c p p' j rs :
  locked g → threads g tid = Some (c, p) → j < mutexes_ (this (state g)) → has (this (state g)) c p j →
  (∀ i, i < mutexes_ (this (state g)) → has (this (state g)) c p' i ↔ i ≠ j ∧ has (this (state g)) c p i) →
  locked (Config (unlock j (state g)) (set_thread tid (Some (c, p')) (threads g)) rs).
Proof.
  intros Hg E Hj Hjh Hh. assert (locks (state g) !! j = Some (Some tid)) as Ej by (apply (l_owner _ Hg); [done|by exists c, p]).
  assert (j < length (locks (state g))) as Hjl by (by eapply lookup_lt_Some).
  apply (locked_change g tid c (Some p')); cbn [unlock set_locks locks this] in *; [done|done|by rewrite length_insert|..].
  - intros i u Hu. destruct (decide (i = j)) as [->|]; [|by rewrite list_lookup_insert_ne].
    rewrite list_lookup_insert_eq, Ej by done. split; [done|]. by intros [= ->].
  - intros i Hi. rewrite (Hh i Hi). destruct (decide (i = j)) as [->|]; [rewrite list_lookup_insert_eq by done; split; [done|tauto]|].
    rewrite list_lookup_insert_ne, (l_owner _ Hg) by done. unfold holds.
    split; [intros (c'&p1&E'&?); rewrite E in E'; injection E' as <- <-; done|]. intros [_ ?]. by exists c, p.
Qed.

(** Every step of a thread keeps [locked]. *)
Lemma locked_thread_step g tid c p p' w' :
  locked g → threads g tid = Some (c, p) → thread_step tid c p (state g) = Some (p', w') →
  (0 < mutexes_ (this (state g))) →
  locked (Config w' (set_thread tid (Some (c, p')) (threads g)) (returned g)).
Proof.
  intros Hg E Hs HM. pose proof (Nat.mod_upper_bound) as Hmod.
  destruct p as [| |i|i l| |res|r need|r|r i|r|r tb|r i|r|i| | |i| |r]; cbn [thread_step] in Hs; cbv zeta in Hs.
  - destruct (key_of c) as [key|] eqn:Ek; cbn in Hs; [|done]. destruct (lock _ tid _) as [w1|] eqn:El; cbn in Hs; [|done]. injection Hs as <- <-.
    eapply locked_lock; [done..|]. intros i Hi. cbn. rewrite Ek. cbn. split; [intros [= <-]; left|intros [->|[]]; f_equal].
    + unfold lock in El. destruct (locks _ !! _) as [[?|]|]; try done. by injection El as <-.
    + unfold lock in El. destruct (locks _ !! _) as [[?|]|]; try done. by injection El as <-.
  - destruct (key_of c); cbn in Hs; [|done]. injection Hs as <- <-. by eapply locked_same.
  - destruct (look c _) as [l|r]; injection Hs as <- <-; [by eapply locked_same|]. eapply locked_same; [done..|]. intros j Hj. by destruct c.
  - injection Hs as <- <-. by eapply locked_same.
  - destruct c; injection Hs as <- <-; by eapply locked_same.
  - injection Hs as <- <-. by eapply locked_same.
  - destruct (key_of c) as [key|] eqn:Ek; cbn in Hs; [|done]. injection Hs as <- <-. eapply locked_unlock; [done..| | |].
    + apply Hmod. lia.
    + cbn. by rewrite Ek.
    + intros i Hi. destruct need; cbn; rewrite Ek; cbn; split; try done; intros [Hne [= <-]]; done.
  - unfold test_and_set in Hs. destruct (is_rehashing_ (this (state g))); injection Hs as <- <-; (eapply locked_same; [done..|]); cbn; intros j Hj; split; (done || lia).
  - case_decide.
    + destruct (lock _ tid _) as [w1|] eqn:El; cbn in Hs; [|done]. injection Hs as <- <-.
      eapply locked_lock; [done..|]. intros j Hj. cbn. lia.
    + injection Hs as <- <-. eapply locked_same; [done..|]. cbn. lia.
  - injection Hs as <- <-. by eapply locked_same.
  - injection Hs as <- <-. by eapply locked_same.
  - destruct i as [|i]; injection Hs as <- <-; [eapply locked_same; [done..|]; cbn; intros j Hj; split; (done || lia)|].
    destruct (decide (i < mutexes_ (this (state g)))); [eapply locked_unlock; [done..| |]; cbn; lia|].
    eapply locked_same; [done|done|done| |]; cbn; [|lia]. rewrite list_insert_ge; [done|]. rewrite (l_length _ Hg). lia.
  - injection Hs as <- <-. by eapply locked_same.
  - case_decide.
    + destruct (lock _ tid _) as [w1|] eqn:El; cbn in Hs; [|done]. injection Hs as <- <-.
      eapply locked_lock; [done..|]. intros j Hj. cbn. lia.
    + injection Hs as <- <-. eapply locked_same; [done..|]. cbn. lia.
  - injection Hs as <- <-. by eapply locked_same.
  - injection Hs as <- <-. by eapply locked_same.
  - destruct i as [|i]; injection Hs as <- <-; [eapply locked_same; [done..|]; cbn; intros j Hj; split; (done || lia)|].
    destruct (decide (i < mutexes_ (this (state g)))); [eapply locked_unlock; [done..| |]; cbn; lia|].
    eapply locked_same; [done|done|done| |]; cbn; [|lia]. rewrite list_insert_ge; [done|]. rewrite (l_length _ Hg). lia.
  - injection Hs as <- <-. by eapply locked_same.
  - done.
Qed.

(** ** The table *)

(** A list of the table is changed, or found as it should be. *)
Lemma look_change c key (tb : table) l :
  placed hasher_ tb → 0 < length tb → key_of c = Some key → let i := hasher_ key `mod` length tb in
  look c (lists_at tb i) = inl l → let tb' := <[i := l]> tb in
  placed hasher_ tb' ∧ length tb' = length tb ∧ (∀ k, k ≠ key → contents tb' !! k = contents tb !! k) ∧
  match c with
  | CInsert _ v => contents tb !! key = None ∧ contents tb' !! key = Some v
  | CErase _ => is_Some (contents tb !! key) ∧ contents tb' !! key = None
  | _ => False
  end.
Proof.
  intros Hp Hn Hk i Hl tb'. destruct c as [key' v|key'| |key'|key'|]; cbn in Hk, Hl; simplify_eq.
  - pose proof (insert_into_list_ok hasher_ tb key v Hp Hn) as H1. unfold InsertIntoList in H1. fold i in H1. cbn [fst] in H1.
    case_decide; [done|]. injection Hl as <-. fold tb' in H1. destruct H1 as (?&?&H1).
    destruct (contents tb !! key); [by destruct H1|]. destruct H1 as (_&Hc&_). split_and!; try done.
    + intros k Hne. by rewrite Hc, lookup_insert_ne.
    + by rewrite Hc, lookup_insert_eq.
  - pose proof (erase_from_list_ok hasher_ tb key Hp Hn) as H1. unfold EraseFromList in H1. fold i in H1.
    case_decide; [|done]. injection Hl as <-. fold tb' in H1. destruct H1 as (?&?&H1).
    destruct (contents tb !! key); [|by destruct H1]. destruct H1 as (_&Hc&_). split_and!; try done.
    + intros k Hne. by rewrite Hc, lookup_delete_ne.
    + by rewrite Hc, lookup_delete_eq.
Qed.

Lemma look_reply c key (tb : table) r m :
  placed hasher_ tb → 0 < length tb → key_of c = Some key →
  look c (lists_at tb (hasher_ key `mod` length tb)) = inr r → contents tb !! key = m !! key →
  spec_call c m = (r, m) ∧ match c with CInsert _ _ => r = RBool false | _ => True end.
Proof.
  intros Hp Hn Hk Hl Hm. rewrite (contents_lookup hasher_) in Hm by done.
  destruct (list_idx_lookup hasher_ tb key Hn) as [l Hi]. rewrite (lists_at_lookup _ _ _ Hi) in Hl, Hm. destruct (Hp _ _ Hi) as [Hs _].
  destruct c as [key' v|key'| |key'|key'|]; cbn in Hk, Hl; try discriminate Hk; injection Hk as ->; cbn [spec_call].
  - case_decide as Hf; [|done]. apply (found_assoc l key Hs) in Hf as [v' Ha]. injection Hl as <-. rewrite <-Hm, Ha. done.
  - case_decide as Hf; [done|]. rewrite (found_assoc l key Hs), Hm in Hf. injection Hl as <-. rewrite bool_decide_false by done.
    rewrite delete_id; [done|]. by apply eq_None_not_Some.
  - rewrite <-(find_pos_assoc l key Hs), Hm in Hl. by injection Hl as <-.
  - rewrite <-(find_pos_assoc l key Hs), Hm in Hl. by injection Hl as <-.
Qed.

(** The table has a power of two times as many lists as there are mutexes. *)
Definition shaped (x : t K V) : Prop :=
  0 < mutexes_ x ∧ (∃ k, length (table_ x) = mutexes_ x * 2 ^ k) ∧ placed hasher_ (table_ x).

(** The same table, with its elements counted. *)
Definition counted (x : t K V) : t K V := set_size (length (concat (table_ x))) x.

Lemma shaped_wf x : shaped x → wf hasher_ (counted x).
Proof. intros (?&?&?). by split_and!. Qed.

Lemma shaped_length x : shaped x → 0 < length (table_ x).
Proof. intros Hx%shaped_wf. apply (wf_length _ _ Hx). Qed.

(** Keys of one list have one mutex. *)
Lemma shaped_stripe x k1 k2 :
  shaped x → list_of hasher_ x k1 = list_of hasher_ x k2 → mutex_of hasher_ x k1 = mutex_of hasher_ x k2.
Proof.
  intros Hx Hl. pose proof (mutex_of_list hasher_ (counted x) k1 (shaped_wf _ Hx)) as H1.
  pose proof (mutex_of_list hasher_ (counted x) k2 (shaped_wf _ Hx)) as H2.
  change (list_of hasher_ x k1 `mod` mutexes_ x = mutex_of hasher_ x k1) in H1.
  change (list_of hasher_ x k2 `mod` mutexes_ x = mutex_of hasher_ x k2) in H2. congruence.
Qed.

Lemma shaped_rehash x :
  shaped x → shaped (set_table (table_ (Rehash hasher_ x)) x) ∧ contents (table_ (Rehash hasher_ x)) = contents (table_ x).
Proof.
  intros Hx. destruct (rehash_ok hasher_ (counted x) (shaped_wf _ Hx)) as ((?&?&?&_)&Habs&_). by split.
Qed.

Lemma shaped_clear x :
  shaped x → shaped (set_table ((λ _, []) <$> table_ x) x) ∧ contents ((λ _, []) <$> table_ x : table) = ∅.
Proof.
  intros Hx. destruct (clear_ok hasher_ (counted x) (shaped_wf _ Hx)) as ((?&?&?&_)&Habs&_). by split.
Qed.

(** ** The invariant *)

(** What a thread at a place relies on. *)
Definition local (w : world) (c : call) (p : place) : Prop :=
  let x := this w in
  match p with
  | Lock | Index | Unlock _ _ | Check _ => is_Some (key_of c)
  | Look i => ∃ key, key_of c = Some key ∧ i = list_of hasher_ x key
  | Put i l => ∃ key, key_of c = Some key ∧ i = list_of hasher_ x key ∧ look c (lists_at (table_ x) i) = inl l
  | Count =>
      match c with
      | CInsert key v => contents (table_ x) !! key = Some v ∧ meaning w !! key = None
      | CErase key => contents (table_ x) !! key = None ∧ is_Some (meaning w !! key)
      | _ => False
      end
  | RehashLock _ i | RehashUnlock _ i | ClearUnlock i => i ≤ mutexes_ x
  | ClearLock i => i ≤ mutexes_ x ∧ c = CClear
  | ClearLists => c = CClear
  | ClearSize => c = CClear ∧ contents (table_ x) = ∅
  | RehashWrite _ tb => tb = table_ (Rehash hasher_ x)
  | ReadSize => c = CSize
  | _ => True
  end.

(** The call has changed the table at [key] and not taken effect yet. *)
Definition pending (key : K) (c : call) (p : place) : Prop :=
  (p = Count ∧ key_of c = Some key) ∨ p = ClearSize.

Record data (g : config) : Prop := {
  d_shaped : shaped (this (state g));
  d_local : ∀ tid c p, threads g tid = Some (c, p) → local (state g) c p;
  d_agree : ∀ key, (∀ tid c p, threads g tid = Some (c, p) → ¬ pending key c p) →
    contents (table_ (this (state g))) !! key = meaning (state g) !! key;
  d_size : size_ (this (state g)) = size (meaning (state g));
  d_sequential : sequential ∅ (history (state g)) (meaning (state g));
  d_events : ∀ tid, of_owner tid (history (state g)) = of_owner tid (returned g) ++ unreturned (threads g tid)
}.

Lemma sequential_snoc m h m1 tid c r m2 :
  sequential m h m1 → spec_call c m1 = (r, m2) → sequential m (h ++ [(tid, (c, r))]) m2.
Proof.
  revert m. induction h as [|[u [c' r']] h IH]; intros m; cbn.
  - intros -> Hs. by rewrite Hs.
  - intros [Hr Hh] Hs. split; [done|]. by apply IH.
Qed.

(** [local] looks at the table, the mutexes and the map only. *)
Lemma local_ext w w' c p :
  table_ (this w') = table_ (this w) → mutexes_ (this w') = mutexes_ (this w) → meaning w' = meaning w →
  local w c p → local w' c p.
Proof.
  intros Ht Hm He. destruct p; cbn [local]; cbv zeta; unfold list_of, Rehash; cbn [table_]; rewrite ?Ht, ?Hm, ?He; done.
Qed.

(** A step of a thread: either the history stays, or the call takes effect. *)
Definition effect (tid : nat) (c : call) (p p' : place) (w w' : world) : Prop :=
  (history w' = history w ∧ meaning w' = meaning w ∧ answer p' = answer p) ∨
  (∃ r, history w' = history w ++ [(tid, (c, r))] ∧ spec_call c (meaning w) = (r, meaning w') ∧ answer p = None ∧ answer p' = Some r).

Lemma data_change g tid c p p' w' :
  data g → threads g tid = Some (c, p) → shaped (this w') →
  (∀ u c2 p2, u ≠ tid → threads g u = Some (c2, p2) → local (state g) c2 p2 → local w' c2 p2) → local w' c p' →
  (∀ key, ¬ pending key c p' → (∀ u c2 p2, u ≠ tid → threads g u = Some (c2, p2) → ¬ pending key c2 p2) →
    contents (table_ (this w')) !! key = meaning w' !! key) →
  size_ (this w') = size (meaning w') → effect tid c p p' (state g) w' →
  data (Config w' (set_thread tid (Some (c, p')) (threads g)) (returned g)).
Proof.
  intros [_ Hl _ _ Hq He] E Hsh Hoth Hme Hag Hsz Heff. split; cbn [state threads returned]; [done| | |done| |].
  - intros u c2 p2. destruct (decide (u = tid)) as [->|Hne]; [rewrite set_thread_same; by intros [= <- <-]|].
    rewrite set_thread_other by done. intros Eu. eapply Hoth; [done..|]. by eapply Hl.
  - intros key Hno. apply Hag; [apply (Hno tid); apply set_thread_same|]. intros u c2 p2 Hne Eu. apply (Hno u). by rewrite set_thread_other.
  - destruct Heff as [(->&->&_)|(r&->&Hs&_)]; [done|]. by eapply sequential_snoc.
  - intros u. specialize (He u). destruct (decide (u = tid)) as [->|Hne].
    + rewrite set_thread_same. rewrite E in He. cbn [unreturned] in *. destruct Heff as [(->&_&->)|(r&->&_&Hp&->)]; [done|].
      rewrite of_owner_app, of_owner_here, He, Hp. by rewrite <-app_assoc.
    + rewrite set_thread_other by done. destruct Heff as [(->&_&_)|(r&->&_&_)]; [done|]. by rewrite of_owner_app, of_owner_other, app_nil_r.
Qed.

(** The table, the map and the counter stay. *)
Lemma data_quiet g tid c p p' w' :
  data g → threads g tid = Some (c, p) →
  table_ (this w') = table_ (this (state g)) → mutexes_ (this w') = mutexes_ (this (state g)) → size_ (this w') = size_ (this (state g)) →
  meaning w' = meaning (state g) → (∀ key, ¬ pending key c p) → local w' c p' → effect tid c p p' (state g) w' →
  data (Config w' (set_thread tid (Some (c, p')) (threads g)) (returned g)).
Proof.
  intros Hd E Ht Hm Hs He Hno Hl Hf. eapply data_change; try done.
  - unfold shaped. rewrite Ht, Hm. apply (d_shaped _ Hd).
  - intros u c2 p2 _ _. by apply local_ext.
  - intros key _ Hoth. rewrite Ht, He. apply (d_agree _ Hd). intros u c2 p2 Eu.
    destruct (decide (u = tid)) as [->|Hne]; [|by eapply Hoth]. rewrite E in Eu. injection Eu as <- <-. apply Hno.
  - rewrite Hs, He. apply (d_size _ Hd).
Qed.

(** Another thread has no mutex of [tid]. *)
Lemma not_both g tid c p u c2 p2 i :
  locked g → threads g tid = Some (c, p) → threads g u = Some (c2, p2) → u ≠ tid → i < mutexes_ (this (state g)) →
  has (this (state g)) c p i → has (this (state g)) c2 p2 i → False.
Proof. intros Hg E Eu Hne Hi H1 H2. apply Hne. apply (holds_exclusive g i); [done|done|by exists c2, p2|by exists c, p]. Qed.

Lemma mutex_range (x : t K V) key : shaped x → mutex_of hasher_ x key < mutexes_ x.
Proof. intros (?&_). apply Nat.mod_upper_bound. lia. Qed.

(** What a thread relies on while another, at a place with the mutex of [key], changes the
    list of [key]. *)
Lemma local_other_list g tid c p key u c2 p2 (tb : table) :
  locked g → shaped (this (state g)) → threads g tid = Some (c, p) → threads g u = Some (c2, p2) → u ≠ tid →
  has (this (state g)) c p (mutex_of hasher_ (this (state g)) key) → length tb = length (table_ (this (state g))) →
  (∀ i, i ≠ list_of hasher_ (this (state g)) key → lists_at tb i = lists_at (table_ (this (state g))) i) →
  (∀ k, k ≠ key → contents tb !! k = contents (table_ (this (state g))) !! k) →
  local (state g) c2 p2 → local (set_this (set_table tb (this (state g))) (state g)) c2 p2.
Proof.
  intros Hg Hsh E Eu Hne Hh Hlen Hlist Hkey. pose proof (mutex_range _ key Hsh) as Hr.
  assert (¬ has (this (state g)) c2 p2 (mutex_of hasher_ (this (state g)) key)) as Hno
    by (intros Hh2; exact (not_both g tid c p u c2 p2 _ Hg E Eu Hne Hr Hh Hh2)).
  assert (∀ k2, list_of hasher_ (set_table tb (this (state g))) k2 = list_of hasher_ (this (state g)) k2) as Hlo
    by (intros k2; unfold list_of; cbn; by rewrite Hlen).
  destruct p2 as [| |i|i l| |res|r need|r|r i|r|r tb'|r i|r|i| | |i| |r]; cbn [local has] in *; cbv zeta in *; cbn [set_this this]; try done.
  - intros (k2&?&->). exists k2. by rewrite Hlo.
  - intros (k2&Hk2&->&Hl). exists k2. rewrite Hlo. split_and!; [done|done|]. cbn [set_table table_]. rewrite Hlist; [done|].
    intros Heq. apply Hno. rewrite Hk2. cbn. f_equal. by apply (shaped_stripe _ _ _ Hsh).
  - cbn [set_table table_ set_this meaning]. destruct c2 as [k2 v|k2| |k2|k2|]; try done; intros [Hc Hm]; (split; [|done]);
      (rewrite Hkey; [done|]); intros ->; by apply Hno.
Qed.

Lemma data_Put g tid c i l :
  locked g → data g → threads g tid = Some (c, Put i l) →
  data (Config (set_this (set_table (<[i := l]> (table_ (this (state g)))) (this (state g))) (state g))
    (set_thread tid (Some (c, Count)) (threads g)) (returned g)).
Proof.
  intros Hg Hd E. pose proof (d_shaped _ Hd) as Hsh. pose proof (d_local _ Hd _ _ _ E) as (key&Hk&->&Hl).
  pose proof (shaped_length _ Hsh) as Hn. pose proof Hsh as (HM&[k Hlen]&Hp).
  destruct (look_change c key _ l Hp Hn Hk Hl) as (Hp'&Hlen'&Hother&Hmine). fold (list_of hasher_ (this (state g)) key) in *.
  set (tb' := <[list_of hasher_ (this (state g)) key := l]> (table_ (this (state g)))) in *.
  assert (mutex_of hasher_ (this (state g)) <$> key_of c = Some (mutex_of hasher_ (this (state g)) key)) as Hhas by (by rewrite Hk).
  assert (∀ u c2 p2, u ≠ tid → threads g u = Some (c2, p2) → ¬ pending key c2 p2) as Hnp.
  { intros u c2 p2 Hne Eu Hpe. eapply (not_both g tid c _ u c2 p2 (mutex_of hasher_ (this (state g)) key)); try done.
    - by apply mutex_range.
    - destruct Hpe as [[-> Hk2]| ->]; cbn; [by rewrite Hk2|by apply mutex_range]. }
  assert (contents (table_ (this (state g))) !! key = meaning (state g) !! key) as Hag.
  { apply (d_agree _ Hd). intros u c2 p2 Eu. destruct (decide (u = tid)) as [->|Hne]; [|by eapply Hnp].
    rewrite E in Eu. injection Eu as <- <-. by intros [[? _]|?]. }
  eapply data_change; [done|done| | | | |apply (d_size _ Hd)|by left].
  - split_and!; [done|cbn; exists k; congruence|done].
  - intros u c2 p2 Hne Eu. eapply (local_other_list g tid c _ key u); [done|done|exact E|done|done|exact Hhas|done| |done].
    intros j Hj. unfold lists_at, tb'. by rewrite list_lookup_insert_ne.
  - cbn [local]. cbv zeta. cbn [set_this this set_table table_ meaning]. destruct c as [k1 v|k1| |k1|k1|]; try done; injection Hk as ->;
      destruct Hmine as [Hm1 Hm2]; (split; [done|]); by rewrite <-Hag.
  - intros k2 Hnp2 Hoth. cbn [set_this this set_table table_ meaning]. destruct (decide (k2 = key)) as [->|Hne].
    { destruct Hnp2. by left. }
    rewrite Hother by done. apply (d_agree _ Hd). intros u c2 p2 Eu. destruct (decide (u = tid)) as [->|?]; [|by eapply Hoth].
    rewrite E in Eu. injection Eu as <- <-. by intros [[? _]|?].
Qed.

(** [++size_] and [--size_]: the call takes effect. *)
Lemma data_Count g tid c key n m' p' :
  locked g → data g → threads g tid = Some (c, Count) → key_of c = Some key →
  spec_call c (meaning (state g)) = (RBool true, m') → contents (table_ (this (state g))) !! key = m' !! key →
  (∀ k, k ≠ key → m' !! k = meaning (state g) !! k) → n = size m' →
  local (commit tid c (RBool true) (set_this (set_size n (this (state g))) (state g))) c p' →
  (∀ k, ¬ pending k c p') → answer p' = Some (RBool true) →
  data (Config (commit tid c (RBool true) (set_this (set_size n (this (state g))) (state g)))
    (set_thread tid (Some (c, p')) (threads g)) (returned g)).
Proof.
  intros Hg Hd E Hk Hspec Hc Hother Hn Hl Hnp Ha. pose proof (d_shaped _ Hd) as Hsh.
  assert (∀ u c2 p2, u ≠ tid → threads g u = Some (c2, p2) → ¬ pending key c2 p2) as Hno.
  { intros u c2 p2 Hne Eu Hpe. eapply (not_both g tid c _ u c2 p2 (mutex_of hasher_ (this (state g)) key)); try done.
    - by apply mutex_range.
    - cbn. by rewrite Hk.
    - destruct Hpe as [[-> Hk2]| ->]; cbn; [by rewrite Hk2|by apply mutex_range]. }
  assert (meaning (commit tid c (RBool true) (set_this (set_size n (this (state g))) (state g))) = m') as Hm by (cbn; by rewrite Hspec).
  eapply data_change; [done|done|exact Hsh| |done| | |].
  - intros u c2 p2 Hne Eu. pose proof (Hno u c2 p2 Hne Eu) as Hp2. destruct p2; try done. cbn [local]. cbv zeta. rewrite Hm. cbn [commit this set_this set_size table_].
    destruct c2 as [k2 v|k2| |k2|k2|]; try done; (rewrite Hother; [done|]); intros ->; apply Hp2; by left.
  - intros k2 _ Hoth. rewrite Hm. cbn [commit this set_this set_size table_]. destruct (decide (k2 = key)) as [->|Hne]; [done|].
    rewrite Hother by done. apply (d_agree _ Hd). intros u c2 p2 Eu. destruct (decide (u = tid)) as [->|?]; [|by eapply Hoth].
    rewrite E in Eu. injection Eu as <- <-. intros [[_ Hk2]|?]; [congruence|done].
  - by rewrite Hm.
  - right. exists (RBool true). rewrite Hm. by split_and!.
Qed.

(** A thread without mutexes relies on nothing that a thread with all of them changes. *)
Lemma local_unlocked w w' c p :
  (∀ i, i < mutexes_ (this w) → ¬ has (this w) c p i) → shaped (this w) → mutexes_ (this w') = mutexes_ (this w) →
  local w c p → local w' c p.
Proof.
  intros Hno Hsh Hm. pose proof Hsh as (HM&_). destruct p; cbn [local has] in *; cbv zeta; rewrite ?Hm; try done.
  - intros (key&Hk&_). destruct (Hno (mutex_of hasher_ (this w) key)); [by apply mutex_range|by rewrite Hk].
  - intros (key&Hk&_). destruct (Hno (mutex_of hasher_ (this w) key)); [by apply mutex_range|by rewrite Hk].
  - destruct c as [key v|key| |key|key|]; try done; destruct (Hno (mutex_of hasher_ (this w) key)); done || by apply mutex_range.
  - destruct (Hno 0); lia.
  - destruct (Hno 0); lia.
Qed.

(** A thread with all mutexes changes the table, the map and the counter. *)
Lemma data_all g tid c p p' w' :
  locked g → data g → threads g tid = Some (c, p) → (∀ i, i < mutexes_ (this (state g)) → has (this (state g)) c p i) →
  shaped (this w') → mutexes_ (this w') = mutexes_ (this (state g)) → local w' c p' →
  (p' = ClearSize ∨ contents (table_ (this w')) = meaning w') → size_ (this w') = size (meaning w') →
  effect tid c p p' (state g) w' →
  data (Config w' (set_thread tid (Some (c, p')) (threads g)) (returned g)).
Proof.
  intros Hg Hd E Hall Hsh Hm Hl Hc Hs Hf. eapply data_change; try done.
  - intros u c2 p2 Hne Eu. apply local_unlocked; [|apply (d_shaped _ Hd)|done]. intros i Hi Hh.
    exact (not_both g tid c p u c2 p2 i Hg E Eu Hne Hi (Hall i Hi) Hh).
  - intros key Hnp _. destruct Hc as [->| ->]; [|done]. destruct Hnp. by right.
Qed.

(** With all mutexes and nothing pending the table agrees with the map. *)
Lemma agree_all g tid c p :
  locked g → data g → threads g tid = Some (c, p) → (∀ i, i < mutexes_ (this (state g)) → has (this (state g)) c p i) →
  p ≠ Count → p ≠ ClearSize → contents (table_ (this (state g))) = meaning (state g).
Proof.
  intros Hg Hd E Hall H1 H2. pose proof (d_shaped _ Hd) as Hsh. apply map_eq. intros key. apply (d_agree _ Hd). intros u c2 p2 Eu Hp.
  destruct (decide (u = tid)) as [->|Hne].
  - rewrite E in Eu. injection Eu as <- <-. by destruct Hp as [[? _]|?].
  - pose proof (mutex_range _ key Hsh) as Hr. eapply (not_both g tid c p u c2 p2 _ Hg E Eu Hne Hr); [by apply Hall|].
    destruct Hp as [[-> Hk]| ->]; cbn; [by rewrite Hk|done].
Qed.

(** Every step of a thread keeps [data]. *)
Lemma data_thread_step g tid c p p' w' :
  locked g → data g → threads g tid = Some (c, p) → thread_step tid c p (state g) = Some (p', w') →
  data (Config w' (set_thread tid (Some (c, p')) (threads g)) (returned g)).
Proof.
  intros Hg Hd E Hs. pose proof (d_shaped _ Hd) as Hsh. pose proof (d_local _ Hd _ _ _ E) as Hl. pose proof Hsh as (HM&_&Hp).
  assert (∀ i w1, lock i tid (state g) = Some w1 → table_ (this w1) = table_ (this (state g)) ∧ mutexes_ (this w1) = mutexes_ (this (state g)) ∧
    size_ (this w1) = size_ (this (state g)) ∧ meaning w1 = meaning (state g) ∧ history w1 = history (state g)) as Hlock.
  { intros i w1. unfold lock. destruct (_ !! i) as [[?|]|]; try done. by intros [= <-]. }
  assert (∀ q, q ≠ Count → q ≠ ClearSize → ∀ key, ¬ pending key c q) as Hnp by (intros q ? ? key [[? _]|?]; done).
  destruct p as [| |i|i l| |res|r need|r|r i|r|r tb|r i|r|i| | |i| |r]; cbn [thread_step] in Hs; cbv zeta in Hs; cbn [local] in Hl; cbv zeta in Hl.
  - destruct (key_of c) as [key|] eqn:Ek; cbn in Hs; [|done]. destruct (lock _ tid _) as [w1|] eqn:El; cbn in Hs; [|done]. injection Hs as <- <-.
    destruct (Hlock _ _ El) as (?&?&?&?&?). eapply data_quiet; try done; [by apply Hnp|cbn; by rewrite Ek|by left].
  - destruct (key_of c) as [key|] eqn:Ek; cbn in Hs; [|done]. injection Hs as <- <-. eapply data_quiet; try done; [by apply Hnp|by exists key|by left].
  - destruct Hl as (key&Hk&->). destruct (look c _) as [l|r] eqn:El; injection Hs as <- <-.
    + eapply data_quiet; try done; [by apply Hnp|by exists key|by left].
    + assert (contents (table_ (this (state g))) !! key = meaning (state g) !! key) as Hag.
      { apply (d_agree _ Hd). intros u c2 p2 Eu Hpe. destruct (decide (u = tid)) as [->|Hne].
        - rewrite E in Eu. injection Eu as <- <-. by destruct Hpe as [[? _]|?].
        - pose proof (mutex_range _ key Hsh) as Hr. eapply (not_both g tid c _ u c2 p2 _ Hg E Eu Hne Hr); [cbn; by rewrite Hk|].
          destruct Hpe as [[-> Hk2]| ->]; cbn; [by rewrite Hk2|done]. }
      destruct (look_reply c key _ r _ Hp (shaped_length _ Hsh) Hk El Hag) as [Hspec Hr].
      eapply data_quiet; try done; [cbn; by rewrite Hspec|by apply Hnp|destruct c; cbn; done || by rewrite Hk|].
      right. exists r. split_and!; [done|cbn; by rewrite Hspec|done|]. destruct c; try done. by rewrite Hr.
  - injection Hs as <- <-. by apply data_Put.
  - destruct c as [key v|key| |key|key|]; try done; injection Hs as <- <-; destruct Hl as [Hc Hm].
    + eapply (data_Count g tid _ key _ (<[key := v]> (meaning (state g)))); try done.
      * cbn. by rewrite Hm.
      * by rewrite lookup_insert_eq.
      * intros k Hne. by rewrite lookup_insert_ne.
      * rewrite map_size_insert_None by done. by rewrite (d_size _ Hd).
      * by exists key.
      * by apply Hnp.
    + eapply (data_Count g tid _ key _ (delete key (meaning (state g)))); try done.
      * cbn. by rewrite bool_decide_true.
      * by rewrite lookup_delete_eq.
      * intros k Hne. by rewrite lookup_delete_ne.
      * rewrite map_size_delete_Some by done. by rewrite (d_size _ Hd).
      * by exists key.
      * by apply Hnp.
  - injection Hs as <- <-. eapply data_quiet; try done; [by apply Hnp|by left].
  - destruct (key_of c) as [key|] eqn:Ek; cbn in Hs; [|done]. injection Hs as <- <-. eapply data_quiet; try done; [by apply Hnp|by destruct need|].
    left. by destruct need.
  - unfold test_and_set in Hs. destruct (is_rehashing_ _); injection Hs as <- <-; (eapply data_quiet; try done; solve [by apply Hnp|by left|cbn; lia]).
  - case_decide.
    + destruct (lock _ tid _) as [w1|] eqn:El; cbn in Hs; [|done]. injection Hs as <- <-. destruct (Hlock _ _ El) as (?&Hm&?&?&?).
      eapply data_quiet; try done; [by apply Hnp|cbn; rewrite Hm; lia|by left].
    + injection Hs as <- <-. eapply data_quiet; try done; [by apply Hnp|by left].
  - injection Hs as <- <-. eapply data_quiet; try done; [by apply Hnp|by left].
  - injection Hs as <- <-. subst tb. destruct (shaped_rehash _ Hsh) as [Hsh' Hc].
    eapply data_all; try done; [cbn; lia|right; etrans; [exact Hc|by eapply agree_all]|apply (d_size _ Hd)|by left].
  - destruct i as [|i]; injection Hs as <- <-; (eapply data_quiet; try done; solve [by apply Hnp|by left|cbn in *; lia]).
  - injection Hs as <- <-. eapply data_quiet; try done; [by apply Hnp|by left].
  - case_decide.
    + destruct (lock _ tid _) as [w1|] eqn:El; cbn in Hs; [|done]. injection Hs as <- <-. destruct (Hlock _ _ El) as (?&Hm&?&?&?).
      destruct Hl. eapply data_quiet; try done; [by apply Hnp|cbn; rewrite Hm; split; [lia|done]|by left].
    + injection Hs as <- <-. destruct Hl. eapply data_quiet; try done; [by apply Hnp|by left].
  - injection Hs as <- <-. destruct (shaped_clear _ Hsh) as [Hsh' Hc].
    eapply data_all; try done; [by left|apply (d_size _ Hd)|by left].
  - injection Hs as <- <-. destruct Hl as [-> Hc]. eapply data_all; try done; [cbn; lia|by right|].
    right. exists RUnit. done.
  - destruct i as [|i]; injection Hs as <- <-; (eapply data_quiet; try done; solve [by apply Hnp|by left|cbn in *; lia]).
  - injection Hs as <- <-. subst c. eapply data_quiet; try done; [by apply Hnp|]. right. eexists. split_and!; try done.
    cbn. unfold Size. by rewrite (d_size _ Hd).
  - done.
Qed.

(** ** The flag *)

Record flagged (g : config) : Prop := {
  f_set : ∀ tid, rehashing_at (threads g tid) = true → is_rehashing_ (this (state g)) = true;
  f_one : ∀ i j, rehashing_at (threads g i) = true → rehashing_at (threads g j) = true → i = j
}.

Lemma flagged_same g tid x w' rs :
  flagged g → is_rehashing_ (this w') = is_rehashing_ (this (state g)) →
  (rehashing_at x = true → rehashing_at (threads g tid) = true) →
  flagged (Config w' (set_thread tid x (threads g)) rs).
Proof.
  intros [Hs Ho] Hf Hx.
  assert (∀ u, rehashing_at (set_thread tid x (threads g) u) = true → rehashing_at (threads g u) = true) as Hu.
  { intros u. destruct (decide (u = tid)) as [->|?]; [by rewrite set_thread_same|by rewrite set_thread_other]. }
  split; cbn [state threads]; [intros u Hr; rewrite Hf; by eapply Hs, Hu|]. intros i j Hi Hj. apply Ho; by apply Hu.
Qed.

Lemma flagged_thread_step g tid c p p' w' :
  flagged g → threads g tid = Some (c, p) → thread_step tid c p (state g) = Some (p', w') →
  flagged (Config w' (set_thread tid (Some (c, p')) (threads g)) (returned g)).
Proof.
  intros Hg E Hs.
  assert (∀ i w1, lock i tid (state g) = Some w1 → is_rehashing_ (this w1) = is_rehashing_ (this (state g))) as Hlock.
  { intros i w1. unfold lock. destruct (_ !! i) as [[?|]|]; try done. by intros [= <-]. }
  destruct p as [| |i|i l| |res|r need|r|r i|r|r tb|r i|r|i| | |i| |r]; cbn [thread_step] in Hs; cbv zeta in Hs;
    try (injection Hs as <- <-; apply flagged_same; [done|done|by rewrite E]).
  - destruct (key_of c); cbn in Hs; [|done]. destruct (lock _ tid _) eqn:El; cbn in Hs; [|done]. injection Hs as <- <-. apply flagged_same; [done|by eapply Hlock|by rewrite E].
  - destruct (key_of c); cbn in Hs; [|done]. injection Hs as <- <-. by apply flagged_same.
  - destruct (look c _); injection Hs as <- <-; apply flagged_same; try done. by destruct c.
  - destruct c; injection Hs as <- <-; by apply flagged_same.
  - destruct (key_of c); cbn in Hs; [|done]. injection Hs as <- <-. apply flagged_same; [done|done|by destruct need].
  - unfold test_and_set in Hs. destruct (is_rehashing_ (this (state g))) eqn:Ef; injection Hs as <- <-; [apply flagged_same; [done|by rewrite Ef|done]|].
    assert (∀ u, rehashing_at (threads g u) = true → False) as Hno by (intros u Hu; apply (f_set _ Hg) in Hu; congruence).
    split; cbn [state threads]; [done|]. intros i j.
    destruct (decide (i = tid)) as [->|]; [|rewrite set_thread_other by done; by intros ?%Hno].
    destruct (decide (j = tid)) as [->|]; [done|]. intros _. rewrite set_thread_other by done. by intros ?%Hno.
  - case_decide; [destruct (lock _ tid _) eqn:El; cbn in Hs; [|done]|]; injection Hs as <- <-; apply flagged_same; rewrite ?E; try done. by eapply Hlock.
  - destruct i; injection Hs as <- <-; apply flagged_same; by rewrite ?E.
  - injection Hs as <- <-. assert (∀ u, u ≠ tid → rehashing_at (threads g u) = true → False) as Hno.
    { intros u Hu Hr. apply Hu, (f_one _ Hg); [done|]. by rewrite E. }
    split; cbn [state threads]; [intros u|intros u j]; (destruct (decide (u = tid)) as [->|]; [by rewrite set_thread_same|]);
      rewrite set_thread_other by done; intros Hr; by destruct (Hno u).
  - case_decide; [destruct (lock _ tid _) eqn:El; cbn in Hs; [|done]|]; injection Hs as <- <-; apply flagged_same; try done. by eapply Hlock.
  - destruct i; injection Hs as <- <-; by apply flagged_same.
  - done.
Qed.

(** ** All of it *)

Record inv (g : config) : Prop := { inv_locked : locked g; inv_data : data g; inv_flagged : flagged g }.

(** A thread that starts or ends a call. *)
Lemma inv_outside g tid c x rs :
  inv g → (∀ i p, x = Some (c, p) → ¬ has (this (state g)) c p i) → (∀ p, x = Some (c, p) → local (state g) c p ∧ ∀ key, ¬ pending key c p) →
  x = None ∨ (∃ p, x = Some (c, p)) → rehashing_at x = false →
  (∀ i, ¬ holds g tid i) → (∀ c2 p2 key, threads g tid = Some (c2, p2) → ¬ pending key c2 p2) →
  (∀ u, of_owner u (returned g) ++ unreturned (threads g u) = of_owner u rs ++ unreturned (set_thread tid x (threads g) u)) →
  inv (Config (state g) (set_thread tid x (threads g)) rs).
Proof.
  intros [Hg Hd Hf] Hhas Hloc Hx Hr Hno Hnp Hev.
  assert (x = pair c <$> (snd <$> x)) as Ex by (destruct Hx as [->|[p ->]]; done). split.
  - rewrite Ex. apply (locked_change g tid c); [done..|]. intros i Hi. rewrite (l_owner _ Hg) by done.
    split; [by intros ?%Hno|]. destruct Hx as [->|[p ->]]; cbn; [done|]. intros Hh. by destruct (Hhas i p eq_refl).
  - destruct Hd. split; cbn [state threads returned]; try done.
    + intros u c2 p2. destruct (decide (u = tid)) as [->|?]; [|rewrite set_thread_other by done; by apply d_local0].
      rewrite set_thread_same. intros ->. destruct Hx as [?|[p [= <- <-]]]; [done|]. by apply Hloc.
    + intros key Hk. apply d_agree0. intros u c2 p2 Eu. destruct (decide (u = tid)) as [->|?]; [by eapply Hnp|].
      apply (Hk u). by rewrite set_thread_other.
    + intros u. by rewrite d_events0.
  - apply flagged_same; [done|done|congruence].
Qed.

Lemma inv_move tid start g g' : inv g → move tid start g = Some g' → inv g'.
Proof.
  intros Hi Hm. pose proof Hi as [Hg Hd Hf]. unfold move in Hm. destruct (threads g tid) as [[c p]|] eqn:E.
  - assert (∀ p' w, thread_step tid c p (state g) = Some (p', w) →
      inv (Config w (set_thread tid (Some (c, p')) (threads g)) (returned g))) as Hstep.
    { intros p' w Hs. split; [by eapply locked_thread_step; try done; apply (d_shaped _ Hd)|by eapply data_thread_step|by eapply flagged_thread_step]. }
    destruct p as [| |i|i l| |res|r need|r|r i|r|r tb|r i|r|i| | |i| |r];
      try (destruct (thread_step _ _ _ _) as [[p' w]|]; cbn in Hm; [|done]; injection Hm as <-; by apply Hstep).
    injection Hm as <-. apply (inv_outside _ _ c); try done; [by left|..].
    + intros i (c2&p2&E2&Hh). rewrite E in E2. by injection E2 as <- <-.
    + intros c2 p2 key E2. rewrite E in E2. injection E2 as <- <-. by intros [[? _]|?].
    + intros u. destruct (decide (u = tid)) as [->|Hne].
      * rewrite E, set_thread_same, of_owner_app, of_owner_here. cbn. by rewrite app_nil_r.
      * by rewrite set_thread_other, of_owner_app, of_owner_other, app_nil_r by done.
  - injection Hm as <-. apply (inv_outside _ _ start); try done.
    + intros i p [= <-]. destruct start; cbn; done || lia.
    + intros p [= <-]. split; [destruct start; cbn; try done; try (by eexists); split; [lia|done]|].
      intros key [[Hp _]|Hp]; by destruct start.
    + right. by eexists.
    + by destruct start.
    + intros i (c2&p2&E2&_). congruence.
    + congruence.
    + intros u. destruct (decide (u = tid)) as [->|Hne]; [|by rewrite set_thread_other].
      rewrite E, set_thread_same. by destruct start.
Qed.

Lemma inv_init expected_size tc g :
  (0 < tc)%Z → (0 <= expected_size ∨ expected_size = kUndefinedSize)%Z → init expected_size tc g → inv g.
Proof.
  intros Ht He ->. destruct (make_wf (V := V) hasher_ expected_size tc Ht He) as ((HM&Hk&Hp&Hs)&Habs&_). split.
  - split; cbn [state locks this]; [apply length_replicate|]. intros i tid Hi. split; [|by intros (?&?&?&_)].
    intros [? _]%lookup_replicate. done.
  - split; cbn [state this threads history meaning returned]; try done. intros key _. by rewrite <-Habs.
  - by split.
Qed.

Lemma inv_reachable expected_size tc g :
  (0 < tc)%Z → (0 <= expected_size ∨ expected_size = kUndefinedSize)%Z →
  reachable (init expected_size tc) step g → inv g.
Proof.
  intros Ht He. apply invariant_reachable; [intros c; by apply inv_init|]. intros c c' Hc (tid&start&Hm). by eapply inv_move.
Qed.

(** ** No deadlock *)

(** A thread that cannot move waits for a mutex that is taken. *)
Lemma blocked g tid c p start :
  inv g → threads g tid = Some (c, p) → move tid start g = None →
  ∃ i u, waits (this (state g)) c p = Some i ∧ i < mutexes_ (this (state g)) ∧ holds g u i.
Proof.
  intros [Hg Hd _] E Hm. unfold move in Hm. rewrite E in Hm. pose proof (d_local _ Hd _ _ _ E) as Hl. pose proof (d_shaped _ Hd) as Hsh.
  assert (∀ i, i < mutexes_ (this (state g)) → lock i tid (state g) = None → ∃ u, holds g u i) as Htaken.
  { intros i Hi Hlock. unfold lock in Hlock. destruct (locks (state g) !! i) as [[u|]|] eqn:Ei; [|done|].
    - exists u. by apply (l_owner _ Hg).
    - apply lookup_ge_None in Ei. rewrite (l_length _ Hg) in Ei. lia. }
  assert (thread_step tid c p (state g) = None) as Hs by (by destruct p; try (destruct (thread_step _ _ _ _) as [[??]|])).
  destruct p as [| |i|i l| |res|r need|r|r i|r|r tb|r i|r|i| | |i| |r]; cbn [thread_step] in Hs; cbv zeta in Hs; cbn [local waits] in *; cbv zeta in *; try done.
  - destruct Hl as [key Hk]. rewrite Hk in *. cbn in *. destruct (lock _ tid _) eqn:El; [done|]. pose proof (mutex_range _ key Hsh).
    destruct (Htaken _ ltac:(done) El) as [u ?]. by eexists _, u.
  - destruct Hl as [key Hk]. by rewrite Hk in Hs.
  - by destruct (look c _).
  - by destruct c.
  - destruct Hl as [key Hk]. by rewrite Hk in Hs.
  - case_decide; [|done]. destruct (lock _ tid _) eqn:El; [done|]. destruct (Htaken _ ltac:(done) El) as [u ?]. by exists i, u.
  - by destruct i.
  - case_decide; [|done]. destruct (lock _ tid _) eqn:El; [done|]. destruct (Htaken _ ltac:(done) El) as [u ?]. by exists i, u.
  - by destruct i.
Qed.

(** A thread waits for a mutex above those that it has. *)
Lemma waits_above (x : t K V) c p i j : has x c p i → waits x c p = Some j → i < j.
Proof. destruct p; cbn; try done; case_decide; try done; by intros ? [= <-]. Qed.

Lemma holder_moves g start n i tid :
  inv g → i < mutexes_ (this (state g)) → mutexes_ (this (state g)) ≤ i + n → holds g tid i →
  ∃ u g', threads g u ≠ None ∧ move u start g = Some g'.
Proof.
  intros Hi. revert i tid. induction n as [|n IH]; intros i tid Hlt Hle (c&p&E&Hh); [lia|].
  destruct (move tid start g) as [g'|] eqn:Em; [exists tid, g'; by rewrite E|].
  destruct (blocked g tid c p start Hi E Em) as (j&u&Hw&Hj&Hu). pose proof (waits_above _ _ _ _ _ Hh Hw).
  apply (IH j u); [done|lia|done].
Qed.

Lemma no_deadlock g tid start :
  inv g → threads g tid ≠ None → ∃ u g', threads g u ≠ None ∧ move u start g = Some g'.
Proof.
  intros Hi Hne. destruct (threads g tid) as [[c p]|] eqn:E; [|done].
  destruct (move tid start g) as [g'|] eqn:Em; [exists tid, g'; by rewrite E|].
  destruct (blocked g tid c p start Hi E Em) as (j&u&_&Hj&Hu).
  eapply (holder_moves g start (mutexes_ (this (state g))) j u); [done|done|lia|done].
Qed.
End HashLocks.

(** ** Properties *)

(** C8 Any number of threads that call [Insert], [Erase], [Clear], [Find], [At] and [Size] at will
    on a new table, in every interleaving of their accesses: the calls take effect one after the
    other, as on a finite map, and each thread returns the replies of that history, for its calls
    in their order, every effect falling between the call and the return; when no call is under
    way, the table holds the finite map.  A mutex has at most one owner, which is the thread that
    the code says; at most one thread is rehashing; and there is no deadlock: while some call is
    under way, some thread within a call can move. *)
Theorem hash_map_linearizable {K V : Type} `{Countable K, !KeyOrder K} (hasher_ : K → nat)
    (expected_size expected_threads_count : Z) (g : config (K := K) (V := V)) :
  (0 < expected_threads_count)%Z → (0 <= expected_size ∨ expected_size = kUndefinedSize)%Z →
  reachable (init expected_size expected_threads_count) (step hasher_) g →
  sequential ∅ (history (state g)) (meaning (state g)) ∧
  (∀ tid, of_owner tid (history (state g)) = of_owner tid (returned g) ++ unreturned (threads g tid)) ∧
  ((∀ tid, threads g tid = None) → contents (table_ (this (state g))) = meaning (state g)) ∧
  (∀ i tid, i < mutexes_ (this (state g)) → locks (state g) !! i = Some (Some tid) ↔ holds hasher_ g tid i) ∧
  (∀ i j, rehashing_at (threads g i) = true → rehashing_at (threads g j) = true → i = j) ∧
  (∀ tid start, threads g tid ≠ None → ∃ u g', threads g u ≠ None ∧ move hasher_ u start g = Some g').
Proof.
  intros Ht He Hr. pose proof (inv_reachable hasher_ _ _ _ Ht He Hr) as Hi. pose proof Hi as [Hg Hd Hf]. split_and!.
  - apply (d_sequential _ _ Hd).
  - apply (d_events _ _ Hd).
  - intros Hidle. apply map_eq. intros key. apply (d_agree _ _ Hd). intros tid c p E. by rewrite Hidle in E.
  - apply (l_owner _ _ Hg).
  - apply (f_one _ Hf).
  - intros tid start. by apply no_deadlock.
Qed.

(** ** Witness: three threads on one mutex *)

Module HashDemo.

Fixpoint moves (ms : list (nat * call (K := Z) (V := Z))) (g : config) : option config :=
  match ms with
  | [] => Some g
  | (tid, start) :: ms => match move Z.to_nat tid start g with Some g => moves ms g | None => None end
  end.

Definition first : config (K := Z) (V := Z) := Config (World (make 1 1) [None] ∅ []) (λ _, None) [].

Lemma moves_reachable ms g g' :
  reachable (init 1 1) (step Z.to_nat) g → moves ms g = Some g' → reachable (init 1 1) (step Z.to_nat) g'.
Proof.
  revert g. induction ms as [|[tid start] ms IH]; intros g Hg; cbn [moves]; [by intros [= <-]|].
  destruct (move Z.to_nat tid start g) as [g1|] eqn:E; [|done]. apply IH. eapply reachable_step; [exact Hg|]. by exists tid, start.
Qed.

(** Thread 0 inserts 1; thread 1 inserts 5 up to the change of the list, where thread 2 reads the
    size and thread 0 has to wait with [Erase]; then thread 1 inserts 9 and rehashes. *)
Definition schedule : list (nat * call (K := Z) (V := Z)) :=
  replicate 9 (0, CInsert 1%Z 10%Z) ++ replicate 5 (1, CInsert 5%Z 50%Z) ++ replicate 3 (2, CSize) ++ replicate 1 (0, CErase 7%Z) ++
  replicate 4 (1, CInsert 5%Z 50%Z) ++ replicate 14 (1, CInsert 9%Z 90%Z).

Definition replies (g : config (K := Z) (V := Z)) : list (nat * reply (V := Z)) := (λ e, (e.1, e.2.2)) <$> history (state g).

Lemma hash_map_linearizable_witness :
  ∃ g, moves schedule first = Some g ∧
    replies g = [(0, RBool true); (2, RSize 1); (1, RBool true); (1, RBool true)] ∧
    table_ (this (state g)) = [[]; [(1, 10); (5, 50); (9, 90)]]%Z ∧
    sequential ∅ (history (state g)) (meaning (state g)) ∧
    (∃ u g', threads g u ≠ None ∧ move Z.to_nat u CSize g = Some g').
Proof.
  assert (option_map (λ g, (replies g, table_ (this (state g)), bool_decide (threads g 0 = None))) (moves schedule first) =
    Some ([(0, RBool true); (2, RSize 1); (1, RBool true); (1, RBool true)], [[]; [(1, 10); (5, 50); (9, 90)]]%Z, false)) as Hrun
    by (vm_compute; reflexivity).
  destruct (moves schedule first) as [g|] eqn:E; [|discriminate]. injection Hrun as H1 H2 H3. exists g. split; [reflexivity|].
  destruct (hash_map_linearizable Z.to_nat 1 1 g) as (Hs&_&_&_&_&Hd).
  - lia.
  - lia.
  - eapply moves_reachable; [|exact E]. apply reachable_init. reflexivity.
  - split_and!; [exact H1|exact H2|exact Hs|]. apply (Hd 0). intros H0. rewrite H0 in H3. discriminate.
Defined.

End HashDemo.
