(* ===== verification/SubsetSum.v ===== *)
(** * Subsets with equal sums (subset-sum/find_subsets.cpp)

    A [Combination] is a set of indices, the bits of [choice], and a side for
    each, the bits of [variant].  The search meets in the middle: all signed sums
    of the first half are stored in a map, and those of the second half are looked
    up in it, by one thread or by eight.  A signed vector has for each index of the
    data no sign, plus or minus; combinations are shown to stand for signed
    vectors, and the result to be correct and complete. *)

From S2P Require Import Prelude.
Open Scope Z_scope.

Definition kThreadCnt : nat := 8.

Record Combination : Type := mkCombination {
  choice : Z;
  variant : Z;
  hasTwoGroups : bool
}.

Record Subsets : Type := mkSubsets {
  first_indices : list nat;
  second_indices : list nat;
  exists_ : bool
}.

(** The loop of [ComputeSum] over the indices; sums are [int64_t]. *)
Fixpoint ComputeSum_loop (data : list Z) (indices : list nat) (res : Z) (has_two_groups : bool)
    (comb prev_bit : Z) : outcome (Z * bool) :=
  match indices with
  | [] => Ok (res, has_two_groups)
  | index :: indices =>
      let bit := Z.land comb 1 in
      match data !! index with
      | None => Fail UB
      | Some x =>
          res <-? checked64 (if bit =? 0 then res - x else res + x) ;;
          ComputeSum_loop data indices res (has_two_groups || negb (Z.lxor prev_bit bit =? 0))
            (Z.shiftr comb 1) bit
      end
  end.

Definition ComputeSum (data : list Z) (indices : list nat) (variant : Z) : outcome (Z * bool) :=
  ComputeSum_loop data indices 0 false variant (Z.land variant 1).

(** A 64-bit [comb] is zero after 64 iterations. *)
Fixpoint MakeIndices_loop (fuel : nat) (comb : Z) (idx start_index : nat) : list nat :=
  match fuel with
  | O => []
  | S fuel' =>
      if comb =? 0 then []
      else (if Z.land comb 1 =? 0 then [] else [(idx + start_index)%nat])
           ++ MakeIndices_loop fuel' (Z.shiftr comb 1) (S idx) start_index
  end.

Definition MakeIndicesFromChoice (choice : Z) (start_index : nat) : list nat :=
  MakeIndices_loop 64 choice 0 start_index.

Fixpoint SplitIndicesIntoTwoGroups (indices : list nat) (comb : Z) : list nat * list nat :=
  match indices with
  | [] => ([], [])
  | index :: indices =>
      let '(first, second) := SplitIndicesIntoTwoGroups indices (Z.shiftr comb 1) in
      if Z.land comb 1 =? 0 then (first, index :: second) else (index :: first, second)
  end.

Definition MakeSubsets (comb : Combination) (start_index : nat) : list nat * list nat :=
  SplitIndicesIntoTwoGroups (MakeIndicesFromChoice (choice comb) start_index) (variant comb).

Definition MergeCombinations (first second : Combination) (start_index : nat) : Subsets :=
  let '(first_indices, second_indices) := MakeSubsets first 0 in
  let '(indices_1, indices_2) := MakeSubsets second start_index in
  mkSubsets (first_indices ++ indices_1) (second_indices ++ indices_2) true.

(** [sums] after a sum has been met. *)
Definition record_sum (sums : gmap Z Combination) (sum choice i : Z) (has_two_groups : bool)
    : gmap Z Combination :=
  match sums !! sum with
  | Some c =>
      if has_two_groups && negb (hasTwoGroups c)
      then <[sum := mkCombination choice i has_two_groups]> sums else sums
  | None => <[sum := mkCombination choice i has_two_groups]> sums
  end.

(** The number of variants, [std::pow(2, chosen_indices.size() - 1)]. *)
Definition variants_cnt (indices : list nat) : Z := 2 ^ (Z.of_nat (length indices) - 1).

Fixpoint ComputeChoice_loop (n : nat) (data : list Z) (choice : Z) (indices : list nat) (i : Z)
    (sums : gmap Z Combination) : outcome (gmap Z Combination) :=
  match n with
  | O => Ok sums
  | S n =>
      x <-? ComputeSum data indices i ;;
      let '(sum, has_two_groups) := x in
      let sums := record_sum sums sum choice i has_two_groups in
      if (sum =? 0) && has_two_groups then Ok sums
      else ComputeChoice_loop n data choice indices (i + 1) sums
  end.

Definition ComputeChoice (data : list Z) (choice : Z) (sums : gmap Z Combination)
    : outcome (gmap Z Combination) :=
  let chosen_indices := MakeIndicesFromChoice choice 0 in
  ComputeChoice_loop (Z.to_nat (variants_cnt chosen_indices)) data choice chosen_indices 0 sums.

Definition solved (sums : gmap Z Combination) : bool :=
  match sums !! 0 with Some c => hasTwoGroups c | None => false end.

Fixpoint ComputeSumMap_loop (n : nat) (data : list Z) (i : Z) (sums : gmap Z Combination)
    : outcome (gmap Z Combination) :=
  match n with
  | O => Ok sums
  | S n =>
      sums <-? ComputeChoice data i sums ;;
      if solved sums then Ok sums else ComputeSumMap_loop n data (i + 1) sums
  end.

Definition ComputeSumMap (data : list Z) (k : nat) : outcome (gmap Z Combination) :=
  let choices_cnt := 2 ^ Z.of_nat k in
  ComputeSumMap_loop (Z.to_nat (choices_cnt - 1)) data 1 ∅.

(** [~i] on [size_t]. *)
Definition complement (i : Z) : Z := u64 (Z.lnot i).

(** One iteration of the loop of [CheckChoice]. *)
Definition CheckVariant (sums : gmap Z Combination) (choice i sum : Z) (has_two_groups : bool)
    : outcome (option (Combination * Combination)) :=
  let first :=
    match sums !! sum with
    | Some found =>
        if has_two_groups || hasTwoGroups found
           || negb (Z.land (Z.lxor (variant found) (complement i)) 1 =? 0)
        then Some (found, mkCombination choice (complement i) has_two_groups) else None
    | None => None
    end in
  match first with
  | Some r => Ok (Some r)
  | None =>
      neg <-? checked64 (- sum) ;;
      let second :=
        match sums !! neg with
        | Some found =>
            if has_two_groups || hasTwoGroups found
               || negb (Z.land (Z.lxor (variant found) i) 1 =? 0)
            then Some (found, mkCombination choice i has_two_groups) else None
        | None => None
        end in
      match second with
      | Some r => Ok (Some r)
      | None =>
          if (sum =? 0) && has_two_groups
          then Ok (Some (mkCombination 0 0 false, mkCombination choice i has_two_groups))
          else Ok None
      end
  end.

Fixpoint CheckChoice_loop (n : nat) (data : list Z) (sums : gmap Z Combination) (choice : Z)
    (indices : list nat) (i : Z) : outcome (option (Combination * Combination)) :=
  match n with
  | O => Ok None
  | S n =>
      x <-? ComputeSum data indices i ;;
      let '(sum, has_two_groups) := x in
      r <-? CheckVariant sums choice i sum has_two_groups ;;
      match r with
      | Some c => Ok (Some c)
      | None => CheckChoice_loop n data sums choice indices (i + 1)
      end
  end.

Definition CheckChoice (data : list Z) (sums : gmap Z Combination) (choice : Z) (start_index : nat)
    : outcome (option (Combination * Combination)) :=
  let chosen_indices := MakeIndicesFromChoice choice start_index in
  CheckChoice_loop (Z.to_nat (variants_cnt chosen_indices)) data sums choice chosen_indices 0.

(** The search by one thread. *)
Fixpoint FindSuitable_loop (n : nat) (data : list Z) (sums : gmap Z Combination) (i : Z) (k : nat)
    : outcome (option (Combination * Combination)) :=
  match n with
  | O => Ok None
  | S n =>
      r <-? CheckChoice data sums i k ;;
      match r with
      | Some c => Ok (Some c)
      | None => FindSuitable_loop n data sums (i + 1) k
      end
  end.

Definition choices_cnt (data : list Z) (k : nat) : Z := 2 ^ (Z.of_nat (length data) - Z.of_nat k).

(** *** The search by eight threads *)

(** Where a thread is in the loop of [ThreadCheckChoices]: about to test the flag,
    checking a choice, about to set the flag, storing its result, returned. *)
Inductive pc : Type :=
| Testing (i : Z)
| Searching (i : Z)
| Found (r : Combination * Combination)
| Storing (r : Combination * Combination)
| Done.

(** A thread: the end of its range and its position. *)
Record thread : Type := mkThread { stop : Z; at_ : pc }.

(** What the threads share, and the threads. *)
Record threads_state : Type := mkThreads {
  combination_exists : bool;
  found_combination : option (Combination * Combination);
  threads : list thread
}.

(** One step of a thread: one access to a shared variable, or the check of one
    choice. *)
Definition ThreadCheckChoices_step (data : list Z) (sums : gmap Z Combination) (start_index : nat)
    (exists_flag : bool) (found : option (Combination * Combination)) (t : thread)
    : outcome (bool * option (Combination * Combination) * pc) :=
  match at_ t with
  | Testing i =>
      Ok (exists_flag, found,
          if i <? stop t then if exists_flag then Done else Searching i else Done)
  | Searching i =>
      r <-? CheckChoice data sums i start_index ;;
      Ok (exists_flag, found, match r with Some r => Found r | None => Testing (i + 1) end)
  | Found r => Ok (true, found, if exists_flag then Done else Storing r)
  | Storing r => Ok (exists_flag, Some r, Done)
  | Done => Ok (exists_flag, found, Done)
  end.

(** The thread with index [tid] takes a step. *)
Definition run_step (data : list Z) (sums : gmap Z Combination) (start_index : nat)
    (tid : nat) (s : threads_state) : outcome threads_state :=
  match threads s !! tid with
  | None => Ok s
  | Some t =>
      x <-? ThreadCheckChoices_step data sums start_index (combination_exists s)
              (found_combination s) t ;;
      let '(flag, found, p) := x in
      Ok (mkThreads flag found (<[tid := mkThread (stop t) p]> (threads s)))
  end.

Definition run_schedule (data : list Z) (sums : gmap Z Combination) (start_index : nat)
    : list nat → threads_state → outcome threads_state :=
  forO (run_step data sums start_index).

(** The threads as they are started.  [current_choice] is an [int]: the sum with a
    [size_t] is converted back to it. *)
Fixpoint start_threads (per_thread residual : Z) (n i : nat) (current_choice : Z) : list thread :=
  match n with
  | O => []
  | S n =>
      let cnt := if Z.of_nat i <? residual then per_thread + 1 else per_thread in
      let choice_start := u64 current_choice in
      mkThread (u64 (choice_start + cnt)) (Testing choice_start)
      :: start_threads per_thread residual n (S i) (s32 (choice_start + cnt))
  end.

Definition is_done (t : thread) : bool := match at_ t with Done => true | _ => false end.

(** The number of steps a thread can still take. *)
Definition steps_left (t : thread) : nat :=
  match at_ t with
  | Testing i => 2 * Z.to_nat (stop t - i) + 3
  | Searching i => 2 * Z.to_nat (stop t - i) + 2
  | Found _ => 2
  | Storing _ => 1
  | Done => 0
  end%nat.

(** The threads take their steps in the order of [schedule]; when it is used up the
    ones that are left run to their ends one after another. *)
Definition complete_schedule (schedule : list nat) (ts : list thread) : list nat :=
  schedule ++ concat (imap (λ tid t, replicate (steps_left t) tid) ts).

Definition FindSuitableCombination (schedule : list nat) (data : list Z)
    (sums : gmap Z Combination) (k : nat) : outcome (option (Combination * Combination)) :=
  let cnt := choices_cnt data k in
  let choices_per_thread := (cnt - 1) `div` Z.of_nat kThreadCnt in
  let residual := (cnt - 1) `mod` Z.of_nat kThreadCnt in
  if choices_per_thread <? 8 then FindSuitable_loop (Z.to_nat (cnt - 1)) data sums 1 k
  else
    let ts := start_threads choices_per_thread residual kThreadCnt 0 1 in
    s <-? run_schedule data sums k (complete_schedule schedule ts) (mkThreads false None ts) ;;
    if forallb is_done (threads s) then Ok (found_combination s) else Fail Fuel.

Definition half (data : list Z) : nat := if (2 <? length data)%nat then length data `div` 2 else 1%nat.

Definition FindEqualSumSubsets (schedule : list nat) (data : list Z) : outcome Subsets :=
  if (length data <? 2)%nat then Ok (mkSubsets [] [] false)
  else
    let k := half data in
    sums <-? ComputeSumMap data k ;;
    match sums !! 0 with
    | Some (mkCombination choice variant true) =>
        let '(first, second) := MakeSubsets (mkCombination choice variant true) 0 in
        Ok (mkSubsets first second true)
    | _ =>
        found <-? FindSuitableCombination schedule data sums k ;;
        Ok (match found with
            | Some (a, b) => MergeCombinations a b k
            | None => mkSubsets [] [] false
            end)
    end.

(** ** Signed vectors *)

Abbreviation svec := (list (option bool)).

Definition contribution (x : Z) (o : option bool) : Z :=
  match o with Some true => x | Some false => - x | None => 0 end.

Fixpoint vsum (data : list Z) (σ : svec) : Z :=
  match data, σ with
  | x :: data, o :: σ => contribution x o + vsum data σ
  | _, _ => 0
  end.

Definition signs (σ : svec) : list bool := omap id σ.
Definition flip (σ : svec) : svec := map (option_map negb) σ.
Definition two_groups (σ : svec) : Prop := true ∈ signs σ ∧ false ∈ signs σ.

#[global] Instance two_groups_dec σ : Decision (two_groups σ).
Proof. unfold two_groups. apply _. Defined.

(** The indices with some sign, with plus, and with minus, counted from [off]. *)
Fixpoint positions (off : nat) (σ : svec) : list nat :=
  match σ with
  | [] => []
  | None :: σ => positions (S off) σ
  | Some _ :: σ => off :: positions (S off) σ
  end.

Fixpoint side (b : bool) (off : nat) (σ : svec) : list nat :=
  match σ with
  | [] => []
  | o :: σ => (if decide (o = Some b) then [off] else []) ++ side b (S off) σ
  end.

(** The signed vector a choice and a variant stand for. *)
Fixpoint decode (n : nat) (c v : Z) : svec :=
  match n with
  | O => []
  | S n =>
      if Z.odd c then Some (Z.odd v) :: decode n (Z.div2 c) (Z.div2 v)
      else None :: decode n (Z.div2 c) v
  end.

Fixpoint encode (σ : svec) : Z * Z :=
  match σ with
  | [] => (0, 0)
  | o :: σ =>
      let '(c, v) := encode σ in
      match o with
      | None => (2 * c, v)
      | Some b => (2 * c + 1, 2 * v + Z.b2z b)
      end
  end.

Lemma land_1_odd c : Z.land c 1 = Z.b2z (Z.odd c).
Proof. rewrite <- Z.bit0_odd. change 1 with (Z.ones 1) at 1. rewrite Z.land_ones by lia.
  by rewrite Z.bit0_mod. Qed.

Lemma shiftr_1_div2 c : Z.shiftr c 1 = Z.div2 c.
Proof. done. Qed.

Lemma div2_odd c : c = 2 * Z.div2 c + Z.b2z (Z.odd c).
Proof. apply Z.div2_odd. Qed.

Lemma div2_double c b : Z.div2 (2 * c + Z.b2z b) = c ∧ Z.odd (2 * c + Z.b2z b) = b.
Proof.
  destruct b; cbn [Z.b2z]; [|rewrite Z.add_0_r].
  - rewrite Z.div2_div, Z.odd_add, Z.odd_mul. split; [|done].
    rewrite Z.mul_comm, Z.div_add_l by lia. change (1 `div` 2) with 0. lia.
  - rewrite Z.div2_div, Z.odd_mul. split; [|done]. rewrite Z.mul_comm. apply Z.div_mul. lia.
Qed.

Lemma div2_bound c n : 0 <= c < 2 ^ Z.of_nat (S n) → 0 <= Z.div2 c < 2 ^ Z.of_nat n.
Proof.
  rewrite Nat2Z.inj_succ, Z.pow_succ_r by lia. pose proof (div2_odd c).
  destruct (Z.odd c); cbn [Z.b2z] in *; lia.
Qed.

Lemma length_decode n c v : length (decode n c v) = n.
Proof.
  revert c v. induction n as [|n IH]; intros c v; cbn; [done|].
  destruct (Z.odd c); cbn; by rewrite IH.
Qed.

Lemma encode_bounds σ :
  0 <= (encode σ).1 < 2 ^ Z.of_nat (length σ) ∧
  0 <= (encode σ).2 < 2 ^ Z.of_nat (length (signs σ)) ∧
  (signs σ ≠ [] → 0 < (encode σ).1) ∧
  (last (signs σ) = Some false → (encode σ).2 < 2 ^ (Z.of_nat (length (signs σ)) - 1)).
Proof.
  induction σ as [|o σ IH]; [done|]. cbn [encode length]. destruct (encode σ) as [c v]. cbn [fst snd] in IH.
  destruct IH as (Hc&Hv&Hpos&Hlast). rewrite Nat2Z.inj_succ, Z.pow_succ_r by lia.
  destruct o as [b|].
  - change (signs (Some b :: σ)) with (b :: signs σ). cbn [length fst snd].
    rewrite Nat2Z.inj_succ, Z.pow_succ_r by lia. split_and!; try lia; [destruct b; cbn [Z.b2z]; lia..|].
    intros Hl. replace (Z.succ (Z.of_nat (length (signs σ))) - 1) with (Z.of_nat (length (signs σ))) by lia.
    destruct (signs σ) as [|b' bs] eqn:E.
    + cbn in Hl, Hv |- *. injection Hl as ->. cbn. lia.
    + specialize (Hlast Hl). cbn [length] in Hlast, Hv |- *.
      rewrite Nat2Z.inj_succ in *. replace (Z.succ (Z.of_nat (length bs)) - 1) with (Z.of_nat (length bs)) in Hlast by lia.
      rewrite Z.pow_succ_r by lia. destruct b; cbn [Z.b2z]; lia.
  - change (signs (None :: σ)) with (signs σ). cbn [fst snd]. split_and!; try lia; [|done].
    intros Hs. specialize (Hpos Hs). lia.
Qed.

Lemma decode_encode σ : decode (length σ) (encode σ).1 (encode σ).2 = σ.
Proof.
  induction σ as [|o σ IH]; [done|]. cbn [length encode]. destruct (encode σ) as [c v].
  cbn [fst snd] in IH. destruct o as [b|]; cbn [fst snd decode].
  - destruct (div2_double c true) as [H1 H2]. change (Z.b2z true) with 1 in *. rewrite H1, H2.
    destruct (div2_double v b) as [-> ->]. by rewrite IH.
  - destruct (div2_double c false) as [H1 H2]. change (Z.b2z false) with 0 in *.
    rewrite Z.add_0_r in *. rewrite H1, H2. by rewrite IH.
Qed.

(** The complement of a variant flips every sign. *)
Lemma complement_val i : 0 <= i < 2 ^ 64 → complement i = 2 ^ 64 - 1 - i.
Proof.
  intros Hi. unfold complement, uwrap, Z.lnot.
  replace (Z.pred (- i)) with (2 ^ 64 - 1 - i + (-1) * 2 ^ 64) by lia.
  rewrite Z.mod_add by lia. apply Z.mod_small. lia.
Qed.

Lemma decode_complement w n c v :
  (n ≤ w)%nat → 0 <= v < 2 ^ Z.of_nat w →
  decode n c (2 ^ Z.of_nat w - 1 - v) = flip (decode n c v).
Proof.
  revert w c v. induction n as [|n IH]; intros w c v Hw Hv; [done|].
  destruct w as [|w]; [lia|]. rewrite Nat2Z.inj_succ, Z.pow_succ_r in * by lia. cbn [decode].
  assert (2 * 2 ^ Z.of_nat w - 1 - v
    = 2 * (2 ^ Z.of_nat w - 1 - Z.div2 v) + Z.b2z (negb (Z.odd v))) as Hc.
  { pose proof (div2_odd v). destruct (Z.odd v); cbn [negb Z.b2z] in *; lia. }
  destruct (div2_double (2 ^ Z.of_nat w - 1 - Z.div2 v) (negb (Z.odd v))) as [H1 H2].
  rewrite <- Hc in H1, H2. destruct (Z.odd c); cbn.
  - rewrite H1, H2. rewrite IH; [done|lia|]. pose proof (div2_odd v).
    destruct (Z.odd v); cbn [Z.b2z] in *; lia.
  - f_equal. specialize (IH (S w) (Z.div2 c) v ltac:(lia)).
    rewrite Nat2Z.inj_succ, Z.pow_succ_r in IH by lia. by apply IH.
Qed.

Lemma vsum_flip data σ : vsum data (flip σ) = - vsum data σ.
Proof.
  revert data. induction σ as [|o σ IH]; intros [|x data]; cbn; try done.
  fold (flip σ). rewrite IH. destruct o as [[]|]; cbn; lia.
Qed.

Lemma vsum_none data n : vsum data (replicate n None) = 0.
Proof. revert data. induction n as [|n IH]; intros [|x data]; cbn; try done. by rewrite IH. Qed.

Lemma signs_length σ : (length (signs σ) ≤ length σ)%nat.
Proof. unfold signs. induction σ as [|[b|] σ IH]; cbn in *; lia. Qed.

Lemma signs_flip σ : signs (flip σ) = negb <$> signs σ.
Proof. induction σ as [|[b|] σ IH]; cbn in *; [done| |done]. f_equal. exact IH. Qed.

Lemma two_groups_flip σ : two_groups (flip σ) ↔ two_groups σ.
Proof.
  unfold two_groups. rewrite signs_flip, !list_elem_of_fmap. split.
  - intros [(b1&?&?) (b2&?&?)]. destruct b1, b2; done.
  - intros [? ?]. split; [by exists false|by exists true].
Qed.

Lemma vsum_app data σ τ :
  (length σ ≤ length data)%nat → vsum data (σ ++ τ) = vsum data σ + vsum (drop (length σ) data) τ.
Proof.
  revert data. induction σ as [|o σ IH]; intros [|x data] Hl; cbn in *; try done; try lia.
  rewrite IH by lia. lia.
Qed.

(** ** The code on signed vectors *)

Lemma positions_length off σ : length (positions off σ) = length (signs σ).
Proof. revert off. induction σ as [|[b|] σ IH]; intros off; cbn; [done|f_equal; apply IH|apply IH]. Qed.

Lemma decode_zero n v : decode n 0 v = replicate n None.
Proof. induction n as [|n IH]; cbn; [done|]. by rewrite IH. Qed.

Lemma positions_none off n : positions off (replicate n None) = [].
Proof. revert off. induction n as [|n IH]; intros off; cbn; auto. Qed.

Lemma make_indices_loop_ok fuel n c idx start v :
  (n ≤ fuel)%nat → 0 <= c < 2 ^ Z.of_nat n →
  MakeIndices_loop fuel c idx start = positions (idx + start) (decode n c v).
Proof.
  revert n c idx v. induction fuel as [|fuel IH]; intros n c idx v Hn Hc.
  { assert (n = 0)%nat as -> by lia. done. }
  cbn [MakeIndices_loop]. destruct (Z.eqb_spec c 0) as [->|Hne].
  { by rewrite decode_zero, positions_none. }
  destruct n as [|n]; [cbn in Hc; lia|]. rewrite land_1_odd, shiftr_1_div2. cbn [decode].
  apply div2_bound in Hc. destruct (Z.odd c); cbn [Z.b2z]; cbn.
  - f_equal. rewrite (IH n _ _ (Z.div2 v)) by (done || lia). done.
  - rewrite (IH n _ _ v) by (done || lia). done.
Qed.

Lemma make_indices_ok n c off v :
  (n ≤ 64)%nat → 0 <= c < 2 ^ Z.of_nat n →
  MakeIndicesFromChoice c off = positions off (decode n c v).
Proof. intros Hn Hc. by apply make_indices_loop_ok. Qed.

(** The magnitudes of the elements with a sign: they bound every partial sum. *)
Fixpoint vabs (data : list Z) (σ : svec) : Z :=
  match data, σ with
  | x :: data, o :: σ => (match o with Some _ => Z.abs x | None => 0 end) + vabs data σ
  | _, _ => 0
  end.

Definition magnitude (data : list Z) : Z := foldr (λ x m, Z.abs x + m) 0 data.

Lemma vabs_bound data σ : 0 <= vabs data σ <= magnitude data.
Proof.
  revert σ. induction data as [|x data IH]; intros [|o σ]; cbn; try lia.
  - specialize (IH []). unfold magnitude in *. lia.
  - specialize (IH σ). unfold magnitude in *. destruct o; lia.
Qed.

Lemma vsum_bound data σ : Z.abs (vsum data σ) <= vabs data σ.
Proof.
  revert σ. induction data as [|x data IH]; intros [|o σ]; cbn; try lia.
  specialize (IH σ). destruct o as [[]|]; cbn; lia.
Qed.

Lemma magnitude_drop k data : magnitude (drop k data) <= magnitude data.
Proof.
  revert k. induction data as [|x data IH]; intros [|k]; cbn; try lia.
  specialize (IH k). unfold magnitude in *. lia.
Qed.

Lemma magnitude_app a b : magnitude (a ++ b) = magnitude a + magnitude b.
Proof. unfold magnitude. induction a as [|x a IH]; cbn; [done|]. rewrite IH. lia. Qed.

(** Whether neighbouring signs differ, from [prev] on. *)
Fixpoint changes (prev : bool) (bs : list bool) : bool :=
  match bs with [] => false | b :: bs => xorb prev b || changes b bs end.

Lemma changes_spec prev bs : changes prev bs = true ↔ negb prev ∈ bs.
Proof.
  revert prev. induction bs as [|b bs IH]; intros prev; cbn.
  - split; [done|intros []%elem_of_nil].
  - rewrite orb_true_iff, IH, elem_of_cons. destruct prev, b; cbn; intuition congruence.
Qed.

Lemma compute_sum_loop_ok data off n c v res two prev :
  (off + n ≤ length data)%nat →
  Z.abs res + vabs (drop off data) (decode n c v) <= kIntMax64 →
  ComputeSum_loop data (positions off (decode n c v)) res two v (Z.b2z prev) =
  Ok (res + vsum (drop off data) (decode n c v), two || changes prev (signs (decode n c v))).
Proof.
  revert off c v res two prev. induction n as [|n IH]; intros off c v res two prev Hoff Hres.
  { cbn. destruct (drop off data); by rewrite orb_false_r, Z.add_0_r. }
  destruct (lookup_lt_is_Some_2 data off ltac:(lia)) as [x Hx].
  rewrite (drop_S _ _ _ Hx) in Hres |- *. cbn [decode] in *. destruct (Z.odd c).
  - cbn [positions ComputeSum_loop vabs vsum] in *. rewrite Hx, land_1_odd, shiftr_1_div2.
    pose proof (vabs_bound (drop (S off) data) (decode n (Z.div2 c) (Z.div2 v))) as Hb.
    set (res' := if Z.b2z (Z.odd v) =? 0 then res - x else res + x).
    assert (res' = res + contribution x (Some (Z.odd v))) as Hr.
    { subst res'. destruct (Z.odd v); cbn; lia. }
    assert (Z.abs res' <= Z.abs res + Z.abs x) as Ha by (rewrite Hr; destruct (Z.odd v); cbn; lia).
    unfold kIntMax64 in *. rewrite checked64_ok by lia. cbn [bindO].
    rewrite IH by lia. rewrite Hr. f_equal. f_equal; [lia|].
    change (signs (Some (Z.odd v) :: ?σ)) with (Z.odd v :: signs σ). cbn [changes].
    rewrite orb_assoc. do 2 f_equal. by destruct prev, (Z.odd v).
  - cbn [positions vabs vsum] in *. rewrite IH by lia.
    change (signs (None :: ?σ)) with (signs σ). f_equal.
Qed.

Lemma first_sign n c v :
  match signs (decode n c v) with b :: _ => b = Z.odd v | [] => True end.
Proof.
  revert c. induction n as [|n IH]; intros c; cbn; [done|]. destruct (Z.odd c); cbn; [done|]. apply IH.
Qed.

Lemma changes_two_groups σ b bs :
  signs σ = b :: bs → changes b (b :: bs) = bool_decide (two_groups σ).
Proof.
  intros Hs. apply eq_bool_prop_intro. rewrite !Is_true_true, changes_spec, bool_decide_eq_true.
  unfold two_groups. rewrite Hs. destruct b; cbn; rewrite !elem_of_cons; intuition congruence.
Qed.

Lemma compute_sum_ok data off n c v :
  (off + n ≤ length data)%nat → (n ≤ 64)%nat → 0 <= c < 2 ^ Z.of_nat n →
  magnitude data <= kIntMax64 →
  ComputeSum data (MakeIndicesFromChoice c off) v =
  Ok (vsum (drop off data) (decode n c v), bool_decide (two_groups (decode n c v))).
Proof.
  intros Hoff Hn Hc Hm. unfold ComputeSum. rewrite land_1_odd, (make_indices_ok n c off v) by done.
  rewrite compute_sum_loop_ok; [|done|].
  - rewrite Z.add_0_l. do 2 f_equal. pose proof (first_sign n c v) as Hf. cbn [orb].
    destruct (signs (decode n c v)) as [|b bs] eqn:Hs.
    + cbn. symmetry. apply bool_decide_eq_false. unfold two_groups. rewrite Hs.
      by intros [[]%elem_of_nil _].
    + rewrite <- Hf. by apply changes_two_groups.
  - pose proof (vabs_bound (drop off data) (decode n c v)).
    pose proof (magnitude_drop off data). cbn. lia.
Qed.

Lemma split_indices_ok n c v off :
  SplitIndicesIntoTwoGroups (positions off (decode n c v)) v
  = (side true off (decode n c v), side false off (decode n c v)).
Proof.
  revert c v off. induction n as [|n IH]; intros c v off; [done|]. cbn [decode].
  destruct (Z.odd c); cbn [positions side]; [|by rewrite IH].
  cbn [SplitIndicesIntoTwoGroups]. rewrite shiftr_1_div2, IH, land_1_odd.
  by destruct (Z.odd v).
Qed.

Lemma make_subsets_ok comb off n :
  (n ≤ 64)%nat → 0 <= choice comb < 2 ^ Z.of_nat n →
  MakeSubsets comb off = (side true off (decode n (choice comb) (variant comb)),
                          side false off (decode n (choice comb) (variant comb))).
Proof.
  intros Hn Hc. unfold MakeSubsets. rewrite (make_indices_ok n _ off (variant comb)) by done.
  apply split_indices_ok.
Qed.

Lemma side_app b off σ τ : side b off (σ ++ τ) = side b off σ ++ side b (off + length σ)%nat τ.
Proof.
  revert off. induction σ as [|o σ IH]; intros off; cbn; [by rewrite Nat.add_0_r|].
  rewrite IH, app_assoc. do 2 f_equal. lia.
Qed.

(** ** Solutions *)

Definition sum_of (data : list Z) (indices : list nat) : Z :=
  foldr (λ i s, nth i data 0 + s) 0 indices.

(** What the function has to find: two disjoint nonempty sets of indices of the
    data with equal sums. *)
Definition valid (data : list Z) (first second : list nat) : Prop :=
  first ≠ [] ∧ second ≠ [] ∧ NoDup (first ++ second) ∧
  Forall (λ i, i < length data)%nat (first ++ second) ∧ sum_of data first = sum_of data second.

Definition solution (data : list Z) (σ : svec) : Prop :=
  length σ = length data ∧ vsum data σ = 0 ∧ two_groups σ.

Lemma elem_of_side b off σ i : i ∈ side b off σ ↔ (off ≤ i)%nat ∧ σ !! (i - off)%nat = Some (Some b).
Proof.
  revert off. induction σ as [|o σ IH]; intros off; cbn.
  { split; [intros []%elem_of_nil|]. by rewrite lookup_nil; intros []. }
  rewrite elem_of_app, IH. case_decide as Ho.
  - subst o. rewrite list_elem_of_singleton. split.
    + intros [->|[? Hl]]; [by rewrite Nat.sub_diag|]. split; [lia|].
      replace (i - off)%nat with (S (i - S off)) by lia. done.
    + intros [? Hl]. destruct (decide (i = off)) as [->|]; [by left|right]. split; [lia|].
      by replace (i - off)%nat with (S (i - S off)) in Hl by lia.
  - rewrite elem_of_nil. split.
    + intros [[]|[? Hl]]. split; [lia|]. by replace (i - off)%nat with (S (i - S off)) by lia.
    + intros [? Hl]. right. destruct (decide (i = off)) as [->|].
      * rewrite Nat.sub_diag in Hl. by injection Hl.
      * split; [lia|]. by replace (i - off)%nat with (S (i - S off)) in Hl by lia.
Qed.

Lemma side_NoDup b off σ : NoDup (side b off σ).
Proof.
  revert off. induction σ as [|o σ IH]; intros off; cbn; [constructor|].
  case_decide; cbn; [|apply IH]. constructor; [|apply IH]. rewrite elem_of_side. lia.
Qed.

Lemma sum_of_app data a b : sum_of data (a ++ b) = sum_of data a + sum_of data b.
Proof. unfold sum_of. induction a as [|i a IH]; cbn; [done|]. rewrite IH. lia. Qed.

Lemma sum_of_perm data a b : a ≡ₚ b → sum_of data a = sum_of data b.
Proof. unfold sum_of. induction 1; cbn; lia. Qed.

Lemma vsum_sides data off σ :
  (off + length σ ≤ length data)%nat →
  vsum (drop off data) σ = sum_of data (side true off σ) - sum_of data (side false off σ).
Proof.
  revert off. induction σ as [|o σ IH]; intros off Hl; cbn [side].
  { destruct (drop off data); cbn; lia. }
  cbn in Hl. destruct (lookup_lt_is_Some_2 data off ltac:(lia)) as [x Hx].
  rewrite (drop_S _ _ _ Hx). cbn [vsum]. rewrite IH by lia. rewrite !sum_of_app.
  assert (sum_of data [off] = x) as Hn.
  { unfold sum_of. cbn [foldr]. rewrite nth_lookup, Hx. cbn. lia. }
  assert (sum_of data [] = 0) by done.
  destruct o as [[]|]; repeat case_decide; try done; cbn [contribution]; lia.
Qed.

Lemma elem_of_signs b σ : b ∈ signs σ ↔ ∃ i, σ !! i = Some (Some b).
Proof.
  unfold signs. rewrite list_elem_of_omap. split.
  - intros (o&Ho&E). cbn in E. subst o. by apply list_elem_of_lookup_1 in Ho.
  - intros [i Hi]. exists (Some b). split; [by eapply list_elem_of_lookup_2|done].
Qed.

Lemma side_nonempty b off σ : b ∈ signs σ → side b off σ ≠ [].
Proof.
  intros [i Hi]%elem_of_signs Hn. assert ((off + i)%nat ∈ side b off σ) as Hin.
  { apply elem_of_side. split; [lia|]. by replace (off + i - off)%nat with i by lia. }
  rewrite Hn in Hin. by apply elem_of_nil in Hin.
Qed.

Lemma solution_valid data σ :
  solution data σ → valid data (side true 0 σ) (side false 0 σ).
Proof.
  intros (Hlen&Hsum&Ht&Hf). split_and!; [by apply side_nonempty|by apply side_nonempty| | |].
  - apply NoDup_app. split_and!; [apply side_NoDup| |apply side_NoDup].
    intros i [_ H1]%elem_of_side [_ H2]%elem_of_side. congruence.
  - apply Forall_forall. intros i Hi. rewrite <- Hlen.
    apply elem_of_app in Hi as [[_ Hi]%elem_of_side|[_ Hi]%elem_of_side];
      apply lookup_lt_Some in Hi; lia.
  - pose proof (vsum_sides data 0 σ ltac:(lia)) as Hv. rewrite drop_0 in Hv. lia.
Qed.

(** Every valid pair of sets comes from a signed vector. *)
Lemma valid_solution data first second :
  valid data first second → ∃ σ, solution data σ.
Proof.
  intros (Hne1&Hne2&Hnd&Hr&Hsum).
  set (sgn := λ i, if decide (i ∈ first) then Some true
                   else if decide (i ∈ second) then Some false else None).
  set (σ := sgn <$> seq 0 (length data)). exists σ.
  apply NoDup_app in Hnd as (Hnd1&Hdis&Hnd2). apply Forall_app in Hr as [Hr1 Hr2].
  rewrite Forall_forall in Hr1, Hr2.
  assert (∀ i, (i < length data)%nat → σ !! i = Some (sgn i)) as Hσ.
  { intros i Hi. unfold σ. rewrite list_lookup_fmap, lookup_seq_lt by done. done. }
  assert (length σ = length data) as Hlen by (unfold σ; by rewrite length_fmap, length_seq).
  assert (∀ i, i ∈ side true 0 σ ↔ i ∈ first) as Ht.
  { intros i. rewrite elem_of_side, Nat.sub_0_r. split.
    - intros [_ Hi]. rewrite Hσ in Hi by (rewrite <- Hlen; by eapply lookup_lt_Some).
      unfold sgn in Hi. by repeat case_decide.
    - intros Hi. split; [lia|]. rewrite Hσ by auto. unfold sgn. by rewrite decide_True. }
  assert (∀ i, i ∈ side false 0 σ ↔ i ∈ second) as Hf.
  { intros i. rewrite elem_of_side, Nat.sub_0_r. split.
    - intros [_ Hi]. rewrite Hσ in Hi by (rewrite <- Hlen; by eapply lookup_lt_Some).
      unfold sgn in Hi. by repeat case_decide.
    - intros Hi. split; [lia|]. rewrite Hσ by auto. unfold sgn.
      rewrite decide_False, decide_True; [done|done|]. intros Hi'. by apply (Hdis i). }
  split_and!; [done| |].
  - pose proof (vsum_sides data 0 σ ltac:(lia)) as Hv. rewrite drop_0 in Hv. rewrite Hv.
    rewrite (sum_of_perm data _ first), (sum_of_perm data (side false 0 σ) second); [lia|..];
      (apply NoDup_Permutation; [apply side_NoDup|done|done]).
  - unfold two_groups. rewrite !elem_of_signs. destruct first as [|i1 ?], second as [|i2 ?]; try done.
    split.
    + exists i1. assert (i1 ∈ side true 0 σ) as [_ H]%elem_of_side by (apply Ht; constructor).
      by rewrite Nat.sub_0_r in H.
    + exists i2. assert (i2 ∈ side false 0 σ) as [_ H]%elem_of_side by (apply Hf; constructor).
      by rewrite Nat.sub_0_r in H.
Qed.

(** ** Canonical vectors: those whose last sign is minus *)

Definition canon (σ : svec) : Prop := last (signs σ) = Some false.

Lemma signs_decode_length n c v w : length (signs (decode n c v)) = length (signs (decode n c w)).
Proof.
  revert c v w. induction n as [|n IH]; intros c v w; [done|]. cbn [decode]. destruct (Z.odd c).
  - change (signs (Some ?b :: ?σ)) with (b :: signs σ). cbn [length]. f_equal. apply IH.
  - change (signs (None :: ?σ)) with (signs σ). apply IH.
Qed.

Lemma signs_decode_nonempty n c v : 0 < c < 2 ^ Z.of_nat n → signs (decode n c v) ≠ [].
Proof.
  revert c v. induction n as [|n IH]; intros c v Hc; [cbn in Hc; lia|]. cbn [decode].
  pose proof (div2_odd c) as Hd. assert (0 <= c < 2 ^ Z.of_nat (S n)) as Hc' by lia.
  apply div2_bound in Hc'. destruct (Z.odd c); [done|].
  change (signs (None :: ?σ)) with (signs σ). apply IH. cbn [Z.b2z] in Hd. lia.
Qed.

Lemma decode_canon n c v :
  signs (decode n c v) ≠ [] →
  0 <= v < 2 ^ (Z.of_nat (length (signs (decode n c v))) - 1) → canon (decode n c v).
Proof.
  unfold canon. revert c v. induction n as [|n IH]; intros c v Hne Hv; [done|]. cbn [decode] in *.
  destruct (Z.odd c).
  - change (signs (Some ?b :: ?σ)) with (b :: signs σ) in *. cbn [length] in Hv.
    set (bs := signs (decode n (Z.div2 c) (Z.div2 v))) in *.
    rewrite Nat2Z.inj_succ in Hv. replace (Z.succ (Z.of_nat (length bs)) - 1) with (Z.of_nat (length bs)) in Hv by lia.
    destruct bs as [|b bs'] eqn:E.
    + cbn in Hv. assert (v = 0) as -> by lia. done.
    + rewrite last_cons_cons. subst bs. rewrite <- E. apply IH; [by rewrite E|].
      rewrite E. cbn [length] in *. rewrite Nat2Z.inj_succ in *.
      replace (Z.succ (Z.of_nat (length bs')) - 1) with (Z.of_nat (length bs')) by lia.
      rewrite Z.pow_succ_r in Hv by lia. pose proof (div2_odd v).
      destruct (Z.odd v); cbn [Z.b2z] in *; lia.
  - change (signs (None :: ?σ)) with (signs σ) in *. by apply IH.
Qed.

Lemma canon_flip σ : signs σ ≠ [] → canon σ ∨ canon (flip σ).
Proof.
  intros Hne. unfold canon. rewrite signs_flip, fmap_last.
  destruct (last (signs σ)) as [[]|] eqn:E; [by right|by left|].
  by apply last_None in E.
Qed.

(** A canonical vector with one group has only minus signs. *)
Lemma canon_one_group σ b : canon σ → ¬ two_groups σ → b ∈ signs σ → b = false.
Proof.
  intros Hc Hn Hb. destruct b; [|done]. exfalso. apply Hn. split; [done|].
  unfold canon in Hc. apply last_Some in Hc as [l ->]. apply elem_of_app. right. constructor.
Qed.

Lemma canon_nonempty σ : canon σ → signs σ ≠ [].
Proof. unfold canon. by destruct (signs σ). Qed.

Lemma variants_cnt_ok n c off v :
  (n ≤ 64)%nat → 0 <= c < 2 ^ Z.of_nat n →
  variants_cnt (MakeIndicesFromChoice c off) = 2 ^ (Z.of_nat (length (signs (decode n c v))) - 1).
Proof.
  intros Hn Hc. unfold variants_cnt. by rewrite (make_indices_ok n c off v), positions_length.
Qed.

(** A canonical vector is met when all variants of all choices are tried. *)
Lemma canon_enumerated σ off :
  (length σ ≤ 64)%nat → canon σ →
  let c := (encode σ).1 in let v := (encode σ).2 in
  1 <= c < 2 ^ Z.of_nat (length σ) ∧ 0 <= v < variants_cnt (MakeIndicesFromChoice c off) ∧
  decode (length σ) c v = σ.
Proof.
  intros Hl Hc c v. destruct (encode_bounds σ) as (H1&H2&H3&H4).
  specialize (H3 (canon_nonempty σ Hc)). specialize (H4 Hc). fold c in H1, H3. fold v in H2, H4.
  split_and!; try lia; [|by apply decode_encode].
  rewrite (variants_cnt_ok (length σ) c off v) by (done || lia).
  unfold c, v. rewrite decode_encode. done.
Qed.

(** ** The map of the first half *)

Section Search.
Context (data : list Z) (Hmag : magnitude data <= kIntMax64) (k : nat) (Hk : (k ≤ length data)%nat)
  (H64 : (length data ≤ 64)%nat).

Definition entry_ok (s : Z) (c : Combination) : Prop :=
  let σ := decode k (choice c) (variant c) in
  0 <= choice c < 2 ^ Z.of_nat k ∧ vsum data σ = s ∧
  hasTwoGroups c = bool_decide (two_groups σ) ∧ canon σ.

Definition sums_ok (sums : gmap Z Combination) : Prop := ∀ s c, sums !! s = Some c → entry_ok s c.

Definition covers (sums : gmap Z Combination) (σ : svec) : Prop :=
  ∃ c, sums !! vsum data σ = Some c ∧ (two_groups σ → hasTwoGroups c = true).

Definition better (sums sums' : gmap Z Combination) : Prop :=
  ∀ s c, sums !! s = Some c →
    ∃ c', sums' !! s = Some c' ∧ (hasTwoGroups c = true → hasTwoGroups c' = true).

Lemma better_refl sums : better sums sums.
Proof. intros s c Hs. by exists c. Qed.

Lemma better_trans a b c : better a b → better b c → better a c.
Proof.
  intros H1 H2 s x Hx. destruct (H1 s x Hx) as (y&Hy&?). destruct (H2 s y Hy) as (z&?&?).
  exists z. auto.
Qed.

Lemma covers_better a b σ : better a b → covers a σ → covers b σ.
Proof. intros Hab (c&Hc&?). destruct (Hab _ _ Hc) as (c'&?&?). exists c'. auto. Qed.

Lemma record_sum_ok sums ch i :
  let σ := decode k ch i in
  sums_ok sums → 0 <= ch < 2 ^ Z.of_nat k → canon σ →
  let sums' := record_sum sums (vsum data σ) ch i (bool_decide (two_groups σ)) in
  sums_ok sums' ∧ better sums sums' ∧ covers sums' σ.
Proof.
  intros σ Hok Hch Hcan sums'.
  set (new := mkCombination ch i (bool_decide (two_groups σ))).
  assert (entry_ok (vsum data σ) new) as Hnew by done.
  assert (sums_ok (<[vsum data σ := new]> sums)) as Hins.
  { intros s c Hs. destruct (decide (s = vsum data σ)) as [->|Hne].
    - rewrite lookup_insert_eq in Hs. by injection Hs as <-.
    - rewrite lookup_insert_ne in Hs by done. by apply Hok. }
  assert (covers (<[vsum data σ := new]> sums) σ) as Hcov.
  { exists new. rewrite lookup_insert_eq. split; [done|]. intros Ht. cbn. by apply bool_decide_eq_true. }
  subst sums'. unfold record_sum. destruct (sums !! vsum data σ) as [c|] eqn:Hc.
  - destruct (bool_decide (two_groups σ) && negb (hasTwoGroups c)) eqn:Hb.
    + split_and!; [done| |done]. apply andb_true_iff in Hb as [Hb1 Hb2].
      intros s c' Hs. destruct (decide (s = vsum data σ)) as [->|Hne].
      * exists new. by rewrite lookup_insert_eq.
      * exists c'. by rewrite lookup_insert_ne.
    + split_and!; [done|apply better_refl|]. exists c. split; [done|]. intros Ht.
      rewrite bool_decide_true in Hb by done. by destruct (hasTwoGroups c).
  - split_and!; [done| |done]. intros s c' Hs. exists c'.
    rewrite lookup_insert_ne; [done|]. intros Heq. rewrite <- Heq in Hs. congruence.
Qed.

Lemma solved_better a b : better a b → solved a = true → solved b = true.
Proof.
  unfold solved. intros Hab. destruct (a !! 0) as [c|] eqn:Hc; [|done]. intros Ht.
  destruct (Hab 0 c Hc) as (c'&->&?). auto.
Qed.

Lemma compute_choice_loop_ok n ch i sums :
  1 <= ch < 2 ^ Z.of_nat k → 0 <= i →
  i + Z.of_nat n = variants_cnt (MakeIndicesFromChoice ch 0) → sums_ok sums →
  ∃ sums', ComputeChoice_loop n data ch (MakeIndicesFromChoice ch 0) i sums = Ok sums' ∧
    sums_ok sums' ∧ better sums sums' ∧
    (solved sums' = true ∨ ∀ j, i <= j < i + Z.of_nat n → covers sums' (decode k ch j)).
Proof using Hmag Hk H64.
  intros Hch. revert i sums.
  induction n as [|n IH]; intros i sums Hi Hcnt Hok; cbn [ComputeChoice_loop].
  { exists sums. split_and!; [done|done|apply better_refl|right; lia]. }
  rewrite (compute_sum_ok data 0 k ch i) by (done || lia). rewrite drop_0. cbn [bindO].
  set (σ := decode k ch i).
  assert (canon σ) as Hcan.
  { apply decode_canon; [apply signs_decode_nonempty; lia|].
    rewrite (variants_cnt_ok k ch 0 i) in Hcnt by lia. lia. }
  destruct (record_sum_ok sums ch i Hok ltac:(lia) Hcan) as (Hok'&Hbet&Hcov). fold σ in Hok', Hbet, Hcov.
  set (sums1 := record_sum _ _ _ _ _) in *.
  destruct ((vsum data σ =? 0) && bool_decide (two_groups σ)) eqn:Hz.
  - exists sums1. split_and!; [done..|]. left.
    apply andb_true_iff in Hz as [Hz Ht]. apply Z.eqb_eq in Hz. apply bool_decide_eq_true in Ht.
    destruct Hcov as (c&Hc&Hc2). rewrite Hz in Hc. unfold solved. rewrite Hc. auto.
  - destruct (IH (i + 1) sums1) as (sums'&->&Hok2&Hbet2&Hor); [lia|lia|done|].
    exists sums'. split_and!; [done|done|by eapply better_trans|].
    destruct Hor as [?|Hall]; [by left|right]. intros j Hj.
    destruct (decide (j = i)) as [->|]; [by eapply covers_better|]. apply Hall. lia.
Qed.

Lemma compute_sum_map_loop_ok n i sums :
  1 <= i → i + Z.of_nat n = 2 ^ Z.of_nat k → sums_ok sums →
  ∃ sums', ComputeSumMap_loop n data i sums = Ok sums' ∧ sums_ok sums' ∧ better sums sums' ∧
    (solved sums' = true ∨
     ∀ ch v, i <= ch < i + Z.of_nat n →
       0 <= v < variants_cnt (MakeIndicesFromChoice ch 0) → covers sums' (decode k ch v)).
Proof using Hmag Hk H64.
  revert i sums. induction n as [|n IH]; intros i sums Hi Hcnt Hok; cbn [ComputeSumMap_loop].
  { exists sums. split_and!; [done|done|apply better_refl|right; lia]. }
  unfold ComputeChoice.
  assert (0 < variants_cnt (MakeIndicesFromChoice i 0)) as Hpos.
  { rewrite (variants_cnt_ok k i 0 0) by lia. apply Z.pow_pos_nonneg; [lia|].
    assert (signs (decode k i 0) ≠ []) as Hne by (apply signs_decode_nonempty; lia).
    destruct (signs (decode k i 0)); [done|cbn; lia]. }
  destruct (compute_choice_loop_ok (Z.to_nat (variants_cnt (MakeIndicesFromChoice i 0))) i 0 sums)
    as (sums1&->&Hok1&Hbet1&Hor1); [lia|lia|lia|done|]. cbn [bindO].
  destruct (solved sums1) eqn:Hs.
  { exists sums1. split_and!; [done..|]. by left. }
  destruct Hor1 as [?|Hall1]; [congruence|].
  destruct (IH (i + 1) sums1) as (sums2&->&Hok2&Hbet2&Hor2); [lia|lia|done|].
  exists sums2. split_and!; [done|done|by eapply better_trans|].
  destruct Hor2 as [?|Hall2]; [by left|right]. intros ch v Hch Hv.
  destruct (decide (ch = i)) as [->|].
  - eapply covers_better; [done|]. apply Hall1. lia.
  - apply Hall2; [lia|done].
Qed.

Lemma compute_sum_map_ok :
  ∃ sums, ComputeSumMap data k = Ok sums ∧ sums_ok sums ∧
    (solved sums = true ∨ ∀ σ, length σ = k → canon σ → covers sums σ).
Proof using Hmag Hk H64.
  unfold ComputeSumMap. pose proof (Z.pow_pos_nonneg 2 (Z.of_nat k)) as Hp.
  destruct (compute_sum_map_loop_ok (Z.to_nat (2 ^ Z.of_nat k - 1)) 1 ∅)
    as (sums&->&Hok&_&Hor); [lia|lia|by intros s c; rewrite lookup_empty|].
  exists sums. split_and!; [done..|]. destruct Hor as [?|Hall]; [by left|right].
  intros σ Hl Hc. destruct (canon_enumerated σ 0 ltac:(lia) Hc) as (H1&H2&H3). rewrite Hl in *.
  rewrite <- H3. apply Hall; lia.
Qed.

(** ** The second half *)

Abbreviation r := (length data - k)%nat.

Definition found_ok (ab : Combination * Combination) : Prop :=
  0 <= choice ab.1 < 2 ^ Z.of_nat k ∧ 0 <= choice ab.2 < 2 ^ Z.of_nat r ∧
  solution data (decode k (choice ab.1) (variant ab.1) ++ decode r (choice ab.2) (variant ab.2)).

Lemma two_groups_app σ τ :
  two_groups σ ∨ two_groups τ ∨ (∃ b, b ∈ signs σ ∧ negb b ∈ signs τ) → two_groups (σ ++ τ).
Proof.
  unfold two_groups, signs. rewrite omap_app, !elem_of_app.
  intros [[??]|[[??]|(b&?&?)]]; [tauto|tauto|]. destruct b; cbn in *; tauto.
Qed.

Lemma odd_sign n c v : 0 < c < 2 ^ Z.of_nat n → Z.odd v ∈ signs (decode n c v).
Proof.
  intros Hc. pose proof (first_sign n c v) as Hf. pose proof (signs_decode_nonempty n c v Hc).
  destruct (signs (decode n c v)); [done|]. subst. constructor.
Qed.

Lemma parity_differs a b : negb (Z.land (Z.lxor a b) 1 =? 0) = xorb (Z.odd a) (Z.odd b).
Proof.
  rewrite land_1_odd, <- !Z.bit0_odd, Z.lxor_spec. by destruct (Z.testbit a 0), (Z.testbit b 0).
Qed.

(** Putting a vector of the first half in front of one of the second. *)
Lemma solution_app (a : svec) c v :
  length a = k → vsum data a + vsum (drop k data) (decode r c v) = 0 →
  two_groups (a ++ decode r c v) → solution data (a ++ decode r c v).
Proof using Hmag Hk H64.
  intros Hl Hs Ht. split_and!; [|rewrite vsum_app by lia; by rewrite Hl|done].
  rewrite length_app, length_decode, Hl. lia.
Qed.

Lemma complement_decode ch i :
  0 <= i < 2 ^ 64 → decode r ch (complement i) = flip (decode r ch i).
Proof using Hmag Hk H64.
  intros Hi. rewrite complement_val by done. change 64 with (Z.of_nat 64).
  apply decode_complement; [lia|done].
Qed.

Lemma check_variant_sound sums ch i :
  let σ2 := decode r ch i in
  sums_ok sums → 1 <= ch < 2 ^ Z.of_nat r → 0 <= i < 2 ^ 64 →
  ∃ o, CheckVariant sums ch i (vsum (drop k data) σ2) (bool_decide (two_groups σ2)) = Ok o ∧
    (∀ ab, o = Some ab → found_ok ab).
Proof using Hmag Hk H64.
  intros σ2 Hok Hch Hi. unfold CheckVariant. set (s := vsum (drop k data) σ2).
  set (two := bool_decide (two_groups σ2)).
  assert (Z.abs s <= kIntMax64) as Habs.
  { pose proof (vsum_bound (drop k data) σ2). pose proof (vabs_bound (drop k data) σ2).
    pose proof (magnitude_drop k data). unfold s. lia. }
  rewrite checked64_ok by (unfold kIntMax64 in Habs; lia). cbn [bindO].
  assert (∀ σ, two || bool_decide (two_groups σ) = true → two_groups σ ∨ two_groups σ2) as Htwo.
  { intros σ Hb. apply orb_true_iff in Hb as [Hb|Hb]; apply bool_decide_eq_true in Hb; tauto. }
  assert (∀ found v σ', entry_ok (- vsum (drop k data) σ') found → σ' = decode r ch v →
    (two_groups σ' ↔ two_groups σ2) →
    two || hasTwoGroups found || negb (Z.land (Z.lxor (variant found) v) 1 =? 0) = true →
    found_ok (found, mkCombination ch v two)) as Hfound.
  { intros found v σ' (Hc&Hs&H2&Hcan) -> Hiff Hb. rewrite H2 in Hb. split; [done|].
    split; [cbn; lia|].
    cbn [fst snd choice variant]. apply solution_app; [apply length_decode|lia|].
    apply two_groups_app. apply orb_true_iff in Hb as [Hb|Hb].
    - apply Htwo in Hb. tauto.
    - right; right. rewrite parity_differs in Hb. exists (Z.odd (variant found)). split.
      + pose proof (first_sign k (choice found) (variant found)) as Hf.
        apply canon_nonempty in Hcan. destruct (signs (decode k _ _)); [done|]. subst. constructor.
      + replace (negb (Z.odd (variant found))) with (Z.odd v);
          [apply odd_sign; lia|]. by destruct (Z.odd (variant found)), (Z.odd v). }
  assert ((s =? 0) && two = true →
    found_ok (mkCombination 0 0 false, mkCombination ch i two)) as Hthird.
  { intros B3. apply andb_true_iff in B3 as [Hz Ht]. apply Z.eqb_eq in Hz.
    apply bool_decide_eq_true in Ht. split; [cbn; split; [done|apply Z.pow_pos_nonneg; lia]|].
    split; [cbn; lia|]. cbn [fst snd choice variant]. rewrite decode_zero.
    apply solution_app; [by rewrite length_replicate| |apply two_groups_app; tauto].
    rewrite vsum_none. unfold s in Hz. fold σ2. lia. }
  destruct (sums !! s) as [f1|] eqn:E1;
    [destruct (two || hasTwoGroups f1 || _) eqn:B1|].
  { eexists. split; [done|]. intros ab [= <-].
    apply (Hfound f1 (complement i) (flip σ2)); [|by rewrite complement_decode| |done].
    - rewrite vsum_flip, Z.opp_involutive. by apply Hok.
    - apply two_groups_flip. }
  all: destruct (sums !! (- s)) as [f2|] eqn:E2;
    [destruct (two || hasTwoGroups f2 || _) eqn:B2;
      [eexists; split; [done|]; intros ab [= <-];
       apply (Hfound f2 i σ2); [by apply Hok|done|done|done]|]|].
  all: destruct ((s =? 0) && two) eqn:B3; (eexists; split; [done|]); try done.
  all: intros ab [= <-]; by apply Hthird.
Qed.

(** A variant of a choice of the second half that finds nothing. *)
Definition fruitless (sums : gmap Z Combination) (ch i : Z) : Prop :=
  CheckVariant sums ch i (vsum (drop k data) (decode r ch i))
    (bool_decide (two_groups (decode r ch i))) = Ok None.

(** What a fruitless variant tells about the entry at a sum, looked up as the
    sum itself or as its opposite. *)
Lemma fruitless_entry sums ch i c t :
  fruitless sums ch i → sums !! t = Some c →
  let σ2 := decode r ch i in let s := vsum (drop k data) σ2 in
  Z.abs s <= kIntMax64 →
  (t = s → ¬ two_groups σ2 ∧ hasTwoGroups c = false ∧ Z.odd (variant c) = Z.odd (complement i)) ∧
  (t = - s → ¬ two_groups σ2 ∧ hasTwoGroups c = false).
Proof.
  intros Hf Hc σ2 s Hs. unfold fruitless, CheckVariant in Hf. fold σ2 in Hf. fold s in Hf.
  rewrite checked64_ok in Hf by (unfold kIntMax64 in Hs; lia). cbn [bindO] in Hf.
  assert (∀ b v, bool_decide (two_groups σ2) || b || negb (Z.land (Z.lxor (variant c) v) 1 =? 0) = false
    → ¬ two_groups σ2 ∧ b = false ∧ Z.odd (variant c) = Z.odd v) as Hno.
  { intros b v Hb. rewrite !orb_false_iff, parity_differs in Hb. destruct Hb as [[Hb1 Hb2] Hb3].
    apply bool_decide_eq_false in Hb1. split_and!; [done|done|].
    by destruct (Z.odd (variant c)), (Z.odd v). }
  split; intros ->.
  - rewrite Hc in Hf. destruct (_ || hasTwoGroups c || _) eqn:Hb; [done|]. by apply Hno in Hb.
  - destruct (match sums !! s with Some _ => _ | None => _ end) as [?|]; [done|].
    rewrite Hc in Hf. destruct (_ || hasTwoGroups c || _) eqn:Hb; [done|].
    apply Hno in Hb. tauto.
Qed.

Lemma second_sum_bound (σ2 : svec) : Z.abs (vsum (drop k data) σ2) <= kIntMax64.
Proof using Hmag Hk H64.
  pose proof (vsum_bound (drop k data) σ2). pose proof (vabs_bound (drop k data) σ2).
  pose proof (magnitude_drop k data). lia.
Qed.

Lemma signs_nil_none (σ : svec) : signs σ = [] → σ = replicate (length σ) None.
Proof. induction σ as [|[b|] σ IH]; intros H; [done|done|]. cbn. by rewrite <- IH. Qed.

(** A signed vector whose second half is canonical is not missed. *)
Lemma check_variant_complete sums (σ1 σ2 : svec) :
  sums_ok sums → (∀ σ, length σ = k → canon σ → covers sums σ) →
  length σ1 = k → length σ2 = r → canon σ2 →
  vsum data σ1 + vsum (drop k data) σ2 = 0 → two_groups (σ1 ++ σ2) →
  ¬ fruitless sums (encode σ2).1 (encode σ2).2.
Proof using Hmag Hk H64.
  intros Hok Hcov Hl1 Hl2 Hcan Hsum Htwo Hf.
  destruct (canon_enumerated σ2 k ltac:(lia) Hcan) as (Hch&Hv&Hdec). rewrite Hl2 in Hdec.
  set (ch := (encode σ2).1) in *. set (v := (encode σ2).2) in *.
  pose proof (second_sum_bound σ2) as Hb.
  destruct (decide (signs σ1 = [])) as [Hnil|Hne].
  { apply signs_nil_none in Hnil. rewrite Hnil, Hl1, vsum_none in Hsum.
    assert (two_groups σ2) as Ht2.
    { unfold two_groups, signs in *. rewrite Hnil, Hl1, omap_app in Htwo.
      replace (omap id (replicate k (@None bool))) with (@nil bool) in Htwo; [done|].
      clear. by induction k. }
    unfold fruitless, CheckVariant in Hf. rewrite Hdec in Hf.
    rewrite (bool_decide_true _ Ht2) in Hf. replace (vsum (drop k data) σ2) with 0 in Hf by lia.
    rewrite checked64_ok in Hf by lia. cbn [bindO Z.opp Z.eqb andb] in Hf.
    repeat case_match; done. }
  (* the stored entry for the canonical form of the first half *)
  assert (∃ τ, (τ = σ1 ∨ τ = flip σ1) ∧ canon τ) as (τ&Hτ&Hcτ).
  { destruct (canon_flip σ1 Hne); eauto. }
  assert (length τ = k) as Hlτ.
  { destruct Hτ as [->| ->]; [done|]. unfold flip. by rewrite length_map. }
  destruct (Hcov τ Hlτ Hcτ) as (c&Hc&Hc2).
  pose proof (fruitless_entry sums ch v c (vsum data τ) Hf Hc) as Hfe. rewrite Hdec in Hfe.
  destruct (Hfe Hb) as [Hfe1 Hfe2]. clear Hfe.
  assert (vsum data τ = vsum (drop k data) σ2 ∨ vsum data τ = - vsum (drop k data) σ2) as Ht.
  { destruct Hτ as [->| ->]; rewrite ?vsum_flip; lia. }
  assert (¬ two_groups σ2 ∧ hasTwoGroups c = false) as [Hn2 Hnc].
  { destruct Ht as [Ht|Ht]; [destruct (Hfe1 Ht) as (?&?&_)|destruct (Hfe2 Ht)]; done. }
  assert (¬ two_groups τ) as Hnτ by (intros H; apply Hc2 in H; congruence).
  (* both halves have one group: the second minus, the first plus *)
  assert (∀ b, b ∈ signs σ2 → b = false) as Hm2 by (intros b; by apply canon_one_group).
  assert (true ∈ signs σ1) as Htrue.
  { destruct Htwo as [H _]. unfold signs in *. rewrite omap_app in H.
    apply elem_of_app in H as [?|H]; [done|]. by apply Hm2 in H. }
  assert (τ = flip σ1) as Heq.
  { destruct Hτ as [->|?]; [|done]. by pose proof (canon_one_group σ1 true Hcτ Hnτ Htrue). }
  destruct (Hfe1 ltac:(rewrite Heq, vsum_flip; lia)) as (_&_&Hpar).
  (* the parities of the variants then differ *)
  assert (Z.odd (variant c) = false) as Hp1.
  { destruct (Hok _ _ Hc) as (Hcc&_&Hct&Hcan').
    assert (¬ two_groups (decode k (choice c) (variant c))) as Hnot
      by (rewrite Hnc in Hct; symmetry in Hct; by apply bool_decide_eq_false in Hct).
    apply (canon_one_group _ _ Hcan' Hnot). pose proof (first_sign k (choice c) (variant c)) as Hfs.
    apply canon_nonempty in Hcan'. destruct (signs (decode k _ _)); [done|].
    rewrite Hfs. constructor. }
  assert (Z.odd v = false) as Hp2.
  { apply Hm2. rewrite <- Hdec. apply odd_sign. rewrite Hl2 in Hch. lia. }
  assert (0 <= v < 2 ^ 64) as Hv64.
  { split; [lia|]. destruct (encode_bounds σ2) as (_&Hv'&_). fold v in Hv'.
    pose proof (signs_length σ2).
    assert (2 ^ Z.of_nat (length (signs σ2)) <= 2 ^ 64) by (apply Z.pow_le_mono_r; lia). lia. }
  rewrite complement_val, Z.odd_sub, Hp1, Hp2 in Hpar by done. done.
Qed.

(** ** The search in the second half *)

(** A choice none of whose variants finds anything. *)
Definition barren (sums : gmap Z Combination) (ch : Z) : Prop :=
  ∀ i, 0 <= i < variants_cnt (MakeIndicesFromChoice ch k) → fruitless sums ch i.

Definition choice_in_range (ch : Z) : Prop := 1 <= ch < 2 ^ Z.of_nat r.

Lemma variants_cnt_range ch :
  choice_in_range ch → 0 < variants_cnt (MakeIndicesFromChoice ch k) <= 2 ^ 64.
Proof using Hmag Hk H64.
  intros Hch. unfold choice_in_range in Hch. rewrite (variants_cnt_ok r ch k 0) by lia.
  pose proof (signs_decode_nonempty r ch 0 ltac:(lia)) as Hne.
  pose proof (signs_length (decode r ch 0)) as Hl. rewrite length_decode in Hl.
  destruct (signs (decode r ch 0)) as [|b bs]; [done|]. cbn [length] in *. split.
  - apply Z.pow_pos_nonneg; lia.
  - apply Z.pow_le_mono_r; lia.
Qed.

Lemma check_choice_loop_ok sums ch n i :
  sums_ok sums → choice_in_range ch → 0 <= i →
  i + Z.of_nat n = variants_cnt (MakeIndicesFromChoice ch k) →
  ∃ o, CheckChoice_loop n data sums ch (MakeIndicesFromChoice ch k) i = Ok o ∧
    match o with
    | Some ab => found_ok ab
    | None => ∀ j, i <= j < i + Z.of_nat n → fruitless sums ch j
    end.
Proof using Hmag Hk H64.
  intros Hok Hch. revert i. induction n as [|n IH]; intros i Hi Hcnt; cbn [CheckChoice_loop].
  { exists None. split; [done|]. lia. }
  pose proof (variants_cnt_range ch Hch) as Hvr. unfold choice_in_range in Hch.
  rewrite (compute_sum_ok data k r ch i) by (done || lia). cbn [bindO].
  destruct (check_variant_sound sums ch i Hok Hch) as (o&Ho&Hfound); [lia|].
  rewrite Ho. cbn [bindO]. destruct o as [ab|]; [exists (Some ab); eauto|].
  destruct (IH (i + 1)) as (o'&->&Ho'); [lia|lia|]. exists o'. split; [done|].
  destruct o' as [ab|]; [done|]. intros j Hj. destruct (decide (j = i)) as [->|]; [done|].
  apply Ho'. lia.
Qed.

Lemma check_choice_ok sums ch :
  sums_ok sums → choice_in_range ch →
  ∃ o, CheckChoice data sums ch k = Ok o ∧
    match o with Some ab => found_ok ab | None => barren sums ch end.
Proof using Hmag Hk H64.
  intros Hok Hch. pose proof (variants_cnt_range ch Hch). unfold CheckChoice.
  destruct (check_choice_loop_ok sums ch (Z.to_nat (variants_cnt (MakeIndicesFromChoice ch k))) 0)
    as (o&->&Ho); [done|done|lia|lia|]. exists o. split; [done|]. destruct o; [done|].
  intros i Hi. apply Ho. lia.
Qed.

(** The result a search may give: a solution, or nothing when there is none to be
    found. *)
Definition search_ok (sums : gmap Z Combination) (o : option (Combination * Combination)) : Prop :=
  match o with
  | Some ab => found_ok ab
  | None => ∀ ch, choice_in_range ch → barren sums ch
  end.

Lemma find_suitable_loop_ok sums n i :
  sums_ok sums → 1 <= i → i + Z.of_nat n = 2 ^ Z.of_nat r →
  ∃ o, FindSuitable_loop n data sums i k = Ok o ∧
    match o with
    | Some ab => found_ok ab
    | None => ∀ ch, i <= ch < 2 ^ Z.of_nat r → barren sums ch
    end.
Proof using Hmag Hk H64.
  intros Hok. revert i. induction n as [|n IH]; intros i Hi Hn; cbn [FindSuitable_loop].
  { exists None. split; [done|]. lia. }
  destruct (check_choice_ok sums i Hok) as (o&->&Ho); [unfold choice_in_range; lia|]. cbn [bindO].
  destruct o as [ab|]; [by exists (Some ab)|].
  destruct (IH (i + 1)) as (o'&->&Ho'); [lia|lia|]. exists o'. split; [done|].
  destruct o' as [ab|]; [done|]. intros ch Hch.
  destruct (decide (ch = i)) as [->|]; [done|]. apply Ho'. lia.
Qed.

Lemma choices_cnt_ok : choices_cnt data k = 2 ^ Z.of_nat r.
Proof using Hmag Hk H64. unfold choices_cnt. f_equal. lia. Qed.

Lemma search_complete sums o :
  sums_ok sums → (∀ σ, length σ = k → canon σ → covers sums σ) → solved sums = false →
  search_ok sums o → o = None → ¬ ∃ σ, solution data σ.
Proof using Hmag Hk H64.
  intros Hok Hcov Hns Ho -> [σ (Hl&Hs&Ht)].
  set (σ1 := take k σ). set (σ2 := drop k σ).
  assert (σ = σ1 ++ σ2) as Heq by (symmetry; apply take_drop).
  assert (length σ1 = k) as Hl1 by (unfold σ1; rewrite length_take; lia).
  assert (length σ2 = r) as Hl2 by (unfold σ2; rewrite length_drop; lia).
  rewrite Heq, vsum_app, Hl1 in Hs by lia. rewrite Heq in Ht.
  assert (∀ a b : svec, length a = k → length b = r → canon b →
    vsum data a + vsum (drop k data) b = 0 → two_groups (a ++ b) → False) as Hno.
  { intros a b Ha Hb Hcan Hsum Htwo. destruct (canon_enumerated b k ltac:(lia) Hcan) as (Hch&Hv&_).
    eapply (check_variant_complete sums a b); try done. rewrite Hb in Hch.
    by apply (Ho _ Hch). }
  destruct (decide (signs σ2 = [])) as [Hnil|Hne].
  - apply signs_nil_none in Hnil. rewrite Hnil, vsum_none, Z.add_0_r in Hs.
    assert (two_groups σ1) as Ht1.
    { unfold two_groups, signs in *. rewrite Hnil, omap_app in Ht.
      assert (∀ m, omap id (replicate m (@None bool)) = []) as Hm by (by induction m).
      by rewrite Hm, app_nil_r in Ht. }
    assert (∃ τ, length τ = k ∧ canon τ ∧ vsum data τ = 0 ∧ two_groups τ) as (τ&Hlτ&Hcτ&Hsτ&Htτ).
    { assert (signs σ1 ≠ []) as Hne1.
      { intros Hn. destruct Ht1 as [H1 _]. rewrite Hn in H1. by apply elem_of_nil in H1. }
      destruct (canon_flip σ1 Hne1); [by exists σ1|]. exists (flip σ1).
      rewrite vsum_flip. unfold flip at 1. rewrite length_map.
      split_and!; [done|done|lia|by apply two_groups_flip]. }
    destruct (Hcov τ Hlτ Hcτ) as (c&Hc&Hc2). rewrite Hsτ in Hc. unfold solved in Hns.
    rewrite Hc in Hns. rewrite Hc2 in Hns by done. done.
  - destruct (canon_flip σ2 Hne) as [Hcan|Hcan].
    + by apply (Hno σ1 σ2).
    + apply (Hno (flip σ1) (flip σ2)); [unfold flip; by rewrite length_map..|done| |].
      * rewrite !vsum_flip. lia.
      * unfold flip. rewrite <- map_app. by apply two_groups_flip.
Qed.

(** *** Threads *)

(** What is known of a thread by its position, and whether it will still check a
    choice or has found a solution. *)
Definition thread_ok (t : thread) : Prop :=
  stop t <= 2 ^ Z.of_nat r ∧
  match at_ t with
  | Testing i => 1 <= i
  | Searching i => 1 <= i < stop t
  | Found x | Storing x => found_ok x
  | Done => True
  end.

Definition will_check (ch : Z) (t : thread) : Prop :=
  match at_ t with
  | Testing i | Searching i => i <= ch < stop t
  | Found _ => True
  | _ => False
  end.

Definition is_storing (t : thread) : Prop := match at_ t with Storing _ => True | _ => False end.

(** The invariant of the threads: while the flag is clear no choice is lost, and
    once it is set the result is there or about to be stored. *)
Record threads_ok (sums : gmap Z Combination) (s : threads_state) : Prop := {
  each_ok : Forall thread_ok (threads s);
  result_ok : ∀ x, found_combination s = Some x → found_ok x;
  clear_ok : combination_exists s = false →
    ∀ ch, choice_in_range ch → barren sums ch ∨ Exists (will_check ch) (threads s);
  set_ok : combination_exists s = true →
    found_combination s ≠ None ∨ Exists is_storing (threads s)
}.

Lemma Exists_update (P : thread → Prop) l i t t' :
  l !! i = Some t → Exists P l → (P t → P t') → Exists P (<[i:=t']> l).
Proof.
  intros Hi HP Htt. apply Exists_exists in HP as (x&Hx&HPx). apply list_elem_of_lookup_1 in Hx as [j Hj].
  pose proof (lookup_lt_Some _ _ _ Hi). apply Exists_exists. destruct (decide (i = j)) as [->|Hne].
  - simplify_eq. exists t'. split; [|auto]. by apply list_elem_of_lookup_2 with j, list_lookup_insert_eq.
  - exists x. split; [|done]. apply list_elem_of_lookup_2 with j. by rewrite list_lookup_insert_ne.
Qed.

Lemma Exists_updated (P : thread → Prop) l i t t' :
  l !! i = Some t → P t' → Exists P (<[i:=t']> l).
Proof.
  intros Hi HP. apply Exists_exists. exists t'. split; [|done].
  apply list_elem_of_lookup_2 with i, list_lookup_insert_eq. by eapply lookup_lt_Some.
Qed.

(** What the other threads are about to do stays so. *)
Ltac other_threads H Hat :=
  destruct H as [?|?]; [by left|right];
  eapply Exists_update; [done..|]; unfold will_check, is_storing; rewrite Hat; try done; cbn.

Lemma run_step_ok sums tid s :
  sums_ok sums → threads_ok sums s →
  ∃ s', run_step data sums k tid s = Ok s' ∧ threads_ok sums s' ∧
    length (threads s') = length (threads s).
Proof using Hmag Hk H64.
  intros Hsums [Heach Hres Hclear Hset]. unfold run_step.
  destruct (threads s !! tid) as [t|] eqn:Ht; [|by exists s].
  pose proof (proj1 (Forall_lookup _ _) Heach _ _ Ht) as [Hstop Hpc].
  assert (∀ p, thread_ok (mkThread (stop t) p) →
    Forall thread_ok (<[tid:=mkThread (stop t) p]> (threads s))) as Hall
    by (intros p Hp; by apply Forall_insert).
  unfold ThreadCheckChoices_step. destruct (at_ t) as [i|i|x|x|] eqn:Hat; cbn [bindO].
  2: destruct (check_choice_ok sums i Hsums) as (o&->&Ho);
       [unfold choice_in_range; lia|]; cbn [bindO].
  all: eexists; split; [done|]; split; [|cbn; by rewrite length_insert].
  all: split; cbn [threads combination_exists found_combination]; try done.
  - apply Hall. split; [done|]. cbn. destruct (Z.ltb_spec i (stop t)); [|done].
    by destruct (combination_exists s).
  - intros Hf ch Hch. other_threads (Hclear Hf ch Hch) Hat. rewrite Hf.
    intros Hc. by rewrite (proj2 (Z.ltb_lt _ _)) by lia.
  - intros Hf. other_threads (Hset Hf) Hat.
  - apply Hall. split; [done|]. cbn. destruct o; [done|lia].
  - intros Hf ch Hch. destruct o as [x|]; [right; by eapply Exists_updated|].
    destruct (decide (ch = i)) as [->|]; [by left|]. other_threads (Hclear Hf ch Hch) Hat. lia.
  - intros Hf. other_threads (Hset Hf) Hat.
  - apply Hall. split; [done|]. cbn. by destruct (combination_exists s).
  - intros _. destruct (combination_exists s) eqn:Hf; [|right; by eapply Exists_updated].
    other_threads (Hset eq_refl) Hat.
  - by apply Hall.
  - by intros ? [= <-].
  - intros Hf ch Hch. other_threads (Hclear Hf ch Hch) Hat.
  - by left.
  - by apply Hall.
  - intros Hf ch Hch. other_threads (Hclear Hf ch Hch) Hat.
  - intros Hf. other_threads (Hset Hf) Hat.
Qed.

Lemma run_schedule_ok sums schedule s :
  sums_ok sums → threads_ok sums s →
  ∃ s', run_schedule data sums k schedule s = Ok s' ∧ threads_ok sums s'.
Proof using Hmag Hk H64.
  intros Hsums. unfold run_schedule. revert s. induction schedule as [|tid l IH]; intros s Hs.
  { by exists s. }
  cbn [forO]. destruct (run_step_ok sums tid s Hsums Hs) as (s'&->&Hs'&_). cbn [bindO]. by apply IH.
Qed.
End Search.

(** Each step of a thread leaves it fewer to take, and the others as many. *)
Definition steps_left_at (tid : nat) (s : threads_state) : nat :=
  match threads s !! tid with Some t => steps_left t | None => 0%nat end.

Lemma run_step_left data sums k tid s s' j :
  Forall (λ t, ∀ i, at_ t = Searching i → i < stop t) (threads s) →
  run_step data sums k tid s = Ok s' →
  (steps_left_at j s' ≤ steps_left_at j s - (if decide (j = tid) then 1 else 0))%nat.
Proof.
  intros Hlt. unfold run_step, steps_left_at. destruct (threads s !! tid) as [t|] eqn:Ht.
  2: { intros [= <-]. case_decide; [subst; rewrite Ht|]; lia. }
  intros ([[flag found] p]&Hstep&[= <-])%bindO_inv. cbn [threads]. case_decide as Hj.
  2: { rewrite list_lookup_insert_ne by congruence. lia. }
  subst j. rewrite list_lookup_insert_eq by (by eapply lookup_lt_Some). rewrite Ht.
  pose proof (proj1 (Forall_lookup _ _) Hlt _ _ Ht) as Hlt'. cbn in Hlt'.
  unfold ThreadCheckChoices_step in Hstep. unfold steps_left at 2. destruct (at_ t) as [i|i|x|x|].
  2: { apply bindO_inv in Hstep as (o&_&[= <- <- <-]). specialize (Hlt' i eq_refl).
       destruct o; cbn; lia. }
  all: injection Hstep as <- <- <-; cbn; try lia.
  - destruct (Z.ltb_spec i (stop t)); [|cbn; lia]. destruct (combination_exists s); cbn; lia.
  - destruct (combination_exists s); cbn; lia.
Qed.

Lemma run_schedule_left data k sums schedule s s' j :
  magnitude data <= kIntMax64 → (k ≤ length data)%nat → (length data ≤ 64)%nat →
  sums_ok data k sums → threads_ok data k sums s →
  run_schedule data sums k schedule s = Ok s' →
  (steps_left_at j s' ≤ steps_left_at j s - count_occ Nat.eq_dec schedule j)%nat ∧
  length (threads s') = length (threads s).
Proof.
  intros Hm Hk H64 Hsums. unfold run_schedule. revert s.
  induction schedule as [|tid l IH]; intros s Hs Hrun; cbn [forO count_occ] in *.
  { injection Hrun as <-. split; [lia|done]. }
  destruct (run_step_ok data Hm k Hk H64 sums tid s Hsums Hs) as (s1&Hstep&Hs1&Hl1).
  rewrite Hstep in Hrun. cbn [bindO] in Hrun. destruct (IH s1 Hs1 Hrun) as [H1 H2].
  split; [|congruence]. apply (run_step_left _ _ _ _ _ _ j) in Hstep.
  - destruct (Nat.eq_dec tid j), (decide (j = tid)); subst; try done; lia.
  - destruct Hs as [Heach _ _ _]. eapply Forall_impl; [exact Heach|].
    intros t [_ Ht] i Hi. rewrite Hi in Ht. lia.
Qed.

Lemma count_occ_drain (f : thread → nat) ts off j :
  count_occ Nat.eq_dec (concat (imap (λ tid t, replicate (f t) (off + tid)%nat) ts)) (off + j)%nat
  = match ts !! j with Some t => f t | None => 0%nat end.
Proof.
  revert off j. induction ts as [|t ts IH]; intros off j; [done|].
  rewrite imap_cons. cbn [concat]. rewrite count_occ_app.
  replace (imap ((λ tid x, replicate (f x) (off + tid)%nat) ∘ S) ts)
    with (imap (λ tid x, replicate (f x) (S off + tid)%nat) ts)
    by (apply imap_ext; intros; cbn; f_equal; lia).
  assert (∀ n x y, count_occ Nat.eq_dec (replicate n x) y = if decide (x = y) then n else 0%nat) as Hrep.
  { intros n x y. induction n as [|n IHn]; cbn; [by case_decide|]. rewrite IHn.
    destruct (Nat.eq_dec x y), (decide (x = y)); done. }
  rewrite Hrep. destruct j as [|j]; cbn [lookup].
  - rewrite decide_True by lia. cbn. rewrite (proj1 (count_occ_not_In _ _ _)); [lia|].
    intros Hin. apply list_elem_of_In, elem_of_concat in Hin as (x&Hx&Hl).
    apply list_elem_of_lookup in Hl as [m Hm]. rewrite list_lookup_imap in Hm.
    destruct (ts !! m); [|done]. cbn in Hm. injection Hm as <-. apply elem_of_replicate in Hx. lia.
  - rewrite decide_False by lia. specialize (IH (S off) j).
    replace (off + S j)%nat with (S off + j)%nat by lia. rewrite IH. done.
Qed.

Lemma complete_schedule_done data k sums schedule ts s' :
  magnitude data <= kIntMax64 → (k ≤ length data)%nat → (length data ≤ 64)%nat →
  sums_ok data k sums → threads_ok data k sums (mkThreads false None ts) →
  run_schedule data sums k (complete_schedule schedule ts) (mkThreads false None ts) = Ok s' →
  forallb is_done (threads s') = true.
Proof.
  intros Hm Hk H64 Hsums Hok Hrun. apply forallb_forall. intros t [j Hj]%list_elem_of_In%list_elem_of_lookup.
  destruct (run_schedule_left _ _ _ _ _ _ j Hm Hk H64 Hsums Hok Hrun) as [Hle Hlen].
  unfold complete_schedule in Hle. rewrite count_occ_app in Hle.
  pose proof (count_occ_drain steps_left ts 0 j) as Hc. cbn [Nat.add] in Hc. rewrite Hc in Hle.
  unfold steps_left_at in Hle. rewrite Hj in Hle. cbn [threads] in Hle.
  unfold steps_left at 1 in Hle. unfold is_done. destruct (at_ t); [..|done]; lia.
Qed.

(** *** The ranges of the threads *)

Fixpoint range_total (per_thread residual : Z) (n i : nat) : Z :=
  match n with
  | O => 0
  | S n => (if Z.of_nat i <? residual then per_thread + 1 else per_thread)
           + range_total per_thread residual n (S i)
  end.

Lemma range_total_pos per res n i : 1 <= per → Z.of_nat n <= range_total per res n i.
Proof.
  intros Hp. revert i. induction n as [|n IH]; intros i; [done|]. cbn [range_total].
  specialize (IH (S i)). destruct (_ <? _); lia.
Qed.

Lemma range_total_all per res :
  0 <= res < 8 → range_total per res kThreadCnt 0 = 8 * per + res.
Proof.
  intros Hr. assert (res = 0 ∨ res = 1 ∨ res = 2 ∨ res = 3 ∨ res = 4 ∨ res = 5 ∨ res = 6 ∨ res = 7)
    as Hcases by lia.
  repeat destruct Hcases as [->|Hcases]; [..|subst res]; cbv -[Z.mul Z.add]; lia.
Qed.

Lemma start_threads_ok per res n i cur :
  1 <= per → 1 <= cur → cur + range_total per res n i <= 2 ^ 31 →
  let ts := start_threads per res n i cur in
  Forall (λ t, stop t <= cur + range_total per res n i ∧ ∃ j, at_ t = Testing j ∧ 1 <= j) ts ∧
  ∀ ch, cur <= ch < cur + range_total per res n i → Exists (will_check ch) ts.
Proof.
  intros Hp. revert i cur. induction n as [|n IH]; intros i cur Hcur Hle.
  { cbn in *. split; [constructor|lia]. }
  cbn [start_threads range_total] in *. pose proof (range_total_pos per res n (S i) Hp) as Hpos.
  set (cnt := if Z.of_nat i <? res then per + 1 else per) in *.
  assert (1 <= cnt) as Hcnt by (unfold cnt; destruct (_ <? _); lia).
  assert (u64 cur = cur) as Hu by (apply uwrap_small; lia). rewrite Hu.
  rewrite (uwrap_small 64 (cur + cnt)) by lia.
  assert (n ≠ O → s32 (cur + cnt) = cur + cnt) as Hs by (intros; apply swrap_small; lia).
  destruct (decide (n = O)) as [->|Hn].
  - cbn [start_threads range_total]. rewrite Z.add_0_r in *. split.
    + constructor; [|constructor]. cbn. split; [lia|]. by exists cur.
    + intros ch Hch. constructor. cbn. lia.
  - rewrite Hs by done. destruct (IH (S i) (cur + cnt)) as [IH1 IH2]; [lia|lia|]. split.
    + constructor; [cbn; split; [lia|by exists cur]|]. eapply Forall_impl; [exact IH1|].
      intros t [Ht ?]. split; [lia|done].
    + intros ch Hch. destruct (decide (ch < cur + cnt)); [by constructor; cbn; lia|].
      apply Exists_cons_tl, IH2. lia.
Qed.

(** ** The whole search *)

Section FindSuitable.
Context (data : list Z) (Hmag : magnitude data <= kIntMax64) (k : nat) (Hk : (k ≤ length data)%nat)
  (H62 : (length data ≤ 62)%nat) (Hr : (length data - k ≤ 31)%nat)
  (sums : gmap Z Combination) (Hsums : sums_ok data k sums).

Lemma initial_threads_ok per res :
  1 <= per → 0 <= res < 8 → 8 * per + res = 2 ^ Z.of_nat (length data - k) - 1 →
  threads_ok data k sums (mkThreads false None (start_threads per res kThreadCnt 0 1)).
Proof using Hmag Hk H62 Hr Hsums.
  intros Hp Hres Htot. destruct (start_threads_ok per res kThreadCnt 0 1) as [Hall Hcov]; [done|done|..].
  { rewrite range_total_all by done. rewrite Htot.
    assert (2 ^ Z.of_nat (length data - k) <= 2 ^ 31) by (apply Z.pow_le_mono_r; lia). lia. }
  rewrite range_total_all in Hall, Hcov by done.
  split; cbn [threads combination_exists found_combination]; [|done| |done].
  - eapply Forall_impl; [exact Hall|]. intros t [Ht (j&Hj&?)]. split; [lia|]. by rewrite Hj.
  - intros _ ch Hch. right. apply Hcov. unfold choice_in_range in Hch. lia.
Qed.

Lemma find_suitable_ok schedule :
  ∃ o, FindSuitableCombination schedule data sums k = Ok o ∧ search_ok data k sums o.
Proof using Hmag Hk H62 Hr Hsums.
  assert (length data ≤ 64)%nat as H64 by lia.
  assert (0 < 2 ^ Z.of_nat (length data - k)) as Hpos by (apply Z.pow_pos_nonneg; lia).
  unfold FindSuitableCombination. rewrite (choices_cnt_ok data Hmag k Hk H64).
  set (cnt := 2 ^ Z.of_nat (length data - k)) in *.
  destruct (Z.ltb_spec ((cnt - 1) `div` Z.of_nat kThreadCnt) 8) as [Hlt|Hge].
  - destruct (find_suitable_loop_ok data Hmag k Hk H64 sums (Z.to_nat (cnt - 1)) 1 Hsums)
      as (o&->&Ho); [lia|lia|]. exists o. split; [done|]. by destruct o.
  - pose proof (Z.div_mod (cnt - 1) (Z.of_nat kThreadCnt) ltac:(done)) as Hdm.
    pose proof (Z.mod_pos_bound (cnt - 1) (Z.of_nat kThreadCnt) ltac:(done)) as Hmb.
    set (per := (cnt - 1) `div` _) in *. set (res := (cnt - 1) `mod` _) in *.
    change (Z.of_nat kThreadCnt) with 8 in *.
    pose proof (initial_threads_ok per res ltac:(lia) ltac:(lia) ltac:(lia)) as Hinit.
    set (ts := start_threads per res kThreadCnt 0 1) in *.
    destruct (run_schedule_ok data Hmag k Hk H64 sums (complete_schedule schedule ts) _ Hsums Hinit)
      as (s&Hrun&Hs). rewrite Hrun. cbn [bindO].
    pose proof (complete_schedule_done _ _ _ _ _ _ Hmag Hk H64 Hsums Hinit Hrun) as Hdone.
    rewrite Hdone. exists (found_combination s). split; [done|].
    assert (∀ P : thread → Prop, (∀ t, P t → is_done t = false) → ¬ Exists P (threads s)) as Hnone.
    { intros P HP HE. apply Exists_exists in HE as (t&Ht&HPt). apply HP in HPt.
      rewrite forallb_forall in Hdone. rewrite Hdone in HPt by (by apply list_elem_of_In). done. }
    destruct Hs as [_ Hres Hclear Hset]. unfold search_ok.
    destruct (found_combination s) as [x|]; [by apply Hres|]. intros ch Hch.
    destruct (combination_exists s).
    + destruct (Hset eq_refl) as [?|HE]; [done|]. exfalso. revert HE. apply Hnone.
      intros t. unfold is_storing, is_done. by destruct (at_ t).
    + destruct (Hclear eq_refl ch Hch) as [?|HE]; [done|]. exfalso. revert HE. apply Hnone.
      intros t. unfold will_check, is_done. by destruct (at_ t).
Qed.
End FindSuitable.

Lemma half_range data :
  (2 ≤ length data ≤ 62)%nat → (half data ≤ length data)%nat ∧ (length data - half data ≤ 31)%nat.
Proof.
  intros Hl. unfold half. destruct (Nat.ltb_spec 2 (length data)); [|lia].
  pose proof (Nat.div_mod (length data) 2 ltac:(lia)).
  pose proof (Nat.mod_upper_bound (length data) 2 ltac:(lia)). lia.
Qed.

(** A pair of combinations that was found is merged into two valid sets. *)
Lemma merge_valid data k a b :
  (length data ≤ 64)%nat → (k ≤ length data)%nat → found_ok data k (a, b) →
  let res := MergeCombinations a b k in
  exists_ res = true ∧ valid data (first_indices res) (second_indices res).
Proof.
  intros Hl Hk (Ha&Hb&Hsol). cbn [fst snd] in *. unfold MergeCombinations.
  rewrite (make_subsets_ok a 0 k) by (done || lia).
  rewrite (make_subsets_ok b k (length data - k)) by (done || lia).
  cbn [exists_ first_indices second_indices]. split; [done|].
  pose proof (solution_valid _ _ Hsol) as Hv. by rewrite !side_app, length_decode in Hv.
Qed.

(** So is a combination of the first half alone. *)
Lemma side_none b off m : side b off (replicate m None) = [].
Proof.
  revert off. induction m as [|m IH]; intros off; [done|].
  cbn [replicate side]. rewrite decide_False by done. apply IH.
Qed.

Lemma first_half_valid data k c :
  (k ≤ length data)%nat → (length data ≤ 64)%nat → entry_ok data k 0 c → hasTwoGroups c = true →
  valid data (MakeSubsets c 0).1 (MakeSubsets c 0).2.
Proof.
  intros Hk H64 (Hc&Hs&H2&_) Ht. rewrite (make_subsets_ok _ 0 k) by (done || lia). cbn [fst snd].
  rewrite H2 in Ht. apply bool_decide_eq_true in Ht. set (σ := decode k _ _) in *.
  assert (length σ = k) as Hl by apply length_decode.
  assert (solution data (σ ++ replicate (length data - k) None)) as Hsol.
  { split_and!; [|rewrite vsum_app by lia; rewrite vsum_none; lia|apply two_groups_app; tauto].
    rewrite length_app, length_replicate. lia. }
  apply solution_valid in Hsol. by rewrite !side_app, !side_none, !app_nil_r in Hsol.
Qed.

Lemma short_no_pair data a b : (length data < 2)%nat → ¬ valid data a b.
Proof.
  intros Hlt (Ha&Hb&Hnd&Hr&_). destruct a as [|i a], b as [|j b]; try done. cbn in Hnd, Hr.
  apply NoDup_cons in Hnd as [Hni _]. apply Forall_cons in Hr as [Hi Hr].
  apply Forall_app in Hr as [_ [Hj _]%Forall_cons]. apply Hni, elem_of_app. right.
  replace j with i by lia. constructor.
Qed.

Definition correct_result (data : list Z) (res : Subsets) : Prop :=
  (exists_ res = true → valid data (first_indices res) (second_indices res)) ∧
  (exists_ res = false → ∀ a b, ¬ valid data a b).

(** C9 [FindEqualSumSubsets] is correct and complete: for at most 62 numbers whose
    absolute values add up to at most [INT64_MAX], and in whatever order the eight
    threads of the parallel search take their steps, it returns, without undefined
    behaviour; when it reports a pair of index sets they are nonempty, disjoint,
    within the data and have equal sums, and when it reports none there is no such
    pair. *)
Theorem find_equal_sum_subsets_correct (schedule : list nat) (data : list Z) :
  magnitude data <= kIntMax64 → (length data ≤ 62)%nat →
  ∃ res, FindEqualSumSubsets schedule data = Ok res ∧ correct_result data res.
Proof.
  intros Hm Hl. unfold FindEqualSumSubsets. destruct (Nat.ltb_spec (length data) 2) as [Hlt|Hge].
  { eexists. split; [done|]. split; [done|]. intros _ a b. by apply short_no_pair. }
  destruct (half_range data ltac:(lia)) as [Hk Hr]. set (k := half data) in *.
  assert (length data ≤ 64)%nat as H64 by lia.
  destruct (compute_sum_map_ok data Hm k Hk H64) as (sums&->&Hok&Hcov). cbn [bindO].
  destruct (find_suitable_ok data Hm k Hk Hl Hr sums Hok schedule) as (o&Ho&Hso).
  assert (solved sums = false →
    correct_result data (match o with
                         | Some (a, b) => MergeCombinations a b k
                         | None => mkSubsets [] [] false
                         end)) as Hsearch.
  { intros Hns. destruct o as [[a b]|].
    - destruct (merge_valid data k a b H64 Hk Hso) as [He Hv]. split; [done|]. by rewrite He.
    - split; [done|]. intros _ a b Hv. destruct Hcov as [?|Hcov]; [congruence|].
      apply (search_complete data Hm k Hk H64 sums None Hok Hcov Hns Hso eq_refl).
      by apply (valid_solution data a b). }
  unfold solved in Hsearch. destruct (sums !! 0) as [[c v []]|] eqn:E0; cbn in Hsearch.
  2, 3: rewrite Ho; cbn [bindO]; eauto.
  pose proof (first_half_valid data k _ Hk H64 (Hok _ _ E0) eq_refl) as Hv.
  destruct (MakeSubsets _ 0) as [first second]. by eexists.
Qed.

Lemma find_equal_sum_subsets_correct_witness :
  magnitude [3; -7; 1; 2] <= kIntMax64 ∧
  ∃ res, FindEqualSumSubsets [] [3; -7; 1; 2] = Ok res ∧ correct_result [3; -7; 1; 2] res.
Proof.
  split; [by vm_compute|]. apply (find_equal_sum_subsets_correct [] [3; -7; 1; 2]).
  - by vm_compute.
  - cbn. lia.
Defined.

(** The same data, evaluated. *)
Example find_equal_sum_subsets_small :
  FindEqualSumSubsets [] [3; -7; 1; 2] = Ok (mkSubsets [2%nat; 3%nat] [0%nat] true).
Proof. vm_compute. reflexivity. Qed.

(** Fourteen numbers, searched by the threads; the last ones are equal. *)
Example find_equal_sum_subsets_parallel :
  FindEqualSumSubsets [7; 7; 0; 3; 7; 3; 1]%nat
    [1; 2; 4; 8; 16; 32; 64; 1000; 2000; 4000; 8000; 16000; 32000; 32000]
  = Ok (mkSubsets [12%nat] [13%nat] true).
Proof. vm_compute. reflexivity. Qed.

(** ** Sixty-four numbers *)

Lemma compute_sum_out_of_range data indices res two comb prev i :
  i ∈ indices → (length data ≤ i)%nat → ComputeSum_loop data indices res two comb prev = Fail UB.
Proof.
  revert res two comb prev. induction indices as [|j l IH]; intros res two comb prev Hin Hi.
  { by apply elem_of_nil in Hin. }
  cbn [ComputeSum_loop]. destruct (data !! j) as [x|] eqn:Hj; [|done].
  apply lookup_lt_Some in Hj. apply elem_of_cons in Hin as [->|Hin]; [lia|].
  unfold checked64. destruct (in_s64 _); [|done]. cbn [bindO]. by apply IH.
Qed.

Lemma check_choice_out_of_range data sums ch k :
  MakeIndicesFromChoice ch k ≠ [] →
  (∃ i, i ∈ MakeIndicesFromChoice ch k ∧ (length data ≤ i)%nat) →
  CheckChoice data sums ch k = Fail UB.
Proof.
  intros Hne (i&Hi&Hl). unfold CheckChoice. set (l := MakeIndicesFromChoice ch k) in *.
  assert (0 < variants_cnt l) as Hpos.
  { unfold variants_cnt. apply Z.pow_pos_nonneg; [lia|]. destruct l; [done|]. cbn [length]. lia. }
  destruct (Z.to_nat (variants_cnt l)) as [|n] eqn:E; [lia|]. cbn [CheckChoice_loop].
  unfold ComputeSum. by rewrite (compute_sum_out_of_range data l 0 false 0 (Z.land 0 1) i).
Qed.

(** A thread whose first check fails makes the search fail. *)
Lemma bad_thread data sums k ts tid c e rest :
  ts !! tid = Some (mkThread e (Testing c)) → c < e → CheckChoice data sums c k = Fail UB →
  run_schedule data sums k (tid :: tid :: rest) (mkThreads false None ts) = Fail UB.
Proof.
  intros Ht Hc Hub. unfold run_schedule. cbn [forO].
  unfold run_step at 1. cbn [threads]. rewrite Ht. cbn [ThreadCheckChoices_step at_ stop bindO].
  rewrite (proj2 (Z.ltb_lt _ _)) by done. cbn [combination_exists found_combination bindO].
  unfold run_step at 1. cbn [threads]. rewrite list_lookup_insert_eq by (by eapply lookup_lt_Some).
  unfold ThreadCheckChoices_step. cbn [at_]. by rewrite Hub.
Qed.

Lemma fifth_thread :
  start_threads ((2 ^ 32 - 1) `div` 8) ((2 ^ 32 - 1) `mod` 8) kThreadCnt 0 1 !! 4%nat
  = Some (mkThread (2 ^ 64 - 2 ^ 31 + 2 ^ 29 + 1) (Testing (2 ^ 64 - 2 ^ 31 + 1))).
Proof. vm_compute. reflexivity. Qed.

Lemma fifth_indices :
  MakeIndicesFromChoice (2 ^ 64 - 2 ^ 31 + 1) 32 = 32%nat :: seq 63 33.
Proof. vm_compute. reflexivity. Qed.

(** With 64 numbers [current_choice], an [int], wraps around before the fifth
    thread is started: the thread is given a range of choices near 2^64 and reads
    outside the data at its first choice. *)
Theorem current_choice_wraps (data : list Z) (sums : gmap Z Combination) :
  length data = 64%nat → FindSuitableCombination [4%nat; 4%nat] data sums 32 = Fail UB.
Proof.
  intros Hl. unfold FindSuitableCombination, choices_cnt. rewrite Hl.
  change (2 ^ (Z.of_nat 64 - Z.of_nat 32)) with (2 ^ 32). change (Z.of_nat kThreadCnt) with 8.
  rewrite (proj2 (Z.ltb_ge _ _)) by (by vm_compute). cbv zeta.
  pose proof fifth_thread as H5. revert H5. generalize (start_threads ((2 ^ 32 - 1) `div` 8)
    ((2 ^ 32 - 1) `mod` 8) kThreadCnt 0 1). intros ts H5. unfold complete_schedule.
  generalize (concat (imap (λ tid t, replicate (steps_left t) tid) ts)). intros rest. cbn [app].
  rewrite (bad_thread data sums 32 ts 4 _ _ rest H5); [done|lia|].
  apply check_choice_out_of_range; rewrite fifth_indices; [done|].
  exists 95%nat. split; [|lia]. apply elem_of_cons. right. apply elem_of_seq. lia.
Qed.

Lemma current_choice_wraps_witness :
  FindSuitableCombination [4%nat; 4%nat] (replicate 64 1) ∅ 32 = Fail UB.
Proof. apply current_choice_wraps. reflexivity. Defined.
