(* ===== verification/Locks.v ===== *)
(** * Locks (spinlock, rw-spinlock, futex, rw-lock, semaphore)

    Each lock is a transition system: a shared state and a list of threads, each
    somewhere in the code of an operation, outside of the lock or inside its
    critical section.  A step is one access to an atomic variable, or one critical
    section of a mutex.  Threads call the operations in any order the protocol of
    the lock allows: they release what they hold.

    The counters of [RWLock] are bounded by the number of threads, which is shown.  The
    tickets of [Semaphore] are natural numbers: a [size_t] wraps around after 2^64 calls of
    [Acquire], which is left out. *)

From S2P Require Import Prelude.

(** What a mutex promises: two threads that hold it are the same thread.  It is
    shown by counting. *)
Class Mutex {S P : Type} (init : S * list P → Prop) (step : S * list P → S * list P → Prop)
    (holds : P → bool) : Prop :=
  at_most_one : ∀ c, reachable init step c → count holds c.2 ≤ 1.

Lemma mutex_excludes {S P : Type} `{Mutex S P init step holds} c i j p q :
  reachable init step c → c.2 !! i = Some p → c.2 !! j = Some q →
  holds p = true → holds q = true → i = j.
Proof.
  intros Hc Hi Hj Hp Hq. destruct (decide (i = j)) as [|Hne]; [done|].
  pose proof (at_most_one c Hc). pose proof (count_two holds c.2 i j p q Hi Hj Hp Hq Hne). lia.
Qed.

Module SpinLock.

(** Outside, about to [test_and_set], between [Lock] and [Unlock]. *)
Inductive pc : Type := Outside | Trying | Holding.

Definition Lock_step (atomic_lock : bool) : bool * pc :=
  (true, if atomic_lock then Trying else Holding).

Definition Unlock (atomic_lock : bool) : bool * pc := (false, Outside).

Inductive rule : bool → pc → bool → pc → Prop :=
| call_Lock s : rule s Outside s Trying
| do_Lock s : rule s Trying (Lock_step s).1 (Lock_step s).2
| do_Unlock s : rule s Holding (Unlock s).1 (Unlock s).2.

Definition init (c : bool * list pc) : Prop := ∃ n, c = (false, replicate n Outside).

Definition holds (p : pc) : bool := match p with Holding => true | _ => false end.

Definition inv (c : bool * list pc) : Prop := count holds c.2 = Nat.b2n c.1.

Lemma spin_inv_reachable c : reachable init (thread_steps rule) c → inv c.
Proof.
  apply invariant_reachable; unfold inv.
  - intros ? [n ->]. by apply count_replicate.
  - intros [s l] ? Hinv (i&p&s'&p'&Hi&Hr&->). cbn [fst snd] in *. count_step Hi holds p'.
    destruct Hr as [s|[]|s]; cbn in *; try lia. destruct s; cbn in *; lia.
Qed.

#[global] Instance spin_lock_mutex : Mutex init (thread_steps rule) holds.
Proof. intros c Hc. rewrite (spin_inv_reachable c Hc). destruct c.1; cbn; lia. Qed.
End SpinLock.

Module RWSpinLock.

(** [lock] is the local variable of [LockRead] and of [UnlockRead]. *)
Inductive pc : Type :=
| Outside
| ReadLoad
| ReadTry (lock : Z)
| Reading
| UnreadLoad
| UnreadTry (lock : Z)
| WriteTry
| Writing.

Definition without_writer (lock : Z) : Z := Z.shiftl (Z.shiftr lock 1) 1.

Definition LockRead_load (rw_lock : Z) : pc := ReadTry (without_writer rw_lock).

(** [compare_exchange_weak] may fail for no reason; when it fails [lock] is what
    was there. *)
Definition LockRead_step (spurious : bool) (rw_lock lock : Z) : Z * pc :=
  if (rw_lock =? lock)%Z && negb spurious
  then (u32 (Z.shiftl (u32 (Z.shiftr lock 1 + 1)) 1), Reading)
  else (rw_lock, ReadTry (without_writer rw_lock)).

Definition UnlockRead_step (spurious : bool) (rw_lock lock : Z) : Z * pc :=
  if (rw_lock =? lock)%Z && negb spurious
  then (u32 (Z.shiftl (u32 (Z.shiftr lock 1 - 1)) 1), Outside)
  else (rw_lock, UnreadTry rw_lock).

Definition LockWrite_step (spurious : bool) (rw_lock : Z) : Z * pc :=
  if (rw_lock =? 0)%Z && negb spurious then (1%Z, Writing) else (rw_lock, WriteTry).

Definition UnlockWrite (rw_lock : Z) : Z * pc := (0%Z, Outside).

Inductive rule : Z → pc → Z → pc → Prop :=
| call_LockRead v : rule v Outside v ReadLoad
| do_LockRead_load v : rule v ReadLoad v (LockRead_load v)
| do_LockRead b v lock : rule v (ReadTry lock) (LockRead_step b v lock).1 (LockRead_step b v lock).2
| call_UnlockRead v : rule v Reading v UnreadLoad
| do_UnlockRead_load v : rule v UnreadLoad v (UnreadTry v)
| do_UnlockRead b v lock :
    rule v (UnreadTry lock) (UnlockRead_step b v lock).1 (UnlockRead_step b v lock).2
| call_LockWrite v : rule v Outside v WriteTry
| do_LockWrite b v : rule v WriteTry (LockWrite_step b v).1 (LockWrite_step b v).2
| do_UnlockWrite v : rule v Writing (UnlockWrite v).1 (UnlockWrite v).2.

(** Fewer threads than the counter of readers can count. *)
Definition init (c : Z * list pc) : Prop :=
  ∃ n, (Z.of_nat n < 2 ^ 31)%Z ∧ c = (0%Z, replicate n Outside).

Definition reads (p : pc) : bool :=
  match p with Reading | UnreadLoad | UnreadTry _ => true | _ => false end.
Definition writes (p : pc) : bool := match p with Writing => true | _ => false end.

Lemma without_writer_even v : (0 <= v)%Z → ∃ n, (0 <= n)%Z ∧ without_writer v = (2 * n)%Z.
Proof.
  intros Hv. unfold without_writer. exists (Z.shiftr v 1). split; [by apply Z.shiftr_nonneg|].
  rewrite Z.shiftl_mul_pow2 by lia. lia.
Qed.

Lemma shift_double n : Z.shiftr (2 * n) 1 = n.
Proof. rewrite Z.shiftr_div_pow2, Z.mul_comm by lia. apply Z.div_mul. lia. Qed.

Lemma next_word n : (0 <= n < 2 ^ 31)%Z → u32 (Z.shiftl (u32 n) 1) = (2 * n)%Z.
Proof.
  intros Hn. rewrite (uwrap_small 32 n), Z.shiftl_mul_pow2 by lia. rewrite uwrap_small; lia.
Qed.

(** The word is twice the number of readers plus the number of writers, and the
    expected value of a reader that tries to enter is even. *)
Record inv (c : Z * list pc) : Prop := {
  few : (Z.of_nat (length c.2) < 2 ^ 31)%Z;
  word : c.1 = (2 * Z.of_nat (count reads c.2) + Z.of_nat (count writes c.2))%Z;
  one_writer : count writes c.2 ≤ 1;
  alone : 0 < count writes c.2 → count reads c.2 = 0;
  even : ∀ i lock, c.2 !! i = Some (ReadTry lock) → ∃ n, (0 <= n)%Z ∧ lock = (2 * n)%Z
}.

Lemma even_step (l : list pc) (i : nat) p' :
  (∀ j lock, l !! j = Some (ReadTry lock) → ∃ n, (0 <= n)%Z ∧ lock = (2 * n)%Z) →
  (∀ lock, p' = ReadTry lock → ∃ n, (0 <= n)%Z ∧ lock = (2 * n)%Z) →
  ∀ j lock, <[i:=p']> l !! j = Some (ReadTry lock) → ∃ n, (0 <= n)%Z ∧ lock = (2 * n)%Z.
Proof.
  intros Hl Hp j lock Hj. destruct (decide (i = j)) as [->|Hne].
  - apply list_lookup_insert_Some in Hj as [(_&Hj&_)|[? _]]; [by apply Hp|done].
  - rewrite list_lookup_insert_ne in Hj by done. eauto.
Qed.

Lemma rw_spin_inv_step c c' : inv c → thread_steps rule c c' → inv c'.
Proof.
  intros [Hfew Hword Hone Halone Heven] (i&p&v'&p'&Hi&Hr&->). destruct c as [v l]. cbn [fst snd] in *.
  count_step Hi reads p'. count_step Hi writes p'.
  pose proof (count_le reads (<[i:=p']> l)) as Hle. rewrite length_insert in Hle.
  assert (0 <= v)%Z as Hv by lia.
  assert (∀ q, reads p = true → q = p → 0 < count reads l) as Hreads
    by (intros ? Hp _; by eapply count_lookup).
  revert Hword. inversion Hr; subst; clear Hr; intros Hword.
  all: unfold LockRead_load, LockRead_step, UnlockRead_step, LockWrite_step, UnlockWrite in *.
  all: try (destruct (Z.eqb_spec v lock) as [->|Hne]; [destruct b|]; cbn [andb negb fst snd] in *).
  all: try (destruct (Z.eqb_spec v 0) as [->|Hne]; [destruct b|]; cbn [andb negb fst snd] in *).
  all: try destruct (Heven i lock Hi) as (n&Hn&->).
  all: try (specialize (Hreads _ eq_refl eq_refl)).
  all: cbn [fst snd reads writes Nat.b2n] in *.
  all: split; cbn [fst snd]; rewrite ?length_insert; try lia.
  all: try (apply even_step; [done|]; intros ? [=]; subst; by (apply without_writer_even || eauto)).
  - rewrite shift_double, next_word by lia. lia.
  - replace (Z.shiftr lock 1) with (Z.of_nat (count reads l))
      by (rewrite <- (shift_double (Z.of_nat _)); f_equal; lia).
    rewrite next_word by lia. lia.
Qed.

Lemma rw_spin_inv_reachable c : reachable init (thread_steps rule) c → inv c.
Proof.
  apply invariant_reachable; [|apply rw_spin_inv_step]. intros ? (n&Hn&->). split; cbn [fst snd].
  - by rewrite length_replicate.
  - by rewrite !count_replicate.
  - by rewrite count_replicate by done; lia.
  - by rewrite !count_replicate.
  - intros i lock Hi. apply lookup_replicate in Hi as [? _]. done.
Qed.
End RWSpinLock.

Module FutexMutex.

(** Outside; about to compare and exchange; about to exchange; about to call
    [FutexWait]; asleep in it; holding the lock; about to store 0 in [Unlock]; about
    to call [FutexWake]. *)
Inductive pc : Type :=
| Outside
| Trying
| Exchanging
| Waiting
| Asleep
| Holding
| Storing
| Waking.

(** [compare_exchange_strong]; when the mutex is known to have waiters the first
    exchange is skipped. *)
Definition Lock_try (state : Z) : Z * pc :=
  if (state =? 0)%Z then (1%Z, Holding)
  else (state, if negb (state =? 2)%Z then Exchanging else Waiting).

Definition Lock_exchange (state : Z) : Z * pc :=
  (2%Z, if negb (state =? 0)%Z then Waiting else Holding).

(** The system call sleeps only if the value is still the expected one. *)
Definition FutexWait (state expected_value : Z) : pc :=
  if (state =? expected_value)%Z then Asleep else Exchanging.

Definition Unlock_sub (state : Z) : Z * pc :=
  ((state - 1)%Z, if negb (state =? 1)%Z then Storing else Outside).

Definition Unlock_store (state : Z) : Z * pc := (0%Z, Waking).

Inductive rule : Z → pc → Z → pc → Prop :=
| call_Lock v : rule v Outside v Trying
| do_try v : rule v Trying (Lock_try v).1 (Lock_try v).2
| do_exchange v : rule v Exchanging (Lock_exchange v).1 (Lock_exchange v).2
| do_wait v : rule v Waiting v (FutexWait v 2)
| interrupted v : rule v Asleep v Exchanging
| do_sub v : rule v Holding (Unlock_sub v).1 (Unlock_sub v).2
| do_store v : rule v Storing (Unlock_store v).1 (Unlock_store v).2.

(** [FutexWake] with a count of 1 wakes one sleeper, whichever, if there is one. *)
Inductive step : Z * list pc → Z * list pc → Prop :=
| thread_step c c' : thread_steps rule c c' → step c c'
| wake_one v l i j :
    l !! i = Some Waking → l !! j = Some Asleep →
    step (v, l) (v, <[i:=Outside]> (<[j:=Exchanging]> l))
| wake_none v l i :
    l !! i = Some Waking → (∀ j, l !! j ≠ Some Asleep) → step (v, l) (v, <[i:=Outside]> l).

Definition init (c : Z * list pc) : Prop := ∃ n, c = (0%Z, replicate n Outside).

(** The threads that have the lock. *)
Definition holds (p : pc) : bool := match p with Holding | Storing => true | _ => false end.
Definition asleep (p : pc) : bool := match p with Asleep => true | _ => false end.
(** The threads because of which a sleeper is not forgotten. *)
Definition active (p : pc) : bool :=
  match p with Exchanging | Storing | Waking => true | _ => false end.

Record inv (c : Z * list pc) : Prop := {
  value : (c.1 = 0 ∨ c.1 = 1 ∨ c.1 = 2)%Z;
  one : count holds c.2 ≤ 1;
  free : c.1 = 0%Z ↔ count holds c.2 = 0;
  awake : 0 < count asleep c.2 → c.1 = 2%Z ∨ 0 < count active c.2
}.

Lemma futex_inv_step c c' : inv c → step c c' → inv c'.
Proof.
  intros [Hval Hone Hfree Hawake] Hstep.
  destruct Hstep as [[v l] ? (i&p&v'&p'&Hi&Hr&->)|v l i j Hi Hj|v l i Hi Hno]; cbn [fst snd] in *.
  - count_step Hi holds p'. count_step Hi asleep p'. count_step Hi active p'.
    pose proof (count_lookup holds l i p Hi) as Hh. pose proof (count_lookup active l i p Hi) as Ha.
    revert Hval Hfree Hawake.
    inversion Hr; subst; clear Hr; intros Hval Hfree Hawake;
      unfold Lock_try, Lock_exchange, FutexWait, Unlock_sub, Unlock_store in *;
      destruct Hval as [-> |[-> | ->]]; 
      cbn [fst snd Nat.b2n holds asleep active Z.eqb Pos.eqb negb] in *;
      try specialize (Hh eq_refl); try specialize (Ha eq_refl); split; cbn [fst snd]; lia.
  - assert (i ≠ j) as Hne by (intros ->; congruence).
    assert (<[j:=Exchanging]> l !! i = Some Waking) as Hi' by (by rewrite list_lookup_insert_ne).
    count_step Hj holds Exchanging. count_step Hj asleep Exchanging. count_step Hj active Exchanging.
    count_step Hi' holds Outside. count_step Hi' asleep Outside. count_step Hi' active Outside.
    cbn in *. pose proof (count_lookup active l i Waking Hi eq_refl).
    split; cbn [fst snd]; lia.
  - count_step Hi holds Outside. count_step Hi asleep Outside. cbn in *.
    split; cbn [fst snd]; try lia. intros Hs. exfalso.
    destruct (count_pos_lookup asleep l) as (j&p&Hj&Hp); [lia|].
    destruct p; try done. by apply (Hno j).
Qed.

Lemma futex_inv_reachable c : reachable init step c → inv c.
Proof.
  apply invariant_reachable; [|apply futex_inv_step]. intros ? (n&->).
  split; cbn [fst snd]; rewrite ?count_replicate by done; lia.
Qed.

#[global] Instance futex_mutex : Mutex init step holds.
Proof. intros c Hc. by destruct (futex_inv_reachable c Hc). Qed.

(** The release of a mutex whose state is 2 gets as far as the system call that wakes. *)
Lemma unlock_wakes l i : l !! i = Some Holding → rtc step (2%Z, l) (0%Z, <[i:=Waking]> l).
Proof.
  intros Hi. eapply rtc_l; [apply thread_step; by exists i, Holding, 1%Z, Storing; split_and!; [|apply (do_sub 2)|]|].
  eapply rtc_l; [|apply rtc_refl]. apply thread_step. exists i, Storing, 0%Z, Waking. cbn [fst snd].
  split_and!; [apply list_lookup_insert_eq; by eapply lookup_lt_Some|apply (do_store 1)|by rewrite list_insert_insert_eq].
Qed.

(** That call wakes a sleeper if there is one. *)
Lemma waking_wakes c c' i :
  step c c' → c.2 !! i = Some Waking → c'.2 !! i = Some Outside → (∃ j, c.2 !! j = Some Asleep) →
  ∃ j, c.2 !! j = Some Asleep ∧ c'.2 !! j = Some Exchanging.
Proof.
  intros Hstep Hi Hi' [k Hk].
  destruct Hstep as [[v l] ? (j&p&v'&p'&Hj&Hr&->)|v l j j' Hj Hj'|v l j Hj Hno]; cbn [fst snd] in *.
  - exfalso. apply insert_inv in Hi' as [[-> _]|[_ Hi']]; [|congruence]. assert (p = Waking) as -> by congruence. inversion Hr.
  - exists j'. split; [done|]. rewrite list_lookup_insert_ne by (intros ->; congruence).
    apply list_lookup_insert_eq. by eapply lookup_lt_Some.
  - by destruct (Hno k).
Qed.
End FutexMutex.

Module RWLock.

(** The four counters. *)
Record shared : Type := mkShared {
  readers_cnt : nat;
  writers_cnt : nat;
  blocked_readers_cnt : nat;
  blocked_writers_cnt : nat
}.

(** Outside; waiting on [can_read_]; notified and about to check the condition
    again; inside [func]; the same for writers. *)
Inductive pc : Type :=
| Outside
| ReadWait
| ReadWoken
| Reading
| WriteWait
| WriteWoken
| Writing.

Definition can_read (s : shared) : bool := writers_cnt s =? 0.
Definition can_write (s : shared) : bool := (readers_cnt s =? 0) && (writers_cnt s =? 0).

(** The check of the condition, and what follows it up to [unlock]. *)
Definition Read_check (s : shared) : shared * pc :=
  if can_read s
  then (mkShared (S (readers_cnt s)) (writers_cnt s) (blocked_readers_cnt s - 1)
          (blocked_writers_cnt s), Reading)
  else (s, ReadWait).

Definition Read_enter (s : shared) : shared * pc :=
  Read_check (mkShared (readers_cnt s) (writers_cnt s) (S (blocked_readers_cnt s))
                (blocked_writers_cnt s)).

Definition Write_check (s : shared) : shared * pc :=
  if can_write s
  then (mkShared (readers_cnt s) (S (writers_cnt s)) (blocked_readers_cnt s)
          (blocked_writers_cnt s - 1), Writing)
  else (s, WriteWait).

Definition Write_enter (s : shared) : shared * pc :=
  Write_check (mkShared (readers_cnt s) (writers_cnt s) (blocked_readers_cnt s)
                 (S (blocked_writers_cnt s))).

(** Whom the end of an operation notifies. *)
Inductive notification : Type := NotifyReaders | NotifyWriter | NotifyNone.

Definition EndRead (s : shared) : shared * notification :=
  (mkShared (readers_cnt s - 1) (writers_cnt s) (blocked_readers_cnt s) (blocked_writers_cnt s),
   if (readers_cnt s - 1 =? 0) && negb (blocked_writers_cnt s =? 0) then NotifyWriter else NotifyNone).

Definition EndWrite (s : shared) : shared * notification :=
  (mkShared (readers_cnt s) (writers_cnt s - 1) (blocked_readers_cnt s) (blocked_writers_cnt s),
   if 3 * blocked_writers_cnt s <? blocked_readers_cnt s then NotifyReaders
   else if negb (blocked_writers_cnt s =? 0) then NotifyWriter else NotifyNone).

(** [notify_all] on [can_read_]; [notify_one] on [can_write_] wakes one waiting
    writer, whichever, if there is one. *)
Definition wake_reader (p : pc) : pc := match p with ReadWait => ReadWoken | _ => p end.

Inductive notified : notification → list pc → list pc → Prop :=
| notify_readers l : notified NotifyReaders l (map wake_reader l)
| notify_writer l i : l !! i = Some WriteWait → notified NotifyWriter l (<[i:=WriteWoken]> l)
| notify_no_writer l : (∀ i, l !! i ≠ Some WriteWait) → notified NotifyWriter l l
| notify_none l : notified NotifyNone l l.

Inductive rule : shared → pc → shared → pc → Prop :=
| do_Read s : rule s Outside (Read_enter s).1 (Read_enter s).2
| do_Write s : rule s Outside (Write_enter s).1 (Write_enter s).2
| recheck_read s : rule s ReadWoken (Read_check s).1 (Read_check s).2
| recheck_write s : rule s WriteWoken (Write_check s).1 (Write_check s).2
| spurious_read s : rule s ReadWait s ReadWoken
| spurious_write s : rule s WriteWait s WriteWoken.

(** [func] may throw: the lock is released all the same. *)
Inductive step : shared * list pc → shared * list pc → Prop :=
| thread_step c c' : thread_steps rule c c' → step c c'
| do_EndRead s l i l' :
    l !! i = Some Reading → notified (EndRead s).2 (<[i:=Outside]> l) l' →
    step (s, l) ((EndRead s).1, l')
| do_EndWrite s l i l' :
    l !! i = Some Writing → notified (EndWrite s).2 (<[i:=Outside]> l) l' →
    step (s, l) ((EndWrite s).1, l').

Definition init (c : shared * list pc) : Prop :=
  ∃ n, c = (mkShared 0 0 0 0, replicate n Outside).

Definition reads (p : pc) : bool := match p with Reading => true | _ => false end.
Definition writes (p : pc) : bool := match p with Writing => true | _ => false end.
Definition read_waits (p : pc) : bool := match p with ReadWait => true | _ => false end.
Definition write_waits (p : pc) : bool := match p with WriteWait => true | _ => false end.
Definition read_woken (p : pc) : bool := match p with ReadWoken => true | _ => false end.
Definition write_woken (p : pc) : bool := match p with WriteWoken => true | _ => false end.

(** The counters count; a writer is alone; and when no writer is inside, a reader
    only waits if a writer is blocked, and when nobody is inside, a writer only
    waits if some thread has been notified. *)
Record inv (c : shared * list pc) : Prop := {
  readers : readers_cnt c.1 = count reads c.2;
  writers : writers_cnt c.1 = count writes c.2;
  blocked_readers : blocked_readers_cnt c.1 = count read_waits c.2 + count read_woken c.2;
  blocked_writers : blocked_writers_cnt c.1 = count write_waits c.2 + count write_woken c.2;
  one_writer : count writes c.2 ≤ 1;
  alone : 0 < count writes c.2 → count reads c.2 = 0;
  readers_wait : count writes c.2 = 0 → 0 < count read_waits c.2 →
    0 < count write_waits c.2 + count write_woken c.2;
  writers_wait : count writes c.2 = 0 → count reads c.2 = 0 → 0 < count write_waits c.2 →
    0 < count read_woken c.2 + count write_woken c.2
}.

(** A thread is counted once. *)
Lemma places_disjoint l :
  count reads l + count writes l + (count read_waits l + count read_woken l) +
    (count write_waits l + count write_woken l) ≤ length l.
Proof.
  induction l as [|p l IH]; [done|]. rewrite !count_cons. cbn [length]. destruct p; cbn [Nat.b2n reads writes read_waits read_woken write_waits write_woken]; lia.
Qed.

(** What notifying readers does to the numbers. *)
Lemma wake_readers_counts l :
  count read_waits (map wake_reader l) = 0 ∧
  count read_woken (map wake_reader l) = count read_waits l + count read_woken l ∧
  count write_waits (map wake_reader l) = count write_waits l ∧
  count write_woken (map wake_reader l) = count write_woken l ∧
  count reads (map wake_reader l) = count reads l ∧
  count writes (map wake_reader l) = count writes l.
Proof.
  induction l as [|p l IH]; [done|]. cbn [map]. rewrite !count_cons. destruct p; cbn; lia.
Qed.

(** All the numbers after a thread moves. *)
Ltac counts Hi p' :=
  count_step Hi reads p'; count_step Hi writes p'; count_step Hi read_waits p';
  count_step Hi write_waits p'; count_step Hi read_woken p'; count_step Hi write_woken p';
  cbn [reads writes read_waits write_waits read_woken write_woken Nat.b2n] in *.

Lemma no_writer_waits l : (∀ i, l !! i ≠ Some WriteWait) → count write_waits l = 0.
Proof.
  intros Hno. destruct (count write_waits l) eqn:E; [done|].
  destruct (count_pos_lookup write_waits l) as (i&p&Hi&Hp); [lia|].
  destruct p; try done. by apply Hno in Hi.
Qed.

Lemma rw_lock_inv_step_rule c c' : inv c → thread_steps rule c c' → inv c'.
Proof.
  intros [Hr Hw Hbr Hbw Hone Halone Hrw Hww] (i&p&s'&p'&Hi&Hrule&->).
  destruct c as [[r w br bw] l]. cbn [fst snd readers_cnt writers_cnt blocked_readers_cnt blocked_writers_cnt] in *.
  inversion Hrule; subst s' p' p s; clear Hrule;
    unfold Read_enter, Write_enter, Read_check, Write_check, can_read, can_write in *;
    cbn [readers_cnt writers_cnt blocked_readers_cnt blocked_writers_cnt] in *;
    try (destruct (Nat.eqb_spec r 0)); try (destruct (Nat.eqb_spec w 0)); cbn [andb fst snd];
    match goal with |- inv (_, <[_:=?q]> _) => counts Hi q end;
    split; cbn [fst snd readers_cnt writers_cnt blocked_readers_cnt blocked_writers_cnt]; lia.
Qed.

(** What a notification changes: waiting threads are notified, and when a writer
    is notified, or none waits. *)
Lemma notified_counts n l l' :
  notified n l l' →
  count reads l' = count reads l ∧ count writes l' = count writes l ∧
  count read_waits l' + count read_woken l' = count read_waits l + count read_woken l ∧
  count write_waits l' + count write_woken l' = count write_waits l + count write_woken l ∧
  match n with
  | NotifyReaders => count read_waits l' = 0
  | NotifyWriter => count read_waits l' = count read_waits l ∧
                    (0 < count write_waits l' → 0 < count write_woken l')
  | NotifyNone => l' = l
  end.
Proof.
  intros [k|k i Hi|k Hno|k].
  - pose proof (wake_readers_counts k). lia.
  - counts Hi WriteWoken. lia.
  - apply no_writer_waits in Hno. lia.
  - done.
Qed.

Lemma rw_lock_inv_step c c' : inv c → step c c' → inv c'.
Proof.
  intros Hinv Hstep.
  destruct Hstep as [c c' Ht|s l i l' Hi Hn|s l i l' Hi Hn]; [by eapply rw_lock_inv_step_rule|..].
  all: destruct Hinv as [Hr Hw Hbr Hbw Hone Halone Hrw Hww], s as [r w br bw].
  all: counts Hi Outside; pose proof (notified_counts _ _ _ Hn) as (N1&N2&N3&N4&N5); clear Hn.
  all: unfold EndRead, EndWrite in *; cbn [fst snd readers_cnt writers_cnt blocked_readers_cnt blocked_writers_cnt] in *.
  - destruct (Nat.eqb_spec (r - 1) 0), (Nat.eqb_spec bw 0); cbn [andb negb] in N5;
      try subst l'; split; cbn [fst snd readers_cnt writers_cnt blocked_readers_cnt blocked_writers_cnt]; lia.
  - destruct (Nat.ltb_spec (3 * bw) br), (Nat.eqb_spec bw 0); cbn [negb] in N5;
      try subst l'; split; cbn [fst snd readers_cnt writers_cnt blocked_readers_cnt blocked_writers_cnt]; lia.
Qed.

Lemma rw_lock_inv_reachable c : reachable init step c → inv c.
Proof.
  apply invariant_reachable; [|apply rw_lock_inv_step]. intros ? (n&->).
  split; cbn [fst snd readers_cnt writers_cnt blocked_readers_cnt blocked_writers_cnt];
    rewrite ?count_replicate by done; lia.
Qed.
End RWLock.

Module Semaphore.

Record shared : Type := mkShared {
  count_ : Z;
  executing_pos_ : nat;
  jobs_cnt_ : nat
}.

(** Outside; waiting on [cv_] with the ticket [query_pos]; notified and about to
    check the condition again. *)
Inductive pc : Type :=
| Outside
| Waiting (query_pos : nat)
| Woken (query_pos : nat).

Inductive event : Type := Acquired (query_pos : nat) | Released.

(** The check of the condition in [Acquire] and what follows it. *)
Definition Acquire_check (callback : Z → Z) (s : shared) (query_pos : nat) : shared * pc * list event :=
  if negb (count_ s =? 0)%Z && (query_pos =? executing_pos_ s)
  then (mkShared (callback (count_ s)) (S (executing_pos_ s)) (jobs_cnt_ s), Outside,
        [Acquired query_pos])
  else (s, Waiting query_pos, []).

Definition Acquire_enter (callback : Z → Z) (s : shared) : shared * pc * list event :=
  Acquire_check callback (mkShared (count_ s) (executing_pos_ s) (S (jobs_cnt_ s))) (jobs_cnt_ s).

(** The callback of [Acquire] without argument. *)
Definition decrement (value : Z) : Z := (value - 1)%Z.

Definition Release (s : shared) : shared := mkShared (count_ s + 1) (executing_pos_ s) (jobs_cnt_ s).

Definition wake (p : pc) : pc := match p with Waiting q => Woken q | _ => p end.

(** Steps, with what they do; a thread outside of [Acquire] may release.  A count
    beyond the largest [int] is undefined. *)
Inductive step : shared * list pc → list event → shared * list pc → Prop :=
| do_Acquire s l i s' p' es :
    l !! i = Some Outside → Acquire_enter decrement s = (s', p', es) →
    step (s, l) es (s', <[i:=p']> l)
| recheck s l i q s' p' es :
    l !! i = Some (Woken q) → Acquire_check decrement s q = (s', p', es) →
    step (s, l) es (s', <[i:=p']> l)
| spurious s l i q :
    l !! i = Some (Waiting q) → step (s, l) [] (s, <[i:=Woken q]> l)
| do_Release s l i :
    l !! i = Some Outside → (count_ s < 2 ^ 31 - 1)%Z →
    step (s, l) [Released] (Release s, map wake l).

(** The states a semaphore made with [count] reaches, with the events up to them. *)
Inductive run (count : Z) : list event → shared * list pc → Prop :=
| run_init n : run count [] (mkShared count 0 0, replicate n Outside)
| run_step es es' c c' : run count es c → step c es' c' → run count (es ++ es') c'.

Definition ticket (p : pc) : option nat :=
  match p with Outside => None | Waiting q | Woken q => Some q end.
Definition tickets (l : list pc) : list nat := omap ticket l.

Definition acquired (es : list event) : list nat :=
  omap (λ e, match e with Acquired q => Some q | Released => None end) es.
Definition released (es : list event) : nat :=
  count (λ e, match e with Released => true | _ => false end) es.

Lemma tickets_insert l i p p' :
  l !! i = Some p → option_list (ticket p) ++ tickets (<[i:=p']> l) ≡ₚ option_list (ticket p') ++ tickets l.
Proof.
  revert i. induction l as [|x l IH]; intros [|i] Hi; [done|done| |]; unfold tickets in *.
  - injection Hi as ->. change (<[0:=p']> (p :: l)) with (p' :: l).
    cbn [omap list_omap]. destruct (ticket p), (ticket p'); cbn; [|done|done|done].
    constructor.
  - change (<[S i:=p']> (x :: l)) with (x :: <[i:=p']> l). specialize (IH i Hi).
    cbn [omap list_omap] in *. destruct (ticket x) as [q|]; [|done].
    rewrite <- !Permutation_middle. by constructor.
Qed.

Lemma tickets_wake l : tickets (map wake l) = tickets l.
Proof. induction l as [|[] l IH]; cbn; unfold tickets in *; cbn in *; congruence. Qed.

Lemma released_app es es' : released (es ++ es') = released es + released es'.
Proof. unfold released, count. by rewrite filter_app, length_app. Qed.

(** The tickets handed out and not yet served are those of the waiting threads. *)
Record inv (count : Z) (es : list event) (c : shared * list pc) : Prop := {
  counted : count_ c.1 = (count + Z.of_nat (released es) - Z.of_nat (executing_pos_ c.1))%Z;
  nonneg : (0 <= count_ c.1)%Z;
  in_order : acquired es = seq 0 (executing_pos_ c.1);
  queue : tickets c.2 ≡ₚ seq (executing_pos_ c.1) (jobs_cnt_ c.1 - executing_pos_ c.1);
  ahead : executing_pos_ c.1 ≤ jobs_cnt_ c.1
}.

Lemma inv_check count es s l i p q s' p' es' :
  inv count es (s, <[i:=Waiting q]> l) → l !! i = Some p →
  Acquire_check decrement s q = (s', p', es') → inv count (es ++ es') (s', <[i:=p']> l).
Proof.
  intros [Hc Hn Ho Hq Ha] Hi Hcheck. cbn [fst snd] in *. unfold Acquire_check in Hcheck.
  destruct (Z.eqb_spec (count_ s) 0), (Nat.eqb_spec q (executing_pos_ s)) as [->|];
    cbn [negb andb] in Hcheck; injection Hcheck as <- <- <-; rewrite ?app_nil_r; try (by split).
  assert (tickets (<[i:=Waiting (executing_pos_ s)]> l)
    ≡ₚ executing_pos_ s :: tickets (<[i:=Outside]> l)) as Ht.
  { assert (<[i:=Outside]> l !! i = Some Outside) as Hi'
      by (apply list_lookup_insert_eq; by eapply lookup_lt_Some).
    pose proof (tickets_insert _ i _ (Waiting (executing_pos_ s)) Hi') as Ht.
    by rewrite list_insert_insert_eq in Ht. }
  rewrite Ht in Hq.
  assert (executing_pos_ s < jobs_cnt_ s) as Hlt.
  { apply Permutation_length in Hq. cbn in Hq. rewrite length_seq in Hq. lia. }
  replace (jobs_cnt_ s - executing_pos_ s) with (S (jobs_cnt_ s - S (executing_pos_ s))) in Hq by lia.
  cbn [seq] in Hq. apply Permutation_cons_inv in Hq.
  split; cbn [fst snd count_ executing_pos_ jobs_cnt_]; [| |..|lia].
  - rewrite released_app, Hc. change (released [Acquired _]) with 0. unfold decrement. lia.
  - unfold decrement. lia.
  - unfold acquired in *. rewrite omap_app, Ho. by rewrite seq_S.
  - done.
Qed.

Lemma semaphore_inv_run count es c : (0 <= count)%Z → run count es c → inv count es c.
Proof.
  intros Hcount. induction 1 as [n|es es' c c' _ IH Hstep].
  { split; cbn [fst snd count_ executing_pos_ jobs_cnt_]; [unfold released, Prelude.count; cbn; lia|lia|done| |lia].
    cbn. clear. induction n as [|n IH]; [done|]. exact IH. }
  destruct Hstep as [s l i s' p' es' Hi Hs|s l i q s' p' es' Hi Hs|s l i q Hi|s l i Hi Hmax].
  - eapply inv_check; [|exact Hi|exact Hs]. destruct IH as [Hc Hn Ho Hq Ha]. cbn [fst snd] in *.
    split; cbn [fst snd count_ executing_pos_ jobs_cnt_]; [done|done|done| |lia].
    pose proof (tickets_insert l i _ (Waiting (jobs_cnt_ s)) Hi) as Ht. cbn [ticket option_list app] in Ht.
    rewrite Ht, Hq. replace (S (jobs_cnt_ s) - executing_pos_ s)
      with (S (jobs_cnt_ s - executing_pos_ s)) by lia.
    rewrite seq_S. replace (executing_pos_ s + (jobs_cnt_ s - executing_pos_ s)) with (jobs_cnt_ s) by lia.
    apply Permutation_cons_append.
  - eapply inv_check; [|exact Hi|exact Hs]. destruct IH as [Hc Hn Ho Hq Ha]. split; try done. cbn [fst snd] in *.
    pose proof (tickets_insert l i _ (Waiting q) Hi) as Ht. cbn [ticket option_list app] in Ht.
    apply Permutation_cons_inv in Ht. by rewrite Ht.
  - rewrite app_nil_r. destruct IH as [Hc Hn Ho Hq Ha]. split; try done. cbn [fst snd] in *.
    pose proof (tickets_insert l i _ (Woken q) Hi) as Ht. cbn [ticket option_list app] in Ht.
    apply Permutation_cons_inv in Ht. by rewrite Ht.
  - destruct IH as [Hc Hn Ho Hq Ha]. cbn [fst snd] in *.
    split; cbn [fst snd Release count_ executing_pos_ jobs_cnt_]; [|lia| |by rewrite tickets_wake|done].
    + rewrite released_app, Hc. change (released [Released]) with 1. lia.
    + unfold acquired in *. rewrite omap_app, Ho. by rewrite app_nil_r.
Qed.
End Semaphore.

(** ** Properties *)

(** [SpinLock] excludes: two threads between [Lock] and [Unlock] are the same,
    and when there is none the flag is clear, so the next attempt succeeds. *)
Theorem spin_lock_correct (c : bool * list SpinLock.pc) :
  reachable SpinLock.init (thread_steps SpinLock.rule) c →
  (∀ i j, c.2 !! i = Some SpinLock.Holding → c.2 !! j = Some SpinLock.Holding → i = j) ∧
  ((∀ i, c.2 !! i ≠ Some SpinLock.Holding) → SpinLock.Lock_step c.1 = (true, SpinLock.Holding)).
Proof.
  intros Hc. split.
  - intros i j Hi Hj. by eapply (mutex_excludes c i j).
  - intros Hno. pose proof (SpinLock.spin_inv_reachable c Hc) as Hinv. unfold SpinLock.inv in Hinv.
    destruct (c.1) eqn:E; [|done]. exfalso.
    destruct (count_pos_lookup SpinLock.holds c.2) as (i&p&Hi&Hp); [rewrite Hinv; cbn; lia|].
    destruct p; try done. by apply (Hno i).
Qed.

Lemma spin_lock_correct_witness :
  SpinLock.Lock_step false = (true, SpinLock.Holding).
Proof.
  apply (spin_lock_correct (false, replicate 2 SpinLock.Outside)).
  - apply reachable_init. by exists 2.
  - by intros [|[|[|i]]].
Defined.

(** C3 [RWSpinLock] excludes: with fewer than 2^31 threads, in whatever order they
    run and even if compare-and-exchange fails for no reason, a thread that writes
    is alone with the lock, the word is twice the number of readers plus the number
    of writers, and when no thread is inside both kinds of attempt succeed. *)
Theorem rw_spin_lock_correct (c : Z * list RWSpinLock.pc) :
  reachable RWSpinLock.init (thread_steps RWSpinLock.rule) c →
  (∀ i j p q, c.2 !! i = Some p → c.2 !! j = Some q → RWSpinLock.writes p = true →
    RWSpinLock.writes q || RWSpinLock.reads q = true → i = j) ∧
  c.1 = (2 * Z.of_nat (count RWSpinLock.reads c.2) + Z.of_nat (count RWSpinLock.writes c.2))%Z ∧
  (count RWSpinLock.reads c.2 = 0 → count RWSpinLock.writes c.2 = 0 →
    RWSpinLock.LockWrite_step false c.1 = (1%Z, RWSpinLock.Writing) ∧
    ∃ lock, RWSpinLock.LockRead_load c.1 = RWSpinLock.ReadTry lock ∧
      RWSpinLock.LockRead_step false c.1 lock = (2%Z, RWSpinLock.Reading)).
Proof.
  intros Hc. destruct (RWSpinLock.rw_spin_inv_reachable c Hc) as [Hfew Hword Hone Halone _].
  split_and!; [|done|].
  - intros i j p q Hi Hj Hp Hq. pose proof (count_lookup _ _ _ _ Hi Hp) as Hpos.
    destruct (decide (i = j)) as [|Hne]; [done|]. exfalso.
    apply orb_true_iff in Hq as [Hq|Hq].
    + pose proof (count_two _ _ _ _ _ _ Hi Hj Hp Hq Hne). lia.
    + pose proof (count_lookup _ _ _ _ Hj Hq). lia.
  - intros Hr Hw. rewrite Hr, Hw in Hword. cbn in Hword. rewrite Hword. split; [done|].
    exists 0%Z. done.
Qed.

Lemma rw_spin_lock_correct_witness :
  RWSpinLock.LockWrite_step false 0 = (1%Z, RWSpinLock.Writing).
Proof.
  destruct (rw_spin_lock_correct (0%Z, replicate 2 RWSpinLock.Outside)) as (_&_&H).
  - apply reachable_init. by exists 2.
  - by destruct (H eq_refl eq_refl).
Defined.

(** C4 The futex [Mutex] excludes and loses no wake-up: at most one thread is between
    [Lock] and the release in [Unlock]; the state is 0 exactly when there is none,
    and then the next attempt succeeds; while a thread sleeps, either the state is 2
    and another thread holds the mutex, or another thread is about to wake one or to
    set the state to 2.  A holder that releases the mutex with the state 2 reaches
    [FutexWake], and every [FutexWake] while threads sleep wakes one of them.  Which
    one, and who gets the mutex next, is not determined. *)
Theorem futex_mutex_correct (c : Z * list FutexMutex.pc) :
  reachable FutexMutex.init FutexMutex.step c →
  (∀ i j p q, c.2 !! i = Some p → c.2 !! j = Some q →
    FutexMutex.holds p = true → FutexMutex.holds q = true → i = j) ∧
  (c.1 = 0%Z ↔ ∀ i p, c.2 !! i = Some p → FutexMutex.holds p = false) ∧
  (∀ i, c.2 !! i = Some FutexMutex.Asleep →
    (c.1 = 2%Z ∧ ∃ j p, c.2 !! j = Some p ∧ FutexMutex.holds p = true) ∨
    ∃ j p, c.2 !! j = Some p ∧ FutexMutex.active p = true) ∧
  (c.1 = 0%Z → FutexMutex.Lock_try c.1 = (1%Z, FutexMutex.Holding)) ∧
  (∀ i, c.1 = 2%Z → c.2 !! i = Some FutexMutex.Holding →
    rtc FutexMutex.step c (0%Z, <[i:=FutexMutex.Waking]> c.2)) ∧
  (∀ c' i, FutexMutex.step c c' → c.2 !! i = Some FutexMutex.Waking → c'.2 !! i = Some FutexMutex.Outside →
    (∃ j, c.2 !! j = Some FutexMutex.Asleep) →
    ∃ j, c.2 !! j = Some FutexMutex.Asleep ∧ c'.2 !! j = Some FutexMutex.Exchanging).
Proof.
  intros Hc. destruct (FutexMutex.futex_inv_reachable c Hc) as [_ Hone Hfree Hawake].
  split_and!; [| | |by intros ->| |intros; by eapply FutexMutex.waking_wakes].
  - intros i j p q Hi Hj Hp Hq. by eapply (mutex_excludes c i j).
  - rewrite Hfree. split.
    + intros H0 i p Hi. destruct (FutexMutex.holds p) eqn:Hp; [|done].
      pose proof (count_lookup _ _ _ _ Hi Hp). lia.
    + intros Hall. destruct (count FutexMutex.holds c.2) eqn:E; [done|].
      destruct (count_pos_lookup FutexMutex.holds c.2) as (i&p&Hi&Hp); [lia|].
      by rewrite (Hall i p Hi) in Hp.
  - intros i Hi. destruct Hawake as [H2|Hact]; [by apply (count_lookup _ _ i FutexMutex.Asleep)|left|right].
    + split; [done|]. apply count_pos_lookup. lia.
    + by apply count_pos_lookup.
  - destruct c as [v l]. cbn [fst snd]. intros i -> Hi. by apply FutexMutex.unlock_wakes.
Qed.

(** One thread holds the mutex and another sleeps. *)
Lemma sleeper_reachable :
  reachable FutexMutex.init FutexMutex.step (2%Z, [FutexMutex.Holding; FutexMutex.Asleep]).
Proof.
  assert (∀ v l i p v' p', reachable FutexMutex.init FutexMutex.step (v, l) → l !! i = Some p →
    FutexMutex.rule v p v' p' → reachable FutexMutex.init FutexMutex.step (v', <[i:=p']> l)) as Hnext.
  { intros v l i p v' p' Hr Hi Hrule. eapply reachable_step; [exact Hr|]. apply FutexMutex.thread_step.
    by exists i, p, v', p'. }
  assert (reachable FutexMutex.init FutexMutex.step (0%Z, [FutexMutex.Outside; FutexMutex.Outside])) as H
    by (apply reachable_init; by exists 2).
  eapply (Hnext _ _ 0) in H; [|done|constructor]. eapply (Hnext _ _ 0) in H; [|done|constructor].
  eapply (Hnext _ _ 1) in H; [|done|constructor]. eapply (Hnext _ _ 1) in H; [|done|constructor].
  eapply (Hnext _ _ 1) in H; [|done|constructor]. eapply (Hnext _ _ 1) in H; [|done|constructor].
  exact H.
Qed.

Lemma futex_mutex_correct_witness :
  ((2%Z = 2%Z ∧ ∃ j p, [FutexMutex.Holding; FutexMutex.Asleep] !! j = Some p ∧ FutexMutex.holds p = true) ∨
   ∃ j p, [FutexMutex.Holding; FutexMutex.Asleep] !! j = Some p ∧ FutexMutex.active p = true) ∧
  rtc FutexMutex.step (2%Z, [FutexMutex.Holding; FutexMutex.Asleep]) (0%Z, [FutexMutex.Waking; FutexMutex.Asleep]).
Proof.
  destruct (futex_mutex_correct _ sleeper_reachable) as (_&_&H&_&Hw&_). split; [by apply (H 1)|by apply (Hw 0)].
Defined.

(** C5 [RWLock] excludes and loses no wake-up: a thread inside [Write] is alone inside
    the lock; the counters count the threads inside and blocked, so that none exceeds
    the number of threads; and when nobody is inside while some thread waits, some
    thread has been notified, and both conditions hold. *)
Theorem rw_lock_correct (c : RWLock.shared * list RWLock.pc) :
  reachable RWLock.init RWLock.step c →
  (∀ i j q, c.2 !! i = Some RWLock.Writing → c.2 !! j = Some q →
    RWLock.writes q || RWLock.reads q = true → i = j) ∧
  (RWLock.readers_cnt c.1 = count RWLock.reads c.2 ∧ RWLock.writers_cnt c.1 = count RWLock.writes c.2 ∧
   RWLock.blocked_readers_cnt c.1 = count RWLock.read_waits c.2 + count RWLock.read_woken c.2 ∧
   RWLock.blocked_writers_cnt c.1 = count RWLock.write_waits c.2 + count RWLock.write_woken c.2 ∧
   RWLock.readers_cnt c.1 + RWLock.writers_cnt c.1 + RWLock.blocked_readers_cnt c.1 + RWLock.blocked_writers_cnt c.1
     ≤ length c.2) ∧
  (RWLock.readers_cnt c.1 = 0 → RWLock.writers_cnt c.1 = 0 →
    RWLock.can_read c.1 = true ∧ RWLock.can_write c.1 = true ∧
    ∀ i p, c.2 !! i = Some p → RWLock.read_waits p || RWLock.write_waits p = true →
    ∃ j q, c.2 !! j = Some q ∧ RWLock.read_woken q || RWLock.write_woken q = true).
Proof.
  intros Hc. destruct (RWLock.rw_lock_inv_reachable c Hc) as [Hr Hw Hbr Hbw Hone Halone Hrw Hww].
  split_and!; [|done|done|done|done|rewrite Hr, Hw, Hbr, Hbw; apply RWLock.places_disjoint|].
  - intros i j q Hi Hj Hq. pose proof (count_lookup RWLock.writes _ _ _ Hi eq_refl) as Hpos.
    destruct (decide (i = j)) as [|Hne]; [done|]. exfalso. apply orb_true_iff in Hq as [Hq|Hq].
    + pose proof (count_two RWLock.writes _ _ _ _ _ Hi Hj eq_refl Hq Hne). lia.
    + pose proof (count_lookup _ _ _ _ Hj Hq). lia.
  - intros H0 H0'. split_and!; [unfold RWLock.can_read; by rewrite H0'|unfold RWLock.can_write; by rewrite H0, H0'|].
    intros i p Hi Hp. assert (0 < count RWLock.read_woken c.2 + count RWLock.write_woken c.2) as Hpos.
    { apply orb_true_iff in Hp as [Hp|Hp]; pose proof (count_lookup _ _ _ _ Hi Hp); lia. }
    destruct (count RWLock.read_woken c.2) eqn:E.
    + destruct (count_pos_lookup RWLock.write_woken c.2) as (j&q&Hj&Hq); [lia|].
      exists j, q. rewrite Hq. by destruct (RWLock.read_woken q).
    + destruct (count_pos_lookup RWLock.read_woken c.2) as (j&q&Hj&Hq); [lia|].
      exists j, q. by rewrite Hq.
Qed.

(** A writer was inside while a writer and a reader came; it has left and notified the writer. *)
Lemma rw_waiters_reachable :
  reachable RWLock.init RWLock.step (RWLock.mkShared 0 0 1 1, [RWLock.Outside; RWLock.WriteWoken; RWLock.ReadWait]).
Proof.
  assert (∀ s l i p s' p', reachable RWLock.init RWLock.step (s, l) → l !! i = Some p →
    RWLock.rule s p s' p' → reachable RWLock.init RWLock.step (s', <[i:=p']> l)) as Hnext.
  { intros s l i p s' p' Hr Hi Hrule. eapply reachable_step; [exact Hr|]. apply RWLock.thread_step.
    by exists i, p, s', p'. }
  assert (reachable RWLock.init RWLock.step (RWLock.mkShared 0 0 0 0, replicate 3 RWLock.Outside)) as H
    by (apply reachable_init; by exists 3).
  eapply (Hnext _ _ 0) in H; [|done|apply RWLock.do_Write]. eapply (Hnext _ _ 1) in H; [|done|apply RWLock.do_Write].
  eapply (Hnext _ _ 2) in H; [|done|apply RWLock.do_Read].
  change (reachable RWLock.init RWLock.step (RWLock.mkShared 0 1 1 1, [RWLock.Writing; RWLock.WriteWait; RWLock.ReadWait])) in H.
  eapply reachable_step; [exact H|]. apply (RWLock.do_EndWrite (RWLock.mkShared 0 1 1 1) _ 0); [done|].
  by apply (RWLock.notify_writer [RWLock.Outside; RWLock.WriteWait; RWLock.ReadWait] 1).
Qed.

Lemma rw_lock_correct_witness :
  ∃ j q, [RWLock.Outside; RWLock.WriteWoken; RWLock.ReadWait] !! j = Some q ∧
    RWLock.read_woken q || RWLock.write_woken q = true.
Proof.
  destruct (rw_lock_correct _ rw_waiters_reachable) as (_&_&H). destruct H as (_&_&H); [done|done|].
  by apply (H 2 RWLock.ReadWait).
Defined.

(** C6 [Semaphore] counts and is fair: in every run the calls of [Acquire] return in
    the order of their tickets, the counter is the initial count plus the releases
    minus the acquisitions and never negative, and the tickets handed out and not
    served are exactly those of the waiting threads. *)
Theorem semaphore_fifo (n : Z) (es : list Semaphore.event)
    (c : Semaphore.shared * list Semaphore.pc) :
  (0 <= n)%Z → Semaphore.run n es c →
  let served := Semaphore.acquired es in
  served = seq 0 (length served) ∧
  Semaphore.count_ c.1 = (n + Z.of_nat (Semaphore.released es) - Z.of_nat (length served))%Z ∧
  (Z.of_nat (length served) <= n + Z.of_nat (Semaphore.released es))%Z ∧
  Semaphore.tickets c.2 ≡ₚ seq (length served) (length (Semaphore.tickets c.2)).
Proof.
  intros Hn Hrun served. destruct (Semaphore.semaphore_inv_run n es c Hn Hrun) as [Hc H0 Ho Hq Ha].
  assert (length served = Semaphore.executing_pos_ c.1) as Hl.
  { unfold served. by rewrite Ho, length_seq. }
  rewrite Hl. split_and!; [done|done|lia|]. rewrite Hq at 1. by rewrite Hq, length_seq.
Qed.

(** Two threads wait, a third releases twice; the second waiter is the first to
    check, and waits again; then the first is served. *)
Lemma forgotten_run :
  Semaphore.run 0 [Semaphore.Released; Semaphore.Released; Semaphore.Acquired 0]
    (Semaphore.mkShared 1 1 2, [Semaphore.Outside; Semaphore.Waiting 1; Semaphore.Outside]).
Proof.
  assert (∀ es es' c c', Semaphore.run 0 es c → Semaphore.step c es' c' →
    Semaphore.run 0 (es ++ es') c') as Hnext by apply Semaphore.run_step.
  pose proof (Semaphore.run_init 0 3) as H. cbn [replicate] in H.
  eapply Hnext in H; [|by eapply (Semaphore.do_Acquire _ _ 0)].
  eapply Hnext in H; [|by eapply (Semaphore.do_Acquire _ _ 1)].
  eapply Hnext in H; [|by eapply (Semaphore.do_Release _ _ 2)].
  eapply Hnext in H; [|by eapply (Semaphore.do_Release _ _ 2)].
  eapply Hnext in H; [|by eapply (Semaphore.recheck _ _ 1)].
  eapply Hnext in H; [|by eapply (Semaphore.recheck _ _ 0)].
  exact H.
Qed.

Lemma semaphore_fifo_witness :
  Semaphore.acquired [Semaphore.Released; Semaphore.Released; Semaphore.Acquired 0] = seq 0 1.
Proof.
  destruct (semaphore_fifo 0 _ _ ltac:(lia) forgotten_run) as [H _]. exact H.
Defined.

(** [Semaphore] can forget a waiter: [Acquire] notifies nobody after it has moved
    the queue on, so there is a run after which the counter is 1, the thread whose
    turn it is waits, and no thread has been notified. *)
Theorem semaphore_lost_wakeup :
  ∃ es c i, Semaphore.run 0 es c ∧ Semaphore.count_ c.1 = 1%Z ∧
    c.2 !! i = Some (Semaphore.Waiting (Semaphore.executing_pos_ c.1)) ∧
    ∀ j q, c.2 !! j ≠ Some (Semaphore.Woken q).
Proof.
  exists [Semaphore.Released; Semaphore.Released; Semaphore.Acquired 0],
    (Semaphore.mkShared 1 1 2, [Semaphore.Outside; Semaphore.Waiting 1; Semaphore.Outside]), 1.
  split_and!; [apply forgotten_run|done|done|]. by intros [|[|[|j]]] q.
Qed.
