(* ===== verification/Executor.v ===== *)
(** * The thread pool (executor/executor/executor.h, executor.cpp)

    The tasks and the two queues are a store; the methods of [Task], [TasksQueue],
    [TimerQueue], [Executor] and [Future] are functions on it.  Users, workers and
    the timer thread call them in any order: a configuration has the store, the
    clock and the tasks that are being run, and a step is one call, or one
    iteration of a worker up to [Run] or from it on.  Tasks and the queue are kept
    alive by their owners, so that weak pointers do not expire.

    The mutexes [edit_task_] and [edit_queue_] are not modelled: calls are taken to be
    atomic, and nothing is shown about calls that wait for each other.  They can: [Cancel]
    holds [edit_task_] of its task in [OnFinished] while [Push] waits for [edit_queue_],
    and [TasksQueue::Close] holds [edit_queue_] while it cancels, which waits for
    [edit_task_]. *)

From S2P Require Import Prelude.

Inductive TaskStates : Type := Created | Submitted | Enqueued | Completed | Failed | Canceled.

#[global] Instance task_states_eq_dec : EqDecision TaskStates.
Proof. solve_decision. Defined.

(** The underlying values. *)
Definition state_code (st : TaskStates) : nat :=
  match st with
  | Created => 0 | Submitted => 1 | Enqueued => 2 | Completed => 3 | Failed => 4 | Canceled => 5
  end.

(** The values of futures: [Default] is [T()]. *)
#[warnings="-register-all"]
Inductive value : Type :=
| Default
| Int (z : Z)
| Vec (vs : list value).

(** What [Future::func_] may be: a function of the user, of which only the result is
    known, and the lambdas of [WhenAll], [WhenFirst] and [WhenAllBeforeDeadline]. *)
Inductive body : Type :=
| Fn (r : value + exn)
| GetAll (all : list nat)
| GetFirst (all : list nat)
| GetFinished (all : list nat).

(** The last three fields are history: what was added, and how often the task was
    run. *)
Record task : Type := mkTask {
  state_ : TaskStates;
  queue_ : bool;
  dependencies_ : list nat;
  depended_ : list nat;
  dependecies_cnt_ : Z;
  has_dependencies_ : bool;
  triggers_ : list nat;
  triggered_ : list nat;
  has_triggers_ : bool;
  triggers_activated_ : bool;
  start_at_ : Z;
  has_time_trigger_ : bool;
  exc_ptr_ : option exn;
  func_ : body;
  result_ : value;
  added_dependencies : list nat;
  added_triggers : list nat;
  runs : nat
}.

Definition new_task (fn : body) : task :=
  mkTask Created false [] [] 0 false [] [] false false 0 false None fn Default [] [] 0.

(** The heap of tasks, and the queues: [queue_] of [TasksQueue] and of [TimerQueue]. *)
Record store : Type := mkStore {
  tasks : nat → task;
  ntasks : nat;
  queue : list nat;
  queue_closed : bool;
  timer : list nat;
  timer_closed : bool
}.

Definition upd (t : nat) (f : task → task) (s : store) : store :=
  mkStore (λ u, if decide (u = t) then f (tasks s u) else tasks s u)
    (ntasks s) (queue s) (queue_closed s) (timer s) (timer_closed s).

Definition push_queue (t : nat) (s : store) : store :=
  mkStore (tasks s) (ntasks s) (queue s ++ [t]) (queue_closed s) (timer s) (timer_closed s).

(** *** Fields *)

Definition set_state (st : TaskStates) (x : task) : task :=
  mkTask st (queue_ x) (dependencies_ x) (depended_ x) (dependecies_cnt_ x) (has_dependencies_ x)
    (triggers_ x) (triggered_ x) (has_triggers_ x) (triggers_activated_ x) (start_at_ x)
    (has_time_trigger_ x) (exc_ptr_ x) (func_ x) (result_ x) (added_dependencies x)
    (added_triggers x) (runs x).

Definition set_queue (x : task) : task :=
  mkTask (state_ x) true (dependencies_ x) (depended_ x) (dependecies_cnt_ x) (has_dependencies_ x)
    (triggers_ x) (triggered_ x) (has_triggers_ x) (triggers_activated_ x) (start_at_ x)
    (has_time_trigger_ x) (exc_ptr_ x) (func_ x) (result_ x) (added_dependencies x)
    (added_triggers x) (runs x).

(** [dependencies_.clear(); triggers_.clear()] *)
Definition clear_inputs (x : task) : task :=
  mkTask (state_ x) (queue_ x) [] (depended_ x) (dependecies_cnt_ x) (has_dependencies_ x)
    [] (triggered_ x) (has_triggers_ x) (triggers_activated_ x) (start_at_ x)
    (has_time_trigger_ x) (exc_ptr_ x) (func_ x) (result_ x) (added_dependencies x)
    (added_triggers x) (runs x).

Definition set_depended (ds : list nat) (x : task) : task :=
  mkTask (state_ x) (queue_ x) (dependencies_ x) ds (dependecies_cnt_ x) (has_dependencies_ x)
    (triggers_ x) (triggered_ x) (has_triggers_ x) (triggers_activated_ x) (start_at_ x)
    (has_time_trigger_ x) (exc_ptr_ x) (func_ x) (result_ x) (added_dependencies x)
    (added_triggers x) (runs x).

Definition set_cnt (c : Z) (x : task) : task :=
  mkTask (state_ x) (queue_ x) (dependencies_ x) (depended_ x) c (has_dependencies_ x)
    (triggers_ x) (triggered_ x) (has_triggers_ x) (triggers_activated_ x) (start_at_ x)
    (has_time_trigger_ x) (exc_ptr_ x) (func_ x) (result_ x) (added_dependencies x)
    (added_triggers x) (runs x).

Definition add_dependency (d : nat) (x : task) : task :=
  mkTask (state_ x) (queue_ x) (dependencies_ x ++ [d]) (depended_ x) (dependecies_cnt_ x) true
    (triggers_ x) (triggered_ x) (has_triggers_ x) (triggers_activated_ x) (start_at_ x)
    (has_time_trigger_ x) (exc_ptr_ x) (func_ x) (result_ x) (added_dependencies x ++ [d])
    (added_triggers x) (runs x).

Definition set_triggered (ds : list nat) (x : task) : task :=
  mkTask (state_ x) (queue_ x) (dependencies_ x) (depended_ x) (dependecies_cnt_ x) (has_dependencies_ x)
    (triggers_ x) ds (has_triggers_ x) (triggers_activated_ x) (start_at_ x)
    (has_time_trigger_ x) (exc_ptr_ x) (func_ x) (result_ x) (added_dependencies x)
    (added_triggers x) (runs x).

Definition activate (x : task) : task :=
  mkTask (state_ x) (queue_ x) (dependencies_ x) (depended_ x) (dependecies_cnt_ x) (has_dependencies_ x)
    (triggers_ x) (triggered_ x) (has_triggers_ x) true (start_at_ x)
    (has_time_trigger_ x) (exc_ptr_ x) (func_ x) (result_ x) (added_dependencies x)
    (added_triggers x) (runs x).

Definition add_trigger (d : nat) (x : task) : task :=
  mkTask (state_ x) (queue_ x) (dependencies_ x) (depended_ x) (dependecies_cnt_ x) (has_dependencies_ x)
    (triggers_ x ++ [d]) (triggered_ x) true (triggers_activated_ x) (start_at_ x)
    (has_time_trigger_ x) (exc_ptr_ x) (func_ x) (result_ x) (added_dependencies x)
    (added_triggers x ++ [d]) (runs x).

Definition set_time (at_ : Z) (x : task) : task :=
  mkTask (state_ x) (queue_ x) (dependencies_ x) (depended_ x) (dependecies_cnt_ x) (has_dependencies_ x)
    (triggers_ x) (triggered_ x) (has_triggers_ x) (triggers_activated_ x) at_
    true (exc_ptr_ x) (func_ x) (result_ x) (added_dependencies x)
    (added_triggers x) (runs x).

Definition set_error (e : exn) (x : task) : task :=
  mkTask (state_ x) (queue_ x) (dependencies_ x) (depended_ x) (dependecies_cnt_ x) (has_dependencies_ x)
    (triggers_ x) (triggered_ x) (has_triggers_ x) (triggers_activated_ x) (start_at_ x)
    (has_time_trigger_ x) (Some e) (func_ x) (result_ x) (added_dependencies x)
    (added_triggers x) (runs x).

Definition set_result (v : value) (x : task) : task :=
  mkTask (state_ x) (queue_ x) (dependencies_ x) (depended_ x) (dependecies_cnt_ x) (has_dependencies_ x)
    (triggers_ x) (triggered_ x) (has_triggers_ x) (triggers_activated_ x) (start_at_ x)
    (has_time_trigger_ x) (exc_ptr_ x) (func_ x) v (added_dependencies x)
    (added_triggers x) (runs x).

Definition start_run (x : task) : task :=
  mkTask (state_ x) (queue_ x) (dependencies_ x) (depended_ x) (dependecies_cnt_ x) (has_dependencies_ x)
    (triggers_ x) (triggered_ x) (has_triggers_ x) (triggers_activated_ x) (start_at_ x)
    (has_time_trigger_ x) (exc_ptr_ x) (func_ x) (result_ x) (added_dependencies x)
    (added_triggers x) (S (runs x)).

(** ** Task *)

Definition IsEnqued (x : task) : bool := bool_decide (state_ x = Enqueued).
Definition IsCompleted (x : task) : bool := bool_decide (state_ x = Completed).
Definition IsFailed (x : task) : bool := bool_decide (state_ x = Failed).
Definition IsCanceled (x : task) : bool := bool_decide (state_ x = Canceled).
Definition IsFinished (x : task) : bool := state_code Enqueued <? state_code (state_ x).

Definition IsReadyToEnque (x : task) : bool :=
  if has_triggers_ x && triggers_activated_ x then true
  else if has_dependencies_ x && (dependecies_cnt_ x =? 0)%Z then true
  else negb (has_triggers_ x) && negb (has_dependencies_ x) && negb (has_time_trigger_ x).

Definition AddDepended (t dep : nat) (s : store) : store :=
  if IsFinished (tasks s t) then s
  else
    let s := upd dep (λ x, set_cnt (u64 (dependecies_cnt_ x + 1)) x) s in
    upd t (λ x, set_depended (depended_ x ++ [dep]) x) s.

Definition AddDependency (t dep : nat) (s : store) : store :=
  upd t (add_dependency dep) (AddDepended dep t s).

Definition AddTriggered (t dep : nat) (s : store) : store :=
  if negb (IsFinished (tasks s t)) then upd t (λ x, set_triggered (triggered_ x ++ [dep]) x) s
  else upd dep activate s.

Definition AddTrigger (t dep : nat) (s : store) : store :=
  upd t (add_trigger dep) (AddTriggered dep t s).

Definition SetTimeTrigger (t : nat) (at_ : Z) (s : store) : store := upd t (set_time at_) s.
Definition SetError (t : nat) (e : exn) (s : store) : store := upd t (set_error e) s.

(** Finishing a task may enqueue others, and enqueueing in a closed queue cancels,
    which finishes.  The methods on this cycle take [Cancel] as an argument, and
    [Cancel] is given fuel. *)
Section Cancel.
Context (Cancel : nat → store → outcome store).

Definition Push_with (t : nat) (s : store) : outcome store :=
  if negb (queue_closed s) then Ok (push_queue t s) else Cancel t s.

Definition Enque_with (t : nat) (s : store) : outcome store :=
  if queue_ (tasks s t) then
    if decide (state_ (tasks s t) = Submitted)
    then Push_with t (upd t clear_inputs (upd t (set_state Enqueued) s))
    else Ok s
  else Ok s.

Definition TryToEnque_with (t : nat) (s : store) : outcome store :=
  if decide (state_ (tasks s t) ≠ Submitted) then Ok s
  else if IsReadyToEnque (tasks s t) then Enque_with t s else Ok s.

Definition notify_depended (d : nat) (s : store) : outcome store :=
  TryToEnque_with d (upd d (λ x, set_cnt (u64 (dependecies_cnt_ x - 1)) x) s).

Definition notify_triggered (d : nat) (s : store) : outcome store :=
  TryToEnque_with d (upd d activate s).

Definition OnFinished_with (t : nat) (s : store) : outcome store :=
  s <-? forO notify_depended (depended_ (tasks s t)) s ;;
  let s := upd t (set_depended []) s in
  s <-? forO notify_triggered (triggered_ (tasks s t)) s ;;
  Ok (upd t (set_triggered []) s).
End Cancel.

Fixpoint Cancel_fuel (fuel : nat) (t : nat) (s : store) : outcome store :=
  match fuel with
  | O => Fail Fuel
  | S fuel => OnFinished_with (Cancel_fuel fuel) t (upd t (set_state Canceled) s)
  end.

(** Each nested call cancels a task that was submitted: there are fewer than tasks. *)
Definition Cancel (t : nat) (s : store) : outcome store := Cancel_fuel (S (ntasks s)) t s.
Definition Enque (t : nat) (s : store) : outcome store := Enque_with Cancel t s.
Definition TryToEnque (t : nat) (s : store) : outcome store := TryToEnque_with Cancel t s.
Definition OnFinished (t : nat) (s : store) : outcome store := OnFinished_with Cancel t s.
Definition Complete (t : nat) (s : store) : outcome store := OnFinished t (upd t (set_state Completed) s).
Definition Fail_ (t : nat) (s : store) : outcome store := OnFinished t (upd t (set_state Failed) s).

Definition Task_Submit (t : nat) (s : store) : outcome store :=
  let s := upd t set_queue s in
  if decide (state_ (tasks s t) = Created) then TryToEnque t (upd t (set_state Submitted) s) else Ok s.

(** ** The queues *)

Definition set_closed (s : store) : store :=
  mkStore (tasks s) (ntasks s) (queue s) true (timer s) (timer_closed s).
Definition set_timer_closed (s : store) : store :=
  mkStore (tasks s) (ntasks s) (queue s) (queue_closed s) (timer s) true.
Definition set_queues (q tm : list nat) (s : store) : store :=
  mkStore (tasks s) (ntasks s) q (queue_closed s) tm (timer_closed s).

(** [TasksQueue::Pop]: nothing when it has to wait, a null pointer when the queue
    is closed and empty. *)
Definition TasksQueue_Pop (s : store) : option (option nat * store) :=
  match queue s with
  | [] => if queue_closed s then Some (None, s) else None
  | t :: q => Some (Some t, set_queues q (timer s) s)
  end.

Definition TasksQueue_Close (s : store) : outcome store :=
  if queue_closed s then Ok s else let s := set_closed s in forO Cancel (queue s) s.

Definition TimerQueue_Push (t : nat) (s : store) : outcome store :=
  if negb (timer_closed s) then Ok (set_queues (queue s) (timer s ++ [t]) s) else Cancel t s.

Definition TimerQueue_Close (s : store) : outcome store :=
  if timer_closed s then Ok s else let s := set_timer_closed s in forO Cancel (timer s) s.

(** [TimerQueue::Pop] takes a task with the earliest start time, once it has come:
    the heap is represented by its elements. *)
Definition TimerQueue_Pop (now : Z) (s : store) (t : nat) (s' : store) : Prop :=
  ∃ q1 q2, timer s = q1 ++ t :: q2 ∧ s' = set_queues (queue s) (q1 ++ q2) s ∧
    (start_at_ (tasks s t) <= now)%Z ∧
    ∀ u, u ∈ timer s → (start_at_ (tasks s t) <= start_at_ (tasks s u))%Z.

(** ** Executor *)

Definition Submit (t : nat) (s : store) : outcome store :=
  s <-? Task_Submit t s ;;
  let x := tasks s t in
  if negb (IsEnqued x || IsFinished x) && has_time_trigger_ x then TimerQueue_Push t s else Ok s.

Definition StartShutdown (s : store) : outcome store :=
  s <-? TasksQueue_Close s ;; TimerQueue_Close s.

(** ** Future *)

(** [Get]: nothing when it has to wait. *)
Definition Get (s : store) (t : nat) : option (outcome value) :=
  let x := tasks s t in
  if negb (IsFinished x) then None
  else if IsCompleted x then Some (Ok (result_ x))
  else if IsFailed x then
    match exc_ptr_ x with Some e => Some (Fail (Exn e)) | None => Some (Fail UB) end
  else Some (Ok Default).

(** Collecting results in order: the first exception ends the loop. *)
Fixpoint collect (s : store) (all : list nat) (res : list value) : option (outcome value) :=
  match all with
  | [] => Some (Ok (Vec res))
  | fut :: all =>
      match Get s fut with
      | None => None
      | Some (Fail f) => Some (Fail f)
      | Some (Ok v) => collect s all (res ++ [v])
      end
  end.

Fixpoint first_finished (s : store) (all : list nat) : option (outcome value) :=
  match all with
  | [] => Some (Ok Default)
  | fut :: all => if IsFinished (tasks s fut) then Get s fut else first_finished s all
  end.

Definition Run (s : store) (t : nat) : option (outcome value) :=
  match func_ (tasks s t) with
  | Fn (inl v) => Some (Ok v)
  | Fn (inr e) => Some (Fail (Exn e))
  | GetAll all => collect s all []
  | GetFirst all => first_finished s all
  | GetFinished all => collect s (filter (λ u, IsFinished (tasks s u) = true) all) []
  end.

Definition make_task (fn : body) (s : store) : nat * store :=
  (ntasks s, mkStore (λ u, if decide (u = ntasks s) then new_task fn else tasks s u) (S (ntasks s))
               (queue s) (queue_closed s) (timer s) (timer_closed s)).

Definition Invoke (fn : value + exn) (s : store) : outcome (nat * store) :=
  let '(t, s) := make_task (Fn fn) s in s <-? Submit t s ;; Ok (t, s).

Definition Then (input : nat) (fn : value + exn) (s : store) : outcome (nat * store) :=
  let '(t, s) := make_task (Fn fn) s in s <-? Submit t (AddDependency t input s) ;; Ok (t, s).

Definition WhenAll (all : list nat) (s : store) : outcome (nat * store) :=
  let '(t, s) := make_task (GetAll all) s in
  s <-? Submit t (foldl (λ s fut, AddDependency t fut s) s all) ;; Ok (t, s).

Definition WhenFirst (all : list nat) (s : store) : outcome (nat * store) :=
  let '(t, s) := make_task (GetFirst all) s in
  s <-? Submit t (foldl (λ s fut, AddTrigger t fut s) s all) ;; Ok (t, s).

Definition WhenAllBeforeDeadline (all : list nat) (deadline : Z) (s : store) : outcome (nat * store) :=
  let '(t, s) := make_task (GetFinished all) s in
  s <-? Submit t (SetTimeTrigger t deadline s) ;; Ok (t, s).

(** ** Configurations *)

Record config : Type := mkConfig { st : store; clock : Z; running : list nat }.

Definition init (c : config) : Prop :=
  c = mkConfig (mkStore (λ _, new_task (Fn (inl Default))) 0 [] false [] false) (clock c) [].

(** After [Run]: [Complete], or [SetError] and [Fail]. *)
Definition finish (t : nat) (r : outcome value) (s : store) : outcome store :=
  match r with
  | Ok v => Complete t (upd t (set_result v) s)
  | Fail (Exn e) => Fail_ t (SetError t e s)
  | Fail f => Fail f
  end.

(** Dependencies, triggers and the time trigger are added before [Submit], and a
    task has fewer than 2^64 dependencies. *)
Inductive step : config → config → Prop :=
| step_make fn s now rs : step (mkConfig s now rs) (mkConfig (make_task fn s).2 now rs)
| step_AddDependency t dep s now rs :
    state_ (tasks s t) = Created → t < ntasks s → dep < ntasks s →
    (Z.of_nat (length (added_dependencies (tasks s t))) + 1 < 2 ^ 64)%Z →
    step (mkConfig s now rs) (mkConfig (AddDependency t dep s) now rs)
| step_AddTrigger t dep s now rs :
    state_ (tasks s t) = Created → t < ntasks s → dep < ntasks s →
    step (mkConfig s now rs) (mkConfig (AddTrigger t dep s) now rs)
| step_SetTimeTrigger t at_ s now rs :
    state_ (tasks s t) = Created → t < ntasks s →
    step (mkConfig s now rs) (mkConfig (SetTimeTrigger t at_ s) now rs)
| step_Submit t s s' now rs :
    t < ntasks s → Submit t s = Ok s' → step (mkConfig s now rs) (mkConfig s' now rs)
| step_Cancel t s s' now rs :
    t < ntasks s → Cancel t s = Ok s' → step (mkConfig s now rs) (mkConfig s' now rs)
| step_StartShutdown s s' now rs :
    StartShutdown s = Ok s' → step (mkConfig s now rs) (mkConfig s' now rs)
| step_tick s now now' rs : (now <= now')%Z → step (mkConfig s now rs) (mkConfig s now' rs)
| step_worker_skip t s s' now rs :
    TasksQueue_Pop s = Some (Some t, s') → IsCanceled (tasks s' t) = true →
    step (mkConfig s now rs) (mkConfig s' now rs)
| step_worker_run t s s' now rs :
    TasksQueue_Pop s = Some (Some t, s') → IsCanceled (tasks s' t) = false →
    step (mkConfig s now rs) (mkConfig (upd t start_run s') now (t :: rs))
| step_worker_finish t r s s' now rs1 rs2 :
    Run s t = Some r → finish t r s = Ok s' →
    step (mkConfig s now (rs1 ++ t :: rs2)) (mkConfig s' now (rs1 ++ rs2))
| step_timer_skip t s s' now rs :
    TimerQueue_Pop now s t s' → IsCanceled (tasks s' t) = true →
    step (mkConfig s now rs) (mkConfig s' now rs)
| step_timer_enque t s s' s'' now rs :
    TimerQueue_Pop now s t s' → IsCanceled (tasks s' t) = false → Enque t s' = Ok s'' →
    step (mkConfig s now rs) (mkConfig s'' now rs).

(** ** The invariant *)

Definition fin (s : store) (t : nat) : Prop := IsFinished (tasks s t) = true.
Definition pend (s : store) (t : nat) : Prop :=
  state_ (tasks s t) = Created ∨ state_ (tasks s t) = Submitted.

#[global] Instance fin_dec s t : Decision (fin s t).
Proof. unfold fin. apply _. Defined.

(** The condition under which a task may start, of what was added to it. *)
Definition may_start (now : Z) (s : store) (t : nat) : Prop :=
  let x := tasks s t in
  (added_dependencies x = [] ∧ added_triggers x = [] ∧ has_time_trigger_ x = false) ∨
  (added_dependencies x ≠ [] ∧ ∀ d, d ∈ added_dependencies x → fin s d) ∨
  (∃ d, d ∈ added_triggers x ∧ fin s d) ∨
  (has_time_trigger_ x = true ∧ (start_at_ x <= now)%Z).

Abbreviation occ := (count_occ Nat.eq_dec).

(** The entries for [d] in the lists of dependents that have not been handled, when
    [K t] entries of the list of [t] have been. *)
Definition pending (K : nat → nat) (s : store) (d : nat) : nat :=
  sum_list_with (λ t, occ (drop (K t) (depended_ (tasks s t))) d) (seq 0 (ntasks s)).

(** Reading the fields of updated stores and tasks. *)
Ltac fields :=
  cbn [tasks ntasks queue queue_closed timer timer_closed upd push_queue set_closed set_timer_closed
       set_queues state_ queue_ dependencies_ depended_ dependecies_cnt_ has_dependencies_ triggers_
       triggered_ has_triggers_ triggers_activated_ start_at_ has_time_trigger_ exc_ptr_ func_ result_
       added_dependencies added_triggers runs
       set_state set_queue clear_inputs set_depended set_cnt add_dependency set_triggered activate
       add_trigger set_time set_error set_result start_run] in *.

(** Cases on which task is the updated one. *)
Ltac cases_upd :=
  intros; unfold fin, pend, IsFinished in *; fields; repeat case_decide; subst; fields;
  try done; try (by eauto 3).

(** *** Sums over the tasks *)

Lemma sum_point (f g : nat → nat) (n t : nat) :
  t < n → (∀ u, u ≠ t → f u = g u) →
  sum_list_with f (seq 0 n) + g t = sum_list_with g (seq 0 n) + f t.
Proof.
  intros Ht Hfg. assert (∀ l, NoDup l → t ∈ l →
    sum_list_with f l + g t = sum_list_with g l + f t) as Hl; [|apply Hl; [apply NoDup_seq|apply elem_of_seq; lia]].
  assert (∀ l, t ∉ l → sum_list_with f l = sum_list_with g l) as Hno.
  { induction l as [|u l IH]; intros Hu; [done|]. apply not_elem_of_cons in Hu as [Hu Hl]. cbn.
    rewrite IH, Hfg by (done || congruence). done. }
  induction l as [|u l IH]; intros Hnd Hin; [by apply elem_of_nil in Hin|].
  apply NoDup_cons in Hnd as [Hu Hnd]. cbn. destruct (decide (u = t)) as [->|Hne].
  - rewrite (Hno l Hu). lia.
  - apply elem_of_cons in Hin as [?|Hin]; [congruence|]. specialize (IH Hnd Hin). rewrite (Hfg u Hne). lia.
Qed.

Lemma sum_ext (f g : nat → nat) (n : nat) :
  (∀ u, f u = g u) → sum_list_with f (seq 0 n) = sum_list_with g (seq 0 n).
Proof. intros Hfg. induction (seq 0 n) as [|u l IH]; cbn; [done|]. by rewrite Hfg, IH. Qed.

Lemma sum_ge (f : nat → nat) (n t : nat) : t < n → f t ≤ sum_list_with f (seq 0 n).
Proof.
  intros Ht. pose proof (sum_point f (λ u, if decide (u = t) then 0 else f u) n t Ht) as H.
  cbn in H. rewrite decide_True in H by done.
  assert (∀ u, u ≠ t → f u = if decide (u = t) then 0 else f u) as Hu
    by (intros u Hu; by rewrite decide_False).
  specialize (H Hu). lia.
Qed.

(** *** The start condition *)

Lemma may_start_mono now s s' t :
  (∀ u, fin s u → fin s' u) →
  added_dependencies (tasks s' t) = added_dependencies (tasks s t) →
  added_triggers (tasks s' t) = added_triggers (tasks s t) →
  has_time_trigger_ (tasks s' t) = has_time_trigger_ (tasks s t) →
  start_at_ (tasks s' t) = start_at_ (tasks s t) →
  may_start now s t → may_start now s' t.
Proof.
  intros Hf Hd Ht Hh Ha. unfold may_start. rewrite Hd, Ht, Hh, Ha.
  intros [?|[[? Hall]|[(d&?&?)|?]]]; [tauto| |right; right; left; eauto|tauto].
  right; left. split; [done|]. eauto.
Qed.

(** The two clauses that look at other tasks. *)
Ltac keep_flag H :=
  let e := fresh in let He := fresh in
  intros e He; destruct (H e) as (?&?&?); [by cases_upd|]; eexists; split; by cases_upd.
Ltac keep_start H :=
  let e := fresh in let He := fresh in
  intros e He; eapply may_start_mono; [..|apply (H e)]; by cases_upd.

Ltac keep_ready H :=
  let e := fresh in let HX := fresh in let He := fresh in
  intros e HX He; fields; case_decide; subst; apply H; (done || congruence).

Section Invariant.
Context (now : Z) (R : list nat).

(** The invariant while the tasks of [W] are being finished; [X] is a task that has
    still to be tried, and [R] are the tasks that are being run. *)
Record mid (X : option nat) (K : nat → nat) (W : list nat) (s : store) : Prop := {
  r_range : ∀ t, ntasks s ≤ t →
    state_ (tasks s t) = Created ∧ depended_ (tasks s t) = [] ∧ triggered_ (tasks s t) = [] ∧
    added_dependencies (tasks s t) = [] ∧ added_triggers (tasks s t) = [];
  r_cnt : ∀ d, dependecies_cnt_ (tasks s d) = Z.of_nat (pending K s d);
  r_bound : ∀ d, pending K s d ≤ length (added_dependencies (tasks s d)) ∧
    (Z.of_nat (length (added_dependencies (tasks s d))) < 2 ^ 64)%Z;
  r_prog : ∀ t, K t ≠ 0 → t ∈ W;
  r_W : ∀ t, t ∈ W → fin s t;
  r_fin : ∀ t, fin s t → t ∉ W → depended_ (tasks s t) = [] ∧ triggered_ (tasks s t) = [];
  r_dep : ∀ t d, pend s d → ¬ fin s t →
    occ (depended_ (tasks s t)) d = occ (added_dependencies (tasks s d)) t;
  r_trig : ∀ t d, pend s d → t ∈ added_triggers (tasks s d) →
    triggers_activated_ (tasks s d) = true ∨ d ∈ triggered_ (tasks s t);
  r_flag : ∀ d, triggers_activated_ (tasks s d) = true →
    ∃ t, t ∈ added_triggers (tasks s d) ∧ fin s t;
  r_triggered : ∀ t d, d ∈ triggered_ (tasks s t) → t ∈ added_triggers (tasks s d);
  r_has : ∀ d, (has_dependencies_ (tasks s d) = bool_decide (added_dependencies (tasks s d) ≠ [])) ∧
    (has_triggers_ (tasks s d) = bool_decide (added_triggers (tasks s d) ≠ []));
  r_ready : ∀ d, X ≠ Some d → state_ (tasks s d) = Submitted → IsReadyToEnque (tasks s d) = false;
  r_sub : ∀ d, state_ (tasks s d) = Submitted → queue_ (tasks s d) = true;
  r_nodup : NoDup (queue s);
  r_queue : ∀ t, t ∈ queue s →
    runs (tasks s t) = 0 ∧ (state_ (tasks s t) = Enqueued ∨ state_ (tasks s t) = Canceled);
  r_enq : ∀ t, state_ (tasks s t) = Enqueued → t ∈ queue s ∨ t ∈ R;
  r_start : ∀ t, state_ (tasks s t) = Enqueued ∨ runs (tasks s t) ≠ 0 → may_start now s t;
  r_pend : ∀ t, pend s t → runs (tasks s t) = 0;
  r_runs : ∀ t, runs (tasks s t) ≤ 1
}.

(** A task that is ready may start. *)
Lemma ready_may_start X K W s t :
  mid X K W s → pend s t → IsReadyToEnque (tasks s t) = true → may_start now s t.
Proof.
  intros H Hp Hr. destruct (r_has _ _ _ _ H t) as [Hd Ht]. unfold IsReadyToEnque in Hr.
  destruct (has_triggers_ (tasks s t) && triggers_activated_ (tasks s t)) eqn:E1.
  { apply andb_true_iff in E1 as [_ Hf]. right; right; left. exact (r_flag _ _ _ _ H t Hf). }
  destruct (has_dependencies_ (tasks s t) && (dependecies_cnt_ (tasks s t) =? 0)%Z) eqn:E2.
  - apply andb_true_iff in E2 as [Hh Hz]. right; left. rewrite Hd in Hh.
    apply bool_decide_eq_true in Hh. split; [done|]. intros d Hin.
    destruct (decide (fin s d)) as [|Hnf]; [done|]. exfalso.
    apply Z.eqb_eq in Hz. rewrite (r_cnt _ _ _ _ H) in Hz.
    pose proof (r_dep _ _ _ _ H d t Hp Hnf) as Ho.
    apply list_elem_of_In, (count_occ_In Nat.eq_dec) in Hin.
    destruct (decide (d < ntasks s)) as [Hlt|Hge].
    + assert (K d = 0) as HK.
      { destruct (decide (K d = 0)) as [|HK]; [done|]. by apply (r_prog _ _ _ _ H), (r_W _ _ _ _ H) in HK. }
      pose proof (sum_ge (λ u, occ (drop (K u) (depended_ (tasks s u))) t) (ntasks s) d Hlt) as Hs.
      cbv beta in Hs. rewrite HK, drop_0 in Hs. unfold pending in Hz. lia.
    + destruct (r_range _ _ _ _ H d) as (_&Hnil&_); [lia|]. rewrite Hnil in Ho. cbn in Ho. lia.
  - left. rewrite Hd, Ht in Hr. destruct (added_dependencies (tasks s t)), (added_triggers (tasks s t));
      try done. cbn in Hr. by destruct (has_time_trigger_ (tasks s t)).
Qed.

(** *** Updates of the store *)

(** What the invariant says of a task it sees through these fields. *)
Definition core (x : task) : task :=
  mkTask (state_ x) (queue_ x) [] (depended_ x) (dependecies_cnt_ x) (has_dependencies_ x)
    [] (triggered_ x) (has_triggers_ x) (triggers_activated_ x) (start_at_ x)
    (has_time_trigger_ x) None (Fn (inl Default)) Default (added_dependencies x)
    (added_triggers x) (runs x).

Lemma mid_core X K W s s' :
  ntasks s' = ntasks s → queue s' = queue s → (∀ u, core (tasks s' u) = core (tasks s u)) →
  mid X K W s → mid X K W s'.
Proof.
  intros Hn Hq Hc H.
  assert (∀ {A} (f : task → A), (∀ x, f (core x) = f x) → ∀ u, f (tasks s' u) = f (tasks s u)) as Hf.
  { intros A f Hcore u. rewrite <- (Hcore (tasks s' u)), <- (Hcore (tasks s u)). by rewrite Hc. }
  pose proof (Hf _ state_ (λ _, eq_refl)) as E1. pose proof (Hf _ queue_ (λ _, eq_refl)) as E2.
  pose proof (Hf _ depended_ (λ _, eq_refl)) as E3. pose proof (Hf _ dependecies_cnt_ (λ _, eq_refl)) as E4.
  pose proof (Hf _ has_dependencies_ (λ _, eq_refl)) as E5. pose proof (Hf _ triggered_ (λ _, eq_refl)) as E6.
  pose proof (Hf _ has_triggers_ (λ _, eq_refl)) as E7.
  pose proof (Hf _ triggers_activated_ (λ _, eq_refl)) as E8.
  pose proof (Hf _ start_at_ (λ _, eq_refl)) as E9. pose proof (Hf _ has_time_trigger_ (λ _, eq_refl)) as E10.
  pose proof (Hf _ added_dependencies (λ _, eq_refl)) as E11.
  pose proof (Hf _ added_triggers (λ _, eq_refl)) as E12. pose proof (Hf _ runs (λ _, eq_refl)) as E13.
  pose proof (Hf _ IsReadyToEnque (λ _, eq_refl)) as E14.
  assert (∀ u, fin s' u ↔ fin s u) as Hfin by (intros u; unfold fin, IsFinished; by rewrite E1).
  assert (∀ u, pend s' u ↔ pend s u) as Hpend by (intros u; unfold pend; by rewrite E1).
  assert (∀ d, pending K s' d = pending K s d) as Hp.
  { intros d. unfold pending. rewrite Hn. apply sum_ext. intros u. by rewrite E3. }
  destruct H. split; rewrite ?Hq, ?Hn; try done; intros *;
    rewrite ?E1, ?E2, ?E3, ?E4, ?E5, ?E6, ?E7, ?E8, ?E11, ?E12, ?E13, ?E14, ?Hp, ?Hfin, ?Hpend; eauto.
  - intros Hf'. destruct (r_flag0 _ Hf') as (t&?&?). exists t. by rewrite Hfin.
  - intros Hs. eapply may_start_mono; [| | | | |by apply r_start0]; try done.
    intros u. by rewrite Hfin.
Qed.

Lemma mid_weaken X K W s : mid None K W s → mid X K W s.
Proof. intros []. by split; eauto. Qed.

Lemma pending_upd K s d t f :
  depended_ (f (tasks s t)) = depended_ (tasks s t) → pending K (upd t f s) d = pending K s d.
Proof. intros Hf. apply sum_ext. intros u. fields. case_decide; [|done]. subst. by rewrite Hf. Qed.

Lemma finished_code st : st = Completed ∨ st = Failed ∨ st = Canceled → (2 <? state_code st) = true.
Proof. by intros [->|[->| ->]]. Qed.

(** A task is finished: its dependents and triggered tasks have still to be
    notified. *)
Lemma mid_finish K W s t st :
  st = Completed ∨ st = Failed ∨ st = Canceled → (st = Canceled ∨ t ∉ queue s) → t < ntasks s →
  mid (Some t) K W s → mid None K (t :: W) (upd t (set_state st) s).
Proof.
  intros Hst Hq Ht H. pose proof (finished_code st Hst) as Hfin.
  assert (∀ u, fin s u → fin (upd t (set_state st) s) u) as Hmono by (cases_upd).
  destruct H. split; try (by cases_upd).
  - intros u Hu. fields. rewrite decide_False by lia. eauto.
  - intros d. rewrite pending_upd by done. cases_upd.
  - intros d. rewrite pending_upd by done. cases_upd.
  - intros u HK. apply elem_of_cons. eauto.
  - intros u Hu. apply elem_of_cons in Hu as [->|Hu]; [|eauto].
    unfold fin, IsFinished. fields. by rewrite decide_True.
  - intros u Hu HW. apply not_elem_of_cons in HW as [Hne HW]. unfold fin, IsFinished in *. fields.
    rewrite decide_False in * by done. eauto.
  - cases_upd; destruct Hst as [->|[->| ->]]; intuition congruence.
  - cases_upd; destruct Hst as [->|[->| ->]]; intuition congruence.
  - intros d Hd. destruct (r_flag0 d) as (u&?&?); [by cases_upd|]. exists u. split; [|eauto]. cases_upd.
  - intros d HX Hd. fields. case_decide; [subst; fields; destruct Hst as [->|[->| ->]]; congruence|].
    apply r_ready0; [congruence|done].
  - cases_upd; destruct Hst as [->|[->| ->]]; intuition congruence.
  - intros u Hu. destruct (r_queue0 u Hu) as [Hr Hs]. fields. case_decide; [subst; fields|done].
    split; [done|]. destruct Hq; [by right|done].
  - intros u Hu. fields. case_decide; [subst; fields; destruct Hst as [->|[->| ->]]; congruence|eauto].
  - intros u Hu. eapply may_start_mono; [exact Hmono|..|apply r_start0]; cases_upd;
    destruct Hst as [->|[->| ->]]; intuition congruence.
  - cases_upd; destruct Hst as [->|[->| ->]]; intuition congruence.
Qed.

Definition kupd (K : nat → nat) (t v : nat) : nat → nat := λ u, if decide (u = t) then v else K u.

(** One entry of the list of [t] is handled. *)
Lemma pending_next K s t d e :
  t < ntasks s → depended_ (tasks s t) !! K t = Some d →
  pending K s e = pending (kupd K t (S (K t))) s e + (if decide (e = d) then 1 else 0).
Proof.
  intros Ht Hd. unfold pending.
  pose proof (sum_point (λ u, occ (drop (K u) (depended_ (tasks s u))) e)
    (λ u, occ (drop (kupd K t (S (K t)) u) (depended_ (tasks s u))) e) (ntasks s) t Ht) as Hs.
  cbv beta in Hs. unfold kupd in Hs at 2. rewrite decide_True in Hs by done.
  assert (occ (drop (K t) (depended_ (tasks s t))) e
    = occ (drop (S (K t)) (depended_ (tasks s t))) e + (if decide (e = d) then 1 else 0)) as Hc.
  { rewrite (drop_S _ _ _ Hd). cbn [count_occ]. destruct (Nat.eq_dec d e), (decide (e = d)); subst; done || lia. }
  rewrite Hc in Hs. specialize (Hs ltac:(intros u Hu; unfold kupd; by rewrite decide_False)). lia.
Qed.

Lemma mid_notify K W s t d :
  mid None K W s → t ∈ W → depended_ (tasks s t) !! K t = Some d →
  mid (Some d) (kupd K t (S (K t))) W
    (upd d (λ x, set_cnt (u64 (dependecies_cnt_ x - 1)) x) s).
Proof.
  intros H HtW Hd.
  assert (t < ntasks s) as Ht.
  { destruct (decide (t < ntasks s)); [done|]. destruct (r_range _ _ _ _ H t) as (_&Hn&_); [lia|].
    by rewrite Hn in Hd. }
  pose proof (λ e, pending_next K s t d e Ht Hd) as Hp.
  set (K' := kupd K t (S (K t))) in *.
  assert (u64 (dependecies_cnt_ (tasks s d) - 1) = Z.of_nat (pending K' s d)) as Hcnt.
  { rewrite (r_cnt _ _ _ _ H d). destruct (r_bound _ _ _ _ H d) as [Hb Hb'].
    specialize (Hp d). rewrite decide_True in Hp by done. rewrite uwrap_small; lia. }
  destruct H. split; try (by cases_upd).
  - intros e. rewrite pending_upd by done. fields. case_decide; [subst; fields; done|].
    rewrite r_cnt0, Hp, decide_False by done. lia.
  - intros e. rewrite pending_upd by done. destruct (r_bound0 e) as [Hb Hb']. rewrite Hp in Hb.
    fields. case_decide; subst; fields; split; (lia || done).
  - intros u. unfold K', kupd. case_decide; [by subst|eauto].
  - keep_flag r_flag0.
  - keep_start r_start0.
Qed.

(** A trigger of [d] has finished. *)
Lemma mid_activate K W s t d :
  mid None K W s → t ∈ added_triggers (tasks s d) → fin s t → mid (Some d) K W (upd d activate s).
Proof.
  intros H Ht Hf. destruct H. split; try (by cases_upd).
  - intros e. rewrite pending_upd by done. cases_upd.
  - intros e. rewrite pending_upd by done. cases_upd.
  - intros e He. destruct (decide (e = d)) as [->|Hne].
    + exists t. split; by cases_upd.
    + destruct (r_flag0 e) as (u&?&?); [by cases_upd|]. exists u. split; by cases_upd.
  - keep_start r_start0.
Qed.

(** A submitted task that may start goes to the queue. *)
Lemma mid_enque K W s d :
  mid (Some d) K W s → state_ (tasks s d) = Submitted → may_start now s d →
  mid None K W (push_queue d (upd d (set_state Enqueued) s)).
Proof.
  intros H Hs Hm.
  assert (d ∉ queue s) as Hnq.
  { intros Hq. destruct (r_queue _ _ _ _ H d Hq) as [_ [?|?]]; congruence. }
  assert (∀ u, fin s u → fin (push_queue d (upd d (set_state Enqueued) s)) u) as Hfin.
  { intros u Hu. unfold fin, IsFinished in *. fields. case_decide; [subst|done]. by rewrite Hs in Hu. }
  assert (∀ e, pending K (push_queue d (upd d (set_state Enqueued) s)) e = pending K s e) as Hp.
  { intros e. apply sum_ext. intros u. fields. by case_decide; subst. }
  destruct H. split; try (by cases_upd).
  - intros u Hu. fields. rewrite decide_False; [eauto|]. intros ->.
    destruct (r_range0 d Hu) as [? _]. congruence.
  - intros e. rewrite Hp. cases_upd.
  - intros e. rewrite Hp. cases_upd.
  - intros u Hu. apply Hfin. eauto.
  - intros u e [He|He] Hu; (fields; case_decide; [done|]);
      assert (¬ fin s u) as Hu' by (intros ?; by apply Hu, Hfin);
      pose proof (r_dep0 u e) as Hd; unfold pend in Hd; rewrite <- Hd by tauto;
      case_decide; by subst.
  - intros e He. destruct (r_flag0 e) as (u&?&?); [by cases_upd|].
    exists u. split; [by cases_upd|by apply Hfin].
  - intros e HX He. fields. case_decide; [done|]. apply r_ready0; [congruence|done].
  - fields. apply NoDup_app. split_and!; [done| |apply NoDup_singleton].
    intros u Hu ->%list_elem_of_singleton. done.
  - intros u Hu. fields. apply elem_of_app in Hu as [Hu| ->%list_elem_of_singleton].
    + rewrite decide_False by (intros ->; done). eauto.
    + rewrite decide_True by done. fields. split; [|by left]. apply r_pend0. by right.
  - intros u Hu. fields. case_decide; [subst; left; apply elem_of_app; right; constructor|].
    destruct (r_enq0 u Hu); [left; apply elem_of_app; by left|by right].
  - intros u Hu. destruct (decide (u = d)) as [->|Hne].
    + eapply may_start_mono; [exact Hfin|..|exact Hm]; fields; by rewrite decide_True.
    + eapply may_start_mono; [exact Hfin|..|apply (r_start0 u)]; fields; by rewrite ?decide_False in *.
Qed.

(** The list of dependents has been handled and is cleared. *)
Lemma mid_clear_depended K W s t :
  mid None (kupd K t (length (depended_ (tasks s t)))) W s → K t = 0 → t ∈ W →
  mid None K W (upd t (set_depended []) s).
Proof.
  intros H HK HtW. assert (fin s t) as Hft by (by apply (r_W _ _ _ _ H)).
  assert (∀ e, pending K (upd t (set_depended []) s) e
    = pending (kupd K t (length (depended_ (tasks s t)))) s e) as Hp.
  { intros e. apply sum_ext. intros u. fields. unfold kupd. case_decide; [|done]. subst. fields.
    by rewrite drop_nil, drop_all. }
  destruct H. split; try (by cases_upd).
  - intros u Hu. destruct (r_range0 u Hu) as (?&?&?&?&?). by cases_upd.
  - intros e. rewrite Hp. cases_upd.
  - intros e. rewrite Hp. cases_upd.
  - intros u Hu. apply r_prog0. unfold kupd. case_decide; [by subst|done].
  - keep_flag r_flag0.
  - keep_ready r_ready0.
  - keep_start r_start0.
Qed.

(** The tasks it triggers have been activated: the task is done. *)
Lemma mid_clear_triggered K W s t :
  mid None K (t :: W) s → K t = 0 → depended_ (tasks s t) = [] →
  (∀ d, d ∈ triggered_ (tasks s t) → triggers_activated_ (tasks s d) = true) →
  mid None K W (upd t (set_triggered []) s).
Proof.
  intros H HK Hd Hact. destruct H. split; try (by cases_upd).
  - intros u Hu. destruct (r_range0 u Hu) as (?&?&?&?&?). by cases_upd.
  - intros e. rewrite pending_upd by done. cases_upd.
  - intros e. rewrite pending_upd by done. cases_upd.
  - intros u Hu. pose proof (r_prog0 u Hu) as Hin. apply elem_of_cons in Hin as [->|?]; [congruence|done].
  - intros u Hu. assert (fin s u) by (apply r_W0; by constructor). by cases_upd.
  - intros u Hu HW. destruct (decide (u = t)) as [->|Hne]; [by cases_upd|].
    assert (fin s u) as Hf by (by cases_upd).
    specialize (r_fin0 u Hf ltac:(by apply not_elem_of_cons)). by cases_upd.
  - intros u e He Hin. assert (pend s e) as He' by (by cases_upd).
    assert (u ∈ added_triggers (tasks s e)) as Hin' by (by cases_upd).
    assert (triggers_activated_ (tasks (upd t (set_triggered []) s) e) = triggers_activated_ (tasks s e))
      as -> by (by cases_upd).
    destruct (r_trig0 u e He' Hin') as [?|Hq]; [by left|]. fields.
    destruct (decide (u = t)) as [->|Hne]; [left; by apply Hact|by right].
  - keep_flag r_flag0.
  - intros u e Hin. fields. assert (e ∈ triggered_ (tasks s u)) as Hin'.
    { case_decide; [by apply elem_of_nil in Hin|done]. }
    specialize (r_triggered0 u e Hin'). clear Hin. by case_decide; subst.
  - keep_ready r_ready0.
  - keep_start r_start0.
Qed.

(** *** What notifying other tasks may change *)

Definition submitted (s : store) : nat :=
  sum_list_with (λ t, if decide (state_ (tasks s t) = Submitted) then 1 else 0) (seq 0 (ntasks s)).

(** [T] is the task being finished, whose lists are cleared. *)
Record cascade (T : option nat) (s s' : store) : Prop := {
  c_ntasks : ntasks s' = ntasks s;
  c_closed : queue_closed s' = queue_closed s;
  c_timer : timer s' = timer s;
  c_timer_closed : timer_closed s' = timer_closed s;
  c_state : ∀ u, state_ (tasks s u) ≠ Submitted → state_ (tasks s' u) = state_ (tasks s u);
  c_lists : ∀ u, T ≠ Some u → state_ (tasks s u) ≠ Submitted →
    depended_ (tasks s' u) = depended_ (tasks s u) ∧ triggered_ (tasks s' u) = triggered_ (tasks s u);
  c_submitted : ∀ u, state_ (tasks s u) = Submitted →
    state_ (tasks s' u) = Submitted ∨ state_ (tasks s' u) = Enqueued ∨ state_ (tasks s' u) = Canceled;
  c_flag : ∀ u, triggers_activated_ (tasks s u) = true → triggers_activated_ (tasks s' u) = true;
  c_static : ∀ u, added_dependencies (tasks s' u) = added_dependencies (tasks s u) ∧
    added_triggers (tasks s' u) = added_triggers (tasks s u) ∧
    has_time_trigger_ (tasks s' u) = has_time_trigger_ (tasks s u) ∧
    start_at_ (tasks s' u) = start_at_ (tasks s u) ∧ runs (tasks s' u) = runs (tasks s u) ∧
    func_ (tasks s' u) = func_ (tasks s u) ∧ result_ (tasks s' u) = result_ (tasks s u);
  c_exc : ∀ u, exc_ptr_ (tasks s' u) = exc_ptr_ (tasks s u);
  c_count : submitted s' ≤ submitted s
}.

Lemma cascade_refl T s : cascade T s s.
Proof. split; try done. intros u Hu. by left. Qed.

Lemma cascade_weaken T s s' : cascade None s s' → cascade T s s'.
Proof. intros []. split; eauto. Qed.

Lemma cascade_trans T a b c : cascade T a b → cascade T b c → cascade T a c.
Proof.
  intros H1 H2. destruct H1, H2. split; try (congruence || lia).
  - intros u Hu. rewrite c_state1; [by apply c_state0|]. by rewrite c_state0.
  - intros u HT Hu. destruct (c_lists0 u HT Hu) as (E2&E3).
    destruct (c_lists1 u HT) as (E5&E6); [by rewrite c_state0|]. split; congruence.
  - intros u Hu. destruct (c_submitted0 u Hu) as [E|E]; [by apply c_submitted1|].
    right. rewrite c_state1; [done|]. destruct E; congruence.
  - eauto.
  - intros u. destruct (c_static0 u) as (?&?&?&?&?&?&?), (c_static1 u) as (?&?&?&?&?&?&?).
    split_and!; congruence.
Qed.

(** A task that was submitted is not any more. *)
Lemma cascade_left t s s1 s' :
  t < ntasks s → state_ (tasks s t) = Submitted → state_ (tasks s1 t) = Enqueued ∨ state_ (tasks s1 t) = Canceled →
  (∀ u, u ≠ t → tasks s1 u = tasks s u) → ntasks s1 = ntasks s → queue_closed s1 = queue_closed s →
  timer s1 = timer s → timer_closed s1 = timer_closed s →
  triggers_activated_ (tasks s1 t) = triggers_activated_ (tasks s t) →
  exc_ptr_ (tasks s1 t) = exc_ptr_ (tasks s t) →
  (added_dependencies (tasks s1 t) = added_dependencies (tasks s t) ∧
    added_triggers (tasks s1 t) = added_triggers (tasks s t) ∧
    has_time_trigger_ (tasks s1 t) = has_time_trigger_ (tasks s t) ∧
    start_at_ (tasks s1 t) = start_at_ (tasks s t) ∧ runs (tasks s1 t) = runs (tasks s t) ∧
    func_ (tasks s1 t) = func_ (tasks s t) ∧ result_ (tasks s1 t) = result_ (tasks s t)) →
  cascade (Some t) s1 s' → cascade None s s' ∧ S (submitted s1) = submitted s.
Proof.
  intros Ht Hs Hs1 Ho Hn Hc Htm Htc Hfl Hexc Hst H.
  assert (S (submitted s1) = submitted s) as Hcount.
  { unfold submitted. rewrite Hn.
    pose proof (sum_point (λ u, if decide (state_ (tasks s1 u) = Submitted) then 1 else 0)
      (λ u, if decide (state_ (tasks s u) = Submitted) then 1 else 0) (ntasks s) t Ht) as Hp.
    cbv beta in Hp. rewrite (decide_False (P := state_ (tasks s1 t) = _)), (decide_True (P := state_ (tasks s t) = _)) in Hp
      by (done || destruct Hs1; congruence).
    specialize (Hp ltac:(intros u Hu; by rewrite Ho)). lia. }
  split; [|done]. destruct H. split; try (congruence || lia).
  - intros u Hu. destruct (decide (u = t)) as [->|Hne]; [congruence|].
    rewrite <- (Ho u Hne) in *. by apply c_state0.
  - intros u _ Hu. destruct (decide (u = t)) as [->|Hne]; [congruence|].
    rewrite <- (Ho u Hne) in *. apply c_lists0; congruence.
  - intros u Hu. destruct (decide (u = t)) as [->|Hne].
    + rewrite c_state0 by (destruct Hs1; congruence). by right.
    + rewrite <- (Ho u Hne) in *. by apply c_submitted0.
  - intros u Hu. apply c_flag0. destruct (decide (u = t)) as [->|Hne]; [congruence|by rewrite Ho].
  - intros u. destruct (c_static0 u) as (?&?&?&?&?&?&?). destruct (decide (u = t)) as [->|Hne].
    + destruct Hst as (?&?&?&?&?&?&?). split_and!; congruence.
    + rewrite <- (Ho u Hne). done.
  - intros u. rewrite c_exc0. destruct (decide (u = t)) as [->|Hne]; [done|by rewrite Ho].
Qed.

(** *** Notifying *)

(** What [Cancel] is assumed to do, when at most [f] other tasks are submitted. *)
Definition cancels (cancel : nat → store → outcome store) (f : nat) : Prop :=
  ∀ t s K W, let s1 := upd t (set_state Canceled) s in
    t < ntasks s → t ∉ W → K t = 0 → mid None K (t :: W) s1 → submitted s1 < f →
    ∃ s', cancel t s = Ok s' ∧ mid None K W s' ∧ cascade (Some t) s1 s'.

Lemma enque_ok cancel f K W s d :
  cancels cancel f → mid (Some d) K W s →
  (state_ (tasks s d) = Submitted → may_start now s d) → submitted s ≤ f →
  ∃ s', Enque_with cancel d s = Ok s' ∧ cascade None s s' ∧
    (state_ (tasks s d) = Submitted → mid None K W s' ∧ state_ (tasks s' d) ≠ Submitted) ∧
    (state_ (tasks s d) ≠ Submitted → s' = s).
Proof.
  intros Hcan H Hm Hf. unfold Enque_with.
  destruct (decide (state_ (tasks s d) = Submitted)) as [Hs|Hs].
  2: { exists s. split; [by destruct (queue_ (tasks s d))|]. split; [apply cascade_refl|done]. }
  rewrite (r_sub _ _ _ _ H d Hs). unfold Push_with. fields.
  assert (d < ntasks s) as Hd.
  { destruct (decide (d < ntasks s)); [done|]. destruct (r_range _ _ _ _ H d) as [? _]; [lia|]. congruence. }
  specialize (Hm Hs).
  assert (d ∉ W) as HdW.
  { intros Hin. apply (r_W _ _ _ _ H) in Hin. unfold fin, IsFinished in Hin. by rewrite Hs in Hin. }
  assert (K d = 0) as HK.
  { destruct (decide (K d = 0)) as [|HK]; [done|]. by apply (r_prog _ _ _ _ H) in HK. }
  destruct (queue_closed s) eqn:Hcl; cbn [negb].
  - destruct (Hcan d (upd d clear_inputs (upd d (set_state Enqueued) s)) K W) as (s'&Hs'&Hmid&Hcas);
      [done|done|done| | |].
    { apply (mid_core _ _ _ (upd d (set_state Canceled) s)); [done|done| |].
      - intros u. fields. by repeat case_decide; subst.
      - apply mid_finish; [tauto|by left|done|done]. }
    { eapply Nat.lt_le_trans; [|exact Hf]. apply Nat.lt_succ_r.
      destruct (cascade_left d s (upd d (set_state Canceled) (upd d clear_inputs (upd d (set_state Enqueued) s)))
        (upd d (set_state Canceled) (upd d clear_inputs (upd d (set_state Enqueued) s)))) as [_ <-];
        [done|done|..|apply cascade_refl|lia]; fields; rewrite ?decide_True by done; fields; try done; [by right|].
      intros u Hu. by rewrite !decide_False. }
    exists s'. split; [done|]. split_and!; [|intros _; split; [done|]|congruence].
    2: { rewrite (c_state _ _ _ Hcas); fields; by rewrite decide_True. }
    eapply cascade_left; [done|exact Hs|..|exact Hcas]; fields; rewrite ?decide_True by done; fields;
      try done; [by right|]. intros u Hu. by rewrite !decide_False.
  - eexists. split; [done|]. split_and!; [| |congruence].
    + eapply (cascade_left d s (push_queue d (upd d clear_inputs (upd d (set_state Enqueued) s))));
        [done|exact Hs|..|apply cascade_refl]; fields; rewrite ?decide_True by done; fields; try done; [by left|].
      intros u Hu. by rewrite !decide_False.
    + intros _. split; [|fields; by rewrite !decide_True].
      apply (mid_core _ _ _ (push_queue d (upd d (set_state Enqueued) s))); [done|done| |].
      * intros u. fields. by repeat case_decide; subst.
      * by apply mid_enque.
Qed.

Lemma mid_settle K W s d :
  mid (Some d) K W s → (state_ (tasks s d) = Submitted → IsReadyToEnque (tasks s d) = false) →
  mid None K W s.
Proof.
  intros [] Hr. split; try done. intros e _ He. destruct (decide (e = d)) as [->|Hne]; [auto|].
  apply r_ready0; congruence.
Qed.

Lemma try_ok cancel f K W s d :
  cancels cancel f → mid (Some d) K W s → submitted s ≤ f →
  ∃ s', TryToEnque_with cancel d s = Ok s' ∧ mid None K W s' ∧ cascade None s s'.
Proof.
  intros Hcan H Hf. unfold TryToEnque_with. destruct (decide _) as [Hs|Hs].
  { exists s. split_and!; [done| |apply cascade_refl]. by apply (mid_settle _ _ _ d). }
  apply dec_stable in Hs. destruct (IsReadyToEnque (tasks s d)) eqn:Hr.
  - destruct (enque_ok cancel f K W s d Hcan H) as (s'&?&?&Hm&?); [|done|].
    2: { exists s'. destruct (Hm Hs). done. }
    intros _. eapply ready_may_start; [exact H|by right|done].
  - exists s. split_and!; [done| |apply cascade_refl]. by apply (mid_settle _ _ _ d).
Qed.

(** An update of one task that is not seen by [cascade]. *)
Lemma cascade_upd T s t f :
  (∀ x, state_ (f x) = state_ x ∧ func_ (f x) = func_ x ∧ result_ (f x) = result_ x ∧
    added_dependencies (f x) = added_dependencies x ∧ added_triggers (f x) = added_triggers x ∧
    has_time_trigger_ (f x) = has_time_trigger_ x ∧ start_at_ (f x) = start_at_ x ∧ runs (f x) = runs x ∧
    exc_ptr_ (f x) = exc_ptr_ x) →
  (∀ x, triggers_activated_ x = true → triggers_activated_ (f x) = true) →
  (T ≠ Some t → ∀ x, depended_ (f x) = depended_ x ∧ triggered_ (f x) = triggered_ x) →
  cascade T s (upd t f s).
Proof.
  intros Hf Hfl Hl. assert (∀ u, state_ (tasks (upd t f s) u) = state_ (tasks s u)) as Hst.
  { intros u. fields. case_decide; [apply Hf|done]. }
  split; try done.
  - intros u HT Hu. fields. case_decide; [subst; by apply Hl|done].
  - intros u Hu. left. by rewrite Hst.
  - intros u Hu. fields. case_decide; auto.
  - intros u. fields. case_decide; [|done]. destruct (Hf (tasks s u)) as (?&?&?&?&?&?&?&?&?). done.
  - intros u. fields. case_decide; [apply Hf|done].
  - unfold submitted. apply Nat.eq_le_incl, sum_ext. intros u. by rewrite Hst.
Qed.

Lemma notify_depended_loop cancel f W t ds : 
  cancels cancel f → ∀ s K k,
  mid None (kupd K t k) (t :: W) s → drop k (depended_ (tasks s t)) = ds → submitted s ≤ f →
  ∃ s', forO (notify_depended cancel) ds s = Ok s' ∧
    mid None (kupd K t (length (depended_ (tasks s t)))) (t :: W) s' ∧ cascade None s s'.
Proof.
  intros Hcan. induction ds as [|d ds IH]; intros s K k H Hds Hf.
  { exists s. split_and!; [done| |apply cascade_refl].
    assert (length (depended_ (tasks s t)) ≤ k) as Hk.
    { apply (f_equal length) in Hds. rewrite length_drop in Hds. cbn in Hds. lia. }
    assert (∀ e, pending (kupd K t (length (depended_ (tasks s t)))) s e = pending (kupd K t k) s e) as Hp.
    { intros e. apply sum_ext. intros u. unfold kupd. case_decide; [|done]. subst.
      by rewrite !drop_ge by lia. }
    destruct H. split; try done.
    - intros e. by rewrite Hp.
    - intros e. by rewrite Hp.
    - intros u. unfold kupd. case_decide; [intros _; subst; constructor|].
      intros Hu. apply r_prog0. unfold kupd. by rewrite decide_False. }
  cbn [forO]. unfold notify_depended at 1.
  assert (depended_ (tasks s t) !! k = Some d) as Hk.
  { pose proof (lookup_drop (depended_ (tasks s t)) k 0) as Hl. rewrite Hds, Nat.add_0_r in Hl. done. }
  assert (fin s t) as Hft by (apply (r_W _ _ _ _ H); constructor).
  assert (mid (Some d) (kupd K t (S k)) (t :: W)
    (upd d (λ x, set_cnt (u64 (dependecies_cnt_ x - 1)) x) s)) as H1.
  { pose proof (mid_notify (kupd K t k) (t :: W) s t d H ltac:(constructor)) as Hn.
    assert (kupd K t k t = k) as Hkt by (unfold kupd; by rewrite decide_True). rewrite Hkt in Hn.
    specialize (Hn Hk). destruct Hn. split; try done.
    - intros e. rewrite r_cnt0. f_equal. apply sum_ext. intros u. unfold kupd. by case_decide.
    - intros e. destruct (r_bound0 e) as [Hb ?]. split; [|done]. eapply Nat.le_trans; [|exact Hb].
      apply Nat.eq_le_incl, sum_ext. intros u. unfold kupd. by case_decide.
    - intros u Hu. apply r_prog0. unfold kupd in *. by case_decide. }
  assert (cascade None s (upd d (λ x, set_cnt (u64 (dependecies_cnt_ x - 1)) x) s)) as C1
    by (by apply cascade_upd).
  destruct (try_ok cancel f _ _ _ d Hcan H1) as (s2&->&H2&C2); [destruct C1; lia|]. cbn [bindO].
  assert (cascade None s s2) as C by (by eapply cascade_trans).
  assert (depended_ (tasks s2 t) = depended_ (tasks s t)) as Hdep.
  { apply (c_lists _ _ _ C); [done|]. intros E. unfold fin, IsFinished in Hft. by rewrite E in Hft. }
  destruct (IH s2 K (S k)) as (s3&Hs3&H3&C3); [done| |destruct C; lia|].
  { rewrite Hdep. rewrite (drop_S _ _ _ Hk) in Hds. by injection Hds. }
  exists s3. split_and!; [done|by rewrite Hdep in H3|by eapply cascade_trans].
Qed.

Lemma notify_triggered_loop cancel f K W t ds :
  cancels cancel f → ∀ s,
  mid None K (t :: W) s → (∀ d, d ∈ ds → t ∈ added_triggers (tasks s d)) → submitted s ≤ f →
  ∃ s', forO (notify_triggered cancel) ds s = Ok s' ∧ mid None K (t :: W) s' ∧ cascade None s s' ∧
    ∀ d, d ∈ ds → triggers_activated_ (tasks s' d) = true.
Proof.
  intros Hcan. induction ds as [|d ds IH]; intros s H Hds Hf.
  { exists s. split_and!; [done|done|apply cascade_refl|]. by intros d Hd%elem_of_nil. }
  cbn [forO]. unfold notify_triggered at 1.
  assert (fin s t) as Hft by (apply (r_W _ _ _ _ H); constructor).
  pose proof (mid_activate K (t :: W) s t d H (Hds d ltac:(constructor)) Hft) as H1.
  assert (cascade None s (upd d activate s)) as C1 by (by apply cascade_upd).
  destruct (try_ok cancel f _ _ _ d Hcan H1) as (s2&->&H2&C2); [destruct C1; lia|]. cbn [bindO].
  assert (cascade None s s2) as C by (by eapply cascade_trans).
  destruct (IH s2) as (s3&Hs3&H3&C3&Hact); [done| |destruct C; lia|].
  { intros e He. destruct (c_static _ _ _ C e) as (_&->&_). apply Hds. by constructor. }
  exists s3. split_and!; [done|done|by eapply cascade_trans|].
  intros e [->|He]%elem_of_cons; [|by apply Hact].
  apply (c_flag _ _ _ C3), (c_flag _ _ _ C2). fields. by rewrite decide_True.
Qed.

Lemma on_finished_ok cancel f K W t s :
  cancels cancel f → mid None K (t :: W) s → K t = 0 → submitted s ≤ f →
  ∃ s', OnFinished_with cancel t s = Ok s' ∧ mid None K W s' ∧ cascade (Some t) s s'.
Proof.
  intros Hcan H HK Hf. unfold OnFinished_with.
  assert (∀ a b, fin a t → cascade None a b → fin b t) as Hfin.
  { intros a b Ha C. unfold fin, IsFinished in *. rewrite (c_state _ _ _ C); [done|].
    intros E. by rewrite E in Ha. }
  assert (fin s t) as Hft by (apply (r_W _ _ _ _ H); constructor).
  assert (∀ a b, fin a t → cascade None a b →
    depended_ (tasks b t) = depended_ (tasks a t) ∧ triggered_ (tasks b t) = triggered_ (tasks a t)) as Hl.
  { intros a b Ha C. apply (c_lists _ _ _ C); [done|].
    intros E. unfold fin, IsFinished in Ha. by rewrite E in Ha. }
  destruct (notify_depended_loop cancel f W t (depended_ (tasks s t)) Hcan s K 0) as (s1&->&H1&C1);
    [|done|done|].
  { destruct H. assert (∀ u, kupd K t 0 u = K u) as HKu by (intros u; unfold kupd; by case_decide; subst).
    split; try done.
    - intros e. rewrite r_cnt0. f_equal. apply sum_ext. intros u. by rewrite HKu.
    - intros e. destruct (r_bound0 e). split; [|done].
      replace (pending (kupd K t 0) s e) with (pending K s e); [done|].
      apply sum_ext. intros u. by rewrite HKu.
    - intros u. rewrite HKu. apply r_prog0. }
  cbn [bindO]. destruct (Hl s s1 Hft C1) as [Hd1 Ht1]. pose proof (Hfin s s1 Hft C1) as Hf1.
  rewrite <- Hd1 in H1. apply mid_clear_depended in H1; [|done|constructor].
  set (s2 := upd t (set_depended []) s1) in *.
  assert (cascade (Some t) s s2) as C2.
  { eapply cascade_trans; [by apply cascade_weaken|]. by apply cascade_upd. }
  destruct (notify_triggered_loop cancel f K W t (triggered_ (tasks s2 t)) Hcan s2 H1) as (s3&->&H3&C3&Hact).
  { intros d Hd. by apply (r_triggered _ _ _ _ H1). }
  { destruct C2; lia. }
  cbn [bindO]. assert (fin s2 t) as Hf2 by (unfold s2, fin; fields; by rewrite decide_True).
  destruct (Hl s2 s3 Hf2 C3) as [Hd3 Ht3].
  exists (upd t (set_triggered []) s3). split_and!; [done| |].
  - apply mid_clear_triggered; [done|done| |].
    + rewrite Hd3. unfold s2. fields. by rewrite decide_True.
    + rewrite Ht3. done.
  - eapply cascade_trans; [exact C2|]. eapply cascade_trans; [by apply cascade_weaken|].
    by apply cascade_upd.
Qed.

Lemma cancel_fuel_ok f : cancels (Cancel_fuel f) f.
Proof.
  induction f as [|f IH]; intros t s K W s1 Ht HtW HK H Hsub; [lia|].
  cbn [Cancel_fuel]. fold s1. apply (on_finished_ok _ f); [done|done|done|lia].
Qed.

Lemma submitted_le s : submitted s ≤ ntasks s.
Proof.
  unfold submitted. assert (∀ l, sum_list_with
    (λ t, if decide (state_ (tasks s t) = Submitted) then 1 else 0) l ≤ length l) as Hl.
  { induction l as [|u l IH]; cbn; [done|]. case_decide; lia. }
  specialize (Hl (seq 0 (ntasks s))). by rewrite length_seq in Hl.
Qed.

(** [Cancel] has enough fuel for any number of tasks. *)
Lemma cancel_cancels f : cancels Cancel f.
Proof.
  intros t s K W s1 Ht HtW HK H _. apply cancel_fuel_ok; try done.
  pose proof (submitted_le s1). unfold s1 in *. cbn in *. lia.
Qed.

Abbreviation K0 := (λ _ : nat, 0).
Abbreviation ok := (mid None K0 []).

Lemma queue_range s t : ok s → t ∈ queue s → t < ntasks s.
Proof.
  intros H Ht. destruct (decide (t < ntasks s)); [done|].
  destruct (r_range _ _ _ _ H t) as [Hc _]; [lia|]. destruct (r_queue _ _ _ _ H t Ht) as [_ [?|?]]; congruence.
Qed.

Lemma finish_state_ok s t st :
  st = Completed ∨ st = Failed ∨ st = Canceled → (st = Canceled ∨ t ∉ queue s) → t < ntasks s → ok s →
  ∃ s', OnFinished t (upd t (set_state st) s) = Ok s' ∧ ok s' ∧
    cascade (Some t) (upd t (set_state st) s) s'.
Proof.
  intros Hst Hq Ht H. apply (on_finished_ok _ (ntasks s)); [apply cancel_cancels| |done|].
  - apply mid_finish; [done|done|done|]. by apply mid_weaken.
  - apply (submitted_le (upd t (set_state st) s)).
Qed.

Lemma cancel_call_ok s t :
  t < ntasks s → ok s →
  ∃ s', Cancel t s = Ok s' ∧ ok s' ∧ cascade (Some t) (upd t (set_state Canceled) s) s'.
Proof.
  intros Ht H. apply (cancel_cancels (S (ntasks s))); [done|by apply not_elem_of_nil|done| |].
  - apply mid_finish; [tauto|by left|done|]. by apply mid_weaken.
  - pose proof (submitted_le (upd t (set_state Canceled) s)). cbn in *. lia.
Qed.

(** A task that failed has its exception. *)
Definition failed_ok (s : store) : Prop :=
  ∀ u, state_ (tasks s u) = Failed → exc_ptr_ (tasks s u) ≠ None.

(** What never changes by cancelling, whatever tasks are canceled. *)
Record kept (s s' : store) : Prop := {
  k_ntasks : ntasks s' = ntasks s;
  k_timer : timer s' = timer s;
  k_submitted : ∀ u, state_ (tasks s' u) = Submitted → state_ (tasks s u) = Submitted;
  k_created : ∀ u, state_ (tasks s' u) = Created → state_ (tasks s u) = Created;
  k_static : ∀ u, has_time_trigger_ (tasks s' u) = has_time_trigger_ (tasks s u) ∧
    runs (tasks s' u) = runs (tasks s u);
  k_failed : failed_ok s → failed_ok s'
}.

Lemma kept_trans a b c : kept a b → kept b c → kept a c.
Proof.
  intros [] []. split; try (congruence || by eauto).
  intros u. destruct (k_static0 u), (k_static1 u). split; congruence.
Qed.

Lemma cascade_kept T s s' : cascade T s s' → kept s s'.
Proof.
  intros []. split; try done.
  - intros u Hu. destruct (decide (state_ (tasks s u) = Submitted)) as [|Hn]; [done|].
    rewrite c_state0 in Hu by done. done.
  - intros u Hu. destruct (decide (state_ (tasks s u) = Submitted)) as [E|Hn].
    + apply c_submitted0 in E as [?|[?|?]]; congruence.
    + by rewrite c_state0 in Hu.
  - intros u. destruct (c_static0 u) as (?&?&?&?&?&?&?). done.
  - intros Hf u Hu. rewrite c_exc0. apply Hf. destruct (decide (state_ (tasks s u) = Submitted)) as [E|Hn].
    + apply c_submitted0 in E as [?|[?|?]]; congruence.
    + by rewrite c_state0 in Hu.
Qed.

Lemma kept_finish s t st :
  st = Completed ∨ st = Failed ∨ st = Canceled → (st = Failed → exc_ptr_ (tasks s t) ≠ None) →
  kept s (upd t (set_state st) s).
Proof.
  intros Hst Hexc. split; try done; try (intros u; fields; case_decide; fields; try done;
    destruct Hst as [->|[->| ->]]; done).
  intros Hf u Hu. fields. case_decide; subst; fields; auto.
Qed.

Lemma cancel_all_ok ts s :
  (∀ t, t ∈ ts → t < ntasks s) → ok s →
  ∃ s', forO Cancel ts s = Ok s' ∧ ok s' ∧ kept s s'.
Proof.
  revert s. induction ts as [|t ts IH]; intros s Hr H.
  { exists s. split_and!; [done|done|by split]. }
  cbn [forO]. destruct (cancel_call_ok s t) as (s1&->&H1&C1); [apply Hr; constructor|done|].
  apply cascade_kept in C1. cbn [bindO].
  destruct (IH s1) as (s2&->&H2&C2); [|done|].
  - intros u Hu. rewrite (k_ntasks _ _ C1). fields. apply Hr. by constructor.
  - exists s2. split_and!; [done|done|]. eapply kept_trans; [|done]. eapply kept_trans; [|done].
    apply kept_finish; [tauto|done].
Qed.

(** Updates of what the invariant does not look at. *)
Lemma ok_neutral s t f : (∀ x, core (f x) = core x) → ok s → ok (upd t f s).
Proof. intros Hf. apply mid_core; [done..|]. intros u. fields. by case_decide. Qed.
End Invariant.

(** *** The other calls *)

Abbreviation good now R := (mid now R None (λ _ : nat, 0) []).

Lemma good_make now R fn s : good now R s → good now R (make_task fn s).2.
Proof.
  intros H. destruct (r_range _ _ _ _ _ _ H (ntasks s) (le_n _)) as (Hst&Hdep&Htr&Hadd&Hadt).
  assert (pend s (ntasks s)) as Hpe by (by left).
  assert (∀ u, fin (make_task fn s).2 u ↔ fin s u) as Hfin.
  { intros u. unfold fin, IsFinished. cbn. case_decide; [subst; by rewrite Hst|done]. }
  assert (∀ d, pending (λ _, 0) (make_task fn s).2 d = pending (λ _, 0) s d) as Hp.
  { intros d. unfold pending. cbn [make_task ntasks snd tasks]. rewrite seq_S, sum_list_with_app. cbn.
    rewrite decide_True by done. cbn. rewrite !Nat.add_0_r. apply sum_ext. intros u.
    case_decide; [subst; cbn; by rewrite Hdep|done]. }
  assert (pending (λ _, 0) s (ntasks s) = 0) as Hz.
  { destruct (r_bound _ _ _ _ _ _ H (ntasks s)) as [Hb _]. rewrite Hadd in Hb. cbn in Hb. lia. }
  destruct H. split; try (by cbn).
  - intros u Hu. cbn in Hu |- *. rewrite decide_False by lia. apply r_range0. lia.
  - intros d. rewrite Hp. cbn. case_decide; [subst; by rewrite Hz|apply r_cnt0].
  - intros d. rewrite Hp. cbn. case_decide; [subst; rewrite Hz; cbn; lia|apply r_bound0].
  - by intros u Hu%elem_of_nil.
  - intros u Hu HW. apply Hfin in Hu as Hu'. cbn. case_decide; [done|by apply r_fin0].
  - intros u d Hd Hu. rewrite Hfin in Hu. unfold pend in *. cbn in Hd |- *.
    assert (state_ (tasks s d) = Created ∨ state_ (tasks s d) = Submitted) as Hd'
      by (case_decide; [by subst|done]).
    pose proof (r_dep0 u d Hd' Hu) as Ho. repeat case_decide; subst; cbn;
      rewrite ?Hdep, ?Hadd in Ho; cbn in Ho; done.
  - intros u d Hd Hin. unfold pend in *. cbn in Hd, Hin |- *. case_decide; [by apply elem_of_nil in Hin|].
    destruct (r_trig0 u d Hd Hin) as [?|Hq]; [by left|right]. case_decide; [subst; by rewrite Htr in Hq|done].
  - intros d Hd. cbn in Hd |- *. case_decide; [done|].
    destruct (r_flag0 d Hd) as (u&?&?). exists u. by rewrite Hfin.
  - intros u d Hd. cbn in Hd |- *. case_decide; [by apply elem_of_nil in Hd|].
    case_decide; [subst; pose proof (r_triggered0 _ _ Hd) as Hx; by rewrite Hadt in Hx|eauto].
  - intros d. cbn. case_decide; [done|apply r_has0].
  - intros d HX Hd. cbn in Hd |- *. case_decide; [done|by apply r_ready0].
  - intros d Hd. cbn in Hd |- *. case_decide; [done|by apply r_sub0].
  - intros u Hu. cbn in Hu |- *. rewrite decide_False; [by apply r_queue0|].
    intros ->. destruct (r_queue0 _ Hu) as [_ [?|?]]; congruence.
  - intros u Hu. cbn in Hu |- *. case_decide; [done|by apply r_enq0].
  - intros u Hu. cbn in Hu. case_decide as Hu'; [by destruct Hu|].
    eapply may_start_mono; [..|by apply r_start0]; cbn; rewrite ?decide_False by done; try done.
    intros v. by rewrite Hfin.
  - intros u Hu. unfold pend in Hu. cbn in Hu |- *. case_decide; [done|by apply r_pend0].
  - intros u. cbn. case_decide; [cbn; lia|apply r_runs0].
Qed.

(** Adding a dependency to a task that has not been submitted. *)
Lemma pending_add s t dep e :
  dep < ntasks s →
  pending (λ _, 0) (upd dep (λ x, set_depended (depended_ x ++ [t]) x) s) e
  = pending (λ _, 0) s e + (if decide (e = t) then 1 else 0).
Proof.
  intros Hd. set (s' := upd dep (λ x, set_depended (depended_ x ++ [t]) x) s).
  change (sum_list_with (λ u, occ (depended_ (tasks s' u)) e) (seq 0 (ntasks s))
    = sum_list_with (λ u, occ (depended_ (tasks s u)) e) (seq 0 (ntasks s))
      + (if decide (e = t) then 1 else 0)).
  pose proof (sum_point (λ u, occ (depended_ (tasks s' u)) e)
    (λ u, occ (depended_ (tasks s u)) e) (ntasks s) dep Hd) as Hs. cbv beta in Hs.
  assert (occ (depended_ (tasks s' dep)) e
    = occ (depended_ (tasks s dep)) e + (if decide (e = t) then 1 else 0)) as Hc.
  { unfold s'. fields. rewrite decide_True by done. fields. rewrite count_occ_app. cbn.
    destruct (Nat.eq_dec t e), (decide (e = t)); subst; done || lia. }
  rewrite Hc in Hs. specialize (Hs ltac:(intros u Hu; unfold s'; fields; by rewrite decide_False)). lia.
Qed.

(** What [AddDependency] leaves as it is, and what it adds. *)
Lemma AddDependency_same t dep s u :
  let s' := AddDependency t dep s in
  ntasks s' = ntasks s ∧ queue s' = queue s ∧ timer s' = timer s ∧
  state_ (tasks s' u) = state_ (tasks s u) ∧ queue_ (tasks s' u) = queue_ (tasks s u) ∧
  triggered_ (tasks s' u) = triggered_ (tasks s u) ∧ has_triggers_ (tasks s' u) = has_triggers_ (tasks s u) ∧
  triggers_activated_ (tasks s' u) = triggers_activated_ (tasks s u) ∧
  added_triggers (tasks s' u) = added_triggers (tasks s u) ∧ runs (tasks s' u) = runs (tasks s u) ∧
  has_time_trigger_ (tasks s' u) = has_time_trigger_ (tasks s u) ∧
  start_at_ (tasks s' u) = start_at_ (tasks s u).
Proof.
  unfold AddDependency, AddDepended. destruct (IsFinished (tasks s dep)); fields;
    repeat case_decide; subst; fields; done.
Qed.

(** Whether an entry for [e] is added. *)
Definition entry (s : store) (t dep e : nat) : nat := if decide (¬ fin s dep ∧ e = t) then 1 else 0.

Lemma AddDependency_added t dep s u :
  let s' := AddDependency t dep s in
  added_dependencies (tasks s' u) = added_dependencies (tasks s u) ++ (if decide (u = t) then [dep] else []) ∧
  has_dependencies_ (tasks s' u) = (if decide (u = t) then true else has_dependencies_ (tasks s u)) ∧
  depended_ (tasks s' u) = depended_ (tasks s u) ++ (if decide (¬ fin s dep ∧ u = dep) then [t] else []) ∧
  dependecies_cnt_ (tasks s' u) = (if decide (¬ fin s dep ∧ u = t) then u64 (dependecies_cnt_ (tasks s u) + 1)
                                   else dependecies_cnt_ (tasks s u)).
Proof.
  cbv zeta. unfold AddDependency, AddDepended. destruct (decide (fin s dep)) as [E|E].
  - rewrite (E : IsFinished (tasks s dep) = true). rewrite !(decide_False (P := ¬ fin s dep ∧ _)) by tauto.
    fields. case_decide; subst; fields; rewrite ?app_nil_r; done.
  - rewrite (not_true_is_false _ (E : ¬ IsFinished (tasks s dep) = true)).
    fields. repeat case_decide; subst; fields; rewrite ?app_nil_r; intuition congruence.
Qed.

Lemma AddDependency_pending t dep s e :
  dep < ntasks s → pending (λ _, 0) (AddDependency t dep s) e = pending (λ _, 0) s e + entry s t dep e.
Proof.
  intros Hd. unfold AddDependency, AddDepended, entry. rewrite pending_upd by done.
  destruct (decide (fin s dep)) as [E|E].
  - rewrite (E : IsFinished (tasks s dep) = true), decide_False by tauto. lia.
  - rewrite (not_true_is_false _ (E : ¬ IsFinished (tasks s dep) = true)).
    rewrite pending_add, pending_upd by done. f_equal. repeat case_decide; intuition congruence.
Qed.

Lemma occ_app_if (P : Prop) `{Decision P} l x e :
  occ (l ++ (if decide P then [x] else [])) e = occ l e + (if decide (P ∧ x = e) then 1 else 0).
Proof.
  rewrite count_occ_app. f_equal. destruct (decide P); cbn.
  - destruct (Nat.eq_dec x e); [rewrite decide_True by done|rewrite decide_False by tauto]; done.
  - by rewrite decide_False by tauto.
Qed.

Lemma good_AddDependency now R t dep s :
  state_ (tasks s t) = Created → t < ntasks s → dep < ntasks s →
  (Z.of_nat (length (added_dependencies (tasks s t))) + 1 < 2 ^ 64)%Z →
  good now R s → good now R (AddDependency t dep s).
Proof.
  intros Hst Ht Hd Hlen H. pose proof (AddDependency_same t dep s) as Hsame.
  pose proof (AddDependency_added t dep s) as Hadded.
  pose proof (λ e, AddDependency_pending t dep s e Hd) as Hp.
  set (s' := AddDependency t dep s) in *. cbv zeta in Hsame, Hadded.
  assert (∀ u, fin s' u ↔ fin s u) as Hfin.
  { intros u. destruct (Hsame u) as (_&_&_&E&_). unfold fin, IsFinished. by rewrite E. }
  assert (∀ u, pend s' u ↔ pend s u) as Hpend.
  { intros u. destruct (Hsame u) as (_&_&_&E&_). unfold pend. by rewrite E. }
  assert (runs (tasks s t) = 0) as Hrt by (apply (r_pend _ _ _ _ _ _ H); by left).
  destruct (Hsame t) as (Hn&Hq&_). destruct H.
  split; rewrite ?Hn, ?Hq; try done; intros u; destruct (Hsame u) as (_&_&_&E1&E2&E3&E4&E5&E6&E7&E8&E9);
    destruct (Hadded u) as (A1&A2&A3&A4); rewrite ?E1, ?E2, ?E3, ?E4, ?E5, ?E6, ?E7, ?Hfin, ?Hpend.
  - intros Hu. rewrite A1, A3, !decide_False by (intuition lia). rewrite !app_nil_r. auto.
  - rewrite A4, Hp. unfold entry. destruct (decide (¬ fin s dep ∧ u = t)) as [[_ ->]|].
    + rewrite r_cnt0. destruct (r_bound0 t) as [Hb _]. rewrite uwrap_small; lia.
    + rewrite r_cnt0. f_equal. lia.
  - rewrite A1, Hp, length_app. unfold entry. destruct (r_bound0 u) as [Hb Hb'].
    destruct (decide (u = t)) as [->|Hne]; cbn [length].
    + split; [destruct (decide (¬ fin s dep ∧ t = t))|]; lia.
    + rewrite decide_False by tauto. split; lia.
  - eauto.
  - intros Hu HW. rewrite A3, decide_False, app_nil_r by (intros [? ->]; done). eauto.
  - intros d Hd' Hu. rewrite Hfin in Hu. rewrite Hpend in Hd'. destruct (Hadded d) as (B1&_).
    rewrite A3, B1, !occ_app_if, (r_dep0 u d) by done. f_equal.
    clear A1 A2 A3 A4 B1. apply decide_ext. split; [intros [[_ ->] ->]; done|intros [-> ->]; done].
  - intros d Hd' Hin. rewrite Hpend in Hd'.
    destruct (Hsame d) as (_&_&_&_&_&F3&_&F5&F6&_). rewrite F5. rewrite F6 in Hin. eauto.
  - intros Hf. destruct (r_flag0 u Hf) as (v&?&?). exists v. by rewrite Hfin.
  - intros d Hin. destruct (Hsame d) as (_&_&_&_&_&F3&_&F5&F6&_). rewrite F6. eauto.
  - rewrite A1, A2. destruct (r_has0 u) as [Hh1 Hh2]. split; [|done]. destruct (decide (u = t)).
    + symmetry. apply bool_decide_eq_true. by destruct (added_dependencies (tasks s u)).
    + by rewrite app_nil_r.
  - intros HX Hs. rewrite <- (r_ready0 u HX Hs).
    assert (u ≠ t) as Hne by congruence. unfold IsReadyToEnque.
    rewrite E4, E5, E8, A2, A4, !decide_False by tauto. done.
  - eauto.
  - eauto.
  - eauto.
  - intros Hs. assert (u ≠ t) as Hne by (intros ->; destruct Hs; congruence).
    eapply may_start_mono; [..|by apply r_start0]; try done.
    + intros v. by rewrite Hfin.
    + by rewrite A1, decide_False, app_nil_r.
  - eauto.
  - eauto.
Qed.

(** Updates of one task that leave states and dependency counts as they are and
    concern a task that has not been submitted, or its trigger. *)
Lemma good_AddTrigger now R t dep s :
  state_ (tasks s t) = Created → t < ntasks s → dep < ntasks s →
  good now R s → good now R (AddTrigger t dep s).
Proof.
  intros Hst Ht Hd H. set (s' := AddTrigger t dep s).
  assert (∀ u, state_ (tasks s' u) = state_ (tasks s u) ∧ queue_ (tasks s' u) = queue_ (tasks s u) ∧
    depended_ (tasks s' u) = depended_ (tasks s u) ∧ dependecies_cnt_ (tasks s' u) = dependecies_cnt_ (tasks s u) ∧
    has_dependencies_ (tasks s' u) = has_dependencies_ (tasks s u) ∧
    added_dependencies (tasks s' u) = added_dependencies (tasks s u) ∧ runs (tasks s' u) = runs (tasks s u) ∧
    has_time_trigger_ (tasks s' u) = has_time_trigger_ (tasks s u) ∧
    start_at_ (tasks s' u) = start_at_ (tasks s u)) as Hsame.
  { intros u. unfold s', AddTrigger, AddTriggered. destruct (negb (IsFinished (tasks s dep))); fields;
      repeat case_decide; subst; fields; done. }
  assert (∀ u, added_triggers (tasks s' u) = added_triggers (tasks s u) ++ (if decide (u = t) then [dep] else []) ∧
    has_triggers_ (tasks s' u) = (if decide (u = t) then true else has_triggers_ (tasks s u)) ∧
    triggered_ (tasks s' u) = triggered_ (tasks s u) ++ (if decide (¬ fin s dep ∧ u = dep) then [t] else []) ∧
    triggers_activated_ (tasks s' u) = (if decide (fin s dep ∧ u = t) then true else triggers_activated_ (tasks s u)))
    as Hadded.
  { intros u. unfold s', AddTrigger, AddTriggered. destruct (decide (fin s dep)) as [E|E].
    - rewrite (E : IsFinished (tasks s dep) = true). cbn [negb].
      rewrite !(decide_False (P := ¬ fin s dep ∧ _)) by tauto.
      fields. repeat case_decide; subst; fields; rewrite ?app_nil_r; intuition congruence.
    - rewrite (not_true_is_false _ (E : ¬ IsFinished (tasks s dep) = true)). cbn [negb].
      rewrite !(decide_False (P := fin s dep ∧ _)) by tauto.
      fields. repeat case_decide; subst; fields; rewrite ?app_nil_r; intuition congruence. }
  assert (ntasks s' = ntasks s ∧ queue s' = queue s) as [Hn Hq]
    by (unfold s', AddTrigger, AddTriggered; by destruct (negb _)).
  assert (∀ u, fin s' u ↔ fin s u) as Hfin.
  { intros u. destruct (Hsame u) as (E&_). unfold fin, IsFinished. by rewrite E. }
  assert (∀ u, pend s' u ↔ pend s u) as Hpend.
  { intros u. destruct (Hsame u) as (E&_). unfold pend. by rewrite E. }
  assert (∀ d, pending (λ _, 0) s' d = pending (λ _, 0) s d) as Hp.
  { intros d. unfold pending. rewrite Hn. apply sum_ext. intros u. by destruct (Hsame u) as (_&_&->&_). }
  assert (runs (tasks s t) = 0) as Hrt by (apply (r_pend _ _ _ _ _ _ H); by left).
  destruct H. clearbody s'.
  split; rewrite ?Hn, ?Hq; try done; intros u; destruct (Hsame u) as (E1&E2&E3&E4&E5&E6&E7&E8&E9);
    destruct (Hadded u) as (A1&A2&A3&A4); rewrite ?E1, ?E2, ?E3, ?E4, ?E5, ?E6, ?E7, ?Hfin, ?Hpend, ?Hp; eauto.
  - intros Hu. rewrite A1, A3, !decide_False by (intuition lia). rewrite !app_nil_r. auto.
  - intros Hu HW. rewrite A3, decide_False, app_nil_r by (intros [? ->]; done). eauto.
  - intros d Hd' Hu. rewrite Hpend in Hd'. destruct (Hsame d) as (_&_&_&_&_&->&_). rewrite Hfin in Hu. eauto.
  - intros d Hd' Hin. rewrite Hpend in Hd'. destruct (Hadded d) as (B1&_&_&B4). rewrite B1 in Hin.
    rewrite B4, A3, elem_of_app. apply elem_of_app in Hin as [Hin|Hin].
    + destruct (r_trig0 u d Hd' Hin) as [Hf|?]; [|by right; left]. left. by destruct (decide (fin s dep ∧ d = t)).
    + destruct (decide (d = t)) as [->|]; [|by apply elem_of_nil in Hin].
      apply list_elem_of_singleton in Hin as ->. destruct (decide (fin s dep)).
      * left. by rewrite decide_True.
      * right; right. rewrite decide_True by done. constructor.
  - intros Hf. rewrite A4 in Hf. rewrite A1. destruct (decide (fin s dep ∧ u = t)) as [[Hfd ->]|].
    + exists dep. rewrite decide_True by done. split; [apply elem_of_app; right; constructor|by rewrite Hfin].
    + destruct (r_flag0 u Hf) as (v&?&?). exists v. rewrite Hfin. split; [apply elem_of_app; by left|done].
  - intros d Hin. destruct (Hadded d) as (B1&_). rewrite B1, elem_of_app. rewrite A3 in Hin.
    apply elem_of_app in Hin as [Hin|Hin]; [left; eauto|right].
    destruct (decide (¬ fin s dep ∧ u = dep)) as [[_ ->]|]; [|by apply elem_of_nil in Hin].
    apply list_elem_of_singleton in Hin as ->. rewrite decide_True by done. constructor.
  - rewrite A1, A2. destruct (r_has0 u) as [Hh1 Hh2]. split; [done|]. destruct (decide (u = t)).
    + symmetry. apply bool_decide_eq_true. by destruct (added_triggers (tasks s u)).
    + by rewrite app_nil_r.
  - intros HX Hs. rewrite <- (r_ready0 u HX Hs). assert (u ≠ t) as Hne by congruence. unfold IsReadyToEnque.
    rewrite E4, E5, E8, A2, A4, !decide_False by tauto. done.
  - intros Hs. assert (u ≠ t) as Hne by (intros ->; destruct Hs; congruence).
    eapply may_start_mono; [..|by apply r_start0]; try done.
    + intros v. by rewrite Hfin.
    + by rewrite A1, decide_False, app_nil_r.
Qed.

Lemma good_SetTimeTrigger now R t at_ s :
  state_ (tasks s t) = Created → good now R s → good now R (SetTimeTrigger t at_ s).
Proof.
  intros Hst H. assert (runs (tasks s t) = 0) as Hrt by (apply (r_pend _ _ _ _ _ _ H); by left).
  unfold SetTimeTrigger. destruct H. split; try (by cases_upd).
  - intros e. rewrite pending_upd by done. cases_upd.
  - intros e. rewrite pending_upd by done. cases_upd.
  - intros d Hd. destruct (r_flag0 d) as (u&?&?); [by cases_upd|]. exists u. split; by cases_upd.
  - intros d HX Hd. fields. case_decide; [subst; fields; congruence|by apply r_ready0].
  - intros u Hu. assert (u ≠ t) as Hne.
    { intros ->. fields. rewrite decide_True in Hu by done. fields. destruct Hu; congruence. }
    eapply may_start_mono; [..|apply (r_start0 u)]; try by cases_upd.
Qed.

(** [Submit] of a new task, before it is tried. *)
Lemma mid_submitted now R t s :
  state_ (tasks s t) = Created → t < ntasks s → good now R s →
  mid now R (Some t) (λ _, 0) [] (upd t (set_state Submitted) (upd t set_queue s)).
Proof.
  intros Hst Ht H. assert (runs (tasks s t) = 0) as Hrt by (apply (r_pend _ _ _ _ _ _ H); by left).
  set (s' := upd t (set_state Submitted) (upd t set_queue s)).
  assert (∀ u, fin s' u ↔ fin s u) as Hfin.
  { intros u. unfold s', fin, IsFinished. fields. repeat case_decide; subst; fields; [by rewrite Hst|done]. }
  assert (∀ u, pend s' u ↔ pend s u) as Hpend.
  { intros u. unfold s', pend. fields. repeat case_decide; subst; fields; [rewrite Hst; tauto|done]. }
  assert (∀ u, triggered_ (tasks s' u) = triggered_ (tasks s u) ∧ depended_ (tasks s' u) = depended_ (tasks s u) ∧
    dependecies_cnt_ (tasks s' u) = dependecies_cnt_ (tasks s u) ∧
    has_dependencies_ (tasks s' u) = has_dependencies_ (tasks s u) ∧
    has_triggers_ (tasks s' u) = has_triggers_ (tasks s u) ∧
    triggers_activated_ (tasks s' u) = triggers_activated_ (tasks s u) ∧
    added_dependencies (tasks s' u) = added_dependencies (tasks s u) ∧
    added_triggers (tasks s' u) = added_triggers (tasks s u) ∧ runs (tasks s' u) = runs (tasks s u) ∧
    has_time_trigger_ (tasks s' u) = has_time_trigger_ (tasks s u) ∧
    start_at_ (tasks s' u) = start_at_ (tasks s u)) as Hsame.
  { intros u. unfold s'. fields. repeat case_decide; subst; fields; done. }
  assert (∀ d, pending (λ _, 0) s' d = pending (λ _, 0) s d) as Hp.
  { intros d. apply sum_ext. intros u. by destruct (Hsame u) as (_&->&_). }
  assert (∀ u, u ≠ t → tasks s' u = tasks s u) as Ho.
  { intros u Hu. unfold s'. fields. by rewrite !decide_False. }
  assert (state_ (tasks s' t) = Submitted ∧ queue_ (tasks s' t) = true) as [Hs' Hq'].
  { unfold s'. fields. by rewrite !decide_True. }
  destruct H. split; try done; intros u; destruct (Hsame u) as (E1&E2&E3&E4&E5&E6&E7&E8&E9&E10&E11);
    rewrite ?E1, ?E2, ?E3, ?E4, ?E5, ?E6, ?E7, ?E8, ?E9, ?Hp, ?Hfin, ?Hpend; eauto.
  - intros Hu. change (ntasks s') with (ntasks s) in Hu. rewrite Ho by lia. eauto.
  - intros d. destruct (Hsame d) as (F1&F2&F3&F4&F5&F6&F7&F8&F9&_). rewrite Hpend, Hfin, F7. eauto.
  - intros d. destruct (Hsame d) as (F1&F2&F3&F4&F5&F6&F7&F8&F9&_). rewrite Hpend, F6, F8. eauto.
  - intros Hf. destruct (r_flag0 u Hf) as (v&?&?). exists v. by rewrite Hfin.
  - intros d. destruct (Hsame d) as (F1&F2&F3&F4&F5&F6&F7&F8&F9&_). rewrite F8. eauto.
  - intros HX Hs. rewrite Ho in * by congruence. apply r_ready0; [done|done].
  - intros Hs. destruct (decide (u = t)) as [->|Hne]; [done|]. rewrite Ho in * by done. eauto.
  - intros Hu. destruct (r_queue0 u Hu) as [? Hs]. split; [done|]. rewrite Ho; [done|].
    intros ->. destruct Hs; congruence.
  - intros Hs. rewrite Ho in Hs; [by apply r_enq0|]. intros ->. congruence.
  - intros Hs. assert (u ≠ t) as Hne by (intros ->; destruct Hs; congruence).
    rewrite Ho in Hs by done. eapply may_start_mono; [..|by apply r_start0]; try done.
    intros v. by rewrite Hfin.
Qed.

Lemma good_tick now now' R s : (now <= now')%Z → good now R s → good now' R s.
Proof.
  intros Hle []. split; try done. intros t Ht. specialize (r_start0 t Ht).
  destruct r_start0 as [?|[?|[?|[? ?]]]]; [by left|by right; left|by right; right; left|].
  right; right; right. split; [done|lia].
Qed.

(** A worker takes a task from the queue. *)
Lemma good_skip now R s t q :
  queue s = t :: q → state_ (tasks s t) = Canceled → good now R s → good now R (set_queues q (timer s) s).
Proof.
  intros Hq Hs []. rewrite Hq in *. split; try done; fields.
  - by apply NoDup_cons in r_nodup0 as [_ ?].
  - intros u Hu. apply r_queue0. by constructor.
  - intros u Hu. destruct (r_enq0 u Hu) as [[->|?]%elem_of_cons|?]; [congruence|by left|by right].
Qed.

Lemma good_run now R s t q :
  queue s = t :: q → state_ (tasks s t) ≠ Canceled → good now R s →
  good now (t :: R) (upd t start_run (set_queues q (timer s) s)).
Proof.
  intros Hq Hs H. destruct (r_queue _ _ _ _ _ _ H t) as [Hr Hst]; [rewrite Hq; constructor|].
  assert (state_ (tasks s t) = Enqueued) as He by (by destruct Hst).
  pose proof (r_nodup _ _ _ _ _ _ H) as Hnd. rewrite Hq in Hnd. apply NoDup_cons in Hnd as [Hni Hnd].
  destruct H. rewrite Hq in *. split; try (by cases_upd).
  - intros e. rewrite pending_upd by done. cases_upd.
  - intros e. rewrite pending_upd by done. cases_upd.
  - keep_flag r_flag0.
  - keep_ready r_ready0.
  - intros u Hu. fields. destruct (r_queue0 u ltac:(by constructor)) as [? ?].
    rewrite decide_False; [done|]. by intros ->.
  - intros u Hu. fields. destruct (decide (u = t)) as [->|Hne]; [right; constructor|].
    destruct (r_enq0 u Hu) as [[->|?]%elem_of_cons|?]; [done|by left|right; by constructor].
  - intros u Hu. eapply may_start_mono; [..|apply (r_start0 u)]; try by cases_upd.
  - intros u [Hu|Hu]; fields; case_decide; subst; fields; [congruence| |congruence|]; apply r_pend0; by (left + right).
  - intros u. fields. case_decide; subst; fields; [lia|apply r_runs0].
Qed.

Lemma good_running now R R' s :
  (∀ t, t ∈ R → t ∈ R' ∨ fin s t) → good now R s → good now R' s.
Proof.
  intros HR []. split; try done. intros t Ht. destruct (r_enq0 t Ht) as [?|Hin]; [by left|].
  destruct (HR t Hin) as [?|Hf]; [by right|]. unfold fin, IsFinished in Hf. by rewrite Ht in Hf.
Qed.

Lemma good_timer now R s tm : good now R s → good now R (set_queues (queue s) tm s).
Proof. by apply mid_core. Qed.

(** [X] is a task that is being submitted. *)
Record inv_but (X : option nat) (c : config) : Prop := {
  i_good : good (clock c) (running c) (st c);
  i_nodup : NoDup (running c);
  i_running : ∀ t, t ∈ running c → runs (tasks (st c) t) = 1;
  i_timer : ∀ t, t ∈ timer (st c) →
    t < ntasks (st c) ∧ has_time_trigger_ (tasks (st c) t) = true ∧ state_ (tasks (st c) t) ≠ Created;
  i_waiting : ∀ t, X ≠ Some t → state_ (tasks (st c) t) = Submitted → has_time_trigger_ (tasks (st c) t) = true →
    t ∈ timer (st c);
  i_failed : failed_ok (st c)
}.

Abbreviation inv := (inv_but None).

(** The clauses other than the first, for calls that only make tasks leave the
    states before the queue. *)
Lemma inv_kept X s s' now R :
  inv_but X (mkConfig s now R) → good now R s' → kept s s' → inv_but X (mkConfig s' now R).
Proof.
  intros [Hg Hnd Hr Ht Hw Hfl] Hg' []. cbn [st clock running] in *.
  split; cbn [st clock running]; [done|done|..|by apply k_failed0].
  - intros t Hin. destruct (k_static0 t) as [_ ->]. by apply Hr.
  - intros t Hin. rewrite k_timer0 in Hin. destruct (Ht t Hin) as (?&?&?).
    destruct (k_static0 t) as [-> _]. rewrite k_ntasks0. split_and!; [done|done|].
    intros E. by apply k_created0 in E.
  - intros t HX Hs Hh. rewrite k_timer0. destruct (k_static0 t) as [E _]. rewrite E in Hh. auto.
Qed.

Lemma ntasks_runs now R s t : good now R s → runs (tasks s t) ≠ 0 → t < ntasks s.
Proof.
  intros H Hr. destruct (decide (t < ntasks s)); [done|].
  destruct (r_range _ _ _ _ _ _ H t) as [Hc _]; [lia|].
  exfalso. apply Hr, (r_pend _ _ _ _ _ _ H). by left.
Qed.

(** Cancelling and finishing. *)
Lemma inv_Cancel s now R t :
  t < ntasks s → inv (mkConfig s now R) → ∃ s', Cancel t s = Ok s' ∧ inv (mkConfig s' now R).
Proof.
  intros Ht H. destruct (cancel_call_ok now R s t Ht (i_good _ _ H)) as (s'&?&?&C).
  exists s'. split; [done|]. eapply inv_kept; [done|done|].
  eapply kept_trans; [|by eapply cascade_kept]. apply kept_finish; [tauto|done].
Qed.

Lemma inv_cancel_all s now R ts :
  (∀ t, t ∈ ts → t < ntasks s) → inv (mkConfig s now R) →
  ∃ s', forO Cancel ts s = Ok s' ∧ inv (mkConfig s' now R) ∧ kept s s'.
Proof.
  intros Ht H. destruct (cancel_all_ok now R ts s Ht (i_good _ _ H)) as (s'&?&?&?).
  exists s'. split_and!; [done|by eapply inv_kept|done].
Qed.

Lemma inv_StartShutdown s now R :
  inv (mkConfig s now R) → ∃ s', StartShutdown s = Ok s' ∧ inv (mkConfig s' now R).
Proof.
  intros H. unfold StartShutdown.
  assert (∃ s1, TasksQueue_Close s = Ok s1 ∧ inv (mkConfig s1 now R)) as (s1&->&H1).
  { unfold TasksQueue_Close. destruct (queue_closed s); [by exists s|].
    destruct (inv_cancel_all (set_closed s) now R (queue s)) as (s'&?&?&?); [| |by exists s'].
    - intros t Ht. by apply (queue_range now R s t (i_good _ _ H)).
    - destruct H as [Hg ? ? ? ? ?]. split; try done. cbn [st clock running] in *. by eapply (mid_core _ _ _ _ _ s). }
  cbn [bindO]. unfold TimerQueue_Close. destruct (timer_closed s1); [by exists s1|].
  destruct (inv_cancel_all (set_timer_closed s1) now R (timer s1)) as (s'&?&?&?); [| |by exists s'].
  - intros t Ht. by apply (i_timer _ _ H1).
  - destruct H1 as [Hg ? ? ? ? ?]. split; try done. cbn [st clock running] in *. by eapply (mid_core _ _ _ _ _ s1).
Qed.

Lemma kept_neutral s t f :
  (∀ x, core (f x) = core x) → (∀ x, exc_ptr_ x ≠ None → exc_ptr_ (f x) ≠ None) →
  kept s (upd t f s).
Proof.
  intros Hf Hexc. assert (∀ x, state_ (f x) = state_ x) as Hs by (intros x; exact (f_equal state_ (Hf x))).
  split; try done.
  - intros u. fields. case_decide; [by rewrite Hs|done].
  - intros u. fields. case_decide; [by rewrite Hs|done].
  - intros u. fields. case_decide; [|done].
    pose proof (Hf (tasks s u)) as Hc. exact (conj (f_equal has_time_trigger_ Hc) (f_equal runs Hc)).
  - intros Hfl u Hu. fields. case_decide; [|by apply Hfl]. rewrite Hs in Hu. apply Hexc. by apply Hfl.
Qed.

(** A finished task is not run any more. *)
Lemma inv_stop s now R1 R2 t :
  inv (mkConfig s now (R1 ++ t :: R2)) → fin s t → inv (mkConfig s now (R1 ++ R2)).
Proof.
  intros [Hg Hnd Hr Ht Hw Hfl] Hf. cbn [st clock running] in *.
  split; cbn [st clock running]; [|..|done|done|done].
  - eapply good_running; [|done]. intros u Hu. rewrite elem_of_app in *. rewrite elem_of_cons in Hu.
    destruct Hu as [?|[->|?]]; tauto.
  - apply NoDup_app in Hnd as (?&Hdis&[? ?]%NoDup_cons). apply NoDup_app. split_and!; [done| |done].
    intros u Hu Hu'. apply (Hdis u Hu). by constructor.
  - intros u Hu. apply Hr. rewrite elem_of_app in *. rewrite elem_of_cons. tauto.
Qed.

(** The end of a task that is being run: [f] stores what came of it. *)
Lemma inv_end s now R1 R2 t f stt :
  inv (mkConfig s now (R1 ++ t :: R2)) → (∀ x, core (f x) = core x) →
  (∀ x, exc_ptr_ x ≠ None → exc_ptr_ (f x) ≠ None) →
  stt = Completed ∨ stt = Failed ∨ stt = Canceled → (stt = Failed → exc_ptr_ (f (tasks s t)) ≠ None) →
  ∃ s', OnFinished t (upd t (set_state stt) (upd t f s)) = Ok s' ∧
    inv (mkConfig s' now (R1 ++ R2)) ∧ fin s' t ∧ result_ (tasks s' t) = result_ (f (tasks s t)).
Proof.
  intros H Hf Hexc Hs Hfl. set (R := R1 ++ t :: R2) in *.
  assert (runs (tasks s t) = 1) as H1 by (apply (i_running _ _ H), elem_of_app; right; constructor).
  destruct (finish_state_ok now R (upd t f s) t stt Hs) as (s'&?&Hg&C).
  - right. intros Hq. destruct (r_queue _ _ _ _ _ _ (i_good _ _ H) t Hq) as [E _]. cbn in E. lia.
  - apply (ntasks_runs now R s t (i_good _ _ H)). cbn. lia.
  - apply ok_neutral; [done|]. exact (i_good _ _ H).
  - assert (state_ (tasks s' t) = stt) as Hst.
    { rewrite (c_state _ _ _ C); fields; rewrite decide_True by done; fields; [done|].
      destruct Hs as [->|[->| ->]]; done. }
    assert (fin s' t) as Hft by (unfold fin, IsFinished; rewrite Hst; by apply finished_code).
    exists s'. split_and!; [done| |done|].
    + apply (inv_stop _ _ _ _ t); [|done]. eapply inv_kept; [exact H|done|].
      eapply kept_trans; [by apply (kept_neutral s t f)|].
      eapply kept_trans; [|by eapply cascade_kept]. apply kept_finish; [done|].
      intros E. fields. rewrite decide_True by done. by apply Hfl.
    + destruct (c_static _ _ _ C t) as (_&_&_&_&_&_&->). fields. by rewrite !decide_True.
Qed.

Lemma inv_finish s now R1 R2 t r :
  inv (mkConfig s now (R1 ++ t :: R2)) → (∀ f, r = Fail f → ∃ e, f = Exn e) →
  ∃ s', finish t r s = Ok s' ∧ inv (mkConfig s' now (R1 ++ R2)) ∧ fin s' t ∧
    (∀ v, r = Ok v → result_ (tasks s' t) = v).
Proof.
  intros H Hr. destruct r as [v|f].
  - destruct (inv_end s now R1 R2 t (set_result v) Completed H) as (s'&?&?&?&?); [done|done|tauto|done|]. exists s'.
    split_and!; [done|done|done|]. by intros ? [= <-].
  - destruct (Hr f eq_refl) as [e ->].
    destruct (inv_end s now R1 R2 t (set_error e) Failed H) as (s'&?&?&?&?); [done|done|tauto|done|]. by exists s'.
Qed.

(** Submitting. *)
Lemma good_set_queue now R s t : good now R s → good now R (upd t set_queue s).
Proof.
  intros H. destruct H. split; try (by cases_upd).
  - intros e. rewrite pending_upd by done. cases_upd.
  - intros e. rewrite pending_upd by done. cases_upd.
  - keep_flag r_flag0.
  - keep_ready r_ready0.
  - keep_start r_start0.
Qed.

Lemma kept_set_queue s t : kept s (upd t set_queue s).
Proof.
  split; try done; try (intros u; fields; by case_decide).
  intros Hf u Hu. fields. case_decide; fields; by apply Hf.
Qed.

(** After [Task::Submit] only the timer may still have to learn of the task. *)
Lemma inv_Task_Submit s now R t :
  t < ntasks s → inv (mkConfig s now R) →
  ∃ s', Task_Submit t s = Ok s' ∧ inv_but (Some t) (mkConfig s' now R) ∧ t < ntasks s' ∧
    state_ (tasks s' t) ≠ Created.
Proof.
  intros Ht H. unfold Task_Submit. cbv zeta.
  assert (state_ (tasks (upd t set_queue s) t) = state_ (tasks s t)) as Hq
    by (fields; by rewrite decide_True).
  rewrite Hq. destruct (decide (state_ (tasks s t) = Created)) as [Hc|Hc].
  2: { eexists. split; [done|]. rewrite Hq. split_and!; [|done|done].
       eapply (inv_kept _ s); [|apply good_set_queue; exact (i_good _ _ H)|apply kept_set_queue].
       destruct H. split; try done. intros u _. by apply i_waiting0. }
  pose proof (mid_submitted now R t s Hc Ht (i_good _ _ H)) as Hm.
  set (s1 := upd t (set_state Submitted) (upd t set_queue s)) in *.
  destruct (try_ok now R Cancel (ntasks s) _ _ s1 t (cancel_cancels now R _) Hm) as (s2&Hs2&Hg&C);
    [apply (submitted_le s1)|].
  exists s2. unfold TryToEnque. rewrite Hs2. split; [done|].
  assert (∀ u, u ≠ t → tasks s1 u = tasks s u) as Ho by (intros u Hu; unfold s1; fields; by rewrite !decide_False).
  assert (state_ (tasks s1 t) = Submitted) as Hst by (unfold s1; fields; by rewrite decide_True).
  assert (∀ u, has_time_trigger_ (tasks s1 u) = has_time_trigger_ (tasks s u) ∧ runs (tasks s1 u) = runs (tasks s u) ∧
    exc_ptr_ (tasks s1 u) = exc_ptr_ (tasks s u)) as Hs1
    by (intros u; unfold s1; fields; by repeat case_decide).
  pose proof (cascade_kept _ _ _ C) as [Kn Kt Ks Kc Kst Kf]. destruct H as [_ Hnd Hr Htm Hw Hfl].
  cbn [st clock running] in *. split_and!; [|rewrite Kn; exact Ht|intros E; apply Kc in E; congruence].
  split; cbn [st clock running]; [done|done|..].
  - intros u Hu. destruct (Kst u) as [_ ->]. destruct (Hs1 u) as (_&->&_). by apply Hr.
  - intros u Hu. rewrite Kt in Hu. destruct (Htm u Hu) as (?&?&?). destruct (Kst u) as [-> _].
    destruct (Hs1 u) as (->&_). rewrite Kn. split_and!; [done|done|].
    intros E. apply Kc in E. destruct (decide (u = t)) as [->|Hne]; [congruence|]. by rewrite Ho in E.
  - intros u HX Hu Hh. rewrite Kt. destruct (Kst u) as [E _]. rewrite E in Hh. destruct (Hs1 u) as (E'&_).
    rewrite E' in Hh. apply Ks in Hu. rewrite Ho in Hu by congruence. by apply Hw.
  - apply Kf. intros u Hu. destruct (Hs1 u) as (_&_&->). apply Hfl.
    destruct (decide (u = t)) as [->|Hne]; [congruence|]. by rewrite Ho in Hu.
Qed.

Lemma inv_Submit s now R t :
  t < ntasks s → inv (mkConfig s now R) → ∃ s', Submit t s = Ok s' ∧ inv (mkConfig s' now R).
Proof.
  intros Ht H. unfold Submit. destruct (inv_Task_Submit s now R t Ht H) as (s1&->&H1&Ht1&Hc1). cbn [bindO].
  cbv zeta. destruct (negb _ && has_time_trigger_ (tasks s1 t)) eqn:E.
  - apply andb_true_iff in E as [_ Htime]. unfold TimerQueue_Push. destruct (timer_closed s1); cbn [negb].
    + destruct (cancel_call_ok now R s1 t Ht1 (i_good _ _ H1)) as (s2&->&Hg&C). exists s2. split; [done|].
      assert (inv_but (Some t) (mkConfig s2 now R)) as [].
      { eapply inv_kept; [done|done|]. eapply kept_trans; [|by eapply cascade_kept].
        apply kept_finish; [tauto|done]. }
      split; try done. intros u _ Hu. cbn [st] in *. apply i_waiting0; [|done]. intros [= ->].
      rewrite (c_state _ _ _ C) in Hu; fields; by rewrite decide_True in *.
    + eexists. split; [done|]. destruct H1. cbn [st clock running] in *.
      split; cbn [st clock running]; [by apply good_timer|done|done|..|done]; fields.
      * intros u [Hu| ->%list_elem_of_singleton]%elem_of_app; [by apply i_timer0|done].
      * intros u _ Hu Hh. apply elem_of_app. destruct (decide (u = t)) as [->|Hne]; [right; constructor|left].
        apply i_waiting0; [congruence|done|done].
  - exists s1. split; [done|]. destruct H1. split; try done. intros u _ Hu Hh. cbn [st] in *.
    apply i_waiting0; [|done|done]. intros [= ->]. unfold IsEnqued, IsFinished in E. by rewrite Hu, Hh in E.
Qed.

(** *** Every step *)

Lemma kept_upd s t f :
  (∀ x, state_ (f x) = state_ x ∧ has_time_trigger_ (f x) = has_time_trigger_ x ∧ runs (f x) = runs x ∧
    exc_ptr_ (f x) = exc_ptr_ x) → kept s (upd t f s).
Proof.
  intros Hf. split; try done.
  - intros u. fields. case_decide; [|done]. by destruct (Hf (tasks s u)) as (->&_).
  - intros u. fields. case_decide; [|done]. by destruct (Hf (tasks s u)) as (->&_).
  - intros u. fields. case_decide; [|done]. by destruct (Hf (tasks s u)) as (_&->&->&_).
  - intros Hfl u Hu. fields. case_decide; [|by apply Hfl].
    destruct (Hf (tasks s u)) as (E1&_&_&E2). rewrite E1 in Hu. rewrite E2. by apply Hfl.
Qed.

Lemma kept_refl s : kept s s.
Proof. by split. Qed.

Lemma kept_AddDependency t dep s : kept s (AddDependency t dep s).
Proof.
  unfold AddDependency, AddDepended. eapply kept_trans; [|by apply kept_upd].
  destruct (IsFinished (tasks s dep)); [apply kept_refl|]. eapply kept_trans; by apply kept_upd.
Qed.

Lemma kept_AddTrigger t dep s : kept s (AddTrigger t dep s).
Proof.
  unfold AddTrigger, AddTriggered. eapply kept_trans; [|by apply kept_upd].
  destruct (negb (IsFinished (tasks s dep))); by apply kept_upd.
Qed.

Lemma inv_make s now R fn : inv (mkConfig s now R) → inv (mkConfig (make_task fn s).2 now R).
Proof.
  intros H. assert (∀ u, u < ntasks s → tasks (make_task fn s).2 u = tasks s u) as Ho.
  { intros u Hu. cbn. by rewrite decide_False by lia. }
  assert (∀ u, u ∈ R → u < ntasks s) as HR.
  { intros u Hu. apply (ntasks_runs now R s u (i_good _ _ H)). pose proof (i_running _ _ H u Hu) as E. cbn in *. lia. }
  destruct H. cbn [st clock running] in *. split; cbn [st clock running]; [by apply good_make|done|..].
  - intros u Hu. rewrite Ho by auto. auto.
  - intros u Hu. destruct (i_timer0 u Hu) as (Hl&?&?). rewrite Ho by done. cbn. split_and!; [lia|done|done].
  - intros u HX Hu Hh. cbn in Hu, Hh. case_decide; [done|]. by apply i_waiting0.
  - intros u Hu. cbn in Hu |- *. case_decide; [done|by apply i_failed0].
Qed.

Lemma inv_SetTimeTrigger s now R t at_ :
  state_ (tasks s t) = Created → inv (mkConfig s now R) → inv (mkConfig (SetTimeTrigger t at_ s) now R).
Proof.
  intros Hc []. cbn [st clock running] in *.
  split; cbn [st clock running]; [by apply good_SetTimeTrigger|done|..]; unfold SetTimeTrigger.
  - intros u Hu. fields. case_decide; fields; by apply i_running0.
  - intros u Hu. destruct (i_timer0 u Hu) as (?&?&?). fields. by case_decide.
  - intros u HX Hu Hh. fields. case_decide; [subst; fields; congruence|]. by apply i_waiting0.
  - intros u Hu. fields. case_decide; fields; by apply i_failed0.
Qed.

Lemma inv_skip s s' now R t :
  TasksQueue_Pop s = Some (Some t, s') → IsCanceled (tasks s' t) = true →
  inv (mkConfig s now R) → inv (mkConfig s' now R).
Proof.
  unfold TasksQueue_Pop. destruct (queue s) as [|t' q] eqn:Hq; [by destruct (queue_closed s)|].
  intros [= -> <-] Hc []. cbn [st clock running] in *. apply bool_decide_eq_true in Hc.
  split; cbn [st clock running]; try done. by eapply good_skip.
Qed.

Lemma inv_start_run s s' now R t :
  TasksQueue_Pop s = Some (Some t, s') → IsCanceled (tasks s' t) = false →
  inv (mkConfig s now R) → inv (mkConfig (upd t start_run s') now (t :: R)).
Proof.
  unfold TasksQueue_Pop. destruct (queue s) as [|t' q] eqn:Hq; [by destruct (queue_closed s)|].
  intros [= -> <-] Hc []. cbn [st clock running] in *. apply bool_decide_eq_false in Hc.
  destruct (r_queue _ _ _ _ _ _ i_good0 t) as [Hr0 _]; [rewrite Hq; constructor|].
  split; cbn [st clock running].
  - by apply good_run.
  - constructor; [|done]. intros Hin. apply i_running0 in Hin. congruence.
  - intros u Hu. fields. case_decide; [subst; fields; by rewrite Hr0|].
    apply i_running0. by apply elem_of_cons in Hu as [?|?].
  - intros u Hu. destruct (i_timer0 u Hu) as (?&?&?). fields. by case_decide.
  - intros u HX Hu Hh. fields. case_decide; fields; by apply i_waiting0.
  - intros u Hu. fields. case_decide; fields; by apply i_failed0.
Qed.

(** The timer thread. *)
Lemma inv_timer s s' now R t :
  TimerQueue_Pop now s t s' → inv (mkConfig s now R) →
  inv_but (Some t) (mkConfig s' now R) ∧ t < ntasks s' ∧
  has_time_trigger_ (tasks s' t) = true ∧ (start_at_ (tasks s' t) <= now)%Z.
Proof.
  intros (q1&q2&Hq&->&Hnow&_) []. cbn [st clock running] in *. rewrite Hq in *.
  destruct (i_timer0 t) as (?&?&?); [apply elem_of_app; right; constructor|].
  split_and!; [|done|done|done]. split; cbn [st clock running]; [by apply good_timer|done|done|..|done]; fields.
  - intros u Hu. apply i_timer0. rewrite elem_of_app in *. rewrite elem_of_cons. tauto.
  - intros u HX Hu Hh. specialize (i_waiting0 u ltac:(done) Hu Hh).
    rewrite elem_of_app in *. rewrite elem_of_cons in i_waiting0.
    destruct i_waiting0 as [?|[->|?]]; [tauto|done|tauto].
Qed.

Lemma inv_weaken_timer s now R t :
  inv_but (Some t) (mkConfig s now R) → state_ (tasks s t) ≠ Submitted → inv (mkConfig s now R).
Proof.
  intros [] Hs. cbn [st clock running] in *. split; try done; cbn [st clock running].
  intros u _ Hu. apply i_waiting0; [congruence|done].
Qed.

Lemma inv_timer_enque s s' now R t :
  TimerQueue_Pop now s t s' → inv (mkConfig s now R) →
  ∃ s'', Enque t s' = Ok s'' ∧ inv (mkConfig s'' now R).
Proof.
  intros Hp H. destruct (inv_timer s s' now R t Hp H) as (H1&Ht&Hh&Hnow).
  destruct (enque_ok now R Cancel (ntasks s') _ _ s' t (cancel_cancels now R _)
    (mid_weaken _ _ _ _ _ _ (i_good _ _ H1))) as (s''&He&C&Hsub&Hnot).
  - intros _. right; right; right. done.
  - apply submitted_le.
  - exists s''. split; [done|]. cbn [st] in *.
    destruct (decide (state_ (tasks s' t) = Submitted)) as [Hs|Hs].
    + destruct (Hsub Hs) as [Hm Hst]. apply (inv_weaken_timer _ _ _ t); [|done].
      eapply inv_kept; [exact H1|done|by eapply cascade_kept].
    + rewrite (Hnot Hs). by apply (inv_weaken_timer _ _ _ t).
Qed.

Lemma executor_inv_step c c' : inv c → step c c' → inv c'.
Proof.
  intros H Hstep. destruct Hstep as [fn s now rs|t dep s now rs Hc Ht Hd Hl|t dep s now rs Hc Ht Hd
    |t at_ s now rs Hc Ht|t s s' now rs Ht Hs|t s s' now rs Ht Hs|s s' now rs Hs|s now now' rs Hn
    |t s s' now rs Hp Hc|t s s' now rs Hp Hc|t r s s' now rs1 rs2 Hr Hf|t s s' now rs Hp Hc
    |t s s' s'' now rs Hp Hc He].
  - by apply inv_make.
  - eapply inv_kept; [exact H|apply good_AddDependency; try done; exact (i_good _ _ H)|apply kept_AddDependency].
  - eapply inv_kept; [exact H|apply good_AddTrigger; try done; exact (i_good _ _ H)|apply kept_AddTrigger].
  - by apply inv_SetTimeTrigger.
  - destruct (inv_Submit s now rs t Ht H) as (?&E&?). rewrite Hs in E. by injection E as <-.
  - destruct (inv_Cancel s now rs t Ht H) as (?&E&?). rewrite Hs in E. by injection E as <-.
  - destruct (inv_StartShutdown s now rs H) as (?&E&?). rewrite Hs in E. by injection E as <-.
  - destruct H. split; try done. by eapply good_tick.
  - by eapply inv_skip.
  - by eapply inv_start_run.
  - destruct (inv_finish s now rs1 rs2 t r H) as (?&E&?&_); [|rewrite Hf in E; by injection E as <-].
    intros f ->. destruct f; try done. by eexists.
  - destruct (inv_timer s s' now rs t Hp H) as (H1&_). apply (inv_weaken_timer _ _ _ t); [done|].
    apply bool_decide_eq_true in Hc. congruence.
  - destruct (inv_timer_enque s s' now rs t Hp H) as (?&E&?). rewrite He in E. by injection E as <-.
Qed.

Lemma executor_inv_reachable c : reachable init step c → inv c.
Proof.
  apply invariant_reachable; [|apply executor_inv_step]. intros c0 ->. cbn [clock].
  split; cbn [st clock running]; try done; try (by intros ? ?%elem_of_nil); [|constructor].
  split; try done; try (by intros ? ?%elem_of_nil); try (cbn; lia || constructor).
  all: intros; cbn in *; try done; try tauto; try lia.
  all: match goal with
    | H : _ ∈ [] |- _ => by apply elem_of_nil in H
    | H : 0 ≠ 0 |- _ => by destruct H
    end.
Qed.

(** ** Properties *)

(** *** Submission

    A history: the configurations before the last one. *)
Inductive run : list config → config → Prop :=
| run_init c : init c → run [] c
| run_step cs c c' : run cs c → step c c' → run (cs ++ [c]) c'.

(** The step from [c] to [c'] is a call [Submit t]. *)
Definition submit_call (t : nat) (c c' : config) : Prop :=
  t < ntasks (st c) ∧ ∃ s', Submit t (st c) = Ok s' ∧ c' = mkConfig s' (clock c) (running c).

Lemma run_reachable cs c : run cs c → reachable init step c.
Proof. induction 1; [by apply reachable_init|by eapply reachable_step]. Qed.

(** What a call other than [Submit] may do: [queue_] is not set, and only a task that has it
    is pushed. *)
Record quiet (s s' : store) : Prop := {
  q_flag : ∀ u, queue_ (tasks s' u) = queue_ (tasks s u);
  q_runs : ∀ u, runs (tasks s' u) = runs (tasks s u);
  q_queue : ∀ u, u ∈ queue s' → u ∈ queue s ∨ queue_ (tasks s u) = true
}.

Lemma quiet_refl s : quiet s s.
Proof. split; auto. Qed.

Lemma quiet_trans a b c : quiet a b → quiet b c → quiet a c.
Proof.
  intros [f1 r1 q1] [f2 r2 q2]. split; [congruence..|]. intros u Hu. destruct (q2 u Hu) as [?|E]; [auto|].
  right. by rewrite <-f1.
Qed.

Lemma quiet_upd t f s :
  (∀ x, queue_ (f x) = queue_ x ∧ runs (f x) = runs x) → quiet s (upd t f s).
Proof. intros Hf. split; [| |auto]; intros u; fields; case_decide; try done; apply Hf. Qed.

(** The updates of a field. *)
Ltac quiet := repeat first [apply quiet_refl | eapply quiet_trans; [|apply quiet_upd; done]].

Definition quietly (call : store → outcome store) : Prop := ∀ s s', call s = Ok s' → quiet s s'.

Lemma quietly_forO {A} (f : A → store → outcome store) l : (∀ x, quietly (f x)) → quietly (forO f l).
Proof.
  intros Hf. induction l as [|x l IH]; intros s s' H; cbn [forO] in H.
  - injection H as <-. apply quiet_refl.
  - apply bindO_inv in H as (s1&H1&H2). eapply quiet_trans; [by eapply Hf|by apply IH].
Qed.

Section QuietCalls.
Context (cancel : nat → store → outcome store) (Hcancel : ∀ t, quietly (cancel t)).

Lemma quiet_TryToEnque d : quietly (TryToEnque_with cancel d) ∧ quietly (Enque_with cancel d).
Proof.
  assert (quietly (Enque_with cancel d)) as He.
  { intros s s'. unfold Enque_with. destruct (queue_ (tasks s d)) eqn:Eq; [|intros [= <-]; apply quiet_refl].
    case_decide; [|intros [= <-]; apply quiet_refl]. unfold Push_with.
    set (s1 := upd d clear_inputs _). assert (quiet s s1) as Q by quiet.
    destruct (negb _); [|intros Hcan; eapply quiet_trans; [exact Q|by eapply Hcancel]]. intros [= <-].
    destruct Q as [f r q]. split; [done..|]. intros u Hu. fields. apply elem_of_app in Hu as [?|Hu%list_elem_of_singleton]; [by left|].
    subst u. by right. }
  split; [|done]. intros s s'. unfold TryToEnque_with. case_decide; [intros [= <-]; apply quiet_refl|].
  destruct (IsReadyToEnque _); [apply He|intros [= <-]; apply quiet_refl].
Qed.

Lemma quiet_OnFinished t : quietly (OnFinished_with cancel t).
Proof.
  intros s s' H. unfold OnFinished_with in H. apply bindO_inv in H as (s1&H1&H). cbv zeta in H.
  apply bindO_inv in H as (s2&H2&H). injection H as <-.
  assert (quiet s s1) as Q1.
  { revert H1. apply quietly_forO. intros d x x' Hx. unfold notify_depended in Hx.
    apply quiet_TryToEnque in Hx. eapply quiet_trans; [|exact Hx]. quiet. }
  assert (quiet (upd t (set_depended []) s1) s2) as Q2.
  { revert H2. apply quietly_forO. intros d x x' Hx. unfold notify_triggered in Hx.
    apply quiet_TryToEnque in Hx. eapply quiet_trans; [|exact Hx]. quiet. }
  quiet. eapply quiet_trans; [|exact Q2]. quiet. exact Q1.
Qed.
End QuietCalls.

Lemma quiet_Cancel t : quietly (Cancel t).
Proof.
  intros s s'. unfold Cancel. generalize (S (ntasks s)) as fuel. intros fuel. revert t s s'.
  induction fuel as [|fuel IH]; intros t s s' H; cbn in H; [done|]. apply quiet_OnFinished in H; [|done].
  eapply quiet_trans; [|exact H]. quiet.
Qed.

Lemma quiet_finish t r : quietly (finish t r).
Proof.
  intros s s' H. destruct r as [v|[e| | |]]; cbn in H; try done; apply (quiet_OnFinished _ quiet_Cancel) in H;
    (eapply quiet_trans; [|exact H]); unfold SetError; quiet.
Qed.

Lemma quiet_StartShutdown : quietly StartShutdown.
Proof.
  intros s s' H. unfold StartShutdown in H. apply bindO_inv in H as (s1&H1&H2).
  eapply quiet_trans with s1.
  - unfold TasksQueue_Close in H1. destruct (queue_closed s); [injection H1 as <-; apply quiet_refl|].
    apply (quietly_forO _ _ quiet_Cancel) in H1. destruct H1. split; auto.
  - unfold TimerQueue_Close in H2. destruct (timer_closed s1); [injection H2 as <-; apply quiet_refl|].
    apply (quietly_forO _ _ quiet_Cancel) in H2. destruct H2. split; auto.
Qed.

(** [Submit] sets the [queue_] of its task. *)
Lemma quiet_Submit t s s' : Submit t s = Ok s' → quiet (upd t set_queue s) s'.
Proof.
  intros H. unfold Submit in H. apply bindO_inv in H as (s1&H1&H2). apply quiet_trans with s1.
  - unfold Task_Submit in H1. cbv zeta in H1. case_decide; [|injection H1 as <-; apply quiet_refl].
    apply quiet_TryToEnque in H1; [|apply quiet_Cancel]. eapply quiet_trans; [|exact H1]. quiet.
  - cbv zeta in H2. destruct (negb _ && _); [|injection H2 as <-; apply quiet_refl]. unfold TimerQueue_Push in H2.
    destruct (negb _); [|by apply quiet_Cancel in H2]. injection H2 as <-. split; auto.
Qed.

(** A task that is in the queue or was run has been submitted. *)
Definition flagged (s : store) : Prop :=
  ∀ u, u ∈ queue s ∨ runs (tasks s u) ≠ 0 → queue_ (tasks s u) = true.

Lemma flagged_quiet s s' : quiet s s' → flagged s → flagged s'.
Proof.
  intros [f r q] H u Hu. rewrite f. rewrite r in Hu. destruct Hu as [Hu|Hu]; [destruct (q u Hu) as [?|?]; auto|auto].
Qed.

Lemma flagged_set_queue t s : flagged s → flagged (upd t set_queue s).
Proof. intros H u Hu. fields. case_decide; fields; [done|]. by apply H. Qed.

(** Between two configurations that differ by a quiet call. *)
Lemma quiet_step (c c' : config) :
  quiet (st c) (st c') → flagged (st c) →
  flagged (st c') ∧ ∀ u, queue_ (tasks (st c') u) = true → queue_ (tasks (st c) u) = true ∨ submit_call u c c'.
Proof.
  intros Hq Hf. split; [by eapply flagged_quiet|]. intros u Hu. left. by rewrite <-(q_flag _ _ Hq).
Qed.

Lemma flagged_step c c' :
  inv c → step c c' → flagged (st c) →
  flagged (st c') ∧ ∀ u, queue_ (tasks (st c') u) = true → queue_ (tasks (st c) u) = true ∨ submit_call u c c'.
Proof.
  intros Hi Hstep Hf. destruct Hstep as [fn s now rs|t dep s now rs Hc Ht Hd Hl|t dep s now rs Hc Ht Hd
    |t at_ s now rs Hc Ht|t s s' now rs Ht Hs|t s s' now rs Ht Hs|s s' now rs Hs|s now now' rs Hn
    |t s s' now rs Hp Hc|t s s' now rs Hp Hc|t r s s' now rs1 rs2 Hr Hfi|t s s' now rs Hp Hc
    |t s s' s'' now rs Hp Hc He].
  - split.
    + intros u Hu. cbn in *. case_decide as E; [|by apply Hf]. subst u. destruct Hu as [Hu|Hu]; [|by destruct Hu].
      apply (queue_range _ _ _ _ (i_good _ _ Hi)) in Hu. cbn in Hu. lia.
    + intros u Hu. cbn in *. case_decide; [done|]. by left.
  - apply quiet_step; [|done]. cbn [st] in *. unfold AddDependency, AddDepended. destruct (IsFinished _); quiet.
  - apply quiet_step; [|done]. cbn [st] in *. unfold AddTrigger, AddTriggered. destruct (negb _); quiet.
  - apply quiet_step; [|done]. cbn [st] in *. unfold SetTimeTrigger. quiet.
  - cbn [st] in *. apply quiet_Submit in Hs as Hq. split; [eapply flagged_quiet; [exact Hq|by apply flagged_set_queue]|].
    intros u Hu. rewrite (q_flag _ _ Hq) in Hu. fields. case_decide as E; [|by left]. right. subst u. split; [done|]. by exists s'.
  - apply quiet_step; [|done]. cbn [st] in *. by eapply quiet_Cancel.
  - apply quiet_step; [|done]. cbn [st] in *. by eapply quiet_StartShutdown.
  - apply quiet_step; [|done]. cbn [st] in *. apply quiet_refl.
  - apply quiet_step; [|done]. cbn [st] in *. unfold TasksQueue_Pop in Hp. destruct (queue s) as [|x q] eqn:E; [by destruct (queue_closed s)|].
    injection Hp as -> <-. split; [done..|]. intros u Hu. left. fields. rewrite E. by constructor.
  - cbn [st] in *. unfold TasksQueue_Pop in Hp. destruct (queue s) as [|x q] eqn:E; [by destruct (queue_closed s)|]. injection Hp as -> <-.
    split.
    + intros u Hu. fields. assert (queue_ (tasks s t) = true) as Ht by (apply Hf; left; rewrite E; constructor).
      case_decide as Eu; subst; fields; [done|]. apply Hf. destruct Hu as [Hu|Hu]; [left; rewrite E; by constructor|by right].
    + intros u Hu. left. fields. by case_decide.
  - apply quiet_step; [|done]. cbn [st] in *. by eapply quiet_finish.
  - apply quiet_step; [|done]. cbn [st] in *. destruct Hp as (q1&q2&_&->&_). split; auto.
  - apply quiet_step; [|done]. cbn [st] in *. destruct Hp as (q1&q2&_&->&_). apply quiet_TryToEnque in He; [|apply quiet_Cancel].
    destruct He. split; auto.
Qed.

Lemma run_flagged cs c : run cs c → flagged (st c).
Proof.
  induction 1 as [c ->|cs c c' Hr IH Hs]; [cbn; by intros u [Hu%elem_of_nil|[]]|].
  by apply (flagged_step c c' (executor_inv_reachable c (run_reachable _ _ Hr)) Hs).
Qed.

Lemma submit_runs t s s' : Submit t s = Ok s' → runs (tasks s' t) = runs (tasks s t).
Proof. intros Hq%quiet_Submit. rewrite (q_runs _ _ Hq). fields. by case_decide. Qed.

(** A task with [queue_] was submitted, and had not been run then. *)
Lemma run_submitted cs c t :
  run cs c → queue_ (tasks (st c) t) = true →
  ∃ cs1 a b cs2, cs ++ [c] = cs1 ++ a :: b :: cs2 ∧ submit_call t a b ∧ runs (tasks (st b) t) = 0.
Proof.
  induction 1 as [c ->|cs c c' Hr IH Hs]; [done|]. intros Hq.
  destruct (queue_ (tasks (st c) t)) eqn:Eq.
  - destruct (IH eq_refl) as (cs1&a&b&cs2&E&?&?). exists cs1, a, b, (cs2 ++ [c']). split; [|done].
    rewrite E, <-app_assoc. done.
  - destruct (flagged_step c c' (executor_inv_reachable c (run_reachable _ _ Hr)) Hs (run_flagged _ _ Hr)) as [_ H].
    destruct (H t Hq) as [?|Hc]; [congruence|]. exists cs, c, c', []. split_and!; [by rewrite <-app_assoc|done|].
    destruct Hc as (Ht&s'&Hsub&->). cbn [st]. rewrite (submit_runs _ _ _ Hsub).
    destruct (decide (runs (tasks (st c) t) = 0)) as [|Hn]; [done|]. rewrite (run_flagged _ _ Hr t) in Eq; [done|by right].
Qed.

(** C1 In every history of calls, a task is run at most once; if it was run, there was a call
    of [Submit] for it before, when it had not been run yet; and it may start: it has no
    conditions, or it has dependencies and all of them have finished, or one of its triggers
    has finished, or its time has come.  Nor is there a task in the queue without a call of
    [Submit] for it before. *)
Theorem executor_starts_rightly (cs : list config) (c : config) (t : nat) :
  run cs c →
  runs (tasks (st c) t) ≤ 1 ∧
  (runs (tasks (st c) t) = 1 → may_start (clock c) (st c) t ∧ ¬ pend (st c) t) ∧
  (runs (tasks (st c) t) = 1 ∨ t ∈ queue (st c) →
    ∃ cs1 a b cs2, cs ++ [c] = cs1 ++ a :: b :: cs2 ∧ submit_call t a b ∧ runs (tasks (st b) t) = 0).
Proof.
  intros Hc. pose proof (i_good _ _ (executor_inv_reachable c (run_reachable _ _ Hc))) as H. split_and!; [apply (r_runs _ _ _ _ _ _ H)| |].
  - intros Hr. split.
    + apply (r_start _ _ _ _ _ _ H). right. lia.
    + intros Hp. apply (r_pend _ _ _ _ _ _ H) in Hp. lia.
  - intros Hr. apply (run_submitted _ _ _ Hc), (run_flagged _ _ Hc). destruct Hr as [Hr|Hr]; [right; lia|by left].
Qed.

(** The dependents of a task are still there while it is not finished. *)
Lemma unfinished_dependency now R s t :
  good now R s → pend s t → dependecies_cnt_ (tasks s t) ≠ 0%Z →
  ∃ d, d ∈ added_dependencies (tasks s t) ∧ ¬ fin s d.
Proof.
  intros H Hp Hc. rewrite (r_cnt _ _ _ _ _ _ H) in Hc.
  assert (∀ l, sum_list_with (λ u, occ (depended_ (tasks s u)) t) l ≠ 0 →
    ∃ u, occ (depended_ (tasks s u)) t ≠ 0) as Hex.
  { induction l as [|u l IH]; cbn [sum_list_with]; [done|]. intros Hs. destruct (decide (occ (depended_ (tasks s u)) t = 0)); [|eauto].
    apply IH. lia. }
  destruct (Hex (seq 0 (ntasks s))) as [u Hu].
  { intros E. apply Hc. change (pending (λ _, 0) s t)
      with (sum_list_with (λ u, occ (depended_ (tasks s u)) t) (seq 0 (ntasks s))). by rewrite E. }
  assert (¬ fin s u) as Hnf.
  { intros Hf. destruct (r_fin _ _ _ _ _ _ H u Hf) as [E _]; [by apply not_elem_of_nil|]. by rewrite E in Hu. }
  exists u. split; [|done]. rewrite (r_dep _ _ _ _ _ _ H u t Hp Hnf) in Hu.
  apply list_elem_of_In, (count_occ_In Nat.eq_dec). lia.
Qed.

(** C2 No task is forgotten: a task that was enqueued is in the queue or being run;
    a task that was submitted and not enqueued waits for something, namely it has
    an unfinished dependency if it has dependencies, none of its triggers has
    finished, it is in the timer queue if it has a time trigger, and it has one of
    the three. *)
Theorem executor_forgets_nothing (c : config) (t : nat) :
  reachable init step c → let s := st c in let x := tasks s t in
  (state_ x = Enqueued → t ∈ queue s ∨ t ∈ running c) ∧
  (state_ x = Submitted →
    (added_dependencies x ≠ [] → ∃ d, d ∈ added_dependencies x ∧ ¬ fin s d) ∧
    (∀ d, d ∈ added_triggers x → ¬ fin s d) ∧
    (has_time_trigger_ x = true → t ∈ timer s) ∧
    ¬ (added_dependencies x = [] ∧ added_triggers x = [] ∧ has_time_trigger_ x = false)).
Proof.
  intros Hc s x. pose proof (executor_inv_reachable c Hc) as Hi. pose proof (i_good _ _ Hi) as H.
  split; [apply (r_enq _ _ _ _ _ _ H)|]. intros Hs. fold s in H.
  pose proof (r_ready _ _ _ _ _ _ H t ltac:(done) Hs) as Hr. destruct (r_has _ _ _ _ _ _ H t) as [Hd Ht].
  fold x in Hr, Hd, Ht. unfold IsReadyToEnque in Hr.
  destruct (has_triggers_ x && triggers_activated_ x) eqn:E1; [done|].
  destruct (has_dependencies_ x && (dependecies_cnt_ x =? 0)%Z) eqn:E2; [done|].
  assert (pend s t) as Hp by (by right). split_and!.
  - intros Hne. apply (unfinished_dependency _ _ _ _ H Hp). fold x. intros Hz.
    rewrite Hd, Hz, bool_decide_true in E2 by done. done.
  - intros d Hin Hf. assert (triggers_activated_ x = true) as Ha.
    { destruct (r_trig _ _ _ _ _ _ H d t Hp Hin) as [?|Hq]; [done|].
      destruct (r_fin _ _ _ _ _ _ H d Hf) as [_ E]; [by apply not_elem_of_nil|]. rewrite E in Hq.
      by apply elem_of_nil in Hq. }
    rewrite Ht, Ha, bool_decide_true in E1; [done|]. intros E. rewrite E in Hin. by apply elem_of_nil in Hin.
  - intros Hh. by apply (i_waiting _ _ Hi).
  - intros (E&E'&E''). rewrite E in Hd. rewrite E' in Ht. by rewrite Ht, Hd, E'' in Hr.
Qed.

(** The recursion of the calls is bounded: in every reachable state, whatever the graph of
    dependencies, the calls that submitting, cancelling, shutting down and finishing a task
    that is being run make to each other come to an end, the chains of cancellations in a
    closed queue included, and no exception pointer is missing.  This is of calls that do
    not wait for a mutex: [edit_task_] and [edit_queue_] are taken in both orders, so that
    a concurrent [Cancel] and [StartShutdown] can block each other. *)
Theorem executor_calls_return (c : config) (t : nat) :
  reachable init step c → t < ntasks (st c) →
  (∃ s', Submit t (st c) = Ok s') ∧ (∃ s', Cancel t (st c) = Ok s') ∧
  (∃ s', StartShutdown (st c) = Ok s') ∧
  (t ∈ running c → ∀ r, Run (st c) t = Some r → ∃ s', finish t r (st c) = Ok s').
Proof.
  intros Hc Ht. pose proof (executor_inv_reachable c Hc) as Hi. destruct c as [s now R]. cbn [st running] in *.
  split_and!.
  - destruct (inv_Submit s now R t Ht Hi) as (s'&?&_). by exists s'.
  - destruct (inv_Cancel s now R t Ht Hi) as (s'&?&_). by exists s'.
  - destruct (inv_StartShutdown s now R Hi) as (s'&?&_). by exists s'.
  - intros (R1&R2&->)%list_elem_of_split r Hr. destruct (inv_finish s now R1 R2 t r Hi) as (s'&?&_); [|by exists s'].
    intros f ->.
    assert (∀ u f, Get s u = Some (Fail f) → ∃ e, f = Exn e) as Hget.
    { intros u g. unfold Get. destruct (negb _); [done|]. destruct (IsCompleted (tasks s u)); [done|].
      destruct (IsFailed (tasks s u)) eqn:E; [|done]. apply bool_decide_eq_true in E.
      pose proof (i_failed _ _ Hi u E) as Hexc. cbn [st] in Hexc. destruct (exc_ptr_ (tasks s u)); [|by destruct Hexc]. intros [= <-]. by eexists. }
    assert (∀ all res g, collect s all res = Some (Fail g) → ∃ e, g = Exn e) as Hcol.
    { induction all as [|u all IH]; intros res g; cbn; [done|].
      destruct (Get s u) as [[v|h]|] eqn:E; [apply IH| |done]. intros [= <-]. eauto. }
    unfold Run in Hr. destruct (func_ (tasks s t)) as [[v|e]|all|all|all]; try done; eauto.
    + injection Hr as <-. by eexists.
    + clear -Hr Hget. induction all as [|u all IH]; cbn [first_finished] in Hr; [done|].
      destruct (IsFinished (tasks s u)); eauto.
Qed.

(** Once every input has finished, collecting does not wait, and gives the results
    if all of them completed. *)
Lemma collect_finished s all res :
  (∀ d, d ∈ all → fin s d) →
  collect s all res ≠ None ∧
  ((∀ d, d ∈ all → state_ (tasks s d) = Completed) →
    collect s all res = Some (Ok (Vec (res ++ map (λ d, result_ (tasks s d)) all)))).
Proof.
  revert res. induction all as [|d all IH]; intros res Hf; cbn [collect map]; [by rewrite app_nil_r|].
  assert (fin s d) as Hd by (apply Hf; constructor).
  assert (∀ u, u ∈ all → fin s u) as Hall by (intros u Hu; apply Hf; by constructor).
  unfold Get. rewrite (Hd : IsFinished (tasks s d) = true). cbn [negb]. split.
  - destruct (IsCompleted (tasks s d)); [by apply IH|].
    destruct (IsFailed (tasks s d)); [by destruct (exc_ptr_ (tasks s d))|by apply IH].
  - intros Hc. unfold IsCompleted. rewrite bool_decide_true by (apply Hc; constructor).
    destruct (IH (res ++ [result_ (tasks s d)]) Hall) as [_ E].
    rewrite E; [by rewrite <- app_assoc|]. intros u Hu. apply Hc. by constructor.
Qed.

(** What [WhenAll] makes of a task: its body and its dependencies. *)
Definition is_when_all (s : store) (t : nat) (all : list nat) : Prop :=
  let x := tasks s t in
  func_ x = GetAll all ∧ added_dependencies x = all ∧ added_triggers x = [] ∧ has_time_trigger_ x = false.

Lemma cascade_when_all T s s' t all : cascade T s s' → is_when_all s t all → is_when_all s' t all.
Proof.
  intros [] (?&?&?&?). destruct (c_static0 t) as (?&?&?&?&?&?&?). unfold is_when_all. split_and!; congruence.
Qed.

(** The task after adding the dependencies in a loop. *)
Lemma add_all_steps now R s t pre ids :
  t < ntasks s → state_ (tasks s t) = Created → func_ (tasks s t) = GetAll (pre ++ ids) →
  added_dependencies (tasks s t) = pre → added_triggers (tasks s t) = [] →
  has_time_trigger_ (tasks s t) = false →
  (∀ d, d ∈ ids → d < ntasks s) → (Z.of_nat (length (pre ++ ids)) < 2 ^ 64)%Z →
  let s' := foldl (λ s fut, AddDependency t fut s) s ids in
  rtc step (mkConfig s now R) (mkConfig s' now R) ∧ t < ntasks s' ∧
  state_ (tasks s' t) = Created ∧ is_when_all s' t (pre ++ ids).
Proof.
  revert s pre. induction ids as [|d ids IH]; intros s pre Ht Hc Hf Ha Htr Hh Hr Hl; cbn [foldl].
  { rewrite app_nil_r in *. split; [done|]. by split_and!. }
  destruct (AddDependency_same t d s t) as (Hn&_&_&E1&_&_&_&_&E6&_&E8&_). cbv zeta in Hn, E1, E6, E8.
  destruct (AddDependency_added t d s t) as (A1&_). cbv zeta in A1. rewrite decide_True in A1 by done.
  assert (func_ (tasks (AddDependency t d s) t) = func_ (tasks s t)) as Hf'.
  { unfold AddDependency, AddDepended. destruct (IsFinished (tasks s d)); fields; by repeat case_decide. }
  assert (pre ++ d :: ids = (pre ++ [d]) ++ ids) as Hassoc by (by rewrite <- app_assoc).
  destruct (IH (AddDependency t d s) (pre ++ [d])) as (H1&H2&H3&H4); rewrite ?Hn, ?E1, ?E6, ?E8, ?Hf', ?A1; try done.
  - by rewrite Hf, Hassoc.
  - by rewrite Ha.
  - intros u Hu. apply Hr. by constructor.
  - by rewrite <- Hassoc.
  - rewrite Hassoc. split; [|done]. eapply rtc_l; [|exact H1]. apply step_AddDependency; [done|done| |].
    + apply Hr. constructor.
    + rewrite Ha. rewrite length_app in Hl. cbn [length] in Hl. lia.
Qed.

Lemma submit_when_all s now R t all s' :
  inv (mkConfig s now R) → state_ (tasks s t) = Created → t < ntasks s → is_when_all s t all →
  Submit t s = Ok s' → is_when_all s' t all.
Proof.
  intros Hi Hc Ht Hw. unfold Submit, Task_Submit. cbv zeta.
  assert (state_ (tasks (upd t set_queue s) t) = Created) as Hq by (fields; by rewrite decide_True).
  rewrite decide_True by done.
  pose proof (mid_submitted now R t s Hc Ht (i_good _ _ Hi)) as Hm.
  set (s1 := upd t (set_state Submitted) (upd t set_queue s)) in *.
  destruct (try_ok now R Cancel (ntasks s) _ _ s1 t (cancel_cancels now R _) Hm) as (s2&Hs2&_&C);
    [apply (submitted_le s1)|].
  unfold TryToEnque. rewrite Hs2. cbn [bindO].
  assert (is_when_all s2 t all) as H2.
  { eapply cascade_when_all; [exact C|]. unfold is_when_all, s1. fields. by rewrite !decide_True. }
  destruct H2 as (E1&E2&E3&E4). rewrite E4, andb_false_r. by intros [= <-].
Qed.

(** [WhenAll]: the future it returns is reached by the steps of the executor, and
    when that task is run all the given futures have finished, so that no [Get] in
    it waits; if they completed its value is the vector of their values, in the
    order given. *)
Theorem when_all_collects (c : config) (all : list nat) :
  reachable init step c → (∀ d, d ∈ all → d < ntasks (st c)) → (Z.of_nat (length all) < 2 ^ 64)%Z →
  (∃ t s', WhenAll all (st c) = Ok (t, s') ∧ is_when_all s' t all ∧
    reachable init step (mkConfig s' (clock c) (running c))) ∧
  (∀ t, t ∈ running c → is_when_all (st c) t all →
    Run (st c) t ≠ None ∧
    ((∀ d, d ∈ all → state_ (tasks (st c) d) = Completed) →
      Run (st c) t = Some (Ok (Vec (map (λ d, result_ (tasks (st c) d)) all))))).
Proof.
  intros Hc Hr Hl. split.
  - destruct c as [s now R]. cbn [st clock running] in *. set (s0 := (make_task (GetAll all) s).2).
    assert (reachable init step (mkConfig s0 now R)) as Hc0 by (eapply reachable_step; [exact Hc|constructor]).
    assert (tasks s0 (ntasks s) = new_task (GetAll all)) as Hnew by (cbn; by rewrite decide_True).
    destruct (add_all_steps now R s0 (ntasks s) [] all) as (Hs&Ht&Hst&Hw); rewrite ?Hnew; try done.
    { cbn. lia. }
    { intros d Hd. specialize (Hr d Hd). cbn. lia. }
    cbn [app] in *. set (s1 := foldl _ s0 all) in *.
    assert (reachable init step (mkConfig s1 now R)) as Hc1.
    { destruct Hc0 as (c0&?&?). exists c0. split; [done|]. by etrans. }
    destruct (inv_Submit s1 now R (ntasks s) Ht (executor_inv_reachable _ Hc1)) as (s2&Hs2&_).
    exists (ntasks s), s2. unfold WhenAll. change (make_task (GetAll all) s) with (ntasks s, s0).
    cbv iota. fold s1. rewrite Hs2. split; [done|]. split.
    + eapply submit_when_all; [by apply executor_inv_reachable|done|done|exact Hw|done].
    + eapply reachable_step; [exact Hc1|]. by econstructor.
  - intros t Ht (Hf&Ha&Htr&Hh). pose proof (executor_inv_reachable c Hc) as Hi.
    pose proof (i_running _ _ Hi t Ht) as Hrun. unfold Run. rewrite Hf. apply collect_finished. intros d Hd.
    destruct (r_start _ _ _ _ _ _ (i_good _ _ Hi) t) as [(E&_)|[[_ Hall]|[(u&Hu&_)|(E&_)]]]; [right; lia|..].
    + rewrite <- Ha, E in Hd. by apply elem_of_nil in Hd.
    + apply Hall. by rewrite Ha.
    + rewrite Htr in Hu. by apply elem_of_nil in Hu.
    + congruence.
Qed.

(** ** Running the model

    Operations as data, executed one after another: what they reach is reachable. *)

Inductive op : Type :=
| OMake (fn : body)
| ODependency (t dep : nat)
| OTrigger (t dep : nat)
| OTime (t : nat) (at_ : Z)
| OSubmit (t : nat)
| OCancel (t : nat)
| OShutdown
| OTick (d : nat)
| OPop
| OFinish.

Definition on_store (c : config) (o : outcome store) : option config :=
  match o with Ok s => Some (mkConfig s (clock c) (running c)) | Fail _ => None end.

(** [OFinish] ends the task that was started last. *)
Definition exec_op (c : config) (o : op) : option config :=
  let s := st c in
  match o with
  | OMake fn => Some (mkConfig (make_task fn s).2 (clock c) (running c))
  | ODependency t dep =>
      if decide (state_ (tasks s t) = Created ∧ t < ntasks s ∧ dep < ntasks s ∧
                 (Z.of_nat (length (added_dependencies (tasks s t))) + 1 < 2 ^ 64)%Z)
      then Some (mkConfig (AddDependency t dep s) (clock c) (running c)) else None
  | OTrigger t dep =>
      if decide (state_ (tasks s t) = Created ∧ t < ntasks s ∧ dep < ntasks s)
      then Some (mkConfig (AddTrigger t dep s) (clock c) (running c)) else None
  | OTime t at_ =>
      if decide (state_ (tasks s t) = Created ∧ t < ntasks s)
      then Some (mkConfig (SetTimeTrigger t at_ s) (clock c) (running c)) else None
  | OSubmit t => if decide (t < ntasks s) then on_store c (Submit t s) else None
  | OCancel t => if decide (t < ntasks s) then on_store c (Cancel t s) else None
  | OShutdown => on_store c (StartShutdown s)
  | OTick d => Some (mkConfig s (clock c + Z.of_nat d) (running c))
  | OPop =>
      match TasksQueue_Pop s with
      | Some (Some t, s') =>
          if IsCanceled (tasks s' t) then Some (mkConfig s' (clock c) (running c))
          else Some (mkConfig (upd t start_run s') (clock c) (t :: running c))
      | _ => None
      end
  | OFinish =>
      match running c with
      | [] => None
      | t :: rs =>
          match Run s t with
          | Some r =>
              match finish t r s with Ok s' => Some (mkConfig s' (clock c) rs) | Fail _ => None end
          | None => None
          end
      end
  end.

Fixpoint exec_ops (c : config) (os : list op) : option config :=
  match os with
  | [] => Some c
  | o :: os => match exec_op c o with Some c' => exec_ops c' os | None => None end
  end.

Lemma exec_op_step c o c' : exec_op c o = Some c' → step c c'.
Proof.
  destruct c as [s now R]. unfold exec_op, on_store. cbn [st clock running].
  destruct o as [fn|t dep|t dep|t at_|t|t| |d| |].
  - intros [= <-]. constructor.
  - case_decide as H; [|done]. intros [= <-]. destruct H as (?&?&?&?). by constructor.
  - case_decide as H; [|done]. intros [= <-]. destruct H as (?&?&?). by constructor.
  - case_decide as H; [|done]. intros [= <-]. destruct H as (?&?). by constructor.
  - case_decide; [|done]. destruct (Submit t s) eqn:E; [|done]. intros [= <-]. by econstructor.
  - case_decide; [|done]. destruct (Cancel t s) eqn:E; [|done]. intros [= <-]. by econstructor.
  - destruct (StartShutdown s) eqn:E; [|done]. intros [= <-]. by econstructor.
  - intros [= <-]. constructor. lia.
  - destruct (TasksQueue_Pop s) as [[[t|] s']|] eqn:E; [|done|done].
    destruct (IsCanceled (tasks s' t)) eqn:E'; intros [= <-]; by econstructor.
  - destruct R as [|t R]; [done|]. destruct (Run s t) as [r|] eqn:E; [|done].
    destruct (finish t r s) eqn:E'; [|done]. intros [= <-]. by apply (step_worker_finish t r s _ now [] R).
Qed.

Lemma exec_ops_reachable c os c' :
  reachable init step c → exec_ops c os = Some c' → reachable init step c'.
Proof.
  revert c. induction os as [|o os IH]; intros c Hc; cbn [exec_ops]; [by intros [= <-]|].
  destruct (exec_op c o) as [c1|] eqn:E; [|done]. apply IH.
  eapply reachable_step; [exact Hc|]. by apply (exec_op_step _ o).
Qed.

Definition start (now : Z) : config :=
  mkConfig (mkStore (λ _, new_task (Fn (inl Default))) 0 [] false [] false) now [].

Lemma start_reachable now : reachable init step (start now).
Proof. by apply reachable_init. Qed.

(** What a list of operations reaches, read by [f]. *)
Lemma exec_ops_read {A} now os (f : config → A) a :
  option_map f (exec_ops (start now) os) = Some a → ∃ c, reachable init step c ∧ f c = a.
Proof.
  destruct (exec_ops (start now) os) as [c|] eqn:E; [|done]. intros [= <-]. exists c. split; [|done].
  eapply exec_ops_reachable; [apply start_reachable|exact E].
Qed.

(** Two tasks, the second of which depends on the first and has a deadline: both
    are run. *)
Definition two_tasks : list op :=
  [OMake (Fn (inl (Int 1))); OMake (Fn (inl (Int 7))); OTime 1 100; ODependency 1 0; OSubmit 1; OSubmit 0;
   OPop; OFinish; OPop; OFinish].

(** Shutting down overwrites results: a task with a deadline that has completed
    early stays in the timer queue, and closing that queue turns it from completed
    into canceled, so that [Get] returns a default value instead of its result. *)
Theorem shutdown_cancels_completed :
  ∃ c s', reachable init step c ∧ Get (st c) 1 = Some (Ok (Int 7)) ∧
    StartShutdown (st c) = Ok s' ∧ Get s' 1 = Some (Ok Default).
Proof.
  destruct (exec_ops_read 0 two_tasks (λ c, (Get (st c) 1,
    match StartShutdown (st c) with Ok s' => Get s' 1 | Fail _ => None end))
    (Some (Ok (Int 7)), Some (Ok Default))) as (c&Hc&E); [vm_compute; reflexivity|].
  injection E as E1 E2. destruct (StartShutdown (st c)) as [s'|] eqn:E; [|done]. by exists c, s'.
Qed.

(** A task submitted after the shutdown is canceled only if it can start at once:
    one that waits for an unfinished task stays submitted. *)
Theorem submit_after_shutdown_waits :
  ∃ c s', reachable init step c ∧ queue_closed (st c) = true ∧
    state_ (tasks (st c) 1) = Created ∧ Submit 1 (st c) = Ok s' ∧ state_ (tasks s' 1) = Submitted.
Proof.
  destruct (exec_ops_read 0
    [OMake (Fn (inl (Int 1))); OMake (Fn (inl (Int 7))); ODependency 1 0; OShutdown]
    (λ c, (queue_closed (st c), state_ (tasks (st c) 1),
      match Submit 1 (st c) with Ok s' => Some (state_ (tasks s' 1)) | Fail _ => None end))
    (true, Created, Some Submitted)) as (c&Hc&E); [vm_compute; reflexivity|].
  injection E as E1 E2 E3. destruct (Submit 1 (st c)) as [s'|] eqn:E; [|done].
  exists c, s'. split_and!; try done. by injection E3.
Qed.

(** *** Witnesses *)

Lemma exec_ops_run cs c os c' :
  run cs c → exec_ops c os = Some c' → ∃ cs', run cs' c'.
Proof.
  revert cs c. induction os as [|o os IH]; intros cs c Hc; cbn [exec_ops]; [intros [= <-]; by exists cs|].
  destruct (exec_op c o) as [c1|] eqn:E; [|done]. apply (IH (cs ++ [c])). econstructor; [exact Hc|]. by apply (exec_op_step _ o).
Qed.

Lemma executor_starts_rightly_witness :
  ∃ c, runs (tasks (st c) 1) = 1 ∧ may_start (clock c) (st c) 1 ∧ ∃ a b, submit_call 1 a b ∧ runs (tasks (st b) 1) = 0.
Proof.
  assert (option_map (λ c, runs (tasks (st c) 1)) (exec_ops (start 0) two_tasks) = Some 1) as E by (vm_compute; reflexivity).
  destruct (exec_ops (start 0) two_tasks) as [c|] eqn:Hc; [|discriminate]. injection E as E.
  destruct (exec_ops_run [] (start 0) two_tasks c (run_init _ eq_refl) Hc) as [cs Hr].
  destruct (executor_starts_rightly cs c 1 Hr) as (_&H1&H2). exists c. split_and!; [exact E|apply H1; exact E|].
  destruct H2 as (cs1&a&b&cs2&_&?&?); [by left|]. by exists a, b.
Defined.

Lemma executor_forgets_nothing_witness :
  ∃ c, state_ (tasks (st c) 1) = Submitted ∧ 1 ∈ timer (st c).
Proof.
  destruct (exec_ops_read 0 (take 6 two_tasks)
    (λ c, (state_ (tasks (st c) 1), has_time_trigger_ (tasks (st c) 1))) (Submitted, true))
    as (c&Hc&E); [vm_compute; reflexivity|].
  injection E as E1 E2. exists c. split; [exact E1|].
  destruct (executor_forgets_nothing c 1 Hc) as [_ H]. by apply H.
Defined.

Lemma executor_calls_return_witness : ∃ c s', reachable init step c ∧ Cancel 0 (st c) = Ok s'.
Proof.
  destruct (exec_ops_read 0 (take 6 two_tasks) (λ c, ntasks (st c)) 2) as (c&Hc&E); [vm_compute; reflexivity|].
  destruct (executor_calls_return c 0 Hc) as (_&[s' H]&_); [rewrite E; lia|]. by exists c, s'.
Defined.

Lemma when_all_collects_witness : ∃ c t s', WhenAll [0; 1] (st c) = Ok (t, s') ∧ is_when_all s' t [0; 1].
Proof.
  destruct (exec_ops_read 0 two_tasks (λ c, ntasks (st c)) 2) as (c&Hc&E); [vm_compute; reflexivity|].
  destruct (when_all_collects c [0; 1] Hc) as [(t&s'&H1&H2&_) _].
  - intros d Hd. rewrite E. apply elem_of_cons in Hd as [->|Hd]; [lia|]. apply list_elem_of_singleton in Hd. lia.
  - cbn. lia.
  - by exists c, t, s'.
Defined.
