(* ===== verification/Queues.v ===== *)
(** * The bounded queue (fast-queue/mpmc.h)

    [MPMCBoundedQueue] is a ring of slots.  A slot has a generation, by which
    producers and consumers know whose turn it is; [tail_] and [head_] hand out the
    tickets of the producers and of the consumers.  A step of the model is one
    access to an atomic variable or to the value of a slot, by any thread. *)

From S2P Require Import Prelude.

Module MPMCBoundedQueue.
Section MPMC.
Context {T : Type}.

Record Element : Type := mkElement { generation : Z; value : T }.

(** [log] and [out] are auxiliary: the values in the order of the tickets of the
    producers, and what the consumers took, with their tickets. *)
Record shared : Type := mkShared {
  head_ : Z;
  tail_ : Z;
  queue_ : list Element;
  log : list T;
  out : list (Z * T)
}.

(** Where a thread is in [Enqueue] or [Dequeue], with its local variables. *)
Inductive pc : Type :=
| Idle
| EnqLoad (v : T)
| EnqCheck (v : T) (tail : Z)
| EnqCas (v : T) (tail : Z)
| EnqWrite (v : T) (tail : Z)
| EnqPublish (tail : Z)
| DeqLoad
| DeqCheck (head : Z)
| DeqCas (head : Z)
| DeqRead (head : Z)
| DeqPublish (head : Z)
| Returned (result : bool).

Context (max_size_ : Z).

Definition bit_mask_ : Z := u64 (max_size_ - 1).
Definition index (ticket : Z) : nat := Z.to_nat (Z.land ticket bit_mask_).

Definition make (d : T) : shared :=
  mkShared 0 0 ((λ i, mkElement (Z.of_nat i) d) <$> seq 0 (Z.to_nat max_size_)) [] [].

Definition generation_of (s : shared) (ticket : Z) : Z :=
  match queue_ s !! index ticket with Some e => generation e | None => 0 end.

(** The test by which [Enqueue] finds the queue full, [Dequeue] finds it empty. *)
Definition looks_full (s : shared) (tail : Z) : bool :=
  (u64 (generation_of s tail + bit_mask_) <=? tail)%Z.
Definition looks_empty (s : shared) (head : Z) : bool :=
  (generation_of s head <? u64 (head + 1))%Z.

Definition Enqueue_check (s : shared) (v : T) (tail : Z) : pc :=
  if looks_full s tail then Returned false else EnqCas v tail.

(** [compare_exchange_weak] may fail for no reason; when it fails the local
    variable is what was there. *)
Definition Enqueue_cas (spurious : bool) (s : shared) (v : T) (tail : Z) : shared * pc :=
  if (tail_ s =? tail)%Z && negb spurious
  then (mkShared (head_ s) (u64 (tail + 1)) (queue_ s) (log s ++ [v]) (out s), EnqWrite v tail)
  else (s, EnqCheck v (tail_ s)).

Definition Enqueue_write (s : shared) (v : T) (tail : Z) : shared :=
  mkShared (head_ s) (tail_ s)
    (alter (λ e, mkElement (generation e) v) (index tail) (queue_ s)) (log s) (out s).

Definition add_generation (s : shared) (ticket n : Z) : shared :=
  mkShared (head_ s) (tail_ s)
    (alter (λ e, mkElement (u64 (generation e + n)) (value e)) (index ticket) (queue_ s))
    (log s) (out s).

Definition Dequeue_check (s : shared) (head : Z) : pc :=
  if looks_empty s head then Returned false else DeqCas head.

Definition Dequeue_cas (spurious : bool) (s : shared) (head : Z) : shared * pc :=
  if (head_ s =? head)%Z && negb spurious
  then (mkShared (u64 (head + 1)) (tail_ s) (queue_ s) (log s) (out s), DeqRead head)
  else (s, DeqCheck (head_ s)).

(** The value is moved out of the slot; [moved] is what that leaves behind. *)
Definition Dequeue_read (moved : T) (s : shared) (head : Z) : shared :=
  mkShared (head_ s) (tail_ s)
    (alter (λ e, mkElement (generation e) moved) (index head) (queue_ s)) (log s)
    (out s ++ match queue_ s !! index head with Some e => [(head, value e)] | None => [] end).

Inductive rule : shared → pc → shared → pc → Prop :=
| call_Enqueue s v : rule s Idle s (EnqLoad v)
| enq_load s v : rule s (EnqLoad v) s (EnqCheck v (tail_ s))
| enq_check s v tail : rule s (EnqCheck v tail) s (Enqueue_check s v tail)
| enq_cas b s v tail :
    rule s (EnqCas v tail) (Enqueue_cas b s v tail).1 (Enqueue_cas b s v tail).2
| enq_write s v tail : rule s (EnqWrite v tail) (Enqueue_write s v tail) (EnqPublish tail)
| enq_publish s tail : rule s (EnqPublish tail) (add_generation s tail 1) (Returned true)
| call_Dequeue s : rule s Idle s DeqLoad
| deq_load s : rule s DeqLoad s (DeqCheck (head_ s))
| deq_check s head : rule s (DeqCheck head) s (Dequeue_check s head)
| deq_cas b s head : rule s (DeqCas head) (Dequeue_cas b s head).1 (Dequeue_cas b s head).2
| deq_read m s head : rule s (DeqRead head) (Dequeue_read m s head) (DeqPublish head)
| deq_publish s head : rule s (DeqPublish head) (add_generation s head bit_mask_) (Returned true)
| returned s b : rule s (Returned b) s Idle.

(** The tickets a thread holds. *)
Definition enq_ticket (p : pc) : option Z :=
  match p with EnqWrite _ t | EnqPublish t => Some t | _ => None end.
Definition deq_ticket (p : pc) : option Z :=
  match p with DeqRead h | DeqPublish h => Some h | _ => None end.
Definition reads (p : pc) : bool := match p with DeqRead _ => true | _ => false end.

Definition init (c : shared * list pc) : Prop := ∃ n d, c = (make d, replicate n Idle).

(** Steps before the counters come near to 2^64. *)
Definition step (c c' : shared * list pc) : Prop :=
  thread_steps rule c c' ∧ (tail_ c.1 + 2 * max_size_ < 2 ^ 64)%Z.

(** ** The invariant *)

(** A slot belongs to a ticket: a producer with that ticket may fill it (its
    generation is the ticket), or it has been filled (it is one more). *)
Record slot_ok (s : shared) (l : list pc) (i : nat) (e : Element) (t : Z) : Prop := {
  slot_index : Z.to_nat (t mod max_size_) = i;
  slot_pos : (0 <= t)%Z;
  slot_tail : (tail_ s <= t + max_size_)%Z;
  slot_head : (t < head_ s + max_size_)%Z;
  slot_gen : generation e = t ∨ generation e = (t + 1)%Z;
  slot_free : generation e = t → (head_ s <= t)%Z;
  slot_full : generation e = (t + 1)%Z → (t < tail_ s)%Z;
  slot_value :
    generation e = (t + 1)%Z → (head_ s <= t)%Z ∨ (∃ j, l !! j = Some (DeqRead t)) →
    log s !! Z.to_nat t = Some (value e);
  slot_producer :
    generation e = t → (t < tail_ s)%Z → ∃ j p, l !! j = Some p ∧ enq_ticket p = Some t;
  slot_consumer :
    generation e = (t + 1)%Z → (t < head_ s)%Z → ∃ j p, l !! j = Some p ∧ deq_ticket p = Some t
}.

Definition pc_ok (s : shared) (p : pc) : Prop :=
  match p with
  | Idle | EnqLoad _ | DeqLoad | Returned _ => True
  | EnqCheck _ t => (0 <= t <= tail_ s)%Z
  | EnqCas _ t => (0 <= t <= tail_ s)%Z ∧ (t <= generation_of s t)%Z
  | EnqWrite v t =>
      (0 <= t < tail_ s)%Z ∧ generation_of s t = t ∧ log s !! Z.to_nat t = Some v
  | EnqPublish t =>
      (0 <= t < tail_ s)%Z ∧ generation_of s t = t ∧
      (∃ e, queue_ s !! index t = Some e ∧ log s !! Z.to_nat t = Some (value e))
  | DeqCheck h => (0 <= h <= head_ s)%Z
  | DeqCas h => (0 <= h <= head_ s)%Z ∧ (h + 1 <= generation_of s h)%Z
  | DeqRead h => (0 <= h < head_ s)%Z ∧ generation_of s h = (h + 1)%Z ∧ h ∉ (out s).*1
  | DeqPublish h => (0 <= h < head_ s)%Z ∧ generation_of s h = (h + 1)%Z
  end.

Record inv (c : shared * list pc) : Prop := {
  i_size : length (queue_ c.1) = Z.to_nat max_size_;
  i_order : (0 <= head_ c.1 <= tail_ c.1)%Z;
  i_log : Z.of_nat (length (log c.1)) = tail_ c.1;
  i_slots : ∀ i e, queue_ c.1 !! i = Some e → ∃ t, slot_ok c.1 c.2 i e t;
  i_pcs : ∀ j p, c.2 !! j = Some p → pc_ok c.1 p;
  i_enq : ∀ j j' p p' t, c.2 !! j = Some p → c.2 !! j' = Some p' →
    enq_ticket p = Some t → enq_ticket p' = Some t → j = j';
  i_deq : ∀ j j' p p' t, c.2 !! j = Some p → c.2 !! j' = Some p' →
    deq_ticket p = Some t → deq_ticket p' = Some t → j = j';
  i_out : NoDup (out c.1).*1 ∧ ∀ h x, (h, x) ∈ out c.1 →
    (0 <= h < head_ c.1)%Z ∧ log c.1 !! Z.to_nat h = Some x;
  i_taken : Z.of_nat (length (out c.1) + count reads c.2) = head_ c.1
}.

(** Sizes are powers of two, from 2 on. *)
Context (k : Z) (Hk : (1 <= k <= 62)%Z) (HN : max_size_ = (2 ^ k)%Z).

Lemma size_bounds : (2 <= max_size_ <= 2 ^ 62)%Z.
Proof using Hk HN.
  rewrite HN. split; [|apply Z.pow_le_mono_r; lia].
  change 2%Z with (2 ^ 1)%Z at 1. apply Z.pow_le_mono_r; lia.
Qed.

Lemma bit_mask_eq : bit_mask_ = (max_size_ - 1)%Z.
Proof using Hk HN. pose proof size_bounds. unfold bit_mask_. apply uwrap_small. lia. Qed.

Lemma index_mod t : index t = Z.to_nat (t mod max_size_).
Proof using Hk HN.
  unfold index. rewrite bit_mask_eq, HN. replace (2 ^ k - 1)%Z with (Z.ones k).
  - by rewrite Z.land_ones by lia.
  - rewrite Z.ones_equiv. lia.
Qed.

(** Tickets of one slot are the same or far apart. *)
Lemma congruent t u :
  Z.to_nat (t mod max_size_) = Z.to_nat (u mod max_size_) →
  t = u ∨ (t + max_size_ <= u)%Z ∨ (u + max_size_ <= t)%Z.
Proof using Hk HN.
  pose proof size_bounds. intros Heq.
  pose proof (Z.mod_pos_bound t max_size_ ltac:(lia)).
  pose proof (Z.mod_pos_bound u max_size_ ltac:(lia)).
  apply Z2Nat.inj in Heq; [|lia..].
  pose proof (Z.div_mod t max_size_ ltac:(lia)). pose proof (Z.div_mod u max_size_ ltac:(lia)).
  destruct (Ztrichotomy (t / max_size_) (u / max_size_)) as [?|[?|?]]; nia.
Qed.

Lemma mod_next t : ((t + max_size_) mod max_size_ = t mod max_size_)%Z.
Proof using Hk HN.
  pose proof size_bounds. rewrite <- (Z.mul_1_l max_size_) at 1. apply Z.mod_add. lia.
Qed.

(** ** Threads and their tickets *)

Lemma held_insert (f : pc → option Z) (l : list pc) i p p' t :
  l !! i = Some p → (f p = Some t → f p' = Some t) →
  (∃ j q, l !! j = Some q ∧ f q = Some t) → ∃ j q, <[i:=p']> l !! j = Some q ∧ f q = Some t.
Proof.
  intros Hi Hf (j&q&Hj&Hq). destruct (decide (i = j)) as [<-|Hne].
  - exists i, p'. rewrite list_lookup_insert_eq by by apply lookup_lt_Some in Hi.
    replace q with p in Hq by congruence. auto.
  - exists j, q. by rewrite list_lookup_insert_ne.
Qed.

Lemma unique_insert (f : pc → option Z) (l : list pc) i p p' :
  l !! i = Some p →
  (∀ j j' q q' t, l !! j = Some q → l !! j' = Some q' → f q = Some t → f q' = Some t → j = j') →
  (∀ t, f p' = Some t → f p = Some t ∨ ∀ j q, l !! j = Some q → f q ≠ Some t) →
  ∀ j j' q q' t, <[i:=p']> l !! j = Some q → <[i:=p']> l !! j' = Some q' →
    f q = Some t → f q' = Some t → j = j'.
Proof.
  intros Hi Hu Hp' j j' q q' t Hj Hj' Hq Hq'.
  apply insert_inv in Hj as [[-> ->]|[Hne Hj]], Hj' as [[-> ->]|[Hne' Hj']]; [done| | |by eapply Hu].
  - destruct (Hp' t Hq) as [Hp|Hno]; [by eapply (Hu i j' p q')|by destruct (Hno j' q')].
  - destruct (Hp' t Hq') as [Hp|Hno]; [by eapply (Hu j i q p)|by destruct (Hno j q)].
Qed.

Lemma slot_of c t : inv c → (0 <= t)%Z →
  ∃ e u, queue_ c.1 !! index t = Some e ∧ slot_ok c.1 c.2 (index t) e u ∧
    generation_of c.1 t = generation e ∧ (t = u ∨ t + max_size_ <= u ∨ u + max_size_ <= t)%Z.
Proof using Hk HN.
  intros Hinv Ht. pose proof size_bounds.
  destruct (lookup_lt_is_Some_2 (queue_ c.1) (index t)) as [e He].
  { rewrite (i_size _ Hinv), index_mod. pose proof (Z.mod_pos_bound t max_size_ ltac:(lia)). lia. }
  destruct (i_slots _ Hinv _ _ He) as [u Hu]. exists e, u. split_and!; [done|done| |].
  - unfold generation_of. by rewrite He.
  - apply congruent. rewrite (slot_index _ _ _ _ _ Hu). by rewrite index_mod.
Qed.

(** The generation of a slot says whose turn it is. *)
Lemma not_full c t : inv c → (0 <= t <= tail_ c.1)%Z → (tail_ c.1 + 2 * max_size_ < 2 ^ 64)%Z →
  looks_full c.1 t = false → (t <= generation_of c.1 t)%Z.
Proof using Hk HN.
  intros Hinv Ht Hb. pose proof size_bounds. pose proof (i_order _ Hinv).
  destruct (slot_of c t Hinv ltac:(lia)) as (e&u&He&Hu&Hg&Hc). destruct Hu.
  unfold looks_full. rewrite Hg, bit_mask_eq, uwrap_small by lia. rewrite Z.leb_gt. lia.
Qed.

Lemma not_empty c h : inv c → (0 <= h <= head_ c.1)%Z → (tail_ c.1 + 2 * max_size_ < 2 ^ 64)%Z →
  looks_empty c.1 h = false → (h + 1 <= generation_of c.1 h)%Z.
Proof using Hk HN.
  intros Hinv Hh Hb. pose proof size_bounds. pose proof (i_order _ Hinv).
  unfold looks_empty. rewrite uwrap_small by lia. rewrite Z.ltb_ge. lia.
Qed.

Lemma enq_ready c t : inv c → t = tail_ c.1 → (t <= generation_of c.1 t)%Z →
  ∃ e, queue_ c.1 !! index t = Some e ∧ slot_ok c.1 c.2 (index t) e t ∧
    generation e = t ∧ generation_of c.1 t = t.
Proof using Hk HN.
  intros Hinv -> Hg. pose proof size_bounds. pose proof (i_order _ Hinv).
  destruct (slot_of c (tail_ c.1) Hinv ltac:(lia)) as (e&u&He&Hu&Hge&Hc).
  exists e. pose proof Hu as Hu'. destruct Hu. rewrite Hge in *.
  assert (u = tail_ c.1) as -> by lia. split_and!; [done|done|lia|lia].
Qed.

Lemma deq_ready c h : inv c → h = head_ c.1 → (h + 1 <= generation_of c.1 h)%Z →
  ∃ e, queue_ c.1 !! index h = Some e ∧ slot_ok c.1 c.2 (index h) e h ∧
    generation e = (h + 1)%Z ∧ generation_of c.1 h = (h + 1)%Z.
Proof using Hk HN.
  intros Hinv -> Hg. pose proof size_bounds. pose proof (i_order _ Hinv).
  destruct (slot_of c (head_ c.1) Hinv ltac:(lia)) as (e&u&He&Hu&Hge&Hc).
  exists e. pose proof Hu as Hu'. destruct Hu. rewrite Hge in *.
  assert (u = head_ c.1) as -> by lia. split_and!; [done|done|lia|lia].
Qed.

(** ** Each step keeps the invariant *)

Lemma slot_ok_threads s l l' i e t :
  slot_ok s l i e t →
  ((∃ j, l' !! j = Some (DeqRead t)) → ∃ j, l !! j = Some (DeqRead t)) →
  ((∃ j p, l !! j = Some p ∧ enq_ticket p = Some t) → ∃ j p, l' !! j = Some p ∧ enq_ticket p = Some t) →
  ((∃ j p, l !! j = Some p ∧ deq_ticket p = Some t) → ∃ j p, l' !! j = Some p ∧ deq_ticket p = Some t) →
  slot_ok s l' i e t.
Proof. intros [] ???. split; auto. intros ? [?|?]; auto. Qed.

(** A thread that holds no ticket moves without changing the shared state. *)
Lemma inv_local s l i p p' :
  inv (s, l) → l !! i = Some p →
  enq_ticket p = None → deq_ticket p = None → enq_ticket p' = None → deq_ticket p' = None →
  pc_ok s p' → inv (s, <[i:=p']> l).
Proof.
  intros [] Hi He Hd He' Hd' Hp'. split; cbn [fst snd] in *; try done.
  - intros n e Hn. destruct (i_slots0 n e Hn) as [t Ht]. exists t.
    eapply slot_ok_threads; [done| | |].
    + intros [j [[-> <-]|[_ Hj]]%insert_inv]; [done|eauto].
    + apply (held_insert enq_ticket l i p); [done|]. by rewrite He.
    + apply (held_insert deq_ticket l i p); [done|]. by rewrite Hd.
  - intros j q [[-> ->]|[_ Hj]]%insert_inv; eauto.
  - eapply (unique_insert enq_ticket l i p); [done|done|]. by rewrite He'.
  - eapply (unique_insert deq_ticket l i p); [done|done|]. by rewrite Hd'.
  - count_step Hi reads p'. destruct p, p'; cbn [reads Nat.b2n] in *; try done; lia.
Qed.

(** A producer takes its ticket. *)
Lemma inv_enq_cas s l i v t :
  inv (s, l) → (tail_ s + 2 * max_size_ < 2 ^ 64)%Z → l !! i = Some (EnqCas v t) → tail_ s = t →
  inv (mkShared (head_ s) (u64 (t + 1)) (queue_ s) (log s ++ [v]) (out s), <[i:=EnqWrite v t]> l).
Proof using Hk HN.
  intros Hinv Hb Hi Ht. pose proof size_bounds as Hs. pose proof (i_order _ Hinv) as Ho. cbn in Ho.
  destruct (i_pcs _ Hinv _ _ Hi) as [_ Hg]. cbn [fst] in Hg.
  destruct (enq_ready (s, l) t Hinv (eq_sym Ht) Hg) as (e&He&Hu&Hge&Hgt). cbn [fst snd] in *.
  rewrite uwrap_small by lia. pose proof Hinv as Hinv'.
  assert (∀ j q u, l !! j = Some q → enq_ticket q = Some u → (u < t)%Z) as Hfresh.
  { intros j q u Hj Hq. pose proof (i_pcs _ Hinv j q Hj) as Hok.
    destruct q; try done; injection Hq as <-; cbn in Hok; lia. }
  assert (∀ n x, log s !! n = Some x → (log s ++ [v]) !! n = Some x) as Hlog.
  { intros n x Hn. by apply lookup_app_l_Some. }
  destruct Hinv as [Hsize _ Hlen Hslots Hpcs Henq Hdeq Hout Htaken]; cbn [fst snd] in *.
  split; cbn [fst snd head_ tail_ queue_ log out]; try done.
  - lia.
  - rewrite length_app. cbn. lia.
  - intros n e' Hn. destruct (decide (n = index t)) as [->|Hne].
    + assert (e' = e) as -> by congruence. exists t. destruct Hu.
      split; cbn [head_ tail_ log]; try done; try lia.
      intros _ _. exists i, (EnqWrite v t). by rewrite list_lookup_insert_eq by by apply lookup_lt_Some in Hi.
    + destruct (Hslots n e' Hn) as [u Hu']. exists u.
      assert (u ≠ t) as Hut. { intros ->. destruct Hu'. by rewrite <- index_mod in slot_index0. }
      assert (t ≠ u + max_size_)%Z as Hut'.
      { intros Heq. apply Hne. destruct Hu'. by rewrite index_mod, Heq, mod_next. }
      apply (slot_ok_threads _ l).
      * destruct Hu'. split; cbn [head_ tail_ log]; try done; try lia; auto.
        intros ??. apply slot_producer0; [done|lia].
      * intros [j [[-> ?]|[_ ?]]%insert_inv]; [done|eauto].
      * by apply (held_insert enq_ticket l i (EnqCas v t)).
      * by apply (held_insert deq_ticket l i (EnqCas v t)).
  - intros j q [[-> ->]|[_ Hj]]%insert_inv.
    + cbn. split_and!; [lia|lia|done|].
      rewrite lookup_app_r, (proj2 (Nat.sub_0_le _ _)); [done|lia..].
    + specialize (Hpcs j q Hj). destruct q;
        cbn [pc_ok head_ tail_ queue_ log out] in *; unfold generation_of in *;
        cbn [queue_] in *; try (lia || done).
      * destruct Hpcs as (?&?&?). split_and!; [lia|lia|done|auto].
      * destruct Hpcs as (?&?&e'&?&?). split_and!; [lia|lia|done|]. exists e'. auto.
  - eapply (unique_insert enq_ticket l i (EnqCas v t)); [done|done|].
    intros u [= <-]. right. intros j q Hj Hq. specialize (Hfresh j q t Hj Hq). lia.
  - by eapply (unique_insert deq_ticket l i (EnqCas v t)).
  - destruct Hout as [? Ho']. split; [done|]. intros h x Hx. destruct (Ho' h x Hx). auto.
  - count_step Hi reads (EnqWrite v t). cbn [reads Nat.b2n] in *. lia.
Qed.

(** What changes when a slot is written. *)
Lemma lookup_slots (q : list Element) f i n e' :
  alter f i q !! n = Some e' →
  (n = i ∧ ∃ e, q !! i = Some e ∧ e' = f e) ∨ (n ≠ i ∧ q !! n = Some e').
Proof.
  intros Hn. destruct (decide (n = i)) as [->|Hne].
  - rewrite list_lookup_alter_eq in Hn. destruct (q !! i) as [e|] eqn:E; [|done].
    injection Hn as <-. eauto 6.
  - rewrite list_lookup_alter_ne in Hn by done. auto.
Qed.

Lemma generation_add s t n u :
  generation_of (add_generation s t n) u =
  match queue_ s !! index t with
  | Some e => if decide (index u = index t) then u64 (generation e + n) else generation_of s u
  | None => generation_of s u
  end.
Proof.
  unfold generation_of, add_generation. cbn [queue_].
  destruct (decide (index u = index t)) as [->|Hne].
  - rewrite list_lookup_alter_eq. by destruct (queue_ s !! index t).
  - rewrite list_lookup_alter_ne by done. by destruct (queue_ s !! index t).
Qed.

(** Writing a value into a slot leaves the generations as they are. *)
Lemma generation_write s h t q lg o f i :
  (∀ e, generation (f e) = generation e) → q = alter f i (queue_ s) →
  ∀ u, generation_of (mkShared h t q lg o) u = generation_of s u.
Proof.
  intros Hf -> u. unfold generation_of. cbn [queue_]. destruct (decide (index u = i)) as [<-|Hne].
  - rewrite list_lookup_alter_eq. destruct (queue_ s !! index u); [apply Hf|done].
  - by rewrite list_lookup_alter_ne.
Qed.

(** The holder of a ticket has the slot of the ticket to itself. *)
Lemma enq_holder c j p t : inv c → c.2 !! j = Some p → enq_ticket p = Some t →
  (0 <= t < tail_ c.1)%Z ∧ generation_of c.1 t = t ∧
  ∃ e, queue_ c.1 !! index t = Some e ∧ slot_ok c.1 c.2 (index t) e t ∧ generation e = t.
Proof using Hk HN.
  intros Hinv Hj Hp. pose proof (i_pcs _ Hinv j p Hj) as Hok. pose proof size_bounds.
  assert ((0 <= t < tail_ c.1)%Z ∧ generation_of c.1 t = t) as [Ht Hg].
  { destruct p; try done; injection Hp as <-; cbn in Hok; tauto. }
  split_and!; [lia|lia|done|].
  destruct (slot_of c t Hinv ltac:(lia)) as (e&u&He&Hu&Hge&Hc).
  exists e. pose proof Hu as Hu'. destruct Hu. assert (u = t) as -> by lia.
  split_and!; [done|done|lia].
Qed.

Lemma deq_holder c j p h : inv c → c.2 !! j = Some p → deq_ticket p = Some h →
  (0 <= h < head_ c.1)%Z ∧ generation_of c.1 h = (h + 1)%Z ∧
  ∃ e, queue_ c.1 !! index h = Some e ∧ slot_ok c.1 c.2 (index h) e h ∧ generation e = (h + 1)%Z.
Proof using Hk HN.
  intros Hinv Hj Hp. pose proof (i_pcs _ Hinv j p Hj) as Hok. pose proof size_bounds.
  assert ((0 <= h < head_ c.1)%Z ∧ generation_of c.1 h = (h + 1)%Z) as [Ht Hg].
  { destruct p; try done; injection Hp as <-; cbn in Hok; tauto. }
  split_and!; [lia|lia|done|].
  destruct (slot_of c h Hinv ltac:(lia)) as (e&u&He&Hu&Hge&Hc).
  exists e. pose proof Hu as Hu'. destruct Hu. assert (u = h) as -> by lia.
  split_and!; [done|done|lia].
Qed.

Definition ticket (p : pc) : option Z :=
  match enq_ticket p with Some t => Some t | None => deq_ticket p end.

Lemma ticket_cases p t : ticket p = Some t →
  (enq_ticket p = Some t ∧ deq_ticket p = None) ∨ (enq_ticket p = None ∧ deq_ticket p = Some t).
Proof. destruct p; cbn; intros [= ->]; auto. Qed.

Lemma exclusive c i j p q t u :
  inv c → i ≠ j → c.2 !! i = Some p → c.2 !! j = Some q →
  ticket p = Some t → ticket q = Some u → index u ≠ index t.
Proof using Hk HN.
  intros Hinv Hne Hi Hj Hp Hq Heq. pose proof size_bounds.
  assert (generation_of c.1 u = generation_of c.1 t) as Hg by (unfold generation_of; by rewrite Heq).
  rewrite !index_mod in Heq. apply congruent in Heq.
  apply ticket_cases in Hp as [[Hp _]|[_ Hp]], Hq as [[Hq _]|[_ Hq]].
  - destruct (enq_holder c i p t Hinv Hi Hp) as (_&Ht&_), (enq_holder c j q u Hinv Hj Hq) as (_&Hu&_).
    apply Hne. apply (i_enq _ Hinv i j p q t); [done|done|done|]. rewrite Hq. f_equal. lia.
  - destruct (enq_holder c i p t Hinv Hi Hp) as (_&Ht&_), (deq_holder c j q u Hinv Hj Hq) as (_&Hu&_). lia.
  - destruct (deq_holder c i p t Hinv Hi Hp) as (_&Ht&_), (enq_holder c j q u Hinv Hj Hq) as (_&Hu&_). lia.
  - destruct (deq_holder c i p t Hinv Hi Hp) as (_&Ht&_), (deq_holder c j q u Hinv Hj Hq) as (_&Hu&_).
    apply Hne. apply (i_deq _ Hinv i j p q t); [done|done|done|]. rewrite Hq. f_equal. lia.
Qed.

(** What the holder of ticket [t] does to the slot of [t] concerns no other thread
    and no other slot. *)
Record touches (s s' : shared) (t : Z) : Prop := {
  t_head : head_ s' = head_ s;
  t_tail : tail_ s' = tail_ s;
  t_log : log s' = log s;
  t_grows : ∀ u, (generation_of s u <= generation_of s' u)%Z;
  t_slots : ∀ n, n ≠ index t → queue_ s' !! n = queue_ s !! n;
  t_out : ∀ h, index h ≠ index t → h ∉ (out s).*1 → h ∉ (out s').*1
}.

Lemma pc_ok_other s s' l i j p q t :
  inv (s, l) → touches s s' t → l !! i = Some p → ticket p = Some t → j ≠ i → l !! j = Some q →
  pc_ok s' q.
Proof using Hk HN.
  intros Hinv [Hh Ht Hl Hg Hs Ho] Hi Hp Hne Hj. pose proof (i_pcs _ Hinv j q Hj) as Hq.
  assert (∀ u, ticket q = Some u → index u ≠ index t ∧ generation_of s' u = generation_of s u) as Hex.
  { intros u Hu. assert (index u ≠ index t) as Hx by (by eapply (exclusive (s, l) i j)).
    split; [done|]. unfold generation_of. by rewrite Hs. }
  cbn [fst] in Hq. destruct q as [| |v u|v u|v u|u| |h|h|h|h|]; cbn [pc_ok] in *; rewrite ?Hh, ?Ht; try done.
  - specialize (Hg u). lia.
  - destruct (Hex u eq_refl) as [Hx ->]. by rewrite Hl.
  - destruct (Hex u eq_refl) as [Hx ->]. by rewrite Hl, Hs.
  - specialize (Hg h). lia.
  - destruct (Hex h eq_refl) as [Hx ->]. destruct Hq as (?&?&?). auto.
  - destruct (Hex h eq_refl) as [Hx ->]. done.
Qed.

Lemma slot_ok_other s s' l i p p' t n e u :
  touches s s' t → l !! i = Some p → ticket p = Some t → (∀ v, ticket p' = Some v → v = t) →
  n ≠ index t → slot_ok s l n e u → slot_ok s' (<[i:=p']> l) n e u.
Proof using Hk HN.
  intros [Hh Ht Hl _ _ _] Hi Hp Hp' Hn Hu.
  assert (u ≠ t) as Hut. { intros ->. apply Hn. by rewrite index_mod, (slot_index _ _ _ _ _ Hu). }
  apply (slot_ok_threads _ l).
  - destruct Hu. by split; rewrite ?Hh, ?Ht, ?Hl.
  - intros [j [[-> <-]|[_ Hj]]%insert_inv]; [|eauto]. by destruct (Hp' u eq_refl).
  - apply (held_insert enq_ticket l i p); [done|]. intros Hpu. unfold ticket in Hp. rewrite Hpu in Hp.
    congruence.
  - apply (held_insert deq_ticket l i p); [done|]. intros Hpu.
    apply ticket_cases in Hp as [[_ ?]|[_ ?]]; congruence.
Qed.

(** So it is enough to look at that slot, at that thread and at what came out. *)
Lemma inv_holder s s' l i p p' t :
  inv (s, l) → touches s s' t → l !! i = Some p → ticket p = Some t →
  (∀ u, enq_ticket p' = Some u → enq_ticket p = Some u) →
  (∀ u, deq_ticket p' = Some u → deq_ticket p = Some u) →
  length (queue_ s') = length (queue_ s) →
  (∀ e', queue_ s' !! index t = Some e' → ∃ u, slot_ok s' (<[i:=p']> l) (index t) e' u) →
  pc_ok s' p' →
  (NoDup (out s').*1 ∧ ∀ h x, (h, x) ∈ out s' → (0 <= h < head_ s')%Z ∧ log s' !! Z.to_nat h = Some x) →
  length (out s') + Nat.b2n (reads p') = length (out s) + Nat.b2n (reads p) →
  inv (s', <[i:=p']> l).
Proof using Hk HN.
  intros Hinv Ht Hi Hp He' Hd' Hlen Hslot Hok Hout Hcount. pose proof Hinv as Hinv0.
  assert (∀ v, ticket p' = Some v → v = t) as Hp'.
  { intros v Hv. unfold ticket in Hp.
    apply ticket_cases in Hv as [[Hv%He' _]|[_ Hv%Hd']]; [by rewrite Hv in Hp; congruence|].
    destruct p; cbn in *; congruence. }
  destruct Hinv as [Hsize Ho Hlog Hslots Hpcs Henq Hdeq Hout0 Htaken]; cbn [fst snd] in *.
  pose proof (t_head _ _ _ Ht) as Hh. pose proof (t_tail _ _ _ Ht) as Htl.
  pose proof (t_log _ _ _ Ht) as Hl.
  split; cbn [fst snd]; rewrite ?Hh, ?Htl, ?Hl; try done.
  - by rewrite Hlen.
  - intros n e Hn. destruct (decide (n = index t)) as [->|Hne]; [by apply Hslot|].
    rewrite (t_slots _ _ _ Ht) in Hn by done. destruct (Hslots n e Hn) as [u Hu].
    exists u. by eapply slot_ok_other.
  - intros j q [[-> ->]|[Hne Hj]]%insert_inv; [done|by apply (pc_ok_other s s' l i j p q t)].
  - eapply (unique_insert enq_ticket); [done|done|auto].
  - eapply (unique_insert deq_ticket); [done|done|auto].
  - by rewrite Hh, Hl in Hout.
  - count_step Hi reads p'. lia.
Qed.

Lemma inv_enq_write s l i v t :
  inv (s, l) → l !! i = Some (EnqWrite v t) →
  inv (Enqueue_write s v t, <[i:=EnqPublish t]> l).
Proof using Hk HN.
  intros Hinv Hi. destruct (enq_holder _ _ _ _ Hinv Hi eq_refl) as (Ht&Hg&e&He&Hu&Hge). cbn [fst snd] in *.
  pose proof (i_pcs _ Hinv _ _ Hi) as (_&_&Hv). cbn [fst snd] in Hv.
  assert (∀ u, generation_of (Enqueue_write s v t) u = generation_of s u) as Hgen.
  { intros u. unfold Enqueue_write.
    by apply (generation_write _ _ _ _ _ _ (λ e, mkElement (generation e) v) (index t)). }
  apply (inv_holder s _ l i (EnqWrite v t) _ t); try done.
  - split; try done.
    + intros u. by rewrite Hgen.
    + intros n Hn. cbn [queue_ Enqueue_write Dequeue_read]. by rewrite list_lookup_alter_ne by congruence.
  - cbn. apply length_alter.
  - cbn [queue_ Enqueue_write]. rewrite list_lookup_alter_eq, He. intros ? [= <-]. exists t.
    destruct Hu. split; cbn [generation value head_ tail_ log Enqueue_write] in *; try done; try lia.
    intros _ _. exists i, (EnqPublish t). by rewrite list_lookup_insert_eq by by apply lookup_lt_Some in Hi.
  - cbn [pc_ok]. rewrite Hgen. split_and!; [lia|cbn; lia|done|].
    exists (mkElement (generation e) v). cbn. by rewrite list_lookup_alter_eq, He.
  - apply (i_out _ Hinv).
Qed.

Lemma touches_add s l t n e :
  inv (s, l) → queue_ s !! index t = Some e → (0 <= n)%Z → (generation e + n < 2 ^ 64)%Z →
  (0 <= generation e)%Z → touches s (add_generation s t n) t.
Proof.
  intros Hinv He Hn Hb Hp. split; try done.
  - intros u. rewrite generation_add, He. destruct (decide (index u = index t)) as [Heq|]; [|lia].
    rewrite uwrap_small by lia. unfold generation_of. rewrite Heq, He. lia.
  - intros m Hm. cbn [queue_ add_generation]. by rewrite list_lookup_alter_ne by congruence.
Qed.

Lemma inv_enq_publish s l i t :
  inv (s, l) → (tail_ s + 2 * max_size_ < 2 ^ 64)%Z → l !! i = Some (EnqPublish t) →
  inv (add_generation s t 1, <[i:=Returned true]> l).
Proof using Hk HN.
  intros Hinv Hb Hi. pose proof size_bounds.
  destruct (enq_holder _ _ _ _ Hinv Hi eq_refl) as (Ht&Hg&e&He&Hu&Hge). cbn [fst snd] in *.
  pose proof (i_pcs _ Hinv _ _ Hi) as (_&_&e'&He'&Hv). cbn [fst snd] in He', Hv.
  assert (e' = e) as -> by congruence.
  apply (inv_holder s _ l i (EnqPublish t) _ t); try done.
  - eapply touches_add; [done|done|lia..].
  - cbn. apply length_alter.
  - cbn [queue_ add_generation]. rewrite list_lookup_alter_eq, He. intros ? [= <-]. exists t.
    rewrite uwrap_small by lia. destruct Hu.
    split; cbn [generation value head_ tail_ log add_generation] in *; try done; lia.
  - apply (i_out _ Hinv).
Qed.

Lemma inv_deq_publish s l i h :
  inv (s, l) → (tail_ s + 2 * max_size_ < 2 ^ 64)%Z → l !! i = Some (DeqPublish h) →
  inv (add_generation s h bit_mask_, <[i:=Returned true]> l).
Proof using Hk HN.
  intros Hinv Hb Hi. pose proof size_bounds. pose proof (i_order _ Hinv) as Ho. cbn [fst] in Ho.
  destruct (deq_holder _ _ _ _ Hinv Hi eq_refl) as (Ht&Hg&e&He&Hu&Hge). cbn [fst snd] in *.
  rewrite bit_mask_eq. apply (inv_holder s _ l i (DeqPublish h) _ h); try done.
  - eapply touches_add; [done|done|lia..].
  - cbn. apply length_alter.
  - cbn [queue_ add_generation]. rewrite list_lookup_alter_eq, He. intros ? [= <-].
    exists (h + max_size_)%Z. rewrite uwrap_small by lia. destruct Hu.
    split; cbn [generation value head_ tail_ log add_generation] in *; rewrite ?mod_next; try done; lia.
  - apply (i_out _ Hinv).
Qed.

Lemma inv_deq_read s l i h m :
  inv (s, l) → l !! i = Some (DeqRead h) → inv (Dequeue_read m s h, <[i:=DeqPublish h]> l).
Proof using Hk HN.
  intros Hinv Hi. destruct (deq_holder _ _ _ _ Hinv Hi eq_refl) as (Ht&Hg&e&He&Hu&Hge). cbn [fst snd] in *.
  pose proof (i_pcs _ Hinv _ _ Hi) as (_&_&Hnew). cbn [fst snd] in Hnew.
  destruct (i_out _ Hinv) as [Hnd Hout]. cbn [fst] in Hnd, Hout.
  assert (∀ u, generation_of (Dequeue_read m s h) u = generation_of s u) as Hgen.
  { intros u. unfold Dequeue_read.
    by apply (generation_write _ _ _ _ _ _ (λ e, mkElement (generation e) m) (index h)). }
  apply (inv_holder s _ l i (DeqRead h) _ h); try done.
  - split; try done.
    + intros u. by rewrite Hgen.
    + intros n Hn. cbn [queue_ Enqueue_write Dequeue_read]. by rewrite list_lookup_alter_ne by congruence.
    + intros h' Hh' Hno. cbn. rewrite He, fmap_app, elem_of_app. cbn. rewrite list_elem_of_singleton.
      intros [?| ->]; done.
  - cbn. apply length_alter.
  - cbn [queue_ Dequeue_read]. rewrite list_lookup_alter_eq, He. intros ? [= <-]. exists h.
    pose proof Hu as Hu0. destruct Hu.
    split; cbn [generation value head_ tail_ log Dequeue_read] in *; try done; try lia.
    + intros _ [?|[j [[-> ?]|[Hne Hj]]%insert_inv]]; [lia|done|]. exfalso.
      by apply Hne, (i_deq _ Hinv j i (DeqRead h) (DeqRead h) h).
    + intros _ _. exists i, (DeqPublish h). by rewrite list_lookup_insert_eq by by apply lookup_lt_Some in Hi.
  - cbn [pc_ok]. by rewrite Hgen.
  - cbn [out head_ log Dequeue_read]. rewrite He, fmap_app. split.
    + apply NoDup_app. split_and!; [done| |apply NoDup_singleton].
      intros x Hx ->%list_elem_of_singleton. done.
    + intros h' x [Hx|Hx]%elem_of_app; [by apply Hout|].
      apply list_elem_of_singleton in Hx as [= -> ->]. split; [lia|].
      apply (slot_value _ _ _ _ _ Hu); [done|]. right. eauto.
  - cbn. rewrite He, length_app. cbn. lia.
Qed.

(** A consumer takes its ticket. *)
Lemma inv_deq_cas s l i h :
  inv (s, l) → (tail_ s + 2 * max_size_ < 2 ^ 64)%Z → l !! i = Some (DeqCas h) → head_ s = h →
  inv (mkShared (u64 (h + 1)) (tail_ s) (queue_ s) (log s) (out s), <[i:=DeqRead h]> l).
Proof using Hk HN.
  intros Hinv Hb Hi Hh. pose proof size_bounds as Hs. pose proof (i_order _ Hinv) as Ho. cbn in Ho.
  destruct (i_pcs _ Hinv _ _ Hi) as [_ Hg]. cbn [fst] in Hg.
  destruct (deq_ready (s, l) h Hinv (eq_sym Hh) Hg) as (e&He&Hu&Hge&Hgt). cbn [fst snd] in *.
  rewrite uwrap_small by lia. pose proof (slot_full _ _ _ _ _ Hu Hge) as Hfull.
  assert (l !! i = Some (DeqCas h) → i < length l) as Hlt by (apply lookup_lt_Some).
  assert (∀ j q u, l !! j = Some q → deq_ticket q = Some u → (u < h)%Z) as Hfresh.
  { intros j q u Hj Hq. pose proof (i_pcs _ Hinv j q Hj) as Hok.
    destruct q; try done; injection Hq as <-; cbn in Hok; lia. }
  destruct Hinv as [Hsize _ Hlen Hslots Hpcs Henq Hdeq [Hnd Hout] Htaken]; cbn [fst snd] in *.
  split; cbn [fst snd head_ tail_ queue_ log out]; try done.
  - lia.
  - intros n e' Hn. destruct (decide (n = index h)) as [->|Hne].
    + assert (e' = e) as -> by congruence. exists h. destruct Hu.
      split; cbn [head_ tail_ log]; try done; try lia.
      * intros _ _. apply slot_value0; [done|lia].
      * intros _ _. exists i, (DeqRead h). by rewrite list_lookup_insert_eq by auto.
    + destruct (Hslots n e' Hn) as [u Hu']. exists u.
      assert (u ≠ h) as Huh. { intros ->. destruct Hu'. by rewrite <- index_mod in slot_index0. }
      apply (slot_ok_threads _ l).
      * destruct Hu'. split; cbn [head_ tail_ log]; try done; try lia.
        -- intros ? [?|?]; apply slot_value0; auto with lia.
        -- intros ??. apply slot_consumer0; [done|lia].
      * intros [j [[-> [= ?]]|[_ ?]]%insert_inv]; [done|eauto].
      * by apply (held_insert enq_ticket l i (DeqCas h)).
      * by apply (held_insert deq_ticket l i (DeqCas h)).
  - intros j q [[-> ->]|[_ Hj]]%insert_inv.
    + cbn [pc_ok out]. split_and!; [lia|cbn; lia|done|].
      intros ([h' x]&Heq&Hx)%list_elem_of_fmap. cbn in Heq. subst h'. destruct (Hout h x Hx). lia.
    + specialize (Hpcs j q Hj). destruct q;
        cbn [pc_ok head_ tail_ queue_ log out] in *; unfold generation_of in *;
        cbn [queue_] in *; try (lia || done).
      destruct Hpcs as (?&?&?). split_and!; [lia|lia|done|done].
  - by eapply (unique_insert enq_ticket l i (DeqCas h)).
  - eapply (unique_insert deq_ticket l i (DeqCas h)); [done|done|].
    intros u [= <-]. right. intros j q Hj Hq. specialize (Hfresh j q h Hj Hq). lia.
  - split; [done|]. intros h' x Hx. destruct (Hout h' x Hx). split; [lia|done].
  - count_step Hi reads (DeqRead h). cbn [reads Nat.b2n] in *. lia.
Qed.

Lemma mpmc_inv_step c c' : inv c → step c c' → inv c'.
Proof using Hk HN.
  intros Hinv [(i&p&s'&p'&Hi&Hr&->) Hb]. destruct c as [s l]. cbn [fst snd] in *.
  pose proof (i_pcs _ Hinv i p Hi) as Hp. pose proof (i_order _ Hinv) as Ho. cbn [fst] in Ho.
  destruct Hr; unfold Enqueue_check, Dequeue_check, Enqueue_cas, Dequeue_cas in *;
    cbn [fst snd pc_ok] in *;
    try (apply (inv_local _ _ _ _ _ Hinv Hi); cbn; lia || done).
  - destruct (looks_full s tail) eqn:E; apply (inv_local _ _ _ _ _ Hinv Hi); try done.
    split; [lia|]. by apply (not_full (s, l)).
  - destruct (Z.eqb_spec (tail_ s) tail) as [<-|Hne]; [destruct b|]; cbn [negb andb fst snd].
    + apply (inv_local _ _ _ _ _ Hinv Hi); cbn; lia || done.
    + by eapply inv_enq_cas.
    + apply (inv_local _ _ _ _ _ Hinv Hi); cbn; lia || done.
  - by eapply inv_enq_write.
  - by apply inv_enq_publish.
  - destruct (looks_empty s head) eqn:E; apply (inv_local _ _ _ _ _ Hinv Hi); try done.
    split; [lia|]. by apply (not_empty (s, l)).
  - destruct (Z.eqb_spec (head_ s) head) as [<-|Hne]; [destruct b|]; cbn [negb andb fst snd].
    + apply (inv_local _ _ _ _ _ Hinv Hi); cbn; lia || done.
    + by eapply inv_deq_cas.
    + apply (inv_local _ _ _ _ _ Hinv Hi); cbn; lia || done.
  - by eapply inv_deq_read.
  - by apply inv_deq_publish.
Qed.

Lemma within_size c : inv c → (tail_ c.1 <= head_ c.1 + max_size_)%Z.
Proof using Hk HN.
  intros Hinv. pose proof size_bounds. pose proof (i_order _ Hinv).
  destruct (decide (tail_ c.1 = 0%Z)) as [|Hpos]; [lia|].
  destruct (slot_of c (tail_ c.1 - 1) Hinv ltac:(lia)) as (e&u&_&Hu&_&Hcong). destruct Hu. lia.
Qed.

Lemma mpmc_inv_init c : init c → inv c.
Proof using Hk HN.
  intros (n&d&->). pose proof size_bounds.
  assert (∀ j p, replicate n (@Idle) !! j = Some p → p = Idle) as Hidle.
  { intros j p Hj. by apply lookup_replicate in Hj as [? _]. }
  split; cbn [fst snd make head_ tail_ queue_ log out].
  - by rewrite length_fmap, length_seq.
  - lia.
  - done.
  - intros i e. rewrite list_lookup_fmap, fmap_Some. intros (j&Hj&->).
    apply lookup_seq in Hj as [-> Hj]. exists (Z.of_nat i).
    split; cbn [make head_ tail_ log generation value]; try lia.
    rewrite Z.mod_small by lia. lia.
  - intros j p Hj. by rewrite (Hidle j p Hj).
  - intros j j' p p' t Hj _. by rewrite (Hidle j p Hj).
  - intros j j' p p' t Hj _. by rewrite (Hidle j p Hj).
  - split; [constructor|]. intros h x []%elem_of_nil.
  - by rewrite count_replicate.
Qed.

Lemma mpmc_inv_reachable c : reachable init step c → inv c.
Proof using Hk HN. apply invariant_reachable; [apply mpmc_inv_init|apply mpmc_inv_step]. Qed.

End MPMC.
End MPMCBoundedQueue.

Section Properties.
Import MPMCBoundedQueue.
Context {T : Type}.

(** C14 The queue is first in, first out and loses nothing, whatever the
    interleaving: with a size that is a power of two and before the counters come
    near 2^64, it never holds more than its size; what a consumer with ticket [h]
    takes is the value of the producer with ticket [h], no ticket is served twice,
    each ticket below [head_] has been served or is about to be; and two threads
    that are between taking a ticket and giving up the slot work on different
    slots. *)
Theorem mpmc_fifo (max_size_ k : Z) (c : shared (T := T) * list pc) :
  (1 <= k <= 62)%Z → max_size_ = (2 ^ k)%Z →
  reachable (init max_size_) (step max_size_) c →
  (0 <= head_ c.1 <= tail_ c.1 ∧ tail_ c.1 <= head_ c.1 + max_size_)%Z ∧
  Z.of_nat (length (log c.1)) = tail_ c.1 ∧
  NoDup (out c.1).*1 ∧
  (∀ h x, (h, x) ∈ out c.1 → (0 <= h < head_ c.1)%Z ∧ log c.1 !! Z.to_nat h = Some x) ∧
  Z.of_nat (length (out c.1) + count reads c.2) = head_ c.1 ∧
  (∀ i j p q t u, i ≠ j → c.2 !! i = Some p → c.2 !! j = Some q →
     ticket p = Some t → ticket q = Some u → index max_size_ t ≠ index max_size_ u).
Proof.
  intros Hk HN Hc. pose proof (mpmc_inv_reachable max_size_ k Hk HN c Hc) as Hinv.
  pose proof (size_bounds max_size_ k Hk HN). pose proof (i_order _ _ Hinv) as Ho.
  split_and!; try apply Hinv; try lia.
  - by apply (within_size max_size_ k).
  - intros i j p q t u Hne Hi Hj Hp Hq. by apply not_eq_sym, (exclusive max_size_ k Hk HN c i j p q t u).
Qed.

(** [Enqueue] answers [false] only when the queue is full or the slot it needs is
    still being emptied, [Dequeue] only when it is empty or the slot it needs is
    still being filled, at the moment of the test, even if the local copy of the
    counter was read long before. *)
Theorem mpmc_answers (max_size_ k : Z) (c : shared (T := T) * list pc) (i : nat) :
  (1 <= k <= 62)%Z → max_size_ = (2 ^ k)%Z →
  reachable (init max_size_) (step max_size_) c → (tail_ c.1 + 2 * max_size_ < 2 ^ 64)%Z →
  (∀ v tail, c.2 !! i = Some (EnqCheck v tail) →
     Enqueue_check max_size_ c.1 v tail = Returned false →
     tail_ c.1 = (head_ c.1 + max_size_)%Z ∨
     ∃ j p, c.2 !! j = Some p ∧ deq_ticket p = Some (tail_ c.1 - max_size_)%Z) ∧
  (∀ head, c.2 !! i = Some (DeqCheck head) → Dequeue_check max_size_ c.1 head = Returned false →
     tail_ c.1 = head_ c.1 ∨ ∃ j p, c.2 !! j = Some p ∧ enq_ticket p = Some (head_ c.1)).
Proof.
  intros Hk HN Hc Hb. pose proof (mpmc_inv_reachable max_size_ k Hk HN c Hc) as Hinv.
  pose proof (size_bounds max_size_ k Hk HN). pose proof (i_order _ _ Hinv) as Ho.
  pose proof (within_size max_size_ k Hk HN c Hinv) as Hsize. split.
  - intros v t Hi. pose proof (i_pcs _ _ Hinv _ _ Hi) as Ht. cbn in Ht.
    destruct (slot_of max_size_ k Hk HN c t Hinv ltac:(lia)) as (e&u&He&Hu&Hg&Hcong). destruct Hu.
    unfold Enqueue_check, looks_full. rewrite Hg, (bit_mask_eq max_size_ k), uwrap_small by (done || lia).
    destruct (Z.leb_spec (generation e + (max_size_ - 1)) t) as [Hle|]; [intros _|done].
    destruct (decide (tail_ c.1 = head_ c.1 + max_size_)%Z) as [|Hnf]; [by left|right].
    replace (tail_ c.1 - max_size_)%Z with u by lia. apply slot_consumer0; lia.
  - intros h Hi. pose proof (i_pcs _ _ Hinv _ _ Hi) as Hh. cbn in Hh.
    destruct (slot_of max_size_ k Hk HN c h Hinv ltac:(lia)) as (e&u&He&Hu&Hg&Hcong). destruct Hu.
    unfold Dequeue_check, looks_empty. rewrite Hg, uwrap_small by lia.
    destruct (Z.ltb_spec (generation e) (h + 1)) as [Hlt|]; [intros _|done].
    destruct (decide (tail_ c.1 = head_ c.1)) as [|Hne]; [by left|right].
    replace (head_ c.1) with u by lia. apply slot_producer0; lia.
Qed.
End Properties.

Section Witnesses.
Import MPMCBoundedQueue.

(** A queue of size 2 after one thread pushed 7 and another has taken it; before
    that, when the second one looks into the queue too early. *)
Definition pushed_and_taken : shared (T := Z) * list (pc (T := Z)) :=
  (mkShared 1 1 [mkElement 2 0%Z; mkElement 1 0%Z] [7%Z] [(0%Z, 7%Z)], [Returned true; Returned true]).
Definition being_pushed : shared (T := Z) * list (pc (T := Z)) :=
  (mkShared 0 1 [mkElement 0 0%Z; mkElement 1 0%Z] [7%Z] [], [EnqWrite 7%Z 0%Z; DeqCheck 0%Z]).

Ltac take_step i r :=
  eapply rtc_l; [split; [exists i; eexists _, _, _; split_and!; [reflexivity|apply r|reflexivity]
                        |vm_compute; reflexivity]|cbn].

Lemma being_pushed_reachable : reachable (init 2) (step 2) being_pushed.
Proof.
  exists (make 2 0%Z, [Idle; Idle]). split; [by exists 2, 0%Z|].
  take_step 0 (call_Enqueue 2 (make 2 0%Z) 7%Z). take_step 0 (enq_load (T := Z) 2).
  take_step 0 (enq_check (T := Z) 2). take_step 0 (enq_cas (T := Z) 2 false).
  take_step 1 (call_Dequeue (T := Z) 2). take_step 1 (deq_load (T := Z) 2).
  apply rtc_refl.
Defined.

Lemma pushed_and_taken_reachable : reachable (init 2) (step 2) pushed_and_taken.
Proof.
  destruct being_pushed_reachable as (c0&H0&Hc). exists c0. split; [exact H0|]. etrans; [exact Hc|].
  take_step 0 (enq_write (T := Z) 2). take_step 0 (enq_publish (T := Z) 2).
  take_step 1 (deq_check (T := Z) 2). take_step 1 (deq_cas (T := Z) 2 false).
  take_step 1 (deq_read (T := Z) 2 0%Z). take_step 1 (deq_publish (T := Z) 2).
  apply rtc_refl.
Defined.

Lemma mpmc_fifo_witness :
  reachable (init 2) (step 2) pushed_and_taken ∧ log pushed_and_taken.1 !! 0 = Some 7%Z.
Proof.
  split; [exact pushed_and_taken_reachable|].
  apply (mpmc_fifo 2 1 pushed_and_taken ltac:(lia) eq_refl pushed_and_taken_reachable) with (h := 0%Z).
  apply list_elem_of_singleton. reflexivity.
Defined.

Lemma mpmc_answers_witness :
  Dequeue_check 2 being_pushed.1 0 = Returned false ∧
  (tail_ being_pushed.1 = head_ being_pushed.1 ∨
   ∃ j p, being_pushed.2 !! j = Some p ∧ enq_ticket p = Some (head_ being_pushed.1)).
Proof.
  split; [reflexivity|].
  apply (mpmc_answers 2 1 being_pushed 1 ltac:(lia) eq_refl being_pushed_reachable) with (head := 0%Z).
  - vm_compute. reflexivity.
  - reflexivity.
  - reflexivity.
Defined.
End Witnesses.
