(* ===== verification/LockFree.v ===== *)
(** * Hazard pointers and the lock-free stack (hazard-ptr, lock-free-stack)

    Nodes live in a heap; [delete] takes an address out of it and [new] may give the
    same address again.  Each registered thread has a hazard pointer; a node that
    was taken off the stack is retired, and a scan of the retired nodes frees those
    that no hazard pointer points to.  A step of the model is one access to an
    atomic variable, to a node or one critical section of [threads_lock] (reading
    the hazard pointers, which [ScanFreeList] does under that lock, is one step for
    each thread).  All the atomic operations are sequentially consistent, as in the
    source. *)

From S2P Require Import Prelude.

Abbreviation addr := positive.

Section Model.
Context {T : Type}.

Record Node : Type := mkNode { value : T; next : option addr }.

(** What the operations on the stack did, at the step at which each takes effect. *)
Inductive event : Type :=
| EPush (v : T)
| EPop (v : T)
| EEmpty
| EClear.

(** The history is auxiliary.  A list of [RetiredPtr] is the list of the values they
    hold. *)
Record shared : Type := mkShared {
  heap : gmap addr Node;
  head_ : option addr;
  hazard_ptr : gmap nat addr;
  threads : list nat;
  threads_lock : bool;
  free_list : list addr;
  approximate_free_list_size : Z;
  scan_lock : bool;
  history : list event
}.

Definition kFreeListMaxSize : Z := 15.

Definition set_heap f s := mkShared (f (heap s)) (head_ s) (hazard_ptr s) (threads s) (threads_lock s)
  (free_list s) (approximate_free_list_size s) (scan_lock s) (history s).
Definition set_head h e s := mkShared (heap s) h (hazard_ptr s) (threads s) (threads_lock s)
  (free_list s) (approximate_free_list_size s) (scan_lock s) (history s ++ [e]).
Definition set_hazard i (h : option addr) s := mkShared (heap s) (head_ s) (partial_alter (λ _, h) i (hazard_ptr s))
  (threads s) (threads_lock s) (free_list s) (approximate_free_list_size s) (scan_lock s) (history s).
Definition set_threads ts lock s := mkShared (heap s) (head_ s) (hazard_ptr s) ts lock
  (free_list s) (approximate_free_list_size s) (scan_lock s) (history s).
Definition set_free_list l s := mkShared (heap s) (head_ s) (hazard_ptr s) (threads s) (threads_lock s)
  l (approximate_free_list_size s) (scan_lock s) (history s).
Definition set_size n s := mkShared (heap s) (head_ s) (hazard_ptr s) (threads s) (threads_lock s)
  (free_list s) n (scan_lock s) (history s).
Definition set_scan_lock b s := mkShared (heap s) (head_ s) (hazard_ptr s) (threads s) (threads_lock s)
  (free_list s) (approximate_free_list_size s) b (history s).
Definition note e s := mkShared (heap s) (head_ s) (hazard_ptr s) (threads s) (threads_lock s)
  (free_list s) (approximate_free_list_size s) (scan_lock s) (history s ++ [e]).

(** Where [Retire] and [ScanFreeList] return to: into [Pop], which has read its
    value, into the loop of [Clear], or out of [UnregisterThread].  [rest] is
    auxiliary: the nodes from [old_head] on. *)
Inductive cont : Type :=
| InPop (v : T)
| InClear (old_head : option addr) (rest : list (addr * T))
| InUnregister.

(** Where a thread is.  [top] is auxiliary: the value on the top of the stack when
    the thread took it off. *)
Inductive pc : Type :=
| Outside
| Idle
| PushLoad (v : T)
| PushNew (v : T) (old_head : option addr)
| PushCas (new_head : addr) (old_head : option addr)
| AcquireLoad
| AcquireStore (value : option addr)
| AcquireCheck (value : option addr)
| PopNext (old_head : addr)
| PopCas (old_head : addr) (next : option addr)
| PopValue (old_head : addr) (top : T)
| PopRelease (old_head : addr) (v : T)
| Popped (result : option T)
| ClearLoad
| ClearCas (old_head : option addr)
| ClearWalk (old_head : option addr) (rest : list (addr * T))
| RetireLoad (a : addr) (k : cont)
| RetireCas (a : addr) (k : cont)
| RetireAdd (k : cont)
| RetireTest (k : cont)
| ScanStore (k : cont)
| ScanTryLock (k : cont)
| ScanExchange (k : cont)
| ScanLockThreads (retired : list addr) (k : cont)
| ScanHazards (todo : list nat) (hazard retired : list addr) (k : cont)
| ScanFree (hazard retired : list addr) (k : cont)
| ScanKeep (a : addr) (hazard retired : list addr) (k : cont)
| ScanUnlock (k : cont)
| Undefined.

Definition return_to (k : cont) : pc :=
  match k with
  | InPop v => Popped (Some v)
  | InClear old_head rest => ClearWalk old_head rest
  | InUnregister => Outside
  end.

(** What the source leaves open: whether [compare_exchange_weak] fails for no
    reason, the address [new] gives, the order in which the set of threads is
    visited. *)
Record choice : Type := mkChoice { spurious : bool; fresh : addr; order : list nat }.

Definition Push_step (c : choice) (s : shared) (p : pc) : option (shared * pc) :=
  match p with
  | PushLoad v => Some (s, PushNew v (head_ s))
  | PushNew v old_head =>
      match heap s !! fresh c with
      | None => Some (set_heap <[fresh c := mkNode v old_head]> s, PushCas (fresh c) old_head)
      | Some _ => None
      end
  | PushCas new_head old_head =>
      match heap s !! new_head with
      | Some n =>
          if bool_decide (head_ s = old_head) && negb (spurious c)
          then Some (set_head (Some new_head) (EPush (value n)) s, Idle)
          else Some (set_heap <[new_head := mkNode (value n) (head_ s)]> s, PushCas new_head (head_ s))
      | None => Some (s, Undefined)
      end
  | _ => None
  end.

(** [Acquire(&head_)] as [Pop] calls it. *)
Definition Acquire_step (i : nat) (s : shared) (p : pc) : option (shared * pc) :=
  match p with
  | AcquireLoad => Some (s, AcquireStore (head_ s))
  | AcquireStore value => Some (set_hazard i value s, AcquireCheck value)
  | AcquireCheck value =>
      if bool_decide (head_ s = value) then
        match value with
        | None => Some (note EEmpty s, Popped None)
        | Some old_head => Some (s, PopNext old_head)
        end
      else Some (s, AcquireStore (head_ s))
  | _ => None
  end.

Definition Pop_step (c : choice) (i : nat) (s : shared) (p : pc) : option (shared * pc) :=
  match p with
  | PopNext old_head =>
      match heap s !! old_head with
      | Some n => Some (s, PopCas old_head (next n))
      | None => Some (s, Undefined)
      end
  | PopCas old_head next =>
      if bool_decide (head_ s = Some old_head) && negb (spurious c) then
        match heap s !! old_head with
        | Some n => Some (set_head next (EPop (value n)) s, PopValue old_head (value n))
        | None => Some (s, Undefined)
        end
      else Some (s, AcquireLoad)
  | PopValue old_head top =>
      match heap s !! old_head with
      | Some n => Some (s, PopRelease old_head (value n))
      | None => Some (s, Undefined)
      end
  | PopRelease old_head v => Some (set_hazard i None s, RetireLoad old_head (InPop v))
  | Popped _ => Some (s, Idle)
  | _ => None
  end.

(** The nodes from an address on, as far as [n] goes. *)
Fixpoint nodes_from (n : nat) (h : gmap addr Node) (a : option addr) : list (addr * T) :=
  match n, a with
  | S n, Some a =>
      match h !! a with Some m => (a, value m) :: nodes_from n h (next m) | None => [] end
  | _, _ => []
  end.

Definition Clear_step (c : choice) (s : shared) (p : pc) : option (shared * pc) :=
  match p with
  | ClearLoad => Some (s, ClearCas (head_ s))
  | ClearCas old_head =>
      if bool_decide (head_ s = old_head) && negb (spurious c)
      then Some (set_head None EClear s, ClearWalk old_head (nodes_from (size (heap s)) (heap s) old_head))
      else Some (s, ClearLoad)
  | ClearWalk old_head rest =>
      match old_head with
      | None => Some (s, Idle)
      | Some node =>
          match heap s !! node with
          | Some n => Some (s, RetireLoad node (InClear (next n) (tail rest)))
          | None => Some (s, Undefined)
          end
      end
  | _ => None
  end.

(** The new [RetiredPtr] points to what was loaded from [free_list]; when the
    comparison succeeds, that is what the list is. *)
Definition Retire_step (c : choice) (s : shared) (p : pc) : option (shared * pc) :=
  match p with
  | RetireLoad a k => Some (s, RetireCas a k)
  | RetireCas a k =>
      if negb (spurious c) then Some (set_free_list (a :: free_list s) s, RetireAdd k)
      else Some (s, RetireCas a k)
  | RetireAdd k => Some (set_size (u64 (approximate_free_list_size s + 1)) s, RetireTest k)
  | RetireTest k =>
      if (kFreeListMaxSize <? approximate_free_list_size s)%Z
      then Some (s, ScanStore k) else Some (s, return_to k)
  | _ => None
  end.

Definition ScanFreeList_step (c : choice) (s : shared) (p : pc) : option (shared * pc) :=
  match p with
  | ScanStore k => Some (set_size 0 s, ScanTryLock k)
  | ScanTryLock k =>
      if scan_lock s then Some (s, return_to k) else Some (set_scan_lock true s, ScanExchange k)
  | ScanExchange k => Some (set_free_list [] s, ScanLockThreads (free_list s) k)
  | ScanLockThreads retired k =>
      if threads_lock s then None
      else if bool_decide (order c ≡ₚ threads s)
      then Some (set_threads (threads s) true s, ScanHazards (order c) [] retired k) else None
  | ScanHazards (thread :: todo) hazard retired k =>
      Some (s, ScanHazards todo (match hazard_ptr s !! thread with
                                 | Some a => hazard ++ [a] | None => hazard end) retired k)
  | ScanHazards [] hazard retired k => Some (set_threads (threads s) false s, ScanFree hazard retired k)
  | ScanFree hazard (a :: retired) k =>
      if bool_decide (a ∈ hazard) then Some (s, ScanKeep a hazard retired k)
      else Some (set_heap (delete a) s, ScanFree hazard retired k)
  | ScanFree hazard [] k => Some (s, ScanUnlock k)
  | ScanKeep a hazard retired k =>
      if negb (spurious c) then Some (set_free_list (a :: free_list s) s, ScanFree hazard retired k)
      else Some (s, ScanKeep a hazard retired k)
  | ScanUnlock k => Some (set_scan_lock false s, return_to k)
  | _ => None
  end.

Definition RegisterThread_step (i : nat) (s : shared) (p : pc) : option (shared * pc) :=
  match p with
  | Outside => if threads_lock s then None else Some (set_threads (i :: threads s) false s, Idle)
  | _ => None
  end.

(** Called outside of the other operations. *)
Definition UnregisterThread_step (i : nat) (s : shared) (p : pc) : option (shared * pc) :=
  match p with
  | Idle =>
      if threads_lock s then None
      else let ts := filter (λ j, j ≠ i) (threads s) in
           Some (set_threads ts false s, if length ts =? 0 then ScanStore InUnregister else Outside)
  | _ => None
  end.

Inductive rule (i : nat) (s : shared) : pc → shared → pc → Prop :=
| call_Push v : rule i s Idle s (PushLoad v)
| call_Pop : rule i s Idle s AcquireLoad
| call_Clear : rule i s Idle s ClearLoad
| do_Push c p s' p' : Push_step c s p = Some (s', p') → rule i s p s' p'
| do_Acquire p s' p' : Acquire_step i s p = Some (s', p') → rule i s p s' p'
| do_Pop c p s' p' : Pop_step c i s p = Some (s', p') → rule i s p s' p'
| do_Clear c p s' p' : Clear_step c s p = Some (s', p') → rule i s p s' p'
| do_Retire c p s' p' : Retire_step c s p = Some (s', p') → rule i s p s' p'
| do_Scan c p s' p' : ScanFreeList_step c s p = Some (s', p') → rule i s p s' p'
| do_Register p s' p' : RegisterThread_step i s p = Some (s', p') → rule i s p s' p'
| do_Unregister p s' p' : UnregisterThread_step i s p = Some (s', p') → rule i s p s' p'.

Definition step (c c' : shared * list pc) : Prop :=
  ∃ i p s' p', c.2 !! i = Some p ∧ rule i c.1 p s' p' ∧ c' = (s', <[i:=p']> c.2).

Definition make : shared := mkShared ∅ None ∅ [] false [] 0 false [].

Definition init (c : shared * list pc) : Prop := ∃ n, c = (make, replicate n Outside).

(** ** What a stack is *)

Inductive legal : list event → list T → Prop :=
| legal_nil : legal [] []
| legal_push es l v : legal es l → legal (es ++ [EPush v]) (v :: l)
| legal_pop es l v : legal es (v :: l) → legal (es ++ [EPop v]) l
| legal_empty es : legal es [] → legal (es ++ [EEmpty]) []
| legal_clear es l : legal es l → legal (es ++ [EClear]) [].

(** The nodes linked from an address, with their values. *)
Fixpoint chain (h : gmap addr Node) (a : option addr) (l : list (addr * T)) : Prop :=
  match l with
  | [] => a = None
  | (b, v) :: l => a = Some b ∧ ∃ nxt, h !! b = Some (mkNode v nxt) ∧ chain h nxt l
  end.

(** ** The invariant

    Each node of the heap has one owner at a time. *)
Inductive place : Type :=
| Private (i : nat)
| InStack
| Held (i : nat)
| Retired
| Scanned (i : nat).

Definition scan_view (p : pc) : option (list nat * list addr * list addr) :=
  match p with
  | ScanLockThreads r _ => None
  | ScanHazards todo hz r _ => Some (todo, hz, r)
  | ScanFree hz r _ => Some ([], hz, r)
  | ScanKeep a hz r _ => Some ([], hz, r)
  | _ => None
  end.

Definition registered (p : pc) : bool :=
  match p with
  | Outside => false
  | ScanStore InUnregister | ScanTryLock InUnregister | ScanExchange InUnregister
  | ScanLockThreads _ InUnregister | ScanHazards _ _ _ InUnregister | ScanFree _ _ InUnregister
  | ScanKeep _ _ _ InUnregister | ScanUnlock InUnregister => false
  | RetireLoad _ InUnregister | RetireCas _ InUnregister | RetireAdd InUnregister
  | RetireTest InUnregister => false
  | _ => true
  end.

(** The nodes a thread answers for. *)
Definition cont_nodes (k : cont) : list addr :=
  match k with InClear _ rest => rest.*1 | _ => [] end.
Definition owned (p : pc) : list addr :=
  match p with
  | PushCas a _ | PopValue a _ | PopRelease a _ => [a]
  | ClearWalk _ rest => rest.*1
  | RetireLoad a k | RetireCas a k => a :: cont_nodes k
  | RetireAdd k | RetireTest k | ScanStore k | ScanTryLock k | ScanExchange k | ScanUnlock k =>
      cont_nodes k
  | ScanLockThreads r k | ScanHazards _ _ r k | ScanFree _ r k => r ++ cont_nodes k
  | ScanKeep a _ r k => a :: r ++ cont_nodes k
  | _ => []
  end.

Definition mine (j : nat) (o : place) : Prop := o = Private j ∨ o = Held j ∨ o = Scanned j.

Section Invariant.
Context (owner : gmap addr place) (s : shared) (l : list pc).

(** Thread [i] may use node [a]: its hazard pointer was there while [a] was on the
    stack, and a scan that may free [a] has seen it or will. *)
Record protects (i : nat) (a : addr) : Prop := {
  p_hazard : hazard_ptr s !! i = Some a;
  p_heap : is_Some (heap s !! a);
  p_owner : ∃ o, owner !! a = Some o ∧ ∀ j, o ≠ Private j;
  p_seen : ∀ k p todo hz r, l !! k = Some p → scan_view p = Some (todo, hz, r) → a ∈ r →
    i ∈ todo ∨ a ∈ hz
}.

Definition held (i : nat) (nodes : list addr) : Prop :=
  NoDup nodes ∧ ∀ a, a ∈ nodes → owner !! a = Some (Held i).
Definition scanned (i : nat) (nodes : list addr) : Prop :=
  NoDup nodes ∧ ∀ a, a ∈ nodes → owner !! a = Some (Scanned i).

Definition cont_ok (i : nat) (k : cont) (nodes : list addr) : Prop :=
  match k with
  | InClear old_head rest => chain (heap s) old_head rest ∧ held i (nodes ++ rest.*1)
  | _ => held i nodes
  end.

Definition pc_ok (i : nat) (p : pc) : Prop :=
  match p with
  | PushCas a old_head =>
      (∃ v, heap s !! a = Some (mkNode v old_head)) ∧ owner !! a = Some (Private i)
  | AcquireCheck value => hazard_ptr s !! i = value
  | PopNext a => protects i a
  | PopCas a nxt => protects i a ∧ ∃ v, heap s !! a = Some (mkNode v nxt)
  | PopValue a top => owner !! a = Some (Held i) ∧ ∃ nxt, heap s !! a = Some (mkNode top nxt)
  | PopRelease a v => owner !! a = Some (Held i)
  | ClearWalk old_head rest => cont_ok i (InClear old_head rest) []
  | RetireLoad a k | RetireCas a k => cont_ok i k [a]
  | RetireAdd k | RetireTest k | ScanStore k | ScanTryLock k | ScanExchange k | ScanUnlock k =>
      cont_ok i k []
  | ScanLockThreads r k | ScanHazards _ _ r k | ScanFree _ r k => scanned i r ∧ cont_ok i k []
  | ScanKeep a _ r k => scanned i (a :: r) ∧ cont_ok i k []
  | Undefined => False
  | _ => True
  end.

Record inv_with (st : list (addr * T)) : Prop := {
  i_dom : ∀ a, is_Some (heap s !! a) ↔ is_Some (owner !! a);
  i_chain : chain (heap s) (head_ s) st;
  i_nodup : NoDup st.*1;
  i_stack : ∀ a, a ∈ st.*1 ↔ owner !! a = Some InStack;
  i_legal : legal (history s) st.*2;
  i_retired : NoDup (free_list s) ∧ ∀ a, a ∈ free_list s ↔ owner !! a = Some Retired;
  i_threads : ∀ i p, l !! i = Some p → registered p = true → i ∈ threads s;
  i_pcs : ∀ i p, l !! i = Some p → pc_ok i p;
  i_owned : ∀ a i o, owner !! a = Some o → mine i o → ∃ p, l !! i = Some p ∧ a ∈ owned p
}.
End Invariant.

Definition inv (c : shared * list pc) : Prop := ∃ owner st, inv_with owner c.1 c.2 st.

(** ** A step of one thread and the others *)

(** What a step of thread [i] leaves alone: the nodes of other threads and the
    nodes they may use. *)
Record frame (owner : gmap addr place) (s : shared) (l : list pc) (i : nat)
    (owner' : gmap addr place) (s' : shared) (p' : pc) : Prop := {
  f_mine : ∀ j a o, j ≠ i → owner !! a = Some o → mine j o →
    owner' !! a = Some o ∧ heap s' !! a = heap s !! a;
  f_hazard : ∀ j, j ≠ i → hazard_ptr s' !! j = hazard_ptr s !! j;
  f_prot : ∀ j a, j ≠ i → j ∈ threads s → protects owner s l j a →
    heap s' !! a = heap s !! a ∧ (∃ o, owner' !! a = Some o ∧ ∀ j, o ≠ Private j) ∧
    ∀ todo hz r, scan_view p' = Some (todo, hz, r) → a ∈ r → j ∈ todo ∨ a ∈ hz;
  f_threads : ∀ j, j ≠ i → j ∈ threads s → j ∈ threads s';
  f_back : ∀ j a o, j ≠ i → owner' !! a = Some o → mine j o → owner !! a = Some o
}.

Lemma chain_frame h h' a l :
  (∀ b, b ∈ l.*1 → h' !! b = h !! b) → chain h a l → chain h' a l.
Proof.
  revert a. induction l as [|[b v] l IH]; intros a Hh; [done|]. cbn.
  intros (->&nxt&Hb&Hl). split; [done|]. exists nxt. split.
  - rewrite Hh; [done|by constructor].
  - apply IH; [|done]. intros c Hc. apply Hh. by constructor.
Qed.

Section Frame.
Context (owner : gmap addr place) (s : shared) (l : list pc) (i : nat)
    (owner' : gmap addr place) (s' : shared) (p' : pc) (Hf : frame owner s l i owner' s' p').

Lemma protects_frame j a : j ≠ i → j ∈ threads s → protects owner s l j a →
  protects owner' s' (<[i:=p']> l) j a ∧ heap s' !! a = heap s !! a.
Proof using Hf.
  intros Hne Hj Hp. destruct (f_prot _ _ _ _ _ _ _ Hf j a Hne Hj Hp) as (Hh&Ho&Hs).
  destruct Hp as [Hz Hheap _ Hseen]. split; [|done]. split.
  - by rewrite (f_hazard _ _ _ _ _ _ _ Hf).
  - by rewrite Hh.
  - done.
  - intros k q todo hz r [[-> ->]|[_ Hk]]%insert_inv Hv Ha; [by eapply Hs|by eapply Hseen].
Qed.

Lemma held_frame j nodes : j ≠ i → held owner j nodes → held owner' j nodes.
Proof using Hf.
  intros Hne [Hnd Hn]. split; [done|]. intros a Ha.
  apply (f_mine _ _ _ _ _ _ _ Hf j); [done|by apply Hn|unfold mine; auto].
Qed.

Lemma scanned_frame j nodes : j ≠ i → scanned owner j nodes → scanned owner' j nodes.
Proof using Hf.
  intros Hne [Hnd Hn]. split; [done|]. intros a Ha.
  apply (f_mine _ _ _ _ _ _ _ Hf j); [done|by apply Hn|unfold mine; auto].
Qed.

Lemma cont_frame j k nodes : j ≠ i → cont_ok owner s j k nodes → cont_ok owner' s' j k nodes.
Proof using Hf.
  intros Hne. destruct k as [v|old rest|]; cbn; try by apply held_frame.
  intros [Hc Hn]. split; [|by apply held_frame]. revert Hc. apply chain_frame. intros a Ha.
  apply (f_mine _ _ _ _ _ _ _ Hf j a (Held j)); [done| |unfold mine; auto].
  apply Hn, elem_of_app. by right.
Qed.

Lemma pc_frame j q : j ≠ i → (registered q = true → j ∈ threads s) →
  pc_ok owner s l j q → pc_ok owner' s' (<[i:=p']> l) j q.
Proof using Hf.
  intros Hne Hreg. assert (∀ a o, owner !! a = Some o → mine j o →
    owner' !! a = Some o ∧ heap s' !! a = heap s !! a) as Hmine
    by (intros; by eapply f_mine).
  unfold mine in Hmine.
  destruct q; cbn [pc_ok]; try done; try (by apply cont_frame);
    try (by intros [??]; split; [apply scanned_frame|apply cont_frame]).
  - intros [? Ho]. destruct (Hmine new_head (Private j) Ho) as [? ->]; auto.
  - by rewrite (f_hazard _ _ _ _ _ _ _ Hf).
  - intros Hp. by apply protects_frame; [|apply Hreg|].
  - intros [Hp ?]. destruct (protects_frame j old_head) as [? ->]; auto.
  - intros [Ho ?]. destruct (Hmine old_head (Held j) Ho) as [? ->]; auto.
  - intros Ho. destruct (Hmine old_head (Held j) Ho); auto.
Qed.

(** So a step is checked by looking at the thread that takes it and at the whole. *)
Lemma inv_frame p st st' :
  inv_with owner s l st → l !! i = Some p →
  (registered p' = true → i ∈ threads s') → pc_ok owner' s' (<[i:=p']> l) i p' →
  (∀ a o, owner' !! a = Some o → mine i o → a ∈ owned p') →
  (∀ a, is_Some (heap s' !! a) ↔ is_Some (owner' !! a)) →
  chain (heap s') (head_ s') st' → NoDup st'.*1 → (∀ a, a ∈ st'.*1 ↔ owner' !! a = Some InStack) →
  legal (history s') st'.*2 →
  NoDup (free_list s') ∧ (∀ a, a ∈ free_list s' ↔ owner' !! a = Some Retired) →
  inv_with owner' s' (<[i:=p']> l) st'.
Proof using Hf.
  intros [] Hi Hr Hp Hown ??????. split; try done.
  - intros j q [[-> ->]|[Hne Hj]]%insert_inv Hq; [auto|]. eapply f_threads; eauto.
  - intros j q [[-> ->]|[Hne Hj]]%insert_inv; [done|]. apply pc_frame; eauto.
  - intros a j o Ha Hm. destruct (decide (j = i)) as [->|Hne].
    + exists p'. split; [|eauto]. by rewrite list_lookup_insert_eq by by apply lookup_lt_Some in Hi.
    + rewrite list_lookup_insert_ne by done. eapply i_owned0; [|done]. by eapply f_back.
Qed.
End Frame.

(** Steps that leave the nodes where they are. *)
Lemma inv_quiet owner s l st i p s' p' :
  inv_with owner s l st → l !! i = Some p →
  heap s' = heap s → head_ s' = head_ s → free_list s' = free_list s → history s' = history s →
  (∀ j, j ≠ i → hazard_ptr s' !! j = hazard_ptr s !! j) →
  (∀ j, j ≠ i → j ∈ threads s → j ∈ threads s') →
  (registered p' = true → i ∈ threads s') →
  (∀ j a todo hz r, j ≠ i → j ∈ threads s → protects owner s l j a →
     scan_view p' = Some (todo, hz, r) → a ∈ r → j ∈ todo ∨ a ∈ hz) →
  (∀ a, a ∈ owned p → a ∈ owned p') →
  pc_ok owner s' (<[i:=p']> l) i p' →
  inv_with owner s' (<[i:=p']> l) st.
Proof.
  intros Hinv Hi Hheap Hhead Hfree Hhist Hhaz Hthr Hreg Hscan Hown Hok.
  eapply (inv_frame owner s l i); [|done|done|done|done|..].
  - split; [by intros ???? ->; rewrite Hheap|done| |done|done].
    intros j a Hne Hj Hp. rewrite Hheap. split_and!; [done|by destruct Hp|].
    intros todo hz r Hv. by apply (Hscan j a todo hz r).
  - intros a o Ha Hm. apply Hown. destruct (i_owned _ _ _ _ Hinv a i o Ha Hm) as (q&Hq&?).
    by replace p with q by congruence.
  - rewrite Hheap. by apply Hinv.
  - rewrite Hheap, Hhead. by apply Hinv.
  - by apply Hinv.
  - by apply Hinv.
  - rewrite Hhist. by apply Hinv.
  - rewrite Hfree. by apply Hinv.
Qed.

Lemma scan_owned owner s l st k p todo hz r a :
  inv_with owner s l st → l !! k = Some p → scan_view p = Some (todo, hz, r) → a ∈ r →
  owner !! a = Some (Scanned k).
Proof.
  intros Hinv Hk Hv Ha. pose proof (i_pcs _ _ _ _ Hinv k p Hk) as Hok.
  destruct p; try done; injection Hv as <- <- <-; destruct Hok as [[_ Hok] _]; apply Hok; try done.
  by constructor.
Qed.

Lemma protects_self owner s l i a p' :
  protects owner s l i a → scan_view p' = None → protects owner s (<[i:=p']> l) i a.
Proof.
  intros [] Hv. split; try done.
  intros k q todo hz r [[-> ->]|[_ Hk]]%insert_inv Hq Ha; [congruence|eauto].
Qed.

Lemma top_of_stack owner s l st a :
  inv_with owner s l st → head_ s = Some a →
  ∃ v nxt st', st = (a, v) :: st' ∧ heap s !! a = Some (mkNode v nxt) ∧ chain (heap s) nxt st' ∧
    owner !! a = Some InStack.
Proof.
  intros Hinv Hh. pose proof (i_chain _ _ _ _ Hinv) as Hc. rewrite Hh in Hc.
  destruct st as [|[b v] st']; [done|]. destruct Hc as ([= <-]&nxt&Ha&Hc).
  exists v, nxt, st'. split_and!; [done|done|done|]. apply (i_stack _ _ _ _ Hinv). by constructor.
Qed.

(** How the nodes of a place change when one node moves. *)
Lemma elsewhere (owner : gmap addr place) (ls : list addr) a o' pl :
  (∀ b, b ∈ ls ↔ owner !! b = Some pl) → owner !! a ≠ Some pl → o' ≠ pl →
  ∀ b, b ∈ ls ↔ <[a:=o']> owner !! b = Some pl.
Proof.
  intros Hls Ha Ho b. rewrite Hls, lookup_insert_Some. split; [|intuition congruence].
  intros Hb. right. split; [congruence|done].
Qed.

Lemma arrives (owner : gmap addr place) (ls : list addr) a pl :
  (∀ b, b ∈ ls ↔ owner !! b = Some pl) → ∀ b, b ∈ a :: ls ↔ <[a:=pl]> owner !! b = Some pl.
Proof.
  intros Hls b. rewrite elem_of_cons, Hls, lookup_insert_Some.
  destruct (decide (a = b)); intuition congruence.
Qed.

Lemma leaves (owner : gmap addr place) (ls : list addr) a o' pl :
  (∀ b, b ∈ a :: ls ↔ owner !! b = Some pl) → NoDup (a :: ls) → o' ≠ pl →
  ∀ b, b ∈ ls ↔ <[a:=o']> owner !! b = Some pl.
Proof.
  intros Hls [Ha _]%NoDup_cons Ho b. specialize (Hls b). rewrite elem_of_cons in Hls.
  rewrite lookup_insert_Some. destruct (decide (a = b)) as [<-|]; intuition congruence.
Qed.

Lemma dom_move (h : gmap addr Node) (owner : gmap addr place) a o' :
  (∀ b, is_Some (h !! b) ↔ is_Some (owner !! b)) → is_Some (h !! a) →
  ∀ b, is_Some (h !! b) ↔ is_Some (<[a:=o']> owner !! b).
Proof.
  intros Hd Ha b. rewrite lookup_insert_is_Some', Hd. split; [by right|].
  intros [<-|?]; [by apply Hd|done].
Qed.

Lemma held_stays (owner : gmap addr place) i nodes a o' :
  held owner i nodes → a ∉ nodes → held (<[a:=o']> owner) i nodes.
Proof.
  intros [Hnd Hn] Ha. split; [done|]. intros b Hb. rewrite lookup_insert_ne; [by apply Hn|].
  intros <-. done.
Qed.

Lemma scanned_stays (owner : gmap addr place) i nodes a o' :
  scanned owner i nodes → a ∉ nodes → scanned (<[a:=o']> owner) i nodes.
Proof.
  intros [Hnd Hn] Ha. split; [done|]. intros b Hb. rewrite lookup_insert_ne; [by apply Hn|].
  intros <-. done.
Qed.

Lemma frame_move owner s l i s' p' a o o' :
  owner !! a = Some o → (∀ j, j ≠ i → ¬ mine j o) → (∀ j, o' ≠ Private j) →
  (∀ j, j ≠ i → ¬ mine j o') →
  heap s' = heap s → hazard_ptr s' = hazard_ptr s → threads s' = threads s →
  (∀ j b todo hz r, j ≠ i → protects owner s l j b → scan_view p' = Some (todo, hz, r) → b ∈ r →
     j ∈ todo ∨ b ∈ hz) →
  frame owner s l i (<[a:=o']> owner) s' p'.
Proof.
  intros Ha Hm Ho' Hm' Hh Hz Ht Hs. split; rewrite ?Hh, ?Hz, ?Ht; [|done| |done|].
  - intros j b ob Hj Hb Hmine. split; [|done]. rewrite lookup_insert_ne; [done|].
    intros <-. apply (Hm j Hj). congruence.
  - intros j b Hj _ Hp. split_and!; [done| |intros todo hz r; by apply Hs].
    destruct Hp as [_ _ (ob&Hb&Hpr) _]. destruct (decide (a = b)) as [<-|Hne].
    + exists o'. by rewrite lookup_insert_eq.
    + exists ob. by rewrite lookup_insert_ne.
  - intros j b ob Hj Hb Hmine. apply lookup_insert_Some in Hb as [[<- <-]|[_ ?]]; [|done].
    by destruct (Hm' j Hj).
Qed.

(** All the nodes of the stack, or all the retired ones, go to one thread. *)
Definition all_to (from to o : place) : place :=
  match from, o with
  | InStack, InStack | Retired, Retired => to
  | _, _ => o
  end.

Lemma all_to_iff (owner : gmap addr place) from to pl (ls : list addr) :
  (∀ b, b ∈ ls ↔ owner !! b = Some pl) → pl ≠ from → pl ≠ to →
  ∀ b, b ∈ ls ↔ (all_to from to <$> owner) !! b = Some pl.
Proof.
  intros Hls Hf Ht b. rewrite Hls, lookup_fmap.
  destruct (owner !! b) as [o|]; cbn; [|done]. destruct from, o; cbn; intuition congruence.
Qed.

Lemma frame_all owner s l i s' p' from to :
  (from = InStack ∨ from = Retired) → (∀ j, to ≠ Private j) → (∀ j, j ≠ i → ¬ mine j to) →
  heap s' = heap s → hazard_ptr s' = hazard_ptr s → threads s' = threads s → scan_view p' = None →
  frame owner s l i (all_to from to <$> owner) s' p'.
Proof.
  intros Hfrom Hto Hto' Hh Hz Ht Hs. split; rewrite ?Hh, ?Hz, ?Ht; [|done| |done|].
  - intros j b o Hj Hb Hm. split; [|done]. rewrite lookup_fmap, Hb. cbn.
    destruct Hm as [->|[->| ->]], Hfrom as [->| ->]; done.
  - intros j b Hj _ Hp. split_and!; [done| |by rewrite Hs].
    destruct Hp as [_ _ (o&Hb&Hpr) _]. exists (all_to from to o). rewrite lookup_fmap, Hb.
    split; [done|]. destruct Hfrom as [->| ->], o; cbn; auto.
  - intros j b o Hj Hb Hmine. rewrite lookup_fmap in Hb. destruct (owner !! b) as [ob|]; [|done].
    injection Hb as <-. specialize (Hto' j Hj). destruct Hfrom as [->| ->], ob; done.
Qed.

Lemma chain_nodes h a l n : chain h a l → length l ≤ n → nodes_from n h a = l.
Proof.
  revert a n. induction l as [|[b v] l IH]; intros a n Hc Hn; cbn in *.
  - subst a. by destruct n.
  - destruct n as [|n]; [lia|]. destruct Hc as (->&nxt&Hb&Hc). cbn. rewrite Hb. cbn.
    by rewrite (IH nxt) by (done || lia).
Qed.

Lemma chain_length h a l : chain h a l → NoDup l.*1 → length l ≤ size h.
Proof.
  intros Hc Hnd. rewrite <- (length_fmap fst), <- size_dom, <- (size_list_to_set (C := gset addr)) by done.
  apply subseteq_size. intros b Hb%elem_of_list_to_set. apply elem_of_dom. clear Hnd.
  revert a Hc. induction l as [|[c v] l IH]; intros a Hc; [by apply elem_of_nil in Hb|].
  destruct Hc as (->&nxt&Hc'&Hc). apply elem_of_cons in Hb as [->|Hb]; [by eexists|by eapply IH].
Qed.

(** ** Each operation keeps the invariant *)

Section Step.
Context (owner : gmap addr place) (s : shared) (l : list pc) (st : list (addr * T)) (i : nat) (p : pc)
  (Hinv : inv_with owner s l st) (Hi : l !! i = Some p).

Lemma owned_now a o : owner !! a = Some o → mine i o → a ∈ owned p.
Proof using Hi Hinv.
  intros Ha Hm. destruct (i_owned _ _ _ _ Hinv a i o Ha Hm) as (q&Hq&?).
  by replace p with q by congruence.
Qed.

Lemma registered_now : registered p = true → i ∈ threads s.
Proof using Hi Hinv. by apply (i_threads _ _ _ _ Hinv). Qed.

Lemma alloc_inv v old a :
  p = PushNew v old → heap s !! a = None →
  inv (set_heap <[a := mkNode v old]> s, <[i := PushCas a old]> l).
Proof using Hi Hinv.
  intros Hp Ha. assert (owner !! a = None) as Ho.
  { apply eq_None_not_Some. rewrite <- (i_dom _ _ _ _ Hinv), Ha. by intros [? ?]. }
  assert (∀ b o, owner !! b = Some o → b ≠ a) as Hne by (intros b o Hb ->; congruence).
  exists (<[a := Private i]> owner), st. cbn [fst snd]. eapply (inv_frame owner s l i); [|done|done|..].
  - split; cbn; [|done| |done|].
    + intros j b o Hj Hb _. by rewrite !lookup_insert_ne by (eapply not_eq_sym, Hne, Hb).
    + intros j b Hj _ [_ _ (o&Hb&Hpr) _]. rewrite !lookup_insert_ne by (eapply not_eq_sym, Hne, Hb).
      split_and!; [done|eauto|done].
    + intros j b o Hj [[<- <-]|[_ ?]]%lookup_insert_Some; [|done]. by intros [[= ?]|[?|?]].
  - intros _. cbn. apply registered_now. by rewrite Hp.
  - cbn. split; [exists v; apply lookup_insert_eq|apply lookup_insert_eq].
  - intros b o [[<- <-]|[_ Hb]]%lookup_insert_Some Hm; [by constructor|].
    apply (owned_now b o Hb) in Hm. rewrite Hp in Hm. by apply elem_of_nil in Hm.
  - intros b. cbn. destruct (decide (a = b)) as [<-|?].
    + rewrite !lookup_insert_eq. split; eauto.
    + rewrite !lookup_insert_ne by done. apply (i_dom _ _ _ _ Hinv).
  - cbn. eapply chain_frame; [|apply Hinv]. intros b Hb.
    rewrite lookup_insert_ne; [done|]. eapply not_eq_sym, Hne. by apply (i_stack _ _ _ _ Hinv).
  - apply Hinv.
  - apply elsewhere; [apply Hinv|congruence|done].
  - apply Hinv.
  - split; [apply Hinv|]. apply elsewhere; [apply Hinv|congruence|done].
Qed.

Lemma push_inv a v old :
  p = PushCas a old → head_ s = old → heap s !! a = Some (mkNode v old) →
  inv (set_head (Some a) (EPush v) s, <[i := Idle]> l).
Proof using Hi Hinv.
  intros Hp Hh Ha. pose proof (i_pcs _ _ _ _ Hinv i p Hi) as Hok. rewrite Hp in Hok.
  destruct Hok as [_ Ho]. exists (<[a := InStack]> owner), ((a, v) :: st). cbn [fst snd].
  assert (a ∉ st.*1) as Hnew by (rewrite (i_stack _ _ _ _ Hinv); congruence).
  eapply (inv_frame owner s l i); [|done|done|..].
  - eapply frame_move; try done; [intros j Hj [[= ?]|[?|?]]; done|intros j _ [?|[?|?]]; done].
  - intros _. apply registered_now. by rewrite Hp.
  - done.
  - intros b o [[<- <-]|[Hne Hb]]%lookup_insert_Some Hm; [by destruct Hm as [?|[?|?]]|].
    apply (owned_now b o Hb) in Hm. rewrite Hp in Hm. apply list_elem_of_singleton in Hm. congruence.
  - apply dom_move; [apply Hinv|by eexists].
  - cbn. split; [done|]. exists old. split; [done|]. rewrite <- Hh. apply Hinv.
  - cbn. apply NoDup_cons. split; [done|apply Hinv].
  - apply arrives, Hinv.
  - cbn. constructor. apply Hinv.
  - split; [apply Hinv|]. apply elsewhere; [apply Hinv|congruence|done].
Qed.

Lemma relink_inv a v old :
  p = PushCas a old → heap s !! a = Some (mkNode v old) →
  inv (set_heap <[a := mkNode v (head_ s)]> s, <[i := PushCas a (head_ s)]> l).
Proof using Hi Hinv.
  intros Hp Ha. pose proof (i_pcs _ _ _ _ Hinv i p Hi) as Hok. rewrite Hp in Hok.
  destruct Hok as [_ Ho]. exists owner, st. cbn [fst snd].
  assert (∀ b o, owner !! b = Some o → o ≠ Private i → a ≠ b) as Hne by (intros ???? ->; congruence).
  eapply (inv_frame owner s l i); [|done|done|..].
  - split; cbn; [|done| |done|done].
    + intros j b o Hj Hb Hm. split; [done|]. rewrite lookup_insert_ne; [done|].
      eapply Hne; [done|]. destruct Hm as [->|[->| ->]]; congruence.
    + intros j b Hj _ [_ _ (o&Hb&Hpr) _]. rewrite lookup_insert_ne by (eapply Hne; [done|apply Hpr]).
      split_and!; [done|eauto|done].
  - intros _. apply registered_now. by rewrite Hp.
  - cbn. split; [exists v; apply lookup_insert_eq|done].
  - intros b o Hb Hm. apply (owned_now b o Hb) in Hm. by rewrite Hp in Hm.
  - intros b. cbn. rewrite <- (i_dom _ _ _ _ Hinv), lookup_insert_is_Some'.
    split; [intros [<-|?]; [by rewrite Ha|done]|by right].
  - cbn. eapply chain_frame; [|apply Hinv]. intros b Hb%(i_stack _ _ _ _ Hinv).
    rewrite lookup_insert_ne; [done|]. by eapply Hne.
  - apply Hinv.
  - apply Hinv.
  - apply Hinv.
  - apply Hinv.
Qed.

Lemma pop_inv a nxt :
  p = PopCas a nxt → head_ s = Some a →
  ∃ v, heap s !! a = Some (mkNode v nxt) ∧
    inv (set_head nxt (EPop v) s, <[i := PopValue a v]> l).
Proof using Hi Hinv.
  intros Hp Hh. pose proof (i_pcs _ _ _ _ Hinv i p Hi) as Hok. rewrite Hp in Hok.
  destruct Hok as [_ [v Hv]]. exists v. split; [done|].
  destruct (top_of_stack _ _ _ _ a Hinv Hh) as (v'&nxt'&st'&Hst&Ha&Hc&Ho).
  rewrite Ha in Hv. injection Hv as -> ->.
  pose proof (i_nodup _ _ _ _ Hinv) as Hnd. pose proof (i_stack _ _ _ _ Hinv) as Hin.
  pose proof (i_legal _ _ _ _ Hinv) as Hl. rewrite Hst in Hnd, Hin, Hl. cbn in Hnd, Hin, Hl.
  exists (<[a := Held i]> owner), st'. cbn [fst snd].
  eapply (inv_frame owner s l i); [|done|done|..].
  - eapply frame_move; try done; [intros j Hj [?|[?|?]]; done|intros j ? [?|[[= ?]|?]]; done].
  - intros _. apply registered_now. by rewrite Hp.
  - cbn. split; [apply lookup_insert_eq|]. by exists nxt.
  - intros b o [[<- <-]|[Hne Hb]]%lookup_insert_Some Hm; [by constructor|].
    apply (owned_now b o Hb) in Hm. rewrite Hp in Hm. by apply elem_of_nil in Hm.
  - apply dom_move; [apply Hinv|by eexists].
  - done.
  - by apply NoDup_cons in Hnd as [_ ?].
  - by apply leaves.
  - cbn. by constructor.
  - split; [apply Hinv|]. apply elsewhere; [apply Hinv|congruence|done].
Qed.

Lemma clear_inv old :
  p = ClearCas old → head_ s = old →
  inv (set_head None EClear s,
       <[i := ClearWalk old (nodes_from (size (heap s)) (heap s) old)]> l).
Proof using Hi Hinv.
  intros Hp Hh. pose proof (i_chain _ _ _ _ Hinv) as Hc. pose proof (i_nodup _ _ _ _ Hinv) as Hnd.
  rewrite (chain_nodes _ _ st) by (rewrite <- ?Hh; by try eapply chain_length).
  exists (all_to InStack (Held i) <$> owner), []. cbn [fst snd].
  assert (∀ b, b ∈ st.*1 → (all_to InStack (Held i) <$> owner) !! b = Some (Held i)) as Hheld.
  { intros b Hb%(i_stack _ _ _ _ Hinv). by rewrite lookup_fmap, Hb. }
  eapply (inv_frame owner s l i); [|done|done|..].
  - apply frame_all; try done; [by left|]. intros j ? [?|[[= ?]|?]]; done.
  - intros _. apply registered_now. by rewrite Hp.
  - cbn. split; [by rewrite <- Hh|]. split; [done|]. intros b Hb. by apply Hheld.
  - intros b o Hb Hm. rewrite lookup_fmap in Hb. destruct (owner !! b) as [ob|] eqn:Eb; [|done].
    injection Hb as <-. destruct (decide (b ∈ st.*1)) as [|Hno]; [done|].
    rewrite (i_stack _ _ _ _ Hinv), Eb in Hno. exfalso.
    assert (mine i ob) as Hm' by (destruct ob; done).
    apply (owned_now b ob Eb) in Hm'. rewrite Hp in Hm'. by apply elem_of_nil in Hm'.
  - intros b. by rewrite lookup_fmap, fmap_is_Some, <- (i_dom _ _ _ _ Hinv).
  - done.
  - constructor.
  - intros b. cbn. split; [by intros []%elem_of_nil|]. rewrite lookup_fmap.
    destruct (owner !! b) as [[]|]; done.
  - cbn. econstructor. apply Hinv.
  - split; [apply Hinv|]. apply all_to_iff; [apply Hinv|done..].
Qed.

Lemma retire_inv a k :
  cont_ok owner s i k [a] → (registered (RetireAdd k) = true → registered p = true) →
  owned p = a :: cont_nodes k →
  inv (set_free_list (a :: free_list s) s, <[i := RetireAdd k]> l).
Proof using Hi Hinv.
  intros Hk Hr Hp. exists (<[a := Retired]> owner), st. cbn [fst snd].
  assert (owner !! a = Some (Held i) ∧ cont_ok (<[a := Retired]> owner) s i k []) as [Ho Hk'].
  { destruct k as [v|old rest|]; cbn in *.
    - destruct Hk as [? Hk]. split; [apply Hk; by constructor|]. split; [constructor|by intros ? ?%elem_of_nil].
    - destruct Hk as [Hc [Hnd Hk]]. split; [apply Hk; by constructor|]. split; [done|].
      apply NoDup_cons in Hnd as [Ha Hnd]. apply held_stays; [|done]. split; [done|].
      intros b Hb. apply Hk. by constructor.
    - destruct Hk as [? Hk]. split; [apply Hk; by constructor|]. split; [constructor|by intros ? ?%elem_of_nil]. }
  assert (is_Some (heap s !! a)) as Hheap by (by apply (i_dom _ _ _ _ Hinv); eexists).
  eapply (inv_frame owner s l i); [|done|done|..].
  - eapply frame_move; try done; [intros j Hj [?|[[= ?]|?]]; done|intros j _ [?|[?|?]]; done].
  - intros Hr'. by apply registered_now, Hr.
  - done.
  - intros b o [[<- <-]|[Hne Hb]]%lookup_insert_Some Hm; [by destruct Hm as [?|[?|?]]|].
    apply (owned_now b o Hb) in Hm. rewrite Hp in Hm. by apply elem_of_cons in Hm as [->|?].
  - by apply dom_move; [apply Hinv|].
  - apply Hinv.
  - apply Hinv.
  - apply elsewhere; [apply Hinv|congruence|done].
  - apply Hinv.
  - cbn. split.
    + apply NoDup_cons. split; [|apply Hinv]. rewrite (proj2 (i_retired _ _ _ _ Hinv)). congruence.
    + apply arrives, Hinv.
Qed.

Lemma held_all_to nodes : held owner i nodes → held (all_to Retired (Scanned i) <$> owner) i nodes.
Proof. intros [Hnd Hh]. split; [done|]. intros b Hb. by rewrite lookup_fmap, (Hh b Hb). Qed.

Lemma take_inv k :
  p = ScanExchange k → inv (set_free_list [] s, <[i := ScanLockThreads (free_list s) k]> l).
Proof using Hi Hinv.
  intros Hp. pose proof (i_pcs _ _ _ _ Hinv i p Hi) as Hok. rewrite Hp in Hok. cbn in Hok.
  exists (all_to Retired (Scanned i) <$> owner), st. cbn [fst snd].
  eapply (inv_frame owner s l i); [|done|done|..].
  - apply frame_all; try done; [by right|]. intros j ? [?|[?|[= ?]]]; done.
  - intros Hr. apply registered_now. rewrite Hp. by destruct k.
  - cbn. split.
    + split; [apply Hinv|]. intros b Hb%(i_retired _ _ _ _ Hinv). by rewrite lookup_fmap, Hb.
    + destruct k; cbn in *; try by apply held_all_to. destruct Hok. split; [done|by apply held_all_to].
  - intros b o Hb Hm. rewrite lookup_fmap in Hb. destruct (owner !! b) as [ob|] eqn:Eb; [|done].
    injection Hb as <-. apply elem_of_app. destruct (decide (b ∈ free_list s)) as [|Hno]; [by left|right].
    rewrite (proj2 (i_retired _ _ _ _ Hinv)), Eb in Hno.
    assert (mine i ob) as Hm' by (destruct ob; done).
    apply (owned_now b ob Eb) in Hm'. by rewrite Hp in Hm'.
  - intros b. by rewrite lookup_fmap, fmap_is_Some, <- (i_dom _ _ _ _ Hinv).
  - apply Hinv.
  - apply Hinv.
  - apply all_to_iff; [apply Hinv|done..].
  - apply Hinv.
  - cbn. split; [constructor|]. intros b. split; [by intros []%elem_of_nil|]. rewrite lookup_fmap.
    destruct (owner !! b) as [[]|]; done.
Qed.

(** Freeing a node nobody may use. *)
Lemma free_inv a hz r k :
  p = ScanFree hz (a :: r) k → a ∉ hz →
  inv (set_heap (delete a) s, <[i := ScanFree hz r k]> l).
Proof using Hi Hinv.
  intros Hp Ha. pose proof (i_pcs _ _ _ _ Hinv i p Hi) as Hok. rewrite Hp in Hok.
  destruct Hok as [[[Har Hnd]%NoDup_cons Hs] Hk].
  assert (owner !! a = Some (Scanned i)) as Ho by (apply Hs; by constructor).
  assert (∀ b o, owner !! b = Some o → o ≠ Scanned i → a ≠ b) as Hne by (intros ???? ->; congruence).
  exists (delete a owner), st. cbn [fst snd]. eapply (inv_frame owner s l i); [|done|done|..].
  - split; cbn [heap set_heap hazard_ptr threads]; [|done| |done|].
    + intros j b o Hj Hb Hm. assert (a ≠ b) as Hab.
      { eapply Hne; [done|]. destruct Hm as [->|[->| ->]]; congruence. }
      by rewrite !lookup_delete_ne by done.
    + intros j b Hj _ [_ _ (o&Hb&Hpr) Hseen].
      assert (a ≠ b) as Hab.
      { intros <-. destruct (Hseen i p [] hz (a :: r)) as [[]%elem_of_nil|?]; try done.
        - by rewrite Hp.
        - by constructor. }
      rewrite !lookup_delete_ne by done. split_and!; [done|eauto|].
      intros todo hz' r' [= <- <- <-] Hr. apply (Hseen i p [] hz (a :: r)); [done|by rewrite Hp|].
      by constructor.
    + intros j b o _ [_ Hb]%lookup_delete_Some _. done.
  - intros Hr. apply registered_now. rewrite Hp. by destruct k.
  - cbn [pc_ok]. assert (scanned (delete a owner) i r) as Hs'.
    { split; [done|]. intros b Hb. rewrite lookup_delete_ne by (by intros <-). apply Hs. by constructor. }
    assert (∀ nodes, held owner i nodes → held (delete a owner) i nodes) as Hh.
    { intros nodes [Hn Hh]. split; [done|]. intros b Hb. rewrite lookup_delete_ne; [by apply Hh|].
      eapply Hne; [by apply Hh|done]. }
    split; [done|]. destruct k as [v|old rest|]; cbn in *; auto. destruct Hk as [Hc Hk].
    split; [|by apply Hh]. revert Hc. apply chain_frame. intros b Hb.
    rewrite lookup_delete_ne; [done|]. eapply Hne; [by apply Hk|done].
  - intros b o [Hab Hb]%lookup_delete_Some Hm. apply (owned_now b o Hb) in Hm. rewrite Hp in Hm.
    by apply elem_of_cons in Hm as [->|?].
  - intros b. cbn. destruct (decide (a = b)) as [<-|Hab].
    + rewrite !lookup_delete_eq. split; by intros [? ?].
    + rewrite !lookup_delete_ne by done. apply Hinv.
  - cbn. eapply chain_frame; [|apply Hinv]. intros b Hb%(i_stack _ _ _ _ Hinv).
    rewrite lookup_delete_ne; [done|]. by eapply Hne.
  - apply Hinv.
  - intros b. rewrite (i_stack _ _ _ _ Hinv), lookup_delete_Some. split; [|tauto].
    intros Hb. split; [by eapply Hne|done].
  - apply Hinv.
  - split; [apply Hinv|]. intros b. cbn. rewrite (proj2 (i_retired _ _ _ _ Hinv)), lookup_delete_Some.
    split; [|tauto]. intros Hb. split; [by eapply Hne|done].
Qed.

Lemma keep_inv a hz r k :
  p = ScanKeep a hz r k → inv (set_free_list (a :: free_list s) s, <[i := ScanFree hz r k]> l).
Proof using Hi Hinv.
  intros Hp. pose proof (i_pcs _ _ _ _ Hinv i p Hi) as Hok. rewrite Hp in Hok.
  destruct Hok as [[[Har Hnd]%NoDup_cons Hs] Hk].
  assert (owner !! a = Some (Scanned i)) as Ho by (apply Hs; by constructor).
  assert (is_Some (heap s !! a)) as Hheap by (by apply (i_dom _ _ _ _ Hinv); eexists).
  exists (<[a := Retired]> owner), st. cbn [fst snd]. eapply (inv_frame owner s l i); [|done|done|..].
  - eapply frame_move; try done; [intros j Hj [?|[?|[= ?]]]; done|intros j _ [?|[?|?]]; done|].
    intros j b todo hz' r' Hj [_ _ _ Hseen] [= <- <- <-] Hr. apply (Hseen i p [] hz r); [done|by rewrite Hp|done].
  - intros Hr. apply registered_now. rewrite Hp. by destruct k.
  - cbn [pc_ok]. split.
    + apply scanned_stays; [|done]. split; [done|]. intros b Hb. apply Hs. by constructor.
    + assert (∀ nodes, held owner i nodes → a ∉ nodes) as Hh by (intros n [_ Hh] Hb%Hh; congruence).
      destruct k; cbn in *; try (apply held_stays; auto). destruct Hk. split; [done|]. apply held_stays; auto.
  - intros b o [[<- <-]|[Hne Hb]]%lookup_insert_Some Hm; [by destruct Hm as [?|[?|?]]|].
    apply (owned_now b o Hb) in Hm. rewrite Hp in Hm. by apply elem_of_cons in Hm as [->|?].
  - by apply dom_move; [apply Hinv|].
  - apply Hinv.
  - apply Hinv.
  - apply elsewhere; [apply Hinv|congruence|done].
  - apply Hinv.
  - cbn. split.
    + apply NoDup_cons. split; [|apply Hinv]. rewrite (proj2 (i_retired _ _ _ _ Hinv)). congruence.
    + apply arrives, Hinv.
Qed.

(** [Pop] finds the stack empty. *)
Lemma empty_inv :
  p = AcquireCheck None → head_ s = None → inv (note EEmpty s, <[i := Popped None]> l).
Proof using Hi Hinv.
  intros Hp Hh. pose proof (i_chain _ _ _ _ Hinv) as Hc. rewrite Hh in Hc.
  pose proof (i_legal _ _ _ _ Hinv) as Hl.
  assert (st = []) as Hst by (destruct st as [|[] ?]; [done|by destruct Hc]). rewrite Hst in Hl.
  exists owner, st. cbn [fst snd]. eapply (inv_frame owner s l i); [|done|done|intros _; apply registered_now; by rewrite Hp|..]; try apply Hinv.
  - split; cbn; try done. intros j a Hj _ [? ? ? ?]. done.
  - done.
  - intros b o Hb Hm. apply (owned_now b o Hb) in Hm. by rewrite Hp in Hm.
  - cbn. rewrite Hst. by constructor.
Qed.

End Step.

Ltac quiet Hinv Hi :=
  eexists _, _; cbn [fst snd]; eapply (inv_quiet _ _ _ _ _ _ _ _ Hinv Hi); try done.

(** The steps of each operation. *)
Section Steps.
Context (owner : gmap addr place) (s : shared) (l : list pc) (st : list (addr * T)) (i : nat)
  (Hinv : inv_with owner s l st).

Lemma push_step_inv p c s' p' :
  l !! i = Some p → Push_step c s p = Some (s', p') → inv (s', <[i := p']> l).
Proof using Hinv.
  intros Hi Hstep. pose proof (i_pcs _ _ _ _ Hinv i _ Hi) as Hok.
  pose proof (i_threads _ _ _ _ Hinv i _ Hi) as Hr.
  destruct p; try done; cbn in Hstep, Hr, Hok; specialize (Hr eq_refl).
  - injection Hstep as <- <-. quiet Hinv Hi.
  - destruct (heap s !! fresh c) as [?|] eqn:Ha; [done|]. injection Hstep as <- <-.
    by eapply alloc_inv.
  - destruct Hok as [[v Ha] _]. rewrite Ha in Hstep. cbn in Hstep.
    destruct (bool_decide_reflect (head_ s = old_head)) as [Hh|Hh]; [destruct (spurious c)|];
      cbn in Hstep; injection Hstep as <- <-.
    + by eapply relink_inv.
    + by eapply push_inv.
    + by eapply relink_inv.
Qed.

Lemma acquire_step_inv p s' p' :
  l !! i = Some p → Acquire_step i s p = Some (s', p') → inv (s', <[i := p']> l).
Proof using Hinv.
  intros Hi Hstep. pose proof (i_pcs _ _ _ _ Hinv i _ Hi) as Hok.
  pose proof (i_threads _ _ _ _ Hinv i _ Hi) as Hr.
  destruct p as [| | | | | |value|value| | | | | | | | | | | | | | | | | | | | |]; try done;
    cbn in Hstep, Hr, Hok; specialize (Hr eq_refl).
  - injection Hstep as <- <-. quiet Hinv Hi.
  - injection Hstep as <- <-. quiet Hinv Hi; cbn.
    + intros j Hj. by rewrite lookup_partial_alter_ne.
    + by rewrite lookup_partial_alter_eq.
  - destruct (bool_decide_reflect (head_ s = value)) as [Hh|Hh]; [|injection Hstep as <- <-; quiet Hinv Hi].
    destruct value as [a|]; injection Hstep as <- <-; [|by eapply empty_inv].
    destruct (top_of_stack _ _ _ _ a Hinv Hh) as (v&nxt&st'&_&Ha&_&Ho). quiet Hinv Hi. cbn.
    split; [done|by eexists|exists InStack; done|].
    intros k q todo hz r [[-> ->]|[_ Hk]]%insert_inv Hv Har; [done|].
    pose proof (scan_owned _ _ _ _ _ _ _ _ _ a Hinv Hk Hv Har). congruence.
Qed.

Lemma pop_step_inv p c s' p' :
  l !! i = Some p → Pop_step c i s p = Some (s', p') → inv (s', <[i := p']> l).
Proof using Hinv.
  intros Hi Hstep. pose proof (i_pcs _ _ _ _ Hinv i _ Hi) as Hok.
  pose proof (i_threads _ _ _ _ Hinv i _ Hi) as Hr.
  destruct p; try done; cbn in Hstep, Hr, Hok; specialize (Hr eq_refl).
  - destruct (p_heap _ _ _ _ _ Hok) as [[v nxt] Ha]. rewrite Ha in Hstep. injection Hstep as <- <-.
    quiet Hinv Hi. split; [by apply protects_self|by exists v].
  - destruct (bool_decide_reflect (head_ s = Some old_head)) as [Hh|Hh]; [destruct (spurious c)|];
      cbn in Hstep; try (injection Hstep as <- <-; quiet Hinv Hi).
    destruct (pop_inv _ _ _ _ _ _ Hinv Hi old_head next0 eq_refl Hh) as (v&Ha&Hi'). rewrite Ha in Hstep.
    by injection Hstep as <- <-.
  - destruct Hok as [Ho [nxt Ha]]. rewrite Ha in Hstep. injection Hstep as <- <-. quiet Hinv Hi.
  - injection Hstep as <- <-. quiet Hinv Hi; cbn.
    + intros j Hj. by rewrite lookup_partial_alter_ne.
    + split; [apply NoDup_singleton|]. by intros b ->%list_elem_of_singleton.
  - injection Hstep as <- <-. quiet Hinv Hi.
Qed.

Lemma clear_step_inv p c s' p' :
  l !! i = Some p → Clear_step c s p = Some (s', p') → inv (s', <[i := p']> l).
Proof using Hinv.
  intros Hi Hstep. pose proof (i_pcs _ _ _ _ Hinv i _ Hi) as Hok.
  pose proof (i_threads _ _ _ _ Hinv i _ Hi) as Hr.
  destruct p; try done; cbn in Hstep, Hr, Hok; specialize (Hr eq_refl).
  - injection Hstep as <- <-. quiet Hinv Hi.
  - destruct (bool_decide_reflect (head_ s = old_head)) as [Hh|Hh]; [destruct (spurious c)|];
      cbn in Hstep; injection Hstep as <- <-; [quiet Hinv Hi|by eapply clear_inv|quiet Hinv Hi].
  - destruct Hok as [Hc Hh]. destruct rest as [|[a v] rest]; cbn in Hc.
    + subst old_head. injection Hstep as <- <-. quiet Hinv Hi.
    + destruct Hc as (->&nxt&Ha&Hc). rewrite Ha in Hstep. injection Hstep as <- <-. quiet Hinv Hi.
Qed.

Lemma return_quiet p k s' :
  l !! i = Some p → cont_ok owner s i k [] → (registered (return_to k) = true → registered p = true) →
  owned p = cont_nodes k → heap s' = heap s → head_ s' = head_ s → free_list s' = free_list s → history s' = history s →
  hazard_ptr s' = hazard_ptr s → threads s' = threads s →
  inv (s', <[i := return_to k]> l).
Proof using Hinv.
  intros Hi Hk Hr Ho Hh Hhd Hf Hy Hz Ht. quiet Hinv Hi.
  - by rewrite Hz.
  - by rewrite Ht.
  - rewrite Ht. intros ?. eapply (i_threads _ _ _ _ Hinv); eauto.
  - by destruct k.
  - rewrite Ho. by destruct k.
  - destruct k; cbn in *; try done. by rewrite Hh.
Qed.

Lemma retire_step_inv p c s' p' :
  l !! i = Some p → Retire_step c s p = Some (s', p') → inv (s', <[i := p']> l).
Proof using Hinv.
  intros Hi Hstep. pose proof (i_pcs _ _ _ _ Hinv i _ Hi) as Hok.
  pose proof (i_threads _ _ _ _ Hinv i _ Hi) as Hr.
  destruct p; try done; cbn in Hstep, Hr, Hok.
  - injection Hstep as <- <-. quiet Hinv Hi.
  - destruct (spurious c); injection Hstep as <- <-; [quiet Hinv Hi|].
    by eapply retire_inv.
  - injection Hstep as <- <-. quiet Hinv Hi.
  - destruct (Z.ltb _ _); injection Hstep as <- <-; [quiet Hinv Hi|].
    eapply return_quiet; try done. by destruct k.
Qed.

Lemma scan_step_inv p c s' p' :
  l !! i = Some p → ScanFreeList_step c s p = Some (s', p') → inv (s', <[i := p']> l).
Proof using Hinv.
  intros Hi Hstep. pose proof (i_pcs _ _ _ _ Hinv i _ Hi) as Hok.
  pose proof (i_threads _ _ _ _ Hinv i _ Hi) as Hr.
  destruct p; try done; cbn in Hstep, Hr, Hok.
  - injection Hstep as <- <-. quiet Hinv Hi.
  - destruct (scan_lock s); injection Hstep as <- <-; [|quiet Hinv Hi].
    eapply return_quiet; try done. by destruct k.
  - injection Hstep as <- <-. by eapply take_inv.
  - destruct (threads_lock s); [done|].
    destruct (bool_decide_reflect (order c ≡ₚ threads s)) as [Hperm|]; [|done].
    injection Hstep as <- <-. quiet Hinv Hi.
    intros j a todo hz r Hj Hthr _ [= <- <- <-] _. left. by rewrite Hperm.
  - destruct todo as [|t todo]; injection Hstep as <- <-; quiet Hinv Hi.
    + intros j a todo hz r Hj _ [_ _ _ Hseen] [= <- <- <-] Ha. by eapply Hseen.
    + intros j a todo' hz r Hj _ [Hz _ _ Hseen] [= <- <- <-] Ha.
      destruct (Hseen i _ (t :: todo) hazard retired Hi eq_refl Ha) as [[<-|?]%elem_of_cons|?]; [|by left|].
      * right. rewrite Hz. apply elem_of_app. right. by apply list_elem_of_singleton.
      * right. destruct (hazard_ptr s !! t); [apply elem_of_app; by left|done].
  - destruct retired as [|a retired]; [injection Hstep as <- <-; quiet Hinv Hi; tauto|].
    destruct (bool_decide_reflect (a ∈ hazard)) as [Ha|Ha]; injection Hstep as <- <-.
    + quiet Hinv Hi. intros j b todo hz r Hj _ [_ _ _ Hseen] [= <- <- <-] Hb.
      eapply Hseen; [done|done|]. by constructor.
    + by eapply free_inv.
  - destruct (spurious c); injection Hstep as <- <-.
    + quiet Hinv Hi. intros j b todo hz r Hj _ [_ _ _ Hseen] [= <- <- <-] Hb. by eapply Hseen.
    + by eapply keep_inv.
  - injection Hstep as <- <-. eapply return_quiet; try done. by destruct k.
Qed.

Lemma register_step_inv p s' p' :
  l !! i = Some p → RegisterThread_step i s p = Some (s', p') → inv (s', <[i := p']> l).
Proof using Hinv.
  intros Hi Hstep. destruct p; try done; cbn in Hstep. destruct (threads_lock s); [done|].
  injection Hstep as <- <-. quiet Hinv Hi.
  - intros j _ Hj. cbn. by constructor.
  - intros _. cbn. by constructor.
Qed.

Lemma unregister_step_inv p s' p' :
  l !! i = Some p → UnregisterThread_step i s p = Some (s', p') → inv (s', <[i := p']> l).
Proof using Hinv.
  intros Hi Hstep. destruct p; try done; cbn in Hstep. destruct (threads_lock s); [done|].
  injection Hstep as <- <-. quiet Hinv Hi.
  - intros j Hj Ht. cbn. by apply list_elem_of_filter.
  - by destruct (Nat.eqb _ 0).
  - by destruct (Nat.eqb _ 0).
  - by destruct (Nat.eqb _ 0).
  - destruct (Nat.eqb _ 0); cbn; [|done]. split; [constructor|by intros ? ?%elem_of_nil].
Qed.
End Steps.

Lemma lock_free_inv_step c c' : inv c → step c c' → inv c'.
Proof.
  intros (owner&st&Hinv) (i&p&s'&p'&Hi&Hr&->). destruct c as [s l]. cbn [fst snd] in *.
  pose proof (i_threads _ _ _ _ Hinv i _ Hi) as Ht.
  destruct Hr; eauto 3 using push_step_inv, acquire_step_inv, pop_step_inv, clear_step_inv,
    retire_step_inv, scan_step_inv, register_step_inv, unregister_step_inv;
    specialize (Ht eq_refl); quiet Hinv Hi.
Qed.

Lemma lock_free_inv_reachable c : reachable init step c → inv c.
Proof.
  apply invariant_reachable; [|apply lock_free_inv_step]. intros ? (n&->). exists ∅, []. cbn [fst snd].
  assert (∀ j p, replicate n (@Outside) !! j = Some p → p = Outside) as Hout.
  { intros j p Hj. by apply lookup_replicate in Hj as [? _]. }
  split; cbn; try done.
  - intros a. by rewrite !lookup_empty.
  - constructor.
  - intros a. rewrite lookup_empty. split; [by intros []%elem_of_nil|done].
  - constructor.
  - split; [constructor|]. intros a. rewrite lookup_empty. split; [by intros []%elem_of_nil|done].
  - intros j p Hj. by rewrite (Hout j p Hj).
  - intros j p Hj. by rewrite (Hout j p Hj).
Qed.

End Model.

Section Properties.
Context {T : Type}.

(** C15 The stack with hazard pointers, for any number of threads that register, push,
    pop, clear and unregister in any interleaving, with addresses reused: no thread
    ever touches a freed node (a freed node would make it [Undefined]), what the
    operations did, in the order of their effects, is a run of a stack whose
    elements are those linked from [head_], a successful [Pop] is about to return
    the value it took off, and when no operation is running each node that is
    still allocated is on the stack or in the list of retired nodes. *)
Theorem stack_correct (c : shared (T := T) * list pc) :
  reachable init step c →
  (∀ i, c.2 !! i ≠ Some Undefined) ∧
  (∃ st, chain (heap c.1) (head_ c.1) st ∧ NoDup st.*1 ∧ legal (history c.1) st.*2 ∧
     ((∀ i p, c.2 !! i = Some p → p = Idle ∨ p = Outside) →
      ∀ a, is_Some (heap c.1 !! a) ↔ a ∈ st.*1 ∨ a ∈ free_list c.1)) ∧
  (∀ i a top, c.2 !! i = Some (PopValue a top) → ∃ nxt, heap c.1 !! a = Some (mkNode top nxt)).
Proof.
  intros Hc. destruct (lock_free_inv_reachable c Hc) as (owner&st&Hinv). split_and!.
  - intros i Hi. exact (i_pcs _ _ _ _ Hinv i _ Hi).
  - exists st. split_and!; try apply Hinv. intros Hidle a.
    rewrite (i_dom _ _ _ _ Hinv), (i_stack _ _ _ _ Hinv), (proj2 (i_retired _ _ _ _ Hinv)).
    split; [|by intros [?|?]; eexists].
    intros [o Ho]. destruct o as [i| |i| |i]; auto; exfalso;
      destruct (i_owned _ _ _ _ Hinv a i _ Ho) as (p&Hp&Ha); (try by unfold mine; auto);
      destruct (Hidle i p Hp) as [->| ->]; by apply elem_of_nil in Ha.
  - intros i a top Hi. by destruct (i_pcs _ _ _ _ Hinv i _ Hi) as [_ ?].
Qed.
End Properties.

Section Witnesses.

(** One thread registers, pushes 7, pops it and retires the node. *)
Definition popped : shared (T := Z) * list (pc (T := Z)) :=
  (mkShared {[1%positive := mkNode 7%Z None]} None ∅ [0] false [1%positive] 1 false
     [EPush 7%Z; EPop 7%Z], [Idle]).

Definition first_choice : choice := mkChoice false 1%positive [].

Ltac take_step r :=
  eapply rtc_l; [exists 0; eexists _, _, _; split_and!; [reflexivity|apply r; reflexivity|reflexivity]|cbn].
Ltac do_step r :=
  eapply rtc_l; [exists 0; eexists _, _, _; split_and!;
    [reflexivity|apply r with (c := first_choice); reflexivity|reflexivity]|cbn].
Ltac call_step r :=
  eapply rtc_l; [exists 0; eexists _, _, _; split_and!; [reflexivity|apply r|reflexivity]|cbn].

Lemma popped_reachable : reachable init step popped.
Proof.
  exists (make, [Outside]). split; [by exists 1|].
  take_step (do_Register (T := Z)). call_step (call_Push (T := Z) 0 (set_threads [0] false make) 7%Z).
  do 3 do_step (@do_Push Z). call_step (call_Pop (T := Z)).
  do 3 take_step (do_Acquire (T := Z)). do 4 do_step (@do_Pop Z).
  do 4 do_step (@do_Retire Z). do_step (@do_Pop Z).
  apply rtc_refl.
Defined.

Lemma stack_correct_witness :
  ∃ st, chain (heap popped.1) (head_ popped.1) st ∧ legal (history popped.1) st.*2.
Proof.
  destruct (stack_correct popped popped_reachable) as (_&(st&Hc&_&Hl&_)&_).
  exists st. split; [exact Hc|exact Hl].
Defined.
End Witnesses.
