(* ===== verification/SyncMap.v ===== *)
(** * The map for rare updates (sync-map/sync_map.h)

    [SyncMap] answers from an immutable snapshot without a lock when it can, and
    from the snapshot and [mutable_map_] under a mutex otherwise.  A step of the
    model is the read of the snapshot by [Acquire], or one critical section of
    [mutex_].  Within a critical section other threads can only read the snapshot,
    which is stored once, so that the section takes effect at that store.  The
    memory of old snapshots is the business of hazard-ptr. *)

From S2P Require Import Prelude.

Module SyncMap.
Section Map.
Context {K V : Type} `{Countable K}.

Record Snapshot : Type := mkSnapshot { read_only : gmap K V; dirty : bool }.

(** What the calls answered, at the step at which each takes effect. *)
Inductive event : Type :=
| ELookup (key : K) (answer : option V)
| EInsert (key : K) (value : V) (answer : bool).

(** [history] is auxiliary. *)
Record shared : Type := mkShared {
  snapshot_ : Snapshot;
  mutable_map_ : option (gmap K V);
  operation_count_ : nat;
  history : list event
}.

Definition kMaxOperationsCnt : nat := 15.

Definition make : shared := mkShared (mkSnapshot ∅ false) None 0 [].

Definition note (e : event) (s : shared) : shared :=
  mkShared (snapshot_ s) (mutable_map_ s) (operation_count_ s) (history s ++ [e]).

(** [Lookup] without the lock: the answer, unless the lock is needed. *)
Definition Lookup_fast (key : K) (s : shared) : option (option V) :=
  match read_only (snapshot_ s) !! key with
  | Some value => Some (Some value)
  | None => if negb (dirty (snapshot_ s)) then Some None else None
  end.

(** [mutable_map_->insert(first, last)] keeps the elements that are there. *)
Definition insert_range (m other : gmap K V) : gmap K V := m ∪ other.

Definition Lookup_locked (key : K) (s : shared) : option V * shared :=
  let old_snapshot := snapshot_ s in
  match read_only old_snapshot !! key with
  | Some value => (Some value, s)
  | None =>
      match mutable_map_ s with
      | None => (None, s)
      | Some m =>
          let found := m !! key in
          let count := S (operation_count_ s) in
          if count =? kMaxOperationsCnt
          then (found, mkShared (mkSnapshot (insert_range m (read_only old_snapshot)) false) None 0
                         (history s))
          else (found, mkShared old_snapshot (Some m) count (history s))
      end
  end.

(** [Insert] without the lock. *)
Definition Insert_fast (key : K) (s : shared) : option bool :=
  match read_only (snapshot_ s) !! key with Some _ => Some false | None => None end.

Definition Insert_locked (key : K) (value : V) (s : shared) : bool * shared :=
  let old_snapshot := snapshot_ s in
  match read_only old_snapshot !! key with
  | Some _ => (false, s)
  | None =>
      match mutable_map_ s with
      | None =>
          (true, mkShared (mkSnapshot (read_only old_snapshot) true) (Some {[key := value]})
                   (operation_count_ s) (history s))
      | Some m =>
          match m !! key with
          | None => (true, mkShared old_snapshot (Some (<[key := value]> m)) 0 (history s))
          | Some _ => (false, s)
          end
      end
  end.

(** Where a thread is. *)
Inductive pc : Type :=
| Idle
| LookupFast (key : K)
| LookupLock (key : K)
| Found (answer : option V)
| InsertFast (key : K) (value : V)
| InsertLock (key : K) (value : V)
| Inserted (answer : bool).

Definition Lookup_step (s : shared) (p : pc) : option (shared * pc) :=
  match p with
  | LookupFast key =>
      match Lookup_fast key s with
      | Some answer => Some (note (ELookup key answer) s, Found answer)
      | None => Some (s, LookupLock key)
      end
  | LookupLock key =>
      let '(answer, s') := Lookup_locked key s in Some (note (ELookup key answer) s', Found answer)
  | Found _ => Some (s, Idle)
  | _ => None
  end.

Definition Insert_step (s : shared) (p : pc) : option (shared * pc) :=
  match p with
  | InsertFast key value =>
      match Insert_fast key s with
      | Some answer => Some (note (EInsert key value answer) s, Inserted answer)
      | None => Some (s, InsertLock key value)
      end
  | InsertLock key value =>
      let '(answer, s') := Insert_locked key value s in
      Some (note (EInsert key value answer) s', Inserted answer)
  | Inserted _ => Some (s, Idle)
  | _ => None
  end.

Inductive rule (s : shared) : pc → shared → pc → Prop :=
| call_Lookup key : rule s Idle s (LookupFast key)
| call_Insert key value : rule s Idle s (InsertFast key value)
| do_Lookup p s' p' : Lookup_step s p = Some (s', p') → rule s p s' p'
| do_Insert p s' p' : Insert_step s p = Some (s', p') → rule s p s' p'.

Definition init (c : shared * list pc) : Prop := ∃ n, c = (make, replicate n Idle).

(** ** What a map is *)

Inductive legal : list event → gmap K V → Prop :=
| legal_nil : legal [] ∅
| legal_lookup es m key : legal es m → legal (es ++ [ELookup key (m !! key)]) m
| legal_insert es m key value :
    legal es m → m !! key = None → legal (es ++ [EInsert key value true]) (<[key := value]> m)
| legal_present es m key value :
    legal es m → is_Some (m !! key) → legal (es ++ [EInsert key value false]) m.

Definition abs (s : shared) : gmap K V := read_only (snapshot_ s) ∪ default ∅ (mutable_map_ s).

(** The snapshot says whether it is complete, no key is in both maps, and the
    counter stays below the limit. *)
Record inv (s : shared) : Prop := {
  i_dirty : dirty (snapshot_ s) = bool_decide (is_Some (mutable_map_ s));
  i_disjoint : ∀ m, mutable_map_ s = Some m → read_only (snapshot_ s) ##ₘ m;
  i_count : operation_count_ s < kMaxOperationsCnt;
  i_zero : mutable_map_ s = None → operation_count_ s = 0;
  i_legal : legal (history s) (abs s)
}.

Lemma abs_read_only s key value : read_only (snapshot_ s) !! key = Some value → abs s !! key = Some value.
Proof. apply lookup_union_Some_l. Qed.

Lemma abs_mutable s key m : read_only (snapshot_ s) !! key = None → mutable_map_ s = Some m →
  abs s !! key = m !! key.
Proof. intros Hr Hm. unfold abs. rewrite Hm. by rewrite lookup_union_r. Qed.

Lemma abs_clean s key : read_only (snapshot_ s) !! key = None → mutable_map_ s = None →
  abs s !! key = None.
Proof. intros Hr Hm. unfold abs. rewrite Hm. by rewrite lookup_union_r. Qed.

(** What the promotion of the second map leaves. *)
Definition promoted (s : shared) (m : gmap K V) : shared :=
  mkShared (mkSnapshot (insert_range m (read_only (snapshot_ s))) false) None 0 (history s).

Lemma abs_promoted s m :
  mutable_map_ s = Some m → read_only (snapshot_ s) ##ₘ m → abs (promoted s m) = abs s.
Proof.
  intros Hm Hd. unfold abs, promoted, insert_range. cbn. rewrite Hm. cbn.
  rewrite (right_id_L ∅ (∪)). by rewrite map_union_comm.
Qed.

Lemma note_inv e s : inv s → legal (history s ++ [e]) (abs s) → inv (note e s).
Proof. intros [] ?. by split. Qed.

Lemma Lookup_fast_ok key s answer : inv s → Lookup_fast key s = Some answer → answer = abs s !! key.
Proof.
  intros [Hd _ _ _ _]. unfold Lookup_fast.
  destruct (read_only (snapshot_ s) !! key) as [v|] eqn:E.
  - intros [= <-]. by rewrite (abs_read_only s key v E).
  - rewrite Hd. destruct (mutable_map_ s) as [m|] eqn:Em; cbn; [done|]. intros [= <-].
    by rewrite abs_clean.
Qed.

Lemma Lookup_locked_ok key s : inv s →
  inv (note (ELookup key (Lookup_locked key s).1) (Lookup_locked key s).2) ∧
  (Lookup_locked key s).1 = abs s !! key.
Proof.
  intros [Hd Hdj Hc Hz Hl]. unfold Lookup_locked.
  destruct (read_only (snapshot_ s) !! key) as [v|] eqn:E; cbn [fst snd].
  { rewrite <- (abs_read_only s key v E). split; [|done]. by apply note_inv; [|constructor]. }
  destruct (mutable_map_ s) as [m|] eqn:Em; cbn [fst snd].
  2: { rewrite <- (abs_clean s key E Em). split; [|done]. apply note_inv; [|by constructor]. by split; rewrite ?Em. }
  rewrite <- (abs_mutable s key m E Em). specialize (Hdj m eq_refl).
  destruct (Nat.eqb_spec (S (operation_count_ s)) kMaxOperationsCnt) as [Heq|Hne]; cbn [fst snd].
  - split; [|done]. split; cbn; try done; [unfold kMaxOperationsCnt; lia|].
    change (legal (history s ++ [ELookup key (abs s !! key)]) (abs (promoted s m))).
    rewrite abs_promoted by done. by constructor.
  - split; [|done]. split; cbn; try done.
    + by intros ? [= <-].
    + lia.
    + assert (abs s = read_only (snapshot_ s) ∪ m) as Ha by (unfold abs; by rewrite Em).
      unfold abs. cbn. rewrite <- Ha. by constructor.
Qed.

Lemma Insert_locked_ok key value s : inv s →
  inv (note (EInsert key value (Insert_locked key value s).1) (Insert_locked key value s).2).
Proof.
  intros Hinv. pose proof Hinv as [Hd Hdj Hc Hz Hl]. unfold Insert_locked.
  destruct (read_only (snapshot_ s) !! key) as [v|] eqn:E; cbn [fst snd].
  { apply note_inv; [done|]. constructor; [done|]. rewrite (abs_read_only s key v E). by eexists. }
  destruct (mutable_map_ s) as [m|] eqn:Em; cbn [fst snd].
  - assert (abs s = read_only (snapshot_ s) ∪ m) as Ha by (unfold abs; by rewrite Em).
    specialize (Hdj m eq_refl).
    destruct (m !! key) as [v|] eqn:Ek; cbn [fst snd].
    + apply note_inv; [done|]. constructor; [done|]. rewrite (abs_mutable s key m E Em), Ek. by eexists.
    + split; cbn; try done; [|unfold kMaxOperationsCnt; lia|].
      * intros ? [= <-]. by apply map_disjoint_insert_r_2.
      * unfold abs. cbn. rewrite <- insert_union_r by done. rewrite <- Ha. constructor; [done|].
        by rewrite (abs_mutable s key m E Em).
  - split; cbn; try done.
    + intros ? [= <-]. by apply map_disjoint_singleton_r_2.
    + unfold abs. cbn. rewrite <- insert_empty, <- insert_union_r by done.
      assert (abs s = read_only (snapshot_ s) ∪ ∅) as Ha by (unfold abs; by rewrite Em).
      rewrite <- Ha. constructor; [done|]. by apply abs_clean.
Qed.

Lemma sync_map_inv_step c c' : inv c.1 → thread_steps rule c c' → inv c'.1.
Proof.
  intros Hinv (i&p&s'&p'&Hi&Hr&->). cbn [fst]. destruct Hr as [| |p s' p' Hs|p s' p' Hs]; try done.
  - destruct p; cbn in Hs; try done.
    + destruct (Lookup_fast key c.1) as [answer|] eqn:E; injection Hs as <- <-; [|done].
      apply note_inv; [done|]. rewrite (Lookup_fast_ok key c.1 answer Hinv E). constructor. apply Hinv.
    + destruct (Lookup_locked_ok key c.1 Hinv) as [Hl _]. destruct (Lookup_locked key c.1).
      by injection Hs as <- <-.
    + by injection Hs as <- <-.
  - destruct p; cbn in Hs; try done.
    + unfold Insert_fast in Hs. destruct (read_only (snapshot_ c.1) !! key) as [v|] eqn:E;
        injection Hs as <- <-; [|done].
      apply note_inv; [done|]. constructor; [apply Hinv|]. rewrite (abs_read_only _ key v E). by eexists.
    + pose proof (Insert_locked_ok key value c.1 Hinv) as Hl. destruct (Insert_locked key value c.1).
      by injection Hs as <- <-.
    + by injection Hs as <- <-.
Qed.

Lemma sync_map_inv_reachable c : reachable init (thread_steps rule) c → inv c.1.
Proof.
  apply invariant_reachable with (I := λ c, inv c.1); [|intros; by eapply sync_map_inv_step].
  intros ? (n&->). split; cbn; try done; [unfold kMaxOperationsCnt; lia|]. constructor.
Qed.

(** Lookups of keys that the snapshot lacks, one after the other under the lock. *)
Fixpoint lookups (keys : list K) (s : shared) : shared :=
  match keys with [] => s | key :: keys => lookups keys (Lookup_locked key s).2 end.

Lemma lookups_promote keys s m :
  mutable_map_ s = Some m → (∀ key, key ∈ keys → read_only (snapshot_ s) !! key = None) →
  operation_count_ s + length keys = kMaxOperationsCnt → 0 < length keys →
  lookups keys s = promoted s m.
Proof.
  revert s. induction keys as [|key keys IH]; intros s Hm Hk Hc Hl; [cbn in Hl; lia|].
  cbn [lookups length] in *. unfold Lookup_locked. rewrite Hk by (by constructor). rewrite Hm.
  destruct (Nat.eqb_spec (S (operation_count_ s)) kMaxOperationsCnt) as [Heq|Hne]; cbn [snd].
  - by replace keys with (@nil K) by (symmetry; apply length_zero_iff_nil; lia).
  - rewrite IH; [done|done| |cbn; lia|lia]. intros k' Hk'. apply Hk. by constructor.
Qed.
End Map.
End SyncMap.

Section Properties.
Import SyncMap.
Context {K V : Type} `{Countable K}.

(** C16 For any number of threads and any interleaving, the answers of [Lookup] and
    [Insert], whether found without the lock or under it, are those of one map to
    which keys are only added, in the order in which the calls take effect; the
    snapshot is marked dirty exactly while the second map exists, and no key is in
    both. *)
Theorem sync_map_linearizable (c : shared (K := K) (V := V) * list pc) :
  reachable init (thread_steps rule) c →
  legal (history c.1) (abs c.1) ∧
  dirty (snapshot_ c.1) = bool_decide (is_Some (mutable_map_ c.1)) ∧
  (∀ m, mutable_map_ c.1 = Some m → read_only (snapshot_ c.1) ##ₘ m).
Proof. intros [Hd Hdj _ _ Hl]%sync_map_inv_reachable. done. Qed.

(** Once no key has been added for [kMaxOperationsCnt] lookups that needed the
    lock, the snapshot is complete again: the next lookups of any key, present or
    not, are answered without the lock, with the same answers. *)
Theorem sync_map_promotes (c : shared (K := K) (V := V) * list pc) (keys : list K) (key : K) :
  reachable init (thread_steps rule) c → is_Some (mutable_map_ c.1) →
  (∀ k, k ∈ keys → read_only (snapshot_ c.1) !! k = None) →
  operation_count_ c.1 + length keys = kMaxOperationsCnt →
  abs (lookups keys c.1) = abs c.1 ∧ Lookup_fast key (lookups keys c.1) = Some (abs c.1 !! key).
Proof.
  intros [Hd Hdj Hc _ _]%sync_map_inv_reachable [m Hm] Hk Hlen. unfold kMaxOperationsCnt in *.
  rewrite (lookups_promote keys c.1 m) by (done || lia). specialize (Hdj m Hm).
  pose proof (abs_promoted c.1 m Hm Hdj) as Habs.
  split; [done|]. rewrite <- Habs. unfold Lookup_fast, abs. cbn. rewrite (right_id_L ∅ (∪)).
  by destruct (insert_range _ _ !! key).
Qed.
End Properties.

Section Witnesses.
Import SyncMap.

(** After one thread inserted 1 ↦ 10. *)
Definition one_key : shared (K := Z) (V := Z) * list (pc (K := Z) (V := Z)) :=
  (mkShared (mkSnapshot ∅ true) (Some {[1%Z := 10%Z]}) 0 [EInsert 1%Z 10%Z true], [Inserted true]).

Lemma one_key_reachable : reachable init (thread_steps rule) one_key.
Proof.
  exists (make, [Idle]). split; [by exists 1|].
  eapply rtc_l; [exists 0; eexists _, _, _; split_and!; [reflexivity|apply (call_Insert _ 1%Z 10%Z)|reflexivity]|cbn].
  eapply rtc_l; [exists 0; eexists _, _, _; split_and!; [reflexivity|apply do_Insert; reflexivity|reflexivity]|cbn].
  eapply rtc_l; [exists 0; eexists _, _, _; split_and!; [reflexivity|apply do_Insert; reflexivity|reflexivity]|cbn].
  apply rtc_refl.
Defined.

Lemma sync_map_linearizable_witness : legal [EInsert 1%Z 10%Z true] (abs one_key.1).
Proof. apply (sync_map_linearizable one_key one_key_reachable). Defined.

Lemma sync_map_promotes_witness :
  Lookup_fast 1%Z (lookups (replicate 15 2%Z) one_key.1) = Some (Some 10%Z).
Proof.
  destruct (sync_map_promotes one_key (replicate 15 2%Z) 1%Z) as [_ Hf].
  - exact one_key_reachable.
  - by exists {[1%Z := 10%Z]}.
  - intros k Hk. reflexivity.
  - reflexivity.
  - rewrite Hf. reflexivity.
Defined.
End Witnesses.
