(* ===== verification/Matrix2.v ===== *)
(** * Matrices and chains of products (matrix-2.0/matrix.h)

    [Matrix<T>] over any type of elements; [a * b * c] builds a [Glue], and the
    constructor from a [Glue] multiplies the operands in the order that needs the
    fewest multiplications of elements, found by [ComputeOptMultNum] with a table.
    The order is a tree; any tree gives the product from left to right, and the one
    the table describes is the cheapest. *)

From S2P Require Import Prelude.

(** What the algorithm relies on: the elements are a ring.  (Without the identity,
    which the code does not use.) *)
Class RingLaws {T : Type} (zero : T) (add mul : T → T → T) : Prop := {
  add_assoc : ∀ x y z, add x (add y z) = add (add x y) z;
  add_comm : ∀ x y, add x y = add y x;
  add_zero : ∀ x, add zero x = x;
  mul_assoc : ∀ x y z, mul x (mul y z) = mul (mul x y) z;
  mul_zero_l : ∀ x, mul zero x = zero;
  mul_zero_r : ∀ x, mul x zero = zero;
  distr_l : ∀ x y z, mul x (add y z) = add (mul x y) (mul x z);
  distr_r : ∀ x y z, mul (add x y) z = add (mul x z) (mul y z)
}.

#[global] Instance Z_ring : RingLaws 0%Z Z.add Z.mul.
Proof. split; intros; lia. Qed.

Module Matrix2.
Section Elements.
Context {T : Type} (zero : T) (add mul : T → T → T).

Record Matrix : Type := mkMatrix {
  matrix_ : list (list T);
  rows_num_ : nat;
  cols_num_ : nat
}.

(** The constructors. *)
Definition empty : Matrix := mkMatrix [] 0 0.
Definition make (rows_num cols_num : nat) : Matrix :=
  mkMatrix (replicate rows_num (replicate cols_num zero)) rows_num cols_num.
Definition square (rows_num : nat) : Matrix := make rows_num rows_num.
Definition of_vector (matrix : list (list T)) : outcome Matrix :=
  match matrix !! 0 with
  | Some row => Ok (mkMatrix matrix (length matrix) (length row))
  | None => Fail UB
  end.
Definition of_rows (rows : list (list T)) : Matrix :=
  mkMatrix rows (length rows) (match rows with row :: _ => length row | [] => 0 end).

Definition Rows (m : Matrix) : nat := rows_num_ m.
Definition Columns (m : Matrix) : nat := cols_num_ m.

(** [m(row_idx, col_idx)], read and written. *)
Definition get (m : Matrix) (row_idx col_idx : nat) : outcome T :=
  match matrix_ m !! row_idx ≫= (.!! col_idx) with
  | Some x => Ok x
  | None => Fail UB
  end.

Definition set (row_idx col_idx : nat) (x : T) (m : Matrix) : outcome Matrix :=
  match matrix_ m !! row_idx with
  | Some row =>
      if decide (col_idx < length row)
      then Ok (mkMatrix (<[row_idx := <[col_idx := x]> row]> (matrix_ m)) (rows_num_ m) (cols_num_ m))
      else Fail UB
  | None => Fail UB
  end.

(** Two nested loops that assign each element of [m]. *)
Definition for_elements (rows cols : nat) (f : nat → nat → Matrix → outcome T) (m : Matrix)
    : outcome Matrix :=
  forO (λ i, forO (λ j m, x <-? f i j m ;; set i j x m) (seq 0 cols)) (seq 0 rows) m.

Definition same_size (lhs rhs : Matrix) : bool :=
  (rows_num_ lhs =? rows_num_ rhs) && (cols_num_ lhs =? cols_num_ rhs).

Definition operator_add (lhs rhs : Matrix) : outcome Matrix :=
  if negb (same_size lhs rhs) then Fail (Exn (RuntimeError "Wrong sizes"))
  else for_elements (rows_num_ lhs) (cols_num_ lhs) (λ i j lhs,
         x <-? get lhs i j ;; y <-? get rhs i j ;; Ok (add x y)) lhs.

Definition operator_neg (neg : T → T) (this : Matrix) : outcome Matrix :=
  for_elements (rows_num_ this) (cols_num_ this) (λ i j _, x <-? get this i j ;; Ok (neg x))
    (make (rows_num_ this) (cols_num_ this)).

Definition operator_sub (sub : T → T → T) (lhs rhs : Matrix) : outcome Matrix :=
  if negb (same_size lhs rhs) then Fail (Exn (RuntimeError "Wrong sizes"))
  else for_elements (rows_num_ lhs) (cols_num_ lhs) (λ i j lhs,
         x <-? get lhs i j ;; y <-? get rhs i j ;; Ok (sub x y)) lhs.

(** The sizes of the result are those of the left and of the right operand; they are
    compared before, when the chain is built. *)
Definition Dot (this rhs : Matrix) : outcome Matrix :=
  for_elements (rows_num_ this) (cols_num_ rhs) (λ i j _,
    forO (λ z sum, x <-? get this i z ;; y <-? get rhs z j ;; Ok (add sum (mul x y)))
      (seq 0 (cols_num_ this)) zero)
    (make (rows_num_ this) (cols_num_ rhs)).

(** [Glue<Matrix, T>] and [Glue<Glue<L, T>, T>]. *)
Inductive Glue : Type :=
| GlueMatrix (left right : Matrix)
| GlueGlue (left : Glue) (right : Matrix).

Fixpoint DFS (node : Glue) (res : list Matrix) : list Matrix :=
  match node with
  | GlueMatrix l r => (res ++ [l]) ++ [r]
  | GlueGlue l r => DFS l res ++ [r]
  end.

Record OptMult : Type := mkOptMult { left_part_end : nat; opt_op_num : Z }.

(** [op_nums[begin][end]], read and written. *)
Abbreviation table := (list (list OptMult)).
Definition read_table (op_nums : table) (begin end_ : nat) : outcome OptMult :=
  match op_nums !! begin ≫= (.!! end_) with Some x => Ok x | None => Fail UB end.
Definition write_table (begin end_ : nat) (x : OptMult) (op_nums : table) : outcome table :=
  match op_nums !! begin with
  | Some row =>
      if decide (end_ < length row) then Ok (<[begin := <[end_ := x]> row]> op_nums) else Fail UB
  | None => Fail UB
  end.

Definition operand (matrices : list Matrix) (i : nat) : outcome Matrix :=
  match matrices !! i with Some m => Ok m | None => Fail UB end.

(** [fuel] bounds the depth of the recursion; the interval shrinks with each call.
    [*opt_ops] of an empty optional is undefined. *)
Fixpoint ComputeOptMultNum (fuel begin end_ : nat) (matrices : list Matrix) (op_nums : table)
    : outcome table :=
  match fuel with
  | O => Fail Fuel
  | S fuel =>
      r <-? forO (λ i r,
        let '(op_nums, opt_ops) := r in
        known <-? read_table op_nums begin i ;;
        op_nums <-? (if negb (i =? begin) && (opt_op_num known =? 0)%Z
                     then ComputeOptMultNum fuel begin i matrices op_nums else Ok op_nums) ;;
        left_part <-? read_table op_nums begin i ;;
        known <-? read_table op_nums (i + 1) end_ ;;
        op_nums <-? (if negb (i + 1 =? end_) && (opt_op_num known =? 0)%Z
                     then ComputeOptMultNum fuel (i + 1) end_ matrices op_nums else Ok op_nums) ;;
        right_part <-? read_table op_nums (i + 1) end_ ;;
        mb <-? operand matrices begin ;;
        mi <-? operand matrices i ;;
        me <-? operand matrices end_ ;;
        let overall_ops :=
          u64 (u64 (Z.of_nat (Rows mb) * Z.of_nat (Columns mi)) * Z.of_nat (Columns me)) in
        let overall_ops := u64 (overall_ops + u64 (opt_op_num left_part + opt_op_num right_part)) in
        Ok (op_nums,
            match opt_ops with
            | None => Some (mkOptMult i overall_ops)
            | Some best =>
                if (overall_ops <? opt_op_num best)%Z then Some (mkOptMult i overall_ops) else opt_ops
            end))
        (seq begin (end_ - begin)) (op_nums, None) ;;
      let '(op_nums, opt_ops) := r in
      match opt_ops with
      | Some best => write_table begin end_ best op_nums
      | None => Fail UB
      end
  end.

Fixpoint MultiplicateMatrices (fuel begin end_ : nat) (matrices : list Matrix) (op_nums : table)
    : outcome Matrix :=
  match fuel with
  | O => Fail Fuel
  | S fuel =>
      x <-? read_table op_nums begin end_ ;;
      let left_part_end := left_part_end x in
      left <-? (if negb (left_part_end =? begin)
                then MultiplicateMatrices fuel begin left_part_end matrices op_nums
                else operand matrices begin) ;;
      right <-? (if negb (left_part_end + 1 =? end_)
                 then MultiplicateMatrices fuel (left_part_end + 1) end_ matrices op_nums
                 else operand matrices end_) ;;
      Dot left right
  end.

Definition check_sizes (operands : list Matrix) : outcome () :=
  forO (λ i _,
    left <-? operand operands (i - 1) ;;
    right <-? operand operands i ;;
    if negb (Columns left =? Rows right) then Fail (Exn (RuntimeError "Wrong sizes")) else Ok ())
    (seq 1 (length operands - 1)) ().

(** [Matrix(const Glue<L, T>& tree)]. *)
Definition of_glue (tree : Glue) : outcome Matrix :=
  let operands := DFS tree [] in
  let n := length operands in
  _ <-? check_sizes operands ;;
  let op_nums := replicate n (replicate n (mkOptMult 0 0)) in
  op_nums <-? ComputeOptMultNum n 0 (n - 1) operands op_nums ;;
  MultiplicateMatrices n 0 (n - 1) operands op_nums.

(** ** Shapes and entries *)

Definition shape (m : Matrix) (rows cols : nat) : Prop :=
  rows_num_ m = rows ∧ cols_num_ m = cols ∧ length (matrix_ m) = rows ∧
  Forall (λ row, length row = cols) (matrix_ m).

(** All the rows have the same length, and the sizes are right. *)
Definition rectangular (m : Matrix) : Prop := shape m (rows_num_ m) (cols_num_ m).

Definition entry (m : Matrix) (i j : nat) : T := default zero (matrix_ m !! i ≫= (.!! j)).

Lemma lookup_entry m rows cols i j :
  shape m rows cols → i < rows → j < cols →
  ∃ row, matrix_ m !! i = Some row ∧ length row = cols ∧ row !! j = Some (entry m i j).
Proof.
  intros (_&_&Hr&Hc) Hi Hj. unfold entry.
  destruct (lookup_lt_is_Some_2 (matrix_ m) i ltac:(lia)) as [row Hrow]. exists row.
  pose proof (Forall_lookup_1 _ _ _ _ Hc Hrow) as Hlen. cbn in Hlen. rewrite Hrow. cbn.
  destruct (lookup_lt_is_Some_2 row j ltac:(lia)) as [x Hx]. by rewrite Hx.
Qed.

Lemma matrix2_get_ok m rows cols i j :
  shape m rows cols → i < rows → j < cols → get m i j = Ok (entry m i j).
Proof.
  intros Hs Hi Hj. destruct (lookup_entry m rows cols i j Hs Hi Hj) as (row&Hrow&_&Hx).
  unfold get. rewrite Hrow. cbn. by rewrite Hx.
Qed.

Lemma matrix2_set_ok m rows cols i j x :
  shape m rows cols → i < rows → j < cols →
  ∃ m', set i j x m = Ok m' ∧ shape m' rows cols ∧ entry m' i j = x ∧
    ∀ i' j', (i', j') ≠ (i, j) → entry m' i' j' = entry m i' j'.
Proof.
  intros Hs Hi Hj. destruct (lookup_entry m rows cols i j Hs Hi Hj) as (row&Hrow&Hlen&_).
  destruct Hs as (Hr&Hc&Hl&Hf). unfold set. rewrite Hrow, decide_True by lia.
  eexists. split; [done|]. split_and!.
  - split_and!; cbn; [done|done|by rewrite length_insert|].
    apply Forall_insert; [done|]. by rewrite length_insert.
  - unfold entry. cbn. rewrite list_lookup_insert_eq by (by apply lookup_lt_Some in Hrow). cbn.
    by rewrite list_lookup_insert_eq by lia.
  - intros i' j' Hne. unfold entry. cbn. destruct (decide (i = i')) as [<-|Hi'].
    + rewrite list_lookup_insert_eq by (by apply lookup_lt_Some in Hrow). cbn.
      rewrite list_lookup_insert_ne by congruence. by rewrite Hrow.
    + by rewrite list_lookup_insert_ne.
Qed.

Lemma matrix2_make_shape rows cols : shape (make rows cols) rows cols.
Proof.
  split_and!; cbn; [done|done|by rewrite length_replicate|].
  apply Forall_replicate. by rewrite length_replicate.
Qed.

(** The nested loops compute each element from the old value of that element. *)
Lemma for_elements_ok m rows cols f g :
  shape m rows cols →
  (∀ i j m', i < rows → j < cols → shape m' rows cols → entry m' i j = entry m i j →
     f i j m' = Ok (g i j)) →
  ∃ m', for_elements rows cols f m = Ok m' ∧ shape m' rows cols ∧
    ∀ i j, i < rows → j < cols → entry m' i j = g i j.
Proof.
  intros Hm Hf.
  set (I := λ i j m', shape m' rows cols ∧ ∀ i' j', i' < rows → j' < cols →
              entry m' i' j' = if decide (i' < i ∨ i' = i ∧ j' < j) then g i' j' else entry m i' j').
  destruct (forO_seq (λ i, I i 0)
    (λ i, forO (λ j m, x <-? f i j m ;; set i j x m) (seq 0 cols)) 0 rows m) as (m'&Hr&Hs&He).
  - split; [done|]. intros. by rewrite decide_False by lia.
  - intros i b Hi HI.
    destruct (forO_seq (I i) (λ j m, x <-? f i j m ;; set i j x m) 0 cols b) as (b'&Hb&Hs'&He'); [done| |].
    + intros j b' Hj [Hs' He']. rewrite (Hf i j b').
      * cbn. destruct (matrix2_set_ok b' rows cols i j (g i j)) as (b''&->&Hs''&Hx&Hother); [done|lia|lia|].
        exists b''. split; [done|]. split; [done|]. intros i' j' Hi' Hj'.
        destruct (decide (i' = i)) as [->|]; [destruct (decide (j' = j)) as [->|]|].
        -- by rewrite decide_True by lia.
        -- rewrite Hother by congruence. rewrite He' by done. by apply decide_ext; lia.
        -- rewrite Hother by congruence. rewrite He' by done. by apply decide_ext; lia.
      * lia.
      * lia.
      * done.
      * rewrite He' by lia. by rewrite decide_False by lia.
    + exists b'. split; [done|]. split; [done|]. intros i' j' Hi' Hj'. rewrite He' by done.
      apply decide_ext. lia.
  - exists m'. split_and!; [done|done|]. intros i j Hi Hj. rewrite He by done. by rewrite decide_True by lia.
Qed.

(** Two matrices of one shape with the same entries are the same. *)
Lemma matrix_ext m m' rows cols :
  shape m rows cols → shape m' rows cols →
  (∀ i j, i < rows → j < cols → entry m i j = entry m' i j) → m = m'.
Proof.
  intros Hm Hm' He. pose proof Hm as (Hr&Hc&Hl&Hf). pose proof Hm' as (Hr'&Hc'&Hl'&Hf').
  destruct m as [rows_ r c], m' as [rows_' r' c']; cbn in *. subst. f_equal.
  apply (list_eq_same_length _ _ (length rows_)); [congruence|congruence|].
  intros i row row' Hi Hrow Hrow'.
  pose proof (Forall_lookup_1 _ _ _ _ Hf Hrow) as Hlen. pose proof (Forall_lookup_1 _ _ _ _ Hf' Hrow') as Hlen'.
  cbn in Hlen, Hlen'. apply (list_eq_same_length _ _ (length row)); [congruence|congruence|].
  intros j x x' Hj Hx Hx'. specialize (He i j Hi ltac:(lia)). unfold entry in He. cbn in He.
  rewrite Hrow, Hrow' in He. cbn in He. by rewrite Hx, Hx' in He.
Qed.

(** ** Products *)

Fixpoint tsum (n : nat) (f : nat → T) : T :=
  match n with O => zero | S n => add (tsum n f) (f n) end.

Lemma Dot_ok a b p q r :
  shape a p q → shape b q r →
  ∃ m, Dot a b = Ok m ∧ shape m p r ∧
    ∀ i j, i < p → j < r → entry m i j = tsum q (λ z, mul (entry a i z) (entry b z j)).
Proof.
  intros Ha Hb. pose proof Ha as (Hr&Hc&_). pose proof Hb as (_&Hc'&_). unfold Dot. rewrite Hr, Hc, Hc'.
  apply for_elements_ok; [apply matrix2_make_shape|]. intros i j _ Hi Hj _ _.
  destruct (forO_seq (λ z sum, sum = tsum z (λ z, mul (entry a i z) (entry b z j)))
    (λ z sum, x <-? get a i z ;; y <-? get b z j ;; Ok (add sum (mul x y))) 0 q zero) as (sum&->&->);
    [done| |done].
  intros z sum Hz ->. rewrite (matrix2_get_ok a p q), (matrix2_get_ok b q r) by (done || lia). cbn. eauto.
Qed.

Section Associativity.
Context `{!RingLaws zero add mul}.

Lemma tsum_ext n f g : (∀ z, z < n → f z = g z) → tsum n f = tsum n g.
Proof. induction n as [|n IH]; intros H; cbn; [done|]. rewrite IH, H by auto with lia. done. Qed.

Lemma tsum_zero n : tsum n (λ _, zero) = zero.
Proof. induction n as [|n IH]; cbn; [done|]. by rewrite IH, add_zero. Qed.

Lemma tsum_add n f g : tsum n (λ z, add (f z) (g z)) = add (tsum n f) (tsum n g).
Proof.
  induction n as [|n IH]; cbn; [by rewrite add_zero|]. rewrite IH, !add_assoc. f_equal.
  rewrite <- !add_assoc. f_equal. apply add_comm.
Qed.

Lemma tsum_mul_l n f x : tsum n (λ z, mul x (f z)) = mul x (tsum n f).
Proof. induction n as [|n IH]; cbn; [by rewrite mul_zero_r|]. by rewrite IH, (distr_l (add := add) (mul := mul)). Qed.

Lemma tsum_mul_r n f x : tsum n (λ z, mul (f z) x) = mul (tsum n f) x.
Proof. induction n as [|n IH]; cbn; [by rewrite mul_zero_l|]. by rewrite IH, (distr_r (add := add) (mul := mul)). Qed.

Lemma tsum_swap n k f :
  tsum n (λ x, tsum k (λ y, f x y)) = tsum k (λ y, tsum n (λ x, f x y)).
Proof.
  induction n as [|n IH]; cbn; [by rewrite tsum_zero|]. by rewrite IH, <- tsum_add.
Qed.

Lemma Dot_assoc a b c p q r t :
  shape a p q → shape b q r → shape c r t →
  (ab <-? Dot a b ;; Dot ab c) = (bc <-? Dot b c ;; Dot a bc).
Proof.
  intros Ha Hb Hc.
  destruct (Dot_ok a b p q r Ha Hb) as (ab&->&Hab&Eab), (Dot_ok b c q r t Hb Hc) as (bc&->&Hbc&Ebc).
  cbn. destruct (Dot_ok ab c p r t Hab Hc) as (m&->&Hm&Em), (Dot_ok a bc p q t Ha Hbc) as (m'&->&Hm'&Em').
  f_equal. apply (matrix_ext m m' p t Hm Hm'). intros i j Hi Hj. rewrite Em, Em' by done.
  transitivity (tsum r (λ z, tsum q (λ y, mul (mul (entry a i y) (entry b y z)) (entry c z j)))).
  - apply tsum_ext. intros z Hz. rewrite Eab by done. by rewrite tsum_mul_r.
  - rewrite tsum_swap. apply tsum_ext. intros y Hy. rewrite Ebc by done.
    rewrite <- tsum_mul_l. apply tsum_ext. intros z Hz. by rewrite (mul_assoc (add := add)).
Qed.
End Associativity.

(** ** Orders of multiplication *)

Inductive tree : Type :=
| Leaf (m : Matrix)
| Node (l r : tree).

Fixpoint leaves (t : tree) : list Matrix :=
  match t with Leaf m => [m] | Node l r => leaves l ++ leaves r end.

Fixpoint rows_of (t : tree) : nat := match t with Leaf m => Rows m | Node l _ => rows_of l end.
Fixpoint cols_of (t : tree) : nat := match t with Leaf m => Columns m | Node _ r => cols_of r end.

(** The number of multiplications of elements. *)
Fixpoint cost (t : tree) : Z :=
  match t with
  | Leaf _ => 0
  | Node l r =>
      cost l + cost r + Z.of_nat (rows_of l) * Z.of_nat (cols_of l) * Z.of_nat (cols_of r)
  end.

(** Multiplying in that order. *)
Fixpoint eval (t : tree) : outcome Matrix :=
  match t with
  | Leaf m => Ok m
  | Node l r => x <-? eval l ;; y <-? eval r ;; Dot x y
  end.

(** From left to right. *)
Fixpoint chain (m : Matrix) (l : list Matrix) : outcome Matrix :=
  match l with [] => Ok m | x :: l => y <-? Dot m x ;; chain y l end.
Definition product (l : list Matrix) : outcome Matrix :=
  match l with [] => Fail UB | m :: l => chain m l end.

(** Matrices that can be multiplied. *)
Fixpoint fits (q : nat) (l : list Matrix) (t : nat) : Prop :=
  match l with [] => q = t | m :: l => ∃ r, shape m q r ∧ fits r l t end.

Lemma fits_app q l k t : fits q (l ++ k) t ↔ ∃ r, fits q l r ∧ fits r k t.
Proof.
  revert q. induction l as [|m l IH]; intros q; cbn.
  - split; [by exists q|]. by intros (?&->&?).
  - setoid_rewrite IH. firstorder.
Qed.

Lemma leaves_cons t : ∃ m l, leaves t = m :: l.
Proof. induction t as [m|l [m [k Hl]] r _]; cbn; [eauto|]. rewrite Hl. cbn. eauto. Qed.

Lemma chain_app m l k : chain m (l ++ k) = (x <-? chain m l ;; chain x k).
Proof. revert m. induction l as [|x l IH]; intros m; cbn; [done|]. destruct (Dot m x); cbn; [apply IH|done]. Qed.

Section Orders.
Context `{!RingLaws zero add mul}.

Lemma chain_shape m l p q t : shape m p q → fits q l t → ∃ m', chain m l = Ok m' ∧ shape m' p t.
Proof.
  revert m q. induction l as [|x l IH]; intros m q Hm Hl; cbn in *; [subst; eauto|].
  destruct Hl as (r&Hx&Hl). destruct (Dot_ok m x p q r Hm Hx) as (y&->&Hy&_). cbn. by apply (IH y r).
Qed.

Lemma chain_assoc a x l p q r t :
  shape a p q → shape x q r → fits r l t →
  chain a (x :: l) = (b <-? chain x l ;; Dot a b).
Proof using RingLaws0.
  revert x r. induction l as [|z l IH]; intros x r Ha Hx Hl.
  - cbn. by destruct (Dot a x).
  - destruct Hl as (u&Hz&Hl). pose proof (Dot_assoc a x z p q r u Ha Hx Hz) as Hassoc.
    destruct (Dot_ok x z q r u Hx Hz) as (xz&Exz&Hxz&_). cbn [chain]. rewrite Exz in *. cbn in *.
    rewrite <- (IH xz u Ha Hxz Hl). cbn. rewrite <- Hassoc.
    by destruct (Dot a x).
Qed.

(** Each order gives the product from left to right. *)
Lemma eval_product t q s :
  fits q (leaves t) s → ∃ m, eval t = Ok m ∧ shape m q s ∧ product (leaves t) = Ok m.
Proof using RingLaws0.
  revert q s. induction t as [m|l IHl r IHr]; intros q s; cbn [leaves eval].
  - intros (c&Hm&->). eauto.
  - intros (k&Hl&Hr)%fits_app.
    destruct (IHl q k Hl) as (ml&->&Hml&Pl), (IHr k s Hr) as (mr&->&Hmr&Pr). cbn.
    destruct (Dot_ok ml mr q k s Hml Hmr) as (m&Hm&Hsm&_). exists m. split_and!; [done|done|].
    destruct (leaves_cons l) as (a&la&El), (leaves_cons r) as (b&lb&Er).
    rewrite El, Er in *. cbn in *. rewrite chain_app, Pl. cbn [bindO].
    destruct Hr as (u&Hb&Hlb). rewrite (chain_assoc ml b lb q k u s) by done. by rewrite Pr.
Qed.
End Orders.

(** ** The table

    [Q x y c] says what the number in the table for the operands from [x] to [y]
    means. *)
Section Table.
Context (mats : list Matrix) (Q : nat → nat → Z → Prop).
Abbreviation n := (length mats).

Definition rows_at (x : nat) : Z := match mats !! x with Some m => Z.of_nat (Rows m) | None => 0 end.
Definition cols_at (x : nat) : Z := match mats !! x with Some m => Z.of_nat (Columns m) | None => 0 end.

(** What [ComputeOptMultNum] computes for a split after [k]. *)
Definition overall (x k y : nat) (c1 c2 : Z) : Z :=
  u64 (rows_at x * cols_at k * cols_at y + (c1 + c2)).

Context (Q_single : ∀ x, x < n → Q x x 0).
Context (Q_step : ∀ x y k c, x ≤ k < y → y < n →
  (∃ c1 c2, Q x k c1 ∧ Q (S k) y c2 ∧ c = overall x k y c1 c2) →
  (∀ i, x ≤ i < y → ∃ c1 c2, Q x i c1 ∧ Q (S i) y c2 ∧ (c <= overall x i y c1 c2)%Z) → Q x y c).

Definition lookup_table (tb : table) (x y : nat) : option OptMult := tb !! x ≫= (.!! y).

Definition tok (tb : table) (x y : nat) : Prop :=
  ∃ k c, lookup_table tb x y = Some (mkOptMult k c) ∧ x ≤ k < y ∧ Q x y c ∧
    ∃ c1 c2, Q x k c1 ∧ Q (S k) y c2 ∧ c = overall x k y c1 c2.

(** All that lies between [x] and [y] is known. *)
Definition known (tb : table) (x y : nat) : Prop := ∀ x' y', x ≤ x' → x' < y' → y' ≤ y → tok tb x' y'.

Record table_inv (tb : table) : Prop := {
  tb_size : length tb = n ∧ Forall (λ row, length row = n) tb;
  tb_diag : ∀ x e, lookup_table tb x x = Some e → opt_op_num e = 0%Z;
  tb_known : ∀ x y e, x < y → y < n → lookup_table tb x y = Some e → opt_op_num e ≠ 0%Z → known tb x y
}.

(** [tb'] is [tb] with more known. *)
Definition extends (tb tb' : table) : Prop := ∀ x y, tok tb x y → tok tb' x y.

Lemma extends_known tb tb' x y : extends tb tb' → known tb x y → known tb' x y.
Proof. intros He Hk x' y' ???. by apply He, Hk. Qed.

Lemma read_ok tb x y : table_inv tb → x < n → y < n →
  ∃ e, lookup_table tb x y = Some e ∧ read_table tb x y = Ok e.
Proof.
  intros [[Hl Hf] _ _] Hx Hy. unfold read_table, lookup_table.
  destruct (lookup_lt_is_Some_2 tb x ltac:(lia)) as [row Hrow]. rewrite Hrow. cbn.
  pose proof (Forall_lookup_1 _ _ _ _ Hf Hrow) as Hlen. cbn in Hlen.
  destruct (lookup_lt_is_Some_2 row y ltac:(lia)) as [e He]. rewrite He. eauto.
Qed.

Lemma write_ok tb x y e : table_inv tb → x < n → y < n →
  ∃ tb', write_table x y e tb = Ok tb' ∧ (length tb' = n ∧ Forall (λ row, length row = n) tb') ∧
    lookup_table tb' x y = Some e ∧
    ∀ x' y', (x', y') ≠ (x, y) → lookup_table tb' x' y' = lookup_table tb x' y'.
Proof.
  intros [[Hl Hf] _ _] Hx Hy. unfold write_table, lookup_table.
  destruct (lookup_lt_is_Some_2 tb x ltac:(lia)) as [row Hrow]. rewrite Hrow.
  pose proof (Forall_lookup_1 _ _ _ _ Hf Hrow) as Hlen. cbn in Hlen. rewrite decide_True by lia.
  eexists. split; [done|]. split_and!.
  - by rewrite length_insert.
  - apply Forall_insert; [done|]. by rewrite length_insert.
  - rewrite list_lookup_insert_eq by lia. cbn. by rewrite list_lookup_insert_eq by lia.
  - intros x' y' Hne. destruct (decide (x = x')) as [<-|].
    + rewrite list_lookup_insert_eq by lia. cbn. rewrite list_lookup_insert_ne by congruence. by rewrite Hrow.
    + by rewrite list_lookup_insert_ne.
Qed.

(** The number for a part, single or known. *)
Lemma part_ok tb x y e :
  table_inv tb → lookup_table tb x y = Some e → x = y ∧ x < n ∨ tok tb x y → Q x y (opt_op_num e).
Proof using Q_single.
  intros Hinv He [[-> Hx]|(k&c&Hl&_&Hq&_)].
  - rewrite (tb_diag _ Hinv _ _ He). by apply Q_single.
  - rewrite He in Hl. by injection Hl as ->.
Qed.

Lemma known_self tb x y : x < y → known tb x y → tok tb x y.
Proof. intros ? Hk. by apply Hk. Qed.

(** The part from [x] to [y] as the loop prepares it. *)
Lemma prepare fuel tb x y (single : bool) :
  (∀ tb, table_inv tb → x < y → ∃ tb', ComputeOptMultNum fuel x y mats tb = Ok tb' ∧ table_inv tb' ∧
     known tb' x y ∧ extends tb tb') →
  table_inv tb → x ≤ y → y < n → single = negb (y =? x) →
  ∃ e tb' e', read_table tb x y = Ok e ∧
    (if single && (opt_op_num e =? 0)%Z then ComputeOptMultNum fuel x y mats tb else Ok tb) = Ok tb' ∧
    table_inv tb' ∧ extends tb tb' ∧ known tb' x y ∧
    lookup_table tb' x y = Some e' ∧ read_table tb' x y = Ok e' ∧ Q x y (opt_op_num e').
Proof using Q_single.
  intros IH Hinv Hxy Hy ->. destruct (read_ok tb x y Hinv) as (e&He&Hr); [lia..|]. exists e.
  destruct (Nat.eqb_spec y x) as [->|Hne]; cbn [negb andb].
  - exists tb, e. split_and!; try done.
    + by intros x' y'.
    + intros x' y' ???. lia.
    + apply (part_ok tb); [done|done|]. left. lia.
  - destruct (Z.eqb_spec (opt_op_num e) 0) as [H0|H0].
    + destruct (IH tb Hinv) as (tb'&Hc&Hinv'&Hk&Hext); [lia|].
      destruct (read_ok tb' x y Hinv') as (e'&He'&Hr'); [lia..|]. exists tb', e'.
      split_and!; try done. apply (part_ok tb'); [done|done|]. right. apply known_self; [lia|done].
    + assert (known tb x y) as Hk by (by eapply (tb_known _ Hinv); [lia..| |]).
      exists tb, e. split_and!; try done; [by intros x' y'|].
      apply (part_ok tb); [done|done|]. right. apply known_self; [lia|done].
Qed.

(** Writing what is right keeps the invariant. *)
Lemma write_inv tb x y k c :
  table_inv tb → x < y → y < n →
  (∀ x' y', x ≤ x' → x' < y' → y' ≤ y → (x', y') ≠ (x, y) → tok tb x' y') →
  x ≤ k < y → Q x y c → (∃ c1 c2, Q x k c1 ∧ Q (S k) y c2 ∧ c = overall x k y c1 c2) →
  ∃ tb', write_table x y (mkOptMult k c) tb = Ok tb' ∧ table_inv tb' ∧ known tb' x y ∧ extends tb tb'.
Proof.
  intros Hinv Hxy Hy Hsub Hk Hq Hc.
  destruct (write_ok tb x y (mkOptMult k c) Hinv) as (tb'&Hw&Hsize&Hnew&Hold); [lia..|].
  exists tb'. split; [done|].
  assert (tok tb' x y) as Htok by (exists k, c; done).
  assert (extends tb tb') as Hext.
  { intros x' y' Ht. destruct (decide ((x', y') = (x, y))) as [[= -> ->]|Hne]; [done|].
    destruct Ht as (k'&c'&Hl&?). exists k', c'. by rewrite Hold. }
  assert (known tb' x y) as Hkn.
  { intros x' y' ???. destruct (decide ((x', y') = (x, y))) as [[= -> ->]|Hne]; [done|].
    by apply Hext, Hsub. }
  split_and!; [|done|done]. split; [done| |].
  - intros z e He. rewrite Hold in He by (intros [= -> ->]; lia). by eapply tb_diag.
  - intros x' y' e Hxy' Hy' He H0. destruct (decide ((x', y') = (x, y))) as [[= -> ->]|Hne]; [done|].
    rewrite Hold in He by done. eapply extends_known; [done|]. by eapply tb_known.
Qed.

(** The best of the splits tried so far. *)
Definition best_of (x y i : nat) (opt_ops : option OptMult) : Prop :=
  match opt_ops with
  | None => i = x
  | Some (mkOptMult k c) =>
      x ≤ k < i ∧ (∃ c1 c2, Q x k c1 ∧ Q (S k) y c2 ∧ c = overall x k y c1 c2) ∧
      ∀ j, x ≤ j < i → ∃ c1 c2, Q x j c1 ∧ Q (S j) y c2 ∧ (c <= overall x j y c1 c2)%Z
  end.

Lemma best_of_next x y i opt_ops c1 c2 :
  best_of x y i opt_ops → x ≤ i → Q x i c1 → Q (S i) y c2 →
  best_of x y (S i)
    match opt_ops with
    | None => Some (mkOptMult i (overall x i y c1 c2))
    | Some best =>
        if (overall x i y c1 c2 <? opt_op_num best)%Z
        then Some (mkOptMult i (overall x i y c1 c2)) else opt_ops
    end.
Proof.
  intros Hb Hi H1 H2. destruct opt_ops as [[k c]|]; cbn in *.
  - destruct Hb as (Hk&Hc&Hmin). destruct (Z.ltb_spec (overall x i y c1 c2) c) as [Hlt|Hge]; cbn.
    + split_and!; [lia|lia|by exists c1, c2|]. intros j Hj.
      destruct (decide (j = i)) as [->|]; [exists c1, c2; split_and!; [done|done|lia]|].
      destruct (Hmin j ltac:(lia)) as (d1&d2&?&?&?). exists d1, d2. split_and!; [done|done|lia].
    + split_and!; [lia|lia|done|]. intros j Hj.
      destruct (decide (j = i)) as [->|]; [exists c1, c2; split_and!; [done|done|lia]|].
      apply Hmin. lia.
  - subst i. split_and!; [lia|lia|by exists c1, c2|]. intros j Hj. replace j with x by lia.
    exists c1, c2. split_and!; [done|done|lia].
Qed.

Lemma operand_ok i : i < n → ∃ m, operand mats i = Ok m ∧ mats !! i = Some m.
Proof. intros Hi. unfold operand. destruct (lookup_lt_is_Some_2 mats i Hi) as [m ->]. eauto. Qed.

Lemma ComputeOptMultNum_ok fuel x y tb :
  y - x ≤ fuel → x < y → y < n → table_inv tb →
  ∃ tb', ComputeOptMultNum fuel x y mats tb = Ok tb' ∧ table_inv tb' ∧ known tb' x y ∧ extends tb tb'.
Proof using Q_single Q_step.
  revert x y tb. induction fuel as [|fuel IH]; intros x y tb Hf Hxy Hy Hinv; [lia|].
  cbn [ComputeOptMultNum].
  edestruct (forO_seq (λ i (r : table * option OptMult), table_inv r.1 ∧ extends tb r.1 ∧
    (∀ j, x ≤ j < i → known r.1 x j ∧ known r.1 (S j) y) ∧ best_of x y i r.2)) as ([tb' opt_ops]&->&Hend).
  - cbn. split_and!; [done|by intros ??|intros; lia|done].
  - intros i [tb1 opt] Hi (Hinv1&Hext1&Hkn&Hbest). cbn [fst snd] in *.
    destruct (prepare fuel tb1 x i (negb (i =? x))) as (e1&tb2&l&->&Hc2&Hinv2&Hext2&Hkn2&Hl&Hrl&Ql);
      [intros; apply IH; [lia|done|lia|done]|done|lia|lia|done|].
    cbn [bindO]. rewrite Hc2. cbn [bindO]. rewrite Hrl. cbn [bindO]. rewrite Nat.add_1_r.
    destruct (prepare fuel tb2 (S i) y (negb (S i =? y))) as (e2&tb3&r&->&Hc3&Hinv3&Hext3&Hkn3&Hr&Hrr&Qr);
      [intros; apply IH; [lia|done|lia|done]|done|lia|lia|by rewrite Nat.eqb_sym|].
    cbn [bindO]. rewrite Hc3. cbn [bindO]. rewrite Hrr. cbn [bindO].
    destruct (operand_ok x) as (mx&->&Ex); [lia|]. destruct (operand_ok i) as (mi&->&Ei); [lia|].
    destruct (operand_ok y) as (my&->&Ey); [lia|]. cbn [bindO].
    replace (u64 (u64 (u64 _ * _) + u64 _)) with (overall x i y (opt_op_num l) (opt_op_num r)).
    2: { unfold overall, rows_at, cols_at. rewrite Ex, Ei, Ey. by autorewrite with words. }
    eexists. split; [done|]. cbn [fst snd].
    split_and!; [done|intros ???; by apply Hext3, Hext2, Hext1| |by apply best_of_next; [|lia|..]].
    intros j Hj. destruct (decide (j = i)) as [->|].
    + split; [by eapply extends_known|done].
    + destruct (Hkn j ltac:(lia)) as [? ?].
      split; by apply (extends_known tb2 tb3 _ _ Hext3), (extends_known tb1 tb2 _ _ Hext2).
  - cbn [bindO]. destruct Hend as (Hinv'&Hext'&Hkn'&Hbest'). cbn [fst snd] in *.
    replace (x + (y - x)) with y in * by lia.
    destruct opt_ops as [[k c]|]; [|cbn in Hbest'; lia]. destruct Hbest' as (Hk&Hc&Hmin).
    destruct (write_inv tb' x y k c) as (tb''&->&Hinv''&Hkn''&Hext''); try done.
    + intros x' y' ??? Hne. destruct (decide (y' = y)) as [->|].
      * apply (proj2 (Hkn' x ltac:(lia))); [|lia|lia]. destruct (decide (x' = x)); [congruence|lia].
      * apply (proj1 (Hkn' (y - 1) ltac:(lia))); lia.
    + by apply (Q_step x y k c).
    + exists tb''. split_and!; [done|done|done|]. intros ???. by apply Hext'', Hext'.
Qed.

(** The order that the table describes. *)
Inductive follows (tb : table) : nat → nat → tree → Prop :=
| follows_leaf x m : mats !! x = Some m → follows tb x x (Leaf m)
| follows_node x y k c l r :
    lookup_table tb x y = Some (mkOptMult k c) → x ≤ k < y →
    follows tb x k l → follows tb (S k) y r → follows tb x y (Node l r).

Lemma known_follows tb x y : known tb x y → x ≤ y → y < n → ∃ t, follows tb x y t.
Proof.
  intros Hk Hxy Hy. remember (y - x) as d eqn:Hd. revert x y Hk Hxy Hy Hd.
  induction d as [d IH] using lt_wf_ind. intros x y Hk Hxy Hy Hd. destruct (decide (x = y)) as [<-|Hne].
  - destruct (lookup_lt_is_Some_2 mats x Hy) as [m Hm]. exists (Leaf m). by constructor.
  - destruct (Hk x y) as (k&c&Hl&Hk'&_); [lia..|].
    destruct (IH (k - x) ltac:(lia) x k) as [l ?]; [intros ?????; apply Hk; lia|lia..|].
    destruct (IH (y - S k) ltac:(lia) (S k) y) as [r ?]; [intros ?????; apply Hk; lia|lia..|].
    exists (Node l r). by econstructor.
Qed.

Lemma follows_le tb x y t : follows tb x y t → x ≤ y.
Proof. induction 1; lia. Qed.

Lemma MultiplicateMatrices_follows tb fuel x y t :
  table_inv tb → follows tb x y t → x < y → y < n → y - x ≤ fuel →
  MultiplicateMatrices fuel x y mats tb = eval t.
Proof.
  intros Hinv Ht. revert fuel. induction Ht as [|x y k c l r Hl Hk Hfl IHl Hfr IHr]; intros fuel Hxy Hy Hf; [lia|].
  destruct fuel as [|fuel]; [lia|]. cbn [MultiplicateMatrices eval].
  destruct (read_ok tb x y Hinv) as (e&He&->); [lia..|]. rewrite Hl in He. injection He as <-.
  cbn [bindO left_part_end]. rewrite Nat.add_1_r.
  assert ((if negb (k =? x) then MultiplicateMatrices fuel x k mats tb else operand mats x) = eval l) as ->.
  { destruct (Nat.eqb_spec k x) as [->|]; cbn; [|apply IHl; lia].
    inversion Hfl as [? m Hm|]; subst; [|lia]. unfold operand. by rewrite Hm. }
  destruct (eval l) as [a|]; cbn [bindO]; [|done].
  assert ((if negb (S k =? y) then MultiplicateMatrices fuel (S k) y mats tb else operand mats y) = eval r) as ->;
    [|done].
  destruct (Nat.eqb_spec (S k) y) as [<-|]; cbn; [|apply IHr; lia].
  inversion Hfr as [? m Hm|]; subst; [|lia]. unfold operand. by rewrite Hm.
Qed.

Definition seg (x y : nat) : list Matrix := take (S y - x) (drop x mats).

Lemma seg_split x k y : x ≤ k → k < y → seg x y = seg x k ++ seg (S k) y.
Proof.
  intros ??. unfold seg. replace (S y - x) with ((S k - x) + (S y - S k)) by lia.
  rewrite <- take_take_drop, drop_drop. by replace (x + (S k - x)) with (S k) by lia.
Qed.

Lemma seg_single x m : mats !! x = Some m → seg x x = [m].
Proof.
  intros Hm. unfold seg. replace (S x - x) with 1 by lia.
  by rewrite (drop_S mats m x Hm).
Qed.

Lemma follows_leaves tb x y t : follows tb x y t → leaves t = seg x y.
Proof.
  induction 1 as [x m Hm|x y k c l r ? Hk ? IHl ? IHr]; cbn; [by rewrite (seg_single x m)|].
  rewrite IHl, IHr, <- seg_split by lia. done.
Qed.

End Table.
(** ** The cheapest order *)
Section Optimal.
Context (mats : list Matrix).
Abbreviation n := (length mats).
Abbreviation part := (seg mats).
Abbreviation row_dim := (rows_at mats).
Abbreviation col_dim := (cols_at mats).

Definition is_min (x y : nat) (c : Z) : Prop :=
  (∃ t, leaves t = part x y ∧ cost t = c) ∧ ∀ t, leaves t = part x y → (c <= cost t)%Z.

(** The number of multiplications of no order overflows [size_t]. *)
Context (no_overflow : ∀ x y t, x ≤ y → y < n → leaves t = part x y → (cost t < 2 ^ 64)%Z).

Lemma cost_nonneg t : (0 <= cost t)%Z.
Proof. induction t; cbn; lia. Qed.

Lemma cost_bound t d :
  Forall (λ m, Rows m ≤ d ∧ Columns m ≤ d) (leaves t) →
  rows_of t ≤ d ∧ cols_of t ≤ d ∧ (cost t <= (Z.of_nat (length (leaves t)) - 1) * Z.of_nat d ^ 3)%Z.
Proof.
  induction t as [m|l IHl r IHr]; cbn [leaves rows_of cols_of cost].
  - intros [[? ?] _]%Forall_cons. cbn. lia.
  - intros [Hl Hr]%Forall_app. destruct (IHl Hl) as (H1&H2&H3), (IHr Hr) as (H4&H5&H6).
    split_and!; [done|done|]. rewrite length_app.
    assert (Z.of_nat (rows_of l) * Z.of_nat (cols_of l) * Z.of_nat (cols_of r) <= Z.of_nat d ^ 3)%Z; [|nia].
    replace (Z.of_nat d ^ 3)%Z with (Z.of_nat d * Z.of_nat d * Z.of_nat d)%Z by lia.
    repeat apply Z.mul_le_mono_nonneg; lia.
Qed.

Lemma length_seg x y : x ≤ y → y < n → length (part x y) = S y - x.
Proof. intros ??. unfold seg. rewrite length_take, length_drop. lia. Qed.

Lemma lookup_seg x y i : x ≤ i → i ≤ y → part x y !! (i - x) = mats !! i.
Proof.
  intros ??. unfold seg. rewrite lookup_take_lt by lia. rewrite lookup_drop. f_equal. lia.
Qed.

Lemma rows_of_lookup t m : leaves t !! 0 = Some m → rows_of t = Rows m.
Proof.
  induction t as [m'|l IHl r _]; cbn; [by intros [= ->]|].
  destruct (leaves_cons l) as (a&la&El). rewrite El in *. cbn. auto.
Qed.

Lemma cols_of_lookup t m : leaves t !! (length (leaves t) - 1) = Some m → cols_of t = Columns m.
Proof.
  induction t as [m'|l _ r IHr]; cbn; [by intros [= ->]|].
  destruct (leaves_cons r) as (a&la&Er). rewrite Er in *. cbn in *. rewrite length_app. cbn.
  rewrite lookup_app_r by lia. intros Hm. apply IHr. rewrite <- Hm. f_equal. lia.
Qed.

Lemma seg_dims t x y : x ≤ y → y < n → leaves t = part x y →
  Z.of_nat (rows_of t) = row_dim x ∧ Z.of_nat (cols_of t) = col_dim y.
Proof.
  intros Hxy Hy Ht. destruct (lookup_lt_is_Some_2 mats x ltac:(lia)) as [mx Hmx].
  destruct (lookup_lt_is_Some_2 mats y Hy) as [my Hmy].
  unfold rows_at, cols_at. rewrite Hmx, Hmy. split; f_equal.
  - apply rows_of_lookup. rewrite Ht, <- Hmx, <- (lookup_seg x y x) by lia. f_equal. lia.
  - apply cols_of_lookup. rewrite Ht, length_seg by lia. rewrite <- Hmy, <- (lookup_seg x y y) by lia.
    f_equal. lia.
Qed.

Lemma node_cost l r x k y : x ≤ k → k < y → y < n → leaves l = part x k → leaves r = part (S k) y →
  leaves (Node l r) = part x y ∧
  cost (Node l r) = (row_dim x * col_dim k * col_dim y + (cost l + cost r))%Z.
Proof.
  intros ??? Hl Hr. cbn. rewrite Hl, Hr, <- seg_split by lia. split; [done|].
  destruct (seg_dims l x k) as [-> ->]; [lia..|done|]. destruct (seg_dims r (S k) y) as [_ ->]; [lia..|done|].
  lia.
Qed.

Lemma split_leaves t x y : x < y → y < n → leaves t = part x y →
  ∃ l r k, t = Node l r ∧ x ≤ k < y ∧ leaves l = part x k ∧ leaves r = part (S k) y.
Proof.
  intros Hxy Hy Ht. pose proof (length_seg x y ltac:(lia) Hy) as Hlen. rewrite <- Ht in Hlen.
  destruct t as [m|l r]; cbn in *; [lia|]. rewrite length_app in Hlen.
  destruct (leaves_cons l) as (a&la&El), (leaves_cons r) as (b&lb&Er).
  assert (0 < length (leaves l)) by (rewrite El; cbn; lia).
  assert (0 < length (leaves r)) by (rewrite Er; cbn; lia).
  exists l, r, (x + length (leaves l) - 1). split_and!; [done|lia|lia| |].
  all: rewrite (seg_split mats x (x + length (leaves l) - 1) y) in Ht by lia; apply app_inj_1 in Ht as [H1 H2];
    [done|]; unfold seg; rewrite length_take, length_drop; lia.
Qed.

Lemma min_single x : x < n → is_min x x 0.
Proof.
  intros Hx. destruct (lookup_lt_is_Some_2 mats x Hx) as [m Hm]. split.
  - exists (Leaf m). by rewrite (seg_single mats x m).
  - intros t _. apply cost_nonneg.
Qed.

Lemma min_overall x k y c1 c2 : x ≤ k → k < y → y < n → is_min x k c1 → is_min (S k) y c2 →
  overall mats x k y c1 c2 = (row_dim x * col_dim k * col_dim y + (c1 + c2))%Z.
Proof using no_overflow.
  intros ??? [(l&Hl&<-) _] [(r&Hr&<-) _]. destruct (node_cost l r x k y) as [Hn Hc]; [done..|].
  unfold overall. rewrite <- Hc. apply uwrap_small. split; [apply cost_nonneg|].
  apply (no_overflow x y); [lia|done|done].
Qed.

Lemma min_step x y k c : x ≤ k < y → y < n →
  (∃ c1 c2, is_min x k c1 ∧ is_min (S k) y c2 ∧ c = overall mats x k y c1 c2) →
  (∀ i, x ≤ i < y → ∃ c1 c2, is_min x i c1 ∧ is_min (S i) y c2 ∧ (c <= overall mats x i y c1 c2)%Z) →
  is_min x y c.
Proof using no_overflow.
  intros Hk Hy (c1&c2&H1&H2&->) Hmin. split.
  - rewrite (min_overall x k y c1 c2) by (done || lia).
    destruct H1 as [(l&Hl&<-) _], H2 as [(r&Hr&<-) _]. exists (Node l r). apply node_cost; (done || lia).
  - intros t Ht. destruct (split_leaves t x y) as (l&r&i&->&Hi&Hl&Hr); [lia|done|done|].
    destruct (Hmin i Hi) as (d1&d2&Hd1&Hd2&Hle). rewrite (min_overall x i y d1 d2) in Hle by (done || lia).
    destruct (node_cost l r x i y) as [_ ->]; [lia|lia|done|done|done|].
    destruct Hd1 as [_ Hd1], Hd2 as [_ Hd2]. specialize (Hd1 l Hl). specialize (Hd2 r Hr). lia.
Qed.

Lemma follows_min tb x y t :
  known mats is_min tb x y → follows mats tb x y t → y < n → is_min x y (cost t).
Proof using no_overflow.
  intros Hk Ht. revert Hk. induction Ht as [x m Hm|x y k c l r Hl Hkk Hfl IHl Hfr IHr]; intros Hk Hy.
  - by apply min_single.
  - destruct (Hk x y) as (k'&c'&Hl'&_&Hq&c1&c2&H1&H2&Hc); [lia..|]. rewrite Hl in Hl'.
    injection Hl' as <- <-.
    assert (is_min x k (cost l)) as Ml by (apply IHl; [intros ?????; apply Hk; lia|lia]).
    assert (is_min (S k) y (cost r)) as Mr by (apply IHr; [intros ?????; apply Hk; lia|lia]).
    assert (∀ x y c d, is_min x y c → is_min x y d → c = d) as Huniq.
    { intros ???? [(u&Hu&<-) Hcu] [(v&Hv&<-) Hcv]. specialize (Hcu v Hv). specialize (Hcv u Hu). lia. }
    rewrite (min_overall x k y c1 c2) in Hc by (done || lia).
    destruct (node_cost l r x k y) as [_ ->]; [lia|lia|done|by eapply follows_leaves..|].
    rewrite (Huniq _ _ _ _ Ml H1), (Huniq _ _ _ _ Mr H2), <- Hc. done.
Qed.
End Optimal.

(** ** The constructor from a chain *)

(** The sizes of neighbours agree. *)
Definition matching (l : list Matrix) : Prop :=
  ∀ i a b, l !! i = Some a → l !! S i = Some b → Columns a = Rows b.

Lemma matching_cons a b l : matching (a :: b :: l) ↔ Columns a = Rows b ∧ matching (b :: l).
Proof.
  split.
  - intros H. split; [by apply (H 0)|]. intros i. apply (H (S i)).
  - intros [Hab Hl] [|i] x y; [by intros [= <-] [= <-]|apply Hl].
Qed.

Lemma matching_fits m l :
  Forall rectangular (m :: l) → matching (m :: l) → ∃ t, fits (Rows m) (m :: l) t.
Proof.
  revert m. induction l as [|b l IH]; intros m Hr Hm.
  - apply Forall_cons in Hr as [Hr _]. exists (Columns m). cbn. eauto.
  - apply matching_cons in Hm as [Hab Hm]. apply Forall_cons in Hr as [Hr Hrl].
    destruct (IH b Hrl Hm) as [t Ht]. exists t. exists (Columns m). split; [done|]. by rewrite Hab.
Qed.

Lemma check_sizes_ok l :
  (matching l → check_sizes l = Ok ()) ∧
  (¬ matching l → check_sizes l = Fail (Exn (RuntimeError "Wrong sizes"))).
Proof.
  unfold check_sizes.
  assert (∀ i, 1 ≤ i < length l → ∃ a b, l !! (i - 1) = Some a ∧ l !! i = Some b) as Hl.
  { intros i Hi. destruct (lookup_lt_is_Some_2 l (i - 1) ltac:(lia)) as [a Ha].
    destruct (lookup_lt_is_Some_2 l i ltac:(lia)) as [b Hb]. eauto. }
  split.
  - intros Hm. destruct (forO_seq (λ _ (_ : ()), True)
      (λ i _, left <-? operand l (i - 1) ;; right <-? operand l i ;;
        if negb (Columns left =? Rows right) then Fail (Exn (RuntimeError "Wrong sizes")) else Ok ())
      1 (length l - 1) ()) as ([]&H&_); [done| |done].
    intros i [] Hi _. destruct (Hl i ltac:(lia)) as (a&b&Ha&Hb). unfold operand. rewrite Ha, Hb. cbn.
    rewrite (Hm (i - 1) a b Ha) by (by replace (S (i - 1)) with i by lia). rewrite Nat.eqb_refl. eauto.
  - intros Hm.
    assert (∀ k m, 1 ≤ m → m + k ≤ length l →
      forO (λ i _, left <-? operand l (i - 1) ;; right <-? operand l i ;;
        if negb (Columns left =? Rows right) then Fail (Exn (RuntimeError "Wrong sizes")) else Ok ())
        (seq m k) () = Fail (Exn (RuntimeError "Wrong sizes")) ∨
      ∀ i a b, m ≤ S i < m + k → l !! i = Some a → l !! S i = Some b → Columns a = Rows b) as Hk.
    { induction k as [|k IH]; intros m Hm1 Hmk; [right; lia|]. cbn [seq forO].
      destruct (Hl m ltac:(lia)) as (a&b&Ha&Hb). unfold operand at 1 2. rewrite Ha, Hb. cbn [bindO].
      destruct (Nat.eqb_spec (Columns a) (Rows b)) as [Heq|]; cbn [negb bindO]; [|by left].
      destruct (IH (S m)) as [IHf|IHm]; [lia|lia|by left|]. right. intros i x y Hi Hx Hy.
      destruct (decide (S i = m)) as [<-|]; [|apply (IHm i); [lia|done|done]].
      replace (S i - 1) with i in Ha by lia. congruence. }
    destruct (Hk (length l - 1) 1) as [H|H]; [lia| |done|].
    + destruct l; [|cbn; lia]. exfalso. apply Hm. intros i a b. by rewrite lookup_nil.
    + exfalso. apply Hm. intros i a b Ha Hb. apply (H i); [|done|done].
      apply lookup_lt_Some in Hb. lia.
Qed.

Lemma DFS_cons g res : ∃ a b l, DFS g res = (res ++ [a; b]) ++ l.
Proof.
  induction g as [l r|g (a&b&l&IH) r]; cbn.
  - exists l, r, []. by rewrite app_nil_r, <- app_assoc.
  - exists a, b, (l ++ [r]). by rewrite IH, <- app_assoc.
Qed.

Lemma DFS_length g : 2 ≤ length (DFS g []).
Proof. destruct (DFS_cons g []) as (a&b&l&->). cbn. lia. Qed.

Lemma new_table (mats : list Matrix) Q :
  table_inv mats Q (replicate (length mats) (replicate (length mats) (mkOptMult 0 0))).
Proof.
  assert (∀ x y e, lookup_table (replicate (length mats) (replicate (length mats) (mkOptMult 0 0))) x y = Some e →
    opt_op_num e = 0%Z) as H0.
  { intros x y e. unfold lookup_table. destruct (replicate _ _ !! x) as [row|] eqn:Hrow; [|done]. cbn.
    apply lookup_replicate in Hrow as [-> _]. intros [-> _]%lookup_replicate. done. }
  split.
  - rewrite length_replicate. split; [done|]. apply Forall_replicate. by rewrite length_replicate.
  - intros x e. apply H0.
  - intros x y e _ _ He Hn. by apply H0 in He.
Qed.

(** Whatever the numbers in the table mean, the operands are multiplied in the order
    the table describes. *)
Lemma of_glue_follows g (Q : nat → nat → Z → Prop) :
  let operands := DFS g [] in
  (∀ x, x < length operands → Q x x 0%Z) →
  (∀ x y k c, x ≤ k < y → y < length operands →
    (∃ c1 c2, Q x k c1 ∧ Q (S k) y c2 ∧ c = overall operands x k y c1 c2) →
    (∀ i, x ≤ i < y → ∃ c1 c2, Q x i c1 ∧ Q (S i) y c2 ∧ (c <= overall operands x i y c1 c2)%Z) → Q x y c) →
  matching operands →
  ∃ tb t, of_glue g = eval t ∧ known operands Q tb 0 (length operands - 1) ∧
    follows operands tb 0 (length operands - 1) t ∧ leaves t = operands.
Proof.
  intros operands Q1 Q2 Hm. unfold of_glue. fold operands. pose proof (DFS_length g) as Hn. fold operands in Hn.
  destruct (check_sizes_ok operands) as [-> _]; [|done]. cbn [bindO].
  destruct (ComputeOptMultNum_ok operands Q Q1 Q2 (length operands) 0 (length operands - 1)
    (replicate (length operands) (replicate (length operands) (mkOptMult 0 0)))) as (tb&->&Hinv&Hk&_);
    [lia|lia|lia|apply new_table|].
  cbn [bindO]. destruct (known_follows operands Q tb 0 (length operands - 1) Hk) as [t Ht]; [lia|lia|].
  exists tb, t. split_and!; [|done|done|].
  - apply (MultiplicateMatrices_follows operands Q); [done|done|lia|lia|lia].
  - rewrite (follows_leaves operands tb 0 (length operands - 1) t Ht). unfold seg. rewrite drop_0.
    apply take_ge. lia.
Qed.

End Elements.
End Matrix2.

Section Properties.
Import Matrix2.
Context {T : Type} (zero : T) (add mul : T → T → T).

(** C17 [Matrix d = a * b * ... * z] is the product of the operands from left to right,
    whatever order the table chose (even if the counts wrapped around), when the
    elements are a ring and the sizes fit; when some do not, the constructor
    throws.  No access is outside of a vector. *)
Theorem glue_product `{!RingLaws zero add mul} (g : Glue (T := T)) :
  Forall rectangular (DFS g []) →
  (matching (DFS g []) →
     ∃ m, of_glue zero add mul g = Ok m ∧ product zero add mul (DFS g []) = Ok m ∧ rectangular m) ∧
  (¬ matching (DFS g []) → of_glue zero add mul g = Fail (Exn (RuntimeError "Wrong sizes"))).
Proof.
  intros Hr. split.
  - intros Hm. destruct (of_glue_follows zero add mul g (λ _ _ _, True)) as (tb&t&->&_&_&Hl);
      [done|done|done|].
    destruct (DFS_cons g []) as (a&b&l&E). rewrite E in *. cbn [app] in *.
    destruct (matching_fits a (b :: l) Hr Hm) as [s Hs]. rewrite <- Hl in Hs |- *.
    destruct (eval_product zero add mul t _ s Hs) as (m&Hm1&Hm2&Hm3). exists m. split_and!; [done|done|].
    destruct Hm2 as (H1&H2&H3&H4). by split_and!; rewrite ?H1, ?H2.
  - intros Hm. unfold of_glue. by destruct (check_sizes_ok (DFS g [])) as [_ ->].
Qed.

(** C18 The order in which the operands are multiplied needs the fewest
    multiplications of elements among all the ways to put parentheses, if the
    numbers fit in [size_t].  (For arbitrary operations on the elements, which need
    not be associative: it is the order that is meant.) *)
Theorem glue_optimal (g : Glue (T := T)) :
  matching (DFS g []) →
  (∀ x y t, x ≤ y → y < length (DFS g []) → leaves t = seg (DFS g []) x y → (cost t < 2 ^ 64)%Z) →
  ∃ t, leaves t = DFS g [] ∧ of_glue zero add mul g = eval zero add mul t ∧
    ∀ t', leaves t' = DFS g [] → (cost t <= cost t')%Z.
Proof.
  intros Hm Hno. pose proof (DFS_length g) as Hlen.
  destruct (of_glue_follows zero add mul g (is_min (DFS g []))) as (tb&t&Ht&Hk&Hf&Hl);
    [apply min_single|by apply min_step|done|].
  exists t. split_and!; [done|done|]. intros t' Ht'.
  apply (follows_min (DFS g []) Hno tb 0 (length (DFS g []) - 1) t Hk Hf ltac:(lia)).
  unfold seg. rewrite drop_0, take_ge by lia. done.
Qed.

(** [+] and binary [-] throw on different sizes and work elementwise otherwise, unary
    [-] always works, on rectangular matrices; no access is out of range. *)
Theorem matrix2_elementwise (sub : T → T → T) (neg : T → T) (lhs rhs : Matrix (T := T)) (rows cols : nat) :
  shape lhs rows cols → rectangular rhs →
  (∃ m, operator_neg zero neg lhs = Ok m ∧ shape m rows cols ∧
     ∀ i j, i < rows → j < cols → entry zero m i j = neg (entry zero lhs i j)) ∧
  (same_size lhs rhs = true →
     (∃ m, operator_add add lhs rhs = Ok m ∧ shape m rows cols ∧
        ∀ i j, i < rows → j < cols → entry zero m i j = add (entry zero lhs i j) (entry zero rhs i j)) ∧
     (∃ m, operator_sub sub lhs rhs = Ok m ∧ shape m rows cols ∧
        ∀ i j, i < rows → j < cols → entry zero m i j = sub (entry zero lhs i j) (entry zero rhs i j))) ∧
  (same_size lhs rhs = false →
     operator_add add lhs rhs = Fail (Exn (RuntimeError "Wrong sizes")) ∧
     operator_sub sub lhs rhs = Fail (Exn (RuntimeError "Wrong sizes"))).
Proof.
  intros Hl Hr. pose proof Hl as (Hrows&Hcols&_). split_and!.
  - unfold operator_neg. rewrite Hrows, Hcols. apply for_elements_ok; [apply matrix2_make_shape|].
    intros i j m' Hi Hj _ _. by rewrite (matrix2_get_ok zero lhs rows cols).
  - intros Hs. unfold operator_add, operator_sub. rewrite Hs, Hrows, Hcols. cbn [negb].
    apply andb_true_iff in Hs as [H1%Nat.eqb_eq H2%Nat.eqb_eq]. rewrite Hrows in H1. rewrite Hcols in H2.
    assert (shape rhs rows cols) as Hr' by (unfold rectangular in Hr; by rewrite <- H1, <- H2 in Hr).
    split; apply for_elements_ok; try done; intros i j m' Hi Hj Hm' He;
      rewrite (matrix2_get_ok zero m' rows cols), (matrix2_get_ok zero rhs rows cols) by done; cbn; by rewrite He.
  - intros Hs. unfold operator_add, operator_sub. by rewrite Hs.
Qed.
End Properties.

Section Witnesses.
Import Matrix2.
Open Scope Z_scope.

(** Sizes 1x2, 2x2 and 2x1. *)
Definition three : Glue (T := Z) :=
  GlueGlue (GlueMatrix (of_rows [[1; 2]]) (of_rows [[3; 4]; [5; 6]])) (of_rows [[7]; [8]]).

Lemma three_matching : matching (DFS three []).
Proof. intros [|[|[|i]]] a b; cbn; intros [= <-]; intros [= <-]; reflexivity. Defined.

Lemma glue_product_witness : ∃ m, of_glue 0 Z.add Z.mul three = Ok m ∧ product 0 Z.add Z.mul (DFS three []) = Ok m.
Proof.
  destruct (glue_product 0 Z.add Z.mul three) as [H _].
  - repeat constructor.
  - destruct (H three_matching) as (m&H1&H2&_). exists m. split; [exact H1|exact H2].
Defined.

Lemma glue_optimal_witness :
  ∃ t, leaves t = DFS three [] ∧ ∀ t', leaves t' = DFS three [] → cost t <= cost t'.
Proof.
  destruct (glue_optimal 0 Z.add Z.mul three) as (t&Hl&_&Hmin).
  - exact three_matching.
  - intros x y t Hxy Hy Ht. cbn in Hy. pose proof (length_take (drop x (DFS three [])) (S y - x)) as Hlen.
    rewrite length_drop in Hlen. change (length (DFS three [])) with 3%nat in Hlen.
    assert (cost t <= (Z.of_nat (length (leaves t)) - 1) * 2 ^ 3) as Hc.
    { apply (cost_bound t 2). rewrite Ht. apply Forall_take, Forall_drop. cbn. repeat constructor. }
    rewrite Ht in Hc. unfold seg in Hc. rewrite Hlen in Hc. lia.
  - exists t. split; [exact Hl|exact Hmin].
Defined.

Lemma matrix2_elementwise_witness :
  ∃ m, operator_add Z.add (of_rows [[1; 2]]) (of_rows [[3; 4]]) = Ok m ∧ entry 0 m 0 1 = 6.
Proof.
  destruct (matrix2_elementwise 0 Z.add Z.sub Z.opp (of_rows [[1; 2]]) (of_rows [[3; 4]]) 1 2) as (_&H&_).
  - split_and!; repeat constructor.
  - repeat constructor.
  - destruct (H eq_refl) as [(m&Hm&_&He) _]. exists m. split; [exact Hm|]. rewrite He by lia. reflexivity.
Defined.
End Witnesses.
