(* ===== verification/Channels.v ===== *)
(** * Channels (buffered-channel, unbuffered-channel)

    A channel is a transition system: the queue, the flag and the mutex, and a list
    of threads, each somewhere in [Send], [Recv] or [Close].  A thread that waits on
    a condition variable is asleep until it is notified (or for no reason), and then
    takes the mutex and looks at its condition again. *)

From S2P Require Import Prelude.

Module BufferedChannel.
Section Channel.
Context {T : Type} (max_size_ : nat).

(** [sent] and [received] are auxiliary: the values in the order in which they were
    pushed and popped. *)
Record shared : Type := mkShared {
  queue_ : list T;
  is_closed_ : bool;
  edit_queue_ : bool;
  sent : list T;
  received : list T
}.

(** In [Send] and [Recv]: about to lock; about to test the condition; about to wait,
    still with the mutex; asleep; past the wait.  [Close] does not lock. *)
Inductive pc : Type :=
| Idle
| SendLock (v : T)
| SendTest (v : T)
| SendWait (v : T)
| SendAsleep (v : T)
| SendDo (v : T)
| SendNotify
| Threw
| RecvLock
| RecvTest
| RecvWait
| RecvAsleep
| RecvDo
| RecvNotify (res : T)
| Got (res : option T)
| CloseSet
| CloseNotifyRead
| CloseNotifyWrite.

Definition set_lock (b : bool) (s : shared) : shared :=
  mkShared (queue_ s) (is_closed_ s) b (sent s) (received s).

(** The steps of [Send] up to the notification; the mutex is taken if it is free. *)
Definition Send_step (s : shared) (p : pc) : option (shared * pc) :=
  match p with
  | SendLock v => if edit_queue_ s then None else Some (set_lock true s, SendTest v)
  | SendTest v =>
      if (length (queue_ s) <? max_size_) || is_closed_ s then Some (s, SendDo v) else Some (s, SendWait v)
  | SendWait v => Some (set_lock false s, SendAsleep v)
  | SendDo v =>
      if is_closed_ s then Some (set_lock false s, Threw)
      else Some (mkShared (queue_ s ++ [v]) (is_closed_ s) (edit_queue_ s) (sent s ++ [v]) (received s),
                 SendNotify)
  | _ => None
  end.

Definition Recv_step (s : shared) (p : pc) : option (shared * pc) :=
  match p with
  | RecvLock => if edit_queue_ s then None else Some (set_lock true s, RecvTest)
  | RecvTest =>
      if negb (length (queue_ s) =? 0) || is_closed_ s then Some (s, RecvDo) else Some (s, RecvWait)
  | RecvWait => Some (set_lock false s, RecvAsleep)
  | RecvDo =>
      match queue_ s with
      | res :: rest =>
          Some (mkShared rest (is_closed_ s) (edit_queue_ s) (sent s) (received s ++ [res]), RecvNotify res)
      | [] => Some (set_lock false s, Got None)
      end
  | _ => None
  end.

Definition Close_set (s : shared) : shared :=
  mkShared (queue_ s) true (edit_queue_ s) (sent s) (received s).

(** Those who sleep on [may_read_], and on [may_write_], wake up into locking. *)
Definition wake_read (p : pc) : pc := match p with RecvAsleep => RecvLock | _ => p end.
Definition wake_write (p : pc) : pc := match p with SendAsleep v => SendLock v | _ => p end.

Definition recv_asleep (p : pc) : bool := match p with RecvAsleep => true | _ => false end.
Definition send_asleep (p : pc) : bool := match p with SendAsleep _ => true | _ => false end.

(** [notify_one] wakes one of the sleepers, if there is one. *)
Inductive notify_one (asleep : pc → bool) (wake : pc → pc) (l : list pc) : list pc → Prop :=
| notify_some j p : l !! j = Some p → asleep p = true → notify_one asleep wake l (<[j := wake p]> l)
| notify_none : count asleep l = 0 → notify_one asleep wake l l.

Inductive step : shared * list pc → shared * list pc → Prop :=
| call_Send s l i v : l !! i = Some Idle → step (s, l) (s, <[i := SendLock v]> l)
| call_Recv s l i : l !! i = Some Idle → step (s, l) (s, <[i := RecvLock]> l)
| call_Close s l i : l !! i = Some Idle → step (s, l) (s, <[i := CloseSet]> l)
| do_Send s l i p s' p' :
    l !! i = Some p → Send_step s p = Some (s', p') → step (s, l) (s', <[i := p']> l)
| do_Recv s l i p s' p' :
    l !! i = Some p → Recv_step s p = Some (s', p') → step (s, l) (s', <[i := p']> l)
| send_notify s l i l' :
    l !! i = Some SendNotify → notify_one recv_asleep wake_read l l' →
    step (s, l) (set_lock false s, <[i := Idle]> l')
| recv_notify s l i res l' :
    l !! i = Some (RecvNotify res) → notify_one send_asleep wake_write l l' →
    step (s, l) (set_lock false s, <[i := Got (Some res)]> l')
| close_set s l i : l !! i = Some CloseSet → step (s, l) (Close_set s, <[i := CloseNotifyRead]> l)
| close_notify_read s l i :
    l !! i = Some CloseNotifyRead → step (s, l) (s, <[i := CloseNotifyWrite]> (wake_read <$> l))
| close_notify_write s l i :
    l !! i = Some CloseNotifyWrite → step (s, l) (s, <[i := Idle]> (wake_write <$> l))
| spurious_read s l i : l !! i = Some RecvAsleep → step (s, l) (s, <[i := RecvLock]> l)
| spurious_write s l i v : l !! i = Some (SendAsleep v) → step (s, l) (s, <[i := SendLock v]> l)
| returned s l i p :
    l !! i = Some p → p = Threw ∨ (∃ res, p = Got res) → step (s, l) (s, <[i := Idle]> l).

Definition make : shared := mkShared [] false false [] [].
Definition init (c : shared * list pc) : Prop := ∃ n, c = (make, replicate n Idle).

(** ** The invariant *)

(** The threads that have the mutex; the receivers and the senders that will look at
    the queue before they sleep. *)
Definition locks (p : pc) : bool :=
  match p with
  | SendTest _ | SendWait _ | SendDo _ | SendNotify | RecvTest | RecvWait | RecvDo | RecvNotify _ => true
  | _ => false
  end.
Definition recv_active (p : pc) : bool :=
  match p with RecvLock | RecvTest | RecvDo => true | _ => false end.
Definition send_active (p : pc) : bool :=
  match p with SendLock _ | SendTest _ | SendDo _ => true | _ => false end.
(** A value was pushed, or popped, and nobody has been notified yet. *)
Definition pushes (p : pc) : bool := match p with SendNotify => true | _ => false end.
Definition pops (p : pc) : bool := match p with RecvNotify _ => true | _ => false end.

Definition pc_ok (s : shared) (p : pc) : Prop :=
  match p with
  | SendWait _ => max_size_ ≤ length (queue_ s)
  | SendDo _ => length (queue_ s) < max_size_ ∨ is_closed_ s = true
  | RecvWait => queue_ s = []
  | _ => True
  end.

Record inv (c : shared * list pc) : Prop := {
  i_order : sent c.1 = received c.1 ++ queue_ c.1;
  i_size : length (queue_ c.1) ≤ max_size_;
  i_mutex : count locks c.2 = Nat.b2n (edit_queue_ c.1);
  i_pcs : ∀ i p, c.2 !! i = Some p → pc_ok c.1 p;
  i_readers : 0 < count recv_asleep c.2 →
    length (queue_ c.1) ≤ count recv_active c.2 + count pushes c.2;
  i_writers : 0 < count send_asleep c.2 → is_closed_ c.1 = false →
    max_size_ - length (queue_ c.1) ≤ count send_active c.2 + count pops c.2
}.

(** One thread moves: what happens to the number of threads at each place. *)
Lemma counts_move (l : list pc) i p p' :
  l !! i = Some p →
  count locks (<[i:=p']> l) + Nat.b2n (locks p) = count locks l + Nat.b2n (locks p') ∧
  count recv_asleep (<[i:=p']> l) + Nat.b2n (recv_asleep p) = count recv_asleep l + Nat.b2n (recv_asleep p') ∧
  count send_asleep (<[i:=p']> l) + Nat.b2n (send_asleep p) = count send_asleep l + Nat.b2n (send_asleep p') ∧
  count recv_active (<[i:=p']> l) + Nat.b2n (recv_active p) = count recv_active l + Nat.b2n (recv_active p') ∧
  count send_active (<[i:=p']> l) + Nat.b2n (send_active p) = count send_active l + Nat.b2n (send_active p') ∧
  count pushes (<[i:=p']> l) + Nat.b2n (pushes p) = count pushes l + Nat.b2n (pushes p') ∧
  count pops (<[i:=p']> l) + Nat.b2n (pops p) = count pops l + Nat.b2n (pops p').
Proof. intros Hi. split_and!; by apply count_insert. Qed.

(** Who holds the mutex changes the queue alone. *)
Lemma pcs_move s l i p s' p' :
  inv (s, l) → l !! i = Some p → pc_ok s' p' →
  (queue_ s' = queue_ s ∨ locks p = true) → (is_closed_ s = true → is_closed_ s' = true) →
  ∀ j q, <[i:=p']> l !! j = Some q → pc_ok s' q.
Proof.
  intros Hinv Hi Hp' Hq Hc j q [[-> ->]|[Hne Hj]]%insert_inv; [done|].
  pose proof (i_pcs _ Hinv j q Hj) as Hok. cbn [fst] in Hok.
  assert (locks q = true → queue_ s' = queue_ s) as Hsame.
  { intros Hlq. destruct Hq as [|Hlp]; [done|]. exfalso.
    pose proof (count_two locks l j i q p Hj Hi Hlq Hlp Hne). pose proof (i_mutex _ Hinv) as Hm. cbn [fst snd] in Hm.
    destruct (edit_queue_ s); cbn in Hm; lia. }
  destruct q; cbn in *; try done; rewrite (Hsame eq_refl); [done| |done]. destruct Hok; auto.
Qed.

(** A step of one thread: the queue and the counters are left to arithmetic. *)
Ltac thread_step Hinv Hi p' :=
  destruct (counts_move _ _ _ p' Hi) as (?&?&?&?&?&?&?);
  pose proof (i_order _ Hinv); pose proof (i_size _ Hinv); pose proof (i_mutex _ Hinv);
  pose proof (i_readers _ Hinv); pose proof (i_writers _ Hinv); pose proof (i_pcs _ Hinv _ _ Hi);
  cbn [fst snd locks recv_asleep send_asleep recv_active send_active pushes pops Nat.b2n pc_ok
       queue_ is_closed_ edit_queue_ sent received set_lock Close_set] in *;
  split; cbn [fst snd queue_ is_closed_ edit_queue_ sent received set_lock Close_set];
  [try done|try lia|destruct (edit_queue_ _); cbn [Nat.b2n] in *; try done; try lia
  |eapply (pcs_move _ _ _ _ _ p' Hinv Hi); cbn; auto
  |try lia|let Hc := fresh "Hc" in intros ? Hc; try congruence;
    repeat match goal with
    | H : _ → is_closed_ ?s = false → _ |- _ =>
        first [specialize (λ X, H X ltac:(congruence))|clear H] end; try lia].

Lemma send_step_inv s l i p s' p' :
  inv (s, l) → l !! i = Some p → Send_step s p = Some (s', p') → inv (s', <[i:=p']> l).
Proof.
  intros Hinv Hi Hstep. destruct p; try done; cbn [Send_step] in Hstep.
  - destruct (edit_queue_ s) eqn:E; [done|]. injection Hstep as <- <-. thread_step Hinv Hi (SendTest v).
  - destruct (Nat.ltb_spec (length (queue_ s)) max_size_) as [Hlt|Hge]; cbn [orb] in Hstep;
      [|destruct (is_closed_ s) eqn:E; cbn in Hstep]; injection Hstep as <- <-.
    + thread_step Hinv Hi (SendDo v).
    + thread_step Hinv Hi (SendDo v).
    + thread_step Hinv Hi (SendWait v).
  - injection Hstep as <- <-. thread_step Hinv Hi (SendAsleep v).
  - destruct (is_closed_ s) eqn:E; injection Hstep as <- <-.
    + thread_step Hinv Hi Threw.
    + thread_step Hinv Hi SendNotify.
      * by rewrite app_assoc; f_equal.
      * rewrite length_app. cbn. destruct (i_pcs _ Hinv _ _ Hi) as [?|?]; cbn in *; [lia|congruence].
      * congruence.
      * rewrite length_app. cbn. lia.
      * rewrite length_app. cbn. lia.
Qed.

Lemma recv_step_inv s l i p s' p' :
  inv (s, l) → l !! i = Some p → Recv_step s p = Some (s', p') → inv (s', <[i:=p']> l).
Proof.
  intros Hinv Hi Hstep. destruct p; try done; cbn [Recv_step] in Hstep.
  - destruct (edit_queue_ s) eqn:E; [done|]. injection Hstep as <- <-. thread_step Hinv Hi RecvTest.
  - destruct (queue_ s) as [|x q] eqn:Eq; cbn [length Nat.eqb negb orb] in Hstep;
      [destruct (is_closed_ s) eqn:E|]; injection Hstep as <- <-.
    + thread_step Hinv Hi RecvDo.
    + thread_step Hinv Hi RecvWait. rewrite Eq. cbn. lia.
    + thread_step Hinv Hi RecvDo.
  - injection Hstep as <- <-. thread_step Hinv Hi RecvAsleep.
    pose proof (i_pcs _ Hinv _ _ Hi) as Hq. cbn in Hq. rewrite Hq. cbn. lia.
  - destruct (queue_ s) as [|x q] eqn:Eq; injection Hstep as <- <-.
    + thread_step Hinv Hi (Got None). rewrite Eq. cbn. lia.
    + thread_step Hinv Hi (RecvNotify x).
      all: rewrite Eq in *; cbn [length] in *; try lia. by rewrite <- app_assoc.
Qed.

Lemma wake_read_inv s l j : inv (s, l) → l !! j = Some RecvAsleep → inv (s, <[j:=RecvLock]> l).
Proof. intros Hinv Hj. thread_step Hinv Hj RecvLock. Qed.

Lemma wake_write_inv s l j v : inv (s, l) → l !! j = Some (SendAsleep v) → inv (s, <[j:=SendLock v]> l).
Proof. intros Hinv Hj. thread_step Hinv Hj (SendLock v). Qed.

Lemma send_notify_inv s l i l' :
  inv (s, l) → l !! i = Some SendNotify → notify_one recv_asleep wake_read l l' →
  inv (set_lock false s, <[i:=Idle]> l').
Proof.
  intros Hinv Hi [j p Hj Hp|Hnone].
  - destruct p; try done. assert (i ≠ j) as Hne by (intros ->; congruence).
    assert (<[j:=RecvLock]> l !! i = Some SendNotify) as Hi' by (by rewrite list_lookup_insert_ne).
    pose proof (wake_read_inv s l j Hinv Hj) as Hinv'. pose proof (i_readers _ Hinv) as Hr.
    destruct (counts_move _ _ _ RecvLock Hj) as (?&?&?&?&?&?&?). cbn [wake_read].
    thread_step Hinv' Hi' Idle.
  - thread_step Hinv Hi Idle.
Qed.

Lemma recv_notify_inv s l i res l' :
  inv (s, l) → l !! i = Some (RecvNotify res) → notify_one send_asleep wake_write l l' →
  inv (set_lock false s, <[i:=Got (Some res)]> l').
Proof.
  intros Hinv Hi [j p Hj Hp|Hnone].
  - destruct p; try done. assert (i ≠ j) as Hne by (intros ->; congruence).
    assert (<[j:=SendLock v]> l !! i = Some (RecvNotify res)) as Hi' by (by rewrite list_lookup_insert_ne).
    pose proof (wake_write_inv s l j v Hinv Hj) as Hinv'. pose proof (i_writers _ Hinv) as Hr.
    destruct (counts_move _ _ _ (SendLock v) Hj) as (?&?&?&?&?&?&?). cbn [wake_write].
    thread_step Hinv' Hi' (Got (Some res)).
  - thread_step Hinv Hi (Got (Some res)).
Qed.

(** [notify_all]. *)
Lemma wake_all_pcs s (l : list pc) (wake : pc → pc) :
  (∀ p, pc_ok s p → pc_ok s (wake p)) → (∀ i p, l !! i = Some p → pc_ok s p) →
  ∀ i p, (wake <$> l) !! i = Some p → pc_ok s p.
Proof.
  intros Hw Hl i p. rewrite list_lookup_fmap. destruct (l !! i) as [q|] eqn:E; [|done].
  intros [= <-]. eauto.
Qed.

Lemma wake_all_read_inv s l : inv (s, l) → inv (s, wake_read <$> l).
Proof.
  intros [Ho Hs Hm Hp Hr Hw]. split; cbn [fst snd] in *; rewrite ?count_fmap; try done.
  - rewrite <- Hm. apply count_ext. by intros [].
  - apply wake_all_pcs; [by intros []|done].
  - rewrite (count_none (λ x, recv_asleep (wake_read x))) by (by intros []). lia.
  - rewrite (count_ext (λ x, send_asleep (wake_read x)) send_asleep),
      (count_ext (λ x, send_active (wake_read x)) send_active),
      (count_ext (λ x, pops (wake_read x)) pops); [done|by intros []..].
Qed.

Lemma wake_all_write_inv s l : inv (s, l) → inv (s, wake_write <$> l).
Proof.
  intros [Ho Hs Hm Hp Hr Hw]. split; cbn [fst snd] in *; rewrite ?count_fmap; try done.
  - rewrite <- Hm. apply count_ext. by intros [].
  - apply wake_all_pcs; [by intros []|done].
  - rewrite (count_ext (λ x, recv_asleep (wake_write x)) recv_asleep),
      (count_ext (λ x, recv_active (wake_write x)) recv_active),
      (count_ext (λ x, pushes (wake_write x)) pushes); [done|by intros []..].
  - rewrite (count_none (λ x, send_asleep (wake_write x))) by (by intros []). lia.
Qed.

Lemma buffered_inv_step c c' : inv c → step c c' → inv c'.
Proof.
  intros Hinv Hstep.
  destruct Hstep as [s l i v Hi|s l i Hi|s l i Hi|s l i p s' p' Hi Hs|s l i p s' p' Hi Hs|s l i l' Hi Hn
    |s l i res l' Hi Hn|s l i Hi|s l i Hi|s l i Hi|s l i Hi|s l i v Hi|s l i p Hi Hp].
  - thread_step Hinv Hi (SendLock v).
  - thread_step Hinv Hi RecvLock.
  - thread_step Hinv Hi CloseSet.
  - by eapply send_step_inv.
  - by eapply recv_step_inv.
  - by eapply send_notify_inv.
  - by eapply recv_notify_inv.
  - thread_step Hinv Hi CloseNotifyRead.
  - apply wake_all_read_inv in Hinv.
    assert ((wake_read <$> l) !! i = Some CloseNotifyRead) as Hi' by (by rewrite list_lookup_fmap, Hi).
    thread_step Hinv Hi' CloseNotifyWrite.
  - apply wake_all_write_inv in Hinv.
    assert ((wake_write <$> l) !! i = Some CloseNotifyWrite) as Hi' by (by rewrite list_lookup_fmap, Hi).
    thread_step Hinv Hi' Idle.
  - by apply wake_read_inv.
  - by apply wake_write_inv.
  - destruct Hp as [->|[res ->]]; thread_step Hinv Hi Idle.
Qed.

Lemma buffered_inv_reachable c : reachable init step c → inv c.
Proof.
  apply invariant_reachable; [|apply buffered_inv_step]. intros ? (n&->).
  split; cbn [fst snd make queue_ is_closed_ edit_queue_ sent received length];
    rewrite ?count_replicate by done; try done; try lia.
  intros i p Hp. apply lookup_replicate in Hp as [-> _]. done.
Qed.

End Channel.
End BufferedChannel.

Module UnbufferedChannel.
Section Channel.
Context {T : Type}.

(** Each call of [Send] makes a flag and a condition variable; [token] stands for
    both.  [tokens] counts them; [entered] and [delivered] are auxiliary: the values
    in the order of the calls and in the order in which they were received. *)
Record Element : Type := mkElement { token : nat; value : T }.

Record shared : Type := mkShared {
  queue_ : list Element;
  is_closed_ : bool;
  is_received : list nat;
  tokens : nat;
  entered : list Element;
  delivered : list Element
}.

(** About to take the mutex, or asleep on a condition variable.  [Close] takes the
    mutex here, and what happens under the mutex is one step. *)
Inductive pc : Type :=
| Idle
| SendEnter (v : T)
| SendAsleep (tok : nat)
| SendWoken (tok : nat)
| Sent (tok : nat)
| Threw (tok : nat)
| RecvEnter
| RecvAsleep
| Got (res : option T)
| CloseEnter.

(** The condition of [Send], and what follows the wait. *)
Definition Send_check (s : shared) (tok : nat) : pc :=
  if bool_decide (tok ∈ is_received s) || is_closed_ s
  then if negb (bool_decide (tok ∈ is_received s)) then Threw tok else Sent tok
  else SendAsleep tok.

Definition Send_enter (v : T) (s : shared) : shared :=
  let e := mkElement (tokens s) v in
  mkShared (queue_ s ++ [e]) (is_closed_ s) (is_received s) (S (tokens s)) (entered s ++ [e]) (delivered s).

(** [Recv] with the mutex; also tells which sender is notified. *)
Definition Recv_enter (s : shared) : shared * pc * option nat :=
  if negb (length (queue_ s) =? 0) || is_closed_ s then
    if is_closed_ s then (s, Got None, None)
    else match queue_ s with
         | elem :: rest =>
             (mkShared rest (is_closed_ s) (token elem :: is_received s) (tokens s) (entered s)
                (delivered s ++ [elem]), Got (Some (value elem)), Some (token elem))
         | [] => (s, RecvAsleep, None)
         end
  else (s, RecvAsleep, None).

Definition Close_enter (s : shared) : shared :=
  mkShared [] true (is_received s) (tokens s) (entered s) (delivered s).

(** Notifying the condition variables of these calls of [Send], and all who sleep on
    [may_read_]. *)
Definition wake_senders (toks : list nat) (p : pc) : pc :=
  match p with
  | SendAsleep tok => if bool_decide (tok ∈ toks) then SendWoken tok else p
  | _ => p
  end.
Definition wake_reader (p : pc) : pc := match p with RecvAsleep => RecvEnter | _ => p end.

Definition recv_asleep (p : pc) : bool := match p with RecvAsleep => true | _ => false end.
Definition recv_active (p : pc) : bool := match p with RecvEnter => true | _ => false end.

Inductive notify_one (l : list pc) : list pc → Prop :=
| notify_some j : l !! j = Some RecvAsleep → notify_one l (<[j := RecvEnter]> l)
| notify_none : count recv_asleep l = 0 → notify_one l l.

Inductive step : shared * list pc → shared * list pc → Prop :=
| call_Send s l i v : l !! i = Some Idle → step (s, l) (s, <[i := SendEnter v]> l)
| call_Recv s l i : l !! i = Some Idle → step (s, l) (s, <[i := RecvEnter]> l)
| call_Close s l i : l !! i = Some Idle → step (s, l) (s, <[i := CloseEnter]> l)
| do_Send s l i v l' :
    l !! i = Some (SendEnter v) → notify_one l l' →
    step (s, l) (Send_enter v s, <[i := Send_check (Send_enter v s) (tokens s)]> l')
| send_again s l i tok :
    l !! i = Some (SendWoken tok) → step (s, l) (s, <[i := Send_check s tok]> l)
| do_Recv s l i s' p' woken :
    l !! i = Some RecvEnter → Recv_enter s = (s', p', woken) →
    step (s, l) (s', <[i := p']> (wake_senders (option_list woken) <$> l))
| do_Close s l i :
    l !! i = Some CloseEnter →
    step (s, l) (Close_enter s, <[i := Idle]> (wake_reader <$> (wake_senders (token <$> queue_ s) <$> l)))
| spurious_read s l i : l !! i = Some RecvAsleep → step (s, l) (s, <[i := RecvEnter]> l)
| spurious_send s l i tok : l !! i = Some (SendAsleep tok) → step (s, l) (s, <[i := SendWoken tok]> l)
| returned s l i p :
    l !! i = Some p → (∃ tok, p = Sent tok ∨ p = Threw tok) ∨ (∃ res, p = Got res) →
    step (s, l) (s, <[i := Idle]> l).

Definition make : shared := mkShared [] false [] 0 [] [].
Definition init (c : shared * list pc) : Prop := ∃ n, c = (make, replicate n Idle).

(** ** The invariant *)

Definition pc_ok (s : shared) (p : pc) : Prop :=
  match p with
  | SendAsleep tok => is_closed_ s = false ∧ tok ∈ (token <$> queue_ s)
  | SendWoken tok => tok < tokens s
  | Sent tok => tok ∈ is_received s
  | Threw tok => tok < tokens s ∧ is_closed_ s = true ∧ (tok ∉ is_received s)
  | _ => True
  end.

Record inv_shared (s : shared) : Prop := {
  i_entered : (token <$> entered s) = seq 0 (tokens s);
  i_open : is_closed_ s = false → entered s = delivered s ++ queue_ s;
  i_prefix : delivered s `prefix_of` entered s;
  i_received : ∀ tok, tok ∈ is_received s ↔ tok ∈ (token <$> delivered s)
}.

Record inv (c : shared * list pc) : Prop := {
  i_shared : inv_shared c.1;
  i_pcs : ∀ i p, c.2 !! i = Some p → pc_ok c.1 p;
  i_readers : 0 < count recv_asleep c.2 →
    is_closed_ c.1 = false ∧ length (queue_ c.1) ≤ count recv_active c.2
}.

Lemma received_old s tok : inv_shared s → tok ∈ is_received s → tok < tokens s.
Proof.
  intros [He _ [k Hk] Hr] Ht%Hr. assert (tok ∈ seq 0 (tokens s)) as Hin.
  { rewrite <- He, Hk, fmap_app. apply elem_of_app. by left. }
  apply elem_of_seq in Hin. lia.
Qed.

Lemma queued_old s tok :
  inv_shared s → is_closed_ s = false → tok ∈ (token <$> queue_ s) → tok < tokens s.
Proof.
  intros [He Ho _ _] Hc Ht. assert (tok ∈ seq 0 (tokens s)) as Hin.
  { rewrite <- He, (Ho Hc), fmap_app. apply elem_of_app. by right. }
  apply elem_of_seq in Hin. lia.
Qed.

(** Of the calls of [Send] on an open channel some have been served, the others are
    in the queue. *)
Lemma waiting s tok : inv_shared s → is_closed_ s = false → tok < tokens s →
  tok ∈ is_received s ∨ tok ∈ (token <$> queue_ s).
Proof.
  intros [He Ho _ Hr] Hc Ht. assert (tok ∈ (token <$> entered s)) as Hin.
  { rewrite He. apply elem_of_seq. lia. }
  rewrite (Ho Hc), fmap_app in Hin. apply elem_of_app in Hin as [?|?]; [left; by apply Hr|by right].
Qed.

Lemma Send_check_ok s tok : inv_shared s → tok < tokens s → pc_ok s (Send_check s tok).
Proof.
  intros Hs Ht. unfold Send_check. destruct (bool_decide_reflect (tok ∈ is_received s)) as [Hr|Hr]; cbn; [done|].
  destruct (is_closed_ s) eqn:E; cbn; [done|]. split; [done|].
  by destruct (waiting s tok Hs E Ht).
Qed.

Lemma Send_enter_ok v s : inv_shared s → inv_shared (Send_enter v s).
Proof.
  intros [He Ho Hp Hr]. split; cbn [Send_enter entered tokens is_closed_ delivered is_received queue_].
  - rewrite fmap_app, He. cbn [Send_enter tokens]. rewrite <- (Nat.add_1_r (tokens s)), seq_app. done.
  - intros Hc. by rewrite (Ho Hc), app_assoc.
  - by apply prefix_app_r.
  - done.
Qed.

Lemma enter_pcs v s p : pc_ok s p → pc_ok (Send_enter v s) p.
Proof.
  destruct p; cbn; try done.
  - intros [? ?]. split; [done|]. rewrite fmap_app. apply elem_of_app. by left.
  - lia.
  - intros (?&?&?). split_and!; [lia|done|done].
Qed.

(** One thread moves to a place where it does not sleep on [may_read_]. *)
Lemma move_inv s l i p p' :
  inv (s, l) → l !! i = Some p → pc_ok s p' → recv_asleep p' = false → recv_active p = false →
  inv (s, <[i:=p']> l).
Proof.
  intros [Hs Hp Hr] Hi Hp' Ha Hb. cbn [fst snd] in *. split; cbn [fst snd]; [done| |].
  - intros j q [[-> ->]|[_ Hj]]%insert_inv; eauto.
  - count_step Hi recv_asleep p'. count_step Hi recv_active p'. rewrite Ha, Hb in *. cbn [Nat.b2n] in *.
    intros Hc. destruct Hr; [lia|]. split; [done|lia].
Qed.

Lemma send_inv s l i v l' :
  inv (s, l) → l !! i = Some (SendEnter v) → notify_one l l' →
  inv (Send_enter v s, <[i := Send_check (Send_enter v s) (tokens s)]> l').
Proof.
  intros [Hs Hp Hr] Hi Hn. cbn [fst snd] in *. pose proof (Send_enter_ok v s Hs) as Hs'.
  assert (pc_ok (Send_enter v s) (Send_check (Send_enter v s) (tokens s))) as Hok.
  { apply Send_check_ok; [done|]. cbn. lia. }
  assert (l' !! i = Some (SendEnter v) ∧ ∀ j q, l' !! j = Some q → pc_ok s q) as [Hi' Hp'].
  { destruct Hn as [j Hj|]; [|done]. split; [rewrite list_lookup_insert_ne; [done|congruence]|].
    intros k q [[-> ->]|[_ Hk]]%insert_inv; [done|eauto]. }
  split; cbn [fst snd]; [done| |].
  - intros j q [[-> ->]|[_ Hj]]%insert_inv; [done|]. apply enter_pcs. eauto.
  - count_step Hi' recv_asleep (Send_check (Send_enter v s) (tokens s)).
    count_step Hi' recv_active (Send_check (Send_enter v s) (tokens s)).
    assert (∀ p, p = Send_check (Send_enter v s) (tokens s) → recv_asleep p = false ∧ recv_active p = false)
      as Hnot.
    { intros p ->. unfold Send_check. by repeat case_bool_decide; destruct (is_closed_ _). }
    destruct (Hnot _ eq_refl) as [E1 E2]. rewrite E1, E2 in *. cbn [recv_asleep recv_active Nat.b2n] in *.
    cbn [Send_enter is_closed_ queue_]. rewrite length_app. cbn [length]. intros Hc.
    destruct Hn as [j Hj|Hz]; [|lia].
    count_step Hj recv_asleep RecvEnter. count_step Hj recv_active RecvEnter.
    cbn [recv_asleep recv_active Nat.b2n] in *. destruct Hr; [lia|]. split; [done|lia].
Qed.

(** A receiver takes the first element and wakes its sender. *)
Lemma pop_ok s elem rest :
  inv_shared s → is_closed_ s = false → queue_ s = elem :: rest →
  let s' := mkShared rest (is_closed_ s) (token elem :: is_received s) (tokens s) (entered s)
              (delivered s ++ [elem]) in
  inv_shared s' ∧ ∀ p, pc_ok s p → pc_ok s' (wake_senders [token elem] p).
Proof.
  intros Hs Hc Hq s'. pose proof Hs as [He Ho Hp Hr]. specialize (Ho Hc). rewrite Hq in Ho. split.
  - split; cbn.
    + done.
    + intros _. by rewrite Ho, <- app_assoc.
    + exists rest. by rewrite Ho, <- app_assoc.
    + intros tok. rewrite fmap_app, elem_of_cons, elem_of_app, Hr. cbn. rewrite list_elem_of_singleton. tauto.
  - intros [| |tok|tok|tok|tok| | | |]; cbn [wake_senders pc_ok]; try done.
    + intros [_ Ht]. rewrite Hq in Ht. cbn in Ht. case_bool_decide as Hin; cbn.
      * apply (queued_old s); [done|done|]. by rewrite Hq.
      * split; [done|]. rewrite list_elem_of_singleton in Hin. by apply elem_of_cons in Ht as [?|?].
    + cbn. intros ?. by constructor.
    + intros (_&?&_). congruence.
Qed.

Lemma fmap_pcs s s' (l : list pc) (f : pc → pc) :
  (∀ p, pc_ok s p → pc_ok s' (f p)) → (∀ i p, l !! i = Some p → pc_ok s p) →
  ∀ i p, (f <$> l) !! i = Some p → pc_ok s' p.
Proof.
  intros Hf Hl i p. rewrite list_lookup_fmap. destruct (l !! i) as [q|] eqn:E; [|done].
  intros [= <-]. eauto.
Qed.

Lemma wake_senders_counts toks (l : list pc) :
  count recv_asleep (wake_senders toks <$> l) = count recv_asleep l ∧
  count recv_active (wake_senders toks <$> l) = count recv_active l.
Proof.
  split; rewrite count_fmap; apply count_ext; intros [| |tok| | | | | | |]; cbn; try done; by case_bool_decide.
Qed.

Lemma recv_inv s l i s' p' woken :
  inv (s, l) → l !! i = Some RecvEnter → Recv_enter s = (s', p', woken) →
  inv (s', <[i := p']> (wake_senders (option_list woken) <$> l)).
Proof.
  intros [Hs Hp Hr] Hi Hrecv. cbn [fst snd] in *.
  destruct (wake_senders_counts (option_list woken) l) as [H1 H2].
  assert ((wake_senders (option_list woken) <$> l) !! i = Some RecvEnter) as Hi'
    by (by rewrite list_lookup_fmap, Hi).
  pose proof (count_insert recv_asleep _ _ _ p' Hi') as C1. pose proof (count_insert recv_active _ _ _ p' Hi') as C2.
  cbn [recv_asleep recv_active Nat.b2n] in C1, C2.
  assert (inv_shared s' ∧ pc_ok s' p' ∧ (∀ p, pc_ok s p → pc_ok s' (wake_senders (option_list woken) p)) ∧
    recv_active p' = false ∧
    (recv_asleep p' = true → is_closed_ s' = false ∧ queue_ s' = []) ∧
    (is_closed_ s = false → is_closed_ s' = false ∧ length (queue_ s') ≤ length (queue_ s) - 1)) as (A&B&C&D&E&F).
  { unfold Recv_enter in Hrecv. destruct (is_closed_ s) eqn:Ec.
    - rewrite orb_true_r in Hrecv. injection Hrecv as <- <- <-. split_and!; try done.
      intros [| |tok| | | | | | |]; cbn; done.
    - destruct (queue_ s) as [|elem rest] eqn:Eq; cbn in Hrecv; injection Hrecv as <- <- <-.
      + split_and!; try done.
        * intros [| |tok| | | | | | |]; cbn; done.
        * intros _. rewrite Eq. cbn. done.
      + destruct (pop_ok s elem rest Hs Ec Eq) as [Hs' Hp']. rewrite Ec in *. split_and!; try done.
        intros _. cbn. lia. }
  split; cbn [fst snd]; [done| |].
  - intros j q [[-> ->]|[_ Hj]]%insert_inv; [done|]. by eapply fmap_pcs.
  - rewrite H1 in C1. rewrite H2 in C2. rewrite D in C2. cbn in C2. intros Hc. destruct (recv_asleep p') eqn:Ea.
    + destruct (E eq_refl) as [Ea' Eb]. rewrite Eb. cbn. split; [done|lia].
    + cbn in C1. destruct Hr as [Hr1 Hr2]; [lia|]. destruct (F Hr1). split; [done|lia].
Qed.

Lemma close_inv s l i :
  inv (s, l) → l !! i = Some CloseEnter →
  inv (Close_enter s, <[i := Idle]> (wake_reader <$> (wake_senders (token <$> queue_ s) <$> l))).
Proof.
  intros [Hs Hp Hr] Hi. cbn [fst snd] in *.
  assert ((wake_reader <$> (wake_senders (token <$> queue_ s) <$> l)) !! i = Some CloseEnter) as Hi'
    by (by rewrite !list_lookup_fmap, Hi).
  split; cbn [fst snd].
  - destruct Hs as [He Ho Hpre Hrec]. split; cbn; try done.
  - intros j q [[-> ->]|[_ Hj]]%insert_inv; [done|]. revert j q Hj. rewrite <- list_fmap_compose.
    apply (fmap_pcs s); [|done].
    intros [| |tok|tok|tok|tok| | | |]; cbn; try done.
    + intros [Hc Ht]. rewrite bool_decide_eq_true_2 by done. cbn.
      by apply queued_old.
    + intros (?&?&?). done.
  - count_step Hi' recv_asleep Idle. cbn [recv_asleep Nat.b2n] in *.
    assert (count recv_asleep (wake_reader <$> (wake_senders (token <$> queue_ s) <$> l)) = 0) as H0.
    { rewrite count_fmap. apply count_none. by intros []. }
    lia.
Qed.

Lemma unbuffered_inv_step c c' : inv c → step c c' → inv c'.
Proof.
  intros Hinv Hstep.
  destruct Hstep as [s l i v Hi|s l i Hi|s l i Hi|s l i v l' Hi Hn|s l i tok Hi|s l i s' p' woken Hi Hr
    |s l i Hi|s l i Hi|s l i tok Hi|s l i p Hi Hp].
  - by eapply move_inv.
  - by eapply move_inv.
  - by eapply move_inv.
  - by eapply send_inv.
  - eapply move_inv; try done.
    + apply Send_check_ok; [apply Hinv|]. apply (i_pcs _ Hinv i _ Hi).
    + unfold Send_check. by repeat case_bool_decide; destruct (is_closed_ _).
  - by eapply recv_inv.
  - by apply close_inv.
  - by eapply move_inv.
  - eapply move_inv; try done. pose proof (i_pcs _ Hinv i _ Hi) as [Hc Ht]. cbn in *.
    apply queued_old; [apply (i_shared _ Hinv)|done|done].
  - destruct Hp as [[tok [->| ->]]|[res ->]]; by eapply move_inv.
Qed.

Lemma unbuffered_inv_reachable c : reachable init step c → inv c.
Proof.
  apply invariant_reachable; [|apply unbuffered_inv_step]. intros ? (n&->). split; cbn [fst snd].
  - by split.
  - intros i p Hp. apply lookup_replicate in Hp as [-> _]. done.
  - rewrite count_replicate by done. lia.
Qed.

End Channel.
End UnbufferedChannel.

Section Properties.
Context {T : Type}.

(** C19 The buffered channel, for any number of senders, receivers and calls of [Close]
    in any interleaving: values come out in the order in which they went in, none
    lost or doubled, the queue never exceeds its size, one thread at a time has the
    mutex; and nobody is forgotten while there is something to do: if a receiver
    sleeps, each value in the queue has a receiver awake (or a notification on its
    way), and if a sender sleeps on an open channel each free place has a sender
    awake (or a notification on its way). *)
Theorem buffered_channel_correct (max_size_ : nat)
    (c : BufferedChannel.shared (T := T) * list BufferedChannel.pc) :
  reachable BufferedChannel.init (BufferedChannel.step max_size_) c →
  BufferedChannel.sent c.1 = BufferedChannel.received c.1 ++ BufferedChannel.queue_ c.1 ∧
  length (BufferedChannel.queue_ c.1) ≤ max_size_ ∧
  count BufferedChannel.locks c.2 ≤ 1 ∧
  (0 < count BufferedChannel.recv_asleep c.2 →
   length (BufferedChannel.queue_ c.1)
   ≤ count BufferedChannel.recv_active c.2 + count BufferedChannel.pushes c.2) ∧
  (0 < count BufferedChannel.send_asleep c.2 → BufferedChannel.is_closed_ c.1 = false →
   max_size_ - length (BufferedChannel.queue_ c.1)
   ≤ count BufferedChannel.send_active c.2 + count BufferedChannel.pops c.2).
Proof.
  intros [Ho Hs Hm _ Hr Hw]%BufferedChannel.buffered_inv_reachable. split_and!; try done.
  rewrite Hm. destruct (BufferedChannel.edit_queue_ c.1); cbn; lia.
Qed.

(** [Close] of the buffered channel does not take the mutex, and can slip in between
    a receiver's test of the condition and its wait: the channel is closed, [Close]
    has returned, and the receiver sleeps with nobody to wake it. *)
Theorem buffered_close_lost_wakeup (max_size_ : nat) :
  reachable BufferedChannel.init (BufferedChannel.step max_size_)
    (BufferedChannel.Close_set (BufferedChannel.make (T := T)),
     [BufferedChannel.RecvAsleep; BufferedChannel.Idle]).
Proof.
  exists (BufferedChannel.make, [BufferedChannel.Idle; BufferedChannel.Idle]). split; [by exists 2|].
  eapply rtc_l; [by eapply (BufferedChannel.call_Recv _ _ _ 0)|].
  do 2 (eapply rtc_l; [by eapply (BufferedChannel.do_Recv _ _ _ 0)|]). cbn.
  eapply rtc_l; [by eapply (BufferedChannel.call_Close _ _ _ 1)|].
  eapply rtc_l; [by eapply (BufferedChannel.close_set _ _ _ 1)|].
  eapply rtc_l; [by eapply (BufferedChannel.close_notify_read _ _ _ 1)|].
  eapply rtc_l; [by eapply (BufferedChannel.close_notify_write _ _ _ 1)|]. cbn.
  eapply rtc_l; [by eapply (BufferedChannel.do_Recv _ _ _ 0)|].
  apply rtc_refl.
Qed.

(** C20 The unbuffered channel is a rendezvous: values are received in the order of the
    calls of [Send]; a [Send] returns only if its value has been received, and throws
    only if the channel is closed and its value has not been received; a sleeping
    sender is in the queue of an open channel, so that a receiver or [Close] will
    wake it; and if a receiver sleeps, the channel is open and each waiting value has
    a receiver awake. *)
Theorem unbuffered_channel_correct (c : UnbufferedChannel.shared (T := T) * list UnbufferedChannel.pc) :
  reachable UnbufferedChannel.init UnbufferedChannel.step c →
  UnbufferedChannel.delivered c.1 `prefix_of` UnbufferedChannel.entered c.1 ∧
  NoDup (UnbufferedChannel.token <$> UnbufferedChannel.entered c.1) ∧
  (∀ i tok, c.2 !! i = Some (UnbufferedChannel.Sent tok) →
     tok ∈ (UnbufferedChannel.token <$> UnbufferedChannel.delivered c.1)) ∧
  (∀ i tok, c.2 !! i = Some (UnbufferedChannel.Threw tok) →
     UnbufferedChannel.is_closed_ c.1 = true ∧
     tok ∉ (UnbufferedChannel.token <$> UnbufferedChannel.delivered c.1)) ∧
  (∀ i tok, c.2 !! i = Some (UnbufferedChannel.SendAsleep tok) →
     UnbufferedChannel.is_closed_ c.1 = false ∧
     tok ∈ (UnbufferedChannel.token <$> UnbufferedChannel.queue_ c.1)) ∧
  (0 < count UnbufferedChannel.recv_asleep c.2 →
     UnbufferedChannel.is_closed_ c.1 = false ∧
     length (UnbufferedChannel.queue_ c.1) ≤ count UnbufferedChannel.recv_active c.2).
Proof.
  intros [[He _ Hp Hrec] Hpcs Hr]%UnbufferedChannel.unbuffered_inv_reachable. split_and!; try done.
  - rewrite He. apply NoDup_seq.
  - intros i tok Hi. by apply Hrec, (Hpcs i _ Hi).
  - intros i tok Hi. destruct (Hpcs i _ Hi) as (_&?&?). by rewrite <- Hrec.
  - intros i tok Hi. apply (Hpcs i _ Hi).
Qed.
End Properties.

Section Witnesses.

(** One value sent and received. *)
Lemma buffered_channel_correct_witness :
  BufferedChannel.sent (BufferedChannel.mkShared (@nil Z) false true [5%Z] [5%Z])
  = BufferedChannel.received (BufferedChannel.mkShared (@nil Z) false true [5%Z] [5%Z]) ++ [].
Proof.
  apply (buffered_channel_correct 1
    (BufferedChannel.mkShared [] false true [5%Z] [5%Z], [BufferedChannel.Idle; BufferedChannel.RecvNotify 5%Z])).
  exists (BufferedChannel.make, [BufferedChannel.Idle; BufferedChannel.Idle]). split; [by exists 2|].
  eapply rtc_l; [by eapply (BufferedChannel.call_Send _ _ _ 0 5%Z)|].
  do 3 (eapply rtc_l; [by eapply (BufferedChannel.do_Send _ _ _ 0)|]). cbn.
  eapply rtc_l; [by eapply (BufferedChannel.send_notify _ _ _ 0), BufferedChannel.notify_none|].
  eapply rtc_l; [by eapply (BufferedChannel.call_Recv _ _ _ 1)|].
  do 3 (eapply rtc_l; [by eapply (BufferedChannel.do_Recv _ _ _ 1)|]). cbn.
  apply rtc_refl.
Defined.

Lemma unbuffered_channel_correct_witness :
  0 ∈ (UnbufferedChannel.token <$> [UnbufferedChannel.mkElement 0 5%Z]).
Proof.
  apply (unbuffered_channel_correct
    (UnbufferedChannel.mkShared [] false [0] 1 [UnbufferedChannel.mkElement 0 5%Z]
       [UnbufferedChannel.mkElement 0 5%Z],
     [UnbufferedChannel.Sent 0; UnbufferedChannel.Got (Some 5%Z)])) with (i := 0); [|reflexivity].
  exists (UnbufferedChannel.make, [UnbufferedChannel.Idle; UnbufferedChannel.Idle]). split; [by exists 2|].
  eapply rtc_l; [by eapply (UnbufferedChannel.call_Send _ _ 0 5%Z)|].
  eapply rtc_l; [by eapply (UnbufferedChannel.do_Send _ _ 0), UnbufferedChannel.notify_none|]. cbn.
  eapply rtc_l; [by eapply (UnbufferedChannel.call_Recv _ _ 1)|].
  eapply rtc_l; [by eapply (UnbufferedChannel.do_Recv _ _ 1)|]. cbn.
  eapply rtc_l; [by eapply (UnbufferedChannel.send_again _ _ 0)|]. cbn.
  apply rtc_refl.
Defined.
End Witnesses.
