(* ===== verification/Numeric.v ===== *)
(** * Small numeric programs (range-sum, compile-eval, is-prime, reduce)

    The functions that are evaluated at compile time are templates or [constexpr]
    functions: signed overflow and division by zero in them do not compile, and are
    [Fail UB] here. *)

From S2P Require Import Prelude.
From Stdlib Require Znumtheory.

#[local] Set Warnings "-deprecated-reference".

Abbreviation prime := Znumtheory.prime.

(** ** range-sum *)

Definition RangeSum (from to step : Z) : outcome Z :=
  if (from <? to)%Z then
    if (step =? 0)%Z then Fail UB
    else
      let n := u64 (u64 (u64 (to - 1) - from) / step + 1) in
      Ok (u64 (u64 (u64 (2 * from) + u64 (u64 (n - 1) * step)) * n) / 2)%Z
  else Ok 0%Z.

(** The numbers [from], [from + step], ... below [to]. *)
Definition terms (from to step : Z) : nat := Z.to_nat ((to - 1 - from) / step + 1).
Definition progression (from step : Z) (n : nat) : Z := big_sum n (λ k, from + Z.of_nat k * step)%Z.

Lemma progression_closed from step n :
  (2 * progression from step n = (2 * from + (Z.of_nat n - 1) * step) * Z.of_nat n)%Z.
Proof.
  unfold progression. induction n as [|n IH]; [cbn; lia|]. cbn [big_sum]. rewrite Z.mul_add_distr_l, IH. nia.
Qed.

Lemma terms_spec from to step k :
  (from < to)%Z → (0 < step)%Z → k < terms from to step ↔ (from + Z.of_nat k * step < to)%Z.
Proof.
  intros Hft Hs. unfold terms. assert (0 <= (to - 1 - from) / step)%Z by (apply Z.div_pos; lia).
  pose proof (Z.div_mod (to - 1 - from) step ltac:(lia)). pose proof (Z.mod_pos_bound (to - 1 - from) step Hs).
  split; intros Hk.
  - assert (Z.of_nat k <= (to - 1 - from) / step)%Z by lia. nia.
  - assert (Z.of_nat k <= (to - 1 - from) / step)%Z by nia. lia.
Qed.

Lemma RangeSum_closed from to step :
  (0 <= from)%Z → (from < to < 2 ^ 64)%Z → (0 < step)%Z →
  (2 * progression from step (terms from to step) < 2 ^ 64)%Z →
  RangeSum from to step = Ok (progression from step (terms from to step)).
Proof.
  intros Hf Ht Hs Hb. unfold RangeSum.
  rewrite (proj2 (Z.ltb_lt from to)), (proj2 (Z.eqb_neq step 0)) by lia.
  assert (0 <= (to - 1 - from) / step <= to - 1 - from)%Z as Hd.
  { split; [apply Z.div_pos; lia|]. apply Z.div_le_upper_bound; nia. }
  rewrite (uwrap_small 64 (to - 1)), (uwrap_small 64 (to - 1 - from)) by lia.
  rewrite (uwrap_small 64 ((to - 1 - from) / step + 1)) by lia.
  set (m := ((to - 1 - from) / step + 1)%Z) in *.
  assert (Z.of_nat (terms from to step) = m) as Hm by (unfold terms; lia).
  pose proof (progression_closed from step (terms from to step)) as Hp. rewrite Hm in Hp.
  f_equal. rewrite <- (Z.div_mul (progression from step (terms from to step)) 2) by lia. f_equal.
  transitivity (u64 ((2 * from + (m - 1) * step) * m)); [by rewrite (uwrap_mul_l 64 (m - 1)), uwrap_add_l, uwrap_add_r, uwrap_mul_l|].
  rewrite <- Hp, Z.mul_comm. apply uwrap_small. split; [|lia].
  rewrite Z.mul_comm, Hp. apply Z.mul_nonneg_nonneg; nia.
Qed.

(** ** compile-eval: powers *)

(** [Pow<a, b>::kValue]; [unsigned] wraps around. *)
Fixpoint Pow_kValue (a : Z) (b : nat) : Z :=
  match b with O => 1 | S b' => u32 (Pow_kValue a b' * a) end.

(** [constexpr int Pow(int a, int b)]. *)
Fixpoint Pow (fuel : nat) (a b : Z) : outcome Z :=
  match fuel with
  | O => Fail Fuel
  | S fuel => if (b =? 0)%Z then Ok 1%Z else (x <-? Pow fuel a (b - 1) ;; checked32 (x * a))
  end.

Lemma Pow_kValue_eq a b : Pow_kValue a b = u32 (a ^ Z.of_nat b).
Proof.
  induction b as [|b IH]; [done|]. cbn [Pow_kValue]. rewrite IH, uwrap_mul_l. f_equal.
  rewrite Nat2Z.inj_succ, Z.pow_succ_r by lia. lia.
Qed.

Lemma power_grows a b : (a ≠ 0 → 0 <= b → 1 <= Z.abs (a ^ b))%Z.
Proof. intros Ha Hb. rewrite Z.abs_pow. pose proof (Z.pow_pos_nonneg (Z.abs a) b). lia. Qed.

Lemma Pow_ok a n fuel :
  n < fuel → in_s32 (a ^ Z.of_nat n) = true → Pow fuel a (Z.of_nat n) = Ok (a ^ Z.of_nat n)%Z.
Proof.
  revert fuel. induction n as [|n IH]; intros [|fuel] Hf Hr; try lia; [done|]. cbn [Pow].
  rewrite (proj2 (Z.eqb_neq _ 0)) by lia. replace (Z.of_nat (S n) - 1)%Z with (Z.of_nat n) by lia.
  assert (a ^ Z.of_nat (S n) = a ^ Z.of_nat n * a)%Z as Hp
    by (rewrite Nat2Z.inj_succ, Z.pow_succ_r by lia; lia).
  rewrite Hp in Hr |- *. unfold in_s32 in *. apply andb_true_iff in Hr as [H1%Z.leb_le H2%Z.ltb_lt].
  rewrite IH; [cbn; by apply checked32_ok|lia|].
  apply andb_true_iff. rewrite Z.leb_le, Z.ltb_lt.
  destruct (decide (a = 0%Z)) as [->|Ha].
  - destruct n; [cbn; lia|]. rewrite Z.pow_0_l by lia. lia.
  - destruct (decide (Z.abs a = 1)%Z) as [H1'|].
    + assert (Z.abs (a ^ Z.of_nat n) = 1)%Z by (rewrite Z.abs_pow, H1'; apply Z.pow_1_l; lia). lia.
    + pose proof (power_grows a (Z.of_nat n) Ha ltac:(lia)). nia.
Qed.

(** ** compile-eval: the polynomial hash *)

(** A string without its terminating zero; characters as [char] gives them to the
    arithmetic. *)
Definition char_value (c : ascii) : Z := swrap 8 (Z.of_N (N_of_ascii c)).

Fixpoint HashImpl (s : bytes) (p mod_ : Z) : Z :=
  match s with
  | [] => 0
  | c :: s' => s32 (u64 (u64 (u64 (HashImpl s' p mod_) * p) mod mod_ + u64 (char_value c)) mod mod_)
  end%Z.

(** [p] and [mod] are converted to [uint64_t]. *)
Definition Hash (s : bytes) (p mod_ : Z) : Z := HashImpl s (u64 p) (u64 mod_).

Fixpoint polynomial (s : bytes) (p : Z) : Z :=
  match s with [] => 0 | c :: s' => Z.of_N (N_of_ascii c) + p * polynomial s' p end%Z.

Lemma HashImpl_eq s p mod_ :
  Forall (λ c, (Z.of_N (N_of_ascii c) < 128)%Z) s → (0 <= p < 2 ^ 31)%Z → (0 < mod_ < 2 ^ 31)%Z →
  HashImpl s p mod_ = (polynomial s p mod mod_)%Z.
Proof.
  intros Hs Hp Hm. induction Hs as [|c s Hc _ IH]; cbn [HashImpl polynomial]; [by rewrite Z.mod_0_l by lia|].
  rewrite IH. pose proof (Z.mod_pos_bound (polynomial s p) mod_ ltac:(lia)) as Hb.
  assert (char_value c = Z.of_N (N_of_ascii c)) as Hv by (unfold char_value; apply swrap_small; lia).
  rewrite Hv. rewrite (uwrap_small 64 (polynomial s p mod mod_)) by lia.
  rewrite (uwrap_small 64 (polynomial s p mod mod_ * p)) by nia.
  pose proof (Z.mod_pos_bound (polynomial s p mod mod_ * p) mod_ ltac:(lia)).
  rewrite (uwrap_small 64 (Z.of_N _)), uwrap_small by lia.
  pose proof (Z.mod_pos_bound ((polynomial s p mod mod_ * p) mod mod_ + Z.of_N (N_of_ascii c)) mod_ ltac:(lia)).
  rewrite swrap_small by lia. rewrite Zplus_mod_idemp_l.
  rewrite Zplus_mod, Zmult_mod_idemp_l, <- Zplus_mod. f_equal. lia.
Qed.

(** ** compile-eval: the square root *)

(** [BinSearchSqrt<L, R, N>::kValue]; only the chosen branch is instantiated.  The
    specialisations come first. *)
Fixpoint BinSearchSqrt (fuel : nat) (L R N : Z) : outcome Z :=
  match fuel with
  | O => Fail Fuel
  | S fuel =>
      if (L =? R)%Z then Ok L
      else if (N =? 1)%Z then Ok 1%Z
      else
        sum <-? checked32 (L + R) ;;
        let mid := Z.quot sum 2 in
        if (mid =? 0)%Z then Fail UB
        else if (mid <? Z.quot (N - 1) mid + 1)%Z
        then BinSearchSqrt fuel (mid + 1) R N else BinSearchSqrt fuel L mid N
  end.

Definition Sqrt (fuel : nat) (N : Z) : outcome Z := BinSearchSqrt fuel 0 N N.

(** The test of the search: [mid * mid < N]. *)
Lemma sqrt_test mid N : (0 < mid)%Z → (1 <= N)%Z →
  (mid < Z.quot (N - 1) mid + 1)%Z ↔ (mid * mid < N)%Z.
Proof.
  intros Hm HN. rewrite Z.quot_div_nonneg by lia.
  pose proof (Z.div_mod (N - 1) mid ltac:(lia)). pose proof (Z.mod_pos_bound (N - 1) mid Hm). nia.
Qed.

Lemma BinSearchSqrt_ok fuel L R N :
  (2 <= N < 2 ^ 31)%Z → (0 <= L <= R)%Z → (R < 2 ^ Z.of_nat fuel + L)%Z →
  (R = N ∧ L = 0 ∨ 2 * R <= N ∨ N <= 6)%Z → (L = 0 → 2 <= R)%Z → (R <= N)%Z →
  (∀ x, 0 <= x < L → x * x < N)%Z → (N <= R * R)%Z →
  ∃ r, BinSearchSqrt (S fuel) L R N = Ok r ∧ (0 <= r)%Z ∧ (N <= r * r)%Z ∧
    (∀ x, 0 <= x < r → x * x < N)%Z.
Proof.
  revert L R. induction fuel as [|fuel IH]; intros L R HN HL Hd Hov H0 HR Hlow Hhigh.
  - assert (L = R) as -> by (cbn in Hd; lia). exists R. cbn [BinSearchSqrt]. rewrite Z.eqb_refl.
    split_and!; [done|lia|done|done].
  - remember (S fuel) as fuel' eqn:Ef. cbn [BinSearchSqrt]. destruct (Z.eqb_spec L R) as [->|Hne];
      [exists R; split_and!; [done|lia|done|done]|].
    rewrite (proj2 (Z.eqb_neq N 1)) by lia.
    assert (L <= 46341)%Z as HL'.
    { destruct (decide (L <= 46341)%Z) as [|Hgt]; [done|]. specialize (Hlow 46341%Z). lia. }
    rewrite checked32_ok by lia. cbn [bindO]. rewrite Z.quot_div_nonneg by lia.
    pose proof (Z.div_mod (L + R) 2 ltac:(lia)) as Hdm. pose proof (Z.mod_pos_bound (L + R) 2 ltac:(lia)) as Hmb.
    set (mid := ((L + R) / 2)%Z) in *. clearbody mid.
    rewrite (proj2 (Z.eqb_neq mid 0)) by lia. subst fuel'. rewrite Nat2Z.inj_succ, Z.pow_succ_r in Hd by lia.
    destruct (Z.ltb_spec mid (Z.quot (N - 1) mid + 1)) as [Hlt|Hge].
    + apply sqrt_test in Hlt; [|lia|lia]. apply IH; try done; try lia.
      * destruct Hov as [[-> ->]|Hov]; [|lia]. right. right.
        destruct (decide (N <= 6)%Z) as [|]; [done|]. nia.
      * intros x Hx. destruct (decide (x < L)%Z); [apply Hlow; lia|nia].
    + assert (N <= mid * mid)%Z as Hge'.
      { destruct (decide (N <= mid * mid)%Z); [done|]. pose proof (proj2 (sqrt_test mid N ltac:(lia) ltac:(lia)) ltac:(lia)). lia. }
      apply IH; try done; try lia.
      intros ->. destruct (decide (2 <= mid)%Z); [done|]. nia.
Qed.

Lemma Sqrt_ok N : (0 <= N < 2 ^ 31)%Z →
  ∃ r, Sqrt 33 N = Ok r ∧ (0 <= r)%Z ∧ (N <= r * r)%Z ∧ (∀ x, 0 <= x < r → x * x < N)%Z.
Proof.
  intros HN. destruct (decide (N = 0)%Z) as [->|H0]; [exists 0%Z; split_and!; [done|lia..]|].
  destruct (decide (N = 1)%Z) as [->|H1]; [exists 1%Z; split_and!; [done|lia|lia|]; intros; nia|].
  apply (BinSearchSqrt_ok 32 0 N N); try lia. nia.
Qed.

(** ** compile-eval: the next prime *)

Fixpoint IsPrime_loop (fuel : nat) (i x : Z) : outcome bool :=
  match fuel with
  | O => Fail Fuel
  | S fuel =>
      sq <-? checked32 (i * i) ;;
      if (sq <=? x)%Z then
        if (Z.rem x i =? 0)%Z then Ok false else (i <-? checked32 (i + 2) ;; IsPrime_loop fuel i x)
      else Ok true
  end.

(** [i] is odd and at most 46341 when the loop ends. *)
Definition IsPrime (x : Z) : outcome bool := IsPrime_loop (Z.to_nat 23171) 3 x.

Fixpoint NextPrime_loop (fuel : nat) (i : Z) : outcome Z :=
  match fuel with
  | O => Fail Fuel
  | S fuel =>
      b <-? IsPrime i ;;
      if b : bool then Ok i else (i <-? checked32 (i + 2) ;; NextPrime_loop fuel i)
  end.

Definition NextPrimeImpl (fuel : nat) (x : Z) : outcome Z :=
  if (x =? 0)%Z then Ok 2%Z
  else if (x =? 1)%Z then Ok 2%Z
  else if (x =? 2)%Z then Ok 3%Z
  else
    i <-? (if (Z.rem x 2 =? 0)%Z then checked32 (x + 1) else checked32 (x + 2)) ;;
    NextPrime_loop fuel i.

Definition NextPrime (fuel : nat) (x : Z) : outcome Z :=
  y <-? checked32 (x - 1) ;; NextPrimeImpl fuel y.

(** An odd number without small odd divisors is a prime. *)
Lemma trial_division x :
  (3 <= x)%Z → Z.Odd x → (∀ d, (3 <= d)%Z → Z.Odd d → (d * d <= x)%Z → ¬ (d | x)%Z) → prime x.
Proof.
  intros Hx Hodd Hd. destruct (Znumtheory.prime_dec x) as [|Hnp]; [done|]. exfalso.
  destruct (Znumtheory.not_prime_divide x) as (d&Hd1&e&He); [lia|done|].
  assert (1 < e < x)%Z as He1 by nia.
  assert (Z.Odd d ∧ Z.Odd e) as [Hod Hoe].
  { apply Z.odd_spec in Hodd. rewrite He, Z.odd_mul in Hodd. apply andb_true_iff in Hodd as [? ?].
    by split; apply Z.odd_spec. }
  assert (∀ z, Z.Odd z → (1 < z)%Z → (3 <= z)%Z) as H3 by (intros z [k ->]; lia).
  destruct (decide (d <= e)%Z).
  - apply (Hd d); [by apply H3; [|lia]|done|nia|by exists e].
  - apply (Hd e); [by apply H3; [|lia]|done|nia|exists d; lia].
Qed.

Lemma IsPrime_loop_ok fuel i x :
  (3 <= x < 46339 * 46339)%Z → Z.Odd x → (3 <= i)%Z → Z.Odd i → (i <= 46339)%Z →
  (46341 <= i + 2 * Z.of_nat fuel)%Z →
  (∀ d, (3 <= d < i)%Z → Z.Odd d → (d * d <= x)%Z → ¬ (d | x)%Z) →
  ∃ b, IsPrime_loop fuel i x = Ok b ∧ (b = true ↔ prime x).
Proof.
  revert i. induction fuel as [|fuel IH]; intros i Hx Hox Hi Hoi Hi' Hf Hd; [lia|]. cbn [IsPrime_loop].
  rewrite checked32_ok by nia. cbn [bindO]. destruct (Z.leb_spec (i * i) x) as [Hle|Hgt].
  - rewrite Z.rem_mod_nonneg by lia. destruct (Z.eqb_spec (x mod i) 0) as [Hz|Hnz].
    + exists false. split; [done|]. split; [done|]. intros Hp. exfalso.
      apply Z.mod_divide in Hz; [|lia]. destruct Hp as [_ Hp]. destruct Hz as [e He].
      assert (Znumtheory.rel_prime i x) as [_ _ Hg] by (apply Hp; nia).
      assert ((i | 1)%Z) as H1 by (apply Hg; [done|by exists e]). apply Z.divide_1_r in H1. lia.
    + assert (i ≠ 46339)%Z by nia. rewrite checked32_ok by lia. cbn [bindO].
      assert (Z.Odd (i + 2)) as Ho2 by (destruct Hoi as [k ->]; exists (k + 1)%Z; lia).
      apply IH; try done; try lia.
      * destruct Hoi as [k ->]. lia.
      * intros d Hd' Hod Hdd Hdiv. destruct (decide (d < i)%Z); [by apply (Hd d); [lia|..]|].
        assert (d = i ∨ d = i + 1)%Z as [->| ->] by lia.
        -- apply Hnz. by apply Z.mod_divide; [lia|].
        -- destruct Hoi as [k ->], Hod as [k' ?]. lia.
  - exists true. split; [done|]. split; [intros _|done]. apply trial_division; [lia|done|].
    intros d H3 Hod Hdd. apply Hd; [|done|done]. split; [lia|]. nia.
Qed.

Lemma IsPrime_ok x : (3 <= x < 46339 * 46339)%Z → Z.Odd x →
  ∃ b, IsPrime x = Ok b ∧ (b = true ↔ prime x).
Proof.
  intros Hx Ho. apply IsPrime_loop_ok; try done; try lia. by exists 1%Z.
Qed.

Lemma prime_odd p : prime p → (3 <= p)%Z → Z.Odd p.
Proof.
  intros [_ Hp] H3. destruct (Z.Even_or_Odd p) as [[k Hk]|]; [|done]. exfalso.
  assert (Znumtheory.rel_prime 2 p) as [_ _ Hg] by (apply Hp; lia).
  assert ((2 | 1)%Z) as H2 by (apply Hg; [done|exists k; lia]). apply Z.divide_1_r in H2. lia.
Qed.

Lemma NextPrime_loop_ok fuel i p :
  (3 <= i <= p)%Z → Z.Odd i → prime p → (p < 46339 * 46339)%Z → (p < i + 2 * Z.of_nat fuel)%Z →
  ∃ r, NextPrime_loop fuel i = Ok r ∧ prime r ∧ (i <= r)%Z ∧ ∀ q, prime q → (i <= q)%Z → (r <= q)%Z.
Proof.
  revert i. induction fuel as [|fuel IH]; intros i Hi Ho Hp Hb Hf; [lia|]. cbn [NextPrime_loop].
  destruct (IsPrime_ok i ltac:(lia) Ho) as (b&->&Hbp). cbn [bindO]. destruct b.
  - exists i. split_and!; [done|by apply Hbp|lia|done].
  - assert (¬ prime i) as Hnp by (intros H%Hbp; done).
    assert (i ≠ p) as Hne by (by intros ->).
    pose proof (prime_odd p Hp ltac:(lia)) as [kp Hkp]. destruct Ho as [ki Hki].
    rewrite checked32_ok by lia. cbn [bindO].
    destruct (IH (i + 2)%Z) as (r&->&Hr&Hir&Hmin); [lia|exists (ki + 1)%Z; lia|done|done|lia|].
    exists r. split_and!; [done|done|lia|]. intros q Hq Hiq. apply Hmin; [done|].
    destruct (decide (q = i)) as [->|]; [done|].
    pose proof (prime_odd q Hq ltac:(lia)) as [kq Hkq]. lia.
Qed.

Lemma prime_le_2 p : prime p → (2 <= p)%Z.
Proof. intros [? _]. lia. Qed.

Lemma NextPrime_ok x p fuel :
  (1 <= x <= p)%Z → prime p → (p < 46339 * 46339)%Z → (p <= 2 * Z.of_nat fuel)%Z →
  ∃ r, NextPrime fuel x = Ok r ∧ prime r ∧ (x <= r)%Z ∧ ∀ q, prime q → (x <= q)%Z → (r <= q)%Z.
Proof.
  intros Hx Hp Hb Hf. unfold NextPrime, NextPrimeImpl. rewrite checked32_ok by lia. cbn [bindO].
  destruct (Z.eqb_spec (x - 1) 0); [|destruct (Z.eqb_spec (x - 1) 1); [|destruct (Z.eqb_spec (x - 1) 2)]].
  - exists 2%Z. split_and!; [done|apply Znumtheory.prime_2|lia|]. intros q ?%prime_le_2. lia.
  - exists 2%Z. split_and!; [done|apply Znumtheory.prime_2|lia|]. intros q ?%prime_le_2. lia.
  - exists 3%Z. split_and!; [done|apply Znumtheory.prime_3|lia|]. intros q _. lia.
  - rewrite Z.rem_mod_nonneg by lia. pose proof (Z.div_mod (x - 1) 2 ltac:(lia)) as Hdm.
    pose proof (Z.mod_pos_bound (x - 1) 2 ltac:(lia)).
    destruct (Z.eqb_spec ((x - 1) mod 2) 0) as [He|Hodd]; rewrite checked32_ok by lia; cbn [bindO].
    + destruct (NextPrime_loop_ok fuel (x - 1 + 1) p) as (r&Hr&Hpr&Hle&Hmin);
        [lia|exists ((x - 1) / 2)%Z; lia|done|done|lia|].
      exists r. split_and!; [done|done|lia|]. intros q Hq ?. apply Hmin; [done|lia].
    + assert (∀ q, prime q → (x <= q)%Z → (x + 1 <= q)%Z) as Hskip.
      { intros q Hq Hle. destruct (decide (q = x)) as [->|]; [|lia].
        pose proof (prime_odd x Hq ltac:(lia)) as [k Hk]. lia. }
      destruct (NextPrime_loop_ok fuel (x - 1 + 2) p) as (r&Hr&Hpr&Hle&Hmin);
        [specialize (Hskip p Hp); lia|exists ((x - 1) / 2 + 1)%Z; lia|done|done|lia|].
      exists r. split_and!; [done|done|lia|]. intros q Hq ?. apply Hmin; [done|]. specialize (Hskip q Hq). lia.
Qed.

(** ** is-prime: trial division by several threads

    The threads share a flag; a step is one access to it, with the division that
    follows. *)
Module ParallelPrime.

Definition kThreadCnt : nat := 16.

(** Before the test of the flag; about to set it; returned. *)
Inductive pc : Type :=
| Running (i r_bound : Z)
| Found
| Done.

Definition ThreadFunc_step (x : Z) (is_not_prime : bool) (p : pc) : option (bool * pc) :=
  match p with
  | Running i r_bound =>
      if (i <? r_bound)%Z then
        if negb is_not_prime
        then Some (is_not_prime, if (x mod i =? 0)%Z then Found else Running (i + 1) r_bound)
        else Some (is_not_prime, Done)
      else Some (is_not_prime, Done)
  | Found => Some (true, Done)
  | Done => None
  end.

Definition rule (x : Z) (s : bool) (p : pc) (s' : bool) (p' : pc) : Prop :=
  ThreadFunc_step x s p = Some (s', p').

(** The loop that gives each thread its interval: [k] threads are still to be
    started, the [i]-th is the next. *)
Fixpoint intervals (k i : nat) (std_interval_len full_threads_cnt l_bound : Z) : list (Z * Z) :=
  match k with
  | O => []
  | S k =>
      let interval_len :=
        if (Z.of_nat i <? full_threads_cnt)%Z then (std_interval_len + 1)%Z else std_interval_len in
      (l_bound, l_bound + interval_len)%Z
        :: intervals k (S i) std_interval_len full_threads_cnt (l_bound + interval_len)
  end.

(** [root] is what [std::sqrt] gave. *)
Definition bound_of (root x : Z) : Z := Z.min (u64 (root + 6)) x.

Definition parts (root x : Z) : list (Z * Z) :=
  let bound := bound_of root x in
  if ((bound - 2) / Z.of_nat kThreadCnt <? 10)%Z then [(2, bound)%Z]
  else intervals kThreadCnt 0 ((bound - 2) / Z.of_nat kThreadCnt) ((bound - 2) mod Z.of_nat kThreadCnt) 2.

(** The flag is cleared and the threads start. *)
Definition start (root x : Z) : bool * list pc :=
  (false, (λ b, Running b.1 b.2) <$> parts root x).

(** What [IsPrime] returns: [c] is what the threads have left. *)
Definition IsPrime_result (x : Z) (c : bool * list pc) : bool := if (x <? 2)%Z then false else negb c.1.

(** ** The intervals cover what is to be searched *)

Lemma intervals_cover k i len full l d :
  (0 <= len)%Z → (l <= d)%Z →
  (d < l + Z.of_nat k * len + Z.max 0 (Z.min (Z.of_nat k) (full - Z.of_nat i)))%Z →
  ∃ a b, (a, b) ∈ intervals k i len full l ∧ (a <= d < b)%Z.
Proof.
  revert i l. induction k as [|k IH]; intros i l Hlen Hd Hd'; [lia|]. cbn [intervals].
  set (n := if (Z.of_nat i <? full)%Z then (len + 1)%Z else len).
  destruct (decide (d < l + n)%Z) as [|Hge].
  - exists l, (l + n)%Z. split; [by constructor|lia].
  - destruct (IH (S i) (l + n)%Z) as (a&b&Hab&?); [done|lia| |].
    + subst n. destruct (Z.ltb_spec (Z.of_nat i) full); lia.
    + exists a, b. split; [by constructor|done].
Qed.

Lemma intervals_range k i len full l a b :
  (0 <= len)%Z → (a, b) ∈ intervals k i len full l →
  (l <= a ∧ b <= l + Z.of_nat k * len + Z.max 0 (Z.min (Z.of_nat k) (full - Z.of_nat i)))%Z.
Proof.
  revert i l. induction k as [|k IH]; intros i l Hlen; cbn [intervals]; [by intros []%elem_of_nil|].
  intros [[= -> ->]|Hin]%elem_of_cons.
  - split; [lia|]. destruct (Z.ltb_spec (Z.of_nat i) full); nia.
  - apply IH in Hin; [|done]. revert Hin. destruct (Z.ltb_spec (Z.of_nat i) full); lia.
Qed.

Lemma parts_cover root x : (2 <= bound_of root x)%Z →
  (∀ d, (2 <= d < bound_of root x)%Z → ∃ a b, (a, b) ∈ parts root x ∧ (a <= d < b)%Z) ∧
  (∀ a b, (a, b) ∈ parts root x → (2 <= a)%Z ∧ (b <= bound_of root x)%Z).
Proof.
  intros Hb. unfold parts. set (bound := bound_of root x) in *. change (Z.of_nat kThreadCnt) with 16%Z.
  pose proof (Z.div_mod (bound - 2) 16 ltac:(lia)). pose proof (Z.mod_pos_bound (bound - 2) 16 ltac:(lia)).
  assert (0 <= (bound - 2) / 16)%Z by (apply Z.div_pos; lia).
  destruct (Z.ltb_spec ((bound - 2) / 16) 10); split.
  - intros d Hd. exists 2%Z, bound. split; [by constructor|lia].
  - intros a b [= -> ->]%list_elem_of_singleton. lia.
  - intros d Hd. apply intervals_cover; [lia|lia|]. change (Z.of_nat kThreadCnt) with 16%Z. lia.
  - intros a b Hab%intervals_range; [|lia]. revert Hab. change (Z.of_nat kThreadCnt) with 16%Z. lia.
Qed.

(** ** The invariant *)

Definition divides_below (x : Z) : Prop := ∃ d, (2 <= d < x)%Z ∧ (d | x)%Z.
Definition none_between (x l r : Z) : Prop := ∀ d, (l <= d < r)%Z → ¬ (d | x)%Z.

Definition pc_ok (x : Z) (flag : bool) (part : Z * Z) (p : pc) : Prop :=
  match p with
  | Running i r => r = part.2 ∧ (part.1 <= i)%Z ∧ none_between x part.1 i
  | Found => divides_below x
  | Done => flag = true ∨ none_between x part.1 part.2
  end.

Definition inv (root x : Z) (c : bool * list pc) : Prop :=
  (c.1 = true → divides_below x) ∧
  length c.2 = length (parts root x) ∧
  ∀ j part p, parts root x !! j = Some part → c.2 !! j = Some p → pc_ok x c.1 part p.

Lemma prime_inv_step root x c c' :
  (2 <= bound_of root x <= x)%Z → inv root x c → thread_steps (rule x) c c' → inv root x c'.
Proof.
  intros Hb (Hflag&Hlen&Hpcs) (i&p&s'&p'&Hi&Hr&->). destruct c as [flag l]. cbn [fst snd] in *.
  destruct (lookup_lt_is_Some_2 (parts root x) i) as [[a b] Hab].
  { rewrite <- Hlen. by eapply lookup_lt_Some. }
  assert ((a, b) ∈ parts root x) as Hin by (by eapply list_elem_of_lookup_2).
  pose proof (proj2 (parts_cover root x ltac:(lia)) a b Hin) as [Ha Hbb].
  pose proof (Hpcs i (a, b) p Hab Hi) as Hok.
  assert ((s' = flag ∨ s' = true) ∧ (s' = true → divides_below x) ∧ pc_ok x s' (a, b) p') as (Hs&Hd&Hp').
  { unfold rule in Hr. destruct p as [k r| |]; cbn in Hr, Hok; [|injection Hr as <- <-; cbn; auto 6|done].
    destruct Hok as (->&Hk&Hnone). destruct (Z.ltb_spec k b) as [Hlt|Hge].
    - destruct flag; cbn in Hr; injection Hr as <- <-; (split_and!; [by left|done|]); [by left|].
      destruct (Z.eqb_spec (x mod k) 0) as [Hz|Hnz]; cbn.
      + exists k. split; [lia|]. apply Z.mod_divide; [lia|done].
      + split_and!; [done|lia|]. intros d Hd. destruct (decide (d = k)) as [->|]; [|apply Hnone; lia].
        rewrite <- Z.mod_divide by lia. done.
    - injection Hr as <- <-. split_and!; [by left|done|]. right. intros d Hd. apply Hnone. cbn in Hd. lia. }
  split_and!; cbn [fst snd]; [done|by rewrite length_insert|]. intros j part q Hj Hq.
  destruct (decide (i = j)) as [<-|Hne].
  - apply list_lookup_insert_Some in Hq as [(_&->&_)|[? _]]; [|done]. congruence.
  - rewrite list_lookup_insert_ne in Hq by done. pose proof (Hpcs j part q Hj Hq) as Hok'.
    destruct q; cbn in *; try done. destruct Hok'; [|by right]. left. destruct Hs; congruence.
Qed.

Lemma prime_inv_start root x : inv root x (start root x).
Proof.
  split_and!; cbn; [done|by rewrite length_fmap|]. intros j part p Hj. rewrite list_lookup_fmap, Hj.
  intros [= <-]. cbn. split_and!; [done|lia|]. intros d Hd. lia.
Qed.

(** What is left to do, a bound on the number of steps. *)
Definition work (p : pc) : nat :=
  match p with Running i r => Z.to_nat (r - i) + 2 | Found => 1 | Done => 0 end.
Definition total (c : bool * list pc) : nat := foldr (λ p n, work p + n) 0 c.2.

Lemma total_insert (s s' : bool) (l : list pc) i p p' : l !! i = Some p →
  total (s', <[i:=p']> l) + work p = total (s, l) + work p'.
Proof.
  unfold total. cbn [snd]. revert i. induction l as [|q l IH]; intros [|i] Hi; try done.
  - injection Hi as ->. change (<[0:=p']> (p :: l)) with (p' :: l). cbn [foldr]. lia.
  - change (<[S i:=p']> (q :: l)) with (q :: <[i:=p']> l). cbn [foldr]. specialize (IH i Hi). lia.
Qed.

Lemma step_decreases x c c' : thread_steps (rule x) c c' → total c' < total c.
Proof.
  intros (i&p&s'&p'&Hi&Hr&->). destruct c as [s l]. cbn [fst snd] in *.
  pose proof (total_insert s s' l i p p' Hi). assert (work p' < work p); [|lia].
  unfold rule in Hr. destruct p as [k r| |]; cbn in Hr; try done; [|by injection Hr as <- <-; cbn; lia].
  destruct (Z.ltb_spec k r); [destruct s; cbn in Hr|]; injection Hr as <- <-; cbn; try lia.
  destruct (_ =? 0)%Z; cbn; lia.
Qed.

(** A number below 2^64 is composite only if it has a divisor below the bound. *)
Lemma small_divisor root x :
  (2 <= x < 2 ^ 64)%Z → (Z.sqrt x - 1 <= root <= Z.sqrt x + 1)%Z →
  (2 <= bound_of root x <= x)%Z ∧
  (prime x ↔ none_between x 2 (bound_of root x)).
Proof.
  intros Hx Hroot. pose proof (Z.sqrt_spec x ltac:(lia)) as Hsq.
  cbv zeta in Hsq. pose proof (Z.sqrt_nonneg x).
  assert (Z.sqrt x < 2 ^ 32)%Z as Hsb.
  { destruct (decide (Z.sqrt x < 2 ^ 32)%Z) as [|Hge]; [done|].
    pose proof (Z.mul_le_mono_nonneg (2 ^ 32) (Z.sqrt x) (2 ^ 32) (Z.sqrt x)
      ltac:(lia) ltac:(lia) ltac:(lia) ltac:(lia)) as Hm.
    change (2 ^ 32 * 2 ^ 32)%Z with (2 ^ 64)%Z in Hm. lia. }
  assert (1 <= Z.sqrt x)%Z by nia.
  assert (bound_of root x = Z.min (root + 6) x) as Hb by (unfold bound_of; rewrite uwrap_small; lia).
  rewrite Hb. split; [lia|]. split.
  - intros [_ Hp] d Hd Hdiv. assert (Znumtheory.rel_prime d x) as [_ _ Hg] by (apply Hp; lia).
    assert ((d | 1)%Z) as H1 by (apply Hg; [done|done]). apply Z.divide_1_r in H1. lia.
  - intros Hn. destruct (Znumtheory.prime_dec x) as [|Hnp]; [done|]. exfalso.
    destruct (Znumtheory.not_prime_divide x) as (d&Hd&e&He); [lia|done|].
    assert (1 < e < x)%Z by nia.
    destruct (decide (d <= e)%Z).
    + apply (Hn d); [nia|by exists e].
    + apply (Hn e); [nia|exists d; lia].
Qed.
End ParallelPrime.

Section PrimeProperties.
Import ParallelPrime.

(** [IsPrime] of is-prime is right for every 64-bit number and every interleaving of
    its threads, if [std::sqrt] is off by at most one: each run is finite, can
    always go on until all the threads have returned, and then the answer is
    whether the number is a prime. *)
Theorem is_prime_correct (root_of : Z → Z) (x : Z) :
  (∀ y, (0 <= y < 2 ^ 64)%Z → (Z.sqrt y - 1 <= root_of y <= Z.sqrt y + 1)%Z) →
  (0 <= x < 2 ^ 64)%Z →
  (∀ c c', thread_steps (rule x) c c' → total c' < total c) ∧
  (∀ c, rtc (thread_steps (rule x)) (start (root_of x) x) c →
     (∃ c', thread_steps (rule x) c c') ∨
     Forall (λ p, p = Done) c.2 ∧ (IsPrime_result x c = true ↔ prime x)).
Proof.
  intros Hroot Hx. split; [apply step_decreases|]. intros c Hc.
  destruct (decide (Forall (λ p, work p = 0) c.2)) as [Hdone|Hrun].
  - right. assert (Forall (λ p, p = Done) c.2) as Hd.
    { eapply Forall_impl; [done|]. intros [] Hw; cbn in Hw; [lia|lia|done]. }
    split; [done|]. unfold IsPrime_result. destruct (Z.ltb_spec x 2) as [Hlt|Hge].
    { split; [done|]. intros [? _]. lia. }
    destruct (small_divisor (root_of x) x) as [Hb Hp]; [lia|apply Hroot; lia|]. rewrite Hp.
    assert (inv (root_of x) x c) as (Hflag&Hlen&Hpcs).
    { clear -Hc Hb. assert (inv (root_of x) x (start (root_of x) x)) as H0 by apply prime_inv_start.
      induction Hc as [|c1 c2 c3 Hs _ IH]; [done|]. apply IH. by eapply prime_inv_step. }
    destruct (parts_cover (root_of x) x ltac:(lia)) as [Hcover _].
    destruct c.1 eqn:Ef; cbn.
    + split; [done|]. intros Hno. destruct (Hflag eq_refl) as (d&Hd'&Hdiv). exfalso.
      apply Hp in Hno as [_ Hrel]. assert (Znumtheory.rel_prime d x) as [_ _ Hg] by (apply Hrel; lia).
      assert ((d | 1)%Z) as H1 by (by apply Hg). apply Z.divide_1_r in H1. lia.
    + split; [intros _|done]. intros d Hd'. destruct (Hcover d Hd') as (a&b&[j Hj]%list_elem_of_lookup&Hab).
      destruct (lookup_lt_is_Some_2 c.2 j) as [p Hpj]; [rewrite Hlen; by eapply lookup_lt_Some|].
      pose proof (Forall_lookup_1 _ _ _ _ Hd Hpj) as Hpd. cbn in Hpd. subst p.
      destruct (Hpcs j (a, b) Done Hj Hpj) as [|Hnone]; [done|]. by apply Hnone.
  - left. apply not_Forall_Exists in Hrun; [|solve_decision]. apply Exists_exists in Hrun as (p&Hp&Hw).
    apply list_elem_of_lookup in Hp as [i Hi]. destruct (ThreadFunc_step x c.1 p) as [[s' p']|] eqn:E.
    + exists (s', <[i:=p']> c.2). by exists i, p, s', p'.
    + exfalso. destruct p; cbn in E, Hw; try done. by repeat case_match.
Qed.
End PrimeProperties.

(** ** reduce: chunks by several threads *)
Section Reduce.
Context {A : Type} (std_reduce : (A → A → A) → A → list A → A).

Definition kThreadCnt : nat := 16.

(** The lambda: one thread folds the elements from [start] to [finish] and stores
    the result in its own element of [res]. *)
Definition reduce_func (func : A → A → A) (l : list A) (start finish j : nat) (res : list A) : outcome (list A) :=
  match l !! start with
  | Some first => Ok (<[j := std_reduce func first (take (finish - (start + 1)) (drop (start + 1) l))]> res)
  | None => Fail UB
  end.

(** The loop that starts the threads; they write to different elements, so that their
    order does not matter. *)
Fixpoint Reduce_loop (k i : nat) (func : A → A → A) (l : list A) (len_per_thread residial start_pos : nat)
    (res : list A) : outcome (list A) :=
  match k with
  | O => Ok res
  | S k =>
      let real_len_per_thread := if i <? residial then len_per_thread + 1 else len_per_thread in
      res <-? reduce_func func l start_pos (start_pos + real_len_per_thread) i res ;;
      Reduce_loop k (S i) func l len_per_thread residial (start_pos + real_len_per_thread) res
  end.

Definition Reduce (d : A) (l : list A) (init : A) (func : A → A → A) : outcome A :=
  let len := length l in
  let len_per_thread := len `div` kThreadCnt in
  let residial := len `mod` kThreadCnt in
  if len_per_thread <? 100 then Ok (std_reduce func init l)
  else res <-? Reduce_loop kThreadCnt 0 func l len_per_thread residial 0 (replicate kThreadCnt d) ;;
       Ok (std_reduce func init res).

(** [std::reduce] may take the elements in any order and grouping; for an associative
    and commutative function it is the fold from the left. *)
Context (std_reduce_fold : ∀ func init l, Assoc (=) func → Comm (=) func →
  std_reduce func init l = foldl func init l).

Lemma foldl_op (func : A → A → A) (a b : A) l :
  Assoc (=) func → foldl func (func a b) l = func a (foldl func b l).
Proof.
  intros Ha. revert b. induction l as [|x l IH]; intros b; cbn; [done|]. by rewrite <- Ha, IH.
Qed.

(** [done] is what the finished threads have stored; folding it, and then what is
    left, folds everything. *)
Lemma Reduce_loop_ok func l len residial init (Ha : Assoc (=) func) (Hc : Comm (=) func) k i pos stored rest :
  0 < len → length stored = i → length rest = k → pos ≤ length l →
  length l - pos = k * len + (residial - i) → residial ≤ i + k →
  foldl func init stored = foldl func init (take pos l) →
  ∃ res, Reduce_loop k i func l len residial pos (stored ++ rest) = Ok res ∧
    foldl func init res = foldl func init l.
Proof using std_reduce_fold.
  revert i pos stored rest. induction k as [|k IH]; intros i pos stored rest Hlen Hst Hr Hpos Hleft Hres Hf.
  - destruct rest; [|done]. exists stored. rewrite app_nil_r. split; [done|]. rewrite Hf.
    f_equal. apply take_ge. lia.
  - destruct rest as [|r0 rest]; [done|]. cbn [Reduce_loop].
    set (n := if i <? residial then len + 1 else len).
    assert (0 < n ∧ pos + n ≤ length l ∧ length l - (pos + n) = k * len + (residial - S i) ∧ residial ≤ S i + k)
      as (Hn&Hpn&Hleft'&Hres').
    { subst n. destruct (Nat.ltb_spec i residial); nia. }
    unfold reduce_func at 1. destruct (lookup_lt_is_Some_2 l pos ltac:(lia)) as [x Hx]. rewrite Hx. cbn [bindO].
    rewrite std_reduce_fold by done. set (y := foldl func x _).
    rewrite insert_app_r_alt by lia. rewrite Hst, Nat.sub_diag. cbn.
    change (stored ++ y :: rest) with (stored ++ [y] ++ rest). rewrite app_assoc. apply IH; try done; try lia.
    + rewrite length_app. cbn. lia.
    + cbn in Hr. lia.
    + rewrite foldl_app, Hf. cbn. rewrite <- (take_take_drop l pos n), foldl_app.
      rewrite (drop_S l x pos Hx). destruct n as [|n']; [lia|]. cbn. rewrite foldl_op by done.
      subst y. do 3 f_equal; [lia|f_equal; lia].
Qed.
End Reduce.

Section Properties.

(** [RangeSum] is the sum of the numbers [from], [from + step], ... below [to], for
    64-bit arguments and a positive step, if twice the sum is below 2^64; it is 0 on
    an empty range and divides by zero when the step is 0. *)
Theorem range_sum_correct (from to step : Z) :
  (0 <= from < 2 ^ 64)%Z → (0 <= to < 2 ^ 64)%Z → (0 <= step < 2 ^ 64)%Z →
  ((to <= from)%Z → RangeSum from to step = Ok 0%Z) ∧
  ((from < to)%Z → step = 0%Z → RangeSum from to step = Fail UB) ∧
  ((from < to)%Z → (0 < step)%Z → (2 * progression from step (terms from to step) < 2 ^ 64)%Z →
   RangeSum from to step = Ok (progression from step (terms from to step)) ∧
   ∀ k, k < terms from to step ↔ (from + Z.of_nat k * step < to)%Z).
Proof.
  intros Hf Ht Hs. split_and!.
  - intros Hle. unfold RangeSum. by rewrite (proj2 (Z.ltb_ge from to)).
  - intros Hlt ->. unfold RangeSum. by rewrite (proj2 (Z.ltb_lt from to)).
  - intros Hlt Hp Hb. split; [apply RangeSum_closed; lia|]. intros k. by apply terms_spec.
Qed.

(** When only the sum fits, but not twice the sum, the result is wrong: the numbers
    below 5 000 000 000 add up to less than 2^64. *)
Theorem range_sum_wraps :
  RangeSum 0 5000000000 1 = Ok 3276627960645224192%Z ∧
  (2 * progression 0 1 (terms 0 5000000000 1) = 2 * 12499999997500000000)%Z ∧
  (12499999997500000000 < 2 ^ 64)%Z.
Proof.
  split_and!; [vm_compute; reflexivity| |reflexivity].
  rewrite progression_closed. unfold terms. rewrite Z2Nat.id by (apply Z.add_nonneg_nonneg; [apply Z.div_pos; lia|lia]).
  rewrite Z.div_1_r. lia.
Qed.

(** The functions of compile-eval: [Pow<a, b>] is the power modulo 2^32; [Pow(a, b)]
    is the power when it fits in an [int]; [Hash] is the polynomial hash of a string
    of 7-bit characters; [Sqrt<N>] is the least number whose square is at least [N],
    for every [int] that is not negative, in at most 33 instantiations, without
    overflow and without dividing by zero. *)
Theorem compile_eval_correct :
  (∀ a b, Pow_kValue a b = u32 (a ^ Z.of_nat b)) ∧
  (∀ a n fuel, n < fuel → in_s32 (a ^ Z.of_nat n) = true →
     Pow fuel a (Z.of_nat n) = Ok (a ^ Z.of_nat n)%Z) ∧
  (∀ s p mod_, Forall (λ c, (Z.of_N (N_of_ascii c) < 128)%Z) s →
     (0 <= p < 2 ^ 31)%Z → (0 < mod_ < 2 ^ 31)%Z → Hash s p mod_ = (polynomial s p mod mod_)%Z) ∧
  (∀ N, (0 <= N < 2 ^ 31)%Z →
     ∃ r, Sqrt 33 N = Ok r ∧ (0 <= r)%Z ∧ (N <= r * r)%Z ∧ ∀ x, (0 <= x < r → x * x < N)%Z).
Proof.
  split_and!; [apply Pow_kValue_eq|apply Pow_ok| |apply Sqrt_ok].
  intros s p mod_ Hs Hp Hm. unfold Hash. rewrite !uwrap_small by lia. by apply HashImpl_eq.
Qed.

(** [NextPrime(x)] is the least prime that is not below [x], for each [x] from 1 up to
    the last prime below 46339 * 46339: some number of iterations is enough. *)
Theorem next_prime_correct (x p : Z) :
  (1 <= x <= p)%Z → prime p → (p < 46339 * 46339)%Z →
  ∃ fuel r, NextPrime fuel x = Ok r ∧ prime r ∧ (x <= r)%Z ∧
    ∀ q, prime q → (x <= q)%Z → (r <= q)%Z.
Proof. intros Hx Hp Hb. exists (Z.to_nat p). apply (NextPrime_ok x p); [done|done|done|lia]. Qed.

(** Outside of these bounds [NextPrime] fails: [NextPrime(0)] is 1, and for the prime
    2^31 - 1 the square in the loop overflows. *)
Theorem next_prime_limits :
  NextPrime 1 0 = Ok 1%Z ∧ IsPrime 2147483647 = Fail UB.
Proof. split; vm_compute; reflexivity. Qed.

(** [Reduce] by threads gives what the fold from the left gives, for every associative
    and commutative function, and reads no element that does not exist. *)
Theorem reduce_correct {A : Type} (std_reduce : (A → A → A) → A → list A → A) (d : A) (l : list A)
    (init : A) (func : A → A → A) :
  (∀ func init l, Assoc (=) func → Comm (=) func → std_reduce func init l = foldl func init l) →
  Assoc (=) func → Comm (=) func →
  Reduce std_reduce d l init func = Ok (foldl func init l).
Proof.
  intros Hstd Ha Hc. unfold Reduce. destruct (Nat.ltb_spec (length l `div` kThreadCnt) 100) as [|Hge].
  - by rewrite Hstd.
  - pose proof (Nat.div_mod_eq (length l) kThreadCnt) as Hdm.
    pose proof (Nat.mod_upper_bound (length l) kThreadCnt ltac:(done)) as Hmb.
    destruct (Reduce_loop_ok std_reduce Hstd func l (length l `div` kThreadCnt) (length l `mod` kThreadCnt)
      init Ha Hc kThreadCnt 0 0 [] (replicate kThreadCnt d)) as (res&Hr&Hf); try done; try lia.
    cbn [app] in Hr. rewrite Hr. cbn [bindO]. by rewrite Hstd, Hf.
Qed.
End Properties.

Section Witnesses.

Lemma range_sum_correct_witness : RangeSum 0 20 3 = Ok (progression 0 3 (terms 0 20 3)).
Proof.
  destruct (range_sum_correct 0 20 3) as (_&_&H); [lia..|].
  apply H; [lia|lia|]. vm_compute. reflexivity.
Defined.

Lemma next_prime_correct_witness : ∃ fuel r, NextPrime fuel 1 = Ok r ∧ prime r.
Proof.
  destruct (next_prime_correct 1 2) as (fuel&r&H1&H2&_).
  - lia.
  - exact Znumtheory.prime_2.
  - reflexivity.
  - exists fuel, r. split; [exact H1|exact H2].
Defined.

Lemma is_prime_correct_witness :
  ParallelPrime.IsPrime_result 5 (false, [ParallelPrime.Done]) = true ↔ prime 5.
Proof.
  destruct (is_prime_correct Z.sqrt 5) as [_ H].
  - intros y Hy. lia.
  - lia.
  - destruct (H (false, [ParallelPrime.Done])) as [[c' (i&p&s'&p'&Hi&Hr&_)]|[_ H5]].
    + eapply rtc_l; [exists 0; eexists _, _, _; split_and!; reflexivity|cbn].
      eapply rtc_l; [exists 0; eexists _, _, _; split_and!; reflexivity|cbn].
      eapply rtc_l; [exists 0; eexists _, _, _; split_and!; reflexivity|cbn].
      eapply rtc_l; [exists 0; eexists _, _, _; split_and!; reflexivity|cbn].
      apply rtc_refl.
    + destruct i as [|i]; [|discriminate Hi]. injection Hi as <-. discriminate Hr.
    + exact H5.
Defined.

Lemma reduce_correct_witness : Reduce (λ func init l, foldl func init l) 0 [1; 2; 3] 10 Nat.add = Ok 16.
Proof.
  rewrite (reduce_correct (λ func init l, foldl func init l) 0 [1; 2; 3] 10 Nat.add).
  - reflexivity.
  - intros. reflexivity.
  - intros x y z. lia.
  - intros x y. lia.
Defined.
End Witnesses.
