(* ===== verification/ConstexprMap.v ===== *)
(** * The compile-time map and its sort (constexpr-map)

    [ConstexprMap] is an array of pairs of which the first [size_] are in use, in the
    order of insertion.  A reference that [operator[]] returns is the index of the
    slot it points into. *)

From S2P Require Import Prelude.

Module ConstexprMap.
Section Map.
Context {K V : Type} `{EqDecision K} (MaxSize : nat).

Record t : Type := mk { map_ : list (K * V); size_ : nat }.

(** A map without elements; [d] is the value-initialised pair. *)
Definition make (d : K * V) : t := mk (replicate MaxSize d) 0.

(** The loops over the first [size_] slots: the first one with the key. *)
Fixpoint find_from (fuel i : nat) (key : K) (this : t) : option nat :=
  match fuel with
  | O => None
  | S fuel =>
      if i <? size_ this then
        match map_ this !! i with
        | Some (k, _) => if decide (k = key) then Some i else find_from fuel (S i) key this
        | None => None
        end
      else None
  end.
Definition find_index (key : K) (this : t) : option nat := find_from (S (size_ this)) 0 key this.

Definition operator_index (key : K) (this : t) : outcome (nat * t) :=
  match find_index key this with
  | Some i => Ok (i, this)
  | None =>
      if size_ this <? length (map_ this)
      then Ok (size_ this, mk (alter (λ p, (key, p.2)) (size_ this) (map_ this)) (S (size_ this)))
      else Fail (Exn (RuntimeError "Map is full"))
  end.

Definition operator_index_const (key : K) (this : t) : outcome V :=
  match find_index key this with
  | Some i => match map_ this !! i with Some p => Ok p.2 | None => Fail UB end
  | None => Fail (Exn (RuntimeError "Key is missing"))
  end.

(** [this[key] = value]. *)
Definition assign (key : K) (value : V) (this : t) : outcome t :=
  r <-? operator_index key this ;;
  Ok (mk (alter (λ p, (p.1, value)) r.1 (map_ r.2)) (size_ r.2)).

Definition ShiftValues (deleted_index : nat) (this : t) : outcome t :=
  forO (λ i this,
    match map_ this !! i with
    | Some p => Ok (mk (<[i - 1 := p]> (map_ this)) (size_ this))
    | None => Fail UB
    end) (seq (deleted_index + 1) (size_ this - (deleted_index + 1))) this.

Definition Erase (key : K) (this : t) : outcome (bool * t) :=
  match find_index key this with
  | Some i => this <-? ShiftValues i this ;; Ok (true, mk (map_ this) (size_ this - 1))
  | None => Ok (false, this)
  end.

Definition Find (key : K) (this : t) : bool :=
  match find_index key this with Some _ => true | None => false end.

Definition Size (this : t) : nat := size_ this.

Definition GetByIndex (pos : nat) (this : t) : outcome (K * V) :=
  if pos <? size_ this then
    match map_ this !! pos with Some p => Ok p | None => Fail UB end
  else Fail (Exn (RuntimeError "Wrong index")).

(** ** sort.h *)
Section Sort.
Context (lt : K → K → bool).

(** [std::swap(map.GetByIndex(j), map.GetByIndex(j + 1))]. *)
Definition swap_next (j : nat) (this : t) : outcome t :=
  a <-? GetByIndex j this ;; b <-? GetByIndex (j + 1) this ;;
  Ok (mk (<[j := b]> (<[j + 1 := a]> (map_ this))) (size_ this)).

(** One pass; the flag is [need_iter]. *)
Definition sort_pass (ascending : bool) (n : nat) (sorted_map : t) : outcome (t * bool) :=
  forO (λ j r,
    let '(sorted_map, need_iter) := r in
    a <-? GetByIndex j sorted_map ;; b <-? GetByIndex (j + 1) sorted_map ;;
    if ascending && lt b.1 a.1 then m <-? swap_next j sorted_map ;; Ok (m, true)
    else if negb ascending && lt a.1 b.1 then m <-? swap_next j sorted_map ;; Ok (m, true)
    else Ok (sorted_map, need_iter)) (seq 0 n) (sorted_map, false).

(** The outer loop from [i] on; [k] iterations are left. *)
Fixpoint sort_loop (k i : nat) (ascending : bool) (sorted_map : t) : outcome t :=
  match k with
  | O => Ok sorted_map
  | S k =>
      r <-? sort_pass ascending (Size sorted_map - i - 1) sorted_map ;;
      if negb r.2 then Ok r.1 else sort_loop k (S i) ascending r.1
  end.

Definition sort_func (ascending : bool) (sorted_map : t) : outcome t :=
  if Size sorted_map =? 0 then Ok sorted_map
  else sort_loop (Size sorted_map - 1) 0 ascending sorted_map.

(** [is_integral] is [std::is_integral_v<K>]. *)
Definition Sort (is_integral : bool) (map : t) : outcome t := sort_func (negb is_integral) map.
End Sort.

(** ** The elements in use *)

Definition items (this : t) : list (K * V) := take (size_ this) (map_ this).

Record wf (this : t) : Prop := {
  wf_length : length (map_ this) = MaxSize;
  wf_size : size_ this ≤ MaxSize;
  wf_keys : NoDup (items this).*1
}.

Lemma length_items this : wf this → length (items this) = size_ this.
Proof. intros []. unfold items. rewrite length_take. lia. Qed.

Lemma lookup_items this i : i < size_ this → items this !! i = map_ this !! i.
Proof. intros Hi. unfold items. by apply lookup_take_lt. Qed.

(** What the search finds. *)
Lemma find_from_spec this key fuel i : wf this → size_ this ≤ i + fuel → i ≤ size_ this →
  (∀ j p, j < i → items this !! j = Some p → p.1 ≠ key) →
  match find_from (S fuel) i key this with
  | Some j => j < size_ this ∧ ∃ v, items this !! j = Some (key, v)
  | None => key ∉ (items this).*1
  end.
Proof.
  intros Hwf. revert i. induction fuel as [|fuel IH]; intros i Hf Hi Hbefore.
  all: remember (S _) as n eqn:En; destruct n as [|n]; [done|]; injection En as ->; cbn [find_from].
  all: destruct (Nat.ltb_spec i (size_ this)) as [Hlt|Hge].
  2, 4: intros ((k&v)&Hk&Hin)%list_elem_of_fmap; cbn in Hk; subst k;
    apply list_elem_of_lookup in Hin as [j Hj]; apply (Hbefore j (key, v)); [|done|done];
    apply lookup_lt_Some in Hj; rewrite length_items in Hj by done; lia.
  - lia.
  - destruct (lookup_lt_is_Some_2 (map_ this) i) as [[k v] Hkv].
    { rewrite (wf_length _ Hwf). pose proof (wf_size _ Hwf). lia. }
    rewrite Hkv. destruct (decide (k = key)) as [->|Hne].
    + split; [done|]. exists v. by rewrite lookup_items.
    + apply IH; [lia|lia|]. intros j p Hj Hp. destruct (decide (j = i)) as [->|]; [|by apply (Hbefore j); [lia|]].
      rewrite lookup_items in Hp by done. rewrite Hkv in Hp. by injection Hp as <-.
Qed.

Lemma find_index_spec this key : wf this →
  match find_index key this with
  | Some j => j < size_ this ∧ ∃ v, items this !! j = Some (key, v)
  | None => key ∉ (items this).*1
  end.
Proof. intros Hwf. apply find_from_spec; [done|lia|lia|]. intros j p Hj. lia. Qed.

(** ** The operations on the elements *)

(** Writing a slot in use changes that element. *)
Lemma items_alter this f i : i < size_ this →
  items (mk (alter f i (map_ this)) (size_ this)) = alter f i (items this).
Proof. intros Hi. unfold items. cbn. by rewrite take_alter_lt. Qed.

Definition set_value (key : K) (value : V) (l : list (K * V)) : list (K * V) :=
  (λ p, if decide (p.1 = key) then (key, value) else p) <$> l.

(** The index of a key in a list without duplicates. *)
Lemma alter_set_value l j key v value :
  NoDup l.*1 → l !! j = Some (key, v) → alter (λ p, (p.1, value)) j l = set_value key value l.
Proof.
  intros Hnd Hj. apply list_eq. intros i. unfold set_value. rewrite list_lookup_fmap.
  destruct (decide (i = j)) as [->|Hne].
  - rewrite list_lookup_alter_eq, Hj. cbn. by rewrite decide_True.
  - rewrite list_lookup_alter_ne by done. destruct (l !! i) as [[k v']|] eqn:Hi; cbn; [|done].
    rewrite decide_False; [done|]. intros ->. apply Hne. eapply (NoDup_lookup l.*1); [done| |].
    + rewrite list_lookup_fmap, Hi. done.
    + rewrite list_lookup_fmap, Hj. done.
Qed.

Lemma set_value_keys key value l : (set_value key value l).*1 = l.*1.
Proof.
  unfold set_value. rewrite <- list_fmap_compose. apply list_fmap_ext. intros i [k v] _. cbn.
  case_decide; cbn; congruence.
Qed.

Lemma assign_spec key value this : wf this →
  (key ∈ (items this).*1 → ∃ this', assign key value this = Ok this' ∧ wf this' ∧
     items this' = set_value key value (items this)) ∧
  (key ∉ (items this).*1 → size_ this < MaxSize → ∃ this', assign key value this = Ok this' ∧ wf this' ∧
     items this' = items this ++ [(key, value)]) ∧
  (key ∉ (items this).*1 → size_ this = MaxSize →
     assign key value this = Fail (Exn (RuntimeError "Map is full"))).
Proof.
  intros Hwf. pose proof (find_index_spec this key Hwf) as Hf. unfold assign, operator_index.
  destruct (find_index key this) as [j|]; split_and!.
  - intros _. destruct Hf as [Hj [v Hv]]. eexists. split; [done|]. cbn.
    assert (items (mk (alter (λ p, (p.1, value)) j (map_ this)) (size_ this)) = set_value key value (items this)) as Hi.
    { rewrite items_alter by done. eapply alter_set_value; [apply Hwf|done]. }
    split; [|done]. split; [cbn; rewrite length_alter; apply Hwf|apply Hwf|].
    rewrite Hi, set_value_keys. apply Hwf.
  - intros Hno. exfalso. apply Hno. destruct Hf as [_ [v Hv]]. apply list_elem_of_fmap. exists (key, v).
    split; [done|]. by eapply list_elem_of_lookup_2.
  - intros Hno. exfalso. apply Hno. destruct Hf as [_ [v Hv]]. apply list_elem_of_fmap. exists (key, v).
    split; [done|]. by eapply list_elem_of_lookup_2.
  - done.
  - intros _ Hlt. rewrite (wf_length _ Hwf), (proj2 (Nat.ltb_lt _ _)) by done. eexists. split; [done|]. cbn.
    set (l := alter _ _ (alter _ _ (map_ this))).
    assert (take (S (size_ this)) l = items this ++ [(key, value)]) as Hi.
    { destruct (lookup_lt_is_Some_2 (map_ this) (size_ this)) as [p Hp]; [by rewrite (wf_length _ Hwf)|].
      rewrite (take_S_r l (size_ this) (key, value)).
      - f_equal. unfold l, items. by rewrite !take_alter_ge by lia.
      - unfold l. by rewrite !list_lookup_alter_eq, Hp. }
    split; [|done]. split; [cbn|cbn|].
    + unfold l. by rewrite !length_alter, (wf_length _ Hwf).
    + lia.
    + change (NoDup (take (S (size_ this)) l).*1). rewrite Hi, fmap_app. apply NoDup_app. split_and!; [apply Hwf| |apply NoDup_singleton].
      intros x Hx ->%list_elem_of_singleton. done.
  - intros _ Heq. by rewrite (wf_length _ Hwf), (proj2 (Nat.ltb_ge _ _)) by lia.
Qed.

(** [ShiftValues] moves the elements after the deleted one down by one. *)
Lemma ShiftValues_spec d this : wf this → d < size_ this →
  ∃ this', ShiftValues d this = Ok this' ∧ size_ this' = size_ this ∧ length (map_ this') = MaxSize ∧
    take (size_ this - 1) (map_ this') = delete d (items this).
Proof.
  intros Hwf Hd. unfold ShiftValues. pose proof (wf_length _ Hwf) as Hl. pose proof (wf_size _ Hwf) as Hs.
  destruct (forO_seq (λ i m, size_ m = size_ this ∧ length (map_ m) = MaxSize ∧
    (∀ j, j < d → map_ m !! j = map_ this !! j) ∧
    (∀ j, d ≤ j → S j < i → map_ m !! j = map_ this !! S j) ∧
    (∀ j, i ≤ j → map_ m !! j = map_ this !! j))
    (λ i this, match map_ this !! i with
      | Some p => Ok (mk (<[i - 1 := p]> (map_ this)) (size_ this)) | None => Fail UB end)
    (d + 1) (size_ this - (d + 1)) this) as (m&Hr&Hsz&Hlen&H1&H2&H3).
  - split_and!; try done. lia.
  - intros i m Hi (Hsz&Hlen&H1&H2&H3). destruct (lookup_lt_is_Some_2 (map_ m) i ltac:(lia)) as [p Hp]. rewrite Hp.
    eexists. split; [done|]. cbn. split_and!; [done|by rewrite length_insert|..].
    + intros j Hj. rewrite list_lookup_insert_ne by lia. by apply H1.
    + intros j Hj Hji. destruct (decide (j = i - 1)) as [->|].
      * rewrite list_lookup_insert_eq by lia. replace (S (i - 1)) with i by lia. rewrite <- Hp. apply H3. lia.
      * rewrite list_lookup_insert_ne by lia. apply H2; lia.
    + intros j Hj. rewrite list_lookup_insert_ne by lia. apply H3. lia.
  - exists m. split_and!; [done|done|done|]. replace (d + 1 + (size_ this - (d + 1))) with (size_ this) in * by lia.
    apply list_eq. intros j. destruct (decide (j < size_ this - 1)) as [Hj|Hj].
    + rewrite lookup_take_lt by done. destruct (decide (j < d)).
      * rewrite list_lookup_delete_lt by done. rewrite lookup_items by lia. by apply H1.
      * rewrite list_lookup_delete_ge by lia. rewrite lookup_items by lia. apply H2; lia.
    + rewrite lookup_take_ge by lia. symmetry. apply lookup_ge_None_2. rewrite length_delete.
      * rewrite length_items by done. lia.
      * apply lookup_lt_is_Some_2. by rewrite length_items.
Qed.

Lemma without_key key (l : list (K * V)) : key ∉ l.*1 → filter (λ p, p.1 ≠ key) l = l.
Proof.
  induction l as [|p l IH]; intros Hno; [done|]. cbn in Hno. apply not_elem_of_cons in Hno as [Hp Hl].
  rewrite filter_cons_True by congruence. by rewrite IH.
Qed.

Lemma filter_keys key (l : list (K * V)) : NoDup l.*1 → NoDup (filter (λ p, p.1 ≠ key) l).*1.
Proof.
  induction l as [|p l IH]; intros Hnd; [done|]. cbn in Hnd. apply NoDup_cons in Hnd as [Hp Hl].
  rewrite filter_cons. case_decide; [|auto]. cbn. apply NoDup_cons. split; [|auto].
  intros (q&Hq&[_ Hin]%list_elem_of_filter)%list_elem_of_fmap. apply Hp, list_elem_of_fmap. by exists q.
Qed.

Lemma Erase_spec key this : wf this →
  ∃ b this', Erase key this = Ok (b, this') ∧ wf this' ∧ b = bool_decide (key ∈ (items this).*1) ∧
    items this' = filter (λ p, p.1 ≠ key) (items this).
Proof.
  intros Hwf. pose proof (find_index_spec this key Hwf) as Hf. unfold Erase.
  destruct (find_index key this) as [j|].
  - destruct Hf as [Hj [v Hv]]. destruct (ShiftValues_spec j this Hwf Hj) as (m&->&Hsz&Hlen&Htake). cbn.
    assert (items (mk (map_ m) (size_ m - 1)) = filter (λ p, p.1 ≠ key) (items this)) as Hi.
    { unfold items at 1. cbn. rewrite Hsz, Htake. pose proof (wf_keys _ Hwf) as Hnd.
      rewrite delete_take_drop. rewrite <- (take_drop_middle (items this) j (key, v) Hv) in Hnd.
      rewrite <- (take_drop_middle (items this) j (key, v) Hv) at 3.
      rewrite fmap_app in Hnd. cbn in Hnd. apply NoDup_app in Hnd as (_&Hdis&[Hno _]%NoDup_cons).
      rewrite filter_app, filter_cons_False by (cbn; tauto). rewrite !without_key; [done|done|].
      intros Hin. apply (Hdis key Hin). by constructor. }
    eexists true, _. split_and!; [done| | |done].
    + split; [done|cbn; rewrite Hsz; pose proof (wf_size _ Hwf); lia|]. rewrite Hi.
      apply filter_keys, Hwf.
    + rewrite bool_decide_eq_true_2; [done|]. apply list_elem_of_fmap. exists (key, v).
      split; [done|]. by eapply list_elem_of_lookup_2.
  - exists false, this. split_and!; [done|done|by rewrite bool_decide_eq_false_2|]. by rewrite without_key.
Qed.

Lemma GetByIndex_spec pos this : wf this →
  GetByIndex pos this = match items this !! pos with
                        | Some p => Ok p | None => Fail (Exn (RuntimeError "Wrong index")) end.
Proof.
  intros Hwf. unfold GetByIndex. destruct (Nat.ltb_spec pos (size_ this)) as [Hlt|Hge].
  - rewrite lookup_items by done. destruct (lookup_lt_is_Some_2 (map_ this) pos) as [p ->]; [|done].
    rewrite (wf_length _ Hwf). pose proof (wf_size _ Hwf). lia.
  - rewrite lookup_ge_None_2; [done|]. rewrite length_items by done. lia.
Qed.

Lemma lookup_spec key this : wf this →
  Find key this = bool_decide (key ∈ (items this).*1) ∧
  (∀ v, (key, v) ∈ items this → operator_index_const key this = Ok v) ∧
  (key ∉ (items this).*1 → operator_index_const key this = Fail (Exn (RuntimeError "Key is missing"))).
Proof.
  intros Hwf. pose proof (find_index_spec this key Hwf) as Hf. unfold Find, operator_index_const.
  destruct (find_index key this) as [j|].
  - destruct Hf as [Hj [v Hv]]. pose proof Hv as Hv'. rewrite lookup_items in Hv' by done.
    assert ((key, v) ∈ items this) as Hin by (by eapply list_elem_of_lookup_2).
    assert (key ∈ (items this).*1) as Hk by (apply list_elem_of_fmap; by exists (key, v)).
    split_and!; [by rewrite bool_decide_eq_true_2| |done].
    intros w Hw. rewrite Hv'. apply list_elem_of_lookup in Hw as [i Hi].
    assert (i = j) as ->; [|rewrite Hv in Hi; by injection Hi as ->]. eapply (NoDup_lookup (items this).*1); [apply Hwf| |].
    + by rewrite list_lookup_fmap, Hi.
    + by rewrite list_lookup_fmap, Hv.
  - split_and!; [by rewrite bool_decide_eq_false_2| |done]. intros v Hv. exfalso. apply Hf.
    apply list_elem_of_fmap. by exists (key, v).
Qed.

(** ** The sort *)
Section SortSpec.
Context (lt : K → K → bool).
(** The order is a strict total one. *)
Context (lt_irrefl : ∀ x, lt x x = false)
  (lt_trans : ∀ x y z, lt x y = true → lt y z = true → lt x z = true)
  (lt_total : ∀ x y, lt x y = false → lt y x = false → x = y).

(** [x] may stand before [y]. *)
Definition before (ascending : bool) (x y : K) : Prop :=
  (if ascending then lt y x else lt x y) = false.

#[global] Instance before_dec ascending x y : Decision (before ascending x y).
Proof. unfold before. apply _. Defined.

Lemma before_trans ascending x y z : before ascending x y → before ascending y z → before ascending x z.
Proof using lt_trans lt_total.
  unfold before. destruct ascending; intros H1 H2.
  - destruct (lt z x) eqn:E; [|done]. destruct (lt x y) eqn:E1.
    + by rewrite (lt_trans z x y E E1) in H2.
    + by rewrite (lt_total x y E1 H1) in E; rewrite E in H2.
  - destruct (lt x z) eqn:E; [|done]. destruct (lt y x) eqn:E1.
    + by rewrite (lt_trans y x z E1 E) in H2.
    + by rewrite (lt_total x y H1 E1) in E; rewrite E in H2.
Qed.

Lemma before_total ascending x y : ¬ before ascending x y → before ascending y x.
Proof using lt_irrefl lt_trans.
  unfold before. destruct ascending; intros H%not_false_is_true.
  - destruct (lt x y) eqn:E; [|done]. by rewrite <- (lt_irrefl x), (lt_trans x y x E H).
  - destruct (lt y x) eqn:E; [|done]. by rewrite <- (lt_irrefl x), (lt_trans x y x H E).
Qed.

Lemma before_refl ascending x : before ascending x x.
Proof using lt_irrefl. unfold before. destruct ascending; apply lt_irrefl. Qed.

(** Swapping two neighbours. *)
Lemma swap_next_spec j this a b : wf this → items this !! j = Some a → items this !! S j = Some b →
  ∃ this', swap_next j this = Ok this' ∧ wf this' ∧ size_ this' = size_ this ∧
    items this' = <[j := b]> (<[S j := a]> (items this)) ∧ items this' ≡ₚ items this.
Proof.
  intros Hwf Ha Hb. unfold swap_next. rewrite !GetByIndex_spec, Nat.add_1_r, Ha, Hb by done. cbn [bindO].
  assert (S j < size_ this) as Hj by (apply lookup_lt_Some in Hb; by rewrite length_items in Hb).
  eexists. split; [done|].
  assert (items (mk (<[j := b]> (<[S j := a]> (map_ this))) (size_ this)) = <[j := b]> (<[S j := a]> (items this))) as Hi.
  { unfold items. cbn. by rewrite !take_insert_lt by lia. }
  assert (<[j := b]> (<[S j := a]> (items this)) ≡ₚ items this) as Hp by (by apply Permutation_insert_swap).
  split_and!; [|done|done|by rewrite Hi].
  split; cbn; [by rewrite !length_insert, (wf_length _ Hwf)|apply Hwf|].
  change (NoDup (items (mk (<[j := b]> (<[S j := a]> (map_ this))) (size_ this))).*1).
  rewrite Hi, Hp. apply Hwf.
Qed.

Context (asc : bool).
Abbreviation bef := (before asc).

(** What one pass has done up to position [j]: the last of the first elements is
    there; [n] is where the pass ends. *)
Record passed (m0 : t) (n j : nat) (m : t) (need_iter : bool) : Prop := {
  ps_wf : wf m;
  ps_size : size_ m = size_ m0;
  ps_perm : items m ≡ₚ items m0;
  ps_last : ∀ i x y, i ≤ j → items m !! i = Some x → items m !! j = Some y → bef x.1 y.1;
  ps_rest : ∀ i, j < i → items m !! i = items m0 !! i;
  ps_from : ∀ i x, i ≤ n → items m !! i = Some x → ∃ i', i' ≤ n ∧ items m0 !! i' = Some x;
  ps_flag : need_iter = false → items m = items m0 ∧
    ∀ i x y, i < j → items m0 !! i = Some x → items m0 !! S i = Some y → bef x.1 y.1
}.

Lemma pass_swap m0 n j m need a b :
  passed m0 n j m need → S j ≤ n → items m !! j = Some a → items m !! S j = Some b → ¬ bef a.1 b.1 →
  ∃ m', swap_next j m = Ok m' ∧ passed m0 n (S j) m' true.
Proof using lt_irrefl lt_trans lt_total.
  intros [Hwf Hsz Hp Hlast Hrest Hfrom Hflag] Hjn Ha Hb Hab.
  destruct (swap_next_spec j m a b Hwf Ha Hb) as (m'&->&Hwf'&Hsz'&Hi&Hp'). exists m'. split; [done|].
  assert (items m' !! S j = Some a) as HSj.
  { rewrite Hi, list_lookup_insert_ne, list_lookup_insert_eq by (done || lia || by apply lookup_lt_Some in Hb). done. }
  assert (items m' !! j = Some b) as Hj.
  { rewrite Hi, list_lookup_insert_eq; [done|]. rewrite length_insert. by apply lookup_lt_Some in Ha. }
  assert (∀ i, i ≠ j → i ≠ S j → items m' !! i = items m !! i) as Hother.
  { intros i ??. by rewrite Hi, !list_lookup_insert_ne by done. }
  split; [done|congruence|by rewrite Hp'| | | |done].
  - intros i x y Hij Hx Hy. rewrite HSj in Hy. injection Hy as <-.
    destruct (decide (i = S j)) as [->|]; [rewrite HSj in Hx; injection Hx as <-; apply before_refl; done|].
    destruct (decide (i = j)) as [->|].
    + rewrite Hj in Hx. injection Hx as <-. by apply before_total.
    + rewrite Hother in Hx by done. apply (Hlast i); [lia|done|done].
  - intros i Hi'. rewrite Hother by lia. apply Hrest. lia.
  - intros i x Hin Hx. destruct (decide (i = S j)) as [->|]; [|destruct (decide (i = j)) as [->|]].
    + rewrite HSj in Hx. injection Hx as <-. apply (Hfrom j); [lia|done].
    + rewrite Hj in Hx. injection Hx as <-. apply (Hfrom (S j)); [lia|done].
    + rewrite Hother in Hx by done. by apply (Hfrom i).
Qed.

Lemma pass_keep m0 n j m need a b :
  passed m0 n j m need → items m !! j = Some a → items m !! S j = Some b → bef a.1 b.1 →
  passed m0 n (S j) m need.
Proof using lt_irrefl lt_trans lt_total.
  intros [Hwf Hsz Hp Hlast Hrest Hfrom Hflag] Ha Hb Hab. split; try done.
  - intros i x y Hij Hx Hy. rewrite Hb in Hy. injection Hy as <-.
    destruct (decide (i = S j)) as [->|]; [rewrite Hb in Hx; injection Hx as <-; by apply before_refl|].
    apply (before_trans asc x.1 a.1 b.1); [|done]. by apply (Hlast i); [lia|..].
  - intros i Hi. apply Hrest. lia.
  - intros Hn. destruct (Hflag Hn) as [He Hs]. split; [done|]. intros i x y Hij Hx Hy.
    destruct (decide (i = j)) as [->|]; [|apply (Hs i); [lia|done|done]]. rewrite He in Ha, Hb.
    by replace x with a by congruence; replace y with b by congruence.
Qed.

Lemma sort_pass_spec m0 n : wf m0 → n < size_ m0 →
  ∃ m need, sort_pass lt asc n m0 = Ok (m, need) ∧ passed m0 n n m need.
Proof using lt_irrefl lt_trans lt_total.
  intros Hwf Hn. unfold sort_pass.
  edestruct (forO_seq (λ j (r : t * bool), passed m0 n j r.1 r.2)) as ([m need]&->&Hend).
  - split; cbn; try done.
    + intros i x y Hi Hx Hy. replace i with 0 in Hx by lia. rewrite Hx in Hy. injection Hy as <-.
      by apply before_refl.
    + intros i x Hi Hx. by exists i.
    + intros _. split; [done|]. intros i x y Hi. lia.
  - intros j [m need] Hj Hp. cbn [fst snd] in Hp. pose proof (ps_wf _ _ _ _ _ Hp) as Hwf'.
    pose proof (length_items m Hwf') as Hlen. rewrite (ps_size _ _ _ _ _ Hp) in Hlen.
    destruct (lookup_lt_is_Some_2 (items m) j ltac:(lia)) as [a Ha].
    destruct (lookup_lt_is_Some_2 (items m) (S j) ltac:(lia)) as [b Hb].
    rewrite !GetByIndex_spec, Nat.add_1_r, Ha, Hb by done. cbn [bindO].
    assert ((asc && lt b.1 a.1) || (negb asc && lt a.1 b.1) = negb (bool_decide (bef a.1 b.1))) as Hcond.
    { unfold before. case_bool_decide as Hbd; destruct asc; cbn; rewrite ?orb_false_r; [done|done| |];
        by apply not_false_is_true in Hbd. }
    destruct (decide (bef a.1 b.1)) as [Hbef|Hbef].
    + rewrite bool_decide_eq_true_2 in Hcond by done. apply orb_false_iff in Hcond as [-> ->].
      eexists. split; [done|]. cbn. by eapply pass_keep.
    + rewrite bool_decide_eq_false_2 in Hcond by done.
      destruct (pass_swap m0 n j m need a b Hp ltac:(lia) Ha Hb Hbef) as (m'&Hs&Hp').
      exists (m', true). split; [|done].
      destruct (asc && lt b.1 a.1); [by rewrite Hs|]. cbn in Hcond. by rewrite Hcond, Hs.
  - cbn in Hend. eauto.
Qed.

(** The last [i] positions are final. *)
Definition settled (m : t) (i : nat) : Prop :=
  ∀ a b x y, a < b → size_ m ≤ b + i → items m !! a = Some x → items m !! b = Some y → bef x.1 y.1.

Lemma adjacent_sorted (l : list (K * V)) n :
  (∀ i x y, i < n → l !! i = Some x → l !! S i = Some y → bef x.1 y.1) →
  ∀ a b x y, a < b → b ≤ n → l !! a = Some x → l !! b = Some y → bef x.1 y.1.
Proof using lt_trans lt_total.
  intros Hadj a b. induction b as [|b IH]; intros x y Hab Hb Hx Hy; [lia|].
  destruct (decide (a = b)) as [->|Hne]; [apply (Hadj b); [lia|done|done]|].
  destruct (lookup_lt_is_Some_2 l b) as [z Hz]; [apply lookup_lt_Some in Hy; lia|].
  apply (before_trans asc x.1 z.1 y.1).
  - apply IH; [lia|lia|done|done].
  - by apply (Hadj b); [lia|..].
Qed.

Lemma pass_settles m0 i m need : settled m0 i → i < size_ m0 → wf m0 →
  passed m0 (size_ m0 - i - 1) (size_ m0 - i - 1) m need → settled m (S i).
Proof.
  intros Hset Hi Hwf0 [Hwf Hsz Hp Hlast Hrest Hfrom Hflag] a b x y Hab Hb Hx Hy.
  destruct (decide (b = size_ m0 - i - 1)) as [->|Hne]; [apply (Hlast a); [lia|done|done]|].
  assert (size_ m0 - i - 1 < b) as Hlt by (rewrite Hsz in Hb; lia).
  rewrite Hrest in Hy by done. destruct (decide (a ≤ size_ m0 - i - 1)) as [Ha|Ha].
  - destruct (Hfrom a x Ha Hx) as (a'&Ha'&Hx'). apply (Hset a' b); [lia|lia|done|done].
  - rewrite Hrest in Hx by lia. apply (Hset a b); [lia|lia|done|done].
Qed.

Lemma sort_loop_spec k i m0 : wf m0 → settled m0 i → i + k = size_ m0 - 1 → 0 < size_ m0 →
  ∃ m, sort_loop lt k i asc m0 = Ok m ∧ wf m ∧ size_ m = size_ m0 ∧ items m ≡ₚ items m0 ∧
    settled m (size_ m0).
Proof using lt_irrefl lt_trans lt_total.
  revert i m0. induction k as [|k IH]; intros i m0 Hwf Hset Hik Hpos; cbn [sort_loop].
  - exists m0. split_and!; try done. intros a b x y Hab _. apply Hset; lia.
  - destruct (sort_pass_spec m0 (size_ m0 - i - 1) Hwf ltac:(lia)) as (m&need&Hs&Hp).
    unfold Size. rewrite Hs. cbn [bindO fst snd]. pose proof (pass_settles m0 i m need Hset ltac:(lia) Hwf Hp) as Hset'.
    pose proof Hp as [Hwf' Hsz Hpm _ _ _ Hflag]. destruct need; cbn [negb].
    + destruct (IH (S i) m Hwf' Hset') as (m'&->&Hw&Hz&Hpp&Hss); [lia|lia|].
      exists m'. split_and!; [done|done|congruence|by rewrite Hpp|by rewrite <- Hsz].
    + exists m. split_and!; try done. destruct (Hflag eq_refl) as [He Hadj]. rewrite He in *.
      intros a b x y Hab _ Hx Hy. rewrite He in Hx, Hy.
      destruct (decide (b ≤ size_ m0 - i - 1)) as [Hb|Hb].
      * by eapply (adjacent_sorted (items m0) (size_ m0 - i - 1)).
      * apply (Hset a b); [lia|lia|done|done].
Qed.

Lemma sort_func_spec m0 : wf m0 →
  ∃ m, sort_func lt asc m0 = Ok m ∧ wf m ∧ size_ m = size_ m0 ∧ items m ≡ₚ items m0 ∧
    ∀ a b x y, a < b → items m !! a = Some x → items m !! b = Some y → bef x.1 y.1.
Proof using lt_irrefl lt_trans lt_total.
  intros Hwf. unfold sort_func, Size. destruct (Nat.eqb_spec (size_ m0) 0) as [H0|H0].
  - exists m0. split_and!; try done. intros a b x y _ Hx. apply lookup_lt_Some in Hx.
    rewrite length_items in Hx by done. lia.
  - destruct (sort_loop_spec (size_ m0 - 1) 0 m0 Hwf) as (m&->&Hw&Hz&Hp&Hs); [|lia|lia|].
    { intros a b x y Hab Hb Hx Hy. apply lookup_lt_Some in Hy. rewrite length_items in Hy by done. lia. }
    exists m. split_and!; try done. intros a b x y Hab. apply Hs; [done|lia].
Qed.

End SortSpec.
End Map.
End ConstexprMap.

Section Properties.
Import ConstexprMap.
Context {K V : Type} `{EqDecision K} (MaxSize : nat).

(** C21 [ConstexprMap] is a map that keeps the order of insertion: each operation keeps the
    invariant (the array has its length, the keys in use are distinct) and does to
    the list of elements what it should; assigning to a new key of a full map and
    reading a missing key or index throw. *)
Theorem constexpr_map_correct (this : t (K := K) (V := V)) (key : K) (value : V) :
  wf MaxSize this →
  (key ∈ (items this).*1 → ∃ this', assign key value this = Ok this' ∧ wf MaxSize this' ∧
     items this' = set_value key value (items this)) ∧
  (key ∉ (items this).*1 → size_ this < MaxSize → ∃ this', assign key value this = Ok this' ∧
     wf MaxSize this' ∧ items this' = items this ++ [(key, value)]) ∧
  (key ∉ (items this).*1 → size_ this = MaxSize →
     assign key value this = Fail (Exn (RuntimeError "Map is full"))) ∧
  (∃ this', Erase key this = Ok (bool_decide (key ∈ (items this).*1), this') ∧ wf MaxSize this' ∧
     items this' = filter (λ p, p.1 ≠ key) (items this)) ∧
  Find key this = bool_decide (key ∈ (items this).*1) ∧
  (∀ v, (key, v) ∈ items this → operator_index_const key this = Ok v) ∧
  (key ∉ (items this).*1 → operator_index_const key this = Fail (Exn (RuntimeError "Key is missing"))) ∧
  (∀ pos, GetByIndex pos this = match items this !! pos with
     | Some p => Ok p | None => Fail (Exn (RuntimeError "Wrong index")) end) ∧
  Size this = length (items this).
Proof.
  intros Hwf. destruct (assign_spec MaxSize key value this Hwf) as (H1&H2&H3).
  destruct (lookup_spec MaxSize key this Hwf) as (H4&H5&H6).
  destruct (Erase_spec MaxSize key this Hwf) as (b&this'&He&Hw&->&Hi).
  split_and!; try done; [by exists this'| |by rewrite (length_items MaxSize)].
  intros pos. by apply (GetByIndex_spec MaxSize).
Qed.

(** [Sort] returns the same elements in order, ascending, or descending when the key
    type is integral, for any strict total order on the keys; it reads no index out
    of range. *)
Theorem constexpr_sort_correct (lt : K → K → bool) (is_integral : bool) (map : t (K := K) (V := V)) :
  (∀ x, lt x x = false) → (∀ x y z, lt x y = true → lt y z = true → lt x z = true) →
  (∀ x y, lt x y = false → lt y x = false → x = y) → wf MaxSize map →
  ∃ sorted, Sort lt is_integral map = Ok sorted ∧ wf MaxSize sorted ∧ items sorted ≡ₚ items map ∧
    ∀ a b x y, a < b → items sorted !! a = Some x → items sorted !! b = Some y →
      if is_integral then lt y.1 x.1 = true else lt x.1 y.1 = true.
Proof.
  intros Hirr Htrans Htotal Hwf. unfold Sort.
  destruct (sort_func_spec MaxSize lt Hirr Htrans Htotal (negb is_integral) map Hwf) as (m&Hm&Hw&_&Hp&Hs).
  exists m. split_and!; [done|done|done|]. intros a b x y Hab Hx Hy. specialize (Hs a b x y Hab Hx Hy).
  assert (x.1 ≠ y.1) as Hne.
  { intros Heq. enough (a = b) by lia. eapply (NoDup_lookup (items m).*1); [apply Hw| |];
      by rewrite list_lookup_fmap, ?Hx, ?Hy; cbn; rewrite ?Heq. }
  unfold before in Hs. destruct is_integral; cbn in Hs.
  - destruct (lt y.1 x.1) eqn:E; [done|]. by destruct Hne; apply Htotal.
  - destruct (lt x.1 y.1) eqn:E; [done|]. by destruct Hne; apply Htotal.
Qed.

(** [Erase] leaves the last pair in the array, and [operator[]] of a new key sets only
    the key of the slot: right after an insertion the value is a stale one, not the
    value-initialised one. *)
Theorem constexpr_map_stale (d : K * V) (k1 k2 : K) (v : V) :
  k1 ≠ k2 →
  (m1 <-? assign k1 v (make 1 d) ;; r <-? Erase k1 m1 ;;
   i <-? operator_index k2 r.2 ;; Ok (map_ i.2 !! i.1)) = Ok (Some (k2, v)).
Proof.
  intros Hne. unfold assign, Erase, operator_index, find_index. cbn.
  by rewrite decide_True by done.
Qed.
End Properties.

Section Witnesses.
Import ConstexprMap.

(** [{2, 20}, {1, 10}], with room for one more. *)
Definition two_keys : t (K := Z) (V := Z) := mk [(2, 20); (1, 10); (0, 0)]%Z 2.

Lemma two_keys_wf : wf 3 two_keys.
Proof. split; [reflexivity|cbn; lia|]. cbn. repeat constructor; rewrite ?list_elem_of_singleton, ?elem_of_nil; lia. Qed.

Lemma constexpr_map_correct_witness :
  ∃ this', assign 5%Z 50%Z two_keys = Ok this' ∧ items this' = [(2, 20); (1, 10); (5, 50)]%Z.
Proof.
  destruct (constexpr_map_correct 3 two_keys 5%Z 50%Z two_keys_wf) as (_&H&_).
  destruct H as (this'&H1&_&H2).
  - cbn. rewrite !elem_of_cons, elem_of_nil. lia.
  - cbn. lia.
  - exists this'. split; [exact H1|exact H2].
Defined.

Lemma constexpr_sort_correct_witness : ∃ sorted, Sort Z.ltb false two_keys = Ok sorted ∧
  items sorted ≡ₚ items two_keys.
Proof.
  destruct (constexpr_sort_correct 3 Z.ltb false two_keys) as (sorted&H1&_&H2&_).
  - intros x. apply Z.ltb_irrefl.
  - intros x y z. rewrite !Z.ltb_lt. lia.
  - intros x y. rewrite !Z.ltb_ge. lia.
  - exact two_keys_wf.
  - exists sorted. split; [exact H1|exact H2].
Defined.

Lemma constexpr_map_stale_witness :
  (m1 <-? assign 1%Z 10%Z (make 1 (0, 0)%Z) ;; r <-? Erase 1%Z m1 ;;
   i <-? operator_index 2%Z r.2 ;; Ok (map_ i.2 !! i.1)) = Ok (Some (2, 10)%Z).
Proof. apply (constexpr_map_stale (0, 0)%Z 1%Z 2%Z 10%Z). lia. Defined.
End Witnesses.
