(* ===== verification/TimerHeap.v ===== *)
(** * Timers of the fiber library (tools/cactus/core/timer.h, timer.cpp)

    [TimerHeap] is a binary heap of deadlines whose entries point to timers, and
    each timer keeps its place in the heap, so that it can be taken out before it
    expires.  The part of the scheduler's loop that runs expired timers
    (scheduler.cpp) is here too.  Time points are integers (64-bit counts of
    nanoseconds, only compared). *)

From S2P Require Import Prelude.

Module TimerHeap.

Record HeapEntry : Type := mkEntry { deadline : Z; timer : nat }.

(** The heap with the field [heap_position_] of the timers, -1 for a timer that is
    not in [heap_position_]. *)
Record t : Type := mk { heap_ : list HeapEntry; heap_position_ : gmap nat Z }.

Definition position (tm : nat) (h : t) : Z := default (-1)%Z (heap_position_ h !! tm).

Definition set_position (tm : nat) (p : Z) (h : t) : t := mk (heap_ h) (<[tm := p]> (heap_position_ h)).

(** [heap_[index]] *)
Definition at_ (h : t) (index : nat) : outcome HeapEntry :=
  match heap_ h !! index with Some e => Ok e | None => Fail UB end.

Definition GetMin (h : t) : option nat := timer <$> head (heap_ h).

(** [std::swap(heap_[index], heap_[other])] and the two assignments after it. *)
Definition swap (index other : nat) (h : t) : outcome t :=
  x <-? at_ h index ;; y <-? at_ h other ;;
  let h' := mk (<[other := x]> (<[index := y]> (heap_ h))) (heap_position_ h) in
  x' <-? at_ h' index ;; y' <-? at_ h' other ;;
  Ok (set_position (timer y') (Z.of_nat other) (set_position (timer x') (Z.of_nat index) h')).

Fixpoint SiftUp (fuel index : nat) (h : t) : outcome t :=
  match fuel with
  | O => Fail Fuel
  | S fuel =>
      if decide (0 < index) then
        let parent := (index - 1) / 2 in
        e <-? at_ h index ;; p <-? at_ h parent ;;
        if (deadline e >? deadline p)%Z then Ok h
        else (h' <-? swap index parent h ;; SiftUp fuel parent h')
      else Ok h
  end.

(** One round of the loop over the children. *)
Definition smaller_of (h : t) (smaller child : nat) : outcome nat :=
  if decide (child < length (heap_ h)) then
    s <-? at_ h smaller ;; c <-? at_ h child ;;
    Ok (if (deadline s >? deadline c)%Z then child else smaller)
  else Ok smaller.

Fixpoint SiftDown (fuel index : nat) (h : t) : outcome t :=
  match fuel with
  | O => Fail Fuel
  | S fuel =>
      first <-? smaller_of h index (index * 2 + 1) ;;
      smaller <-? smaller_of h first (index * 2 + 2) ;;
      if decide (smaller ≠ index) then (h' <-? swap index smaller h ;; SiftDown fuel smaller h')
      else Ok h
  end.

(** The loops run at most as often as there are entries. *)
Definition fuel_of (h : t) : nat := S (length (heap_ h)).

Definition IsActive (tm : nat) (h : t) : bool := negb (position tm h =? -1)%Z.

(** [DCHECK] ends the program. *)
Definition GetDeadline (tm : nat) (h : t) : outcome Z :=
  if (position tm h =? -1)%Z then Fail Abort
  else (e <-? at_ h (Z.to_nat (u64 (position tm h))) ;; Ok (deadline e)).

(** [heap_position_] is an [int]. *)
Definition Activate (tm : nat) (d : Z) (h : t) : outcome t :=
  let h' := mk (heap_ h ++ [mkEntry d tm]) (heap_position_ h) in
  let p := s32 (u64 (Z.of_nat (length (heap_ h')) - 1)) in
  SiftUp (fuel_of h') (Z.to_nat (u64 p)) (set_position tm p h').

(** [heap_->heap_.pop_back()] *)
Definition pop_back (h : t) : outcome t :=
  match last (heap_ h) with
  | Some _ => Ok (mk (take (length (heap_ h) - 1) (heap_ h)) (heap_position_ h))
  | None => Fail UB
  end.

Definition back (h : t) : outcome HeapEntry :=
  match last (heap_ h) with Some e => Ok e | None => Fail UB end.

Definition Deactivate (tm : nat) (h : t) : outcome t :=
  if (position tm h =? -1)%Z then Ok h
  else
    let pos := u64 (position tm h) in
    let index := Z.to_nat pos in
    let h := set_position tm (-1) h in
    if (pos =? u64 (Z.of_nat (length (heap_ h)) - 1))%Z then pop_back h
    else
      b <-? back h ;; _ <-? at_ h index ;;
      let h1 := mk (<[index := b]> (heap_ h)) (heap_position_ h) in
      e <-? at_ h1 index ;;
      h2 <-? pop_back (set_position (timer e) (s32 pos) h1) ;;
      h3 <-? SiftDown (fuel_of h2) index h2 ;;
      SiftUp (fuel_of h3) index h3.

(** [~Timer] *)
Definition destroy (tm : nat) (h : t) : outcome t := if IsActive tm h then Deactivate tm h else Ok h.

(** [Scheduler::RunLoop] takes the expired timers out one by one and calls
    [OnExpired], none of which starts a timer; the result is the list of the timers
    whose [OnExpired] was called, in order. *)
Fixpoint RunExpired (fuel : nat) (now : Z) (h : t) : outcome (list nat * t) :=
  match fuel with
  | O => Fail Fuel
  | S fuel =>
      match GetMin h with
      | None => Ok ([], h)
      | Some next_timer =>
          d <-? GetDeadline next_timer h ;;
          if (d <? now)%Z then
            h' <-? Deactivate next_timer h ;; r <-? RunExpired fuel now h' ;; Ok (next_timer :: r.1, r.2)
          else Ok ([], h)
      end
  end.

(** ** The heap as a map from timers to deadlines *)

Definition dl (l : list HeapEntry) (i : nat) : Z := default 0%Z (deadline <$> l !! i).

Definition abs (h : t) : gmap nat Z := list_to_map ((λ e, (timer e, deadline e)) <$> heap_ h).

Definition parent (i : nat) : nat := (i - 1) / 2.

(** Timers and entries point to each other. *)
Definition linked (h : t) : Prop :=
  (∀ i e, heap_ h !! i = Some e → position (timer e) h = Z.of_nat i) ∧
  (∀ tm, position tm h ≠ (-1)%Z →
     ∃ i e, position tm h = Z.of_nat i ∧ heap_ h !! i = Some e ∧ timer e = tm) ∧
  (Z.of_nat (length (heap_ h)) <= 2 ^ 31)%Z.

Definition heap_ordered (l : list HeapEntry) : Prop :=
  ∀ j, 0 < j < length l → (dl l (parent j) <= dl l j)%Z.

Definition wf (h : t) : Prop := linked h ∧ heap_ordered (heap_ h).

Lemma parent_lt i : 0 < i → parent i < i.
Proof. unfold parent. intros. apply Nat.Div0.div_lt_upper_bound; lia. Qed.

Lemma parent_child i j : 0 < j → parent j = i ↔ j = i * 2 + 1 ∨ j = i * 2 + 2.
Proof.
  unfold parent. intros Hj. pose proof (Nat.div_mod (j - 1) 2 ltac:(lia)).
  pose proof (Nat.mod_upper_bound (j - 1) 2 ltac:(lia)). lia.
Qed.

Lemma at_lt h i : i < length (heap_ h) → ∃ e, at_ h i = Ok e ∧ heap_ h !! i = Some e.
Proof. intros [e He]%lookup_lt_is_Some. exists e. unfold at_. by rewrite He. Qed.

Lemma dl_lookup l i e : l !! i = Some e → dl l i = deadline e.
Proof. unfold dl. by intros ->. Qed.

Lemma position_set tm p h tm' :
  position tm' (set_position tm p h) = if decide (tm' = tm) then p else position tm' h.
Proof.
  unfold position, set_position. cbn. case_decide as Heq.
  - subst. by rewrite lookup_insert_eq.
  - by rewrite lookup_insert_ne.
Qed.

Lemma linked_unique h i j e e' :
  linked h → heap_ h !! i = Some e → heap_ h !! j = Some e' → timer e = timer e' → i = j.
Proof. intros (Hl&_&_) Hi%Hl Hj%Hl Heq. rewrite Heq in Hi. lia. Qed.

Lemma linked_NoDup h : linked h → NoDup (timer <$> heap_ h).
Proof.
  intros Hl. apply NoDup_alt. intros i j tm Hi Hj.
  apply list_lookup_fmap_Some in Hi as (e&->&Hi), Hj as (e'&He'&Hj).
  by apply (linked_unique h i j e e').
Qed.

(** [h'] has the entries of [h] in another order. *)
Definition rearranged (h h' : t) : Prop := linked h' ∧ heap_ h' ≡ₚ heap_ h.

Lemma rearranged_length h h' : rearranged h h' → length (heap_ h') = length (heap_ h).
Proof. intros [_ Hp]. by rewrite Hp. Qed.

Lemma rearranged_trans h h1 h2 : rearranged h h1 → rearranged h1 h2 → rearranged h h2.
Proof. intros [_ Hp] [? Hp']. split; [done|]. by rewrite Hp'. Qed.

Lemma abs_perm h h' : rearranged h h' → abs h' = abs h.
Proof.
  intros [Hl Hp]. apply list_to_map_proper; [|by rewrite Hp].
  rewrite <- list_fmap_compose. by apply (linked_NoDup h').
Qed.

Lemma swap_ok h i j :
  linked h → i ≠ j → i < length (heap_ h) → j < length (heap_ h) →
  ∃ h', swap i j h = Ok h' ∧ rearranged h h' ∧
    ∀ k, dl (heap_ h') k = if decide (k = i) then dl (heap_ h) j
                           else if decide (k = j) then dl (heap_ h) i else dl (heap_ h) k.
Proof.
  intros Hh Hne Hi Hj. destruct (at_lt h i Hi) as (x&Hx&Hx'), (at_lt h j Hj) as (y&Hy&Hy').
  assert (timer x ≠ timer y) as Hxy by (intros ?; by destruct Hne; eapply linked_unique).
  pose proof Hh as (Hl&Ht&Hs).
  assert (∀ k, <[j:=x]> (<[i:=y]> (heap_ h)) !! k =
     if decide (k = i) then Some y else if decide (k = j) then Some x else heap_ h !! k) as Hk.
  { intros k. repeat case_decide; subst; rewrite ?list_lookup_insert_ne by done;
      by rewrite ?list_lookup_insert_eq by (rewrite ?length_insert; lia). }
  eexists. split_and!.
  - unfold swap. rewrite Hx. cbn [bindO]. rewrite Hy. cbn [bindO]. unfold at_. cbn [heap_].
    rewrite !Hk, (decide_True (P := i = i)), (decide_False (P := j = i)), (decide_True (P := j = j)) by done.
    cbn [bindO]. reflexivity.
  - split; [split_and!|].
    + intros k e. cbn [heap_ set_position]. rewrite Hk, !position_set.
      repeat case_decide; intros He; try (injection He as <-); subst; try done; try congruence; try by apply Hl.
      * destruct H. by apply (linked_unique h k i e x).
      * destruct H0. by apply (linked_unique h k j e y).
    + intros tm. rewrite !position_set. cbn [heap_ set_position]. intros Htm.
      repeat case_decide; subst; [exists j, x|exists i, y|].
      * by rewrite Hk, decide_False, decide_True.
      * by rewrite Hk, decide_True.
      * destruct (Ht tm Htm) as (k&e&Hp&He&<-). exists k, e. split_and!; [done| |done].
        rewrite Hk, !decide_False; [done| |]; intros ->; congruence.
    + cbn. by rewrite !length_insert.
    + cbn. by apply Permutation_insert_swap.
  - intros k. unfold dl. cbn [heap_ set_position]. rewrite Hk.
    repeat case_decide; by rewrite ?Hx', ?Hy'.
Qed.

Lemma SiftUp_ok fuel i h :
  linked h → i < fuel → i < length (heap_ h) →
  (∀ j, 0 < j < length (heap_ h) → j ≠ i → (dl (heap_ h) (parent j) <= dl (heap_ h) j)%Z) →
  (∀ j, 0 < j < length (heap_ h) → parent j = i → 0 < i →
     (dl (heap_ h) (parent i) <= dl (heap_ h) j)%Z) →
  ∃ h', SiftUp fuel i h = Ok h' ∧ rearranged h h' ∧ heap_ordered (heap_ h').
Proof.
  revert i h. induction fuel as [|fuel IH]; intros i h Hl Hf Hi Ha Hb; [lia|]. cbn [SiftUp].
  case_decide as H0.
  2:{ exists h. split_and!; [done|by split|]. intros j Hj. apply Ha; lia. }
  pose proof (parent_lt i H0) as Hp. fold (parent i).
  destruct (at_lt h i Hi) as (e&->&He), (at_lt h (parent i) ltac:(lia)) as (p&->&Hpe). cbn [bindO].
  apply dl_lookup in He, Hpe. destruct (Z.gtb_spec (deadline e) (deadline p)) as [Hgt|Hle].
  { exists h. split_and!; [done|by split|]. intros j Hj.
    destruct (decide (j = i)) as [->|]; [lia|by apply Ha]. }
  destruct (swap_ok h i (parent i)) as (h1&->&Hr&Hd); [done|lia|lia|lia|]. cbn [bindO].
  pose proof (rearranged_length _ _ Hr) as Hlen.
  destruct (IH (parent i) h1) as (h2&->&Hr2&Ho).
  - apply Hr.
  - lia.
  - lia.
  - rewrite Hlen. intros j Hj Hne. pose proof (parent_lt j ltac:(lia)).
    rewrite !Hd, (decide_False (P := j = parent i)) by done.
    destruct (decide (j = i)) as [->|Hji].
    { rewrite decide_False, decide_True by lia. lia. }
    destruct (decide (parent j = i)) as [Hpj|Hpj]; [by apply Hb; lia|].
    assert (dl (heap_ h) (parent j) <= dl (heap_ h) j)%Z as Hle' by (apply Ha; lia).
    destruct (decide (parent j = parent i)) as [Hpp|]; [|done]. rewrite Hpp in Hle'. lia.
  - rewrite Hlen. intros j Hj Hpj H0p. pose proof (parent_lt (parent i) ltac:(lia)).
    pose proof (parent_lt j ltac:(lia)).
    rewrite !Hd, !(decide_False (P := parent (parent i) = _)), (decide_False (P := j = parent i)) by lia.
    assert (dl (heap_ h) (parent (parent i)) <= dl (heap_ h) (parent i))%Z by (apply Ha; lia).
    destruct (decide (j = i)); [lia|].
    assert (dl (heap_ h) (parent j) <= dl (heap_ h) j)%Z as Hle' by (apply Ha; lia).
    rewrite Hpj in Hle'. lia.
  - exists h2. split_and!; [done|by eapply rearranged_trans|done].
Qed.

(** What the loop over the children finds. *)
Lemma smaller_ok h i :
  i < length (heap_ h) →
  ∃ f s, smaller_of h i (i * 2 + 1) = Ok f ∧ smaller_of h f (i * 2 + 2) = Ok s ∧
    s < length (heap_ h) ∧ (dl (heap_ h) s <= dl (heap_ h) i)%Z ∧
    (s ≠ i → 0 < s ∧ parent s = i ∧ (dl (heap_ h) s < dl (heap_ h) i)%Z) ∧
    ∀ j, 0 < j < length (heap_ h) → parent j = i → (dl (heap_ h) s <= dl (heap_ h) j)%Z.
Proof.
  intros Hi.
  assert (∀ a c, a < length (heap_ h) → ∃ b, smaller_of h a c = Ok b ∧ b < length (heap_ h) ∧
    (b = a ∨ b = c ∧ (dl (heap_ h) c < dl (heap_ h) a)%Z) ∧ (dl (heap_ h) b <= dl (heap_ h) a)%Z ∧
    (c < length (heap_ h) → (dl (heap_ h) b <= dl (heap_ h) c)%Z)) as Hsm.
  { intros a c Ha. unfold smaller_of. case_decide as Hc.
    - destruct (at_lt h a Ha) as (x&->&Hx%dl_lookup), (at_lt h c Hc) as (y&->&Hy%dl_lookup). cbn [bindO].
      destruct (Z.gtb_spec (deadline x) (deadline y)); eexists; split_and!; try reflexivity; lia || auto.
    - exists a. split_and!; auto; lia. }
  destruct (Hsm i (i * 2 + 1) Hi) as (f&Hf&Hfl&Hfi&Hfle&Hfc).
  destruct (Hsm f (i * 2 + 2) Hfl) as (s&Hs&Hsl&Hsf&Hsle&Hsc).
  exists f, s. split_and!; [done|done|done|lia| |].
  - intros Hne. assert (s = i * 2 + 1 ∨ s = i * 2 + 2) as Hs'
      by (destruct Hfi as [->|[-> _]], Hsf as [->|[-> _]]; auto; done).
    split_and!; [lia|by apply parent_child; lia|]. destruct Hfi as [->|[-> ?]], Hsf as [->|[-> ?]]; lia || done.
  - intros j Hj Hp. apply parent_child in Hp as [->| ->]; [| |lia].
    + specialize (Hfc ltac:(lia)). lia.
    + apply Hsc. lia.
Qed.

(** [SiftDown] from [p], now at [i], leaves the heap in order but for [p] and the entry
    above it. *)
Lemma SiftDown_ok fuel p i h :
  linked h → length (heap_ h) < fuel + i → p ≤ i → i < length (heap_ h) →
  (∀ j, 0 < j < length (heap_ h) → parent j ≠ i → j ≠ p →
     (dl (heap_ h) (parent j) <= dl (heap_ h) j)%Z) →
  (∀ j, 0 < j < length (heap_ h) → parent j = i → 0 < i →
     (dl (heap_ h) (parent i) <= dl (heap_ h) j)%Z) →
  (i = p ∨ (0 < p → (dl (heap_ h) (parent p) <= dl (heap_ h) p)%Z)) →
  ∃ h', SiftDown fuel i h = Ok h' ∧ rearranged h h' ∧
    (∀ j, 0 < j < length (heap_ h) → j ≠ p → (dl (heap_ h') (parent j) <= dl (heap_ h') j)%Z) ∧
    (∀ j, 0 < j < length (heap_ h) → parent j = p → 0 < p →
       (dl (heap_ h') (parent p) <= dl (heap_ h') j)%Z).
Proof.
  revert i h. induction fuel as [|fuel IH]; intros i h Hl Hf Hpi Hi Ha Hb Hc; [lia|]. cbn [SiftDown].
  destruct (smaller_ok h i Hi) as (f&s&->&Hs&Hsl&Hle&Hnew&Hmin). cbn [bindO]. rewrite Hs. cbn [bindO].
  case_decide as Hne.
  2:{ subst s. exists h.
      assert (∀ j, 0 < j < length (heap_ h) → j ≠ p → (dl (heap_ h) (parent j) <= dl (heap_ h) j)%Z) as Ha'.
      { intros j Hj Hjp. destruct (decide (parent j = i)) as [Hpj|]; [|by apply Ha].
        rewrite Hpj. by apply Hmin. }
      split_and!; [done|by split|done|]. intros j Hj Hpj H0. destruct Hc as [->|Hc]; [by apply Hb|].
      transitivity (dl (heap_ h) p); [by apply Hc|]. pose proof (parent_lt j ltac:(lia)).
      rewrite <- Hpj. apply Ha'; lia. }
  destruct (Hnew Hne) as (Hs0&Hps&Hlt). pose proof (parent_lt s Hs0).
  destruct (swap_ok h i s) as (h1&->&Hr&Hd); [done|lia|lia|lia|]. cbn [bindO].
  pose proof (rearranged_length _ _ Hr) as Hlen.
  destruct (IH s h1) as (h2&->&Hr2&Ha2&Hb2).
  - apply Hr.
  - lia.
  - lia.
  - lia.
  - rewrite Hlen. intros j Hj Hpj Hjp. pose proof (parent_lt j ltac:(lia)).
    rewrite !Hd, (decide_False (P := parent j = s)) by done.
    destruct (decide (parent j = i)) as [Hji|Hji].
    { rewrite (decide_False (P := j = i)) by lia. destruct (decide (j = s)); [lia|by apply Hmin]. }
    destruct (decide (j = i)) as [->|Hne']; [by apply Hb; lia|].
    rewrite decide_False by (intros ->; lia). by apply Ha.
  - rewrite Hlen. intros j Hj Hpj _. pose proof (parent_lt j ltac:(lia)).
    rewrite !Hd, Hps, decide_True, !decide_False by lia. rewrite <- Hpj. apply Ha; lia.
  - right. intros H0. pose proof (parent_lt p H0).
    rewrite !Hd, !(decide_False (P := parent p = _)), (decide_False (P := p = s)) by lia.
    destruct (decide (p = i)) as [->|]; [by apply Hb|]. destruct Hc as [->|Hc]; [done|by apply Hc].
  - rewrite Hlen in Ha2, Hb2. exists h2. split_and!; [done|by eapply rearranged_trans|done|done].
Qed.

Lemma abs_lookup h tm d :
  linked h → abs h !! tm = Some d ↔ ∃ i, heap_ h !! i = Some (mkEntry d tm).
Proof.
  intros Hl. unfold abs. rewrite <- elem_of_list_to_map.
  - rewrite list_elem_of_fmap. split.
    + intros ([d' tm']&[= -> ->]&[i Hi]%list_elem_of_lookup_1). by exists i.
    + intros [i Hi%list_elem_of_lookup_2]. by exists (mkEntry d tm).
  - rewrite <- list_fmap_compose. by apply (linked_NoDup h).
Qed.

Lemma active_abs h tm : linked h → position tm h ≠ (-1)%Z ↔ is_Some (abs h !! tm).
Proof.
  intros Hl. split.
  - intros (i&[d tm']&_&He&<-)%(proj1 (proj2 Hl)). exists d. apply abs_lookup; [done|by exists i].
  - intros [d [i Hi]%abs_lookup]; [|done]. apply Hl in Hi. cbn in Hi. lia.
Qed.

Lemma min_ok h i :
  heap_ordered (heap_ h) → i < length (heap_ h) → (dl (heap_ h) 0 <= dl (heap_ h) i)%Z.
Proof.
  intros Ho. induction (lt_wf i) as [i _ IH]. intros Hi. destruct (decide (i = 0)) as [->|]; [done|].
  pose proof (parent_lt i ltac:(lia)). transitivity (dl (heap_ h) (parent i)); [apply IH; lia|apply Ho; lia].
Qed.

Lemma abs_insert h h' d tm :
  linked h → linked h' → heap_ h' ≡ₚ mkEntry d tm :: heap_ h → abs h' = <[tm := d]> (abs h).
Proof.
  intros Hl Hl' Hp. unfold abs. rewrite <- list_to_map_cons. apply list_to_map_proper; [|by rewrite Hp].
  rewrite <- list_fmap_compose. by apply (linked_NoDup h').
Qed.

Lemma abs_delete h h' d tm :
  linked h → linked h' → heap_ h ≡ₚ mkEntry d tm :: heap_ h' → abs h' = delete tm (abs h).
Proof.
  intros Hl Hl' Hp. rewrite (abs_insert h' h d tm) by done.
  rewrite delete_insert_id; [done|]. apply not_elem_of_list_to_map_1.
  pose proof (linked_NoDup h Hl) as Hd. rewrite Hp in Hd. apply NoDup_cons in Hd as [Hd _].
  by rewrite <- list_fmap_compose.
Qed.

Lemma Activate_ok h tm d :
  wf h → position tm h = (-1)%Z → (Z.of_nat (length (heap_ h)) < 2 ^ 31)%Z →
  ∃ h', Activate tm d h = Ok h' ∧ wf h' ∧ abs h' = <[tm := d]> (abs h).
Proof.
  intros [Hl Ho] Htm Hlen. pose proof Hl as (Hl1&Hl2&_).
  set (h1 := set_position tm (Z.of_nat (length (heap_ h))) (mk (heap_ h ++ [mkEntry d tm]) (heap_position_ h))).
  assert (linked h1) as Hl'.
  { split_and!.
    - intros i e. unfold h1. rewrite position_set. cbn. intros [Hi|[Hi He]]%lookup_app_Some.
      + rewrite decide_False; [by apply Hl1|]. intros Heq. apply Hl1 in Hi. rewrite Heq in Hi.
        unfold position in *. lia.
      + apply list_lookup_singleton_Some in He as [Hz <-]. rewrite decide_True by done. lia.
    - intros tm'. unfold h1. rewrite position_set. case_decide as Heq.
      + intros _. exists (length (heap_ h)), (mkEntry d tm). subst. split_and!; [done| |done].
        cbn. by rewrite lookup_app_r, Nat.sub_diag by lia.
      + intros (i&e&?&He&?)%Hl2. exists i, e. split_and!; [done| |done]. by apply lookup_app_l_Some.
    - cbn. rewrite length_app. cbn. lia. }
  destruct (SiftUp_ok (fuel_of h1) (length (heap_ h)) h1) as (h2&Hs&Hr&Ho2).
  - done.
  - unfold fuel_of. cbn. rewrite length_app. cbn. lia.
  - cbn. rewrite length_app. cbn. lia.
  - cbn [heap_ h1 set_position]. rewrite length_app. cbn [length]. intros j Hj Hne. pose proof (parent_lt j ltac:(lia)).
    unfold dl. rewrite !lookup_app_l by lia. apply Ho. lia.
  - cbn [heap_ h1 set_position]. rewrite length_app. cbn [length]. intros j Hj Hp H0. pose proof (parent_lt j ltac:(lia)). lia.
  - exists h2. split_and!; [|by split; [apply Hr|]|].
    + unfold Activate. cbn [heap_]. rewrite length_app. cbn [length].
      replace (Z.of_nat (length (heap_ h) + 1) - 1)%Z with (Z.of_nat (length (heap_ h))) by lia.
      rewrite (uwrap_small 64 (Z.of_nat _)) by lia. rewrite swrap_small by lia.
      rewrite uwrap_small by lia. by rewrite Nat2Z.id.
    + rewrite (abs_perm h1) by done. apply (abs_insert h h1); [done|done|]. cbn.
      by rewrite Permutation_app_comm.
Qed.

(** Taking the last entry out, and putting it into the place of another one. *)
Lemma snoc_of h i e : heap_ h !! i = Some e → ∃ l b, heap_ h = l ++ [b].
Proof. destruct (heap_ h) as [|b l _] using rev_ind; [done|by eauto]. Qed.

Lemma linked_pop pos l b :
  linked (mk (l ++ [b]) pos) → linked (mk l (<[timer b := (-1)%Z]> pos)).
Proof.
  intros (Hl1&Hl2&Hs). split_and!.
  - intros i e Hi. change (position (timer e) (set_position (timer b) (-1) (mk l pos)) = Z.of_nat i).
    rewrite position_set. cbn [heap_] in *. pose proof (lookup_lt_Some _ _ _ Hi). rewrite decide_False.
    + apply (Hl1 i e). by apply lookup_app_l_Some.
    + intros Heq. assert (position (timer b) (mk (l ++ [b]) pos) = Z.of_nat (length l)) as Hb
        by (apply Hl1; cbn [heap_]; by rewrite lookup_app_r, Nat.sub_diag).
      pose proof (Hl1 i e (lookup_app_l_Some _ _ _ _ Hi)) as He. rewrite Heq, Hb in He. lia.
  - intros tm. change (position tm _) with (position tm (set_position (timer b) (-1) (mk l pos))).
    rewrite position_set. case_decide as Heq; [done|]. intros (i&e&?&He&?)%Hl2. exists i, e.
    split_and!; [done| |done]. apply lookup_app_Some in He as [He|[_ He]]; [done|].
    apply list_lookup_singleton_Some in He as [_ <-]. done.
  - cbn in *. rewrite length_app in Hs. lia.
Qed.

Lemma linked_replace pos l b i e :
  linked (mk (l ++ [b]) pos) → l !! i = Some e →
  linked (mk (<[i := b]> l) (<[timer b := Z.of_nat i]> (<[timer e := (-1)%Z]> pos))).
Proof.
  intros Hl Hi. pose proof Hl as (Hl1&Hl2&Hs). cbn in Hs.
  pose proof (lookup_lt_Some _ _ _ Hi) as Hlt.
  assert (Hu : ∀ j e', l !! j = Some e' → timer e' ≠ timer b).
  { intros j e' Hj Heq. pose proof (lookup_lt_Some _ _ _ Hj).
    assert (j = length l); [|lia]. eapply (linked_unique _ j (length l) e' b Hl); [| |done].
    - by apply lookup_app_l_Some.
    - cbn. by rewrite lookup_app_r, Nat.sub_diag. }
  assert (Hp : ∀ tm, position tm (mk (<[i:=b]> l) (<[timer b := Z.of_nat i]> (<[timer e := (-1)%Z]> pos)))
    = if decide (tm = timer b) then Z.of_nat i else if decide (tm = timer e) then (-1)%Z
      else position tm (mk (l ++ [b]) pos)).
  { intros tm. transitivity (position tm
      (set_position (timer b) (Z.of_nat i) (set_position (timer e) (-1) (mk (<[i:=b]> l) pos)))); [done|].
    by rewrite !position_set. }
  split_and!.
  - intros j e' Hj. rewrite Hp. cbn in Hj. apply insert_inv in Hj as [[-> ->]|[Hne Hj]].
    + by rewrite decide_True.
    + rewrite !decide_False; [|..].
      * apply (Hl1 j e'). by apply lookup_app_l_Some.
      * intros Heq. destruct Hne. eapply (linked_unique _ j i e' e Hl); [..|done]; by apply lookup_app_l_Some.
      * by eapply Hu.
  - intros tm. rewrite Hp. repeat case_decide; subst; [|done|].
    + intros _. exists i, b. split_and!; [done| |done]. cbn. by rewrite list_lookup_insert_eq.
    + intros (j&e'&?&He&<-)%Hl2. exists j, e'. split_and!; [done| |done]. cbn in *.
      apply lookup_app_Some in He as [He|[_ He]].
      * rewrite list_lookup_insert_ne; [done|]. intros ->. by simplify_eq.
      * by apply list_lookup_singleton_Some in He as [_ <-].
  - cbn. rewrite length_app in Hs. rewrite length_insert. lia.
Qed.

Lemma ordered_prefix l b : heap_ordered (l ++ [b]) → heap_ordered l.
Proof.
  intros Ho j Hj. pose proof (parent_lt j ltac:(lia)). specialize (Ho j).
  rewrite length_app in Ho. unfold dl in *. rewrite !lookup_app_l in Ho by lia. apply Ho. lia.
Qed.

(** The entry of the timer is the last one. *)
Lemma Deactivate_last h l b :
  wf h → heap_ h = l ++ [b] →
  ∃ h', Deactivate (timer b) h = Ok h' ∧ wf h' ∧ abs h' = delete (timer b) (abs h).
Proof.
  intros [Hl Ho] Hh. destruct h as [l' pos]. cbn in Hh. subst l'. pose proof Hl as (Hl1&_&Hs). cbn in Hs.
  rewrite length_app in Hs. cbn in Hs.
  assert (position (timer b) (mk (l ++ [b]) pos) = Z.of_nat (length l)) as Hp
    by (apply Hl1; cbn [heap_]; by rewrite lookup_app_r, Nat.sub_diag).
  exists (mk l (<[timer b := (-1)%Z]> pos)). split_and!.
  - unfold Deactivate. rewrite Hp. rewrite (proj2 (Z.eqb_neq _ _)) by lia.
    unfold set_position. cbn [heap_ heap_position_]. rewrite !uwrap_small by (rewrite ?length_app; cbn; lia).
    rewrite length_app, (proj2 (Z.eqb_eq _ _)) by (cbn; lia). unfold pop_back. cbn [heap_ heap_position_].
    rewrite last_snoc, length_app. cbn [length]. by rewrite Nat.add_sub, take_app_length.
  - split; [by apply linked_pop|]. by eapply ordered_prefix.
  - apply (abs_delete _ _ (deadline b)); [done|by apply linked_pop|]. cbn. destruct b.
    by rewrite Permutation_app_comm.
Qed.

Lemma Deactivate_inner h l b i e :
  wf h → heap_ h = l ++ [b] → l !! i = Some e →
  ∃ h', Deactivate (timer e) h = Ok h' ∧ wf h' ∧ abs h' = delete (timer e) (abs h).
Proof.
  intros [Hl Ho] Hh Hi. destruct h as [l' pos]. cbn in Hh. subst l'. pose proof Hl as (Hl1&_&Hs). cbn in Hs.
  rewrite length_app in Hs. cbn in Hs. pose proof (lookup_lt_Some _ _ _ Hi) as Hlt.
  assert (position (timer e) (mk (l ++ [b]) pos) = Z.of_nat i) as Hp
    by (apply Hl1; by apply lookup_app_l_Some).
  pose proof (linked_replace pos l b i e Hl Hi) as Hl2.
  set (h2 := mk (<[i := b]> l) (<[timer b := Z.of_nat i]> (<[timer e := (-1)%Z]> pos))) in *.
  assert (Hdl : ∀ j, j < length l → j ≠ i → dl (heap_ h2) j = dl (l ++ [b]) j).
  { intros j Hj Hne. unfold dl. cbn. by rewrite list_lookup_insert_ne, lookup_app_l. }
  assert (Ho' : ∀ j, 0 < j < length l → (dl (l ++ [b]) (parent j) <= dl (l ++ [b]) j)%Z).
  { intros j Hj. apply (Ho j). cbn. rewrite length_app. lia. }
  destruct (SiftDown_ok (fuel_of h2) i i h2) as (h3&Hd&Hr&Ha&Hb).
  { done. }
  { unfold fuel_of. lia. }
  { done. }
  { cbn. by rewrite length_insert. }
  { cbn [heap_ h2]. rewrite length_insert. intros j Hj Hpj Hji. pose proof (parent_lt j ltac:(lia)).
    fold (heap_ h2). rewrite !Hdl by lia. by apply Ho'. }
  { cbn [heap_ h2]. rewrite length_insert. intros j Hj Hpj H0. pose proof (parent_lt j ltac:(lia)).
    pose proof (parent_lt i ltac:(lia)). fold (heap_ h2). rewrite !Hdl by lia.
    transitivity (dl (l ++ [b]) i); [by apply Ho'|]. rewrite <- Hpj. by apply Ho'. }
  { by left. }
  pose proof (rearranged_length _ _ Hr) as Hlen. cbn in Hlen. rewrite length_insert in Hlen.
  assert (length (heap_ h2) = length l) as Hlen2 by (cbn; by rewrite length_insert).
  rewrite Hlen2, <- Hlen in Ha, Hb.
  destruct (SiftUp_ok (fuel_of h3) i h3) as (h4&Hu&Hr4&Ho4); [apply Hr|unfold fuel_of; lia|lia|done|done|].
  exists h4. split_and!.
  - unfold Deactivate. rewrite Hp, (proj2 (Z.eqb_neq _ _)) by lia. unfold set_position.
    cbn [heap_ heap_position_]. rewrite length_app. cbn [length]. rewrite !uwrap_small by lia.
    rewrite (proj2 (Z.eqb_neq _ _)) by lia. unfold back, at_. cbn [heap_ heap_position_].
    rewrite last_snoc, Nat2Z.id. cbn [bindO]. rewrite (lookup_app_l_Some _ _ _ _ Hi). cbn [bindO].
    rewrite insert_app_l by lia.
    rewrite lookup_app_l, list_lookup_insert_eq by (rewrite ?length_insert; lia). cbn [bindO].
    unfold pop_back. cbn [heap_ heap_position_]. rewrite last_snoc, length_app, Nat.add_sub, take_app_length.
    cbn [bindO]. rewrite swrap_small by lia. fold h2. rewrite Hd. cbn [bindO]. done.
  - split; [apply Hr4|done].
  - rewrite (abs_perm h3) by done. rewrite (abs_perm h2) by done.
    apply (abs_delete _ _ (deadline e)); [done|done|]. cbn. rewrite insert_take_drop by done.
    rewrite <- (take_drop_middle l i e Hi) at 1. destruct e. solve_Permutation.
Qed.

Lemma Deactivate_ok h tm :
  wf h → ∃ h', Deactivate tm h = Ok h' ∧ wf h' ∧ abs h' = delete tm (abs h).
Proof.
  intros Hwf. destruct (Z.eq_dec (position tm h) (-1)) as [Hp|Hp].
  - exists h. split_and!; [unfold Deactivate; by rewrite Hp|done|]. rewrite delete_id; [done|].
    apply eq_None_not_Some. intros Hs. apply active_abs in Hs; [done|apply Hwf].
  - destruct (proj1 (proj2 (proj1 Hwf)) tm Hp) as (i&e&_&Hi&<-).
    destruct (snoc_of h i e Hi) as (l&b&Hh). rewrite Hh in Hi.
    apply lookup_app_Some in Hi as [Hi|[_ Hi]]; [by eapply Deactivate_inner|].
    apply list_lookup_singleton_Some in Hi as [_ ->]. by eapply Deactivate_last.
Qed.

Lemma GetDeadline_ok h tm d : wf h → abs h !! tm = Some d → GetDeadline tm h = Ok d.
Proof.
  intros [Hl _] [i Hi]%abs_lookup; [|done]. pose proof (lookup_lt_Some _ _ _ Hi). pose proof Hl as (Hl1&_&Hs).
  apply Hl1 in Hi as Hp. cbn in Hp. unfold GetDeadline. rewrite Hp, (proj2 (Z.eqb_neq _ _)) by lia.
  rewrite uwrap_small, Nat2Z.id by lia. unfold at_. by rewrite Hi.
Qed.

Lemma GetMin_ok h :
  wf h → match GetMin h with
         | None => abs h = ∅
         | Some tm => ∃ d, abs h !! tm = Some d ∧ ∀ tm' d', abs h !! tm' = Some d' → (d <= d')%Z
         end.
Proof.
  intros [Hl Ho]. unfold GetMin. destruct (heap_ h) as [|[d tm] l] eqn:Hh; cbn.
  - unfold abs. by rewrite Hh.
  - exists d. split; [apply abs_lookup; [done|]; exists 0; by rewrite Hh|].
    intros tm' d' [i Hi]%abs_lookup; [|done]. pose proof (lookup_lt_Some _ _ _ Hi) as Hlt.
    pose proof (min_ok h i ltac:(by rewrite Hh) Hlt) as Hm.
    rewrite (dl_lookup _ _ _ Hi), (dl_lookup _ 0 (mkEntry d tm)) in Hm by (by rewrite Hh). done.
Qed.

(** What the loop of the scheduler does: the timers called, in the order of their
    deadlines, are those that expired, and they are taken out. *)
Lemma RunExpired_ok fuel now h :
  wf h → size (abs h) < fuel →
  ∃ called h', RunExpired fuel now h = Ok (called, h') ∧ wf h' ∧ NoDup called ∧
    (∀ tm, tm ∈ called ↔ ∃ d, abs h !! tm = Some d ∧ (d < now)%Z) ∧
    (∀ tm d, abs h' !! tm = Some d ↔ abs h !! tm = Some d ∧ (now <= d)%Z) ∧
    (∀ a b x y d d', a ≤ b → called !! a = Some x → called !! b = Some y →
       abs h !! x = Some d → abs h !! y = Some d' → (d <= d')%Z).
Proof.
  revert h. induction fuel as [|fuel IH]; intros h Hwf Hf; [lia|]. cbn [RunExpired].
  pose proof (GetMin_ok h Hwf) as Hmin. destruct (GetMin h) as [tm|].
  2:{ exists [], h. split_and!; [done|done|constructor| | |done].
      - intros tm. rewrite Hmin. split; [by intros ?%elem_of_nil|]. intros (d&Hd&_). by rewrite lookup_empty in Hd.
      - intros tm d. rewrite Hmin, lookup_empty. split; [done|by intros [? _]]. }
  destruct Hmin as (d&Hd&Hmin). rewrite (GetDeadline_ok h tm d) by done. cbn [bindO].
  destruct (Z.ltb_spec d now) as [Hlt|Hge].
  2:{ exists [], h. split_and!; [done|done|constructor| | |done].
      - intros tm'. split; [set_solver|]. intros (d'&?%Hmin&?). lia.
      - intros tm' d'. split; [|by intros [? _]]. intros Hl. split; [done|]. apply Hmin in Hl. lia. }
  destruct (Deactivate_ok h tm Hwf) as (h1&->&Hwf1&Habs). cbn [bindO].
  assert (size (abs h) = S (size (abs h1))) as Hsize.
  { rewrite Habs. rewrite <- (insert_delete_id (abs h) tm d) at 1 by done.
    by rewrite map_size_insert_None by apply lookup_delete_eq. }
  destruct (IH h1 Hwf1 ltac:(lia)) as (called&h2&->&Hwf2&Hnd&Hc&Hk&Hord). rewrite Habs in Hc, Hk, Hord.
  assert (∀ k z, called !! k = Some z → z ≠ tm) as Hne.
  { intros k z (?&[? _]%lookup_delete_Some&_)%list_elem_of_lookup_2%Hc. congruence. }
  exists (tm :: called), h2. split_and!; [done|done|..].
  - constructor; [|done]. intros (d'&Hd'&_)%Hc. by rewrite lookup_delete_eq in Hd'.
  - intros tm'. rewrite elem_of_cons, Hc. split.
    + intros [->|(d'&[? ?]%lookup_delete_Some&?)]; eauto.
    + intros (d'&?&?). destruct (decide (tm' = tm)); [by left|]. right. exists d'. by rewrite lookup_delete_ne.
  - intros tm' d'. rewrite Hk. rewrite lookup_delete_Some. split; [by intros [[_ ?] ?]|]. intros [? ?].
    split_and!; [|done|done]. intros <-. simplify_eq. lia.
  - intros [|a] [|b] x y dx dy Hab; cbn; [..|lia|].
    + intros [= <-] [= <-] ??. by simplify_eq.
    + intros [= <-] _ Hx Hy. simplify_eq. by apply Hmin in Hy.
    + intros Ha Hb Hx Hy.
      apply (Hord a b x y); [lia|done|done|by rewrite lookup_delete_ne by (symmetry; eauto)..].
Qed.

Definition make : t := mk [] ∅.

Lemma timers_make_wf : wf make.
Proof.
  split; [split_and!|].
  - done.
  - intros tm. unfold position. cbn. rewrite lookup_empty. done.
  - cbn. lia.
  - intros j Hj. cbn in Hj. lia.
Qed.

End TimerHeap.

Import TimerHeap.

Section Properties.

(** C22 The heap of timers is a map from the active timers to their deadlines: each
    operation keeps the heap in order and the timers and their entries linked, and
    does to the map what its name says, whatever the order of activations and
    deactivations; [GetMin] is a timer with the least deadline; and the loop of the
    scheduler ends, having called exactly the expired timers, each once and in the
    order of their deadlines. *)
Theorem timer_heap_refines (h : t) (tm : nat) (d now : Z) :
  wf h → (Z.of_nat (length (heap_ h)) < 2 ^ 31)%Z →
  IsActive tm h = bool_decide (is_Some (abs h !! tm)) ∧
  (IsActive tm h = false → ∃ h', Activate tm d h = Ok h' ∧ wf h' ∧ abs h' = <[tm := d]> (abs h)) ∧
  (∃ h', Deactivate tm h = Ok h' ∧ destroy tm h = Ok h' ∧ wf h' ∧ abs h' = delete tm (abs h)) ∧
  GetDeadline tm h = match abs h !! tm with Some d => Ok d | None => Fail Abort end ∧
  match GetMin h with
  | None => abs h = ∅
  | Some m => ∃ d, abs h !! m = Some d ∧ ∀ m' d', abs h !! m' = Some d' → (d <= d')%Z
  end ∧
  ∃ called h', RunExpired (S (size (abs h))) now h = Ok (called, h') ∧ wf h' ∧ NoDup called ∧
    (∀ m, m ∈ called ↔ ∃ d, abs h !! m = Some d ∧ (d < now)%Z) ∧
    (∀ m d, abs h' !! m = Some d ↔ abs h !! m = Some d ∧ (now <= d)%Z) ∧
    (∀ a b x y d d', a ≤ b → called !! a = Some x → called !! b = Some y →
       abs h !! x = Some d → abs h !! y = Some d' → (d <= d')%Z).
Proof.
  intros Hwf Hlen. pose proof (active_abs h tm (proj1 Hwf)) as Hact.
  assert (IsActive tm h = bool_decide (is_Some (abs h !! tm))) as Ha.
  { unfold IsActive. symmetry. destruct (Z.eqb_spec (position tm h) (-1)) as [Hp|Hp]; cbn [negb].
    - apply bool_decide_eq_false. rewrite <- Hact. intros ?. contradiction.
    - apply bool_decide_eq_true. by apply Hact. }
  split_and!; [done| | | |by apply GetMin_ok|by apply RunExpired_ok; [|lia]].
  - intros Hf. apply Activate_ok; [done| |done]. unfold IsActive in Hf.
    by destruct (Z.eqb_spec (position tm h) (-1)).
  - destruct (Deactivate_ok h tm Hwf) as (h'&Hd&Hwf'&Habs). exists h'. split_and!; [done| |done|done].
    unfold destroy. rewrite Ha. case_bool_decide as Hs; [done|]. rewrite <- Hd. unfold Deactivate.
    destruct (Z.eqb_spec (position tm h) (-1)) as [|Hp]; [done|]. by destruct Hs; apply Hact.
  - destruct (abs h !! tm) as [d'|] eqn:Hd; [by apply GetDeadline_ok|]. unfold GetDeadline.
    destruct (Z.eqb_spec (position tm h) (-1)) as [|Hp]; [done|]. apply Hact in Hp as [? ?]. congruence.
Qed.

End Properties.

Section Witnesses.

(** Three timers, of which the second is the first to expire. *)
Definition three_timers : outcome t :=
  h <-? Activate 0 30 make ;; h <-? Activate 1 10 h ;; Activate 2 20 h.

Lemma three_timers_wf : ∃ h, three_timers = Ok h ∧ wf h ∧ length (heap_ h) = 3.
Proof.
  destruct (Activate_ok make 0 30 timers_make_wf eq_refl) as (h1&H1&Hw1&_); [cbn; lia|].
  vm_compute in H1. injection H1 as <-.
  destruct (Activate_ok _ 1 10 Hw1 eq_refl) as (h2&H2&Hw2&_); [cbn; lia|].
  vm_compute in H2. injection H2 as <-.
  destruct (Activate_ok _ 2 20 Hw2 eq_refl) as (h3&H3&Hw3&_); [cbn; lia|].
  vm_compute in H3. injection H3 as <-.
  eexists. split_and!; [vm_compute; reflexivity|exact Hw3|done].
Qed.

Lemma timer_heap_refines_witness :
  ∃ h called h', three_timers = Ok h ∧ RunExpired 4 25 h = Ok (called, h') ∧ wf h' ∧ called = [1; 2].
Proof.
  destruct three_timers_wf as (h&Hh&Hwf&Hl). pose proof Hh as Hh'. vm_compute in Hh'. injection Hh' as <-.
  pose proof (timer_heap_refines _ 0 0 25 Hwf ltac:(cbn; lia)) as (_&_&_&_&_&called&h'&Hr&Hw&_).
  eexists _, called, h'. split_and!; [exact Hh|exact Hr|exact Hw|].
  vm_compute in Hr. by injection Hr as <- _.
Defined.

End Witnesses.
