(* ===== verification/IntrusiveList.v ===== *)
(** * The intrusive list of the fiber library (tools/cactus/internal/intrusive_list.h)

    A [List] is a ring of [ListElement]s through its [list_head_]; an element that is
    in no list is a ring of its own.  The elements live in a memory of cells with the
    two pointers, in which following a pointer to no element is undefined. *)

From S2P Require Import Prelude.

#[local] Set Warnings "-clear-no-such-hyp".

Module IntrusiveList.

Abbreviation addr := positive.

Record ListElement : Type := mkElement { prev : addr; next : addr }.

Abbreviation memory := (gmap addr ListElement).

Definition load (m : memory) (a : addr) : outcome ListElement :=
  match m !! a with Some e => Ok e | None => Fail UB end.

(** [a->next = b] and [a->prev = b] *)
Definition set_next (a b : addr) (m : memory) : outcome memory :=
  e <-? load m a ;; Ok (<[a := mkElement (prev e) b]> m).
Definition set_prev (a b : addr) (m : memory) : outcome memory :=
  e <-? load m a ;; Ok (<[a := mkElement b (next e)]> m).

(** [ListElement()] at a new address *)
Definition construct (this : addr) (m : memory) : memory := <[this := mkElement this this]> m.

Definition Attach (this other : addr) (m : memory) : outcome memory :=
  t <-? load m this ;;
  m <-? set_next other (next t) m ;;
  m <-? set_prev other this m ;;
  t <-? load m this ;;
  m <-? set_prev (next t) other m ;;
  set_next this other m.

Definition Unlink (this : addr) (m : memory) : outcome memory :=
  t <-? load m this ;;
  m <-? set_next (prev t) (next t) m ;;
  t <-? load m this ;;
  m <-? set_prev (next t) (prev t) m ;;
  m <-? set_next this this m ;;
  set_prev this this m.

(** [~ListElement] *)
Definition destruct_ (this : addr) (m : memory) : outcome memory :=
  m <-? Unlink this m ;; Ok (delete this m).

Definition IsLinked (this : addr) (m : memory) : outcome bool :=
  t <-? load m this ;; Ok (negb (bool_decide (prev t = this))).

(** The operations of the list with its [list_head_] at [head]. *)
Definition IsEmpty (head : addr) (m : memory) : outcome bool :=
  b <-? IsLinked head m ;; Ok (negb b).
Definition Begin (head : addr) (m : memory) : outcome addr := t <-? load m head ;; Ok (next t).
Definition Back (head : addr) (m : memory) : outcome addr := t <-? load m head ;; Ok (prev t).
Definition End_ (head : addr) : addr := head.
Definition PushBack (head element : addr) (m : memory) : outcome memory :=
  t <-? load m head ;; Attach (prev t) element m.
Definition Erase (head element : addr) (m : memory) : outcome memory := Unlink element m.

(** [for (node = list.Begin(); node != list.End(); node = node->next)] visits these. *)
Fixpoint visit (fuel : nat) (head node : addr) (m : memory) : outcome (list addr) :=
  match fuel with
  | O => Fail Fuel
  | S fuel =>
      if decide (node = End_ head) then Ok []
      else (e <-? load m node ;; l <-? visit fuel head (next e) m ;; Ok (node :: l))
  end.
Definition iterate (fuel : nat) (head : addr) (m : memory) : outcome (list addr) :=
  b <-? Begin head m ;; visit fuel head b m.

(** ** Rings *)

Definition nx (m : memory) (a : addr) : option addr := next <$> m !! a.
Definition pv (m : memory) (a : addr) : option addr := prev <$> m !! a.

Definition link (m : memory) (a b : addr) : Prop := nx m a = Some b ∧ pv m b = Some a.

(** From [a] through [l] to [z]. *)
Fixpoint path (m : memory) (a : addr) (l : list addr) (z : addr) : Prop :=
  match l with [] => link m a z | b :: l => link m a b ∧ path m b l z end.

(** The list at [head] has the elements [l]; [detached]: in no list. *)
Definition is_list (m : memory) (head : addr) (l : list addr) : Prop :=
  NoDup (head :: l) ∧ path m head l head.
Definition detached (m : memory) (a : addr) : Prop := is_list m a [].

Fixpoint last_of (a : addr) (l : list addr) : addr :=
  match l with [] => a | b :: l => last_of b l end.

Lemma last_of_in a l : last_of a l ∈ a :: l.
Proof. revert a. induction l as [|b l IH]; intros a; cbn; [|specialize (IH b)]; set_solver. Qed.

Lemma last_of_nil a l : NoDup (a :: l) → last_of a l = a → l = [].
Proof.
  destruct l as [|b l]; [done|]. cbn. intros [Ha _]%NoDup_cons Heq. destruct Ha. rewrite <- Heq.
  apply last_of_in.
Qed.

Lemma path_last m a l z : path m a l z → link m (last_of a l) z.
Proof. revert a. induction l as [|b l IH]; intros a; cbn; [done|]. intros [_ ?]. by apply IH. Qed.

Lemma path_app m a l b l' z : path m a (l ++ b :: l') z ↔ path m a l b ∧ path m b l' z.
Proof. revert a. induction l as [|c l IH]; intros a; cbn; [done|]. rewrite IH. tauto. Qed.

(** A path whose last pointer was bent to [z']. *)
Lemma path_end m m' a l z z' :
  path m a l z → NoDup (a :: l) →
  (∀ x, x ∈ a :: l → x ≠ last_of a l → nx m' x = nx m x) →
  (∀ x, x ∈ l → pv m' x = pv m x) → link m' (last_of a l) z' → path m' a l z'.
Proof.
  revert a. induction l as [|b l IH]; intros a; cbn; [done|].
  intros [[Hn Hp] Hpath] [Ha Hnd]%NoDup_cons Hnx Hpv Hlink. split.
  - split; [|rewrite Hpv; [done|set_solver]]. rewrite Hnx; [done|set_solver|].
    intros Heq. destruct Ha. rewrite Heq. apply last_of_in.
  - apply IH; [done|done| | |done]; intros x Hx; [apply Hnx|apply Hpv]; set_solver.
Qed.

Lemma path_frame m m' a l z :
  path m a l z → NoDup (a :: l) → (∀ x, x ∈ a :: l → nx m' x = nx m x) →
  (∀ x, x ∈ l ++ [z] → pv m' x = pv m x) → path m' a l z.
Proof.
  intros Hp Hnd Hnx Hpv. eapply path_end; [done|done|by auto| |].
  - intros x Hx. apply Hpv. set_solver.
  - pose proof (path_last _ _ _ _ Hp) as [Hn Hv]. split.
    + rewrite Hnx; [done|apply last_of_in].
    + rewrite Hpv; [done|set_solver].
Qed.

Lemma load_nx m a b : nx m a = Some b → ∃ e, load m a = Ok e ∧ next e = b ∧ pv m a = Some (prev e).
Proof. unfold nx, pv, load. destruct (m !! a) as [e|]; [|done]. intros [= <-]. eauto. Qed.

Lemma load_pv m a b : pv m a = Some b → ∃ e, load m a = Ok e ∧ prev e = b ∧ nx m a = Some (next e).
Proof. unfold nx, pv, load. destruct (m !! a) as [e|]; [|done]. intros [= <-]. eauto. Qed.

Lemma set_next_ok m a b c :
  nx m a = Some c → ∃ m', set_next a b m = Ok m' ∧
    (∀ x, nx m' x = if decide (x = a) then Some b else nx m x) ∧ (∀ x, pv m' x = pv m x).
Proof.
  intros Ha. destruct (load_nx _ _ _ Ha) as (e&He&_&Hp). unfold set_next. rewrite He. cbn [bindO].
  eexists. split_and!; [done|..]; intros x; unfold nx, pv in *; [case_decide; subst|
    destruct (decide (x = a)) as [->|]]; by rewrite ?lookup_insert_eq, ?lookup_insert_ne.
Qed.

Lemma set_prev_ok m a b c :
  pv m a = Some c → ∃ m', set_prev a b m = Ok m' ∧
    (∀ x, pv m' x = if decide (x = a) then Some b else pv m x) ∧ (∀ x, nx m' x = nx m x).
Proof.
  intros Ha. destruct (load_pv _ _ _ Ha) as (e&He&_&Hp). unfold set_prev. rewrite He. cbn [bindO].
  eexists. split_and!; [done|..]; intros x; unfold nx, pv in *; [case_decide; subst|
    destruct (decide (x = a)) as [->|]]; by rewrite ?lookup_insert_eq, ?lookup_insert_ne.
Qed.

Lemma Attach_ok m p q e :
  link m p q → link m e e → e ≠ p → e ≠ q →
  ∃ m', Attach p e m = Ok m' ∧
    (∀ x, nx m' x = if decide (x = p) then Some e else if decide (x = e) then Some q else nx m x) ∧
    (∀ x, pv m' x = if decide (x = q) then Some e else if decide (x = e) then Some p else pv m x).
Proof.
  intros [Hpq Hqp] [Hen Hep] Hp Hq. unfold Attach.
  destruct (load_nx _ _ _ Hpq) as (t&->&Ht&_). cbn [bindO]. rewrite Ht.
  destruct (set_next_ok m e q e Hen) as (m1&->&Hn1&Hp1). cbn [bindO].
  destruct (set_prev_ok m1 e p e) as (m2&->&Hp2&Hn2); [by rewrite Hp1|]. cbn [bindO].
  destruct (load_nx m2 p q) as (t'&->&Ht'&_); [by rewrite Hn2, Hn1, decide_False|]. cbn [bindO]. rewrite Ht'.
  destruct (set_prev_ok m2 q e p) as (m3&->&Hp3&Hn3); [by rewrite Hp2, decide_False, Hp1|]. cbn [bindO].
  destruct (set_next_ok m3 p e q) as (m4&->&Hn4&Hp4); [by rewrite Hn3, Hn2, Hn1, decide_False|].
  exists m4. split_and!; [done|..]; intros x.
  - by rewrite Hn4, Hn3, Hn2, Hn1.
  - by rewrite Hp4, Hp3, Hp2, Hp1.
Qed.

Lemma Unlink_ok m p e n :
  link m p e → link m e n → (e = p ↔ e = n) →
  ∃ m', Unlink e m = Ok m' ∧
    (∀ x, nx m' x = if decide (x = e) then Some e else if decide (x = p) then Some n else nx m x) ∧
    (∀ x, pv m' x = if decide (x = e) then Some e else if decide (x = n) then Some p else pv m x).
Proof.
  intros [Hpe Hep] [Hen Hne] Hiff. unfold Unlink.
  destruct (load_nx m e n Hen) as (t&->&Ht&Hpt). rewrite Hep in Hpt. injection Hpt as ->. cbn [bindO]. rewrite Ht.
  destruct (set_next_ok m (prev t) n e Hpe) as (m1&->&Hn1&Hp1). cbn [bindO].
  destruct (load_nx m1 e n) as (t1&->&Ht1&Hpt1).
  { rewrite Hn1. case_decide; [|done]. f_equal. }
  rewrite Hp1, Hep in Hpt1. injection Hpt1 as Hpt1. cbn [bindO]. rewrite Ht1, <- Hpt1.
  destruct (set_prev_ok m1 n (prev t) e) as (m2&->&Hp2&Hn2); [by rewrite Hp1|]. cbn [bindO].
  assert (is_Some (nx m2 e)) as [c Hc].
  { rewrite Hn2, Hn1. case_decide; eauto. }
  destruct (set_next_ok m2 e e c Hc) as (m3&->&Hn3&Hp3). cbn [bindO].
  assert (is_Some (pv m3 e)) as [d Hd].
  { rewrite Hp3, Hp2. case_decide; [eauto|]. rewrite Hp1. eauto. }
  destruct (set_prev_ok m3 e e d Hd) as (m4&->&Hp4&Hn4).
  exists m4. split_and!; [done|..]; intros x.
  - by rewrite Hn4, Hn3, Hn2, Hn1.
  - by rewrite Hp4, Hp3, Hp2, Hp1.
Qed.

Lemma same_cell m m' x : nx m' x = nx m x → pv m' x = pv m x → m' !! x = m !! x.
Proof.
  unfold nx, pv. destruct (m !! x) as [[]|], (m' !! x) as [[]|]; cbn; try done.
  intros [= ->] [= ->]. done.
Qed.

(** What the operations do to a list of addresses. *)
Lemma push_back_ok m head l e :
  is_list m head l → detached m e → e ∉ head :: l →
  ∃ m', PushBack head e m = Ok m' ∧ is_list m' head (l ++ [e]) ∧
    ∀ x, x ∉ head :: e :: l → m' !! x = m !! x.
Proof.
  intros [Hnd Hpath] [_ He] Hin. pose proof (path_last _ _ _ _ Hpath) as Hlast.
  pose proof (last_of_in head l) as Hlin. unfold PushBack.
  destruct (load_pv _ _ _ (proj2 Hlast)) as (t&->&Ht&_). cbn [bindO]. rewrite Ht.
  destruct (Attach_ok m (last_of head l) head e) as (m'&->&Hn&Hp);
    [done|done|intros ->; done|intros ->; set_solver|].
  exists m'. split_and!; [done|split|].
  - rewrite app_comm_cons, NoDup_app. split_and!; [done| |apply NoDup_singleton]. set_solver.
  - apply path_app. split.
    + eapply path_end; [exact Hpath|done| | |].
      * intros x Hx Hne. rewrite Hn, !decide_False; [done|set_solver|done].
      * intros x Hx. apply NoDup_cons in Hnd as [Hh _]. rewrite Hp, !decide_False; [done|set_solver|].
        intros ->. done.
      * split; [by rewrite Hn, decide_True|]. rewrite Hp, decide_False, decide_True; [done|done|].
        intros ->. set_solver.
    + cbn. split; [|by rewrite Hp, decide_True]. rewrite Hn, decide_False, decide_True; [done|done|].
      intros ->. done.
  - intros x Hx. apply same_cell; [rewrite Hn|rewrite Hp]; rewrite !decide_False; [done|set_solver|set_solver..].
Qed.

Lemma unlink_ok m head l1 e l2 :
  is_list m head (l1 ++ e :: l2) →
  ∃ m', Unlink e m = Ok m' ∧ is_list m' head (l1 ++ l2) ∧ detached m' e ∧
    ∀ x, x ∉ head :: l1 ++ e :: l2 → m' !! x = m !! x.
Proof.
  intros [Hnd Hpath]. apply path_app in Hpath as [H1 H2].
  pose proof (path_last _ _ _ _ H1) as Hl1. pose proof (last_of_in head l1) as Hlin.
  assert (∃ n, link m e n ∧ n ∈ head :: l2 ∧ n = hd head l2) as (n&Hn&Hnin&Hhd).
  { destruct l2 as [|n l2]; [exists head|exists n]; cbn in *; split_and!; tauto || set_solver. }
  rewrite app_comm_cons in Hnd. apply NoDup_app in Hnd as (Hnd1&Hd&[He2 Hnd2]%NoDup_cons).
  assert (e ∉ head :: l1) as He1 by (intros ?; apply (Hd e); set_solver).
  destruct (Unlink_ok m (last_of head l1) e n) as (m'&->&Hnx&Hpv); [done|done| |].
  { split; intros Heq; destruct He1; [by rewrite Heq|]. rewrite <- Heq in Hnin. set_solver. }
  exists m'. split_and!; [done|split|split|].
  - rewrite app_comm_cons, NoDup_app. split_and!; [done| |done]. intros x Hx Hx'. apply (Hd x Hx). set_solver.
  - assert (path m' head l1 n) as Hp1.
    { eapply path_end; [exact H1|done| | |].
      - intros x Hx Hne. rewrite Hnx, !decide_False; [done|done|set_solver].
      - intros x Hx. rewrite Hpv, !decide_False; [done| |set_solver]. intros ->.
        apply elem_of_cons in Hnin as [->|Hn2]; [by apply NoDup_cons in Hnd1 as [? _]|].
        apply (Hd n); set_solver.
      - split; [rewrite Hnx, decide_False, decide_True; [done|done|set_solver]|].
        rewrite Hpv, decide_False, decide_True; [done|done|]. intros ->. set_solver. }
    destruct l2 as [|n' l2]; cbn in Hhd; subst n; [by rewrite app_nil_r|]. apply path_app. split; [done|].
    destruct H2 as [_ H2]. apply NoDup_cons in Hnd2 as Hnd2'.
    eapply path_frame; [exact H2|done| |]; intros x Hx.
    + rewrite Hnx, !decide_False; [done| |set_solver]. intros ->. apply (Hd (last_of head l1)); set_solver.
    + rewrite Hpv, !decide_False; [done| |set_solver]. intros ->.
      apply elem_of_app in Hx as [Hx|Hx%list_elem_of_singleton]; [set_solver|]. subst.
      apply (Hd head); set_solver.
  - apply NoDup_singleton.
  - cbn. split; [by rewrite Hnx, decide_True|by rewrite Hpv, decide_True].
  - intros x Hx. apply same_cell; [rewrite Hnx|rewrite Hpv]; rewrite !decide_False; [done|set_solver..].
Qed.

Lemma unlink_detached m e : detached m e → Unlink e m = Ok m.
Proof.
  intros [_ Hl]. destruct (Unlink_ok m e e e Hl Hl) as (m'&->&Hn&Hp); [done|]. f_equal. apply map_eq.
  intros x. destruct Hl as [H1 H2].
  apply same_cell; [rewrite Hn|rewrite Hp]; repeat case_decide; subst; done.
Qed.

Lemma first_link m head l : is_list m head l → link m head (hd head l).
Proof. intros [_ H]. destruct l; [done|]. apply H. Qed.

Lemma begin_ok m head l : is_list m head l → Begin head m = Ok (hd head l).
Proof. intros [Hn _]%first_link. unfold Begin. destruct (load_nx _ _ _ Hn) as (e&->&<-&_). done. Qed.

Lemma is_empty_ok m head l : is_list m head l → IsEmpty head m = Ok (bool_decide (l = [])).
Proof.
  intros [Hnd Hp]. pose proof (path_last _ _ _ _ Hp) as [_ Hl]. unfold IsEmpty, IsLinked.
  destruct (load_pv _ _ _ Hl) as (e&->&He&_). cbn [bindO]. rewrite negb_involutive, He. f_equal.
  apply bool_decide_ext. split; [by apply last_of_nil|by intros ->].
Qed.

Lemma linked_ok m head l e : is_list m head l → e ∈ l → IsLinked e m = Ok true.
Proof.
  intros [Hnd Hp] [l1 [l2 ->]]%list_elem_of_split. apply path_app in Hp as [[_ Hp]%path_last _].
  unfold IsLinked. destruct (load_pv _ _ _ Hp) as (t&->&Ht&_). cbn [bindO]. rewrite bool_decide_false; [done|].
  rewrite Ht. intros Heq. rewrite app_comm_cons in Hnd. apply NoDup_app in Hnd as (_&Hd&_).
  apply (Hd (last_of head l1)); [apply last_of_in|]. rewrite Heq. set_solver.
Qed.

Lemma visit_ok m head a l fuel :
  path m a l head → head ∉ l → length l < fuel →
  visit fuel head (hd head l) m = Ok l.
Proof.
  intros Hp Hh Hf. revert a fuel Hp Hf. induction l as [|b l IH]; intros a [|fuel] Hp Hf; cbn in Hf; try lia.
  - cbn [hd visit]. by rewrite decide_True.
  - destruct Hp as [_ Hp]. cbn [hd visit]. rewrite decide_False by (unfold End_; set_solver).
    assert (∃ e, load m b = Ok e ∧ next e = hd head l) as (e&->&He).
    { destruct l as [|c l]; destruct Hp as [Hn Hp]; [|destruct Hn as [Hn _]];
        destruct (load_nx _ _ _ Hn) as (e&?&?&_); eauto. }
    cbn [bindO]. rewrite He, (IH ltac:(set_solver) b); [done|done|lia].
Qed.

End IntrusiveList.

Import IntrusiveList.

Section Properties.

(** C23 The ring of pointers is a list: on a list and an element that is in none of its
    places, every operation does to the list what its name says, follows no pointer
    to a dead element and touches no other list; [Unlink] (and [Erase], and the
    destructor of an element) works wherever the element is, and does nothing to an
    element that is in no list; iterating visits the elements in order. *)
Theorem intrusive_list_refines (m : memory) (head : addr) (l : list addr) (e : addr) :
  is_list m head l →
  IsEmpty head m = Ok (bool_decide (l = [])) ∧
  Begin head m = Ok (hd (End_ head) l) ∧ Back head m = Ok (last_of head l) ∧
  iterate (S (length l)) head m = Ok l ∧
  (detached m e → e ∉ head :: l →
     IsLinked e m = Ok false ∧ Unlink e m = Ok m ∧
     ∃ m', PushBack head e m = Ok m' ∧ is_list m' head (l ++ [e]) ∧
       ∀ x, x ∉ head :: e :: l → m' !! x = m !! x) ∧
  (e ∈ l →
     IsLinked e m = Ok true ∧
     ∃ l1 l2 m', l = l1 ++ e :: l2 ∧ Erase head e m = Ok m' ∧ is_list m' head (l1 ++ l2) ∧
       detached m' e ∧ destruct_ e m = Ok (delete e m') ∧
       ∀ x, x ∉ head :: l → m' !! x = m !! x) ∧
  (m !! e = None → detached (construct e m) e ∧ is_list (construct e m) head l).
Proof.
  intros Hl. pose proof Hl as [Hnd Hp]. pose proof (path_last _ _ _ _ Hp) as [_ Hlast].
  split_and!.
  - by apply is_empty_ok.
  - by apply begin_ok.
  - unfold Back. destruct (load_pv _ _ _ Hlast) as (t&->&<-&_). done.
  - unfold iterate. rewrite (begin_ok m head l) by done. cbn [bindO].
    apply (visit_ok m head head l); [done|by apply NoDup_cons in Hnd as [? _]|lia].
  - intros He Hin. split_and!; [|by apply unlink_detached|by apply push_back_ok].
    apply is_empty_ok in He. unfold IsEmpty in He. destruct (IsLinked e m) as [[]|]; by cbn in He.
  - intros He. split; [by eapply linked_ok|]. apply list_elem_of_split in He as (l1&l2&->).
    destruct (unlink_ok _ _ _ _ _ Hl) as (m'&Hu&?&?&?). exists l1, l2, m'. split_and!; try done.
    unfold destruct_. by rewrite Hu.
  - intros He. assert (∀ x, x ≠ e → nx (construct e m) x = nx m x ∧ pv (construct e m) x = pv m x) as Hc.
    { intros x Hx. unfold nx, pv, construct. by rewrite lookup_insert_ne. }
    assert (∀ x, x ∈ head :: l → x ≠ e) as Hne.
    { intros x Hx ->. clear Hlast Hl Hc. assert (is_Some (m !! e)) as [? ?]; [|congruence].
      apply elem_of_cons in Hx as [->|[l1 [l2 ->]]%list_elem_of_split].
      - destruct (first_link m head l (conj Hnd Hp)) as [Hn _]. unfold nx in Hn.
        destruct (m !! head); [eauto|done].
      - apply path_app in Hp as [[_ Hp]%path_last _]. unfold pv in Hp. destruct (m !! e); [eauto|done]. }
    split.
    + split; [apply NoDup_singleton|]. cbn. unfold link, nx, pv, construct. by rewrite lookup_insert_eq.
    + split; [done|]. eapply path_frame; [exact Hp|done|..]; intros x Hx; apply Hc, Hne; set_solver.
Qed.

End Properties.

Section Witnesses.

(** A list at 1 with the elements 2 and 3, and the element 4 alone. *)
Definition two_and_one : memory :=
  <[1%positive := mkElement 3 2]> (<[2%positive := mkElement 1 3]>
    (<[3%positive := mkElement 2 1]> (<[4%positive := mkElement 4 4]> ∅))).

Lemma two_and_one_list : is_list two_and_one 1 [2%positive; 3%positive].
Proof. split; [by apply (bool_decide_unpack _); vm_compute|]. cbn. by vm_compute. Qed.

Lemma intrusive_list_refines_witness :
  iterate 3 1 two_and_one = Ok [2%positive; 3%positive] ∧
  ∃ m', PushBack 1 4 two_and_one = Ok m' ∧ is_list m' 1 [2%positive; 3%positive; 4%positive].
Proof.
  pose proof (intrusive_list_refines two_and_one 1 [2%positive; 3%positive] 4 two_and_one_list)
    as (_&_&_&Hi&Hp&_). split; [exact Hi|].
  destruct Hp as (_&_&m'&Hm'&Hl'&_).
  - split; [apply NoDup_singleton|]. by vm_compute.
  - set_solver.
  - exists m'. done.
Defined.

End Witnesses.
