(* ===== verification/Fibers.v ===== *)
(** * Fibers (tools/cactus/core: fiber, scheduler, group; internal/wait_queue; sync/mutex)

    Fibers are run one at a time by the scheduler's loop; a running fiber goes on
    until it parks or ends, so each call of the library is one function on the state
    of the scheduler, which ends by returning to the user's code, by an exception in
    it, or with the fiber parked at a known place of the library ([kont]), where the
    loop will resume it.  The user's code is arbitrary: it is a sequence of calls
    ([call]) chosen freely but for the rules in [allowed].

    A [Waiter] is an object on the stack of the fiber that waits, so it is known by
    the fiber.  There is one mutex and one condition variable.  A failed [CHECK] is
    [Fail Abort], the use of a deleted object [Fail UB].  Lists are Rocq lists
    (IntrusiveList.v shows that the intrusive ones are that), the timers are the
    heap of TimerHeap.v.

    This file has the model; FiberInv.v the invariant and how it is kept, FiberCalls.v
    the calls of the user's code, FiberLoop.v the loop and the properties. *)

From S2P Require Import Prelude TimerHeap.

#[local] Set Warnings "-clear-no-such-hyp".

Inductive FiberState : Type := Ready | Running | Dead | Sleeping | Waiting.

(** Where a fiber is parked: in [Yield], in [SleepUntil] with its timer, in the
    destructors of [Fiber] and [Group] with the saved value of the cancel guard, in
    [WaitGroup::Wait], in [Mutex::Lock] (called by [CondVar::Wait] or not), or in
    the first wait of [CondVar::Wait]. *)
Inductive kont : Type :=
| Yielding
| InSleep (tm : nat) (deadline : Z)
| Joining (c : nat) (saved : bool)
| GroupJoining (g : nat) (saved : bool)
| GroupWaiting (g : nat)
| Locking (in_wait : bool)
| CondWaiting.

Inductive result : Type := Returned | Threw (e : exn).

(** [User r]: in the user's code; [r] is how the last call that can wait ended. *)
Inductive pc : Type := Start | User (r : result) | Parked (k : kont) | Finished.

(** The fields of [FiberImpl], then what is on its stack: the place, [me.wakeup] of
    its [Waiter], [locked_] of its [MutexGuard]; and whether it has been deleted. *)
Record FiberImpl : Type := mkFiber {
  state_ : FiberState; timedout_ : bool; canceled_ : bool; cancel_guarded_ : bool;
  error_ : option exn; waiter_ : option nat; group_ : option nat;
  at_ : pc; wakeup : bool; guard_locked_ : bool; deleted : bool }.

Definition set_state v x := mkFiber v (timedout_ x) (canceled_ x) (cancel_guarded_ x) (error_ x) (waiter_ x)
  (group_ x) (at_ x) (wakeup x) (guard_locked_ x) (deleted x).
Definition set_timedout v x := mkFiber (state_ x) v (canceled_ x) (cancel_guarded_ x) (error_ x) (waiter_ x)
  (group_ x) (at_ x) (wakeup x) (guard_locked_ x) (deleted x).
Definition set_canceled v x := mkFiber (state_ x) (timedout_ x) v (cancel_guarded_ x) (error_ x) (waiter_ x)
  (group_ x) (at_ x) (wakeup x) (guard_locked_ x) (deleted x).
Definition set_guard v x := mkFiber (state_ x) (timedout_ x) (canceled_ x) v (error_ x) (waiter_ x)
  (group_ x) (at_ x) (wakeup x) (guard_locked_ x) (deleted x).
Definition set_error v x := mkFiber (state_ x) (timedout_ x) (canceled_ x) (cancel_guarded_ x) v (waiter_ x)
  (group_ x) (at_ x) (wakeup x) (guard_locked_ x) (deleted x).
Definition set_waiter v x := mkFiber (state_ x) (timedout_ x) (canceled_ x) (cancel_guarded_ x) (error_ x) v
  (group_ x) (at_ x) (wakeup x) (guard_locked_ x) (deleted x).
Definition set_at v x := mkFiber (state_ x) (timedout_ x) (canceled_ x) (cancel_guarded_ x) (error_ x) (waiter_ x)
  (group_ x) v (wakeup x) (guard_locked_ x) (deleted x).
Definition set_wakeup v x := mkFiber (state_ x) (timedout_ x) (canceled_ x) (cancel_guarded_ x) (error_ x) (waiter_ x)
  (group_ x) (at_ x) v (guard_locked_ x) (deleted x).
Definition set_locked v x := mkFiber (state_ x) (timedout_ x) (canceled_ x) (cancel_guarded_ x) (error_ x) (waiter_ x)
  (group_ x) (at_ x) (wakeup x) v (deleted x).
Definition set_deleted v x := mkFiber (state_ x) (timedout_ x) (canceled_ x) (cancel_guarded_ x) (error_ x) (waiter_ x)
  (group_ x) (at_ x) (wakeup x) (guard_locked_ x) v.

(** [FiberImpl(fn)], in a group or not *)
Definition new_fiber (g : option nat) : FiberImpl :=
  mkFiber Ready false false false None None g Start false false false.

(** [Group] and [WaitGroup]; [is_wait] is the dynamic type. *)
Record Group : Type := mkGroup {
  fibers_ : list nat; joiner_ : option nat; is_wait : bool;
  first_error_ : option exn; group_waiter_ : option nat }.

Inductive timer_kind : Type := SleepTimer | TimeoutGuard.

Record sched : Type := mkSched {
  fibers : gmap nat FiberImpl; run_queue_ : list nat; this_fiber : option nat; main_fiber_ : nat;
  groups : gmap nat Group; locked_ : bool; lockers_ : list nat; cond_waiters_ : list nat;
  timers_ : TimerHeap.t; timer_of : gmap nat (nat * timer_kind);
  now_ : Z; time_freezed_ : bool }.

Definition set_fibers v s := mkSched v (run_queue_ s) (this_fiber s) (main_fiber_ s) (groups s) (locked_ s)
  (lockers_ s) (cond_waiters_ s) (timers_ s) (timer_of s) (now_ s) (time_freezed_ s).
Definition set_queue v s := mkSched (fibers s) v (this_fiber s) (main_fiber_ s) (groups s) (locked_ s)
  (lockers_ s) (cond_waiters_ s) (timers_ s) (timer_of s) (now_ s) (time_freezed_ s).
Definition set_this v s := mkSched (fibers s) (run_queue_ s) v (main_fiber_ s) (groups s) (locked_ s)
  (lockers_ s) (cond_waiters_ s) (timers_ s) (timer_of s) (now_ s) (time_freezed_ s).
Definition set_groups v s := mkSched (fibers s) (run_queue_ s) (this_fiber s) (main_fiber_ s) v (locked_ s)
  (lockers_ s) (cond_waiters_ s) (timers_ s) (timer_of s) (now_ s) (time_freezed_ s).
Definition set_mutex b v s := mkSched (fibers s) (run_queue_ s) (this_fiber s) (main_fiber_ s) (groups s) b
  v (cond_waiters_ s) (timers_ s) (timer_of s) (now_ s) (time_freezed_ s).
Definition set_cond v s := mkSched (fibers s) (run_queue_ s) (this_fiber s) (main_fiber_ s) (groups s) (locked_ s)
  (lockers_ s) v (timers_ s) (timer_of s) (now_ s) (time_freezed_ s).
Definition set_timers h i s := mkSched (fibers s) (run_queue_ s) (this_fiber s) (main_fiber_ s) (groups s) (locked_ s)
  (lockers_ s) (cond_waiters_ s) h i (now_ s) (time_freezed_ s).
Definition set_time n b s := mkSched (fibers s) (run_queue_ s) (this_fiber s) (main_fiber_ s) (groups s) (locked_ s)
  (lockers_ s) (cond_waiters_ s) (timers_ s) (timer_of s) n b.

Definition upd (f : nat) (g : FiberImpl → FiberImpl) (s : sched) : sched := set_fibers (alter g f (fibers s)) s.
Definition upd_group (g : nat) (h : Group → Group) (s : sched) : sched := set_groups (alter h g (groups s)) s.

(** A fiber that has not been deleted. *)
Definition deref (f : nat) (s : sched) : outcome FiberImpl :=
  match fibers s !! f with Some x => if deleted x then Fail UB else Ok x | None => Fail UB end.
Definition deref_group (g : nat) (s : sched) : outcome Group :=
  match groups s !! g with Some x => Ok x | None => Fail UB end.

(** ** fiber.cpp *)

Definition Unpark (f : nat) (s : sched) : outcome sched :=
  x <-? deref f s ;;
  match state_ x with
  | Dead => Fail Abort
  | _ => Ok (if decide (f ∈ run_queue_ s) then s else set_queue (run_queue_ s ++ [f]) s)
  end.

Definition Unpark_opt (o : option nat) (s : sched) : outcome sched :=
  match o with Some f => Unpark f s | None => Ok s end.

Definition NotifyTimeout (f : nat) (s : sched) : outcome sched :=
  x <-? deref f s ;;
  let s := upd f (set_timedout true) s in
  if cancel_guarded_ x then Ok s else Unpark f s.

Definition Cancel (f : nat) (s : sched) : outcome sched :=
  x <-? deref f s ;;
  match state_ x with
  | Dead => Fail Abort
  | _ => let s := upd f (set_canceled true) s in if cancel_guarded_ x then Ok s else Unpark f s
  end.

(** ** internal/wait_queue.cpp, on either queue of waiters *)

Inductive wait_queue : Type := Lockers | CondWaiters.

Definition waiters_ (q : wait_queue) (s : sched) : list nat :=
  match q with Lockers => lockers_ s | CondWaiters => cond_waiters_ s end.
Definition set_waiters (q : wait_queue) (l : list nat) (s : sched) : sched :=
  match q with Lockers => set_mutex (locked_ s) l s | CondWaiters => set_cond l s end.

Definition NotifyOne (q : wait_queue) (s : sched) : outcome sched :=
  match waiters_ q s with
  | [] => Ok s
  | first :: rest => Unpark first (upd first (set_wakeup true) (set_waiters q rest s))
  end.

(** Each round takes one waiter out. *)
Fixpoint NotifyAll (fuel : nat) (q : wait_queue) (s : sched) : outcome sched :=
  match waiters_ q s with
  | [] => Ok s
  | _ => match fuel with O => Fail Fuel | S fuel => s <-? NotifyOne q s ;; NotifyAll fuel q s end
  end.

Definition erase (f : nat) (l : list nat) : list nat := filter (.≠ f) l.

(** ** group.cpp *)

Definition Group_OnFinished (g f : nat) (s : sched) : outcome sched :=
  G <-? deref_group g s ;;
  let l := erase f (fibers_ G) in
  let s := upd_group g (λ G, mkGroup l (joiner_ G) (is_wait G) (first_error_ G) (group_waiter_ G)) s in
  match l with [] => Unpark_opt (joiner_ G) s | _ => Ok s end.

Definition WaitGroup_OnFinished (g f : nat) (ex : option exn) (s : sched) : outcome sched :=
  G <-? deref_group g s ;;
  s <-? match first_error_ G, ex with
        | None, Some e =>
            Unpark_opt (group_waiter_ G)
              (upd_group g (λ G, mkGroup (fibers_ G) (joiner_ G) (is_wait G) (Some e) (group_waiter_ G)) s)
        | _, _ => Ok s
        end ;;
  s <-? Group_OnFinished g f s ;;
  match erase f (fibers_ G) with [] => Unpark_opt (group_waiter_ G) s | _ => Ok s end.

Definition OnFinished (g f : nat) (ex : option exn) (s : sched) : outcome sched :=
  G <-? deref_group g s ;;
  if is_wait G then WaitGroup_OnFinished g f ex s else Group_OnFinished g f s.

(** ** Parking (scheduler.h, [Park]) *)

(** The lambda [check]: what it throws, if anything. *)
Definition check (f : nat) (where_ : string) (s : sched) : outcome (option exn * sched) :=
  x <-? deref f s ;;
  if cancel_guarded_ x then Ok (None, s)
  else if canceled_ x then Ok (Some FiberCanceledException, set_queue (erase f (run_queue_ s)) s)
  else if timedout_ x then
    Ok (Some (TimeoutException where_), upd f (set_timedout false) (set_queue (erase f (run_queue_ s)) s))
  else Ok (None, s).

Definition where_of (k : kont) : string :=
  match k with
  | Yielding => "yield" | InSleep _ _ => "sleep" | Joining _ _ => "join" | GroupJoining _ _ => "group"
  | GroupWaiting _ => "wait_group" | Locking _ | CondWaiting => "wait_queue"
  end.

(** The lambda given to [Park] as [cleanup]. *)
Definition cleanup (k : kont) (s : sched) : sched :=
  match k with
  | Joining c _ => upd c (set_waiter None) s
  | GroupJoining g _ => upd_group g (λ G, mkGroup (fibers_ G) None (is_wait G) (first_error_ G) (group_waiter_ G)) s
  | GroupWaiting g => upd_group g (λ G, mkGroup (fibers_ G) (joiner_ G) (is_wait G) (first_error_ G) None) s
  | _ => s
  end.

Definition return_ (f : nat) (r : result) (s : sched) : sched := upd f (set_at (User r)) s.

(** The end of [WaitQueue::Wait]: when [Park] threw, [pass_wakeup] gives the wake-up to
    the next waiter; in any case [me] is unlinked. *)
Definition Wait_end (q : wait_queue) (f : nat) (thrown : option exn) (s : sched) : outcome sched :=
  x <-? deref f s ;;
  s <-? match thrown with Some _ => if wakeup x then NotifyOne q s else Ok s | None => Ok s end ;;
  Ok (set_waiters q (erase f (waiters_ q s)) s).

(** [Mutex::Lock] from the test of the loop on, the end of [MutexGuard::Lock], and, if
    it was called by [CondVar::Wait], the end of that.  [Park] of a fiber with something
    to throw throws at once. *)
Definition Lock_throw (in_wait : bool) (f : nat) (e : exn) (s : sched) : outcome sched :=
  s <-? Wait_end Lockers f (Some e) s ;;
  s <-? (if in_wait then NotifyOne CondWaiters s else Ok s) ;;
  Ok (return_ f (Threw e) s).

Definition Lock_loop (in_wait : bool) (f : nat) (s : sched) : outcome sched :=
  if locked_ s then
    let s := upd f (set_wakeup false) (set_mutex true (lockers_ s ++ [f]) s) in
    r <-? check f (where_of (Locking in_wait)) s ;;
    match r with
    | (Some e, s) => Lock_throw in_wait f e s
    | (None, s) => Ok (set_this None (upd f (set_at (Parked (Locking in_wait))) s))
    end
  else Ok (return_ f Returned (upd f (set_locked true) (set_mutex true (lockers_ s) s))).

(** What the library does after [Park] at [k], which threw or not. *)
Definition leave (k : kont) (f : nat) (thrown : option exn) (s : sched) : outcome sched :=
  let r := match thrown with Some e => Threw e | None => Returned end in
  match k with
  | Yielding => Ok (return_ f r s)
  | InSleep tm _ =>
      h <-? TimerHeap.destroy tm (timers_ s) ;;
      Ok (return_ f r (set_timers h (delete tm (timer_of s)) s))
  | Joining c saved =>
      match thrown with
      | Some _ => Fail Abort
      | None => Ok (return_ f r (upd f (set_guard saved) (upd c (set_deleted true) s)))
      end
  | GroupJoining g saved =>
      match thrown with
      | Some _ => Fail Abort
      | None => Ok (return_ f r (upd f (set_guard saved) (set_groups (delete g (groups s)) s)))
      end
  | GroupWaiting g =>
      G <-? deref_group g s ;;
      Ok (return_ f match thrown, first_error_ G with None, Some e => Threw e | _, _ => r end s)
  | Locking in_wait =>
      match thrown with
      | Some e => Lock_throw in_wait f e s
      | None => s <-? Wait_end Lockers f None s ;; Lock_loop in_wait f s
      end
  | CondWaiting =>
      s <-? Wait_end CondWaiters f thrown s ;;
      match thrown with Some _ => Ok (return_ f r s) | None => Lock_loop true f s end
  end.

Definition Park (k : kont) (f : nat) (s : sched) : outcome sched :=
  r <-? check f (where_of k) s ;;
  match r with
  | (Some e, s) => leave k f (Some e) (cleanup k s)
  | (None, s) => Ok (set_this None (upd f (set_at (Parked k)) s))
  end.

(** [Park] from the return of [Activate] on. *)
Definition Resume (k : kont) (f : nat) (s : sched) : outcome sched :=
  r <-? check f (where_of k) s ;; leave k f r.1 (cleanup k r.2).

(** ** The calls of the user's code *)

(** A new fiber, group or timer comes with its address; [Advance] is for a frozen
    clock. *)
Inductive call : Type :=
| Yield
| SleepFor (tm : nat) (duration : Z)
| NewFiber (c : nat)
| DestroyFiber (c : nat)
| NewGroup (g : nat) (wait : bool)
| Spawn (g c : nat)
| DestroyGroup (g : nat)
| WaitGroup_Wait (g : nat)
| Lock
| Unlock
| CondVar_Wait
| CondVar_NotifyOne
| CondVar_NotifyAll
| NewTimeout (tm : nat) (duration : Z)
| DestroyTimeout (tm : nat)
| CancelGuard (b : bool)
| FreezeTime (b : bool)
| AdvanceTime (delta : Z)
| Finish (r : result).

(** [SleepUntil]: the timer, then [Park]. *)
Definition SleepUntil (tm : nat) (deadline : Z) (f : nat) (s : sched) : outcome sched :=
  h <-? TimerHeap.Activate tm deadline (timers_ s) ;;
  Park (InSleep tm deadline) f (set_timers h (<[tm := (f, SleepTimer)]> (timer_of s)) s).

Definition Fiber_new (c : nat) (s : sched) : outcome sched :=
  Unpark c (set_fibers (<[c := new_fiber None]> (fibers s)) s).

(** [FiberImpl::Join], with the guard set by [~Fiber]. *)
Definition Join (c : nat) (saved : bool) (f : nat) (s : sched) : outcome sched :=
  y <-? deref c s ;;
  match waiter_ y with
  | Some _ => Fail Abort
  | None => Park (Joining c saved) f (upd c (set_waiter (Some f)) s)
  end.

Definition Fiber_destroy (c : nat) (f : nat) (s : sched) : outcome sched :=
  y <-? deref c s ;;
  match state_ y with
  | Dead => Ok (upd c (set_deleted true) s)
  | _ =>
      s <-? Cancel c s ;;
      x <-? deref f s ;;
      Join c (cancel_guarded_ x) f (upd f (set_guard true) s)
  end.

Definition DoSpawn (g c : nat) (s : sched) : outcome sched :=
  _ <-? deref_group g s ;;
  s <-? Unpark c (set_fibers (<[c := new_fiber (Some g)]> (fibers s)) s) ;;
  Ok (upd_group g (λ G, mkGroup (fibers_ G ++ [c]) (joiner_ G) (is_wait G) (first_error_ G) (group_waiter_ G)) s).

(** [~Group]; the members of [WaitGroup] are gone by then. *)
Definition Group_destroy (g : nat) (f : nat) (s : sched) : outcome sched :=
  G <-? deref_group g s ;;
  match fibers_ G with
  | [] => Ok (set_groups (delete g (groups s)) s)
  | l =>
      let s := upd_group g (λ G, mkGroup (fibers_ G) (joiner_ G) false None None) s in
      s <-? forO Cancel l s ;;
      x <-? deref f s ;;
      Park (GroupJoining g (cancel_guarded_ x)) f
        (upd_group g (λ G, mkGroup (fibers_ G) (Some f) (is_wait G) (first_error_ G) (group_waiter_ G))
          (upd f (set_guard true) s))
  end.

Definition Wait (g : nat) (f : nat) (s : sched) : outcome sched :=
  G <-? deref_group g s ;;
  match first_error_ G, fibers_ G, group_waiter_ G with
  | Some e, _, _ => Ok (return_ f (Threw e) s)
  | None, [], _ => Ok (return_ f Returned s)
  | None, _ :: _, Some _ => Fail Abort
  | None, _ :: _, None =>
      Park (GroupWaiting g) f
        (upd_group g (λ G, mkGroup (fibers_ G) (joiner_ G) (is_wait G) (first_error_ G) (Some f)) s)
  end.

(** [Mutex::Unlock] through the guard. *)
Definition Unlock_ (f : nat) (s : sched) : outcome sched :=
  if locked_ s then
    s <-? NotifyOne Lockers (set_mutex false (lockers_ s) s) ;; Ok (upd f (set_locked false) s)
  else Fail Abort.

Definition CondVar_wait (f : nat) (s : sched) : outcome sched :=
  s <-? Unlock_ f s ;;
  Park CondWaiting f (upd f (set_wakeup false) (set_cond (cond_waiters_ s ++ [f]) s)).

(** [Yield]; the constructor of [TimeoutGuard] and the destructor of [Timer] *)
Definition Yield_ (f : nat) (s : sched) : outcome sched := s <-? Unpark f s ;; Park Yielding f s.

Definition TimeoutGuard_new (tm : nat) (duration : Z) (f : nat) (s : sched) : outcome sched :=
  h <-? TimerHeap.Activate tm (now_ s + duration) (timers_ s) ;;
  Ok (set_timers h (<[tm := (f, TimeoutGuard)]> (timer_of s)) s).

Definition Timer_destroy (tm : nat) (s : sched) : outcome sched :=
  h <-? TimerHeap.destroy tm (timers_ s) ;; Ok (set_timers h (delete tm (timer_of s)) s).

(** [FiberImpl::Cleanup], and the deletion of a fiber that was in a group *)
Definition Cleanup (f : nat) (group : option nat) (error : option exn) (s : sched) : outcome sched :=
  match group with
  | Some g => s <-? OnFinished g f error s ;; Ok (upd f (set_deleted true) s)
  | None => Ok s
  end.

(** [FiberImpl::Run] after the function, and what [RunLoop] does with a dead fiber; an
    exception that is not caught ends the program, [Scheduler::Run] catches those of
    the main fiber. *)
Definition Run_end (r : result) (f : nat) (s : sched) : outcome sched :=
  x <-? deref f s ;;
  let caught :=
    match r with
    | Threw e => negb (is_std_exception e) || bool_decide (is_Some (group_ x)) || bool_decide (f = main_fiber_ s)
    | Returned => true
    end in
  if caught then
    let ex := match r, group_ x with
              | Threw e, Some _ => if is_std_exception e then Some e else None
              | _, _ => None
              end in
    s <-? Unpark_opt (waiter_ x)
            (upd f (λ x, set_state Dead (set_at Finished (set_error ex x))) s) ;;
    Cleanup f (group_ x) ex (set_this None s)
  else Fail Abort.

Definition exec (c : call) (f : nat) (s : sched) : outcome sched :=
  match c with
  | Yield => Yield_ f s
  | SleepFor tm d => SleepUntil tm (now_ s + d) f s
  | NewFiber c => Fiber_new c s
  | DestroyFiber c => Fiber_destroy c f s
  | NewGroup g wait => Ok (set_groups (<[g := mkGroup [] None wait None None]> (groups s)) s)
  | Spawn g c => DoSpawn g c s
  | DestroyGroup g => Group_destroy g f s
  | WaitGroup_Wait g => Wait g f s
  | Lock => Lock_loop false f s
  | Unlock => Unlock_ f s
  | CondVar_Wait => CondVar_wait f s
  | CondVar_NotifyOne => NotifyOne CondWaiters s
  | CondVar_NotifyAll => NotifyAll (length (cond_waiters_ s)) CondWaiters s
  | NewTimeout tm d => TimeoutGuard_new tm d f s
  | DestroyTimeout tm => Timer_destroy tm s
  | CancelGuard b => Ok (upd f (set_guard b) s)
  | FreezeTime b => Ok (set_time (now_ s) b s)
  | AdvanceTime delta => Ok (set_time (now_ s + delta) (time_freezed_ s) s)
  | Finish r => Run_end r f s
  end.

(** ** scheduler.cpp *)

(** [OnExpired] of the two kinds of timers *)
Definition OnExpired (tm : nat) (s : sched) : outcome sched :=
  match timer_of s !! tm with
  | Some (f, SleepTimer) => Unpark f s
  | Some (f, TimeoutGuard) => NotifyTimeout f s
  | None => Fail UB
  end.

Fixpoint RunTimers (fuel : nat) (s : sched) : outcome sched :=
  match fuel with
  | O => Fail Fuel
  | S fuel =>
      match TimerHeap.GetMin (timers_ s) with
      | None => Ok s
      | Some next_timer =>
          d <-? TimerHeap.GetDeadline next_timer (timers_ s) ;;
          if (d <? now_ s)%Z then
            h <-? TimerHeap.Deactivate next_timer (timers_ s) ;;
            s <-? OnExpired next_timer (set_timers h (timer_of s) s) ;;
            RunTimers fuel s
          else Ok s
      end
  end.

(** [RunFiber] up to the next call of the user's code, or until the fiber parks. *)
Definition RunFiber (f : nat) (s : sched) : outcome sched :=
  x <-? deref f s ;;
  match state_ x, this_fiber s with
  | Dead, _ | _, Some _ => Fail Abort
  | _, None =>
      let s := set_this (Some f) s in
      match at_ x with
      | Start => Ok (upd f (λ x, set_state Running (set_at (User Returned) x)) s)
      | Parked k => Resume k f (upd f (set_at (User Returned)) s)
      | User _ | Finished => Fail UB
      end
  end.

(** One round of [RunLoop], at the time [clock] of the steady clock; [Poll] only waits,
    since no fiber waits for a socket here. *)
Definition RunLoop_body (clock : Z) (s : sched) : outcome sched :=
  s <-? (if time_freezed_ s then Ok s
         else if (now_ s <=? clock)%Z then Ok (set_time clock false s) else Fail Abort) ;;
  s <-? RunTimers (S (length (TimerHeap.heap_ (timers_ s)))) s ;;
  match run_queue_ s with
  | [] => Ok s
  | f :: rest => RunFiber f (set_queue rest s)
  end.

(** [Scheduler::Run] up to the loop *)
Definition make (main : nat) (now : Z) : sched :=
  mkSched {[ main := new_fiber None ]} [main] None main ∅ false [] [] TimerHeap.make ∅ now false.

(** What the user's code of fiber [f] may do.  Objects are used while they live, by one
    owner; a fiber does not destroy itself or its group; none is added to a group that
    has become empty while somebody waits for that; the guard of the mutex is
    locked and unlocked in turn; a fiber ends when the objects on its stack are gone,
    and one without a group lets no exception out. *)
Definition allowed (c : call) (f : nat) (x : FiberImpl) (s : sched) : Prop :=
  match c with
  | SleepFor tm _ | NewTimeout tm _ =>
      timer_of s !! tm = None ∧ (Z.of_nat (length (TimerHeap.heap_ (timers_ s))) < 2 ^ 31)%Z
  | NewFiber c => fibers s !! c = None
  | DestroyFiber c =>
      ∃ y, fibers s !! c = Some y ∧ deleted y = false ∧ group_ y = None ∧ waiter_ y = None ∧
        c ≠ f ∧ c ≠ main_fiber_ s
  | NewGroup g _ => groups s !! g = None
  | Spawn g c => fibers s !! c = None ∧ ∃ G, groups s !! g = Some G ∧
      (joiner_ G = None ∧ group_waiter_ G = None ∨ fibers_ G ≠ [])
  | DestroyGroup g =>
      group_ x ≠ Some g ∧ ∃ G, groups s !! g = Some G ∧ joiner_ G = None ∧ group_waiter_ G = None
  | WaitGroup_Wait g => ∃ G, groups s !! g = Some G ∧ is_wait G = true ∧ group_waiter_ G = None
  | Lock => guard_locked_ x = false
  | Unlock | CondVar_Wait => guard_locked_ x = true
  | DestroyTimeout tm => timer_of s !! tm = Some (f, TimeoutGuard)
  | AdvanceTime delta => time_freezed_ s = true ∧ (0 <= delta)%Z
  | Finish r =>
      guard_locked_ x = false ∧ (∀ tm k, timer_of s !! tm ≠ Some (f, k)) ∧
      match r with
      | Threw e => is_std_exception e = true → group_ x = None → f = main_fiber_ s
      | Returned => True
      end
  | Yield | CondVar_NotifyOne | CondVar_NotifyAll | CancelGuard _ | FreezeTime _ => True
  end.

(** The loop runs while the main fiber has not ended, at any time [clock] of the steady clock. *)
Inductive step (s s' : sched) : Prop :=
| StepLoop clock x : this_fiber s = None → fibers s !! main_fiber_ s = Some x → state_ x ≠ Dead →
    RunLoop_body clock s = Ok s' → step s s'
| StepCall f x r c : this_fiber s = Some f → fibers s !! f = Some x → at_ x = User r →
    allowed c f x s → exec c f s = Ok s' → step s s'.

Definition init (s : sched) : Prop := ∃ main now, s = make main now.
