(* ===== verification/FiberInv.v ===== *)
(** * The invariant of the scheduler

    What holds of fibers, groups, timers, the mutex and the run queue between two calls
    of the library ([inv]), and the lemmas with which a change of one object is shown
    to keep it: [core_local] for a change of one fiber that others do not see,
    [core_wake] for a wake-up, and [move_core] for the changes of the running fiber,
    which open the invariant at that fiber ([hole]) and close it again. *)

From S2P Require Import Prelude TimerHeap Fibers.

#[local] Set Warnings "-clear-no-such-hyp".

(** ** The invariant *)

Definition interrupted (x : FiberImpl) : Prop :=
  cancel_guarded_ x = false ∧ (canceled_ x = true ∨ timedout_ x = true).

Definition fin (x : FiberImpl) : bool := match at_ x with Finished => true | _ => false end.

(** What the other fibers see of a fiber. *)
Definition vis (x : FiberImpl) : bool * option nat * option nat * bool :=
  (deleted x, waiter_ x, group_ x, fin x).

Abbreviation active s := (TimerHeap.abs (timers_ s)).

(** What has to have happened for a parked fiber to go on. *)
Definition woken (s : sched) (x : FiberImpl) (k : kont) : Prop :=
  match k with
  | Yielding => True
  | InSleep tm _ => active s !! tm = None ∨ interrupted x
  | Joining c _ => ∃ y, fibers s !! c = Some y ∧ fin y = true
  | GroupJoining g _ => ∃ G, groups s !! g = Some G ∧ fibers_ G = []
  | GroupWaiting g =>
      (∃ G, groups s !! g = Some G ∧ (fibers_ G = [] ∨ is_Some (first_error_ G))) ∨ interrupted x
  | Locking _ | CondWaiting => wakeup x = true ∨ interrupted x
  end.

Definition kont_ok (s : sched) (f : nat) (x : FiberImpl) (k : kont) : Prop :=
  match k with
  | Yielding => True
  | InSleep tm d =>
      timer_of s !! tm = Some (f, SleepTimer) ∧
      (active s !! tm = Some d ∨ active s !! tm = None ∧ (d < now_ s)%Z)
  | Joining c _ =>
      cancel_guarded_ x = true ∧
      ∃ y, fibers s !! c = Some y ∧ deleted y = false ∧ waiter_ y = Some f ∧ group_ y = None
  | GroupJoining g _ =>
      cancel_guarded_ x = true ∧ group_ x ≠ Some g ∧
      ∃ G, groups s !! g = Some G ∧ joiner_ G = Some f ∧ is_wait G = false
  | GroupWaiting g => ∃ G, groups s !! g = Some G ∧ group_waiter_ G = Some f ∧ is_wait G = true
  | Locking _ => f ∈ lockers_ s ↔ wakeup x = false
  | CondWaiting => f ∈ cond_waiters_ s ↔ wakeup x = false
  end.

Definition place_ok (s : sched) (f : nat) (x : FiberImpl) : Prop :=
  match at_ x with
  | Start => f ∈ run_queue_ s
  | User _ | Finished => f ∉ run_queue_ s
  | Parked k => kont_ok s f x k ∧ (f ∈ run_queue_ s ↔ woken s x k)
  end.

(** A fiber can have the mutex here. *)
Definition may_hold (p : pc) : bool :=
  match p with Start | Finished | Parked (Locking _) | Parked CondWaiting => false | _ => true end.

Record fiber_ok (s : sched) (f : nat) (x : FiberImpl) : Prop := {
  f_dead : state_ x = Dead ↔ fin x = true;
  f_deleted : deleted x = true → fin x = true;
  f_waiter : ∀ w, waiter_ x = Some w → ∃ y sv, fibers s !! w = Some y ∧ at_ y = Parked (Joining f sv);
  f_group : ∀ g, group_ x = Some g → fin x = false → ∃ G, groups s !! g = Some G ∧ f ∈ fibers_ G;
  f_hold : guard_locked_ x = true → may_hold (at_ x) = true;
  f_place : place_ok s f x;
}.

Record group_ok (s : sched) (g : nat) (G : Group) : Prop := {
  g_nodup : NoDup (fibers_ G);
  g_fibers : ∀ f, f ∈ fibers_ G → ∃ x, fibers s !! f = Some x ∧ group_ x = Some g ∧ fin x = false;
  g_joiner : ∀ w, joiner_ G = Some w → ∃ y sv, fibers s !! w = Some y ∧ at_ y = Parked (GroupJoining g sv);
  g_waiter : ∀ w, group_waiter_ G = Some w →
    is_wait G = true ∧ ∃ y, fibers s !! w = Some y ∧ at_ y = Parked (GroupWaiting g);
}.

Record timers_ok (s : sched) : Prop := {
  t_wf : TimerHeap.wf (timers_ s);
  t_active : ∀ tm, is_Some (active s !! tm) → is_Some (timer_of s !! tm);
  t_owner : ∀ tm f k, timer_of s !! tm = Some (f, k) →
    ∃ x, fibers s !! f = Some x ∧ fin x = false ∧
      (k = SleepTimer → ∃ d, at_ x = Parked (InSleep tm d));
}.

Record core (s : sched) : Prop := {
  c_queue : NoDup (run_queue_ s);
  c_queued : ∀ f, f ∈ run_queue_ s → is_Some (fibers s !! f);
  c_this : ∀ f, this_fiber s = Some f ↔ ∃ x r, fibers s !! f = Some x ∧ at_ x = User r;
  c_fiber : ∀ f x, fibers s !! f = Some x → fiber_ok s f x;
  c_lockers : NoDup (lockers_ s) ∧
    ∀ f, f ∈ lockers_ s → ∃ x b, fibers s !! f = Some x ∧ at_ x = Parked (Locking b);
  c_conds : NoDup (cond_waiters_ s) ∧
    ∀ f, f ∈ cond_waiters_ s → ∃ x, fibers s !! f = Some x ∧ at_ x = Parked CondWaiting;
  c_unique : ∀ f f' x x', fibers s !! f = Some x → fibers s !! f' = Some x' →
    guard_locked_ x = true → guard_locked_ x' = true → f = f';
  c_locked : locked_ s = true ↔ ∃ f x, fibers s !! f = Some x ∧ guard_locked_ x = true;
  c_group : ∀ g G, groups s !! g = Some G → group_ok s g G;
  c_timers : timers_ok s;
  c_main : is_Some (fibers s !! main_fiber_ s);
}.

(** While the mutex is free and somebody waits for it, somebody has been woken. *)
Definition no_lost_wakeup (s : sched) : Prop :=
  locked_ s = false → lockers_ s ≠ [] →
  ∃ f x b, fibers s !! f = Some x ∧ at_ x = Parked (Locking b) ∧ wakeup x = true.

Definition inv (s : sched) : Prop := core s ∧ no_lost_wakeup s.

Lemma fin_at x : fin x = true ↔ at_ x = Finished.
Proof. unfold fin. destruct (at_ x); done. Qed.

Definition emptyb (l : list nat) : bool := match l with [] => true | _ => false end.

Lemma emptyb_eq l l' : emptyb l = emptyb l' → l = [] → l' = [].
Proof. by destruct l, l'. Qed.

Definition join_view (G : Group) : bool * option nat * bool := (emptyb (fibers_ G), joiner_ G, is_wait G).
Definition wait_view (G : Group) : bool * option exn * option nat * bool :=
  (emptyb (fibers_ G), first_error_ G, group_waiter_ G, is_wait G).

(** What a fiber that is parked at [k] sees of a change. *)
Definition sees (k : kont) (s s' : sched) : Prop :=
  match k with
  | InSleep tm _ =>
      timer_of s' !! tm = timer_of s !! tm ∧ active s' !! tm = active s !! tm ∧ (now_ s <= now_ s')%Z
  | Joining c _ => vis <$> fibers s' !! c = vis <$> fibers s !! c
  | GroupJoining g _ => join_view <$> groups s' !! g = join_view <$> groups s !! g
  | GroupWaiting g => wait_view <$> groups s' !! g = wait_view <$> groups s !! g
  | Yielding | Locking _ | CondWaiting => True
  end.

Lemma kont_frame s s' f x k :
  kont_ok s f x k → sees k s s' → (f ∈ lockers_ s' ↔ f ∈ lockers_ s) →
  (f ∈ cond_waiters_ s' ↔ f ∈ cond_waiters_ s) → kont_ok s' f x k.
Proof.
  intros Hk Hs Hl Hc. destruct k as [|tm d|c sv|g sv|g|b|]; cbn in *.
  - done.
  - destruct Hs as (->&->&Hn). split; [apply Hk|]. destruct Hk as [_ [?|[? ?]]]; [by left|].
    right. split; [done|lia].
  - destruct Hk as (Hgd&y&Hy&Hd&Hwt&Hgr). split; [done|]. rewrite Hy in Hs. cbn in Hs.
    apply fmap_Some in Hs as (y'&Hy'&Hv). unfold vis in Hv. simplify_eq.
    exists y'. split_and!; congruence.
  - destruct Hk as (?&?&G&HG&?&?). split_and!; [done|done|]. rewrite HG in Hs. cbn in Hs.
    apply fmap_Some in Hs as (G'&HG'&Hv). unfold join_view in Hv. simplify_eq. exists G'. split_and!; congruence.
  - destruct Hk as (G&HG&?&?). rewrite HG in Hs. cbn in Hs.
    apply fmap_Some in Hs as (G'&HG'&Hv). unfold wait_view in Hv. simplify_eq. exists G'. split_and!; congruence.
  - by rewrite Hl.
  - by rewrite Hc.
Qed.

Lemma woken_frame s s' x k : sees k s s' → woken s' x k ↔ woken s x k.
Proof.
  intros Hs. destruct k as [|tm d|c sv|g sv|g|b|]; cbn in *; try done.
  - by destruct Hs as (_&->&_).
  - split; intros (y&Hy&Hf); rewrite Hy in Hs; cbn in Hs; [symmetry in Hs|];
      apply fmap_Some in Hs as (y'&Hy'&Hv); unfold vis in Hv; simplify_eq; exists y'; split; congruence.
  - split; intros (y&Hy&Hf); rewrite Hy in Hs; cbn in Hs; [symmetry in Hs|];
      apply fmap_Some in Hs as (y'&Hy'&Hv); unfold join_view in Hv; injection Hv as He _ _; exists y';
      (split; [done|by eapply emptyb_eq]).
  - assert (∀ s s', wait_view <$> groups s' !! g = wait_view <$> groups s !! g →
      (∃ G, groups s !! g = Some G ∧ (fibers_ G = [] ∨ is_Some (first_error_ G))) →
      ∃ G, groups s' !! g = Some G ∧ (fibers_ G = [] ∨ is_Some (first_error_ G))) as Hw.
    { intros s1 s2 Hv (G&HG&Hor). rewrite HG in Hv. cbn in Hv. apply fmap_Some in Hv as (G'&HG'&Hv).
      unfold wait_view in Hv. injection Hv as He Hv _ _. exists G'. split; [done|].
      destruct Hor as [?|?]; [left; by eapply emptyb_eq|right; by rewrite <- Hv]. }
    split; (intros [?|?]; [left|by right]); by eapply Hw.
Qed.

Lemma place_frame s s' f x :
  place_ok s f x →
  (f ∈ run_queue_ s' ↔ f ∈ run_queue_ s) → (f ∈ lockers_ s' ↔ f ∈ lockers_ s) →
  (f ∈ cond_waiters_ s' ↔ f ∈ cond_waiters_ s) →
  (∀ k, at_ x = Parked k → sees k s s') → place_ok s' f x.
Proof.
  unfold place_ok. intros Hp Hq Hl Hc Hs. destruct (at_ x) as [|r|k|]; [by rewrite Hq..| |by rewrite Hq].
  specialize (Hs k eq_refl). rewrite Hq, woken_frame by done. destruct Hp as [Hk Hw].
  split; [by eapply kont_frame|done].
Qed.

(** Places that some other object refers to. *)
Definition registered (p : pc) : bool :=
  match p with
  | Parked (InSleep _ _ | Joining _ _ | GroupJoining _ _ | GroupWaiting _) => true
  | _ => false
  end.

(** The mutex stays, is taken by the fiber, or is released by it. *)
Definition mutex_move (s s' : sched) (x x' : FiberImpl) : Prop :=
  guard_locked_ x' = guard_locked_ x ∧ locked_ s' = locked_ s ∨
  locked_ s = false ∧ locked_ s' = true ∧ guard_locked_ x' = true ∨
  guard_locked_ x = true ∧ guard_locked_ x' = false ∧ locked_ s' = false.

(** A change of one fiber and of its membership in the lists. *)
Record local (f : nat) (x x' : FiberImpl) (s s' : sched) : Prop := {
  l_old : fibers s !! f = Some x;
  l_new : fibers s' = <[f := x']> (fibers s);
  l_vis : vis x' = vis x;
  l_groups : groups s' = groups s;
  l_timers : timers_ s' = timers_ s;
  l_timer_of : timer_of s' = timer_of s;
  l_now : now_ s' = now_ s;
  l_main : main_fiber_ s' = main_fiber_ s;
  l_queue : NoDup (run_queue_ s') ∧ ∀ j, j ≠ f → j ∈ run_queue_ s' ↔ j ∈ run_queue_ s;
  l_lockers : NoDup (lockers_ s') ∧ ∀ j, j ≠ f → j ∈ lockers_ s' ↔ j ∈ lockers_ s;
  l_conds : NoDup (cond_waiters_ s') ∧ ∀ j, j ≠ f → j ∈ cond_waiters_ s' ↔ j ∈ cond_waiters_ s;
  l_this : ∀ j, this_fiber s' = Some j ↔ (j ≠ f ∧ this_fiber s = Some j) ∨ (j = f ∧ ∃ r, at_ x' = User r);
  l_registered : registered (at_ x) = true → at_ x' = at_ x;
  l_mutex : mutex_move s s' x x';
}.

Lemma local_lookup f x x' s s' j :
  local f x x' s s' → fibers s' !! j = if decide (j = f) then Some x' else fibers s !! j.
Proof.
  intros Hl. rewrite (l_new _ _ _ _ _ Hl). case_decide; subst; by rewrite ?lookup_insert_eq, ?lookup_insert_ne.
Qed.

Lemma local_vis f x x' s s' j : local f x x' s s' → vis <$> fibers s' !! j = vis <$> fibers s !! j.
Proof.
  intros Hl. rewrite (local_lookup f x x' s s' j Hl). case_decide; subst; [|done].
  rewrite (l_old _ _ _ _ _ Hl). cbn. f_equal. apply Hl.
Qed.

(** References to registered places survive. *)
Lemma local_at f x x' s s' j y :
  local f x x' s s' → fibers s !! j = Some y → registered (at_ y) = true →
  ∃ y', fibers s' !! j = Some y' ∧ at_ y' = at_ y.
Proof.
  intros Hl Hj Hr. rewrite (local_lookup f x x' s s' j Hl). case_decide; subst; [|eauto].
  exists x'. split; [done|]. rewrite (l_old _ _ _ _ _ Hl) in Hj. simplify_eq. by apply Hl.
Qed.

Lemma local_sees f x x' s s' k : local f x x' s s' → sees k s s'.
Proof.
  intros Hl. destruct k as [|tm d|c sv|g sv|g|b|]; cbn; try done.
  - rewrite (l_timer_of _ _ _ _ _ Hl), (l_timers _ _ _ _ _ Hl), (l_now _ _ _ _ _ Hl). done.
  - by eapply local_vis.
  - by rewrite (l_groups _ _ _ _ _ Hl).
  - by rewrite (l_groups _ _ _ _ _ Hl).
Qed.

Lemma core_local f x x' s s' :
  core s → local f x x' s s' →
  (state_ x' = Dead ↔ fin x' = true) → (guard_locked_ x' = true → may_hold (at_ x') = true) →
  (f ∈ lockers_ s' → ∃ b, at_ x' = Parked (Locking b)) → (f ∈ cond_waiters_ s' → at_ x' = Parked CondWaiting) →
  place_ok s' f x' → core s'.
Proof.
  intros Hc Hl Hst Hh Hlk Hcd Hp. pose proof (local_lookup f x x' s s') as Hlook.
  pose proof (l_vis _ _ _ _ _ Hl) as Hv. unfold vis in Hv. injection Hv as Hvd Hvw Hvg Hvf.
  pose proof (l_old _ _ _ _ _ Hl) as Hx. pose proof (c_fiber s Hc f x Hx) as Hfx.
  split.
  - apply Hl.
  - intros j Hj. rewrite Hlook by done. case_decide; [eauto|]. apply (c_queued s Hc). by apply Hl.
  - intros j. rewrite (l_this _ _ _ _ _ Hl j), Hlook by done. case_decide as Hjf; subst.
    + split.
      * intros [[? _]|[_ [r Hr]]]; [done|]. by exists x', r.
      * intros (y&r&[= <-]&Hr). right. eauto.
    + rewrite (c_this s Hc j). split; [intros [[_ ?]|[? _]]; done|]. intros Hy. by left.
  - intros j y. rewrite Hlook by done. case_decide as Hjf; subst.
    + intros [= <-]. split; [done| | | |done|done].
      * rewrite Hvd, Hvf. apply Hfx.
      * intros w. rewrite Hvw. intros (z&sv&Hz&Haz)%(f_waiter _ _ _ Hfx).
        destruct (local_at f x x' s s' w z Hl Hz) as (z'&?&?); [by rewrite Haz|]. exists z', sv. by split; [|congruence].
      * intros g. rewrite Hvg, Hvf, (l_groups _ _ _ _ _ Hl). apply Hfx.
    + intros Hy. pose proof (c_fiber s Hc j y Hy) as [? ? Hw Hg ? Hpl]. split; [done|done| |by rewrite (l_groups _ _ _ _ _ Hl)|done|].
      * intros w Hwy. destruct (Hw w Hwy) as (z&sv&Hz&Haz).
        destruct (local_at f x x' s s' w z Hl Hz) as (z'&?&?); [by rewrite Haz|]. exists z', sv. by split; [|congruence].
      * eapply place_frame; [exact Hpl|by apply Hl|by apply Hl|by apply Hl|].
        intros k _. by eapply local_sees.
  - split; [apply Hl|]. intros j Hj. rewrite Hlook by done. case_decide as Hjf; subst.
    + destruct (Hlk Hj) as [b Hb]. eauto.
    + apply (proj2 (c_lockers s Hc)). by apply Hl.
  - split; [apply Hl|]. intros j Hj. rewrite Hlook by done. case_decide as Hjf; subst.
    + eauto.
    + apply (proj2 (c_conds s Hc)). by apply Hl.
  - intros j j' y y'. rewrite !Hlook by done. pose proof (c_locked s Hc) as Hlocked.
    assert (∀ i z, i ≠ f → fibers s !! i = Some z → guard_locked_ z = true → guard_locked_ x' = true → False) as Hother.
    { intros i z Hne Hz Hgz Hgx'. destruct (l_mutex _ _ _ _ _ Hl) as [[Hgx _]|[(Hf&_)|(_&?&_)]]; [| |congruence].
      - destruct Hne. eapply (c_unique s Hc i f z x); [done|done|done|congruence].
      - rewrite (proj2 Hlocked) in Hf; [done|eauto]. }
    repeat case_decide; subst; intros H1 H2 H3 H4; simplify_eq; [done|by exfalso; eauto|by exfalso; eauto|].
    by eapply (c_unique s Hc).
  - pose proof (c_locked s Hc) as Hlocked. setoid_rewrite Hlook; [|done..].
    destruct (l_mutex _ _ _ _ _ Hl) as [[Hgx ->]|[(Hf&->&Hg)|(Hg&Hg'&->)]].
    + rewrite Hlocked. split; intros (j&y&Hy&Hgy).
      * destruct (decide (j = f)) as [->|Hne]; [exists f, x'; rewrite decide_True; [|done]; simplify_eq; split; congruence|].
        exists j, y. by rewrite decide_False.
      * case_decide; simplify_eq; [exists f, x; split; congruence|eauto].
    + split; [|done]. intros _. exists f, x'. by rewrite decide_True.
    + split; [done|]. intros (j&y&Hy&Hgy). case_decide; [congruence|].
      assert (j = f); [|done]. by eapply (c_unique s Hc j f y x).
  - intros g G. rewrite (l_groups _ _ _ _ _ Hl). intros HG. pose proof (c_group s Hc g G HG) as [? Hf Hj Hw].
    split; [done| | |].
    + intros j (y&Hy&Hgy&Hfy)%Hf. rewrite Hlook by done. case_decide; subst; [|eauto].
      simplify_eq. exists x'. split_and!; congruence.
    + intros w (y&sv&Hy&Hay)%Hj. destruct (local_at f x x' s s' w y Hl Hy) as (y'&?&?); [by rewrite Hay|].
      exists y', sv. by split; [|congruence].
    + intros w [? (y&Hy&Hay)]%Hw. split; [done|].
      destruct (local_at f x x' s s' w y Hl Hy) as (y'&?&?); [by rewrite Hay|]. exists y'. by split; [|congruence].
  - pose proof (c_timers s Hc) as [? ? Ho]. split; rewrite ?(l_timers _ _ _ _ _ Hl), ?(l_timer_of _ _ _ _ _ Hl); [done|done|].
    intros tm j k (y&Hy&Hfy&Hay)%Ho. rewrite Hlook by done. case_decide; subst; [|eauto]. simplify_eq.
    exists x'. split_and!; [done|congruence|]. intros [d Hd]%Hay. exists d. rewrite <- Hd. apply Hl. by rewrite Hd.
  - rewrite (l_main _ _ _ _ _ Hl), Hlook by done. case_decide; [eauto|apply (c_main s Hc)].
Qed.

(** *** Waking a fiber up *)

Definition push (f : nat) (s : sched) : sched :=
  if decide (f ∈ run_queue_ s) then s else set_queue (run_queue_ s ++ [f]) s.

Lemma push_queue f s : run_queue_ (push f s) = if decide (f ∈ run_queue_ s) then run_queue_ s else run_queue_ s ++ [f].
Proof. unfold push. by case_decide. Qed.

Lemma push_fields f s :
  fibers (push f s) = fibers s ∧ groups (push f s) = groups s ∧ timers_ (push f s) = timers_ s ∧
  timer_of (push f s) = timer_of s ∧ now_ (push f s) = now_ s ∧ main_fiber_ (push f s) = main_fiber_ s ∧
  lockers_ (push f s) = lockers_ s ∧ cond_waiters_ (push f s) = cond_waiters_ s ∧
  this_fiber (push f s) = this_fiber s ∧ locked_ (push f s) = locked_ s.
Proof. unfold push. by case_decide. Qed.

Lemma push_in f s : f ∈ run_queue_ (push f s).
Proof. rewrite push_queue. case_decide; [done|set_solver]. Qed.

Lemma push_other f s j : j ≠ f → j ∈ run_queue_ (push f s) ↔ j ∈ run_queue_ s.
Proof. intros ?. rewrite push_queue. case_decide; [done|set_solver]. Qed.

Lemma push_nodup f s : NoDup (run_queue_ s) → NoDup (run_queue_ (push f s)).
Proof.
  rewrite push_queue. case_decide; [done|]. intros. apply NoDup_app. split_and!; [done| |apply NoDup_singleton].
  set_solver.
Qed.

Lemma Unpark_ok f s x :
  core s → fibers s !! f = Some x → fin x = false → Unpark f s = Ok (push f s).
Proof.
  intros Hc Hx Hf. pose proof (c_fiber s Hc f x Hx) as [Hd Hdel _ _ _ _]. rewrite Hf in Hd, Hdel.
  unfold Unpark, deref. rewrite Hx. destruct (deleted x); [by discriminate Hdel|]. cbn [bindO].
  unfold push. destruct (state_ x); try done. by discriminate (proj1 Hd).
Qed.

Lemma core_this_parked s f x : core s → fibers s !! f = Some x → (∀ r, at_ x ≠ User r) → this_fiber s ≠ Some f.
Proof. intros Hc Hx Ha (y&r&Hy&Hr)%(c_this s Hc). simplify_eq. by eapply Ha. Qed.

(** The lists are changed at [f] only: what [local] asks, for a fiber that stays where it
    is. *)
Lemma local_stay f x x' s s' :
  core s → fibers s !! f = Some x → fibers s' = <[f := x']> (fibers s) →
  at_ x' = at_ x → vis x' = vis x → guard_locked_ x' = guard_locked_ x →
  (groups s' = groups s ∧ timers_ s' = timers_ s ∧ timer_of s' = timer_of s ∧ now_ s' = now_ s ∧
   main_fiber_ s' = main_fiber_ s ∧ this_fiber s' = this_fiber s ∧ locked_ s' = locked_ s) →
  (NoDup (run_queue_ s') ∧ ∀ j, j ≠ f → j ∈ run_queue_ s' ↔ j ∈ run_queue_ s) →
  (NoDup (lockers_ s') ∧ ∀ j, j ≠ f → j ∈ lockers_ s' ↔ j ∈ lockers_ s) →
  (NoDup (cond_waiters_ s') ∧ ∀ j, j ≠ f → j ∈ cond_waiters_ s' ↔ j ∈ cond_waiters_ s) →
  local f x x' s s'.
Proof.
  intros Hc Hx Hf Ha Hv Hg (?&?&?&?&?&Hthis&?) ???. split; try done.
  - intros j. rewrite Hthis, Ha, (c_this s Hc j).
    destruct (decide (j = f)) as [->|Hne].
    + split; [intros (y&r&Hy&Hr); simplify_eq; right; eauto|]. intros [[? _]|[_ [r Hr]]]; [done|eauto].
    + split; [by left|]. by intros [[_ ?]|[? _]].
  - by left.
Qed.

(** A fiber that does not run is woken up (or was awake already), by a change of its
    flags or of the queue it waits in. *)
Lemma core_wake f x x' s s1 :
  core s → fibers s !! f = Some x → fibers s1 = <[f := x']> (fibers s) →
  at_ x' = at_ x → vis x' = vis x → guard_locked_ x' = guard_locked_ x → state_ x' = state_ x →
  (groups s1 = groups s ∧ timers_ s1 = timers_ s ∧ timer_of s1 = timer_of s ∧ now_ s1 = now_ s ∧
   main_fiber_ s1 = main_fiber_ s ∧ this_fiber s1 = this_fiber s ∧ locked_ s1 = locked_ s) →
  run_queue_ s1 = run_queue_ s →
  (NoDup (lockers_ s1) ∧ ∀ j, j ∈ lockers_ s1 → j ∈ lockers_ s) →
  (∀ j, j ≠ f → j ∈ lockers_ s → j ∈ lockers_ s1) →
  (NoDup (cond_waiters_ s1) ∧ ∀ j, j ∈ cond_waiters_ s1 → j ∈ cond_waiters_ s) →
  (∀ j, j ≠ f → j ∈ cond_waiters_ s → j ∈ cond_waiters_ s1) →
  (at_ x = Start ∨ ∃ k, at_ x = Parked k ∧ woken s x' k ∧
     (kont_ok s f x k → (f ∈ lockers_ s1 ↔ f ∈ lockers_ s) → (f ∈ cond_waiters_ s1 ↔ f ∈ cond_waiters_ s) →
      kont_ok s f x' k) ∧
     ((f ∈ lockers_ s1 ↔ f ∈ lockers_ s) ∧ (f ∈ cond_waiters_ s1 ↔ f ∈ cond_waiters_ s) ∨ kont_ok s1 f x' k)) →
  core (push f s1).
Proof.
  intros Hc Hx Hf Ha Hv Hg Hst Hsh Hrq Hlk Hlk' Hcd Hcd' Hk.
  pose proof (push_fields f s1) as (Pf&Pg&Pt&Po&Pn&Pm&Pl&Pc&Pth&Plk).
  assert (local f x x' s (push f s1)) as Hl.
  { apply local_stay; [done|done|by rewrite Pf|done|done|done| | | |].
    - rewrite Pg, Pt, Po, Pn, Pm, Pth, Plk. done.
    - split; [apply push_nodup; rewrite Hrq; apply Hc|]. intros j Hj. by rewrite push_other, Hrq.
    - rewrite Pl. split; [apply Hlk|]. split; [apply Hlk|by apply Hlk'].
    - rewrite Pc. split; [apply Hcd|]. split; [apply Hcd|by apply Hcd']. }
  pose proof (c_fiber s Hc f x Hx) as Hfx.
  assert (fin x' = fin x) as Hfin by (unfold fin; by rewrite Ha).
  apply (core_local f x x' s _ Hc Hl).
  - rewrite Hst, Hfin. apply Hfx.
  - rewrite Hg, Ha. apply Hfx.
  - rewrite Pl, Ha. intros (y&b&Hy&?)%(proj2 Hlk)%(proj2 (c_lockers s Hc)). simplify_eq. eauto.
  - rewrite Pc, Ha. intros (y&Hy&?)%(proj2 Hcd)%(proj2 (c_conds s Hc)). simplify_eq. eauto.
  - unfold place_ok. rewrite Ha. destruct Hk as [->|(k&Hak&Hw&Hsame&Hko)]; [apply push_in|]. rewrite Hak.
    pose proof (f_place _ _ _ Hfx) as Hp. unfold place_ok in Hp. rewrite Hak in Hp.
    pose proof (local_sees f x x' s _ k Hl) as Hsees. split.
    + destruct Hko as [[H1 H2]|Hko].
      * eapply kont_frame; [by apply Hsame; [apply Hp|..]|done|by rewrite Pl|by rewrite Pc].
      * destruct k; cbn in Hko |- *; rewrite ?Pt, ?Po, ?Pn, ?Pf, ?Pg, ?Pl, ?Pc; done.
    + split; [intros _|intros _; apply push_in]. by rewrite woken_frame.
Qed.

(** What a wake-up leaves as it was. *)
Record alike (x x' : FiberImpl) : Prop := {
  a_at : at_ x' = at_ x;
  a_vis : vis x' = vis x;
  a_hold : guard_locked_ x' = guard_locked_ x;
  a_guard : cancel_guarded_ x' = cancel_guarded_ x;
  a_wakeup : wakeup x = true → wakeup x' = true;
  a_user : ∀ r, at_ x = User r → x' = x;
}.

Record keeps (s s' : sched) : Prop := {
  k_this : this_fiber s' = this_fiber s;
  k_main : main_fiber_ s' = main_fiber_ s;
  k_groups : groups s' = groups s;
  k_timers : timers_ s' = timers_ s;
  k_timer_of : timer_of s' = timer_of s;
  k_now : now_ s' = now_ s;
  k_frozen : time_freezed_ s' = time_freezed_ s;
  k_locked : locked_ s' = locked_ s;
  k_lockers : lockers_ s' `suffix_of` lockers_ s;
  k_conds : cond_waiters_ s' `suffix_of` cond_waiters_ s;
  k_queue : ∀ j, j ∈ run_queue_ s → j ∈ run_queue_ s';
  k_fibers : ∀ j, option_Forall2 alike (fibers s !! j) (fibers s' !! j);
}.

#[global] Instance alike_preorder : PreOrder alike.
Proof.
  split.
  - intros x. by split.
  - intros x y z [????? H1] [????? H2]. split; try congruence; [auto|]. intros r Hr. rewrite (H2 r); [by eapply H1|].
    by rewrite (H1 r).
Qed.

#[global] Instance keeps_preorder : PreOrder keeps.
Proof.
  split.
  - intros s. by split.
  - intros s1 s2 s3 [????????? ?? Hf] [????????? ?? Hf']. split; try congruence; try (by etrans); [by auto|].
    intros j. specialize (Hf j). specialize (Hf' j). destruct Hf; inversion Hf'; subst; constructor.
    by etrans.
Qed.

Lemma keeps_lookup s s' j x :
  keeps s s' → fibers s !! j = Some x → ∃ x', fibers s' !! j = Some x' ∧ alike x x'.
Proof. intros Hk Hx. pose proof (k_fibers _ _ Hk j) as Hf. rewrite Hx in Hf. inversion Hf; subst. eauto. Qed.

Lemma keeps_none s s' j : keeps s s' → fibers s !! j = None → fibers s' !! j = None.
Proof. intros Hk Hx. pose proof (k_fibers _ _ Hk j) as Hf. rewrite Hx in Hf. by inversion Hf. Qed.

Lemma keeps_user s s' j x r :
  keeps s s' → fibers s !! j = Some x → at_ x = User r → fibers s' !! j = Some x.
Proof. intros Hk Hx Hr. destruct (keeps_lookup _ _ _ _ Hk Hx) as (x'&->&Ha). f_equal. by eapply a_user. Qed.

Lemma keeps_awake s s' : keeps s s' → no_lost_wakeup s → no_lost_wakeup s'.
Proof.
  intros Hk Hn Hl Hne. rewrite (k_locked _ _ Hk) in Hl. destruct (Hn Hl) as (f&x&b&Hx&Ha&Hw).
  - intros Hnil. pose proof (k_lockers _ _ Hk) as Hs. rewrite Hnil in Hs. by apply suffix_nil_inv in Hs.
  - destruct (keeps_lookup _ _ _ _ Hk Hx) as (x'&Hx'&[Hat _ _ _ Hwk _]). exists f, x', b.
    split_and!; [done|congruence|auto].
Qed.

(** One fiber that does not run changed, its flags only. *)
Lemma keeps_one f x x' s s1 :
  fibers s !! f = Some x → fibers s1 = <[f := x']> (fibers s) → alike x x' →
  (groups s1 = groups s ∧ timers_ s1 = timers_ s ∧ timer_of s1 = timer_of s ∧ now_ s1 = now_ s ∧
   main_fiber_ s1 = main_fiber_ s ∧ this_fiber s1 = this_fiber s ∧ locked_ s1 = locked_ s) →
  time_freezed_ s1 = time_freezed_ s → run_queue_ s1 = run_queue_ s →
  lockers_ s1 `suffix_of` lockers_ s → cond_waiters_ s1 `suffix_of` cond_waiters_ s →
  keeps s s1 ∧ keeps s (push f s1).
Proof.
  intros Hx Hf Ha (Hg&Ht&Ho&Hn&Hm&Hth&Hlk) Hfr Hq Hl Hc.
  assert (keeps s s1) as H1.
  { split; try done; [by rewrite Hq|]. intros j. rewrite Hf. destruct (decide (j = f)) as [->|Hne].
    - rewrite lookup_insert_eq, Hx. by constructor.
    - rewrite lookup_insert_ne by done. destruct (fibers s !! j); by constructor. }
  split; [done|]. etrans; [exact H1|]. unfold push. case_decide; [done|]. split; try done. set_solver.
Qed.

Lemma alter_insert (s : sched) f x g : fibers s !! f = Some x → alter g f (fibers s) = <[f := g x]> (fibers s).
Proof.
  intros Hx. apply map_eq. intros j. destruct (decide (j = f)) as [->|].
  - by rewrite lookup_alter_eq, Hx, lookup_insert_eq.
  - by rewrite lookup_alter_ne, lookup_insert_ne.
Qed.

(** Setting one of the flags that interrupt. *)
Lemma interrupt_ok f x g s :
  core s → fibers s !! f = Some x → fin x = false → this_fiber s ≠ Some f →
  (g = set_canceled true ∨ g = set_timedout true) →
  ∃ s', (if cancel_guarded_ x then Ok (upd f g s) else Unpark f (upd f g s)) = Ok s' ∧ core s' ∧ keeps s s'.
Proof.
  intros Hc Hx Hf Ht Hg. pose proof (c_fiber s Hc f x Hx) as Hfx.
  assert (fibers (upd f g s) = <[f := g x]> (fibers s)) as Hu by (by apply alter_insert).
  assert (alike x (g x) ∧ state_ (g x) = state_ x ∧ (interrupted (g x) ↔ cancel_guarded_ x = false) ∧
          ∀ k, kont_ok s f (g x) k ↔ kont_ok s f x k) as (Ha&Hst&Hi&Hk).
  { assert (∀ r, at_ x ≠ User r) as Hnu.
    { intros r Hr. apply Ht. apply (c_this s Hc). eauto. }
    destruct Hg as [-> | ->]; (split_and!; [by split; try done; intros r Hr; destruct (Hnu r)|done| |by intros []]);
      unfold interrupted; cbn; tauto. }
  destruct (keeps_one f x (g x) s (upd f g s) Hx Hu Ha) as [K1 K2]; try done.
  destruct (cancel_guarded_ x) eqn:Hgd.
  - exists (upd f g s). split_and!; [done| |done].
    assert (local f x (g x) s (upd f g s)) as Hl.
    { apply local_stay; try done; try apply Ha; (split; [apply Hc|done]). }
    assert (at_ (g x) = at_ x) as Hat by apply Ha.
    apply (core_local f x (g x) s _ Hc Hl).
    + rewrite Hst. unfold fin. rewrite Hat. apply Hfx.
    + rewrite Hat, (a_hold _ _ Ha). apply Hfx.
    + rewrite Hat. cbn. intros (y&b&Hy&?)%(proj2 (c_lockers s Hc)). simplify_eq. eauto.
    + rewrite Hat. cbn. intros (y&Hy&?)%(proj2 (c_conds s Hc)). simplify_eq. eauto.
    + pose proof (f_place _ _ _ Hfx) as Hp. unfold place_ok in *. rewrite Hat.
      destruct (at_ x) as [|r|k|]; [done..| |done]. destruct Hp as [Hko Hw].
      pose proof (local_sees _ _ _ _ _ k Hl) as Hsees. split; [by apply (kont_frame s); [apply Hk|..]|].
      cbn [run_queue_ upd set_fibers]. rewrite Hw, (woken_frame s (upd f g s) (g x) k Hsees).
      assert (interrupted (g x) ↔ interrupted x) as Hii.
      { rewrite Hi. unfold interrupted. rewrite Hgd. split; [done|by intros [? _]]. }
      destruct k; cbn; rewrite ?Hii; try done; by destruct Hg as [-> | ->].
  - exists (push f (upd f g s)). split_and!; [| |done].
    + pose proof (f_dead _ _ _ Hfx) as Hd. pose proof (f_deleted _ _ _ Hfx) as Hdel. rewrite Hf in Hd, Hdel.
      unfold Unpark, deref. cbn [fibers upd set_fibers]. rewrite lookup_alter_eq, Hx. cbn [fmap option_fmap option_map].
      pose proof (a_vis _ _ Ha) as Hv. unfold vis in Hv. injection Hv as -> _ _ _.
      destruct (deleted x); [by discriminate Hdel|]. cbn [bindO]. rewrite Hst.
      unfold push. destruct (state_ x); try done. by discriminate (proj1 Hd).
    + apply (core_wake f x (g x) s); try done; try apply Ha; try (split; [apply Hc|done]).
      pose proof (f_place _ _ _ Hfx) as Hp. unfold place_ok in Hp.
      destruct (at_ x) as [|r|k|] eqn:Hat; [by left| | |by unfold fin in Hf; rewrite Hat in Hf].
      * destruct Ht. apply (c_this s Hc). eauto.
      * right. exists k. split_and!; [done| | |by left].
        -- destruct Hp as [Hko _]. destruct k; cbn in *; try by right; apply Hi.
           ++ done.
           ++ destruct Hko as [? _]. congruence.
           ++ destruct Hko as [? _]. congruence.
        -- intros ? _ _. by apply Hk.
Qed.

Lemma deref_ok s f x : core s → fibers s !! f = Some x → fin x = false → deref f s = Ok x.
Proof.
  intros Hc Hx Hf. unfold deref. rewrite Hx. destruct (deleted x) eqn:Hd; [|done].
  apply (f_deleted _ _ _ (c_fiber s Hc f x Hx)) in Hd. congruence.
Qed.

Lemma alive_state s f x : core s → fibers s !! f = Some x → fin x = false → state_ x ≠ Dead.
Proof. intros Hc Hx Hf Hd%(f_dead _ _ _ (c_fiber s Hc f x Hx)). congruence. Qed.

Lemma Cancel_ok f x s :
  core s → fibers s !! f = Some x → fin x = false → this_fiber s ≠ Some f →
  ∃ s', Cancel f s = Ok s' ∧ core s' ∧ keeps s s'.
Proof.
  intros Hc Hx Hf Ht. destruct (interrupt_ok f x (set_canceled true) s) as (s'&Hs'&?&?); [done..|by left|].
  exists s'. split_and!; [|done|done]. unfold Cancel. rewrite (deref_ok s f x) by done. cbn [bindO].
  pose proof (alive_state s f x Hc Hx Hf). by destruct (state_ x).
Qed.

Lemma NotifyTimeout_ok f x s :
  core s → fibers s !! f = Some x → fin x = false → this_fiber s ≠ Some f →
  ∃ s', NotifyTimeout f s = Ok s' ∧ core s' ∧ keeps s s'.
Proof.
  intros Hc Hx Hf Ht. destruct (interrupt_ok f x (set_timedout true) s) as (s'&Hs'&?&?); [done..|by right|].
  exists s'. split_and!; [|done|done]. unfold NotifyTimeout. by rewrite (deref_ok s f x).
Qed.

Definition queue_kont (q : wait_queue) (k : kont) : bool :=
  match q, k with Lockers, Locking _ | CondWaiters, CondWaiting => true | _, _ => false end.

Lemma queue_member s q f :
  core s → f ∈ waiters_ q s → ∃ x k, fibers s !! f = Some x ∧ at_ x = Parked k ∧ queue_kont q k = true.
Proof.
  intros Hc Hf. destruct q.
  - destruct (proj2 (c_lockers s Hc) f Hf) as (x&b&?&?). eauto.
  - destruct (proj2 (c_conds s Hc) f Hf) as (x&?&?). eauto.
Qed.

Lemma queue_nodup s q : core s → NoDup (waiters_ q s).
Proof. intros Hc. destruct q; apply Hc. Qed.

(** [NotifyOne] wakes the first waiter. *)
Lemma NotifyOne_ok q s :
  core s → ∃ s', NotifyOne q s = Ok s' ∧ core s' ∧ keeps s s' ∧
    (q = Lockers → no_lost_wakeup s') ∧ length (waiters_ q s') = length (waiters_ q s) - 1.
Proof.
  intros Hc. unfold NotifyOne. destruct (waiters_ q s) as [|f rest] eqn:Hq.
  { exists s. split_and!; [done|done|done| |by rewrite Hq]. intros ->. cbn in Hq. intros _ Hne. congruence. }
  destruct (queue_member s q f Hc) as (x&k&Hx&Hk&Hqk); [rewrite Hq; set_solver|].
  pose proof (queue_nodup s q Hc) as Hnd. rewrite Hq in Hnd. apply NoDup_cons in Hnd as [Hnin Hnd].
  set (s1 := upd f (set_wakeup true) (set_waiters q rest s)).
  assert (fibers (set_waiters q rest s) = fibers s) as Hfs by (by destruct q).
  assert (fibers s1 = <[f := set_wakeup true x]> (fibers s)) as Hu.
  { cbn. rewrite Hfs. by apply alter_insert. }
  assert (alike x (set_wakeup true x)) as Ha.
  { split; try done. intros r Hr. congruence. }
  assert (lockers_ s1 = match q with Lockers => rest | _ => lockers_ s end ∧
          cond_waiters_ s1 = match q with Lockers => cond_waiters_ s | _ => rest end ∧ run_queue_ s1 = run_queue_ s ∧
          time_freezed_ s1 = time_freezed_ s ∧
          (groups s1 = groups s ∧ timers_ s1 = timers_ s ∧ timer_of s1 = timer_of s ∧ now_ s1 = now_ s ∧
           main_fiber_ s1 = main_fiber_ s ∧ this_fiber s1 = this_fiber s ∧ locked_ s1 = locked_ s))
    as (Hlk&Hcd&Hrq&Hfr&Hsh) by (destruct q; done).
  destruct (keeps_one f x _ s s1 Hx Hu Ha) as [_ K2]; [done..|rewrite Hlk|rewrite Hcd|].
  { destruct q; [|done]. cbn in Hq. rewrite Hq. by apply suffix_cons_r. }
  { destruct q; [done|]. cbn in Hq. rewrite Hq. by apply suffix_cons_r. }
  exists (push f s1). split_and!.
  - unfold Unpark, deref. fold s1. rewrite Hu, lookup_insert_eq. cbn [deleted set_wakeup].
    pose proof (deref_ok s f x Hc Hx) as Hd. unfold fin in Hd. rewrite Hk in Hd. specialize (Hd eq_refl).
    unfold deref in Hd. rewrite Hx in Hd. destruct (deleted x); [done|]. cbn [bindO].
    pose proof (alive_state s f x Hc Hx) as Hst. unfold fin in Hst. rewrite Hk in Hst. specialize (Hst eq_refl).
    cbn [state_ set_wakeup]. unfold push. by destruct (state_ x).
  - pose proof (proj1 (c_lockers s Hc)) as NL. pose proof (proj1 (c_conds s Hc)) as NC.
    apply (core_wake f x (set_wakeup true x) s); try done; rewrite ?Hlk, ?Hcd.
    + destruct q; cbn in Hq; [|by split]. split; [done|]. rewrite Hq. set_solver.
    + destruct q; cbn in Hq; [|done]. rewrite Hq. set_solver.
    + destruct q; cbn in Hq; [by split|]. split; [done|]. rewrite Hq. set_solver.
    + destruct q; cbn in Hq; [done|]. rewrite Hq. set_solver.
    + right. exists k. split_and!; [done| | |right].
      * destruct q, k; try done; cbn; by left.
      * destruct q, k; try done; cbn; intros Hko Hl' Hc'; [rewrite <- Hl'|rewrite <- Hc']; by split.
      * destruct q, k; try done; cbn -[s1]; rewrite ?Hlk, ?Hcd; by split.
  - done.
  - intros -> _ _. destruct k; try done. exists f, (set_wakeup true x), in_wait.
    pose proof (push_fields f s1) as [Pf _]. rewrite Pf, Hu, lookup_insert_eq. done.
  - pose proof (push_fields f s1) as (_&_&_&_&_&_&Pl&Pc&_). destruct q; cbn [waiters_].
    + rewrite Pl, Hlk. cbn. lia.
    + rewrite Pc, Hcd. cbn. lia.
Qed.

Lemma NotifyAll_ok n q s :
  core s → length (waiters_ q s) ≤ n → ∃ s', NotifyAll n q s = Ok s' ∧ core s' ∧ keeps s s' ∧ waiters_ q s' = [].
Proof.
  revert s. induction n as [|n IH]; intros s Hc Hn; cbn [NotifyAll].
  - destruct (waiters_ q s) eqn:Hq; [by exists s|cbn in Hn; lia].
  - destruct (waiters_ q s) as [|f l] eqn:Hq; [by exists s|].
    destruct (NotifyOne_ok q s Hc) as (s1&->&Hc1&Hk1&_&Hl). cbn [bindO].
    destruct (IH s1 Hc1) as (s2&->&?&?&?).
    + rewrite Hl, Hq. cbn. cbn in Hn. lia.
    + exists s2. split_and!; [done|done|by etrans|done].
Qed.

(** *** The fiber that runs

    While fiber [f] runs, the others are as [core] says, and what refers to [f] is being
    changed. *)

Definition self (f : nat) (o : option nat) : Prop := o = None ∨ o = Some f.

Record hole (f : nat) (s : sched) : Prop := {
  h_queue : NoDup (run_queue_ s) ∧ ∀ j, j ∈ run_queue_ s → is_Some (fibers s !! j);
  h_others : ∀ j x, j ≠ f → fibers s !! j = Some x →
    (∀ r, at_ x ≠ User r) ∧ (guard_locked_ x = true → may_hold (at_ x) = true) ∧ place_ok s j x;
  h_fiber : ∀ j x, fibers s !! j = Some x →
    (state_ x = Dead ↔ fin x = true) ∧ (deleted x = true → fin x = true) ∧
    (∀ w, waiter_ x = Some w → w ≠ f → ∃ y sv, fibers s !! w = Some y ∧ at_ y = Parked (Joining j sv)) ∧
    (∀ g, group_ x = Some g → fin x = false → ∃ G, groups s !! g = Some G ∧ j ∈ fibers_ G);
  h_lockers : NoDup (lockers_ s) ∧ ∀ j, j ∈ lockers_ s → j ≠ f →
    ∃ x b, fibers s !! j = Some x ∧ at_ x = Parked (Locking b);
  h_conds : NoDup (cond_waiters_ s) ∧ ∀ j, j ∈ cond_waiters_ s → j ≠ f →
    ∃ x, fibers s !! j = Some x ∧ at_ x = Parked CondWaiting;
  h_unique : ∀ j j' x x', fibers s !! j = Some x → fibers s !! j' = Some x' →
    guard_locked_ x = true → guard_locked_ x' = true → j = j';
  h_locked : locked_ s = true ↔ ∃ j x, fibers s !! j = Some x ∧ guard_locked_ x = true;
  h_group : ∀ g G, groups s !! g = Some G →
    NoDup (fibers_ G) ∧
    (∀ j, j ∈ fibers_ G → ∃ x, fibers s !! j = Some x ∧ group_ x = Some g ∧ fin x = false) ∧
    (∀ w, joiner_ G = Some w → w ≠ f → ∃ y sv, fibers s !! w = Some y ∧ at_ y = Parked (GroupJoining g sv)) ∧
    (∀ w, group_waiter_ G = Some w → w ≠ f →
       is_wait G = true ∧ ∃ y, fibers s !! w = Some y ∧ at_ y = Parked (GroupWaiting g));
  h_timers : TimerHeap.wf (timers_ s) ∧
    (∀ tm, is_Some (active s !! tm) → is_Some (timer_of s !! tm)) ∧
    (∀ tm j k, timer_of s !! tm = Some (j, k) →
       ∃ x, fibers s !! j = Some x ∧ fin x = false ∧
         (j ≠ f → k = SleepTimer → ∃ d, at_ x = Parked (InSleep tm d)));
  h_main : is_Some (fibers s !! main_fiber_ s);
}.

(** What refers to [f] fits its place. *)
Record refs_ok (f : nat) (x : FiberImpl) (s : sched) : Prop := {
  r_waiter : ∀ c y, fibers s !! c = Some y → waiter_ y = Some f → ∃ sv, at_ x = Parked (Joining c sv);
  r_joiner : ∀ g G, groups s !! g = Some G → joiner_ G = Some f → ∃ sv, at_ x = Parked (GroupJoining g sv);
  r_group_waiter : ∀ g G, groups s !! g = Some G → group_waiter_ G = Some f →
    is_wait G = true ∧ at_ x = Parked (GroupWaiting g);
  r_timer : ∀ tm, timer_of s !! tm = Some (f, SleepTimer) → ∃ d, at_ x = Parked (InSleep tm d);
  r_locker : f ∈ lockers_ s → ∃ b, at_ x = Parked (Locking b);
  r_cond : f ∈ cond_waiters_ s → at_ x = Parked CondWaiting;
}.

Lemma core_open f x s :
  core s → fibers s !! f = Some x → (∀ j, this_fiber s = Some j → j = f) → hole f s ∧ refs_ok f x s.
Proof.
  intros Hc Hx Ht. split.
  - split; [|..|apply (c_main s Hc)].
    + split; apply Hc.
    + intros j y Hne Hy. pose proof (c_fiber s Hc j y Hy) as [? ? ? ? ? ?]. split_and!; [|done|done].
      intros r Hr. apply Hne, Ht, (c_this s Hc). eauto.
    + intros j y Hy. pose proof (c_fiber s Hc j y Hy) as [? ? ? ? ? ?]. split_and!; [done|done|eauto|done].
    + split; [apply Hc|]. intros j Hj _. by apply (proj2 (c_lockers s Hc)).
    + split; [apply Hc|]. intros j Hj _. by apply (proj2 (c_conds s Hc)).
    + apply (c_unique s Hc).
    + apply (c_locked s Hc).
    + intros g G HG. pose proof (c_group s Hc g G HG) as [? ? ? ?]. split_and!; [done|done|eauto|eauto].
    + pose proof (c_timers s Hc) as [? ? Ho]. split_and!; [done|done|]. intros tm j k Hj.
      destruct (Ho tm j k Hj) as (y&?&?&?). eauto.
  - split.
    + intros c y Hy Hw. destruct (f_waiter _ _ _ (c_fiber s Hc c y Hy) f Hw) as (z&sv&Hz&?). simplify_eq. eauto.
    + intros g G HG Hj. destruct (g_joiner _ _ _ (c_group s Hc g G HG) f Hj) as (z&sv&Hz&?). simplify_eq. eauto.
    + intros g G HG Hj. destruct (g_waiter _ _ _ (c_group s Hc g G HG) f Hj) as (?&z&Hz&?). by simplify_eq.
    + intros tm Htm. destruct (t_owner _ (c_timers s Hc) _ _ _ Htm) as (z&Hz&_&Hd). simplify_eq. by apply Hd.
    + intros (z&b&Hz&?)%(proj2 (c_lockers s Hc)). simplify_eq. eauto.
    + intros (z&Hz&?)%(proj2 (c_conds s Hc)). by simplify_eq.
Qed.

Lemma core_close f x s :
  hole f s → fibers s !! f = Some x → refs_ok f x s →
  (∀ j, this_fiber s = Some j ↔ j = f ∧ ∃ r, at_ x = User r) →
  (guard_locked_ x = true → may_hold (at_ x) = true) → place_ok s f x → core s.
Proof.
  intros Hh Hx Hr Ht Hg Hp.
  assert (∀ w (P : FiberImpl → Prop), (w ≠ f → ∃ y, fibers s !! w = Some y ∧ P y) → (w = f → P x) →
    ∃ y, fibers s !! w = Some y ∧ P y) as Hcase.
  { intros w P Hne Heq. destruct (decide (w = f)) as [->|]; eauto. }
  split; [apply Hh|apply Hh| |..|apply (h_main f s Hh)].
  - intros j. rewrite Ht. split; [intros [-> [r ?]]; eauto|]. intros (y&r&Hy&Hyr).
    destruct (decide (j = f)) as [->|Hne]; [simplify_eq; eauto|].
    by destruct (proj1 (h_others f s Hh j y Hne Hy) r).
  - intros j y Hy. destruct (h_fiber f s Hh j y Hy) as (?&?&Hw&?). split; [done|done| |done| |].
    + intros w Hwy. destruct (Hcase w (λ y, ∃ sv, at_ y = Parked (Joining j sv))) as (z&?&sv&?).
      * intros Hne. destruct (Hw w Hwy Hne) as (z&sv&?&?). eauto.
      * intros ->. by eapply r_waiter.
      * eauto.
    + destruct (decide (j = f)) as [->|Hne]; [by simplify_eq|]. by apply (h_others f s Hh j y Hne Hy).
    + destruct (decide (j = f)) as [->|Hne]; [by simplify_eq|]. by apply (h_others f s Hh j y Hne Hy).
  - split; [apply Hh|]. intros j Hj. destruct (Hcase j (λ y, ∃ b, at_ y = Parked (Locking b))) as (z&?&b&?).
    + intros Hne. destruct (proj2 (h_lockers f s Hh) j Hj Hne) as (z&b&?&?). eauto.
    + intros ->. by eapply r_locker.
    + eauto.
  - split; [apply Hh|]. intros j Hj. apply Hcase.
    + intros Hne. by apply (proj2 (h_conds f s Hh) j Hj Hne).
    + intros ->. by eapply r_cond.
  - apply (h_unique f s Hh).
  - apply (h_locked f s Hh).
  - intros g G HG. destruct (h_group f s Hh g G HG) as (?&?&Hj&Hw). split; [done|done| |].
    + intros w Hwj. destruct (Hcase w (λ y, ∃ sv, at_ y = Parked (GroupJoining g sv))) as (z&?&sv&?).
      * intros Hne. destruct (Hj w Hwj Hne) as (z&sv&?&?). eauto.
      * intros ->. by eapply r_joiner.
      * eauto.
    + intros w Hww. destruct (decide (w = f)) as [->|Hne]; [|by apply Hw].
      destruct (r_group_waiter f x s Hr g G HG Hww). eauto.
  - destruct (h_timers f s Hh) as (?&?&Ho). split; [done|done|]. intros tm j k Hj.
    destruct (Ho tm j k Hj) as (y&Hy&?&Hd). exists y. split_and!; [done|done|]. intros ->.
    destruct (decide (j = f)) as [->|Hne]; [|by apply Hd]. simplify_eq. by eapply r_timer.
Qed.

(** A fiber that may have got or lost [f] as its waiter, or been deleted by [f]. *)
Record fiber_move (f : nat) (y y' : FiberImpl) : Prop := {
  fm_at : at_ y' = at_ y;
  fm_state : state_ y' = state_ y;
  fm_group : group_ y' = group_ y;
  fm_hold : guard_locked_ y' = guard_locked_ y;
  fm_flags : cancel_guarded_ y' = cancel_guarded_ y ∧ canceled_ y' = canceled_ y ∧ timedout_ y' = timedout_ y;
  fm_wakeup : wakeup y' = wakeup y;
  fm_deleted : deleted y' = true → deleted y = true ∨ fin y = true;
  fm_waiter : waiter_ y' = waiter_ y ∧ deleted y' = deleted y ∨ self f (waiter_ y) ∧ self f (waiter_ y');
}.

Lemma fiber_move_refl f y : fiber_move f y y.
Proof. split; auto. Qed.

Lemma fiber_move_fin f y y' : fiber_move f y y' → fin y' = fin y.
Proof. intros Hm. unfold fin. by rewrite (fm_at _ _ _ Hm). Qed.

(** A group that may have got or lost [f] as its joiner or waiter. *)
Record group_move (f : nat) (G G' : Group) : Prop := {
  gm_fibers : fibers_ G' = fibers_ G;
  gm_error : first_error_ G' = first_error_ G;
  gm_wait : is_wait G' = is_wait G;
  gm_joiner : joiner_ G' = joiner_ G ∨ self f (joiner_ G) ∧ self f (joiner_ G');
  gm_waiter : group_waiter_ G' = group_waiter_ G ∨ self f (group_waiter_ G) ∧ self f (group_waiter_ G');
}.

Lemma group_move_refl f G : group_move f G G.
Proof. split; auto. Qed.

(** What fiber [f] may change while it runs. *)
Record hole_move (f : nat) (x x' : FiberImpl) (s s' : sched) : Prop := {
  m_old : fibers s !! f = Some x;
  m_new : fibers s' !! f = Some x';
  m_self : vis x' = vis x ∧ (state_ x' = Dead ↔ fin x = true);
  m_main : main_fiber_ s' = main_fiber_ s;
  m_queue : NoDup (run_queue_ s') ∧ ∀ j, j ≠ f → j ∈ run_queue_ s' ↔ j ∈ run_queue_ s;
  m_lockers : NoDup (lockers_ s') ∧ ∀ j, j ≠ f → j ∈ lockers_ s' ↔ j ∈ lockers_ s;
  m_conds : NoDup (cond_waiters_ s') ∧ ∀ j, j ≠ f → j ∈ cond_waiters_ s' ↔ j ∈ cond_waiters_ s;
  m_fibers : ∀ j, j ≠ f → option_Forall2 (fiber_move f) (fibers s !! j) (fibers s' !! j);
  m_mutex : mutex_move s s' x x';
  m_groups : ∀ g, option_Forall2 (group_move f) (groups s !! g) (groups s' !! g) ∨
    (∃ G, groups s !! g = Some G ∧ fibers_ G = [] ∧ self f (joiner_ G) ∧ self f (group_waiter_ G) ∧
       groups s' !! g = None);
  m_timers : TimerHeap.wf (timers_ s') ∧ (∀ tm, is_Some (active s' !! tm) → is_Some (timer_of s' !! tm)) ∧
    (now_ s <= now_ s')%Z;
  m_timer_of : ∀ tm, timer_of s' !! tm = timer_of s !! tm ∧ active s' !! tm = active s !! tm ∨
    self f (fst <$> timer_of s !! tm) ∧ self f (fst <$> timer_of s' !! tm);
}.

Lemma hole_lookup f x x' s s' j y :
  hole_move f x x' s s' → j ≠ f → fibers s !! j = Some y → ∃ y', fibers s' !! j = Some y' ∧ fiber_move f y y'.
Proof.
  intros Hm Hne Hy. pose proof (m_fibers _ _ _ _ _ Hm j Hne) as Hf. rewrite Hy in Hf. inversion Hf; subst. eauto.
Qed.

Lemma hole_lookup_inv f x x' s s' j y' :
  hole_move f x x' s s' → j ≠ f → fibers s' !! j = Some y' → ∃ y, fibers s !! j = Some y ∧ fiber_move f y y'.
Proof.
  intros Hm Hne Hy. pose proof (m_fibers _ _ _ _ _ Hm j Hne) as Hf. rewrite Hy in Hf. inversion Hf; subst. eauto.
Qed.

(** Both at once, for facts that hold of [f] as well. *)
Lemma hole_lookup_all f x x' s s' j y :
  hole_move f x x' s s' → fibers s !! j = Some y →
  ∃ y', fibers s' !! j = Some y' ∧ fin y' = fin y ∧ group_ y' = group_ y ∧ (j ≠ f → at_ y' = at_ y).
Proof.
  intros Hm Hy. destruct (decide (j = f)) as [->|Hne].
  - rewrite (m_old _ _ _ _ _ Hm) in Hy. simplify_eq. exists x'. pose proof (m_self _ _ _ _ _ Hm) as [Hv _].
    unfold vis in Hv. simplify_eq. split_and!; [apply Hm|done|done|done].
  - destruct (hole_lookup _ _ _ _ _ _ _ Hm Hne Hy) as (y'&Hy'&Hmv). exists y'.
    split_and!; [done|by eapply fiber_move_fin|apply Hmv|intros _; apply Hmv].
Qed.

(** The place of another fiber. *)
Lemma hole_sees f x x' s s' j y k :
  hole_move f x x' s s' → j ≠ f → kont_ok s j y k → sees k s s'.
Proof.
  intros Hm Hne Hko. destruct k as [|tm d|c sv|g sv|g|b|]; cbn in *; try done.
  - destruct Hko as [Htm _]. destruct (m_timer_of _ _ _ _ _ Hm tm) as [[? ?]|[Hs _]].
    + split_and!; [done|done|apply Hm].
    + rewrite Htm in Hs. destruct Hs as [?|?]; [done|]. cbn in *. congruence.
  - destruct Hko as (_&z&Hz&Hd&Hw&Hgr). destruct (decide (c = f)) as [->|Hcf].
    + rewrite (m_old _ _ _ _ _ Hm), (m_new _ _ _ _ _ Hm). cbn. f_equal. apply Hm.
    + destruct (hole_lookup _ _ _ _ _ _ _ Hm Hcf Hz) as (z'&Hz'&Hmz). rewrite Hz, Hz'. cbn. f_equal.
      unfold vis. rewrite (fiber_move_fin _ _ _ Hmz), (fm_group _ _ _ Hmz).
      destruct (fm_waiter _ _ _ Hmz) as [[-> ->]|[[?|?] _]]; [done|congruence|congruence].
  - destruct Hko as (_&_&G&HG&Hjn&_). destruct (m_groups _ _ _ _ _ Hm g) as [Hgm|(G'&HG'&_&Hs&_)].
    + rewrite HG in Hgm |- *. inversion Hgm as [? G' Hmv' Heq|]; subst. cbn. f_equal. unfold join_view.
      destruct Hmv' as [-> _ -> [->|[[?|?] _]] _]; [done|congruence|congruence].
    + simplify_eq. by destruct Hs as [?|?]; congruence.
  - destruct Hko as (G&HG&Hjn&_). destruct (m_groups _ _ _ _ _ Hm g) as [Hgm|(G'&HG'&_&_&Hs&_)].
    + rewrite HG in Hgm |- *. inversion Hgm as [? G' Hmv' Heq|]; subst. cbn. f_equal. unfold wait_view.
      destruct Hmv' as [-> -> -> _ [->|[[?|?] _]]]; [done|congruence|congruence].
    + simplify_eq. by destruct Hs as [?|?]; congruence.
Qed.

Lemma hole_place f x x' s s' j y y' :
  hole f s → hole_move f x x' s s' → j ≠ f → fibers s !! j = Some y → fiber_move f y y' → place_ok s' j y'.
Proof.
  intros Hh Hm Hne Hy Hmv. destruct (h_others f s Hh j y Hne Hy) as (_&_&Hp).
  destruct (fm_flags _ _ _ Hmv) as (Hg&Hcl&Hto).
  assert (place_ok s j y') as Hp'.
  { unfold place_ok in *. rewrite (fm_at _ _ _ Hmv). destruct (at_ y) as [|r|k|]; [done..| |done].
    destruct k; cbn in *; unfold interrupted in *;
      rewrite ?Hg, ?Hcl, ?Hto, ?(fm_wakeup _ _ _ Hmv), ?(fm_group _ _ _ Hmv); done. }
  eapply place_frame; [exact Hp'|by apply Hm..|]. intros k Hk. eapply (hole_sees f x x' s s' j y'); [done|done|].
  unfold place_ok in Hp'. rewrite Hk in Hp'. apply Hp'.
Qed.

Lemma hole_mutex f x x' s s' :
  hole f s → hole_move f x x' s s' →
  (∀ j j' y y', fibers s' !! j = Some y → fibers s' !! j' = Some y' →
     guard_locked_ y = true → guard_locked_ y' = true → j = j') ∧
  (locked_ s' = true ↔ ∃ j y, fibers s' !! j = Some y ∧ guard_locked_ y = true).
Proof.
  intros Hh Hm. pose proof (m_old _ _ _ _ _ Hm) as Hx. pose proof (m_new _ _ _ _ _ Hm) as Hx'.
  pose proof (h_locked f s Hh) as Hlk.
  assert (∀ j y, j ≠ f → fibers s' !! j = Some y → guard_locked_ y = true →
    ∃ z, fibers s !! j = Some z ∧ guard_locked_ z = true) as Hback.
  { intros j y Hne Hy Hg. destruct (hole_lookup_inv _ _ _ _ _ _ _ Hm Hne Hy) as (z&Hz&Hmv). exists z.
    by rewrite <- (fm_hold _ _ _ Hmv). }
  assert (∀ j y, j ≠ f → fibers s' !! j = Some y → guard_locked_ y = true → guard_locked_ x' = true → False) as Hexcl.
  { intros j y Hne Hy Hg Hgx'. destruct (Hback j y Hne Hy Hg) as (z&Hz&Hgz).
    destruct (m_mutex _ _ _ _ _ Hm) as [[Hgx _]|[(Hf&_)|(_&?&_)]]; [| |congruence].
    - apply Hne. apply (h_unique f s Hh j f z x); congruence.
    - rewrite (proj2 Hlk) in Hf; [done|eauto]. }
  split.
  - intros j j' y y' Hy Hy' Hg Hg'. destruct (decide (j = f)) as [->|Hj], (decide (j' = f)) as [->|Hj']; simplify_eq.
    + done.
    + by destruct (Hexcl j' y').
    + by destruct (Hexcl j y).
    + destruct (Hback j y Hj Hy Hg) as (z&?&?), (Hback j' y' Hj' Hy' Hg') as (z'&?&?). by eapply (h_unique f s Hh).
  - destruct (m_mutex _ _ _ _ _ Hm) as [[Hgx ->]|[(Hf&->&Hg)|(Hg&Hg'&->)]].
    + rewrite Hlk. split; intros (j&y&Hy&Hgy); (destruct (decide (j = f)) as [->|Hne]; [simplify_eq|]).
      * exists f, x'. by rewrite Hgx.
      * destruct (hole_lookup _ _ _ _ _ _ _ Hm Hne Hy) as (z&Hz&Hmv). exists j, z. by rewrite (fm_hold _ _ _ Hmv).
      * exists f, x. by rewrite <- Hgx.
      * destruct (Hback j y) as (z&?&?); eauto.
    + split; [|done]. intros _. eauto.
    + split; [done|]. intros (j&y&Hy&Hgy). destruct (decide (j = f)) as [->|Hne]; [congruence|].
      destruct (Hback j y Hne Hy Hgy) as (z&Hz&Hgz). destruct Hne. by eapply (h_unique f s Hh).
Qed.

Lemma hole_groups f x x' s s' g G' :
  hole f s → hole_move f x x' s s' → groups s' !! g = Some G' →
  ∃ G, groups s !! g = Some G ∧ group_move f G G'.
Proof.
  intros Hh Hm HG'. destruct (m_groups _ _ _ _ _ Hm g) as [Hgm|(G&_&_&_&_&?)]; [|congruence].
  rewrite HG' in Hgm. inversion Hgm; subst. eauto.
Qed.

Lemma hole_frame f x x' s s' : hole f s → hole_move f x x' s s' → fin x = false → hole f s'.
Proof.
  intros Hh Hm Hfx. pose proof (m_old _ _ _ _ _ Hm) as Hx. pose proof (m_new _ _ _ _ _ Hm) as Hx'.
  pose proof (m_self _ _ _ _ _ Hm) as [Hv Hst]. unfold vis in Hv. injection Hv as Hvd Hvw Hvg Hvf.
  assert (∀ w P, w ≠ f → (∃ y, fibers s !! w = Some y ∧ P (at_ y)) → ∃ y, fibers s' !! w = Some y ∧ P (at_ y)) as Hat.
  { intros w P Hne (y&Hy&HP). destruct (hole_lookup _ _ _ _ _ _ _ Hm Hne Hy) as (y'&?&Hmv). exists y'.
    by rewrite (fm_at _ _ _ Hmv). }
  assert (∀ j, is_Some (fibers s !! j) → is_Some (fibers s' !! j)) as Hsome.
  { intros j [y Hy]. destruct (hole_lookup_all _ _ _ _ _ _ _ Hm Hy) as (y'&?&_). eauto. }
  assert (∀ g j, (∃ G, groups s !! g = Some G ∧ j ∈ fibers_ G) → ∃ G, groups s' !! g = Some G ∧ j ∈ fibers_ G) as Hgrp.
  { intros g j (G&HG&Hj). destruct (m_groups _ _ _ _ _ Hm g) as [Hgm|(G'&HG'&Hnil&_)].
    - rewrite HG in Hgm. inversion Hgm as [? G' Hmv Heq|]; subst. exists G'. split; [done|].
      by rewrite (gm_fibers _ _ _ Hmv).
    - simplify_eq. rewrite Hnil in Hj. by apply elem_of_nil in Hj. }
  destruct (hole_mutex f x x' s s' Hh Hm) as [Hu Hlk].
  split; [..|by rewrite (m_main _ _ _ _ _ Hm); apply Hsome, (h_main f s Hh)].
  - split; [apply Hm|]. intros j Hj. destruct (decide (j = f)) as [->|Hne]; [eauto|].
    apply Hsome, (proj2 (h_queue f s Hh)). by apply Hm.
  - intros j y' Hne Hy'. destruct (hole_lookup_inv _ _ _ _ _ _ _ Hm Hne Hy') as (y&Hy&Hmv).
    destruct (h_others f s Hh j y Hne Hy) as (?&?&?).
    rewrite (fm_at _ _ _ Hmv), (fm_hold _ _ _ Hmv). split_and!; [done|done|]. by eapply hole_place.
  - intros j y' Hy'. destruct (decide (j = f)) as [->|Hne].
    + simplify_eq. destruct (h_fiber f s Hh f x Hx) as (?&?&Hw&Hg).
      rewrite Hvf, Hvd, Hvw, Hvg. split_and!; [done|done| |].
      * intros w Hxw Hwf. destruct (Hw w Hxw Hwf) as (y&sv&Hy&Ha).
        destruct (Hat w (λ a, a = Parked (Joining f sv)) Hwf) as (y'&?&?); eauto.
      * intros g Hxg Hxf. apply Hgrp. eauto.
    + destruct (hole_lookup_inv _ _ _ _ _ _ _ Hm Hne Hy') as (y&Hy&Hmv).
      destruct (h_fiber f s Hh j y Hy) as (Hsd&Hdd&Hw&Hg).
      rewrite (fm_state _ _ _ Hmv), (fiber_move_fin _ _ _ Hmv), (fm_group _ _ _ Hmv). split_and!; [done| | |].
      * intros [?|?]%(fm_deleted _ _ _ Hmv); auto.
      * intros w Hyw Hwf. destruct (fm_waiter _ _ _ Hmv) as [[Heq _]|[_ [?|?]]]; [|congruence|congruence].
        rewrite Heq in Hyw. destruct (Hw w Hyw Hwf) as (z&sv&Hz&Ha).
        destruct (Hat w (λ a, a = Parked (Joining j sv)) Hwf) as (z'&?&?); eauto.
      * intros g Hxg Hxf. apply Hgrp. eauto.
  - split; [apply Hm|]. intros j Hj Hne. apply (m_lockers _ _ _ _ _ Hm) in Hj; [|done].
    destruct (proj2 (h_lockers f s Hh) j Hj Hne) as (y&b&Hy&Ha).
    destruct (Hat j (λ a, a = Parked (Locking b)) Hne) as (z'&?&?); eauto.
  - split; [apply Hm|]. intros j Hj Hne. apply (m_conds _ _ _ _ _ Hm) in Hj; [|done].
    apply (Hat j (λ a, a = Parked CondWaiting) Hne). by apply (proj2 (h_conds f s Hh)).
  - done.
  - done.
  - intros g G' HG'. destruct (hole_groups _ _ _ _ _ _ _ Hh Hm HG') as (G&HG&Hmv).
    destruct (h_group f s Hh g G HG) as (Hnd&Hfs&Hj&Hw). rewrite (gm_fibers _ _ _ Hmv). split_and!; [done| | |].
    + intros j (y&Hy&Hgy&Hfy)%Hfs. destruct (hole_lookup_all _ _ _ _ _ _ _ Hm Hy) as (y'&?&?&?&_).
      exists y'. split_and!; congruence.
    + intros w Hw' Hne. destruct (gm_joiner _ _ _ Hmv) as [Heq|[_ [?|?]]]; [|congruence|congruence].
      rewrite Heq in Hw'. destruct (Hj w Hw' Hne) as (y&sv&Hy&Ha).
      destruct (Hat w (λ a, a = Parked (GroupJoining g sv)) Hne) as (z'&?&?); eauto.
    + intros w Hw' Hne. destruct (gm_waiter _ _ _ Hmv) as [Heq|[_ [?|?]]]; [|congruence|congruence].
      rewrite Heq in Hw'. rewrite (gm_wait _ _ _ Hmv). destruct (Hw w Hw' Hne) as (?&Hy). split; [done|].
      by apply (Hat w (λ a, a = Parked (GroupWaiting g)) Hne).
  - destruct (h_timers f s Hh) as (_&_&Ho). split_and!; [apply Hm..|]. intros tm j k Hj.
    assert (timer_of s !! tm = Some (j, k) ∨ j = f) as [Hj'| ->].
    { destruct (m_timer_of _ _ _ _ _ Hm tm) as [[Heq _]|[_ Hs]]; [left; congruence|].
      rewrite Hj in Hs. right. destruct Hs as [?|?]; [done|]. cbn in *. congruence. }
    + destruct (Ho tm j k Hj') as (y&Hy&Hfy&Hd). destruct (hole_lookup_all _ _ _ _ _ _ _ Hm Hy) as (y'&?&?&_&Haa).
      exists y'. split_and!; [done|congruence|]. intros Hne Hk. rewrite Haa by done. by apply Hd.
    + exists x'. split_and!; [done|congruence|done].
Qed.

(** *** Moves of the running fiber *)

Lemma move_core f x x' s s' :
  core s → (∀ j, this_fiber s = Some j → j = f) → fin x = false → hole_move f x x' s s' → refs_ok f x' s' →
  (∀ j, this_fiber s' = Some j ↔ j = f ∧ ∃ r, at_ x' = User r) →
  (guard_locked_ x' = true → may_hold (at_ x') = true) → place_ok s' f x' → core s'.
Proof.
  intros Hc Ht Hf Hm Hr Ht' Hg Hp. pose proof (m_old _ _ _ _ _ Hm) as Hx.
  destruct (core_open f x s Hc Hx Ht) as [Hh _]. pose proof (m_new _ _ _ _ _ Hm).
  apply (core_close f x'); [by eapply hole_frame|done..].
Qed.

Lemma erase_in f l j : j ∈ erase f l ↔ j ≠ f ∧ j ∈ l.
Proof. unfold erase. by rewrite list_elem_of_filter. Qed.

Lemma erase_nodup f l : NoDup l → NoDup (erase f l).
Proof. apply NoDup_filter. Qed.

Lemma erase_id f l : f ∉ l → erase f l = l.
Proof.
  unfold erase. induction l as [|j l IH]; [done|]. intros Hn. rewrite filter_cons_True by set_solver.
  f_equal. apply IH. set_solver.
Qed.

Lemma erase_snoc f l : f ∉ l → erase f (l ++ [f]) = l.
Proof.
  intros Hn. unfold erase. rewrite filter_app. fold (erase f l). rewrite erase_id by done.
  rewrite filter_cons_False; [by rewrite app_nil_r|]. intros H. by apply H.
Qed.

(** Only the record of the fiber and its membership in lists change. *)
Lemma self_move f x x' s s' :
  core s → fibers s !! f = Some x → fibers s' = <[f := x']> (fibers s) →
  vis x' = vis x → (state_ x' = Dead ↔ state_ x = Dead) →
  (groups s' = groups s ∧ timers_ s' = timers_ s ∧ timer_of s' = timer_of s ∧ (now_ s <= now_ s')%Z ∧
   main_fiber_ s' = main_fiber_ s) →
  (NoDup (run_queue_ s') ∧ ∀ j, j ≠ f → j ∈ run_queue_ s' ↔ j ∈ run_queue_ s) →
  (NoDup (lockers_ s') ∧ ∀ j, j ≠ f → j ∈ lockers_ s' ↔ j ∈ lockers_ s) →
  (NoDup (cond_waiters_ s') ∧ ∀ j, j ≠ f → j ∈ cond_waiters_ s' ↔ j ∈ cond_waiters_ s) →
  mutex_move s s' x x' → hole_move f x x' s s'.
Proof.
  intros Hc Hx Hf Hv Hst (Hg&Ht&Ho&Hn&Hm) ????. pose proof (c_timers s Hc) as [? ? ?].
  split; try done.
  - by rewrite Hf, lookup_insert_eq.
  - split; [done|]. rewrite Hst. apply (f_dead _ _ _ (c_fiber s Hc f x Hx)).
  - intros j Hne. rewrite Hf, lookup_insert_ne by done. destruct (fibers s !! j); constructor. apply fiber_move_refl.
  - intros g. left. rewrite Hg. destruct (groups s !! g); constructor. apply group_move_refl.
  - rewrite Ht, Ho. done.
  - intros tm. rewrite Ht, Ho. by left.
Qed.

(** Nothing refers to a fiber that runs. *)
Lemma refs_user f x r s s' x' :
  core s → fibers s !! f = Some x → at_ x = User r →
  (∀ c y, fibers s' !! c = Some y → waiter_ y = Some f →
     (∃ y', fibers s !! c = Some y' ∧ waiter_ y' = Some f) ∨ ∃ sv, at_ x' = Parked (Joining c sv)) →
  (∀ g G, groups s' !! g = Some G → joiner_ G = Some f →
     (∃ G', groups s !! g = Some G' ∧ joiner_ G' = Some f) ∨ ∃ sv, at_ x' = Parked (GroupJoining g sv)) →
  (∀ g G, groups s' !! g = Some G → group_waiter_ G = Some f →
     (∃ G', groups s !! g = Some G' ∧ group_waiter_ G' = Some f) ∨
     is_wait G = true ∧ at_ x' = Parked (GroupWaiting g)) →
  (∀ tm, timer_of s' !! tm = Some (f, SleepTimer) →
     timer_of s !! tm = Some (f, SleepTimer) ∨ ∃ d, at_ x' = Parked (InSleep tm d)) →
  (f ∈ lockers_ s' → f ∈ lockers_ s ∨ ∃ b, at_ x' = Parked (Locking b)) →
  (f ∈ cond_waiters_ s' → f ∈ cond_waiters_ s ∨ at_ x' = Parked CondWaiting) →
  refs_ok f x' s'.
Proof.
  intros Hc Hx Hr H1 H2 H3 H4 H5 H6.
  destruct (core_open f x s Hc Hx) as [_ [R1 R2 R3 R4 R5 R6]].
  { intros j (y&r'&Hy&Hr')%(c_this s Hc). destruct (decide (j = f)) as [->|Hne]; [done|].
    assert (this_fiber s = Some f) as Ht by (apply (c_this s Hc); eauto).
    assert (this_fiber s = Some j) as Ht' by (apply (c_this s Hc); eauto). congruence. }
  split.
  - intros c y Hy Hw. destruct (H1 c y Hy Hw) as [(y'&Hy'&Hw')|]; [|done]. destruct (R1 c y' Hy' Hw'). congruence.
  - intros g G HG Hj. destruct (H2 g G HG Hj) as [(G'&HG'&Hj')|]; [|done]. destruct (R2 g G' HG' Hj'). congruence.
  - intros g G HG Hj. destruct (H3 g G HG Hj) as [(G'&HG'&Hj')|]; [|done]. destruct (R3 g G' HG' Hj'). congruence.
  - intros tm Htm. destruct (H4 tm Htm) as [Htm'|]; [|done]. destruct (R4 tm Htm'). congruence.
  - intros Hl. destruct (H5 Hl) as [Hl'|]; [|done]. destruct (R5 Hl'). congruence.
  - intros Hl. destruct (H6 Hl) as [Hl'|]; [|done]. pose proof (R6 Hl'). congruence.
Qed.

Lemma core_running s f x r :
  core s → fibers s !! f = Some x → at_ x = User r →
  this_fiber s = Some f ∧ (∀ j, this_fiber s = Some j → j = f) ∧ fin x = false ∧ (f ∉ run_queue_ s) ∧
  (f ∉ lockers_ s) ∧ (f ∉ cond_waiters_ s) ∧ deref f s = Ok x.
Proof.
  intros Hc Hx Hr. assert (this_fiber s = Some f) as Ht by (apply (c_this s Hc); eauto).
  pose proof (c_fiber s Hc f x Hx) as Hfx. assert (fin x = false) as Hf by (unfold fin; by rewrite Hr).
  split_and!; [done|congruence|done| | | |by apply deref_ok].
  - pose proof (f_place _ _ _ Hfx) as Hp. unfold place_ok in Hp. by rewrite Hr in Hp.
  - intros (y&b&Hy&?)%(proj2 (c_lockers s Hc)). simplify_eq. congruence.
  - intros (y&Hy&?)%(proj2 (c_conds s Hc)). simplify_eq. congruence.
Qed.

(** The running fiber changes its own record and goes on. *)
Lemma core_go_on f x x' r r' s s' :
  core s → fibers s !! f = Some x → at_ x = User r → at_ x' = User r' →
  fibers s' = <[f := x']> (fibers s) → vis x' = vis x → (state_ x' = Dead ↔ state_ x = Dead) →
  (groups s' = groups s ∧ timers_ s' = timers_ s ∧ timer_of s' = timer_of s ∧ (now_ s <= now_ s')%Z ∧
   main_fiber_ s' = main_fiber_ s) →
  run_queue_ s' = run_queue_ s → lockers_ s' = lockers_ s → cond_waiters_ s' = cond_waiters_ s →
  this_fiber s' = this_fiber s → mutex_move s s' x x' → core s'.
Proof.
  intros Hc Hx Hr Hr' Hf Hv Hst Hsh Hq Hl Hcd Hth Hmm.
  destruct (core_running s f x r Hc Hx Hr) as (Ht&Ht'&Hfin&Hnq&Hnl&Hnc&_).
  pose proof Hsh as (Hg&_&Ho&_).
  apply (move_core f x x' s); [done|done|done| | | | |].
  - apply self_move; try done; [rewrite Hq|rewrite Hl|rewrite Hcd]; (split; [apply Hc|done]).
  - apply (refs_user f x r s); [done|done|done|rewrite Hf|rewrite Hg|rewrite Hg|rewrite Ho|rewrite Hl|rewrite Hcd];
      [|by eauto..].
    intros c y Hy Hw. left. destruct (decide (c = f)) as [->|Hne].
    + rewrite lookup_insert_eq in Hy. simplify_eq. exists x. split; [done|]. unfold vis in Hv. congruence.
    + rewrite lookup_insert_ne in Hy by done. eauto.
  - intros j. rewrite Hth, Ht, Hr'. split; [intros [= <-]; eauto|by intros [-> _]].
  - rewrite Hr'. done.
  - unfold place_ok. rewrite Hr'. by rewrite Hq.
Qed.

(** The same from and to any place that no other object refers to. *)
Lemma core_shift f x x' s s' :
  core s → fibers s !! f = Some x → (∀ j, this_fiber s = Some j → j = f) → fin x = false →
  registered (at_ x) = false →
  fibers s' = <[f := x']> (fibers s) → vis x' = vis x → (state_ x' = Dead ↔ state_ x = Dead) →
  (groups s' = groups s ∧ timers_ s' = timers_ s ∧ timer_of s' = timer_of s ∧ (now_ s <= now_ s')%Z ∧
   main_fiber_ s' = main_fiber_ s) →
  (NoDup (run_queue_ s') ∧ ∀ j, j ≠ f → j ∈ run_queue_ s' ↔ j ∈ run_queue_ s) →
  (NoDup (lockers_ s') ∧ ∀ j, j ≠ f → j ∈ lockers_ s' ↔ j ∈ lockers_ s) →
  (NoDup (cond_waiters_ s') ∧ ∀ j, j ≠ f → j ∈ cond_waiters_ s' ↔ j ∈ cond_waiters_ s) →
  (f ∈ lockers_ s' → ∃ b, at_ x' = Parked (Locking b)) → (f ∈ cond_waiters_ s' → at_ x' = Parked CondWaiting) →
  mutex_move s s' x x' → (∀ j, this_fiber s' = Some j ↔ j = f ∧ ∃ r, at_ x' = User r) →
  (guard_locked_ x' = true → may_hold (at_ x') = true) → place_ok s' f x' → core s'.
Proof.
  intros Hc Hx Ht Hfin Hreg Hf Hv Hst Hsh Hq Hl Hcd Hfl Hfc Hmm Ht' Hh Hp. pose proof Hsh as (Hg&_&Ho&_).
  apply (move_core f x x' s); [done|done|done|by apply self_move| |done|done|done].
  destruct (core_open f x s Hc Hx Ht) as [_ [R1 R2 R3 R4 _ _]].
  assert (∀ k, at_ x = Parked k → registered (Parked k) = false) as Hno by (intros k <-; done).
  split; [rewrite Hf|rewrite Hg|rewrite Hg|rewrite Ho|done|done].
  - intros c y Hy Hw. destruct (decide (c = f)) as [->|Hne].
    + rewrite lookup_insert_eq in Hy. simplify_eq. unfold vis in Hv.
      destruct (R1 f x Hx ltac:(congruence)) as [sv Hsv]. by specialize (Hno _ Hsv).
    + rewrite lookup_insert_ne in Hy by done. destruct (R1 c y Hy Hw) as [sv Hsv]. by specialize (Hno _ Hsv).
  - intros g G HG Hj. destruct (R2 g G HG Hj) as [sv Hsv]. by specialize (Hno _ Hsv).
  - intros g G HG Hj. destruct (R3 g G HG Hj) as [_ Hsv]. by specialize (Hno _ Hsv).
  - intros tm Htm. destruct (R4 tm Htm) as [sv Hsv]. by specialize (Hno _ Hsv).
Qed.

(** [check] on the running fiber: it has something to throw, or goes on. *)
Definition thrown_by (x : FiberImpl) (where_ : string) : option exn :=
  if cancel_guarded_ x then None
  else if canceled_ x then Some FiberCanceledException
  else if timedout_ x then Some (TimeoutException where_) else None.

Definition checked (x : FiberImpl) : FiberImpl :=
  if cancel_guarded_ x || canceled_ x then x else set_timedout false x.

Lemma thrown_interrupted x w : is_Some (thrown_by x w) ↔ interrupted x.
Proof.
  unfold thrown_by, interrupted. destruct (cancel_guarded_ x), (canceled_ x), (timedout_ x); split; intros H;
    first [by destruct H as [? [=]] | by eexists | by (split; [done|auto]) | by destruct H as [? [?|?]] | done].
Qed.

Lemma checked_alike x :
  at_ (checked x) = at_ x ∧ vis (checked x) = vis x ∧ state_ (checked x) = state_ x ∧
  guard_locked_ (checked x) = guard_locked_ x ∧ wakeup (checked x) = wakeup x ∧
  cancel_guarded_ (checked x) = cancel_guarded_ x ∧ deleted (checked x) = deleted x.
Proof. unfold checked. by destruct (cancel_guarded_ x || canceled_ x). Qed.

Lemma checked_wakeup b x : checked (set_wakeup b x) = set_wakeup b (checked x).
Proof. unfold checked. cbn. by destruct (cancel_guarded_ x || canceled_ x). Qed.

Lemma check_spec f w s x :
  fibers s !! f = Some x → deleted x = false →
  check f w s = Ok (thrown_by x w,
    match thrown_by x w with
    | Some _ => upd f (λ _, checked x) (set_queue (erase f (run_queue_ s)) s)
    | None => s
    end).
Proof.
  intros Hx Hd. unfold check, deref, thrown_by, checked. rewrite Hx, Hd. cbn [bindO].
  destruct (cancel_guarded_ x); [done|]. destruct (canceled_ x); cbn [orb].
  - f_equal. f_equal. unfold upd. cbn [fibers set_queue]. rewrite (alter_insert s f x) by done.
    by rewrite insert_id by done.
  - destruct (timedout_ x); [|done]. f_equal. f_equal. unfold upd. cbn [fibers set_queue].
    by rewrite !(alter_insert s f x) by done.
Qed.

(** The running fiber is not in the queue. *)
Lemma check_ok f w s x :
  fibers s !! f = Some x → deleted x = false → f ∉ run_queue_ s →
  check f w s = Ok (thrown_by x w,
    match thrown_by x w with Some _ => upd f (λ _, checked x) s | None => s end).
Proof.
  intros Hx Hd Hq. rewrite (check_spec f w s x), erase_id by done.
  assert (set_queue (run_queue_ s) s = s) as -> by (by destruct s). done.
Qed.

Lemma upd_fibers f g s x : fibers s !! f = Some x → fibers (upd f g s) = <[f := g x]> (fibers s).
Proof. apply alter_insert. Qed.

Lemma upd_lookup f g s x : fibers s !! f = Some x → fibers (upd f g s) !! f = Some (g x).
Proof. intros Hx. by rewrite (upd_fibers f g s x), lookup_insert_eq. Qed.

(** Fibers that wait for the mutex. *)
Lemma awake_alike s s' :
  (locked_ s' = false → locked_ s = false) → (lockers_ s' ≠ [] → lockers_ s ≠ []) →
  (∀ j y b, fibers s !! j = Some y → at_ y = Parked (Locking b) →
     ∃ y', fibers s' !! j = Some y' ∧ at_ y' = at_ y ∧ wakeup y' = wakeup y) →
  no_lost_wakeup s → no_lost_wakeup s'.
Proof.
  intros Hl Hk Hf Hn H1 H2. destruct (Hn (Hl H1) (Hk H2)) as (j&y&b&Hy&Ha&Hw).
  destruct (Hf j y b Hy Ha) as (y'&?&?&?). exists j, y', b. split_and!; congruence.
Qed.

Lemma awake_frame s s' :
  (locked_ s' = false → locked_ s = false) → (lockers_ s' ≠ [] → lockers_ s ≠ []) →
  (∀ j y b, fibers s !! j = Some y → at_ y = Parked (Locking b) → fibers s' !! j = Some y) →
  no_lost_wakeup s → no_lost_wakeup s'.
Proof.
  intros Hl Hk Hf. apply awake_alike; [done|done|]. intros j y b Hy Ha. exists y. eauto.
Qed.

Lemma awake_locked s : locked_ s = true → no_lost_wakeup s.
Proof. intros Hl H. congruence. Qed.

Lemma return_core f r' s x r :
  core s → fibers s !! f = Some x → at_ x = User r →
  core (return_ f r' s) ∧ (no_lost_wakeup s → no_lost_wakeup (return_ f r' s)) ∧
  fibers (return_ f r' s) !! f = Some (set_at (User r') x).
Proof.
  intros Hc Hx Hr. split_and!; [| |by apply upd_lookup].
  - apply (core_go_on f x (set_at (User r') x) r r' s); try done; [by apply upd_fibers| |by left].
    unfold vis, fin. cbn. by rewrite Hr.
  - apply awake_frame; [done|done|]. intros j y b Hy Ha. unfold return_. rewrite (upd_fibers f _ s x Hx).
    rewrite lookup_insert_ne; [done|]. intros <-. congruence.
Qed.

(** The end of an interrupted wait for the mutex, once the fiber is in no queue. *)
Lemma pass_wakeup_ok (b : bool) f e s x r :
  core s → fibers s !! f = Some x → at_ x = User r →
  ∃ s', (s <-? (if b then NotifyOne CondWaiters s else Ok s) ;; Ok (return_ f (Threw e) s)) = Ok s' ∧
    core s' ∧ (no_lost_wakeup s → no_lost_wakeup s') ∧ locked_ s' = locked_ s.
Proof.
  intros Hc Hx Hr. assert (∃ s1, (if b then NotifyOne CondWaiters s else Ok s) = Ok s1 ∧ core s1 ∧ keeps s s1)
    as (s1&->&Hc1&Hk).
  { destruct b; [|by exists s]. destruct (NotifyOne_ok CondWaiters s Hc) as (s1&?&?&?&_). eauto. }
  cbn [bindO]. exists (return_ f (Threw e) s1).
  destruct (return_core f (Threw e) s1 x r Hc1 (keeps_user _ _ _ _ _ Hk Hx Hr) Hr) as (?&?&_).
  split_and!; [done|done| |apply (k_locked _ _ Hk)]. intros Hn. by apply (keeps_awake _ _ Hk) in Hn; auto.
Qed.

Lemma Lock_loop_ok b f s x r :
  core s → fibers s !! f = Some x → at_ x = User r → guard_locked_ x = false →
  ∃ s', Lock_loop b f s = Ok s' ∧ core s' ∧ locked_ s' = true.
Proof.
  intros Hc Hx Hr Hg. destruct (core_running s f x r Hc Hx Hr) as (Ht&Ht'&Hfin&Hnq&Hnl&Hnc&Hd).
  assert (deleted x = false) as Hdel by (unfold deref in Hd; rewrite Hx in Hd; by destruct (deleted x)).
  pose proof (c_fiber s Hc f x Hx) as Hfx. unfold Lock_loop. destruct (locked_ s) eqn:Hlk.
  2:{ eexists. split_and!; [reflexivity| |done].
      set (s1 := upd f (set_locked true) (set_mutex true (lockers_ s) s)).
      apply (core_go_on f x (set_at (User Returned) (set_locked true x)) r Returned s); try done.
      - unfold return_. rewrite (upd_fibers f _ s1 (set_locked true x)) by by apply upd_lookup.
        unfold s1. rewrite (upd_fibers f _ _ x) by done. by rewrite insert_insert_eq.
      - unfold vis, fin. cbn. by rewrite Hr.
      - right. left. done. }
  set (s1 := upd f (set_wakeup false) (set_mutex true (lockers_ s ++ [f]) s)).
  assert (fibers s1 = <[f := set_wakeup false x]> (fibers s)) as Hf1
    by exact (upd_fibers f _ (set_mutex true (lockers_ s ++ [f]) s) x Hx).
  assert (fibers s1 !! f = Some (set_wakeup false x)) as Hx1 by (by rewrite Hf1, lookup_insert_eq).
  rewrite (check_ok f _ s1 (set_wakeup false x)) by done. cbn [bindO].
  set (w := where_of (Locking b)). change (thrown_by (set_wakeup false x) w) with (thrown_by x w).
  rewrite checked_wakeup.
  destruct (checked_alike x) as (Hca&Hcv&Hcs&Hcl&_).
  destruct (thrown_by x w) as [e|] eqn:Hth.
  - unfold Lock_throw, Wait_end. set (s2 := upd f (λ _, set_wakeup false (checked x)) s1).
    assert (fibers s2 !! f = Some (set_wakeup false (checked x))) as Hx2 by (unfold s2; by rewrite (upd_lookup _ _ _ (set_wakeup false x))).
    unfold deref. rewrite Hx2. change (deleted (set_wakeup false (checked x))) with (deleted (checked x)).
    destruct (checked_alike x) as (_&_&_&_&_&_&->). rewrite Hdel. cbn [bindO wakeup set_wakeup].
    set (s3 := set_waiters Lockers (erase f (waiters_ Lockers s2)) s2).
    destruct (pass_wakeup_ok b f e s3 (set_wakeup false (checked x)) r) as (s4&Hs4&?&_&Hl4).
    + apply (core_go_on f x (set_wakeup false (checked x)) r r s); try done.
      * by rewrite <- Hr, <- Hca.
      * cbn. rewrite alter_insert with (s := s1) (x := set_wakeup false x) by done. rewrite Hf1. by rewrite insert_insert_eq.
      * change (state_ (set_wakeup false (checked x))) with (state_ (checked x)). by rewrite Hcs.
      * cbn. by apply erase_snoc.
      * left. split; [done|by symmetry].
    + done.
    + change (at_ (set_wakeup false (checked x))) with (at_ (checked x)). by rewrite Hca.
    + exists s4. split_and!; [done|done|by rewrite Hl4].
  - eexists. split_and!; [reflexivity| |done].
    set (x' := set_at (Parked (Locking b)) (set_wakeup false x)).
    assert (¬ interrupted x) as Hni by (rewrite <- (thrown_interrupted x w), Hth; by intros [? ?]).
    apply (core_shift f x x' s); try done.
    + by rewrite Hr.
    + cbn. rewrite alter_insert with (s := s1) (x := set_wakeup false x) by done. rewrite Hf1. by rewrite insert_insert_eq.
    + unfold vis, fin. cbn. by rewrite Hr.
    + split; [apply Hc|done].
    + split; [|cbn; set_solver]. cbn. apply NoDup_app. split_and!; [apply Hc| |apply NoDup_singleton]. set_solver.
    + split; [apply Hc|done].
    + eauto.
    + left. split; [done|by symmetry].
    + intros j. cbn. split; [done|]. intros [_ [? [=]]].
    + intros Hg'. cbn in Hg'. congruence.
    + split; cbn.
      * split; [done|]. set_solver.
      * split; [done|]. intros [?|Hi]; [done|]. by destruct Hni.
Qed.
