(* ===== verification/FiberCalls.v ===== *)
(** * The calls of the user's code keep the invariant of the scheduler

    One lemma per call: if the rules of [allowed] are followed the call returns, and
    the state it leaves satisfies [inv] again ([exec_ok]). *)

From S2P Require Import Prelude TimerHeap Fibers FiberInv.

#[local] Set Warnings "-clear-no-such-hyp".

(** *** The calls that do not register the fiber anywhere *)

Definition good_call (o : outcome sched) : Prop := ∃ s', o = Ok s' ∧ inv s'.

Lemma running_deleted s f x r : core s → fibers s !! f = Some x → at_ x = User r → deleted x = false.
Proof.
  intros Hc Hx Hr. destruct (core_running s f x r Hc Hx Hr) as (_&_&_&_&_&_&Hd). unfold deref in Hd.
  rewrite Hx in Hd. by destruct (deleted x).
Qed.

(** The running fiber throws what [check] found. *)
Lemma throw_core f e x r s :
  core s → fibers s !! f = Some x → at_ x = User r →
  core (return_ f (Threw e) (upd f (λ _, checked x) s)) ∧
  (no_lost_wakeup s → no_lost_wakeup (return_ f (Threw e) (upd f (λ _, checked x) s))).
Proof.
  intros Hc Hx Hr. destruct (checked_alike x) as (Ha&Hv&Hst&Hg&_).
  assert (fibers (upd f (λ _, checked x) s) = <[f := checked x]> (fibers s)) as Hf
    by exact (upd_fibers f (λ _, checked x) s x Hx).
  assert (core (upd f (λ _, checked x) s)) as Hc1.
  { apply (core_go_on f x (checked x) r r s); try done; [by rewrite Ha|by rewrite Hst|by left]. }
  destruct (return_core f (Threw e) (upd f (λ _, checked x) s) (checked x) r) as (?&Hn'&_);
    [done|by rewrite Hf, lookup_insert_eq|by rewrite Ha|].
  split; [done|]. intros Hn. apply Hn'. apply (awake_frame s); [done..| |done]. intros j z b Hz Haz.
  rewrite Hf, lookup_insert_ne; [done|]. intros <-. congruence.
Qed.

Lemma Yield_ok f s x r :
  inv s → fibers s !! f = Some x → at_ x = User r → good_call (exec Yield f s).
Proof.
  intros [Hc Hn] Hx Hr. destruct (core_running s f x r Hc Hx Hr) as (Ht&Ht'&Hfin&Hnq&Hnl&Hnc&_).
  pose proof (running_deleted s f x r Hc Hx Hr) as Hdel. cbn [exec].
  unfold Yield_. rewrite (Unpark_ok f s x) by done. cbn [bindO]. unfold push. rewrite decide_False by done.
  set (s1 := set_queue (run_queue_ s ++ [f]) s). unfold Park. rewrite (check_spec f _ s1 x) by done. cbn [bindO].
  destruct (thrown_by x _) as [e|].
  - cbn [leave cleanup]. assert (set_queue (erase f (run_queue_ s1)) s1 = s) as ->.
    { change (run_queue_ s1) with (run_queue_ s ++ [f]). rewrite erase_snoc by done. by destruct s. }
    destruct (throw_core f e x r s Hc Hx Hr) as [? Hn']. eexists. split; [done|]. split; auto.
  - eexists. split; [done|]. split.
    + apply (core_shift f x (set_at (Parked Yielding) x) s); try done.
      * by rewrite Hr.
      * by apply (upd_fibers f _ s1).
      * unfold vis, fin. cbn. by rewrite Hr.
      * cbn. split; [|set_solver]. apply NoDup_app. split_and!; [apply Hc| |apply NoDup_singleton]. set_solver.
      * split; [apply Hc|done].
      * split; [apply Hc|done].
      * by left.
      * intros j. cbn. split; [done|]. by intros [_ [? [=]]].
      * cbn. split; [done|]. split; [done|set_solver].
    + apply (awake_frame s); [done..| |done]. intros j z b Hz Ha. cbn.
      rewrite lookup_alter_ne; [done|]. intros <-. congruence.
Qed.

Lemma alter_comm (m : gmap nat FiberImpl) i j g h :
  i ≠ j → alter g i (alter h j m) = alter h j (alter g i m).
Proof.
  intros Hne. apply map_eq. intros k. destruct (decide (k = i)) as [->|Hi].
  - rewrite lookup_alter_eq, !lookup_alter_ne by done. by rewrite lookup_alter_eq.
  - rewrite lookup_alter_ne by done. destruct (decide (k = j)) as [->|Hj].
    + by rewrite !lookup_alter_eq, lookup_alter_ne by done.
    + by rewrite !lookup_alter_ne by done.
Qed.

(** [NotifyOne] does not look at the fiber that calls it. *)
Lemma NotifyOne_upd q f g s :
  f ∉ waiters_ q s → NotifyOne q (upd f g s) = (s' <-? NotifyOne q s ;; Ok (upd f g s')).
Proof.
  intros Hf. unfold NotifyOne. assert (waiters_ q (upd f g s) = waiters_ q s) as -> by (by destruct q).
  destruct (waiters_ q s) as [|first rest]; [done|]. assert (first ≠ f) as Hne by set_solver.
  unfold Unpark, deref.
  assert (∀ s1, fibers (upd first (set_wakeup true) s1) !! first = set_wakeup true <$> fibers s1 !! first) as Hl.
  { intros s1. cbn. apply lookup_alter_eq. }
  rewrite !Hl. assert (fibers (set_waiters q rest (upd f g s)) !! first = fibers (set_waiters q rest s) !! first) as ->.
  { transitivity (alter g f (fibers s) !! first); [by destruct q|]. rewrite lookup_alter_ne by done. by destruct q. }
  destruct (fibers _ !! first) as [x|]; [|done]. cbn [fmap option_fmap option_map].
  destruct (deleted (set_wakeup true x)); [done|]. cbn [bindO].
  assert (upd first (set_wakeup true) (set_waiters q rest (upd f g s)) =
          upd f g (upd first (set_wakeup true) (set_waiters q rest s))) as ->.
  { destruct q; unfold upd, set_waiters, set_mutex, set_cond, set_fibers; cbn; f_equal; by apply alter_comm. }
  destruct (state_ _); try done; cbn [bindO]; cbn [run_queue_ upd set_fibers]; case_decide; done.
Qed.

Lemma Unlock_ok f s x r :
  inv s → fibers s !! f = Some x → at_ x = User r → guard_locked_ x = true →
  ∃ s' x', Unlock_ f s = Ok s' ∧ inv s' ∧ fibers s' !! f = Some x' ∧ at_ x' = User r ∧ guard_locked_ x' = false.
Proof.
  intros [Hc Hn] Hx Hr Hg. destruct (core_running s f x r Hc Hx Hr) as (Ht&Ht'&Hfin&Hnq&Hnl&Hnc&_).
  assert (locked_ s = true) as Hl by (apply (c_locked s Hc); eauto). unfold Unlock_. rewrite Hl.
  set (s0 := set_mutex false (lockers_ s) s). set (s1 := upd f (set_locked false) s0).
  assert (fibers s1 = <[f := set_locked false x]> (fibers s)) as Hf by exact (upd_fibers f _ s0 x Hx).
  assert (core s1) as Hc1.
  { apply (core_go_on f x (set_locked false x) r r s); try done. right. right. done. }
  destruct (NotifyOne_ok Lockers s1 Hc1) as (s2&Hs2&Hc2&Hk&Hn2&_).
  assert (NotifyOne Lockers s1 = (s' <-? NotifyOne Lockers s0 ;; Ok (upd f (set_locked false) s'))) as Heq
    by (by apply NotifyOne_upd).
  exists s2, (set_locked false x). split_and!; [by rewrite <- Heq|split; auto| |done|done].
  eapply keeps_user; [exact Hk| |exact Hr]. by rewrite Hf, lookup_insert_eq.
Qed.

Lemma CondVar_wait_ok f s x r :
  inv s → fibers s !! f = Some x → at_ x = User r → guard_locked_ x = true → good_call (exec CondVar_Wait f s).
Proof.
  intros Hi Hx0 Hr0 Hg0. destruct (Unlock_ok f s x r Hi Hx0 Hr0 Hg0) as (s0&x'&Hu&[Hc Hn]&Hx&Hr&Hg).
  cbn [exec]. unfold CondVar_wait. rewrite Hu. cbn [bindO]. clear s x Hi Hx0 Hr0 Hg0 Hu. rename s0 into s, x' into x.
  destruct (core_running s f x r Hc Hx Hr) as (Ht&Ht'&Hfin&Hnq&Hnl&Hnc&_).
  pose proof (running_deleted s f x r Hc Hx Hr) as Hdel.
  set (s0 := set_cond (cond_waiters_ s ++ [f]) s). set (s1 := upd f (set_wakeup false) s0).
  assert (fibers s1 = <[f := set_wakeup false x]> (fibers s)) as Hf1 by exact (upd_fibers f _ s0 x Hx).
  assert (fibers s1 !! f = Some (set_wakeup false x)) as Hx1 by (by rewrite Hf1, lookup_insert_eq).
  unfold Park. rewrite (check_ok f _ s1 (set_wakeup false x)) by done. cbn [bindO].
  change (thrown_by (set_wakeup false x) ?w) with (thrown_by x w). rewrite checked_wakeup.
  destruct (checked_alike x) as (Hca&Hcv&Hcs&Hcl&_&_&Hcd).
  destruct (thrown_by x _) as [e|] eqn:Hth.
  - cbn [leave cleanup]. unfold Wait_end. set (s2 := upd f (λ _, set_wakeup false (checked x)) s1).
    assert (fibers s2 = <[f := set_wakeup false (checked x)]> (fibers s)) as Hf2.
    { unfold s2. rewrite (upd_fibers f _ s1 _ Hx1), Hf1. by rewrite insert_insert_eq. }
    unfold deref. rewrite Hf2, lookup_insert_eq. change (deleted (set_wakeup false (checked x))) with (deleted (checked x)).
    rewrite Hcd, Hdel. cbn [bindO wakeup set_wakeup].
    set (s3 := set_waiters CondWaiters (erase f (waiters_ CondWaiters s2)) s2).
    assert (core s3) as Hc3.
    { apply (core_go_on f x (set_wakeup false (checked x)) r r s); try done.
      - by rewrite <- Hr, <- Hca.
      - change (state_ (set_wakeup false (checked x))) with (state_ (checked x)). by rewrite Hcs.
      - change (cond_waiters_ s3) with (erase f (cond_waiters_ s ++ [f])). by apply erase_snoc.
      - by left. }
    eexists. split; [done|].
    destruct (return_core f (Threw e) s3 (set_wakeup false (checked x)) r) as (?&Hn'&_); [done| |by rewrite <- Hr, <- Hca|].
    { change (fibers s3) with (fibers s2). by rewrite Hf2, lookup_insert_eq. }
    split; [done|]. apply Hn', (awake_frame s); [done..| |done]. intros j z b Hz Ha.
    change (fibers s3) with (fibers s2). rewrite Hf2, lookup_insert_ne; [done|]. intros <-. congruence.
  - set (x' := set_at (Parked CondWaiting) (set_wakeup false x)).
    assert (¬ interrupted x) as Hni by (rewrite <- thrown_interrupted, Hth; by intros [? ?]).
    assert (fibers (upd f (set_at (Parked CondWaiting)) s1) = <[f := x']> (fibers s)) as Hf2.
    { rewrite (upd_fibers f _ s1 _ Hx1), Hf1. by rewrite insert_insert_eq. }
    eexists. split; [done|]. split.
    + apply (core_shift f x x' s); try done.
      * by rewrite Hr.
      * unfold vis, fin. cbn. by rewrite Hr.
      * split; [apply Hc|done].
      * split; [apply Hc|done].
      * cbn. split; [|set_solver]. apply NoDup_app. split_and!; [apply Hc| |apply NoDup_singleton]. set_solver.
      * by left.
      * intros j. cbn. split; [done|]. by intros [_ [? [=]]].
      * intros Hg'. cbn in Hg'. congruence.
      * split; cbn; [split; [done|set_solver]|]. split; [done|]. intros [?|?]; [done|by destruct Hni].
    + apply (awake_frame s); [done..| |done]. intros j z b Hz Ha.
      change (fibers (upd f (set_at (Parked CondWaiting)) s1) !! j = Some z).
      rewrite Hf2, lookup_insert_ne; [done|]. intros <-. congruence.
Qed.

Lemma keeps_inv s s' : inv s → core s' → keeps s s' → inv s'.
Proof. intros [_ Hn] Hc Hk. split; [done|]. by eapply keeps_awake. Qed.

Lemma Notify_ok f s :
  inv s → good_call (exec CondVar_NotifyOne f s) ∧ good_call (exec CondVar_NotifyAll f s).
Proof.
  intros Hi. pose proof Hi as [Hc _]. split.
  - destruct (NotifyOne_ok CondWaiters s Hc) as (s'&?&?&?&_). exists s'. split; [done|]. by eapply keeps_inv.
  - destruct (NotifyAll_ok (length (cond_waiters_ s)) CondWaiters s Hc) as (s'&?&?&?&_); [done|].
    exists s'. split; [done|]. by eapply keeps_inv.
Qed.

(** The running fiber sets its cancel guard; the frozen clock is moved. *)
Lemma CancelGuard_ok b f s x r :
  inv s → fibers s !! f = Some x → at_ x = User r → good_call (exec (CancelGuard b) f s).
Proof.
  intros [Hc Hn] Hx Hr. eexists. split; [done|]. split.
  - apply (core_go_on f x (set_guard b x) r r s); try done; [by apply upd_fibers|by left].
  - apply (awake_frame s); [done..| |done]. intros j z c Hz Ha. cbn.
    rewrite lookup_alter_ne; [done|]. intros <-. congruence.
Qed.

Lemma set_time_core n b s : core s → (now_ s <= n)%Z → core (set_time n b s).
Proof.
  intros Hc Hn. destruct Hc as [H1 H2 H3 H4 H5 H6 H7 H8 H9 H10 H11]. split; try done.
  - intros f x Hx. destruct (H4 f x Hx) as [? ? ? ? ? Hp]. split; try done.
    eapply place_frame; [exact Hp|done|done|done|]. intros k _. by destruct k.
  - intros g G HG. by destruct (H9 g G HG).
  - by destruct H10.
Qed.

Lemma time_ok f s c x :
  inv s → (∃ b, c = FreezeTime b) ∨ (∃ d, c = AdvanceTime d) → allowed c f x s → good_call (exec c f s).
Proof.
  intros [Hc Hn] [[b ->]|[d ->]]; cbn; intros Ha; (eexists; split; [done|]; split; [apply set_time_core; [done|lia]|done]).
Qed.

(** *** Timers *)

Lemma timer_move f x x' s s' :
  core s → fibers s !! f = Some x → fibers s' = <[f := x']> (fibers s) →
  vis x' = vis x → state_ x' = state_ x → guard_locked_ x' = guard_locked_ x →
  (groups s' = groups s ∧ (now_ s <= now_ s')%Z ∧ main_fiber_ s' = main_fiber_ s ∧ locked_ s' = locked_ s) →
  (NoDup (run_queue_ s') ∧ ∀ j, j ≠ f → j ∈ run_queue_ s' ↔ j ∈ run_queue_ s) →
  lockers_ s' = lockers_ s → cond_waiters_ s' = cond_waiters_ s →
  TimerHeap.wf (timers_ s') → (∀ tm, is_Some (active s' !! tm) → is_Some (timer_of s' !! tm)) →
  (∀ tm, timer_of s' !! tm = timer_of s !! tm ∧ active s' !! tm = active s !! tm ∨
     self f (fst <$> timer_of s !! tm) ∧ self f (fst <$> timer_of s' !! tm)) →
  hole_move f x x' s s'.
Proof.
  intros Hc Hx Hf Hv Hst Hg (Hgr&Hn&Hm&Hl) Hq Hlk Hcd Hwf Hact Htm. split; try done.
  - by rewrite Hf, lookup_insert_eq.
  - split; [done|]. rewrite Hst. apply (f_dead _ _ _ (c_fiber s Hc f x Hx)).
  - rewrite Hlk. split; [apply Hc|done].
  - rewrite Hcd. split; [apply Hc|done].
  - intros j Hne. rewrite Hf, lookup_insert_ne by done. destruct (fibers s !! j); constructor. apply fiber_move_refl.
  - by left.
  - intros g. left. rewrite Hgr. destruct (groups s !! g); constructor. apply group_move_refl.
Qed.

Lemma fresh_timer s tm : core s → timer_of s !! tm = None → active s !! tm = None ∧ TimerHeap.position tm (timers_ s) = (-1)%Z.
Proof.
  intros Hc Htm. assert (active s !! tm = None) as Ha.
  { apply eq_None_not_Some. intros Hs%(t_active _ (c_timers s Hc)). rewrite Htm in Hs. by destruct Hs. }
  split; [done|]. destruct (Z.eq_dec (TimerHeap.position tm (timers_ s)) (-1)) as [|Hne]; [done|].
  apply TimerHeap.active_abs in Hne; [|apply (c_timers s Hc)]. rewrite Ha in Hne. by destruct Hne.
Qed.

Lemma destroy_ok h tm :
  TimerHeap.wf h → ∃ h', TimerHeap.destroy tm h = Ok h' ∧ TimerHeap.wf h' ∧ TimerHeap.abs h' = delete tm (TimerHeap.abs h).
Proof.
  intros Hwf. destruct (TimerHeap.Deactivate_ok h tm Hwf) as (h'&Hd&?&?). exists h'. split_and!; [|done|done].
  unfold TimerHeap.destroy, TimerHeap.IsActive. unfold TimerHeap.Deactivate in *.
  by destruct (TimerHeap.position tm h =? -1)%Z.
Qed.

(** The running fiber starts, or destroys, a timer that is not a [SleepTimer]. *)
Lemma core_timer f x r s s' tm :
  core s → fibers s !! f = Some x → at_ x = User r →
  s' = set_timers (timers_ s') (timer_of s') s →
  TimerHeap.wf (timers_ s') → (∀ t, is_Some (active s' !! t) → is_Some (timer_of s' !! t)) →
  self f (fst <$> timer_of s !! tm) → (timer_of s' !! tm = None ∨ timer_of s' !! tm = Some (f, TimeoutGuard)) →
  (∀ t, t ≠ tm → timer_of s' !! t = timer_of s !! t ∧ active s' !! t = active s !! t) → core s'.
Proof.
  intros Hc Hx Hr Hs Hwf Hact Hself Hnew Hsame.
  destruct (core_running s f x r Hc Hx Hr) as (Ht&Ht'&Hfin&Hnq&Hnl&Hnc&_).
  assert (fibers s' = fibers s ∧ groups s' = groups s ∧ now_ s' = now_ s ∧ main_fiber_ s' = main_fiber_ s ∧
    locked_ s' = locked_ s ∧ run_queue_ s' = run_queue_ s ∧ lockers_ s' = lockers_ s ∧
    cond_waiters_ s' = cond_waiters_ s ∧ this_fiber s' = this_fiber s) as (Ef&Eg&En&Em&El&Eq&Elk&Ec&Eth)
    by (rewrite Hs; done).
  apply (move_core f x x s); [done|done|done| | | | |].
  - apply timer_move; try done.
    + rewrite Ef. by rewrite insert_id.
    + rewrite Eg, En, Em, El. done.
    + rewrite Eq. split; [apply Hc|done].
    + intros t. destruct (decide (t = tm)) as [->|Hne]; [right|left; by apply Hsame]. split; [done|].
      destruct Hnew as [-> | ->]; [by left|by right].
  - apply (refs_user f x r s); [done|done|done|rewrite Ef|rewrite Eg|rewrite Eg| |rewrite Elk|rewrite Ec]; [by eauto..| |by eauto|by eauto].
    intros t Htm. destruct (decide (t = tm)) as [->|Hne]; [destruct Hnew; congruence|].
    left. by rewrite <- (proj1 (Hsame t Hne)).
  - intros j. rewrite Eth, Ht, Hr. split; [intros [= <-]; eauto|by intros [-> _]].
  - by rewrite Hr.
  - unfold place_ok. rewrite Hr. by rewrite Eq.
Qed.

Lemma Timeout_ok tm d f s x r :
  inv s → fibers s !! f = Some x → at_ x = User r →
  (allowed (NewTimeout tm d) f x s → good_call (exec (NewTimeout tm d) f s)) ∧
  (allowed (DestroyTimeout tm) f x s → good_call (exec (DestroyTimeout tm) f s)).
Proof.
  intros [Hc Hn] Hx Hr. pose proof (c_timers s Hc) as [Hwf Hact _]. split.
  - intros [Htm Hlen]. destruct (fresh_timer s tm Hc Htm) as [Hina Hpos]. cbn [exec].
    unfold TimeoutGuard_new. destruct (TimerHeap.Activate_ok (timers_ s) tm (now_ s + d) Hwf Hpos Hlen) as (h&->&Hwf'&Habs). cbn [bindO].
    eexists. split; [done|]. split; [|done]. eapply (core_timer f x r s _ tm); try done; cbn.
    + intros t. rewrite Habs. destruct (decide (t = tm)) as [->|Hne].
      * rewrite !lookup_insert_eq. eauto.
      * rewrite !lookup_insert_ne by done. apply Hact.
    + rewrite Htm. by left.
    + right. by rewrite lookup_insert_eq.
    + intros t Hne. rewrite Habs. by rewrite !lookup_insert_ne.
  - cbn. unfold Timer_destroy. intros Htm. destruct (destroy_ok (timers_ s) tm Hwf) as (h&->&Hwf'&Habs). cbn [bindO].
    eexists. split; [done|]. split; [|done]. eapply (core_timer f x r s _ tm); try done; cbn.
    + intros t. rewrite Habs. destruct (decide (t = tm)) as [->|Hne].
      * rewrite lookup_delete_eq. by intros [? ?].
      * rewrite !lookup_delete_ne by done. apply Hact.
    + rewrite Htm. by right.
    + left. by rewrite lookup_delete_eq.
    + intros t Hne. rewrite Habs. by rewrite !lookup_delete_ne.
Qed.

Lemma Sleep_ok tm d f s x r :
  inv s → fibers s !! f = Some x → at_ x = User r → allowed (SleepFor tm d) f x s →
  good_call (exec (SleepFor tm d) f s).
Proof.
  intros [Hc Hn] Hx Hr [Htm Hlen]. destruct (core_running s f x r Hc Hx Hr) as (Ht&Ht'&Hfin&Hnq&Hnl&Hnc&_).
  pose proof (running_deleted s f x r Hc Hx Hr) as Hdel. pose proof (c_timers s Hc) as [Hwf Hact _].
  destruct (fresh_timer s tm Hc Htm) as [Hina Hpos]. cbn [exec]. unfold SleepUntil. set (dd := (now_ s + d)%Z).
  destruct (TimerHeap.Activate_ok (timers_ s) tm dd Hwf Hpos Hlen) as (h&->&Hwf'&Habs). cbn [bindO].
  set (i := <[tm := (f, SleepTimer)]> (timer_of s)). set (s1 := set_timers h i s).
  unfold Park. rewrite (check_ok f _ s1 x) by done. cbn [bindO]. destruct (thrown_by x _) as [e|] eqn:Hth.
  - cbn [leave cleanup]. change (timers_ (upd f (λ _, checked x) s1)) with h.
    destruct (destroy_ok h tm Hwf') as (h'&->&Hwf2&Habs2). cbn [bindO].
    destruct (throw_core f e x r s Hc Hx Hr) as [Hc2 Hn2]. eexists. split; [done|].
    set (s2 := return_ f (Threw e) (upd f (λ _, checked x) s)) in *.
    change (inv (set_timers h' (delete tm i) s2)). split; [|by apply Hn2].
    assert (fibers s2 !! f = Some (set_at (User (Threw e)) (checked x))) as Hx2.
    { unfold s2, return_. apply upd_lookup. by rewrite (upd_lookup f _ s x). }
    eapply (core_timer f _ (Threw e) s2 _ tm Hc2 Hx2); try done; cbn.
    + intros t. rewrite Habs2, Habs. destruct (decide (t = tm)) as [->|Hne].
      * rewrite lookup_delete_eq. by intros [? ?].
      * unfold i. rewrite !lookup_delete_ne, !lookup_insert_ne by done. apply Hact.
    + rewrite Htm. by left.
    + left. by rewrite lookup_delete_eq.
    + intros t Hne. unfold i. rewrite Habs2, Habs. by rewrite !lookup_delete_ne, !lookup_insert_ne.
  - set (x' := set_at (Parked (InSleep tm dd)) x).
    assert (¬ interrupted x) as Hni by (rewrite <- thrown_interrupted, Hth; by intros [? ?]).
    assert (∀ t, t ≠ tm → i !! t = timer_of s !! t ∧ TimerHeap.abs h !! t = active s !! t) as Hsame.
    { intros t Hne. unfold i. rewrite Habs. by rewrite !lookup_insert_ne. }
    eexists. split; [done|]. split.
    + apply (move_core f x x' s); [done|done|done| | | |done|].
      * apply timer_move; try done.
        -- by apply (upd_fibers f _ s1).
        -- unfold vis, fin. cbn. by rewrite Hr.
        -- split; [apply Hc|done].
        -- cbn. intros t. destruct (decide (t = tm)) as [->|Hne]; [unfold i; rewrite lookup_insert_eq; eauto|].
           destruct (Hsame t Hne) as [-> ->]. apply Hact.
        -- cbn. intros t. destruct (decide (t = tm)) as [->|Hne]; [right|left; by apply Hsame].
           unfold i. rewrite Htm, lookup_insert_eq. split; [by left|by right].
      * apply (refs_user f x r s); [done|done|done| |by eauto|by eauto| |by eauto|by eauto].
        -- intros c y Hy Hw. left. cbn in Hy. destruct (decide (c = f)) as [->|Hne].
           ++ rewrite lookup_alter_eq, Hx in Hy. cbn in Hy. simplify_eq. eauto.
           ++ rewrite lookup_alter_ne in Hy by done. eauto.
        -- intros t Htt. cbn in Htt. destruct (decide (t = tm)) as [->|Hne]; [right; by eexists|].
           left. by rewrite <- (proj1 (Hsame t Hne)).
      * intros j. cbn. split; [done|]. by intros [_ [? [=]]].
      * split; cbn.
        -- unfold i. rewrite lookup_insert_eq, Habs, lookup_insert_eq. split; [done|by left].
        -- rewrite Habs, lookup_insert_eq. split; [done|]. intros [?|?]; [done|by destruct Hni].
    + apply (awake_frame s); [done..| |done]. intros j z b Hz Ha. cbn.
      rewrite lookup_alter_ne; [done|]. intros <-. congruence.
Qed.

(** *** Groups and fibers are made *)

Lemma NewGroup_ok g w f s x : inv s → allowed (NewGroup g w) f x s → good_call (exec (NewGroup g w) f s).
Proof.
  intros [Hc Hn] Hg. cbn in Hg. eexists. split; [done|]. split; [|done].
  assert (∀ k j y, kont_ok s j y k → sees k s (set_groups (<[g := mkGroup [] None w None None]> (groups s)) s)) as Hsees.
  { intros k j y Hk. destruct k as [| | |g' sv|g'| |]; cbn in *; try done; destruct (decide (g' = g)) as [->|Hne].
    - destruct Hk as (_&_&G&?&_). congruence.
    - by rewrite lookup_insert_ne.
    - destruct Hk as (G&?&_). congruence.
    - by rewrite lookup_insert_ne. }
  destruct Hc as [H1 H2 H3 H4 H5 H6 H7 H8 H9 H10 H11]. split; try done.
  - intros j y Hy. destruct (H4 j y Hy) as [? ? ? Hgr ? Hp]. split; try done.
    + intros g' Hg' Hf. destruct (Hgr g' Hg' Hf) as (G&?&?). exists G. cbn.
      rewrite lookup_insert_ne; [done|]. intros <-. congruence.
    + eapply place_frame; [exact Hp|done|done|done|]. intros k Hk. unfold place_ok in Hp. rewrite Hk in Hp.
      eapply Hsees. apply Hp.
  - intros g' G HG. cbn in HG. destruct (decide (g' = g)) as [->|Hne].
    + rewrite lookup_insert_eq in HG. simplify_eq. split; cbn; try done; [apply NoDup_nil_2|by intros j ?%elem_of_nil].
    + rewrite lookup_insert_ne in HG by done. by destruct (H9 g' G HG).
  - by destruct H10.
Qed.

Definition add_fiber (c : nat) (G : Group) : Group :=
  mkGroup (fibers_ G ++ [c]) (joiner_ G) (is_wait G) (first_error_ G) (group_waiter_ G).

Definition add_to (go : option nat) (c : nat) (s : sched) : gmap nat Group :=
  match go with Some g => alter (add_fiber c) g (groups s) | None => groups s end.

(** A new fiber is put into the queue, and into its group. *)
Lemma core_new c go s :
  core s → fibers s !! c = None →
  (∀ g, go = Some g → ∃ G, groups s !! g = Some G ∧ (joiner_ G = None ∧ group_waiter_ G = None ∨ fibers_ G ≠ [])) →
  core (set_groups (add_to go c s) (set_queue (run_queue_ s ++ [c]) (set_fibers (<[c := new_fiber go]> (fibers s)) s))).
Proof.
  intros Hc Hn Hgo. set (s' := set_groups _ _).
  assert (c ∉ run_queue_ s) as Hq by (intros [? ?]%(c_queued s Hc); congruence).
  assert (∀ j y, fibers s !! j = Some y → fibers s' !! j = Some y) as Hold.
  { intros j y Hy. cbn. rewrite lookup_insert_ne; [done|]. intros <-. congruence. }
  assert (∀ g G, groups s !! g = Some G → ∃ G', groups s' !! g = Some G' ∧ (G' = G ∨ go = Some g ∧ G' = add_fiber c G)) as Hgrp.
  { intros g G HG. cbn. destruct go as [g'|]; cbn; [|eauto]. destruct (decide (g' = g)) as [->|Hne].
    - rewrite lookup_alter_eq, HG. cbn. eauto.
    - rewrite lookup_alter_ne by done. eauto. }
  assert (∀ k j y, kont_ok s j y k → sees k s s') as Hsees.
  { intros k j y Hk. destruct k as [|tm d|c' sv|g sv|g| |]; cbn -[s']; try done.
    - destruct Hk as (_&z&Hz&_). by rewrite (Hold _ _ Hz), Hz.
    - destruct Hk as (_&_&G&HG&Hj&_). destruct (Hgrp g G HG) as (G'&HG'&[->|[Hgg ->]]); rewrite HG, HG'; [done|].
      cbn. unfold join_view. cbn. destruct (Hgo g Hgg) as (?&?&[[? _]|?]); [congruence|]. simplify_eq.
      by destruct (fibers_ _).
    - destruct Hk as (G&HG&Hw&_). destruct (Hgrp g G HG) as (G'&HG'&[->|[Hgg ->]]); rewrite HG, HG'; [done|].
      cbn. unfold wait_view. cbn. destruct (Hgo g Hgg) as (?&?&[[_ ?]|?]); [congruence|]. simplify_eq.
      by destruct (fibers_ _). }
  assert (∀ w P, (∃ y, fibers s !! w = Some y ∧ P y) → ∃ y, fibers s' !! w = Some y ∧ P y) as Hex.
  { intros w P (y&?&?). exists y. eauto. }
  split.
  - cbn. apply NoDup_app. split_and!; [apply Hc| |apply NoDup_singleton]. set_solver.
  - intros j [Hj|Hj%list_elem_of_singleton]%elem_of_app.
    + destruct (c_queued s Hc j Hj) as [y ?]. exists y. auto.
    + subst. cbn. rewrite lookup_insert_eq. eauto.
  - intros j. change (this_fiber s') with (this_fiber s). rewrite (c_this s Hc j). split.
    + intros (y&r&?&?). exists y, r. auto.
    + intros (y&r&Hy&Hr). cbn in Hy. destruct (decide (j = c)) as [->|Hne].
      * rewrite lookup_insert_eq in Hy. by simplify_eq.
      * rewrite lookup_insert_ne in Hy by done. eauto.
  - intros j y Hy. cbn in Hy. destruct (decide (j = c)) as [->|Hne].
    + rewrite lookup_insert_eq in Hy. simplify_eq. split; try done; cbn.
      * intros g -> _. destruct (Hgo g eq_refl) as (G&HG&_). exists (add_fiber c G). cbn.
        rewrite lookup_alter_eq, HG. split; [done|]. cbn. set_solver.
      * unfold place_ok. cbn. set_solver.
    + rewrite lookup_insert_ne in Hy by done. destruct (c_fiber s Hc j y Hy) as [? ? Hw Hg ? Hp]. split; try done.
      * intros w Hyw. destruct (Hw w Hyw) as (z&sv&?&?). exists z, sv. auto.
      * intros g Hyg Hyf. destruct (Hg g Hyg Hyf) as (G&HG&Hj). destruct (Hgrp g G HG) as (G'&HG'&Hor).
        exists G'. split; [done|]. destruct Hor as [->|[_ ->]]; [done|]. cbn. set_solver.
      * eapply place_frame; [exact Hp| |done|done|].
        -- cbn. set_solver.
        -- intros k Hk. unfold place_ok in Hp. rewrite Hk in Hp. eapply Hsees. apply Hp.
  - split; [apply Hc|]. intros j Hj. destruct (proj2 (c_lockers s Hc) j Hj) as (y&b&?&?). exists y, b. auto.
  - split; [apply Hc|]. intros j Hj. apply Hex. by apply (proj2 (c_conds s Hc)).
  - intros j j' y y' Hy Hy' Hg Hg'. cbn in Hy, Hy'.
    destruct (decide (j = c)) as [->|Hne]; [rewrite lookup_insert_eq in Hy; by simplify_eq|].
    destruct (decide (j' = c)) as [->|Hne']; [rewrite lookup_insert_eq in Hy'; by simplify_eq|].
    rewrite lookup_insert_ne in Hy, Hy' by done. by eapply (c_unique s Hc).
  - change (locked_ s') with (locked_ s). rewrite (c_locked s Hc). split; intros (j&y&Hy&Hg); [eauto|].
    cbn in Hy. destruct (decide (j = c)) as [->|Hne]; [rewrite lookup_insert_eq in Hy; by simplify_eq|].
    rewrite lookup_insert_ne in Hy by done. eauto.
  - intros g G' HG'. assert (∃ G, groups s !! g = Some G ∧ (G' = G ∨ go = Some g ∧ G' = add_fiber c G)) as (G&HG&Hor).
    { cbn in HG'. destruct go as [g'|]; cbn in HG'; [|eauto]. destruct (decide (g' = g)) as [->|Hne].
      - rewrite lookup_alter_eq in HG'. destruct (groups s !! g) as [G|]; [|done]. cbn in HG'. simplify_eq. eauto.
      - rewrite lookup_alter_ne in HG' by done. eauto. }
    destruct (c_group s Hc g G HG) as [Hnd Hfs Hj Hw].
    assert (c ∉ fibers_ G) as Hcg by (intros (y&?&_)%Hfs; congruence).
    split.
    + destruct Hor as [->|[_ ->]]; [done|]. cbn. apply NoDup_app. split_and!; [done| |apply NoDup_singleton]. set_solver.
    + intros j Hj'. assert (j ∈ fibers_ G ∨ j = c ∧ go = Some g) as [Hin|[-> ->]].
      { destruct Hor as [->|[? ->]]; [by left|]. cbn in Hj'. set_solver. }
      * apply Hex. by apply Hfs.
      * exists (new_fiber (Some g)). cbn. by rewrite lookup_insert_eq.
    + intros w Hw'. destruct (Hj w) as (y&sv&?&?); [by destruct Hor as [->|[_ ->]]|]. exists y, sv. auto.
    + intros w Hw'. destruct (Hw w) as (?&?); [by destruct Hor as [->|[_ ->]]|].
      split; [by destruct Hor as [->|[_ ->]]|]. by apply Hex.
  - destruct (c_timers s Hc) as [? ? Ho]. split; try done. intros tm j k Hj.
    destruct (Ho tm j k Hj) as (y&?&?&?). exists y. auto.
  - destruct (c_main s Hc) as [y Hy]. exists y. auto.
Qed.

Lemma New_ok c g f s x :
  inv s →
  (allowed (NewFiber c) f x s → good_call (exec (NewFiber c) f s)) ∧
  (allowed (Spawn g c) f x s → good_call (exec (Spawn g c) f s)).
Proof.
  intros [Hc Hn]. assert (∀ go, fibers s !! c = None → Unpark c (set_fibers (<[c := new_fiber go]> (fibers s)) s) =
    Ok (set_queue (run_queue_ s ++ [c]) (set_fibers (<[c := new_fiber go]> (fibers s)) s))) as Hun.
  { intros go Hnone. unfold Unpark, deref. cbn [fibers set_fibers]. rewrite lookup_insert_eq. cbn [deleted new_fiber bindO state_].
    rewrite decide_False; [done|]. cbn. intros [? ?]%(c_queued s Hc). congruence. }
  assert (∀ s', locked_ s' = locked_ s → lockers_ s' = lockers_ s → fibers s !! c = None →
    (∃ go, fibers s' = <[c := new_fiber go]> (fibers s)) → no_lost_wakeup s') as Hawake.
  { intros s' Hl Hk Hnone [go Hf]. apply (awake_frame s); [by rewrite Hl|by rewrite Hk| |done].
    intros j y b Hy _. rewrite Hf, lookup_insert_ne; [done|]. intros <-. congruence. }
  split.
  - cbn. intros Hnone. unfold Fiber_new. rewrite Hun by done. eexists. split; [done|]. split.
    + pose proof (core_new c None s Hc Hnone) as Hcn. apply Hcn. done.
    + apply Hawake; [done..|]. by exists None.
  - cbn. intros (Hnone&G&HG&Hw). unfold DoSpawn, deref_group. rewrite HG. cbn [bindO]. rewrite Hun by done. cbn [bindO].
    eexists. split; [done|]. split.
    + pose proof (core_new c (Some g) s Hc Hnone) as Hcn. apply Hcn. intros g' [= <-]. eauto.
    + apply Hawake; [done..|]. by exists (Some g).
Qed.

(** *** Joining *)

(** The running fiber changes its record and that of another fiber. *)
Lemma fiber_reg_move f x x' c y y' s s' :
  core s → fibers s !! f = Some x → fibers s !! c = Some y → c ≠ f →
  fibers s' = <[f := x']> (<[c := y']> (fibers s)) → fiber_move f y y' →
  vis x' = vis x → state_ x' = state_ x → guard_locked_ x' = guard_locked_ x →
  (groups s' = groups s ∧ timers_ s' = timers_ s ∧ timer_of s' = timer_of s ∧ now_ s' = now_ s ∧
   main_fiber_ s' = main_fiber_ s ∧ locked_ s' = locked_ s) →
  (NoDup (run_queue_ s') ∧ ∀ j, j ≠ f → j ∈ run_queue_ s' ↔ j ∈ run_queue_ s) →
  lockers_ s' = lockers_ s → cond_waiters_ s' = cond_waiters_ s →
  hole_move f x x' s s'.
Proof.
  intros Hc Hx Hy Hne Hf Hmv Hv Hst Hg (Hgr&Ht&Ho&Hn&Hm&Hl) Hq Hlk Hcd. pose proof (c_timers s Hc) as [? ? ?].
  split; try done.
  - by rewrite Hf, lookup_insert_eq.
  - split; [done|]. rewrite Hst. apply (f_dead _ _ _ (c_fiber s Hc f x Hx)).
  - rewrite Hlk. split; [apply Hc|done].
  - rewrite Hcd. split; [apply Hc|done].
  - intros j Hj. rewrite Hf, lookup_insert_ne by done. destruct (decide (j = c)) as [->|Hjc].
    + rewrite lookup_insert_eq, Hy. by constructor.
    + rewrite lookup_insert_ne by done. destruct (fibers s !! j); constructor. apply fiber_move_refl.
  - by left.
  - intros g. left. rewrite Hgr. destruct (groups s !! g); constructor. apply group_move_refl.
  - rewrite Ht, Ho, Hn. done.
  - intros tm. rewrite Ht, Ho. by left.
Qed.

Lemma delete_fiber_core c y f x r s :
  core s → fibers s !! f = Some x → at_ x = User r → fibers s !! c = Some y → c ≠ f → fin y = true →
  waiter_ y = None → core (upd c (set_deleted true) s).
Proof.
  intros Hc Hx Hr Hy Hne Hfin Hw. destruct (core_running s f x r Hc Hx Hr) as (Ht&Ht'&Hfx&Hnq&Hnl&Hnc&_).
  assert (fibers (upd c (set_deleted true) s) = <[c := set_deleted true y]> (fibers s)) as Hf by (by apply upd_fibers).
  apply (move_core f x x s); [done|done|done| | | | |].
  - apply (fiber_reg_move f x x c y (set_deleted true y)); try done.
    + rewrite Hf. symmetry. apply insert_id. by rewrite lookup_insert_ne.
    + split; try done; [by right|]. right. cbn. rewrite Hw. by split; left.
    + split; [apply Hc|done].
  - apply (refs_user f x r s); [done|done|done| |by eauto..]. rewrite Hf. intros c' z Hz Hwz. left.
    destruct (decide (c' = c)) as [->|Hcc]; [rewrite lookup_insert_eq in Hz; simplify_eq; eauto|].
    rewrite lookup_insert_ne in Hz by done. eauto.
  - intros j. cbn. rewrite Ht, Hr. split; [intros [= <-]; eauto|by intros [-> _]].
  - by rewrite Hr.
  - unfold place_ok. by rewrite Hr.
Qed.

Lemma Join_core c y f x r sv s s' :
  core s → fibers s !! f = Some x → at_ x = User r → fibers s !! c = Some y → c ≠ f → fin y = false →
  waiter_ y = None → group_ y = None →
  s' = set_this None (upd f (set_at (Parked (Joining c sv))) (upd c (set_waiter (Some f)) (upd f (set_guard true) s))) →
  core s'.
Proof.
  intros Hc Hx Hr Hy Hne Hfin Hw Hg Hs. destruct (core_running s f x r Hc Hx Hr) as (Ht&Ht'&Hfx&Hnq&Hnl&Hnc&_).
  set (x' := set_at (Parked (Joining c sv)) (set_guard true x)). set (y' := set_waiter (Some f) y).
  assert (fibers s' = <[f := x']> (<[c := y']> (fibers s))) as Hf.
  { rewrite Hs. cbn. apply map_eq. intros j. destruct (decide (j = f)) as [->|Hjf].
    - rewrite lookup_alter_eq, lookup_alter_ne, lookup_alter_eq, Hx, lookup_insert_eq by done. done.
    - rewrite lookup_alter_ne, lookup_insert_ne by done. destruct (decide (j = c)) as [->|Hjc].
      + rewrite lookup_alter_eq, lookup_alter_ne, Hy, lookup_insert_eq by done. done.
      + by rewrite !lookup_alter_ne, lookup_insert_ne by done. }
  assert (deleted y = false) as Hdel.
  { destruct (deleted y) eqn:Hd; [|done]. apply (f_deleted _ _ _ (c_fiber s Hc c y Hy)) in Hd. congruence. }
  apply (move_core f x x' s); [done|done|done| | | |done|].
  - apply (fiber_reg_move f x x' c y y'); try done; try (by rewrite Hs).
    + split; try done; [by left|]. right. cbn. rewrite Hw. split; [by left|by right].
    + unfold vis, fin. cbn. by rewrite Hr.
    + rewrite Hs. split; [apply Hc|done].
  - apply (refs_user f x r s); [done|done|done| |rewrite Hs; by eauto..]. intros c' z Hz Hwz. rewrite Hf in Hz.
    destruct (decide (c' = c)) as [->|Hcc]; [right; by exists sv|]. left. destruct (decide (c' = f)) as [->|Hcf].
    + rewrite lookup_insert_eq in Hz. simplify_eq. eauto.
    + rewrite !lookup_insert_ne in Hz by done. eauto.
  - intros j. rewrite Hs. cbn. split; [done|]. by intros [_ [? [=]]].
  - split; cbn.
    + split; [done|]. exists y'. rewrite Hf, lookup_insert_ne, lookup_insert_eq by done. done.
    + rewrite Hf, lookup_insert_ne, lookup_insert_eq by done. rewrite Hs. cbn. split; [done|].
      intros (z&[= <-]&Hz). change (fin y') with (fin y) in Hz. congruence.
Qed.

Lemma DestroyFiber_ok c f s x r :
  inv s → fibers s !! f = Some x → at_ x = User r → allowed (DestroyFiber c) f x s →
  good_call (exec (DestroyFiber c) f s).
Proof.
  intros Hi Hx Hr (y&Hy&Hdel&Hg&Hw&Hne&_). pose proof Hi as [Hc Hn].
  destruct (core_running s f x r Hc Hx Hr) as (Ht&Ht'&Hfx&Hnq&Hnl&Hnc&_).
  cbn [exec]. unfold Fiber_destroy, deref. rewrite Hy, Hdel. cbn [bindO]. destruct (fin y) eqn:Hfin.
  - rewrite (proj2 (f_dead _ _ _ (c_fiber s Hc c y Hy)) Hfin). eexists. split; [done|]. split.
    + by apply (delete_fiber_core c y f x r).
    + apply (awake_frame s); [done..| |done]. intros j z b Hz Ha. cbn. rewrite lookup_alter_ne; [done|].
      intros <-. simplify_eq. unfold fin in Hfin. by rewrite Ha in Hfin.
  - destruct (Cancel_ok c y s) as (s1&Hs1&Hc1&Hk); [done|done|done|congruence|].
    pose proof (alive_state s c y Hc Hy Hfin) as Hst.
    destruct (keeps_lookup _ _ _ _ Hk Hy) as (y1&Hy1&Ha). pose proof (a_vis _ _ Ha) as Hv. unfold vis in Hv.
    injection Hv as Hv1 Hv2 Hv3 Hv4. pose proof (keeps_user _ _ _ _ _ Hk Hx Hr) as Hx1.
    pose proof (running_deleted s1 f x r Hc1 Hx1 Hr) as Hdx.
    set (s2 := upd f (set_guard true) s1).
    assert (fibers s2 !! c = Some y1) as Hy2 by (cbn; by rewrite lookup_alter_ne).
    set (s3 := upd c (set_waiter (Some f)) s2).
    assert (fibers s3 !! f = Some (set_guard true x)) as Hx3.
    { cbn. rewrite lookup_alter_ne by done. by rewrite lookup_alter_eq, Hx1. }
    exists (set_this None (upd f (set_at (Parked (Joining c (cancel_guarded_ x)))) s3)). split.
    + assert (∀ A (a : A) b, match state_ y with Dead => a | _ => b end = b) as -> by (intros; by destruct (state_ y)).
      rewrite Hs1. cbn [bindO]. rewrite Hx1, Hdx. cbn [bindO]. unfold Join, deref. fold s2. rewrite Hy2, Hv1, Hdel.
      cbn [bindO]. rewrite Hv2, Hw. unfold Park, check, deref. fold s3. rewrite Hx3. cbn [deleted set_guard].
      rewrite Hdx. done.
    + split.
      * apply (Join_core c y1 f x r (cancel_guarded_ x) s1); try done; congruence.
      * apply (keeps_awake _ _ Hk) in Hn. apply (awake_alike s1); [done..| |done]. intros j z b Hz Haz. cbn.
        destruct (decide (j = f)) as [->|Hjf]; [congruence|]. rewrite lookup_alter_ne by done.
        destruct (decide (j = c)) as [->|Hjc].
        -- rewrite lookup_alter_eq, lookup_alter_ne, Hz by done. eexists. split; [done|]. done.
        -- rewrite !lookup_alter_ne by done. eauto.
Qed.

(** *** Groups *)

(** The running fiber changes its record and a group it is registered in, or was. *)
Lemma group_reg_move f x x' s s' :
  core s → fibers s !! f = Some x → fibers s' = <[f := x']> (fibers s) →
  vis x' = vis x → state_ x' = state_ x → guard_locked_ x' = guard_locked_ x →
  (∀ g, option_Forall2 (group_move f) (groups s !! g) (groups s' !! g) ∨
    (∃ G, groups s !! g = Some G ∧ fibers_ G = [] ∧ self f (joiner_ G) ∧ self f (group_waiter_ G) ∧
       groups s' !! g = None)) →
  (timers_ s' = timers_ s ∧ timer_of s' = timer_of s ∧ now_ s' = now_ s ∧
   main_fiber_ s' = main_fiber_ s ∧ locked_ s' = locked_ s) →
  (NoDup (run_queue_ s') ∧ ∀ j, j ≠ f → j ∈ run_queue_ s' ↔ j ∈ run_queue_ s) →
  lockers_ s' = lockers_ s → cond_waiters_ s' = cond_waiters_ s →
  hole_move f x x' s s'.
Proof.
  intros Hc Hx Hf Hv Hst Hg Hgr (Ht&Ho&Hn&Hm&Hl) Hq Hlk Hcd. pose proof (c_timers s Hc) as [? ? ?].
  split; try done.
  - by rewrite Hf, lookup_insert_eq.
  - split; [done|]. rewrite Hst. apply (f_dead _ _ _ (c_fiber s Hc f x Hx)).
  - rewrite Hlk. split; [apply Hc|done].
  - rewrite Hcd. split; [apply Hc|done].
  - intros j Hj. rewrite Hf, lookup_insert_ne by done. destruct (fibers s !! j); constructor. apply fiber_move_refl.
  - by left.
  - rewrite Ht, Ho, Hn. done.
  - intros tm. rewrite Ht, Ho. by left.
Qed.

Lemma alter_group s g G h :
  groups s !! g = Some G → groups (upd_group g h s) = <[g := h G]> (groups s).
Proof.
  intros HG. cbn. apply map_eq. intros j. destruct (decide (j = g)) as [->|].
  - by rewrite lookup_alter_eq, HG, lookup_insert_eq.
  - by rewrite lookup_alter_ne, lookup_insert_ne.
Qed.

Lemma insert_group_move f s s' g G G' :
  groups s !! g = Some G → groups s' = <[g := G']> (groups s) → group_move f G G' →
  ∀ j, option_Forall2 (group_move f) (groups s !! j) (groups s' !! j).
Proof.
  intros HG Hs Hm j. rewrite Hs. destruct (decide (j = g)) as [->|Hne].
  - rewrite lookup_insert_eq, HG. by constructor.
  - rewrite lookup_insert_ne by done. destruct (groups s !! j); constructor. apply group_move_refl.
Qed.

(** The running fiber parks at a place that a group refers to. *)
Lemma group_park_core f x x' r k g G G' s s' :
  core s → fibers s !! f = Some x → at_ x = User r →
  groups s !! g = Some G → groups s' = <[g := G']> (groups s) → group_move f G G' →
  s' = set_this None (set_groups (groups s') (set_fibers (<[f := x']> (fibers s)) s)) →
  at_ x' = Parked k → vis x' = vis x → state_ x' = state_ x → guard_locked_ x' = guard_locked_ x →
  (joiner_ G' = Some f → ∃ sv, k = GroupJoining g sv) →
  (group_waiter_ G' = Some f → is_wait G' = true ∧ k = GroupWaiting g) →
  may_hold (Parked k) = true → kont_ok s' f x' k → ¬ woken s' x' k → core s'.
Proof.
  intros Hc Hx Hr HG Hgr Hmv Hs Ha Hv Hst Hg Hj Hw Hh Hk Hnw.
  destruct (core_running s f x r Hc Hx Hr) as (Ht&Ht'&Hfx&Hnq&Hnl&Hnc&_).
  assert (fibers s' = <[f := x']> (fibers s)) as Hf by (rewrite Hs; done).
  apply (move_core f x x' s); [done|done|done| | | | |].
  - apply group_reg_move; try done; try (by rewrite Hs).
    + intros j. left. by eapply insert_group_move.
    + rewrite Hs. split; [apply Hc|done].
  - apply (refs_user f x r s); [done|done|done|rewrite Hf|rewrite Hgr|rewrite Hgr|rewrite Hs; by eauto..].
    + intros c' z Hz Hwz. left. destruct (decide (c' = f)) as [->|Hcf].
      * rewrite lookup_insert_eq in Hz. simplify_eq. exists x. split; [done|]. unfold vis in Hv. congruence.
      * rewrite lookup_insert_ne in Hz by done. eauto.
    + intros g' G0 HG0 Hj0. destruct (decide (g' = g)) as [->|Hne].
      * rewrite lookup_insert_eq in HG0. simplify_eq. right. rewrite Ha. destruct (Hj Hj0) as [sv ->]. eauto.
      * rewrite lookup_insert_ne in HG0 by done. eauto.
    + intros g' G0 HG0 Hj0. destruct (decide (g' = g)) as [->|Hne].
      * rewrite lookup_insert_eq in HG0. simplify_eq. right. rewrite Ha. destruct (Hw Hj0) as [? ->]. eauto.
      * rewrite lookup_insert_ne in HG0 by done. eauto.
  - intros j. rewrite Hs, Ha. cbn. split; [done|]. by intros [_ [? [=]]].
  - by rewrite Ha.
  - unfold place_ok. rewrite Ha. split; [done|]. split; [|done]. rewrite Hs. by intros ?%Hnq.
Qed.

Lemma Wait_ok g f s x r :
  inv s → fibers s !! f = Some x → at_ x = User r → allowed (WaitGroup_Wait g) f x s →
  good_call (exec (WaitGroup_Wait g) f s).
Proof.
  intros [Hc Hn] Hx Hr (G&HG&Hiw&Hgw). destruct (core_running s f x r Hc Hx Hr) as (Ht&Ht'&Hfx&Hnq&Hnl&Hnc&_).
  pose proof (running_deleted s f x r Hc Hx Hr) as Hdel.
  assert (∀ r', good_call (Ok (return_ f r' s))) as Hret.
  { intros r'. eexists. split; [done|]. destruct (return_core f r' s x r Hc Hx Hr) as (?&?&_). split; auto. }
  cbn [exec]. unfold Wait, deref_group. rewrite HG. cbn [bindO]. destruct (first_error_ G) as [e|] eqn:Hfe; [apply Hret|].
  destruct (fibers_ G) as [|c l] eqn:Hfs; [apply Hret|]. rewrite Hgw.
  set (h := λ G : Group, mkGroup (fibers_ G) (joiner_ G) (is_wait G) (first_error_ G) (Some f)).
  set (s1 := upd_group g h s). assert (groups s1 = <[g := h G]> (groups s)) as Hg1 by (by apply alter_group).
  unfold Park. rewrite (check_ok f _ s1 x) by done. cbn [bindO]. destruct (thrown_by x _) as [e|] eqn:Hth.
  - cbn [cleanup leave]. set (h' := λ G : Group, mkGroup (fibers_ G) (joiner_ G) (is_wait G) (first_error_ G) None).
    set (s2 := upd f (λ _, checked x) s1).
    assert (groups (upd_group g h' s2) = groups s) as Hg2.
    { rewrite (alter_group s2 g (h G)); [|change (groups s2) with (groups s1); by rewrite Hg1, lookup_insert_eq].
      change (groups s2) with (groups s1). rewrite Hg1, insert_insert_eq. unfold h', h. cbn. rewrite <- Hgw.
      apply insert_id. rewrite HG. by destruct G. }
    assert (upd_group g h' s2 = upd f (λ _, checked x) s) as Heq.
    { transitivity (set_groups (groups (upd_group g h' s2)) (upd f (λ _, checked x) s)); [done|].
      rewrite Hg2. by destruct s. }
    rewrite Heq. unfold deref_group. cbn [groups upd set_fibers]. rewrite HG. cbn [bindO].
    destruct (throw_core f e x r s Hc Hx Hr) as [? ?]. eexists. split; [done|]. split; auto.
  - assert (¬ interrupted x) as Hni by (rewrite <- thrown_interrupted, Hth; by intros [? ?]).
    eexists. split; [done|]. split.
    + eapply (group_park_core f x (set_at (Parked (GroupWaiting g)) x) r (GroupWaiting g) g G (h G) s); try done.
      * split; try done; [by left|]. right. cbn. rewrite Hgw. split; [by left|by right].
      * unfold set_this, set_groups, upd, set_fibers. cbn. f_equal. by apply alter_insert.
      * unfold vis, fin. cbn. by rewrite Hr.
      * cbn. intros Hj. destruct (g_joiner _ _ _ (c_group s Hc g G HG) f Hj) as (y&sv&Hy&Ha). simplify_eq. congruence.
      * exists (h G). cbn. rewrite lookup_alter_eq, HG. done.
      * intros [(G'&HG'&Hor)|?]; [|by destruct Hni]. cbn in HG'. rewrite lookup_alter_eq, HG in HG'. cbn in HG'.
        simplify_eq. cbn in Hor. rewrite Hfs, Hfe in Hor. by destruct Hor as [?|[? ?]].
    + apply (awake_frame s); [done..| |done]. intros j z b Hz Ha. cbn.
      rewrite lookup_alter_ne; [done|]. intros <-. congruence.
Qed.

(** A group that nobody is registered in loses what [WaitGroup] added. *)
Lemma core_relabel g G s s' :
  core s → groups s !! g = Some G → joiner_ G = None → group_waiter_ G = None →
  s' = set_groups (<[g := mkGroup (fibers_ G) (joiner_ G) false None None]> (groups s)) s → core s'.
Proof.
  intros Hc HG Hj Hw Hs. set (G1 := mkGroup (fibers_ G) (joiner_ G) false None None) in *.
  assert (groups s' = <[g := G1]> (groups s) ∧ fibers s' = fibers s) as [Hgr Hf] by (rewrite Hs; done).
  assert (∀ k j y, kont_ok s j y k → sees k s s') as Hsees.
  { intros k j y Hk. destruct k as [| | |g' sv|g'| |]; cbn in *; rewrite ?Hgr, ?Hf; try done; try (by rewrite Hs);
      destruct (decide (g' = g)) as [->|Hne]; try (by rewrite lookup_insert_ne).
    - destruct Hk as (_&_&G'&?&?&_). congruence.
    - destruct Hk as (G'&?&?&_). congruence. }
  destruct Hc as [H1 H2 H3 H4 H5 H6 H7 H8 H9 H10 H11]. split; try (by rewrite Hs).
  - intros j y Hy. rewrite Hf in Hy. destruct (H4 j y Hy) as [? ? ? Hgg ? Hp]. split; try done; [by rewrite Hf| |].
    + intros g' Hg' Hfy. destruct (Hgg g' Hg' Hfy) as (G'&HG'&Hin). rewrite Hgr. destruct (decide (g' = g)) as [->|Hne].
      * exists G1. rewrite lookup_insert_eq. simplify_eq. done.
      * rewrite lookup_insert_ne by done. eauto.
    + eapply place_frame; [exact Hp|by rewrite Hs..|]. intros k Hk. unfold place_ok in Hp. rewrite Hk in Hp.
      eapply Hsees. apply Hp.
  - intros g' G' HG'. rewrite Hgr in HG'. destruct (decide (g' = g)) as [->|Hne].
    + rewrite lookup_insert_eq in HG'. simplify_eq. destruct (H9 g G HG) as [? ? ? ?].
      split; rewrite ?Hf; done.
    + rewrite lookup_insert_ne in HG' by done. destruct (H9 g' G' HG') as [? ? ? ?]. split; rewrite ?Hf; done.
  - destruct H10 as [? ? ?]. split; rewrite ?Hs; done.
Qed.

(** [Cancel] for all the fibers of a group. *)
Lemma cancel_all_fibers l f x r s :
  core s → fibers s !! f = Some x → at_ x = User r →
  (∀ j, j ∈ l → j ≠ f ∧ ∃ y, fibers s !! j = Some y ∧ fin y = false) →
  ∃ s', forO Cancel l s = Ok s' ∧ core s' ∧ keeps s s'.
Proof.
  revert s. induction l as [|c l IH]; intros s Hc Hx Hr Hl; cbn [forO]; [by exists s|].
  destruct (core_running s f x r Hc Hx Hr) as (Ht&_). destruct (Hl c) as (Hne&y&Hy&Hfy); [set_solver|].
  destruct (Cancel_ok c y s) as (s1&->&Hc1&Hk1); [done|done|done|congruence|]. cbn [bindO].
  destruct (IH s1 Hc1 (keeps_user _ _ _ _ _ Hk1 Hx Hr) Hr) as (s2&->&?&?).
  - intros j Hj. destruct (Hl j) as (?&z&Hz&?); [set_solver|]. split; [done|].
    destruct (keeps_lookup _ _ _ _ Hk1 Hz) as (z'&?&Ha). exists z'. split; [done|].
    pose proof (a_vis _ _ Ha) as Hv. unfold vis in Hv. congruence.
  - exists s2. split_and!; [done|done|by etrans].
Qed.

Lemma delete_group_core g G f x r s :
  core s → fibers s !! f = Some x → at_ x = User r → groups s !! g = Some G → fibers_ G = [] →
  joiner_ G = None → group_waiter_ G = None → core (set_groups (delete g (groups s)) s).
Proof.
  intros Hc Hx Hr HG Hfs Hj Hw. destruct (core_running s f x r Hc Hx Hr) as (Ht&Ht'&Hfx&Hnq&Hnl&Hnc&_).
  apply (move_core f x x s); [done|done|done| | | | |].
  - apply group_reg_move; try done; cbn.
    + by rewrite insert_id.
    + intros j. destruct (decide (j = g)) as [->|Hne].
      * right. exists G. rewrite Hj, Hw, lookup_delete_eq. split_and!; [done|done|by left|by left|done].
      * left. rewrite lookup_delete_ne by done. destruct (groups s !! j); constructor. apply group_move_refl.
    + split; [apply Hc|done].
  - apply (refs_user f x r s); [done|done|done|by eauto| | |by eauto..]; cbn; intros g' G' [_ ?]%lookup_delete_Some ?; eauto.
  - intros j. cbn. rewrite Ht, Hr. split; [intros [= <-]; eauto|by intros [-> _]].
  - by rewrite Hr.
  - unfold place_ok. by rewrite Hr.
Qed.

Lemma DestroyGroup_ok g f s x r :
  inv s → fibers s !! f = Some x → at_ x = User r → allowed (DestroyGroup g) f x s →
  good_call (exec (DestroyGroup g) f s).
Proof.
  intros [Hc Hn] Hx Hr (Hng&G&HG&Hj&Hw). cbn [exec]. unfold Group_destroy, deref_group. rewrite HG. cbn [bindO].
  destruct (fibers_ G) as [|c l] eqn:Hfs.
  { eexists. split; [done|]. split; [by apply (delete_group_core g G f x r)|done]. }
  rewrite <- Hfs. set (h := λ G : Group, mkGroup (fibers_ G) (joiner_ G) false None None).
  set (s1 := upd_group g h s). assert (groups s1 = <[g := h G]> (groups s)) as Hg1 by (by apply alter_group).
  assert (core s1) as Hc1.
  { apply (core_relabel g G s s1 Hc HG Hj Hw). unfold s1, upd_group. f_equal. exact Hg1. }
  destruct (cancel_all_fibers (fibers_ G) f x r s1 Hc1 Hx Hr) as (s2&->&Hc2&Hk).
  { intros j (y&Hy&Hgy&Hfy)%(g_fibers _ _ _ (c_group s Hc g G HG)). split; [|by exists y].
    intros ->. simplify_eq. }
  cbn [bindO]. pose proof (keeps_user _ _ _ _ _ Hk Hx Hr) as Hx2.
  destruct (core_running s2 f x r Hc2 Hx2 Hr) as (_&_&_&_&_&_&->). cbn [bindO].
  assert (groups s2 !! g = Some (h G)) as HG2 by (by rewrite (k_groups _ _ Hk), Hg1, lookup_insert_eq).
  set (h2 := λ G : Group, mkGroup (fibers_ G) (Some f) (is_wait G) (first_error_ G) (group_waiter_ G)).
  set (s3 := upd_group g h2 (upd f (set_guard true) s2)).
  assert (fibers s3 !! f = Some (set_guard true x)) as Hx3 by (by apply (upd_lookup f _ s2)).
  pose proof (running_deleted s2 f x r Hc2 Hx2 Hr) as Hdel.
  unfold Park. rewrite (check_spec f _ s3 (set_guard true x)) by done. cbn [bindO].
  change (thrown_by (set_guard true x) ?w) with (@None exn). eexists. split; [done|]. split.
  - eapply (group_park_core f x (set_at (Parked (GroupJoining g (cancel_guarded_ x))) (set_guard true x)) r
      (GroupJoining g (cancel_guarded_ x)) g (h G) (h2 (h G)) s2); try done.
    + cbn. apply (alter_group (upd f (set_guard true) s2) g (h G) h2 HG2).
    + split; try done; [|by left]. right. cbn. rewrite Hj. split; [by left|by right].
    + unfold set_this, set_groups, upd, set_fibers. cbn. f_equal.
      rewrite (alter_insert s3 f (set_guard true x)) by done. cbn.
      rewrite (alter_insert s2 f x) by done. by rewrite insert_insert_eq.
    + unfold vis, fin. cbn. by rewrite Hr.
    + eauto.
    + split_and!; [done|done|]. exists (h2 (h G)). cbn. rewrite lookup_alter_eq, HG2. done.
    + cbn. rewrite lookup_alter_eq, HG2. intros (G'&[= <-]&HG'). cbn in HG'. congruence.
  - assert (no_lost_wakeup s2) as Hn2 by (apply (keeps_awake _ _ Hk); done).
    apply (awake_frame s2); [done..| |done]. intros j z b Hz Ha. cbn.
    rewrite !lookup_alter_ne; [done|..]; intros <-; congruence.
Qed.

(** *** The end of a fiber *)

Definition finish_group (f : nat) (ex : option exn) (G : Group) : Group :=
  mkGroup (erase f (fibers_ G)) (joiner_ G) (is_wait G)
    (if is_wait G then match first_error_ G with None => ex | e => e end else first_error_ G) (group_waiter_ G).

(** The fibers that the end of [f] wakes. *)
Definition group_wakes (f : nat) (ex : option exn) (G : Group) (j : nat) : Prop :=
  erase f (fibers_ G) = [] ∧ joiner_ G = Some j ∨
  is_wait G = true ∧ group_waiter_ G = Some j ∧
    (erase f (fibers_ G) = [] ∨ first_error_ G = None ∧ is_Some ex).

Definition finish_wakes (f : nat) (x : FiberImpl) (ex : option exn) (s : sched) (j : nat) : Prop :=
  waiter_ x = Some j ∨ ∃ g G, group_ x = Some g ∧ groups s !! g = Some G ∧ group_wakes f ex G j.

Record finished (f : nat) (x x' : FiberImpl) (ex : option exn) (s s' : sched) : Prop := {
  e_fibers : fibers s' = <[f := x']> (fibers s);
  e_at : at_ x' = Finished ∧ state_ x' = Dead ∧ waiter_ x' = waiter_ x ∧ group_ x' = group_ x ∧
    guard_locked_ x' = guard_locked_ x ∧ (group_ x = None → deleted x' = false);
  e_this : this_fiber s' = None;
  e_queue : NoDup (run_queue_ s') ∧ ∀ j, j ∈ run_queue_ s' ↔ j ∈ run_queue_ s ∨ finish_wakes f x ex s j;
  e_groups : ∀ g, groups s' !! g =
    if decide (group_ x = Some g) then finish_group f ex <$> groups s !! g else groups s !! g;
  e_same : timers_ s' = timers_ s ∧ timer_of s' = timer_of s ∧ now_ s' = now_ s ∧
    main_fiber_ s' = main_fiber_ s ∧ locked_ s' = locked_ s ∧ lockers_ s' = lockers_ s ∧
    cond_waiters_ s' = cond_waiters_ s;
}.

(** The place of a fiber that waits for [f] or its group, or for something else. *)
Lemma finish_place f x x' ex s s' j y :
  core s → fibers s !! f = Some x → fin x = false → finished f x x' ex s s' → j ≠ f → fibers s !! j = Some y →
  place_ok s' j y.
Proof.
  intros Hc Hx Hfx Hf Hne Hy. destruct Hf as [Ef (Ea&_&Ew&Eg&_&Ed) _ [_ Eq] Egr (Et&Eo&En&_&_&El&Ec)].
  pose proof (c_fiber s Hc j y Hy) as Hfy. pose proof (f_place _ _ _ Hfy) as Hp.
  pose proof (c_fiber s Hc f x Hx) as Hfib.
  (* who is woken is parked at a place that says so *)
  assert (finish_wakes f x ex s j → ∃ k, at_ y = Parked k ∧
    match k with
    | Joining c _ => c = f
    | GroupJoining g _ => group_ x = Some g
    | GroupWaiting g => group_ x = Some g
    | _ => False
    end) as Hwk.
  { intros [Hw|(g&G&Hg&HG&[[_ Hj]|(_&Hw&_)])].
    - destruct (f_waiter _ _ _ Hfib j Hw) as (z&sv&Hz&Ha). simplify_eq. eexists. split; [exact Ha|done].
    - destruct (g_joiner _ _ _ (c_group s Hc g G HG) j Hj) as (z&sv&Hz&Ha). simplify_eq. eexists. split; [exact Ha|done].
    - destruct (g_waiter _ _ _ (c_group s Hc g G HG) j Hw) as (_&z&Hz&Ha). simplify_eq. eexists. split; [exact Ha|done]. }
  assert (∀ P : Prop, (finish_wakes f x ex s j → False) → (j ∈ run_queue_ s ↔ P) → (j ∈ run_queue_ s' ↔ P)) as Hsame.
  { intros P Hnw HP. rewrite Eq, HP. tauto. }
  unfold place_ok in *. destruct (at_ y) as [|r|k|] eqn:Ha.
  - rewrite Eq. by left.
  - rewrite Eq. intros [?|Hw]; [done|]. by destruct (Hwk Hw) as (k&?&_).
  - destruct Hp as [Hk Hw]. destruct k as [|tm d|c sv|g sv|g|b|]; cbn in Hk, Hw |- *.
    + split; [done|]. apply Hsame; [|done]. intros (k&[= <-]&[])%Hwk.
    + rewrite Et, Eo, En. split; [done|]. apply Hsame; [|done]. intros (k&[= <-]&[])%Hwk.
    + destruct Hk as (Hgd&z&Hz&Hd&Hwz&Hgz). rewrite Ef. destruct (decide (c = f)) as [->|Hcf].
      * simplify_eq. rewrite lookup_insert_eq. split.
        -- split; [done|]. exists x'. split_and!; [done|by apply Ed|congruence|congruence].
        -- split; [intros _; exists x'; split; [done|]; unfold fin; by rewrite Ea|]. intros _. rewrite Eq. right. by left.
      * rewrite lookup_insert_ne by done. split; [split; [done|by exists z]|]. apply Hsame; [|done].
        intros (k&[= <-]&Heq)%Hwk. done.
    + destruct Hk as (Hgd&Hng&G&HG&Hjn&Hiw). rewrite Egr. destruct (decide (group_ x = Some g)) as [Hgx|Hgx].
      * rewrite HG. cbn. split; [split_and!; [done|done|]; eexists; split; [done|]; done|].
        destruct (f_group _ _ _ Hfib g Hgx Hfx) as (G'&HG'&Hin). simplify_eq. rewrite Eq, Hw. split.
        -- intros [(G'&HG'&Hnil)|Hwake].
           ++ simplify_eq. rewrite Hnil in Hin. by apply elem_of_nil in Hin.
           ++ destruct Hwake as [Hwx|(g'&G'&Hg'&HG'&[[Hnil _]|(Hw'&_)])]; simplify_eq; [|eexists; split; [done|done]|congruence].
              destruct (f_waiter _ _ _ Hfib j Hwx) as (z&sv'&Hz&Haz). congruence.
        -- intros (G'&[= <-]&Hnil). right. right. exists g, G. split_and!; [done|done|]. by left.
      * split; [split_and!; [done|done|by exists G]|]. apply Hsame; [|done]. intros (k&[= <-]&?)%Hwk. done.
    + destruct Hk as (G&HG&Hgw&Hiw). rewrite Egr. destruct (decide (group_ x = Some g)) as [Hgx|Hgx].
      * rewrite HG. cbn. split; [eexists; split; [done|]; done|].
        destruct (f_group _ _ _ Hfib g Hgx Hfx) as (G'&HG'&Hin). simplify_eq. rewrite Eq, Hw. split.
        -- intros [[(G'&HG'&Hor)|?]|Hwake]; [|by right|].
           ++ simplify_eq. left. eexists. split; [done|]. destruct Hor as [Hnil|Her].
              ** rewrite Hnil in Hin. by apply elem_of_nil in Hin.
              ** right. cbn. rewrite Hiw. destruct Her as [e He]. rewrite He. eauto.
           ++ left. destruct Hwake as [Hwx|(g'&G'&Hg'&HG'&[[_ Hj]|(_&_&Hor)])]; simplify_eq.
              ** destruct (f_waiter _ _ _ Hfib j Hwx) as (z&sv'&Hz&Haz). congruence.
              ** destruct (g_joiner _ _ _ (c_group s Hc g G HG) j Hj) as (z&sv&Hz&Haz). congruence.
              ** eexists. split; [done|]. cbn. rewrite Hiw. destruct Hor as [?|[Hno He]]; [by left|right].
                 by rewrite Hno.
        -- intros [(G'&[= <-]&Hor)|Hi]; [|left; by right]. cbn in Hor. rewrite Hiw in Hor.
           destruct Hor as [Hnil|Her].
           ++ right. right. exists g, G. split_and!; [done|done|]. right. split_and!; [done|done|by left].
           ++ destruct (first_error_ G) as [e|] eqn:He.
              ** left. left. exists G. split; [done|]. right. rewrite He. eauto.
              ** right. right. exists g, G. split_and!; [done|done|]. right. split_and!; [done|done|by right].
      * split; [by exists G|]. apply Hsame; [|done]. intros (k&[= <-]&?)%Hwk. done.
    + rewrite El. split; [done|]. apply Hsame; [|done]. intros (k&[= <-]&[])%Hwk.
    + rewrite Ec. split; [done|]. apply Hsame; [|done]. intros (k&[= <-]&[])%Hwk.
  - rewrite Eq. intros [?|Hw]; [done|]. by destruct (Hwk Hw) as (k&?&_).
Qed.

Lemma finish_core f x x' r ex s s' :
  core s → fibers s !! f = Some x → at_ x = User r → guard_locked_ x = false →
  (∀ tm k, timer_of s !! tm ≠ Some (f, k)) → finished f x x' ex s s' → core s'.
Proof.
  intros Hc Hx Hr Hg Htm Hf. destruct (core_running s f x r Hc Hx Hr) as (Ht&Ht'&Hfx&Hnq&Hnl&Hnc&_).
  pose proof (c_fiber s Hc f x Hx) as Hfib.
  destruct Hf as [Ef (Ea&Es&Ew&Eg&Egl&Ed) Eth [End Eq] Egr (Et&Eo&En&Em&Elk&El&Ec)] eqn:Hfeq.
  assert (finished f x x' ex s s') as Hf' by exact Hf. clear Hfeq Hf.
  assert (∀ j, fibers s' !! j = if decide (j = f) then Some x' else fibers s !! j) as Hlook.
  { intros j. rewrite Ef. case_decide; subst; by rewrite ?lookup_insert_eq, ?lookup_insert_ne. }
  assert (∀ w y, fibers s !! w = Some y → (∀ r, at_ y ≠ User r) → fibers s' !! w = Some y) as Hkeep.
  { intros w y Hy Hny. rewrite Hlook, decide_False; [done|]. intros ->. simplify_eq. by destruct (Hny r). }
  assert (fin x' = true) as Hfx' by (unfold fin; by rewrite Ea).
  assert (∀ j, finish_wakes f x ex s j → j ≠ f ∧ is_Some (fibers s !! j)) as Hwake.
  { intros j [Hw|(g&G&Hgx&HG&[[_ Hj]|(_&Hw&_)])].
    - destruct (f_waiter _ _ _ Hfib j Hw) as (z&sv&Hz&Ha). split; [|by eexists]. intros ->. congruence.
    - destruct (g_joiner _ _ _ (c_group s Hc g G HG) j Hj) as (z&sv&Hz&Ha). split; [|by eexists]. intros ->. congruence.
    - destruct (g_waiter _ _ _ (c_group s Hc g G HG) j Hw) as (_&z&Hz&Ha). split; [|by eexists]. intros ->. congruence. }
  split.
  - done.
  - intros j Hj. rewrite Hlook. case_decide; [by eexists|]. apply Eq in Hj as [Hj|Hj]; [by apply Hc|by apply Hwake].
  - intros j. rewrite Eth. split; [done|]. intros (y&r'&Hy&Hyr). rewrite Hlook in Hy. case_decide; simplify_eq; [congruence|].
    assert (this_fiber s = Some j) as Hth by (apply (c_this s Hc); eauto). congruence.
  - intros j y. rewrite Hlook. case_decide as Hjf; subst.
    + intros [= <-]. split; [by rewrite Es, Hfx'|done| |by rewrite Hfx'|congruence|].
      * intros w Hw. rewrite Ew in Hw. destruct (f_waiter _ _ _ Hfib w Hw) as (z&sv&Hz&Ha). exists z, sv.
        split; [|done]. apply Hkeep; [done|congruence].
      * unfold place_ok. rewrite Ea, Eq. intros [?|Hw]; [done|]. by destruct (Hwake f Hw).
    + intros Hy. pose proof (c_fiber s Hc j y Hy) as [? ? Hw Hgg ? ?]. split; [done|done| | |done|].
      * intros w Hwy. destruct (Hw w Hwy) as (z&sv&Hz&Ha). exists z, sv. split; [|done]. apply Hkeep; [done|congruence].
      * intros g Hyg Hyf. destruct (Hgg g Hyg Hyf) as (G&HG&Hin). rewrite Egr. case_decide; [|eauto].
        rewrite HG. cbn. eexists. split; [done|]. cbn. by apply erase_in.
      * by apply (finish_place f x x' ex s s').
  - rewrite El. split; [apply Hc|]. intros j Hj. destruct (proj2 (c_lockers s Hc) j Hj) as (y&b&Hy&Ha). exists y, b.
    split; [|done]. apply Hkeep; [done|congruence].
  - rewrite Ec. split; [apply Hc|]. intros j Hj. destruct (proj2 (c_conds s Hc) j Hj) as (y&Hy&Ha). exists y.
    split; [|done]. apply Hkeep; [done|congruence].
  - intros j j' y y'. rewrite !Hlook. repeat case_decide; subst; intros; simplify_eq; [done|congruence|congruence|].
    by eapply (c_unique s Hc).
  - rewrite Elk, (c_locked s Hc). setoid_rewrite Hlook. split; intros (j&y&Hy&Hgy).
    + exists j, y. rewrite decide_False; [done|]. intros ->. congruence.
    + case_decide; [simplify_eq; congruence|eauto].
  - intros g G' HG'. rewrite Egr in HG'.
    assert (∃ G, groups s !! g = Some G ∧ fibers_ G' = (if decide (group_ x = Some g) then erase f (fibers_ G) else fibers_ G) ∧
      joiner_ G' = joiner_ G ∧ group_waiter_ G' = group_waiter_ G ∧ is_wait G' = is_wait G) as (G&HG&Efs&Ej&Ewt&Eiw).
    { case_decide; [|by eexists]. apply fmap_Some in HG' as (G&?&->). by eexists. }
    destruct (c_group s Hc g G HG) as [Hnd Hfs Hj Hw]. split.
    + rewrite Efs. case_decide; [by apply erase_nodup|done].
    + intros j Hj'. rewrite Efs in Hj'. assert (j ∈ fibers_ G ∧ j ≠ f) as [Hin Hjf].
      { case_decide as Hgx; [apply erase_in in Hj'; tauto|]. split; [done|]. intros ->.
        destruct (Hfs f Hj') as (z&?&?&_). congruence. }
      destruct (Hfs j Hin) as (z&?&?&?). exists z. rewrite Hlook, decide_False by done. done.
    + intros w. rewrite Ej. intros Hwj. destruct (Hj w Hwj) as (z&sv&Hz&Ha). exists z, sv. split; [|done].
      apply Hkeep; [done|congruence].
    + intros w. rewrite Ewt, Eiw. intros Hww. destruct (Hw w Hww) as (?&z&Hz&Ha). split; [done|]. exists z. split; [|done].
      apply Hkeep; [done|congruence].
  - destruct (c_timers s Hc) as [? ? Ho]. split; rewrite ?Et, ?Eo; [done|done|]. intros tm j k Hj.
    destruct (Ho tm j k Hj) as (y&?&?&?). exists y. rewrite Hlook, decide_False; [done|]. intros ->. by destruct (Htm tm k).
  - rewrite Em, Hlook. case_decide; [by eexists|apply (c_main s Hc)].
Qed.

Definition can_wake (s : sched) (j : nat) : Prop :=
  ∃ y, fibers s !! j = Some y ∧ deleted y = false ∧ state_ y ≠ Dead.

(** The fibers of [P] are put into the queue, and groups may change. *)
Record wakes (P : nat → Prop) (s s' : sched) : Prop := {
  w_same : s' = set_queue (run_queue_ s') (set_groups (groups s') s);
  w_nodup : NoDup (run_queue_ s) → NoDup (run_queue_ s');
  w_queue : ∀ j, j ∈ run_queue_ s' ↔ j ∈ run_queue_ s ∨ P j;
}.

Lemma wakes_trans P Q R s s1 s2 :
  wakes P s s1 → wakes Q s1 s2 → (∀ j, R j ↔ P j ∨ Q j) → wakes R s s2.
Proof.
  intros [H1 N1 Q1] [H2 N2 Q2] HR. split; [by rewrite H2, H1|auto|].
  intros j. rewrite Q2, Q1, HR. tauto.
Qed.

Lemma wakes_none s g h : wakes (λ _, False) s (upd_group g h s).
Proof. split; [by destruct s|done|]. intros j. cbn. tauto. Qed.

Lemma wakes_refl (P : nat → Prop) s : (∀ j, ¬ P j) → wakes P s s.
Proof. intros HP. split; [by destruct s|done|]. intros j. split; [by left|]. intros [?|?%HP]; done. Qed.

Lemma wakes_can P s s' j : wakes P s s' → can_wake s j → can_wake s' j.
Proof. intros [-> _ _]. done. Qed.

Lemma Unpark_opt_ok o s :
  (∀ j, o = Some j → can_wake s j) →
  ∃ s', Unpark_opt o s = Ok s' ∧ wakes (λ j, o = Some j) s s' ∧ groups s' = groups s.
Proof.
  intros Ho. destruct o as [j|]; cbn [Unpark_opt]; [|exists s; split_and!; [done|by apply wakes_refl|done]].
  destruct (Ho j eq_refl) as (y&Hy&Hd&Hst). exists (push j s). split_and!.
  - unfold Unpark, deref. rewrite Hy, Hd. cbn [bindO]. by destruct (state_ y).
  - split; [unfold push; case_decide; by destruct s|apply push_nodup|]. intros i.
    destruct (decide (i = j)) as [->|Hne].
    + split; [by right|intros _; apply push_in].
    + rewrite push_other by done. split; [by left|]. intros [?|[= ?]]; congruence.
  - apply push_fields.
Qed.

Lemma Group_OnFinished_ok g f G s :
  groups s !! g = Some G → (∀ j, joiner_ G = Some j → can_wake s j) →
  ∃ s', Group_OnFinished g f s = Ok s' ∧ wakes (λ j, erase f (fibers_ G) = [] ∧ joiner_ G = Some j) s s' ∧
    groups s' = <[g := mkGroup (erase f (fibers_ G)) (joiner_ G) (is_wait G) (first_error_ G) (group_waiter_ G)]> (groups s).
Proof.
  intros HG Hj. unfold Group_OnFinished, deref_group. rewrite HG. cbn [bindO].
  set (h := λ G0 : Group, mkGroup (erase f (fibers_ G)) (joiner_ G0) (is_wait G0) (first_error_ G0) (group_waiter_ G0)).
  pose proof (alter_group s g G h HG) as Hg. pose proof (wakes_none s g h) as Hw.
  destruct (erase f (fibers_ G)) as [|c l] eqn:He.
  - destruct (Unpark_opt_ok (joiner_ G) (upd_group g h s)) as (s'&Hs'&Hw'&Hg').
    { intros j ?%Hj. by eapply wakes_can. }
    exists s'. split_and!; [done| |by rewrite Hg'].
    eapply wakes_trans; [exact Hw|exact Hw'|]. intros j. cbn. tauto.
  - exists (upd_group g h s). split_and!; [done| |done]. destruct Hw as [Hw1 Hw2 Hw3]. split; [done|done|].
    intros j. rewrite Hw3. split; [tauto|]. by intros [?|[? _]]; [left|].
Qed.

Lemma OnFinished_ok g f ex G s :
  groups s !! g = Some G → (∀ j, joiner_ G = Some j ∨ group_waiter_ G = Some j → can_wake s j) →
  ∃ s', OnFinished g f ex s = Ok s' ∧ wakes (group_wakes f ex G) s s' ∧
    groups s' = <[g := finish_group f ex G]> (groups s).
Proof.
  intros HG Hj. unfold OnFinished, deref_group. rewrite HG. cbn [bindO].
  destruct (is_wait G) eqn:Hiw.
  - unfold WaitGroup_OnFinished, deref_group. rewrite HG. cbn [bindO].
    set (G1 := mkGroup (fibers_ G) (joiner_ G) (is_wait G) (match first_error_ G with None => ex | e => e end) (group_waiter_ G)).
    assert (∃ s1, match first_error_ G, ex with
        | None, Some e =>
            Unpark_opt (group_waiter_ G)
              (upd_group g (λ G, mkGroup (fibers_ G) (joiner_ G) (is_wait G) (Some e) (group_waiter_ G)) s)
        | _, _ => Ok s
        end = Ok s1 ∧ wakes (λ j, first_error_ G = None ∧ is_Some ex ∧ group_waiter_ G = Some j) s s1 ∧
        groups s1 = <[g := G1]> (groups s)) as (s1&->&Hw1&Hg1).
    { destruct (first_error_ G) as [e|] eqn:He.
      - exists s. split_and!; [done|apply wakes_refl; by intros j [? _]|]. symmetry. apply insert_id.
        rewrite HG. f_equal. unfold G1. rewrite <- He. by destruct G.
      - destruct ex as [e|].
        + set (h := λ G : Group, mkGroup (fibers_ G) (joiner_ G) (is_wait G) (Some e) (group_waiter_ G)).
          destruct (Unpark_opt_ok (group_waiter_ G) (upd_group g h s)) as (s1&Hs1&Hw&Hg).
          { intros j Hgw. eapply wakes_can; [apply wakes_none|]. apply Hj. by right. }
          exists s1. split_and!; [done| |by rewrite Hg, (alter_group s g G h HG)].
          eapply wakes_trans; [apply wakes_none|exact Hw|]. intros j. cbn. split; [tauto|]. intros [[]|?]. by eauto.
        + exists s. split_and!; [done|apply wakes_refl; by intros j (_&[? ?]&_)|]. symmetry. apply insert_id.
          rewrite HG. f_equal. unfold G1. rewrite <- He. by destruct G. }
    cbn [bindO]. destruct (Group_OnFinished_ok g f G1 s1) as (s2&->&Hw2&Hg2).
    { by rewrite Hg1, lookup_insert_eq. }
    { intros j Hjn. eapply wakes_can; [exact Hw1|]. apply Hj. by left. }
    cbn [bindO fibers_ joiner_ is_wait first_error_ group_waiter_ G1] in *.
    assert (wakes (λ j, first_error_ G = None ∧ is_Some ex ∧ group_waiter_ G = Some j ∨
      erase f (fibers_ G) = [] ∧ joiner_ G = Some j) s s2) as Hw by (eapply wakes_trans; [exact Hw1|exact Hw2|done]).
    assert (groups s2 = <[g := finish_group f ex G]> (groups s)) as Hg.
    { rewrite Hg2, Hg1, insert_insert_eq. unfold finish_group. by rewrite Hiw. }
    destruct (erase f (fibers_ G)) as [|c l] eqn:He.
    + destruct (Unpark_opt_ok (group_waiter_ G) s2) as (s3&->&Hw3&Hg3).
      { intros j Hgw. eapply wakes_can; [exact Hw|]. apply Hj. by right. }
      exists s3. split_and!; [done| |by rewrite Hg3].
      eapply wakes_trans; [exact Hw|exact Hw3|]. intros j. unfold group_wakes. rewrite He, Hiw. tauto.
    + exists s2. split_and!; [done| |done]. eapply wakes_trans; [exact Hw|apply (wakes_refl (λ _, False)); by intros ? []|].
      intros j. unfold group_wakes. rewrite He, Hiw. split; [|naive_solver]. intros [[? _]|(_&?&[?|[? ?]])]; [done|done|]. tauto.
  - destruct (Group_OnFinished_ok g f G s HG) as (s1&Hs1&Hw1&Hg1); [by auto|].
    exists s1. split_and!; [done| |].
    + eapply wakes_trans; [exact Hw1|apply (wakes_refl (λ _, False)); by intros ? []|].
      intros j. unfold group_wakes. rewrite Hiw. split; [|tauto]. intros [?|[? _]]; [by left|done].
    + rewrite Hg1. unfold finish_group. by rewrite Hiw.
Qed.

Lemma parked_can_wake s j y k f g :
  core s → fibers s !! j = Some y → at_ y = Parked k → j ≠ f → can_wake (upd f g s) j.
Proof.
  intros Hc Hy Ha Hne. assert (fin y = false) as Hf by (unfold fin; by rewrite Ha). exists y. split_and!.
  - cbn. by rewrite lookup_alter_ne.
  - pose proof (deref_ok s j y Hc Hy Hf) as Hd. unfold deref in Hd. rewrite Hy in Hd. by destruct (deleted y).
  - by apply (alive_state s j y).
Qed.

Lemma Finish_ok res f s x r :
  inv s → fibers s !! f = Some x → at_ x = User r → allowed (Finish res) f x s → good_call (exec (Finish res) f s).
Proof.
  intros [Hc Hn] Hx Hr (Hg&Htm&Hth). destruct (core_running s f x r Hc Hx Hr) as (Ht&Ht'&Hfx&Hnq&Hnl&Hnc&Hd).
  pose proof (c_fiber s Hc f x Hx) as Hfib. cbn [exec]. unfold Run_end. rewrite Hd. cbn [bindO].
  assert (match res with
    | Threw e => negb (is_std_exception e) || bool_decide (is_Some (group_ x)) || bool_decide (f = main_fiber_ s)
    | Returned => true end = true) as ->.
  { destruct res as [|e]; [done|]. destruct (is_std_exception e); [|done]. cbn [negb orb].
    destruct (group_ x) as [g|]; [done|]. cbn. apply bool_decide_eq_true. by apply Hth. }
  set (ex := match res, group_ x with
              | Threw e, Some _ => if is_std_exception e then Some e else None
              | _, _ => None
              end).
  set (h := λ x, set_state Dead (set_at Finished (set_error ex x))). set (s1 := upd f h s).
  assert (fibers s1 = <[f := h x]> (fibers s)) as Hf1 by (by apply upd_fibers).
  destruct (Unpark_opt_ok (waiter_ x) s1) as (s2&->&Hw2&Hg2).
  { intros j Hj. destruct (f_waiter _ _ _ Hfib j Hj) as (y&sv&Hy&Ha). eapply parked_can_wake; [done..|].
    intros ->. congruence. }
  cbn [bindO]. unfold Cleanup. pose proof (w_same _ _ _ Hw2) as Hs2.
  assert (∀ s', locked_ s' = locked_ s → lockers_ s' = lockers_ s → (∃ x', fibers s' = <[f := x']> (fibers s)) →
    no_lost_wakeup s') as Hawake.
  { intros s' Hl Hk [x' Hf]. apply (awake_frame s); [by rewrite Hl|by rewrite Hk| |done].
    intros j z b Hz Ha. rewrite Hf, lookup_insert_ne; [done|]. intros <-. congruence. }
  destruct (group_ x) as [g|] eqn:Hgx.
  - destruct (f_group _ _ _ Hfib g Hgx Hfx) as (G&HG&Hin). set (s3 := set_this None s2).
    assert (groups s3 !! g = Some G) as HG3 by (change (groups s3) with (groups s2); by rewrite Hg2).
    destruct (OnFinished_ok g f ex G s3 HG3) as (s4&->&Hw4&Hg4).
    { intros j Hj. apply (wakes_can _ _ _ j Hw2).
      assert (∃ y k, fibers s !! j = Some y ∧ at_ y = Parked k) as (y&k&Hy&Ha).
      { destruct Hj as [Hj|Hj].
        - destruct (g_joiner _ _ _ (c_group s Hc g G HG) j Hj) as (y&sv&?&?). eauto.
        - destruct (g_waiter _ _ _ (c_group s Hc g G HG) j Hj) as (_&y&?&?). eauto. }
      eapply parked_can_wake; [done..|]. intros ->. congruence. }
    cbn [bindO]. pose proof (w_same _ _ _ Hw4) as Hs4. set (s5 := upd f (set_deleted true) s4).
    assert (fibers s5 = <[f := set_deleted true (h x)]> (fibers s)) as Hf5.
    { cbn. rewrite Hs4. cbn. rewrite Hs2. cbn [fibers set_queue set_groups].
      rewrite (alter_insert s1 f (h x)) by by rewrite Hf1, lookup_insert_eq. rewrite Hf1. by rewrite insert_insert_eq. }
    assert (finished f x (set_deleted true (h x)) ex s s5) as Hfin.
    { split; [done|by rewrite Hgx| | | |].
      - cbn. by rewrite Hs4.
      - change (run_queue_ s5) with (run_queue_ s4). split.
        + apply (w_nodup _ _ _ Hw4), (w_nodup _ _ _ Hw2), Hc.
        + intros j. rewrite (w_queue _ _ _ Hw4). change (run_queue_ s3) with (run_queue_ s2).
          rewrite (w_queue _ _ _ Hw2). change (run_queue_ s1) with (run_queue_ s). unfold finish_wakes. rewrite Hgx.
          split; [|intros [?|[?|(g'&G'&[= <-]&HG'&?)]]; [tauto|tauto|]; simplify_eq; by right].
          intros [[?|?]|?]; [by left|right; by left|right; right; eauto].
      - intros g'. change (groups s5) with (groups s4). rewrite Hg4. change (groups s3) with (groups s2). rewrite Hg2, Hgx.
        change (groups s1) with (groups s). destruct (decide (g' = g)) as [->|Hne].
        + rewrite lookup_insert_eq, decide_True, HG by done. done.
        + rewrite lookup_insert_ne, decide_False by (congruence || done). done.
      - cbn. rewrite Hs4. cbn. rewrite Hs2. done. }
    exists s5. split; [done|]. split; [by eapply (finish_core f x _ r ex s)|].
    destruct (e_same _ _ _ _ _ _ Hfin) as (_&_&_&_&?&?&_). apply Hawake; eauto.
  - set (s3 := set_this None s2). assert (fibers s3 = <[f := h x]> (fibers s)) as Hf3.
    { cbn. rewrite Hs2. done. }
    assert (finished f x (h x) ex s s3) as Hfin.
    { split; [done| |done| | |].
      - cbn. pose proof (running_deleted s f x r Hc Hx Hr). done.
      - change (run_queue_ s3) with (run_queue_ s2). split; [apply (w_nodup _ _ _ Hw2), Hc|].
        intros j. rewrite (w_queue _ _ _ Hw2). change (run_queue_ s1) with (run_queue_ s). unfold finish_wakes. rewrite Hgx.
        split; [intros [?|?]; [by left|right; by left]|]. intros [?|[?|(?&?&?&_)]]; [by left|by right|done].
      - intros g'. cbn. rewrite Hg2, decide_False by congruence. done.
      - cbn. rewrite Hs2. done. }
    exists s3. split; [done|]. split; [by eapply (finish_core f x _ r ex s)|].
    destruct (e_same _ _ _ _ _ _ Hfin) as (_&_&_&_&?&?&_). apply Hawake; eauto.
Qed.

(** Every call of a running fiber that follows the rules returns, and leaves the state
    in order. *)
Lemma exec_ok c f s x r :
  inv s → fibers s !! f = Some x → at_ x = User r → allowed c f x s → good_call (exec c f s).
Proof.
  intros Hi Hx Hr Ha. pose proof Hi as [Hc _]. destruct c as [|tm d|c|c|g w|g c|g|g| | | | | |tm d|tm|b|b|d|res].
  - by eapply Yield_ok.
  - by eapply Sleep_ok.
  - by eapply (New_ok c 0).
  - by eapply DestroyFiber_ok.
  - by eapply NewGroup_ok.
  - by eapply New_ok.
  - by eapply DestroyGroup_ok.
  - by eapply Wait_ok.
  - destruct (Lock_loop_ok false f s x r Hc Hx Hr Ha) as (s'&?&?&?). exists s'. split; [done|].
    split; [done|by apply awake_locked].
  - destruct (Unlock_ok f s x r Hi Hx Hr Ha) as (s'&x'&?&?&_). by exists s'.
  - by eapply CondVar_wait_ok.
  - by apply Notify_ok.
  - by apply Notify_ok.
  - by eapply (Timeout_ok tm d).
  - by eapply (Timeout_ok tm 0).
  - by eapply CancelGuard_ok.
  - eapply time_ok; eauto.
  - eapply time_ok; eauto.
  - by eapply Finish_ok.
Qed.
