(* ===== verification/FiberLoop.v ===== *)
(** * The loop of the scheduler, and the properties of fibers

    Expired timers, the fiber that goes on from where it was parked, a round of the
    loop; the order of the run queue; then the properties of every reachable state. *)

From S2P Require Import Prelude TimerHeap Fibers FiberInv FiberCalls.

#[local] Set Warnings "-clear-no-such-hyp".

(** *** Timers that expire *)

Lemma heap_size h : TimerHeap.wf h → size (TimerHeap.abs h) = length (TimerHeap.heap_ h).
Proof.
  intros [Hl _]. unfold TimerHeap.abs. rewrite map_size_list_to_map, length_fmap; [done|].
  rewrite <- list_fmap_compose. by apply (TimerHeap.linked_NoDup h).
Qed.

(** A timer is taken out of the heap; if it is the [SleepTimer] of a fiber, that is woken. *)
Lemma expire_core s s' tm d j k :
  core s → timer_of s !! tm = Some (j, k) → active s !! tm = Some d → (d < now_ s)%Z →
  TimerHeap.wf (timers_ s') → active s' = delete tm (active s) →
  s' = set_queue (run_queue_ s') (set_timers (timers_ s') (timer_of s) s) →
  NoDup (run_queue_ s') → (∀ i, i ∈ run_queue_ s' ↔ i ∈ run_queue_ s ∨ i = j ∧ k = SleepTimer) → core s'.
Proof.
  intros Hc Htm Hact Hd Hwf Habs Hs Hnd Hq. destruct (t_owner _ (c_timers s Hc) tm j k Htm) as (xj&Hxj&Hfj&Hkj).
  assert (fibers s' = fibers s ∧ groups s' = groups s ∧ timer_of s' = timer_of s ∧ now_ s' = now_ s ∧
    main_fiber_ s' = main_fiber_ s ∧ locked_ s' = locked_ s ∧ lockers_ s' = lockers_ s ∧
    cond_waiters_ s' = cond_waiters_ s ∧ this_fiber s' = this_fiber s)
    as (Ef&Eg&Eo&En&Em&Elk&El&Ec&Eth) by (rewrite Hs; done).
  destruct Hc as [H1 H2 H3 H4 H5 H6 H7 H8 H9 H10 H11].
  split; rewrite ?Ef, ?Eg, ?Em, ?Elk, ?El, ?Ec, ?Eth; try done.
  - intros i [Hi|[-> _]]%Hq; [by apply H2|by exists xj].
  - intros i y Hy. destruct (H4 i y Hy) as [? ? ? ? ? Hp]. split; rewrite ?Ef, ?Eg; try done.
    assert ((i = j ∧ k = SleepTimer → ∃ d, at_ y = Parked (InSleep tm d))) as Hj.
    { intros [-> Hk]. rewrite Hxj in Hy. injection Hy as <-. by apply Hkj. }
    unfold place_ok in *. destruct (at_ y) as [|r|kk|] eqn:Ha; [rewrite Hq; by left| | |].
    1,3: rewrite Hq; intros [?|[d' ?]%Hj]; done.
    assert ((∃ d', kk = InSleep tm d') ∨ ¬ ∃ d', kk = InSleep tm d') as [[d' ->]|Hne].
    { destruct kk as [|tm' d'| | | | |]; try (right; by intros [? [=]]).
      destruct (decide (tm' = tm)) as [->|Hne]; [left; eauto|right; by intros [? [=]]]. }
    + destruct Hp as [[Hown Hdl] _]. rewrite Htm in Hown. injection Hown as -> ->. split; cbn.
      * rewrite Eo, En, Habs, lookup_delete_eq. split; [done|]. right. split; [done|].
        destruct Hdl as [?|[? _]]; [|congruence]; assert (d' = d) as -> by congruence; done.
      * rewrite Habs, lookup_delete_eq, Hq. split; [by left|by right].
    + assert (sees kk s s') as Hsees.
      { destruct kk as [|tm' d'| | | | |]; cbn; rewrite ?Ef, ?Eg, ?Eo, ?En; try done. split_and!; [done| |lia].
        rewrite Habs, lookup_delete_ne; [done|]. intros <-. destruct Hne. eauto. }
      destruct Hp as [Hk Hw]. split; [apply (kont_frame s); [done|done|by rewrite El|by rewrite Ec]|].
      rewrite woken_frame, Hq, Hw by done. split; [|by left]. intros [?|[d' [= ->]]%Hj]; [done|]. destruct Hne. eauto.
  - intros g G HG. destruct (H9 g G HG) as [? ? ? ?]. split; by rewrite ?Ef.
  - destruct H10 as [? Ha Ho]. split; rewrite ?Ef, ?Eo; [done| |done].
    intros t. rewrite Habs. intros [d' [_ Hd']%lookup_delete_Some]. apply Ha. eauto.
Qed.

Record same_clock (s s' : sched) : Prop := {
  sc_this : this_fiber s' = this_fiber s;
  sc_main : main_fiber_ s' = main_fiber_ s;
  sc_now : now_ s' = now_ s;
  sc_frozen : time_freezed_ s' = time_freezed_ s;
}.

#[global] Instance same_clock_preorder : PreOrder same_clock.
Proof. split; [by intros s; split|]. intros s1 s2 s3 [] []. split; congruence. Qed.

Lemma OnExpired_ok tm d h s :
  inv s → this_fiber s = None → active s !! tm = Some d → (d < now_ s)%Z →
  TimerHeap.wf h → TimerHeap.abs h = delete tm (active s) →
  ∃ s', OnExpired tm (set_timers h (timer_of s) s) = Ok s' ∧ inv s' ∧ timers_ s' = h ∧ same_clock s s'.
Proof.
  intros [Hc Hn] Ht Ha Hd Hwf Habs. destruct (t_active _ (c_timers s Hc) tm) as [[j k] Htm]; [by eexists|].
  destruct (t_owner _ (c_timers s Hc) tm j k Htm) as (x&Hx&Hfx&_). set (s1 := set_timers h (timer_of s) s).
  unfold OnExpired. change (timer_of s1) with (timer_of s). rewrite Htm. destruct k.
  - assert (Unpark j s1 = Ok (push j s1)) as ->.
    { unfold Unpark. change (deref j s1) with (deref j s). rewrite (deref_ok s j x) by done. cbn [bindO].
      pose proof (alive_state s j x Hc Hx Hfx). unfold push. by destruct (state_ x). }
    pose proof (push_fields j s1) as (Pf&Pg&Pt&Po&Pn&Pm&Pl&Pc&Pth&Plk).
    exists (push j s1). split_and!; [done| |done|].
    + split.
      * apply (expire_core s (push j s1) tm d j SleepTimer); try done; rewrite ?Pt; try done.
        -- unfold push. by case_decide.
        -- apply push_nodup, Hc.
        -- intros i. destruct (decide (i = j)) as [->|Hne].
           ++ split; [by right|intros _; apply push_in].
           ++ rewrite push_other by done. split; [by left|]. by intros [?|[? _]].
      * apply (awake_frame s); [by rewrite Plk|by rewrite Pl| |done]. intros i y b Hy _. by rewrite Pf.
    + split; [by rewrite Pth|by rewrite Pm|by rewrite Pn|]. unfold push. by case_decide.
  - assert (core s1) as Hc1.
    { apply (expire_core s s1 tm d j TimeoutGuard); try done; [apply Hc|]. intros i. split; [by left|].
      by intros [?|[_ ?]]. }
    destruct (NotifyTimeout_ok j x s1) as (s2&->&Hc2&Hk); [done|done|done|by change (this_fiber s ≠ Some j); rewrite Ht|].
    exists s2. split_and!; [done| |by rewrite (k_timers _ _ Hk)|].
    + split; [done|]. by apply (keeps_awake s1).
    + destruct Hk. by split.
Qed.

(** The loop over the timers ends, and no timer that is left has expired. *)
Lemma RunTimers_ok fuel s :
  inv s → this_fiber s = None → length (TimerHeap.heap_ (timers_ s)) < fuel →
  ∃ s', RunTimers fuel s = Ok s' ∧ inv s' ∧ same_clock s s' ∧
    ∀ tm d, active s' !! tm = Some d → (now_ s' <= d)%Z.
Proof.
  revert s. induction fuel as [|fuel IH]; intros s Hi Ht Hfuel; [lia|]. cbn [RunTimers].
  pose proof (t_wf _ (c_timers s (proj1 Hi))) as Hwf. pose proof (TimerHeap.GetMin_ok _ Hwf) as Hmin.
  destruct (TimerHeap.GetMin (timers_ s)) as [tm|].
  2:{ exists s. split_and!; [done|done|done|]. intros tm d. by rewrite Hmin, lookup_empty. }
  destruct Hmin as (d&Hd&Hmin). rewrite (TimerHeap.GetDeadline_ok _ tm d) by done. cbn [bindO].
  destruct (Z.ltb_spec d (now_ s)) as [Hlt|Hge].
  2:{ exists s. split_and!; [done|done|done|]. intros tm' d' ?%Hmin. lia. }
  destruct (TimerHeap.Deactivate_ok _ tm Hwf) as (h&->&Hwf1&Habs). cbn [bindO].
  destruct (OnExpired_ok tm d h s Hi Ht Hd Hlt Hwf1 Habs) as (s1&->&Hi1&Ht1&Hs1). cbn [bindO].
  destruct (IH s1 Hi1) as (s2&->&Hi2&Hs2&Hdone).
  - by rewrite (sc_this _ _ Hs1).
  - rewrite Ht1. rewrite <- heap_size in * by done. rewrite Habs.
    assert (size (active s) = S (size (delete tm (active s)))); [|lia].
    rewrite <- (insert_delete_id (active s) tm d) at 1 by done.
    by rewrite map_size_insert_None by apply lookup_delete_eq.
  - exists s2. split_and!; [done|done|by etrans|done].
Qed.

(** *** A parked fiber goes on *)

Definition resumed (f : nat) (rest : list nat) (x : FiberImpl) (s : sched) : sched :=
  upd f (λ _, set_at (User Returned) (checked x)) (set_this (Some f) (set_queue rest s)).

Lemma checked_none x w : thrown_by x w = None → checked x = x.
Proof.
  unfold thrown_by, checked. destruct (cancel_guarded_ x); [done|]. destruct (canceled_ x); [done|].
  destruct (timedout_ x) eqn:Ht; [done|]. intros _. destruct x; cbn in *. by subst.
Qed.

Lemma checked_set_at p x : checked (set_at p x) = set_at p (checked x).
Proof. unfold checked. cbn. by destruct (cancel_guarded_ x || canceled_ x). Qed.

Lemma Resume_spec k f x rest s :
  fibers s !! f = Some x → deleted x = false → f ∉ rest →
  Resume k f (upd f (set_at (User Returned)) (set_this (Some f) (set_queue rest s))) =
    leave k f (thrown_by x (where_of k)) (cleanup k (resumed f rest x s)).
Proof.
  intros Hx Hd Hn. unfold Resume. set (s1 := upd f _ _).
  assert (fibers s1 !! f = Some (set_at (User Returned) x)) as Hx1 by (by apply upd_lookup).
  rewrite (check_ok f _ s1 (set_at (User Returned) x)) by done. cbn [bindO fst snd].
  change (thrown_by (set_at (User Returned) x) ?w) with (thrown_by x w). do 2 f_equal. rewrite checked_set_at.
  unfold s1, resumed, upd, set_fibers, set_this, set_queue. cbn.
  destruct (thrown_by x _) as [e|] eqn:Hth; f_equal; rewrite ?(alter_insert s f x) by done.
  - by rewrite alter_insert_eq.
  - by rewrite (checked_none x (where_of k)) by done.
Qed.

(** The fiber is in the user's code again, and nothing refers to it any more. *)
Lemma arrive_core f x x' r s s' :
  core s → this_fiber s = None → fin x = false → hole_move f x x' s s' → at_ x' = User r →
  this_fiber s' = Some f → (f ∉ run_queue_ s') → (f ∉ lockers_ s') → (f ∉ cond_waiters_ s') →
  (∀ c y, fibers s' !! c = Some y → waiter_ y ≠ Some f) →
  (∀ g G, groups s' !! g = Some G → joiner_ G ≠ Some f ∧ group_waiter_ G ≠ Some f) →
  (∀ tm, timer_of s' !! tm ≠ Some (f, SleepTimer)) → core s'.
Proof.
  intros Hc Ht Hfx Hm Ha Ht' Hq Hl Hcd Hw Hg Htm. apply (move_core f x x' s); [done|by rewrite Ht|done|done| | | |].
  - split; try done.
    + intros c y Hy Hwy. by destruct (Hw c y Hy).
    + intros g G HG Hj. by destruct (Hg g G HG).
    + intros g G HG Hj. by destruct (Hg g G HG).
    + intros tm Hm'. by destruct (Htm tm).
  - intros j. rewrite Ht', Ha. split; [intros [= <-]; eauto|by intros [-> _]].
  - by rewrite Ha.
  - unfold place_ok. by rewrite Ha, ?Eq.
Qed.

Lemma queue_head s f rest :
  core s → run_queue_ s = f :: rest → (f ∉ rest) ∧ NoDup rest ∧
  ∃ x, fibers s !! f = Some x ∧ fin x = false ∧ deleted x = false ∧ state_ x ≠ Dead ∧
    (at_ x = Start ∨ ∃ k, at_ x = Parked k ∧ kont_ok s f x k ∧ woken s x k).
Proof.
  intros Hc Hq. pose proof (c_queue s Hc) as Hnd. rewrite Hq in Hnd. apply NoDup_cons in Hnd as [Hn Hnd].
  assert (f ∈ run_queue_ s) as Hin by (rewrite Hq; set_solver). split_and!; [done|done|].
  destruct (c_queued s Hc f Hin) as [x Hx]. exists x. pose proof (c_fiber s Hc f x Hx) as Hfx.
  pose proof (f_place _ _ _ Hfx) as Hp. unfold place_ok in Hp.
  assert (at_ x = Start ∨ ∃ k, at_ x = Parked k ∧ kont_ok s f x k ∧ woken s x k) as Hat.
  { destruct (at_ x) as [|r|k|]; [by left|done| |done]. right. exists k. split_and!; [done|apply Hp|by apply Hp]. }
  assert (fin x = false) as Hfin by (unfold fin; destruct Hat as [->|(k&->&_)]; done).
  split_and!; [done|done| |by eapply alive_state|done].
  destruct (deleted x) eqn:Hd; [|done]. apply (f_deleted _ _ _ Hfx) in Hd. congruence.
Qed.

(** From a place that only the wait queues refer to. *)
Lemma arrive_plain f x x' r rest s s' :
  core s → this_fiber s = None → run_queue_ s = f :: rest → fibers s !! f = Some x →
  registered (at_ x) = false → at_ x' = User r → fibers s' = <[f := x']> (fibers s) →
  vis x' = vis x → (state_ x' = Dead ↔ state_ x = Dead) → guard_locked_ x' = guard_locked_ x →
  (groups s' = groups s ∧ timers_ s' = timers_ s ∧ timer_of s' = timer_of s ∧ now_ s' = now_ s ∧
   main_fiber_ s' = main_fiber_ s ∧ locked_ s' = locked_ s) →
  run_queue_ s' = rest → lockers_ s' = erase f (lockers_ s) → cond_waiters_ s' = erase f (cond_waiters_ s) →
  this_fiber s' = Some f → core s'.
Proof.
  intros Hc Ht Hq Hx Hreg Ha Hf Hv Hst Hg (Eg&Et&Eo&En&Em&Elk) Eq El Ec Eth.
  destruct (queue_head s f rest Hc Hq) as (Hn&Hnd&x0&Hx0&Hfin&_). rewrite Hx in Hx0. injection Hx0 as <-.
  apply (core_shift f x x' s); try done.
  - by rewrite Ht.
  - split_and!; try done. rewrite En. lia.
  - rewrite Eq. split; [done|]. intros j Hj. rewrite Hq. set_solver.
  - rewrite El. split; [apply erase_nodup, Hc|]. intros j Hj. rewrite erase_in. tauto.
  - rewrite Ec. split; [apply erase_nodup, Hc|]. intros j Hj. rewrite erase_in. tauto.
  - rewrite El. by intros [? _]%erase_in.
  - rewrite Ec. by intros [? _]%erase_in.
  - by left.
  - intros j. rewrite Eth, Ha. split; [intros [= <-]; eauto|by intros [-> _]].
  - by rewrite Ha.
  - unfold place_ok. by rewrite Ha, ?Eq.
Qed.

Lemma resumed_fibers f rest x s :
  fibers s !! f = Some x → fibers (resumed f rest x s) = <[f := set_at (User Returned) (checked x)]> (fibers s).
Proof. intros Hx. unfold resumed. by rewrite (upd_fibers f _ _ x). Qed.

Lemma resumed_vis x p : at_ x ≠ Finished → p ≠ Finished → vis (set_at p (checked x)) = vis x.
Proof.
  intros H1 H2. destruct (checked_alike x) as (Ha&Hv&_). rewrite <- Hv. unfold vis, fin. cbn. rewrite Ha.
  by destruct (at_ x), p.
Qed.

(** [WaitQueue::Wait] to its end: the wake-up of a fiber that throws is passed on. *)
Lemma Wait_end_ok q k f x rest thrown s :
  core s → this_fiber s = None → run_queue_ s = f :: rest → fibers s !! f = Some x →
  at_ x = Parked k → queue_kont q k = true →
  ∃ s', Wait_end q f thrown (resumed f rest x s) = Ok s' ∧ core s' ∧
    fibers s' !! f = Some (set_at (User Returned) (checked x)) ∧ guard_locked_ x = false ∧
    (is_Some thrown → no_lost_wakeup s → no_lost_wakeup s').
Proof.
  intros Hc Ht Hq Hx Ha Hk. destruct (queue_head s f rest Hc Hq) as (Hn&Hnd&x0&Hx0&Hfin&Hdel&_&Hat). simplify_eq.
  destruct Hat as [?|(k0&Hk0&Hko&_)]; [congruence|]. rewrite Ha in Hk0. injection Hk0 as <-.
  set (x' := set_at (User Returned) (checked x)). set (s2 := resumed f rest x s).
  assert (fibers s2 = <[f := x']> (fibers s)) as Hf2 by (by apply resumed_fibers).
  destruct (checked_alike x) as (Hca&Hcv&Hcs&Hcl&Hcw&_&Hcd).
  assert (guard_locked_ x = false) as Hg.
  { destruct (guard_locked_ x) eqn:Hg; [|done]. apply (f_hold _ _ _ (c_fiber s Hc f x Hx)) in Hg.
    rewrite Ha in Hg. by destruct q, k. }
  assert (∀ s', s' = set_cond (cond_waiters_ s') (set_mutex (locked_ s) (lockers_ s') s2) → lockers_ s' = erase f (lockers_ s) →
    cond_waiters_ s' = erase f (cond_waiters_ s) → core s') as Hcore.
  { intros s' Hs El Ec. apply (arrive_plain f x x' Returned rest s); try done; try (by rewrite Hs).
    - rewrite Ha. by destruct q, k.
    - apply resumed_vis; congruence.
    - cbn. by rewrite Hcs. }
  assert (∀ q', q' ≠ q → f ∉ waiters_ q' s) as Hother.
  { intros q' Hne Hin. destruct (queue_member s q' f Hc Hin) as (y&ky&Hy&Hay&Hqk). simplify_eq.
    rewrite Ha in Hay. injection Hay as <-. by destruct q, q', k. }
  assert (∀ l, core (set_waiters q (erase f (waiters_ q s)) s2) ∧ (erase f l = l → l = waiters_ q s → core s2)) as Hcq.
  { intros l. destruct q.
    - pose proof (Hother CondWaiters ltac:(done)) as Ho. split; [|intros Hl ->]; eapply Hcore; cbn in *;
        rewrite ?(erase_id f (cond_waiters_ s)), ?Hl; done.
    - pose proof (Hother Lockers ltac:(done)) as Ho. split; [|intros Hl ->]; eapply Hcore; cbn in *;
        rewrite ?(erase_id f (lockers_ s)), ?Hl; done. }
  assert (wakeup x = true → f ∉ waiters_ q s) as Hwk.
  { intros Hw Hin. assert (f ∈ waiters_ q s ↔ wakeup x = false) as [Hi _] by (by destruct q, k).
    rewrite Hw in Hi. by discriminate Hi. }
  assert (waiters_ q s2 = waiters_ q s) as Hw2 by (by destruct q).
  assert (∀ l, fibers (set_waiters q l s2) = <[f := x']> (fibers s)) as Hfw.
  { intros l. rewrite <- Hf2. by destruct q. }
  unfold Wait_end, deref. rewrite Hf2, lookup_insert_eq. cbn [deleted set_at x']. rewrite Hcd, Hdel. cbn [bindO].
  change (wakeup x') with (wakeup (checked x)). rewrite Hcw.
  destruct (is_Some_dec thrown) as [[e ->]|Hno].
  - destruct (wakeup x) eqn:Hwx.
    + destruct (NotifyOne_ok q s2) as (s3&->&Hc3&Hk3&Hn3&_).
      { apply (Hcq (waiters_ q s)); [by apply erase_id, Hwk|done]. }
      assert (f ∉ waiters_ q s3) as Hnin.
      { intros Hin. apply Hwk; [done|]. rewrite <- Hw2. destruct q; cbn in Hin |- *.
        - destruct (k_lockers _ _ Hk3) as [l Hl]. change (f ∈ lockers_ s2). rewrite Hl. set_solver.
        - destruct (k_conds _ _ Hk3) as [l Hl]. change (f ∈ cond_waiters_ s2). rewrite Hl. set_solver. }
      cbn [bindO]. rewrite erase_id by done. assert (set_waiters q (waiters_ q s3) s3 = s3) as -> by (by destruct q, s3).
      exists s3. split_and!; [done|done| |done|].
      * eapply keeps_user; [done| |done]. by rewrite Hf2, lookup_insert_eq.
      * intros _ Hlost. destruct q; [by apply Hn3|]. apply (keeps_awake s2); [done|].
        apply (awake_frame s); [done..| |done]. intros j y b Hy Hay. rewrite Hf2, lookup_insert_ne; [done|].
        intros <-. rewrite Hx in Hy. injection Hy as <-. rewrite Ha in Hay. by injection Hay as ->.
    + cbn [bindO]. rewrite Hw2. eexists. split_and!; [done|by apply (Hcq [])| |done|].
      * by rewrite Hfw, lookup_insert_eq.
      * intros _ Hlost. intros Hl Hne. destruct Hlost as (j&y&b&Hy&Hay&Hwy).
        -- by destruct q.
        -- destruct q; [|done]. cbn in Hne. intros Hnil. by rewrite Hnil in Hne.
        -- exists j, y, b. split_and!; [|done|done].
           rewrite Hfw, lookup_insert_ne; [done|]. intros <-. congruence.
  - assert (thrown = None) as -> by (by apply eq_None_not_Some). cbn [bindO]. rewrite Hw2.
    eexists. split_and!; [done|by apply (Hcq [])| |done|by intros [? ?]].
    by rewrite Hfw, lookup_insert_eq.
Qed.

Section Resume.

Context (f : nat) (rest : list nat) (x : FiberImpl) (k : kont) (s : sched).
Context (Hi : inv s) (Ht : this_fiber s = None) (Hq : run_queue_ s = f :: rest).
Context (Hx : fibers s !! f = Some x) (Ha : at_ x = Parked k).

Abbreviation thrown := (thrown_by x (where_of k)).
Abbreviation s2 := (resumed f rest x s).
Abbreviation goes_on := (good_call (leave k f thrown (cleanup k s2))).

Lemma resume_facts :
  core s ∧ (f ∉ rest) ∧ NoDup rest ∧ (∀ j, j ≠ f → j ∈ rest ↔ j ∈ run_queue_ s) ∧ fin x = false ∧
  kont_ok s f x k ∧ woken s x k ∧ refs_ok f x s.
Proof.
  destruct Hi as [Hc _]. destruct (queue_head s f rest Hc Hq) as (Hn&Hnd&x0&Hx0&Hfin&Hdel&_&Hat).
  rewrite Hx in Hx0. injection Hx0 as <-. destruct Hat as [?|(k0&Hk0&Hko&Hw)]; [congruence|].
  rewrite Ha in Hk0. injection Hk0 as <-. split_and!; [done|done|done| |done|done|done|].
  - intros j Hj. rewrite Hq. set_solver.
  - apply (core_open f x s Hc Hx). by rewrite Ht.
Qed.

Lemma resume_locking b : k = Locking b → goes_on.
Proof using All.
  intros Hk. destruct resume_facts as (Hc&_). pose proof Hi as [_ Hn]. rewrite Hk. cbn [leave cleanup].
  destruct (checked_alike x) as (_&_&_&Hcl&_).
  destruct (Wait_end_ok Lockers k f x rest (thrown_by x (where_of (Locking b))) s) as (s3&Hs3&Hc3&Hx3&Hg&Hlost);
    [done|done|done|done|done|by rewrite Hk|].
  destruct (thrown_by x (where_of (Locking b))) as [e|].
  - unfold Lock_throw. rewrite Hs3. cbn [bindO].
    destruct (pass_wakeup_ok b f e s3 _ Returned Hc3 Hx3 eq_refl) as (s4&Hs4&Hc4&Hn4&_).
    exists s4. split; [done|]. split; [done|]. apply Hn4, Hlost; [by eexists|done].
  - rewrite Hs3. cbn [bindO]. destruct (Lock_loop_ok b f s3 _ Returned Hc3 Hx3 eq_refl) as (s4&?&?&?).
    { cbn. by rewrite Hcl. }
    exists s4. split; [done|]. split; [done|by apply awake_locked].
Qed.

Lemma resume_cond : k = CondWaiting → goes_on.
Proof using All.
  intros Hk. destruct resume_facts as (Hc&_). pose proof Hi as [_ Hn]. rewrite Hk. cbn [leave cleanup].
  destruct (checked_alike x) as (_&_&_&Hcl&_).
  destruct (Wait_end_ok CondWaiters k f x rest (thrown_by x (where_of CondWaiting)) s) as (s3&Hs3&Hc3&Hx3&Hg&Hlost);
    [done|done|done|done|done|by rewrite Hk|].
  rewrite Hs3. cbn [bindO]. destruct (thrown_by x (where_of CondWaiting)) as [e|].
  - eexists. split; [done|]. destruct (return_core f (Threw e) s3 _ Returned Hc3 Hx3 eq_refl) as (?&Hn3&_).
    split; [done|]. apply Hn3, Hlost; [by eexists|done].
  - destruct (Lock_loop_ok true f s3 _ Returned Hc3 Hx3 eq_refl) as (s4&?&?&?).
    { cbn. by rewrite Hcl. }
    exists s4. split; [done|]. split; [done|by apply awake_locked].
Qed.

(** The other fibers that wait for the mutex are not touched. *)
Lemma resume_awake s' :
  locked_ s' = locked_ s → lockers_ s' = lockers_ s → (∀ b, k ≠ Locking b) →
  (∀ j y b, j ≠ f → fibers s !! j = Some y → at_ y = Parked (Locking b) → fibers s' !! j = Some y) → no_lost_wakeup s'.
Proof using All.
  intros Hl Hk Hne Hf. apply (awake_frame s); [by rewrite Hl|by rewrite Hk| |apply Hi].
  intros j y b Hy Hay. apply (Hf j y b); [|done|done]. intros ->. rewrite Hx in Hy. injection Hy as <-.
  rewrite Ha in Hay. injection Hay as ->. by destruct (Hne b).
Qed.

Lemma resume_yield : k = Yielding → goes_on.
Proof using All.
  intros Hk. destruct resume_facts as (Hc&_&_&_&_&_&_&[_ _ _ _ Rl Rc]). rewrite Hk. cbn [leave cleanup].
  set (r := match _ with Some e => Threw e | None => Returned end).
  eexists. split; [done|]. pose proof (resumed_fibers f rest x s Hx) as Hf.
  assert (fibers (return_ f r s2) = <[f := set_at (User r) (checked x)]> (fibers s)) as Hf'.
  { unfold return_. rewrite (upd_fibers f _ _ (set_at (User Returned) (checked x))).
    - rewrite Hf. by rewrite insert_insert_eq.
    - by rewrite Hf, lookup_insert_eq. }
  destruct (checked_alike x) as (Hca&Hcv&Hcs&Hcl&_). split.
  - apply (arrive_plain f x (set_at (User r) (checked x)) r rest s); try done.
    + by rewrite Ha, Hk.
    + apply resumed_vis; congruence.
    + cbn. by rewrite Hcs.
    + symmetry. apply erase_id. intros [b ?]%Rl. congruence.
    + symmetry. apply erase_id. intros ?%Rc. congruence.
  - apply resume_awake; [done|done|congruence|]. intros j y b Hj Hy _. by rewrite Hf', lookup_insert_ne.
Qed.

(** Nothing refers to the fiber but the object it was parked in. *)
Lemma resume_refs :
  (∀ c y, fibers s !! c = Some y → waiter_ y = Some f → ∃ sv, k = Joining c sv) ∧
  (∀ g G, groups s !! g = Some G → joiner_ G = Some f → ∃ sv, k = GroupJoining g sv) ∧
  (∀ g G, groups s !! g = Some G → group_waiter_ G = Some f → is_wait G = true ∧ k = GroupWaiting g) ∧
  (∀ tm, timer_of s !! tm = Some (f, SleepTimer) → ∃ d, k = InSleep tm d) ∧
  (registered (Parked k) = true → (f ∉ lockers_ s) ∧ (f ∉ cond_waiters_ s)).
Proof using All.
  destruct resume_facts as (_&_&_&_&_&_&_&[R1 R2 R3 R4 R5 R6]). rewrite Ha in R1, R2, R3, R4, R5, R6. split_and!.
  - intros c y Hy Hw. destruct (R1 c y Hy Hw) as [sv [= ->]]. eauto.
  - intros g G HG Hj. destruct (R2 g G HG Hj) as [sv [= ->]]. eauto.
  - intros g G HG Hj. destruct (R3 g G HG Hj) as [? [= ->]]. eauto.
  - intros tm Htm. destruct (R4 tm Htm) as [d [= ->]]. eauto.
  - intros Hr. split; [intros [b [= ->]]%R5; done|intros [= ->]%R6; done].
Qed.

Lemma resume_sleep tm d : k = InSleep tm d → goes_on.
Proof using All.
  intros Hk. destruct resume_facts as (Hc&Hn&Hnd&Hrest&Hfin&Hko&_&_). destruct resume_refs as (R1&R2&R3&R4&R5).
  rewrite Hk in Hko, R5. destruct Hko as [Htm _]. destruct (R5 eq_refl) as [Hnl Hnc]. rewrite Hk. cbn [leave cleanup].
  pose proof (c_timers s Hc) as [Hwf Hact _]. change (timers_ s2) with (timers_ s).
  destruct (destroy_ok (timers_ s) tm Hwf) as (h&->&Hwf'&Habs). cbn [bindO].
  set (r := match _ with Some e => Threw e | None => Returned end). set (s' := return_ f r _).
  set (x' := set_at (User r) (checked x)). destruct (checked_alike x) as (Hca&Hcv&Hcs&Hcl&_).
  assert (fibers s' = <[f := x']> (fibers s)) as Hf'.
  { unfold s', return_, upd. cbn. rewrite (alter_insert s f x) by done. by rewrite alter_insert_eq. }
  exists s'. split; [done|]. split.
  - apply (arrive_core f x x' r s); try done.
    + apply timer_move; try done; cbn.
      * apply resumed_vis; congruence.
      * intros t. rewrite Habs. destruct (decide (t = tm)) as [->|Hne].
        -- rewrite lookup_delete_eq. by intros [? ?].
        -- rewrite !lookup_delete_ne by done. apply Hact.
      * intros t. rewrite Habs. destruct (decide (t = tm)) as [->|Hne].
        -- right. rewrite Htm, lookup_delete_eq. split; [by right|by left].
        -- left. by rewrite !lookup_delete_ne.
    + intros c y Hy Hw. rewrite Hf' in Hy. destruct (decide (c = f)) as [->|Hne].
      * rewrite lookup_insert_eq in Hy. injection Hy as <-. cbn in Hw.
        assert (waiter_ (checked x) = waiter_ x) as Hwx by (unfold vis in Hcv; congruence). rewrite Hwx in Hw.
        destruct (R1 f x Hx Hw) as [sv ?]. congruence.
      * rewrite lookup_insert_ne in Hy by done. destruct (R1 c y Hy Hw) as [sv ?]. congruence.
    + intros g G HG. split; intros Hj; [destruct (R2 g G HG Hj)|destruct (R3 g G HG Hj)]; congruence.
    + cbn. intros t [Hne Hto]%lookup_delete_Some. destruct (R4 t Hto) as [d' ?]. congruence.
  - apply resume_awake; [done|done|congruence|]. intros j y b Hj Hy _. by rewrite Hf', lookup_insert_ne.
Qed.

Lemma resume_join c sv : k = Joining c sv → goes_on.
Proof using All.
  intros Hk. destruct resume_facts as (Hc&Hn&Hnd&Hrest&Hfin&Hko&Hwk&_). destruct resume_refs as (R1&R2&R3&R4&R5).
  rewrite Hk in Hko, Hwk, R5. destruct Hko as (Hgd&y&Hy&Hdy&Hwy&Hgy). destruct Hwk as (y0&Hy0&Hfy).
  rewrite Hy in Hy0. injection Hy0 as <-. destruct (R5 eq_refl) as [Hnl Hnc].
  assert (c ≠ f) as Hne by (intros ->; congruence).
  assert (thrown_by x (where_of k) = None) as Hth by (unfold thrown_by; by rewrite Hgd).
  pose proof (checked_none x _ Hth) as Hcx. rewrite Hth, Hk. cbn [leave cleanup].
  set (x' := set_at (User Returned) (set_guard sv x)). set (y' := set_deleted true (set_waiter None y)).
  set (s' := return_ f _ _). assert (fibers s' = <[f := x']> (<[c := y']> (fibers s))) as Hf'.
  { unfold s', return_, resumed, upd. cbn. rewrite Hcx. apply map_eq. intros j. destruct (decide (j = f)) as [->|Hjf].
    - rewrite lookup_insert_eq. repeat (rewrite lookup_alter_eq || rewrite lookup_alter_ne by done). by rewrite Hx.
    - rewrite lookup_insert_ne by done. destruct (decide (j = c)) as [->|Hjc].
      + rewrite lookup_insert_eq. repeat (rewrite lookup_alter_eq || rewrite lookup_alter_ne by done). by rewrite Hy.
      + rewrite lookup_insert_ne by done. by rewrite !lookup_alter_ne by done. }
  exists s'. split; [done|]. split.
  - apply (arrive_core f x x' Returned s); try done.
    + apply (fiber_reg_move f x x' c y y'); try done.
      * split; try done; [by right|]. right. cbn. rewrite Hwy. split; [by right|by left].
      * unfold vis, fin. cbn. by rewrite Ha.
    + intros c' z Hz Hw. rewrite Hf' in Hz. destruct (decide (c' = f)) as [->|Hcf].
      * rewrite lookup_insert_eq in Hz. injection Hz as <-. destruct (R1 f x Hx Hw) as [? ?]. congruence.
      * rewrite lookup_insert_ne in Hz by done. destruct (decide (c' = c)) as [->|Hcc].
        -- rewrite lookup_insert_eq in Hz. injection Hz as <-. done.
        -- rewrite lookup_insert_ne in Hz by done. destruct (R1 c' z Hz Hw) as [? ?]. congruence.
    + intros g G HG. split; intros Hj; [destruct (R2 g G HG Hj)|destruct (R3 g G HG Hj)]; congruence.
    + intros t Hto. destruct (R4 t Hto) as [d' ?]. congruence.
  - apply resume_awake; [done|done|congruence|]. intros j z b Hj Hz Haz. rewrite Hf', !lookup_insert_ne; [done| |done].
    intros <-. rewrite Hy in Hz. injection Hz as <-. unfold fin in Hfy. by rewrite Haz in Hfy.
Qed.

(** From the two places in a group. *)
Lemma arrive_group g x' r s' :
  k = GroupWaiting g ∨ (∃ sv, k = GroupJoining g sv) → at_ x' = User r →
  fibers s' = <[f := x']> (fibers s) → vis x' = vis x → state_ x' = state_ x → guard_locked_ x' = guard_locked_ x →
  (∃ G, groups s !! g = Some G ∧
     ((∃ G', groups s' = <[g := G']> (groups s) ∧ group_move f G G' ∧ joiner_ G' ≠ Some f ∧ group_waiter_ G' ≠ Some f) ∨
      fibers_ G = [] ∧ self f (joiner_ G) ∧ self f (group_waiter_ G) ∧ groups s' = delete g (groups s))) →
  s' = set_groups (groups s') (set_fibers (fibers s') (set_this (Some f) (set_queue rest s))) → inv s'.
Proof using All.
  intros Hk Hr Hf' Hv Hst Hg (G&HG&Hgr) Hs. destruct resume_facts as (Hc&Hn&Hnd&Hrest&Hfin&_).
  destruct resume_refs as (R1&R2&R3&R4&R5). destruct R5 as [Hnl Hnc]; [by destruct Hk as [->|[sv ->]]|].
  assert (∀ j H, groups s' !! j = Some H → j ≠ g → groups s !! j = Some H) as Hback.
  { intros j H HH Hne. destruct Hgr as [(G'&Heq&_)|(_&_&_&Heq)]; rewrite Heq in HH.
    - by rewrite lookup_insert_ne in HH by done.
    - by rewrite lookup_delete_ne in HH by done. }
  split.
  - apply (arrive_core f x x' r s); try done; try (by rewrite Hs).
    + apply group_reg_move; try done; try (by rewrite Hs).
      intros j. destruct (decide (j = g)) as [->|Hne].
      * destruct Hgr as [(G'&Heq&Hm&_)|(?&?&?&Heq)]; rewrite Heq, HG.
        -- left. rewrite lookup_insert_eq. by constructor.
        -- right. exists G. by rewrite lookup_delete_eq.
      * left. destruct Hgr as [(G'&Heq&_)|(_&_&_&Heq)]; rewrite Heq;
          rewrite ?lookup_insert_ne, ?lookup_delete_ne by done;
          destruct (groups s !! j); constructor; apply group_move_refl.
    + intros c y Hy Hw. rewrite Hf' in Hy. destruct (decide (c = f)) as [->|Hne].
      * rewrite lookup_insert_eq in Hy. injection Hy as <-.
        assert (waiter_ x' = waiter_ x) as Hwx by (unfold vis in Hv; congruence). rewrite Hwx in Hw.
        destruct (R1 f x Hx Hw) as [sv ?]. by destruct Hk as [?|[? ?]]; congruence.
      * rewrite lookup_insert_ne in Hy by done. destruct (R1 c y Hy Hw) as [sv ?]. by destruct Hk as [?|[? ?]]; congruence.
    + intros j H HH. destruct (decide (j = g)) as [->|Hne].
      * destruct Hgr as [(G'&Heq&_&?&?)|(_&_&_&Heq)]; rewrite Heq in HH.
        -- rewrite lookup_insert_eq in HH. by injection HH as <-.
        -- by rewrite lookup_delete_eq in HH.
      * pose proof (Hback j H HH Hne) as HH'. split; intros Hj.
        -- destruct (R2 j H HH' Hj) as [? ?]. by destruct Hk as [?|[? ?]]; congruence.
        -- destruct (R3 j H HH' Hj) as [_ ?]. by destruct Hk as [?|[? ?]]; congruence.
    + intros t Hto. rewrite Hs in Hto. destruct (R4 t Hto) as [d' ?]. by destruct Hk as [?|[? ?]]; congruence.
  - apply resume_awake; [by rewrite Hs|by rewrite Hs|by destruct Hk as [->|[? ->]]|].
    intros j y b Hj Hy _. by rewrite Hf', lookup_insert_ne.
Qed.

Lemma resume_group_join g sv : k = GroupJoining g sv → goes_on.
Proof using All.
  intros Hk. destruct resume_facts as (Hc&_&_&_&_&Hko&Hwk&_). rewrite Hk in Hko, Hwk.
  destruct Hko as (Hgd&Hng&G&HG&Hj&Hiw). destruct Hwk as (G0&HG0&Hfs). rewrite HG in HG0. injection HG0 as <-.
  assert (thrown_by x (where_of k) = None) as Hth by (unfold thrown_by; by rewrite Hgd).
  pose proof (checked_none x _ Hth) as Hcx. rewrite Hth, Hk. cbn [leave cleanup].
  set (x' := set_at (User Returned) (set_guard sv x)). set (s' := return_ f _ _).
  assert (groups s' = delete g (groups s)) as Hg' by (cbn; apply delete_alter_eq).
  exists s'. split; [done|]. apply (arrive_group g x' Returned); try done.
  - right. by exists sv.
  - unfold s', return_, resumed, upd. cbn. rewrite Hcx, (alter_insert s f x) by done. by rewrite !alter_insert_eq.
  - unfold vis, fin. cbn. by rewrite Ha.
  - exists G. split; [done|]. right. split_and!; [done|by right| |done].
    destruct (group_waiter_ G) as [w|] eqn:Hw; [|by left].
    destruct (g_waiter _ _ _ (c_group s Hc g G HG) w Hw). congruence.
Qed.

Lemma resume_group_wait g : k = GroupWaiting g → goes_on.
Proof using All.
  intros Hk. destruct resume_facts as (Hc&_&_&_&_&Hko&_&_). rewrite Hk in Hko. destruct Hko as (G&HG&Hw&Hiw).
  set (h := λ G : Group, mkGroup (fibers_ G) (joiner_ G) (is_wait G) (first_error_ G) None).
  assert (∀ r, inv (return_ f r (upd_group g h s2))) as Hret.
  { intros r. destruct (checked_alike x) as (Hca&Hcv&Hcs&Hcl&_).
    apply (arrive_group g (set_at (User r) (checked x)) r); try done.
    - by left.
    - unfold return_, resumed, upd. cbn. rewrite (alter_insert s f x) by done. by rewrite alter_insert_eq.
    - apply resumed_vis; congruence.
    - exists G. split; [done|]. left. exists (h G). split_and!; [by apply (alter_group s2)| |..|done].
      + split; try done; [by left|]. right. cbn. rewrite Hw. split; [by right|by left].
      + cbn. intros Hj. destruct resume_refs as (_&R2&_). destruct (R2 g G HG Hj). congruence. }
  rewrite Hk. cbn [leave cleanup]. fold h. unfold deref_group. rewrite (alter_group s2 g G h HG), lookup_insert_eq. cbn [bindO].
  eexists. split; [done|]. apply Hret.
Qed.

Lemma resume_ok : goes_on.
Proof using All.
  assert (∀ k', k = k' → goes_on) as H; [|by apply (H k)]. intros [|tm d|c sv|g sv|g|b|] Hk.
  - by apply resume_yield.
  - by apply (resume_sleep tm d).
  - by apply (resume_join c sv).
  - by apply (resume_group_join g sv).
  - by apply (resume_group_wait g).
  - by apply (resume_locking b).
  - by apply resume_cond.
Qed.

End Resume.

(** *** The loop *)

Lemma RunFiber_ok f rest s :
  inv s → this_fiber s = None → run_queue_ s = f :: rest → good_call (RunFiber f (set_queue rest s)).
Proof.
  intros Hi Ht Hq. pose proof Hi as [Hc Hn].
  destruct (queue_head s f rest Hc Hq) as (Hnr&Hnd&x&Hx&Hfin&Hdel&Hst&Hat).
  unfold RunFiber, deref. cbn [fibers set_queue this_fiber]. rewrite Hx, Hdel, Ht. cbn [bindO].
  assert (∀ A (a : A) b, match state_ x with Dead => a | _ => b end = b) as -> by (intros; by destruct (state_ x)).
  destruct Hat as [Ha|(k&Ha&_)]; rewrite Ha.
  - eexists. split; [done|]. set (h := λ x, set_state Running (set_at (User Returned) x)).
    assert (fibers (upd f h (set_this (Some f) (set_queue rest s))) = <[f := h x]> (fibers s)) as Hf
      by exact (upd_fibers f h (set_this (Some f) (set_queue rest s)) x Hx).
    destruct (core_open f x s Hc Hx) as [_ [_ _ _ _ Rl Rc]]; [by rewrite Ht|]. split.
    + apply (arrive_plain f x (h x) Returned rest s); try done.
      * by rewrite Ha.
      * unfold vis, fin. cbn. by rewrite Ha.
      * symmetry. apply erase_id. intros [b ?]%Rl. congruence.
      * symmetry. apply erase_id. intros ?%Rc. congruence.
    + apply (awake_frame s); [done..| |done]. intros j y b Hy Hay. rewrite Hf, lookup_insert_ne; [done|].
      intros <-. congruence.
  - rewrite (Resume_spec k f x rest s) by done. by apply resume_ok.
Qed.


(** *** The order of the run queue

    What a fiber does only appends to the queue, or takes the fiber itself out. *)

Section Order.

Context (f : nat) (base : list nat) (Hf : f ∉ base).

Definition ahead (s : sched) : Prop := base `prefix_of` run_queue_ s.

(** A function of the library that keeps the beginning of the queue. *)
Definition appends (o : outcome sched) : Prop := ∀ s, o = Ok s → ahead s.

Lemma appends_ok s : ahead s → appends (Ok s).
Proof. by intros Ha s' [= <-]. Qed.

Lemma appends_bind {A} (o : outcome A) (k : A → outcome sched) :
  (∀ a, o = Ok a → appends (k a)) → appends (bindO o k).
Proof. intros Hk s (a&Ho&Hs)%bindO_inv. by apply (Hk a). Qed.

Lemma appends_fail e : appends (Fail e).
Proof. by intros s. Qed.

Lemma Unpark_order j s : ahead s → appends (Unpark j s).
Proof.
  intros Ha. unfold Unpark. apply appends_bind. intros x _.
  destruct (state_ x); try apply appends_fail; apply appends_ok; (case_decide; [done|]);
    unfold ahead; cbn; by apply prefix_app_r.
Qed.

Lemma Unpark_opt_order o s : ahead s → appends (Unpark_opt o s).
Proof. intros Ha. destruct o; [by apply Unpark_order|by apply appends_ok]. Qed.

Lemma Cancel_order j s : ahead s → appends (Cancel j s).
Proof.
  intros Ha. unfold Cancel. apply appends_bind. intros x _.
  destruct (state_ x); try apply appends_fail; cbv zeta; (destruct (cancel_guarded_ x); [by apply appends_ok|by apply Unpark_order]).
Qed.

Lemma NotifyTimeout_order j s : ahead s → appends (NotifyTimeout j s).
Proof.
  intros Ha. unfold NotifyTimeout. apply appends_bind. intros x _. cbv zeta.
  destruct (cancel_guarded_ x); [by apply appends_ok|by apply Unpark_order].
Qed.

Lemma NotifyOne_order q s : ahead s → appends (NotifyOne q s).
Proof.
  intros Ha. unfold NotifyOne. destruct (waiters_ q s); [by apply appends_ok|]. apply Unpark_order. by destruct q.
Qed.

Lemma NotifyAll_order n q s : ahead s → appends (NotifyAll n q s).
Proof.
  revert s. induction n as [|n IH]; intros s Ha; cbn [NotifyAll]; destruct (waiters_ q s);
    try (by apply appends_ok); [apply appends_fail|].
  apply appends_bind. intros s1 Hs1. by apply IH, (NotifyOne_order q s Ha).
Qed.

Lemma Group_OnFinished_order g j s : ahead s → appends (Group_OnFinished g j s).
Proof.
  intros Ha. unfold Group_OnFinished. apply appends_bind. intros G _. cbv zeta.
  destruct (erase j (fibers_ G)); [by apply Unpark_opt_order|by apply appends_ok].
Qed.

Lemma OnFinished_order g j ex s : ahead s → appends (OnFinished g j ex s).
Proof.
  intros Ha. unfold OnFinished. apply appends_bind. intros G _. destruct (is_wait G); [|by apply Group_OnFinished_order].
  unfold WaitGroup_OnFinished. apply appends_bind. intros G' _. apply appends_bind. intros s1 Hs1.
  assert (ahead s1) as Ha1.
  { destruct (first_error_ G'), ex; simplify_eq; try done. eapply Unpark_opt_order; [|exact Hs1]. done. }
  apply appends_bind. intros s2 Hs2. apply (Group_OnFinished_order g j s1 Ha1) in Hs2.
  destruct (erase j (fibers_ G')); [by apply Unpark_opt_order|by apply appends_ok].
Qed.

Lemma check_order w s r s' : ahead s → check f w s = Ok (r, s') → ahead s'.
Proof using Hf.
  intros [l Hl] Hc. unfold check in Hc. apply bindO_inv in Hc as (x&_&Hc).
  assert (ahead (set_queue (erase f (run_queue_ s)) s)) as Ha.
  { exists (erase f l). cbn. rewrite Hl. unfold erase. rewrite filter_app. f_equal. by apply erase_id. }
  destruct (cancel_guarded_ x), (canceled_ x), (timedout_ x); simplify_eq; try done; by exists l.
Qed.

Lemma Wait_end_order q thrown s : ahead s → appends (Wait_end q f thrown s).
Proof.
  intros Ha. unfold Wait_end. apply appends_bind. intros x _. apply appends_bind. intros s1 Hs1.
  assert (ahead s1) as Ha1.
  { destruct thrown; [|by simplify_eq]. destruct (wakeup x); [by eapply NotifyOne_order|by simplify_eq]. }
  apply appends_ok. by destruct q.
Qed.

Lemma Lock_throw_order b e s : ahead s → appends (Lock_throw b f e s).
Proof.
  intros Ha. unfold Lock_throw. apply appends_bind. intros s1 Hs1. apply (Wait_end_order Lockers (Some e) s Ha) in Hs1.
  apply appends_bind. intros s2 Hs2. apply appends_ok. change (ahead s2).
  destruct b; [by eapply NotifyOne_order|by simplify_eq].
Qed.

Lemma Lock_loop_order b s : ahead s → appends (Lock_loop b f s).
Proof using Hf.
  intros Ha. unfold Lock_loop. destruct (locked_ s); [|by apply appends_ok]. cbv zeta. apply appends_bind.
  intros [[e|] s1] Hs1; apply check_order in Hs1; try done; [by apply Lock_throw_order|by apply appends_ok].
Qed.

Lemma leave_order k thrown s : ahead s → appends (leave k f thrown s).
Proof using Hf.
  intros Ha. destruct k as [|tm d|c sv|g sv|g|b|]; cbn [leave].
  - by apply appends_ok.
  - apply appends_bind. intros h _. by apply appends_ok.
  - destruct thrown; [apply appends_fail|by apply appends_ok].
  - destruct thrown; [apply appends_fail|by apply appends_ok].
  - apply appends_bind. intros G _. by apply appends_ok.
  - destruct thrown; [by apply Lock_throw_order|]. apply appends_bind.
    intros s1 Hs1%Wait_end_order; [|done]. by apply Lock_loop_order.
  - apply appends_bind. intros s1 Hs1%Wait_end_order; [|done].
    destruct thrown; [by apply appends_ok|by apply Lock_loop_order].
Qed.

Lemma cleanup_order k s : ahead s → ahead (cleanup k s).
Proof. by destruct k. Qed.

Lemma Resume_order k s : ahead s → appends (Resume k f s).
Proof using Hf.
  intros Ha. unfold Resume. apply appends_bind. intros [r s1] Hs1%check_order; [|done].
  by apply leave_order, cleanup_order.
Qed.

Lemma Park_order k s : ahead s → appends (Park k f s).
Proof using Hf.
  intros Ha. unfold Park. apply appends_bind. intros [[e|] s1] Hs1%check_order; [|done| |done].
  - by apply leave_order, cleanup_order.
  - by apply appends_ok.
Qed.

Lemma Unlock_order s : ahead s → appends (Unlock_ f s).
Proof.
  intros Ha. unfold Unlock_. destruct (locked_ s); [|apply appends_fail]. apply appends_bind.
  intros s1 Hs1%NotifyOne_order; [|done]. by apply appends_ok.
Qed.

Lemma Cancels_order l s : ahead s → appends (forO Cancel l s).
Proof.
  revert s. induction l as [|j l IH]; intros s Ha; cbn [forO]; [by apply appends_ok|].
  apply appends_bind. intros s1 Hs1%Cancel_order; [|done]. by apply IH.
Qed.

Lemma destroy_order c g s : ahead s → appends (Fiber_destroy c f s) ∧ appends (Group_destroy g f s).
Proof using Hf.
  intros Ha. split.
  - unfold Fiber_destroy. apply appends_bind. intros y _.
    destruct (state_ y); try (by apply appends_ok); (apply appends_bind; intros s1 Hs1%Cancel_order; [|done];
      apply appends_bind; intros x _; unfold Join; apply appends_bind; intros z _;
      destruct (waiter_ z); [apply appends_fail|by apply Park_order]).
  - unfold Group_destroy. apply appends_bind. intros G _. destruct (fibers_ G); [by apply appends_ok|].
    cbv zeta. apply appends_bind. intros s1 Hs1%Cancels_order; [|done]. apply appends_bind. intros x _.
    by apply Park_order.
Qed.

Lemma Run_end_order r s : ahead s → appends (Run_end r f s).
Proof.
  intros Ha. unfold Run_end. apply appends_bind. intros x _. cbv zeta. destruct (match r with Returned => _ | _ => _ end);
    [|apply appends_fail]. apply appends_bind. intros s1 Hs1%Unpark_opt_order; [|done].
  unfold Cleanup. destruct (group_ x); [|by apply appends_ok]. apply appends_bind. intros s2 Hs2%OnFinished_order; [|done].
  by apply appends_ok.
Qed.

Lemma exec_order c s : ahead s → appends (exec c f s).
Proof using Hf.
  intros Ha. destruct c as [|tm d|c|c|g w|g c|g|g| | | | | |tm d|tm|b|b|d|res]; cbn [exec]; try (by apply appends_ok).
  - unfold Yield_. apply appends_bind. intros s1 Hs1%Unpark_order; [|done]. by apply Park_order.
  - unfold SleepUntil. apply appends_bind. intros h _. by apply Park_order.
  - by apply Unpark_order.
  - by apply (destroy_order c 0).
  - unfold DoSpawn. apply appends_bind. intros G _. apply appends_bind. intros s1 Hs1%Unpark_order; [|done].
    by apply appends_ok.
  - by apply (destroy_order 0 g).
  - unfold Wait. apply appends_bind. intros G _.
    destruct (first_error_ G), (fibers_ G), (group_waiter_ G); try (by apply appends_ok); [apply appends_fail|].
    by apply Park_order.
  - by apply Lock_loop_order.
  - by apply Unlock_order.
  - unfold CondVar_wait. apply appends_bind. intros s1 Hs1%Unlock_order; [|done]. by apply Park_order.
  - by apply NotifyOne_order.
  - by apply NotifyAll_order.
  - unfold TimeoutGuard_new. apply appends_bind. intros h _. by apply appends_ok.
  - unfold Timer_destroy. apply appends_bind. intros h _. by apply appends_ok.
  - by apply Run_end_order.
Qed.

Lemma RunTimers_order n s : ahead s → appends (RunTimers n s).
Proof.
  revert s. induction n as [|n IH]; intros s Ha; cbn [RunTimers]; [apply appends_fail|].
  destruct (TimerHeap.GetMin _) as [tm|]; [|by apply appends_ok]. apply appends_bind. intros d _.
  destruct (d <? now_ s)%Z; [|by apply appends_ok]. apply appends_bind. intros h _.
  apply appends_bind. intros s1 Hs1. apply IH. unfold OnExpired in Hs1.
  destruct (timer_of _ !! tm) as [[j [|]]|]; [| |done].
  - eapply Unpark_order; [|exact Hs1]. done.
  - eapply NotifyTimeout_order; [|exact Hs1]. done.
Qed.

Lemma RunFiber_order s : ahead s → appends (RunFiber f s).
Proof using Hf.
  intros Ha. unfold RunFiber. apply appends_bind. intros x _.
  destruct (state_ x), (this_fiber s); try apply appends_fail; cbv zeta;
    (destruct (at_ x); try apply appends_fail; [by apply appends_ok|by apply Resume_order]).
Qed.

End Order.

(** *** How a wait ends *)

(** What the fiber [f] that was parked at [k] in [s] finds when it goes on, in [s']. *)
Definition wait_result (f : nat) (x : FiberImpl) (k : kont) (s s' : sched) (x' : FiberImpl) : Prop :=
  let locked_or_waits b :=
    locked_ s = false ∧ at_ x' = User Returned ∧ guard_locked_ x' = true ∨
    locked_ s = true ∧ at_ x' = Parked (Locking b) in
  match thrown_by x (where_of k) with
  | Some e => at_ x' = User (Threw e)
  | None =>
      match k with
      | Yielding => at_ x' = User Returned
      | InSleep _ d => at_ x' = User Returned ∧ (d < now_ s)%Z
      | Joining c sv =>
          at_ x' = User Returned ∧ cancel_guarded_ x' = sv ∧
          ∃ y y', fibers s !! c = Some y ∧ state_ y = Dead ∧ fibers s' !! c = Some y' ∧ deleted y' = true
      | GroupJoining g sv =>
          at_ x' = User Returned ∧ cancel_guarded_ x' = sv ∧
          ∃ G, groups s !! g = Some G ∧ fibers_ G = [] ∧ groups s' !! g = None
      | GroupWaiting g =>
          ∃ G, groups s !! g = Some G ∧
            match first_error_ G with
            | Some e => at_ x' = User (Threw e)
            | None => at_ x' = User Returned ∧ fibers_ G = []
            end
      | Locking b => locked_or_waits b
      | CondWaiting => locked_or_waits true
      end
  end.

Lemma return_at f r s x : fibers s !! f = Some x → fibers (return_ f r s) !! f = Some (set_at (User r) x).
Proof. apply upd_lookup. Qed.

Lemma NotifyOne_at q f s x r s' :
  core s → fibers s !! f = Some x → at_ x = User r → NotifyOne q s = Ok s' → fibers s' !! f = Some x.
Proof.
  intros Hc Hx Hr Hs. destruct (NotifyOne_ok q s Hc) as (s1&Hs1&_&Hk&_). rewrite Hs in Hs1. injection Hs1 as <-. by eapply keeps_user.
Qed.

(** [Lock_loop] for a fiber with nothing to throw. *)
Lemma Lock_loop_at b f s x s' :
  fibers s !! f = Some x → deleted x = false → (f ∉ run_queue_ s) → (∀ w, thrown_by x w = None) → Lock_loop b f s = Ok s' →
  ∃ x', fibers s' !! f = Some x' ∧
    (locked_ s = false ∧ at_ x' = User Returned ∧ guard_locked_ x' = true ∨
     locked_ s = true ∧ at_ x' = Parked (Locking b)).
Proof.
  intros Hx Hd Hq Hth Hs. unfold Lock_loop in Hs. destruct (locked_ s) eqn:Hl.
  - set (s1 := upd f (set_wakeup false) _) in Hs.
    assert (fibers s1 !! f = Some (set_wakeup false x)) as Hx1 by (by apply upd_lookup).
    rewrite (check_ok f _ s1 (set_wakeup false x)) in Hs by done.
    change (thrown_by (set_wakeup false x) ?w) with (thrown_by x w) in Hs. rewrite Hth in Hs. cbn [bindO] in Hs.
    injection Hs as <-. exists (set_at (Parked (Locking b)) (set_wakeup false x)). split; [by apply (upd_lookup f _ s1)|].
    by right.
  - injection Hs as <-. eexists. split; [|left].
    + apply return_at. by apply upd_lookup.
    + done.
Qed.

Lemma thrown_none x w w' : thrown_by x w = None → thrown_by x w' = None.
Proof. unfold thrown_by. by destruct (cancel_guarded_ x), (canceled_ x), (timedout_ x). Qed.

Lemma Wait_end_same q f thrown s s' :
  Wait_end q f thrown s = Ok s' → thrown = None →
  locked_ s' = locked_ s ∧ run_queue_ s' = run_queue_ s.
Proof.
  intros (x&_&(s1&Hs1&Hs)%bindO_inv)%bindO_inv ->. simplify_eq. by destruct q.
Qed.

Lemma leave_result f rest x k s s' :
  inv s → this_fiber s = None → run_queue_ s = f :: rest → fibers s !! f = Some x → at_ x = Parked k →
  leave k f (thrown_by x (where_of k)) (cleanup k (resumed f rest x s)) = Ok s' →
  ∃ x', fibers s' !! f = Some x' ∧ wait_result f x k s s' x'.
Proof.
  intros Hi Ht Hq Hx Ha Hs. destruct (resume_facts f rest x k s Hi Ht Hq Hx Ha) as (Hc&Hn&_&_&_&Hko&Hwk&_).
  pose proof (resumed_fibers f rest x s Hx) as Hf. set (s2 := resumed f rest x s) in *.
  assert (fibers s2 !! f = Some (set_at (User Returned) (checked x))) as Hx2 by (by rewrite Hf, lookup_insert_eq).
  assert (∀ w, thrown_by x w = None → interrupted x → False) as Hint.
  { intros w Hth [e He]%(thrown_interrupted x w). congruence. }
  assert (∀ q : wait_queue, queue_kont q k = true → ∃ s3, Wait_end q f (thrown_by x (where_of k)) s2 = Ok s3 ∧
    core s3 ∧ fibers s3 !! f = Some (set_at (User Returned) (checked x))) as Hend.
  { intros q Hqk. destruct (Wait_end_ok q k f x rest (thrown_by x (where_of k)) s) as (s3&?&?&?&_); [done..|]. eauto. }
  destruct (checked_alike x) as (_&_&_&_&_&_&Hcd).
  assert (deleted x = false) as Hdel.
  { destruct (queue_head s f rest Hc Hq) as (_&_&x0&Hx0&_&?&_). congruence. }
  assert (∀ b s3, core s3 → thrown_by x (where_of k) = None → Lock_loop b f s3 = Ok s' →
    fibers s3 !! f = Some (set_at (User Returned) (checked x)) → locked_ s3 = locked_ s → run_queue_ s3 = rest →
    ∃ x', fibers s' !! f = Some x' ∧
    (locked_ s = false ∧ at_ x' = User Returned ∧ guard_locked_ x' = true ∨
     locked_ s = true ∧ at_ x' = Parked (Locking b))) as Hlock.
  { intros b s3 Hc3 Hth Hs3 Hx3 <- Hq3. rewrite (checked_none x _ Hth) in Hx3. eapply Lock_loop_at; [exact Hx3|done| | |done].
    - by rewrite Hq3.
    - intros w. by apply (thrown_none x (where_of k)). }
  unfold wait_result. destruct k as [|tm d|c sv|g sv|g|b|]; cbn [leave cleanup] in Hs.
  - injection Hs as <-. eexists. split; [by apply return_at|]. by destruct (thrown_by x _).
  - apply bindO_inv in Hs as (h&_&Hs). injection Hs as <-. eexists. split; [by apply return_at|].
    destruct (thrown_by x _) eqn:Hth; [done|]. split; [done|]. destruct Hko as [_ Hdl]. destruct Hwk as [Hna|Hin].
    + destruct Hdl as [?|[_ ?]]; [congruence|done].
    + by destruct (Hint _ Hth Hin).
  - destruct Hko as (Hgd&y&Hy&_). destruct Hwk as (y0&Hy0&Hfin). rewrite Hy in Hy0. injection Hy0 as <-.
    assert (c ≠ f) as Hne by (intros ->; rewrite Hx in Hy; injection Hy as <-; unfold fin in Hfin; by rewrite Ha in Hfin).
    destruct (thrown_by x _) as [e|]; [done|]. injection Hs as <-. eexists. split.
    { apply return_at, upd_lookup. cbn. repeat (rewrite lookup_alter_eq || rewrite lookup_alter_ne by done). by rewrite Hx. }
    split_and!; [done|done|]. exists y, (set_deleted true (set_waiter None y)). split_and!; [done| | |done].
    + by apply (f_dead _ _ _ (c_fiber s Hc c y Hy)).
    + cbn. repeat (rewrite lookup_alter_eq || rewrite lookup_alter_ne by done). by rewrite Hy.
  - destruct Hwk as (G&HG&Hfs). destruct (thrown_by x _) as [e|]; [done|]. injection Hs as <-. eexists. split.
    { apply return_at, upd_lookup. exact Hx2. }
    split_and!; [done|done|]. exists G. split_and!; [done|done|]. cbn. by rewrite lookup_delete_eq.
  - apply bindO_inv in Hs as (G&HG&Hs). injection Hs as <-. eexists. split; [by apply return_at|].
    destruct (thrown_by x _) eqn:Hth; [done|]. destruct Hko as (G0&HG0&_). exists G0. split; [done|].
    unfold deref_group in HG. cbn in HG. rewrite lookup_alter_eq, HG0 in HG. cbn in HG. injection HG as <-. cbn.
    destruct (first_error_ G0) as [e|] eqn:He; [done|]. split; [done|].
    destruct Hwk as [(G1&HG1&Hor)|Hin]; [|by destruct (Hint _ Hth Hin)]. rewrite HG0 in HG1. injection HG1 as <-.
    destruct Hor as [?|[e ?]]; [done|congruence].
  - destruct (Hend Lockers eq_refl) as (s3&Hs3&Hc3&Hx3). destruct (thrown_by x _) as [e|] eqn:Hth.
    + unfold Lock_throw in Hs. rewrite Hs3 in Hs. cbn [bindO] in Hs. apply bindO_inv in Hs as (s4&Hs4&Hs).
      injection Hs as <-. eexists. split; [apply return_at|done].
      destruct b; [|by simplify_eq]. eapply (NotifyOne_at CondWaiters); [exact Hc3|exact Hx3|done|done].
    + rewrite Hs3 in Hs. cbn [bindO] in Hs. destruct (Wait_end_same _ _ _ _ _ Hs3 eq_refl) as [Hl3 Hq3].
      by apply (Hlock b s3).
  - destruct (Hend CondWaiters eq_refl) as (s3&Hs3&Hc3&Hx3). rewrite Hs3 in Hs. cbn [bindO] in Hs.
    destruct (thrown_by x _) as [e|] eqn:Hth.
    + injection Hs as <-. eexists. split; [apply return_at, Hx3|done].
    + destruct (Wait_end_same _ _ _ _ _ Hs3 eq_refl) as [Hl3 Hq3]. by apply (Hlock true s3).
Qed.

(** ** Properties *)

(** The number of rounds of the loop in a run; a fiber runs between two of them. *)
Inductive runs : nat → sched → sched → Prop :=
| runs_refl s : runs 0 s s
| runs_step n s s1 s2 : step s s1 → runs n s1 s2 →
    runs (match this_fiber s with Some _ => n | None => S n end) s s2.

Definition at_time (clock : Z) (s : sched) : sched := if time_freezed_ s then s else set_time clock false s.

Lemma RunLoop_body_eq clock s :
  inv s → this_fiber s = None → (time_freezed_ s = true ∨ now_ s <= clock)%Z →
  ∃ s1, RunTimers (S (length (TimerHeap.heap_ (timers_ (at_time clock s))))) (at_time clock s) = Ok s1 ∧
    inv s1 ∧ this_fiber s1 = None ∧ now_ s1 = now_ (at_time clock s) ∧ run_queue_ s `prefix_of` run_queue_ s1 ∧
    (∀ tm d, active s1 !! tm = Some d → (now_ s1 <= d)%Z) ∧
    RunLoop_body clock s = match run_queue_ s1 with [] => Ok s1 | f :: rest => RunFiber f (set_queue rest s1) end.
Proof.
  intros Hi Ht Hclock. unfold RunLoop_body.
  assert ((if time_freezed_ s then Ok s else if (now_ s <=? clock)%Z then Ok (set_time clock false s) else Fail Abort) =
    Ok (at_time clock s) ∧ inv (at_time clock s) ∧ this_fiber (at_time clock s) = None ∧
    run_queue_ (at_time clock s) = run_queue_ s) as (->&Hi1&Ht1&Hq1).
  { unfold at_time. destruct (time_freezed_ s); [done|]. destruct Hclock as [?|Hle]; [done|].
    rewrite (proj2 (Z.leb_le _ _) Hle). split_and!; try done. destruct Hi. split; [by apply set_time_core|done]. }
  cbn [bindO]. set (n := S _). destruct (RunTimers_ok n (at_time clock s) Hi1 Ht1) as (s2&Hs2&Hi2&Hs&Hd); [unfold n; lia|].
  exists s2. rewrite Hs2. split_and!; [done|done|by rewrite (sc_this _ _ Hs)|apply Hs| |done|done].
  eapply (RunTimers_order (run_queue_ s) n (at_time clock s)); [|exact Hs2]. unfold ahead. by rewrite Hq1.
Qed.

Lemma RunLoop_body_ok clock s :
  inv s → this_fiber s = None → (time_freezed_ s = true ∨ now_ s <= clock)%Z → good_call (RunLoop_body clock s).
Proof.
  intros Hi Ht Hclock. destruct (RunLoop_body_eq clock s Hi Ht Hclock) as (s1&_&Hi1&Ht1&_&_&_&->).
  destruct (run_queue_ s1) as [|f rest] eqn:Hq; [by exists s1|]. by apply RunFiber_ok.
Qed.

(** A round whose clock is behind aborts. *)
Lemma RunLoop_body_clock clock s :
  match RunLoop_body clock s with Ok _ => (time_freezed_ s = true ∨ now_ s <= clock)%Z | Fail _ => True end ∧
  (time_freezed_ s = false → (clock < now_ s)%Z → RunLoop_body clock s = Fail Abort).
Proof.
  unfold RunLoop_body. destruct (time_freezed_ s).
  { split; [|done]. match goal with |- match ?o with _ => _ end => destruct o end; [by left|done]. }
  destruct (now_ s <=? clock)%Z eqn:E; cbn [bindO]; [|done]. apply Z.leb_le in E.
  split; [|lia]. match goal with |- match ?o with _ => _ end => destruct o end; [by right|done].
Qed.

Lemma step_inv s s' : inv s → step s s' → inv s'.
Proof.
  intros Hi [clock x Ht Hx Hst Hs|f x r c Ht Hx Hr Ha Hs].
  - pose proof (proj1 (RunLoop_body_clock clock s)) as Hclock. rewrite Hs in Hclock. destruct (RunLoop_body_ok clock s Hi Ht Hclock) as (s1&Hs1&?). congruence.
  - destruct (exec_ok c f s x r Hi Hx Hr Ha) as (s1&Hs1&?). congruence.
Qed.

Lemma make_inv main now : inv (make main now).
Proof.
  split; [|intros _ H; by destruct H]. assert (∀ j x, fibers (make main now) !! j = Some x → j = main ∧ x = new_fiber None) as Hone.
  { intros j x Hj. cbn in Hj. by apply lookup_singleton_Some in Hj as [-> <-]. }
  split; cbn -[fibers].
  - apply NoDup_singleton.
  - intros f ->%list_elem_of_singleton. cbn. rewrite lookup_singleton_eq. eauto.
  - intros f. split; [done|]. intros (x&r&[_ ->]%Hone&Hr). done.
  - intros f x [-> ->]%Hone. split; try done. unfold place_ok. cbn. set_solver.
  - split; [constructor|]. by intros f ?%elem_of_nil.
  - split; [constructor|]. by intros f ?%elem_of_nil.
  - intros f f' x x' [-> ->]%Hone [-> ->]%Hone. done.
  - split; [done|]. intros (f&x&[-> ->]%Hone&?). done.
  - intros g G HG. cbn in HG. by rewrite lookup_empty in HG.
  - split; cbn; [apply TimerHeap.timers_make_wf| |].
    + intros tm [d Hd]. by rewrite lookup_empty in Hd.
    + intros tm f k Hk. by rewrite lookup_empty in Hk.
  - cbn. rewrite lookup_singleton_eq. eauto.
Qed.

Abbreviation reachable := (Prelude.reachable init step).

Lemma reachable_inv s : reachable s → inv s.
Proof.
  intros (s0&(main&now&->)&Hs). pose proof (make_inv main now) as Hi. induction Hs as [|s1 s2 s3 H12 _ IH]; [done|].
  by eapply IH, step_inv.
Qed.
(** A step keeps the order of the queue; a round takes the first fiber out. *)
Lemma step_order s s' i j :
  inv s → step s s' → run_queue_ s !! (match this_fiber s with Some _ => i | None => S i end) = Some j →
  run_queue_ s' !! i = Some j.
Proof.
  intros Hi [clock x Ht Hx Hst Hs|f x r c Ht Hx Hr Ha Hs]; rewrite Ht; intros Hj.
  - pose proof (proj1 (RunLoop_body_clock clock s)) as Hclock. rewrite Hs in Hclock. destruct (RunLoop_body_eq clock s Hi Ht Hclock) as (s1&_&[Hc1 _]&_&_&[l Hl]&_&Heq). rewrite Heq in Hs.
    destruct (run_queue_ s) as [|f rest] eqn:Hq; [done|]. cbn in Hl. rewrite Hl in Hs.
    pose proof (c_queue s1 Hc1) as Hnd. rewrite Hl in Hnd. apply NoDup_cons in Hnd as [Hn _].
    eapply (RunFiber_order f (rest ++ l)) in Hs; [|done|by exists []; cbn; rewrite app_nil_r].
    eapply prefix_lookup_Some; [|exact Hs]. cbn in Hj. by apply lookup_app_l_Some.
  - destruct Hi as [Hc _]. destruct (core_running s f x r Hc Hx Hr) as (_&_&_&Hnq&_).
    eapply (exec_order f (run_queue_ s)) in Hs; [|done|by exists []; rewrite app_nil_r].
    by eapply prefix_lookup_Some.
Qed.

Lemma runs_order n s s' j :
  inv s → runs n s s' → run_queue_ s !! n = Some j → inv s' ∧ run_queue_ s' !! 0 = Some j.
Proof.
  intros Hi Hr. induction Hr as [s|n s s1 s2 Hs _ IH]; intros Hj; [done|].
  apply IH; [by eapply step_inv|]. by eapply step_order.
Qed.

(** C24 Every state of the scheduler is safe: the fiber that runs is in the user's code;
    a call that follows the rules of the library returns, and so does a round of the
    loop while the time is frozen or the steady clock is not behind [now_]; so no deleted
    fiber, group or timer is used, no loop runs for ever, and no [CHECK] fails but the one
    for the clock: a round aborts exactly when time is not frozen and the clock is behind
    [now_], which is what a program that calls [FreezeTime], [AdvanceTime] and
    [UnfreezeTime] brings about. *)
Theorem fibers_safe s :
  reachable s →
  (∀ f, this_fiber s = Some f → ∃ x r, fibers s !! f = Some x ∧ deleted x = false ∧ at_ x = User r) ∧
  (∀ f x c, this_fiber s = Some f → fibers s !! f = Some x → allowed c f x s → ∃ s', exec c f s = Ok s') ∧
  (∀ clock, this_fiber s = None →
     ((time_freezed_ s = true ∨ now_ s <= clock)%Z → ∃ s', RunLoop_body clock s = Ok s') ∧
     (time_freezed_ s = false → (clock < now_ s)%Z → RunLoop_body clock s = Fail Abort)).
Proof.
  intros Hi%reachable_inv. pose proof Hi as [Hc _]. split_and!.
  - intros f (x&r&Hx&Hr)%(c_this s Hc). exists x, r. split_and!; [done|by eapply running_deleted|done].
  - intros f x c Ht Hx Ha. apply (c_this s Hc) in Ht as (y&r&Hy&Hr). rewrite Hx in Hy. injection Hy as <-.
    destruct (exec_ok c f s x r Hi Hx Hr Ha) as (s'&?&_). by exists s'.
  - intros clock Ht. split; [|apply RunLoop_body_clock]. intros Hclock.
    destruct (RunLoop_body_ok clock s Hi Ht Hclock) as (s'&?&_). by exists s'.
Qed.

(** C25 At most one fiber has the mutex, and it is locked exactly when one has it.  A
    fiber that waits for it is in its queue until it is notified; and when the mutex is
    free while somebody waits, a fiber that has been notified is in the run queue: no
    wake-up is lost, also when fibers that were notified are cancelled or time out. *)
Theorem fiber_mutex_correct s :
  reachable s →
  (∀ f f' x x', fibers s !! f = Some x → fibers s !! f' = Some x' →
     guard_locked_ x = true → guard_locked_ x' = true → f = f') ∧
  (locked_ s = true ↔ ∃ f x, fibers s !! f = Some x ∧ guard_locked_ x = true) ∧
  (∀ f x b, fibers s !! f = Some x → at_ x = Parked (Locking b) → f ∈ lockers_ s ↔ wakeup x = false) ∧
  (locked_ s = false → lockers_ s ≠ [] →
     ∃ f x b, f ∈ run_queue_ s ∧ fibers s !! f = Some x ∧ at_ x = Parked (Locking b) ∧ wakeup x = true).
Proof.
  intros [Hc Hn]%reachable_inv. split_and!; [apply (c_unique s Hc)|apply (c_locked s Hc)| |].
  - intros f x b Hx Ha. pose proof (f_place _ _ _ (c_fiber s Hc f x Hx)) as Hp. unfold place_ok in Hp.
    rewrite Ha in Hp. apply Hp.
  - intros Hl Hne. destruct (Hn Hl Hne) as (f&x&b&Hx&Ha&Hw). exists f, x, b. split_and!; try done.
    pose proof (f_place _ _ _ (c_fiber s Hc f x Hx)) as Hp. unfold place_ok in Hp. rewrite Ha in Hp.
    apply Hp. by left.
Qed.

(** A parked fiber is in the run queue, once, exactly when what it waits for has
    happened: its timer has fired, the fiber it joins has ended, the group has become
    empty (or has an error), it has been notified, or it has been cancelled or timed
    out while it can be interrupted. *)
Theorem fibers_woken s f x k :
  reachable s → fibers s !! f = Some x → at_ x = Parked k →
  NoDup (run_queue_ s) ∧ (f ∈ run_queue_ s ↔ woken s x k).
Proof.
  intros [Hc _]%reachable_inv Hx Ha. split; [apply (c_queue s Hc)|].
  pose proof (f_place _ _ _ (c_fiber s Hc f x Hx)) as Hp. unfold place_ok in Hp. rewrite Ha in Hp. apply Hp.
Qed.

(** The fiber at the head of the queue goes on. *)
Lemma RunFiber_result f rest x k s :
  inv s → this_fiber s = None → run_queue_ s = f :: rest → fibers s !! f = Some x → at_ x = Parked k →
  ∃ s' x', RunFiber f (set_queue rest s) = Ok s' ∧ fibers s' !! f = Some x' ∧ wait_result f x k s s' x'.
Proof.
  intros Hi Ht Hq Hx Ha. destruct (RunFiber_ok f rest s Hi Ht Hq) as (s'&Hs'&_).
  destruct Hi as [Hc Hn]. destruct (queue_head s f rest Hc Hq) as (Hnr&_&x0&Hx0&_&Hdel&Hst&_).
  rewrite Hx in Hx0. injection Hx0 as <-. pose proof Hs' as Hs. unfold RunFiber, deref in Hs.
  cbn [fibers set_queue this_fiber] in Hs. rewrite Hx, Hdel, Ht in Hs. cbn [bindO] in Hs.
  assert (∀ A (a : A) b, match state_ x with Dead => a | _ => b end = b) as Hnd by (intros; by destruct (state_ x)).
  rewrite Hnd, Ha, (Resume_spec k f x rest s) in Hs by done.
  destruct (leave_result f rest x k s s') as (x'&Hx'&Hw); [by split|done..|]. by exists s', x'.
Qed.

(** C26 A round of the loop: the time is read, the timers that have expired are run, which
    leads to a state [s1] in which every timer left is still to come, and the first fiber of
    the queue of [s1] goes on, also if it was a timer of this round that woke it.  If that
    fiber is parked, the call it waits in throws what interrupted it, or ends as the call
    promises: a sleep after its deadline, a join when the other fiber is dead (which is then
    deleted), the destructor of a group when it is empty, [WaitGroup::Wait] with the first
    error or when all have ended; and a wait for the mutex ends with the mutex if it is free,
    and waits again if it is locked. *)
Theorem fiber_wait_ends clock s :
  reachable s → this_fiber s = None → (time_freezed_ s = true ∨ now_ s <= clock)%Z →
  ∃ s1, RunTimers (S (length (TimerHeap.heap_ (timers_ s)))) (at_time clock s) = Ok s1 ∧
    now_ s1 = now_ (at_time clock s) ∧ (∀ tm d, active s1 !! tm = Some d → (now_ s1 <= d)%Z) ∧
    match run_queue_ s1 with
    | [] => RunLoop_body clock s = Ok s1
    | f :: rest => ∀ x k, fibers s1 !! f = Some x → at_ x = Parked k →
        ∃ s' x', RunLoop_body clock s = Ok s' ∧ fibers s' !! f = Some x' ∧ wait_result f x k s1 s' x'
    end.
Proof.
  intros Hi%reachable_inv Ht Hclock. destruct (RunLoop_body_eq clock s Hi Ht Hclock) as (s1&Hs1&Hi1&Ht1&Hn&_&Hact&Heq).
  exists s1. split_and!; [|done|done|].
  - assert (timers_ s = timers_ (at_time clock s)) as ->; [|done]. unfold at_time. by destruct (time_freezed_ s).
  - rewrite Heq. destruct (run_queue_ s1) as [|f rest] eqn:Hq; [done|]. intros x k Hx Ha. by apply RunFiber_result.
Qed.

(** C27 Fibers run in the order in which they were woken: the fiber at place [i] of the
    run queue is the one that the loop runs after [i] more rounds, whatever the fibers
    in between do. *)
Theorem fibers_run_in_order s s' i j clock :
  reachable s → run_queue_ s !! i = Some j → runs i s s' → this_fiber s' = None →
  (time_freezed_ s' = true ∨ now_ s' <= clock)%Z →
  ∃ s1 rest, RunTimers (S (length (TimerHeap.heap_ (timers_ s')))) (at_time clock s') = Ok s1 ∧
    run_queue_ s1 = j :: rest ∧ RunLoop_body clock s' = RunFiber j (set_queue rest s1).
Proof.
  intros Hi%reachable_inv Hj Hr Ht Hclock. destruct (runs_order i s s' j Hi Hr Hj) as [Hi' Hj'].
  destruct (RunLoop_body_eq clock s' Hi' Ht Hclock) as (s1&Hs1&_&_&_&[l Hl]&_&Heq).
  destruct (run_queue_ s') as [|j' q]; [done|]. cbn in Hj', Hl. injection Hj' as ->.
  exists s1, (q ++ l). split_and!; [|done|by rewrite Heq, Hl].
  assert (timers_ s' = timers_ (at_time clock s')) as ->; [|done]. unfold at_time. by destruct (time_freezed_ s').
Qed.

(** ** A run: the main fiber takes the mutex and starts two fibers that want it too *)

Module Demo.

Definition get (o : outcome sched) : sched := match o with Ok s => s | Fail _ => make 0 0 end.

Definition round (clock : Z) (s : sched) : sched := get (RunLoop_body clock s).
Definition does (f : nat) (c : call) (s : sched) : sched := get (exec c f s).

Lemma reach_make : reachable (make 0 0).
Proof. exists (make 0 0). split; [by exists 0, 0%Z|done]. Qed.

Lemma reach_step s s' : reachable s → step s s' → reachable s'.
Proof. intros (s0&Hi&Hr) Hs. exists s0. split; [done|]. by eapply rtc_r. Qed.

(** The conditions of a step, as far as they can be computed. *)
Lemma reach_round clock s :
  reachable s → this_fiber s = None →
  match fibers s !! main_fiber_ s with Some x => match state_ x with Dead => false | _ => true end | None => false end = true →
  match RunLoop_body clock s with Ok _ => true | Fail _ => false end = true →
  reachable (round clock s).
Proof.
  intros Hr Ht Hm Ho. apply (reach_step s); [done|]. destruct (fibers s !! main_fiber_ s) as [x|] eqn:Hx; [|done].
  apply (StepLoop _ _ clock x); [done|done|by intros Hd; rewrite Hd in Hm|].
  unfold round. by destruct (RunLoop_body clock s).
Qed.

Lemma reach_call f c s :
  reachable s → this_fiber s = Some f →
  match fibers s !! f with Some x => match at_ x with User _ => true | _ => false end | None => false end = true →
  (∀ x, fibers s !! f = Some x → allowed c f x s) →
  match exec c f s with Ok _ => true | Fail _ => false end = true → reachable (does f c s).
Proof.
  intros Hr Ht Hx Ha Ho. apply (reach_step s); [done|]. destruct (fibers s !! f) as [x|] eqn:Hf; [|done].
  destruct (at_ x) as [|r| |] eqn:Hat; try done. apply (StepCall _ _ f x r c); [done|done|done|by apply Ha|].
  unfold does. by destruct (exec c f s).
Qed.

Definition s1 : sched := round 1 (make 0 0).
Definition s2 : sched := does 0 Yield (does 0 (NewFiber 2) (does 0 (NewFiber 1) (does 0 Lock s1))).
Definition s3 : sched := does 1 Lock (round 2 s2).
Definition s4 : sched := does 2 Lock (round 3 s3).
Definition s5 : sched := does 0 Unlock (round 4 s4).

Ltac calls := repeat first
  [ apply reach_make
  | apply reach_round; [|vm_compute; reflexivity..]
  | apply reach_call; [|vm_compute; reflexivity|vm_compute; reflexivity| |vm_compute; reflexivity] ].

Lemma s2_reach : reachable s2.
Proof.
  unfold s2, s1. calls.
  - intros x [= <-]. done.
  - intros x _. reflexivity.
  - intros x _. reflexivity.
  - done.
Qed.

Lemma s3_step : step s2 (round 2 s2) ∧ step (round 2 s2) s3.
Proof.
  split.
  - eapply (StepLoop _ _ 2); [vm_compute; reflexivity|vm_compute; reflexivity|by vm_compute|vm_compute; reflexivity].
  - eapply (StepCall _ _ 1 _ _ Lock); [vm_compute; reflexivity..].
Qed.

Lemma s4_step : step s3 (round 3 s3) ∧ step (round 3 s3) s4.
Proof.
  split.
  - eapply (StepLoop _ _ 3); [vm_compute; reflexivity|vm_compute; reflexivity|by vm_compute|vm_compute; reflexivity].
  - eapply (StepCall _ _ 2 _ _ Lock); [vm_compute; reflexivity..].
Qed.

Lemma s4_reach : reachable s4.
Proof.
  eapply reach_step; [|apply s4_step]. eapply reach_step; [|apply s4_step].
  eapply reach_step; [|apply s3_step]. eapply reach_step; [|apply s3_step]. apply s2_reach.
Qed.

Lemma s5_reach : reachable s5.
Proof.
  unfold s5. apply reach_call; [|vm_compute; reflexivity|vm_compute; reflexivity| |vm_compute; reflexivity].
  - apply reach_round; [apply s4_reach|vm_compute; reflexivity..].
  - intros x Hx. vm_compute in Hx. injection Hx as <-. reflexivity.
Qed.

Definition s6 : sched := does 0 Yield s5.

Lemma s6_reach : reachable s6.
Proof.
  unfold s6. apply reach_call; [apply s5_reach|vm_compute; reflexivity|vm_compute; reflexivity|done|vm_compute; reflexivity].
Qed.

(** The time is advanced beyond the clock and unfrozen; and the main fiber sleeps. *)
Definition advanced : sched :=
  does 0 Yield (does 0 (FreezeTime false) (does 0 (AdvanceTime 100) (does 0 (FreezeTime true) s1))).
Definition asleep : sched := does 0 (SleepFor 0 5) s1.

Lemma advanced_reach : reachable advanced.
Proof. unfold advanced, s1. calls; intros x _; try exact I. split; [reflexivity|lia]. Qed.

Lemma asleep_reach : reachable asleep.
Proof. unfold asleep, s1. calls. intros x _. by split. Qed.

Definition fiber_of (f : nat) (s : sched) : FiberImpl := default (new_fiber None) (fibers s !! f).

End Demo.

(** A call, a round, and a round whose clock is behind. *)
Lemma fibers_safe_witness :
  (∃ s', exec CondVar_NotifyAll 0 Demo.s5 = Ok s') ∧ (∃ s', RunLoop_body 5 Demo.s6 = Ok s') ∧
  RunLoop_body 5 Demo.advanced = Fail Abort.
Proof.
  split_and!.
  - destruct (fibers_safe Demo.s5 Demo.s5_reach) as (_&Hcall&_).
    apply (Hcall 0 (Demo.fiber_of 0 Demo.s5)); [reflexivity|vm_compute; reflexivity|exact I].
  - destruct (fibers_safe Demo.s6 Demo.s6_reach) as (_&_&Hround). apply (Hround 5%Z); [reflexivity|right; by vm_compute].
  - destruct (fibers_safe Demo.advanced Demo.advanced_reach) as (_&_&Hround). apply (Hround 5%Z); [reflexivity|reflexivity|by vm_compute].
Defined.

Lemma fiber_mutex_correct_witness :
  locked_ Demo.s5 = false ∧ lockers_ Demo.s5 = [2] ∧
  ∃ f x b, f ∈ run_queue_ Demo.s5 ∧ fibers Demo.s5 !! f = Some x ∧ at_ x = Parked (Locking b) ∧ wakeup x = true.
Proof.
  split_and!; [reflexivity|reflexivity|]. destruct (fiber_mutex_correct Demo.s5 Demo.s5_reach) as (_&_&_&Hwake).
  apply Hwake; [reflexivity|by vm_compute].
Defined.

Lemma fibers_woken_witness : 1 ∈ run_queue_ Demo.s5 ∧ (2 ∉ run_queue_ Demo.s5).
Proof.
  split.
  - destruct (fibers_woken Demo.s5 1 (Demo.fiber_of 1 Demo.s5) (Locking false) Demo.s5_reach) as [_ Hw];
      [vm_compute; reflexivity|vm_compute; reflexivity|]. apply Hw. left. vm_compute. reflexivity.
  - destruct (fibers_woken Demo.s5 2 (Demo.fiber_of 2 Demo.s5) (Locking false) Demo.s5_reach) as [_ Hw];
      [vm_compute; reflexivity|vm_compute; reflexivity|]. intros [Hx|[_ [Hx|Hx]]]%Hw; vm_compute in Hx; discriminate Hx.
Defined.

(** A sleeper, alone, that is woken and goes on in one round. *)
Lemma fiber_wait_ends_witness :
  run_queue_ Demo.asleep = [] ∧
  ∃ s' x', RunLoop_body 10 Demo.asleep = Ok s' ∧ fibers s' !! 0 = Some x' ∧ at_ x' = User Returned.
Proof.
  split; [vm_compute; reflexivity|].
  destruct (fiber_wait_ends 10 Demo.asleep Demo.asleep_reach) as (s1&Hs1&_&_&H); [reflexivity|right; by vm_compute|].
  assert (∃ s2, RunTimers (S (length (TimerHeap.heap_ (timers_ Demo.asleep)))) (at_time 10 Demo.asleep) = Ok s2 ∧
    run_queue_ s2 = [0] ∧ (at_ <$> fibers s2 !! 0) = Some (Parked (InSleep 0 6)) ∧
    (∀ x, fibers s2 !! 0 = Some x → thrown_by x (where_of (InSleep 0 6)) = None)) as (s2&Hs2&Hq&Ha&Hth).
  { eexists. split_and!; [vm_compute; reflexivity|vm_compute; reflexivity|vm_compute; reflexivity|].
    intros x Hx. vm_compute in Hx. injection Hx as <-. reflexivity. }
  rewrite Hs1 in Hs2. injection Hs2 as ->. rewrite Hq in H. destruct (fibers s2 !! 0) as [x|] eqn:Hx; [|discriminate].
  injection Ha as Ha. destruct (H x (InSleep 0 6) eq_refl Ha) as (s'&x'&Hs&Hx'&Hw). exists s', x'. split_and!; [exact Hs|exact Hx'|].
  unfold wait_result in Hw. rewrite (Hth x eq_refl) in Hw. exact (proj1 Hw).
Defined.

Lemma fibers_run_in_order_witness :
  run_queue_ Demo.s2 = [1; 2; 0] ∧
  ∃ s1 rest, run_queue_ s1 = 0 :: rest ∧ RunLoop_body 4 Demo.s4 = RunFiber 0 (set_queue rest s1).
Proof.
  split; [vm_compute; reflexivity|].
  destruct (fibers_run_in_order Demo.s2 Demo.s4 2 0 4 Demo.s2_reach) as (s1&rest&_&Hq&Heq).
  - vm_compute. reflexivity.
  - apply (runs_step 1 Demo.s2 (Demo.round 2 Demo.s2)); [apply Demo.s3_step|].
    apply (runs_step 1 (Demo.round 2 Demo.s2) Demo.s3); [apply Demo.s3_step|].
    apply (runs_step 0 Demo.s3 (Demo.round 3 Demo.s3)); [apply Demo.s4_step|].
    apply (runs_step 0 (Demo.round 3 Demo.s3) Demo.s4); [apply Demo.s4_step|]. constructor.
  - vm_compute. reflexivity.
  - right. by vm_compute.
  - exists s1, rest. by split.
Defined.
