(* ===== verification/NameStrings.v ===== *)
(** * The checker of names: strings, words and patterns (clang-fun/checker)

    [LevenshteinDistance] and [SplitIntoWords] of string_utils.cpp and the patterns of
    names of naming_rules_violation.h, which are regular expressions.

    The distance is shown to be the least number of single-character edits, the words
    of a name to be its parts, and the regular expressions to accept exactly the names
    that the rules of the readme describe. *)

From S2P Require Import Prelude.

#[local] Set Warnings "-clear-no-such-hyp".

Module StringUtils.

(** [std::tolower] of a [char] in the C locale; a negative argument is undefined. *)
Definition tolower (c : ascii) : outcome ascii :=
  let n := N_of_ascii c in
  if (128 <=? n)%N then Fail UB
  else if (65 <=? n)%N && (n <=? 90)%N then Ok (ascii_of_N (n + 32)) else Ok c.

Definition at_ {A} (l : list A) (i : nat) : outcome A :=
  match l !! i with Some x => Ok x | None => Fail UB end.

Definition set_ {A} (i : nat) (x : A) (l : list A) : outcome (list A) :=
  if i <? length l then Ok (<[i := x]> l) else Fail UB.

(** The body of the inner loop. *)
Definition inner_body (first_str second_str : bytes) (prew_row : list Z) (j i : nat) (current_row : list Z)
    : outcome (list Z) :=
  s <-? at_ second_str j ;; f <-? at_ first_str (i - 1) ;;
  s <-? tolower s ;; f <-? tolower f ;;
  diag <-? at_ prew_row (i - 1) ;;
  let substitution_cost := if decide (s = f) then diag else u32 (diag + 1) in
  above <-? at_ prew_row i ;;
  left <-? at_ current_row (i - 1) ;;
  set_ i (Z.min (Z.min substitution_cost (u32 (above + 1))) (u32 (left + 1))) current_row.

(** The body of the outer loop; the rows are swapped at its end. *)
Definition outer_body (first_str second_str : bytes) (j : nat) (rows : list Z * list Z)
    : outcome (list Z * list Z) :=
  let '(prew_row, current_row) := rows in
  current_row <-? set_ 0 (u32 (Z.of_nat (j + 1))) current_row ;;
  current_row <-? forO (inner_body first_str second_str prew_row j) (seq 1 (length first_str)) current_row ;;
  Ok (current_row, prew_row).

Definition LevenshteinDistance (first_str second_str : bytes) : outcome Z :=
  let prew_row := (λ i, u32 (Z.of_nat i)) <$> seq 0 (length first_str + 1) in
  let current_row := replicate (length first_str + 1) 0%Z in
  rows <-? forO (outer_body first_str second_str) (seq 0 (length second_str)) (prew_row, current_row) ;;
  at_ rows.1 (length rows.1 - 1).

(** A [std::string_view] into [name]: where it starts, and its size. *)
Definition view : Type := nat * nat.

Definition substr (name : bytes) (v : view) : bytes := take v.2 (drop v.1 name).

Definition is_upper (c : ascii) : bool := (65 <=? N_of_ascii c)%N && (N_of_ascii c <=? 90)%N.

(** [name.find('_', cur_pos)] *)
Fixpoint find_underscore (l : bytes) (pos : nat) : option nat :=
  match l with
  | [] => None
  | c :: l => if decide (c = "_"%char) then Some pos else find_underscore l (S pos)
  end.
Definition find (name : bytes) (cur_pos : nat) : option nat := find_underscore (drop cur_pos name) cur_pos.

Fixpoint snake_loop (fuel : nat) (name : bytes) (cur_pos : nat) (res : list view) : outcome (list view) :=
  match fuel with
  | O => Fail Fuel
  | S fuel =>
      match find name cur_pos with
      | Some found_pos => snake_loop fuel name (found_pos + 1) (res ++ [(cur_pos, found_pos - cur_pos)])
      | None => Ok (if cur_pos <? length name then res ++ [(cur_pos, length name - cur_pos)] else res)
      end
  end.

(** The loop that cuts before capital letters: [start_pos] and the words so far. *)
Definition camel_body (name : bytes) (cur_pos : nat) (st : nat * list view) : outcome (nat * list view) :=
  let '(start_pos, res) := st in
  c <-? at_ name cur_pos ;;
  Ok (if is_upper c
      then (cur_pos, if start_pos <? cur_pos then res ++ [(start_pos, cur_pos - start_pos)] else res)
      else (start_pos, res)).

(** The loop that puts single capitals together: the word that is being collected, and
    the words so far. *)
Definition merge_body (name : bytes) (word : view) (st : option nat * nat * list view)
    : option nat * nat * list view :=
  let '(word_start, word_size, res) := st in
  match substr name word with
  | [c] =>
      if is_upper c
      then (Some (default word.1 word_start), word_size + 1, res)
      else match word_start with
           | Some start => (None, 0, res ++ [(start, word_size); word])
           | None => (None, word_size, res ++ [word])
           end
  | _ =>
      match word_start with
      | Some start => (None, 0, res ++ [(start, word_size); word])
      | None => (None, word_size, res ++ [word])
      end
  end.

Definition merge (name : bytes) (tmp : list view) : list view :=
  let '(word_start, word_size, res) := foldl (λ st word, merge_body name word st) (None, 0, []) tmp in
  match word_start with Some start => res ++ [(start, word_size)] | None => res end.

Definition SplitIntoWords (name : bytes) : outcome (list view) :=
  match find name 0 with
  | Some _ => snake_loop (S (length name)) name 0 []
  | None =>
      st <-? forO (camel_body name) (seq 0 (length name)) (0, []) ;;
      Ok (merge name (st.2 ++ [(st.1, length name - st.1)]))
  end.

(** The words themselves. *)
Definition words (name : bytes) : outcome (list bytes) :=
  views <-? SplitIntoWords name ;; Ok (substr name <$> views).

Example words_snake_example : words (str "foo_bar_") = Ok [str "foo"; str "bar"].
Proof. vm_compute. reflexivity. Qed.
Example words_camel_example : words (str "CreateASTMatcher") = Ok [str "Create"; str "AST"; str "Matcher"].
Proof. vm_compute. reflexivity. Qed.
Example distance : LevenshteinDistance (str "kitten") (str "Sitting") = Ok 3%Z.
Proof. vm_compute. reflexivity. Qed.


(** ** The distance between two strings *)

Section Edits.

Context {A : Type} `{!EqDecision A}.

(** One edit: a character is replaced, deleted or inserted. *)
Inductive edit1 : list A → list A → Prop :=
| edit_replace l c d r : edit1 (l ++ c :: r) (l ++ d :: r)
| edit_delete l c r : edit1 (l ++ c :: r) (l ++ r)
| edit_insert l c r : edit1 (l ++ r) (l ++ c :: r).

Definition distance_is (n : nat) (a b : list A) : Prop :=
  nsteps edit1 n a b ∧ ∀ m, nsteps edit1 m a b → n ≤ m.

(** Edits from left to right. *)
Inductive align : nat → list A → list A → Prop :=
| align_nil : align 0 [] []
| align_keep c a b n : align n a b → align n (c :: a) (c :: b)
| align_replace c d a b n : align n a b → align (S n) (c :: a) (d :: b)
| align_delete c a b n : align n a b → align (S n) (c :: a) b
| align_insert d a b n : align n a b → align (S n) a (d :: b).

Lemma edit1_cons c a b : edit1 a b → edit1 (c :: a) (c :: b).
Proof. intros [l x y r|l x r|l x r]; [apply (edit_replace (c :: l))|apply (edit_delete (c :: l))|apply (edit_insert (c :: l))]. Qed.

Lemma edits_cons c n a b : nsteps edit1 n a b → nsteps edit1 n (c :: a) (c :: b).
Proof. induction 1; econstructor; [by apply edit1_cons|done]. Qed.

Lemma align_edits n a b : align n a b → nsteps edit1 n a b.
Proof.
  induction 1.
  - constructor.
  - by apply edits_cons.
  - econstructor; [apply (edit_replace [])|by apply edits_cons].
  - econstructor; [apply (edit_delete [])|done].
  - econstructor; [apply (edit_insert [])|by apply edits_cons].
Qed.

Lemma align_app n m a b a' b' : align n a b → align m a' b' → align (n + m) (a ++ a') (b ++ b').
Proof. intros H ?. induction H; cbn; try constructor; done. Qed.

Lemma align_split n l r b :
  align n (l ++ r) b → ∃ b1 b2 n1 n2, b = b1 ++ b2 ∧ n = n1 + n2 ∧ align n1 l b1 ∧ align n2 r b2.
Proof.
  remember (l ++ r) as a eqn:Ha. intros H. revert l Ha. induction H as [|c a b n H IH|c d a b n H IH|c a b n H IH|d a b n H IH];
    intros l Ha.
  - symmetry in Ha. apply app_eq_nil in Ha as [-> ->]. exists [], [], 0, 0. by repeat constructor.
  - destruct l as [|x l]; cbn in Ha.
    + exists [], (c :: b), 0, n. subst. by repeat constructor.
    + injection Ha as -> Ha. destruct (IH l Ha) as (b1&b2&n1&n2&->&->&?&?). exists (x :: b1), b2, n1, n2. by repeat constructor.
  - destruct l as [|x l]; cbn in Ha.
    + exists [], (d :: b), 0, (S n). subst. by repeat constructor.
    + injection Ha as -> Ha. destruct (IH l Ha) as (b1&b2&n1&n2&->&->&?&?). exists (d :: b1), b2, (S n1), n2. by repeat constructor.
  - destruct l as [|x l]; cbn in Ha.
    + exists [], b, 0, (S n). subst. by repeat constructor.
    + injection Ha as -> Ha. destruct (IH l Ha) as (b1&b2&n1&n2&->&->&?&?). exists b1, b2, (S n1), n2. by repeat constructor.
  - destruct (IH l Ha) as (b1&b2&n1&n2&->&->&?&?). exists (d :: b1), b2, (S n1), n2. by repeat constructor.
Qed.

(** An edit at the front costs at most one. *)
Lemma align_head n c d r b : align n (d :: r) b → (∃ m, m ≤ S n ∧ align m (c :: r) b) ∧ ∃ m, m ≤ S n ∧ align m r b.
Proof.
  remember (d :: r) as a eqn:Ha. intros H. induction H as [|c' a b n H IH|c' d' a b n H IH|c' a b n H IH|d' a b n H IH]; simplify_eq.
  - split; exists (S n); split; try lia; by constructor.
  - split; exists (S n); split; try lia; by constructor.
  - split; [exists (S n)|exists n]; split; try lia; by try constructor.
  - destruct (IH eq_refl) as [(m&?&?) (m'&?&?)]. split; [exists (S m)|exists (S m')]; (split; [lia|by constructor]).
Qed.

Lemma edit1_align n a a' b : edit1 a a' → align n a' b → ∃ m, m ≤ S n ∧ align m a b.
Proof.
  intros [l c d r|l c r|l c r] (b1&b2&n1&n2&->&->&H1&H2)%align_split.
  - destruct (align_head n2 c d r b2 H2) as [(m&?&?) _]. exists (n1 + m). split; [lia|by apply align_app].
  - exists (n1 + S n2). split; [lia|]. apply align_app; [done|by constructor].
  - destruct (align_head n2 c c r b2 H2) as [_ (m&?&?)]. exists (n1 + m). split; [lia|by apply align_app].
Qed.

Lemma edits_align n a b : nsteps edit1 n a b → ∃ m, m ≤ n ∧ align m a b.
Proof.
  induction 1 as [a|n a a' b H _ (m&Hm&Ha)].
  - exists 0. split; [done|]. induction a; by constructor.
  - destruct (edit1_align m a a' b H Ha) as (k&?&?). exists k. split; [lia|done].
Qed.

(** The recurrence. *)
Fixpoint lev (a : list A) : list A → nat :=
  match a with
  | [] => length
  | x :: a' =>
      fix go (b : list A) : nat :=
        match b with
        | [] => S (length a')
        | y :: b' => Nat.min (Nat.min (lev a' b' + (if decide (x = y) then 0 else 1)) (lev a' b + 1)) (go b' + 1)
        end
  end.

Lemma lev_nil_r a : lev a [] = length a.
Proof. by destruct a. Qed.

Lemma lev_cons x a y b :
  lev (x :: a) (y :: b) =
    Nat.min (Nat.min (lev a b + (if decide (x = y) then 0 else 1)) (lev a (y :: b) + 1)) (lev (x :: a) b + 1).
Proof. done. Qed.

Lemma align_all_deleted a : align (length a) a [].
Proof. induction a; by constructor. Qed.

Lemma lev_align a b : align (lev a b) a b.
Proof.
  revert b. induction a as [|x a IH]; intros b.
  - cbn. induction b; by constructor.
  - induction b as [|y b IHb]; [apply (align_all_deleted (x :: a))|]. rewrite lev_cons.
    destruct (Nat.min_spec (Nat.min (lev a b + (if decide (x = y) then 0 else 1)) (lev a (y :: b) + 1)) (lev (x :: a) b + 1))
      as [[_ ->]|[_ ->]].
    + destruct (Nat.min_spec (lev a b + (if decide (x = y) then 0 else 1)) (lev a (y :: b) + 1)) as [[_ ->]|[_ ->]].
      * case_decide as Hxy; [subst; rewrite Nat.add_0_r|rewrite Nat.add_1_r]; by constructor.
      * rewrite Nat.add_1_r. by constructor.
    + rewrite Nat.add_1_r. by constructor.
Qed.

Lemma lev_delete c a b : lev (c :: a) b ≤ S (lev a b).
Proof. destruct b as [|y b]; [by rewrite !lev_nil_r|rewrite lev_cons; lia]. Qed.

Lemma lev_insert d a b : lev a (d :: b) ≤ S (lev a b).
Proof. destruct a as [|x a]; [done|rewrite lev_cons; lia]. Qed.

Lemma align_lev n a b : align n a b → lev a b ≤ n.
Proof.
  induction 1 as [|c a b n H IH|c d a b n H IH|c a b n H IH|d a b n H IH].
  - done.
  - rewrite lev_cons, decide_True by done. lia.
  - rewrite lev_cons. case_decide; lia.
  - pose proof (lev_delete c a b). lia.
  - pose proof (lev_insert d a b). lia.
Qed.

Lemma lev_distance a b : distance_is (lev a b) a b.
Proof.
  split; [apply align_edits, lev_align|]. intros m (k&?&?%align_lev)%edits_align. lia.
Qed.

Lemma edit1_rev a b : edit1 a b → edit1 (rev a) (rev b).
Proof.
  intros [l c d r|l c r|l c r]; rewrite !rev_app_distr; cbn; rewrite <- ?app_assoc; constructor.
Qed.

Lemma distance_rev n a b : distance_is n (rev a) (rev b) → distance_is n a b.
Proof.
  assert (∀ m a b, nsteps edit1 m a b → nsteps edit1 m (rev a) (rev b)) as Hr.
  { intros m. induction m as [|m IH]; intros x y H; inversion H; subst; econstructor; [by apply edit1_rev|by apply IH]. }
  intros [H1 H2]. split.
  - apply Hr in H1. by rewrite !rev_involutive in H1.
  - intros m Hm. by apply H2, Hr.
Qed.

Lemma lev_le a b : lev a b ≤ length a + length b.
Proof.
  apply align_lev. rewrite <- (app_nil_r a) at 2. rewrite <- (app_nil_l b) at 2.
  apply align_app; [apply align_all_deleted|]. induction b; by constructor.
Qed.

End Edits.

Definition lower (c : ascii) : ascii := if is_upper c then ascii_of_N (N_of_ascii c + 32) else c.

Definition is_ascii (c : ascii) : Prop := (N_of_ascii c < 128)%N.

Lemma tolower_ok c : is_ascii c → tolower c = Ok (lower c).
Proof.
  unfold is_ascii, tolower, lower, is_upper. intros Hc. rewrite (proj2 (N.leb_gt _ _) Hc). by destruct (_ && _).
Qed.

Lemma get_at_ok {A} (l : list A) i x : l !! i = Some x → at_ l i = Ok x.
Proof. unfold at_. by intros ->. Qed.

Lemma set_at_ok {A} i (x : A) l : i < length l → set_ i x l = Ok (<[i := x]> l).
Proof. unfold set_. intros Hi. by rewrite (proj2 (Nat.ltb_lt _ _) Hi). Qed.

Section Distance.

Context (first_str second_str : bytes).
Context (Hfirst : Forall is_ascii first_str) (Hsecond : Forall is_ascii second_str).
Context (Hlen : (Z.of_nat (length first_str + length second_str) < 2 ^ 32 - 1)%Z).

Let a : bytes := lower <$> first_str.
Let b : bytes := lower <$> second_str.

(** The cell of the table. *)
Definition cell (i j : nat) : nat := lev (rev (take i a)) (rev (take j b)).

Definition row_is (j : nat) (n : nat) (row : list Z) : Prop :=
  length row = length first_str + 1 ∧ ∀ i, i < n → row !! i = Some (Z.of_nat (cell i j)).

Lemma rev_take_S (l : bytes) i c : l !! i = Some c → rev (take (S i) l) = c :: rev (take i l).
Proof. intros Hc. rewrite (take_S_r _ _ _ Hc), rev_app_distr. done. Qed.

Lemma cell_le i j : i ≤ length first_str → j ≤ length second_str → cell i j ≤ i + j.
Proof.
  intros Hi Hj. unfold cell. etrans; [apply lev_le|]. rewrite !length_rev, !length_take. lia.
Qed.

Lemma cell_0_l j : j ≤ length second_str → cell 0 j = j.
Proof.
  intros Hj. unfold cell. change (length (rev (take j b)) = j). rewrite length_rev, length_take. unfold b. rewrite length_fmap. lia.
Qed.

Lemma cell_0_r i : i ≤ length first_str → cell i 0 = i.
Proof.
  intros Hi. unfold cell. change (lev (rev (take i a)) [] = i). rewrite lev_nil_r, length_rev, length_take. unfold a. rewrite length_fmap. lia.
Qed.

Lemma cell_SS i j f s :
  first_str !! i = Some f → second_str !! j = Some s →
  cell (S i) (S j) =
    Nat.min (Nat.min (cell i j + (if decide (lower f = lower s) then 0 else 1)) (cell i (S j) + 1)) (cell (S i) j + 1).
Proof.
  intros Hf Hs. assert (a !! i = Some (lower f)) as Ha by (unfold a; by rewrite list_lookup_fmap, Hf).
  assert (b !! j = Some (lower s)) as Hb by (unfold b; by rewrite list_lookup_fmap, Hs).
  unfold cell. rewrite (rev_take_S a i (lower f) Ha), (rev_take_S b j (lower s) Hb). apply lev_cons.
Qed.

Lemma inner_ok j i prew row :
  i < length first_str → j < length second_str → row_is j (length first_str + 1) prew → row_is (S j) (S i) row →
  ∃ row', inner_body first_str second_str prew j (S i) row = Ok row' ∧ row_is (S j) (S (S i)) row'.
Proof using Hfirst Hsecond Hlen.
  intros Hi Hj [Hpl Hp] [Hrl Hr]. destruct (lookup_lt_is_Some_2 first_str i Hi) as [f Hf].
  destruct (lookup_lt_is_Some_2 second_str j Hj) as [s Hs].
  assert (is_ascii f) as Haf by (by eapply Forall_lookup_1 in Hf).
  assert (is_ascii s) as Has by (by eapply Forall_lookup_1 in Hs).
  unfold inner_body. replace (S i - 1) with i by lia.
  rewrite (get_at_ok _ _ _ Hs), (get_at_ok _ _ _ Hf). cbn [bindO]. rewrite !tolower_ok by done. cbn [bindO].
  rewrite (get_at_ok _ _ _ (Hp i ltac:(lia))). cbn [bindO]. rewrite (get_at_ok _ _ _ (Hp (S i) ltac:(lia))). cbn [bindO].
  rewrite (get_at_ok _ _ _ (Hr i ltac:(lia))). cbn [bindO]. rewrite set_at_ok by lia.
  eexists. split; [done|]. split; [by rewrite length_insert|]. intros k Hk.
  destruct (decide (k = S i)) as [->|Hne]; [|rewrite list_lookup_insert_ne by done; apply Hr; lia].
  rewrite list_lookup_insert_eq by lia. f_equal.
  pose proof (cell_le i j ltac:(lia) ltac:(lia)). pose proof (cell_le (S i) j ltac:(lia) ltac:(lia)).
  pose proof (cell_le i (S j) ltac:(lia) ltac:(lia)).
  rewrite (cell_SS i j f s), !uwrap_small by (done || lia). repeat case_decide; try congruence; lia.
Qed.

Lemma outer_ok j prew cur :
  j < length second_str → row_is j (length first_str + 1) prew → length cur = length first_str + 1 →
  ∃ prew' cur', outer_body first_str second_str j (prew, cur) = Ok (prew', cur') ∧
    row_is (S j) (length first_str + 1) prew' ∧ length cur' = length first_str + 1.
Proof using Hfirst Hsecond Hlen.
  intros Hj Hp Hc. unfold outer_body. rewrite set_at_ok by lia. cbn [bindO].
  destruct (forO_seq (λ i row, row_is (S j) i row) (inner_body first_str second_str prew j) 1 (length first_str)
    (<[0 := u32 (Z.of_nat (j + 1))]> cur)) as (row&->&Hrow).
  - split; [by rewrite length_insert|]. intros i Hi. replace i with 0 by lia. rewrite list_lookup_insert_eq by lia.
    rewrite uwrap_small, cell_0_l by lia. do 2 f_equal. lia.
  - intros [|i] row Hi Hrow; [lia|]. apply inner_ok; [lia|done|done|done].
  - cbn [bindO]. exists row, prew. split_and!; [done| |apply Hp]. by rewrite Nat.add_comm.
Qed.

Lemma distance_ok : LevenshteinDistance first_str second_str = Ok (Z.of_nat (cell (length first_str) (length second_str))).
Proof using Hfirst Hsecond Hlen.
  unfold LevenshteinDistance.
  destruct (forO_seq (λ j rows, row_is j (length first_str + 1) rows.1 ∧ length rows.2 = length first_str + 1)
    (outer_body first_str second_str) 0 (length second_str)
    ((λ i, u32 (Z.of_nat i)) <$> seq 0 (length first_str + 1), replicate (length first_str + 1) 0%Z))
    as ([prew cur]&->&[[Hl Hp] _]).
  - cbn. split; [|by rewrite length_replicate]. split; [by rewrite length_fmap, length_seq|]. intros i Hi.
    rewrite list_lookup_fmap, lookup_seq_lt by done. cbn. rewrite uwrap_small, cell_0_r by lia. done.
  - intros j [prew cur] Hj [Hp Hc]. destruct (outer_ok j prew cur) as (prew'&cur'&->&?&?); [lia|done|done|].
    by eexists.
  - cbn [bindO fst]. cbn [fst] in Hl, Hp. rewrite Hl. apply get_at_ok. rewrite Hp by lia. do 3 f_equal. lia.
Qed.

Lemma distance_least : distance_is (cell (length first_str) (length second_str)) a b.
Proof.
  apply distance_rev. unfold cell. rewrite !take_ge by (unfold a, b; by rewrite length_fmap). apply lev_distance.
Qed.

End Distance.

(** C29 [LevenshteinDistance] of two ASCII strings, whose lengths together are below
    2^32 - 1, is the least number of replacements, deletions and insertions of one
    character that turn the first string into the second, when the letters are taken in
    lower case; none of its reads and writes is out of range and no cell wraps around. *)
Theorem levenshtein_correct (first_str second_str : bytes) :
  Forall is_ascii first_str → Forall is_ascii second_str →
  (Z.of_nat (length first_str + length second_str) < 2 ^ 32 - 1)%Z →
  ∃ n, LevenshteinDistance first_str second_str = Ok (Z.of_nat n) ∧
    distance_is n (lower <$> first_str) (lower <$> second_str).
Proof. intros H1 H2 H3. eexists. split; [by apply distance_ok|apply distance_least]. Qed.

Lemma levenshtein_correct_witness :
  LevenshteinDistance (str "kitten") (str "Sitting") = Ok 3%Z ∧ distance_is 3 (str "kitten") (str "sitting").
Proof.
  destruct (levenshtein_correct (str "kitten") (str "Sitting")) as (n&Hn&Hd).
  - repeat constructor.
  - repeat constructor.
  - cbn. lia.
  - assert (LevenshteinDistance (str "kitten") (str "Sitting") = Ok 3%Z) as H3 by (vm_compute; reflexivity).
    split; [exact H3|]. rewrite H3 in Hn. replace 3 with n by (injection Hn; lia). exact Hd.
Defined.

(** ** The words of a name *)

(** Parts between underscores. *)
Fixpoint split_at_underscores (l : bytes) : list bytes :=
  match l with
  | [] => [[]]
  | c :: l =>
      if decide (c = "_"%char) then [] :: split_at_underscores l
      else match split_at_underscores l with [] => [[c]] | w :: ws => (c :: w) :: ws end
  end.

(** Without an empty part at the end. *)
Fixpoint trim (ws : list bytes) : list bytes :=
  match ws with [] | [[]] => [] | w :: ws => w :: trim ws end.

Lemma find_underscore_spec l pos :
  match find_underscore l pos with
  | Some p => ∃ w r, l = w ++ "_"%char :: r ∧ p = pos + length w ∧ ("_"%char ∉ w)
  | None => "_"%char ∉ l
  end.
Proof.
  revert pos. induction l as [|c l IH]; intros pos; cbn [find_underscore]; [apply not_elem_of_nil|].
  case_decide as Hc.
  - subst. exists [], l. cbn. split_and!; [done|lia|apply not_elem_of_nil].
  - specialize (IH (S pos)). destruct (find_underscore l (S pos)) as [p|].
    + destruct IH as (w&r&->&->&Hw). exists (c :: w), r. split_and!; [done|cbn; lia|]. apply not_elem_of_cons. by split.
    + apply not_elem_of_cons. by split.
Qed.

Lemma split_no_underscore w : ("_"%char ∉ w) → split_at_underscores w = [w].
Proof.
  induction w as [|c w IH]; intros Hw; [done|]. apply not_elem_of_cons in Hw as [Hc Hw]. cbn.
  rewrite decide_False by done. by rewrite IH.
Qed.

Lemma split_app w r :
  ("_"%char ∉ w) → split_at_underscores (w ++ "_"%char :: r) = w :: split_at_underscores r.
Proof.
  induction w as [|c w IH]; intros Hw; [done|]. apply not_elem_of_cons in Hw as [Hc Hw]. cbn.
  rewrite decide_False by done. by rewrite IH.
Qed.

Lemma split_ne l : split_at_underscores l ≠ [].
Proof.
  destruct l as [|c l]; cbn; [done|]. case_decide; [done|]. by destruct (split_at_underscores l).
Qed.

Lemma trim_cons w ws : ws ≠ [] → trim (w :: ws) = w :: trim ws.
Proof. destruct ws; [done|]. by destruct w. Qed.

Lemma snake_loop_ok fuel name cur res :
  cur ≤ length name → length name - cur < fuel →
  ∃ vs, snake_loop fuel name cur res = Ok (res ++ vs) ∧
    substr name <$> vs = trim (split_at_underscores (drop cur name)).
Proof.
  revert cur res. induction fuel as [|fuel IH]; intros cur res Hcur Hf; [lia|]. cbn [snake_loop]. unfold find.
  pose proof (find_underscore_spec (drop cur name) cur) as Hs. destruct (find_underscore (drop cur name) cur) as [p|].
  - destruct Hs as (w&r&Hd&->&Hw).
    assert (length name - cur = length w + S (length r)) as Hlen by (rewrite <- length_drop, Hd, length_app; done).
    destruct (IH (cur + length w + 1) (res ++ [(cur, cur + length w - cur)])) as (vs&->&Hvs); [lia|lia|].
    exists ((cur, cur + length w - cur) :: vs). split; [by rewrite <- app_assoc|]. rewrite Hd, split_app by done.
    rewrite trim_cons by apply split_ne. cbn. f_equal.
    + unfold substr. cbn. replace (cur + length w - cur) with (length w) by lia. by rewrite Hd, take_app_length.
    + rewrite Hvs. f_equal. f_equal. replace (cur + length w + 1) with (cur + S (length w)) by lia.
      rewrite <- drop_drop, Hd. rewrite drop_app_ge by lia. by replace (S (length w) - length w) with 1 by lia.
  - rewrite split_no_underscore by done. destruct (Nat.ltb_spec cur (length name)).
    + exists [(cur, length name - cur)]. split; [done|]. cbn. unfold substr. cbn.
      rewrite take_ge by (rewrite length_drop; lia). destruct (drop cur name) eqn:He; [|done].
      apply (f_equal length) in He. rewrite length_drop in He. cbn in He. lia.
    + exists []. rewrite app_nil_r. split; [done|]. by rewrite drop_ge.
Qed.

Lemma words_snake_ok name :
  "_"%char ∈ name → words name = Ok (trim (split_at_underscores name)).
Proof.
  intros Hin. unfold words, SplitIntoWords, find. pose proof (find_underscore_spec (drop 0 name) 0) as Hs.
  rewrite drop_0 in *. destruct (find_underscore name 0) as [p|]; [|done].
  destruct (snake_loop_ok (S (length name)) name 0 []) as (vs&->&Hvs); [lia|lia|]. cbn [bindO app].
  rewrite drop_0 in Hvs. by rewrite Hvs.
Qed.

(** The views lie one after the other from [p] to [q]. *)
Fixpoint tiles (p : nat) (vs : list view) (q : nat) : Prop :=
  match vs with [] => p = q | v :: vs => v.1 = p ∧ tiles (p + v.2) vs q end.

Lemma tiles_app p vs ws q : tiles p (vs ++ ws) q ↔ ∃ r, tiles p vs r ∧ tiles r ws q.
Proof.
  revert p. induction vs as [|v vs IH]; intros p; cbn.
  - split; [by eauto|]. by intros (r&->&?).
  - rewrite IH. split; [intros (?&r&?&?); eauto|]. intros (r&(?&?)&?). eauto.
Qed.

Lemma tiles_concat name p vs q :
  tiles p vs q → q ≤ length name → concat (substr name <$> vs) = take (q - p) (drop p name) ∧ p ≤ q.
Proof.
  revert p. induction vs as [|v vs IH]; intros p; cbn.
  - intros -> _. by rewrite Nat.sub_diag.
  - intros [<- Ht] Hq. destruct (IH _ Ht Hq) as [-> Hle]. split; [|lia]. unfold substr.
    rewrite <- drop_drop. replace (q - v.1) with (v.2 + (q - (v.1 + v.2))) by lia.
    rewrite <- (take_drop v.2 (drop v.1 name)) at 3. rewrite take_app_add'; [done|].
    rewrite length_take, length_drop. lia.
Qed.

Definition uppers (name : bytes) (v : view) : Prop := Forall (λ c, is_upper c = true) (substr name v).
Definition capital_at (name : bytes) (p : nat) : Prop := ∃ c, name !! p = Some c ∧ is_upper c = true.

(** A word of capitals, or one with a capital at most at its beginning; only the first
    word of the name need not begin with a capital. *)
Record good_word (name : bytes) (v : view) : Prop := {
  gw_size : 0 < v.2;
  gw_end : v.1 + v.2 ≤ length name;
  gw_kind : uppers name v ∨ ∀ p, v.1 < p < v.1 + v.2 → ¬ capital_at name p;
  gw_start : v.1 = 0 ∨ capital_at name v.1;
}.

Lemma camel_ok name :
  name ≠ [] → ∃ start res, forO (camel_body name) (seq 0 (length name)) (0, []) = Ok (start, res) ∧
    start < length name ∧ (start = 0 ∨ capital_at name start) ∧ (∀ p, start < p < length name → ¬ capital_at name p) ∧
    tiles 0 res start ∧
    ∀ v, v ∈ res → good_word name v ∧ ∀ p, v.1 < p < v.1 + v.2 → ¬ capital_at name p.
Proof.
  intros Hne. destruct (forO_seq (λ cur st,
    (st.1 < cur ∨ cur = 0 ∧ st.1 = 0) ∧ (st.1 = 0 ∨ capital_at name st.1) ∧
    (∀ p, st.1 < p < cur → ¬ capital_at name p) ∧ tiles 0 st.2 st.1 ∧
    ∀ v, v ∈ st.2 → good_word name v ∧ ∀ p, v.1 < p < v.1 + v.2 → ¬ capital_at name p)
    (camel_body name) 0 (length name) (0, [])) as ([start res]&Hs&H1&H2&H3&H4&H5).
  - cbn. split_and!; [by right|by left|lia|done|]. by intros v ?%elem_of_nil.
  - intros cur [start res] Hcur (H1&H2&H3&H4&H5). cbn [fst snd] in *.
    destruct (lookup_lt_is_Some_2 name cur ltac:(lia)) as [c Hc].
    unfold camel_body. rewrite (get_at_ok _ _ _ Hc). cbn [bindO]. destruct (is_upper c) eqn:Hu; eexists; (split; [done|]); cbn [fst snd].
    + assert (capital_at name cur) as Hcap by (by exists c).
      split_and!; [left; lia|by right|lia| |]; (destruct (Nat.ltb_spec start cur) as [Hlt|Hge]; [|replace cur with start by lia; done]).
      * apply tiles_app. exists start. split; [done|]. cbn. split; [done|lia].
      * intros v [Hv|Hv%list_elem_of_singleton]%elem_of_app; [by apply H5|]. subst. cbn.
        assert (∀ p, start < p < start + (cur - start) → ¬ capital_at name p) as Hno by (intros p Hp; apply H3; lia).
        split; [|done]. split; cbn; [lia|lia|by right|done].
    + split_and!; [lia|done| |done|done]. intros p Hp. destruct (decide (p = cur)) as [->|]; [|apply H3; lia].
      intros (c'&Hc'&Hu'). congruence.
  - cbn [fst snd] in *. destruct name as [|c0 name']; [done|]. cbn [length] in *.
    exists start, res. split_and!; [done|lia|done| |done|done]. intros p Hp. apply H3. lia.
Qed.

Lemma substr_length name v : v.1 + v.2 ≤ length name → length (substr name v) = v.2.
Proof. intros Hv. unfold substr. rewrite length_take, length_drop. lia. Qed.

Lemma substr_lookup name v i : i < v.2 → substr name v !! i = name !! (v.1 + i).
Proof. intros Hi. unfold substr. by rewrite lookup_take_lt, lookup_drop by lia. Qed.

(** The collected capitals, as a word. *)
Definition pending (word_start : option nat) (word_size : nat) : list view :=
  match word_start with Some start => [(start, word_size)] | None => [] end.

Definition no_two_uppers (name : bytes) (vs : list view) : Prop :=
  ∀ i v w, vs !! i = Some v → vs !! S i = Some w → ¬ (uppers name v ∧ uppers name w).

Lemma no_two_snoc name vs w :
  no_two_uppers name vs → (∀ v, last vs = Some v → ¬ (uppers name v ∧ uppers name w)) → no_two_uppers name (vs ++ [w]).
Proof.
  intros Hn Hl i v v' Hi Hi'. destruct (decide (S i < length vs)) as [Hlt|Hge].
  - rewrite lookup_app_l in Hi, Hi' by lia. by apply (Hn i).
  - rewrite lookup_app_r in Hi' by lia. apply list_lookup_singleton_Some in Hi' as [Hz <-].
    rewrite lookup_app_l in Hi by lia. apply Hl. rewrite last_lookup. by replace (pred (length vs)) with i by lia.
Qed.

(** What the second loop keeps, after words that end at [p]. *)
Definition merging (name : bytes) (p : nat) (st : option nat * nat * list view) : Prop :=
  let '(word_start, word_size, res) := st in
  tiles 0 (res ++ pending word_start word_size) p ∧
  (∀ v, v ∈ res ++ pending word_start word_size → good_word name v) ∧
  no_two_uppers name (res ++ pending word_start word_size) ∧
  match word_start with
  | Some start => uppers name (start, word_size)
  | None => word_size = 0 ∧ ∀ v, last res = Some v → ¬ uppers name v
  end.

Lemma merging_word name p st word :
  merging name p st → word.1 = p → good_word name word → ¬ uppers name word →
  merging name (p + word.2)
    (match st.1.1 with
     | Some start => (None, 0, st.2 ++ [(start, st.1.2); word])
     | None => (None, st.1.2, st.2 ++ [word])
     end).
Proof.
  destruct st as [[word_start word_size] res]. cbn [fst snd]. intros (Ht&Hg&Hn&Hw) <- Hgw Hnu.
  assert (tiles 0 ((res ++ pending word_start word_size) ++ [word]) (word.1 + word.2)) as Ht'.
  { apply tiles_app. exists word.1. split; [done|]. by cbn. }
  assert (∀ v, v ∈ (res ++ pending word_start word_size) ++ [word] → good_word name v) as Hg'.
  { intros v [Hv|Hv%list_elem_of_singleton]%elem_of_app; [by apply Hg|by subst]. }
  assert (no_two_uppers name ((res ++ pending word_start word_size) ++ [word])) as Hn'.
  { apply no_two_snoc; [done|]. by intros v _ [_ ?]. }
  destruct word_start as [start|]; cbn in Ht', Hg', Hn' |- *; rewrite ?app_nil_r, <- ?app_assoc in *; cbn in *.
  - split_and!; [done|done|done|done|]. intros v. change (res ++ [(start, word_size); word]) with (res ++ [(start, word_size)] ++ [word]).
    rewrite app_assoc, last_snoc.
    intros [= <-]. done.
  - split_and!; [done|done|done|apply Hw|]. intros v. rewrite last_snoc. intros [= <-]. done.
Qed.

Lemma merge_body_ok name p st word :
  merging name p st → word.1 = p → good_word name word →
  (∀ q, word.1 < q < word.1 + word.2 → ¬ capital_at name q) → merging name (p + word.2) (merge_body name word st).
Proof.
  intros Hm Hp Hgw Hno. pose proof (gw_size _ _ Hgw) as Hsz. pose proof (gw_end _ _ Hgw) as Hend.
  pose proof (substr_length name word Hend) as Hl.
  assert (∀ i c, substr name word !! i = Some c → name !! (word.1 + i) = Some c) as Hlook.
  { intros i c Hi. rewrite <- (substr_lookup name word i); [done|]. rewrite <- Hl. by eapply lookup_lt_Some. }
  destruct st as [[word_start word_size] res] eqn:Hst. unfold merge_body.
  destruct (substr name word) as [|c [|c' l]] eqn:Hs.
  - cbn in Hl. lia.
  - destruct (is_upper c) eqn:Hu.
    + cbn in Hl. destruct Hm as (Ht&Hg&Hn&Hw).
      assert (uppers name word) as Huw by (unfold uppers; rewrite Hs; by repeat constructor).
      destruct word_start as [start|]; cbn [default pending] in *.
      * apply tiles_app in Ht as (r&Ht1&Ht2). cbn in Ht2. destruct Ht2 as [-> Hr].
        assert (good_word name (r, word_size)) as Hgs by (apply Hg; set_solver).
        assert (uppers name (r, word_size + 1)) as Hup.
        { unfold uppers, substr. cbn [fst snd].
          rewrite <- take_take_drop, drop_drop. apply Forall_app. split; [exact Hw|].
          replace (r + word_size) with word.1 by lia. unfold uppers, substr in Huw. by rewrite <- Hl in Huw. }
        split_and!; [| | |exact Hup].
        -- apply tiles_app. exists r. split; [done|]. cbn. split; [done|lia].
        -- intros v [Hv|Hv%list_elem_of_singleton]%elem_of_app; [apply Hg; set_solver|]. subst v. destruct Hgs as [? ? ? ?].
           cbn in *. split; cbn; [lia|lia|by left|done].
        -- apply no_two_snoc; [intros i v w Hi Hi'; apply (Hn i); by apply lookup_app_l_Some|].
           intros v Hv [Huv _]. rewrite last_lookup in Hv. apply (Hn (pred (length res)) v (r, word_size)).
           ++ by apply lookup_app_l_Some.
           ++ pose proof (lookup_lt_Some _ _ _ Hv). rewrite lookup_app_r by lia.
              by replace (S (pred (length res)) - length res) with 0 by lia.
           ++ by split.
      * destruct Hw as [-> Hlast]. rewrite app_nil_r in *. assert (word = (word.1, 0 + 1)) as Hweq by (destruct word; cbn in *; by subst).
        split_and!.
        -- apply tiles_app. exists p. split; [done|]. cbn. split; [done|lia].
        -- intros v [Hv|Hv%list_elem_of_singleton]%elem_of_app; [by apply Hg|]. subst v. by rewrite <- Hweq.
        -- apply no_two_snoc; [done|]. intros v Hv [Huv _]. by apply (Hlast v).
        -- by rewrite <- Hweq.
    + assert (¬ uppers name word) as Hnu.
      { unfold uppers. rewrite Hs. intros Hf. inversion Hf; congruence. }
      pose proof (merging_word name p (word_start, word_size, res) word Hm Hp Hgw Hnu) as Hmw. exact Hmw.
  - assert (¬ uppers name word) as Hnu.
    { intros Hf. cbn in Hl. apply (Hno (word.1 + 1)); [lia|]. exists c'. split; [by apply Hlook|].
      unfold uppers in Hf. rewrite Hs in Hf. inversion Hf as [|? ? _ Hf']; subst. by inversion Hf'. }
    pose proof (merging_word name p (word_start, word_size, res) word Hm Hp Hgw Hnu) as Hmw. exact Hmw.
Qed.

Lemma merge_ok name tmp q :
  tiles 0 tmp q →
  (∀ v, v ∈ tmp → good_word name v ∧ ∀ p, v.1 < p < v.1 + v.2 → ¬ capital_at name p) →
  tiles 0 (merge name tmp) q ∧ (∀ v, v ∈ merge name tmp → good_word name v) ∧ no_two_uppers name (merge name tmp).
Proof.
  intros Ht Hg.
  assert (∀ p st, merging name p st → tiles p tmp q → merging name q (foldl (λ st word, merge_body name word st) st tmp)) as Hf.
  { clear Ht. induction tmp as [|w tmp IH]; intros p st Hm Ht; cbn in *; [by subst|]. destruct Ht as [Hp Ht].
    apply (IH ltac:(set_solver) (p + w.2)); [|done]. destruct (Hg w ltac:(set_solver)). by apply merge_body_ok. }
  assert (merging name 0 (None, 0, [])) as H0 by (cbn; split_and!; [done|by intros v ?%elem_of_nil|by intros i|done|done]).
  specialize (Hf 0 _ H0 Ht). unfold merge. destruct (foldl _ _ tmp) as [[ws size] res]. cbn in Hf.
  destruct Hf as (?&?&?&_). destruct ws; [done|]. by rewrite app_nil_r in *.
Qed.

Lemma split_camel_ok name :
  name ≠ [] → ("_"%char ∉ name) →
  ∃ vs, SplitIntoWords name = Ok vs ∧ tiles 0 vs (length name) ∧ (∀ v, v ∈ vs → good_word name v) ∧ no_two_uppers name vs.
Proof.
  intros Hne Hu. unfold SplitIntoWords, find. pose proof (find_underscore_spec (drop 0 name) 0) as Hs. rewrite drop_0 in *.
  destruct (find_underscore name 0) as [p|]; [destruct Hs as (w&r&->&_); set_solver|].
  destruct (camel_ok name Hne) as (start&res&->&Hst&Hcap&Hno&Ht&Hg). cbn [bindO fst snd].
  eexists. split; [done|]. apply merge_ok.
  - apply tiles_app. exists start. split; [done|]. cbn. split; [done|lia].
  - intros v [Hv|Hv%list_elem_of_singleton]%elem_of_app; [by apply Hg|]. subst v. cbn.
    assert (∀ p, start < p < start + (length name - start) → ¬ capital_at name p) as Hno' by (intros p Hp; apply Hno; lia).
    split; [|done]. split; cbn; [lia|lia|by right|done].
Qed.

(** What the words of a name without underscores are. *)
Record camel_words (name : bytes) (ws : list bytes) : Prop := {
  cw_concat : concat ws = name;
  cw_kind : ∀ w, w ∈ ws → w ≠ [] ∧
    (Forall (λ c, is_upper c = true) w ∨ Forall (λ c, is_upper c = false) (tail w));
  cw_start : ∀ i w, ws !! S i = Some w → ∃ c r, w = c :: r ∧ is_upper c = true;
  cw_runs : ∀ i v w, ws !! i = Some v → ws !! S i = Some w →
    ¬ (Forall (λ c, is_upper c = true) v ∧ Forall (λ c, is_upper c = true) w);
}.

Lemma tiles_later vs q i v : tiles 0 vs q → (∀ w, w ∈ vs → 0 < w.2) → vs !! S i = Some v → 0 < v.1.
Proof.
  intros Ht Hpos Hv. destruct vs as [|w vs]; [done|]. cbn in Ht, Hv. destruct Ht as [Hw Ht].
  apply list_elem_of_lookup_2, list_elem_of_split in Hv as (l1&l2&->). apply tiles_app in Ht as (r&Ht1&Ht2).
  cbn in Ht2. destruct Ht2 as [-> _].
  assert (∀ p us q, tiles p us q → p ≤ q) as Hmono.
  { intros p us. revert p. induction us as [|u us IH]; intros p q'; cbn; [lia|]. intros [_ ?%IH]. lia. }
  apply Hmono in Ht1. specialize (Hpos w ltac:(set_solver)). lia.
Qed.

Lemma words_camel_ok name :
  name ≠ [] → ("_"%char ∉ name) → ∃ ws, words name = Ok ws ∧ camel_words name ws.
Proof.
  intros Hne Hu. destruct (split_camel_ok name Hne Hu) as (vs&Hvs&Ht&Hg&Hn).
  exists (substr name <$> vs). split; [unfold words; by rewrite Hvs|].
  assert (∀ v, v ∈ vs → 0 < v.2) as Hpos by (intros v Hv; by apply Hg).
  split.
  - destruct (tiles_concat name 0 vs (length name) Ht) as [-> _]; [done|]. rewrite Nat.sub_0_r, drop_0. by apply take_ge.
  - intros w (v&->&Hv)%list_elem_of_fmap. destruct (Hg v Hv) as [Hs He Hk _].
    pose proof (substr_length name v He) as Hl. split; [intros H; rewrite H in Hl; cbn in Hl; lia|].
    destruct Hk as [?|Hk]; [by left|]. right. apply Forall_lookup. intros i c Hi.
    destruct (substr name v) as [|c0 l] eqn:Hsub; [done|]. cbn in Hi.
    assert (substr name v !! S i = Some c) as Hc by (by rewrite Hsub).
    pose proof (lookup_lt_Some _ _ _ Hi) as Hlt. cbn in Hl. rewrite substr_lookup in Hc by lia.
    destruct (is_upper c) eqn:Hup; [|done]. destruct (Hk (v.1 + S i)); [lia|]. by exists c.
  - intros i w Hw. rewrite list_lookup_fmap in Hw. destruct (vs !! S i) as [v|] eqn:Hv; [|done]. injection Hw as <-.
    pose proof (list_elem_of_lookup_2 _ _ _ Hv) as Hin. destruct (Hg v Hin) as [Hs He _ Hst].
    pose proof (tiles_later vs _ i v Ht Hpos Hv). destruct Hst as [?|(c&Hc&Hup)]; [lia|].
    pose proof (substr_length name v He) as Hl. destruct (substr name v) as [|c0 l] eqn:Hsub; [cbn in Hl; lia|].
    exists c0, l. split; [done|]. assert (substr name v !! 0 = Some c0) as H0 by (by rewrite Hsub).
    rewrite substr_lookup, Nat.add_0_r in H0 by lia. congruence.
  - intros i a b Ha Hb. rewrite list_lookup_fmap in Ha, Hb.
    destruct (vs !! i) as [v|] eqn:Hv; [|done]. destruct (vs !! S i) as [w|] eqn:Hw; [|done]. simplify_eq/=.
    by apply (Hn i).
Qed.

(** The words of a name, with underscores in it or without. *)
Definition name_words (name : bytes) (ws : list bytes) : Prop :=
  if decide ("_"%char ∈ name) then ws = trim (split_at_underscores name) else camel_words name ws.

Lemma split_into_words_ok (name : bytes) : name ≠ [] → ∃ ws, words name = Ok ws ∧ name_words name ws.
Proof.
  intros Hne. unfold name_words. case_decide as Hu; [eexists; split; [by apply words_snake_ok|done]|by apply words_camel_ok].
Qed.

End StringUtils.

(** ** Regular expressions

    The part of the syntax of [std::regex] that the patterns use, and [regex_match],
    by derivatives. *)

Module Regex.

Inductive regex : Type :=
| Nothing
| Epsilon
| Range (lo hi : ascii)
| Seq (r r' : regex)
| Alt (r r' : regex)
| Star (r : regex).

Definition in_range (lo hi c : ascii) : bool :=
  (N_of_ascii lo <=? N_of_ascii c)%N && (N_of_ascii c <=? N_of_ascii hi)%N.

(** [r+], [r?], [r{n,}] and a character. *)
Definition Plus (r : regex) : regex := Seq r (Star r).
Definition Opt (r : regex) : regex := Alt r Epsilon.
Fixpoint AtLeast (n : nat) (r : regex) : regex :=
  match n with O => Star r | S n => Seq r (AtLeast n r) end.
Definition Char (c : ascii) : regex := Range c c.

Fixpoint nullable (r : regex) : bool :=
  match r with
  | Nothing | Range _ _ => false
  | Epsilon | Star _ => true
  | Seq r r' => nullable r && nullable r'
  | Alt r r' => nullable r || nullable r'
  end.

Fixpoint deriv (c : ascii) (r : regex) : regex :=
  match r with
  | Nothing | Epsilon => Nothing
  | Range lo hi => if in_range lo hi c then Epsilon else Nothing
  | Seq r r' => if nullable r then Alt (Seq (deriv c r) r') (deriv c r') else Seq (deriv c r) r'
  | Alt r r' => Alt (deriv c r) (deriv c r')
  | Star r => Seq (deriv c r) (Star r)
  end.

Fixpoint regex_match (s : bytes) (r : regex) : bool :=
  match s with [] => nullable r | c :: s => regex_match s (deriv c r) end.

(** The language of an expression. *)
Inductive matches : regex → bytes → Prop :=
| m_epsilon : matches Epsilon []
| m_range lo hi c : in_range lo hi c = true → matches (Range lo hi) [c]
| m_seq r r' s s' : matches r s → matches r' s' → matches (Seq r r') (s ++ s')
| m_alt_l r r' s : matches r s → matches (Alt r r') s
| m_alt_r r r' s : matches r' s → matches (Alt r r') s
| m_star_nil r : matches (Star r) []
| m_star_app r s s' : matches r s → matches (Star r) s' → matches (Star r) (s ++ s').

#[local] Hint Constructors matches : core.

Lemma nullable_ok r : nullable r = true ↔ matches r [].
Proof.
  induction r as [| |lo hi|r1 IH1 r2 IH2|r1 IH1 r2 IH2|r IH]; cbn.
  - split; [done|]. inversion 1.
  - by split.
  - split; [done|]. inversion 1.
  - rewrite andb_true_iff, IH1, IH2. split; [intros [? ?]; apply (m_seq _ _ [] []); done|].
    inversion 1 as [| |? ? s s' ? ? Heq| | | |]; subst. match goal with H : _ ++ _ = [] |- _ => apply app_eq_nil in H as [-> ->] end. done.
  - rewrite orb_true_iff, IH1, IH2. split; [intros [?|?]; auto|]. inversion 1; auto.
  - by split.
Qed.

Lemma star_cons r c s : matches (Star r) (c :: s) → ∃ s1 s2, s = s1 ++ s2 ∧ matches r (c :: s1) ∧ matches (Star r) s2.
Proof.
  remember (Star r) as q eqn:Hq. remember (c :: s) as t eqn:Ht. intros H. revert s Ht.
  induction H as [| | | | | |r' s1 s2 H1 IH1 H2 IH2]; intros t Ht; try done. injection Hq as ->.
  destruct s1 as [|c' s1]; cbn in Ht; [by apply IH2|]. injection Ht as -> <-. exists s1, s2. done.
Qed.

Lemma deriv_ok c r s : matches (deriv c r) s ↔ matches r (c :: s).
Proof.
  revert s. induction r as [| |lo hi|r1 IH1 r2 IH2|r1 IH1 r2 IH2|r IH]; intros s; cbn.
  - split; inversion 1.
  - split; inversion 1.
  - destruct (in_range lo hi c) eqn:Hin; (split; [|inversion 1; subst; congruence || done]); inversion 1; subst. by constructor.
  - assert (matches (Seq (deriv c r1) r2) s ↔ ∃ s1 s2, s = s1 ++ s2 ∧ matches r1 (c :: s1) ∧ matches r2 s2) as Hd.
    { split.
      - inversion 1; subst. setoid_rewrite <- IH1. eauto.
      - intros (s1&s2&->&?%IH1&?). auto. }
    assert (matches (Seq r1 r2) (c :: s) ↔
      (matches r1 [] ∧ matches r2 (c :: s)) ∨ ∃ s1 s2, s = s1 ++ s2 ∧ matches r1 (c :: s1) ∧ matches r2 s2) as Hs.
    { split.
      - inversion 1 as [| |? ? s1 s2 H1 H2 Heq| | | |]; subst. destruct s1 as [|c' s1]; cbn in *; [by left|].
        match goal with H : _ :: _ = _ :: _ |- _ => injection H as -> <- end. right. eauto.
      - intros [[H1 H2]|(s1&s2&->&H1&H2)]; [apply (m_seq r1 r2 []); done|]. change (c :: s1 ++ s2) with ((c :: s1) ++ s2). auto. }
    rewrite Hs. pose proof (nullable_ok r1) as Hn. destruct (nullable r1).
    + rewrite <- Hd, <- IH2. assert (matches r1 []) by (by apply Hn). split; [inversion 1; subst; auto|]. intros [[_ ?]|?]; auto.
    + rewrite Hd. split; [by right|]. intros [[Hm _]|?]; [by apply Hn in Hm|done].
  - split; inversion 1; subst; (constructor; by apply IH1 || by apply IH2) || (apply m_alt_r; by apply IH2).
  - split.
    + inversion 1; subst. change (c :: ?a ++ ?b) with ((c :: a) ++ b). apply m_star_app; [by apply IH|done].
    + intros (s1&s2&->&?%IH&?)%star_cons. auto.
Qed.

Lemma regex_match_ok s r : regex_match s r = true ↔ matches r s.
Proof.
  revert r. induction s as [|c s IH]; intros r; cbn; [apply nullable_ok|]. by rewrite IH, deriv_ok.
Qed.

End Regex.

(** ** The patterns of names *)

Module Patterns.

Import Regex.

Definition Upper : regex := Range "A" "Z".
Definition Lower : regex := Range "a" "z".

(** The pattern of types without its anchors, which [regex_match] does not need. *)
Definition kTypeNamePattern : regex :=
  Seq (Seq Upper (Seq (Opt (AtLeast 3 Upper)) (Plus Lower)))
    (Seq (Star (Alt (Seq Upper (Plus Lower)) (Seq (AtLeast 4 Upper) (Plus Lower))))
       (Opt (Alt (Seq Upper (Plus Lower)) (AtLeast 3 Upper)))).
Definition kConstPattern : regex := Seq (Char "k") kTypeNamePattern.
Definition kPrivateFieldPattern : regex :=
  Seq (Plus Lower) (Seq (Star (Seq (Char "_") (Plus Lower))) (Char "_")).
Definition kPublicFieldPattern : regex := Seq (Plus Lower) (Star (Seq (Char "_") (Plus Lower))).

(** *** The rules of the readme *)

Definition is_upper : ascii → bool := in_range "A" "Z".
Definition is_lower : ascii → bool := in_range "a" "z".

(** Letters only.  [caps] is the number of capitals just read: before a small letter
    there is one capital, or at least three and the one that starts the next word; at
    the end there are at least three; and not all letters are capitals. *)
Fixpoint camel_from (seen_lower : bool) (caps : nat) (s : bytes) : bool :=
  match s with
  | [] => seen_lower && ((caps =? 0) || (3 <=? caps))
  | c :: s =>
      if is_upper c then camel_from seen_lower (S caps) s
      else is_lower c && ((caps =? 1) || (4 <=? caps) || (caps =? 0) && seen_lower) && camel_from true 0 s
  end.
Definition camel_case (s : bytes) : bool := camel_from false 0 s.
Definition const_name (s : bytes) : bool :=
  match s with c :: s => bool_decide (c = "k"%char) && camel_case s | [] => false end.

(** Small letters with single underscores between them. *)
Fixpoint snake_from (after_letter : bool) (s : bytes) : bool :=
  match s with
  | [] => after_letter
  | c :: s => if bool_decide (c = "_"%char) then after_letter && snake_from false s else is_lower c && snake_from true s
  end.
Definition snake_case (s : bytes) : bool := snake_from false s.
(** The same with an underscore at the end. *)
Definition private_name (s : bytes) : bool :=
  match last s with Some c => bool_decide (c = "_"%char) && snake_case (take (length s - 1) s) | None => false end.

Example readme_names :
  camel_case <$> [str "BuildDSUnion"; str "BuildDSU"; str "CreateASTMatcher"; str "DSU"; str "Name2"] =
  [false; true; true; false; false].
Proof. vm_compute. reflexivity. Qed.

(** *** Matching of classes of letters *)

Section Classes.
Context (lo hi : ascii).
Abbreviation cls := (Range lo hi).
Abbreviation all := (Forall (λ c, in_range lo hi c = true)).

Lemma matches_star s : matches (Star cls) s ↔ all s.
Proof.
  split.
  - remember (Star cls) as r eqn:Hr. induction 1 as [| | | | | |r s s' H1 _ H2 IH]; try done.
    injection Hr as ->. inversion H1; subst. constructor; [done|by apply IH].
  - induction 1 as [|c s Hc _ IH]; [constructor|]. apply (m_star_app _ [c]); [by constructor|done].
Qed.

Lemma matches_at_least n s : matches (AtLeast n cls) s ↔ all s ∧ n ≤ length s.
Proof.
  revert s. induction n as [|n IH]; intros s; cbn [AtLeast].
  - rewrite matches_star. split; [by intros; split; [|lia]|by intros [? _]].
  - split.
    + inversion 1 as [| |? ? s1 s2 H1 H2| | | |]; subst. inversion H1; subst. apply IH in H2 as [? ?]. cbn.
      split; [by constructor|lia].
    + intros [Hs Hl]. destruct Hs as [|c s Hc Hs]; cbn in Hl; [lia|]. apply (m_seq _ _ [c]); [by constructor|].
      apply IH. split; [done|lia].
Qed.

Lemma matches_plus s : matches (Plus cls) s ↔ all s ∧ s ≠ [].
Proof.
  change (Plus cls) with (AtLeast 1 cls). rewrite matches_at_least. destruct s; cbn; naive_solver lia.
Qed.

Lemma matches_one s : matches cls s ↔ ∃ c, s = [c] ∧ in_range lo hi c = true.
Proof. split; [inversion 1; eauto|]. intros (c&->&?). by constructor. Qed.
End Classes.

Abbreviation uppers := (Forall (λ c, is_upper c = true)).
Abbreviation lowers := (Forall (λ c, is_lower c = true)).

Lemma lower_not_upper c : is_lower c = true → is_upper c = false.
Proof.
  unfold is_lower, is_upper, in_range. rewrite !andb_true_iff, andb_false_iff, !N.leb_le, !N.leb_gt. cbn. lia.
Qed.

Lemma camel_uppers b k u s : uppers u → camel_from b k (u ++ s) = camel_from b (k + length u) s.
Proof.
  revert k. induction u as [|c u IH]; intros k Hu; cbn [app length]; [by rewrite Nat.add_0_r|].
  inversion Hu as [|? ? Hc Hu']; subst. cbn [camel_from]. rewrite Hc, IH by done. f_equal. lia.
Qed.

Lemma camel_lowers s l : lowers l → camel_from true 0 (l ++ s) = camel_from true 0 s.
Proof.
  induction l as [|c l IH]; intros Hl; cbn [app]; [done|]. inversion Hl as [|? ? Hc Hl']; subst.
  cbn [camel_from]. rewrite (lower_not_upper c Hc), Hc, IH by done. done.
Qed.

(** A word: its capitals and its small letters. *)
Lemma camel_word b u l s :
  uppers u → lowers l → l ≠ [] → (length u = 1 ∨ 4 ≤ length u) → camel_from b 0 (u ++ l ++ s) = camel_from true 0 s.
Proof.
  intros Hu Hl Hne Hlen. rewrite camel_uppers by done. destruct l as [|c l]; [done|]. cbn [app camel_from].
  inversion Hl as [|? ? Hc Hl']; subst. rewrite (lower_not_upper c Hc), Hc, camel_lowers by done.
  assert ((0 + length u =? 1) || (4 <=? 0 + length u) = true) as ->; [|done].
  destruct Hlen as [->|H4]; [done|]. apply orb_true_iff. right. by apply Nat.leb_le.
Qed.

Abbreviation Words := (Star (Alt (Seq Upper (Plus Lower)) (Seq (AtLeast 4 Upper) (Plus Lower)))).
Abbreviation Last := (Opt (Alt (Seq Upper (Plus Lower)) (AtLeast 3 Upper))).

Lemma matches_word s :
  matches (Alt (Seq Upper (Plus Lower)) (Seq (AtLeast 4 Upper) (Plus Lower))) s ↔
  ∃ u l, s = u ++ l ∧ uppers u ∧ lowers l ∧ l ≠ [] ∧ (length u = 1 ∨ 4 ≤ length u).
Proof.
  split.
  - inversion 1 as [| | |? ? ? H1|? ? ? H1| |]; subst; inversion H1 as [| |? ? u l Hu Hl| | | |]; subst;
      apply matches_plus in Hl as [Hl Hne].
    + apply matches_one in Hu as (c&->&Hc). exists [c], l. split_and!; auto.
    + apply (matches_at_least "A" "Z" 4) in Hu as [Hu Hlen]. exists u, l. split_and!; auto.
  - intros (u&l&->&Hu&Hl&Hne&[H1|H4]).
    + apply m_alt_l. apply m_seq; [|by apply matches_plus]. destruct u as [|c [|c' u]]; [done| |done].
      apply matches_one. exists c. split; [done|]. by inversion Hu.
    + apply m_alt_r. apply m_seq; [by apply matches_at_least|by apply matches_plus].
Qed.

Lemma words_camel s s' : matches Words s → camel_from true 0 (s ++ s') = camel_from true 0 s'.
Proof.
  remember Words as r eqn:Hr. induction 1 as [| | | | | |r s t H1 _ H2 IH]; try done. injection Hr as ->.
  apply matches_word in H1 as (u&l&->&Hu&Hl&Hne&Hlen). rewrite <- !app_assoc, camel_word by done. by apply IH.
Qed.

Lemma last_camel s : matches Last s → camel_from true 0 s = true.
Proof.
  inversion 1 as [| | |? ? ? H1|? ? ? H1| |]; subst; [|by inversion H1].
  inversion H1 as [| | |? ? ? H2|? ? ? H2| |]; subst.
  - assert (matches (Alt (Seq Upper (Plus Lower)) (Seq (AtLeast 4 Upper) (Plus Lower))) s) as H3 by (by apply m_alt_l).
    apply matches_word in H3 as (u&l&->&Hu&Hl&Hne&Hlen). rewrite <- (app_nil_r l). by rewrite camel_word.
  - apply (matches_at_least "A" "Z" 3) in H2 as [Hu Hlen]. rewrite <- (app_nil_r s), camel_uppers by done. cbn [camel_from plus].
    apply andb_true_iff. split; [done|]. apply orb_true_iff. right. by apply Nat.leb_le.
Qed.

(** A run of letters at the beginning. *)
Lemma take_run (P : ascii → bool) s :
  ∃ r t, s = r ++ t ∧ Forall (λ c, P c = true) r ∧ match t with c :: _ => P c = false | [] => True end.
Proof.
  induction s as [|c s IH]; [by exists [], []; repeat constructor|]. destruct (P c) eqn:Hc.
  - destruct IH as (r&t&->&?&?). exists (c :: r), t. by repeat constructor.
  - exists [], (c :: s). by repeat constructor.
Qed.

(** Capitals, and what follows them. *)
Lemma camel_after b (u t : bytes) :
  (∀ s : bytes, length s < length t → camel_from true 0 s = true → matches (Seq (Star Lower) (Seq Words Last)) s) →
  match t with c :: _ => is_upper c = false | [] => True end →
  u ≠ [] → camel_from b (length u) t = true →
  t = [] ∧ b = true ∧ 3 ≤ length u ∨
  ∃ l r, t = l ++ r ∧ lowers l ∧ l ≠ [] ∧ (length u = 1 ∨ 4 ≤ length u) ∧ matches (Seq Words Last) r.
Proof.
  intros IH Ht Hne. destruct t as [|c t]; cbn [camel_from].
  - destruct u; [done|]. intros [-> [?|?%Nat.leb_le]%orb_true_iff]%andb_true_iff; [done|by left].
  - rewrite Ht. intros [[Hc Hlen]%andb_true_iff Hs]%andb_true_iff. right.
    assert (matches (Seq (Star Lower) (Seq Words Last)) t) as Hm by (apply IH; [cbn; lia|done]).
    inversion Hm as [| |? ? l r Hl Hr| | | |]; subst. apply matches_star in Hl. exists (c :: l), r.
    split_and!; [done|by constructor|done| |done]. destruct u; [done|]. rewrite andb_false_l, orb_false_r in Hlen.
    apply orb_true_iff in Hlen as [?%Nat.eqb_eq|?%Nat.leb_le]; auto.
Qed.

Lemma camel_matches s : camel_from true 0 s = true → matches (Seq (Star Lower) (Seq Words Last)) s.
Proof.
  remember (length s) as n eqn:Hn. revert s Hn. induction (lt_wf n) as [n _ IH]. intros s Hn Hs. destruct (take_run is_lower s) as (l&t&->&Hl&Ht). rewrite camel_lowers in Hs by done.
  apply m_seq; [by apply matches_star|]. destruct (take_run is_upper t) as (u&t'&->&Hu&Ht').
  rewrite camel_uppers in Hs by done. cbn [plus] in Hs. destruct u as [|c u].
  - destruct t' as [|c t']; [apply (m_seq _ _ [] []); [constructor|apply m_alt_r; constructor]|]. cbn in Ht, Ht', Hs.
    rewrite Ht' in Hs. cbn in Ht. by rewrite Ht in Hs.
  - destruct (camel_after true (c :: u) t') as [(->&_&Hlen)|(l'&r&->&Hl'&Hne&Hlen&Hr)]; [|done|done|done| |].
    + intros s' Hs' Hc'. apply (IH (length s')); [|done|done]. subst. rewrite !length_app. cbn. lia.
    + rewrite app_nil_r. apply (m_seq _ _ []); [constructor|]. apply m_alt_l, m_alt_r. by apply matches_at_least.
    + inversion Hr as [| |? ? w x Hw Hx| | | |]; subst. rewrite !app_assoc. apply m_seq; [|done]. apply m_star_app; [|done].
      apply matches_word. by exists (c :: u), l'.
Qed.

Lemma type_name_ok s : regex_match s kTypeNamePattern = camel_case s.
Proof.
  apply eq_iff_eq_true. rewrite regex_match_ok. unfold camel_case. split.
  - inversion 1 as [| |? ? a r Ha Hr| | | |]; subst. inversion Ha as [| |? ? u1 x Hu1 Hx| | | |]; subst.
    inversion Hx as [| |? ? u2 l Hu2 Hl| | | |]; subst. apply matches_plus in Hl as [Hl Hne]. apply matches_one in Hu1 as (c&->&Hc).
    inversion Hr as [| |? ? w x Hw Hlast| | | |]; subst.
    assert (uppers u2 ∧ (u2 = [] ∨ 3 ≤ length u2)) as [Hu Hlen].
    { inversion Hu2 as [| | |? ? ? H1|? ? ? H1| |]; subst; [apply (matches_at_least "A" "Z" 3) in H1 as [? ?]; auto|inversion H1; auto]. }
    rewrite <- !app_assoc. rewrite (app_assoc [c] u2). rewrite camel_word; [|by repeat constructor|done|done|].
    + rewrite words_camel by done. by apply last_camel.
    + destruct Hlen as [->|?]; [by left|right; cbn; lia].
  - intros Hs. destruct (take_run is_upper s) as (u&t&->&Hu&Ht). rewrite camel_uppers in Hs by done. cbn [plus] in Hs.
    destruct u as [|c u].
    { destruct t as [|c t]; [done|]. cbn in Ht, Hs. rewrite Ht in Hs. by rewrite andb_false_r in Hs. }
    destruct (camel_after false (c :: u) t) as [(_&?&_)|(l&r&->&Hl&Hne&Hlen&Hr)]; [|done|done|done|done|].
    { intros s' _. apply camel_matches. }
    rewrite app_assoc. apply m_seq; [|done]. inversion Hu as [|? ? Hc Hu']; subst.
    change ((c :: u) ++ l) with ([c] ++ u ++ l). apply m_seq; [apply matches_one; by exists c|].
    apply m_seq; [|by apply matches_plus]. destruct u as [|c' u]; [apply m_alt_r; constructor|]. apply m_alt_l.
    apply matches_at_least. split; [done|]. cbn in Hlen |- *. lia.
Qed.

Lemma matches_char c s : matches (Char c) s ↔ s = [c].
Proof.
  unfold Char. rewrite matches_one. split; [|intros ->; exists c; split; [done|]].
  - intros (d&->&Hd). f_equal. unfold in_range in Hd. apply andb_true_iff in Hd as [H1%N.leb_le H2%N.leb_le].
    rewrite <- (ascii_N_embedding c), <- (ascii_N_embedding d). f_equal. lia.
  - unfold in_range. by rewrite N.leb_refl.
Qed.

Lemma const_ok s : regex_match s kConstPattern = const_name s.
Proof.
  apply eq_iff_eq_true. rewrite regex_match_ok. unfold const_name. split.
  - inversion 1 as [| |? ? a r Ha Hr| | | |]; subst. apply matches_char in Ha as ->. cbn [app].
    rewrite bool_decide_true by done. cbn. rewrite <- type_name_ok. by apply regex_match_ok.
  - destruct s as [|c s]; [done|]. intros [->%bool_decide_eq_true Hs]%andb_true_iff.
    apply (m_seq _ _ ["k"%char]); [by apply matches_char|]. apply regex_match_ok. by rewrite type_name_ok.
Qed.

Abbreviation Parts := (Star (Seq (Char "_") (Plus Lower))).

Lemma lower_not_underscore c : is_lower c = true → bool_decide (c = "_"%char) = false.
Proof. intros Hc. apply bool_decide_eq_false. by intros ->. Qed.

Lemma snake_lowers b l s : lowers l → l ≠ [] → snake_from b (l ++ s) = snake_from true s.
Proof.
  revert b. induction l as [|c l IH]; intros b Hl Hne; [done|]. inversion Hl as [|? ? Hc Hl']; subst. cbn [app snake_from].
  rewrite (lower_not_underscore c Hc), Hc. cbn [andb]. destruct l as [|c' l]; [done|]. by apply IH.
Qed.

Lemma snake_parts s : matches Parts s → snake_from true s = true.
Proof.
  remember Parts as r eqn:Hr. induction 1 as [| | | | | |r s t H1 _ H2 IH]; try done. injection Hr as ->.
  inversion H1 as [| |? ? a l Ha Hl| | | |]; subst. apply matches_char in Ha as ->. apply matches_plus in Hl as [Hl Hne].
  rewrite <- app_assoc. cbn [app snake_from]. rewrite bool_decide_true by done. cbn [andb]. rewrite snake_lowers by done. by apply IH.
Qed.

Lemma snake_matches s : snake_from true s = true → matches (Seq (Star Lower) Parts) s.
Proof.
  remember (length s) as n eqn:Hn. revert s Hn. induction (lt_wf n) as [n _ IH]. intros s Hn Hs.
  destruct (take_run is_lower s) as (l&t&->&Hl&Ht). apply m_seq; [by apply matches_star|].
  assert (snake_from true t = true) as Hst.
  { destruct l; [done|]. by rewrite (snake_lowers true) in Hs. }
  destruct t as [|c t]; [constructor|]. cbn in Hst, Ht. case_bool_decide as Hc; [|by rewrite Ht in Hst]. cbn in Hst.
  destruct t as [|d t]; [done|]. cbn in Hst. case_bool_decide as Hd; [done|]. apply andb_true_iff in Hst as [Hld Hst].
  assert (matches (Seq (Star Lower) Parts) t) as Hm.
  { apply (IH (length t)); [|done|done]. subst n. rewrite length_app. cbn. lia. }
  inversion Hm as [| |? ? l' r Hl' Hr| | | |]; subst. apply matches_star in Hl'.
  change ("_"%char :: d :: l' ++ r) with (("_"%char :: d :: l') ++ r). apply m_star_app; [|done].
  apply (m_seq _ _ ["_"%char]); [by apply matches_char|]. apply matches_plus. split; [by constructor|done].
Qed.

Lemma public_ok s : regex_match s kPublicFieldPattern = snake_case s.
Proof.
  apply eq_iff_eq_true. rewrite regex_match_ok. unfold snake_case. split.
  - inversion 1 as [| |? ? l r Hl Hr| | | |]; subst. apply matches_plus in Hl as [Hl Hne].
    rewrite snake_lowers by done. by apply snake_parts.
  - destruct s as [|c s]; [done|]. cbn. case_bool_decide as Hc; [done|]. intros [Hlc Hs]%andb_true_iff.
    apply snake_matches in Hs. inversion Hs as [| |? ? l r Hl Hr| | | |]; subst. apply matches_star in Hl.
    change (c :: l ++ r) with ((c :: l) ++ r). apply m_seq; [|done]. apply matches_plus. split; [by constructor|done].
Qed.

Lemma private_ok s : regex_match s kPrivateFieldPattern = private_name s.
Proof.
  apply eq_iff_eq_true. rewrite regex_match_ok. unfold private_name. split.
  - inversion 1 as [| |? ? l x Hl Hx| | | |]; subst. inversion Hx as [| |? ? r e Hr He| | | |]; subst.
    apply matches_char in He as ->. rewrite app_assoc, last_snoc, bool_decide_true by done. cbn [andb].
    rewrite length_app, Nat.add_sub, take_app_length. rewrite <- public_ok. apply regex_match_ok. by apply m_seq.
  - destruct (last s) as [c|] eqn:Hl; [|done]. intros [->%bool_decide_eq_true Hs]%andb_true_iff.
    apply last_Some in Hl as [t ->]. rewrite length_app, Nat.add_sub, take_app_length in Hs.
    rewrite <- public_ok in Hs. apply regex_match_ok in Hs. inversion Hs as [| |? ? l r Hl Hr| | | |]; subst.
    rewrite <- app_assoc. apply m_seq; [done|]. apply m_seq; [done|]. by apply matches_char.
Qed.

(** The regular expressions are the rules of the readme: types and functions in camel
    case, where a run of capitals before the next word has at least three letters, and so
    has one at the end, and not all letters are capitals; constants the same after a [k];
    variables in small letters with single underscores between them; private fields the
    same with an underscore at the end. *)
Theorem name_patterns_correct (name : bytes) :
  regex_match name kTypeNamePattern = camel_case name ∧ regex_match name kConstPattern = const_name name ∧
  regex_match name kPublicFieldPattern = snake_case name ∧ regex_match name kPrivateFieldPattern = private_name name.
Proof. split_and!; [apply type_name_ok|apply const_ok|apply public_ok|apply private_ok]. Qed.

End Patterns.
