(* ===== verification/NamingRules.v ===== *)
(** * The checker of names: the callback and the tool (clang-fun/checker)

    [CheckMistakes] and [run] of naming_rules_violation.cpp, and [ParseDictFile] and
    [CheckNames] of check_names.cpp.  What clang says of a declaration is a record; its
    source manager and the matches that it finds in a file are parameters.

    [check_names_correct] shows that the report of a file is the concatenation of what the
    rules of the readme ask for each name of its declarations, except for the names that the
    code leaves out: protected members that are not constants, and methods called run. *)

From S2P Require Import Prelude NameStrings.

#[local] Set Warnings "-clear-no-such-hyp".

(** ** The callback of the matches *)

Module NamingRulesViolation.

Import StringUtils Regex Patterns.

Inductive Entity : Type := kVariable | kField | kType | kConst | kFunction.

Record BadName : Type := { bn_file : bytes; bn_name : bytes; bn_entity : Entity; bn_line : Z }.

Record Mistake : Type :=
  { mi_file : bytes; mi_name : bytes; mi_wrong_word : bytes; mi_ok_word : bytes; mi_line : Z }.

Record Statistics : Type := { bad_names : list BadName; mistakes : list Mistake }.

Definition add_bad_name (b : BadName) (violations : Statistics) : Statistics :=
  {| bad_names := bad_names violations ++ [b]; mistakes := mistakes violations |}.
Definition add_mistake (m : Mistake) (violations : Statistics) : Statistics :=
  {| bad_names := bad_names violations; mistakes := mistakes violations ++ [m] |}.

(** [path.filename()] of [std::filesystem]: what follows the last slash. *)
Fixpoint after_slash (acc path : bytes) : bytes :=
  match path with
  | [] => acc
  | c :: path => if decide (c = "/"%char) then after_slash [] path else after_slash (acc ++ [c]) path
  end.
Definition path_filename (path : bytes) : bytes := after_slash [] path.

(** What clang says of a declaration. *)
Inductive AccessSpecifier : Type := AS_public | AS_protected | AS_private | AS_none.

#[export] Instance AccessSpecifier_eq_dec : EqDecision AccessSpecifier.
Proof. solve_decision. Defined.

Section Callback.

(** Clang: the locations and the source manager. *)
Context {SourceLocation : Type}.
Context (isInSystemHeader : SourceLocation → bool) (getExpansionLoc : SourceLocation → SourceLocation)
  (getFilename : SourceLocation → bytes) (getExpansionLineNumber : SourceLocation → Z).

Record ParmVarDecl : Type := {
  pv_identifier : option bytes;
  pv_begin : SourceLocation;
  pv_const_qualified : bool;
  pv_constexpr : bool;
}.

(** A declaration: the members that a kind of declarations does not have are not read. *)
Record Decl : Type := {
  getLocation : SourceLocation;
  getBeginLoc : SourceLocation;
  getIdentifier : option bytes;
  isConstQualified : bool;
  isConstexpr : bool;
  getAccess : AccessSpecifier;
  isCanonicalDecl : bool;
  isMain : bool;
  parent_identifier : option bytes;
  parameters : list ParmVarDecl;
}.

(** [result.Nodes.getNodeAs], by the names that the matchers bind. *)
Record MatchResult : Type := {
  type_decl : option Decl;
  type_alias_decl : option Decl;
  type_def_decl : option Decl;
  method_decl : option Decl;
  construct_decl : option Decl;
  destruct_decl : option Decl;
  field_decl : option Decl;
  variable_decl : option Decl;
  func_decl : option Decl;
  enum_decl : option Decl;
}.

Definition LogBadName (loc : SourceLocation) (entity_type : Entity) (name : bytes) : BadName :=
  {| bn_file := path_filename (getFilename (getExpansionLoc loc)); bn_name := name; bn_entity := entity_type;
     bn_line := getExpansionLineNumber loc |}.

Definition LogMistake (loc : SourceLocation) (name wrong_word ok_word : bytes) : Mistake :=
  {| mi_file := path_filename (getFilename (getExpansionLoc loc)); mi_name := name;
     mi_wrong_word := wrong_word; mi_ok_word := ok_word; mi_line := getExpansionLineNumber loc |}.

Context (spellchecker_dict : list bytes).

(** The loop over the dictionary: [min_dist] and [nearest_word]. *)
Definition nearest_body (word dict_word : bytes) (st : Z * option bytes) : outcome (Z * option bytes) :=
  let '(min_dist, nearest_word) := st in
  dist <-? LevenshteinDistance word dict_word ;;
  Ok (if (dist <? min_dist)%Z then (dist, Some dict_word) else (min_dist, nearest_word)).

(** The loop over the words; to read a [nearest_word] that is empty is undefined. *)
Definition mistakes_body (name : bytes) (loc : SourceLocation) (word : bytes) (violations : Statistics)
    : outcome Statistics :=
  if 3 <? length word then
    st <-? forO (nearest_body word) spellchecker_dict ((2 ^ 32 - 1)%Z, None) ;;
    if (0 <? st.1)%Z && (st.1 <? 4)%Z then
      match st.2 with
      | Some nearest_word => Ok (add_mistake (LogMistake loc name word nearest_word) violations)
      | None => Fail UB
      end
    else Ok violations
  else Ok violations.

Definition CheckMistakes (name : bytes) (loc : SourceLocation) (violations : Statistics) : outcome Statistics :=
  match spellchecker_dict with
  | [] => Ok violations
  | _ => ws <-? words name ;; forO (mistakes_body name loc) ws violations
  end.

(** The declarations outside of the headers of the system. *)
Definition in_sources (d : option Decl) (check : Decl → Statistics → outcome Statistics) (violations : Statistics)
    : outcome Statistics :=
  match d with
  | Some d => if isInSystemHeader (getLocation d) then Ok violations else check d violations
  | None => Ok violations
  end.

(** [regex_match] and the two branches that follow it everywhere. *)
Definition check_name (pattern : regex) (entity_type : Entity) (name shown : bytes) (start_loc : SourceLocation)
    (violations : Statistics) : outcome Statistics :=
  if regex_match name pattern then CheckMistakes shown start_loc violations
  else Ok (add_bad_name (LogBadName start_loc entity_type shown) violations).

Definition run_type : Decl → Statistics → outcome Statistics := λ d violations,
  match getIdentifier d with
  | Some name => check_name kTypeNamePattern kType name name (getBeginLoc d) violations
  | None => Ok violations
  end.

Definition run_alias : Decl → Statistics → outcome Statistics := λ d violations,
  match getIdentifier d with
  | Some name => check_name kTypeNamePattern kType name name (getBeginLoc d) violations
  | None => Ok violations
  end.

Definition run_typedef : Decl → Statistics → outcome Statistics := λ d violations,
  match getIdentifier d with
  | Some name => check_name kTypeNamePattern kType name name (getBeginLoc d) violations
  | None => Ok violations
  end.

Definition run_param (p : ParmVarDecl) (violations : Statistics) : outcome Statistics :=
  match pv_identifier p with
  | Some name =>
      if pv_const_qualified p || pv_constexpr p
      then check_name kConstPattern kConst name name (pv_begin p) violations
      else check_name kPublicFieldPattern kVariable name name (pv_begin p) violations
  | None => Ok violations
  end.

Definition run_method : Decl → Statistics → outcome Statistics := λ d violations,
  violations <-? match getIdentifier d with
                 | Some name =>
                     if decide (name = str "run") then Ok violations
                     else check_name kTypeNamePattern kFunction name name (getBeginLoc d) violations
                 | None => Ok violations
                 end ;;
  forO run_param (parameters d) violations.

Definition run_constructor : Decl → Statistics → outcome Statistics := λ d violations,
  match parent_identifier d with
  | Some name =>
      violations <-? check_name kTypeNamePattern kFunction name name (getBeginLoc d) violations ;;
      forO run_param (parameters d) violations
  | None => Ok violations
  end.

Definition run_destructor : Decl → Statistics → outcome Statistics := λ d violations,
  match parent_identifier d with
  | Some name =>
      violations <-? check_name kTypeNamePattern kFunction name ("~"%char :: name) (getBeginLoc d) violations ;;
      forO run_param (parameters d) violations
  | None => Ok violations
  end.

Definition run_field : Decl → Statistics → outcome Statistics := λ d violations,
  match getIdentifier d with
  | Some name =>
      if isCanonicalDecl d then
        if isConstQualified d then check_name kConstPattern kConst name name (getBeginLoc d) violations
        else if decide (getAccess d = AS_private)
        then check_name kPrivateFieldPattern kField name name (getBeginLoc d) violations
        else if decide (getAccess d = AS_public)
        then check_name kPublicFieldPattern kVariable name name (getBeginLoc d) violations
        else Ok violations
      else Ok violations
  | None => Ok violations
  end.

Definition run_variable : Decl → Statistics → outcome Statistics := λ d violations,
  match getIdentifier d with
  | Some name =>
      if isConstQualified d || isConstexpr d
      then check_name kConstPattern kConst name name (getBeginLoc d) violations
      else if decide (getAccess d = AS_private)
      then check_name kPrivateFieldPattern kField name name (getBeginLoc d) violations
      else if bool_decide (getAccess d = AS_public) || bool_decide (getAccess d = AS_none)
      then check_name kPublicFieldPattern kVariable name name (getBeginLoc d) violations
      else Ok violations
  | None => Ok violations
  end.

Definition run_function : Decl → Statistics → outcome Statistics := λ d violations,
  violations <-? match getIdentifier d with
                 | Some name =>
                     if isMain d then Ok violations
                     else check_name kTypeNamePattern kFunction name name (getBeginLoc d) violations
                 | None => Ok violations
                 end ;;
  forO run_param (parameters d) violations.

Definition run_enum : Decl → Statistics → outcome Statistics := λ d violations,
  match getIdentifier d with
  | Some name => check_name kTypeNamePattern kType name name (getBeginLoc d) violations
  | None => Ok violations
  end.

Definition run (result : MatchResult) (violations : Statistics) : outcome Statistics :=
  violations <-? in_sources (type_decl result) run_type violations ;;
  violations <-? in_sources (type_alias_decl result) run_alias violations ;;
  violations <-? in_sources (type_def_decl result) run_typedef violations ;;
  violations <-? in_sources (method_decl result) run_method violations ;;
  violations <-? in_sources (construct_decl result) run_constructor violations ;;
  violations <-? in_sources (destruct_decl result) run_destructor violations ;;
  violations <-? in_sources (field_decl result) run_field violations ;;
  violations <-? in_sources (variable_decl result) run_variable violations ;;
  violations <-? in_sources (func_decl result) run_function violations ;;
  in_sources (enum_decl result) run_enum violations.

(** ** What a run must report *)

(** A name that the readme asks to check: what it names, the name, how it is shown, and where;
    and whether the code leaves it out nevertheless. *)
Record entity : Type :=
  { e_kind : Entity; e_name : bytes; e_shown : bytes; e_loc : SourceLocation; e_left_out : bool }.

Definition named (k : Entity) (name : option bytes) (loc : SourceLocation) (left_out : bool) : list entity :=
  match name with
  | Some n => [{| e_kind := k; e_name := n; e_shown := n; e_loc := loc; e_left_out := left_out |}]
  | None => []
  end.

(** The rule for the names of each kind. *)
Definition rule (k : Entity) : bytes → bool :=
  match k with kVariable => snake_case | kField => private_name | kConst => const_name | kType | kFunction => camel_case end.

Definition param_kind (p : ParmVarDecl) : Entity := if pv_const_qualified p || pv_constexpr p then kConst else kVariable.
Definition param_entities (p : ParmVarDecl) : list entity := named (param_kind p) (pv_identifier p) (pv_begin p) false.

(** Members that are not public have the names of fields.  Protected ones are left out. *)
Definition member_kind (const : bool) (a : AccessSpecifier) : Entity :=
  if const then kConst
  else match a with AS_private | AS_protected => kField | AS_public | AS_none => kVariable end.
Definition member_left_out (const : bool) (a : AccessSpecifier) : bool :=
  negb const && match a with AS_protected => true | _ => false end.

Definition type_entities (d : Decl) : list entity := named kType (getIdentifier d) (getBeginLoc d) false.
Definition method_entities (d : Decl) : list entity :=
  named kFunction (getIdentifier d) (getBeginLoc d) (bool_decide (getIdentifier d = Some (str "run"))) ++
  mjoin (param_entities <$> parameters d).
Definition structor_entities (shown : bytes → bytes) (d : Decl) : list entity :=
  match parent_identifier d with
  | Some n => {| e_kind := kFunction; e_name := n; e_shown := shown n; e_loc := getBeginLoc d; e_left_out := false |} ::
      mjoin (param_entities <$> parameters d)
  | None => []
  end.
(** (Clang gives every field an access.) *)
Definition field_entities (d : Decl) : list entity :=
  if isCanonicalDecl d
  then named (member_kind (isConstQualified d) (getAccess d)) (getIdentifier d) (getBeginLoc d)
         (bool_decide (getAccess d = AS_none) && negb (isConstQualified d) || member_left_out (isConstQualified d) (getAccess d))
  else [].
Definition variable_entities (d : Decl) : list entity :=
  let const := isConstQualified d || isConstexpr d in
  named (member_kind const (getAccess d)) (getIdentifier d) (getBeginLoc d) (member_left_out const (getAccess d)).
(** The name of [main] is given by the language. *)
Definition function_entities (d : Decl) : list entity :=
  (if isMain d then [] else named kFunction (getIdentifier d) (getBeginLoc d) false) ++ mjoin (param_entities <$> parameters d).

Definition of_sources (d : option Decl) (f : Decl → list entity) : list entity :=
  match d with Some d => if isInSystemHeader (getLocation d) then [] else f d | None => [] end.

Definition entities (result : MatchResult) : list entity :=
  of_sources (type_decl result) type_entities ++ of_sources (type_alias_decl result) type_entities ++
  of_sources (type_def_decl result) type_entities ++ of_sources (method_decl result) method_entities ++
  of_sources (construct_decl result) (structor_entities id) ++
  of_sources (destruct_decl result) (structor_entities (cons "~"%char)) ++
  of_sources (field_decl result) field_entities ++ of_sources (variable_decl result) variable_entities ++
  of_sources (func_decl result) function_entities ++ of_sources (enum_decl result) type_entities.

(** The names that the code checks. *)
Definition checked (es : list entity) : list entity := filter (λ e, e_left_out e = false) es.

(** The first word of a dictionary that is nearest to [w], at distance [n]. *)
Definition nearest (dict : list bytes) (w d : bytes) (n : nat) : Prop :=
  ∃ i, dict !! i = Some d ∧ distance_is n (lower <$> w) (lower <$> d) ∧
    ∀ j d' m, dict !! j = Some d' → distance_is m (lower <$> w) (lower <$> d') → n ≤ m ∧ (j < i → n < m).

(** The words that are misspelt, each with the word that was meant. *)
Inductive typos : list bytes → list (bytes * bytes) → Prop :=
| typos_nil : typos [] []
| typos_short w ws ms : length w ≤ 3 → typos ws ms → typos (w :: ws) ms
| typos_known w d n ws ms : 3 < length w → nearest spellchecker_dict w d n → (n = 0 ∨ 4 ≤ n) → typos ws ms → typos (w :: ws) ms
| typos_wrong w d n ws ms : 3 < length w → nearest spellchecker_dict w d n → 0 < n < 4 → typos ws ms → typos (w :: ws) ((w, d) :: ms).

(** What is reported for one name. *)
Inductive reported (e : entity) : Statistics → Prop :=
| reported_bad :
    rule (e_kind e) (e_name e) = false →
    reported e {| bad_names := [LogBadName (e_loc e) (e_kind e) (e_shown e)]; mistakes := [] |}
| reported_no_dict :
    rule (e_kind e) (e_name e) = true → spellchecker_dict = [] →
    reported e {| bad_names := []; mistakes := [] |}
| reported_typos ws ms :
    rule (e_kind e) (e_name e) = true → spellchecker_dict ≠ [] → name_words (e_shown e) ws → typos ws ms →
    reported e {| bad_names := []; mistakes := (λ m, LogMistake (e_loc e) (e_shown e) m.1 m.2) <$> ms |}.

Definition join (s t : Statistics) : Statistics :=
  {| bad_names := bad_names s ++ bad_names t; mistakes := mistakes s ++ mistakes t |}.
Definition nothing : Statistics := {| bad_names := []; mistakes := [] |}.

(** What is reported for several, in their order. *)
Inductive all_reported : list entity → Statistics → Prop :=
| all_nil : all_reported [] nothing
| all_cons e es s t : reported e s → all_reported es t → all_reported (e :: es) (join s t).

(** *** Proofs *)

Context (Hdict : Forall (Forall is_ascii) spellchecker_dict).

(** The lengths for which the distances do not wrap around. *)
Definition short_enough (e : entity) : Prop :=
  Forall (λ d, (Z.of_nat (length (e_shown e) + length d) < 2 ^ 32 - 1)%Z) spellchecker_dict.

Lemma join_assoc s t u : join (join s t) u = join s (join t u).
Proof. unfold join. cbn. by rewrite <- !app_assoc. Qed.

Lemma join_nothing_r s : join s nothing = s.
Proof. destruct s. unfold join, nothing. cbn. by rewrite !app_nil_r. Qed.

Lemma join_nothing_l s : join nothing s = s.
Proof. by destruct s. Qed.

Lemma all_reported_app es es' s t : all_reported es s → all_reported es' t → all_reported (es ++ es') (join s t).
Proof.
  intros H. induction H; intros Ht; cbn; [by rewrite join_nothing_l|]. rewrite join_assoc. constructor; auto.
Qed.

Lemma distance_unique {A} n m (a b : list A) : distance_is n a b → distance_is m a b → n = m.
Proof. intros [H1 H2] [H3 H4]. specialize (H2 m H3). specialize (H4 n H1). lia. Qed.

Lemma nearest_one w d n : distance_is n (lower <$> w) (lower <$> d) → nearest [d] w d n.
Proof.
  intros Hn. exists 0. split_and!; [done|done|]. intros [|j] d' m Hj Hm; [|done]. injection Hj as <-.
  pose proof (distance_unique _ _ _ _ Hn Hm). lia.
Qed.

Lemma nearest_snoc dict w d n d' n' :
  nearest dict w d n → distance_is n' (lower <$> w) (lower <$> d') →
  if decide (n' < n) then nearest (dict ++ [d']) w d' n' else nearest (dict ++ [d']) w d n.
Proof.
  intros (i&Hi&Hn&Hmin) Hn'.
  assert (∀ j x m, (dict ++ [d']) !! j = Some x → distance_is m (lower <$> w) (lower <$> x) →
    j < length dict ∧ dict !! j = Some x ∨ j = length dict ∧ m = n') as Hcase.
  { intros j x m [Hj|[Hge [Hz <-]%list_lookup_singleton_Some]]%lookup_app_Some Hm.
    - left. split; [by eapply lookup_lt_Some|done].
    - right. split; [lia|]. by apply (distance_unique _ _ _ _ Hm). }
  case_decide as Hlt.
  - exists (length dict). split_and!; [by rewrite lookup_app_r, Nat.sub_diag by lia|done|].
    intros j x m Hj Hm. destruct (Hcase j x m Hj Hm) as [[Hl Hj']|[-> ->]]; [|lia].
    destruct (Hmin j x m Hj' Hm). lia.
  - exists i. split_and!; [by apply lookup_app_l_Some|done|].
    intros j x m Hj Hm. pose proof (lookup_lt_Some _ _ _ Hi).
    destruct (Hcase j x m Hj Hm) as [[Hl Hj']|[-> ->]]; [by apply (Hmin j x m)|lia].
Qed.

Lemma nearest_loop w :
  Forall is_ascii w → spellchecker_dict ≠ [] →
  Forall (λ d, (Z.of_nat (length w + length d) < 2 ^ 32 - 1)%Z) spellchecker_dict →
  ∃ d n, forO (nearest_body w) spellchecker_dict ((2 ^ 32 - 1)%Z, None) = Ok (Z.of_nat n, Some d) ∧
    nearest spellchecker_dict w d n.
Proof using Hdict.
  intros Hw Hne Hlen.
  destruct (forO_inv (λ read st, match read with
    | [] => st = ((2 ^ 32 - 1)%Z, None)
    | _ => ∃ d n, st = (Z.of_nat n, Some d) ∧ nearest read w d n
    end) (nearest_body w) spellchecker_dict ((2 ^ 32 - 1)%Z, None)) as (st&Hst&HI); [done| |].
  - intros read d st Hd HI. pose proof (proj1 (Forall_forall _ _) Hdict d Hd) as Hda.
    pose proof (proj1 (Forall_forall _ _) Hlen d Hd) as Hdl. cbn in Hdl.
    pose proof (distance_least w d) as Hn. pose proof (cell_le w d Hdl (length w) (length d) ltac:(done) ltac:(done)) as Hle.
    unfold nearest_body. destruct st as [min_dist nearest_word]. rewrite distance_ok by done. cbn [bindO].
    set (n := cell w d (length w) (length d)) in *. destruct read as [|r read].
    + injection HI as -> ->. rewrite (proj2 (Z.ltb_lt _ _)) by lia. eexists. split; [done|]. cbn.
      exists d, n. split; [done|by apply nearest_one].
    + destruct HI as (d0&n0&[= -> ->]&H0). pose proof (nearest_snoc _ w d0 n0 d n H0 Hn) as Hs.
      eexists. split; [done|]. cbn [app]. destruct (Z.ltb_spec (Z.of_nat n) (Z.of_nat n0)).
      * rewrite decide_True in Hs by lia. by exists d, n.
      * rewrite decide_False in Hs by lia. by exists d0, n0.
  - destruct spellchecker_dict as [|d0 dict]; [done|]. destruct HI as (d&n&->&Hn). by exists d, n.
Qed.

Lemma typos_loop name loc ws violations :
  spellchecker_dict ≠ [] → Forall (Forall is_ascii) ws →
  Forall (λ w, Forall (λ d, (Z.of_nat (length w + length d) < 2 ^ 32 - 1)%Z) spellchecker_dict) ws →
  ∃ ms, typos ws ms ∧
    forO (mistakes_body name loc) ws violations =
      Ok (join violations {| bad_names := []; mistakes := (λ m, LogMistake loc name m.1 m.2) <$> ms |}).
Proof using Hdict.
  intros Hne Ha. revert violations. induction Ha as [|w ws Hw Ha IH]; intros violations Hl.
  { exists []. split; [constructor|]. cbn. by rewrite join_nothing_r. }
  inversion Hl as [|? ? Hlw Hls]; subst. cbn [forO]. unfold mistakes_body at 1.
  destruct (Nat.ltb_spec 3 (length w)) as [H3|H3].
  - destruct (nearest_loop w Hw Hne Hlw) as (d&n&->&Hn). cbn [bindO fst snd].
    destruct (decide (0 < n < 4)) as [Hr|Hr].
    + rewrite (proj2 (Z.ltb_lt _ _)), (proj2 (Z.ltb_lt _ _)) by lia. cbn [andb bindO].
      destruct (IH (add_mistake (LogMistake loc name w d) violations) Hls) as (ms&Hms&->).
      exists ((w, d) :: ms). split; [by eapply typos_wrong|]. f_equal. unfold join, add_mistake. cbn.
      by rewrite <- app_assoc.
    + assert ((0 <? Z.of_nat n)%Z && (Z.of_nat n <? 4)%Z = false) as ->.
      { apply andb_false_iff. rewrite !Z.ltb_ge. lia. }
      cbn [bindO]. destruct (IH violations Hls) as (ms&Hms&->). exists ms. split; [|done].
      eapply typos_known; [done|done|lia|done].
  - cbn [bindO]. destruct (IH violations Hls) as (ms&Hms&->). exists ms. split; [by constructor|done].
Qed.

(** *** The names that the rules accept *)

Lemma upper_ascii c : Patterns.is_upper c = true → is_ascii c.
Proof. unfold Patterns.is_upper, in_range, is_ascii. rewrite andb_true_iff, !N.leb_le. cbn. lia. Qed.

Lemma lower_ascii c : is_lower c = true → is_ascii c.
Proof. unfold is_lower, in_range, is_ascii. rewrite andb_true_iff, !N.leb_le. cbn. lia. Qed.

Lemma camel_letters b k s : camel_from b k s = true → Forall is_ascii s ∧ ("_"%char ∉ s).
Proof.
  revert b k. induction s as [|c s IH]; intros b k; cbn [camel_from]; [split; [done|apply not_elem_of_nil]|].
  destruct (Patterns.is_upper c) eqn:Hu.
  - intros [? ?]%IH. split; [constructor; [by apply upper_ascii|done]|].
    apply not_elem_of_cons. split; [by intros <-|done].
  - intros [[Hl _]%andb_true_iff Hs]%andb_true_iff. apply IH in Hs as [? ?].
    split; [constructor; [by apply lower_ascii|done]|].
    apply not_elem_of_cons. split; [by intros <-|done].
Qed.

Lemma snake_letters b s : snake_from b s = true → Forall is_ascii s.
Proof.
  revert b. induction s as [|c s IH]; intros b; cbn [snake_from]; [done|]. case_bool_decide as Hc.
  - intros [_ ?%IH]%andb_true_iff. constructor; [by subst|done].
  - intros [Hl ?%IH]%andb_true_iff. constructor; [by apply lower_ascii|done].
Qed.

Lemma rule_ascii k s : rule k s = true → Forall is_ascii s ∧ s ≠ [].
Proof.
  destruct k; cbn.
  - unfold snake_case. intros Hs. split; [by apply snake_letters in Hs|by intros ->].
  - unfold private_name, snake_case. destruct (last s) as [c|] eqn:Hl; [|done].
    intros [->%bool_decide_eq_true Hs]%andb_true_iff. apply last_Some in Hl as [t ->].
    rewrite length_app, Nat.add_sub, take_app_length in Hs. apply snake_letters in Hs.
    split; [apply Forall_app; by repeat constructor|by destruct t].
  - unfold camel_case. intros Hs. split; [by apply (camel_letters false 0)|by intros ->].
  - unfold const_name. destruct s as [|c s]; [done|]. intros [->%bool_decide_eq_true Hs]%andb_true_iff.
    apply camel_letters in Hs as [? _]. split; [by constructor|done].
  - unfold camel_case. intros Hs. split; [by apply (camel_letters false 0)|by intros ->].
Qed.

(** The words of a name are made of its characters. *)
Lemma substr_part {P : ascii → Prop} name v : Forall P name → Forall P (substr name v) ∧ length (substr name v) ≤ length name.
Proof.
  intros H. unfold substr. split; [by apply Forall_take, Forall_drop|]. rewrite length_take, length_drop. lia.
Qed.

Lemma words_ok name :
  name ≠ [] → Forall is_ascii name →
  ∃ ws, words name = Ok ws ∧ name_words name ws ∧ Forall (λ w, Forall is_ascii w ∧ length w ≤ length name) ws.
Proof.
  intros Hne Ha. destruct (split_into_words_ok name Hne) as (ws&Hws&Hn).
  exists ws. split_and!; [done|done|]. unfold words in Hws. apply bindO_inv in Hws as (vs&_&[= <-]).
  apply Forall_fmap, Forall_forall. intros v _. cbn. by apply substr_part.
Qed.

(** *** The parts of a run *)

Definition reports (es : list entity) (f : Statistics → outcome Statistics) : Prop :=
  Forall short_enough es → ∀ violations, ∃ s, f violations = Ok (join violations s) ∧ all_reported (checked es) s.

Lemma reports_nil : reports [] Ok.
Proof. intros _ v. exists nothing. rewrite join_nothing_r. split; [done|constructor]. Qed.

Lemma reports_bind es es' f g : reports es f → reports es' g → reports (es ++ es') (λ v, bindO (f v) g).
Proof.
  intros Hf Hg [H1 H2]%Forall_app v. destruct (Hf H1 v) as (s&->&Hs). cbn [bindO].
  destruct (Hg H2 (join v s)) as (t&->&Ht). exists (join s t). rewrite join_assoc. split; [done|]. unfold checked. rewrite filter_app. by apply all_reported_app.
Qed.

Lemma reports_for {A} (g : A → list entity) f l :
  (∀ x, reports (g x) (f x)) → reports (mjoin (g <$> l)) (forO f l).
Proof.
  intros Hf. induction l as [|x l IH]; cbn; [apply reports_nil|]. by apply (reports_bind (g x) _ (f x)).
Qed.

Definition pattern (k : Entity) : regex :=
  match k with
  | kVariable => kPublicFieldPattern
  | kField => kPrivateFieldPattern
  | kConst => kConstPattern
  | kType | kFunction => kTypeNamePattern
  end.

Lemma pattern_rule k s : regex_match s (pattern k) = rule k s.
Proof. destruct k; [apply public_ok|apply private_ok|apply type_name_ok|apply const_ok|apply type_name_ok]. Qed.

Lemma CheckMistakes_dict name loc v :
  spellchecker_dict ≠ [] → CheckMistakes name loc v = (ws <-? words name ;; forO (mistakes_body name loc) ws v).
Proof. unfold CheckMistakes. by destruct spellchecker_dict. Qed.

Lemma CheckMistakes_no_dict name loc v : spellchecker_dict = [] → CheckMistakes name loc v = Ok v.
Proof. unfold CheckMistakes. by intros ->. Qed.

Lemma reports_name k name shown loc :
  (shown = name ∨ shown = "~"%char :: name) →
  reports [{| e_kind := k; e_name := name; e_shown := shown; e_loc := loc; e_left_out := false |}] (check_name (pattern k) k name shown loc).
Proof using Hdict.
  intros Hshown [Hshort _]%Forall_cons v. unfold short_enough in Hshort. cbn in Hshort.
  set (e := {| e_kind := k; e_name := name; e_shown := shown; e_loc := loc; e_left_out := false |}).
  assert (∀ s, reported e s → all_reported (checked [e]) s) as Hone.
  { intros s Hs. unfold checked. rewrite filter_cons_True by done. rewrite <- (join_nothing_r s). by repeat constructor. }
  unfold check_name. rewrite pattern_rule. destruct (rule k name) eqn:Hr.
  - destruct (decide (spellchecker_dict = [])) as [Hd|Hd].
    { rewrite CheckMistakes_no_dict by done. exists nothing. rewrite join_nothing_r. split; [done|]. apply Hone.
      by apply reported_no_dict. }
    rewrite CheckMistakes_dict by done.
    destruct (rule_ascii k name Hr) as [Ha Hne].
    assert (Forall is_ascii shown ∧ shown ≠ []) as [Has Hnes] by (destruct Hshown as [->| ->]; split; by try constructor).
    destruct (words_ok shown Hnes Has) as (ws&->&Hws&Hall). cbn [bindO].
    destruct (typos_loop shown loc ws v) as (ms&Hms&->).
    + done.
    + by apply (Forall_impl _ _ _ Hall); intros ? [].
    + apply (Forall_impl _ _ _ Hall). intros w [_ Hle]. apply (Forall_impl _ _ _ Hshort). intros d Hlen. cbn in *. lia.
    + eexists. split; [done|]. apply Hone. apply (reported_typos e ws ms); [done|done|done|done].
  - eexists. split; [|apply Hone; by apply reported_bad]. unfold join, add_bad_name. cbn. by rewrite app_nil_r.
Qed.

(** A name that is left out. *)
Lemma reports_left_out e : e_left_out e = true → reports [e] Ok.
Proof.
  intros He _ v. exists nothing. rewrite join_nothing_r. split; [done|]. unfold checked. rewrite filter_cons_False by congruence. constructor.
Qed.

Lemma reports_named k name loc out :
  reports (named k name loc out)
    (λ v, match name with Some n => if out : bool then Ok v else check_name (pattern k) k n n loc v | None => Ok v end).
Proof using Hdict.
  destruct name as [n|]; [|apply reports_nil]. destruct out; [by apply reports_left_out|apply reports_name; by left].
Qed.

Lemma reports_ext es f g : (∀ v, f v = g v) → reports es f → reports es g.
Proof. intros Hfg Hf Hs v. rewrite <- Hfg. by apply Hf. Qed.

Lemma reports_param p : reports (param_entities p) (run_param p).
Proof using Hdict.
  unfold param_entities, param_kind, run_param. destruct (_ || _).
  - apply (reports_named kConst _ _ false).
  - apply (reports_named kVariable _ _ false).
Qed.

Lemma reports_params ps : reports (mjoin (param_entities <$> ps)) (forO run_param ps).
Proof using Hdict. apply reports_for, reports_param. Qed.

Lemma reports_method d : reports (method_entities d) (run_method d).
Proof using Hdict.
  unfold method_entities, run_method. apply (reports_bind _ _ (λ v, match getIdentifier d with
    | Some name => if decide (name = str "run") then Ok v else check_name kTypeNamePattern kFunction name name (getBeginLoc d) v
    | None => Ok v end)); [|apply reports_params].
  destruct (getIdentifier d) as [name|]; [|apply reports_nil].
  destruct (decide (name = str "run")) as [->|Hne].
  - rewrite bool_decide_true by done. by apply reports_left_out.
  - rewrite bool_decide_false by congruence. apply (reports_name kFunction). by left.
Qed.

Lemma reports_function d : reports (function_entities d) (run_function d).
Proof using Hdict.
  unfold function_entities, run_function. apply (reports_bind _ _ (λ v, match getIdentifier d with
    | Some name => if isMain d then Ok v else check_name kTypeNamePattern kFunction name name (getBeginLoc d) v
    | None => Ok v end)); [|apply reports_params].
  destruct (isMain d); [|apply (reports_named kFunction _ _ false)]. destruct (getIdentifier d); apply reports_nil.
Qed.

Lemma reports_constructor d : reports (structor_entities id d) (run_constructor d).
Proof using Hdict.
  unfold structor_entities, run_constructor. destruct (parent_identifier d) as [n|]; [|apply reports_nil].
  apply (reports_bind [_]); [apply (reports_name kFunction); by left|apply reports_params].
Qed.

Lemma reports_destructor d : reports (structor_entities (cons "~"%char) d) (run_destructor d).
Proof using Hdict.
  unfold structor_entities, run_destructor. destruct (parent_identifier d) as [n|]; [|apply reports_nil].
  apply (reports_bind [_]); [apply (reports_name kFunction); by right|apply reports_params].
Qed.

Lemma reports_member const access name loc :
  reports (named (member_kind const access) name loc (member_left_out const access))
    (λ v, match name with
     | Some n =>
         if const : bool then check_name kConstPattern kConst n n loc v
         else match access with
         | AS_private => check_name kPrivateFieldPattern kField n n loc v
         | AS_public | AS_none => check_name kPublicFieldPattern kVariable n n loc v
         | AS_protected => Ok v
         end
     | None => Ok v
     end).
Proof using Hdict.
  eapply reports_ext; [|apply (reports_named (member_kind const access) name loc (member_left_out const access))].
  intros v. by destruct name, const, access.
Qed.

Lemma reports_field d : reports (field_entities d) (run_field d).
Proof using Hdict.
  unfold field_entities. destruct (isCanonicalDecl d) eqn:Ec.
  - eapply reports_ext; [|apply reports_named]. intros v. unfold run_field. rewrite Ec.
    by destruct (getIdentifier d), (isConstQualified d), (getAccess d).
  - eapply reports_ext; [|apply reports_nil]. intros v. unfold run_field. rewrite Ec. by destruct (getIdentifier d).
Qed.

Lemma reports_variable d : reports (variable_entities d) (run_variable d).
Proof using Hdict.
  eapply reports_ext; [|apply reports_member]. intros v. unfold run_variable.
  by destruct (getIdentifier d), (isConstQualified d || isConstexpr d), (getAccess d).
Qed.

Lemma reports_sources d f g : (∀ d, reports (f d) (g d)) → reports (of_sources d f) (in_sources d g).
Proof.
  intros H. unfold of_sources, in_sources. destruct d as [d|]; [|apply reports_nil].
  destruct (isInSystemHeader _); [apply reports_nil|apply H].
Qed.

Lemma reports_run result : reports (entities result) (run result).
Proof using Hdict.
  assert (∀ d, reports (type_entities d) (run_type d)) as Ht by (intros d; apply (reports_named kType)).
  unfold entities, run. repeat apply reports_bind; apply reports_sources; try exact Ht; intros d;
    auto using reports_method, reports_constructor, reports_destructor, reports_field, reports_variable, reports_function.
Qed.

(** The matches of one source file are given to the callback one after the other. *)
Definition run_all (results : list MatchResult) (violations : Statistics) : outcome Statistics :=
  forO run results violations.

Lemma reports_run_all results : reports (mjoin (entities <$> results)) (run_all results).
Proof using Hdict. apply reports_for, reports_run. Qed.

End Callback.

(** ** The whole tool *)

Definition is_space (c : ascii) : bool := (N_of_ascii c =? 32)%N || (9 <=? N_of_ascii c)%N && (N_of_ascii c <=? 13)%N.

(** [while (in >> word)]: the word that is being read, and those read. *)
Fixpoint ParseDictFile_loop (content word : bytes) (res : list bytes) : list bytes :=
  match content with
  | [] => match word with [] => res | _ => res ++ [word] end
  | c :: content =>
      if is_space c then ParseDictFile_loop content [] (match word with [] => res | _ => res ++ [word] end)
      else ParseDictFile_loop content (word ++ [c]) res
  end.
Definition ParseDictFile (content : bytes) : list bytes := ParseDictFile_loop content [] [].

Section Tool.

Context {SourceLocation : Type}.
Context (isInSystemHeader : SourceLocation → bool) (getExpansionLoc : SourceLocation → SourceLocation)
  (getFilename : SourceLocation → bytes) (getExpansionLineNumber : SourceLocation → Z).

(** Clang: the matches in a source file, in the order in which it finds them. *)
Context (matches_in : bytes → list (@MatchResult SourceLocation)).

(** One source file: a new callback, and [res[source_path.filename()] = ...] *)
Definition check_file (spell_checker_dict : list bytes) (file_path : bytes) (res : gmap bytes Statistics)
    : outcome (gmap bytes Statistics) :=
  violations <-? run_all isInSystemHeader getExpansionLoc getFilename getExpansionLineNumber spell_checker_dict
    (matches_in file_path) {| bad_names := []; mistakes := [] |} ;;
  Ok (<[path_filename file_path := violations]> res).

(** [dict] is the content of the file that the option names, if there is the option;
    [source_paths] are the files of the command line, [None] if it could not be parsed. *)
Definition CheckNames (dict : option bytes) (source_paths : option (list bytes)) : outcome (gmap bytes Statistics) :=
  let spell_checker_dict := match dict with Some content => ParseDictFile content | None => [] end in
  match source_paths with
  | None => Ok ∅
  | Some paths => forO (check_file spell_checker_dict) paths ∅
  end.

Abbreviation entities_in p := (mjoin (entities isInSystemHeader <$> matches_in p)).
Abbreviation reported_in dict := (all_reported getExpansionLoc getFilename getExpansionLineNumber dict).

Lemma parse_loop_concat content word res :
  concat (ParseDictFile_loop content word res) = concat res ++ word ++ List.filter (λ c, negb (is_space c)) content.
Proof.
  revert word res. induction content as [|c content IH]; intros word res; cbn [ParseDictFile_loop List.filter].
  - destruct word; rewrite ?concat_app; cbn; by rewrite ?app_nil_r.
  - destruct (is_space c); cbn [negb]; rewrite IH.
    + destruct word; rewrite ?concat_app; cbn; by rewrite ?app_nil_r, <- ?app_assoc.
    + by rewrite <- app_assoc.
Qed.

(** The words of the dictionary are the content without its spaces. *)
Lemma parse_dict_concat content : concat (ParseDictFile content) = List.filter (λ c, negb (is_space c)) content.
Proof. unfold ParseDictFile. by rewrite parse_loop_concat. Qed.

Lemma parse_dict_word content w :
  w ∈ ParseDictFile content → (Forall is_ascii content → Forall is_ascii w) ∧ length w ≤ length content.
Proof.
  intros (l1&l2&Hl)%list_elem_of_split. pose proof (parse_dict_concat content) as Hc.
  rewrite Hl, concat_app in Hc. cbn in Hc. split.
  - intros Ha. assert (Forall is_ascii (concat l1 ++ w ++ concat l2)) as [_ [? _]%Forall_app]%Forall_app; [|done].
    rewrite Hc. apply Forall_forall. intros c Hin. apply list_elem_of_In, filter_In in Hin as [Hin _].
    apply (proj1 (Forall_forall _ _) Ha), list_elem_of_In, Hin.
  - apply (f_equal length) in Hc. rewrite !length_app in Hc. pose proof (filter_length_le (λ c, negb (is_space c)) content). lia.
Qed.

Lemma check_file_ok dict p res :
  Forall (Forall is_ascii) dict → Forall (short_enough dict) (entities_in p) →
  ∃ s, check_file dict p res = Ok (<[path_filename p := s]> res) ∧ reported_in dict (checked (entities_in p)) s.
Proof.
  intros Hd Hs. unfold check_file.
  destruct (reports_run_all isInSystemHeader getExpansionLoc getFilename getExpansionLineNumber dict Hd (matches_in p) Hs
    {| bad_names := []; mistakes := [] |}) as (s&->&Hr).
  exists s. cbn [bindO]. change (join _ s) with (join nothing s). by rewrite join_nothing_l.
Qed.

Lemma check_files_ok dict paths :
  Forall (Forall is_ascii) dict → Forall (λ p, Forall (short_enough dict) (entities_in p)) paths →
  ∃ res, forO (check_file dict) paths ∅ = Ok res ∧ dom res = list_to_set (path_filename <$> paths) ∧
    ∀ i p, paths !! i = Some p → (∀ j q, paths !! j = Some q → i < j → path_filename q ≠ path_filename p) →
      ∃ s, res !! path_filename p = Some s ∧ reported_in dict (checked (entities_in p)) s.
Proof.
  intros Hd Hs. apply (forO_inv (λ read res, dom res = list_to_set (path_filename <$> read) ∧
    ∀ i p, read !! i = Some p → (∀ j q, read !! j = Some q → i < j → path_filename q ≠ path_filename p) →
      ∃ s, res !! path_filename p = Some s ∧ reported_in dict (checked (entities_in p)) s)).
  - split; [by rewrite dom_empty_L|done].
  - intros read p res Hp [Hdom HI].
    destruct (check_file_ok dict p res Hd (proj1 (Forall_forall _ _) Hs p Hp)) as (s&->&Hr).
    eexists. split; [done|]. split; [rewrite dom_insert_L, Hdom, fmap_app, list_to_set_app_L; cbn; set_solver|].
    intros i q [Hi|[Hge [Hz <-]%list_lookup_singleton_Some]]%lookup_app_Some Hlast.
    + pose proof (lookup_lt_Some _ _ _ Hi). rewrite lookup_insert_ne; [|apply (Hlast (length read)); [|done]].
      * apply (HI i); [done|]. intros j q' Hj. apply Hlast. by apply lookup_app_l_Some.
      * by rewrite lookup_app_r, Nat.sub_diag by lia.
    + rewrite lookup_insert_eq. eauto.
Qed.

End Tool.

(** C28 With an ASCII dictionary (or none), and names short enough for the distances to fit
    into 32 bits, the checker reports for every source file the bad names and the misspelt words
    that the rules of the readme ask for, in the order in which the declarations were found,
    with two exceptions: protected members that are not constants and methods called run, which
    the readme asks to check, are left out.  For a file [p], the last one with its file name,
    the result is the concatenation over the other names: one bad name when the rule of its kind
    does not accept the name, and otherwise one mistake for each word of the name longer than
    three letters whose nearest word of the dictionary is at a distance of one to three edits,
    with the first such word; nothing when there is no dictionary.  No distance computation
    fails or wraps around. *)
Theorem check_names_correct {SourceLocation : Type} (isInSystemHeader : SourceLocation → bool)
    (getExpansionLoc : SourceLocation → SourceLocation) (getFilename : SourceLocation → bytes)
    (getExpansionLineNumber : SourceLocation → Z) (matches_in : bytes → list (@MatchResult SourceLocation))
    (dict : option bytes) (paths : list bytes) :
  Forall is_ascii (default [] dict) →
  (∀ p e, p ∈ paths → e ∈ mjoin (entities isInSystemHeader <$> matches_in p) →
    (Z.of_nat (length (e_shown e) + length (default [] dict)) < 2 ^ 32 - 1)%Z) →
  ∃ res,
    CheckNames isInSystemHeader getExpansionLoc getFilename getExpansionLineNumber matches_in dict (Some paths) = Ok res ∧
    dom res = list_to_set (path_filename <$> paths) ∧
    ∀ i p, paths !! i = Some p → (∀ j q, paths !! j = Some q → i < j → path_filename q ≠ path_filename p) →
      ∃ s, res !! path_filename p = Some s ∧
        all_reported getExpansionLoc getFilename getExpansionLineNumber (ParseDictFile (default [] dict))
          (checked (mjoin (entities isInSystemHeader <$> matches_in p))) s.
Proof.
  intros Ha Hs. unfold CheckNames.
  replace (match dict with Some content => ParseDictFile content | None => [] end) with (ParseDictFile (default [] dict))
    by (by destruct dict).
  apply check_files_ok.
  - apply Forall_forall. intros w Hw. by apply (parse_dict_word _ w Hw).
  - apply Forall_forall. intros p Hp. apply Forall_forall. intros e He. specialize (Hs p e Hp He).
    apply Forall_forall. intros w Hw. apply parse_dict_word in Hw as [_ ?]. lia.
Qed.

(** *** A file with a class: a private field without its underscore, a method with a misspelt
    word, and a protected field that is left out. *)
Module Demo.

Definition decl (line : nat) (name : bytes) (access : AccessSpecifier) : @Decl nat :=
  {| getLocation := line; getBeginLoc := line; getIdentifier := Some name; isConstQualified := false;
     isConstexpr := false; getAccess := access; isCanonicalDecl := true; isMain := false;
     parent_identifier := Some (str "Point"); parameters := [] |}.

Definition matches_in (_ : bytes) : list (@MatchResult nat) :=
  [{| type_decl := None; type_alias_decl := None; type_def_decl := None;
      method_decl := Some (decl 3 (str "PrintAnsver") AS_public); construct_decl := None; destruct_decl := None;
      field_decl := Some (decl 5 (str "count") AS_private); variable_decl := None; func_decl := None; enum_decl := None |};
   {| type_decl := None; type_alias_decl := None; type_def_decl := None; method_decl := None; construct_decl := None;
      destruct_decl := None; field_decl := Some (decl 6 (str "Wrong") AS_protected); variable_decl := None;
      func_decl := None; enum_decl := None |}].

Definition dict : bytes := str "print" ++ [ascii_of_nat 10] ++ str "answer".

Definition check : outcome (gmap bytes Statistics) :=
  CheckNames (λ _, false) id (λ _, str "/tmp/a.cpp") Z.of_nat matches_in (Some dict) (Some [str "/tmp/a.cpp"]).

Example check_result :
  check = Ok {[ str "a.cpp" :=
    {| bad_names := [{| bn_file := str "a.cpp"; bn_name := str "count"; bn_entity := kField; bn_line := 5 |}];
       mistakes := [{| mi_file := str "a.cpp"; mi_name := str "PrintAnsver"; mi_wrong_word := str "Ansver";
                       mi_ok_word := str "answer"; mi_line := 3 |}] |} ]}.
Proof. vm_compute. reflexivity. Qed.

Lemma check_names_correct_witness :
  ∃ res s, check = Ok res ∧ res !! str "a.cpp" = Some s ∧
    all_reported id (λ _, str "/tmp/a.cpp") Z.of_nat [str "print"; str "answer"]
      [{| e_kind := kFunction; e_name := str "PrintAnsver"; e_shown := str "PrintAnsver"; e_loc := 3; e_left_out := false |};
       {| e_kind := kField; e_name := str "count"; e_shown := str "count"; e_loc := 5; e_left_out := false |}] s.
Proof.
  destruct (check_names_correct (λ _, false) id (λ _, str "/tmp/a.cpp") Z.of_nat matches_in (Some dict) [str "/tmp/a.cpp"])
    as (res&H1&_&H2).
  - repeat constructor.
  - intros p e _ He.
    assert (forallb (λ e, length (e_shown e) <=? 20) (mjoin (entities (λ _, false) <$> matches_in p)) = true) as Hb
      by (vm_compute; reflexivity).
    rewrite forallb_forall in Hb. apply list_elem_of_In, Hb, Nat.leb_le in He.
    change (length (default [] (Some dict))) with 12. lia.
  - destruct (H2 0 (str "/tmp/a.cpp") eq_refl) as (s&Hs&Hr); [intros [|j] q Hj Hlt; [lia|discriminate]|].
    exists res, s. split_and!; [exact H1|exact Hs|exact Hr].
Defined.

End Demo.

End NamingRulesViolation.
