(* ===== verification/Net.v ===== *)
(** * Addresses and connections (tools/cactus/net)

    [SocketAddress] of address.h, and the stream sockets of net.cpp.  The system calls are
    parameters: [Kernel] lists those that a connection makes, [KernelSpec] what the code
    relies on.  [IConn] is the interface of net.h and [ConnSpec] what a connection promises
    to the programs that use it; [SocketConn] is shown to keep the promise over every
    kernel, however often calls are interrupted, would block, or transfer only a part. *)

From S2P Require Import Prelude Readers Writers Decimal.

#[local] Set Warnings "-clear-no-such-hyp".

(** ** Objects as bytes

    [View(pod)] of an unsigned integer on a little-endian machine. *)

Module Pod.

Fixpoint bytes_of (size : nat) (x : Z) : bytes :=
  match size with
  | O => []
  | S size => ascii_of_N (Z.to_N (x mod 256)) :: bytes_of size (x / 256)
  end.

Fixpoint value_of (l : bytes) : Z :=
  match l with [] => 0 | c :: l => Z.of_N (N_of_ascii c) + 256 * value_of l end.

Lemma bytes_of_length size x : length (bytes_of size x) = size.
Proof. revert x. induction size as [|size IH]; intros x; cbn; [done|by rewrite IH]. Qed.

Lemma value_bytes size x : (0 <= x < 256 ^ Z.of_nat size)%Z → value_of (bytes_of size x) = x.
Proof.
  revert x. induction size as [|size IH]; intros x Hx; [cbn in *; lia|]. cbn [bytes_of value_of].
  pose proof (Z.mod_pos_bound x 256 ltac:(lia)) as Hm.
  rewrite N_ascii_embedding by lia. rewrite Z2N.id by lia. rewrite IH.
  - pose proof (Z.div_mod x 256 ltac:(lia)). lia.
  - rewrite Nat2Z.inj_succ, Z.pow_succ_r in Hx by lia.
    split; [apply Z.div_pos; lia|apply Z.div_lt_upper_bound; lia].
Qed.

Lemma value_range l : (0 <= value_of l < 256 ^ Z.of_nat (length l))%Z.
Proof.
  induction l as [|c l IH]; [cbn; lia|]. cbn [value_of length]. rewrite Nat2Z.inj_succ, Z.pow_succ_r by lia.
  pose proof (N_ascii_bounded c). lia.
Qed.

End Pod.

(** ** [SocketAddress] *)

Module SocketAddress.

Record sockaddr_in : Type := { s_addr : Z; sin_port : Z }.

#[export] Instance sockaddr_in_eq_dec : EqDecision sockaddr_in.
Proof. solve_decision. Defined.

(** [sockaddr] with its length; the members after the family are those of [sockaddr_in]. *)
Record sockaddr : Type := { sa_family : Z; sa_in : sockaddr_in; sa_len : Z }.

Definition AF_INET : Z := 2.
Definition INET_ADDRSTRLEN : nat := 16.

(** [htons] and [ntohs] on a little-endian machine. *)
Definition htons (x : Z) : Z := ((x mod 256) * 256 + x / 256 mod 256)%Z.

Definition t : Type := option sockaddr_in.

Definition from_ip_port (ip port : Z) : t := Some {| s_addr := ip; sin_port := htons port |}.

Definition CheckEmpty (this : t) : outcome sockaddr_in :=
  match this with Some sa => Ok sa | None => Fail (Exn (RuntimeError "address is empty")) end.

Definition GetFamily (this : t) : outcome Z := _ <-? CheckEmpty this ;; Ok AF_INET.

Definition GetAddress (this : t) : outcome sockaddr :=
  sa <-? CheckEmpty this ;; Ok {| sa_family := AF_INET; sa_in := sa; sa_len := 16 |}.

Definition SetFromSockaddr (address : sockaddr) : outcome t :=
  if (sa_len address <? 2)%Z then Fail (Exn InvalidArgument)
  else if (sa_family address =? AF_INET)%Z then
    if (sa_len address <? 16)%Z then Fail (Exn InvalidArgument) else Ok (Some (sa_in address))
  else Fail (Exn InvalidArgument).

Definition GetPort (this : t) : outcome Z := sa <-? CheckEmpty this ;; Ok (htons (sin_port sa)).

Definition SetPort (this : t) (port : Z) : outcome t :=
  sa <-? CheckEmpty this ;; Ok (Some {| s_addr := s_addr sa; sin_port := htons port |}).

Definition GetIp (this : t) : outcome Z := sa <-? CheckEmpty this ;; Ok (s_addr sa).

Definition IsInitialized (this : t) : bool := match this with Some _ => true | None => false end.

Definition operator_eq (this other : t) : bool :=
  match this, other with
  | Some a, Some b => (s_addr a =? s_addr b)%Z && (sin_port a =? sin_port b)%Z
  | _, _ => Bool.eqb (IsInitialized this) (IsInitialized other)
  end.

(** The hash of an address that is set. *)
Definition hash (sa : sockaddr_in) : Z := u64 (Z.shiftl (s_addr sa) 16 + sin_port sa).

Section Names.

(** The resolver: [inet_pton] gives its result and the address that it stored, if it
    stored one; [getaddrinfo] an address or an error. *)
Context (inet_pton : bytes → Z * option Z) (getaddrinfo : bytes → bytes → option sockaddr).

Definition InitFromIp (ip : bytes) (port : Z) : outcome t :=
  if INET_ADDRSTRLEN <=? length ip then Fail (Exn InvalidArgument)
  else
    let '(ret, stored) := inet_pton ip in
    if (ret <? 0)%Z then Fail (Exn SystemError)
    else Ok (Some {| s_addr := default 0%Z stored; sin_port := htons port |}).

Definition InitFromName (name : bytes) (port : Z) : outcome t :=
  match getaddrinfo name (to_string port) with
  | None => Fail (Exn SystemError)
  | Some info =>
      this <-? SetFromSockaddr info ;;
      match this with
      | Some sa => Ok (Some {| s_addr := s_addr sa; sin_port := htons port |})
      | None => Fail UB
      end
  end.

Definition from_string (address : bytes) (port : Z) (lookup : bool) : outcome t :=
  if lookup then InitFromName address port else InitFromIp address port.

End Names.

Lemma htons_involutive x : (0 <= x < 2 ^ 16)%Z → htons (htons x) = x.
Proof.
  intros Hx. unfold htons. Z.to_euclidean_division_equations. lia.
Qed.

Lemma htons_range x : (0 <= htons x < 2 ^ 16)%Z.
Proof.
  unfold htons. pose proof (Z.mod_pos_bound x 256 ltac:(lia)). pose proof (Z.mod_pos_bound (x / 256) 256 ltac:(lia)). lia.
Qed.

Lemma port_of_set this port this' :
  (0 <= port < 2 ^ 16)%Z → SetPort this port = Ok this' → GetPort this' = Ok port ∧ GetIp this' = GetIp this.
Proof. destruct this as [sa|]; [|done]. intros Hp [= <-]. cbn. by rewrite htons_involutive. Qed.

(** A valid address compares equal to itself only. *)
Lemma operator_eq_ok a b : operator_eq a b = true ↔ a = b.
Proof.
  destruct a as [[ip port]|], b as [[ip' port']|]; cbn; try (split; done).
  rewrite andb_true_iff, !Z.eqb_eq. split; [intros [-> ->]; done|by intros [= -> ->]].
Qed.

(** What [GetAddress] stores is read back by [SetFromSockaddr]. *)
Lemma sockaddr_roundtrip this ss : GetAddress this = Ok ss → SetFromSockaddr ss = Ok this.
Proof. destruct this; [|done]. by intros [= <-]. Qed.

End SocketAddress.

(** ** [IConn] *)

Class IConn (C : Type) := {
  conn_reader :: IReader C;
  conn_writer :: IWriter C;
  CloseWrite : M C ();
}.

(** What a connection promises while it is not broken: the bytes that the other side
    sends and has not been asked for are [incoming], those that were sent to it
    [outgoing]; after [CloseWrite] every [Write] throws. *)
Class ConnSpec (C : Type) `{!IConn C} := {
  conn_ok : C → Prop;
  incoming : C → bytes;
  outgoing : C → bytes;
  write_closed : C → bool;
  conn_read : ∀ n c, conn_ok c → 0 < n →
    ∃ chunk c', Read n c = (Ok chunk, c') ∧ conn_ok c' ∧ incoming c = chunk ++ incoming c' ∧ length chunk ≤ n ∧
      (chunk = [] → incoming c = []) ∧ outgoing c' = outgoing c ∧ write_closed c' = write_closed c;
  conn_write : ∀ s c, conn_ok c → write_closed c = false →
    ∃ c', Write s c = (Ok (), c') ∧ conn_ok c' ∧ incoming c' = incoming c ∧ outgoing c' = outgoing c ++ s ∧
      write_closed c' = false;
  conn_write_fails : ∀ s c, conn_ok c → write_closed c = true → s ≠ [] →
    ∃ c', Write s c = (Fail (Exn SystemError), c') ∧ conn_ok c' ∧ incoming c' = incoming c ∧ outgoing c' = outgoing c ∧
      write_closed c' = true;
  conn_close_write : ∀ c, conn_ok c →
    ∃ c', CloseWrite c = (Ok (), c') ∧ conn_ok c' ∧ incoming c' = incoming c ∧ outgoing c' = outgoing c ∧
      write_closed c' = true;
}.

Section ConnFacts.
Context {C : Type} `{!IConn C, !ConnSpec C}.

(** A connection is a reader, and reading does not touch what was written. *)
#[program] Definition conn_reader_spec (o : bytes) (w : bool) : ReaderSpec C := {|
  reader_ok := λ c, conn_ok c ∧ outgoing c = o ∧ write_closed c = w;
  stream := incoming;
|}.
Next Obligation.
  intros o w n c (Hok&<-&<-) Hn. destruct (conn_read n c Hok Hn) as (chunk&c'&?&?&?&?&?&?&?). exists chunk, c'. done.
Qed.

Lemma conn_read_full c s rest :
  conn_ok c → incoming c = s ++ rest →
  ∃ c', ReadFull (length s) c = (Ok s, c') ∧ conn_ok c' ∧ incoming c' = rest ∧ outgoing c' = outgoing c ∧
    write_closed c' = write_closed c.
Proof.
  intros Hok Hs. destruct (@read_full_app _ _ (conn_reader_spec (outgoing c) (write_closed c)) c s rest) as (c'&?&(?&?&?)&?);
    [by split_and!|done|]. by exists c'.
Qed.

Lemma conn_read_eof c n :
  conn_ok c → length (incoming c) < n →
  ∃ c', ReadFull n c = (Fail (Exn EOFException), c') ∧ conn_ok c' ∧ incoming c' = [] ∧ outgoing c' = outgoing c ∧
    write_closed c' = write_closed c.
Proof.
  intros Hok Hs. destruct (@read_full_eof _ _ (conn_reader_spec (outgoing c) (write_closed c)) n c) as (c'&?&(?&?&?)&?);
    [by split_and!|done|]. by exists c'.
Qed.
End ConnFacts.

(** ** [SocketConn] *)

Inductive errno : Type := EINTR | EAGAIN | EINPROGRESS | Other (code : Z).

(** The result of a system call: what it gives, or -1 and [errno]. *)
Inductive sysres (A : Type) : Type := Ret (a : A) | Err (e : errno).
Arguments Ret {A} a.
Arguments Err {A} e.

(** The system calls on a connected socket, and [FDWatcher::Wait], which parks the
    fiber until the socket is ready and tells whether it was closed meanwhile. *)
Class Kernel (K : Type) := {
  sys_read : Z → nat → K → sysres bytes * K;
  sys_send : Z → bytes → K → sysres nat * K;
  sys_shutdown : Z → K → sysres () * K;
  watcher_Wait : Z → bool → M K bool;
}.

Module SocketConn.

Section Calls.
Context {K : Type} `{!Kernel K}.
Context (fuel : nat).

Fixpoint RestartEIntr {A} (n : nat) (syscall : K → sysres A * K) : M K (sysres A) :=
  match n with
  | O => failM Fuel
  | S n => λ k, match syscall k with
                | (Err EINTR, k) => RestartEIntr n syscall k
                | (r, k) => (Ok r, k)
                end
  end.

Context (fd_ : Z).

Fixpoint Read_loop (n : nat) (size : nat) : M K bytes :=
  match n with
  | O => failM Fuel
  | S n =>
      ret <- RestartEIntr fuel (sys_read fd_ size) ;;
      match ret with
      | Err EAGAIN =>
          closed <- watcher_Wait fd_ true ;;
          if closed : bool then throwM (RuntimeError "socket was closed") else Read_loop n size
      | Err _ => throwM SystemError
      | Ret data => retM data
      end
  end.

Fixpoint Write_loop (n : nat) (buf : bytes) : M K () :=
  match buf with
  | [] => retM ()
  | _ =>
      match n with
      | O => failM Fuel
      | S n =>
          ret <- RestartEIntr fuel (sys_send fd_ buf) ;;
          match ret with
          | Err EAGAIN =>
              closed <- watcher_Wait fd_ false ;;
              if closed : bool then throwM (RuntimeError "socket was closed") else Write_loop n buf
          | Err _ => throwM SystemError
          | Ret sent => if decide (length buf < sent) then failM UB else Write_loop n (drop sent buf)
          end
      end
  end.

Definition CloseWrite_ : M K () :=
  ret <- RestartEIntr fuel (sys_shutdown fd_) ;;
  match ret with Ret _ => retM () | Err _ => throwM SystemError end.

Definition iconn : IConn K := {|
  conn_reader := Read_loop fuel;
  conn_writer := λ buf, Write_loop (fuel + length buf) buf;
  CloseWrite := CloseWrite_;
|}.

End Calls.

(** What the code relies on, for a connected socket [fd] that is not broken: [read] and
    [send] transfer some bytes, or are interrupted, or would block; an end of the stream
    is told by an empty [read]; after [shutdown] a [send] fails; interruptions come to an
    end, after [patience]. *)
Class KernelSpec (K : Type) `{!Kernel K} (fd : Z) := {
  k_ok : K → Prop;
  k_in : K → bytes;
  k_out : K → bytes;
  k_shut : K → bool;
  patience : K → nat;
  read_law : ∀ n k, k_ok k → 0 < n →
    let '(r, k') := sys_read fd n k in
    k_ok k' ∧ k_out k' = k_out k ∧ k_shut k' = k_shut k ∧
    match r with
    | Ret data => k_in k = data ++ k_in k' ∧ length data ≤ n ∧ (data = [] → k_in k = []) ∧ patience k' ≤ patience k
    | Err EINTR | Err EAGAIN => k_in k' = k_in k ∧ patience k' < patience k
    | Err _ => False
    end;
  send_law : ∀ buf k, k_ok k → buf ≠ [] →
    let '(r, k') := sys_send fd buf k in
    k_ok k' ∧ k_in k' = k_in k ∧ k_shut k' = k_shut k ∧
    match r with
    | Ret sent => k_shut k = false ∧ 0 < sent ≤ length buf ∧ k_out k' = k_out k ++ take sent buf ∧ patience k' ≤ patience k
    | Err EINTR => k_out k' = k_out k ∧ patience k' < patience k
    | Err EAGAIN => k_shut k = false ∧ k_out k' = k_out k ∧ patience k' < patience k
    | Err _ => k_shut k = true ∧ k_out k' = k_out k ∧ patience k' ≤ patience k
    end;
  shutdown_law : ∀ k, k_ok k →
    let '(r, k') := sys_shutdown fd k in
    k_ok k' ∧ k_in k' = k_in k ∧ k_out k' = k_out k ∧
    match r with
    | Ret _ => k_shut k' = true ∧ patience k' ≤ patience k
    | Err EINTR => k_shut k' = k_shut k ∧ patience k' < patience k
    | Err _ => False
    end;
  wait_law : ∀ r k, k_ok k →
    ∃ k', watcher_Wait fd r k = (Ok false, k') ∧ k_ok k' ∧ k_in k' = k_in k ∧ k_out k' = k_out k ∧
      k_shut k' = k_shut k ∧ patience k' ≤ patience k;
}.

Section Spec.
Context {K : Type} `{!Kernel K} (fd : Z) `{!KernelSpec K fd} (fuel : nat).

(** [RestartEIntr] gives the result of a call that was not interrupted, made in a state
    in which what interruptions keep, [I], holds. *)
Lemma restart_ok {A} (n : nat) (syscall : K → sysres A * K) (I : K → Prop) k :
  I k → patience k < n →
  (∀ k, I k → ∀ k', syscall k = (Err EINTR, k') → I k' ∧ patience k' < patience k) →
  ∃ k1 r k', I k1 ∧ patience k1 ≤ patience k ∧ syscall k1 = (r, k') ∧ r ≠ Err EINTR ∧
    RestartEIntr n syscall k = (Ok r, k').
Proof.
  revert k. induction n as [|n IH]; intros k Hk Hn Hstep; [lia|]. cbn [RestartEIntr].
  destruct (syscall k) as [r k'] eqn:Hs. destruct r as [a|[]].
  2: { destruct (Hstep k Hk k' Hs) as [Hk' Hp].
       destruct (IH k') as (k1&r&k2&?&?&?&?&?); [done|lia|done|]. exists k1, r, k2. split_and!; try done. lia. }
  all: by exists k; eexists; eexists; split_and!; [done|lia|done|done|done].
Qed.

(** The states that differ from [k] by waiting only. *)
Definition waited (k k1 : K) : Prop :=
  k_ok k1 ∧ k_in k1 = k_in k ∧ k_out k1 = k_out k ∧ k_shut k1 = k_shut k ∧ patience k1 ≤ patience k.

Lemma socket_read_ok n size k :
  k_ok k → 0 < size → patience k < n → n ≤ fuel →
  ∃ data k', Read_loop fuel fd n size k = (Ok data, k') ∧ k_ok k' ∧ k_in k = data ++ k_in k' ∧ length data ≤ size ∧
    (data = [] → k_in k = []) ∧ k_out k' = k_out k ∧ k_shut k' = k_shut k ∧ patience k' ≤ patience k.
Proof.
  intros Hk Hs. revert k Hk. induction n as [|n IH]; intros k Hk Hp Hn; [lia|]. cbn [Read_loop].
  destruct (restart_ok fuel (sys_read fd size) (waited k) k) as (k1&r&k2&(H1&H2&H3&H4&H5)&_&Hc&Hr&Hrun).
  { by repeat split. }
  { lia. }
  { intros k1 (?&?&?&?&?) k2 Hk2. pose proof (read_law size k1 ltac:(done) Hs) as Hl. rewrite Hk2 in Hl.
    destruct Hl as (?&?&?&?&?). split; [|lia]. split_and!; congruence || lia || done. }
  pose proof (read_law size k1 H1 Hs) as Hl. rewrite Hc in Hl. destruct Hl as (Hk2&Ho&Hsh&Hl).
  mstep Hrun. destruct r as [data|[]]; try done.
  - destruct Hl as (Hin&Hlen&He&Hpat). exists data, k2. rewrite <- H2. split_and!; try done; try congruence. lia.
  - destruct Hl as (Hin&Hpat). destruct (wait_law true k2 Hk2) as (k3&Hw&Hk3&?&?&?&?). mstep Hw.
    destruct (IH k3) as (data&k4&->&?&?&?&?&?&?&?); [done|lia|lia|]. exists data, k4.
    split_and!; try done; try congruence; [|lia]. intros Hd. replace (k_in k) with (k_in k3) by congruence. auto.
Qed.

(** A call that sends, in a state that waiting reached. *)
Lemma send_step buf k :
  k_ok k → buf ≠ [] → patience k < fuel →
  ∃ r k', RestartEIntr fuel (sys_send fd buf) k = (Ok r, k') ∧ k_ok k' ∧ k_in k' = k_in k ∧ k_shut k' = k_shut k ∧
    match r with
    | Ret sent => k_shut k = false ∧ 0 < sent ≤ length buf ∧ k_out k' = k_out k ++ take sent buf ∧ patience k' ≤ patience k
    | Err EINTR => False
    | Err EAGAIN => k_shut k = false ∧ k_out k' = k_out k ∧ patience k' < patience k
    | Err _ => k_shut k = true ∧ k_out k' = k_out k ∧ patience k' ≤ patience k
    end.
Proof.
  intros Hk Hb Hp. destruct (restart_ok fuel (sys_send fd buf) (waited k) k) as (k1&r&k2&(H1&H2&H3&H4&H5)&_&Hc&Hr&Hrun).
  { by repeat split. }
  { lia. }
  { intros k1 (?&?&?&?&?) k2 Hk2. pose proof (send_law buf k1 ltac:(done) Hb) as Hl. rewrite Hk2 in Hl.
    destruct Hl as (?&?&?&?&?). split; [|lia]. split_and!; congruence || lia || done. }
  pose proof (send_law buf k1 H1 Hb) as Hl. rewrite Hc in Hl. destruct Hl as (?&?&?&Hl).
  exists r, k2. split_and!; [done|done|congruence|congruence|].
  rewrite H3, H4 in Hl. destruct r as [sent|[]]; [| |destruct Hl as (?&?&?)..]; try done; split_and!; try apply Hl; try done; try lia.
Qed.

Lemma socket_write_ok n buf k :
  k_ok k → k_shut k = false → patience k < fuel → patience k + length buf ≤ n →
  ∃ k', Write_loop fuel fd n buf k = (Ok (), k') ∧ k_ok k' ∧ k_in k' = k_in k ∧ k_out k' = k_out k ++ buf ∧
    k_shut k' = false ∧ patience k' ≤ patience k.
Proof.
  revert buf k. induction n as [|n IH]; intros buf k Hk Hsh Hp Hn; (destruct buf as [|c buf];
    [exists k; rewrite app_nil_r; by split_and!|]); [cbn in Hn; lia|].
  set (l := c :: buf) in *. change (Write_loop fuel fd (S n) l) with (bindM (RestartEIntr fuel (sys_send fd l)) (λ ret,
    match ret with
    | Err EAGAIN =>
        bindM (watcher_Wait fd false) (λ closed,
          if closed : bool then throwM (RuntimeError "socket was closed") else Write_loop fuel fd n l)
    | Err _ => throwM SystemError
    | Ret sent => if decide (length l < sent) then failM UB else Write_loop fuel fd n (drop sent l)
    end)).
  destruct (send_step l k) as (r&k'&Hrun&Hk'&Hin&Hs&Hr); [done|done|done|]. mstep Hrun. destruct r as [sent|[]].
  - destruct Hr as (_&Hsent&Hout&Hpat). rewrite decide_False by lia.
    destruct (IH (drop sent l) k') as (k2&->&?&?&Ho&?&?); [done|congruence|lia|rewrite length_drop; lia|].
    exists k2. rewrite Ho, Hout, <- app_assoc, take_drop. split_and!; try done; try congruence. lia.
  - done.
  - destruct Hr as (_&Hout&Hpat). destruct (wait_law false k' Hk') as (k3&Hw&?&?&?&?&?). mstep Hw.
    destruct (IH l k3) as (k4&->&?&?&Ho&?&?); [done|congruence|lia|lia|].
    exists k4. split_and!; try done; try congruence. lia.
  - destruct Hr. congruence.
  - destruct Hr. congruence.
Qed.

Lemma write_closed_fails n buf k :
  k_ok k → k_shut k = true → patience k < fuel → buf ≠ [] →
  ∃ k', Write_loop fuel fd (S n) buf k = (Fail (Exn SystemError), k') ∧ k_ok k' ∧ k_in k' = k_in k ∧ k_out k' = k_out k ∧
    k_shut k' = true ∧ patience k' ≤ patience k.
Proof.
  intros Hk Hsh Hp Hb. destruct buf as [|c buf]; [done|]. cbn [Write_loop].
  destruct (send_step (c :: buf) k) as (r&k'&Hrun&Hk'&Hin&Hs&Hr); [done|done|done|]. mstep Hrun.
  destruct r as [sent|[]]; try (destruct Hr; congruence); try done;
    exists k'; (split_and!; [done|done|done|apply Hr|congruence|apply Hr]).
Qed.

Lemma close_ok k :
  k_ok k → patience k < fuel →
  ∃ k', CloseWrite_ fuel fd k = (Ok (), k') ∧ k_ok k' ∧ k_in k' = k_in k ∧ k_out k' = k_out k ∧ k_shut k' = true ∧
    patience k' ≤ patience k.
Proof.
  intros Hk Hp. destruct (restart_ok fuel (sys_shutdown fd) (waited k) k) as (k1&r&k2&(H1&H2&H3&H4&H5)&_&Hc&Hr&Hrun).
  { by repeat split. }
  { lia. }
  { intros k1 (?&?&?&?&?) k2 Hk2. pose proof (shutdown_law k1 ltac:(done)) as Hl. rewrite Hk2 in Hl.
    destruct Hl as (?&?&?&?&?). split; [|lia]. split_and!; congruence || lia || done. }
  pose proof (shutdown_law k1 H1) as Hl. rewrite Hc in Hl. destruct Hl as (?&?&?&Hl).
  unfold CloseWrite_. mstep Hrun. destruct r as [?|[]]; try done. destruct Hl as [Hs1 Hs2].
  exists k2. split_and!; try done; try congruence. lia.
Qed.

(** The promise of [IConn], as long as there is fuel for the waits to come. *)
#[program] Definition conn_spec : @ConnSpec K (iconn fuel fd) := {|
  conn_ok := λ k, k_ok k ∧ patience k < fuel;
  incoming := k_in;
  outgoing := k_out;
  write_closed := k_shut;
|}.
Next Obligation.
  intros n k [Hk Hp] Hn. destruct (socket_read_ok fuel n k Hk Hn Hp) as (d&k'&?&?&?&?&?&?&?&?); [done|].
  exists d, k'. split_and!; try done. lia.
Qed.
Next Obligation.
  intros s k [Hk Hp] Hsh. destruct (socket_write_ok (fuel + length s) s k) as (k'&?&?&?&?&?&?); [done|done|done|lia|].
  exists k'. split_and!; try done. lia.
Qed.
Next Obligation.
  intros s k [Hk Hp] Hsh Hs. destruct fuel as [|m] eqn:Hf; [lia|]. rewrite <- Hf in *.
  destruct (write_closed_fails (m + length s) s k) as (k'&?&?&?&?&?&?); [done|done|done|done|].
  exists k'. split_and!; try done; [|lia]. unfold Write. cbn. by rewrite Hf in *.
Qed.
Next Obligation.
  intros k [Hk Hp]. destruct (close_ok k Hk Hp) as (k'&?&?&?&?&?&?). exists k'. split_and!; try done. lia.
Qed.

End Spec.

End SocketConn.

(** C30 [SocketConn] keeps the promise of [IConn] on every connected socket: a [Read] hands
    out the next bytes that the other side sent and is empty only at their end; a [Write]
    sends all of its bytes, in order; after [CloseWrite], which leaves the other
    direction open, a [Write] throws and sends nothing.  This holds however the kernel
    interrupts the calls, lets them block, or transfers only a part, and none of the loops
    runs for ever. *)
Theorem socket_conn_correct {K : Type} `{!Kernel K} (fd : Z) `{!SocketConn.KernelSpec K fd} (fuel : nat) (k : K) :
  SocketConn.k_ok k → SocketConn.patience k < fuel →
  (∀ size, 0 < size →
    ∃ data k', SocketConn.Read_loop fuel fd fuel size k = (Ok data, k') ∧
      SocketConn.k_in k = data ++ SocketConn.k_in k' ∧ length data ≤ size ∧ (data = [] → SocketConn.k_in k = [])) ∧
  (∀ buf, SocketConn.k_shut k = false →
    ∃ k', SocketConn.Write_loop fuel fd (fuel + length buf) buf k = (Ok (), k') ∧
      SocketConn.k_out k' = SocketConn.k_out k ++ buf ∧ SocketConn.k_in k' = SocketConn.k_in k) ∧
  (∀ buf, SocketConn.k_shut k = true → buf ≠ [] →
    ∃ k', SocketConn.Write_loop fuel fd (fuel + length buf) buf k = (Fail (Exn SystemError), k') ∧
      SocketConn.k_out k' = SocketConn.k_out k) ∧
  (∃ k', SocketConn.CloseWrite_ fuel fd k = (Ok (), k') ∧ SocketConn.k_shut k' = true ∧
    SocketConn.k_in k' = SocketConn.k_in k ∧ SocketConn.k_out k' = SocketConn.k_out k).
Proof.
  intros Hk Hp. pose (spec := SocketConn.conn_spec fd fuel). split_and!.
  - intros size Hs. destruct (@conn_read K _ spec size k) as (d&k'&?&_&?&?&?&_); [done|done|]. by exists d, k'.
  - intros buf Hb. destruct (@conn_write K _ spec buf k) as (k'&?&_&?&?&_); [done|done|]. by exists k'.
  - intros buf Hb Hne. destruct (@conn_write_fails K _ spec buf k) as (k'&?&_&?&?&_); [done|done|done|]. by exists k'.
  - destruct (@conn_close_write K _ spec k) as (k'&?&_&?&?&?); [done|]. by exists k'.
Qed.

(** ** A kernel

    One socket; how the next calls go is a list of moods, after which they go through. *)

Module Toy.

Inductive mood : Type := Interrupted | Blocked | Part (n : nat).

Record kernel : Type := { input : bytes; output : bytes; shut : bool; moods : list mood }.

Definition next (k : kernel) : option mood * kernel :=
  match moods k with
  | [] => (None, k)
  | m :: ms => (Some m, {| input := input k; output := output k; shut := shut k; moods := ms |})
  end.

Definition read (n : nat) (k : kernel) : sysres bytes * kernel :=
  let '(m, k) := next k in
  let give n := (Ret (take n (input k)), {| input := drop n (input k); output := output k; shut := shut k; moods := moods k |}) in
  match m with
  | Some Interrupted => (Err EINTR, k)
  | Some Blocked => (Err EAGAIN, k)
  | Some (Part m) => give (min n (S m))
  | None => give n
  end.

Definition send (buf : bytes) (k : kernel) : sysres nat * kernel :=
  let '(m, k) := next k in
  let put n := if shut k then (Err (Other 32), k)
    else (Ret n, {| input := input k; output := output k ++ take n buf; shut := false; moods := moods k |}) in
  match m with
  | Some Interrupted => (Err EINTR, k)
  | Some Blocked => if shut k then (Err (Other 32), k) else (Err EAGAIN, k)
  | Some (Part m) => put (min (length buf) (S m))
  | None => put (length buf)
  end.

Definition shutdown (k : kernel) : sysres () * kernel :=
  match next k with
  | (Some Interrupted, k) => (Err EINTR, k)
  | (_, k) => (Ret (), {| input := input k; output := output k; shut := true; moods := moods k |})
  end.

#[global] Instance kernel_calls : Kernel kernel := {|
  sys_read := λ _, read;
  sys_send := λ _, send;
  sys_shutdown := λ _, shutdown;
  watcher_Wait := λ _ _, retM false;
|}.

#[global, program] Instance kernel_spec fd : SocketConn.KernelSpec kernel fd := {|
  SocketConn.k_ok := λ _, True;
  SocketConn.k_in := input;
  SocketConn.k_out := output;
  SocketConn.k_shut := shut;
  SocketConn.patience := λ k, length (moods k);
|}.
Next Obligation.
  intros fd n k _ Hn. cbn. unfold read, next. destruct k as [i o s [|[| |m] ms]]; cbn; split_and!; try done; try lia;
    try (by rewrite take_drop); try (rewrite length_take; lia); intros He; destruct i; try done; destruct n; try done; lia.
Qed.
Next Obligation.
  intros fd buf k _ Hb. cbn. unfold send, next. destruct k as [i o s [|[| |m] ms]]; destruct buf as [|c buf]; try done;
    destruct s; cbn; split_and!; try done; try lia; by rewrite ?firstn_all.
Qed.
Next Obligation. intros fd k _. cbn. unfold shutdown, next. destruct k as [i o s [|[| |m] ms]]; cbn; split_and!; done || lia. Qed.
Next Obligation. intros fd r k _. by exists k. Qed.

(** Thirteen bytes that arrive in parts, with an interruption. *)
Definition demo : kernel := {| input := str "hello, socket"; output := []; shut := false; moods := [Interrupted; Blocked; Part 4] |}.

End Toy.

Lemma socket_conn_correct_witness :
  ∃ data k', SocketConn.Read_loop 4 3 4 256 Toy.demo = (Ok data, k') ∧ data = str "hello" ∧
    Toy.input k' = str ", socket".
Proof.
  destruct (socket_conn_correct 3 4 Toy.demo) as (H&_).
  - done.
  - cbn. lia.
  - destruct (H 256) as (data&k'&Hr&Hin&_); [lia|]. exists data, k'. split; [done|].
    assert (SocketConn.Read_loop 4 3 4 256 Toy.demo = (Ok (str "hello"),
      {| Toy.input := str ", socket"; Toy.output := []; Toy.shut := false; Toy.moods := [] |})) as Hv by reflexivity.
    rewrite Hv in Hr. injection Hr as <- <-. done.
Defined.
