(* ===== verification/Sockets.v ===== *)
(** * Descriptors (tools/cactus/net/net.cpp, poller.cpp)

    How [SocketConn], [SocketListener] and [PacketConn] get and give back file descriptors:
    the constructors, [DialTCP], [ListenTCP], [ListenUDP], [Accept], [Close], and the loops of
    [RecvFrom] and [SendTo].  [FDWatcher] registers a descriptor with epoll.  The system
    calls are parameters and may fail, except that closing an owned descriptor and removing
    a registered one from epoll are taken to succeed.

    A call that throws leaves no descriptor behind, whichever of its system calls failed;
    what a call gives back owns exactly one new descriptor, and [Close] releases it. *)

From S2P Require Import Prelude Readers Net.
Import SocketAddress.

#[local] Set Warnings "-clear-no-such-hyp".

(** The system calls; [debug] says whether [DCHECK] is compiled in. *)
Class Descriptors (W : Type) := {
  debug : bool;
  sys_socket : W → sysres Z * W;
  sys_close : Z → W → sysres () * W;
  epoll_add : Z → W → sysres () * W;
  epoll_del : Z → W → sysres () * W;
  sys_setsockopt : Z → W → sysres () * W;
  sys_bind : Z → sockaddr → W → sysres () * W;
  sys_listen : Z → W → sysres () * W;
  sys_getsockname : Z → W → sysres sockaddr * W;
  sys_connect : Z → sockaddr → W → sysres () * W;
  sys_getsockopt_error : Z → W → sysres (option errno) * W;
  sys_accept4 : Z → W → sysres (Z * sockaddr) * W;
  sys_recvfrom : Z → nat → W → sysres (bytes * sockaddr) * W;
  sys_sendto : Z → bytes → sockaddr → W → sysres nat * W;
  park_until_ready : Z → bool → M W bool;
}.

Section Sockets.
Context {W : Type} `{!Descriptors W} (fuel : nat).

(** [if (ret == -1) throw std::system_error] *)
Definition checked {A} (r : sysres A) : M W A := match r with Ret a => retM a | Err _ => throwM SystemError end.
(** [PCHECK(ret == 0)] *)
Definition PCHECK {A} (r : sysres A) : M W () := match r with Ret _ => retM () | Err _ => failM Abort end.
Definition call {A} (syscall : W → sysres A * W) : M W (sysres A) := λ w, let '(r, w) := syscall w in (Ok r, w).

(** [RestartEIntr] *)
Fixpoint restarted {A} (n : nat) (syscall : W → sysres A * W) : M W (sysres A) :=
  match n with
  | O => failM Fuel
  | S n => λ w, match syscall w with (Err EINTR, w) => restarted n syscall w | (r, w) => (Ok r, w) end
  end.

(** [FDWatcher::Init], which throws when epoll does not take the descriptor. *)
Definition Init (fd : Z) : M W () := r <- call (epoll_add fd) ;; checked r.
(** [FDWatcher::Reset] *)
Definition Reset (fd : Z) : M W () := r <- call (epoll_del fd) ;; PCHECK r.
(** [~FDWatcher] of a watcher whose [Init] threw: its [desc_] is still set. *)
Definition destroy_failed_watcher : M W () := if debug then failM Abort else retM ().

Definition close_checked (fd : Z) : M W () := r <- call (sys_close fd) ;; PCHECK r.

(** ** [SocketConn] *)

Record SocketConn : Type := { fd_ : Z; remote_ : SocketAddress.t; local_ : SocketAddress.t }.

(** The end of both constructors: [Init] and its handler. *)
Definition init_or_close (fd : Z) : M W () :=
  catch_all (Init fd) (λ e, close_checked fd ;;; destroy_failed_watcher ;;; throwM e).

Definition SocketConn_accepted (remote : SocketAddress.t) (fd : Z) : M W SocketConn :=
  init_or_close fd ;;; retM {| fd_ := fd; remote_ := remote; local_ := None |}.

Definition SocketConn_new (remote : SocketAddress.t) : M W SocketConn :=
  liftO (GetFamily remote) ;;;
  r <- call sys_socket ;;
  fd <- checked r ;;
  init_or_close fd ;;;
  retM {| fd_ := fd; remote_ := remote; local_ := None |}.

(** [Close] of the three classes, on the descriptor; the new value of [fd_]. *)
Definition Close (fd : Z) : M W Z :=
  if decide (fd = (-1)%Z) then retM fd else
  Reset fd ;;; close_checked fd ;;; retM (-1)%Z.

(** The inner loop of [FinishDial]: the local address. *)
Fixpoint dial_wait (n : nat) (fd : Z) : M W SocketAddress.t :=
  match n with
  | O => failM Fuel
  | S n =>
      closed <- park_until_ready fd false ;;
      if closed : bool then failM Abort else
      r <- restarted fuel (sys_getsockopt_error fd) ;;
      error <- checked r ;;
      match error with
      | None =>
          r <- restarted fuel (sys_getsockname fd) ;;
          ss <- checked r ;;
          liftO (SetFromSockaddr ss)
      | Some EINPROGRESS => dial_wait n fd
      | Some _ => throwM SystemError
      end
  end.

Definition FinishDial (conn : SocketConn) : M W SocketConn :=
  ss <- liftO (GetAddress (remote_ conn)) ;;
  r <- restarted fuel (sys_connect (fd_ conn) ss) ;;
  match r with
  | Err EINPROGRESS | Ret _ =>
      local <- dial_wait fuel (fd_ conn) ;;
      retM {| fd_ := fd_ conn; remote_ := remote_ conn; local_ := local |}
  | Err _ => throwM SystemError
  end.

(** An exception of [FinishDial] destroys the connection. *)
Definition DialTCP (to : SocketAddress.t) : M W SocketConn :=
  conn <- SocketConn_new to ;;
  catch_all (FinishDial conn) (λ e, Close (fd_ conn) ;;; throwM e).

(** ** [SocketListener] *)

(** The [try] block of the constructor from [setsockopt] to [getsockname]: the address that
    is listened at. *)
Definition listener_body (at_ : SocketAddress.t) (fd : Z) : M W SocketAddress.t :=
  r <- call (sys_setsockopt fd) ;; checked r ;;;
  ss <- liftO (GetAddress at_) ;;
  r <- call (sys_bind fd ss) ;; checked r ;;;
  r <- call (sys_listen fd) ;; checked r ;;;
  r <- call (sys_getsockname fd) ;; ss <- checked r ;;
  liftO (SetFromSockaddr ss).

(** [fd_] is -1 until [socket] gave a descriptor; the handler closes it in any case. *)
Definition SocketListener_new (at_ : SocketAddress.t) : M W SocketConn :=
  λ w,
  match liftO (GetFamily at_) w with
  | (Fail (Exn e), w) => (close_checked (-1) ;;; throwM e) w
  | (Fail f, w) => (Fail f, w)
  | (Ok _, w) =>
      match sys_socket w with
      | (Err _, w) => (close_checked (-1) ;;; throwM SystemError) w
      | (Ret fd, w) =>
          (a <- catch_all (listener_body at_ fd) (λ e, close_checked fd ;;; throwM e) ;;
           init_or_close fd ;;;
           retM {| fd_ := fd; remote_ := None; local_ := a |}) w
      end
  end.

Fixpoint Accept_loop (n : nat) (fd : Z) (at_ : SocketAddress.t) : M W SocketConn :=
  match n with
  | O => failM Fuel
  | S n =>
      r <- restarted fuel (sys_accept4 fd) ;;
      match r with
      | Err EAGAIN =>
          closed <- park_until_ready fd true ;;
          if closed : bool then throwM (RuntimeError "socket was closed") else Accept_loop n fd at_
      | Err _ => throwM SystemError
      | Ret (new_fd, ss) =>
          peer <- liftO (SetFromSockaddr ss) ;;
          conn <- SocketConn_accepted peer new_fd ;;
          retM {| fd_ := fd_ conn; remote_ := remote_ conn; local_ := at_ |}
      end
  end.

Definition Accept (listener : SocketConn) : M W SocketConn := Accept_loop fuel (fd_ listener) (local_ listener).

(** ** [PacketConn] *)

Definition PacketConn_new (at_ : SocketAddress.t) : M W SocketConn :=
  liftO (GetFamily at_) ;;;
  r <- call sys_socket ;;
  fd <- checked r ;;
  catch_all
    (if IsInitialized at_ then
       ss <- liftO (GetAddress at_) ;;
       r <- call (sys_bind fd ss) ;; checked r
     else retM ())
    (λ e, close_checked fd ;;; throwM e) ;;;
  init_or_close fd ;;;
  retM {| fd_ := fd; remote_ := None; local_ := at_ |}.

Fixpoint RecvFrom_loop (n : nat) (fd : Z) (size : nat) : M W (bytes * SocketAddress.t) :=
  match n with
  | O => failM Fuel
  | S n =>
      r <- restarted fuel (sys_recvfrom fd size) ;;
      match r with
      | Err EAGAIN =>
          closed <- park_until_ready fd true ;;
          if closed : bool then throwM (RuntimeError "socket was closed") else RecvFrom_loop n fd size
      | Err _ => throwM SystemError
      | Ret (data, ss) => from <- liftO (SetFromSockaddr ss) ;; retM (data, from)
      end
  end.

Fixpoint SendTo_loop (n : nat) (fd : Z) (buf : bytes) (to : SocketAddress.t) : M W nat :=
  match n with
  | O => failM Fuel
  | S n =>
      ss <- liftO (GetAddress to) ;;
      r <- restarted fuel (sys_sendto fd buf ss) ;;
      match r with
      | Err EAGAIN =>
          closed <- park_until_ready fd false ;;
          if closed : bool then throwM (RuntimeError "socket was closed") else SendTo_loop n fd buf to
      | Err _ => throwM SystemError
      | Ret sent => retM sent
      end
  end.

End Sockets.

(** ** What the code relies on

    [mine] are the open descriptors that this fiber's calls opened, [watched] those of
    them that epoll watches; what other fibers do while it is parked does not show. *)

Class DescriptorsSpec (W : Type) `{!Descriptors W} := {
  mine : W → gset Z;
  watched : W → gset Z;
  same : W → W → Prop := λ w w', mine w' = mine w ∧ watched w' = watched w;
  fds_nonneg : ∀ fd w, fd ∈ mine w → (0 <= fd)%Z;
  socket_law : ∀ w, match sys_socket w with
    | (Ret fd, w') => (fd ∉ mine w) ∧ (fd ∉ watched w) ∧ mine w' = {[fd]} ∪ mine w ∧ watched w' = watched w
    | (Err _, w') => same w w'
    end;
  close_law : ∀ fd w, fd ∈ mine w →
    ∃ w', sys_close fd w = (Ret (), w') ∧ mine w' = mine w ∖ {[fd]} ∧ watched w' = watched w ∖ {[fd]};
  close_bad : ∀ w, ∃ e w', sys_close (-1) w = (Err e, w') ∧ same w w';
  add_law : ∀ fd w, fd ∈ mine w → match epoll_add fd w with
    | (Ret _, w') => mine w' = mine w ∧ watched w' = {[fd]} ∪ watched w
    | (Err _, w') => same w w'
    end;
  del_law : ∀ fd w, fd ∈ watched w →
    ∃ w', epoll_del fd w = (Ret (), w') ∧ mine w' = mine w ∧ watched w' = watched w ∖ {[fd]};
  accept_law : ∀ fd w, match sys_accept4 fd w with
    | (Ret (new_fd, ss), w') =>
        (new_fd ∉ mine w) ∧ (new_fd ∉ watched w) ∧ mine w' = {[new_fd]} ∪ mine w ∧ watched w' = watched w ∧
        sa_family ss = AF_INET ∧ sa_len ss = 16%Z
    | (Err _, w') => same w w'
    end;
  setsockopt_law : ∀ fd w, same w (sys_setsockopt fd w).2;
  bind_law : ∀ fd ss w, same w (sys_bind fd ss w).2;
  listen_law : ∀ fd w, same w (sys_listen fd w).2;
  getsockname_law : ∀ fd w, same w (sys_getsockname fd w).2;
  connect_law : ∀ fd ss w, same w (sys_connect fd ss w).2;
  getsockopt_law : ∀ fd w, same w (sys_getsockopt_error fd w).2;
  recvfrom_law : ∀ fd size w, same w (sys_recvfrom fd size w).2;
  sendto_law : ∀ fd buf ss w, same w (sys_sendto fd buf ss w).2;
  park_law : ∀ fd r w, same w (park_until_ready fd r w).2 ∧
    match (park_until_ready fd r w).1 with Ok _ | Fail (Exn _) => True | _ => False end;
  park_own : ∀ fd r w, fd ∈ mine w → (park_until_ready fd r w).1 ≠ Ok true;
}.

Section Facts.
Context {W : Type} `{!Descriptors W, !DescriptorsSpec W} (fuel : nat).
Implicit Types (w : W).

Lemma same_refl w : same w w.
Proof. done. Qed.
Lemma same_trans w w' w'' : same w w' → same w' w'' → same w w''.
Proof. intros [? ?] [? ?]. split; congruence. Qed.

(** A call that touches no descriptor and does not end the program. *)
Definition benign {A} (r : outcome A) : Prop := match r with Fail (Abort | UB) => False | _ => True end.
Definition keeps {A} (c : M W A) (w : W) : Prop := same w (c w).2 ∧ benign (c w).1.

Lemma keeps_ret {A} (a : A) w : keeps (retM a) w.
Proof. done. Qed.
Lemma keeps_throw {A} e w : keeps (@throwM W A e) w.
Proof. done. Qed.
Lemma keeps_fuel {A} w : keeps (@failM W A Fuel) w.
Proof. done. Qed.
Lemma keeps_lift {A} (o : outcome A) w : benign o → keeps (liftO o) w.
Proof. done. Qed.

Lemma keeps_bind {A B} (c : M W A) (k : A → M W B) w :
  keeps c w → (∀ a w', c w = (Ok a, w') → same w w' → keeps (k a) w') → keeps (bindM c k) w.
Proof.
  unfold keeps, bindM. intros [Hs Hb] Hk. destruct (c w) as [[a|f] w'] eqn:Hc; cbn in *; [|done].
  destruct (Hk a w' eq_refl Hs) as [? ?]. split; [by eapply same_trans|done].
Qed.

Lemma keeps_checked {A} (r : sysres A) w : keeps (checked r) w.
Proof. by destruct r. Qed.

Lemma keeps_call {A} (f : W → sysres A * W) w : same w (f w).2 → keeps (call f) w.
Proof. unfold keeps, call. by destruct (f w). Qed.

Lemma keeps_restarted {A} n (f : W → sysres A * W) w : (∀ w, same w (f w).2) → keeps (restarted n f) w.
Proof.
  intros Hf. revert w. induction n as [|n IH]; intros w; [done|]. unfold keeps. cbn [restarted]. specialize (Hf w) as Hs.
  destruct (f w) as [[a|[]] w']; cbn in *; try done. destruct (IH w'). split; [by eapply same_trans|done].
Qed.

Lemma address_benign a : benign (GetAddress a).
Proof. by destruct a. Qed.
Lemma family_benign a : benign (GetFamily a).
Proof. by destruct a. Qed.
Lemma sockaddr_benign ss : benign (SetFromSockaddr ss).
Proof. unfold SetFromSockaddr. repeat case_match; done. Qed.

Lemma keeps_park fd r w : keeps (park_until_ready fd r) w.
Proof.
  destruct (park_law fd r w) as [Hs Hb]. split; [done|]. destruct (park_until_ready fd r w) as [[?|[]] ?]; done.
Qed.

Lemma keeps_dial_wait n fd w : fd ∈ mine w → keeps (dial_wait fuel n fd) w.
Proof.
  revert w. induction n as [|n IH]; intros w Hfd; cbn [dial_wait]; [done|].
  apply keeps_bind; [apply keeps_park|]. intros closed w1 Hc S1. destruct closed.
  { pose proof (park_own fd false w Hfd) as Hp. by rewrite Hc in Hp. }
  apply keeps_bind; [apply keeps_restarted, getsockopt_law|]. intros r w2 _ S2.
  apply keeps_bind; [apply keeps_checked|]. intros error w3 _ S3. destruct error as [[]|]; try done.
  - apply IH. destruct S1 as [E1 _], S2 as [E2 _], S3 as [E3 _]. by rewrite E3, E2, E1.
  - apply keeps_bind; [apply keeps_restarted, getsockname_law|]. intros r' w4 _ _.
    apply keeps_bind; [apply keeps_checked|]. intros ss w5 _ _. apply keeps_lift, sockaddr_benign.
Qed.

Lemma keeps_finish_dial conn w : fd_ conn ∈ mine w → keeps (FinishDial fuel conn) w.
Proof.
  intros Hfd. unfold FinishDial. apply keeps_bind; [apply keeps_lift, address_benign|]. intros ss w1 _ S1.
  apply keeps_bind; [apply keeps_restarted, connect_law|]. intros r w2 _ S2.
  assert (keeps (bindM (dial_wait fuel fuel (fd_ conn)) (λ local,
    retM {| fd_ := fd_ conn; remote_ := remote_ conn; local_ := local |})) w2) as Hk.
  { apply keeps_bind; [|by intros]. apply keeps_dial_wait. destruct S1 as [E1 _], S2 as [E2 _]. by rewrite E2, E1. }
  by destruct r as [?|[]].
Qed.

Lemma keeps_listener_body a fd w : keeps (listener_body a fd) w.
Proof.
  unfold listener_body. apply keeps_bind; [apply keeps_call, setsockopt_law|]. intros r w1 _ _.
  apply keeps_bind; [apply keeps_checked|]. intros _ w2 _ _.
  apply keeps_bind; [apply keeps_lift, address_benign|]. intros ss w3 _ _.
  apply keeps_bind; [apply keeps_call, bind_law|]. intros r2 w4 _ _. apply keeps_bind; [apply keeps_checked|]. intros _ w5 _ _.
  apply keeps_bind; [apply keeps_call, listen_law|]. intros r3 w6 _ _. apply keeps_bind; [apply keeps_checked|]. intros _ w7 _ _.
  apply keeps_bind; [apply keeps_call, getsockname_law|]. intros r4 w8 _ _. apply keeps_bind; [apply keeps_checked|]. intros ss' w9 _ _.
  apply keeps_lift, sockaddr_benign.
Qed.

Lemma keeps_recvfrom n fd size w : keeps (RecvFrom_loop fuel n fd size) w.
Proof.
  revert w. induction n as [|n IH]; intros w; cbn [RecvFrom_loop]; [done|].
  apply keeps_bind; [apply keeps_restarted, recvfrom_law|]. intros r w1 _ _.
  destruct r as [[data ss]|[]]; try done.
  - apply keeps_bind; [apply keeps_lift, sockaddr_benign|by intros].
  - apply keeps_bind; [apply keeps_park|]. intros [] w2 _ _; [done|apply IH].
Qed.

Lemma keeps_sendto n fd buf to w : keeps (SendTo_loop fuel n fd buf to) w.
Proof.
  revert w. induction n as [|n IH]; intros w; cbn [SendTo_loop]; [done|].
  apply keeps_bind; [apply keeps_lift, address_benign|]. intros ss w0 _ _.
  apply keeps_bind; [apply keeps_restarted, sendto_law|]. intros r w1 _ _.
  destruct r as [sent|[]]; try done. apply keeps_bind; [apply keeps_park|]. intros [] w2 _ _; [done|apply IH].
Qed.

(** ** Constructors *)

(** A call that gives back an object with one new descriptor, or leaves none behind; it
    ends the program only where [DCHECK] does. *)
Definition acquires (c : M W SocketConn) (w : W) : Prop :=
  match c w with
  | (Ok conn, w') => (fd_ conn ∉ mine w) ∧ (fd_ conn ∉ watched w) ∧
      mine w' = {[fd_ conn]} ∪ mine w ∧ watched w' = {[fd_ conn]} ∪ watched w
  | (Fail (Exn _), w') => same w w'
  | (Fail Fuel, _) => True
  | (Fail Abort, _) => debug = true
  | (Fail UB, _) => False
  end.

(** The descriptor [fd] was just opened: the tables before were [w]'s. *)
Definition opened (fd : Z) (w w1 : W) : Prop :=
  (fd ∉ mine w) ∧ (fd ∉ watched w) ∧ mine w1 = {[fd]} ∪ mine w ∧ watched w1 = watched w.

Lemma opened_same fd w w1 w2 : opened fd w w1 → same w1 w2 → opened fd w w2.
Proof. intros (?&?&?&?) [? ?]. split_and!; congruence || done. Qed.

Lemma close_opened fd w w1 :
  opened fd w w1 → ∃ w2, close_checked fd w1 = (Ok (), w2) ∧ same w w2.
Proof.
  intros (Hn&Hw&Hm&Hwt). destruct (close_law fd w1) as (w2&Hc&Hm2&Hw2); [rewrite Hm; set_solver|].
  exists w2. unfold close_checked, call, bindM. rewrite Hc. split; [done|]. split; [rewrite Hm2, Hm|rewrite Hw2, Hwt]; set_solver.
Qed.

(** Registering the new descriptor, and giving back the object. *)
Lemma init_acquires fd w w1 r l :
  opened fd w w1 → acquires (λ _, (init_or_close fd ;;; retM {| fd_ := fd; remote_ := r; local_ := l |}) w1) w.
Proof.
  intros Ho. pose proof Ho as (Hn&Hw&Hm&Hwt). unfold acquires, init_or_close, Init, call.
  pose proof (add_law fd w1 ltac:(rewrite Hm; set_solver)) as Ha. unfold bindM at 1, catch_all, bindM at 1.
  destruct (epoll_add fd w1) as [[[]|e] w2]; cbn.
  - destruct Ha as [Hm2 Hw2]. rewrite Hm2, Hw2, Hwt. done.
  - destruct (close_opened fd w w2 (opened_same _ _ _ _ Ho Ha)) as (w3&Hc&Hs). rewrite (bindM_ok _ _ _ _ _ Hc).
    unfold destroy_failed_watcher. destruct debug eqn:Hd; cbn; done.
Qed.

(** The same after calls that may throw, whose handler closes the descriptor. *)
Lemma handled_acquires {A} fd w w1 (c : M W A) (r l : A → SocketAddress.t) :
  opened fd w w1 → keeps c w1 →
  acquires (λ _, (a <- catch_all c (λ e, close_checked fd ;;; throwM e) ;;
    init_or_close fd ;;; retM {| fd_ := fd; remote_ := r a; local_ := l a |}) w1) w.
Proof.
  intros Ho [Hs Hb]. unfold acquires, bindM at 1, catch_all at 1. destruct (c w1) as [[a|f] w2]; cbn in Hs, Hb.
  - apply (init_acquires fd w w2 (r a) (l a)). by eapply opened_same.
  - destruct f; try done. destruct (close_opened fd w w2) as (w3&Hc&Hs3); [by eapply opened_same|].
    by rewrite (bindM_ok _ _ _ _ _ Hc).
Qed.

Lemma acquires_ext (c c' : M W SocketConn) w : c w = c' w → acquires c' w → acquires c w.
Proof. unfold acquires. by intros ->. Qed.

Lemma conn_new_acquires remote w : acquires (SocketConn_new remote) w.
Proof.
  destruct remote as [sa|]; [|done]. pose proof (socket_law w) as Hs.
  destruct (sys_socket w) as [[fd|e] w1] eqn:Hk.
  - eapply acquires_ext; [|apply (init_acquires fd w w1 (Some sa) None); destruct Hs as (?&?&?&?); by split_and!].
    unfold SocketConn_new, call, bindM. cbn. by rewrite Hk.
  - unfold acquires, SocketConn_new, call, bindM. cbn. by rewrite Hk.
Qed.

Lemma packet_new_acquires a w : acquires (PacketConn_new a) w.
Proof.
  destruct a as [sa|]; [|done]. pose proof (socket_law w) as Hs. destruct (sys_socket w) as [[fd|e] w1] eqn:Hk.
  - eapply acquires_ext; [|apply (handled_acquires fd w w1 (r <- call (sys_bind fd {| sa_family := AF_INET; sa_in := sa; sa_len := 16 |}) ;; checked r)
      (λ _, None) (λ _, Some sa)); [destruct Hs as (?&?&?&?); by split_and!|]].
    + unfold PacketConn_new. cbn. unfold bindM at 1, call at 1. rewrite Hk. done.
    + apply keeps_bind; [apply keeps_call, bind_law|]. intros. apply keeps_checked.
  - unfold acquires, PacketConn_new, call, bindM. cbn. by rewrite Hk.
Qed.

Lemma accept_acquires n fd a w : acquires (Accept_loop fuel n fd a) w.
Proof.
  assert (∀ m w, match restarted m (sys_accept4 fd) w with
    | (Ok (Ret (new_fd, ss)), w') => opened new_fd w w' ∧ sa_family ss = AF_INET ∧ sa_len ss = 16%Z
    | (Ok (Err _), w') => same w w'
    | (Fail f, _) => f = Fuel
    end) as Hr.
  { intros m. induction m as [|m IH]; intros w0; cbn [restarted]; [done|]. pose proof (accept_law fd w0) as Ha.
    destruct (sys_accept4 fd w0) as [[[nfd ss]|[]] w1]; try done; [by destruct Ha as (?&?&?&?&?&?); split_and!|].
    specialize (IH w1). destruct (restarted m (sys_accept4 fd) w1) as [[[[nfd ss]|e]|f] w2]; try done.
    - destruct IH as (Ho&?&?), Ha as [E1 E2]. unfold opened in *. rewrite E1, E2 in Ho. done.
    - by eapply same_trans. }
  revert w. induction n as [|n IH]; intros w; cbn [Accept_loop]; [done|]. specialize (Hr fuel w).
  destruct (restarted fuel (sys_accept4 fd) w) as [[[[nfd ss]|e]|f] w1] eqn:Hc.
  - destruct Hr as (Ho&Hf&Hl). pose proof (init_acquires nfd w w1 (Some (sa_in ss)) a Ho) as Hi. revert Hi. unfold acquires.
    rewrite (bindM_ok _ _ _ _ _ Hc). cbn beta iota. unfold bindM at 1 3, liftO, SetFromSockaddr. rewrite Hf, Hl. cbn.
    unfold SocketConn_accepted, bindM. destruct (init_or_close nfd w1) as [[[]|[]] w2]; done.
  - assert (∀ k, acquires k w1 → acquires (λ w, k w1) w) as Hsame.
    { intros k. unfold acquires. destruct Hr as [Hm Hw]. destruct (k w1) as [[conn|[]] w2]; try done; unfold same; by rewrite Hm, Hw. }
    destruct e; try (by unfold acquires; rewrite (bindM_ok _ _ _ _ _ Hc)).
    eapply acquires_ext; [|apply (Hsame (closed <- park_until_ready fd true ;;
      if closed : bool then throwM (RuntimeError "socket was closed") else Accept_loop fuel n fd a))].
    + by rewrite (bindM_ok _ _ _ _ _ Hc).
    + destruct (keeps_park fd true w1) as [Hs Hb]. unfold acquires, bindM.
      destruct (park_until_ready fd true w1) as [[closed|[]] w2]; try done. cbn in Hs. destruct closed; [done|].
      specialize (IH w2). revert IH. unfold acquires. destruct Hs as [Hm Hw].
      destruct (Accept_loop fuel n fd a w2) as [[conn|[]] w3]; try done; unfold same; by rewrite Hm, Hw.
  - subst f. unfold acquires. by rewrite (bindM_fail _ _ _ _ _ Hc).
Qed.

(** [Close] gives the descriptor back. *)
Lemma close_releases fd w :
  fd ∈ mine w → fd ∈ watched w →
  ∃ w', Close fd w = (Ok (-1)%Z, w') ∧ mine w' = mine w ∖ {[fd]} ∧ watched w' = watched w ∖ {[fd]}.
Proof.
  intros Hm Hw. unfold Close. rewrite decide_False by (intros ->; apply fds_nonneg in Hm; lia).
  destruct (del_law fd w Hw) as (w1&Hd&Hm1&Hw1). destruct (close_law fd w1) as (w2&Hc&Hm2&Hw2); [by rewrite Hm1|].
  exists w2. unfold Reset, close_checked, call, bindM. rewrite Hd. cbn. rewrite Hc. cbn.
  split; [done|]. rewrite Hm2, Hm1, Hw2, Hw1. split; [done|]. set_solver.
Qed.

Lemma dial_acquires to w : acquires (DialTCP fuel to) w.
Proof.
  pose proof (conn_new_acquires to w) as Hn. unfold acquires in *. unfold DialTCP, bindM at 1.
  destruct (SocketConn_new to w) as [[conn|f] w1]; [|done]. destruct Hn as (Hnew&Hnw&Hm&Hw).
  destruct (keeps_finish_dial conn w1) as [Hs Hb]; [rewrite Hm; set_solver|]. unfold catch_all.
  assert (∀ c w2, FinishDial fuel conn w1 = (Ok c, w2) → fd_ c = fd_ conn) as Hfd.
  { intros c w2. unfold FinishDial. intros (ss&?&_&(r&?&_&H2)%bindM_ok_inv)%bindM_ok_inv.
    destruct r as [?|[]]; try done; apply bindM_ok_inv in H2 as (?&?&_&[= <- _]); done. }
  destruct (FinishDial fuel conn w1) as [[c|f] w2] eqn:Hf; cbn in Hs, Hb; destruct Hs as [Hm2 Hw2].
  - rewrite (Hfd c w2 eq_refl), Hm2, Hw2. done.
  - destruct f as [e| | |]; try done. destruct (close_releases (fd_ conn) w2) as (w3&Hc&Hm3&Hw3);
      [rewrite Hm2, Hm; set_solver|rewrite Hw2, Hw; set_solver|]. rewrite (bindM_ok _ _ _ _ _ Hc).
    split; [rewrite Hm3, Hm2, Hm|rewrite Hw3, Hw2, Hw]; set_solver.
Qed.

Lemma listener_acquires a w fd w1 : sys_socket w = (Ret fd, w1) → acquires (SocketListener_new (Some a)) w.
Proof.
  intros Hk. pose proof (socket_law w) as Hs. rewrite Hk in Hs.
  eapply acquires_ext; [|apply (handled_acquires fd w w1 (listener_body (Some a) fd) (λ _, None) (λ a, a));
    [destruct Hs as (?&?&?&?); by split_and!|apply keeps_listener_body]].
  unfold SocketListener_new. cbn. by rewrite Hk.
Qed.

(** When [socket] fails, the handler closes the descriptor -1, and the check of that
    call ends the program instead of throwing. *)
Lemma listener_closes_nothing a w e w1 : sys_socket w = (Err e, w1) → (SocketListener_new a w).1 = Fail Abort.
Proof.
  intros Hk. unfold SocketListener_new, close_checked, call, bindM. destruct a as [sa|]; cbn.
  - rewrite Hk. destruct (close_bad w1) as (e'&w2&->&_). done.
  - destruct (close_bad w) as (e'&w2&->&_). done.
Qed.

End Facts.

(** C31 Whichever system calls fail, no descriptor is leaked or closed twice: [DialTCP],
    [ListenUDP], [Accept], and [ListenTCP] once its [socket] call has succeeded, give back an
    object with exactly one new descriptor, which epoll watches, or throw and leave the
    descriptors as they were; [Close] releases both; and [RecvFrom] and [SendTo] do not touch
    them.  The program is not ended but by the [DCHECK] of a watcher whose [Init] threw. *)
Theorem descriptors_owned {W : Type} `{!Descriptors W, !DescriptorsSpec W} (fuel : nat) (w : W) :
  (∀ to, acquires (DialTCP fuel to) w) ∧ (∀ at_, acquires (PacketConn_new at_) w) ∧
  (∀ listener, acquires (Accept fuel listener) w) ∧
  (∀ a fd w1, sys_socket w = (Ret fd, w1) → acquires (SocketListener_new (Some a)) w) ∧
  (∀ fd, fd ∈ mine w → fd ∈ watched w →
    ∃ w', Close fd w = (Ok (-1)%Z, w') ∧ mine w' = mine w ∖ {[fd]} ∧ watched w' = watched w ∖ {[fd]}) ∧
  (∀ n fd size, keeps (RecvFrom_loop fuel n fd size) w) ∧ (∀ n fd buf to, keeps (SendTo_loop fuel n fd buf to) w).
Proof.
  split_and!.
  - intros to. apply dial_acquires.
  - intros a. apply packet_new_acquires.
  - intros listener. apply accept_acquires.
  - intros a fd w1. apply listener_acquires.
  - intros fd. apply close_releases.
  - intros n fd size. apply keeps_recvfrom.
  - intros n fd buf to. apply keeps_sendto.
Qed.

(** ** A kernel with descriptors

    The next calls fail as the list says. *)

Module ToyFds.

Record world : Type := { open_ : gset nat; eps : gset nat; fails : list bool }.

Definition attempt {A} (a : A) (next : world → world) (w : world) : sysres A * world :=
  match fails w with
  | true :: l => (Err (Other 24), {| open_ := open_ w; eps := eps w; fails := l |})
  | _ => (Ret a, next {| open_ := open_ w; eps := eps w; fails := tail (fails w) |})
  end.

Definition some_address : sockaddr := {| sa_family := AF_INET; sa_in := {| s_addr := 0; sin_port := 0 |}; sa_len := 16 |}.

Definition open_fd (w : world) : Z * (world → world) :=
  let n := fresh (open_ w ∪ eps w) in
  (Z.of_nat n, λ w, {| open_ := {[n]} ∪ open_ w; eps := eps w; fails := fails w |}).

#[global] Instance calls : Descriptors world := {|
  debug := false;
  sys_socket := λ w, attempt (open_fd w).1 (open_fd w).2 w;
  sys_close := λ fd w, if decide (fd < 0)%Z then (Err (Other 9), w)
    else (Ret (), {| open_ := open_ w ∖ {[Z.to_nat fd]}; eps := eps w ∖ {[Z.to_nat fd]}; fails := fails w |});
  epoll_add := λ fd, attempt () (λ w, {| open_ := open_ w; eps := {[Z.to_nat fd]} ∪ eps w; fails := fails w |});
  epoll_del := λ fd w, (Ret (), {| open_ := open_ w; eps := eps w ∖ {[Z.to_nat fd]}; fails := fails w |});
  sys_setsockopt := λ _, attempt () id;
  sys_bind := λ _ _, attempt () id;
  sys_listen := λ _, attempt () id;
  sys_getsockname := λ _, attempt some_address id;
  sys_connect := λ _ _, attempt () id;
  sys_getsockopt_error := λ _, attempt None id;
  sys_accept4 := λ _ w, attempt ((open_fd w).1, some_address) (open_fd w).2 w;
  sys_recvfrom := λ _ _, attempt ([], some_address) id;
  sys_sendto := λ _ buf _, attempt (length buf) id;
  park_until_ready := λ _ _, retM false;
|}.

Definition fds (s : gset nat) : gset Z := set_map Z.of_nat s.

Lemma fds_elem fd s : fd ∈ fds s → ∃ n, fd = Z.of_nat n ∧ n ∈ s.
Proof. apply elem_of_map. Qed.
Lemma fds_insert n s : fds ({[n]} ∪ s) = {[Z.of_nat n]} ∪ fds s.
Proof. unfold fds. set_solver. Qed.
Lemma fds_remove n s : fds (s ∖ {[n]}) = fds s ∖ {[Z.of_nat n]}.
Proof.
  unfold fds. apply set_eq. intros z. rewrite elem_of_difference, !elem_of_map, elem_of_singleton. split.
  - intros (m&->&Hm). split; [set_solver|]. intros ?. assert (m = n) by lia. set_solver.
  - intros [(m&->&Hm) Hne]. exists m. split; [done|]. apply elem_of_difference. split; [done|]. rewrite elem_of_singleton. by intros ->.
Qed.
Lemma fds_fresh w : ((open_fd w).1 ∉ fds (open_ w)) ∧ ((open_fd w).1 ∉ fds (eps w)).
Proof.
  pose proof (is_fresh (open_ w ∪ eps w)) as Hf. cbn. unfold fds.
  split; intros (m&Hm&Hin)%elem_of_map; assert (fresh (open_ w ∪ eps w) = m) by lia; set_solver.
Qed.

Lemma attempt_keeps {A} (a : A) w : open_ (attempt a id w).2 = open_ w ∧ eps (attempt a id w).2 = eps w.
Proof. unfold attempt. by destruct (fails w) as [|[] l]. Qed.

#[global, program] Instance spec : DescriptorsSpec world := {|
  mine := λ w, fds (open_ w);
  watched := λ w, fds (eps w);
|}.
Next Obligation. intros fd w (n&->&_)%fds_elem. lia. Qed.
Next Obligation.
  intros w. pose proof (fds_fresh w) as [H1 H2]. cbn. unfold attempt. destruct (fails w) as [|[] l]; cbn; try done;
    (split_and!; [exact H1|exact H2|apply fds_insert|done]).
Qed.
Next Obligation.
  intros fd w (n&->&Hn)%fds_elem. cbn. rewrite decide_False by lia. eexists. split; [done|]. cbn.
  by rewrite Nat2Z.id, !fds_remove.
Qed.
Next Obligation. intros w. by eexists _, w. Qed.
Next Obligation.
  intros fd w (n&->&Hn)%fds_elem. cbn. unfold attempt. destruct (fails w) as [|[] l]; cbn; try done;
    rewrite Nat2Z.id, fds_insert; done.
Qed.
Next Obligation. intros fd w (n&->&Hn)%fds_elem. eexists. split; [done|]. cbn. by rewrite Nat2Z.id, fds_remove. Qed.
Next Obligation.
  intros fd w. pose proof (fds_fresh w) as [H1 H2]. cbn. unfold attempt. destruct (fails w) as [|[] l]; cbn; try done;
    (split_and!; [exact H1|exact H2|apply fds_insert|done|done|done]).
Qed.
Next Obligation. intros fd w. cbn. destruct (attempt_keeps () w) as [-> ->]. done. Qed.
Next Obligation. intros fd ss w. cbn. destruct (attempt_keeps () w) as [-> ->]. done. Qed.
Next Obligation. intros fd w. cbn. destruct (attempt_keeps () w) as [-> ->]. done. Qed.
Next Obligation. intros fd w. cbn. destruct (attempt_keeps some_address w) as [-> ->]. done. Qed.
Next Obligation. intros fd ss w. cbn. destruct (attempt_keeps () w) as [-> ->]. done. Qed.
Next Obligation. intros fd w. cbn. destruct (attempt_keeps (@None errno) w) as [-> ->]. done. Qed.
Next Obligation. intros fd size w. cbn. destruct (attempt_keeps (@nil ascii, some_address) w) as [-> ->]. done. Qed.
Next Obligation. intros fd buf ss w. cbn. destruct (attempt_keeps (length buf) w) as [-> ->]. done. Qed.
Next Obligation. done. Qed.
Next Obligation. done. Qed.

Definition exhausted : world := {| open_ := ∅; eps := ∅; fails := [true] |}.

End ToyFds.

(** With too many open files the constructor of the listener ends the program. *)
Example listener_aborts : (SocketListener_new (Some {| s_addr := 0; sin_port := 0 |}) ToyFds.exhausted).1 = Fail Abort.
Proof. vm_compute. reflexivity. Qed.

(** A dialling whose [connect] fails gives its descriptor back. *)
Lemma descriptors_owned_witness :
  ∃ w', DialTCP 3 (Some {| s_addr := 1; sin_port := 80 |})
      {| ToyFds.open_ := ∅; ToyFds.eps := ∅; ToyFds.fails := [false; false; true] |} = (Fail (Exn SystemError), w') ∧
    mine w' = ∅.
Proof.
  destruct (descriptors_owned 3 {| ToyFds.open_ := ∅; ToyFds.eps := ∅; ToyFds.fails := [false; false; true] |}) as (H&_).
  specialize (H (Some {| s_addr := 1; sin_port := 80 |})). unfold acquires in H. eexists. split; [vm_compute; reflexivity|].
  vm_compute. reflexivity.
Defined.
