(* ===== verification/Proxy.v ===== *)
(** * The SOCKS4 client and server (socks4, socksd)

    [Sock4Connect] and [DialProxyChain] of socks4.cpp, [ReadUserName], [MakeConn] and
    [TransferData] of socksd.cpp (balancer.cpp has the same [TransferData]), over any
    connection that keeps the promise of [IConn].  How a connection is dialled is a
    parameter.

    [parse_request] says what a request is.  The server answers every input as it asks,
    the requests of the client are the ones that it reads back, and the two fibers of a
    tunnel forward everything in every interleaving. *)

From S2P Require Import Prelude Readers Writers Net.
Import Pod SocketAddress.

#[local] Set Warnings "-clear-no-such-hyp".

Definition byte (n : Z) : bytes := bytes_of 1 n.

Section Socks.
Context {C : Type} `{!IConn C}.

(** ** The client *)

Definition Sock4Connect (endpoint : SocketAddress.t) (user : bytes) : M C () :=
  Write (byte 4) ;;;
  Write (byte 1) ;;;
  port <- liftO (GetPort endpoint) ;;
  Write (bytes_of 2 (htons port)) ;;;
  ip <- liftO (GetIp endpoint) ;;
  Write (bytes_of 4 ip) ;;;
  Write user ;;;
  Write (byte 0) ;;;
  vn <- ReadFull 1 ;;
  if decide (value_of vn ≠ 0%Z) then throwM (RuntimeError "std::exception") else
  cd <- ReadFull 1 ;;
  if decide (value_of cd ≠ 90%Z) then throwM (RuntimeError "std::exception") else
  ReadFull 2 ;;;
  ReadFull 4 ;;;
  retM ().

Record Proxy : Type := { proxy_address : SocketAddress.t; username : bytes }.

(** The loop over the proxies after the first, and the endpoint at its end. *)
Fixpoint connect_chain (previous : Proxy) (rest : list Proxy) (endpoint : SocketAddress.t) : M C () :=
  match rest with
  | [] => Sock4Connect endpoint (username previous)
  | p :: rest => Sock4Connect (proxy_address p) (username previous) ;;; connect_chain p rest endpoint
  end.

(** [None] is the null pointer; an exception of [DialTCP] or of a request gives it. *)
Definition DialProxyChain (DialTCP : SocketAddress.t → outcome C) (proxies : list Proxy) (endpoint : SocketAddress.t)
    : outcome (option C) :=
  let catch {A} (r : outcome A) (f : A → option C) : outcome (option C) :=
    match r with Ok a => Ok (f a) | Fail (Exn _) => Ok None | Fail f => Fail f end in
  match proxies with
  | [] => catch (DialTCP endpoint) Some
  | p :: rest =>
      catch (conn <-? DialTCP (proxy_address p) ;;
             match connect_chain p rest endpoint conn with (Ok _, conn) => Ok conn | (Fail f, _) => Fail f end) Some
  end.

(** ** The server *)

(** The loop of [ReadUserName]: [room] bytes of the buffer are free. *)
Fixpoint ReadUserName_loop (room : nat) (user_name : bytes) : M C bytes :=
  match room with
  | O => retM user_name
  | S room =>
      chunk <- Read 1 ;;
      match chunk with
      | [] => throwM EOFException
      | c :: _ => if decide (c = ch_nul) then retM (user_name ++ [c]) else ReadUserName_loop room (user_name ++ [c])
      end
  end.

Definition ReadUserName : M C bytes :=
  user_name <- ReadUserName_loop 257 [] ;;
  if decide (last user_name ≠ Some ch_nul) then throwM (RuntimeError "Wrong user name")
  else retM (take (length user_name - 1) user_name).

(** The part of [MakeConn] that reads the request: the address to connect to. *)
Definition read_request : M C SocketAddress.t :=
  vn <- ReadFull 1 ;;
  if decide (value_of vn ≠ 4%Z) then throwM (RuntimeError "Wrong request") else
  cd <- ReadFull 1 ;;
  if decide (value_of cd ≠ 1%Z) then throwM (RuntimeError "Wrong request") else
  port <- ReadFull 2 ;;
  ip <- ReadFull 4 ;;
  ReadUserName ;;;
  retM (from_ip_port (value_of ip) (htons (value_of port))).

Definition send_reply (cd : Z) : M C () :=
  Write (byte 0) ;;; Write (byte cd) ;;; Write (bytes_of 2 0) ;;; Write (bytes_of 4 0).

(** [MakeConn] up to the tunnel: [None] when it returns without one.  After a rejection
    the code goes on with a null pointer, which the tunnel would dereference. *)
Definition MakeConn {P} (DialTCP : SocketAddress.t → outcome P) : M C (option P) :=
  let reject : M C (option (option P)) := send_reply 91 ;;; CloseWrite ;;; retM (Some None) in
  proxy_conn <- (λ conn,
    match (endpoint <- read_request ;; p <- liftO (DialTCP endpoint) ;; retM (Some (Some p))) conn with
    | (Fail (Exn EOFException), conn) => (Ok None, conn)
    | (Fail (Exn _), conn) => reject conn
    | r => r
    end) ;;
  match proxy_conn with
  | None => retM None
  | Some proxy_conn =>
      send_reply 90 ;;;
      match proxy_conn with Some p => retM (Some p) | None => failM UB end
  end.

End Socks.

(** ** The tunnel *)

(** Where a fiber in [TransferData] is. *)
Inductive xfer : Type := Reading | Writing (buf : bytes) | Closing | Finished.

Section Tunnel.
Context {C : Type} `{!IConn C}.

(** The next call of [TransferData(in_conn, out_conn)]; an exception ends it. *)
Definition TransferData_step (at_ : xfer) (in_conn out_conn : C) : outcome (xfer * C * C) :=
  match at_ with
  | Reading =>
      match Read 256 in_conn with
      | (Ok [], in_conn) => Ok (Closing, in_conn, out_conn)
      | (Ok buf, in_conn) => Ok (Writing buf, in_conn, out_conn)
      | (Fail (Exn _), in_conn) => Ok (Finished, in_conn, out_conn)
      | (Fail f, _) => Fail f
      end
  | Writing buf =>
      match Write buf out_conn with
      | (Ok _, out_conn) => Ok (Reading, in_conn, out_conn)
      | (Fail (Exn _), out_conn) => Ok (Finished, in_conn, out_conn)
      | (Fail f, _) => Fail f
      end
  | Closing =>
      match CloseWrite out_conn with
      | (Ok _, out_conn) | (Fail (Exn _), out_conn) => Ok (Finished, in_conn, out_conn)
      | (Fail f, _) => Fail f
      end
  | Finished => Ok (Finished, in_conn, out_conn)
  end.

Record tunnel : Type := { conn : C; proxy_conn : C; up : xfer; down : xfer }.

(** A call of one of the two fibers: [true] is the one from the client. *)
Definition tunnel_step (from_client : bool) (t : tunnel) : outcome tunnel :=
  if from_client then
    r <-? TransferData_step (up t) (conn t) (proxy_conn t) ;;
    Ok {| conn := r.1.2; proxy_conn := r.2; up := r.1.1; down := down t |}
  else
    r <-? TransferData_step (down t) (proxy_conn t) (conn t) ;;
    Ok {| conn := r.2; proxy_conn := r.1.2; up := up t; down := r.1.1 |}.

Definition open_tunnel (c p : C) : tunnel := {| conn := c; proxy_conn := p; up := Reading; down := Reading |}.

End Tunnel.
Arguments tunnel : clear implicits.

(** ** What a request is *)

Inductive request : Type :=
| Short
| Malformed (rest : bytes)
| Request (endpoint : SocketAddress.t) (rest : bytes).

(** The name of the user, at most 256 bytes and a zero. *)
Fixpoint parse_user (room : nat) (endpoint : SocketAddress.t) (s : bytes) : request :=
  match room, s with
  | O, _ => Malformed s
  | S _, [] => Short
  | S room, c :: s => if decide (c = ch_nul) then Request endpoint s else parse_user room endpoint s
  end.

Definition parse_request (s : bytes) : request :=
  match s with
  | [] => Short
  | vn :: s =>
      if decide (vn ≠ "004"%char) then Malformed s else
      match s with
      | [] => Short
      | cd :: s =>
          if decide (cd ≠ "001"%char) then Malformed s
          else if decide (length s < 6) then Short
          else parse_user 257 (from_ip_port (value_of (take 4 (drop 2 s))) (htons (value_of (take 2 s)))) (drop 6 s)
      end
  end.

(** The bytes of a request. *)
Definition request_bytes (endpoint : sockaddr_in) (user : bytes) : bytes :=
  byte 4 ++ byte 1 ++ bytes_of 2 (sin_port endpoint) ++ bytes_of 4 (s_addr endpoint) ++ user ++ byte 0.

Definition reply_bytes (cd : Z) : bytes := byte 0 ++ byte cd ++ bytes_of 2 0 ++ bytes_of 4 0.

(** An address as the kernel stores it, and a name that the server takes. *)
Definition valid_address (sa : sockaddr_in) : Prop := (0 <= s_addr sa < 2 ^ 32)%Z ∧ (0 <= sin_port sa < 2 ^ 16)%Z.
Definition valid_user (user : bytes) : Prop := (ch_nul ∉ user) ∧ length user ≤ 256.

Lemma parse_user_ok room endpoint user rest :
  (ch_nul ∉ user) → length user < room → parse_user room endpoint (user ++ ch_nul :: rest) = Request endpoint rest.
Proof.
  revert room. induction user as [|c user IH]; intros room Hu Hl; (destruct room as [|room]; [cbn in Hl; lia|]); cbn; [done|].
  apply not_elem_of_cons in Hu as [Hc Hu]. rewrite decide_False by congruence. apply IH; [done|cbn in Hl; lia].
Qed.

Lemma parse_user_endpoint room ep s : match parse_user room ep s with Request ep' _ => ep' = ep | _ => True end.
Proof.
  revert s. induction room as [|room IH]; intros s; cbn; [done|]. destruct s as [|c s]; [done|].
  case_decide; [done|apply IH].
Qed.

(** What the client writes is what the server reads. *)
Lemma request_roundtrip sa user rest :
  valid_address sa → valid_user user → parse_request (request_bytes sa user ++ rest) = Request (Some sa) rest.
Proof.
  intros [Hip Hport] [Hnul Hlen]. unfold request_bytes. rewrite <- !app_assoc.
  change (byte 4) with ["004"%char]. change (byte 1) with ["001"%char]. change (byte 0) with [ch_nul].
  cbn [app parse_request]. rewrite !decide_False by (intros []; done).
  rewrite decide_False by (rewrite !length_app, !bytes_of_length; lia).
  rewrite (drop_app_exact 2), !take_app_exact by (by rewrite bytes_of_length).
  assert (drop 6 (bytes_of 2 (sin_port sa) ++ bytes_of 4 (s_addr sa) ++ user ++ ch_nul :: rest) = user ++ ch_nul :: rest) as ->.
  { rewrite app_assoc. apply drop_app_exact. by rewrite length_app, !bytes_of_length. }
  rewrite parse_user_ok by (done || lia). rewrite !value_bytes by (cbn; lia). unfold from_ip_port.
  rewrite htons_involutive by done. by destruct sa.
Qed.

Section SocksFacts.
Context {C : Type} `{!IConn C, !ConnSpec C}.

(** [rest] is left to be read, and nothing was written. *)
Definition kept (c c' : C) (rest : bytes) : Prop :=
  conn_ok c' ∧ incoming c' = rest ∧ outgoing c' = outgoing c ∧ write_closed c' = write_closed c.

Lemma kept_conn_trans c c' c'' r r' : kept c c' r → kept c' c'' r' → kept c c'' r'.
Proof. intros (?&?&?&?) (?&?&?&?). split_and!; congruence || done. Qed.

(** [ReadFull], by what there is to be read. *)
Lemma read_full_kept n c :
  conn_ok c →
  (length (incoming c) < n ∧ ∃ c', ReadFull n c = (Fail (Exn EOFException), c') ∧ kept c c' []) ∨
  (n ≤ length (incoming c) ∧ ∃ c', ReadFull n c = (Ok (take n (incoming c)), c') ∧ kept c c' (drop n (incoming c))).
Proof.
  intros Hok. destruct (decide (length (incoming c) < n)) as [Hl|Hl].
  - left. destruct (conn_read_eof c n Hok Hl) as (c'&?&?&?&?&?). split; [done|]. by exists c'.
  - right. split; [lia|]. destruct (conn_read_full c (take n (incoming c)) (drop n (incoming c))) as (c'&Hr&?&?&?&?);
      [done|by rewrite take_drop|]. rewrite length_take, Nat.min_l in Hr by lia. by exists c'.
Qed.

Lemma read_user_loop_ok room acc ep c :
  conn_ok c →
  match parse_user room ep (incoming c) with
  | Short => ∃ c', ReadUserName_loop room acc c = (Fail (Exn EOFException), c') ∧ kept c c' []
  | Malformed rest => ∃ user c', ReadUserName_loop room acc c = (Ok (acc ++ user), c') ∧ kept c c' rest ∧ (ch_nul ∉ user)
  | Request _ rest => ∃ user c', ReadUserName_loop room acc c = (Ok (acc ++ user ++ [ch_nul]), c') ∧ kept c c' rest
  end.
Proof.
  revert acc c. induction room as [|room IH]; intros acc c Hok; cbn [parse_user ReadUserName_loop].
  { exists [], c. rewrite app_nil_r. split; [done|]. split; [by split_and!|apply not_elem_of_nil]. }
  destruct (conn_read 1 c Hok ltac:(lia)) as (chunk&c'&Hr&Hok'&Hin&Hlen&He&?&?).
  destruct chunk as [|x [|? ?]]; [| |cbn in Hlen; lia].
  - rewrite (He eq_refl) in *. exists c'. mstep Hr. split; [done|]. by split_and!.
  - rewrite Hin. cbn [app]. destruct (decide (x = ch_nul)) as [->|Hx].
    + exists [], c'. mstep Hr. cbn. split; [done|]. by split_and!.
    + specialize (IH (acc ++ [x]) c' Hok').
      assert (∀ r (c'' : C), ReadUserName_loop room (acc ++ [x]) c' = (r, c'') →
        bindM (Read 1) (λ chunk, match chunk with
          | [] => throwM EOFException
          | c0 :: _ => if decide (c0 = ch_nul) then retM (acc ++ [c0]) else ReadUserName_loop room (acc ++ [c0])
          end) c = (r, c'')) as Hrun.
      { intros r c'' <-. mstep Hr. cbn beta iota. by rewrite decide_False. }
      assert (kept c c' (incoming c')) as Hk by (by split_and!).
      destruct (parse_user room ep (incoming c')) as [|rest|? rest].
      * destruct IH as (c''&Hl&?). exists c''. split; [by apply Hrun|by eapply kept_conn_trans].
      * destruct IH as (user&c''&Hl&?&Hn). exists (x :: user), c''. rewrite <- app_assoc in Hl.
        split_and!; [by apply Hrun|by eapply kept_conn_trans|]. apply not_elem_of_cons. split; [congruence|done].
      * destruct IH as (user&c''&Hl&?). exists (x :: user), c''. rewrite <- app_assoc in Hl.
        split; [by apply Hrun|by eapply kept_conn_trans].
Qed.

Lemma last_no_nul (user : bytes) : (ch_nul ∉ user) → last user ≠ Some ch_nul.
Proof. intros Hn Hl. apply last_Some in Hl as [l ->]. set_solver. Qed.

Lemma read_user_ok ep c :
  conn_ok c →
  match parse_user 257 ep (incoming c) with
  | Short => ∃ c', ReadUserName c = (Fail (Exn EOFException), c') ∧ kept c c' []
  | Malformed rest => ∃ c', ReadUserName c = (Fail (Exn (RuntimeError "Wrong user name")), c') ∧ kept c c' rest
  | Request _ rest => ∃ user c', ReadUserName c = (Ok user, c') ∧ kept c c' rest
  end.
Proof.
  intros Hok. pose proof (read_user_loop_ok 257 [] ep c Hok) as H. unfold ReadUserName.
  destruct (parse_user 257 ep (incoming c)).
  - destruct H as (c'&Hr&?). exists c'. by rewrite (bindM_fail _ _ _ _ _ Hr).
  - destruct H as (user&c'&Hr&?&Hn). exists c'. mstep Hr. rewrite decide_True by (by apply last_no_nul). done.
  - destruct H as (user&c'&Hr&?). eexists _, c'. mstep Hr. rewrite decide_False by (cbn; rewrite last_snoc; naive_solver). done.
Qed.

(** One byte of a given value. *)
Lemma value_one c n : (0 <= n < 256)%Z → value_of [c] = n ↔ c = ascii_of_N (Z.to_N n).
Proof.
  intros Hn. cbn. pose proof (N_ascii_bounded c). split.
  - intros He. rewrite <- (ascii_N_embedding c). f_equal. lia.
  - intros ->. rewrite N_ascii_embedding by lia. lia.
Qed.

(** The outcome of reading a request. *)
Definition answers (q : request) (r : outcome SocketAddress.t) : Prop :=
  match q with
  | Short => r = Fail (Exn EOFException)
  | Malformed _ => ∃ msg, r = Fail (Exn (RuntimeError msg))
  | Request endpoint _ => r = Ok endpoint
  end.
Definition rest_of (q : request) : bytes := match q with Short => [] | Malformed rest | Request _ rest => rest end.

(** A byte that is read and must have a given value. *)
Lemma read_byte n c (k : M C SocketAddress.t) (f : bytes → request) :
  (0 <= n < 256)%Z → conn_ok c →
  (∀ x s c1, incoming c = x :: s → kept c c1 s → ∃ r c', k c1 = (r, c') ∧ answers (f s) r ∧ kept c c' (rest_of (f s))) →
  let q := match incoming c with
           | [] => Short
           | x :: s => if decide (x ≠ ascii_of_N (Z.to_N n)) then Malformed s else f s
           end in
  ∃ r c', bindM (ReadFull 1) (λ x, if decide (value_of x ≠ n) then throwM (RuntimeError "Wrong request") else k) c = (r, c') ∧
    answers q r ∧ kept c c' (rest_of q).
Proof.
  intros Hn Hok Hk. destruct (read_full_kept 1 c Hok) as [(Hl&c1&H1&K1)|(Hl&c1&H1&K1)].
  { destruct (incoming c); [|cbn in Hl; lia]. eexists _, c1. by rewrite (bindM_fail _ _ _ _ _ H1). }
  destruct (incoming c) as [|x s] eqn:Hin; [cbn in Hl; lia|]. cbn [take drop] in H1, K1. rewrite firstn_O in H1. rewrite drop_0 in K1.
  rewrite (bindM_ok _ _ _ _ _ H1). pose proof (value_one x n Hn) as Hv.
  destruct (decide (value_of [x] ≠ n)) as [Hne|Hne].
  - rewrite decide_True by (intros ->; by apply Hne, Hv). eexists _, c1. split; [done|]. split; [by eexists|done].
  - rewrite decide_False by (intros He; apply He, Hv; lia). by apply (Hk x s c1).
Qed.

Lemma read_address_ok c :
  conn_ok c →
  let s := incoming c in
  let q := if decide (length s < 6) then Short
    else parse_user 257 (from_ip_port (value_of (take 4 (drop 2 s))) (htons (value_of (take 2 s)))) (drop 6 s) in
  ∃ r c', bindM (ReadFull 2) (λ port, bindM (ReadFull 4) (λ ip, bindM ReadUserName (λ _,
      retM (from_ip_port (value_of ip) (htons (value_of port)))))) c = (r, c') ∧ answers q r ∧ kept c c' (rest_of q).
Proof.
  intros Hok s q. unfold s in q.
  destruct (read_full_kept 2 c Hok) as [(Hl3&c3&H3&K3)|(Hl3&c3&H3&K3)].
  { unfold q. rewrite decide_True by lia. eexists _, c3. by rewrite (bindM_fail _ _ _ _ _ H3). }
  rewrite (bindM_ok _ _ _ _ _ H3). pose proof K3 as (Hok3&Hin3&_).
  destruct (read_full_kept 4 c3 Hok3) as [(Hl4&c4&H4&K4)|(Hl4&c4&H4&K4)]; rewrite Hin3, ?length_drop in *.
  { unfold q. rewrite decide_True by lia. eexists _, c4. rewrite (bindM_fail _ _ _ _ _ H4).
    split; [done|]. split; [done|by eapply kept_conn_trans]. }
  unfold q. rewrite decide_False by lia. rewrite (bindM_ok _ _ _ _ _ H4). rewrite drop_drop in K4. change (2 + 4) with 6 in K4.
  pose proof K4 as (Hok4&Hin4&_). set (ep := from_ip_port _ _). pose proof (read_user_ok ep c4 Hok4) as Hu. rewrite Hin4 in Hu.
  assert (∀ c5 r, kept c4 c5 r → kept c c5 r) as Hk by (intros c5 r ?; by eapply kept_conn_trans; [eapply kept_conn_trans|]).
  pose proof (parse_user_endpoint 257 ep (drop 6 (incoming c))) as Hep.
  destruct (parse_user 257 ep (drop 6 (incoming c))) as [|rest|ep' rest].
  - destruct Hu as (c5&H5&K5). eexists _, c5. rewrite (bindM_fail _ _ _ _ _ H5). split_and!; [done|done|auto].
  - destruct Hu as (c5&H5&K5). eexists _, c5. rewrite (bindM_fail _ _ _ _ _ H5). split_and!; [done|by eexists|auto].
  - destruct Hu as (user&c5&H5&K5). eexists _, c5. rewrite (bindM_ok _ _ _ _ _ H5). split_and!; [done|by rewrite Hep|auto].
Qed.

Lemma read_request_ok c :
  conn_ok c →
  ∃ r c', read_request c = (r, c') ∧ answers (parse_request (incoming c)) r ∧ kept c c' (rest_of (parse_request (incoming c))).
Proof.
  intros Hok. unfold read_request, parse_request. apply (read_byte 4); [lia|done|]. intros _ s c1 _ K1.
  pose proof K1 as (Hok1&<-&_).
  destruct (read_byte 1 c1 (bindM (ReadFull 2) (λ port, bindM (ReadFull 4) (λ ip, bindM ReadUserName (λ _,
      retM (from_ip_port (value_of ip) (htons (value_of port))))))) (λ s, if decide (length s < 6) then Short
    else parse_user 257 (from_ip_port (value_of (take 4 (drop 2 s))) (htons (value_of (take 2 s)))) (drop 6 s)))
    as (r&c'&Hr&Ha&Hk); [lia|done| |exists r, c'; split_and!; [done|done|by eapply kept_conn_trans]].
  intros _ s c2 _ K2. pose proof K2 as (Hok2&<-&_). destruct (read_address_ok c2 Hok2) as (r&c'&?&?&?).
  exists r, c'. split_and!; [done|done|by eapply kept_conn_trans].
Qed.

(** *** Writing *)

Definition said (c c' : C) (s : bytes) : Prop :=
  conn_ok c' ∧ incoming c' = incoming c ∧ outgoing c' = outgoing c ++ s ∧ write_closed c' = false.

Lemma said_trans c c' c'' s s' : said c c' s → said c' c'' s' → said c c'' (s ++ s').
Proof. intros (?&?&Ho&?) (?&?&Ho'&?). split_and!; try done; try congruence. by rewrite Ho', Ho, app_assoc. Qed.

Lemma write_then {A} s (k : M C A) c :
  conn_ok c → write_closed c = false → ∃ c', bindM (Write s) (λ _, k) c = k c' ∧ said c c' s.
Proof. intros Hok Hw. destruct (conn_write s c Hok Hw) as (c'&Hr&?&?&?&?). exists c'. mstep Hr. done. Qed.

Lemma reply_ok cd c :
  conn_ok c → write_closed c = false → ∃ c', send_reply cd c = (Ok (), c') ∧ said c c' (reply_bytes cd).
Proof.
  intros Hok Hw. unfold send_reply, reply_bytes.
  destruct (write_then (byte 0) (Write (byte cd) ;;; Write (bytes_of 2 0) ;;; Write (bytes_of 4 0)) c Hok Hw) as (c1&->&S1).
  pose proof S1 as (Hok1&_&_&Hw1).
  destruct (write_then (byte cd) (Write (bytes_of 2 0) ;;; Write (bytes_of 4 0)) c1 Hok1 Hw1) as (c2&->&S2).
  pose proof S2 as (Hok2&_&_&Hw2). destruct (write_then (bytes_of 2 0) (Write (bytes_of 4 0)) c2 Hok2 Hw2) as (c3&->&S3).
  pose proof S3 as (Hok3&_&_&Hw3). destruct (conn_write (bytes_of 4 0) c3 Hok3 Hw3) as (c4&Hr&?&?&?&?).
  exists c4. split; [done|]. do 3 (eapply said_trans; [done|]). done.
Qed.

(** A rejection: the reply goes out, and the next [Write] throws, since the connection
    was closed for writing. *)
Lemma reject_ok {P} c :
  conn_ok c → write_closed c = false →
  ∃ c', bindM (send_reply 91 ;;; CloseWrite ;;; retM (Some (@None P))) (λ proxy_conn,
      match proxy_conn with
      | None => retM None
      | Some proxy_conn => send_reply 90 ;;; match proxy_conn with Some p => retM (Some p) | None => failM UB end
      end) c = (Fail (Exn SystemError), c') ∧ outgoing c' = outgoing c ++ reply_bytes 91 ∧ write_closed c' = true.
Proof.
  intros Hok Hw. destruct (reply_ok 91 c Hok Hw) as (c1&H1&Hok1&_&Ho1&_).
  destruct (conn_close_write c1 Hok1) as (c2&H2&Hok2&_&Ho2&Hw2).
  destruct (conn_write_fails (byte 0) c2 Hok2 Hw2) as (c3&H3&_&_&Ho3&Hw3); [done|].
  exists c3. rewrite bindM_assoc, (bindM_ok _ _ _ _ _ H1), bindM_assoc, (bindM_ok _ _ _ _ _ H2), bindM_ret.
  assert (send_reply 90 c2 = (Fail (Exn SystemError), c3)) as Hs by (unfold send_reply; by apply bindM_fail).
  rewrite (bindM_fail _ _ _ _ _ Hs). split_and!; [done|congruence|done].
Qed.

Lemma accept_ok {P} (p : P) c :
  conn_ok c → write_closed c = false →
  ∃ c', bindM (retM (Some (Some p))) (λ proxy_conn,
      match proxy_conn with
      | None => retM None
      | Some proxy_conn => send_reply 90 ;;; match proxy_conn with Some p => retM (Some p) | None => failM UB end
      end) c = (Ok (Some p), c') ∧ said c c' (reply_bytes 90).
Proof.
  intros Hok Hw. destruct (reply_ok 90 c Hok Hw) as (c1&H1&S1). exists c1. rewrite bindM_ret, (bindM_ok _ _ _ _ _ H1). done.
Qed.

End SocksFacts.

(** C32 The server answers every input of a client as the protocol asks: when the client
    goes away within a request, nothing is written; when the request is malformed, the
    name too long, or the dialling throws, the rejection is written and the connection
    closed; otherwise the grant is written, and the tunnel is opened to exactly the address
    of the request, with the bytes after it still to be read. *)
Theorem socks_server_correct {C : Type} `{!IConn C, !ConnSpec C} {P} (DialTCP : SocketAddress.t → outcome P) (c : C) :
  conn_ok c → write_closed c = false → (∀ a, DialTCP a ≠ Fail (Exn EOFException)) →
  ∃ r c', MakeConn DialTCP c = (r, c') ∧
  match parse_request (incoming c) with
  | Short => r = Ok None ∧ outgoing c' = outgoing c
  | Malformed _ => r = Fail (Exn SystemError) ∧ outgoing c' = outgoing c ++ reply_bytes 91 ∧ write_closed c' = true
  | Request endpoint rest =>
      match DialTCP endpoint with
      | Ok p => r = Ok (Some p) ∧ outgoing c' = outgoing c ++ reply_bytes 90 ∧ incoming c' = rest ∧
          conn_ok c' ∧ write_closed c' = false
      | Fail (Exn _) =>
          r = Fail (Exn SystemError) ∧ outgoing c' = outgoing c ++ reply_bytes 91 ∧ write_closed c' = true
      | Fail f => r = Fail f
      end
  end.
Proof.
  intros Hok Hw Hd. unfold MakeConn. destruct (read_request_ok c Hok) as (q&c1&Hq&Ha&Hok1&Hin1&Ho1&Hw1).
  rewrite Hw in Hw1. unfold bindM at 1. destruct (parse_request (incoming c)) as [|rest|ep rest]; cbn [answers rest_of] in *.
  - subst q. rewrite (bindM_fail _ _ _ _ _ Hq). by eexists _, c1.
  - destruct Ha as [msg ->]. rewrite (bindM_fail _ _ _ _ _ Hq).
    destruct (reject_ok (P := P) c1 Hok1 Hw1) as (c2&H2&?&?). eexists _, c2. rewrite <- Ho1. split; [exact H2|done].
  - subst q. rewrite (bindM_ok _ _ _ _ _ Hq). specialize (Hd ep). unfold bindM at 1, liftO.
    destruct (DialTCP ep) as [p|[e| | |]] eqn:He; cbn beta iota; try (by eexists _, c1).
    + destruct (accept_ok p c1 Hok1 Hw1) as (c2&H2&?&?&?&?). eexists _, c2. rewrite <- Ho1, <- Hin1. split; [exact H2|done].
    + destruct (reject_ok (P := P) c1 Hok1 Hw1) as (c2&H2&?&?). eexists _, c2. rewrite <- Ho1.
      destruct e; try done; (split; [exact H2|done]).
Qed.

(** ** The client *)

(** A reply that grants the request: what follows it. *)
Definition granted (s : bytes) : option bytes :=
  match s with
  | vn :: cd :: s => if decide (vn = "000"%char ∧ cd = "Z"%char ∧ 6 ≤ length s) then Some (drop 6 s) else None
  | _ => None
  end.

Lemma granted_reply rest : granted (reply_bytes 90 ++ rest) = Some rest.
Proof. cbn. rewrite decide_True by (split_and!; [done|done|lia]). done. Qed.

Lemma rejected_reply rest : granted (reply_bytes 91 ++ rest) = None.
Proof. cbn. by rewrite decide_False by (intros (_&?&_); done). Qed.

Section ClientFacts.
Context {C : Type} `{!IConn C, !ConnSpec C}.

(** Reading the reply. *)
Definition read_reply : M C () :=
  vn <- ReadFull 1 ;;
  if decide (value_of vn ≠ 0%Z) then throwM (RuntimeError "std::exception") else
  cd <- ReadFull 1 ;;
  if decide (value_of cd ≠ 90%Z) then throwM (RuntimeError "std::exception") else
  ReadFull 2 ;;; ReadFull 4 ;;; retM ().

Definition replied (c c' : C) (r : outcome ()) : Prop :=
  outgoing c' = outgoing c ∧ write_closed c' = write_closed c ∧ conn_ok c' ∧
  match granted (incoming c) with Some rest => r = Ok () ∧ incoming c' = rest | None => ∃ e, r = Fail (Exn e) end.

Lemma read_reply_tail c :
  conn_ok c →
  ∃ r c', (ReadFull 2 ;;; ReadFull 4 ;;; retM ()) c = (r, c') ∧ outgoing c' = outgoing c ∧ write_closed c' = write_closed c ∧
    conn_ok c' ∧ if decide (6 ≤ length (incoming c)) then r = Ok () ∧ incoming c' = drop 6 (incoming c) else ∃ e, r = Fail (Exn e).
Proof.
  intros Hok. destruct (read_full_kept 2 c Hok) as [(Hl&c1&H1&K1)|(Hl&c1&H1&K1)]; destruct K1 as (Hok1&Hin1&Ho1&Hw1).
  { eexists _, c1. rewrite (bindM_fail _ _ _ _ _ H1). rewrite decide_False by lia. split_and!; try done. by eexists. }
  rewrite (bindM_ok _ _ _ _ _ H1).
  destruct (read_full_kept 4 c1 Hok1) as [(Hl2&c2&H2&K2)|(Hl2&c2&H2&K2)]; destruct K2 as (Hok2&Hin2&Ho2&Hw2);
    rewrite Hin1, ?length_drop, ?drop_drop in *.
  - eexists _, c2. rewrite (bindM_fail _ _ _ _ _ H2). rewrite decide_False by lia.
    split_and!; try done; try congruence. by eexists.
  - eexists _, c2. rewrite (bindM_ok _ _ _ _ _ H2). rewrite decide_True by lia. split_and!; try done; congruence.
Qed.

Lemma read_reply_ok c : conn_ok c → ∃ r c', read_reply c = (r, c') ∧ replied c c' r.
Proof.
  intros Hok. unfold read_reply, replied.
  destruct (read_full_kept 1 c Hok) as [(Hl&c1&H1&K1)|(Hl&c1&H1&K1)]; destruct K1 as (Hok1&Hin1&Ho1&Hw1);
    destruct (incoming c) as [|vn s] eqn:Hin; cbn in Hl; try lia.
  { eexists _, c1. rewrite (bindM_fail _ _ _ _ _ H1). split_and!; try done. by eexists. }
  cbn [take drop] in H1, Hin1. rewrite firstn_O in H1. rewrite drop_0 in Hin1. rewrite (bindM_ok _ _ _ _ _ H1). pose proof (value_one vn 0 ltac:(lia)) as Hv.
  destruct (decide (value_of [vn] ≠ 0%Z)) as [Hn|Hn].
  { eexists _, c1. split_and!; try done. cbn. destruct s; [by eexists|]. rewrite decide_False; [by eexists|].
    intros (->&_). by apply Hn, Hv. }
  assert (vn = "000"%char) as -> by (apply Hv; lia).
  destruct (read_full_kept 1 c1 Hok1) as [(Hl2&c2&H2&K2)|(Hl2&c2&H2&K2)]; destruct K2 as (Hok2&Hin2&Ho2&Hw2);
    rewrite Hin1 in *; destruct s as [|cd s]; cbn in Hl2; try lia.
  { eexists _, c2. rewrite (bindM_fail _ _ _ _ _ H2). split_and!; try done; try congruence. by eexists. }
  cbn [take drop] in H2, Hin2. rewrite firstn_O in H2. rewrite drop_0 in Hin2. rewrite (bindM_ok _ _ _ _ _ H2). pose proof (value_one cd 90 ltac:(lia)) as Hc.
  destruct (decide (value_of [cd] ≠ 90%Z)) as [Hn2|Hn2].
  { eexists _, c2. split_and!; try done; try congruence. cbn. rewrite decide_False; [by eexists|].
    intros (_&->&_). by apply Hn2, Hc. }
  assert (cd = "Z"%char) as -> by (apply Hc; lia). destruct (read_reply_tail c2 Hok2) as (r&c3&?&?&?&?&Hr).
  exists r, c3. split_and!; try done; try congruence. cbn [granted]. rewrite Hin2 in Hr.
  destruct (decide (6 ≤ length s)) as [H6|H6]; [by rewrite decide_True|]. rewrite decide_False by tauto. done.
Qed.

(** [Sock4Connect] sends one request, and returns exactly when it is granted. *)
Lemma connect_ok sa user c :
  conn_ok c → write_closed c = false → valid_address sa →
  ∃ r c', Sock4Connect (Some sa) user c = (r, c') ∧ conn_ok c' ∧ write_closed c' = false ∧
    outgoing c' = outgoing c ++ request_bytes sa user ∧
    match granted (incoming c) with Some rest => r = Ok () ∧ incoming c' = rest | None => ∃ e, r = Fail (Exn e) end.
Proof.
  intros Hok Hw [Hip Hport].
  assert (∃ c1, Sock4Connect (Some sa) user c = read_reply c1 ∧ said c c1 (request_bytes sa user)) as (c1&->&Hok1&Hin1&Ho1&Hw1).
  { unfold request_bytes. rewrite <- (htons_involutive (sin_port sa)) by done.
    set (K6 := Write (byte 0) ;;; read_reply). set (K5 := Write user ;;; K6). set (K4 := Write (bytes_of 4 (s_addr sa)) ;;; K5).
    set (K3 := Write (bytes_of 2 (htons (htons (sin_port sa)))) ;;; K4). set (K2 := Write (byte 1) ;;; K3).
    destruct (write_then (byte 4) K2 c Hok Hw) as (d1&E1&S1). pose proof S1 as (P1&_&_&Q1).
    destruct (write_then (byte 1) K3 d1 P1 Q1) as (d2&E2&S2). pose proof S2 as (P2&_&_&Q2).
    destruct (write_then (bytes_of 2 (htons (htons (sin_port sa)))) K4 d2 P2 Q2) as (d3&E3&S3). pose proof S3 as (P3&_&_&Q3).
    destruct (write_then (bytes_of 4 (s_addr sa)) K5 d3 P3 Q3) as (d4&E4&S4). pose proof S4 as (P4&_&_&Q4).
    destruct (write_then user K6 d4 P4 Q4) as (d5&E5&S5). pose proof S5 as (P5&_&_&Q5).
    destruct (write_then (byte 0) read_reply d5 P5 Q5) as (d6&E6&S6). exists d6. split.
    - etrans; [exact E1|]. etrans; [exact E2|]. etrans; [exact E3|]. etrans; [exact E4|]. etrans; [exact E5|]. exact E6.
    - do 5 (eapply said_trans; [done|]). done. }
  destruct (read_reply_ok c1 Hok1) as (r&c'&Hr&Ho2&Hw2&Hok2&Hg). exists r, c'. rewrite Hin1 in Hg.
  split_and!; try done; congruence.
Qed.

(** The requests that a chain of hops sends, and what is left of the answers. *)
Fixpoint hops_talk (hops : list (sockaddr_in * bytes)) (s : bytes) : bytes * option bytes :=
  match hops with
  | [] => ([], Some s)
  | (sa, user) :: hops =>
      match granted s with
      | Some rest => let '(req, r) := hops_talk hops rest in (request_bytes sa user ++ req, r)
      | None => (request_bytes sa user, None)
      end
  end.

(** Each proxy is told the address of the next one, with the name for itself. *)
Fixpoint hops_of (previous : bytes) (rest : list (sockaddr_in * bytes)) (endpoint : sockaddr_in) : list (sockaddr_in * bytes) :=
  match rest with [] => [(endpoint, previous)] | (sa, user) :: rest => (sa, previous) :: hops_of user rest endpoint end.

Definition proxy_of (p : sockaddr_in * bytes) : Proxy := {| proxy_address := Some p.1; username := p.2 |}.

Lemma chain_ok previous rest endpoint c :
  conn_ok c → write_closed c = false → Forall (λ p, valid_address p.1) rest → valid_address endpoint →
  ∃ r c', connect_chain (proxy_of previous) (proxy_of <$> rest) (Some endpoint) c = (r, c') ∧ conn_ok c' ∧
    write_closed c' = false ∧
    let '(req, left_) := hops_talk (hops_of previous.2 rest endpoint) (incoming c) in
    outgoing c' = outgoing c ++ req ∧
    match left_ with Some l => r = Ok () ∧ incoming c' = l | None => ∃ e, r = Fail (Exn e) end.
Proof.
  intros Hok Hw Hrest He. revert previous c Hok Hw. induction Hrest as [|[sa user] rest Hsa _ IH]; intros previous c Hok Hw.
  - destruct (connect_ok endpoint previous.2 c Hok Hw He) as (r&c'&Hr&?&?&Ho&Hg). exists r, c'. cbn [connect_chain fmap list_fmap].
    split_and!; try done. cbn [hops_of hops_talk]. destruct (granted (incoming c)); cbn [hops_talk]; rewrite ?app_nil_r; split; done.
  - destruct (connect_ok sa previous.2 c Hok Hw Hsa) as (r&c1&Hr&Hok1&Hw1&Ho&Hg).
    cbn [hops_of hops_talk fmap list_fmap connect_chain]. change (proxy_address (proxy_of (sa, user))) with (Some sa).
    change (username (proxy_of previous)) with previous.2. destruct (granted (incoming c)) as [l|].
    + destruct Hg as [-> Hin1]. rewrite (bindM_ok _ _ _ _ _ Hr). destruct (IH (sa, user) c1 Hok1 Hw1) as (r&c'&Hr'&?&?&Ht).
      exists r, c'. rewrite Hin1 in Ht. cbn [snd] in Ht. destruct (hops_talk (hops_of user rest endpoint) l) as [req left_].
      destruct Ht as [Ho' Ht]. split_and!; try done. by rewrite Ho', Ho, app_assoc.
    + destruct Hg as [e ->]. eexists _, c1. rewrite (bindM_fail _ _ _ _ _ Hr). split_and!; try done. by eexists.
Qed.

End ClientFacts.

(** [DialProxyChain] dials the first proxy and asks each one, with the name for it, for
    the next address, the last for the endpoint; the next request is sent only when the one
    before is granted.  It gives the connection, with the bytes after the replies still to
    be read, when all are granted, and the null pointer when the dialling throws or one is
    not; without proxies it dials the endpoint. *)
Theorem dial_proxy_chain_correct {C : Type} `{!IConn C, !ConnSpec C} (DialTCP : SocketAddress.t → outcome C)
    (proxies : list (sockaddr_in * bytes)) (endpoint : sockaddr_in) :
  Forall (λ p, valid_address p.1) proxies → valid_address endpoint →
  (∀ a c, DialTCP a = Ok c → conn_ok c ∧ write_closed c = false) → (∀ a f, DialTCP a = Fail f → ∃ e, f = Exn e) →
  ∃ r, DialProxyChain DialTCP (proxy_of <$> proxies) (Some endpoint) = Ok r ∧
  match proxies with
  | [] => match DialTCP (Some endpoint) with Ok c => r = Some c | Fail _ => r = None end
  | p :: rest =>
      match DialTCP (Some p.1) with
      | Ok c =>
          let '(req, left_) := hops_talk (hops_of p.2 rest endpoint) (incoming c) in
          match left_ with
          | Some l => ∃ c', r = Some c' ∧ conn_ok c' ∧ incoming c' = l ∧ outgoing c' = outgoing c ++ req
          | None => r = None
          end
      | Fail _ => r = None
      end
  end.
Proof.
  intros Hp He Hok Hf. destruct Hp as [|p rest _ Hrest]; cbn [DialProxyChain fmap list_fmap].
  - destruct (DialTCP (Some endpoint)) as [c|f] eqn:Hd; [by eexists|]. destruct (Hf _ _ Hd) as [e ->]. by eexists.
  - change (proxy_address (proxy_of p)) with (Some p.1). destruct (DialTCP (Some p.1)) as [c|f] eqn:Hd; cbn [bindO].
    + destruct (Hok _ _ Hd) as [Hc Hw]. destruct (chain_ok p rest endpoint c Hc Hw Hrest He) as (r&c'&Hr&Hok'&_&Ht).
      change (list_fmap _ _ proxy_of rest) with (proxy_of <$> rest). rewrite Hr.
      destruct (hops_talk (hops_of p.2 rest endpoint) (incoming c)) as [req [l|]]; destruct Ht as [Ho Ht].
      * destruct Ht as [-> ?]. eexists. split; [done|]. by exists c'.
      * destruct Ht as [e ->]. by eexists.
    + destruct (Hf _ _ Hd) as [e ->]. by eexists.
Qed.

(** ** The tunnel *)

Definition pending (x : xfer) : bytes := match x with Writing buf => buf | _ => [] end.

(** The calls that a fiber still makes, at most. *)
Definition calls_left (x : xfer) (inc : nat) : nat :=
  match x with Reading => 2 * inc + 2 | Writing _ => 2 * inc + 3 | Closing => 1 | Finished => 0 end.

Section TunnelFacts.
Context {C : Type} `{!IConn C, !ConnSpec C}.

(** One direction: [all] is everything that is to be on the other side in the end. *)
Record flows (all : bytes) (x : xfer) (in_ out : C) : Prop := {
  fl_all : outgoing out ++ pending x ++ incoming in_ = all;
  fl_end : match x with Closing | Finished => incoming in_ = [] | _ => True end;
  fl_closed : write_closed out = match x with Finished => true | _ => false end;
}.

Lemma flows_step all x in_ out :
  conn_ok in_ → conn_ok out → flows all x in_ out →
  ∃ x' in' out', TransferData_step x in_ out = Ok (x', in', out') ∧ conn_ok in' ∧ conn_ok out' ∧ flows all x' in' out' ∧
    outgoing in' = outgoing in_ ∧ write_closed in' = write_closed in_ ∧ incoming out' = incoming out ∧
    calls_left x' (length (incoming in')) ≤ calls_left x (length (incoming in_)) - 1.
Proof.
  intros Hi Ho [Ha He Hc]. destruct x as [|buf| |]; cbn [TransferData_step pending calls_left] in *.
  - destruct (conn_read 256 in_ Hi ltac:(lia)) as (chunk&in'&->&Hi'&Hin&_&Hnil&?&?). destruct chunk as [|b chunk].
    + exists Closing, in', out. rewrite (Hnil eq_refl) in *. split_and!; try done; try lia.
      cbn in Hin. split; cbn; by rewrite <- ?Hin.
    + exists (Writing (b :: chunk)), in', out. rewrite Hin in *. split_and!; try done; try by split.
      cbn. rewrite length_app. lia.
  - destruct (conn_write buf out Ho Hc) as (out'&->&Ho'&?&Hout&?). exists Reading, in_, out'. split_and!; try done; try (cbn; lia).
    split; cbn; [by rewrite Hout, <- app_assoc|done|done].
  - destruct (conn_close_write out Ho) as (out'&->&Ho'&?&Hout&?). exists Finished, in_, out'. split_and!; try done.
    split; cbn; [by rewrite Hout|done|done].
  - exists Finished, in_, out. split_and!; try done; cbn; lia.
Qed.

(** Both directions. *)
Record tunnels (to_proxy to_client : bytes) (t : tunnel C) : Prop := {
  tn_conn : conn_ok (conn t);
  tn_proxy : conn_ok (proxy_conn t);
  tn_up : flows to_proxy (up t) (conn t) (proxy_conn t);
  tn_down : flows to_client (down t) (proxy_conn t) (conn t);
}.

Definition up_left (t : tunnel C) : nat := calls_left (up t) (length (incoming (conn t))).
Definition down_left (t : tunnel C) : nat := calls_left (down t) (length (incoming (proxy_conn t))).

(** The other direction sees nothing of a step but what it shares. *)
Lemma flows_frame all x in_ out in' out' :
  flows all x in_ out → incoming in' = incoming in_ → outgoing out' = outgoing out → write_closed out' = write_closed out →
  flows all x in' out'.
Proof. intros [? ? ?] Hi Ho Hw. split; by rewrite ?Hi, ?Ho, ?Hw. Qed.

Lemma tunnel_step_ok b a a' t :
  tunnels a a' t →
  ∃ t', tunnel_step b t = Ok t' ∧ tunnels a a' t' ∧
    up_left t' ≤ up_left t - Nat.b2n b ∧ down_left t' ≤ down_left t - Nat.b2n (negb b).
Proof.
  intros [Hc Hp Hu Hd]. unfold tunnel_step, up_left, down_left. destruct b; cbn [negb Nat.b2n].
  - destruct (flows_step a (up t) (conn t) (proxy_conn t) Hc Hp Hu) as (x&i&o&->&Hi&Ho&Hf&E1&E2&E3&Hl). cbn [bindO fst snd].
    eexists. split; [done|]. split; [split; cbn; try done; by eapply flows_frame|]. cbn. rewrite E3. lia.
  - destruct (flows_step a' (down t) (proxy_conn t) (conn t) Hp Hc Hd) as (x&i&o&->&Hi&Ho&Hf&E1&E2&E3&Hl). cbn [bindO fst snd].
    eexists. split; [done|]. split; [split; cbn; try done; by eapply flows_frame|]. cbn. rewrite E3. lia.
Qed.

Definition run_tunnel (schedule : list bool) (t : tunnel C) : outcome (tunnel C) := forO tunnel_step schedule t.

Lemma run_tunnel_ok schedule a a' t :
  tunnels a a' t →
  ∃ t', run_tunnel schedule t = Ok t' ∧ tunnels a a' t' ∧
    up_left t' ≤ up_left t - count id schedule ∧ down_left t' ≤ down_left t - count negb schedule.
Proof.
  revert t. induction schedule as [|b schedule IH]; intros t Ht; unfold run_tunnel; cbn [forO].
  - exists t. cbn. split_and!; [done|done|lia|lia].
  - destruct (tunnel_step_ok b a a' t Ht) as (t1&->&Ht1&Hu&Hd). cbn [bindO]. destruct (IH t1 Ht1) as (t2&Hr&Ht2&Hu2&Hd2).
    exists t2. rewrite !count_cons. split_and!; [exact Hr|done|unfold id at 1; lia|lia].
Qed.

Lemma calls_left_0 x n : calls_left x n = 0 → x = Finished.
Proof. destruct x; cbn; done || lia. Qed.

End TunnelFacts.

(** The two fibers of a tunnel forward everything, in whatever order their calls come:
    no call fails, at every moment what each side was sent is a prefix of what the other
    side wrote, and once the fibers have made twice as many calls as there are bytes (and
    two more) everything has been sent on, and only then both connections are closed for
    writing, each when its own direction came to an end. *)
Theorem tunnel_forwards {C : Type} `{!IConn C, !ConnSpec C} (c p : C) (schedule : list bool) :
  conn_ok c → conn_ok p → write_closed c = false → write_closed p = false →
  ∃ t, run_tunnel schedule (open_tunnel c p) = Ok t ∧
    (outgoing (proxy_conn t) ++ pending (up t)) `prefix_of` (outgoing p ++ incoming c) ∧
    (outgoing (conn t) ++ pending (down t)) `prefix_of` (outgoing c ++ incoming p) ∧
    (write_closed (proxy_conn t) = true → outgoing (proxy_conn t) = outgoing p ++ incoming c) ∧
    (write_closed (conn t) = true → outgoing (conn t) = outgoing c ++ incoming p) ∧
    (2 * length (incoming c) + 2 ≤ count id schedule → up t = Finished ∧ write_closed (proxy_conn t) = true) ∧
    (2 * length (incoming p) + 2 ≤ count negb schedule → down t = Finished ∧ write_closed (conn t) = true).
Proof.
  intros Hc Hp Hwc Hwp.
  assert (tunnels (outgoing p ++ incoming c) (outgoing c ++ incoming p) (open_tunnel c p)) as H0 by (by repeat split).
  destruct (run_tunnel_ok schedule _ _ _ H0) as (t&Hr&[_ _ [Hu1 Hu2 Hu3] [Hd1 Hd2 Hd3]]&Hlu&Hld).
  exists t. unfold up_left, down_left in Hlu, Hld. cbn [up down conn proxy_conn open_tunnel calls_left] in Hlu, Hld.
  assert (2 * length (incoming c) + 2 ≤ count id schedule → up t = Finished) as Hfu
    by (intros ?; apply (calls_left_0 _ (length (incoming (conn t)))); lia).
  assert (2 * length (incoming p) + 2 ≤ count negb schedule → down t = Finished) as Hfd
    by (intros ?; apply (calls_left_0 _ (length (incoming (proxy_conn t)))); lia).
  split_and!; [done| | | | | |].
  - exists (incoming (conn t)). by rewrite <- Hu1, app_assoc.
  - exists (incoming (proxy_conn t)). by rewrite <- Hd1, app_assoc.
  - rewrite Hu3. destruct (up t); try done. rewrite <- Hu1, Hu2. cbn. by rewrite app_nil_r.
  - rewrite Hd3. destruct (down t); try done. rewrite <- Hd1, Hd2. cbn. by rewrite app_nil_r.
  - intros Hn. rewrite Hu3, (Hfu Hn). done.
  - intros Hn. rewrite Hd3, (Hfd Hn). done.
Qed.

(** ** Witnesses, over the kernel of [Net.Toy] *)

Module Demo.

#[local] Instance toy_conn : IConn Toy.kernel := SocketConn.iconn 4 3.
#[local] Instance toy_spec : ConnSpec Toy.kernel := SocketConn.conn_spec 3 4.

Definition socket (input : bytes) : Toy.kernel :=
  {| Toy.input := input; Toy.output := []; Toy.shut := false; Toy.moods := [Toy.Interrupted; Toy.Part 2] |}.

Definition google : sockaddr_in := {| s_addr := 0x08080808; sin_port := htons 443 |}.

Definition client : Toy.kernel := socket (request_bytes google (str "prime") ++ str "GET").

Definition dial (a : SocketAddress.t) : outcome Toy.kernel := Ok (socket (reply_bytes 90 ++ str "flag")).

Lemma socks_server_correct_witness :
  ∃ r c, MakeConn dial client = (r, c) ∧ Toy.output c = reply_bytes 90 ∧ Toy.input c = str "GET".
Proof.
  destruct (socks_server_correct dial client) as (r&c&Hr&Hm).
  - cbn. split; [done|lia].
  - done.
  - done.
  - exists r, c. split; [done|]. assert (parse_request (incoming client) = Request (Some google) (str "GET")) as Hq by reflexivity.
    rewrite Hq in Hm. destruct Hm as (_&Ho&Hi&_). split; [exact Ho|exact Hi].
Defined.

Lemma dial_proxy_chain_correct_witness :
  ∃ c, DialProxyChain dial (proxy_of <$> [(google, str "prime")]) (Some google) = Ok (Some c) ∧
    Toy.output c = request_bytes google (str "prime") ∧ Toy.input c = str "flag".
Proof.
  assert (valid_address google) as Hv by (split; vm_compute; split; done).
  destruct (dial_proxy_chain_correct dial [(google, str "prime")] google) as (r&Hr&Hm).
  - by repeat constructor.
  - done.
  - intros a c [= <-]. cbn. split; [split; [done|lia]|done].
  - done.
  - cbn [dial] in Hm. assert (hops_talk (hops_of (google, str "prime").2 [] google)
      (incoming (socket (reply_bytes 90 ++ str "flag"))) = (request_bytes google (str "prime"), Some (str "flag"))) as Ht
      by reflexivity.
    rewrite Ht in Hm. destruct Hm as (c&->&_&Hi&Ho). exists c. split; [exact Hr|]. split; [exact Ho|exact Hi].
Defined.

Lemma tunnel_forwards_witness :
  ∃ t, run_tunnel (concat (replicate 8 [true; false])) (open_tunnel (socket (str "ab")) (socket (str "xyz"))) = Ok t ∧
    up t = Finished ∧ down t = Finished ∧ Toy.output (proxy_conn t) = str "ab" ∧ Toy.output (conn t) = str "xyz".
Proof.
  destruct (tunnel_forwards (socket (str "ab")) (socket (str "xyz")) (concat (replicate 8 [true; false])))
    as (t&Hr&_&_&Hu&Hd&Hfu&Hfd).
  - cbn. split; [done|lia].
  - cbn. split; [done|lia].
  - done.
  - done.
  - exists t. destruct Hfu as [Hfu Hwu]; [vm_compute; lia|]. destruct Hfd as [Hfd Hwd]; [vm_compute; lia|].
    split_and!; [exact Hr|exact Hfu|exact Hfd|exact (Hu Hwu)|exact (Hd Hwd)].
Defined.

End Demo.
