(* ===== verification/Balancer.v ===== *)
(** * The balancer (balancer/balancer.cpp)

    [Peer], [SetBackends], [MakeConnection] and the end of [ProcessConnection].  Peers are
    shared pointers into a heap, since a connection keeps its peer when the list is
    replaced.  Each round of the loop of [MakeConnection] is one critical section of
    [mutex_], which is held while it dials, and so are the other operations; the
    forwarding itself is [TransferData] of Proxy.v.

    The load of a peer is the number of its connections in every reachable state, and a
    new connection goes to the least loaded of the peers that can be reached. *)

From S2P Require Import Prelude Readers Net.

#[local] Set Warnings "-clear-no-such-hyp".

Record Peer : Type := { address : SocketAddress.t; load : Z; is_dead : bool }.

(** The balancer: the peers by their pointers, [peers_], and the peers of the running
    [ProcessConnection]s. *)
Record balancer : Type := { heap : gmap nat Peer; peers_ : list nat; serving : list nat }.

Definition upd (p : nat) (peer : Peer) (b : balancer) : balancer :=
  {| heap := <[p := peer]> (heap b); peers_ := peers_ b; serving := serving b |}.

Definition deref (p : nat) (b : balancer) : outcome Peer :=
  match heap b !! p with Some peer => Ok peer | None => Fail UB end.

(** [std::make_shared] for the addresses, in order. *)
Fixpoint make_peers (addresses : list SocketAddress.t) (b : balancer) : balancer :=
  match addresses with
  | [] => b
  | a :: addresses =>
      let p := fresh (dom (heap b)) in
      make_peers addresses
        {| heap := <[p := {| address := a; load := 0; is_dead := false |}]> (heap b); peers_ := peers_ b ++ [p];
           serving := serving b |}
  end.

Definition SetBackends (peers : list SocketAddress.t) (b : balancer) : balancer :=
  make_peers peers {| heap := heap b; peers_ := []; serving := serving b |}.

(** The loop over the peers that chooses [suitable_peer]. *)
Definition choose_body (b : balancer) (peer : nat) (suitable_peer : option nat) : outcome (option nat) :=
  x <-? deref peer b ;;
  match suitable_peer with
  | None => Ok (if is_dead x then None else Some peer)
  | Some s => y <-? deref s b ;; Ok (if negb (is_dead x) && (load x <? load y)%Z then Some peer else Some s)
  end.

(** One round of [MakeConnection]: the peer it connected to, [None] when the round is to
    be repeated.  [dial] tells whether the address answers in time. *)
Definition MakeConnection_body (dial : SocketAddress.t → bool) (b : balancer) : outcome (option nat * balancer) :=
  suitable_peer <-? forO (choose_body b) (peers_ b) None ;;
  match suitable_peer with
  | None => Fail (Exn SystemError)
  | Some p =>
      x <-? deref p b ;;
      if dial (address x) then
        let b := upd p {| address := address x; load := u64 (load x + 1); is_dead := is_dead x |} b in
        Ok (Some p, {| heap := heap b; peers_ := peers_ b; serving := p :: serving b |})
      else Ok (None, upd p {| address := address x; load := load x; is_dead := true |} b)
  end.

(** The rounds, when nothing comes between them; the state is kept when it throws. *)
Fixpoint MakeConnection (fuel : nat) (dial : SocketAddress.t → bool) : M balancer nat := λ b,
  match fuel with
  | O => (Fail Fuel, b)
  | S fuel =>
      match MakeConnection_body dial b with
      | Ok (Some p, b) => (Ok p, b)
      | Ok (None, b) => MakeConnection fuel dial b
      | Fail f => (Fail f, b)
      end
  end.

(** The end of the [i]-th running [ProcessConnection]: [--peer->load] *)
Definition ProcessConnection_end (i : nat) (b : balancer) : outcome balancer :=
  match serving b !! i with
  | None => Fail UB
  | Some p =>
      x <-? deref p b ;;
      let b := upd p {| address := address x; load := u64 (load x - 1); is_dead := is_dead x |} b in
      Ok {| heap := heap b; peers_ := peers_ b; serving := delete i (serving b) |}
  end.

(** What can happen, in any order. *)
Inductive step : balancer → balancer → Prop :=
| step_backends peers b : step b (SetBackends peers b)
| step_round dial b r b' : MakeConnection_body dial b = Ok (r, b') → step b b'
| step_end i b b' : i < length (serving b) → ProcessConnection_end i b = Ok b' → step b b'.

Definition init (b : balancer) : Prop := b = {| heap := ∅; peers_ := []; serving := [] |}.

(** ** The invariant *)

Definition connections (p : nat) (b : balancer) : nat := count (λ q, bool_decide (q = p)) (serving b).

Record wf (b : balancer) : Prop := {
  wf_nodup : NoDup (peers_ b);
  wf_peers : ∀ p, p ∈ peers_ b → is_Some (heap b !! p);
  wf_serving : ∀ p, p ∈ serving b → is_Some (heap b !! p);
  wf_load : ∀ p x, heap b !! p = Some x → load x = u64 (Z.of_nat (connections p b));
}.

Lemma deref_peer_ok p b x : heap b !! p = Some x → deref p b = Ok x.
Proof. unfold deref. by intros ->. Qed.

Lemma count_zero_not_in p (l : list nat) : (p ∉ l) → count (λ q, bool_decide (q = p)) l = 0.
Proof. intros Hp. apply count_none. intros x Hx. apply bool_decide_eq_false. by intros ->. Qed.

Lemma make_peers_wf addresses b : wf b → wf (make_peers addresses b).
Proof.
  revert b. induction addresses as [|a addresses IH]; intros b Hb; cbn; [done|]. apply IH.
  set (p := fresh (dom (heap b))). assert (heap b !! p = None) as Hp by (apply not_elem_of_dom, is_fresh).
  destruct Hb as [Hn Hpe Hs Hl]. split; cbn.
  - apply NoDup_app. split_and!; [done| |apply NoDup_singleton]. intros q Hq Hq'%list_elem_of_singleton. subst q.
    destruct (Hpe p Hq) as [x Hx]. congruence.
  - intros q [Hq|Hq%list_elem_of_singleton]%elem_of_app; rewrite lookup_insert_is_Some'; [right; by apply Hpe|by left].
  - intros q Hq. rewrite lookup_insert_is_Some'. right. by apply Hs.
  - intros q x [[<- <-]|[_ Hq]]%lookup_insert_Some; [|by apply Hl].
    change (0%Z = u64 (Z.of_nat (connections p b))). unfold connections. rewrite count_zero_not_in; [done|]. intros Hin. destruct (Hs p Hin) as [y Hy]. congruence.
Qed.

Lemma set_backends_wf peers b : wf b → wf (SetBackends peers b).
Proof. intros [? ? ? ?]. apply make_peers_wf. split; cbn; [constructor|by intros p ?%elem_of_nil|done|done]. Qed.

(** A peer that changes, but not its load. *)
Lemma upd_wf p x y b : wf b → heap b !! p = Some x → load y = load x → wf (upd p y b).
Proof.
  intros [? Hp Hs Hl] Hx Hy. split; cbn [heap peers_ serving upd]; [done| | |].
  - intros q Hq. rewrite lookup_insert_is_Some'. right. by apply Hp.
  - intros q Hq. rewrite lookup_insert_is_Some'. right. by apply Hs.
  - intros q z [[<- <-]|[_ Hq]]%lookup_insert_Some; [|by apply Hl]. rewrite Hy. by apply (Hl p).
Qed.

Lemma count_delete {A} (f : A → bool) l i x : l !! i = Some x → count f l = Nat.b2n (f x) + count f (delete i l).
Proof.
  revert i. induction l as [|y l IH]; intros [|i] Hi; try done; cbn in Hi.
  - injection Hi as ->. by rewrite count_cons.
  - cbn [delete list_delete]. rewrite !count_cons. rewrite (IH i Hi). unfold delete. lia.
Qed.

Lemma connect_wf p x b :
  wf b → heap b !! p = Some x →
  wf {| heap := <[p := {| address := address x; load := u64 (load x + 1); is_dead := is_dead x |}]> (heap b);
        peers_ := peers_ b; serving := p :: serving b |}.
Proof.
  intros [? Hp Hs Hl] Hx. split; cbn [heap peers_ serving upd]; [done| | |].
  - intros q Hq. rewrite lookup_insert_is_Some'. right. by apply Hp.
  - intros q [->|Hq]%elem_of_cons; rewrite lookup_insert_is_Some'; [by left|right; by apply Hs].
  - intros q z [[<- <-]|[Hne Hq]]%lookup_insert_Some; unfold connections; cbn [serving]; rewrite count_cons; cbn [load].
    + rewrite bool_decide_true by done. rewrite (Hl p x Hx), uwrap_add_l. f_equal. unfold connections. cbn. lia.
    + rewrite bool_decide_false by done. by apply Hl.
Qed.

Lemma end_wf i b : wf b → i < length (serving b) → ∃ b', ProcessConnection_end i b = Ok b' ∧ wf b' ∧ peers_ b' = peers_ b.
Proof.
  intros [? Hp Hs Hl] Hi. unfold ProcessConnection_end. destruct (lookup_lt_is_Some_2 _ _ Hi) as [p Hpi]. rewrite Hpi.
  destruct (Hs p) as [x Hx]; [by eapply list_elem_of_lookup_2|]. rewrite (deref_peer_ok p b x Hx). cbn [bindO].
  eexists. split; [done|]. split; [|done]. split; cbn [heap peers_ serving upd]; [done| | |].
  - intros q Hq. rewrite lookup_insert_is_Some'. right. by apply Hp.
  - intros q Hq. rewrite lookup_insert_is_Some'. right. apply Hs. apply list_elem_of_lookup in Hq as [j Hj]. rewrite list_lookup_delete in Hj.
    case_decide; by eapply list_elem_of_lookup_2.
  - intros q z Hz. unfold connections. cbn [serving].
    assert (count (λ r, bool_decide (r = q)) (serving b) =
      Nat.b2n (bool_decide (p = q)) + count (λ r, bool_decide (r = q)) (delete i (serving b))) as Hc
      by (exact (count_delete (λ r, bool_decide (r = q)) (serving b) i p Hpi)).
    apply lookup_insert_Some in Hz as [[<- <-]|[Hne Hq]]; cbn [load].
    + rewrite bool_decide_true in Hc by done. rewrite (Hl p x Hx), uwrap_sub_l. f_equal. unfold connections. cbn in Hc. lia.
    + rewrite bool_decide_false in Hc by done. cbn in Hc. rewrite <- Hc. by apply Hl.
Qed.

(** ** The choice *)

Definition alive (b : balancer) (p : nat) (x : Peer) : Prop := heap b !! p = Some x ∧ is_dead x = false.

(** [p] is the first of the least loaded peers of [l] that are alive. *)
Definition least (b : balancer) (l : list nat) (p : nat) : Prop :=
  ∃ i x, l !! i = Some p ∧ alive b p x ∧
    ∀ j q y, l !! j = Some q → alive b q y → (load x <= load y)%Z ∧ (j < i → (load x < load y)%Z).

Lemma least_snoc_other b l p q y :
  least b l p → heap b !! q = Some y → (∀ x, heap b !! p = Some x → is_dead y = false → (load x <= load y)%Z) → least b (l ++ [q]) p.
Proof.
  intros (i&x&Hi&Hx&Hmin) Hy Hle. exists i, x. split_and!; [by apply lookup_app_l_Some|done|].
  intros j r z [Hj|[Hge [Hz <-]%list_lookup_singleton_Some]]%lookup_app_Some Hr; [by apply (Hmin j r)|].
  destruct Hr as [Hr Hd]. simplify_eq. split; [by apply Hle; [apply Hx|]|]. apply lookup_lt_Some in Hi. lia.
Qed.

Lemma least_snoc_new b l p x q y :
  least b l p → heap b !! p = Some x → alive b q y → (load y < load x)%Z → least b (l ++ [q]) q.
Proof.
  intros (i&x'&Hi&[Hx' Hd]&Hmin) Hx Hy Hlt. simplify_eq. exists (length l), y.
  split_and!; [by rewrite lookup_app_r, Nat.sub_diag by lia|done|].
  intros j r z [Hj|[Hge [Hz <-]%list_lookup_singleton_Some]]%lookup_app_Some Hr.
  - destruct (Hmin j r z Hj Hr). lia.
  - destruct Hy, Hr. simplify_eq. split; [lia|]. lia.
Qed.

Lemma choose_ok b :
  (∀ p, p ∈ peers_ b → is_Some (heap b !! p)) →
  ∃ r, forO (choose_body b) (peers_ b) None = Ok r ∧
    match r with
    | Some p => least b (peers_ b) p
    | None => ∀ p x, p ∈ peers_ b → heap b !! p = Some x → is_dead x = true
    end.
Proof.
  intros Hp. apply (forO_inv (λ l r, match r with
    | Some p => least b l p
    | None => ∀ p x, p ∈ l → heap b !! p = Some x → is_dead x = true
    end)); [by intros p x ?%elem_of_nil|].
  intros l q r Hq HI. destruct (Hp q Hq) as [y Hy]. unfold choose_body. rewrite (deref_peer_ok q b y Hy). cbn [bindO].
  destruct r as [p|].
  - pose proof HI as (i&x&Hi&[Hx Hd]&_). rewrite (deref_peer_ok p b x Hx). cbn [bindO]. eexists. split; [done|].
    destruct (is_dead y) eqn:Hdy; cbn [negb andb]; [apply (least_snoc_other b l p q y); [done|done|congruence]|].
    destruct (Z.ltb_spec (load y) (load x)); [by apply (least_snoc_new b l p x q y)|].
    apply (least_snoc_other b l p q y); [done|done|]. intros. by simplify_eq.
  - eexists. split; [done|]. destruct (is_dead y) eqn:Hdy.
    + intros p x [Hin|Hin%list_elem_of_singleton]%elem_of_app Hx; [by apply (HI p)|]. subst. congruence.
    + exists (length l), y. split_and!; [by rewrite lookup_app_r, Nat.sub_diag by lia|done|].
      intros j r z [Hj|[Hge [Hz <-]%list_lookup_singleton_Some]]%lookup_app_Some [Hr Hdr].
      * rewrite (HI r z) in Hdr; [done|by eapply list_elem_of_lookup_2|done].
      * simplify_eq. lia.
Qed.

(** A round does one of three things. *)
Lemma round_ok dial b :
  wf b →
  (MakeConnection_body dial b = Fail (Exn SystemError) ∧ ∀ p x, p ∈ peers_ b → heap b !! p = Some x → is_dead x = true) ∨
  (∃ p x, least b (peers_ b) p ∧ heap b !! p = Some x ∧ is_dead x = false ∧
    if dial (address x) then
      MakeConnection_body dial b = Ok (Some p,
        {| heap := <[p := {| address := address x; load := u64 (load x + 1); is_dead := is_dead x |}]> (heap b);
           peers_ := peers_ b; serving := p :: serving b |})
    else MakeConnection_body dial b = Ok (None, upd p {| address := address x; load := load x; is_dead := true |} b)).
Proof.
  intros Hb. unfold MakeConnection_body. destruct (choose_ok b (wf_peers b Hb)) as (r&->&Hr). cbn [bindO].
  destruct r as [p|]; [|by left]. right. pose proof Hr as (i&x&_&[Hx Hd]&_). exists p, x. rewrite (deref_peer_ok p b x Hx). cbn [bindO].
  split_and!; [done|done|done|]. by destruct (dial (address x)).
Qed.

Lemma step_wf b b' : wf b → step b b' → wf b'.
Proof.
  intros Hb Hs. revert Hb. destruct Hs as [peers c|dial c r c' Hr|i c c' Hi He]; intros Hb.
  - by apply set_backends_wf.
  - destruct (round_ok dial c Hb) as [[Hf _]|(p&x&_&Hx&_&Hm)]; [congruence|]. destruct (dial (address x)); rewrite Hr in Hm; simplify_eq.
    + by apply connect_wf.
    + by apply (upd_wf p x).
  - destruct (end_wf i c Hb Hi) as (c''&?&?&_). congruence.
Qed.

Lemma init_wf b : init b → wf b.
Proof. intros ->. split; cbn; [constructor|by intros p ?%elem_of_nil|by intros p ?%elem_of_nil|done]. Qed.

Lemma reachable_wf b : reachable init step b → wf b.
Proof. apply invariant_reachable; [apply init_wf|intros ? ?; apply step_wf]. Qed.

(** ** [MakeConnection] *)

Section Rounds.
Context (dial : SocketAddress.t → bool).

(** The peers of the list that a connection could go to. *)
Definition usable (b : balancer) (p : nat) (x : Peer) : Prop := alive b p x ∧ dial (address x) = true.

(** The peers in front of [p], or with less load, cannot be used. *)
Definition best (b : balancer) (p : nat) : Prop :=
  ∃ i x, peers_ b !! i = Some p ∧ usable b p x ∧
    ∀ j q y, peers_ b !! j = Some q → usable b q y → (load x <= load y)%Z ∧ (j < i → (load x < load y)%Z).

Lemma least_best b p x : least b (peers_ b) p → heap b !! p = Some x → dial (address x) = true → best b p.
Proof.
  intros (i&y&Hi&[Hy Hd]&Hmin) Hx Hdial. simplify_eq. exists i, y. split_and!; [done|done|].
  intros j q z Hj [Hz _]. by apply (Hmin j q).
Qed.

(** Marking a peer that does not answer changes nothing for the others. *)
Definition marked (p : nat) (x : Peer) (b : balancer) : balancer :=
  upd p {| address := address x; load := load x; is_dead := true |} b.

Lemma usable_marked b p x q y :
  heap b !! p = Some x → dial (address x) = false → usable (marked p x b) q y ↔ usable b q y.
Proof.
  intros Hx Hd. unfold usable, alive, marked. cbn. destruct (decide (q = p)) as [->|Hne].
  - rewrite lookup_insert_eq. split; [intros [[[= <-] ?] ?]; done|]. intros [[? ?] ?]. congruence.
  - by rewrite lookup_insert_ne.
Qed.

Lemma best_marked b p x q : heap b !! p = Some x → dial (address x) = false → best (marked p x b) q → best b q.
Proof.
  intros Hx Hd (i&y&Hi&Hu&Hmin). exists i, y. split_and!; [done|by apply (usable_marked b p x)|].
  intros j r z Hj Hr. apply (Hmin j r); [done|]. by apply usable_marked.
Qed.

(** The peers of the list that are still alive. *)
Definition live (b : balancer) : nat :=
  count (λ p, match heap b !! p with Some x => negb (is_dead x) | None => false end) (peers_ b).

Lemma count_drop_one {A} (f g : A → bool) l x :
  x ∈ l → f x = true → g x = false → (∀ y, y ∈ l → g y = true → f y = true) → count g l < count f l.
Proof.
  intros Hx Hf Hg. induction Hx as [x l|x y l Hx IH]; intros Hle; rewrite !count_cons.
  - rewrite Hf, Hg. cbn. assert (count g l ≤ count f l); [|lia].
    assert (∀ y, y ∈ l → g y = true → f y = true) as Hle' by (intros y Hy; apply Hle; by right). clear -Hle'.
    induction l as [|y l IH]; [done|]. rewrite !count_cons. specialize (Hle' y ltac:(left)) as Hy.
    assert (count g l ≤ count f l) by (apply IH; intros z Hz; apply Hle'; by right).
    destruct (g y); [rewrite (Hy eq_refl); lia|destruct (f y); cbn; lia].
  - specialize (IH Hf Hg (λ z Hz, Hle z (list_elem_of_further _ _ _ Hz))). specialize (Hle y ltac:(left)).
    destruct (g y); [rewrite (Hle eq_refl); lia|destruct (f y); cbn; lia].
Qed.

Lemma live_marked b p x :
  p ∈ peers_ b → heap b !! p = Some x → is_dead x = false → live (marked p x b) < live b.
Proof.
  intros Hp Hx Hd. unfold live, marked. cbn [upd heap peers_]. apply (count_drop_one _ _ _ p); [done|by rewrite Hx, Hd| |].
  - by rewrite lookup_insert_eq.
  - intros q _. destruct (decide (q = p)) as [->|Hne]; [by rewrite lookup_insert_eq|by rewrite lookup_insert_ne].
Qed.

Lemma make_connection_ok fuel b :
  wf b → live b < fuel →
  ∃ r b', MakeConnection fuel dial b = (r, b') ∧ wf b' ∧ peers_ b' = peers_ b ∧
    match r with
    | Ok p => best b p ∧ serving b' = p :: serving b
    | Fail f => f = Exn SystemError ∧ serving b' = serving b ∧ (∀ p x, p ∈ peers_ b → ¬ usable b p x) ∧
        ∀ p x, p ∈ peers_ b → heap b' !! p = Some x → is_dead x = true
    end.
Proof.
  revert b. induction fuel as [|fuel IH]; intros b Hb Hl; [lia|]. cbn [MakeConnection].
  destruct (round_ok dial b Hb) as [[-> Hdead]|(p&x&Hleast&Hx&Hd&Hm)].
  - eexists (Fail _), b. split; [done|]. split_and!; try done. intros p x Hp [[Hx Hdx] _]. rewrite (Hdead p x Hp Hx) in Hdx. done.
  - destruct (dial (address x)) eqn:Hdial; rewrite Hm.
    + eexists (Ok _), _. split; [done|]. split_and!; [by apply connect_wf|done|by apply (least_best b p x)|done].
    + change (upd p _ b) with (marked p x b).
      assert (p ∈ peers_ b) as Hp by (destruct Hleast as (i&?&Hi&_); by eapply list_elem_of_lookup_2).
      destruct (IH (marked p x b)) as (r&b'&->&Hb'&Hpe&Hr).
      * by apply (upd_wf p x).
      * pose proof (live_marked b p x Hp Hx Hd). lia.
      * exists r, b'. split_and!; [done|done|done|]. destruct r as [q|f].
        -- destruct Hr as [Hbest ?]. split; [by apply (best_marked b p x)|done].
        -- destruct Hr as (?&?&Hno&?). split_and!; [done|done| |done]. intros q y Hq Hu. apply (Hno q y Hq).
           by apply usable_marked.
Qed.

End Rounds.

(** C33 In every reachable state, whatever the order of new connections, ends of connections
    and changes of the backends, the load of a peer, old or new, is the number of connections
    that are being forwarded to it, and the end of a connection finds its peer.  A new
    connection goes to the least loaded of the peers that are not dead and answer in time,
    to the first of them in the list when there are several; the peers that do not answer
    are marked as dead.  When no peer can be used it throws, and all peers of the list are
    dead.  There are no more rounds than peers that are alive, and one. *)
Theorem balancer_correct (dial : SocketAddress.t → bool) (b : balancer) (fuel : nat) :
  reachable init step b → length (peers_ b) < fuel →
  (∀ p x, heap b !! p = Some x → load x = u64 (Z.of_nat (connections p b))) ∧
  (∀ i, i < length (serving b) → ∃ b', ProcessConnection_end i b = Ok b') ∧
  ∃ r b', MakeConnection fuel dial b = (r, b') ∧ peers_ b' = peers_ b ∧
    match r with
    | Ok p => best dial b p ∧ serving b' = p :: serving b
    | Fail f => f = Exn SystemError ∧ serving b' = serving b ∧ (∀ p x, p ∈ peers_ b → ¬ usable dial b p x) ∧
        ∀ p x, p ∈ peers_ b → heap b' !! p = Some x → is_dead x = true
    end.
Proof.
  intros Hb%reachable_wf Hf. split_and!.
  - apply (wf_load b Hb).
  - intros i Hi. destruct (end_wf i b Hb Hi) as (b'&?&_). by exists b'.
  - destruct (make_connection_ok dial fuel b Hb) as (r&b'&?&_&?&?); [|by exists r, b'].
    unfold live. eapply Nat.le_lt_trans; [apply count_le|done].
Qed.

(** ** Witnesses: two backends, the first of which does not answer *)

Module Demo.

Definition one : SocketAddress.t := SocketAddress.from_ip_port 1 80.
Definition two : SocketAddress.t := SocketAddress.from_ip_port 2 80.

Definition b0 : balancer := {| heap := ∅; peers_ := []; serving := [] |}.
Definition b1 : balancer := SetBackends [one; two] b0.
Definition answers (a : SocketAddress.t) : bool := SocketAddress.operator_eq a two.

Lemma b1_reachable : reachable init step b1.
Proof. eapply reachable_step; [by apply reachable_init|apply step_backends]. Qed.

Lemma balancer_correct_witness :
  ∃ b', MakeConnection 3 answers b1 = (Ok 1, b') ∧ serving b' = [1].
Proof.
  destruct (balancer_correct answers b1 3) as (_&_&r&b'&Hr&_&Hm).
  - apply b1_reachable.
  - vm_compute. lia.
  - assert (∃ b2, MakeConnection 3 answers b1 = (Ok 1, b2)) as [b2 H2] by (eexists; vm_compute; reflexivity).
    rewrite H2 in Hr. injection Hr as <- <-. destruct Hm as [_ Hs]. exists b2. split; [exact H2|exact Hs].
Defined.

End Demo.
