(* ===== verification/Ranges.v ===== *)
(** * Views over ranges (ranges/take.h, stride.h, get.h)

    An iterator is a value with the operations that the views use; [Iter] lists them and
    [IterSpec] says what they do at a position of a sequence of references.  [GetFieldView]
    and [StrideView] bring iterators of their own, which are shown to be iterators again, so
    that views can be put over views; [TakeView] uses those of its base.  References are
    abstract: a view hands out the references of its base, or those of a member of them. *)

From S2P Require Import Prelude.

#[local] Set Warnings "-clear-no-such-hyp".

Class Iter (B Ref : Type) := {
  inc : B → outcome B;
  dec : B → outcome B;
  plus : B → Z → outcome B;
  minus : B → B → outcome Z;
  star : B → outcome Ref;
  eqb : B → B → bool;
  ltb : B → B → bool;
}.

(** A range has references, [cells]; [at_ g b p] says that [b] is at the position [p] of the
    range [g]; a prefix of a range is a range. *)
Class IterSpec (B Ref : Type) `{!Iter B Ref} := {
  rng : Type;
  cells : rng → list Ref;
  prefix : rng → nat → rng;
  at_ : rng → B → nat → Prop;
  cells_prefix : ∀ g n, cells (prefix g n) = take n (cells g);
  at_le : ∀ g b p, at_ g b p → p ≤ length (cells g);
  at_prefix : ∀ g n b p, at_ g b p → p ≤ n → at_ (prefix g n) b p;
  inc_law : ∀ g b p, at_ g b p → p < length (cells g) → ∃ b', inc b = Ok b' ∧ at_ g b' (S p);
  dec_law : ∀ g b p, at_ g b (S p) → ∃ b', dec b = Ok b' ∧ at_ g b' p;
  plus_law : ∀ g b p n, at_ g b p → (0 <= Z.of_nat p + n <= Z.of_nat (length (cells g)))%Z →
    ∃ b', plus b n = Ok b' ∧ at_ g b' (Z.to_nat (Z.of_nat p + n));
  minus_law : ∀ g b b' p q, at_ g b p → at_ g b' q → minus b b' = Ok (Z.of_nat p - Z.of_nat q)%Z;
  star_law : ∀ g b p r, at_ g b p → cells g !! p = Some r → star b = Ok r;
  eqb_law : ∀ g b b' p q, at_ g b p → at_ g b' q → eqb b b' = (p =? q);
  ltb_law : ∀ g b b' p q, at_ g b p → at_ g b' q → ltb b b' = (p <? q);
}.

Record range (B : Type) : Type := Range { begin_ : B; end_ : B }.
Arguments Range {B} begin_ end_.
Arguments begin_ {B} r.
Arguments end_ {B} r.

Section Base.
Context {B Ref : Type} `{!Iter B Ref}.

(** [std::ranges::next(it, n, bound)]; a negative [n] goes in front of the range. *)
Fixpoint next_loop (n : nat) (it bound : B) : outcome B :=
  match n with
  | O => Ok it
  | S n => if eqb it bound then Ok it else it <-? inc it ;; next_loop n it bound
  end.
Definition ranges_next (it : B) (n : Z) (bound : B) : outcome B :=
  if (n <? 0)%Z then Fail UB else next_loop (Z.to_nat n) it bound.

(** [for (auto& x : r)]: the references, in order. *)
Fixpoint traverse (fuel : nat) (it stop : B) : outcome (list Ref) :=
  if eqb it stop then Ok []
  else match fuel with
       | O => Fail Fuel
       | S fuel => r <-? star it ;; it <-? inc it ;; rs <-? traverse fuel it stop ;; Ok (r :: rs)
       end.

(** ** [TakeView] *)

Definition Take_end (base : range B) (count : Z) : outcome B := ranges_next (begin_ base) count (end_ base).
Definition Take (base : range B) (count : Z) : outcome (range B) :=
  e <-? Take_end base count ;; Ok (Range (begin_ base) e).
(** [size()] over a base of [n] elements; [n] is a [size_t]. *)
Definition Take_size (n count : Z) : Z := Z.min n (u64 count).

(** ** [GetFieldView] *)

Section Get.
Context {F Ref' : Type} `{!EqDecision F} (member : F → Ref → Ref').

Record FieldIterator : Type := { it_ : B; field_ptr_ : F }.

Definition field_at (i : FieldIterator) (b : B) : FieldIterator := {| it_ := b; field_ptr_ := field_ptr_ i |}.

Definition Field_inc (i : FieldIterator) : outcome FieldIterator := b <-? inc (it_ i) ;; Ok (field_at i b).
Definition Field_dec (i : FieldIterator) : outcome FieldIterator := b <-? dec (it_ i) ;; Ok (field_at i b).
Definition Field_star (i : FieldIterator) : outcome Ref' := r <-? star (it_ i) ;; Ok (member (field_ptr_ i) r).
Definition Field_plus (i : FieldIterator) (n : Z) : outcome FieldIterator := b <-? plus (it_ i) n ;; Ok (field_at i b).
(** [operator-=] adds [-n], which an [int] may not have. *)
Definition Field_sub (i : FieldIterator) (n : Z) : outcome FieldIterator := m <-? checked32 (- n) ;; Field_plus i m.
Definition Field_minus (i j : FieldIterator) : outcome Z := minus (it_ i) (it_ j).
Definition Field_index (i : FieldIterator) (index : Z) : outcome Ref' :=
  b <-? plus (it_ i) index ;; r <-? star b ;; Ok (member (field_ptr_ i) r).
Definition Field_eqb (i j : FieldIterator) : bool := eqb (it_ i) (it_ j) && bool_decide (field_ptr_ i = field_ptr_ j).
Definition Field_ltb (i j : FieldIterator) : bool := ltb (it_ i) (it_ j).

(** The other operators, which the iterator has from these; the comparisons of the base are
    given by its [<]. *)
Definition Field_post_inc (i : FieldIterator) : outcome (FieldIterator * FieldIterator) := j <-? Field_inc i ;; Ok (i, j).
Definition Field_post_dec (i : FieldIterator) : outcome (FieldIterator * FieldIterator) := j <-? Field_dec i ;; Ok (i, j).
Definition Field_add (i : FieldIterator) (n : Z) : outcome FieldIterator := Field_plus i n.
Definition Field_add_left (n : Z) (i : FieldIterator) : outcome FieldIterator := Field_add i n.
Definition Field_subtract (i : FieldIterator) (n : Z) : outcome FieldIterator := Field_sub i n.
Definition Field_leb (i j : FieldIterator) : bool := negb (ltb (it_ j) (it_ i)).
Definition Field_gtb (i j : FieldIterator) : bool := ltb (it_ j) (it_ i).
Definition Field_geb (i j : FieldIterator) : bool := negb (ltb (it_ i) (it_ j)).

#[global] Instance field_iter : Iter FieldIterator Ref' := {|
  inc := Field_inc; dec := Field_dec; plus := Field_plus; minus := Field_minus; star := Field_star;
  eqb := Field_eqb; ltb := Field_ltb;
|}.

Definition Get (base : range B) (field_ptr : F) : range FieldIterator :=
  Range {| it_ := begin_ base; field_ptr_ := field_ptr |} {| it_ := end_ base; field_ptr_ := field_ptr |}.
Definition Get_size (n : Z) : Z := n.

End Get.

(** ** [StrideView] *)

(** The loop of the constructor: the iterators collected so far. *)
Fixpoint stride_loop (fuel : nat) (step : Z) (it stop : B) (iterators : list B) : outcome (list B) :=
  match fuel with
  | O => Fail Fuel
  | S fuel =>
      it <-? ranges_next it step stop ;;
      if eqb it stop then Ok iterators else stride_loop fuel step it stop (iterators ++ [it])
  end.

(** [iterators_] of the view. *)
Definition Stride_new (fuel : nat) (base : range B) (step : Z) : outcome (list B) :=
  stride_loop fuel step (begin_ base) (end_ base) [begin_ base].

(** An iterator into the vector [iterators_]. *)
Record VIterator : Type := { vec : list B; idx : Z }.

Definition vec_at (i : VIterator) (n : Z) : outcome VIterator :=
  if (0 <=? n)%Z && (n <=? Z.of_nat (length (vec i)))%Z then Ok {| vec := vec i; idx := n |} else Fail UB.

Definition Stride_inc (i : VIterator) : outcome VIterator := vec_at i (idx i + 1).
Definition Stride_dec (i : VIterator) : outcome VIterator := vec_at i (idx i - 1).
Definition Stride_plus (i : VIterator) (n : Z) : outcome VIterator := vec_at i (idx i + n).
Definition Stride_sub (i : VIterator) (n : Z) : outcome VIterator := vec_at i (idx i - n).
Definition Stride_minus (i j : VIterator) : outcome Z := Ok (idx i - idx j)%Z.
Definition Stride_star (i : VIterator) : outcome Ref :=
  match vec i !! Z.to_nat (idx i) with Some b => star b | None => Fail UB end.
Definition Stride_index (i : VIterator) (index : Z) : outcome Ref := j <-? Stride_plus i index ;; Stride_star j.
Definition Stride_eqb (i j : VIterator) : bool := (idx i =? idx j)%Z.
Definition Stride_ltb (i j : VIterator) : bool := (idx i <? idx j)%Z.

Definition Stride_post_inc (i : VIterator) : outcome (VIterator * VIterator) := j <-? Stride_inc i ;; Ok (i, j).
Definition Stride_post_dec (i : VIterator) : outcome (VIterator * VIterator) := j <-? Stride_dec i ;; Ok (i, j).
Definition Stride_add (i : VIterator) (n : Z) : outcome VIterator := Stride_plus i n.
Definition Stride_add_left (n : Z) (i : VIterator) : outcome VIterator := Stride_add i n.
Definition Stride_subtract (i : VIterator) (n : Z) : outcome VIterator := Stride_sub i n.
Definition Stride_leb (i j : VIterator) : bool := (idx i <=? idx j)%Z.
Definition Stride_gtb (i j : VIterator) : bool := (idx j <? idx i)%Z.
Definition Stride_geb (i j : VIterator) : bool := (idx j <=? idx i)%Z.

#[global] Instance stride_iter : Iter VIterator Ref := {|
  inc := Stride_inc; dec := Stride_dec; plus := Stride_plus; minus := Stride_minus; star := Stride_star;
  eqb := Stride_eqb; ltb := Stride_ltb;
|}.

Definition Stride (fuel : nat) (base : range B) (step : Z) : outcome (range VIterator) :=
  its <-? Stride_new fuel base step ;;
  Ok (Range {| vec := its; idx := 0 |} {| vec := its; idx := Z.of_nat (length its) |}).
Definition Stride_size (iterators : list B) : nat := length iterators.

End Base.
Arguments FieldIterator : clear implicits.
Arguments VIterator : clear implicits.

(** ** The elements of a view *)

Section Facts.
Context {B Ref : Type} `{!Iter B Ref, !IterSpec B Ref}.

Definition is_range (g : rng) (r : range B) : Prop := at_ g (begin_ r) 0 ∧ at_ g (end_ r) (length (cells g)).

(** A loop over a range visits its references in order, each once. *)
Lemma traverse_ok fuel g it stop p :
  at_ g it p → at_ g stop (length (cells g)) → length (cells g) - p ≤ fuel →
  traverse fuel it stop = Ok (drop p (cells g)).
Proof.
  revert it p. induction fuel as [|fuel IH]; intros it p Hit Hstop Hf; pose proof (at_le g it p Hit);
    cbn [traverse]; rewrite (eqb_law g it stop p (length (cells g)) Hit Hstop).
  - replace p with (length (cells g)) by lia. rewrite Nat.eqb_refl, drop_all. done.
  - destruct (Nat.eqb_spec p (length (cells g))) as [->|Hne]; [by rewrite drop_all|].
    destruct (lookup_lt_is_Some_2 (cells g) p) as [r Hr]; [lia|]. rewrite (star_law g it p r Hit Hr). cbn [bindO].
    destruct (inc_law g it p Hit) as (it'&->&Hit'); [lia|]. cbn [bindO]. rewrite (IH it' (S p) Hit' Hstop) by lia. cbn [bindO].
    by rewrite (drop_S _ _ _ Hr).
Qed.

Lemma next_loop_ok n g it bound p :
  at_ g it p → at_ g bound (length (cells g)) →
  ∃ it', next_loop n it bound = Ok it' ∧ at_ g it' (min (p + n) (length (cells g))).
Proof.
  revert it p. induction n as [|n IH]; intros it p Hit Hb; pose proof (at_le g it p Hit); cbn [next_loop].
  - exists it. rewrite Nat.add_0_r, Nat.min_l by done. done.
  - rewrite (eqb_law g it bound p _ Hit Hb). destruct (Nat.eqb_spec p (length (cells g))) as [->|Hne].
    + exists it. rewrite Nat.min_r by lia. done.
    + destruct (inc_law g it p Hit) as (it1&->&Hit1); [lia|]. cbn [bindO]. destruct (IH it1 (S p) Hit1 Hb) as (it'&->&Hit').
      exists it'. split; [done|]. by replace (p + S n) with (S p + n) by lia.
Qed.

Lemma next_ok n g it bound p :
  (0 <= n)%Z → at_ g it p → at_ g bound (length (cells g)) →
  ∃ it', ranges_next it n bound = Ok it' ∧ at_ g it' (min (p + Z.to_nat n) (length (cells g))).
Proof. intros Hn Hit Hb. unfold ranges_next. rewrite (proj2 (Z.ltb_ge _ _)) by done. by apply next_loop_ok. Qed.

(** *** [Take] *)

Lemma take_ok g r count :
  is_range g r → (0 <= count)%Z → ∃ r', Take r count = Ok r' ∧ is_range (prefix g (Z.to_nat count)) r'.
Proof.
  intros [Hb He] Hc. unfold Take, Take_end. destruct (next_ok count g (begin_ r) (end_ r) 0 Hc Hb He) as (e&->&Hne). cbn [bindO].
  eexists. split; [done|]. split; cbn; [apply at_prefix; [done|lia]|]. rewrite cells_prefix, length_take.
  apply at_prefix; [done|lia].
Qed.

(** *** [Get] *)

Section GetFacts.
Context {F Ref' : Type} `{!EqDecision F} (member : F → Ref → Ref').

#[program] Definition field_spec : @IterSpec (FieldIterator B F) Ref' (field_iter member) := {|
  rng := rng * F;
  cells := λ g, member g.2 <$> cells g.1;
  prefix := λ g n, (prefix g.1 n, g.2);
  at_ := λ g i p, at_ g.1 (it_ i) p ∧ field_ptr_ i = g.2;
|}.
Next Obligation. intros [g f] n. cbn. by rewrite cells_prefix, fmap_take. Qed.
Next Obligation. intros [g f] i p [Hi _]. cbn. rewrite length_fmap. by eapply at_le. Qed.
Next Obligation. intros [g f] n i p [Hi ?] Hn. split; [by apply at_prefix|done]. Qed.
Next Obligation.
  intros [g f] i p [Hi Hf] Hl. cbn in *. rewrite length_fmap in Hl. unfold Field_inc.
  destruct (inc_law g (it_ i) p Hi Hl) as (b&->&?). by eexists.
Qed.
Next Obligation. intros [g f] i p [Hi Hf]. cbn in *. unfold Field_dec. destruct (dec_law g (it_ i) p Hi) as (b&->&?). by eexists. Qed.
Next Obligation.
  intros [g f] i p n [Hi Hf] Hl. cbn in *. rewrite length_fmap in Hl. unfold Field_plus.
  destruct (plus_law g (it_ i) p n Hi Hl) as (b&->&?). by eexists.
Qed.
Next Obligation. intros [g f] i j p q [Hi _] [Hj _]. cbn in *. by eapply minus_law. Qed.
Next Obligation.
  intros [g f] i p r [Hi Hf] Hr. cbn in *. rewrite list_lookup_fmap in Hr. destruct (cells g !! p) as [x|] eqn:Hx; [|done].
  injection Hr as <-. unfold Field_star. rewrite (star_law g (it_ i) p x Hi Hx). cbn. by rewrite Hf.
Qed.
Next Obligation.
  intros [g f] i j p q [Hi Hf] [Hj Hf']. cbn in *. unfold Field_eqb. rewrite bool_decide_true by congruence.
  by rewrite andb_true_r, (eqb_law g (it_ i) (it_ j) p q).
Qed.
Next Obligation. intros [g f] i j p q [Hi _] [Hj _]. cbn in *. unfold Field_ltb. by eapply ltb_law. Qed.

End GetFacts.

(** *** [Stride] *)

(** Every [step]-th element. *)
Definition every {A} (step : nat) (l : list A) : list A :=
  omap (λ i, l !! (i * step)) (seq 0 (length l)).

#[program] Definition stride_spec : @IterSpec (VIterator B) Ref stride_iter := {|
  rng := list B * list Ref;
  cells := λ g, g.2;
  prefix := λ g n, (g.1, take n g.2);
  at_ := λ g i p, vec i = g.1 ∧ idx i = Z.of_nat p ∧ p ≤ length g.2 ∧ length g.2 ≤ length g.1 ∧
    ∀ k r, g.2 !! k = Some r → ∃ b, g.1 !! k = Some b ∧ star b = Ok r;
|}.
Next Obligation. done. Qed.
Next Obligation. intros g i p (_&_&?&_). done. Qed.
Next Obligation.
  intros [its rs] n i p (?&?&?&?&Hs) Hn. cbn in *. split_and!; [done|done|rewrite length_take; lia|rewrite length_take; lia|].
  intros k r [Hk _]%lookup_take_Some. by apply Hs.
Qed.
Next Obligation.
  intros [its rs] [v x] p (Hv&Hx&?&?&Hs) Hp. cbn in *. subst. unfold Stride_inc, vec_at. cbn.
  rewrite (proj2 (Z.leb_le _ _)), (proj2 (Z.leb_le _ _)) by lia. eexists. split; [done|]. cbn. split_and!; try done; lia.
Qed.
Next Obligation.
  intros [its rs] [v x] p (Hv&Hx&?&?&Hs). cbn in *. subst. unfold Stride_dec, vec_at. cbn.
  rewrite (proj2 (Z.leb_le _ _)), (proj2 (Z.leb_le _ _)) by lia. eexists. split; [done|]. cbn. split_and!; try done; lia.
Qed.
Next Obligation.
  intros [its rs] [v x] p n (Hv&Hx&?&?&Hs) Hn. cbn in *. subst. unfold Stride_plus, vec_at. cbn.
  rewrite (proj2 (Z.leb_le _ _)), (proj2 (Z.leb_le _ _)) by lia. eexists. split; [done|]. cbn. split_and!; try done; lia.
Qed.
Next Obligation. intros [its rs] [v x] [v' x'] p q (Hv&Hx&_) (Hv'&Hx'&_). cbn in *. by subst. Qed.
Next Obligation.
  intros [its rs] [v x] p r (Hv&Hx&?&?&Hs) Hr. cbn in *. subst. unfold Stride_star. cbn. rewrite Nat2Z.id.
  destruct (Hs p r Hr) as (b&->&?). done.
Qed.
Next Obligation.
  intros [its rs] [v x] [v' x'] p q (Hv&Hx&_) (Hv'&Hx'&_). cbn in *. subst. unfold Stride_eqb. cbn.
  destruct (Nat.eqb_spec p q); [subst; apply Z.eqb_refl|apply Z.eqb_neq; lia].
Qed.
Next Obligation.
  intros [its rs] [v x] [v' x'] p q (Hv&Hx&_) (Hv'&Hx'&_). cbn in *. subst. change ((Z.of_nat p <? Z.of_nat q)%Z = (p <? q)).
  destruct (Nat.ltb_spec p q); [apply Z.ltb_lt; lia|apply Z.ltb_ge; lia].
Qed.

(** The iterators of the strides that were collected before the position [p]. *)
Lemma stride_loop_ok fuel step g it stop its n :
  (0 < step) → at_ g it (n * step) → n * step < length (cells g) → at_ g stop (length (cells g)) →
  length (cells g) - n * step ≤ fuel → length its = S n →
  (∀ k b, its !! k = Some b → at_ g b (k * step)) →
  ∃ its', stride_loop fuel (Z.of_nat step) it stop its = Ok its' ∧ its' ≠ [] ∧
    (∀ k b, its' !! k = Some b → at_ g b (k * step) ∧ k * step < length (cells g)) ∧
    length (cells g) ≤ length its' * step.
Proof.
  intros Hs. revert it its n. induction fuel as [|fuel IH]; intros it its n Hit Hn Hstop Hf Hl Hits; [lia|]. cbn [stride_loop].
  destruct (next_ok (Z.of_nat step) g it stop (n * step)) as (it'&->&Hit'); [lia|done|done|]. cbn [bindO]. rewrite Nat2Z.id in Hit'.
  rewrite (eqb_law g it' stop _ _ Hit' Hstop). destruct (Nat.eqb_spec (min (n * step + step) (length (cells g))) (length (cells g))) as [He|He].
  - exists its. split_and!; [done|by destruct its| |rewrite Hl; cbn; lia].
    intros k b Hk. split; [by apply Hits|]. apply lookup_lt_Some in Hk. assert (k ≤ n) as Hkn by lia. nia.
  - rewrite Nat.min_l in Hit' by lia. apply (IH it' (its ++ [it']) (S n)); cbn; try lia.
    + by rewrite Nat.add_comm.
    + done.
    + rewrite length_app. cbn. lia.
    + intros k b [Hk|[Hge [Hz <-]%list_lookup_singleton_Some]]%lookup_app_Some; [by apply Hits|].
      replace k with (S n) by lia. cbn. by rewrite Nat.add_comm.
Qed.

Lemma every_lookup {A} step (l : list A) k : 0 < step → every step l !! k = l !! (k * step).
Proof.
  intros Hs. unfold every.
  assert (∀ m n, omap (λ i, l !! (i * step)) (seq m n) !! k = if decide (k < n) then l !! ((m + k) * step) else None) as H.
  { intros m n. revert m k. induction n as [|n IH]; intros m k; cbn; [done|].
    destruct (l !! (m * step)) as [x|] eqn:Hx.
    - destruct k as [|k]; cbn; [by rewrite Nat.add_0_r|]. rewrite IH. destruct (decide (k < n)), (decide (S k < S n)); try lia; [|done].
      f_equal. nia.
    - apply lookup_ge_None in Hx.
      assert (∀ j, m ≤ j → l !! (j * step) = None) as Hnone by (intros j Hj; apply lookup_ge_None; nia).
      rewrite IH. repeat case_decide; try lia; rewrite ?Hnone by lia; done. }
  rewrite H. cbn. case_decide as Hk; [done|]. symmetry. apply lookup_ge_None. nia.
Qed.

End Facts.

Section StrideFacts.
Context {B Ref : Type} `{!Iter B Ref, !IterSpec B Ref}.

Lemma stride_ok fuel g r step :
  is_range g r → 0 < step → cells g ≠ [] → length (cells g) ≤ fuel →
  ∃ r' g', Stride fuel r (Z.of_nat step) = Ok r' ∧ @is_range _ _ _ stride_spec g' r' ∧
    @cells _ _ _ stride_spec g' = every step (cells g).
Proof.
  intros [Hb He] Hs Hne Hf. unfold Stride, Stride_new. assert (0 < length (cells g)) by (destruct (cells g); [done|cbn; lia]).
  destruct (stride_loop_ok fuel step g (begin_ r) (end_ r) [begin_ r] 0) as (its&->&Hnn&Hits&Hlen); try done.
  { lia. }
  { intros [|k] b Hk; [injection Hk as <-; done|done]. }
  cbn [bindO]. eexists _, (its, every step (cells g)). split; [done|].
  assert (length (every step (cells g)) = length its) as Hle.
  { apply Nat.le_antisymm.
    - destruct (decide (length (every step (cells g)) ≤ length its)) as [?|Hlt]; [done|].
      destruct (lookup_lt_is_Some_2 (every step (cells g)) (length its)) as [x Hx]; [lia|].
      rewrite every_lookup in Hx by done. apply lookup_lt_Some in Hx. lia.
    - destruct (decide (length its ≤ length (every step (cells g)))) as [?|Hlt]; [done|].
      destruct (lookup_lt_is_Some_2 its (length (every step (cells g)))) as [b Hbb]; [lia|].
      destruct (Hits _ _ Hbb) as [_ Hlt2]. destruct (lookup_lt_is_Some_2 (cells g) _ Hlt2) as [x Hx].
      rewrite <- every_lookup in Hx by done. apply lookup_lt_Some in Hx. lia. }
  assert (∀ k x, every step (cells g) !! k = Some x → ∃ b, its !! k = Some b ∧ star b = Ok x) as Hstar.
  { intros k x Hk. pose proof (lookup_lt_Some _ _ _ Hk). destruct (lookup_lt_is_Some_2 its k) as [b Hbk]; [lia|].
    exists b. split; [done|]. rewrite every_lookup in Hk by done. destruct (Hits k b Hbk) as [Hat _]. by eapply star_law. }
  split; [|done]. split; cbn; split_and!; try done; lia.
Qed.

(** An empty range has a view with one element, the end, which may not be dereferenced. *)
Lemma stride_empty fuel g r step :
  is_range g r → 0 < step → cells g = [] → 0 < fuel →
  ∃ r', Stride fuel r (Z.of_nat step) = Ok r' ∧ vec (begin_ r') = [begin_ r] ∧
    eqb (begin_ r') (end_ r') = false ∧ star (begin_ r') = star (begin_ r).
Proof.
  intros [Hb He] Hs Hnil Hf. unfold Stride, Stride_new. destruct fuel as [|fuel]; [lia|]. cbn [stride_loop].
  destruct (next_ok (Z.of_nat step) g (begin_ r) (end_ r) 0) as (it&->&Hit); [lia|done|done|]. cbn [bindO].
  rewrite Hnil in Hit, He. rewrite Nat.min_r in Hit by (cbn; lia). rewrite (eqb_law g it (end_ r) 0 0 Hit He). cbn.
  by eexists.
Qed.

(** With a step of zero the constructor of a view over a range that is not empty never
    returns. *)
Lemma stride_zero fuel g r : is_range g r → cells g ≠ [] → Stride fuel r 0 = Fail Fuel.
Proof.
  intros [Hb He] Hne. unfold Stride, Stride_new. assert (0 < length (cells g)) by (destruct (cells g); [done|cbn; lia]).
  assert (∀ its, stride_loop fuel 0 (begin_ r) (end_ r) its = Fail Fuel) as ->; [|done].
  induction fuel as [|fuel IH]; intros its; [done|]. cbn [stride_loop].
  change (ranges_next (begin_ r) 0 (end_ r)) with (Ok (begin_ r)). cbn [bindO]. rewrite (eqb_law g _ _ _ _ Hb He). destruct (Nat.eqb_spec 0 (length (cells g))); [lia|]. apply IH.
Qed.

End StrideFacts.

(** ** The other operators of the iterators *)

Section Operators.
Context {B Ref : Type} `{!Iter B Ref, !IterSpec B Ref}.

(** A postfix operator gives the old iterator and moves; [- n] moves back, but not for the
    least [int] in the case of [GetFieldView], whose negation overflows; indexing is moving
    and dereferencing; and the comparisons are those of the positions. *)
Lemma field_operators {F Ref' : Type} `{!EqDecision F} (member : F → Ref → Ref') (g : rng * F) i j p q :
  at_ (IterSpec := field_spec member) g i p → at_ (IterSpec := field_spec member) g j q →
  (p < length (cells g.1) → ∃ i', Field_post_inc i = Ok (i, i') ∧ at_ (IterSpec := field_spec member) g i' (S p)) ∧
  (0 < p → ∃ i', Field_post_dec i = Ok (i, i') ∧ at_ (IterSpec := field_spec member) g i' (pred p)) ∧
  (∀ n, (- 2 ^ 31 < n < 2 ^ 31)%Z → (0 <= Z.of_nat p - n <= Z.of_nat (length (cells g.1)))%Z →
    ∃ i', Field_subtract i n = Ok i' ∧ at_ (IterSpec := field_spec member) g i' (Z.to_nat (Z.of_nat p - n))) ∧
  Field_subtract i (- 2 ^ 31) = Fail UB ∧
  (∀ n r, cells g.1 !! (p + n) = Some r → Field_index member i (Z.of_nat n) = Ok (member g.2 r)) ∧
  Field_leb i j = (p <=? q) ∧ Field_gtb i j = (q <? p) ∧ Field_geb i j = (q <=? p).
Proof.
  intros Hi Hj. pose proof (proj1 Hi) as Hpi. pose proof (proj1 Hj) as Hpj.
  split_and!.
  - intros Hp. destruct (inc_law (IterSpec := field_spec member) g i p Hi) as (i'&He&?); [cbn; by rewrite length_fmap|].
    cbn in He. unfold Field_post_inc. rewrite He. eauto.
  - intros Hp. destruct p as [|p]; [lia|]. destruct (dec_law (IterSpec := field_spec member) g i p Hi) as (i'&He&?).
    cbn in He. unfold Field_post_dec. rewrite He. eauto.
  - intros n Hn Hp. unfold Field_subtract, Field_sub. rewrite checked32_ok by lia. cbn [bindO].
    destruct (plus_law (IterSpec := field_spec member) g i p (- n) Hi) as (i'&He&?); [cbn; rewrite length_fmap; lia|]. by exists i'.
  - done.
  - intros n r Hr. unfold Field_index. assert (p + n < length (cells g.1)) by (by eapply lookup_lt_Some).
    destruct (plus_law g.1 (it_ i) p (Z.of_nat n) Hpi) as (b&->&Hb); [lia|]. cbn [bindO].
    replace (Z.to_nat (Z.of_nat p + Z.of_nat n)) with (p + n) in Hb by lia. rewrite (star_law _ _ _ _ Hb Hr). cbn. by rewrite (proj2 Hi).
  - unfold Field_leb. rewrite (ltb_law g.1 _ _ q p Hpj Hpi). symmetry. apply Nat.leb_antisym.
  - unfold Field_gtb. by rewrite (ltb_law g.1 _ _ q p Hpj Hpi).
  - unfold Field_geb. rewrite (ltb_law g.1 _ _ p q Hpi Hpj). symmetry. apply Nat.leb_antisym.
Qed.

Lemma stride_operators (g : list B * list Ref) i j p q :
  at_ (IterSpec := stride_spec) g i p → at_ (IterSpec := stride_spec) g j q →
  (p < length g.2 → ∃ i', Stride_post_inc i = Ok (i, i') ∧ at_ (IterSpec := stride_spec) g i' (S p)) ∧
  (0 < p → ∃ i', Stride_post_dec i = Ok (i, i') ∧ at_ (IterSpec := stride_spec) g i' (pred p)) ∧
  (∀ n, (0 <= Z.of_nat p - n <= Z.of_nat (length g.2))%Z →
    ∃ i', Stride_subtract i n = Ok i' ∧ at_ (IterSpec := stride_spec) g i' (Z.to_nat (Z.of_nat p - n))) ∧
  (∀ n r, g.2 !! (p + n) = Some r → Stride_index i (Z.of_nat n) = Ok r) ∧
  Stride_leb i j = (p <=? q) ∧ Stride_gtb i j = (q <? p) ∧ Stride_geb i j = (q <=? p).
Proof.
  intros Hi Hj. pose proof Hi as (Hv&Hx&_). pose proof Hj as (Hv'&Hx'&_). split_and!.
  - intros Hp. destruct (inc_law (IterSpec := stride_spec) g i p Hi Hp) as (i'&He&?). cbn in He. unfold Stride_post_inc. rewrite He. eauto.
  - intros Hp. destruct p as [|p]; [lia|]. destruct (dec_law (IterSpec := stride_spec) g i p Hi) as (i'&He&?).
    cbn in He. unfold Stride_post_dec. rewrite He. eauto.
  - intros n Hn. destruct (plus_law (IterSpec := stride_spec) g i p (- n) Hi Hn) as (i'&He&?). cbn in He. by exists i'.
  - intros n r Hr. pose proof (lookup_lt_Some _ _ _ Hr).
    destruct (plus_law (IterSpec := stride_spec) g i p (Z.of_nat n) Hi) as (b&He&Hb); [cbn; lia|]. cbn in He. unfold Stride_index. rewrite He. cbn [bindO].
    replace (Z.to_nat (Z.of_nat p + Z.of_nat n)) with (p + n) in Hb by lia. by apply (star_law (IterSpec := stride_spec) g b (p + n)).
  - unfold Stride_leb. rewrite Hx, Hx'. destruct (Nat.leb_spec p q); [apply Z.leb_le|apply Z.leb_gt]; lia.
  - unfold Stride_gtb. rewrite Hx, Hx'. destruct (Nat.ltb_spec q p); [apply Z.ltb_lt|apply Z.ltb_ge]; lia.
  - unfold Stride_geb. rewrite Hx, Hx'. destruct (Nat.leb_spec q p); [apply Z.leb_le|apply Z.leb_gt]; lia.
Qed.

End Operators.

(** ** A container *)

(** An iterator of a vector whose elements have the references [elems]. *)
Module Vector.

Record iterator (Ref : Type) : Type := Iterator { elems : list Ref; pos : nat }.
Arguments Iterator {Ref} elems pos.
Arguments elems {Ref} i.
Arguments pos {Ref} i.

Section Vec.
Context {Ref : Type}.

Definition move (i : iterator Ref) (n : Z) : outcome (iterator Ref) :=
  if (0 <=? n)%Z && (n <=? Z.of_nat (length (elems i)))%Z then Ok (Iterator (elems i) (Z.to_nat n)) else Fail UB.

#[global] Instance iter : Iter (iterator Ref) Ref := {|
  inc := λ i, move i (Z.of_nat (pos i) + 1);
  dec := λ i, move i (Z.of_nat (pos i) - 1);
  plus := λ i n, move i (Z.of_nat (pos i) + n);
  minus := λ i j, Ok (Z.of_nat (pos i) - Z.of_nat (pos j))%Z;
  star := λ i, match elems i !! pos i with Some r => Ok r | None => Fail UB end;
  eqb := λ i j, pos i =? pos j;
  ltb := λ i j, pos i <? pos j;
|}.

(** A vector, or its first elements. *)
#[global, program] Instance spec : IterSpec (iterator Ref) Ref := {|
  rng := list Ref * nat;
  cells := λ g, take g.2 g.1;
  prefix := λ g n, (g.1, min n g.2);
  at_ := λ g i p, elems i = g.1 ∧ pos i = p ∧ p ≤ length (take g.2 g.1);
|}.
Next Obligation. intros [l m] n. cbn. by rewrite take_take. Qed.
Next Obligation. intros g i p (_&_&?). done. Qed.
Next Obligation. intros [l m] n i p (?&?&Hp) Hn. cbn in *. split_and!; [done|done|]. rewrite length_take in *. lia. Qed.
Next Obligation.
  intros [l m] [e x] p (He&Hx&Hp) Hl. cbn in *. subst. rewrite length_take in *. unfold move. cbn.
  rewrite (proj2 (Z.leb_le _ _)), (proj2 (Z.leb_le _ _)) by lia. eexists. split; [done|]. cbn [elems pos fst snd]. split_and!; [done|lia|rewrite ?length_take; lia].
Qed.
Next Obligation.
  intros [l m] [e x] p (He&Hx&Hp). cbn in *. subst. rewrite length_take in *. unfold move. cbn.
  rewrite (proj2 (Z.leb_le _ _)), (proj2 (Z.leb_le _ _)) by lia. eexists. split; [done|]. cbn [elems pos fst snd]. split_and!; [done|lia|rewrite ?length_take; lia].
Qed.
Next Obligation.
  intros [l m] [e x] p n (He&Hx&Hp) Hl. cbn in *. subst. rewrite length_take in *. unfold move. cbn.
  rewrite (proj2 (Z.leb_le _ _)), (proj2 (Z.leb_le _ _)) by lia. eexists. split; [done|]. cbn [elems pos fst snd]. split_and!; [done|lia|rewrite ?length_take; lia].
Qed.
Next Obligation. intros [l m] [e x] [e' x'] p q (_&Hx&_) (_&Hx'&_). cbn in *. by subst. Qed.
Next Obligation.
  intros [l m] [e x] p r (He&Hx&_) Hr. cbn in *. subst. apply lookup_take_Some in Hr as [-> _]. done.
Qed.
Next Obligation. intros [l m] [e x] [e' x'] p q (_&Hx&_) (_&Hx'&_). cbn in *. by subst. Qed.
Next Obligation. intros [l m] [e x] [e' x'] p q (_&Hx&_) (_&Hx'&_). cbn in *. by subst. Qed.

Definition all (l : list Ref) : range (iterator Ref) := Range (Iterator l 0) (Iterator l (length l)).

Lemma all_range l : is_range (l, length l) (all l).
Proof. split; cbn; split_and!; try done; rewrite ?firstn_all; lia. Qed.

End Vec.
End Vector.

(** The views over any range, also over another view: a loop over a range visits its
    references in order; [Take] gives the first [count] of them, [Get] the members of all,
    and [Stride] over a range that is not empty every [step]-th; each is a range again, with
    iterators that add, subtract, compare and index as those of the base.  Over an empty
    range, [Stride] gives a view with one element, which is the end of the base. *)
Theorem views_correct {B Ref : Type} `{!Iter B Ref, !IterSpec B Ref} (g : rng) (r : range B) (fuel : nat) :
  is_range g r → length (cells g) < fuel →
  traverse fuel (begin_ r) (end_ r) = Ok (cells g) ∧
  (∀ count, (0 <= count)%Z →
    ∃ r', Take r count = Ok r' ∧ is_range (prefix g (Z.to_nat count)) r' ∧
      traverse fuel (begin_ r') (end_ r') = Ok (take (Z.to_nat count) (cells g))) ∧
  (∀ (F Ref' : Type) (EF : EqDecision F) (member : F → Ref → Ref') (f : F),
    @is_range _ _ _ (field_spec member) (g, f) (Get r f) ∧
    @traverse _ _ (field_iter member) fuel (begin_ (Get r f)) (end_ (Get r f)) = Ok (member f <$> cells g)) ∧
  (∀ step, 0 < step → cells g ≠ [] →
    ∃ r' g', Stride fuel r (Z.of_nat step) = Ok r' ∧ @is_range _ _ _ stride_spec g' r' ∧
      traverse fuel (begin_ r') (end_ r') = Ok (every step (cells g))) ∧
  (∀ step, 0 < step → cells g = [] →
    ∃ r', Stride fuel r (Z.of_nat step) = Ok r' ∧ eqb (begin_ r') (end_ r') = false ∧ star (begin_ r') = star (begin_ r)).
Proof.
  intros Hr Hf. split_and!.
  - rewrite (traverse_ok fuel g _ _ 0); [by rewrite drop_0|apply Hr|apply Hr|lia].
  - intros count Hc. destruct (take_ok g r count Hr Hc) as (r'&Ht&Hr'). exists r'. split_and!; [done|done|].
    rewrite (traverse_ok fuel _ _ _ 0 (proj1 Hr') (proj2 Hr')), cells_prefix; [done|]. rewrite cells_prefix, length_take. lia.
  - intros F Ref' EF member f. assert (@is_range _ _ _ (field_spec member) (g, f) (Get r f)) as Hg.
    { destruct Hr as [Hb He]. split; cbn; [done|]. by rewrite length_fmap. }
    split; [done|]. rewrite (@traverse_ok _ _ _ (field_spec member) fuel (g, f) _ _ 0 (proj1 Hg) (proj2 Hg)); [by rewrite drop_0|].
    cbn. rewrite length_fmap. lia.
  - intros step Hs Hne. destruct (stride_ok fuel g r step Hr Hs Hne) as (r'&g'&Hst&Hr'&Hc); [lia|]. exists r', g'.
    split_and!; [done|done|]. rewrite (@traverse_ok _ _ _ stride_spec fuel g' _ _ 0 (proj1 Hr') (proj2 Hr')); [by rewrite drop_0, Hc|].
    rewrite Hc. assert (length (every step (cells g)) ≤ length (cells g)); [|lia].
    destruct (decide (length (every step (cells g)) ≤ length (cells g))) as [?|Hlt]; [done|].
    destruct (lookup_lt_is_Some_2 (every step (cells g)) (length (cells g))) as [x Hx]; [lia|].
    rewrite every_lookup in Hx by done. apply lookup_lt_Some in Hx. nia.
  - intros step Hs Hnil. destruct (stride_empty fuel g r step Hr Hs Hnil) as (r'&?&_&?&?); [lia|]. by exists r'.
Qed.

(** Every second of five elements. *)
Lemma views_correct_witness :
  ∃ r', Stride 6 (Vector.all [1; 2; 3; 4; 5]) 2 = Ok r' ∧ traverse 6 (begin_ r') (end_ r') = Ok [1; 3; 5].
Proof.
  destruct (@views_correct _ nat _ Vector.spec ([1; 2; 3; 4; 5], 5) (Vector.all [1; 2; 3; 4; 5]) 6) as (_&_&_&H&_).
  - apply (Vector.all_range [1; 2; 3; 4; 5]).
  - cbn. lia.
  - destruct (H 2) as (r'&g'&Hs&_&Ht); [lia|done|]. exists r'. split; [exact Hs|exact Ht].
Defined.

(** A pipeline: the second members of every second pair, and the first two of them. *)
Example pipeline :
  (r <-? Stride 9 (Vector.all [(1, 10); (2, 20); (3, 30); (4, 40); (5, 50)]) 2 ;;
   let get := @Get _ bool r true in
   t <-? @Take _ _ (field_iter (λ (b : bool) (x : nat * nat), if b then x.2 else x.1)) get 2 ;;
   @traverse _ _ (field_iter (λ (b : bool) (x : nat * nat), if b then x.2 else x.1)) 9 (begin_ t) (end_ t)) = Ok [10; 30].
Proof. vm_compute. reflexivity. Qed.
