(* ===== verification/Coroutines.v ===== *)
(** * The scheduler of coroutines (coroutine/coroutine.h)

    [Coroutine], its [Compare] and [Resume], the awaiter and the promise, and [AddTask],
    [Step] and [Run] of [Scheduler].  The body of a coroutine is the list of what it still
    awaits.  The clock only goes forward, by any amount; the heap of the standard library is
    the list of its elements, and [pop_heap] takes one that is not below another.

    [Step] resumes the coroutine that the readme asks for, not before its time, and [Run]
    ends when every coroutine has run to its end. *)

From S2P Require Import Prelude.
From stdpp Require Import sorting.

#[local] Set Warnings "-clear-no-such-hyp".

(** [co_await] of a time point or of a duration. *)
Inductive await : Type := Until (time_point : Z) | For (duration : Z).

(** A coroutine that is not done: what it still awaits, the time point of the awaiter at
    which it is suspended, and [next_time] of its promise, 0 when it was not set. *)
Record Coroutine : Type := {
  name : nat;
  body : list await;
  awaiter : option Z;
  promise_next_time : Z;
  is_started : bool;
  added_time : Z;
  next_time : Z;
}.

(** The constructor, at the time [now]. *)
Definition Coroutine_new (name : nat) (body : list await) (now : Z) : Coroutine :=
  {| name := name; body := body; awaiter := None; promise_next_time := 0; is_started := false; added_time := now;
     next_time := now |}.

Definition Compare (lhr rhr : Coroutine) : bool :=
  if is_started lhr && negb (is_started rhr) then true
  else if negb (is_started lhr) && is_started rhr then false
  else if (next_time rhr <? next_time lhr)%Z then true
  else if (next_time lhr <? next_time rhr)%Z then false
  else (added_time rhr <? added_time lhr)%Z.

(** [await_transform], at the time [now]: the time point that is awaited. *)
Definition await_transform (a : await) (now : Z) : Z :=
  match a with Until time_point => time_point | For duration => (now + duration)%Z end.

(** [Resume]; the code that runs up to the next [co_await], or to the end, ends at the
    time [now].  [None] when the coroutine is done. *)
Definition Resume (c : Coroutine) (now : Z) : option Coroutine :=
  match body c with
  | [] => None
  | a :: body =>
      let time_point := await_transform a now in
      Some {| name := name c; body := body; awaiter := Some time_point; promise_next_time := time_point;
              is_started := true; added_time := added_time c; next_time := time_point |}
  end.

Record Scheduler : Type := { now : Z; coroutines_ : list Coroutine }.

Definition AddTask (name : nat) (body : list await) (t : Z) (s : Scheduler) : Scheduler :=
  {| now := t; coroutines_ := coroutines_ s ++ [Coroutine_new name body t] |}.

(** [Step] of the coroutine [c], that continues at [t] and is suspended again at [t']:
    [pop_heap] gives one that is not below another, and [await_resume] sleeps until the
    time point of its awaiter. *)
Inductive Step : Scheduler → Coroutine → Z → Scheduler → Prop :=
| Step_ s l1 c l2 t t' :
    coroutines_ s = l1 ++ c :: l2 → (∀ d, d ∈ l1 ++ l2 → Compare c d = false) →
    (now s <= t <= t')%Z → (∀ w, awaiter c = Some w → (w <= t)%Z) →
    Step s c t {| now := t'; coroutines_ := l1 ++ l2 ++ match Resume c t' with Some c' => [c'] | None => [] end |}.

(** What can happen to a scheduler. *)
Inductive event : Scheduler → Scheduler → Prop :=
| event_add name body t s : (now s <= t)%Z → event s (AddTask name body t s)
| event_step s c t s' : Step s c t s' → event s s'.

Definition init (s : Scheduler) : Prop := coroutines_ s = [].

(** The loop of [Run]: the coroutines that were resumed, and when. *)
Inductive Run : Scheduler → list (nat * Z) → Scheduler → Prop :=
| Run_end s : coroutines_ s = [] → Run s [] s
| Run_step s c t s' log s'' : Step s c t s' → Run s' log s'' → Run s ((name c, t) :: log) s''.

(** ** [Compare] *)

(** The order of the heap, as triples. *)
Definition key (c : Coroutine) : Z * Z * Z := ((if is_started c then 1 else 0)%Z, next_time c, added_time c).

Definition key_lt (a b : Z * Z * Z) : Prop :=
  let '(a1, a2, a3) := a in let '(b1, b2, b3) := b in
  (a1 < b1 ∨ a1 = b1 ∧ (a2 < b2 ∨ a2 = b2 ∧ a3 < b3))%Z.

Lemma compare_key c d : Compare c d = true ↔ key_lt (key d) (key c).
Proof.
  unfold Compare, key, key_lt. destruct (is_started c), (is_started d); cbn;
    repeat (match goal with |- context [(?x <? ?y)%Z] => destruct (Z.ltb_spec x y) end); split; done || lia.
Qed.

Lemma compare_irrefl c : Compare c c = false.
Proof. apply not_true_iff_false. rewrite compare_key. unfold key_lt, key. lia. Qed.

Lemma compare_trans c d e : Compare c d = true → Compare d e = true → Compare c e = true.
Proof. rewrite !compare_key. unfold key_lt, key. lia. Qed.

(** Not to be below is transitive: with the above, a strict weak order, as the heap needs. *)
Lemma compare_incomparable c d e : Compare c d = false → Compare d e = false → Compare c e = false.
Proof. rewrite <- !not_true_iff_false, !compare_key. unfold key_lt, key. lia. Qed.

(** There is one that is not below another. *)
Lemma top_exists (l : list Coroutine) :
  l ≠ [] → ∃ l1 c l2, l = l1 ++ c :: l2 ∧ ∀ d, d ∈ l1 ++ l2 → Compare c d = false.
Proof.
  induction l as [|c l IH]; [done|]. intros _. destruct l as [|d l].
  { exists [], c, []. split; [done|]. by intros ? ?%elem_of_nil. }
  destruct IH as (l1&m&l2&Hl&Hm); [done|]. rewrite Hl. destruct (Compare c m) eqn:Hcm.
  - exists (c :: l1), m, l2. split; [done|]. intros x [->|Hx]%elem_of_cons; [|by apply Hm].
    apply not_true_iff_false. intros Hmc. pose proof (compare_trans _ _ _ Hcm Hmc). by rewrite compare_irrefl in *.
  - exists [], c, (l1 ++ m :: l2). split; [done|]. intros x Hx. cbn in Hx.
    assert (x = m ∨ x ∈ l1 ++ l2) as [->|Hx'] by set_solver; [done|].
    apply (compare_incomparable c m x); [done|by apply Hm].
Qed.

(** ** The coroutines of a scheduler *)

Definition coherent (c : Coroutine) : Prop :=
  if is_started c then awaiter c = Some (next_time c) else awaiter c = None ∧ next_time c = added_time c.

Lemma resume_coherent c t c' : Resume c t = Some c' → coherent c'.
Proof. unfold Resume. destruct (body c); [done|]. by intros [= <-]. Qed.

Lemma reachable_coherent s : reachable init event s → Forall coherent (coroutines_ s).
Proof.
  revert s. apply invariant_reachable; [intros s ->; constructor|]. intros s s' Hs He.
  destruct He as [n b t s _|s c t s' [s0 l1 c0 l2 t0 t1 Hl _ _ _]].
  - cbn. apply Forall_app. split; [done|]. by repeat constructor.
  - rewrite Hl in Hs. apply Forall_app in Hs as [H1 [_ H2]%Forall_cons]. cbn. apply Forall_app. split; [done|].
    apply Forall_app. split; [done|]. destruct (Resume c0 t1) eqn:Hr; [|done]. constructor; [by eapply resume_coherent|done].
Qed.

(** [Step] resumes the coroutine that the readme asks for: one that has not started, if
    there is one, and among these the one that was added first; otherwise the one that waits
    for the earliest time, and among these the one that was added first.  A coroutine that
    waits continues when its time has come, and not before.  [Compare] is a strict weak
    order, which the heap relies on, and [Step] can go on as long as there is a coroutine. *)
Theorem step_chooses (s : Scheduler) :
  reachable init event s →
  (∀ c t s', Step s c t s' →
    c ∈ coroutines_ s ∧ (now s <= t)%Z ∧
    (is_started c = true → (next_time c <= t)%Z) ∧
    ∀ d, d ∈ coroutines_ s →
      if is_started c then
        is_started d = true ∧ (next_time c <= next_time d)%Z ∧
        (next_time c = next_time d → (added_time c <= added_time d)%Z)
      else is_started d = false → (added_time c <= added_time d)%Z) ∧
  (coroutines_ s ≠ [] → ∃ c t s', Step s c t s') ∧
  (∀ c d e, Compare c c = false ∧ (Compare c d = true → Compare d e = true → Compare c e = true) ∧
    (Compare c d = false → Compare d e = false → Compare c e = false)).
Proof.
  intros Hs%reachable_coherent. split_and!.
  - intros c t s' Hst. destruct Hst as [s l1 c l2 t t' Hl Htop Ht Hw].
    assert (c ∈ coroutines_ s) as Hc by (rewrite Hl; set_solver). split_and!; [done|lia| |].
    + intros Hst. pose proof (proj1 (Forall_forall _ _) Hs c Hc) as Hcoh. unfold coherent in Hcoh. rewrite Hst in Hcoh. by apply Hw.
    + intros d Hd. assert (Compare c d = false) as Hcd.
      { rewrite Hl in Hd. assert (d = c ∨ d ∈ l1 ++ l2) as [->|Hd'] by set_solver; [apply compare_irrefl|by apply Htop]. }
      pose proof (proj1 (Forall_forall _ _) Hs c Hc) as Hcc. pose proof (proj1 (Forall_forall _ _) Hs d Hd) as Hcdd.
      apply not_true_iff_false in Hcd. rewrite compare_key in Hcd. unfold coherent in *. unfold key_lt, key in Hcd.
      destruct (is_started c), (is_started d); try (split_and!; [done|lia|lia]); try lia; intros ?; done || lia.
  - intros Hne. destruct (top_exists _ Hne) as (l1&c&l2&Hl&Htop).
    eexists c, (Z.max (now s) (default (now s) (awaiter c))), _. eapply (Step_ s l1 c l2 _ _ Hl Htop).
    + split; [lia|done].
    + intros w Hw. rewrite Hw. cbn. lia.
  - intros c d e. split_and!; [apply compare_irrefl|apply compare_trans|apply compare_incomparable].
Qed.

(** ** [Run] *)

(** The calls of [Resume] that the coroutines need, with their names. *)
Definition segments (s : Scheduler) : list nat := concat ((λ c, replicate (S (length (body c))) (name c)) <$> coroutines_ s).

Lemma step_segments s c t s' : Step s c t s' → segments s ≡ₚ name c :: segments s'.
Proof.
  intros [s0 l1 c0 l2 t0 t1 Hl _ _ _]. unfold segments. cbn [coroutines_]. rewrite Hl, !fmap_app, !concat_app. cbn.
  unfold Resume. destruct (body c0) as [|a b] eqn:Hb; cbn; rewrite ?app_nil_r; solve_Permutation.
Qed.

Lemma run_exists s n : length (segments s) ≤ n → ∃ log s', Run s log s'.
Proof.
  revert s. induction n as [|n IH]; intros s Hn.
  - exists [], s. constructor. destruct (coroutines_ s) eqn:Hc; [done|]. unfold segments in Hn. rewrite Hc in Hn. cbn in Hn. lia.
  - destruct (decide (coroutines_ s = [])) as [He|Hne]; [exists [], s; by constructor|].
    destruct (top_exists _ Hne) as (l1&c&l2&Hl&Htop).
    assert (∃ t s', Step s c t s') as (t&s'&Hst).
    { eexists (Z.max (now s) (default (now s) (awaiter c))), _. eapply (Step_ s l1 c l2 _ _ Hl Htop); [split; [lia|done]|].
      intros w Hw. rewrite Hw. cbn. lia. }
    destruct (IH s') as (log&s''&Hr).
    + apply step_segments, Permutation_length in Hst. cbn in Hst. lia.
    + eexists _, s''. by econstructor.
Qed.

(** [Run] ends, whatever the heap and the clock choose, when every coroutine has run to
    its end: each one is resumed exactly once for each of its [co_await]s and once more, and
    the times at which they continue do not decrease; no sequence of steps is longer. *)
Theorem run_ends (s : Scheduler) :
  (∃ log s', Run s log s') ∧
  (∀ log s', Run s log s' →
    coroutines_ s' = [] ∧ log.*1 ≡ₚ segments s ∧ Sorted Z.le (now s :: log.*2)) ∧
  (∀ n (f : nat → Scheduler), f 0 = s → (∀ i, i < n → ∃ c t, Step (f i) c t (f (S i))) → n ≤ length (segments s)).
Proof.
  split_and!.
  - by apply (run_exists s (length (segments s))).
  - intros log s' Hr. induction Hr as [s He|s c t s1 log s2 Hst Hr (He&Hp&Hsrt)].
    + split_and!; [done| |by repeat constructor]. unfold segments. by rewrite He.
    + split_and!; [done| |].
      * rewrite (step_segments _ _ _ _ Hst). cbn. by rewrite Hp.
      * cbn. destruct Hst as [s l1 c l2 t t' Hl Htop Ht Hw]. cbn in Hsrt. inversion Hsrt as [|? ? Hs Hd]; subst.
        constructor; [|constructor; lia]. constructor; [done|].
        destruct Hd as [|b l Hb]; constructor. lia.
  - intros n f H0 Hf.
    assert (∀ i, i ≤ n → length (segments (f i)) + i = length (segments s)) as Hlen.
    { intros i. induction i as [|i IH]; intros Hi; [rewrite H0; lia|]. destruct (Hf i Hi) as (c&t&Hst).
      apply step_segments, Permutation_length in Hst. cbn in Hst. specialize (IH ltac:(lia)). lia. }
    specialize (Hlen n ltac:(done)). lia.
Qed.

(** ** The example of the readme *)

Definition task_a : list await := [For 100; For 100].
Definition task_b : list await := [For 40; For 140].

Definition two_tasks : Scheduler := AddTask 1 task_b 0 (AddTask 0 task_a 0 {| now := 0; coroutines_ := [] |}).

Lemma two_tasks_reachable : reachable init event two_tasks.
Proof.
  eapply reachable_step; [eapply reachable_step; [by apply (reachable_init _ _ {| now := 0; coroutines_ := [] |})|]|];
    apply event_add; done.
Qed.

Lemma step_chooses_witness : ∃ c t s', Step two_tasks c t s' ∧ is_started c = false.
Proof.
  destruct (step_chooses two_tasks two_tasks_reachable) as (Ho&Hp&_). destruct Hp as (c&t&s'&Hst); [done|].
  exists c, t, s'. split; [exact Hst|]. destruct (Ho c t s' Hst) as (Hc&_).
  assert (Forall (λ c, is_started c = false) (coroutines_ two_tasks)) as Hf by (by repeat constructor).
  exact (proj1 (Forall_forall _ _) Hf c Hc).
Defined.
