(* ===== verification/MpscQueue.v ===== *)
(** * The queue with one consumer (mpsc-queue/mpsc_queue.h)

    [Push] by any number of threads, and [Pop] and [DequeueAll] by one.  A thread is at a
    place of its code and makes one access to shared memory at a time; the head is the only
    atomic variable, a [compare_exchange_weak] may also fail for no reason, and the address of
    a deleted node may be given out again.

    The calls form a history of a stack, no deleted node is touched, and no node is lost. *)

From S2P Require Import Prelude.

#[local] Set Warnings "-clear-no-such-hyp".

Section Mpsc.
Context {V : Type}.

Record Node : Type := { value : V; next : option nat }.

Record shared : Type := { head_ : option nat; nodes : gmap nat Node }.

Definition deref (n : option nat) (s : shared) : outcome (nat * Node) :=
  match n with
  | Some n => match nodes s !! n with Some x => Ok (n, x) | None => Fail UB end
  | None => Fail UB
  end.

(** What a call does to the stack. *)
Inductive event : Type := Pushed (v : V) | Popped (v : option V) | Dequeued | Called (v : V).

(** ** [Push] *)

Inductive producer : Type :=
| P_idle
| P_new (v : V) (old_head : option nat)
| P_cas (new_head : nat) (old_head : option nat)
| P_reload (new_head : nat).

(** [arg] is the argument of a new call, [fresh_] the address that [new] gives, which waits
    for one that is free, and [weak] makes the exchange fail. *)
Definition Push_step (arg : V) (fresh_ : nat) (weak : bool) (p : producer) (s : shared)
    : outcome (producer * shared * option event) :=
  match p with
  | P_idle => Ok (P_new arg (head_ s), s, None)
  | P_new v old =>
      match nodes s !! fresh_ with
      | Some _ => Ok (p, s, None)
      | None => Ok (P_cas fresh_ old, {| head_ := head_ s; nodes := <[fresh_ := {| value := v; next := old |}]> (nodes s) |}, None)
      end
  | P_cas n old =>
      if decide (head_ s = old) then
        if weak then Ok (P_reload n, s, None)
        else x <-? deref (Some n) s ;; Ok (P_idle, {| head_ := Some n; nodes := nodes s |}, Some (Pushed (value x.2)))
      else Ok (P_reload n, s, None)
  | P_reload n =>
      x <-? deref (Some n) s ;;
      Ok (P_cas n (head_ s), {| head_ := head_ s; nodes := <[n := {| value := value x.2; next := head_ s |}]> (nodes s) |}, None)
  end.

(** ** [Pop] and [DequeueAll] *)

Inductive consumer : Type :=
| C_idle
| C_pop (old_head : option nat)
| C_pop_cas (old_head next : option nat)
| C_pop_reload
| C_take (old_head : option nat)
| C_all_cas (old_head : option nat)
| C_all_reload
| C_drain (old_head : option nat).

Definition delete_node (n : nat) (s : shared) : shared := {| head_ := head_ s; nodes := delete n (nodes s) |}.

(** [pop] says which of the two calls an idle consumer makes. *)
Definition consumer_step (pop weak : bool) (c : consumer) (s : shared) : outcome (consumer * shared * option event) :=
  match c with
  | C_idle =>
      if pop then
        match head_ s with None => Ok (C_idle, s, Some (Popped None)) | Some n => Ok (C_pop (Some n), s, None) end
      else Ok (C_all_cas (head_ s), s, None)
  | C_pop old => x <-? deref old s ;; Ok (C_pop_cas old (next x.2), s, None)
  | C_pop_cas old nx =>
      if decide (head_ s = old) then
        if weak then Ok (C_pop_reload, s, None)
        else x <-? deref old s ;; Ok (C_take old, {| head_ := nx; nodes := nodes s |}, Some (Popped (Some (value x.2))))
      else Ok (C_pop_reload, s, None)
  | C_pop_reload => Ok (C_pop (head_ s), s, None)
  | C_take old => x <-? deref old s ;; Ok (C_idle, delete_node x.1 s, None)
  | C_all_cas old =>
      if decide (head_ s = old) then
        if weak then Ok (C_all_reload, s, None)
        else Ok (C_drain old, {| head_ := None; nodes := nodes s |}, Some Dequeued)
      else Ok (C_all_reload, s, None)
  | C_all_reload => Ok (C_all_cas (head_ s), s, None)
  | C_drain None => Ok (C_idle, s, None)
  | C_drain old => x <-? deref old s ;; Ok (C_drain (next x.2), delete_node x.1 s, Some (Called (value x.2)))
  end.

Record config : Type := { sh : shared; producers : list producer; cons_ : consumer }.

Inductive step : config → option event → config → Prop :=
| step_producer c i p arg f w p' s' e :
    producers c !! i = Some p → Push_step arg f w p (sh c) = Ok (p', s', e) →
    step c e {| sh := s'; producers := <[i := p']> (producers c); cons_ := cons_ c |}
| step_consumer c pop w k' s' e :
    consumer_step pop w (cons_ c) (sh c) = Ok (k', s', e) →
    step c e {| sh := s'; producers := producers c; cons_ := k' |}.

Definition step_any (c c' : config) : Prop := ∃ e, step c e c'.

Definition init (c : config) : Prop :=
  head_ (sh c) = None ∧ nodes (sh c) = ∅ ∧ Forall (λ p, p = P_idle) (producers c) ∧ cons_ c = C_idle.

(** ** The invariant *)

(** The nodes from [o] on. *)
Inductive chain (m : gmap nat Node) : option nat → list nat → Prop :=
| chain_nil : chain m None []
| chain_cons n x l : m !! n = Some x → chain m (next x) l → chain m (Some n) (n :: l).

Definition private (p : producer) : option nat := match p with P_cas n _ | P_reload n => Some n | _ => None end.

(** The nodes that the consumer took off the stack. *)
Definition taken (m : gmap nat Node) (c : consumer) (d : list nat) : Prop :=
  match c with
  | C_take (Some n) => d = [n]
  | C_take None => False
  | C_drain o => chain m o d
  | _ => d = []
  end.

(** What the consumer knows while it pops. *)
Definition popping (m : gmap nat Node) (l : list nat) (c : consumer) : Prop :=
  match c with
  | C_pop o => ∃ n, o = Some n ∧ n ∈ l
  | C_pop_cas o nx => ∃ n x, o = Some n ∧ n ∈ l ∧ m !! n = Some x ∧ next x = nx
  | C_pop_reload => l ≠ []
  | _ => True
  end.

Record inv (c : config) (l d : list nat) : Prop := {
  inv_chain : chain (nodes (sh c)) (head_ (sh c)) l;
  inv_taken : taken (nodes (sh c)) (cons_ c) d;
  inv_nodup : NoDup (l ++ d ++ omap private (producers c));
  inv_dom : ∀ n, is_Some (nodes (sh c) !! n) ↔ n ∈ l ++ d ++ omap private (producers c);
  inv_pop : popping (nodes (sh c)) l (cons_ c);
  inv_cas : ∀ i n old, producers c !! i = Some (P_cas n old) → ∃ x, nodes (sh c) !! n = Some x ∧ next x = old;
}.

(** The values of some nodes. *)
Definition values (m : gmap nat Node) (l : list nat) : list V := omap (λ n, value <$> m !! n) l.

(** The stack, from the top, and the values that [DequeueAll] has still to hand out. *)
Definition represents (c : config) (vs ws : list V) : Prop :=
  ∃ l d, inv c l d ∧ vs = values (nodes (sh c)) l ∧
    ws = match cons_ c with C_drain _ => values (nodes (sh c)) d | _ => [] end.

(** What the events mean. *)
Definition means (e : option event) (vs ws vs' ws' : list V) : Prop :=
  match e with
  | None => vs' = vs ∧ ws' = ws
  | Some (Pushed v) => vs' = v :: vs ∧ ws' = ws
  | Some (Popped None) => vs = [] ∧ vs' = [] ∧ ws' = ws
  | Some (Popped (Some v)) => vs = v :: vs' ∧ ws' = ws
  | Some Dequeued => vs' = [] ∧ ws = [] ∧ ws' = vs
  | Some (Called v) => vs' = vs ∧ ws = v :: ws'
  end.

(** ** Proofs *)

Lemma mpsc_chain_frame m m' o l : chain m o l → (∀ n, n ∈ l → m' !! n = m !! n) → chain m' o l.
Proof.
  induction 1 as [|n x l Hn Hc IH]; intros Hm; [constructor|]. econstructor; [rewrite Hm; [done|by left]|].
  apply IH. intros k Hk. apply Hm. by right.
Qed.

Lemma chain_in m o l n : chain m o l → n ∈ l → is_Some (m !! n).
Proof. induction 1; intros Hn; [by apply elem_of_nil in Hn|]. apply elem_of_cons in Hn as [->|?]; eauto. Qed.

Lemma values_frame m m' l : (∀ n, n ∈ l → m' !! n = m !! n) → values m' l = values m l.
Proof.
  intros Hm. unfold values. induction l as [|n l IH]; [done|]. cbn. rewrite (Hm n) by left.
  rewrite IH by (intros k Hk; apply Hm; by right). done.
Qed.

Lemma values_cons m n x l : m !! n = Some x → values m (n :: l) = value x :: values m l.
Proof. intros Hn. unfold values. cbn. by rewrite Hn. Qed.

(** The private nodes, with the one of the thread [i] in front. *)
Lemma privates_split ps i p :
  ps !! i = Some p → omap private ps ≡ₚ option_list (private p) ++ omap private (delete i ps).
Proof.
  intros Hi. rewrite <- (take_drop_middle ps i p Hi) at 1. rewrite delete_take_drop, !omap_app. cbn.
  destruct (private p); cbn; solve_Permutation.
Qed.

Lemma privates_insert ps i p p' :
  ps !! i = Some p → omap private (<[i := p']> ps) ≡ₚ option_list (private p') ++ omap private (delete i ps).
Proof.
  intros Hi. assert (i < length ps) by (by eapply lookup_lt_Some).
  rewrite (privates_split _ i p') by (by apply list_lookup_insert_eq). f_equiv. rewrite !delete_take_drop.
  by rewrite take_insert_ge, drop_insert_lt by lia.
Qed.

(** The other threads' facts survive a change of the memory that does not touch their nodes. *)
Lemma cas_kept (c : config) i p' (m m' : gmap nat Node) :
  (∀ j n old, producers c !! j = Some (P_cas n old) → ∃ x, m !! n = Some x ∧ next x = old) →
  (∀ j q n, producers c !! j = Some q → j ≠ i → private q = Some n → m' !! n = m !! n) →
  match p' with P_cas n old => ∃ x, m' !! n = Some x ∧ next x = old | _ => True end →
  ∀ j n old, <[i := p']> (producers c) !! j = Some (P_cas n old) → ∃ x, m' !! n = Some x ∧ next x = old.
Proof.
  intros Hm Hsame Hp j n old Hj. destruct (decide (j = i)) as [->|Hne].
  - destruct (decide (i < length (producers c))) as [Hlt|Hge].
    + rewrite list_lookup_insert_eq in Hj by done. injection Hj as ->. done.
    + rewrite list_insert_ge in Hj by lia. apply lookup_lt_Some in Hj. lia.
  - rewrite list_lookup_insert_ne in Hj by done. rewrite (Hsame j (P_cas n old) n); [by apply (Hm j)|done|done|done].
Qed.

Lemma private_other ps i p j q n :
  NoDup (omap private ps) → ps !! i = Some p → ps !! j = Some q → j ≠ i → private q = Some n → private p ≠ Some n.
Proof.
  intros Hn Hi Hj Hne Hq Hp. rewrite (privates_split ps i p Hi), Hp in Hn. cbn in Hn. apply NoDup_cons in Hn as [Hn _].
  apply Hn. apply list_elem_of_omap. exists q. split; [|done]. apply list_elem_of_lookup.
  destruct (decide (j < i)); [exists j; by rewrite list_lookup_delete_lt|].
  exists (pred j). rewrite list_lookup_delete_ge by lia. by replace (S (pred j)) with j by lia.
Qed.

Lemma taken_frame m m' k d : taken m k d → (∀ n, n ∈ d → m' !! n = m !! n) → taken m' k d.
Proof. intros Ht Hm. destruct k as [| | | |[]| | |]; cbn in *; try done. by eapply mpsc_chain_frame. Qed.

Lemma popping_frame m m' l l' k :
  popping m l k → (∀ n, n ∈ l → n ∈ l') → (∀ n, n ∈ l → m' !! n = m !! n) → popping m' l' k.
Proof.
  intros Hp Hl Hm. destruct k; cbn in *; try done.
  - destruct Hp as (n&->&?). eauto.
  - destruct Hp as (n&x&->&Hn&?&?). exists n, x. rewrite Hm by done. auto.
  - destruct l as [|n l]; [done|]. specialize (Hl n ltac:(left)). intros ->. by apply elem_of_nil in Hl.
Qed.

Section Producer.
Context (c : config) (l d : list nat) (Hinv : inv c l d) (i : nat) (p : producer) (Hi : producers c !! i = Some p).

Let Q := omap private (delete i (producers c)).

Lemma nodes_split : omap private (producers c) ≡ₚ option_list (private p) ++ Q.
Proof using Hi. by apply privates_split. Qed.

Lemma nodup_split : NoDup (l ++ d ++ option_list (private p) ++ Q).
Proof using Hi Hinv. rewrite <- nodes_split. apply (inv_nodup c l d Hinv). Qed.

Lemma dom_split n : is_Some (nodes (sh c) !! n) ↔ n ∈ l ++ d ++ option_list (private p) ++ Q.
Proof using Hi Hinv. rewrite (inv_dom c l d Hinv). rewrite !elem_of_app. by rewrite nodes_split, elem_of_app. Qed.

(** The configuration after a step of the thread [i]. *)
Lemma producer_inv p' s' l' :
  chain (nodes s') (head_ s') l' → (∀ n, n ∈ l → n ∈ l') →
  (∀ n, n ∈ l ++ d ++ Q → nodes s' !! n = nodes (sh c) !! n) →
  NoDup (l' ++ d ++ option_list (private p') ++ Q) →
  (∀ n, is_Some (nodes s' !! n) ↔ n ∈ l' ++ d ++ option_list (private p') ++ Q) →
  match p' with P_cas n old => ∃ x, nodes s' !! n = Some x ∧ next x = old | _ => True end →
  inv {| sh := s'; producers := <[i := p']> (producers c); cons_ := cons_ c |} l' d.
Proof using Hi Hinv.
  intros Hc Hl Hm Hn Hd Hp'. pose proof (privates_insert _ i p p' Hi) as Hperm. split; cbn.
  - done.
  - eapply taken_frame; [apply Hinv|]. intros n Hnd. apply Hm. set_solver.
  - by rewrite Hperm.
  - intros n. rewrite (Hd n), !elem_of_app. rewrite Hperm, elem_of_app. done.
  - eapply popping_frame; [apply Hinv|done|]. intros n Hnl. apply Hm. set_solver.
  - eapply cas_kept; [apply Hinv| |done]. intros j q n Hj Hne Hq. apply Hm. rewrite !elem_of_app. right. right.
    apply list_elem_of_omap. exists q. split; [|done]. apply list_elem_of_lookup.
    destruct (decide (j < i)); [exists j; by rewrite list_lookup_delete_lt|].
    exists (pred j). rewrite list_lookup_delete_ge by lia. by replace (S (pred j)) with j by lia.
Qed.

Lemma same_values m' : (∀ n, n ∈ l ++ d ++ Q → m' !! n = nodes (sh c) !! n) →
  values m' l = values (nodes (sh c)) l ∧ values m' d = values (nodes (sh c)) d.
Proof. intros Hm. split; apply values_frame; intros n Hn; apply Hm; set_solver. Qed.

Lemma push_ok arg f w :
  ∃ p' s' e l', Push_step arg f w p (sh c) = Ok (p', s', e) ∧
    inv {| sh := s'; producers := <[i := p']> (producers c); cons_ := cons_ c |} l' d ∧
    values (nodes s') d = values (nodes (sh c)) d ∧
    match e with
    | None => values (nodes s') l' = values (nodes (sh c)) l
    | Some (Pushed v) => values (nodes s') l' = v :: values (nodes (sh c)) l
    | _ => False
    end.
Proof using Hi Hinv.
  pose proof producer_inv as PI. pose proof same_values as SV. pose proof Hi as Hi0.
  pose proof nodup_split as Hn. pose proof dom_split as Hd. pose proof (inv_chain c l d Hinv) as Hc.
  clear Hi. destruct p as [|v old|n old|n]; cbn [Push_step private option_list app] in *.
  - eexists _, _, _, l. split; [done|]. split; [by apply PI|done].
  - destruct (nodes (sh c) !! f) as [y|] eqn:Hf.
    { eexists _, _, _, l. split; [done|]. split; [by apply PI|done]. }
    assert (f ∉ l ++ d ++ Q) as Hfn by (intros ?%Hd; rewrite Hf in *; by destruct H).
    assert (∀ n, n ∈ l ++ d ++ Q → <[f := {| value := v; next := old |}]> (nodes (sh c)) !! n = nodes (sh c) !! n) as Hm
      by (intros n Hin; apply lookup_insert_ne; set_solver).
    eexists _, _, _, l. split; [done|]. destruct (SV _ Hm) as [Hv1 Hv2]. split; [|done]. apply PI; cbn.
    + eapply mpsc_chain_frame; [done|]. intros n Hin. apply Hm. set_solver.
    + done.
    + done.
    + assert (l ++ d ++ f :: Q ≡ₚ f :: l ++ d ++ Q) as -> by solve_Permutation. by constructor.
    + intros n. rewrite lookup_insert_is_Some', Hd. set_solver.
    + eexists. by rewrite lookup_insert_eq.
  - destruct (inv_cas c l d Hinv i n old Hi0) as (x&Hx&Hnx). cbn [deref]. rewrite Hx.
    destruct (decide (head_ (sh c) = old)) as [Hh|Hh]; [destruct w|]; cbn [bindO].
    + eexists _, _, _, l. split; [done|]. split; [by apply PI|done].
    + eexists _, _, _, (n :: l). split; [done|]. split; [|split; [done|by apply values_cons]]. apply PI; cbn.
      * econstructor; [done|]. by rewrite Hnx, <- Hh.
      * intros k Hk. by right.
      * done.
      * assert (n :: l ++ d ++ Q ≡ₚ l ++ d ++ n :: Q) as -> by solve_Permutation. done.
      * intros k. rewrite Hd. set_solver.
      * done.
    + eexists _, _, _, l. split; [done|]. split; [by apply PI|done].
  - assert (is_Some (nodes (sh c) !! n)) as [x Hx] by (apply Hd; set_solver). cbn [deref]. rewrite Hx. cbn [bindO].
    assert (n ∉ l ++ d ++ Q) as Hnn.
    { assert (l ++ d ++ n :: Q ≡ₚ n :: l ++ d ++ Q) as He by solve_Permutation. rewrite He in Hn. by apply NoDup_cons in Hn as [? _]. }
    assert (∀ k, k ∈ l ++ d ++ Q → <[n := {| value := value x; next := head_ (sh c) |}]> (nodes (sh c)) !! k = nodes (sh c) !! k) as Hm
      by (intros k Hin; apply lookup_insert_ne; set_solver).
    eexists _, _, _, l. split; [done|]. destruct (SV _ Hm) as [Hv1 Hv2]. split; [|done]. apply PI; cbn.
    + eapply mpsc_chain_frame; [done|]. intros k Hin. apply Hm. set_solver.
    + done.
    + done.
    + done.
    + intros k. rewrite lookup_insert_is_Some', Hd. set_solver.
    + eexists. by rewrite lookup_insert_eq.
Qed.

End Producer.

Section Consumer.
Context (c : config) (l d : list nat) (Hinv : inv c l d).

Let P := omap private (producers c).

Lemma consumer_inv k' s' l' d' :
  chain (nodes s') (head_ s') l' → taken (nodes s') k' d' → NoDup (l' ++ d' ++ P) →
  (∀ n, is_Some (nodes s' !! n) ↔ n ∈ l' ++ d' ++ P) → popping (nodes s') l' k' →
  (∀ n, n ∈ P → nodes s' !! n = nodes (sh c) !! n) →
  inv {| sh := s'; producers := producers c; cons_ := k' |} l' d'.
Proof using Hinv.
  intros Hc Ht Hn Hd Hp Hm. split; try done. cbn. intros i n old Hi. rewrite Hm; [by eapply inv_cas|].
  apply list_elem_of_omap. exists (P_cas n old). split; [by eapply list_elem_of_lookup_2|done].
Qed.

(** The memory does not change. *)
Lemma consumer_same k' h' l' d' :
  chain (nodes (sh c)) h' l' → taken (nodes (sh c)) k' d' → l' ++ d' ≡ₚ l ++ d → popping (nodes (sh c)) l' k' →
  inv {| sh := {| head_ := h'; nodes := nodes (sh c) |}; producers := producers c; cons_ := k' |} l' d'.
Proof using Hinv.
  intros Hc Ht Hperm Hp.
  assert (l' ++ d' ++ P ≡ₚ l ++ d ++ P) as Hall by (by rewrite !app_assoc, Hperm).
  apply consumer_inv; try done.
  - rewrite Hall. apply Hinv.
  - intros n. rewrite Hall. apply (inv_dom c l d Hinv).
Qed.

(** A node that was taken off is deleted. *)
Lemma consumer_delete k' n d' :
  d = n :: d' → taken (nodes (delete_node n (sh c))) k' d' → popping (nodes (delete_node n (sh c))) l k' →
  inv {| sh := delete_node n (sh c); producers := producers c; cons_ := k' |} l d' ∧
  (∀ m, m ∈ l ++ d' ++ P → nodes (delete_node n (sh c)) !! m = nodes (sh c) !! m).
Proof using Hinv.
  intros Hd Ht Hp. pose proof (inv_nodup c l d Hinv) as Hn. pose proof (inv_dom c l d Hinv) as Hdom. rewrite Hd in Hn, Hdom.
  assert (l ++ (n :: d') ++ P ≡ₚ n :: l ++ d' ++ P) as He by solve_Permutation.
  fold P in Hn, Hdom. rewrite He in Hn. apply NoDup_cons in Hn as [Hni Hnd].
  assert (∀ m, m ∈ l ++ d' ++ P → nodes (delete_node n (sh c)) !! m = nodes (sh c) !! m) as Hm.
  { intros m Hmi. cbn. apply lookup_delete_ne. by intros ->. }
  split; [|done]. apply consumer_inv; try done.
  - eapply mpsc_chain_frame; [apply Hinv|]. intros m Hmi. apply Hm. set_solver.
  - intros m. cbn. rewrite lookup_delete_is_Some, Hdom, He. set_solver.
  - intros m Hmi. apply Hm. set_solver.
Qed.

Lemma shared_eta (s : shared) : {| head_ := head_ s; nodes := nodes s |} = s.
Proof. by destruct s. Qed.

(** The consumer moves, and nothing else does. *)
Lemma consumer_quiet k' :
  taken (nodes (sh c)) k' d → popping (nodes (sh c)) l k' →
  inv {| sh := sh c; producers := producers c; cons_ := k' |} l d.
Proof using Hinv. intros Ht Hp. rewrite <- (shared_eta (sh c)). apply consumer_same; [apply Hinv|done|done|done]. Qed.

(** The values that are still to be handed out. *)
Definition drained (k : consumer) (m : gmap nat Node) (d : list nat) : list V :=
  match k with C_drain _ => values m d | _ => [] end.

Lemma consume_ok pop w :
  ∃ k' s' e l' d', consumer_step pop w (cons_ c) (sh c) = Ok (k', s', e) ∧
    inv {| sh := s'; producers := producers c; cons_ := k' |} l' d' ∧
    means e (values (nodes (sh c)) l) (drained (cons_ c) (nodes (sh c)) d) (values (nodes s') l') (drained k' (nodes s') d').
Proof using Hinv.
  pose proof consumer_inv as CI. pose proof consumer_same as CS. pose proof consumer_delete as CD. pose proof consumer_quiet as CQ.
  pose proof (inv_chain c l d Hinv) as Hc. pose proof (inv_taken c l d Hinv) as Ht. pose proof (inv_pop c l d Hinv) as Hp.
  assert (∀ n x, nodes (sh c) !! n = Some x → deref (Some n) (sh c) = Ok (n, x)) as Hde by (intros n x Hx; cbn; by rewrite Hx).
  destruct (cons_ c) as [|o|o nx| |o|o| |o] eqn:Hk; cbn [consumer_step taken popping drained] in *.
  - subst d. destruct pop.
    + destruct (head_ (sh c)) as [n|] eqn:Hh.
      * eexists _, _, _, l, []. split; [done|]. split; [|done]. apply CQ; [done|]. inversion Hc; subst. exists n. split; [done|left].
      * eexists _, _, _, l, []. split; [done|]. split; [by apply CQ|]. inversion Hc; subst. done.
    + eexists _, _, _, l, []. split; [done|]. split; [by apply CQ|done].
  - subst d. destruct Hp as (n&->&Hn). destruct (chain_in _ _ _ n Hc Hn) as [x Hx]. rewrite (Hde n x Hx). cbn [bindO snd].
    eexists _, _, _, l, []. split; [done|]. split; [|done]. apply CQ; [done|]. by exists n, x.
  - subst d. destruct Hp as (n&x&->&Hn&Hx&Hnx). rewrite (Hde n x Hx). destruct (decide (head_ (sh c) = Some n)) as [Hh|Hh]; [destruct w|];
      cbn [bindO snd].
    + eexists _, _, _, l, []. split; [done|]. split; [|done]. apply CQ; [done|]. intros ->. by apply elem_of_nil in Hn.
    + rewrite Hh in Hc. inversion Hc as [|? y l0 Hy Hc']; subst. rewrite Hy in Hx. injection Hx as ->.
      eexists _, _, _, l0, [n]. split; [done|]. split; [|split; [by apply values_cons|done]].
      apply CS; [done|done|solve_Permutation|done].
    + eexists _, _, _, l, []. split; [done|]. split; [|done]. apply CQ; [done|]. intros ->. by apply elem_of_nil in Hn.
  - subst d. eexists _, _, _, l, []. split; [done|]. split; [|done]. apply CQ; [done|].
    inversion Hc as [|n x l0 Hx Hc']; subst; [done|]. exists n. split; [done|left].
  - destruct o as [n|]; [|done]. subst d.
    assert (is_Some (nodes (sh c) !! n)) as [x Hx] by (apply (inv_dom c l [n] Hinv); set_solver).
    rewrite (Hde n x Hx). cbn [bindO fst]. destruct (CD C_idle n []) as [HI Hm]; [done|done|done|].
    eexists _, _, _, l, []. split; [done|]. split; [done|]. split; [|done]. apply values_frame. intros k Hkl. apply Hm. set_solver.
  - subst d. destruct (decide (head_ (sh c) = o)) as [Hh|Hh]; [destruct w|].
    + eexists _, _, _, l, []. split; [done|]. split; [by apply CQ|done].
    + eexists _, _, _, [], l. split; [done|]. split; [|done]. apply CS; [constructor|by rewrite <- Hh|by rewrite app_nil_r|done].
    + eexists _, _, _, l, []. split; [done|]. split; [by apply CQ|done].
  - subst d. eexists _, _, _, l, []. split; [done|]. split; [by apply CQ|done].
  - destruct o as [n|].
    + inversion Ht as [|? x d0 Hx Ht']; subst. rewrite (Hde n x Hx). cbn [bindO fst snd].
      pose proof (inv_nodup c l (n :: d0) Hinv) as Hnd.
      assert (n ∉ d0) as Hnd0.
      { apply NoDup_app in Hnd as (_&_&Hnd). apply NoDup_app in Hnd as (Hnd&_&_). by apply NoDup_cons in Hnd as [? _]. }
      destruct (CD (C_drain (next x)) n d0) as [HI Hm]; [done| |done|].
      { cbn. eapply mpsc_chain_frame; [done|]. intros m Hmi. apply lookup_delete_ne. by intros ->. }
      eexists _, _, _, l, d0. split; [done|]. split; [done|]. cbn [means]. rewrite (values_cons _ _ _ _ Hx).
      split; [|f_equal; symmetry]; apply values_frame; intros k Hkl; apply Hm; set_solver.
    + inversion Ht; subst. eexists _, _, _, l, []. split; [done|]. split; [by apply CQ|done].
Qed.

End Consumer.

Lemma init_inv c : init c → inv c [] [].
Proof.
  intros (Hh&Hn&Hp&Hk). assert (omap private (producers c) = []) as He.
  { induction Hp as [|p ps -> _ IH]; [done|]. cbn. done. }
  split; rewrite ?Hh, ?Hn, ?Hk, ?He; try done; [constructor|constructor| |].
  - intros n. rewrite lookup_empty. split; [by intros []|by intros ?%elem_of_nil].
  - intros i n old Hi. apply list_elem_of_lookup_2 in Hi. by apply (proj1 (Forall_forall _ _) Hp) in Hi.
Qed.

Lemma step_represents c vs ws e c' :
  represents c vs ws → step c e c' → ∃ vs' ws', represents c' vs' ws' ∧ means e vs ws vs' ws'.
Proof.
  intros (l&d&Hinv&->&->) Hs. destruct Hs as [c i p arg f w p' s' e Hi Hs|c pop w k' s' e Hs].
  - destruct (push_ok c l d Hinv i p Hi arg f w) as (p1&s1&e1&l1&He&HI&Hd&Hv). rewrite Hs in He. injection He as <- <- <-.
    eexists _, _. split; [by exists l1, d|]. cbn. destruct e as [[v| | |]|]; try done; cbn; rewrite Hv; (split; [done|]);
      destruct (cons_ c); done.
  - destruct (consume_ok c l d Hinv pop w) as (k1&s1&e1&l1&d1&He&HI&Hm). rewrite Hs in He. injection He as <- <- <-.
    eexists _, _. split; [by exists l1, d1|]. exact Hm.
Qed.

Lemma reachable_represents c : reachable init step_any c → ∃ vs ws, represents c vs ws.
Proof.
  apply (invariant_reachable init step_any (λ c, ∃ vs ws, represents c vs ws)).
  - intros c0 H0. eexists _, _. exists [], []. split; [by apply init_inv|done].
  - intros c0 c1 (vs&ws&Hr) [e Hs]. destruct (step_represents _ _ _ _ _ Hr Hs) as (vs'&ws'&?&_). eauto.
Qed.

End Mpsc.
Arguments Node : clear implicits.
Arguments shared : clear implicits.
Arguments event : clear implicits.
Arguments producer : clear implicits.
Arguments config : clear implicits.

(** C34 Whatever the interleaving of the threads that push and of the one that pops, the
    calls form a history of a stack: a [Push] puts its value on top, a [Pop] takes the top
    or finds the stack empty, and a [DequeueAll] takes the whole stack at once and hands out
    its values from the top, once each.  No thread touches a node that was deleted, also if
    its address was given out again, and when no call is running every node is on the stack. *)
Theorem mpsc_queue_correct {V : Type} (c : config V) :
  reachable init step_any c →
  (∃ vs ws, represents c vs ws ∧
    ∀ e c', step c e c' → ∃ vs' ws', represents c' vs' ws' ∧ means e vs ws vs' ws') ∧
  (∀ i p arg f w, producers c !! i = Some p → ∃ r, Push_step arg f w p (sh c) = Ok r) ∧
  (∀ pop w, ∃ r, consumer_step pop w (cons_ c) (sh c) = Ok r) ∧
  (Forall (λ p, p = P_idle) (producers c) → cons_ c = C_idle →
    ∃ l, chain (nodes (sh c)) (head_ (sh c)) l ∧ ∀ n, is_Some (nodes (sh c) !! n) ↔ n ∈ l).
Proof.
  intros Hr. destruct (reachable_represents c Hr) as (vs&ws&Hrep). pose proof Hrep as (l&d&Hinv&_&_). split_and!.
  - exists vs, ws. split; [done|]. intros e c' Hs. by eapply step_represents.
  - intros i p arg f w Hi. destruct (push_ok c l d Hinv i p Hi arg f w) as (p'&s'&e&l'&?&_). eauto.
  - intros pop w. destruct (consume_ok c l d Hinv pop w) as (k'&s'&e&l'&d'&?&_). eauto.
  - intros Hp Hk. exists l. destruct Hinv as [Hc Ht _ Hd _ _]. split; [done|]. intros n. rewrite Hd. rewrite Hk in Ht. cbn in Ht.
    assert (omap private (producers c) = []) as -> by (clear -Hp; induction Hp as [|p ps -> _ IH]; done). subst d. by rewrite !app_nil_r.
Qed.

(** One push of 7 by one thread. *)
Module Demo.

Definition c0 : config nat := {| sh := {| head_ := None; nodes := ∅ |}; producers := [P_idle]; cons_ := C_idle |}.
Definition c1 : config nat := {| sh := sh c0; producers := [P_new 7 None]; cons_ := C_idle |}.

Lemma c1_reachable : reachable init step_any c1.
Proof.
  eapply reachable_step; [apply (reachable_init _ _ c0); split_and!; try done; by repeat constructor|].
  exists None. apply (step_producer c0 0 P_idle 7 0 false (P_new 7 None) (sh c0) None); done.
Qed.

Lemma mpsc_queue_correct_witness : ∃ r, Push_step 7 3 false (P_new 7 None) (sh c1) = Ok r.
Proof.
  destruct (mpsc_queue_correct c1 c1_reachable) as (_&H&_&_). destruct (H 0 (P_new 7 None) 7 3 false eq_refl) as [r Hr].
  exists r. exact Hr.
Defined.

End Demo.
