(* ===== verification/Determinant.v ===== *)
(** * Determinants at compile time (compile-eval/determinant.h)

    [Slice], [Submatrix], [Apply] and [Determinant] on arrays of arrays of [int], given as
    sequences of rows.  The sum is computed in 64 bits, where an overflow has no value, and
    every result, also that of a minor, is converted to 32 bits.  The result is compared with
    the determinant of MathComp over the ring of the integers [Z], which is set up first. *)

From HB Require Import structures.
From mathcomp Require Import boot.
From mathcomp Require Import ssralg matrix.
From Stdlib Require Import ZArith Lia.
Import GRing.Theory.

Set Implicit Arguments.
Unset Strict Implicit.
Unset Printing Implicit Defensive.

(** ** The integers as a ring *)

Module ZRing.

Definition encode (z : Z) : bool * nat := ((z <? 0)%Z, Z.abs_nat z).
Definition decode (p : bool * nat) : Z := if p.1 then (- Z.of_nat p.2)%Z else Z.of_nat p.2.

Lemma encodeK : cancel encode decode.
Proof. rewrite /encode /decode => z /=. case: Z.ltb_spec; lia. Qed.

HB.instance Definition _ := Countable.copy Z (can_type encodeK).

HB.instance Definition _ := GRing.isZmodule.Build Z Z.add_assoc Z.add_comm Z.add_0_l Z.add_opp_diag_l.

Lemma one_nonzero : 1%Z != 0%Z.
Proof. by []. Qed.

HB.instance Definition _ :=
  GRing.Zmodule_isComNzRing.Build Z Z.mul_assoc Z.mul_comm Z.mul_1_l Z.mul_add_distr_r one_nonzero.

Lemma addE (x y : Z) : (x + y)%R = (x + y)%Z.
Proof. by []. Qed.
Lemma mulE (x y : Z) : (x * y)%R = (x * y)%Z.
Proof. by []. Qed.
Lemma oppE (x : Z) : (- x)%R = (- x)%Z.
Proof. by []. Qed.

Definition ringE := (addE, mulE, oppE).

End ZRing.
Import ZRing.

(** ** The program *)

(** The result of an operation of [int64_t]; an overflow has none. *)
Definition int64 (x : Z) : option Z :=
  if ((- 2 ^ 63 <=? x) && (x <? 2 ^ 63))%Z then Some x else None.

(** The conversion to [int]. *)
Definition to_int (x : Z) : Z := ((x + 2 ^ 31) mod 2 ^ 32 - 2 ^ 31)%Z.

Definition matrix := seq (seq Z).

(** [a[i][j]] *)
Definition at2 (a : matrix) (i j : nat) : Z := nth 0%Z (nth [::] a i) j.

Definition Slice (a : seq Z) : seq Z := [seq nth 0%Z a i.+1 | i <- iota 0 (size a).-1].

Definition Submatrix (N K : nat) (a : matrix) : matrix :=
  [seq Slice (nth [::] a i) | i <- iota 0 K] ++ [seq Slice (nth [::] a (i + K + 1)) | i <- iota 0 (N - K - 1)].

Fixpoint all_some (l : seq (option Z)) : option (seq Z) :=
  if l is x :: l then obind (fun y => omap (cons y) (all_some l)) x else Some [::].

(** The minors of the first column; [det] is the determinant of one size less. *)
Definition Apply (det : matrix -> option Z) (N : nat) (a : matrix) : option (seq Z) :=
  all_some [seq det (Submatrix N i a) | i <- iota 0 N].

(** [res += m * a[i][0] * minors[i]; m *= -1;], [n] times from [i] on. *)
Fixpoint sum_loop (n i : nat) (a : matrix) (minors : seq Z) (m res : Z) : option Z :=
  if n is n'.+1 then
    obind (fun p => obind (fun q => obind (fun res => obind (fun m =>
      sum_loop n' i.+1 a minors m res)
      (int64 (m * -1))) (int64 (res + q))) (int64 (p * nth 0%Z minors i))) (int64 (m * at2 a i 0))
  else Some res.

Fixpoint Determinant (N : nat) (a : matrix) : option Z :=
  match N with
  | 0 => Some 0%Z
  | N'.+1 =>
      match N' with
      | 0 => Some (at2 a 0 0)
      | _.+1 =>
          obind (fun minors => omap to_int (sum_loop N 0 a minors 1 0)) (Apply (Determinant N') N a)
      end
  end.

(** ** The specification *)

Definition mx (N : nat) (a : matrix) : 'M[Z]_N := (\matrix_(i, j) at2 a i j)%R.

(** [a] has [N] rows and columns. *)
Definition square (N : nat) (a : matrix) : bool := (size a == N) && all (fun r => size r == N) a.

(** Every element is at most [M] in absolute value. *)
Definition bounded (M : Z) (a : matrix) : Prop := forall i j, (Z.abs (at2 a i j) <= M)%Z.

Example det3 : Determinant 3 [:: [:: 2; 0; 1]; [:: 1; 3; 2]; [:: 1; 1; 1]]%Z = Some 0%Z.
Proof. by []. Qed.

Example det3' : Determinant 3 [:: [:: 2; 0; 1]; [:: 1; 3; 2]; [:: 1; 1; 4]]%Z = Some 18%Z.
Proof. by []. Qed.

Example det3_overflow :
  Determinant 3 [:: [:: - 2 ^ 31; 1; 0]; [:: - 2 ^ 31; 0; - 2 ^ 31]; [:: - 2 ^ 31; -1; 2 ^ 31 - 1]]%Z = None.
Proof. by vm_compute. Qed.

(** ** Proofs *)

(** Equality modulo [2 ^ 32]. *)
Definition cong (x y : Z) : Prop := exists k, x = (y + k * 2 ^ 32)%Z.

Lemma cong_refl x : cong x x.
Proof. by exists 0%Z; lia. Qed.

Lemma cong_add x x' y y' : cong x x' -> cong y y' -> cong (x + y) (x' + y').
Proof. move=> [k ->] [l ->]. exists (k + l)%Z. lia. Qed.

Lemma cong_mul c y y' : cong y y' -> cong (c * y) (c * y').
Proof. move=> [k ->]. exists (c * k)%Z. lia. Qed.

Lemma to_int_cong x : cong (to_int x) x.
Proof.
rewrite /to_int. exists (- ((x + 2 ^ 31) / 2 ^ 32))%Z.
have := Z.div_mod (x + 2 ^ 31) (2 ^ 32). lia.
Qed.

Lemma cong_to_int x y : cong x y -> to_int x = to_int y.
Proof.
move=> [k ->]. rewrite /to_int. congr (_ - _)%Z.
have -> : (y + k * 2 ^ 32 + 2 ^ 31 = y + 2 ^ 31 + k * 2 ^ 32)%Z by lia.
exact: Z_mod_plus_full.
Qed.

Lemma to_int_range x : (- 2 ^ 31 <= to_int x < 2 ^ 31)%Z.
Proof. rewrite /to_int. have := Z.mod_pos_bound (x + 2 ^ 31) (2 ^ 32). lia. Qed.

Lemma to_int_id x : (- 2 ^ 31 <= x < 2 ^ 31)%Z -> to_int x = x.
Proof. move=> Hx. rewrite /to_int Z.mod_small; lia. Qed.

Lemma int64_some x : (Z.abs x < 2 ^ 63)%Z -> int64 x = Some x.
Proof. move=> Hx. rewrite /int64. case: Z.leb_spec; case: Z.ltb_spec => //=; lia. Qed.

Lemma int64_inv x y : int64 x = Some y -> y = x.
Proof. by rewrite /int64; case: ifP => // _ []. Qed.

(** *** The submatrices *)

Lemma nth_slice r j : nth 0%Z (Slice r) j = nth 0%Z r j.+1.
Proof.
rewrite /Slice. case: (ltnP j (size r).-1) => Hj.
  by rewrite (nth_map 0) ?size_iota // nth_iota.
rewrite !nth_default ?size_map ?size_iota //. by case: (size r) Hj.
Qed.

Lemma nth_submatrix N K a i :
  K < N -> size a = N -> nth [::] (Submatrix N K a) i = Slice (nth [::] a (bump K i)).
Proof.
move=> HK Ha. rewrite /Submatrix nth_cat size_map size_iota /bump. case: ltnP => Hi.
  by rewrite (nth_map 0) ?size_iota // nth_iota.
case: (ltnP (i - K) (N - K - 1)) => Hn.
  by rewrite (nth_map 0) ?size_iota // nth_iota // add0n subnK // addn1 add1n.
rewrite !nth_default ?size_map ?size_iota // Ha add1n.
by move: Hn; rewrite -subnDA leq_subLR addnAC subnKC // addn1.
Qed.

Lemma at2_submatrix N K a i j :
  K < N -> size a = N -> at2 (Submatrix N K a) i j = at2 a (bump K i) j.+1.
Proof. by move=> HK Ha; rewrite /at2 nth_submatrix // nth_slice. Qed.

Lemma size_submatrix N K a : K < N.+1 -> size (Submatrix N.+1 K a) = N.
Proof. by move=> HK; rewrite size_cat !size_map !size_iota subSn // subSS subn0 subnKC. Qed.

Lemma mx_submatrix N a (i : 'I_N.+1) :
  size a = N.+1 -> (row' i (col' ord0 (mx N.+1 a)) = mx N (Submatrix N.+1 i a))%R.
Proof. by move=> Ha; apply/matrixP=> k j; rewrite !mxE at2_submatrix. Qed.

Lemma bounded_submatrix N K a M : K < N -> size a = N -> bounded M a -> bounded M (Submatrix N K a).
Proof. by move=> HK Ha Hb i j; rewrite at2_submatrix. Qed.

(** *** The minors *)

Lemma all_some_inv l r : all_some l = Some r -> l = [seq Some x | x <- r].
Proof. by elim: l r => [|[x|] l IH] r //=; [case=> <-|case: (all_some l) IH => //= r' /(_ _ erefl) -> [<-]]. Qed.

Lemma all_some_total l : all isSome l -> exists r, all_some l = Some r.
Proof. by elim: l => [|[x|] l IH] //=; [exists [::]|move=> /IH [r ->]; exists (x :: r)]. Qed.

Lemma apply_inv det N a r k :
  Apply det N a = Some r -> k < N -> det (Submatrix N k a) = Some (nth 0%Z r k).
Proof.
move=> /all_some_inv H Hk.
have Hr : size r = N by have := congr1 size H; rewrite !size_map size_iota.
have : nth None [seq det (Submatrix N i a) | i <- iota 0 N] k = nth None [seq Some x | x <- r] k by rewrite H.
by rewrite (nth_map 0) ?size_iota // nth_iota // (nth_map 0%Z) ?Hr.
Qed.

(** *** The sum *)

(** The term [k] of the sum, without its sign. *)
Definition term (a : matrix) (minors : seq Z) (k : nat) : Z := (at2 a k 0 * nth 0 minors k)%Z.

Lemma sum_loop_inv n i a minors m res r :
  sum_loop n i a minors m res = Some r ->
  r = (res + m * (\sum_(k < n) (-1) ^+ k * term a minors (i + k)))%R.
Proof.
elim: n i m res => [|n IH] i m res /=; first by case=> <-; rewrite big_ord0 mulr0 addr0.
case Hp: (int64 (m * at2 _ _ _)) => [p|] //=. case Hq: (int64 (p * _)) => [q|] //=.
case Hs: (int64 (res + q)) => [s|] //=. case Hm: (int64 (m * -1)) => [m'|] //= H.
move: (int64_inv Hp) (int64_inv Hq) (int64_inv Hs) (int64_inv Hm) (IH _ _ _ H) => {Hp Hq Hs Hm H} -> -> -> -> ->.
rewrite big_ord_recl /= expr0 mul1r addn0 mulrDr addrA /term.
congr (_ + _)%R; first by rewrite !ringE; lia.
rewrite -mulrA; congr (_ * _)%R. rewrite big_distrr /=. apply: eq_bigr => k _.
by rewrite addSnnS exprS mulrA.
Qed.

Lemma sum_loop_total n i a minors m res B :
  (forall k, Z.abs (term a minors k) <= B)%Z -> (forall k, Z.abs (at2 a k 0) < 2 ^ 63)%Z -> Z.abs m = 1%Z ->
  (Z.abs res <= Z.of_nat i * B)%Z -> (Z.of_nat (i + n) * B < 2 ^ 63)%Z -> (0 <= B)%Z ->
  exists r, sum_loop n i a minors m res = Some r.
Proof.
move=> HB Ha. elim: n i m res => [|n IH] i m res Hm Hres Hn HB0 /=; first by exists res.
have Hi := HB i. rewrite /term in Hi. have Hai := Ha i.
have Hni : (Z.of_nat i * B + B < 2 ^ 63)%Z.
  move: Hn; rewrite addnS Nat2Z.inj_succ -plusE Nat2Z.inj_add. nia.
have Hmul c : (Z.abs (m * c) = Z.abs c)%Z by rewrite Z.abs_mul Hm Z.mul_1_l.
have HiB : (0 <= Z.of_nat i * B)%Z by nia.
have Hterm := Hmul (at2 a i 0 * nth 0 minors i)%Z. rewrite Z.mul_assoc in Hterm.
rewrite (int64_some (x := (m * at2 a i 0)%Z)) ?Hmul //= (int64_some (x := (m * at2 a i 0 * nth 0 minors i)%Z)) /=; first by lia.
rewrite (int64_some (x := (res + _)%Z)) /=; first by lia. rewrite (int64_some (x := (m * -1)%Z)) ?Hmul //=.
apply: IH => //; [by rewrite Nat2Z.inj_succ Z.mul_succ_l; lia|by rewrite addSnnS].
Qed.

(** *** The determinant *)

Lemma determinantE N a :
  Determinant N.+2 a = obind (fun minors => omap to_int (sum_loop N.+2 0 a minors 1 0)) (Apply (Determinant N.+1) N.+2 a).
Proof. by []. Qed.

Lemma determinant_inv N a r :
  Determinant N.+2 a = Some r ->
  exists minors s, [/\ Apply (Determinant N.+1) N.+2 a = Some minors, sum_loop N.+2 0 a minors 1 0 = Some s & r = to_int s].
Proof.
rewrite determinantE. case Hap: (Apply _ _ _) => [minors|] //. rewrite -[obind _ _]/(omap to_int (sum_loop N.+2 0 a minors 1 0)).
by case Hs: (sum_loop _ _ _ _ _ _) => [s|] // [<-]; exists minors, s.
Qed.

Lemma determinant_int N a r :
  bounded (2 ^ 31) a -> Determinant N a = Some r -> (Z.abs r <= 2 ^ 31)%Z.
Proof.
case: N => [|[|N]] Ha; [by case=> <-|by case=> <-; exact: Ha|].
move=> /determinant_inv [minors [s [_ _ ->]]].
have := to_int_range s. lia.
Qed.

Lemma determinant_minor N a r minors :
  Apply (Determinant N.+1) N.+2 a = Some minors -> sum_loop N.+2 0 a minors 1 0 = Some r ->
  (forall (k : 'I_N.+2) s, Determinant N.+1 (Submatrix N.+2 k a) = Some s -> cong s (\det (mx N.+1 (Submatrix N.+2 k a)))%R) ->
  size a = N.+2 -> cong r (\det (mx N.+2 a))%R.
Proof.
move=> Hap /sum_loop_inv -> Hminor Ha. rewrite (expand_det_col _ ord0) add0r mul1r.
elim/big_rec2: _ => [|k x y _ IH]; first exact: cong_refl.
apply: cong_add => //. rewrite /cofactor mx_submatrix // addn0 add0n /term mxE mulrCA.
rewrite mulrA. rewrite mulrA. apply: cong_mul.
exact: Hminor (apply_inv Hap (ltn_ord k)).
Qed.

Lemma determinant_cong N a r :
  size a = N.+1 -> Determinant N.+1 a = Some r -> cong r (\det (mx N.+1 a))%R.
Proof.
elim: N a r => [|N IH] a r Ha; first by case=> <-; rewrite det_mx11 mxE; exact: cong_refl.
move=> /determinant_inv [minors [s [Hap Hs ->]]].
case: (to_int_cong s) => k ->. case: (determinant_minor Hap Hs) => // [i x|l ->]; last by exists (l + k)%Z; lia.
by apply: IH; rewrite size_submatrix.
Qed.

Lemma determinant_total N a M :
  size a = N.+1 -> bounded M a -> (M <= 2 ^ 31)%Z -> (Z.of_nat N.+1 * M < 2 ^ 32)%Z ->
  exists r, Determinant N.+1 a = Some r.
Proof.
elim: N a => [|N IH] a Ha HM HM31 HN; first by eexists.
have HM0 : (0 <= M)%Z by have := HM 0 0; lia.
have Hb31 : bounded (2 ^ 31) a by move=> i j; have := HM i j; lia.
rewrite determinantE. have [minors Hap] : exists r, Apply (Determinant N.+1) N.+2 a = Some r.
  apply: all_some_total. rewrite all_map. apply/allP => i. rewrite mem_iota add0n => /andP [_ Hi] /=.
  case: (IH (Submatrix N.+2 i a)) => [||//||r /= -> //]; [by rewrite size_submatrix|exact: bounded_submatrix|nia].
rewrite Hap -[obind _ _]/(omap to_int (sum_loop N.+2 0 a minors 1 0)).
case: (sum_loop_total (n := N.+2) (i := 0) (a := a) (minors := minors) (m := 1%Z) (res := 0%Z) (B := (M * 2 ^ 31)%Z)) => //.
- move=> k. rewrite /term Z.abs_mul. case: (ltnP k N.+2) => Hk.
    by have := determinant_int (bounded_submatrix Hk Ha Hb31) (apply_inv Hap Hk); have := HM k 0; nia.
  by rewrite /at2 [nth [::] a k]nth_default ?Ha //=; lia.
- move=> k. have := HM k 0; lia.
- by rewrite add0n; lia.
- by lia.
- by move=> r ->; eexists.
Qed.

(** C35 [Determinant] of an array of [N] rows and columns of [int] is the determinant,
    converted to [int]: equal to it whenever it fits, and otherwise equal modulo [2 ^ 32],
    although each minor was cut to 32 bits on the way.  It has a value, so that no sum of 64
    bits overflows, if [N] times the largest absolute value is below [2 ^ 32]; and whenever
    it has a value, also beyond that bound, the value is this one. *)
Theorem determinant_correct (N : nat) (a : matrix) (M : Z) :
  0 < N -> square N a -> (forall i j, - 2 ^ 31 <= at2 a i j < 2 ^ 31)%Z -> bounded M a ->
  [/\ (Z.of_nat N * M < 2 ^ 32)%Z -> Determinant N a = Some (to_int (\det (mx N a))%R),
      forall r, Determinant N a = Some r -> r = to_int (\det (mx N a))%R
    & (- 2 ^ 31 <= (\det (mx N a))%R < 2 ^ 31)%Z -> to_int (\det (mx N a))%R = (\det (mx N a))%R].
Proof.
case: N => [//|N] _ /andP [/eqP Ha _] Hint HM.
have Hval r : Determinant N.+1 a = Some r -> r = to_int (\det (mx N.+1 a))%R.
  move=> Hr. have Hc := determinant_cong Ha Hr. rewrite -(cong_to_int Hc) to_int_id //.
  case: N Ha Hr Hc => [_ [<-] _|N _ /determinant_inv [? [s [_ _ ->]]] _]; [exact: Hint|exact: to_int_range].
split=> //; last exact: to_int_id.
move=> HN. have HM0 := HM 0 0. have Hmin : bounded (Z.min M (2 ^ 31)) a.
  by move=> i j; have := HM i j; have := Hint i j; lia.
case: (determinant_total Ha Hmin) => [||r Hr]; [lia|nia|]. by rewrite Hr (Hval r Hr).
Qed.

Lemma determinant_correct_witness :
  to_int (\det (mx 3 [:: [:: 2; 0; 1]; [:: 1; 3; 2]; [:: 1; 1; 4]]%Z))%R = 18%Z.
Proof.
set a := [:: _; _; _].
have Hr : forall i j, (0 <= at2 a i j <= 4)%Z.
  by case=> [|[|[|i]]] [|[|[|j]]]; rewrite /at2 /= ?nth_nil; lia.
case: (@determinant_correct 3 a 4) => // [i j|i j|_ Hv _]; [by have := Hr i j; lia|by have := Hr i j; lia|].
by rewrite -(Hv 18%Z).
Defined.
