(* ===== verification/Poller.v ===== *)
(** * Waiting for sockets (tools/cactus/net/poller)

    [Poller] keeps a pool of [FDDesc], an [FDWatcher] borrows one between [Init] and
    [Reset], registers it with the epoll instance of the kernel, and a fiber that waits for
    the socket stands in its slot for readers or for writers until [Poll] or [Reset] unparks
    it.  The scheduler is an interface, [Scheduler], which Fibers.v implements; the epoll
    instance is known by its interest list and may report any events for what is in it.

    The sockets are expected to let one fiber at a time wait in each direction, and not to wait
    after [Reset].  Then in every state that can be reached no pointer that is followed dangles,
    no [CHECK] fails, each descriptor of the pool is free or belongs to one watcher, and a fiber
    that waits is in its slot, where the next event finds it, or has been unparked.  A second
    fiber that waits in one direction makes [CHECK(!slot)] fail, or, when the first has been
    unparked but has not gone on yet, is forgotten when that goes on. *)

From S2P Require Import Prelude Fibers.

#[local] Set Warnings "-clear-no-such-hyp".

(** ** The interface of the scheduler *)

(** [Unpark] puts a fiber that lives into the queue, unless it is there already. *)
Class Scheduler (S : Type) := {
  Unpark : nat → S → outcome S;
  queue : S → list nat;
  alive : S → nat → Prop;
  unpark_law : ∀ f s, alive s f → ∃ s', Unpark f s = Ok s' ∧
    queue s' = (if decide (f ∈ queue s) then queue s else queue s ++ [f]) ∧ ∀ g, alive s g → alive s' g;
}.

(** ** The program *)

Section Poller.
Context {S : Type} `{!Scheduler S}.

Record FDDesc : Type := mkDesc { fd : Z; reader : option nat; writer : option nat; next : option nat }.

(** A fiber inside [Wait]: its watcher, the direction, and the descriptor that the reference
    [slot] points into. *)
Record waiting : Type := { on : nat; for_read : bool; slot : nat }.

(** The descriptors that are allocated, the pool, the interest list of the epoll instance,
    [desc_] of each watcher, the fibers inside [Wait], and the scheduler. *)
Record state : Type := mkState {
  descs : gmap nat FDDesc; free_list_ : option nat; interest : gmap Z nat;
  watchers : gmap nat (option nat); waits : gmap nat waiting; sch : S }.

Definition set_descs v s := mkState v (free_list_ s) (interest s) (watchers s) (waits s) (sch s).
Definition set_free v s := mkState (descs s) v (interest s) (watchers s) (waits s) (sch s).
Definition set_interest v s := mkState (descs s) (free_list_ s) v (watchers s) (waits s) (sch s).
Definition set_watchers v s := mkState (descs s) (free_list_ s) (interest s) v (waits s) (sch s).
Definition set_waits v s := mkState (descs s) (free_list_ s) (interest s) (watchers s) v (sch s).
Definition set_sch v s := mkState (descs s) (free_list_ s) (interest s) (watchers s) (waits s) v.

Definition deref (d : nat) (s : state) : outcome FDDesc :=
  match descs s !! d with Some x => Ok x | None => Fail UB end.
Definition upd (d : nat) (g : FDDesc → FDDesc) (s : state) : state := set_descs (alter g d (descs s)) s.

Definition set_fd v x := mkDesc v (reader x) (writer x) (next x).
Definition set_next v x := mkDesc (fd x) (reader x) (writer x) v.
Definition get_slot (read : bool) (x : FDDesc) : option nat := if read then reader x else writer x.
Definition set_slot (read : bool) v x :=
  if read then mkDesc (fd x) v (writer x) (next x) else mkDesc (fd x) (reader x) v (next x).

(** [address] is the one that [new] gives. *)
Definition NewDesc (address : nat) (s : state) : outcome (nat * state) :=
  match free_list_ s with
  | Some desc => x <-? deref desc s ;; Ok (desc, set_free (next x) s)
  | None => Ok (address, set_descs (<[address := mkDesc (-1) None None None]> (descs s)) s)
  end.

Definition FreeDesc (desc : nat) (s : state) : outcome state :=
  _ <-? deref desc s ;; Ok (set_free (Some desc) (upd desc (set_next (free_list_ s)) s)).

(** The constructor of the watcher [w] and [Init]; [ok] says if [epoll_ctl] succeeds.  When
    it fails the exception destroys the watcher with its owner. *)
Definition Init (w : nat) (fd_ : Z) (ok : bool) (address : nat) (s : state) : outcome state :=
  r <-? NewDesc address s ;;
  let '(desc, s) := r in
  _ <-? deref desc s ;;
  let s := upd desc (set_fd fd_) s in
  if ok then Ok (set_watchers (<[w := Some desc]> (watchers s)) (set_interest (<[fd_ := desc]> (interest s)) s))
  else FreeDesc desc (upd desc (set_fd (-1)) s).

(** [if (slot) { slot->Unpark(); slot = nullptr; }] *)
Definition wake (read : bool) (d : nat) (s : state) : outcome state :=
  x <-? deref d s ;;
  match get_slot read x with
  | Some f => sc <-? Unpark f (sch s) ;; Ok (upd d (set_slot read None) (set_sch sc s))
  | None => Ok s
  end.

(** [epoll_ctl] with [EPOLL_CTL_DEL] fails for what is not in the interest list. *)
Definition Reset (w : nat) (s : state) : outcome state :=
  match watchers s !! w with
  | Some (Some d) =>
      x <-? deref d s ;;
      match interest s !! fd x with
      | None => Fail Abort
      | Some _ =>
          let s := set_interest (delete (fd x) (interest s)) s in
          let s := upd d (set_fd (-1)) s in
          s <-? wake false d s ;;
          s <-? wake true d s ;;
          s <-? FreeDesc d s ;;
          Ok (set_watchers (<[w := None]> (watchers s)) s)
      end
  | _ => Fail UB
  end.

(** [~FDWatcher] *)
Definition destroy (w : nat) (s : state) : outcome state :=
  match watchers s !! w with
  | Some None => Ok (set_watchers (delete w (watchers s)) s)
  | _ => Fail Abort
  end.

(** The lambda that [Wait] gives to [Park]: [slot] is a reference into the descriptor that
    the watcher had when [Wait] was called. *)
Definition Wait_cleanup (x : waiting) (s : state) : outcome state :=
  match watchers s !! on x with
  | Some (Some _) => _ <-? deref (slot x) s ;; Ok (upd (slot x) (set_slot (for_read x) None) s)
  | Some None => Ok s
  | None => Fail UB
  end.

(** [Wait] of the fiber [f] up to where [Park] leaves it; [throws]: [Park] throws at once. *)
Definition Wait (w : nat) (read : bool) (f : nat) (throws : bool) (s : state) : outcome state :=
  match watchers s !! w with
  | Some (Some d) =>
      x <-? deref d s ;;
      match get_slot read x with
      | Some _ => Fail Abort
      | None =>
          let me := {| on := w; for_read := read; slot := d |} in
          let s := upd d (set_slot read (Some f)) s in
          if throws then Wait_cleanup me s else Ok (set_waits (<[f := me]> (waits s)) s)
      end
  | _ => Fail UB
  end.

(** The rest of [Wait] when the loop of the scheduler resumes the fiber. *)
Definition Wait_end (f : nat) (s : state) : outcome (state * bool) :=
  match waits s !! f with
  | Some x =>
      s <-? Wait_cleanup x (set_waits (delete f (waits s)) s) ;;
      match watchers s !! on x with Some o => Ok (s, bool_decide (o = None)) | None => Fail UB end
  | None => Fail UB
  end.

Definition EPOLLIN : Z := 0x1.
Definition EPOLLOUT : Z := 0x4.
Definition EPOLLERR : Z := 0x8.
Definition EPOLLHUP : Z := 0x10.
Definition EPOLLRDHUP : Z := 0x2000.

Definition readable (events : Z) : bool :=
  negb (Z.land events (Z.lor (Z.lor (Z.lor EPOLLIN EPOLLHUP) EPOLLRDHUP) EPOLLERR) =? 0)%Z.
Definition writable (events : Z) : bool :=
  negb (Z.land events (Z.lor (Z.lor EPOLLOUT EPOLLHUP) EPOLLERR) =? 0)%Z.

(** The loop over the events: a pointer and a mask. *)
Definition Poll_event (e : nat * Z) (s : state) : outcome state :=
  s <-? (if readable e.2 then wake true e.1 s else Ok s) ;;
  if writable e.2 then wake false e.1 s else Ok s.

(** What [epoll_wait] returns. *)
Inductive epoll_result : Type := Interrupted | Failed | Events (events : list (nat * Z)).

Definition Poll (r : epoll_result) (s : state) : outcome state :=
  match r with
  | Interrupted => Ok s
  | Failed => Fail (Exn SystemError)
  | Events events => forO Poll_event events s
  end.

(** [Poller::~Poller], the loop over the pool. *)
Fixpoint destroy_loop (fuel : nat) (s : state) : outcome state :=
  match fuel with
  | O => Fail Fuel
  | Datatypes.S fuel =>
      match free_list_ s with
      | None => Ok s
      | Some desc => x <-? deref desc s ;; destroy_loop fuel (set_descs (delete desc (descs s)) (set_free (next x) s))
      end
  end.

End Poller.
Arguments state : clear implicits.

(** The time that [Poll] asks for, in milliseconds; [None] is a null pointer, durations are
    in nanoseconds. *)
Definition duration_max : Z := 2 ^ 63 - 1.
Definition epoll_timeout (timeout : option Z) : Z :=
  match timeout with
  | None => 0
  | Some t => if (t =? duration_max)%Z then -1 else Z.max 5 (s32 (Z.quot t 1000000))
  end.

(** [Poll] waits for ever only for the largest duration, never less than 5 ms otherwise, and
    no shorter than a timeout that fits. *)
Lemma epoll_timeout_ok (t : Z) :
  (0 <= t < duration_max)%Z →
  (5 <= epoll_timeout (Some t) < 2 ^ 31)%Z ∧ ((t < 2 ^ 31 * 1000000)%Z → (t < (epoll_timeout (Some t) + 1) * 1000000)%Z).
Proof.
  intros Ht. unfold epoll_timeout. rewrite (proj2 (Z.eqb_neq _ _)) by lia.
  assert (0 <= Z.quot t 1000000)%Z by (apply Z.quot_pos; lia). pose proof (Z.quot_rem t 1000000 ltac:(lia)) as Hq.
  pose proof (Z.rem_bound_pos t 1000000 ltac:(lia) ltac:(lia)) as Hr. unfold swrap. change (32 - 1)%Z with 31%Z.
  pose proof (Z.mod_pos_bound (Z.quot t 1000000 + 2 ^ 31) (2 ^ 32) ltac:(lia)). split; [lia|]. intros Hlt. rewrite Z.mod_small; lia.
Qed.

(** ** What can happen *)

Section Steps.
Context {S : Type} `{!Scheduler S}.
Implicit Types s : state S.

Inductive op : Type :=
| OpInit (w : nat) (fd_ : Z) (ok : bool) (address : nat)
| OpWait (w : nat) (read : bool) (f : nat) (throws : bool)
| OpResume (f : nat) (sc : S)
| OpReset (w : nat)
| OpPoll (r : epoll_result)
| OpDestroy (w : nat)
| OpOther (sc : S).

Definition exec (o : op) (s : state S) : outcome (state S) :=
  match o with
  | OpInit w fd_ ok address => Init w fd_ ok address s
  | OpWait w read f throws => Wait w read f throws s
  | OpResume f sc => r <-? Wait_end f (set_sch sc s) ;; Ok r.1
  | OpReset w => Reset w s
  | OpPoll r => Poll r s
  | OpDestroy w => destroy w s
  | OpOther sc => Ok (set_sch sc s)
  end.

(** The scheduler went on to [sc]: the fibers inside [Wait], but for [but], live and do not
    leave the queue. *)
Definition goes_on (s : state S) (sc : S) (but : nat → Prop) : Prop :=
  ∀ g x, waits s !! g = Some x → ¬ but g → alive sc g ∧ (g ∈ queue (sch s) → g ∈ queue sc).

(** A watcher is used as the sockets do: initialised once, its [Wait] is not called after
    [Reset], one fiber at a time waits in each direction, and it is destroyed when it was
    reset and no fiber is in its [Wait].  [epoll_ctl] adds a descriptor that is not in the
    interest list, and [epoll_wait] reports what is in it. *)
Definition allowed (o : op) (s : state S) : Prop :=
  match o with
  | OpInit w fd_ ok address =>
      watchers s !! w = None ∧ (ok = true → interest s !! fd_ = None) ∧ descs s !! address = None
  | OpWait w read f _ =>
      (∃ d, watchers s !! w = Some (Some d)) ∧ waits s !! f = None ∧ alive (sch s) f ∧
      ∀ g x, waits s !! g = Some x → on x = w → for_read x = read → False
  | OpResume f sc => is_Some (waits s !! f) ∧ goes_on s sc (λ g, g = f)
  | OpReset w => ∃ d, watchers s !! w = Some (Some d)
  | OpPoll r =>
      match r with
      | Interrupted => True
      | Failed => False
      | Events events => ∀ d m, (d, m) ∈ events → ∃ n, interest s !! n = Some d
      end
  | OpDestroy w => watchers s !! w = Some None ∧ ∀ g x, waits s !! g = Some x → on x ≠ w
  | OpOther sc => goes_on s sc (λ _, False)
  end.

Definition step (s s' : state S) : Prop := ∃ o, allowed o s ∧ exec o s = Ok s'.

Definition init (s : state S) : Prop :=
  descs s = ∅ ∧ free_list_ s = None ∧ interest s = ∅ ∧ watchers s = ∅ ∧ waits s = ∅.

(** ** The invariant *)

Inductive free_chain (m : gmap nat FDDesc) : option nat → list nat → Prop :=
| free_nil : free_chain m None []
| free_cons d x l : m !! d = Some x → free_chain m (next x) l → free_chain m (Some d) (d :: l).

(** The pool is [l]; every descriptor is in it or belongs to one watcher, and the interest
    list has exactly those of the watchers. *)
Record pool (m : gmap nat FDDesc) (o : option nat) (i : gmap Z nat) (ws : gmap nat (option nat)) (l : list nat) : Prop := {
  p_chain : free_chain m o l;
  p_nodup : NoDup l;
  p_owned : ∀ w d, ws !! w = Some (Some d) → (d ∉ l) ∧ ∃ x, m !! d = Some x ∧ i !! fd x = Some d;
  p_unique : ∀ w w' d, ws !! w = Some (Some d) → ws !! w' = Some (Some d) → w = w';
  p_interest : ∀ n d, i !! n = Some d → ∃ x w, m !! d = Some x ∧ fd x = n ∧ ws !! w = Some (Some d);
  p_all : ∀ d, is_Some (m !! d) → d ∈ l ∨ ∃ w, ws !! w = Some (Some d);
}.

(** The fiber [f] is in the slot that it waits in. *)
Definition in_slot (s : state S) (f : nat) (x : waiting) : Prop :=
  ∃ y, descs s !! slot x = Some y ∧ get_slot (for_read x) y = Some f.

Record slots (s : state S) : Prop := {
  s_slot : ∀ d x read f, descs s !! d = Some x → get_slot read x = Some f →
    ∃ w, waits s !! f = Some {| on := w; for_read := read; slot := d |} ∧ watchers s !! w = Some (Some d);
  s_alive : ∀ f x, waits s !! f = Some x → alive (sch s) f;
  s_wait : ∀ f x, waits s !! f = Some x →
    match watchers s !! on x with
    | Some (Some d) => slot x = d ∧ (in_slot s f x ∨ f ∈ queue (sch s))
    | Some None => f ∈ queue (sch s)
    | None => False
    end;
  s_one : ∀ f g x y, waits s !! f = Some x → waits s !! g = Some y → on x = on y → for_read x = for_read y → f = g;
}.

Definition inv (s : state S) : Prop :=
  (∃ l, pool (descs s) (free_list_ s) (interest s) (watchers s) l) ∧ slots s.

(** ** Proofs *)

Lemma upd_insert d g s x : descs s !! d = Some x → upd d g s = set_descs (<[d := g x]> (descs s)) s.
Proof.
  intros Hd. unfold upd. f_equal. apply map_eq. intros i. destruct (decide (i = d)) as [->|Hne].
  - by rewrite lookup_alter_eq, lookup_insert_eq, Hd.
  - by rewrite lookup_alter_ne, lookup_insert_ne.
Qed.

Lemma get_set read v x : get_slot read (set_slot read v x) = v.
Proof. by destruct read. Qed.
Lemma get_set_other read v x : get_slot (negb read) (set_slot read v x) = get_slot (negb read) x.
Proof. by destruct read. Qed.
Lemma fd_set_slot read v x : fd (set_slot read v x) = fd x.
Proof. by destruct read. Qed.
Lemma next_set_slot read v x : next (set_slot read v x) = next x.
Proof. by destruct read. Qed.
Lemma set_slot_same read x : set_slot read (get_slot read x) x = x.
Proof. by destruct read, x. Qed.

Lemma chain_frame_free m m' o l :
  free_chain m o l → (∀ d x, d ∈ l → m !! d = Some x → ∃ x', m' !! d = Some x' ∧ next x' = next x) → free_chain m' o l.
Proof.
  induction 1 as [|d x l Hd Hc IH]; intros Hm; [constructor|].
  destruct (Hm d x) as (x'&Hx'&Hn); [by left|done|]. econstructor; [done|]. rewrite Hn. apply IH.
  intros e y He. apply Hm. by right.
Qed.

(** The pool only depends on the file descriptors and the links. *)
Lemma pool_frame m m' o i ws l :
  pool m o i ws l → (∀ d, (λ x, (fd x, next x)) <$> m' !! d = (λ x, (fd x, next x)) <$> m !! d) → pool m' o i ws l.
Proof.
  intros [Hc Hn Ho Hu Hi Ha] Hd.
  assert (∀ d x, m !! d = Some x → ∃ x', m' !! d = Some x' ∧ fd x' = fd x ∧ next x' = next x) as Hto.
  { intros d x Hx. specialize (Hd d). rewrite Hx in Hd. destruct (m' !! d) as [x'|]; [|done]. injection Hd as ??. eauto. }
  split; [|done| |done| |].
  - eapply chain_frame_free; [done|]. intros d x _ Hx. destruct (Hto d x Hx) as (x'&?&?&?). eauto.
  - intros w d Hwd. destruct (Ho w d Hwd) as (?&x&Hx&Hix). split; [done|]. destruct (Hto d x Hx) as (x'&?&Hfd&_).
    exists x'. by rewrite Hfd.
  - intros n d Hnd. destruct (Hi n d Hnd) as (x&w&Hx&<-&Hwd). destruct (Hto d x Hx) as (x'&?&?&_). eauto 6.
  - intros d Hs. apply Ha. specialize (Hd d). destruct (m' !! d); [|by destruct Hs]. by destruct (m !! d).
Qed.

Lemma pool_slot m o i ws l d x read v :
  pool m o i ws l → m !! d = Some x → pool (<[d := set_slot read v x]> m) o i ws l.
Proof.
  intros Hp Hd. eapply pool_frame; [done|]. intros e. destruct (decide (e = d)) as [->|Hne].
  - rewrite lookup_insert_eq, Hd. cbn. by rewrite fd_set_slot, next_set_slot.
  - by rewrite lookup_insert_ne.
Qed.

(** A descriptor leaves the pool. *)
Lemma pool_take m d i ws l :
  pool m (Some d) i ws l → ∃ x l', l = d :: l' ∧ m !! d = Some x ∧ pool (delete d m) (next x) i ws l'.
Proof.
  intros [Hc Hn Ho Hu Hi Ha]. inversion Hc as [|? x l' Hx Hc']; subst. apply NoDup_cons in Hn as [Hni Hn].
  exists x, l'. split_and!; [done|done|]. split; [|done| |done| |].
  - eapply chain_frame_free; [done|]. intros e y He Hy. exists y. rewrite lookup_delete_ne; [done|by intros ->].
  - intros w e Hw. destruct (Ho w e Hw) as (He&y&Hy&Hiy). split; [set_solver|]. exists y.
    rewrite lookup_delete_ne; [done|]. intros ->. apply He. left.
  - intros n e Hne. destruct (Hi n e Hne) as (y&w&Hy&Hfd&Hw). exists y, w. rewrite lookup_delete_ne; [done|].
    intros ->. apply (Ho w e Hw). left.
  - intros e [Hed [y Hy]]%lookup_delete_is_Some. destruct (Ha e) as [He|?]; [by eexists|left; set_solver|by right].
Qed.

(** A descriptor comes into the pool. *)
Lemma pool_give m d o i ws l y :
  pool m o i ws l → m !! d = None → next y = o → pool (<[d := y]> m) (Some d) i ws (d :: l).
Proof.
  intros [Hc Hn Ho Hu Hi Ha] Hd Hy.
  assert (d ∉ l) as Hdl.
  { intros Hin. clear -Hc Hd Hin. induction Hc as [|e x l He Hc IH]; [by apply elem_of_nil in Hin|].
    apply elem_of_cons in Hin as [->|?]; [congruence|auto]. }
  assert (∀ e x, m !! e = Some x → <[d := y]> m !! e = Some x) as Hto.
  { intros e x He. rewrite lookup_insert_ne; [done|]. intros ->. congruence. }
  split; [|by constructor| |done| |].
  - econstructor; [by rewrite lookup_insert_eq|]. rewrite Hy. eapply chain_frame_free; [done|]. eauto.
  - intros w e Hw. destruct (Ho w e Hw) as (He&x&Hx&Hix). split; [|eauto]. intros [->|?]%elem_of_cons; [congruence|done].
  - intros n e Hne. destruct (Hi n e Hne) as (x&w&Hx&?&?). eauto 6.
  - intros e [->|[_ He]]%lookup_insert_is_Some; [left; left|]. destruct (Ha e He); [left; by right|by right].
Qed.

(** A watcher gets a descriptor, and gives it back. *)
Lemma pool_own m d o i ws l y w :
  pool m o i ws l → m !! d = None → ws !! w = None → i !! fd y = None →
  pool (<[d := y]> m) o (<[fd y := d]> i) (<[w := Some d]> ws) l.
Proof.
  intros [Hc Hn Ho Hu Hi Ha] Hd Hw Hfd.
  assert (d ∉ l) as Hdl.
  { intros Hin. clear -Hc Hd Hin. induction Hc as [|e x l He Hc IH]; [by apply elem_of_nil in Hin|].
    apply elem_of_cons in Hin as [->|?]; [congruence|auto]. }
  assert (∀ e x, m !! e = Some x → <[d := y]> m !! e = Some x) as Hto.
  { intros e x He. rewrite lookup_insert_ne; [done|]. intros ->. congruence. }
  assert (∀ v e, ws !! v = Some (Some e) → e ≠ d) as Hne.
  { intros v e Hv ->. destruct (Ho v d Hv) as (_&x&?&_). congruence. }
  split; [|done| | | |].
  - eapply chain_frame_free; [done|]. eauto.
  - intros v e Hv. destruct (decide (v = w)) as [->|Hvw].
    + rewrite lookup_insert_eq in Hv. injection Hv as <-. split; [done|]. exists y. by rewrite !lookup_insert_eq.
    + rewrite lookup_insert_ne in Hv by done. destruct (Ho v e Hv) as (He&x&Hx&Hix). split; [done|]. exists x.
      rewrite (Hto e x Hx). split; [done|]. rewrite lookup_insert_ne; [done|]. intros Heq. congruence.
  - intros v v' e Hv Hv'. destruct (decide (v = w)) as [->|Hvw], (decide (v' = w)) as [->|Hvw']; [done| | |];
      rewrite ?lookup_insert_eq in *; rewrite ?lookup_insert_ne in * by done; simplify_eq; [by apply Hne in Hv'|by apply Hne in Hv|by eapply Hu].
  - intros n e Hne'. destruct (decide (n = fd y)) as [->|Hny].
    + rewrite lookup_insert_eq in Hne'. injection Hne' as <-. exists y, w. by rewrite !lookup_insert_eq.
    + rewrite lookup_insert_ne in Hne' by done. destruct (Hi n e Hne') as (x&v&Hx&?&Hv). exists x, v. split_and!; [by apply Hto|done|].
      rewrite lookup_insert_ne; [done|]. intros ->. congruence.
  - intros e [->|[_ He]]%lookup_insert_is_Some; [right; exists w; by rewrite lookup_insert_eq|].
    destruct (Ha e He) as [?|(v&Hv)]; [by left|]. right. exists v. rewrite lookup_insert_ne; [done|]. intros ->. congruence.
Qed.

Lemma pool_release m d o i ws l x w :
  pool m o i ws l → ws !! w = Some (Some d) → m !! d = Some x →
  pool (delete d m) o (delete (fd x) i) (<[w := None]> ws) l.
Proof.
  intros [Hc Hn Ho Hu Hi Ha] Hw Hd. destruct (Ho w d Hw) as (Hdl&x'&Hx'&Hix). rewrite Hd in Hx'. injection Hx' as <-.
  assert (∀ v e, <[w := None]> ws !! v = Some (Some e) → ws !! v = Some (Some e) ∧ v ≠ w ∧ e ≠ d) as Hback.
  { intros v e Hv. destruct (decide (v = w)) as [->|Hvw]; [by rewrite lookup_insert_eq in Hv|].
    rewrite lookup_insert_ne in Hv by done. split_and!; [done|done|]. intros ->. apply Hvw. by eapply Hu. }
  split; [|done| | | |].
  - eapply chain_frame_free; [done|]. intros e y He Hy. exists y. rewrite lookup_delete_ne; [done|]. by intros ->.
  - intros v e (Hv&Hvw&Hed)%Hback. destruct (Ho v e Hv) as (He&y&Hy&Hiy). split; [done|]. exists y.
    rewrite !lookup_delete_ne; [done| |done]. intros Heq. congruence.
  - intros v v' e (Hv&_&_)%Hback (Hv'&_&_)%Hback. by eapply Hu.
  - intros n e [Hnx Hne]%lookup_delete_Some. destruct (Hi n e Hne) as (y&v&Hy&Hfd&Hv).
    assert (e ≠ d) by (intros ->; congruence). exists y, v. rewrite lookup_delete_ne, lookup_insert_ne; [done| |done].
    intros ->. congruence.
  - intros e [Hed [y Hy]]%lookup_delete_is_Some. destruct (Ha e) as [?|(v&Hv)]; [by eexists|by left|]. right. exists v.
    rewrite lookup_insert_ne; [done|]. intros ->. congruence.
Qed.

(** The scheduler has only unparked fibers. *)
Definition grows (sc sc' : S) : Prop :=
  (∀ f, alive sc f → alive sc' f) ∧ (∀ f, f ∈ queue sc → f ∈ queue sc').

Lemma wake_spec read d s x :
  descs s !! d = Some x → (∀ f, get_slot read x = Some f → alive (sch s) f) →
  ∃ sc, wake read d s = Ok (upd d (set_slot read None) (set_sch sc s)) ∧
    (∀ f, alive (sch s) f → alive sc f) ∧
    ∀ f, f ∈ queue sc ↔ f ∈ queue (sch s) ∨ get_slot read x = Some f.
Proof.
  intros Hd Ha. unfold wake, deref. rewrite Hd. cbn [bindO]. destruct (get_slot read x) as [f|] eqn:Hg.
  - destruct (unpark_law f (sch s) (Ha f eq_refl)) as (sc&->&Hq&Hal). exists sc. split_and!; [done|done|].
    intros g. rewrite Hq. case_decide; set_solver.
  - exists (sch s). split_and!; [|done|set_solver]. f_equal. rewrite (upd_insert _ _ _ x) by done. rewrite <- Hg, set_slot_same.
    destruct s. cbn in *. unfold set_descs, set_sch. cbn. by rewrite insert_id.
Qed.

Lemma slots_clear s d x read sc :
  slots s → descs s !! d = Some x → grows (sch s) sc → (∀ f, get_slot read x = Some f → f ∈ queue sc) →
  slots (upd d (set_slot read None) (set_sch sc s)).
Proof.
  intros [Hs Ha Hw Ho] Hd [Hal Hq] Hx.
  assert (∀ e y rd g, alter (set_slot read None) d (descs s) !! e = Some y → get_slot rd y = Some g →
    ∃ y', descs s !! e = Some y' ∧ get_slot rd y' = Some g) as Hback.
  { intros e y rd g He Hg. destruct (decide (e = d)) as [->|Hne]; [|rewrite lookup_alter_ne in He by done; eauto].
    rewrite lookup_alter_eq, Hd in He. injection He as <-. exists x. split; [done|].
    destruct rd, read; cbn in *; congruence. }
  split; cbn.
  - intros e y rd g He Hg. destruct (Hback e y rd g He Hg) as (y'&He'&Hg'). by eapply Hs.
  - intros f wt Hf. eapply Hal, Ha, Hf.
  - intros f wt Hf. specialize (Hw f wt Hf). destruct (watchers s !! on wt) as [[d0|]|]; [|by apply Hq|done].
    destruct Hw as [Hsl [(y&Hy&Hg)|?]]; (split; [done|]); [|right; by apply Hq].
    destruct (decide (slot wt = d ∧ for_read wt = read)) as [[Hsd Hr]|Hne].
    + right. apply Hx. rewrite Hsd, Hd in Hy. injection Hy as ->. by rewrite <- Hr.
    + left. destruct (decide (slot wt = d)) as [Hsd|Hsd].
      * exists (set_slot read None x). cbn. rewrite Hsd, lookup_alter_eq, Hd. split; [done|].
        rewrite Hsd, Hd in Hy. injection Hy as <-. destruct (for_read wt), read; cbn in *; try done; by exfalso; apply Hne.
      * exists y. cbn. by rewrite lookup_alter_ne.
  - done.
Qed.

Lemma slot_alive s d x read f : slots s → descs s !! d = Some x → get_slot read x = Some f → alive (sch s) f.
Proof. intros Hs Hd Hg. destruct (s_slot _ Hs _ _ _ _ Hd Hg) as (w&Hf&_). by eapply s_alive. Qed.

(** What [wake] keeps of a state. *)
Definition same_but_slots (s s' : state S) : Prop :=
  free_list_ s' = free_list_ s ∧ interest s' = interest s ∧ watchers s' = watchers s ∧ waits s' = waits s ∧
  dom (descs s') = dom (descs s).

Lemma wake_inv read d s x :
  inv s → descs s !! d = Some x →
  ∃ s', wake read d s = Ok s' ∧ inv s' ∧ same_but_slots s s' ∧
    (∀ f, f ∈ queue (sch s') ↔ f ∈ queue (sch s) ∨ get_slot read x = Some f) ∧
    descs s' = <[d := set_slot read None x]> (descs s).
Proof.
  intros [[l Hp] Hs] Hd. destruct (wake_spec read d s x Hd) as (sc&Hw&Hal&Hq).
  { intros f. by eapply slot_alive. }
  exists (upd d (set_slot read None) (set_sch sc s)). split; [done|]. split; [|split_and!; [|done|]].
  - split; [exists l; rewrite (upd_insert _ _ _ x) by done; by apply pool_slot|]. eapply slots_clear; [done|done|split; [done|set_solver]|set_solver].
  - split_and!; try done. cbn. apply dom_alter_L.
  - by rewrite (upd_insert _ _ _ x).
Qed.

(** The event [m] is for the fiber [f], which waits in the descriptor [x]. *)
Definition concerns (m : Z) (x : FDDesc) (f : nat) : Prop :=
  readable m = true ∧ reader x = Some f ∨ writable m = true ∧ writer x = Some f.

Definition matched (s : state S) (events : list (nat * Z)) (f : nat) : Prop :=
  ∃ d m x, (d, m) ∈ events ∧ descs s !! d = Some x ∧ concerns m x f.

Lemma same_but_slots_trans s1 s2 s3 : same_but_slots s1 s2 → same_but_slots s2 s3 → same_but_slots s1 s3.
Proof. intros (?&?&?&?&?) (?&?&?&?&?). split_and!; congruence. Qed.

Lemma same_but_slots_refl s : same_but_slots s s.
Proof. by split_and!. Qed.

(** What [Poll] does to a state for some events. *)
Definition polled (s : state S) (hit : nat → Prop) (s' : state S) : Prop :=
  inv s' ∧ same_but_slots s s' ∧ (∀ f, f ∈ queue (sch s') ↔ f ∈ queue (sch s) ∨ hit f) ∧
  ∀ d x' read f, descs s' !! d = Some x' → get_slot read x' = Some f →
    ∃ x, descs s !! d = Some x ∧ get_slot read x = Some f.

(** A slot is only emptied when its fiber is unparked. *)
Definition emptied (s s' : state S) : Prop :=
  ∀ d x read f, descs s !! d = Some x → get_slot read x = Some f →
    f ∈ queue (sch s') ∨ ∃ x', descs s' !! d = Some x' ∧ get_slot read x' = Some f.

Lemma wake_if read (b : bool) d s x :
  inv s → descs s !! d = Some x →
  ∃ s' x', (if b then wake read d s else Ok s) = Ok s' ∧ polled s (λ f, b = true ∧ get_slot read x = Some f) s' ∧
    emptied s s' ∧ descs s' !! d = Some x' ∧ get_slot (negb read) x' = get_slot (negb read) x.
Proof.
  intros Hi Hd. destruct b.
  - destruct (wake_inv read d s x Hi Hd) as (s'&->&Hi'&Hsame&Hq&Hds). exists s', (set_slot read None x).
    rewrite Hds, lookup_insert_eq, get_set_other. split_and!; try done; [|].
    + split_and!; try done; [intros f; rewrite Hq; naive_solver|]. intros e x' rd f. rewrite Hds.
      destruct (decide (e = d)) as [->|Hne]; [|rewrite lookup_insert_ne by done; eauto]. rewrite lookup_insert_eq.
      intros [= <-] Hg. exists x. split; [done|]. destruct rd, read; cbn in *; congruence.
    + intros e y rd f Hy Hg. rewrite Hq, Hds. destruct (decide (e = d)) as [->|Hne]; [|right; rewrite lookup_insert_ne by done; eauto].
      rewrite Hd in Hy. injection Hy as <-. rewrite lookup_insert_eq. destruct rd, read; cbn in *; eauto.
  - exists s, x. split_and!; try done; [|].
    + split_and!; try done; [set_solver|eauto].
    + intros e y rd f ??. eauto.
Qed.

Lemma poll_event_ok d m s x :
  inv s → descs s !! d = Some x → ∃ s', Poll_event (d, m) s = Ok s' ∧ polled s (concerns m x) s' ∧ emptied s s'.
Proof.
  intros Hi Hd. unfold Poll_event. cbn [fst snd].
  destruct (wake_if true (readable m) d s x Hi Hd) as (s1&x1&->&(Hi1&Hf1&Hq1&Hb1)&He1&Hd1&Hx1). cbn [bindO].
  destruct (wake_if false (writable m) d s1 x1 Hi1 Hd1) as (s2&x2&->&(Hi2&Hf2&Hq2&Hb2)&He2&Hd2&Hx2).
  exists s2. split; [done|]. cbn in Hx1. split; [split_and!; [done|by eapply same_but_slots_trans| |]|].
  - intros f. rewrite Hq2, Hq1. cbn. rewrite Hx1. unfold concerns. naive_solver.
  - intros e y rd f Hy Hg. destruct (Hb2 e y rd f Hy Hg) as (y1&Hy1&Hg1). by eapply Hb1.
  - intros e y rd f Hy Hg. destruct (He1 e y rd f Hy Hg) as [?|(y1&Hy1&Hg1)]; [|by eapply He2].
    left. apply Hq2. by left.
Qed.

Lemma poll_loop_ok events s :
  inv s → (∀ d m, (d, m) ∈ events → is_Some (descs s !! d)) →
  ∃ s', forO Poll_event events s = Ok s' ∧ polled s (matched s events) s'.
Proof.
  revert s. induction events as [|[d m] events IH]; intros s Hi Hev.
  - exists s. split; [done|]. split_and!; [done|apply same_but_slots_refl| |eauto].
    intros f. split; [auto|]. intros [?|(d&m&x&Hin&_)]; [done|]. by apply elem_of_nil in Hin.
  - destruct (Hev d m) as [x Hd]; [left|]. destruct (poll_event_ok d m s x Hi Hd) as (s1&Hs1&(Hi1&Hf1&Hq1&Hb1)&He1).
    destruct (IH s1 Hi1) as (s2&Hs2&Hi2&Hf2&Hq2&Hb2).
    { intros e n He. apply elem_of_dom. destruct Hf1 as (_&_&_&_&->). apply elem_of_dom. apply (Hev e n). by right. }
    exists s2. cbn [forO]. rewrite Hs1. cbn [bindO]. split; [done|].
    split_and!; [done|by eapply same_but_slots_trans| |intros e y rd f Hy Hg; destruct (Hb2 e y rd f Hy Hg) as (y1&?&?); by eapply Hb1].
    intros f. rewrite Hq2, Hq1. split.
    + intros [[?|Hc]|(e&n&y&He&Hy&Hc)]; [by left|right; exists d, m, x; split; [left|done]|].
      right. destruct Hc as [[Hr Hg]|[Hr Hg]].
      * destruct (Hb1 e y true f Hy Hg) as (y1&?&?). exists e, n, y1. split; [by right|]. split; [done|by left].
      * destruct (Hb1 e y false f Hy Hg) as (y1&?&?). exists e, n, y1. split; [by right|]. split; [done|by right].
    + intros [?|(e&n&y&[[= -> ->]|He]%elem_of_cons&Hy&Hc)]; [by left; left| |].
      { rewrite Hd in Hy. injection Hy as <-. by left; right. }
      destruct Hc as [[Hr Hg]|[Hr Hg]].
      * destruct (He1 e y true f Hy Hg) as [Hq|(y1&?&?)]; [left; by apply Hq1|]. right. exists e, n, y1. split_and!; [done|done|by left].
      * destruct (He1 e y false f Hy Hg) as [Hq|(y1&?&?)]; [left; by apply Hq1|]. right. exists e, n, y1. split_and!; [done|done|by right].
Qed.

(** *** The operations *)

(** The slots after an operation that lets no fiber into them. *)
Lemma slots_change s s' :
  slots s → waits s' = waits s → goes_on s (sch s') (λ _, False) → emptied s s' →
  (∀ d x' rd f, descs s' !! d = Some x' → get_slot rd x' = Some f →
    (∃ x, descs s !! d = Some x ∧ get_slot rd x = Some f) ∧
    ∀ w, watchers s !! w = Some (Some d) → watchers s' !! w = Some (Some d)) →
  (∀ f x, waits s !! f = Some x → watchers s' !! on x = watchers s !! on x ∨
    watchers s' !! on x = Some None ∧ f ∈ queue (sch s')) →
  slots s'.
Proof.
  intros [Hs Ha Hw Ho] Hwt Hgo He Hback Hon.
  assert (∀ f x, waits s !! f = Some x → f ∈ queue (sch s) → f ∈ queue (sch s')) as Hq
    by (intros f x Hf; destruct (Hgo f x Hf) as [_ Hqf]; [by intros []|exact Hqf]).
  split; rewrite ?Hwt; [| | |done].
  - intros d x' rd f Hd Hg. destruct (Hback d x' rd f Hd Hg) as ((x&Hx&Hgx)&Hkeep). destruct (Hs d x rd f Hx Hgx) as (w&?&?). eauto.
  - intros f x Hf. destruct (Hgo f x Hf) as [Hal _]; [by intros []|done].
  - intros f x Hf. specialize (Hw f x Hf). destruct (Hon f x Hf) as [->|[-> ?]]; [|done].
    destruct (watchers s !! on x) as [[d|]|]; [|by eapply Hq|done]. destruct Hw as [? [(y&Hy&Hg)|?]]; (split; [done|]); [|right; by eapply Hq].
    destruct (He _ _ _ _ Hy Hg) as [?|?]; [by right|by left].
Qed.

(** A descriptor that no watcher has is in nobody's way. *)
Lemma slots_unowned s d x rd :
  slots s → (∀ w, watchers s !! w ≠ Some (Some d)) → descs s !! d = Some x → get_slot rd x = None.
Proof.
  intros Hs Hn Hd. destruct (get_slot rd x) as [f|] eqn:Hg; [|done].
  destruct (s_slot _ Hs _ _ _ _ Hd Hg) as (w&_&Hw). by apply Hn in Hw.
Qed.

Lemma grows_goes_on s sc : slots s → grows (sch s) sc → goes_on s sc (λ _, False).
Proof. intros Hs [Hal Hq] f x Hf _. split; [eapply Hal, s_alive; done|apply Hq]. Qed.

(** The states that [NewDesc] gives: [d] is in no list, and its slots are empty. *)
Lemma new_desc_ok address s :
  inv s → descs s !! address = None →
  ∃ d x o m l, NewDesc address s = Ok (d, set_descs (<[d := x]> m) (set_free o s)) ∧
    reader x = None ∧ writer x = None ∧ next x = o ∧ m !! d = None ∧ pool m o (interest s) (watchers s) l ∧
    (∀ e y, m !! e = Some y → descs s !! e = Some y) ∧
    (∀ e y rd f, descs s !! e = Some y → get_slot rd y = Some f → m !! e = Some y).
Proof.
  intros [[l Hp] Hs] Ha. unfold NewDesc. destruct (free_list_ s) as [d|] eqn:Hf.
  - destruct (pool_take _ _ _ _ _ Hp) as (x&l'&->&Hd&Hp').
    assert (∀ rd, get_slot rd x = None) as Hx.
    { intros rd. eapply slots_unowned; [done| |done]. intros w Hw. destruct (p_owned _ _ _ _ _ Hp w d Hw) as [Hn _]. apply Hn. left. }
    unfold deref. rewrite Hd. cbn [bindO]. exists d, x, (next x), (delete d (descs s)), l'.
    rewrite insert_delete_id by done. split_and!; [by destruct s|apply (Hx true)|apply (Hx false)|done|apply lookup_delete_eq|done| |].
    + by intros e y [_ ?]%lookup_delete_Some.
    + intros e y rd f He Hg. rewrite lookup_delete_ne; [done|]. intros ->. rewrite Hd in He. injection He as <-. by rewrite Hx in Hg.
  - exists address, (mkDesc (-1) None None None), None, (descs s), l. split_and!; try done. destruct s. cbn in *. by subst.
Qed.

Lemma init_ok w n ok address s :
  inv s → watchers s !! w = None → (ok = true → interest s !! n = None) → descs s !! address = None →
  ∃ s', Init w n ok address s = Ok s' ∧ inv s'.
Proof.
  intros Hi Hw Hn Ha. destruct (new_desc_ok address s Hi Ha) as (d&x&o&m&l&Hnew&Hrd&Hwr&Hnx&Hd&Hp&Hm&Hkeep).
  destruct Hi as [_ Hs]. unfold Init. rewrite Hnew. cbn [bindO]. unfold deref at 1. cbn [descs set_descs]. rewrite lookup_insert_eq. cbn [bindO].
  assert (∀ e y rd f z, z = mkDesc (fd z) None None (next z) → <[d := z]> m !! e = Some y → get_slot rd y = Some f → descs s !! e = Some y) as Hold.
  { intros e y rd f z Hz He Hg. destruct (decide (e = d)) as [->|Hne].
    - rewrite lookup_insert_eq in He. injection He as <-. rewrite Hz in Hg. by destruct rd.
    - rewrite lookup_insert_ne in He by done. by apply Hm. }
  assert (∀ e y rd f z, descs s !! e = Some y → get_slot rd y = Some f → <[d := z]> m !! e = Some y) as Hnew'.
  { intros e y rd f z He Hg. pose proof (Hkeep e y rd f He Hg). rewrite lookup_insert_ne; [done|]. intros ->. congruence. }
  assert (set_fd n x = mkDesc n None None o) as Hsx by (unfold set_fd; by rewrite Hrd, Hwr, Hnx).
  rewrite (upd_insert _ _ _ x) by (cbn; by rewrite lookup_insert_eq). rewrite Hsx. cbn [descs set_descs]. rewrite insert_insert_eq.
  destruct ok.
  - eexists. split; [done|]. split; [exists l|].
    + apply (pool_own m d o (interest s) (watchers s) l (mkDesc n None None o) w); try done. by apply Hn.
    + apply (slots_change s); [done|done|by apply grows_goes_on|intros e y rd f He Hg; right; cbn; eauto| |].
      * intros e y rd f He Hg. cbn in He. pose proof (Hold e y rd f _ eq_refl He Hg) as Hy. split; [eauto|].
        intros v Hv. cbn. rewrite lookup_insert_ne; [done|]. intros ->. congruence.
      * intros f y Hf. left. cbn. apply lookup_insert_ne. intros Heq. pose proof (s_wait _ Hs f y Hf) as Hx. by rewrite <- Heq, Hw in Hx.
  - rewrite (upd_insert _ _ _ (mkDesc n None None o)) by (cbn; by rewrite lookup_insert_eq). cbn [descs set_descs set_fd reader writer next].
    rewrite insert_insert_eq. unfold FreeDesc, deref. cbn [descs set_descs]. rewrite lookup_insert_eq. cbn [bindO].
    rewrite (upd_insert _ _ _ (mkDesc (-1) None None o)) by (cbn; by rewrite lookup_insert_eq). cbn [descs set_descs set_next free_list_ set_free fd reader writer].
    rewrite insert_insert_eq. eexists. split; [done|]. split; [exists (d :: l); by apply (pool_give m d o)|].
    apply (slots_change s); [done|done|by apply grows_goes_on|intros e y rd f He Hg; right; cbn; eauto| |intros; by left].
    intros e y rd f He Hg. cbn in He. pose proof (Hold e y rd f _ eq_refl He Hg). split; [eauto|done].
Qed.

Lemma owned_desc s w d :
  inv s → watchers s !! w = Some (Some d) → ∃ x, descs s !! d = Some x ∧ interest s !! fd x = Some d.
Proof. intros [[l Hp] _] Hw. by destruct (p_owned _ _ _ _ _ Hp w d Hw) as [_ ?]. Qed.

Lemma owner_unique s w w' d : inv s → watchers s !! w = Some (Some d) → watchers s !! w' = Some (Some d) → w = w'.
Proof. intros [[l Hp] _]. eapply p_unique, Hp. Qed.

(** The fiber in a slot of a watcher's descriptor waits for that watcher. *)
Lemma slot_waits s w d x rd f :
  inv s → watchers s !! w = Some (Some d) → descs s !! d = Some x → get_slot rd x = Some f →
  waits s !! f = Some {| on := w; for_read := rd; slot := d |}.
Proof.
  intros Hi Hw Hd Hg. destruct (s_slot _ (proj2 Hi) _ _ _ _ Hd Hg) as (w'&Hf&Hw').
  by rewrite (owner_unique s w w' d Hi Hw Hw').
Qed.

Lemma wait_ok w read f throws s :
  inv s → allowed (OpWait w read f throws) s → ∃ s', Wait w read f throws s = Ok s' ∧ inv s'.
Proof.
  intros Hi ([d Hw]&Hf&Hal&Hone). destruct (owned_desc s w d Hi Hw) as (x&Hd&_). unfold Wait. rewrite Hw. unfold deref. rewrite Hd. cbn [bindO].
  destruct (get_slot read x) as [g|] eqn:Hg.
  { pose proof (slot_waits s w d x read g Hi Hw Hd Hg) as Hwg. by destruct (Hone g _ Hwg). }
  rewrite (upd_insert _ _ _ x) by done. destruct throws.
  - unfold Wait_cleanup. cbn [on slot for_read watchers set_descs]. rewrite Hw. unfold deref. cbn [descs set_descs]. rewrite lookup_insert_eq. cbn [bindO].
    exists s. split; [|done]. f_equal. rewrite (upd_insert _ _ _ (set_slot read (Some f) x)) by (cbn; by rewrite lookup_insert_eq).
    cbn [descs set_descs]. rewrite insert_insert_eq.
    assert (set_slot read None (set_slot read (Some f) x) = x) as -> by (destruct read, x; cbn in *; congruence).
    rewrite insert_id by done. by destruct s.
  - destruct Hi as [[l Hp] [Hs Ha Hwt Ho]]. eexists. split; [done|]. split; [exists l; by apply pool_slot|].
    assert (∀ e y rd g, e ≠ d ∨ rd ≠ read → <[d := set_slot read (Some f) x]> (descs s) !! e = Some y →
      get_slot rd y = Some g → ∃ y', descs s !! e = Some y' ∧ get_slot rd y' = Some g) as Hback.
    { intros e y rd g Hne He Hgy. destruct (decide (e = d)) as [->|]; [|rewrite lookup_insert_ne in He by done; eauto].
      rewrite lookup_insert_eq in He. injection He as <-. exists x. split; [done|]. destruct rd, read, Hne; cbn in *; congruence. }
    split; cbn.
    + intros e y rd g He Hgy. destruct (decide (e = d ∧ rd = read)) as [[-> ->]|Hne].
      * rewrite lookup_insert_eq in He. injection He as <-. rewrite get_set in Hgy. injection Hgy as <-. exists w. by rewrite lookup_insert_eq.
      * destruct (Hback e y rd g) as (y'&He'&Hgy'); [destruct (decide (e = d)); [right|by left]; naive_solver|done|done|].
        destruct (Hs e y' rd g He' Hgy') as (v&Hv&Hwv). exists v. rewrite lookup_insert_ne; [done|]. intros ->. congruence.
    + intros g y. destruct (decide (g = f)) as [->|Hgf]; [done|]. rewrite lookup_insert_ne by done. apply Ha.
    + intros g y. destruct (decide (g = f)) as [->|Hgf].
      * rewrite lookup_insert_eq. intros [= <-]. cbn. rewrite Hw. split; [done|]. left. exists (set_slot read (Some f) x). cbn.
        rewrite lookup_insert_eq. split; [done|]. apply get_set.
      * rewrite lookup_insert_ne by done. intros Hgy. specialize (Hwt g y Hgy). destruct (watchers s !! on y) as [[e|]|]; try done.
        destruct Hwt as [Hsl [(z&Hz&Hgz)|?]]; (split; [done|]); [left|by right].
        destruct (decide (slot y = d)) as [Hsd|Hsd].
        -- exists (set_slot read (Some f) x). cbn. rewrite Hsd, lookup_insert_eq. split; [done|]. rewrite Hsd, Hd in Hz. injection Hz as <-.
           destruct (for_read y), read; cbn in *; congruence.
        -- exists z. cbn. by rewrite lookup_insert_ne.
    + intros g h y z Hgy Hhz Hon Hr. destruct (decide (g = f)) as [->|], (decide (h = f)) as [->|]; [done| | |];
        rewrite ?lookup_insert_eq in *; rewrite ?lookup_insert_ne in * by done; simplify_eq; cbn in *.
      * by destruct (Hone h z Hhz).
      * by destruct (Hone g y Hgy).
      * by eapply Ho.
Qed.

(** The fiber [f] leaves [Wait]: its slot is empty, unless the watcher was reset. *)
(** The check of [Wait]. *)
Lemma wait_aborts w d x read f throws s :
  watchers s !! w = Some (Some d) → descs s !! d = Some x → Wait w read f throws s = Fail Abort ↔ is_Some (get_slot read x).
Proof.
  intros Hw Hx. unfold Wait. rewrite Hw. unfold deref at 1. rewrite Hx. cbn [bindO].
  destruct (get_slot read x) as [g|]; [split; [by eexists|done]|]. split; [|by intros []]. destruct throws; [|done].
  unfold Wait_cleanup. cbn [on slot upd set_descs watchers]. rewrite Hw. unfold deref. cbn [upd set_descs descs].
  rewrite lookup_alter_eq, Hx. done.
Qed.

Lemma slots_leave s f x sc m :
  slots s → waits s !! f = Some x → goes_on s sc (λ g, g = f) →
  (∀ e y rd g, m !! e = Some y → get_slot rd y = Some g → g ≠ f ∧ ∃ y', descs s !! e = Some y' ∧ get_slot rd y' = Some g) →
  (∀ e y rd g, descs s !! e = Some y → get_slot rd y = Some g → g ≠ f → ∃ y', m !! e = Some y' ∧ get_slot rd y' = Some g) →
  slots (set_descs m (set_waits (delete f (waits s)) (set_sch sc s))).
Proof.
  intros [Hs Ha Hwt Ho] Hf Hgo Hback Hto. split; cbn.
  - intros e y rd g He Hg. destruct (Hback e y rd g He Hg) as (Hgf&y'&He'&Hg'). destruct (Hs e y' rd g He' Hg') as (w&Hw&?).
    exists w. by rewrite lookup_delete_ne.
  - intros g y [Hne Hgy]%lookup_delete_Some. by apply (Hgo g y).
  - intros g y [Hne Hgy]%lookup_delete_Some. specialize (Hwt g y Hgy). destruct (Hgo g y Hgy) as [_ Hq]; [done|].
    destruct (watchers s !! on y) as [[d|]|]; [|by apply Hq|done]. destruct Hwt as [? [(z&Hz&Hgz)|?]]; (split; [done|]); [left|right; by apply Hq].
    by apply (Hto _ z).
  - intros g h y z [_ Hgy]%lookup_delete_Some [_ Hhz]%lookup_delete_Some. by eapply Ho.
Qed.

Lemma wait_resume_ok f sc s :
  inv s → allowed (OpResume f sc) s →
  ∃ s' closed, Wait_end f (set_sch sc s) = Ok (s', closed) ∧ inv s' ∧ waits s' !! f = None ∧
    (∀ x, waits s !! f = Some x → watchers s !! on x = Some None ↔ closed = true).
Proof.
  intros Hi [[x Hf] Hgo]. pose proof (proj2 Hi) as Hs. pose proof (s_wait _ Hs f x Hf) as Hx.
  unfold Wait_end. cbn [waits set_sch]. rewrite Hf. unfold Wait_cleanup. cbn [watchers set_waits set_sch].
  destruct (watchers s !! on x) as [[d|]|] eqn:Hw; [| |done].
  - destruct Hx as [Hsl _]. destruct (owned_desc s (on x) d Hi Hw) as (y&Hd&_).
    unfold deref. cbn [descs set_waits set_sch]. rewrite Hsl, Hd. cbn [bindO]. rewrite (upd_insert _ _ _ y) by done.
    cbn [bindO watchers set_descs set_waits set_sch]. rewrite Hw. eexists _, _. split; [done|]. split; [|split; [apply lookup_delete_eq|]].
    2:{ intros ? [= <-]. rewrite Hw. by split. }
    split; [destruct Hi as [[l Hp] _]; exists l; by apply pool_slot|]. apply (slots_leave _ _ x); [done|done|done| |].
    + intros e z rd g He Hg. destruct (decide (e = d)) as [->|Hne].
      * cbn in He. rewrite lookup_insert_eq in He. injection He as <-. destruct (decide (rd = for_read x)) as [->|Hrd].
        { by rewrite get_set in Hg. }
        assert (get_slot rd y = Some g) as Hgy by (destruct rd, (for_read x); cbn in *; congruence).
        split; [|eauto]. intros ->. pose proof (slot_waits _ _ _ _ _ _ Hi Hw Hd Hgy) as Hfx. rewrite Hf in Hfx. injection Hfx as Hfx. by rewrite Hfx in Hrd.
      * cbn in He. rewrite lookup_insert_ne in He by done. split; [|eauto]. intros ->.
        destruct (s_slot _ Hs _ _ _ _ He Hg) as (w&Hw'&_). rewrite Hf in Hw'. injection Hw' as Hw'. by rewrite Hw' in Hsl.
    + intros e z rd g He Hg Hgf. cbn. destruct (decide (e = d)) as [->|Hne]; [|rewrite lookup_insert_ne by done; eauto].
      rewrite lookup_insert_eq. eexists. split; [done|]. rewrite Hd in He. injection He as ->.
      destruct (decide (rd = for_read x)) as [->|Hrd]; [|destruct rd, (for_read x); cbn in *; congruence].
      pose proof (slot_waits _ _ _ _ _ _ Hi Hw Hd Hg) as Hgx. destruct Hgf. by eapply (s_one _ Hs g f).
  - cbn [bindO watchers set_waits set_sch]. rewrite Hw. eexists _, _. split; [done|]. split; [|split; [apply lookup_delete_eq|]].
    2:{ intros ? [= <-]. rewrite Hw. by split. }
    split; [destruct Hi as [Hp _]; exact Hp|].
    assert (set_waits (delete f (waits s)) (set_sch sc s) = set_descs (descs s) (set_waits (delete f (waits s)) (set_sch sc s))) as -> by done.
    apply (slots_leave _ _ x); [done|done|done| |eauto]. intros e y rd g He Hg. split; [|eauto]. intros ->.
    destruct (s_slot _ Hs _ _ _ _ He Hg) as (w&Hw'&Hwo). rewrite Hf in Hw'. injection Hw' as Hw'. rewrite Hw' in Hw. cbn in Hw. congruence.
Qed.

Lemma reset_ok w s :
  inv s → allowed (OpReset w) s →
  ∃ s', Reset w s = Ok s' ∧ inv s' ∧ watchers s' !! w = Some None ∧
    ∀ f x, waits s !! f = Some x → on x = w → f ∈ queue (sch s').
Proof.
  intros Hi [d Hw]. destruct (owned_desc s w d Hi Hw) as (x&Hd&Hix). pose proof (proj2 Hi) as Hs.
  unfold Reset. rewrite Hw. unfold deref at 1. rewrite Hd. cbn [bindO]. rewrite Hix.
  set (s0 := upd d (set_fd (-1)) (set_interest (delete (fd x) (interest s)) s)).
  assert (descs s0 !! d = Some (set_fd (-1) x)) as Hd0 by (cbn; by rewrite lookup_alter_eq, Hd).
  destruct (wake_spec false d s0 _ Hd0) as (sc1&->&Hal1&Hq1); [intros f Hg; by eapply (slot_alive s d x false)|]. cbn [bindO].
  set (s1 := upd d (set_slot false None) (set_sch sc1 s0)).
  assert (descs s1 !! d = Some (mkDesc (-1) (reader x) None (next x))) as Hd1 by (unfold s1; cbn [descs upd set_descs set_sch]; by rewrite lookup_alter_eq, Hd0).
  destruct (wake_spec true d s1 _ Hd1) as (sc2&->&Hal2&Hq2); [intros f Hg; apply Hal1; by eapply (slot_alive s d x true)|]. cbn [bindO].
  set (s2 := upd d (set_slot true None) (set_sch sc2 s1)).
  assert (descs s2 !! d = Some (mkDesc (-1) None None (next x))) as Hd2 by (unfold s2; cbn [descs upd set_descs set_sch]; by rewrite lookup_alter_eq, Hd1).
  unfold FreeDesc, deref. rewrite Hd2. cbn [bindO]. rewrite (upd_insert _ _ _ _ Hd2).
  assert (∀ f, f ∈ queue sc2 ↔ f ∈ queue (sch s) ∨ writer x = Some f ∨ reader x = Some f) as Hq.
  { intros f. rewrite Hq2. cbn [sch upd set_descs s1 set_sch]. rewrite Hq1. cbn. naive_solver. }
  assert (∀ rd f, get_slot rd x = Some f → f ∈ queue sc2) as Hslot by (intros [] f Hg; apply Hq; cbn in Hg; auto).
  assert (∀ f y, waits s !! f = Some y → on y = w → f ∈ queue sc2) as Hwoken.
  { intros f y Hf Hon. pose proof (s_wait _ Hs f y Hf) as Hy. rewrite Hon, Hw in Hy. destruct Hy as [Hsl [(z&Hz&Hg)|?]]; [|apply Hq; by left].
    rewrite Hsl, Hd in Hz. injection Hz as <-. by eapply Hslot. }
  assert (<[d := set_next (free_list_ s) (mkDesc (-1) None None (next x))]> (descs s2) =
    <[d := mkDesc (-1) None None (free_list_ s)]> (delete d (descs s))) as Hm.
  { apply map_eq. intros e. destruct (decide (e = d)) as [->|Hne]; [by rewrite !lookup_insert_eq|].
    rewrite !lookup_insert_ne, lookup_delete_ne by done. cbn. by rewrite !lookup_alter_ne by done. }
  cbn [free_list_ s2 s1 s0 upd set_descs set_sch set_interest] in *. rewrite Hm. eexists. split; [done|].
  split; [|split; [apply lookup_insert_eq|done]]. split.
  - destruct Hi as [[l Hp] _]. exists (d :: l). cbn. eapply pool_give; [by apply (pool_release _ _ _ _ _ _ x w)|apply lookup_delete_eq|done].
  - apply (slots_change s); cbn; [done|done|apply grows_goes_on; [done|split; [intros; by apply Hal2, Hal1|intros; apply Hq; by left]]| | |].
    + intros e y rd f He Hg. cbn. destruct (decide (e = d)) as [->|Hne].
      * left. rewrite Hd in He. injection He as <-. by eapply Hslot.
      * right. exists y. by rewrite lookup_insert_ne, lookup_delete_ne.
    + intros e y rd f He Hg. destruct (decide (e = d)) as [->|Hne].
      { rewrite lookup_insert_eq in He. injection He as <-. by destruct rd. }
      rewrite lookup_insert_ne, lookup_delete_ne in He by done. split; [eauto|]. intros v Hv. rewrite lookup_insert_ne; [done|].
      intros ->. congruence.
    + intros f y Hf. destruct (decide (on y = w)) as [Hon|Hon]; [right; rewrite Hon, lookup_insert_eq; eauto|left; by rewrite lookup_insert_ne].
Qed.

Lemma pool_same_owners m o i ws ws' l :
  pool m o i ws l → (∀ w d, ws' !! w = Some (Some d) ↔ ws !! w = Some (Some d)) → pool m o i ws' l.
Proof.
  intros [Hc Hn Ho Hu Hi Ha] Hws. split; [done|done| | | |].
  - intros w d Hw. by apply (Ho w), Hws.
  - intros w w' d Hw Hw'. by apply (Hu w w' d); apply Hws.
  - intros n d Hnd. destruct (Hi n d Hnd) as (x&w&?&?&?). exists x, w. by rewrite Hws.
  - intros d Hd. destruct (Ha d Hd) as [?|(w&Hw)]; [by left|]. right. exists w. by apply Hws.
Qed.

Lemma poller_exec_ok o s : inv s → allowed o s → ∃ s', exec o s = Ok s' ∧ inv s'.
Proof.
  intros Hi Ho. destruct o as [w n ok a|w rd f t|f sc|w|r|w|sc]; cbn [exec].
  - destruct Ho as (?&?&?). by apply init_ok.
  - by apply wait_ok.
  - destruct (wait_resume_ok f sc s Hi Ho) as (s'&c&->&?&_). by exists s'.
  - destruct (reset_ok w s Hi Ho) as (s'&?&?&_). by exists s'.
  - destruct r as [| |events]; [by exists s|done|]. destruct (poll_loop_ok events s Hi) as (s'&?&?&_); [|by exists s'].
    intros d m Hin. destruct (Ho d m Hin) as [n Hn]. destruct Hi as [[l Hp] _]. destruct (p_interest _ _ _ _ _ Hp n d Hn) as (x&_&?&_). eauto.
  - destruct Ho as [Hw Hnw]. unfold destroy. rewrite Hw. eexists. split; [done|]. destruct Hi as [[l Hp] Hs]. split.
    + exists l. eapply pool_same_owners; [done|]. intros v d. cbn. rewrite lookup_delete_Some. split; [tauto|].
      intros Hv. split; [|done]. intros ->. congruence.
    + apply (slots_change s); [done|done|by apply grows_goes_on|intros e x rd f ??; right; eauto| |].
      * intros e x rd f He Hg. split; [eauto|]. intros v Hv. cbn. rewrite lookup_delete_ne; [done|]. intros ->. congruence.
      * intros f x Hf. left. cbn. apply lookup_delete_ne. intros Heq. by apply (Hnw f x Hf).
  - exists (set_sch sc s). split; [done|]. split; [apply Hi|].
    apply (slots_change s); [apply Hi|done|done|intros e x rd f ??; right; eauto|eauto|eauto].
Qed.

Lemma destroy_loop_ok fuel s l :
  pool (descs s) (free_list_ s) (interest s) (watchers s) l → (∀ w d, watchers s !! w ≠ Some (Some d)) → size (descs s) < fuel →
  ∃ s', destroy_loop fuel s = Ok s' ∧ descs s' = ∅.
Proof.
  revert s l. induction fuel as [|fuel IH]; intros s l Hp Hw Hf; [lia|]. cbn [destroy_loop].
  destruct (free_list_ s) as [d|] eqn:Hfl.
  - destruct (pool_take _ _ _ _ _ Hp) as (x&l'&->&Hd&Hp'). unfold deref. rewrite Hd. cbn [bindO]. apply (IH _ l'); [done|done|].
    cbn. rewrite map_size_delete_Some by done. assert (size (descs s) ≠ 0) by (intros He; apply map_size_empty_inv in He; by rewrite He in Hd). lia.
  - exists s. split; [done|]. apply map_eq. intros d. rewrite lookup_empty. destruct (descs s !! d) as [x|] eqn:Hd; [|done].
    pose proof (p_chain _ _ _ _ _ Hp) as Hc. inversion Hc; subst.
    destruct (p_all _ _ _ _ _ Hp d) as [Hin|(w&Hwd)]; [by eexists|by apply elem_of_nil in Hin|by apply Hw in Hwd].
Qed.

Lemma poller_reachable_inv s : reachable init step s → inv s.
Proof.
  revert s. apply (invariant_reachable init step).
  - intros s (Hd&Hf&Hi&Hw&Hwt). split; [exists []; split|split]; rewrite ?Hd, ?Hf, ?Hi, ?Hw, ?Hwt; try (by constructor);
      intros *; rewrite ?lookup_empty; done || by intros [].
  - intros s s' Hi (o&Ho&He). destruct (poller_exec_ok o s Hi Ho) as (s1&He1&?). by rewrite He in He1; injection He1 as ->.
Qed.

End Steps.

(** ** The scheduler of Fibers.v *)

(** A fiber that can be unparked: it was not deleted and has not ended. *)
Definition unparkable (s : sched) (f : nat) : Prop :=
  ∃ x, fibers s !! f = Some x ∧ deleted x = false ∧ state_ x ≠ Dead.

#[global, program] Instance fibers_scheduler : Scheduler sched := {|
  Unpark := Fibers.Unpark; queue := run_queue_; alive := unparkable;
|}.
Next Obligation.
  intros f s (x&Hx&Hdel&Hst). unfold Fibers.Unpark, Fibers.deref. rewrite Hx, Hdel. cbn [bindO].
  assert (∀ A (a b : A), match state_ x with Dead => a | _ => b end = b) as Hm by (intros; by destruct (state_ x)).
  rewrite Hm. case_decide; eexists; (split; [done|]); done.
Qed.


(** A fiber of Fibers.v that waits to read from the descriptor 7. *)
Module Demo.

Definition s0 : state sched := mkState ∅ None ∅ ∅ ∅ (Fibers.make 0 0).
Definition s1 : state sched := mkState {[ 5 := mkDesc 7 None None None ]} None {[ 7%Z := 5 ]} {[ 1 := Some 5 ]} ∅ (Fibers.make 0 0).
Definition s2 : state sched :=
  mkState {[ 5 := mkDesc 7 (Some 0) None None ]} None {[ 7%Z := 5 ]} {[ 1 := Some 5 ]}
    {[ 0 := {| on := 1; for_read := true; slot := 5 |} ]} (Fibers.make 0 0).

Lemma s2_reachable : reachable init step s2.
Proof.
  eapply reachable_step; [eapply reachable_step; [by apply (reachable_init _ _ s0)|]|].
  - exists (OpInit 1 7 true 5). split; [done|]. instantiate (1 := s1). by vm_compute.
  - exists (OpWait 1 true 0 false). split; [|by vm_compute]. split_and!; [by exists 5|done|by eexists|]. intros g x Hg. cbn in Hg. by rewrite lookup_empty in Hg.
Qed.


(** A second fiber waits on the same watcher after the first was unparked and before it goes
    on: the first then clears the slot of the second, which nobody is going to unpark. *)
Lemma second_waiter_forgotten (sc : sched) :
  ∃ s, (s <-? Poll (Events [(5, EPOLLIN)]) s2 ;; s <-? Wait 1 true 9 false s ;; r <-? Wait_end 0 (set_sch sc s) ;; Ok r.1) = Ok s ∧
    waits s !! 9 = Some {| on := 1; for_read := true; slot := 5 |} ∧ (reader <$> descs s !! 5) = Some None ∧ sch s = sc.
Proof. eexists. split_and!; vm_compute; reflexivity. Qed.

End Demo.
