(* ===== verification/RwCounter.v ===== *)
(** * The counter for many writers (rw-counter/rw_counter.h)

    [GetIncrementer], [Increment] and [GetValue] of any number of threads, one access to the
    shared memory at a time.  [emplace_back] lasts from the step that takes the mutex to the
    one that releases it.  [GetValue] reads the vector without the mutex: a read while another
    thread is in [emplace_back], which may move the elements, is undefined.

    This is the only step that fails.  A value that [GetValue] returns is between the number of
    increments that were complete when it was called and their number when it returns, unless a
    thread is between the release of the mutex and the end of [GetIncrementer]: then increments
    can be missed. *)

From S2P Require Import Prelude.

#[local] Set Warnings "-clear-no-such-hyp".

(** ** The program *)

(** [mutex_] is true while a thread has it. *)
Record shared : Type := { counters_ : list Z; mutex_ : bool; threads_cnt_ : nat }.

(** The sum of all counters. *)
Definition total (l : list Z) : Z := foldr Z.add 0%Z l.

(** A thread has the last [Incrementer] that it got, by the index of its counter; [Pushing]: in
    [emplace_back], with the mutex; [Pushed]: before [threads_cnt_ += 1]; [Reading]: in the loop
    of [GetValue], with the sum of the counters at its call. *)
Inductive thread : Type :=
| Idle (own : option nat)
| Pushing
| Pushed (k : nat)
| Reading (own : option nat) (i : nat) (res : Z) (start : Z).

(** The next call of a thread. *)
Inductive call : Type := GetIncrementer | Increment | GetValue.

(** A thread that waits for the mutex stays where it is. *)
Definition thread_step (a : call) (t : thread) (s : shared) : outcome (thread * shared) :=
  match t with
  | Idle own =>
      match a, own with
      | GetIncrementer, _ =>
          if mutex_ s then Ok (t, s)
          else Ok (Pushing, {| counters_ := counters_ s; mutex_ := true; threads_cnt_ := threads_cnt_ s |})
      | Increment, Some k =>
          match counters_ s !! k with
          | Some c =>
              Ok (Idle own, {| counters_ := <[k := s64 (c + 1)]> (counters_ s); mutex_ := mutex_ s; threads_cnt_ := threads_cnt_ s |})
          | None => Fail UB
          end
      | Increment, None => Ok (t, s)
      | GetValue, _ => Ok (Reading own 0 0 (total (counters_ s)), s)
      end
  | Pushing =>
      Ok (Pushed (length (counters_ s)),
          {| counters_ := counters_ s ++ [0%Z]; mutex_ := false; threads_cnt_ := threads_cnt_ s |})
  | Pushed k => Ok (Idle (Some k), {| counters_ := counters_ s; mutex_ := mutex_ s; threads_cnt_ := S (threads_cnt_ s) |})
  | Reading own i res start =>
      if i <? threads_cnt_ s then
        if mutex_ s then Fail UB else
        match counters_ s !! i with
        | Some c => res <-? checked64 (res + c) ;; Ok (Reading own (S i) res start, s)
        | None => Fail UB
        end
      else Ok (Idle own, s)
  end.

Record config : Type := { sh : shared; threads : list thread }.

(** There are fewer than [2 ^ 63] increments. *)
Definition allowed (a : call) (s : shared) : Prop := a = Increment → (total (counters_ s) + 1 < 2 ^ 63)%Z.

Inductive step : config → config → Prop :=
| Step c i t a t' s' :
    threads c !! i = Some t → allowed a (sh c) → thread_step a t (sh c) = Ok (t', s') →
    step c {| sh := s'; threads := <[i := t']> (threads c) |}.

Definition init (c : config) : Prop :=
  sh c = {| counters_ := []; mutex_ := false; threads_cnt_ := 0 |} ∧ Forall (λ t, t = Idle None) (threads c).

(** ** The invariant *)

Definition is_pushed (t : thread) : bool := match t with Pushed _ => true | _ => false end.
Definition is_pushing (t : thread) : bool := match t with Pushing => true | _ => false end.

(** The thread is about to read an element of the vector while another is in [emplace_back]. *)
Definition races (t : thread) (s : shared) : bool :=
  match t with Reading _ i _ _ => (i <? threads_cnt_ s) && mutex_ s | _ => false end.

Definition owned (s : shared) (own : option nat) : Prop :=
  match own with Some k => k < length (counters_ s) | None => True end.

Definition thread_ok (s : shared) (t : thread) : Prop :=
  match t with
  | Idle own => owned s own
  | Pushing => True
  | Pushed k => k < length (counters_ s)
  | Reading own i res start =>
      owned s own ∧ i ≤ threads_cnt_ s ∧ (0 <= res <= total (take i (counters_ s)))%Z ∧
      (start <= res + total (drop i (counters_ s)))%Z
  end.

Record inv (c : config) : Prop := {
  i_count : threads_cnt_ (sh c) + count is_pushed (threads c) = length (counters_ (sh c));
  i_mutex : count is_pushing (threads c) = Nat.b2n (mutex_ (sh c));
  i_pos : Forall (λ x, (0 <= x)%Z) (counters_ (sh c));
  i_total : (total (counters_ (sh c)) < 2 ^ 63)%Z;
  i_threads : ∀ i t, threads c !! i = Some t → thread_ok (sh c) t;
}.

(** ** Sums *)

Lemma total_cons x l : total (x :: l) = (x + total l)%Z.
Proof. done. Qed.

Lemma total_app l k : total (l ++ k) = (total l + total k)%Z.
Proof. induction l as [|x l IH]; [done|]. cbn [app]. rewrite !total_cons, IH. lia. Qed.

Lemma total_split i l : total l = (total (take i l) + total (drop i l))%Z.
Proof. by rewrite <- total_app, take_drop. Qed.

Lemma total_pos l : Forall (λ x, (0 <= x)%Z) l → (0 <= total l)%Z.
Proof. induction 1 as [|x l Hx _ IH]; [done|]. rewrite total_cons. lia. Qed.

Lemma total_step l i c :
  l !! i = Some c → total (take (S i) l) = (total (take i l) + c)%Z ∧ total (drop i l) = (c + total (drop (S i) l))%Z.
Proof. intros Hi. rewrite (take_S_r _ _ _ Hi), total_app, (drop_S _ _ _ Hi), !total_cons. cbn [total foldr]. lia. Qed.

(** An increment is seen in the part of the sum where it happens. *)
Lemma sum_insert l k c i :
  l !! k = Some c →
  total (<[k := (c + 1)%Z]> l) = (total l + 1)%Z ∧
  (total (take i l) <= total (take i (<[k := (c + 1)%Z]> l)))%Z ∧ (total (drop i l) <= total (drop i (<[k := (c + 1)%Z]> l)))%Z.
Proof.
  revert k i. induction l as [|x l IH]; intros k i Hk; [done|]. destruct k as [|k]; cbn in Hk.
  - injection Hk as ->. cbn [insert list_insert]. destruct i as [|i]; cbn [take drop firstn skipn]; rewrite !total_cons; lia.
  - destruct (IH k (pred i) Hk) as (H1&H2&H3). change (<[S k := (c + 1)%Z]> (x :: l)) with (x :: <[k := (c + 1)%Z]> l).
    destruct i as [|i]; cbn [take drop firstn skipn pred] in *; rewrite ?total_cons; lia.
Qed.

(** ** Proofs *)

#[local] Arguments total : simpl never.
#[local] Arguments count : simpl never.

Lemma swrap_id x : (0 <= x < 2 ^ 63)%Z → s64 x = x.
Proof. intros Hx. apply swrap_small; lia. Qed.

(** The invariant after a step of thread [i]. *)
Lemma inv_after c i t t' s' :
  inv c → threads c !! i = Some t →
  threads_cnt_ s' + Nat.b2n (is_pushed t') + length (counters_ (sh c)) =
    threads_cnt_ (sh c) + Nat.b2n (is_pushed t) + length (counters_ s') →
  Nat.b2n (mutex_ (sh c)) + Nat.b2n (is_pushing t') = Nat.b2n (mutex_ s') + Nat.b2n (is_pushing t) →
  Forall (λ x, (0 <= x)%Z) (counters_ s') → (total (counters_ s') < 2 ^ 63)%Z → thread_ok s' t' →
  (∀ t0, thread_ok (sh c) t0 → thread_ok s' t0) → inv {| sh := s'; threads := <[i := t']> (threads c) |}.
Proof.
  intros [Hc Hm Hp Ht Hth] Hi H1 H2 Hp' Ht' Hok Hall. pose proof (count_insert is_pushed _ _ _ t' Hi).
  pose proof (count_insert is_pushing _ _ _ t' Hi). split; cbn [sh threads]; [lia|lia|done|done|].
  intros j t0 [[-> ->]|[_ Hj]]%insert_inv; [done|]. by apply Hall, (Hth j).
Qed.

(** Pushing a counter and counting it leave the readers as they are. *)
Lemma thread_ok_push cs m m' n t :
  n ≤ length cs →
  thread_ok {| counters_ := cs; mutex_ := m; threads_cnt_ := n |} t →
  thread_ok {| counters_ := cs ++ [0%Z]; mutex_ := m'; threads_cnt_ := n |} t.
Proof.
  intros Hn. destruct t as [own| |k|own i res start]; cbn; unfold owned; cbn; rewrite ?length_app; try done.
  - destruct own; cbn; lia.
  - cbn. lia.
  - intros (Ho&Hj&Hr&Hs). split_and!; [destruct own; cbn; lia|done| | |]; rewrite ?take_app_le, ?drop_app_le by lia; [lia|lia|].
    rewrite total_app. change (total [0%Z]) with 0%Z. lia.
Qed.

Lemma thread_ok_increment cs m n k x t :
  cs !! k = Some x →
  thread_ok {| counters_ := cs; mutex_ := m; threads_cnt_ := n |} t →
  thread_ok {| counters_ := <[k := (x + 1)%Z]> cs; mutex_ := m; threads_cnt_ := n |} t.
Proof.
  intros Hx. destruct t as [own| |k'|own i res start]; cbn; unfold owned; cbn; rewrite ?length_insert; try done.
  intros (Ho&Hj&Hr&Hs). destruct (sum_insert cs k x i Hx) as (_&?&?). split_and!; try done; lia.
Qed.

Lemma thread_ok_mono cs m m' n n' t :
  n ≤ n' → thread_ok {| counters_ := cs; mutex_ := m; threads_cnt_ := n |} t →
  thread_ok {| counters_ := cs; mutex_ := m'; threads_cnt_ := n' |} t.
Proof. intros Hn. destruct t as [own| |k|own i res start]; cbn; try done. intros (?&?&?&?). split_and!; try done; lia. Qed.

(** A counter is at most the sum. *)
Lemma counter_le cs k x : Forall (λ x, (0 <= x)%Z) cs → cs !! k = Some x → (0 <= x <= total cs)%Z.
Proof.
  intros Hp Hx. split; [by eapply (proj1 (Forall_lookup _ _) Hp)|]. rewrite (total_split k cs). destruct (total_step cs k x Hx) as [_ ->].
  pose proof (total_pos (take k cs) ltac:(by apply Forall_take)). pose proof (total_pos (drop (S k) cs) ltac:(by apply Forall_drop)). lia.
Qed.

Lemma counter_step_ok c i t a :
  inv c → threads c !! i = Some t → allowed a (sh c) →
  if races t (sh c) then thread_step a t (sh c) = Fail UB else
  ∃ t' s', thread_step a t (sh c) = Ok (t', s') ∧ inv {| sh := s'; threads := <[i := t']> (threads c) |}.
Proof.
  intros Hinv Hi Ha. pose proof Hinv as [Hc Hm Hp Ht Hth]. pose proof (Hth i t Hi) as Hok. pose proof (inv_after c i t) as Haft.
  destruct c as [[cs m n] ths]. cbn in *. specialize (λ t' s', Haft t' s' Hinv Hi). destruct t as [own| |k|own j res start]; cbn [races thread_step counters_ threads_cnt_ mutex_].
  - destruct a.
    + destruct m; eexists _, _; (split; [done|]); by apply Haft.
    + destruct own as [k|]; [|eexists _, _; split; [done|]; by apply Haft].
      destruct (lookup_lt_is_Some_2 cs k Hok) as [x Hx]. rewrite Hx. eexists _, _. split; [done|]. specialize (Ha eq_refl). cbn in Ha.
      pose proof (counter_le cs k x Hp Hx). rewrite swrap_id by lia. destruct (sum_insert cs k x 0 Hx) as [Hsum _].
      apply Haft; cbn; rewrite ?length_insert; try done; [apply Forall_insert; [done|lia]|lia|]. intros t0. by apply thread_ok_increment.
    + eexists _, _. split; [done|]. apply Haft; cbn; try done. rewrite take_0, drop_0. change (total []) with 0%Z. split_and!; [done|lia|lia|lia|lia].
  - assert (m = true) as -> by (pose proof (count_lookup is_pushing _ _ _ Hi eq_refl); destruct m; [done|cbn in Hm; lia]).
    eexists _, _. split; [done|]. apply Haft; cbn; rewrite ?length_app, ?total_app; cbn; try lia.
    + apply Forall_app. split; [done|]. by repeat constructor.
    + change (total [0%Z]) with 0%Z. lia.
    + intros t0. apply thread_ok_push. lia.
  - eexists _, _. split; [done|]. apply Haft; cbn; try done; [lia|]. intros t0. apply thread_ok_mono. lia.
  - destruct Hok as (Ho&Hj&Hr&Hs). cbn in Hj, Hr, Hs. destruct (Nat.ltb_spec j n) as [Hlt|Hge]; cbn [andb].
    + destruct m; [done|]. destruct (lookup_lt_is_Some_2 cs j) as [x Hx]; [lia|]. rewrite Hx. destruct (total_step cs j x Hx) as [H1 H2].
      pose proof (counter_le cs j x Hp Hx). pose proof (total_split (S j) cs). pose proof (total_pos (drop (S j) cs) ltac:(by apply Forall_drop)).
      rewrite checked64_ok by lia. cbn [bindO]. eexists _, _. split; [done|]. apply Haft; cbn; try done. split_and!; [done|lia|lia|lia|lia].
    + eexists _, _. split; [done|]. by apply Haft.
Qed.

Lemma reachable_counter c : reachable init step c → inv c.
Proof.
  revert c. apply invariant_reachable.
  - intros c [Hs Hf]. assert (∀ t, t ∈ threads c → t = Idle None) as Hall by (by apply Forall_forall).
    split; rewrite Hs; cbn; [|..|intros i t Hi%list_elem_of_lookup_2; by rewrite (Hall t Hi)]; try done; apply count_none; intros t Ht; by rewrite (Hall t Ht).
  - intros c c' Hi Hst. destruct Hst as [c0 i t a t' s' Ht Ha Hs]. pose proof (counter_step_ok c0 i t a Hi Ht Ha) as H. destruct (races t (sh c0)); [congruence|].
    destruct H as (t1&s1&Hs1&?). rewrite Hs in Hs1. by injection Hs1 as -> ->.
Qed.

(** C37 Whatever the interleaving: the mutex is held exactly while one thread is in
    [emplace_back]; a step fails exactly when [GetValue] reads an element of the vector then,
    which is undefined, so that otherwise no index is out of range and no sum overflows; a value
    that [GetValue] returns counts no increment that has not happened, and if no thread is just
    between the release of the mutex and [threads_cnt_ += 1] it counts every increment that was
    complete when [GetValue] was called. *)
Theorem rw_counter_correct (c : config) :
  reachable init step c →
  count is_pushing (threads c) = Nat.b2n (mutex_ (sh c)) ∧
  (∀ i t a, threads c !! i = Some t → allowed a (sh c) →
    if races t (sh c) then thread_step a t (sh c) = Fail UB else ∃ r, thread_step a t (sh c) = Ok r) ∧
  (∀ j own i res start, threads c !! j = Some (Reading own i res start) → threads_cnt_ (sh c) ≤ i →
    (res <= total (counters_ (sh c)))%Z ∧ (Forall (λ t, is_pushed t = false) (threads c) → (start <= res)%Z)).
Proof.
  intros Hi%reachable_counter. split_and!; [apply Hi| |].
  - intros i t a Ht Ha. pose proof (counter_step_ok c i t a Hi Ht Ha) as H. destruct (races t (sh c)); [done|].
    destruct H as (t'&s'&?&_). eauto.
  - intros j own i res start Hj Hn. destruct Hi as [Hc _ Hp Ht Hth]. destruct (Hth j _ Hj) as (_&Hle&Hr&Hs). split.
    + rewrite (total_split i (counters_ (sh c))). pose proof (total_pos (drop i (counters_ (sh c))) ltac:(by apply Forall_drop)). lia.
    + intros Hnone. assert (count is_pushed (threads c) = 0) as H0 by (apply count_none; intros t Hin; by apply (proj1 (Forall_forall _ _) Hnone)).
      rewrite drop_ge in Hs by lia. change (total []) with 0%Z in Hs. lia.
Qed.

(** ** Runs *)

(** A run of the model: which thread makes which call next. *)
Fixpoint play (moves : list (nat * call)) (c : config) : option config :=
  match moves with
  | [] => Some c
  | (i, a) :: moves =>
      match threads c !! i with
      | Some t => match thread_step a t (sh c) with
                  | Ok (t', s') => play moves {| sh := s'; threads := <[i := t']> (threads c) |}
                  | Fail _ => None
                  end
      | None => None
      end
  end.

Lemma play_reachable moves c c' :
  reachable init step c → (total (counters_ (sh c)) + Z.of_nat (length moves) < 2 ^ 63)%Z → play moves c = Some c' → reachable init step c'.
Proof.
  revert c. induction moves as [|[i a] moves IH]; intros c Hc Hn; cbn [play]; [by intros [= <-]|].
  destruct (threads c !! i) as [t|] eqn:Et; [|done]. destruct (thread_step a t (sh c)) as [[t' s']|] eqn:Es; [|done].
  cbn [length] in Hn. assert (allowed a (sh c)) as Ha by (intros _; lia). apply IH.
  - eapply reachable_step; [exact Hc|]. by apply (Step c i t a).
  - cbn [sh]. pose proof (reachable_counter c Hc) as [_ _ Hp _ Hth].
    assert (total (counters_ s') <= total (counters_ (sh c)) + 1)%Z; [|lia].
    destruct t as [own| |k|own j res start]; cbn [thread_step] in Es; [|injection Es as <- <-..|].
    + destruct a; [by destruct (mutex_ (sh c)); injection Es as <- <-; cbn; lia| |injection Es as <- <-; lia].
      destruct own as [k|]; [|injection Es as <- <-; lia]. destruct (counters_ (sh c) !! k) as [x|] eqn:Ex; [|done]. injection Es as <- <-. cbn.
      pose proof (counter_le _ _ _ Hp Ex). rewrite swrap_id by lia. destruct (sum_insert _ _ _ 0 Ex) as [-> _]. lia.
    + cbn. rewrite total_app. change (total [0%Z]) with 0%Z. lia.
    + cbn. lia.
    + destruct (j <? threads_cnt_ (sh c)); [|injection Es as <- <-; lia]. destruct (mutex_ (sh c)); [done|]. destruct (counters_ (sh c) !! j); [|done].
      destruct (checked64 _); cbn in Es; [|done]. injection Es as <- <-. lia.
Qed.

Module Runs.

Definition idle : config := {| sh := {| counters_ := []; mutex_ := false; threads_cnt_ := 0 |}; threads := [Idle None; Idle None] |}.

Lemma rw_run_reachable moves c : (length moves <? 100) = true → play moves idle = Some c → reachable init step c.
Proof.
  intros Hl%Nat.ltb_lt. apply play_reachable; [apply reachable_init; split; [done|by repeat constructor]|]. change (total (counters_ (sh idle))) with 0%Z. lia.
Qed.

(** The counter 0 of a first thread is registered but not yet counted; a second thread gets the
    counter 1, increments it, and reads the value 0. *)
Definition missing : list (nat * call) :=
  [(0, GetIncrementer); (0, GetIncrementer); (1, GetIncrementer); (1, GetIncrementer); (1, GetIncrementer); (1, Increment); (1, GetValue); (1, GetValue)].

Lemma increment_missed :
  ∃ c, reachable init step c ∧ threads c !! 1 = Some (Reading (Some 1) 1 0 1) ∧
    thread_step GetValue (Reading (Some 1) 1 0 1) (sh c) = Ok (Idle (Some 1), sh c).
Proof.
  destruct (play missing idle) as [c|] eqn:E; [|discriminate]. exists c. split; [by eapply (rw_run_reachable missing)|].
  vm_compute in E. injection E as <-. done.
Qed.

(** Two increments, and a value that counts both; then the other thread registers while the
    first reads again. *)
Definition counting : list (nat * call) :=
  [(0, GetIncrementer); (0, GetIncrementer); (0, GetIncrementer); (0, Increment); (0, Increment); (0, GetValue); (0, GetValue)].
Definition racing : list (nat * call) := counting ++ [(0, GetValue); (0, GetValue); (1, GetIncrementer)].

Lemma rw_counter_correct_witness :
  (∃ c res, play counting idle = Some c ∧ threads c !! 0 = Some (Reading (Some 0) 1 res 2) ∧ (2 <= res <= 2)%Z) ∧
  (∃ c t, play racing idle = Some c ∧ threads c !! 0 = Some t ∧ thread_step GetValue t (sh c) = Fail UB).
Proof.
  split.
  - destruct (play counting idle) as [c|] eqn:E; [|discriminate].
    destruct (rw_counter_correct c) as (_&_&H); [eapply (rw_run_reachable counting); [reflexivity|exact E]|].
    vm_compute in E. injection E as <-. eexists _, 2%Z. split; [reflexivity|]. split; [reflexivity|].
    destruct (H 0 (Some 0) 1 2%Z 2%Z eq_refl) as [Hu Hl]; [cbn; lia|]. split; [apply Hl; repeat constructor|exact Hu].
  - destruct (play racing idle) as [c|] eqn:E; [|discriminate].
    destruct (rw_counter_correct c) as (_&H&_); [eapply (rw_run_reachable racing); [reflexivity|exact E]|].
    vm_compute in E. injection E as <-. eexists _, (Reading (Some 0) 0 0 2). split; [reflexivity|]. split; [reflexivity|].
    apply (H 0 (Reading (Some 0) 0 0 2) GetValue); [reflexivity|discriminate].
Defined.

End Runs.
