(* ===== verification/TimerQueue.v ===== *)
(** * The queue of timers (timerqueue/timerqueue.h)

    [Add] and [Pop].  Both work under the mutex, so a call is a sequence of atomic sections:
    [Add] is one; [Pop] has one that computes the deadline, and one for each time that
    [wait_until] wakes up, by a notification, for no reason, or because the deadline has
    passed.  The map is the list of its pairs in the order of their times.

    For one thread that pops, a [Pop] that found an element returns the earliest one, and not
    before its time.  What happens otherwise is shown by examples: a [Pop] of an empty queue
    has no element to return after ten seconds, or returns one before its time. *)

From S2P Require Import Prelude.
From stdpp Require Import sorting.

#[local] Set Warnings "-clear-no-such-hyp".

Section Queue.
Context {T : Type}.

(** [queue_.emplace]: an element whose time is taken is dropped. *)
Fixpoint emplace (at_ : Z) (v : T) (q : list (Z * T)) : list (Z * T) :=
  match q with
  | [] => [(at_, v)]
  | (t, x) :: q' =>
      if (at_ <? t)%Z then (at_, v) :: q
      else if (at_ =? t)%Z then q
      else (t, x) :: emplace at_ v q'
  end.

(** The state of a thread that pops; [was_empty]: the queue was empty at the call. *)
Inductive popper : Type := Idle | Sleeping (deadline : Z) (was_empty : bool).

Record config : Type := { clock : Z; queue_ : list (Z * T); poppers : list popper }.

Definition Add (at_ : Z) (v : T) (c : config) : config :=
  {| clock := clock c; queue_ := emplace at_ v (queue_ c); poppers := poppers c |}.

(** The predicate of [wait_until]. *)
Definition due (now : Z) (q : list (Z * T)) : bool :=
  match q with [] => false | (t, _) :: _ => (t <=? now)%Z end.

(** The element at [begin()] is returned and erased. *)
Definition take_first (q : list (Z * T)) : outcome (popper * list (Z * T) * option (Z * T)) :=
  match q with [] => Fail UB | e :: q => Ok (Idle, q, Some e) end.

Definition ten_seconds : Z := 10000000000.

(** A section of [Pop]; [timeout]: [wait_until] has found that the deadline has passed. *)
Definition Pop_section (timeout : bool) (now : Z) (p : popper) (q : list (Z * T))
    : outcome (popper * list (Z * T) * option (Z * T)) :=
  match p with
  | Idle =>
      let deadline := match q with [] => (now + ten_seconds)%Z | (t, _) :: _ => t end in
      if due now q then take_first q else Ok (Sleeping deadline (match q with [] => true | _ => false end), q, None)
  | Sleeping deadline _ =>
      if timeout then take_first q
      else if due now q then take_first q else Ok (p, q, None)
  end.

(** A time-out is reported when the deadline has passed. *)
Definition may (timeout : bool) (now : Z) (p : popper) : Prop :=
  match p with Idle => timeout = false | Sleeping deadline _ => timeout = true → (deadline <= now)%Z end.

Inductive step : config → config → Prop :=
| step_tick c t : (clock c <= t)%Z → step c {| clock := t; queue_ := queue_ c; poppers := poppers c |}
| step_add c at_ v : step c (Add at_ v c)
| step_pop c i p timeout p' q' r :
    poppers c !! i = Some p → may timeout (clock c) p → Pop_section timeout (clock c) p (queue_ c) = Ok (p', q', r) →
    step c {| clock := clock c; queue_ := q'; poppers := <[i := p']> (poppers c) |}.

(** One thread pops. *)
Definition init (c : config) : Prop := queue_ c = [] ∧ poppers c = [Idle].

(** ** The map *)

Definition sorted (q : list (Z * T)) : Prop := StronglySorted Z.lt q.*1.

Lemma emplace_times at_ v q t : t ∈ (emplace at_ v q).*1 ↔ t = at_ ∨ t ∈ q.*1.
Proof.
  induction q as [|[u x] q IH]; cbn; [set_solver|]. destruct (Z.ltb_spec at_ u); cbn; [set_solver|].
  destruct (Z.eqb_spec at_ u) as [->|]; cbn; set_solver.
Qed.

Lemma emplace_sorted at_ v q : sorted q → sorted (emplace at_ v q).
Proof.
  unfold sorted. induction q as [|[u x] q IH]; cbn; intros Hs; [by repeat constructor|].
  apply StronglySorted_inv in Hs as [Hs Hu]. destruct (Z.ltb_spec at_ u) as [Hlt|Hge]; cbn.
  - constructor; [by constructor|]. constructor; [done|]. eapply Forall_impl; [done|]. cbn. lia.
  - destruct (Z.eqb_spec at_ u) as [->|Hne]; cbn; [by constructor|]. constructor; [by apply IH|]. apply Forall_forall.
    intros t [->|Ht]%emplace_times; [lia|]. by apply (proj1 (Forall_forall _ _) Hu).
Qed.

(** An element with a new time is added, and one whose time is taken is not. *)
Lemma emplace_new at_ v q : at_ ∉ q.*1 → emplace at_ v q ≡ₚ (at_, v) :: q.
Proof.
  induction q as [|[u x] q IH]; cbn; [done|]. intros Hn. destruct (Z.ltb_spec at_ u); [done|].
  destruct (Z.eqb_spec at_ u) as [->|]; [set_solver|]. rewrite IH by set_solver. constructor.
Qed.

Lemma emplace_taken at_ v q : sorted q → at_ ∈ q.*1 → emplace at_ v q = q.
Proof.
  unfold sorted. induction q as [|[u x] q IH]; cbn; [set_solver|]. intros [Hs Hu]%StronglySorted_inv Hin.
  destruct (Z.ltb_spec at_ u).
  - apply elem_of_cons in Hin as [->|Hin]; [lia|]. apply (proj1 (Forall_forall _ _) Hu) in Hin. lia.
  - destruct (Z.eqb_spec at_ u) as [->|]; [done|]. f_equal. apply IH; [done|set_solver].
Qed.

(** The first time does not grow when an element is added. *)
Definition first_by (q : list (Z * T)) (d : Z) : Prop := match q with [] => False | (t, _) :: _ => (t <= d)%Z end.

Lemma emplace_first at_ v q d : first_by q d → first_by (emplace at_ v q) d.
Proof.
  destruct q as [|[u x] q]; cbn; [done|]. intros Hu. destruct (Z.ltb_spec at_ u); cbn; [lia|]. by destruct (Z.eqb_spec at_ u).
Qed.

(** ** The invariant *)

Definition popper_ok (q : list (Z * T)) (p : popper) : Prop :=
  match p with Sleeping d false => first_by q d | _ => True end.

Record inv (c : config) : Prop := {
  i_sorted : sorted (queue_ c);
  i_one : ∃ p, poppers c = [p] ∧ popper_ok (queue_ c) p;
}.

(** What a section of [Pop] gives. *)
Lemma pop_section_ok timeout now p q :
  sorted q → popper_ok q p → may timeout now p →
  (∀ d, p = Sleeping d true → timeout = true → q ≠ []) →
  ∃ p' q' r, Pop_section timeout now p q = Ok (p', q', r) ∧ sorted q' ∧ popper_ok q' p' ∧
    match r with Some e => q = e :: q' ∧ Forall (λ t, (e.1 < t)%Z) q'.*1 | None => q' = q ∧ due now q = false end ∧
    (∀ t v, r = Some (t, v) → (now < t)%Z → ∃ d, p = Sleeping d true ∧ timeout = true).
Proof.
  intros Hs Hp Hm He.
  assert (∀ e q0, q = e :: q0 → sorted q0 ∧ Forall (λ t, (e.1 < t)%Z) q0.*1) as Hfst.
  { intros e q0 ->. unfold sorted in Hs. cbn in Hs. by apply StronglySorted_inv in Hs. }
  destruct p as [|d we]; cbn in *.
  - destruct q as [|[t v] q]; cbn.
    + eexists _, _, None. by split_and!.
    + destruct (Hfst (t, v) q eq_refl) as [Hs0 Hlt]. destruct (Z.leb_spec t now) as [Hle|Hgt].
      * eexists _, _, (Some _). split_and!; try done. intros ? ? [= <- <-] ?. lia.
      * eexists _, _, None. split_and!; try done; cbn; lia || by apply Z.leb_gt.
  - assert (∀ e q0, q = e :: q0 → timeout = true ∨ due now q = true → (timeout = true → we = false → (e.1 <= d)%Z) →
      ∃ p' q' r, take_first q = Ok (p', q', r) ∧ sorted q' ∧ popper_ok q' p' ∧
        match r with Some e => q = e :: q' ∧ Forall (λ t, (e.1 < t)%Z) q'.*1 | None => q' = q ∧ due now q = false end ∧
        (∀ t v, r = Some (t, v) → (now < t)%Z → ∃ d', Sleeping d we = Sleeping d' true ∧ timeout = true)) as Htake.
    { intros [t v] q0 -> Hor Hd. destruct (Hfst (t, v) q0 eq_refl) as [Hs0 Hlt]. eexists _, _, (Some _). split_and!; try done.
      intros ? ? [= <- <-] Hnow. destruct timeout; [|destruct Hor as [?|Hdue]; [done|]; cbn in Hdue; apply Z.leb_le in Hdue; lia].
      destruct we; [by exists d|]. cbn in Hd. specialize (Hd eq_refl eq_refl). specialize (Hm eq_refl). lia. }
    destruct timeout.
    + destruct q as [|[t v] q].
      * destruct we; [|done]. by destruct (He d).
      * apply (Htake (t, v) q); [done|by left|]. intros _ ->. done.
    + destruct (due now q) eqn:Hdue.
      * destruct q as [|[t v] q]; [done|]. apply (Htake (t, v) q); [done|by right|done].
      * eexists _, _, None. by split_and!.
Qed.

Lemma reachable_timers c : reachable init step c → inv c.
Proof.
  revert c. apply (invariant_reachable init step).
  - intros c [Hq Hp]. split; rewrite Hq, ?Hp; [constructor|by exists Idle].
  - intros c c' [Hs (p&Hp&Hok)] Hst. destruct Hst as [c t Ht|c at_ v|c i p0 timeout p' q' r Hi Hm He].
    + by split; [|exists p].
    + split; cbn; [by apply emplace_sorted|]. exists p. split; [done|]. destruct p as [|d []]; cbn in *; try done. by apply emplace_first.
    + rewrite Hp in Hi. apply list_lookup_singleton_Some in Hi as [-> <-].
      destruct (pop_section_ok timeout (clock c) p (queue_ c) Hs Hok Hm) as (p1&q1&r1&He1&Hs1&Hok1&_).
      { intros d -> -> Hnil. rewrite Hnil in He. done. }
      rewrite He in He1. injection He1 as -> -> ->. split; cbn; [done|]. exists p1. by rewrite Hp.
Qed.

End Queue.
Arguments config : clear implicits.

(** With one thread that pops, in every reachable state: a [Pop] that found the queue not
    empty when it was called, or that was woken before its deadline, never runs into an empty
    map; if it returns, it returns the earliest element, whose time has come, and takes
    nothing else out; if it sleeps on, no element is due.  [Add] adds its element, unless one
    with the same time is there: then the queue is unchanged. *)
Theorem timer_queue_correct {T : Type} (c : config T) :
  reachable init step c →
  (∃ p, poppers c = [p] ∧
    ∀ timeout, may timeout (clock c) p → (∀ d, p = Sleeping d true → timeout = false) →
      ∃ p' q' r, Pop_section timeout (clock c) p (queue_ c) = Ok (p', q', r) ∧
        match r with
        | Some (t, v) => queue_ c = (t, v) :: q' ∧ (t <= clock c)%Z ∧ Forall (λ u, (t < u)%Z) q'.*1
        | None => q' = queue_ c ∧ due (clock c) (queue_ c) = false
        end) ∧
  (∀ at_ v, sorted (queue_ (Add at_ v c)) ∧
    (at_ ∉ (queue_ c).*1 → queue_ (Add at_ v c) ≡ₚ (at_, v) :: queue_ c) ∧
    (at_ ∈ (queue_ c).*1 → queue_ (Add at_ v c) = queue_ c)).
Proof.
  intros [Hs (p&Hp&Hok)]%reachable_timers. split.
  - exists p. split; [done|]. intros timeout Hm Hne.
    destruct (pop_section_ok timeout (clock c) p (queue_ c) Hs Hok Hm) as (p'&q'&r&He&_&_&Hr&Hearly).
    { intros d Hpd Ht. rewrite (Hne d Hpd) in Ht. done. }
    exists p', q', r. split; [done|]. destruct r as [[t v]|]; [|done]. destruct Hr as [-> Hf]. split_and!; [done| |done].
    destruct (Z.le_gt_cases t (clock c)) as [?|Hgt]; [done|]. destruct (Hearly t v eq_refl Hgt) as (d&Hpd&Ht). by rewrite (Hne d Hpd) in Ht.
  - intros at_ v. split_and!; [by apply emplace_sorted|apply emplace_new|by apply emplace_taken].
Qed.

(** ** What the readme does not ask for *)

Module Demo.

Definition start : config nat := {| clock := 0; queue_ := []; poppers := [Idle] |}.

(** A [Pop] of an empty queue, ten seconds later. *)
Definition waited : config nat := {| clock := ten_seconds; queue_ := []; poppers := [Sleeping ten_seconds true] |}.

Lemma waited_reachable : reachable init step waited.
Proof.
  eapply reachable_step; [eapply reachable_step; [by apply (reachable_init _ _ start)|]|].
  - by apply (step_pop start 0 Idle false (Sleeping ten_seconds true) [] None).
  - by apply (step_tick {| clock := 0; queue_ := []; poppers := [Sleeping ten_seconds true] |} ten_seconds).
Qed.

(** The readme asks that it waits for ever; it reads the first element of an empty map. *)
Lemma pop_empty_ub : may true (clock waited) (Sleeping ten_seconds true) ∧
  Pop_section true (clock waited) (Sleeping ten_seconds true) (queue_ waited) = Fail UB.
Proof. split; [cbn; lia|done]. Qed.

(** If an element for the next hour has come meanwhile, it is returned at once. *)
Lemma pop_early (v : nat) :
  Pop_section true ten_seconds (Sleeping ten_seconds true) [(3600 * ten_seconds, v)%Z] =
  Ok (Idle, [], Some (3600 * ten_seconds, v)%Z).
Proof. done. Qed.

Definition two : config nat := Add 5 8 (Add 7 9 start).

Lemma two_reachable : reachable init step two.
Proof. eapply reachable_step; [eapply reachable_step; [by apply (reachable_init _ _ start)|apply step_add]|apply step_add]. Qed.

Lemma timer_queue_correct_witness : ∃ p' q', Pop_section false (clock two) Idle (queue_ two) = Ok (p', q', None).
Proof.
  destruct (timer_queue_correct two two_reachable) as [(p&Hp&Hpop) _]. injection Hp as <-.
  destruct (Hpop false eq_refl) as (p'&q'&r&He&Hr); [done|]. exists p', q'. destruct r as [[t v]|]; [|exact He].
  vm_compute in He. discriminate He.
Defined.

End Demo.
