(* ===== verification/Rpc.v ===== *)
(** * Remote calls (tools/cactus/rpc: rpc.h and transport/rpc.cpp)

    [SimpleRpcChannel::CallMethod], [SimpleRpcServer::Register] and the body of [Serve], over
    any connection that keeps the promise of [IConn].  Messages, descriptors and their
    serialization come from the protobuf library and from generated code: [Protobuf] lists
    what is used of them, [ProtobufSpec] that parsing undoes serializing.

    On connections that do not break, the server answers every input but a request for a method
    that its service does not have, which is undefined behaviour; a call gives what the service
    returns for it. *)

From S2P Require Import Prelude Readers Writers Net Proxy.
Import Pod.

#[local] Set Warnings "-clear-no-such-hyp".

(** ** Messages *)

Record RequestHeader : Type := { service : bytes; method : bytes }.

(** [rpc_error().message()], if it is set. *)
Definition ResponseHeader : Type := option bytes.

(** [ParseInput] and [ParseOutput] parse into a new message of the types of a method.  The
    result of [ParseFromString] is only looked at for the header of a request. *)
Class Protobuf (Message Method : Type) := {
  SerializeRequestHeader : RequestHeader → bytes;
  ParseRequestHeader : bytes → option RequestHeader;
  SerializeResponseHeader : ResponseHeader → bytes;
  ParseResponseHeader : bytes → ResponseHeader;
  SerializeAsString : Message → bytes;
  ParseInput : Method → bytes → Message;
  ParseOutput : Method → bytes → Message;
}.

Class ProtobufSpec (Message Method : Type) `{!Protobuf Message Method} := {
  is_input : Method → Message → Prop;
  is_output : Method → Message → Prop;
  request_header_law : ∀ h, ParseRequestHeader (SerializeRequestHeader h) = Some h;
  response_header_law : ∀ h, ParseResponseHeader (SerializeResponseHeader h) = h;
  input_law : ∀ m x, is_input m x → ParseInput m (SerializeAsString x) = x;
  output_law : ∀ m x, is_output m x → ParseOutput m (SerializeAsString x) = x;
}.

Section Rpc.
Context {C Message Method : Type} `{!IConn C, !Protobuf Message Method}.

(** [IRpcService]: its descriptor, and [CallMethod]. *)
Record Service : Type := {
  full_name : bytes;
  FindMethodByName : bytes → option Method;
  CallService : Method → Message → outcome Message;
}.

(** ** The program *)

(** A [FixedHeader] of two sizes, as bytes, and back. *)
Definition fixed_header (header_size body_size : nat) : bytes :=
  bytes_of 4 (u32 (Z.of_nat header_size)) ++ bytes_of 4 (u32 (Z.of_nat body_size)).
Definition header_size (h : bytes) : nat := Z.to_nat (value_of (take 4 h)).
Definition body_size (h : bytes) : nat := Z.to_nat (value_of (drop 4 h)).

Inductive call_result : Type := Response (response : Message) | RpcCallError (error : string).

(** The [try] block of [CallMethod], once a connection was dialled. *)
Definition call_body (service_name method_name : bytes) (m : Method) (request : Message) : M C Message :=
  let serialized_request_header := SerializeRequestHeader {| service := service_name; method := method_name |} in
  let serialized_request_body := SerializeAsString request in
  Write (fixed_header (length serialized_request_header) (length serialized_request_body)) ;;;
  Write serialized_request_header ;;;
  Write serialized_request_body ;;;
  response_header <- ReadFull 8 ;;
  serialized_response_header <- ReadFull (header_size response_header) ;;
  match ParseResponseHeader serialized_response_header with
  | Some message => throwM (RuntimeError "RpcCallError")
  | None =>
      serialized_response_body <- ReadFull (body_size response_header) ;;
      retM (ParseOutput m serialized_response_body)
  end.

(** [CallMethod]: every exception becomes an [RpcCallError]. *)
Definition CallMethod (dial : outcome C) (service_name method_name : bytes) (m : Method) (request : Message)
    : outcome call_result * option C :=
  let catch (r : outcome Message) : outcome call_result :=
    match r with Ok x => Ok (Response x) | Fail (Exn _) => Ok (RpcCallError "Connection error") | Fail f => Fail f end in
  match dial with
  | Ok conn => let '(r, conn) := call_body service_name method_name m request conn in (catch r, Some conn)
  | Fail f => (catch (Fail f), None)
  end.

Definition Register (s : Service) (services_ : gmap bytes Service) : outcome (gmap bytes Service) :=
  match services_ !! full_name s with
  | Some _ => Fail (Exn (RuntimeError "Service already registered"))
  | None => Ok (<[full_name s := s]> services_)
  end.

(** The [try] block of [Serve]; the descriptor of a method that is not found is null. *)
Definition serve_body (services_ : gmap bytes Service) : M C () :=
  request_header <- ReadFull 8 ;;
  serialized_request_header <- ReadFull (header_size request_header) ;;
  match ParseRequestHeader serialized_request_header with
  | None => throwM (RuntimeError "invalid msg")
  | Some request_header_msg =>
      match services_ !! service request_header_msg with
      | None => throwM (OutOfRange "unordered_map::at")
      | Some s =>
          serialized_request_body <- ReadFull (body_size request_header) ;;
          match FindMethodByName s (method request_header_msg) with
          | None => failM UB
          | Some m =>
              response <- liftO (CallService s m (ParseInput m serialized_request_body)) ;;
              let serialized_response_header := SerializeResponseHeader None in
              let serialized_response_body := SerializeAsString response in
              Write (fixed_header (length serialized_response_header) (length serialized_response_body)) ;;;
              Write serialized_response_header ;;;
              Write serialized_response_body ;;;
              CloseWrite
          end
      end
  end.

(** The handler of [Serve]. *)
Definition serve_error : M C () :=
  let serialized_response_header := SerializeResponseHeader (Some (str "Server error")) in
  Write (fixed_header (length serialized_response_header) 0) ;;;
  Write serialized_response_header ;;;
  CloseWrite.

Definition serve_one (services_ : gmap bytes Service) : M C () := λ conn,
  match serve_body services_ conn with
  | (Fail (Exn _), conn) => serve_error conn
  | r => r
  end.

(** [Serve] on the connections that it accepts, in order. *)
Fixpoint Serve (services_ : gmap bytes Service) (accepted : list C) : outcome (list C) :=
  match accepted with
  | [] => Ok []
  | conn :: accepted =>
      match serve_one services_ conn with
      | (Ok _, conn) => rest <-? Serve services_ accepted ;; Ok (conn :: rest)
      | (Fail f, _) => Fail f
      end
  end.

(** ** The specification *)

(** A message with its header, as the protocol asks. *)
Definition frame (h b : bytes) : bytes := fixed_header (length h) (length b) ++ h ++ b.

Definition error_reply : bytes := frame (SerializeResponseHeader (Some (str "Server error"))) [].

(** The service, the name of the method and the body of a request. *)
Definition request_of (services_ : gmap bytes Service) (s : bytes) : option (Service * bytes * bytes) :=
  if decide (length s < 8) then None else
  let h := take 8 s in
  let s := drop 8 s in
  if decide (length s < header_size h) then None else
  rh ← ParseRequestHeader (take (header_size h) s);
  sv ← services_ !! service rh;
  let s := drop (header_size h) s in
  if decide (length s < body_size h) then None else Some (sv, method rh, take (body_size h) s).

(** The reply that the protocol asks for: the answer of the service, or an error if the
    request cannot be understood, names no service or no method of it, or the service throws. *)
Definition reply_to (services_ : gmap bytes Service) (s : bytes) : bytes :=
  match request_of services_ s with
  | None => error_reply
  | Some (sv, name, body) =>
      match FindMethodByName sv name with
      | None => error_reply
      | Some m =>
          match CallService sv m (ParseInput m body) with
          | Ok r => frame (SerializeResponseHeader None) (SerializeAsString r)
          | Fail _ => error_reply
          end
      end
  end.

(** The request names a service, but none of its methods. *)
Definition unknown_method (services_ : gmap bytes Service) (s : bytes) : bool :=
  match request_of services_ s with
  | Some (sv, name, _) => match FindMethodByName sv name with None => true | Some _ => false end
  | None => false
  end.

(** The services return or throw; they do not crash. *)
Definition services_safe (services_ : gmap bytes Service) : Prop :=
  ∀ name sv m x f, services_ !! name = Some sv → CallService sv m x = Fail f → ∃ e, f = Exn e.

(** What [serve_one] does on the input [s]: it dereferences the null descriptor of an unknown
    method. *)
Definition respond (services_ : gmap bytes Service) (s : bytes) : outcome bytes :=
  match request_of services_ s with
  | None => Ok error_reply
  | Some (sv, name, body) =>
      match FindMethodByName sv name with
      | None => Fail UB
      | Some m =>
          match CallService sv m (ParseInput m body) with
          | Ok r => Ok (frame (SerializeResponseHeader None) (SerializeAsString r))
          | Fail (Exn _) => Ok error_reply
          | Fail f => Fail f
          end
      end
  end.

End Rpc.
Arguments Service : clear implicits.
Arguments call_result : clear implicits.

(** ** Proofs *)

Section RpcFacts.
Context {C Message Method : Type} `{!IConn C, !ConnSpec C, !Protobuf Message Method, !ProtobufSpec Message Method}.
Context (services_ : gmap bytes (Service Message Method)).

(** A frame is read back as its two parts. *)
Lemma fixed_header_sizes h b :
  (Z.of_nat h < 2 ^ 32)%Z → (Z.of_nat b < 2 ^ 32)%Z →
  length (fixed_header h b) = 8 ∧ header_size (fixed_header h b) = h ∧ body_size (fixed_header h b) = b.
Proof.
  intros Hh Hb. unfold fixed_header, header_size, body_size. rewrite length_app, !bytes_of_length.
  rewrite take_app_exact, drop_app_exact by (by rewrite bytes_of_length).
  rewrite !uwrap_small by lia. rewrite !value_bytes by (cbn; lia). split_and!; [done|lia|lia].
Qed.

(** Three writes and the end of the stream. *)
Lemma rpc_reply_ok (a b d : bytes) (c : C) :
  conn_ok c → write_closed c = false →
  ∃ c', (Write a ;;; Write b ;;; Write d ;;; CloseWrite) c = (Ok (), c') ∧ conn_ok c' ∧ outgoing c' = outgoing c ++ a ++ b ++ d ∧ write_closed c' = true.
Proof.
  intros Hok Hw. destruct (conn_write a c Hok Hw) as (c1&H1&Hok1&_&Ho1&Hw1). destruct (conn_write b c1 Hok1 Hw1) as (c2&H2&Hok2&_&Ho2&Hw2).
  destruct (conn_write d c2 Hok2 Hw2) as (c3&H3&Hok3&_&Ho3&Hw3). destruct (conn_close_write c3 Hok3) as (c4&H4&Hok4&_&Ho4&Hw4).
  exists c4. mstep H1. mstep H2. mstep H3. split_and!; [done|done| |done]. rewrite Ho4, Ho3, Ho2, Ho1. by rewrite <- !app_assoc.
Qed.

Lemma error_ok (c : C) :
  conn_ok c → write_closed c = false →
  ∃ c', serve_error c = (Ok (), c') ∧ conn_ok c' ∧ outgoing c' = outgoing c ++ error_reply ∧ write_closed c' = true.
Proof.
  intros Hok Hw. unfold serve_error, error_reply, frame. cbv zeta. set (h := SerializeResponseHeader _).
  destruct (conn_write (fixed_header (length h) 0) c Hok Hw) as (c1&H1&Hok1&_&Ho1&Hw1). destruct (conn_write h c1 Hok1 Hw1) as (c2&H2&Hok2&_&Ho2&Hw2).
  destruct (conn_close_write c2 Hok2) as (c3&H3&Hok3&_&Ho3&Hw3).
  exists c3. mstep H1. mstep H2. split_and!; [done|done| |done]. rewrite Ho3, Ho2, Ho1, app_nil_r. by rewrite <- !app_assoc.
Qed.

(** What the [try] block of the server does. *)
Definition body_spec (c : C) (r : outcome ()) (c' : C) : Prop :=
  match request_of services_ (incoming c) with
  | None => ∃ e, r = Fail (Exn e) ∧ kept c c' (incoming c')
  | Some (sv, name, body) =>
      match FindMethodByName sv name with
      | None => r = Fail UB
      | Some m =>
          match CallService sv m (ParseInput m body) with
          | Ok x => r = Ok () ∧ conn_ok c' ∧ write_closed c' = true ∧
              outgoing c' = outgoing c ++ frame (SerializeResponseHeader None) (SerializeAsString x)
          | Fail f => r = Fail f ∧ kept c c' (incoming c')
          end
      end
  end.

Lemma kept_rest (c c' : C) rest : kept c c' rest → kept c c' (incoming c').
Proof. intros (?&?&?&?). by split_and!. Qed.

Lemma body_ok (c : C) :
  conn_ok c → write_closed c = false → ∃ r c', serve_body services_ c = (r, c') ∧ body_spec c r c'.
Proof.
  intros Hok Hw. unfold serve_body, body_spec, request_of.
  destruct (read_full_kept 8 c Hok) as [(Hl&c1&H1&K1)|(Hl&c1&H1&K1)].
  { eexists _, c1. rewrite (bindM_fail _ _ _ _ _ H1), decide_True by done. split; [done|]. eexists. split; [done|by eapply kept_rest]. }
  mstep H1. rewrite (decide_False (P := length _ < 8)) by lia. cbv zeta. set (h := take 8 (incoming c)). pose proof K1 as (Hok1&Hin1&Ho1&Hw1).
  destruct (read_full_kept (header_size h) c1 Hok1) as [(Hl2&c2&H2&K2)|(Hl2&c2&H2&K2)]; rewrite Hin1 in Hl2.
  { eexists _, c2. rewrite (bindM_fail _ _ _ _ _ H2), decide_True by done. split; [done|]. eexists. split; [done|].
    eapply kept_rest, kept_conn_trans; done. }
  mstep H2. rewrite Hin1 in *. rewrite (decide_False (P := length _ < header_size h)) by lia.
  assert (kept c c2 (incoming c2)) as K2' by (eapply kept_rest, kept_conn_trans; done). pose proof K2 as (Hok2&Hin2&Ho2&Hw2).
  destruct (ParseRequestHeader _) as [rh|]; cbn [mbind option_bind]; [|eexists _, c2; split; [done|]; by eexists].
  destruct (services_ !! service rh) as [sv|]; cbn [mbind option_bind]; [|eexists _, c2; split; [done|]; by eexists].
  destruct (read_full_kept (body_size h) c2 Hok2) as [(Hl3&c3&H3&K3)|(Hl3&c3&H3&K3)]; rewrite Hin2 in Hl3.
  { eexists _, c3. rewrite (bindM_fail _ _ _ _ _ H3), decide_True by done. split; [done|]. eexists. split; [done|].
    eapply kept_rest, kept_conn_trans; done. }
  mstep H3. rewrite Hin2 in *. rewrite decide_False by lia. cbn [fst snd].
  assert (kept c c3 (incoming c3)) as K3' by (eapply kept_rest, kept_conn_trans; done).
  destruct (FindMethodByName sv (method rh)) as [m|]; [|by eexists _, c3].
  destruct (CallService sv m _) as [x|f].
  - mpure. destruct K3' as (Hok3&_&Ho3&Hw3). destruct (rpc_reply_ok (fixed_header (length (SerializeResponseHeader None)) (length (SerializeAsString x))) (SerializeResponseHeader None) (SerializeAsString x) c3) as (c4&H4&?&Ho4&?); [done|congruence|].
    eexists _, c4. split; [exact H4|]. split_and!; try done. rewrite Ho4, Ho3. unfold frame. done.
  - eexists _, c3. by split.
Qed.

Lemma serve_ok (c : C) :
  conn_ok c → write_closed c = false →
  match respond services_ (incoming c) with
  | Ok out => ∃ c', serve_one services_ c = (Ok (), c') ∧ conn_ok c' ∧ write_closed c' = true ∧ outgoing c' = outgoing c ++ out
  | Fail f => ∃ c', serve_one services_ c = (Fail f, c')
  end.
Proof.
  intros Hok Hw. destruct (body_ok c Hok Hw) as (r&c1&Hb&Hs). unfold serve_one, respond. rewrite Hb. unfold body_spec in Hs.
  assert (∀ f, kept c c1 (incoming c1) → (∃ e, f = Exn e) → ∃ c', match Fail f with Fail (Exn _) => serve_error c1 | r => (r, c1) end = (Ok (), c') ∧
    conn_ok c' ∧ write_closed c' = true ∧ outgoing c' = outgoing c ++ error_reply) as Herr.
  { intros f (Hok1&_&Ho1&Hw1) (e&->). destruct (error_ok c1 Hok1) as (c'&?&?&Ho&?); [congruence|]. exists c'. rewrite Ho, Ho1. done. }
  destruct (request_of services_ (incoming c)) as [[[sv name] body]|].
  - destruct (FindMethodByName sv name) as [m|]; [|subst r; by exists c1].
    destruct (CallService sv m (ParseInput m body)) as [x|f].
    + destruct Hs as (->&?&?&?). by exists c1.
    + destruct Hs as [-> Hk]. destruct f; [|by exists c1..]. destruct (Herr _ Hk (ex_intro _ e eq_refl)) as (c'&?&?&?&?). by exists c'.
  - destruct Hs as (e&->&Hk). destruct (Herr _ Hk (ex_intro _ e eq_refl)) as (c'&?&?&?&?). by exists c'.
Qed.

(** *** The client *)

(** A size that fits into the header. *)
Definition small (b : bytes) : Prop := (Z.of_nat (length b) < 2 ^ 32)%Z.

(** The answer in a reply. *)
Definition answer_of (m : Method) (h b : bytes) : outcome Message :=
  match ParseResponseHeader h with Some _ => Fail (Exn (RuntimeError "RpcCallError")) | None => Ok (ParseOutput m b) end.

Lemma call_ok sn mn m (x : Message) (c : C) h b :
  conn_ok c → write_closed c = false → small h → small b → incoming c = frame h b →
  ∃ c', call_body sn mn m x c = (answer_of m h b, c') ∧
    outgoing c' = outgoing c ++ frame (SerializeRequestHeader {| service := sn; method := mn |}) (SerializeAsString x).
Proof.
  intros Hok Hw Hh Hb Hin. unfold call_body, answer_of. cbv zeta. set (rh := SerializeRequestHeader _). set (rb := SerializeAsString x).
  destruct (fixed_header_sizes (length h) (length b) Hh Hb) as (Hl&Hhs&Hbs).
  destruct (conn_write (fixed_header (length rh) (length rb)) c Hok Hw) as (c1&H1&Hok1&Hi1&Ho1&Hw1).
  destruct (conn_write rh c1 Hok1 Hw1) as (c2&H2&Hok2&Hi2&Ho2&Hw2). destruct (conn_write rb c2 Hok2 Hw2) as (c3&H3&Hok3&Hi3&Ho3&Hw3).
  mstep H1. mstep H2. mstep H3.
  destruct (conn_read_full c3 (fixed_header (length h) (length b)) (h ++ b) Hok3) as (c4&H4&Hok4&Hi4&Ho4&_); [by rewrite Hi3, Hi2, Hi1, Hin|].
  rewrite Hl in H4. mstep H4. destruct (conn_read_full c4 h b Hok4 Hi4) as (c5&H5&Hok5&Hi5&Ho5&_). rewrite Hhs. mstep H5.
  assert (outgoing c5 = outgoing c ++ frame rh rb) as Ho by (rewrite Ho5, Ho4, Ho3, Ho2, Ho1; unfold frame; by rewrite <- !app_assoc).
  destruct (ParseResponseHeader h) as [msg|]; [by exists c5|].
  destruct (conn_read_full c5 b [] Hok5) as (c6&H6&_&_&Ho6&_); [by rewrite app_nil_r|]. rewrite Hbs. mstep H6. exists c6. split; [done|]. by rewrite Ho6.
Qed.

(** A request as the client writes it. *)
Lemma request_of_frame rh (x : Message) :
  small (SerializeRequestHeader rh) → small (SerializeAsString x) →
  request_of services_ (frame (SerializeRequestHeader rh) (SerializeAsString x)) =
  (sv ← services_ !! service rh; Some (sv, method rh, SerializeAsString x)).
Proof.
  intros Hh Hb. unfold request_of, frame. set (h := SerializeRequestHeader rh). set (b := SerializeAsString x).
  destruct (fixed_header_sizes (length h) (length b) Hh Hb) as (Hl&Hhs&Hbs). cbv zeta.
  rewrite take_app_exact, drop_app_exact by done. rewrite decide_False by (rewrite length_app; lia).
  rewrite Hhs, Hbs. rewrite decide_False by (rewrite length_app; lia). rewrite take_app_exact, drop_app_exact by done.
  unfold h. rewrite request_header_law. cbn [mbind option_bind]. destruct (services_ !! service rh); cbn; [|done].
  rewrite decide_False by lia. by rewrite firstn_all.
Qed.

Lemma request_of_service s sv name body :
  request_of services_ s = Some (sv, name, body) → ∃ n, services_ !! n = Some sv.
Proof.
  unfold request_of. cbv zeta. do 2 (case_decide; [done|]).
  destruct (ParseRequestHeader _) as [rh|]; cbn [mbind option_bind]; [|done].
  destruct (services_ !! service rh) as [sv'|] eqn:E; cbn [mbind option_bind]; [|done]. case_decide; [done|].
  intros [= <- _ _]. by exists (service rh).
Qed.

(** The server writes the reply that the protocol asks for, unless the method is unknown. *)
Lemma respond_reply s :
  services_safe services_ → respond services_ s = if unknown_method services_ s then Fail UB else Ok (reply_to services_ s).
Proof.
  intros Hsafe. unfold respond, unknown_method, reply_to. destruct (request_of services_ s) as [[[sv name] body]|] eqn:E; [|done].
  destruct (request_of_service _ _ _ _ E) as [n Hn]. destruct (FindMethodByName sv name) as [m|]; [|done].
  destruct (CallService sv m _) as [r|f] eqn:Ec; [done|]. destruct (Hsafe _ _ _ _ _ Hn Ec) as [e ->]. done.
Qed.

(** The connections that are served before the first unknown method. *)
Lemma serve_known (before after : list C) :
  services_safe services_ → Forall (λ c, conn_ok c ∧ write_closed c = false) before →
  Forall (λ c, unknown_method services_ (incoming c) = false) before →
  ∃ served, Serve services_ (before ++ after) = (rest <-? Serve services_ after ;; Ok (served ++ rest)) ∧
    Forall2 (λ c c', conn_ok c' ∧ write_closed c' = true ∧ outgoing c' = outgoing c ++ reply_to services_ (incoming c)) before served.
Proof.
  intros Hsafe. induction 1 as [|c before [Hok Hw] _ IH]; intros Hk.
  { exists []. split; [|done]. cbn. by destruct (Serve services_ after). }
  inversion Hk as [|?? Hc Hks]; subst. pose proof (serve_ok c Hok Hw) as Hs. rewrite (respond_reply _ Hsafe), Hc in Hs.
  destruct Hs as (c'&Hs&?&?&?). destruct (IH Hks) as (served&Hserve&Hf). exists (c' :: served). cbn. rewrite Hs, Hserve.
  split; [|by constructor]. by destruct (Serve services_ after).
Qed.

End RpcFacts.


(** C38 A call over a connection to the server returns what the service returns for the
    request, and throws an [RpcCallError] if there is no such service or it throws; the two
    sides write and read exactly the same bytes. *)
Theorem rpc_call_correct {C Message Method : Type} `{!IConn C, !ConnSpec C, !Protobuf Message Method, !ProtobufSpec Message Method}
    (services_ : gmap bytes (Service Message Method)) (sn mn : bytes) (m : Method) (x : Message) (cs cc : C) :
  conn_ok cs → conn_ok cc → write_closed cs = false → write_closed cc = false → outgoing cs = [] → outgoing cc = [] →
  let rh := SerializeRequestHeader {| service := sn; method := mn |} in
  is_input m x → small rh → small (SerializeAsString x) → small (SerializeResponseHeader None) →
  small (SerializeResponseHeader (Some (str "Server error"))) →
  incoming cs = frame rh (SerializeAsString x) →
  (∀ sv, services_ !! sn = Some sv → FindMethodByName sv mn = Some m ∧
    match CallService sv m x with Ok y => is_output m y ∧ small (SerializeAsString y) | Fail f => ∃ e, f = Exn e end) →
  ∃ cs', serve_one services_ cs = (Ok (), cs') ∧
    (incoming cc = outgoing cs' →
      ∃ cc', CallMethod (Ok cc) sn mn m x =
          (Ok match sv ← services_ !! sn; match CallService sv m x with Ok y => Some y | Fail _ => None end with
              | Some y => Response y
              | None => RpcCallError "Connection error"
              end, Some cc') ∧
        outgoing cc' = incoming cs).
Proof.
  intros Hoks Hokc Hws Hwc Hos Hoc rh Hin Hrh Hb Hok Herr Hi Hsv. subst rh. pose proof (serve_ok services_ cs Hoks Hws) as Hs.
  unfold respond in Hs. rewrite Hi, (request_of_frame services_ _ x Hrh Hb) in Hs. cbn [service method] in Hs.
  assert (∀ h b out, small h → small b → answer_of m h b = out → incoming cc = frame h b →
    ∃ cc', call_body sn mn m x cc = (out, cc') ∧ outgoing cc' = incoming cs) as Hcall.
  { intros h b out Hh Hbb <- Hcc. destruct (call_ok sn mn m x cc h b Hokc Hwc Hh Hbb Hcc) as (cc'&Hc&Ho). exists cc'. split; [done|].
    by rewrite Ho, Hoc, Hi. }
  assert (∀ cs', outgoing cs' = error_reply → incoming cc = outgoing cs' →
    ∃ cc', CallMethod (Ok cc) sn mn m x = (Ok (RpcCallError "Connection error"), Some cc') ∧ outgoing cc' = incoming cs) as Herror.
  { intros cs' Ho Hcc. unfold error_reply in Ho. rewrite Ho in Hcc.
    destruct (Hcall (SerializeResponseHeader (Some (str "Server error"))) [] (Fail (Exn (RuntimeError "RpcCallError")))) as (cc'&Hc&?);
      [done|done|unfold answer_of; by rewrite response_header_law|done|]. exists cc'. unfold CallMethod. by rewrite Hc. }
  destruct (services_ !! sn) as [sv|]; cbn [mbind option_bind] in *.
  - destruct (Hsv sv eq_refl) as [Hfind Hcs]. rewrite Hfind, (input_law m x Hin) in Hs.
    destruct (CallService sv m x) as [y|f].
    + destruct Hs as (cs'&Hserve&_&_&Ho). exists cs'. split; [done|]. intros Hcc. rewrite Ho, Hos in Hcc. destruct Hcs as [Hout Hy].
      destruct (Hcall (SerializeResponseHeader None) (SerializeAsString y) (Ok y)) as (cc'&Hc&?);
        [done|done|unfold answer_of; rewrite response_header_law; by rewrite output_law|done|]. exists cc'. unfold CallMethod. by rewrite Hc.
    + destruct Hcs as [e ->]. destruct Hs as (cs'&Hserve&_&_&Ho). exists cs'. split; [done|]. apply Herror. by rewrite Ho, Hos.
  - destruct Hs as (cs'&Hserve&_&_&Ho). exists cs'. split; [done|]. apply Herror. by rewrite Ho, Hos.
Qed.

(** ** A small protocol *)

Module ToyRpc.

(** Headers are written with a length in unary; messages are bytes. *)
Fixpoint unary (l : bytes) : nat * bytes :=
  match l with
  | [] => (0, [])
  | c :: l => if decide (c = "1"%char) then ((unary l).1 + 1, (unary l).2) else (0, l)
  end.

#[local] Instance proto : Protobuf bytes () := {|
  SerializeRequestHeader := λ h, replicate (length (service h)) "1"%char ++ "0"%char :: service h ++ method h;
  ParseRequestHeader := λ b, let '(n, r) := unary b in Some {| service := take n r; method := drop n r |};
  SerializeResponseHeader := λ h, match h with None => [] | Some e => "1"%char :: e end;
  ParseResponseHeader := λ b, match b with [] => None | _ :: e => Some e end;
  SerializeAsString := λ x, x;
  ParseInput := λ _ b, b;
  ParseOutput := λ _ b, b;
|}.

Lemma unary_ok n l : unary (replicate n "1"%char ++ "0"%char :: l) = (n, l).
Proof. induction n as [|n IH]; cbn; [done|]. rewrite IH. cbn. f_equal. lia. Qed.

#[local, program] Instance proto_spec : ProtobufSpec bytes () := {| is_input := λ _ _, True; is_output := λ _ _, True |}.
Next Obligation. intros [s m]. cbn. rewrite unary_ok, take_app_exact, drop_app_exact by done. done. Qed.
Next Obligation. by intros []. Qed.
Next Obligation. done. Qed.
Next Obligation. done. Qed.

#[local] Instance toy_conn : IConn Toy.kernel := SocketConn.iconn 4 3.
#[local] Instance toy_spec : ConnSpec Toy.kernel := SocketConn.conn_spec 3 4.

Definition socket (input : bytes) : Toy.kernel :=
  {| Toy.input := input; Toy.output := []; Toy.shut := false; Toy.moods := [Toy.Interrupted; Toy.Part 2] |}.

Definition mirror : Service bytes () := {|
  full_name := str "mirror";
  FindMethodByName := λ name, if decide (name = str "turn") then Some () else None;
  CallService := λ _ x, Ok (rev x);
|}.

Definition services : gmap bytes (Service bytes ()) := {[ str "mirror" := mirror ]}.

Definition request_frame : bytes :=
  frame (SerializeRequestHeader {| service := str "mirror"; method := str "turn" |}) (SerializeAsString (str "abc")).
Definition reply_frame : bytes := frame (SerializeResponseHeader None) (SerializeAsString (str "cba")).

Definition tilt_frame : bytes := frame (SerializeRequestHeader {| service := str "mirror"; method := str "tilt" |}) [].

Lemma services_return : services_safe services.
Proof. intros name sv m x f H. unfold services in H. apply lookup_singleton_Some in H as [_ <-]. cbn. done. Qed.


Lemma rpc_call_correct_witness :
  ∃ cc', CallMethod (Ok (socket reply_frame)) (str "mirror") (str "turn") () (str "abc") = (Ok (Response (str "cba")), Some cc') ∧
    Toy.output cc' = request_frame.
Proof.
  destruct (rpc_call_correct services (str "mirror") (str "turn") () (str "abc") (socket request_frame) (socket reply_frame)) as (cs'&Hs&Hc).
  - cbn. split; [done|lia].
  - cbn. split; [done|lia].
  - reflexivity.
  - reflexivity.
  - reflexivity.
  - reflexivity.
  - exact I.
  - vm_compute. reflexivity.
  - vm_compute. reflexivity.
  - vm_compute. reflexivity.
  - vm_compute. reflexivity.
  - reflexivity.
  - intros sv [= <-]. split; [reflexivity|]. split; [exact I|]. vm_compute. reflexivity.
  - destruct Hc as (cc'&Hc&Ho).
    + vm_compute in Hs. injection Hs as <-. vm_compute. reflexivity.
    + exists cc'. split; [exact Hc|exact Ho].
Defined.

End ToyRpc.
