(* ===== verification/Dialers.v ===== *)
(** * Small network programs (fanout, portscan, portknock)

    They dial addresses, so how a connection is dialled is a parameter, as in Proxy.v.
    [Fanout] collects the parts of a secret with one fiber for each; they end in any order.
    [ScanPorts] tries a range of ports one after the other, [KnockPorts] knocks at a list of
    them. *)

From S2P Require Import Prelude Readers Writers Net.
Import Pod SocketAddress.

#[local] Set Warnings "-clear-no-such-hyp".

(** ** fanout *)

Section Fanout.
Context {C : Type} `{!IConn C} (DialTCP : SocketAddress.t → outcome C).

(** The values of an array of [n] [uint64_t]. *)
Fixpoint values_of (n : nat) (b : bytes) : list Z :=
  match n with O => [] | S n => value_of (take 8 b) :: values_of n (drop 8 b) end.

(** The largest size of a [std::vector<uint64_t>]. *)
Definition max_size : Z := 2 ^ 60 - 1.

Definition GetTokens : M C (list Z) :=
  b <- ReadFull 8 ;;
  let tokens_size := value_of b in
  if (max_size <? tokens_size)%Z then throwM LengthError else
  res <- ReadFull (8 * Z.to_nat tokens_size) ;;
  retM (values_of (Z.to_nat tokens_size) res).

(** The fiber [i]. *)
Definition get_part (address : SocketAddress.t) (i : nat) (token : Z) : outcome Z :=
  port <-? GetPort address ;;
  cur_address <-? SetPort address (uwrap 16 (port + Z.of_nat i + 1)) ;;
  conn <-? DialTCP cur_address ;;
  b <-? ((Write (bytes_of 8 token) ;;; ReadFull 8) conn).1 ;;
  Ok (value_of b).

(** The fibers end in the order [order]; [WaitGroup] keeps the first exception. *)
Fixpoint run_parts (address : SocketAddress.t) (tokens : list Z) (order : list nat) (parts : list Z) (err : option exn)
    : outcome (list Z * option exn) :=
  match order with
  | [] => Ok (parts, err)
  | i :: order =>
      match tokens !! i with
      | None => Fail UB
      | Some token =>
          match get_part address i token with
          | Ok v => run_parts address tokens order (<[i := v]> parts) err
          | Fail (Exn e) => run_parts address tokens order parts (Some (default e err))
          | Fail f => Fail f
          end
      end
  end.

Definition GetSecret (order : list nat) (address : SocketAddress.t) (tokens : list Z) : outcome Z :=
  r <-? run_parts address tokens order (replicate (length tokens) 0%Z) None ;;
  match r.2 with
  | Some e => Fail (Exn e)
  | None => Ok (foldr (λ x s, u64 (x + s)) 0%Z r.1)
  end.

(** [order] gives the order for the number of tokens. *)
Definition Fanout_conn (fuel : nat) (order : nat → list nat) (address : SocketAddress.t) : M C bytes :=
  tokens <- GetTokens ;;
  secret <- liftO (GetSecret (order (length tokens)) address tokens) ;;
  Write (bytes_of 8 secret) ;;;
  ReadAllToString fuel.

Definition Fanout (fuel : nat) (order : nat → list nat) (address : SocketAddress.t) : outcome bytes :=
  conn <-? DialTCP address ;; (Fanout_conn fuel order address conn).1.

End Fanout.

(** ** portscan *)

Inductive PortState : Type := OPEN | CLOSED | TIMEOUT.

Section Scan.

(** [TimeoutGuard] makes a dial that takes too long throw [TimeoutException]; closing the
    connection is part of [dial]. *)
Context (dial : SocketAddress.t → outcome ()).

Definition CheckPort (addr : SocketAddress.t) : outcome PortState :=
  match dial addr with
  | Ok _ => Ok OPEN
  | Fail (Exn (TimeoutException _)) => Ok TIMEOUT
  | Fail (Exn _) => Ok CLOSED
  | Fail f => Fail f
  end.

(** The loop over the ports; [port] is a [uint16_t]. *)
Fixpoint ScanPorts_loop (fuel : nat) (checking_address : SocketAddress.t) (port end_ : Z) (res : list (Z * PortState))
    : outcome (list (Z * PortState)) :=
  match fuel with
  | O => Fail Fuel
  | S fuel =>
      if (port <? end_)%Z then
        checking_address <-? SetPort checking_address port ;;
        s <-? CheckPort checking_address ;;
        ScanPorts_loop fuel checking_address (uwrap 16 (port + 1)) end_ (res ++ [(port, s)])
      else Ok res
  end.

Definition ScanPorts (fuel : nat) (remote : SocketAddress.t) (start end_ : Z) : outcome (list (Z * PortState)) :=
  ScanPorts_loop fuel remote start end_ [].

End Scan.

(** ** portknock *)

Inductive KnockProtocol : Type := TCP | UDP.

(** What a knock does: it tries to send an empty message, and then sleeps. *)
Inductive action : Type := Knock (protocol : KnockProtocol) (addr : SocketAddress.t) | Sleep (delay : Z).

Section Knock.

(** How a knock ends. *)
Context (knock : KnockProtocol → SocketAddress.t → outcome ()).

Definition PortKnock (addr : SocketAddress.t) (protocol : KnockProtocol) (timeout : Z) : outcome (list action) :=
  match knock protocol addr with
  | Ok _ | Fail (Exn _) => Ok [Knock protocol addr; Sleep timeout]
  | Fail f => Fail f
  end.

Fixpoint KnockPorts (cur_addr : SocketAddress.t) (ports : list (Z * KnockProtocol)) (delay : Z) : outcome (list action) :=
  match ports with
  | [] => Ok []
  | (port, protocol) :: ports =>
      cur_addr <-? SetPort cur_addr port ;;
      a <-? PortKnock cur_addr protocol delay ;;
      rest <-? KnockPorts cur_addr ports delay ;;
      Ok (a ++ rest)
  end.

End Knock.

(** ** What they do *)

Lemma values_concat (l : list Z) (rest : bytes) :
  Forall (λ x, (0 <= x < 2 ^ 64)%Z) l → values_of (length l) (concat (bytes_of 8 <$> l) ++ rest) = l.
Proof.
  induction 1 as [|x l Hx _ IH]; [done|]. cbn [values_of length fmap list_fmap concat]. rewrite <- app_assoc.
  rewrite take_app_exact, drop_app_exact by (by rewrite bytes_of_length). rewrite value_bytes by (cbn; lia). by rewrite IH.
Qed.

Lemma concat_length (l : list Z) : length (concat (bytes_of 8 <$> l)) = 8 * length l.
Proof. induction l as [|x l IH]; [done|]. cbn [fmap list_fmap concat length]. rewrite length_app, bytes_of_length, IH. lia. Qed.

Section FanoutFacts.
Context {C : Type} `{!IConn C, !ConnSpec C} (DialTCP : SocketAddress.t → outcome C).

(** The server at the port [i + 1] after the first answers with [s]. *)
Definition part_server (sa : sockaddr_in) (i : nat) (s : Z) : Prop :=
  (0 <= s < 2 ^ 64)%Z ∧ ∃ c rest,
    DialTCP (Some {| s_addr := s_addr sa; sin_port := htons (uwrap 16 (htons (sin_port sa) + Z.of_nat i + 1)) |}) = Ok c ∧
    conn_ok c ∧ write_closed c = false ∧ incoming c = bytes_of 8 s ++ rest.

Lemma get_part_ok sa i token s : part_server sa i s → get_part DialTCP (Some sa) i token = Ok s.
Proof.
  intros (Hs&c&rest&Hd&Hok&Hw&Hin). unfold get_part. cbn [GetPort SetPort CheckEmpty bindO]. rewrite Hd. cbn [bindO].
  destruct (conn_write (bytes_of 8 token) c Hok Hw) as (c1&H1&Hok1&Hi1&_&_).
  destruct (conn_read_full c1 (bytes_of 8 s) rest Hok1) as (c2&H2&_); [by rewrite Hi1|]. rewrite bytes_of_length in H2.
  rewrite (bindM_ok _ _ _ _ _ H1), H2. cbn [fst bindO]. by rewrite value_bytes by (cbn; lia).
Qed.

Lemma run_parts_ok sa tokens answers order parts err :
  (∀ i, i ∈ order → ∃ t s, tokens !! i = Some t ∧ answers !! i = Some s ∧ part_server sa i s) →
  length parts = length answers →
  ∃ parts', run_parts DialTCP (Some sa) tokens order parts err = Ok (parts', err) ∧ length parts' = length answers ∧
    ∀ i, parts' !! i = if decide (i ∈ order) then answers !! i else parts !! i.
Proof.
  revert parts. induction order as [|j order IH]; intros parts Hp Hl; cbn [run_parts].
  - exists parts. split_and!; [done|done|]. intros i. by rewrite decide_False by apply not_elem_of_nil.
  - destruct (Hp j) as (t&s&Ht&Hs&Hserver); [left|]. rewrite Ht, (get_part_ok sa j t s Hserver).
    destruct (IH (<[j := s]> parts)) as (parts'&->&Hl'&Hi); [intros i Hi; apply Hp; by right|by rewrite length_insert|].
    exists parts'. split_and!; [done|done|]. intros i. rewrite Hi. destruct (decide (i ∈ order)) as [Hin|Hin].
    + by rewrite decide_True by (by right).
    + destruct (decide (i = j)) as [->|Hne].
      * rewrite decide_True by left. rewrite list_lookup_insert_eq; [done|]. rewrite Hl. by eapply lookup_lt_Some.
      * rewrite decide_False by set_solver. by rewrite list_lookup_insert_ne.
Qed.

(** The sum of the parts, as a [uint64_t]. *)
Definition secret_of (answers : list Z) : Z := u64 (foldr Z.add 0%Z answers).

Lemma reduce_sum (l : list Z) : foldr (λ x s, u64 (x + s)) 0%Z l = secret_of l.
Proof.
  unfold secret_of. induction l as [|x l IH]; [done|]. cbn [foldr]. rewrite IH. unfold uwrap. by rewrite Zplus_mod_idemp_r.
Qed.

(** [Fanout] gives the flag, having sent the sum of the parts, in whatever order the fibers
    end. *)
Theorem fanout_correct sa tokens answers flag c fuel order :
  DialTCP (Some sa) = Ok c → conn_ok c → write_closed c = false →
  incoming c = bytes_of 8 (Z.of_nat (length tokens)) ++ concat (bytes_of 8 <$> tokens) ++ flag →
  (Z.of_nat (length tokens) <= max_size)%Z → Forall (λ x, (0 <= x < 2 ^ 64)%Z) tokens → length answers = length tokens →
  (∀ i s, answers !! i = Some s → part_server sa i s) → (∀ n, order n ≡ₚ seq 0 n) → length flag < fuel →
  Fanout DialTCP fuel order (Some sa) = Ok flag ∧
  ∃ c', Fanout_conn DialTCP fuel order (Some sa) c = (Ok flag, c') ∧ outgoing c' = outgoing c ++ bytes_of 8 (secret_of answers).
Proof.
  intros Hd Hok Hw Hin Hmax Ht Hl Hservers Horder Hfuel.
  assert (∃ c', Fanout_conn DialTCP fuel order (Some sa) c = (Ok flag, c') ∧ outgoing c' = outgoing c ++ bytes_of 8 (secret_of answers)) as Hconn.
  { unfold max_size in Hmax. unfold Fanout_conn, GetTokens.
    destruct (conn_read_full c _ _ Hok Hin) as (c1&H1&Hok1&Hi1&Ho1&Hw1). rewrite bytes_of_length in H1.
    assert (concat (bytes_of 8 <$> tokens) ++ flag = incoming c1) as Hi1' by done.
    destruct (conn_read_full c1 _ _ Hok1 Hi1) as (c2&H2&Hok2&Hi2&Ho2&Hw2). rewrite concat_length in H2.
    erewrite bindM_ok; [|mstep H1; rewrite value_bytes by (cbn; lia); rewrite (proj2 (Z.ltb_ge _ _)) by (unfold max_size; lia);
      rewrite Nat2Z.id; mstep H2; done].
    rewrite <- (app_nil_r (concat _)), values_concat by done.
    destruct (run_parts_ok sa tokens answers (order (length tokens)) (replicate (length tokens) 0%Z) None) as (parts&Hr&Hlp&Hp).
    { intros i Hi. rewrite Horder in Hi. apply elem_of_seq in Hi. destruct (lookup_lt_is_Some_2 tokens i) as [t Hti]; [lia|].
      destruct (lookup_lt_is_Some_2 answers i) as [s Hsi]; [lia|]. exists t, s. split_and!; [done|done|by apply Hservers]. }
    { by rewrite length_replicate. }
    assert (parts = answers) as ->.
    { apply list_eq. intros i. rewrite Hp. case_decide as Hi; [done|]. rewrite Horder, elem_of_seq in Hi.
      rewrite !(proj2 (lookup_ge_None _ _)); [done|rewrite Hl; lia|rewrite length_replicate; lia]. }
    unfold GetSecret. rewrite Hr. cbn [bindO snd fst]. rewrite reduce_sum. erewrite bindM_ok; [|done].
    destruct (conn_write (bytes_of 8 (secret_of answers)) c2 Hok2) as (c3&H3&Hok3&Hi3&Ho3&Hw3); [congruence|]. mstep H3.
    destruct (@read_all_to_string_ok _ _ (conn_reader_spec (outgoing c3) (write_closed c3)) fuel c3) as (c4&H4&(_&Ho4&_)&_).
    { by split_and!. }
    { cbn. by rewrite Hi3, Hi2. }
    exists c4. rewrite H4. cbn. rewrite Hi3, Hi2, Ho4, Ho3, Ho2, Ho1. done. }
  split; [|done]. unfold Fanout. rewrite Hd. cbn [bindO]. destruct Hconn as (c'&->&_). done.
Qed.

End FanoutFacts.

(** The ports from [p] on, [n] of them. *)
Definition port_range (p : Z) (n : nat) : list Z := (λ i, p + Z.of_nat i)%Z <$> seq 0 n.

Lemma port_range_S p n : port_range p (S n) = p :: port_range (p + 1) n.
Proof.
  unfold port_range. cbn. f_equal; [lia|]. rewrite <- fmap_S_seq, <- list_fmap_compose. apply list_fmap_ext. intros i x _. cbn. lia.
Qed.

Section ScanFacts.
Context (dial : SocketAddress.t → outcome ()) (ip : Z).

Definition addr_of (port : Z) : SocketAddress.t := Some {| s_addr := ip; sin_port := htons port |}.

Definition state_of (r : outcome ()) : PortState :=
  match r with Ok _ => OPEN | Fail (Exn (TimeoutException _)) => TIMEOUT | _ => CLOSED end.

(** [ScanPorts] tries exactly the ports from [start] to [end - 1] at the host, once each and
    in order, and ends; also up to the last port the counter does not wrap around. *)
Theorem scan_ports_correct sp start end_ fuel :
  (0 <= start < 2 ^ 16)%Z → (0 <= end_ < 2 ^ 16)%Z → (∀ a f, dial a = Fail f → ∃ e, f = Exn e) →
  Z.to_nat (end_ - start) < fuel →
  ScanPorts dial fuel (Some {| s_addr := ip; sin_port := sp |}) start end_ =
  Ok ((λ p, (p, state_of (dial (addr_of p)))) <$> port_range start (Z.to_nat (end_ - start))).
Proof.
  intros Hs He Hd Hf. unfold ScanPorts.
  assert (∀ fuel port sp res, (0 <= port < 2 ^ 16)%Z → Z.to_nat (end_ - port) < fuel →
    ScanPorts_loop dial fuel (Some {| s_addr := ip; sin_port := sp |}) port end_ res =
    Ok (res ++ ((λ p, (p, state_of (dial (addr_of p)))) <$> port_range port (Z.to_nat (end_ - port))))) as Hloop; [|by apply Hloop].
  clear fuel Hf Hs sp. intros fuel. induction fuel as [|fuel IH]; intros port sp res Hp Hfuel; [lia|]. cbn [ScanPorts_loop].
  destruct (Z.ltb_spec port end_) as [Hlt|Hge].
  - cbn [SetPort CheckEmpty bindO s_addr]. fold (addr_of port). replace (Z.to_nat (end_ - port)) with (S (Z.to_nat (end_ - (port + 1)))) by lia.
    rewrite port_range_S. cbn [fmap list_fmap].
    assert (CheckPort dial (addr_of port) = Ok (state_of (dial (addr_of port)))) as ->.
    { unfold CheckPort, state_of. destruct (dial (addr_of port)) as [|f] eqn:Hdp; [done|]. destruct (Hd _ _ Hdp) as [e ->]. by destruct e. }
    cbn [bindO]. rewrite uwrap_small by lia. unfold addr_of at 1. rewrite IH by lia. by rewrite <- app_assoc.
  - replace (Z.to_nat (end_ - port)) with 0 by lia. cbn. by rewrite app_nil_r.
Qed.

(** [KnockPorts] knocks at all the ports in order, whatever becomes of a knock, and waits
    after each. *)
Theorem knock_ports_correct knock sp ports delay :
  (∀ p a f, knock p a = Fail f → ∃ e, f = Exn e) →
  KnockPorts knock (Some {| s_addr := ip; sin_port := sp |}) ports delay =
  Ok (concat ((λ p, [Knock p.2 (addr_of p.1); Sleep delay]) <$> ports)).
Proof.
  intros Hk. revert sp. induction ports as [|[port proto] ports IH]; intros sp; [done|]. cbn [KnockPorts SetPort CheckEmpty bindO s_addr].
  fold (addr_of port). assert (PortKnock knock (addr_of port) proto delay = Ok [Knock proto (addr_of port); Sleep delay]) as ->.
  { unfold PortKnock. destruct (knock proto (addr_of port)) as [|f] eqn:Hkp; [done|]. by destruct (Hk _ _ _ Hkp) as [e ->]. }
  cbn [bindO]. unfold addr_of at 1. rewrite IH. done.
Qed.

End ScanFacts.
