(* ===== verification/Sfinae.v ===== *)
(** * Code chosen by properties of types (sfinae/advance.h, sfinae/clever_set.h)

    [Advance] has a version for each category of iterators, [CleverSet] one for types with a
    hash, for ordered types and for all others.  The properties of a type, which the compiler
    finds out, are given as values ([iterator_category], [traits]), and the choice among the
    versions is a function of them. *)

From S2P Require Import Prelude Ranges.

#[local] Set Warnings "-clear-no-such-hyp".

(** ** advance.h *)

Module Advance.

Inductive iterator_category : Type := input | output | forward | bidirectional | random_access.

Section Advance.
Context {B Ref : Type} `{!Iter B Ref}.

(** [while (n > 0) { ++iterator; --n; }] and [while (n < 0) { --iterator; ++n; }]; the number
    of rounds is that of the loop. *)
Fixpoint up_loop (rounds : nat) (iterator : B) : outcome B :=
  match rounds with O => Ok iterator | S rounds => iterator <-? inc iterator ;; up_loop rounds iterator end.
Fixpoint down_loop (rounds : nat) (iterator : B) : outcome B :=
  match rounds with O => Ok iterator | S rounds => iterator <-? dec iterator ;; down_loop rounds iterator end.

Definition AdvanceImpl_input (iterator : B) (n : Z) : outcome B := up_loop (Z.to_nat n) iterator.
Definition AdvanceImpl_output (iterator : B) (n : Z) : outcome B := up_loop (Z.to_nat n) iterator.
Definition AdvanceImpl_forward (iterator : B) (n : Z) : outcome B := up_loop (Z.to_nat n) iterator.
Definition AdvanceImpl_bidirectional (iterator : B) (n : Z) : outcome B :=
  iterator <-? up_loop (Z.to_nat n) iterator ;; down_loop (Z.to_nat (- n)) iterator.
Definition AdvanceImpl_random_access (iterator : B) (n : Z) : outcome B := plus iterator n.

Definition Advance (category : iterator_category) (iterator : B) (n : Z) : outcome B :=
  match category with
  | input => AdvanceImpl_input iterator n
  | output => AdvanceImpl_output iterator n
  | forward => AdvanceImpl_forward iterator n
  | bidirectional => AdvanceImpl_bidirectional iterator n
  | random_access => AdvanceImpl_random_access iterator n
  end.

End Advance.

Section Facts.
Context {B Ref : Type} `{!Iter B Ref, !IterSpec B Ref}.

Lemma up_loop_ok k g it p : at_ g it p → p + k ≤ length (cells g) → ∃ it', up_loop k it = Ok it' ∧ at_ g it' (p + k).
Proof.
  revert it p. induction k as [|k IH]; intros it p Hit Hk; cbn [up_loop]; [exists it; by rewrite Nat.add_0_r|].
  destruct (inc_law g it p Hit) as (it1&->&Hit1); [lia|]. cbn [bindO]. destruct (IH it1 (S p) Hit1) as (it'&?&?); [lia|].
  exists it'. split; [done|]. by replace (p + S k) with (S p + k) by lia.
Qed.

Lemma down_loop_ok k g it p : at_ g it p → k ≤ p → ∃ it', down_loop k it = Ok it' ∧ at_ g it' (p - k).
Proof.
  revert it p. induction k as [|k IH]; intros it p Hit Hk; cbn [down_loop]; [exists it; by rewrite Nat.sub_0_r|].
  destruct p as [|p]; [lia|]. destruct (dec_law g it p Hit) as (it1&->&Hit1). cbn [bindO]. destruct (IH it1 p Hit1) as (it'&?&?); [lia|].
  by exists it'.
Qed.

Definition goes_back (category : iterator_category) : bool :=
  match category with bidirectional | random_access => true | _ => false end.

(** [Advance] moves by [n] for every category, also backwards where the category can; where
    it cannot, a negative [n] does nothing. *)
Theorem advance_correct (category : iterator_category) (g : rng) (it : B) (p : nat) (n : Z) :
  at_ g it p → (0 <= Z.of_nat p + n <= Z.of_nat (length (cells g)))%Z →
  let n' := if goes_back category then n else Z.max 0 n in
  ∃ it', Advance category it n = Ok it' ∧ at_ g it' (Z.to_nat (Z.of_nat p + n')).
Proof.
  intros Hit Hn. pose proof (at_le g it p Hit).
  assert (∃ it', up_loop (Z.to_nat n) it = Ok it' ∧ at_ g it' (Z.to_nat (Z.of_nat p + Z.max 0 n))) as (it1&Hup&Hat).
  { destruct (up_loop_ok (Z.to_nat n) g it p Hit) as (it'&?&?); [lia|]. exists it'. split; [done|].
    by replace (Z.to_nat (Z.of_nat p + Z.max 0 n)) with (p + Z.to_nat n) by lia. }
  destruct category; cbn [goes_back Advance]; try (by exists it1).
  - unfold AdvanceImpl_bidirectional. rewrite Hup. cbn [bindO].
    destruct (down_loop_ok (Z.to_nat (- n)) g it1 _ Hat) as (it'&?&?); [lia|]. exists it'. split; [done|].
    by replace (Z.to_nat (Z.of_nat p + n)) with (Z.to_nat (Z.of_nat p + Z.max 0 n) - Z.to_nat (- n)) by lia.
  - by apply plus_law.
Qed.

End Facts.
End Advance.

(** ** clever_set.h *)

Module CleverSet.

(** What the compiler finds in a type: a [std::hash], [!=], [==], [>] and [<]. *)
Record traits : Type := { has_hash : bool; has_ne : bool; has_eq : bool; has_gt : bool; has_lt : bool }.

Definition IsHashable (t : traits) : bool := has_hash t.
Definition IsEqualable (t : traits) : bool := has_ne t || has_eq t.
Definition IsComparable (t : traits) : bool := has_gt t || has_lt t.

(** The version that is chosen. *)
Inductive version : Type := Addresses | Hashed | Ordered.
Definition version_of (t : traits) : version :=
  if IsHashable t && IsEqualable t then Hashed
  else if IsComparable t then Ordered
  else Addresses.

(** [std::unordered_set] and [std::set]: their elements, with the relation that tells when two
    are the same. *)
Section Std.
Context {K : Type} (same : K → K → bool).

Definition find_in (k : K) (data : list K) : bool := existsb (same k) data.
Definition insert_in (k : K) (data : list K) : bool * list K := if find_in k data then (false, data) else (true, k :: data).
Definition erase_in (k : K) (data : list K) : list K := filter (λ x, same k x = false) data.

End Std.

(** The operators of a type, and the objects of it: a value at an address. *)
Section Set_.
Context {T : Type} (tr : traits) (op_eq op_gt op_lt : T → T → bool).

Record object : Type := { address : nat; value : T }.

(** [Compare], the first version if [>] is there. *)
Definition Compare (lhr rhr : T) : bool := if has_gt tr then op_gt rhr lhr else op_lt lhr rhr.

(** The same element of a [std::set]. *)
Definition equivalent (a b : T) : bool := negb (Compare a b) && negb (Compare b a).

(** The versions keep addresses or values. *)
Inductive data : Type := Pointers (l : list nat) | Values (l : list T).

Definition Insert_pointer (v : object) (l : list nat) : bool * list nat := insert_in Nat.eqb (address v) l.
Definition Erase_pointer (v : object) (l : list nat) : bool * list nat :=
  if find_in Nat.eqb (address v) l then (true, erase_in Nat.eqb (address v) l) else (false, l).
Definition Find_pointer (v : object) (l : list nat) : bool := if find_in Nat.eqb (address v) l then true else false.
Definition Size_pointer (l : list nat) : nat := length l.

Definition Insert_hashed (v : object) (l : list T) : bool * list T := insert_in op_eq (value v) l.
Definition Erase_hashed (v : object) (l : list T) : bool * list T :=
  if find_in op_eq (value v) l then (true, erase_in op_eq (value v) l) else (false, l).
Definition Find_hashed (v : object) (l : list T) : bool := if find_in op_eq (value v) l then true else false.
Definition Size_hashed (l : list T) : nat := length l.

Definition Insert_ordered (v : object) (l : list T) : bool * list T := insert_in equivalent (value v) l.
Definition Erase_ordered (v : object) (l : list T) : bool * list T :=
  if find_in equivalent (value v) l then (true, erase_in equivalent (value v) l) else (false, l).
Definition Find_ordered (v : object) (l : list T) : bool := if find_in equivalent (value v) l then true else false.
Definition Size_ordered (l : list T) : nat := length l.

(** The class, as the version that is chosen for [T]. *)
Definition empty : data := match version_of tr with Addresses => Pointers [] | _ => Values [] end.

Definition Insert (v : object) (d : data) : bool * data :=
  match version_of tr, d with
  | Addresses, Pointers l => let '(r, l) := Insert_pointer v l in (r, Pointers l)
  | Hashed, Values l => let '(r, l) := Insert_hashed v l in (r, Values l)
  | Ordered, Values l => let '(r, l) := Insert_ordered v l in (r, Values l)
  | _, _ => (false, d)
  end.
Definition Erase (v : object) (d : data) : bool * data :=
  match version_of tr, d with
  | Addresses, Pointers l => let '(r, l) := Erase_pointer v l in (r, Pointers l)
  | Hashed, Values l => let '(r, l) := Erase_hashed v l in (r, Values l)
  | Ordered, Values l => let '(r, l) := Erase_ordered v l in (r, Values l)
  | _, _ => (false, d)
  end.
Definition Find (v : object) (d : data) : bool :=
  match version_of tr, d with
  | Addresses, Pointers l => Find_pointer v l
  | Hashed, Values l => Find_hashed v l
  | Ordered, Values l => Find_ordered v l
  | _, _ => false
  end.
Definition Size (d : data) : nat := match d with Pointers l => Size_pointer l | Values l => Size_hashed l end.

End Set_.
Arguments object : clear implicits.
Arguments data : clear implicits.

(** *** A set of classes *)

(** [same] is an equivalence. *)
Record equivalence {K} (same : K → K → bool) : Prop := {
  eqv_refl : ∀ k, same k k = true;
  eqv_sym : ∀ k l, same k l = same l k;
  eqv_trans : ∀ k l m, same k l = true → same l m = true → same k m = true;
}.

Section StdFacts.
Context {K : Type} (same : K → K → bool) (Heq : equivalence same).

(** No class is there twice. *)
Fixpoint distinct (l : list K) : Prop :=
  match l with [] => True | k :: l => find_in same k l = false ∧ distinct l end.

Lemma find_same k k' l : same k k' = true → find_in same k l = find_in same k' l.
Proof.
  intros Hk. unfold find_in. induction l as [|x l IH]; [done|]. cbn. rewrite IH. f_equal.
  apply eq_iff_eq_true. split; intros Hx; [|by eapply (eqv_trans same Heq)].
  eapply (eqv_trans same Heq); [|done]. by rewrite (eqv_sym same Heq).
Qed.

Lemma find_erase k k' l : find_in same k' (erase_in same k l) = find_in same k' l && negb (same k k').
Proof.
  unfold find_in, erase_in. induction l as [|x l IH]; [done|]. rewrite filter_cons. case_decide as Hx; cbn; rewrite IH.
  - destruct (same k' x) eqn:Hx'; [|done]. cbn. destruct (same k k') eqn:Hkk; [|done].
    by rewrite (eqv_trans same Heq k k' x Hkk Hx') in Hx.
  - apply not_false_is_true in Hx. destruct (same k' x) eqn:Hx'; [|done]. cbn. rewrite (eqv_sym same Heq) in Hx'.
    rewrite (eqv_trans same Heq k x k' Hx Hx'). cbn. apply andb_false_r.
Qed.

Lemma distinct_erase k l :
  distinct l → distinct (erase_in same k l) ∧ length (erase_in same k l) = if find_in same k l then length l - 1 else length l.
Proof.
  induction l as [|x l IH]; [done|]. cbn [distinct]. intros [Hx Hl]. destruct (IH Hl) as [Hd Hn]. destruct (same k x) eqn:Hkx.
  - assert (find_in same k l = false) as Hk by (by rewrite (find_same k x)). rewrite Hk in Hn.
    unfold erase_in, find_in in *. rewrite filter_cons, decide_False by (by rewrite Hkx). cbn [existsb]. rewrite Hkx. cbn. split; [done|]. lia.
  - assert (erase_in same k (x :: l) = x :: erase_in same k l) as -> by (unfold erase_in; by rewrite filter_cons, decide_True).
    assert (find_in same k (x :: l) = find_in same k l) as -> by (unfold find_in; cbn; by rewrite Hkx). cbn [distinct length]. split.
    + split; [by rewrite find_erase, Hx|done].
    + rewrite Hn. destruct (find_in same k l) eqn:Hf; [|done]. destruct l; [done|cbn; lia].
Qed.

End StdFacts.

Section SetFacts.
Context {T : Type} (tr : traits) (op_eq op_gt op_lt : T → T → bool).

(** When two objects are the same element. *)
Definition identical (u v : object T) : bool :=
  match version_of tr with
  | Addresses => address u =? address v
  | Hashed => op_eq (value u) (value v)
  | Ordered => equivalent tr op_gt op_lt (value u) (value v)
  end.

(** The set has the elements [P], [n] of them. *)
Definition represents (d : data T) (P : object T → bool) (n : nat) : Prop :=
  (∀ v, Find tr op_eq op_gt op_lt v d = P v) ∧ Size d = n ∧
  match version_of tr, d with
  | Addresses, Pointers l => distinct Nat.eqb l
  | Hashed, Values l => distinct op_eq l
  | Ordered, Values l => distinct (equivalent tr op_gt op_lt) l
  | _, _ => False
  end.

Lemma nat_equivalence : equivalence Nat.eqb.
Proof. split; [apply Nat.eqb_refl|apply Nat.eqb_sym|]. intros k l m <-%Nat.eqb_eq <-%Nat.eqb_eq. apply Nat.eqb_refl. Qed.

(** [CleverSet] is a set for every type whose operators are what they should be: [==] an
    equivalence, the order a strict weak one, so that being unordered is an equivalence; a
    type with neither is a set of addresses.  [Insert] and [Erase] say whether they changed
    it, and [Size] counts the elements. *)
Theorem clever_set_correct :
  (version_of tr = Hashed → equivalence op_eq) → (version_of tr = Ordered → equivalence (equivalent tr op_gt op_lt)) →
  represents (empty tr) (λ _, false) 0 ∧
  ∀ d P n v, represents d P n →
    (∃ d', Insert tr op_eq op_gt op_lt v d = (negb (P v), d') ∧
      represents d' (λ u, identical u v || P u) (if P v then n else S n)) ∧
    (∃ d', Erase tr op_eq op_gt op_lt v d = (P v, d') ∧
      represents d' (λ u, P u && negb (identical v u)) (if P v then n - 1 else n)).
Proof.
  intros HH HO. unfold represents, empty, Insert, Erase, identical, Find.
  assert (∀ K (same : K → K → bool) (key : object T → K) l (P : object T → bool) v, equivalence same → distinct same l →
    (∀ u, (if find_in same (key u) l then true else false) = P u) →
    (∃ l', insert_in same (key v) l = (negb (P v), l') ∧ (∀ u, (if find_in same (key u) l' then true else false) = same (key u) (key v) || P u) ∧
      length l' = (if P v then length l else S (length l)) ∧ distinct same l') ∧
    (∃ l', (if find_in same (key v) l then (true, erase_in same (key v) l) else (false, l)) = (P v, l') ∧
      (∀ u, (if find_in same (key u) l' then true else false) = P u && negb (same (key v) (key u))) ∧
      length l' = (if P v then length l - 1 else length l) ∧ distinct same l')) as Hstd.
  { intros K same key l P v Heq Hd HP. split.
    - unfold insert_in. rewrite <- (HP v). destruct (find_in same (key v) l) eqn:Hf.
      + exists l. split_and!; try done. intros u. rewrite HP. destruct (same (key u) (key v)) eqn:Huv; [|done].
        rewrite <- HP, (find_same same Heq _ (key v)), Hf by done. done.
      + exists (key v :: l). split_and!; try done. intros u. cbn. rewrite <- HP. by destruct (same (key u) (key v)).
    - destruct (distinct_erase same Heq (key v) l Hd) as [Hd' Hn]. rewrite <- (HP v). destruct (find_in same (key v) l) eqn:Hf.
      + eexists. split_and!; try done. intros u. rewrite (find_erase same Heq), <- HP. by destruct (find_in same (key u) l), (same (key v) (key u)).
      + exists l. split_and!; try done. intros u. rewrite HP. destruct (same (key v) (key u)) eqn:Huv; [|by rewrite andb_true_r].
        rewrite <- HP, <- (find_same same Heq (key v)), Hf by done. done. }
  destruct (version_of tr); (split; [done|]); intros [l|l] P n v (HP&<-&Hd); try done.
  - destruct (Hstd nat Nat.eqb address l P v nat_equivalence Hd HP) as ((l1&H1&H2&H3&H4)&(l2&H5&H6&H7&H8)). split.
    + exists (Pointers l1). unfold Insert_pointer. by rewrite H1.
    + exists (Pointers l2). unfold Erase_pointer. by rewrite H5.
  - destruct (Hstd T op_eq value l P v (HH eq_refl) Hd HP) as ((l1&H1&H2&H3&H4)&(l2&H5&H6&H7&H8)). split.
    + exists (Values l1). unfold Insert_hashed. by rewrite H1.
    + exists (Values l2). unfold Erase_hashed. by rewrite H5.
  - destruct (Hstd T (equivalent tr op_gt op_lt) value l P v (HO eq_refl) Hd HP) as ((l1&H1&H2&H3&H4)&(l2&H5&H6&H7&H8)). split.
    + exists (Values l1). unfold Insert_ordered. by rewrite H1.
    + exists (Values l2). unfold Erase_ordered. by rewrite H5.
Qed.

End SetFacts.

End CleverSet.
