(* ===== verification/RpcGenerator.v ===== *)
(** * The generator of stubs (tools/cactus/rpc/gen-rpc/rpc_generator.cpp)

    [RpcGenerator::Generate] as the calls that it makes on the printers of protobuf: [Print]
    with its variables, [Indent] and [Outdent].  The descriptors are given by what is used of
    them.

    For every file the calls are ones that a printer can carry out, the braces of the text
    match, and the generated [CallMethod] has one branch for each method, in order. *)

From S2P Require Import Prelude.
From stdpp Require Import strings.

#[local] Set Warnings "-clear-no-such-hyp".

#[local] Open Scope string_scope.
#[local] Open Scope list_scope.

(** ** Descriptors and printers *)

Record MethodDescriptor : Type := { method_name : string; input_type : string; output_type : string }.
Record ServiceDescriptor : Type := { service_name : string; methods : list MethodDescriptor }.
Record FileDescriptor : Type := { file_name : string; services : list ServiceDescriptor }.

(** [std::map<std::string, std::string>]: the last value of a key counts. *)
Definition vars : Type := list (string * string).
Fixpoint lookup_var (k : string) (v : vars) : option string :=
  match v with [] => None | (k', x) :: v => if decide (k = k') then Some x else lookup_var k v end.

Inductive command : Type := Print (v : vars) (text : string) | Indent | Outdent.

Definition nl : string := String (Ascii.ascii_of_nat 10) EmptyString.
Definition quote : string := String (Ascii.ascii_of_nat 34) EmptyString.
Fixpoint tabs (n : nat) : string := match n with O => EmptyString | S n => String (Ascii.ascii_of_nat 9) (tabs n) end.

(** ** The program *)

Definition set_method (m : MethodDescriptor) (v : vars) : vars :=
  ("method_output_type", output_type m) :: ("method_input_type", input_type m) :: ("method_name", method_name m) :: v.

(** A loop over the methods: what [body] prints for each, and the variables at its end. *)
Fixpoint method_loop (body : nat → vars → list command) (j : nat) (ms : list MethodDescriptor) (v : vars)
    : list command * vars :=
  match ms with
  | [] => ([], v)
  | m :: ms =>
      let v := set_method m v in
      let '(rest, v') := method_loop body (S j) ms v in
      (body j v ++ rest, v')
  end.

Definition client_declaration (_ : nat) (v : vars) : list command :=
  [Print v ("$method_output_type$ $method_name$(const $method_input_type$& req);" +:+ nl)].

Definition handler_declaration (_ : nat) (v : vars) : list command :=
  [Print v ("virtual void $method_name$(const $method_input_type$& req, $method_output_type$* rsp) = 0;" +:+ nl)].

(** The two classes of a service in the header. *)
Definition header_of (service : ServiceDescriptor) : list command :=
  let v := [("class_name", service_name service +:+ "Client")] in
  let '(client, v1) := method_loop client_declaration 0 (methods service) v in
  let v2 := ("class_name", service_name service +:+ "Handler") :: v1 in
  let '(handler, _) := method_loop handler_declaration 0 (methods service) v2 in
  [Print v ("class $class_name$ {" +:+ nl);
   Print [] ("public:" +:+ nl);
   Indent;
   Print v ("explicit $class_name$(std::unique_ptr<cactus::IRpcChannel> channel)" +:+ nl);
   Print [] ("    : channel_{std::move(channel)} {}" +:+ nl)] ++
  (match methods service with [] => [] | _ => Print [] nl :: client end) ++
  [Outdent;
   Print [] nl;
   Print [] ("private:" +:+ nl);
   Indent;
   Print [] ("std::unique_ptr<cactus::IRpcChannel> channel_;" +:+ nl);
   Outdent;
   Print [] ("};" +:+ nl);
   Print [] nl;
   Print v2 ("class $class_name$ : public cactus::IRpcService {" +:+ nl);
   Print [] ("public:" +:+ nl);
   Indent;
   Print [] ("void CallMethod(const google::protobuf::MethodDescriptor* method," +:+ nl);
   Print [] (tabs 8 +:+ "const google::protobuf::Message& request," +:+ nl);
   Print [] (tabs 8 +:+ "google::protobuf::Message* response) override;" +:+ nl);
   Print [] nl] ++
  (match methods service with [] => [] | _ => Print [] nl :: handler end) ++
  [Print [] nl;
   Print [] ("const google::protobuf::ServiceDescriptor* ServiceDescriptor() override;" +:+ nl);
   Outdent;
   Print [] ("};" +:+ nl)].

Definition client_definition (_ : nat) (v : vars) : list command :=
  [Print v ("$method_output_type$ $class_name$::$method_name$(const $method_input_type$& req) {" +:+ nl);
   Indent;
   Print v ("$method_output_type$ rsp;" +:+ nl);
   Print v ("const auto* method_descr = $service_name$::descriptor()->FindMethodByName(" +:+ quote +:+ "$method_name$" +:+ quote +:+ ");" +:+ nl);
   Print [] ("channel_->CallMethod(method_descr, req, &rsp);" +:+ nl);
   Print [] ("return rsp;" +:+ nl);
   Outdent;
   Print [] ("};" +:+ nl);
   Print [] nl].

Definition condition : string := "if (method->name() == " +:+ quote +:+ "$method_name$" +:+ quote +:+ ") {" +:+ nl.

Definition method_call : string :=
  "$method_name$(static_cast<const $method_input_type$&>(request), static_cast<$method_output_type$*>(response));" +:+ nl.

(** A branch of [CallMethod]. *)
Definition branch (j : nat) (v : vars) : list command :=
  [Print v (match j with O => condition | S _ => "} else " +:+ condition end);
   Indent;
   Print v method_call;
   Outdent].

(** The definitions of a service in the source. *)
Definition source_of (service : ServiceDescriptor) : list command :=
  let v := [("class_name", service_name service +:+ "Client"); ("service_name", service_name service)] in
  let '(client, v1) := method_loop client_definition 0 (methods service) v in
  let v2 := ("class_name", service_name service +:+ "Handler") :: v1 in
  let '(branches, v3) := method_loop branch 0 (methods service) v2 in
  (match methods service with [] => [] | _ => Print [] nl :: client end) ++
  [Print v2 ("void $class_name$::CallMethod(const google::protobuf::MethodDescriptor* method," +:+ nl);
   Print [] (tabs 18 +:+ "const google::protobuf::Message& request," +:+ nl);
   Print [] (tabs 18 +:+ "google::protobuf::Message* response) {" +:+ nl)] ++
  (match methods service with [] => [] | _ => Indent :: branches ++ [Print [] ("}" +:+ nl); Outdent] end) ++
  [Print [] ("}" +:+ nl);
   Print [] nl;
   Print v3 ("const google::protobuf::ServiceDescriptor* $class_name$::ServiceDescriptor() {" +:+ nl);
   Indent;
   Print v3 ("return $service_name$::descriptor();" +:+ nl);
   Outdent;
   Print [] ("}" +:+ nl)].

(** A part of a file: its name, the insertion point, and what is printed there. *)
Record insertion : Type := { target : string; point : string; commands : list command }.

(** [name.ends_with(".proto")] and the name without it. *)
Definition strip_proto (name : string) : option string :=
  if decide (6 <= String.length name ∧ String.substring (String.length name - 6) 6 name = ".proto")%nat
  then Some (String.substring 0 (String.length name - 6) name) else None.

Definition Generate (file : FileDescriptor) : outcome (list insertion) :=
  match strip_proto (file_name file) with
  | None => Fail (Exn (RuntimeError "Bad file extention"))
  | Some name =>
      Ok [{| target := name +:+ ".pb.h"; point := "includes";
             commands := [Print [] ("#include <cactus/rpc/rpc.h>" +:+ nl); Print [] ("#include <memory>" +:+ nl)] |};
          {| target := name +:+ ".pb.h"; point := "namespace_scope"; commands := concat (header_of <$> services file) |};
          {| target := name +:+ ".pb.cc"; point := "namespace_scope"; commands := concat (source_of <$> services file) |}]
  end.

(** ** What a printer asks for *)

(** The names between pairs of dollars; [None] for a dollar that is left over. *)
Fixpoint holes (inside : option string) (s : string) : option (list string) :=
  match s with
  | EmptyString => match inside with None => Some [] | Some _ => None end
  | String c s =>
      if decide (c = "$"%char) then
        match inside with
        | None => holes (Some EmptyString) s
        | Some name => cons name <$> holes None s
        end
      else match inside with
           | None => holes None s
           | Some name => holes (Some (name +:+ String c EmptyString)) s
           end
  end.

(** The depth of braces after a text; [None] if one is closed that is not open. *)
Fixpoint braces (n : nat) (s : string) : option nat :=
  match s with
  | EmptyString => Some n
  | String c s =>
      if decide (c = "{"%char) then braces (S n) s
      else if decide (c = "}"%char) then match n with O => None | S n => braces n s end
      else braces n s
  end.

(** A printer with its indentation, and the depth of the braces so far. *)
Definition print_one (c : command) (st : nat * nat) : option (nat * nat) :=
  let '(indent, depth) := st in
  match c with
  | Print v text =>
      names ← holes None text;
      if decide (Forall (λ k, is_Some (lookup_var k v)) names) then depth ← braces depth text; Some (indent, depth) else None
  | Indent => Some (S indent, depth)
  | Outdent => match indent with O => None | S indent => Some (indent, depth) end
  end.

Fixpoint print_all (cs : list command) (st : nat * nat) : option (nat * nat) :=
  match cs with [] => Some st | c :: cs => st ← print_one c st; print_all cs st end.

(** The name that a branch of [CallMethod] tests for, and whether it is the first. *)
Definition branch_of (c : command) : option (bool * string) :=
  match c with
  | Print v text =>
      if decide (text = condition) then pair true <$> lookup_var "method_name" v
      else if decide (text = "} else " +:+ condition) then pair false <$> lookup_var "method_name" v else None
  | _ => None
  end.

(** The call of a branch: the handler, and the types that its arguments are cast to. *)
Definition call_of (c : command) : option MethodDescriptor :=
  match c with
  | Print v text =>
      if decide (text = method_call) then
        name ← lookup_var "method_name" v; input ← lookup_var "method_input_type" v;
        output ← lookup_var "method_output_type" v;
        Some {| method_name := name; input_type := input; output_type := output |}
      else None
  | _ => None
  end.

(** ** Variables *)

Definition has (v : vars) (k : string) : Prop := is_Some (lookup_var k v).

Lemma has_here v k x : has ((k, x) :: v) k.
Proof. unfold has. cbn. rewrite decide_True by done. by eexists. Qed.

Lemma has_there v k k' x : has v k → has ((k', x) :: v) k.
Proof. unfold has. cbn. intros ?. case_decide; [by eexists|done]. Qed.

Create HintDb generator.
#[local] Hint Resolve has_here has_there : generator.
#[local] Hint Constructors Forall : generator.

(** The variables of a method. *)
Definition method_keys : list string := ["method_name"; "method_input_type"; "method_output_type"].

Lemma set_method_keys m v : Forall (has (set_method m v)) method_keys.
Proof. unfold set_method, method_keys. eauto 10 with generator. Qed.

Lemma set_method_keeps m v k : has v k → has (set_method m v) k.
Proof. unfold set_method. eauto with generator. Qed.

(** ** Printing *)

Lemma print_all_app cs cs' st : print_all (cs ++ cs') st = (st ← print_all cs st; print_all cs' st).
Proof. revert st. induction cs as [|c cs IH]; intros st; [done|]. cbn. destruct (print_one c st); cbn; [apply IH|done]. Qed.

Lemma print_seq cs cs' st st1 st2 :
  print_all cs st = Some st1 → print_all cs' st1 = Some st2 → print_all (cs ++ cs') st = Some st2.
Proof. intros H1 H2. rewrite print_all_app, H1. exact H2. Qed.

Lemma print_text v text names cs i b b' st :
  holes None text = Some names → Forall (has v) names → braces b text = Some b' → print_all cs (i, b') = Some st →
  print_all (Print v text :: cs) (i, b) = Some st.
Proof. intros Hh Hv Hb Hc. cbn. rewrite Hh. cbn. rewrite decide_True by done. rewrite Hb. cbn. exact Hc. Qed.

Lemma print_nil st : print_all [] st = Some st.
Proof. done. Qed.

(** The variables of a text are set. *)
Ltac solve_vars := unfold method_keys in *; repeat match goal with H : Forall _ (_ :: _) |- _ => apply Forall_cons in H as [? H] end; eauto 12 with generator.

(** The next command of a known list. *)
Ltac print_step :=
  match goal with
  | |- print_all [] _ = _ => apply print_nil
  | |- print_all (Indent :: ?cs) (?i, ?b) = ?r => change (print_all cs (S i, b) = r)
  | |- print_all (Outdent :: ?cs) (S ?i, ?b) = ?r => change (print_all cs (i, b) = r)
  | |- print_all (Print _ _ :: _) _ = _ => eapply print_text; [vm_compute; reflexivity|solve_vars|vm_compute; reflexivity|]
  end.
Ltac print_steps := repeat print_step.

(** A loop, when each round takes the state [f j] to [f (S j)]. *)
Lemma method_loop_ok body (f : nat → nat * nat) keys j ms v :
  (∀ j v, Forall (has v) keys → Forall (has v) method_keys → print_all (body j v) (f j) = Some (f (S j))) →
  Forall (has v) keys →
  ∃ cs v', method_loop body j ms v = (cs, v') ∧ print_all cs (f j) = Some (f (j + length ms)) ∧ ∀ k, has v k → has v' k.
Proof.
  intros Hbody. revert j v. induction ms as [|m ms IH]; intros j v Hv; cbn [method_loop].
  - exists [], v. rewrite Nat.add_0_r. done.
  - assert (Forall (has (set_method m v)) keys) as Hm by (eapply Forall_impl; [done|]; intros k; apply set_method_keeps).
    destruct (IH (S j) (set_method m v) Hm) as (cs&v'&He&Hp&Hk). rewrite He. eexists _, v'. split; [done|]. split.
    + eapply print_seq; [apply Hbody; [done|apply set_method_keys]|]. cbn [length]. by rewrite Nat.add_succ_r.
    + intros k Hhk. by apply Hk, set_method_keeps.
Qed.

Lemma header_ok sv : print_all (header_of sv) (0, 0) = Some (0, 0).
Proof.
  unfold header_of. set (v := [("class_name", _)]).
  destruct (method_loop_ok client_declaration (λ _, (1, 1)) [] 0 (methods sv) v) as (client&v1&->&Hc&Hk1).
  { intros j w _ Hw. unfold client_declaration. print_steps. }
  { constructor. }
  set (v2 := ("class_name", service_name sv +:+ "Handler") :: v1).
  destruct (method_loop_ok handler_declaration (λ _, (1, 1)) [] 0 (methods sv) v2) as (handler&v3&->&Hh&_).
  { intros j w _ Hw. unfold handler_declaration. print_steps. }
  { constructor. }
  assert (has v "class_name") by apply has_here. assert (has v2 "class_name") by apply has_here. clearbody v v2.
  eapply print_seq; [print_steps|]. eapply (print_seq _ _ _ (1, 1)).
  { destruct (methods sv); [print_steps|]. print_step. exact Hc. }
  eapply print_seq; [print_steps|]. eapply (print_seq _ _ _ (1, 1)).
  { destruct (methods sv); [print_steps|]. print_step. exact Hh. }
  print_steps.
Qed.

(** The depth of braces before a branch: the first opens the chain, each other one closes the last. *)
Definition branch_depth (j : nat) : nat * nat := (1, match j with O => 1 | S _ => 2 end).

Lemma branch_ok j v : Forall (has v) method_keys → print_all (branch j v) (branch_depth j) = Some (branch_depth (S j)).
Proof. intros Hv. unfold branch, branch_depth. destruct j as [|j]; print_steps. Qed.

Lemma source_ok sv : print_all (source_of sv) (0, 0) = Some (0, 0).
Proof.
  unfold source_of. set (v := [("class_name", _); _]).
  assert (Forall (has v) ["class_name"; "service_name"]) as Hv by (unfold v; eauto 10 with generator). clearbody v.
  destruct (method_loop_ok client_definition (λ _, (0, 0)) ["class_name"; "service_name"] 0 (methods sv) v)
    as (client&v1&->&Hc&Hk1); [|done|].
  { intros j w Hw Hm. unfold client_definition. print_steps. }
  set (v2 := ("class_name", service_name sv +:+ "Handler") :: v1).
  assert (Forall (has v2) ["class_name"; "service_name"]) as Hv2.
  { apply Forall_cons in Hv as [? Hv]. apply Forall_cons in Hv as [? _]. unfold v2. eauto 10 with generator. }
  clearbody v2.
  destruct (method_loop_ok branch branch_depth [] 0 (methods sv) v2) as (branches&v3&->&Hb&Hk3);
    [by intros; apply branch_ok|constructor|].
  assert (Forall (has v3) ["class_name"; "service_name"]) as Hv3 by (eapply Forall_impl; [exact Hv2|]; apply Hk3).
  eapply (print_seq _ _ _ (0, 0)).
  { destruct (methods sv); [print_steps|]. print_step. exact Hc. }
  eapply print_seq; [print_steps|]. eapply (print_seq _ _ _ (0, 1)).
  { destruct (methods sv) as [|m ms]; [print_steps|]. print_step. eapply print_seq; [exact Hb|].
    change (branch_depth (0 + length (m :: ms))) with (1, 2). print_steps. }
  print_steps.
Qed.

Lemma print_concat {A} (f : A → list command) (l : list A) st :
  (∀ x, print_all (f x) st = Some st) → print_all (concat (f <$> l)) st = Some st.
Proof. intros H. induction l as [|x l IH]; [done|]. cbn. eapply print_seq; [apply H|exact IH]. Qed.

(** ** The branches of CallMethod *)

(** What is read from the commands of a loop is what is read from those of each round. *)
Lemma omap_method_loop {A} (g : command → option A) body (r : nat → MethodDescriptor → list A) j ms v :
  (∀ j m v, omap g (body j (set_method m v)) = r j m) →
  omap g (method_loop body j ms v).1 = concat (imap (λ i, r (j + i)) ms).
Proof.
  intros Hbody. revert j v. induction ms as [|m ms IH]; intros j v; [done|].
  cbn [method_loop]. specialize (IH (S j) (set_method m v)).
  destruct (method_loop body (S j) ms (set_method m v)) as [rest v']. cbn [fst] in *.
  rewrite omap_app, Hbody, IH, imap_cons, Nat.add_0_r. cbn [concat]. do 2 f_equal.
  apply imap_ext. intros i x _. cbn. by rewrite Nat.add_succ_r.
Qed.

Lemma concat_imap_nil {A B} (ms : list A) : concat (imap (λ _ _, @nil B) ms) = [].
Proof. induction ms as [|m ms IH]; [done|]. rewrite imap_cons. exact IH. Qed.

Lemma concat_imap_single {A B} (f : nat → A → B) (ms : list A) : concat (imap (λ i m, [f i m]) ms) = imap f ms.
Proof. revert f. induction ms as [|m ms IH]; intros f; [done|]. rewrite !imap_cons. cbn. f_equal. apply IH. Qed.

(** A reading of the branches, which ignores the rest of the source. *)
Lemma omap_source {A} (g : command → option A) (r : nat → MethodDescriptor → A) sv :
  g Indent = None → g Outdent = None →
  (∀ v text, text ≠ condition → text ≠ "} else " +:+ condition → text ≠ method_call → g (Print v text) = None) →
  (∀ j m v, omap g (branch j (set_method m v)) = [r j m]) →
  omap g (source_of sv) = imap r (methods sv).
Proof.
  intros Hi Ho Hp Hb. unfold source_of. set (v := [("class_name", _); _]).
  pose proof (omap_method_loop g client_definition (λ _ _, []) 0 (methods sv) v) as Hc.
  destruct (method_loop client_definition 0 (methods sv) v) as [client v1]. cbn [fst] in Hc.
  set (v2 := ("class_name", _) :: v1).
  pose proof (omap_method_loop g branch (λ j m, [r j m]) 0 (methods sv) v2 Hb) as Hbs.
  destruct (method_loop branch 0 (methods sv) v2) as [branches v3]. cbn [fst] in Hbs.
  rewrite concat_imap_single in Hbs. rewrite concat_imap_nil in Hc.
  assert (∀ v text cs, text ≠ condition → text ≠ "} else " +:+ condition → text ≠ method_call →
            omap g (Print v text :: cs) = omap g cs) as Hprint by (intros; cbn; by rewrite Hp).
  assert (∀ cs, omap g (Indent :: cs) = omap g cs) as Hindent by (intros; cbn; by rewrite Hi).
  assert (∀ cs, omap g (Outdent :: cs) = omap g cs) as Houtdent by (intros; cbn; by rewrite Ho).
  assert (omap g client = []) as Hclient.
  { apply Hc. intros. unfold client_definition. repeat first [rewrite Hprint by discriminate|rewrite Hindent|rewrite Houtdent]. done. }
  destruct (methods sv) as [|m ms].
  - cbn [app]. repeat first [rewrite Hprint by discriminate|rewrite Hindent|rewrite Houtdent]. done.
  - rewrite !omap_app.
    repeat first [rewrite Hprint by discriminate|rewrite Hindent|rewrite Houtdent|rewrite omap_app].
    rewrite Hclient, Hbs. cbn [omap list_omap]. by rewrite app_nil_l, !app_nil_r.
Qed.

Lemma branches_of_source sv : omap branch_of (source_of sv) = imap (λ j m, (bool_decide (j = 0), method_name m)) (methods sv).
Proof.
  apply omap_source; [done|done| |].
  - intros v text H1 H2 _. unfold branch_of. by rewrite !decide_False.
  - intros [|j] m v; vm_compute; reflexivity.
Qed.

Lemma calls_of_source sv : omap call_of (source_of sv) = methods sv.
Proof.
  rewrite (omap_source _ (λ _ m, m)); [|done|done| |].
  - change (imap (const (@id MethodDescriptor)) (methods sv) = methods sv). by rewrite imap_const, list_fmap_id.
  - intros v text _ _ H. unfold call_of. by rewrite decide_False.
  - intros [|j] [] v; vm_compute; reflexivity.
Qed.

(** ** The name of the file *)

Lemma substring_all s : String.substring 0 (String.length s) s = s.
Proof. induction s as [|c s IH]; [done|]. cbn. by rewrite IH. Qed.

Lemma substring_split n m s : n + m = String.length s → s = String.substring 0 n s +:+ String.substring n m s.
Proof.
  revert n. induction s as [|c s IH]; intros [|n] Hl; cbn in Hl; try lia.
  - by replace m with 0 by lia.
  - cbn in Hl |- *. destruct m as [|m]; [lia|]. replace m with (String.length s) by lia. by rewrite substring_all.
  - cbn. unfold String.append at 1. cbn. f_equal. apply IH. lia.
Qed.

Lemma length_append s t : String.length (s +:+ t) = String.length s + String.length t.
Proof. induction s as [|c s IH]; [done|]. cbn. by rewrite <-IH. Qed.

Lemma substring_append s t :
  String.substring 0 (String.length s) (s +:+ t) = s ∧ String.substring (String.length s) (String.length t) (s +:+ t) = t.
Proof.
  induction s as [|c s [IH1 IH2]].
  - split; [by destruct t|apply substring_all].
  - change (String c s +:+ t) with (String c (s +:+ t)). cbn. by rewrite IH1, IH2.
Qed.

Lemma strip_proto_spec name base : strip_proto name = Some base ↔ name = base +:+ ".proto".
Proof.
  unfold strip_proto. split.
  - case_decide as H; [|done]. destruct H as [Hl He]. intros [= <-]. rewrite <-He. apply substring_split. lia.
  - intros ->. rewrite length_append. change (String.length ".proto") with 6. replace (String.length base + 6 - 6) with (String.length base) by lia.
    destruct (substring_append base ".proto") as [H1 H2]. rewrite H1. rewrite decide_True; [done|]. split; [lia|exact H2].
Qed.

Lemma strip_proto_none name : strip_proto name = None ↔ ∀ base, name ≠ base +:+ ".proto".
Proof.
  split.
  - intros H base E. apply strip_proto_spec in E. congruence.
  - intros H. destruct (strip_proto name) as [base|] eqn:E; [|done]. by apply strip_proto_spec in E as ?%H.
Qed.

(** ** The theorem *)

(** A chain of [if] and [else if] on the name of a method: the call of the first test it passes. *)
Fixpoint chain (tests : list (bool * string)) (calls : list MethodDescriptor) (name : string) : option MethodDescriptor :=
  match tests, calls with
  | (_, test) :: tests, call :: calls => if decide (test = name) then Some call else chain tests calls name
  | _, _ => None
  end.
Definition dispatch (cs : list command) (name : string) : option MethodDescriptor :=
  chain (omap branch_of cs) (omap call_of cs) name.

Lemma chain_imap (first : nat → bool) ms name :
  chain (imap (λ i m, (first i, method_name m)) ms) ms name = head (filter (λ m, method_name m = name) ms).
Proof.
  revert first. induction ms as [|m ms IH]; intros first; [done|]. rewrite imap_cons. cbn [chain].
  case_decide as H; [by rewrite filter_cons_True|]. rewrite filter_cons_False by done. apply (IH (first ∘ S)).
Qed.

(** With names that differ, as protobuf asks for, each method is dispatched to its own handler, and
    no other name to any. *)
Lemma dispatch_source sv :
  NoDup (method_name <$> methods sv) →
  (∀ m, m ∈ methods sv → dispatch (source_of sv) (method_name m) = Some m) ∧
  ∀ name, name ∉ method_name <$> methods sv → dispatch (source_of sv) name = None.
Proof.
  intros Hnd. unfold dispatch. rewrite branches_of_source, calls_of_source. split; intros x Hx; rewrite chain_imap.
  - induction (methods sv) as [|m ms IH]; [by apply elem_of_nil in Hx|].
    cbn in Hnd. apply NoDup_cons in Hnd as [Hm Hnd]. apply elem_of_cons in Hx as [->|Hx]; [by rewrite filter_cons_True|].
    rewrite filter_cons_False; [by apply IH|]. intros E. apply Hm. rewrite E. by apply list_elem_of_fmap_2.
  - destruct (filter _ (methods sv)) as [|m l] eqn:E; [done|].
    assert (m ∈ filter (λ m, method_name m = x) (methods sv)) as Hm by (rewrite E; apply list_elem_of_here).
    apply list_elem_of_filter in Hm as [<- Hm]. exfalso. by apply Hx, list_elem_of_fmap_2.
Qed.

(** [Generate] throws for a file whose name does not end in [.proto], and in no other case.  Of the
    rest, what it inserts goes to the header and the source of the file; each part is one that a
    printer can print (every variable of a text is set, no [Outdent] is without its [Indent]), and
    that leaves no brace open and no indentation; and for every service whose methods have
    different names the generated [CallMethod] tests for them in their order, with [else] before
    all but the first, and takes each to the call of its own handler with its own types, and any
    other name to none. *)
Theorem generator_correct file :
  (Generate file = Fail (Exn (RuntimeError "Bad file extention")) ↔ ∀ base, file_name file ≠ base +:+ ".proto") ∧
  (∀ base, file_name file = base +:+ ".proto" →
     ∃ includes header source, Generate file = Ok [includes; header; source] ∧
       target includes = base +:+ ".pb.h" ∧ target header = base +:+ ".pb.h" ∧ target source = base +:+ ".pb.cc" ∧
       Forall (λ part, print_all (commands part) (0, 0) = Some (0, 0)) [includes; header; source] ∧
       commands source = concat (source_of <$> services file)) ∧
  ∀ sv, sv ∈ services file → NoDup (method_name <$> methods sv) →
    omap branch_of (source_of sv) = imap (λ j m, (bool_decide (j = 0), method_name m)) (methods sv) ∧
    (∀ m, m ∈ methods sv → dispatch (source_of sv) (method_name m) = Some m) ∧
    ∀ name, name ∉ method_name <$> methods sv → dispatch (source_of sv) name = None.
Proof.
  split_and!.
  - rewrite <-strip_proto_none. unfold Generate. by destruct (strip_proto _).
  - intros base Hb%strip_proto_spec. unfold Generate. rewrite Hb. do 3 eexists. repeat split.
    rewrite !Forall_cons. split_and!; cbn [commands]; [reflexivity|apply print_concat, header_ok|apply print_concat, source_ok|constructor].
  - intros sv _ Hnd. split; [apply branches_of_source|by apply dispatch_source].
Qed.

(** A file with one service of two methods. *)
Definition example_file : FileDescriptor :=
  {| file_name := "search.proto";
     services := [{| service_name := "Search";
                     methods := [{| method_name := "Find"; input_type := "Query"; output_type := "Answer" |};
                                 {| method_name := "Count"; input_type := "Query"; output_type := "Number" |}] |}] |}.

Lemma generator_correct_witness :
  (target <$> match Generate example_file with Ok parts => parts | _ => [] end) =
    ["search.pb.h"; "search.pb.h"; "search.pb.cc"] ∧
  ∃ sv, services example_file = [sv] ∧ dispatch (source_of sv) "Count" = last (methods sv) ∧
    dispatch (source_of sv) "Drop" = None.
Proof.
  split; [vm_compute; reflexivity|]. eexists. split; [reflexivity|].
  destruct (generator_correct example_file) as (_&_&H).
  edestruct H as (_&Hin&Hout).
  - apply list_elem_of_here.
  - apply (bool_decide_unpack _). vm_compute. exact I.
  - split; [|apply Hout; apply (bool_decide_unpack _); vm_compute; exact I].
    apply (Hin {| method_name := "Count"; input_type := "Query"; output_type := "Number" |}).
    right. apply list_elem_of_here.
Defined.
