(* ===== verification/SubsetChecks.v ===== *)
(** * Inputs and checks of subset-sum (subset-sum/commons.cpp)

    [CheckSubsets], by which an answer is checked, and the two generators of data: with and
    without two sets of equal sum.  The numbers that are drawn at random are arguments, and
    so is the shuffle.

    The check accepts exactly the valid answers; for no numbers drawn has the data of
    [GenerateFalse] an answer, and for all numbers drawn the data of [GenerateTrue] has one. *)

From S2P Require Import Prelude SubsetSum.
From stdpp Require Import gmap.
#[local] Set Warnings "-clear-no-such-hyp".
Open Scope Z_scope.

(** ** CheckSubsets *)

(** One of its loops: [None] when an index is there for the second time.  [sign] is 1 for
    the first set and -1 for the second. *)
Fixpoint check_loop (data : list Z) (sign : Z) (indices : list nat) (sum : Z) (used_indices : gset nat)
    : outcome (option (Z * gset nat)) :=
  match indices with
  | [] => Ok (Some (sum, used_indices))
  | i :: indices =>
      match data !! i with
      | None => Fail (Exn (OutOfRange "vector::at"))
      | Some x =>
          sum <-? checked64 (sum + sign * x) ;;
          if decide (i ∈ used_indices) then Ok None else check_loop data sign indices sum ({[i]} ∪ used_indices)
      end
  end.

(** Whether all the [REQUIRE]s hold. *)
Definition CheckSubsets (data : list Z) (first_indices second_indices : list nat) : outcome bool :=
  if decide (first_indices = []) then Ok false
  else if decide (second_indices = []) then Ok false
  else
    r <-? check_loop data 1 first_indices 0 ∅ ;;
    match r with
    | None => Ok false
    | Some (sum, used_indices) =>
        r <-? check_loop data (-1) second_indices sum used_indices ;;
        match r with None => Ok false | Some (sum, _) => Ok (bool_decide (sum = 0)) end
    end.

(** ** GenerateFalse *)

Fixpoint GenerateFalse_loop (m bit : Z) (data : list Z) : outcome (list Z) :=
  match data with
  | [] => Ok []
  | x :: data =>
      let bit := Z.shiftr bit 1 in
      y <-? checked64 (x * m) ;;
      y <-? checked64 (y + bit) ;;
      rest <-? GenerateFalse_loop m bit data ;;
      Ok (y :: rest)
  end.

(** [m] and [data] are what [random] and [chunk] give. *)
Definition GenerateFalse (size : nat) (random : Z → Z → Z) (chunk : nat → Z → Z → list Z) : outcome (list Z) :=
  if decide (size < 32)%nat then
    let bit := u32 (Z.shiftl 1 (Z.of_nat size)) in
    let m := random bit (u32 (2 * bit - 1)) in
    GenerateFalse_loop m bit (chunk size (-10) 10)
  else Fail UB.

(** ** GenerateTrue *)

Definition kValue : Z := kIntMax64 / 1000.

Fixpoint reduce (sum : Z) (data : list Z) : outcome Z :=
  match data with [] => Ok sum | x :: data => sum <-? checked64 (sum + x) ;; reduce sum data end.

Definition GenerateTrue (size : nat) (random : Z → Z → Z) (chunk : nat → Z → Z → list Z) (shuffle : list Z → list Z)
    : outcome (list Z) :=
  let num_elements := Z.to_nat (random 2 (Z.of_nat size)) in
  let first_size := Z.to_nat (random 1 (Z.of_nat num_elements - 1)) in
  let data := chunk size (- kValue) kValue in
  sum <-? reduce 0 (take first_size data) ;;
  rest <-? reduce 0 (take (num_elements - first_size) (drop first_size data)) ;;
  sum <-? checked64 (sum - rest) ;;
  match data with
  | [] => Fail UB
  | x :: data => x <-? checked64 (x - sum) ;; Ok (shuffle (x :: data))
  end.

(** ** The check *)

Definition abs_of (data : list Z) (indices : list nat) : Z := foldr (λ i s, Z.abs (nth i data 0) + s) 0 indices.

Lemma abs_of_app data a b : abs_of data (a ++ b) = abs_of data a + abs_of data b.
Proof. unfold abs_of. induction a as [|i a IH]; cbn; [done|]. rewrite IH. lia. Qed.

Lemma abs_of_perm data a b : a ≡ₚ b → abs_of data a = abs_of data b.
Proof. unfold abs_of. induction 1; cbn; lia. Qed.

Lemma abs_of_nonneg data a : 0 <= abs_of data a.
Proof. unfold abs_of. induction a; cbn; lia. Qed.

Lemma abs_of_all l data : abs_of (l ++ data) (seq (length l) (length data)) = magnitude data.
Proof.
  revert l. induction data as [|x data IH]; intros l; [done|]. cbn. specialize (IH (l ++ [x])).
  rewrite length_app, Nat.add_1_r, <-app_assoc in IH. cbn in IH. unfold magnitude, abs_of in *. rewrite IH.
  rewrite app_nth2, Nat.sub_diag by lia. done.
Qed.

(** Distinct indices cannot bring more than all the data has. *)
Lemma abs_of_magnitude data indices :
  NoDup indices → Forall (λ i, i < length data)%nat indices → abs_of data indices <= magnitude data.
Proof.
  intros Hnd Hr. assert (indices ⊆+ seq 0 (length data)) as [k Hk]%submseteq_Permutation.
  { apply NoDup_submseteq; [done|]. intros i Hi. apply elem_of_seq. rewrite Forall_forall in Hr. specialize (Hr i Hi). lia. }
  rewrite <-(abs_of_all [] data). cbn [app length]. rewrite (abs_of_perm _ _ _ Hk), abs_of_app.
  pose proof (abs_of_nonneg data k). lia.
Qed.

Definition fresh (data : list Z) (used : gset nat) (indices : list nat) : Prop :=
  NoDup indices ∧ Forall (λ i, i < length data)%nat indices ∧ Forall (λ i, i ∉ used) indices.

Lemma check_loop_sound data sign indices sum used sum' used' :
  check_loop data sign indices sum used = Ok (Some (sum', used')) →
  fresh data used indices ∧ sum' = sum + sign * sum_of data indices ∧ used' = list_to_set indices ∪ used.
Proof.
  revert sum used. induction indices as [|i indices IH]; intros sum used; cbn [check_loop].
  - intros [= <- <-]. split_and!; [by repeat constructor|cbn; lia|set_solver].
  - destruct (data !! i) as [x|] eqn:Hx; [|done]. unfold checked64. destruct (in_s64 _); cbn [bindO]; [|done].
    case_decide as Hi; [done|]. intros ((Hnd&Hr&Hf)&->&->)%IH. split_and!.
    + split_and!.
      * constructor; [|done]. intros Hin. rewrite Forall_forall in Hf. specialize (Hf i Hin). set_solver.
      * constructor; [by apply lookup_lt_Some in Hx|done].
      * constructor; [done|]. eapply Forall_impl; [exact Hf|]. set_solver.
    + unfold sum_of. cbn [foldr]. rewrite nth_lookup, Hx. cbn. lia.
    + cbn. set_solver.
Qed.

Lemma check_loop_complete data sign indices sum used :
  Z.abs sign = 1 → fresh data used indices → Z.abs sum + abs_of data indices <= kIntMax64 →
  check_loop data sign indices sum used = Ok (Some (sum + sign * sum_of data indices, list_to_set indices ∪ used)).
Proof.
  intros Hs. revert sum used. induction indices as [|i indices IH]; intros sum used (Hnd&Hr&Hf) Hb; cbn [check_loop].
  - cbn. do 3 f_equal; [lia|set_solver].
  - apply NoDup_cons in Hnd as [Hi Hnd]. apply Forall_cons in Hr as [Hl Hr]. apply Forall_cons in Hf as [Hu Hf].
    apply lookup_lt_is_Some_2 in Hl as [x Hx]. rewrite Hx.
    assert (nth i data 0 = x) as Hn by (by rewrite nth_lookup, Hx).
    unfold abs_of in Hb. cbn [foldr] in Hb. rewrite Hn in Hb. fold (abs_of data indices) in Hb.
    pose proof (abs_of_nonneg data indices). assert (Z.abs (sum + sign * x) <= Z.abs sum + Z.abs x) by nia.
    unfold kIntMax64 in Hb. rewrite checked64_ok by lia. cbn [bindO]. rewrite decide_False by done.
    rewrite IH; [|split_and!; [done|done|]|unfold kIntMax64; lia].
    + unfold sum_of. cbn [foldr]. rewrite Hn. cbn. do 3 f_equal; [lia|set_solver].
    + rewrite !Forall_forall in *. intros j Hj. rewrite not_elem_of_union, not_elem_of_singleton. split; [|by apply Hf].
      intros ->. done.
Qed.

Lemma check_subsets_ok data first second :
  magnitude data <= kIntMax64 → CheckSubsets data first second = Ok true ↔ valid data first second.
Proof.
  intros Hm. unfold CheckSubsets, valid. split.
  - case_decide; [done|]. case_decide; [done|].
    destruct (check_loop data 1 first 0 ∅) as [[[sum used]|]|] eqn:E1; cbn [bindO]; try done.
    destruct (check_loop data (-1) second sum used) as [[[sum' used']|]|] eqn:E2; cbn [bindO]; try done.
    apply check_loop_sound in E1 as ((?&?&?)&->&->). apply check_loop_sound in E2 as ((?&?&Hf)&->&->).
    intros [= Hs%bool_decide_eq_true]. split_and!; [done|done| |by apply Forall_app|lia].
    apply NoDup_app. split_and!; [done| |done]. intros i Hi1 Hi2. rewrite Forall_forall in Hf. specialize (Hf i Hi2). set_solver.
  - intros (?&?&Hnd&Hr&Hs). rewrite !decide_False by done. pose proof (abs_of_magnitude _ _ Hnd Hr) as Hb.
    rewrite abs_of_app in Hb. apply NoDup_app in Hnd as (?&Hd&?). apply Forall_app in Hr as [? ?].
    assert (∀ a, Z.abs (sum_of data a) <= abs_of data a) as Ha
      by (intros a; unfold sum_of, abs_of; induction a; cbn; lia).
    pose proof (Ha first). pose proof (abs_of_nonneg data second).
    rewrite check_loop_complete; [|done|split_and!; [done|done|]|lia].
    + cbn [bindO]. rewrite check_loop_complete; [|done|split_and!; [done|done|]|lia].
      * cbn [bindO]. f_equal. apply bool_decide_eq_true. lia.
      * apply Forall_forall. intros i Hi. specialize (Hd i). set_solver.
    + apply Forall_forall. set_solver.
Qed.

(** ** The generator of data without an answer *)

(** The powers of two below [2 ^ n], from the largest. *)
Fixpoint bits (n : nat) : list Z := match n with O => [] | S n => 2 ^ Z.of_nat n :: bits n end.

Lemma pow2_S n : 2 ^ Z.of_nat (S n) = 2 * 2 ^ Z.of_nat n.
Proof. by rewrite Nat2Z.inj_succ, Z.pow_succ_r by lia. Qed.

Lemma bits_bound n σ : Z.abs (vsum (bits n) σ) < 2 ^ Z.of_nat n.
Proof.
  revert σ. induction n as [|n IH]; intros σ; [by destruct σ|]. rewrite pow2_S.
  destruct σ as [|o σ]; cbn [bits vsum]; [lia|]. specialize (IH σ). destruct o as [[]|]; cbn [contribution]; lia.
Qed.

(** A signed sum of different powers of two is zero only if it is empty. *)
Lemma bits_zero n σ : length σ = n → vsum (bits n) σ = 0 → Forall (eq None) σ.
Proof.
  revert σ. induction n as [|n IH]; intros [|o σ] Hl Hv; try done. cbn in Hl, Hv. injection Hl as Hl.
  pose proof (bits_bound n σ). destruct o as [[]|]; cbn [contribution] in Hv; [lia|lia|]. constructor; [done|].
  apply IH; [done|lia].
Qed.

Lemma vsum_combine m rs bs σ :
  length rs = length bs → vsum (zip_with (λ r b, r * m + b) rs bs) σ = m * vsum rs σ + vsum bs σ.
Proof.
  revert bs σ. induction rs as [|r rs IH]; intros [|b bs] σ Hl; try done; [destruct σ; cbn; lia|].
  destruct σ as [|o σ]; cbn; [lia|]. rewrite IH by (by injection Hl). destruct o as [[]|]; cbn [contribution]; lia.
Qed.

Lemma length_bits n : length (bits n) = n.
Proof. induction n; cbn; [done|]. by rewrite IHn. Qed.

Lemma generate_false_loop m n rs :
  length rs = n → (n <= 31)%nat → 0 <= m < 2 ^ 32 → Forall (λ r, -10 <= r <= 10) rs →
  GenerateFalse_loop m (2 ^ Z.of_nat n) rs = Ok (zip_with (λ r b, r * m + b) rs (bits n)).
Proof.
  revert n. induction rs as [|r rs IH]; intros n Hl Hn Hm Hr; destruct n as [|n]; try done.
  injection Hl as Hl. apply Forall_cons in Hr as [Hr Hrs]. cbn [GenerateFalse_loop]. rewrite pow2_S, Z.shiftr_div_pow2 by lia.
  change (2 ^ 1) with 2. rewrite (Z.mul_comm 2), Z.div_mul by lia.
  assert (2 ^ Z.of_nat n <= 2 ^ 31) by (apply Z.pow_le_mono_r; lia). assert (0 < 2 ^ Z.of_nat n) by (apply Z.pow_pos_nonneg; lia).
  assert (- (10 * 2 ^ 32) <= r * m <= 10 * 2 ^ 32) by nia.
  rewrite checked64_ok by lia. cbn [bindO]. rewrite checked64_ok by lia. cbn [bindO].
  rewrite IH by (done || lia). done.
Qed.

Lemma combined_magnitude m rs bs c :
  0 <= m → Forall (λ r, -10 <= r <= 10) rs → Forall (λ b, 0 <= b <= c) bs → length rs = length bs →
  magnitude (zip_with (λ r b, r * m + b) rs bs) <= Z.of_nat (length rs) * (10 * m + c).
Proof.
  intros Hm Hr. revert bs. induction Hr as [|r rs Hr Hrs IH]; intros [|b bs] Hb Hl; try done.
  apply Forall_cons in Hb as [Hb Hbs]. injection Hl as Hl. specialize (IH bs Hbs Hl).
  unfold magnitude in *. cbn [zip_with foldr length]. rewrite Nat2Z.inj_succ. assert (Z.abs (r * m + b) <= 10 * m + c) by nia. lia.
Qed.

Lemma bits_range n : Forall (λ b, 0 <= b <= 2 ^ Z.of_nat n) (bits n).
Proof.
  induction n as [|n IH]; [constructor|]. cbn [bits]. rewrite pow2_S.
  assert (0 < 2 ^ Z.of_nat n) by (apply Z.pow_pos_nonneg; lia). constructor; [lia|].
  eapply Forall_impl; [exact IH|]. cbn. lia.
Qed.

Lemma no_answer m n rs : length rs = n → 2 ^ Z.of_nat n <= m → ∀ a b, ¬ valid (zip_with (λ r b, r * m + b) rs (bits n)) a b.
Proof.
  intros Hl Hm a b [σ (Hlen&Hv&Ht&_)]%valid_solution. rewrite length_zip_with, length_bits, Hl, Nat.min_id in Hlen.
  rewrite vsum_combine in Hv by (by rewrite length_bits). pose proof (bits_bound n σ) as Hb.
  assert (vsum rs σ = 0) as Ha by nia. assert (vsum (bits n) σ = 0) as Hz by (rewrite Ha in Hv; lia). apply bits_zero in Hz; [|done].
  apply elem_of_signs in Ht as [i Hi]. rewrite Forall_lookup in Hz. by specialize (Hz _ _ Hi).
Qed.

(** ** The generator of data with an answer *)

(** A permutation of the data has an answer if the data has. *)
Lemma solution_perm data data' σ : solution data σ → data ≡ₚ data' → ∃ σ', solution data' σ'.
Proof.
  intros (Hl&Hv&Ht) Hp. assert (data' ≡ₚ (zip data σ).*1) as Hz by (by rewrite fst_zip by lia).
  apply Permutation_map_inv in Hz as (z&->&Hz). exists z.*2.
  assert (∀ z, vsum z.*1 z.*2 = foldr (λ p s, contribution p.1 p.2 + s) 0 z) as Hsum
    by (clear; induction z as [|[x o] z IH]; cbn; [done|]; by rewrite IH).
  split_and!.
  - by rewrite !length_fmap.
  - trans (vsum (zip data σ).*1 (zip data σ).*2).
    + rewrite !Hsum. symmetry. apply (foldr_permutation (=)); [solve_proper|intros; lia|done].
    + by rewrite fst_zip, snd_zip by lia.
  - assert (signs σ ≡ₚ signs z.*2) as Hs.
    { unfold signs. rewrite <-Hz, snd_zip by lia. done. }
    unfold two_groups. by rewrite <-Hs.
Qed.

Lemma sum_abs data : Z.abs (foldr Z.add 0 data) <= magnitude data.
Proof. unfold magnitude. induction data; cbn; lia. Qed.

Lemma reduce_ok data sum : Z.abs sum + magnitude data <= kIntMax64 → reduce sum data = Ok (sum + foldr Z.add 0 data).
Proof.
  revert sum. induction data as [|x data IH]; intros sum Hb; cbn; [f_equal; lia|].
  unfold magnitude in *. cbn in Hb. assert (0 <= foldr (λ x m, Z.abs x + m) 0 data) by (clear; induction data; cbn; lia).
  unfold kIntMax64 in *. rewrite checked64_ok by lia. cbn [bindO]. rewrite IH by lia. f_equal. lia.
Qed.

Lemma magnitude_all c data : Forall (λ x, - c <= x <= c) data → magnitude data <= Z.of_nat (length data) * c.
Proof. unfold magnitude. induction 1 as [|x data Hx _ IH]; cbn [foldr length]; lia. Qed.

Lemma magnitude_nonneg data : 0 <= magnitude data.
Proof. unfold magnitude. induction data; cbn; lia. Qed.

Lemma vsum_replicate data o n :
  vsum data (replicate n o) =
  match o with Some true => 1 | Some false => -1 | None => 0 end * foldr Z.add 0 (take n data).
Proof.
  revert data. induction n as [|n IH]; intros [|x data]; cbn; try lia. rewrite IH. destruct o as [[]|]; cbn; lia.
Qed.

(** The signs of the answer: plus for the first elements, minus for the next. *)
Definition true_signs (size first num : nat) : svec :=
  replicate first (Some true) ++ replicate (num - first) (Some false) ++ replicate (size - num) None.

Lemma true_solution x data first num :
  (0 < first < num)%nat → (num <= S (length data))%nat →
  x + foldr Z.add 0 (take (first - 1) data) = foldr Z.add 0 (take (num - first) (drop (first - 1) data)) →
  solution (x :: data) (true_signs (S (length data)) first num).
Proof.
  intros Hf Hn Hx. unfold true_signs. split_and!.
  - rewrite !length_app, !length_replicate. cbn. lia.
  - destruct first as [|f]; [lia|]. rewrite Nat.sub_succ, Nat.sub_0_r in Hx.
    cbn [replicate app vsum contribution].
    rewrite vsum_app by (rewrite length_replicate; lia). rewrite length_replicate.
    rewrite vsum_app by (rewrite length_drop, length_replicate; lia). rewrite !vsum_replicate. lia.
  - split; apply elem_of_signs; [exists 0%nat; destruct first; [lia|done]|].
    exists first. rewrite lookup_app_r, length_replicate, Nat.sub_diag by (rewrite length_replicate; lia).
    destruct (num - first)%nat eqn:E; [lia|done].
Qed.

(** ** The theorem *)

(** What the generators of Catch2 promise: a number, or a vector of them, within the bounds. *)
Class Draws (random : Z → Z → Z) (chunk : nat → Z → Z → list Z) : Prop := {
  random_range a b : a <= b → a <= random a b <= b;
  chunk_range n a b : a <= b → length (chunk n a b) = n ∧ Forall (λ x, a <= x <= b) (chunk n a b);
}.

Section Generators.
Context (random : Z → Z → Z) (chunk : nat → Z → Z → list Z) `{!Draws random chunk}.

Lemma generate_false_ok size :
  (size <= 31)%nat →
  ∃ data, GenerateFalse size random chunk = Ok data ∧ length data = size ∧ magnitude data <= kIntMax64 ∧
    ∀ a b, ¬ valid data a b.
Proof.
  intros Hs. unfold GenerateFalse. rewrite decide_True by lia. rewrite Z.shiftl_1_l. set (p := 2 ^ Z.of_nat size).
  assert (2 ^ 0 <= p <= 2 ^ 31) as Hp by (unfold p; split; apply Z.pow_le_mono_r; lia).
  assert (u32 p = p) as -> by (apply uwrap_small; lia). assert (u32 (2 * p - 1) = 2 * p - 1) as -> by (apply uwrap_small; lia).
  destruct (random_range p (2 * p - 1) ltac:(lia)) as [Hm1 Hm2]. set (m := random p (2 * p - 1)) in *.
  destruct (chunk_range size (-10) 10 ltac:(lia)) as [Hl Hr]. set (rs := chunk size (-10) 10) in *.
  exists (zip_with (λ r b, r * m + b) rs (bits size)). split_and!.
  - apply generate_false_loop; [done|lia|lia|done].
  - rewrite length_zip_with, length_bits, Hl. apply Nat.min_id.
  - pose proof (combined_magnitude m rs (bits size) p ltac:(lia) Hr (bits_range size) ltac:(by rewrite length_bits)) as Hb.
    rewrite Hl in Hb. unfold kIntMax64. assert (Z.of_nat size * (10 * m + p) <= 31 * (11 * 2 ^ 32)) by nia. lia.
  - by apply no_answer.
Qed.

Context (shuffle : list Z → list Z) (Hshuffle : ∀ l, shuffle l ≡ₚ l).

Lemma generate_true_ok size :
  (2 <= size <= 500)%nat →
  ∃ data, GenerateTrue size random chunk shuffle = Ok data ∧ length data = size ∧ magnitude data <= kIntMax64 ∧
    ∃ a b, valid data a b.
Proof.
  intros Hs. unfold GenerateTrue.
  destruct (random_range 2 (Z.of_nat size) ltac:(lia)) as [Hn1 Hn2]. set (num := Z.to_nat (random 2 (Z.of_nat size))).
  destruct (random_range 1 (Z.of_nat num - 1) ltac:(lia)) as [Hf1 Hf2]. set (f := Z.to_nat (random 1 (Z.of_nat num - 1))).
  assert (2 <= num <= size)%nat as Hnum by lia. assert (0 < f < num)%nat as Hf by lia. clearbody f. clear Hf1 Hf2. clearbody num.
  assert (0 < kValue) as Hk by done. assert (1000 * kValue <= kIntMax64) as Hk' by done.
  destruct (chunk_range size (- kValue) kValue ltac:(lia)) as [Hl Hr].
  destruct (chunk size (- kValue) kValue) as [|x data]; [cbn in Hl; lia|].
  apply Forall_cons in Hr as [Hx Hr]. destruct f as [|f]; [lia|]. cbn [take drop length] in *.
  set (A := take f data). set (B := take (num - S f) (drop f data)).
  assert (magnitude A + magnitude B <= Z.of_nat (num - 1) * kValue) as Hab.
  { rewrite <-magnitude_app. etrans.
    { apply (magnitude_all kValue). apply Forall_app. split; unfold A, B; auto using Forall_take, Forall_drop. }
    rewrite length_app. unfold A, B. rewrite !length_take, length_drop. nia. }
  assert (Z.of_nat (num - 1) * kValue <= 499 * kValue) by nia.
  pose proof (sum_abs A). pose proof (sum_abs B). pose proof (magnitude_nonneg A). pose proof (magnitude_nonneg B).
  set (SA := foldr Z.add 0 A) in *. set (SB := foldr Z.add 0 B) in *.
  rewrite reduce_ok by (unfold magnitude in *; cbn [foldr]; lia). cbn [bindO foldr]. rewrite reduce_ok by (cbn; lia). cbn [bindO].
  fold SA SB. unfold kIntMax64 in Hk'. rewrite checked64_ok by lia. cbn [bindO]. rewrite checked64_ok by lia. cbn [bindO].
  eexists. split; [reflexivity|]. set (x' := x - _). assert (x' = SB - SA) as Hx' by (unfold x'; lia). split_and!.
  - rewrite (Hshuffle _). cbn. lia.
  - assert (∀ l l', l ≡ₚ l' → magnitude l = magnitude l') as Hperm by (unfold magnitude; induction 1; cbn; lia).
    rewrite (Hperm _ _ (Hshuffle _)). pose proof (magnitude_all _ _ Hr) as Hd.
    unfold magnitude in Hd |- *. cbn [foldr]. unfold kIntMax64. assert (Z.of_nat (length data) * kValue <= 499 * kValue) by nia. lia.
  - destruct (solution_perm (x' :: data) (shuffle (x' :: data)) (true_signs (S (length data)) (S f) num)) as [σ Hσ].
    + apply true_solution; [lia|lia|]. rewrite Nat.sub_succ, Nat.sub_0_r. fold A B SA SB. lia.
    + by rewrite Hshuffle.
    + eauto using solution_valid.
Qed.

End Generators.

(** For every draw of random numbers the data of [GenerateFalse], up to 31 numbers, has no two
    sets of equal sum, and that of [GenerateTrue], of 2 to 500 numbers, has such sets; in neither
    does a number overflow, and both are data for which [FindEqualSumSubsets] is correct.
    [CheckSubsets] accepts exactly the valid answers. *)
Theorem subset_checks_correct random chunk shuffle `{!Draws random chunk} (Hshuffle : ∀ l, shuffle l ≡ₚ l) size :
  ((size <= 31)%nat → ∃ data, GenerateFalse size random chunk = Ok data ∧ length data = size ∧
     magnitude data <= kIntMax64 ∧ ∀ res, correct_result data res → exists_ res = false) ∧
  ((2 <= size <= 500)%nat → ∃ data, GenerateTrue size random chunk shuffle = Ok data ∧ length data = size ∧
     magnitude data <= kIntMax64 ∧
     ∀ res, correct_result data res →
       exists_ res = true ∧ CheckSubsets data (first_indices res) (second_indices res) = Ok true) ∧
  ∀ data first second, magnitude data <= kIntMax64 →
    CheckSubsets data first second = Ok true ↔ valid data first second.
Proof.
  split_and!.
  - intros (data&?&?&?&Hno)%(generate_false_ok random chunk). exists data. split_and!; [done..|].
    intros res [Hv _]. destruct (exists_ res); [|done]. by apply Hno in Hv.
  - intros (data&?&?&?&a&b&Hv)%(generate_true_ok random chunk shuffle Hshuffle). exists data. split_and!; [done..|].
    intros res [Hyes Hno]. destruct (exists_ res) eqn:E; [|by apply (Hno eq_refl) in Hv].
    split; [done|]. apply check_subsets_ok; auto.
  - apply check_subsets_ok.
Qed.

(** Three numbers, with draws in the middle of the bounds. *)
Lemma subset_checks_correct_witness :
  let random a b := (a + b) / 2 in
  let chunk n a b := replicate n b in
  GenerateFalse 3 random chunk = Ok [114; 112; 111] ∧
  (∀ res, correct_result [114; 112; 111] res → exists_ res = false) ∧
  CheckSubsets [1; 2; 4; 8; 15] [0; 1; 2; 3]%nat [4]%nat = Ok true.
Proof.
  cbn zeta. set (random := λ a b, (a + b) / 2). set (chunk := λ (n : nat) (a b : Z), replicate n b).
  assert (Draws random chunk) as Hd.
  { split; unfold random, chunk.
    - intros a b Hab. split; [apply Z.div_le_lower_bound; lia|apply Z.div_le_upper_bound; lia].
    - intros n a b Hab. rewrite length_replicate. split; [done|]. apply Forall_replicate. lia. }
  destruct (subset_checks_correct random chunk id (λ l, Permutation_refl l) 3) as (Hf&_&Hc).
  assert (GenerateFalse 3 random chunk = Ok [114; 112; 111]) as He by (vm_compute; reflexivity).
  split_and!; [exact He| |vm_compute; reflexivity].
  destruct Hf as (data&Hg&_&_&Hno); [lia|]. rewrite He in Hg. injection Hg as <-. exact Hno.
Defined.
