(* ===== verification/FixedQueue.v ===== *)
(** * A bounded queue with condition variables (docs/lectures/02-condition-variables/queue.cpp)

    [FixedQueue] of the lectures: any number of threads in [Push], [Pop] and [Stop].  What a
    thread does with the mutex, the notification included, is one step; a thread whose
    condition does not hold is asleep until it is notified, or for no reason, and then enters
    again. *)

From S2P Require Import Prelude.

Section Queue.
Context (max_size_ : Z).

(** [max_size_] is an [int]; it is compared with a [size_t]. *)
Definition limit : Z := u64 max_size_.

(** [pushed] and [popped] are auxiliary: all that was pushed and popped. *)
Record shared : Type := mkShared { q_ : list Z; stopped_ : bool; pushed : list Z; popped : list Z }.

Inductive pc : Type :=
| Idle
| PushEnter (x : Z)
| PushAsleep (x : Z)
| PushReturned (res : bool)
| PopEnter
| PopAsleep
| PopReturned (res : option Z).

Definition full (s : shared) : bool := negb (Z.of_nat (length (q_ s)) <? limit)%Z.

(** [Push] from the lock to the unlock: the thread afterwards, and whether it notified
    [not_empty_]. *)
Definition Push_section (s : shared) (x : Z) : shared * pc * bool :=
  if negb (stopped_ s) && full s then (s, PushAsleep x, false)
  else if stopped_ s then (s, PushReturned false, false)
  else (mkShared (q_ s ++ [x]) (stopped_ s) (pushed s ++ [x]) (popped s), PushReturned true, true).

(** The same of [Pop], with [not_full_]. *)
Definition Pop_section (s : shared) : shared * pc * bool :=
  if stopped_ s then (s, PopReturned None, false)
  else match q_ s with
       | [] => (s, PopAsleep, false)
       | x :: q => (mkShared q (stopped_ s) (pushed s) (popped s ++ [x]), PopReturned (Some x), true)
       end.

Definition Stop_section (s : shared) : shared := mkShared (q_ s) true (pushed s) (popped s).

Definition wake_push (p : pc) : pc := match p with PushAsleep x => PushEnter x | _ => p end.
Definition wake_pop (p : pc) : pc := match p with PopAsleep => PopEnter | _ => p end.
Definition push_asleep (p : pc) : bool := match p with PushAsleep _ => true | _ => false end.
Definition pop_asleep (p : pc) : bool := match p with PopAsleep => true | _ => false end.

(** [notify_one] on a condition variable, if it is done at all. *)
Inductive notify (asleep : pc → bool) (wake : pc → pc) (l : list pc) : bool → list pc → Prop :=
| notify_some j p : l !! j = Some p → asleep p = true → notify asleep wake l true (<[j := wake p]> l)
| notify_none : count asleep l = 0 → notify asleep wake l true l
| notify_not : notify asleep wake l false l.

Inductive step : shared * list pc → shared * list pc → Prop :=
| call_push s l i x : l !! i = Some Idle → step (s, l) (s, <[i := PushEnter x]> l)
| call_pop s l i : l !! i = Some Idle → step (s, l) (s, <[i := PopEnter]> l)
| push s l i x s' p n l' :
    l !! i = Some (PushEnter x) → Push_section s x = (s', p, n) → notify pop_asleep wake_pop l n l' →
    step (s, l) (s', <[i := p]> l')
| pop s l i s' p n l' :
    l !! i = Some PopEnter → Pop_section s = (s', p, n) → notify push_asleep wake_push l n l' →
    step (s, l) (s', <[i := p]> l')
| stop s l i : l !! i = Some Idle → step (s, l) (Stop_section s, wake_pop <$> (wake_push <$> l))
| spurious s l i p :
    l !! i = Some p → push_asleep p || pop_asleep p = true → step (s, l) (s, <[i := wake_pop (wake_push p)]> l)
| returned s l i p :
    l !! i = Some p → (∃ res, p = PushReturned res) ∨ (∃ res, p = PopReturned res) → step (s, l) (s, <[i := Idle]> l).

Definition init (c : shared * list pc) : Prop := ∃ n, c = (mkShared [] false [] [], replicate n Idle).

(** ** The invariant *)

Definition push_enters (p : pc) : bool := match p with PushEnter _ => true | _ => false end.
Definition pop_enters (p : pc) : bool := match p with PopEnter => true | _ => false end.

(** A call that was turned away is one of a stopped queue. *)
Definition pc_ok (s : shared) (p : pc) : Prop :=
  match p with PushReturned false | PopReturned None => stopped_ s = true | _ => True end.

Record inv (c : shared * list pc) : Prop := {
  i_order : pushed c.1 = popped c.1 ++ q_ c.1;
  i_size : (Z.of_nat (length (q_ c.1)) <= limit)%Z;
  i_pcs : ∀ i p, c.2 !! i = Some p → pc_ok c.1 p;
  i_stopped : stopped_ c.1 = true → count push_asleep c.2 = 0 ∧ count pop_asleep c.2 = 0;
  i_pop : 0 < count pop_asleep c.2 → length (q_ c.1) ≤ count pop_enters c.2;
  i_push : 0 < count push_asleep c.2 → (limit - Z.of_nat (length (q_ c.1)) <= Z.of_nat (count push_enters c.2))%Z;
}.

Lemma counts_at (l : list pc) i p p' :
  l !! i = Some p →
  count push_asleep (<[i:=p']> l) + Nat.b2n (push_asleep p) = count push_asleep l + Nat.b2n (push_asleep p') ∧
  count pop_asleep (<[i:=p']> l) + Nat.b2n (pop_asleep p) = count pop_asleep l + Nat.b2n (pop_asleep p') ∧
  count push_enters (<[i:=p']> l) + Nat.b2n (push_enters p) = count push_enters l + Nat.b2n (push_enters p') ∧
  count pop_enters (<[i:=p']> l) + Nat.b2n (pop_enters p) = count pop_enters l + Nat.b2n (pop_enters p').
Proof. intros Hi. split_and!; by apply count_insert. Qed.

Lemma pcs_set s s' (l : list pc) i p :
  (∀ j q, l !! j = Some q → pc_ok s q) → (stopped_ s = true → stopped_ s' = true) → pc_ok s' p →
  ∀ j q, <[i:=p]> l !! j = Some q → pc_ok s' q.
Proof.
  intros Hl Hs Hp j q [[-> ->]|[_ Hj]]%insert_inv; [done|]. specialize (Hl j q Hj). destruct q as [| | |[]| | |[]]; cbn in *; auto.
Qed.

(** A thread moves; arithmetic does the rest. *)
Ltac thread_moves Hinv Hi p' :=
  destruct (counts_at _ _ _ p' Hi) as (?&?&?&?);
  pose proof (i_order _ Hinv); pose proof (i_size _ Hinv); pose proof (i_stopped _ Hinv);
  pose proof (i_pop _ Hinv); pose proof (i_push _ Hinv);
  cbn [fst snd push_asleep pop_asleep push_enters pop_enters Nat.b2n q_ stopped_ pushed popped] in *;
  split; cbn [fst snd q_ stopped_ pushed popped];
  [try done|try lia|eapply pcs_set; [apply (i_pcs _ Hinv)|cbn; first [done|congruence]|cbn; auto]|..];
  try lia; try (intros; repeat match goal with H : ?A = true → _, E : ?A = true |- _ => destruct (H E); clear H end; lia).

Lemma wake_pop_inv s l j : inv (s, l) → l !! j = Some PopAsleep → inv (s, <[j:=PopEnter]> l).
Proof. intros Hinv Hj. thread_moves Hinv Hj PopEnter. Qed.

Lemma wake_push_inv s l j x : inv (s, l) → l !! j = Some (PushAsleep x) → inv (s, <[j:=PushEnter x]> l).
Proof. intros Hinv Hj. thread_moves Hinv Hj (PushEnter x). Qed.

(** Waking whoever is notified keeps the invariant, and for a sleeper there is one more that enters. *)
Lemma notify_pop s l n l' i x :
  inv (s, l) → l !! i = Some (PushEnter x) → notify pop_asleep wake_pop l n l' →
  inv (s, l') ∧ l' !! i = Some (PushEnter x) ∧
  (n = true → 0 < count pop_asleep l' → length (q_ s) < count pop_enters l').
Proof.
  intros Hinv Hi [j p Hj Hp|Hnone|].
  - destruct p; try done. split_and!; [by apply wake_pop_inv|by rewrite list_lookup_insert_ne by (intros ->; congruence)|].
    destruct (counts_at _ _ _ PopEnter Hj) as (_&?&_&?). pose proof (i_pop _ Hinv).
    cbn [fst snd pop_asleep pop_enters Nat.b2n wake_pop] in *. lia.
  - split_and!; [done..|]. lia.
  - done.
Qed.

Lemma notify_push s l n l' i :
  inv (s, l) → l !! i = Some PopEnter → notify push_asleep wake_push l n l' →
  inv (s, l') ∧ l' !! i = Some PopEnter ∧
  (n = true → 0 < count push_asleep l' → (limit - Z.of_nat (length (q_ s)) < Z.of_nat (count push_enters l'))%Z).
Proof.
  intros Hinv Hi [j p Hj Hp|Hnone|].
  - destruct p; try done. split_and!; [by apply wake_push_inv|by rewrite list_lookup_insert_ne by (intros ->; congruence)|].
    destruct (counts_at _ _ _ (PushEnter x) Hj) as (?&_&?&_). pose proof (i_push _ Hinv).
    cbn [fst snd push_asleep push_enters Nat.b2n wake_push] in *. lia.
  - split_and!; [done..|]. lia.
  - done.
Qed.

Lemma push_section_inv s l i x s' p n l' :
  inv (s, l) → l !! i = Some (PushEnter x) → Push_section s x = (s', p, n) → notify pop_asleep wake_pop l n l' →
  inv (s', <[i := p]> l').
Proof.
  intros Hinv0 Hi0 Hs Hn. destruct (notify_pop _ _ _ _ _ _ Hinv0 Hi0 Hn) as (Hinv&Hi&Hmore). clear Hinv0 Hi0 Hn.
  unfold Push_section, full in Hs. destruct (stopped_ s) eqn:Est; cbn [negb andb] in Hs.
  - injection Hs as <- <- <-. thread_moves Hinv Hi (PushReturned false).
  - destruct (Z.ltb_spec (Z.of_nat (length (q_ s))) limit) as [Hlt|Hge]; cbn [negb] in Hs; injection Hs as <- <- <-.
    + specialize (Hmore eq_refl). thread_moves Hinv Hi (PushReturned true); rewrite ?length_app; cbn [length]; try lia.
      rewrite app_assoc. by f_equal.
    + thread_moves Hinv Hi (PushAsleep x). congruence.
Qed.

Lemma pop_section_inv s l i s' p n l' :
  inv (s, l) → l !! i = Some PopEnter → Pop_section s = (s', p, n) → notify push_asleep wake_push l n l' →
  inv (s', <[i := p]> l').
Proof.
  intros Hinv0 Hi0 Hs Hn. destruct (notify_push _ _ _ _ _ Hinv0 Hi0 Hn) as (Hinv&Hi&Hmore). clear Hinv0 Hi0 Hn.
  unfold Pop_section in Hs. destruct (stopped_ s) eqn:Est.
  - injection Hs as <- <- <-. thread_moves Hinv Hi (PopReturned None).
  - destruct (q_ s) as [|x q] eqn:Eq; injection Hs as <- <- <-.
    + thread_moves Hinv Hi PopAsleep; [congruence|]. rewrite Eq. cbn. lia.
    + specialize (Hmore eq_refl). thread_moves Hinv Hi (PopReturned (Some x)); rewrite Eq in *; cbn [length] in *; try lia.
      by rewrite <-app_assoc.
Qed.

Lemma stop_inv s l : inv (s, l) → inv (Stop_section s, wake_pop <$> (wake_push <$> l)).
Proof.
  intros [Ho Hsz Hp Hst Hpop Hpush].
  assert (count push_asleep (wake_pop <$> (wake_push <$> l)) = 0) as H1
    by (rewrite !count_fmap; apply count_none; by intros []).
  assert (count pop_asleep (wake_pop <$> (wake_push <$> l)) = 0) as H2
    by (rewrite !count_fmap; apply count_none; by intros []).
  split; cbn [fst snd Stop_section q_ stopped_ pushed popped] in *; [done|done| |done|lia|lia].
  intros i p. rewrite !list_lookup_fmap. destruct (l !! i) as [p0|] eqn:E; [|done]. cbn. intros [= <-].
  by destruct p0 as [| | |[]| | |[]].
Qed.

Lemma queue_step_inv c c' : inv c → step c c' → inv c'.
Proof.
  intros Hinv Hstep. destruct Hstep as [s l i x Hi|s l i Hi|s l i x s' p n l' Hi Hs Hn|s l i s' p n l' Hi Hs Hn|s l i Hi|s l i p Hi Hp|s l i p Hi Hp].
  - thread_moves Hinv Hi (PushEnter x).
  - thread_moves Hinv Hi PopEnter.
  - by eapply push_section_inv.
  - by eapply pop_section_inv.
  - by apply stop_inv.
  - destruct p; try done; cbn [wake_push wake_pop]; [by apply wake_push_inv|by apply wake_pop_inv].
  - destruct Hp as [[res ->]|[res ->]]; thread_moves Hinv Hi Idle.
Qed.

Lemma fixed_queue_inv c : reachable init step c → inv c.
Proof.
  apply invariant_reachable; [|apply queue_step_inv]. intros _ [n ->].
  split; cbn [fst snd q_ stopped_ pushed popped]; rewrite ?count_replicate by done; try done.
  - unfold limit. pose proof (uwrap_range 64 max_size_). cbn. lia.
  - intros i p [-> _]%lookup_replicate. done.
  - lia.
Qed.
End Queue.

(** Whatever the interleaving of the threads and the wake-ups for no reason, what was popped is
    what was pushed, in its order, up to what is in the queue, and the queue does not grow over
    its limit.  A call is turned away only after a [Stop].  No wake-up is lost: a thread sleeps
    in [Pop], or in [Push], only while the queue is not stopped, and is empty, or full, or has no
    more elements, or places, than there are threads that are about to take them; so there is
    such a thread.  For a negative size the limit is [2 ^ 64] minus its absolute value. *)
Theorem fixed_queue_correct max_size_ s l :
  reachable init (step max_size_) (s, l) →
  pushed s = popped s ++ q_ s ∧ (Z.of_nat (length (q_ s)) <= limit max_size_)%Z ∧
  (∀ i p, l !! i = Some p → p = PushReturned false ∨ p = PopReturned None → stopped_ s = true) ∧
  (∀ i, l !! i = Some PopAsleep →
     stopped_ s = false ∧ length (q_ s) ≤ count pop_enters l ∧ (q_ s = [] ∨ ∃ j, l !! j = Some PopEnter)) ∧
  (∀ i x, l !! i = Some (PushAsleep x) →
     stopped_ s = false ∧ (limit max_size_ - Z.of_nat (length (q_ s)) <= Z.of_nat (count push_enters l))%Z ∧
     (full max_size_ s = true ∨ ∃ j y, l !! j = Some (PushEnter y))).
Proof.
  intros [Ho Hs Hp Hst Hpop Hpush]%fixed_queue_inv. cbn [fst snd] in *. split_and!; [done|done|..].
  - intros i p Hi [-> | ->]; exact (Hp _ _ Hi).
  - intros i Hi. pose proof (count_lookup pop_asleep l i _ Hi eq_refl) as Hc. split_and!; [|by apply Hpop|].
    + destruct (stopped_ s); [|done]. destruct Hst; [done|lia].
    + destruct (q_ s) as [|x q]; [by left|right]. cbn in Hpop.
      destruct (count_pos_lookup pop_enters l) as (j&p&Hj&E); [lia|]. exists j. by destruct p.
  - intros i x Hi. pose proof (count_lookup push_asleep l i _ Hi eq_refl) as Hc. split_and!; [|by apply Hpush|].
    + destruct (stopped_ s); [|done]. destruct Hst; [done|lia].
    + unfold full. destruct (Z.ltb_spec (Z.of_nat (length (q_ s))) (limit max_size_)); [right|by left].
      destruct (count_pos_lookup push_enters l) as (j&p&Hj&E); [lia|]. destruct p; try done. by exists j, x0.
Qed.

(** A pop that sleeps, and a push that wakes it. *)
Lemma fixed_queue_correct_witness :
  ∃ s l, reachable init (step 1) (s, l) ∧ q_ s = [7%Z] ∧ l = [PopEnter; PushReturned true] ∧ pushed s = popped s ++ q_ s.
Proof.
  assert (reachable init (step 1) (mkShared [7%Z] false [7%Z] [], [PopEnter; PushReturned true])) as Hr.
  { exists (mkShared [] false [] [], replicate 2 Idle). split; [by exists 2|].
    eapply rtc_l; [by apply (call_pop _ _ _ 0)|].
    eapply rtc_l; [eapply (pop _ _ _ 0); [done|reflexivity|apply notify_not]|].
    eapply rtc_l; [by apply (call_push _ _ _ 1 7)|].
    eapply rtc_l; [eapply (push _ _ _ 1); [done|reflexivity|by apply (notify_some _ _ _ 0 PopAsleep)]|]. apply rtc_refl. }
  do 2 eexists. split_and!; [exact Hr|done|done|]. exact (proj1 (fixed_queue_correct 1 _ _ Hr)).
Defined.
