(* ===== verification/DebugWriter.v ===== *)
(** * The debugging helpers of fibers (tools/cactus/core/debug.cpp)

    [SignalSafeWriter], a buffered writer over an array that calls [write] on a descriptor, and
    [SetFiberName].  What the descriptor gets is the list of the buffers that were passed to
    [write]; its result is not looked at. *)

From S2P Require Import Prelude Readers Writers.

(** ** [SignalSafeWriter] *)

Module SignalSafeWriter.
Record t : Type := mk { buffer_ : bytes; end_ : nat; passed : list bytes }.

(** [buffer_] is an [std::array<char, 512>]. *)
Definition buffer_size : nat := 512.
Definition make : t := mk (replicate buffer_size ch_nul) 0 [].

Definition Flush : M t () :=
  modM (λ w, if decide (end_ w ≠ 0) then mk (buffer_ w) 0 (passed w ++ [take (end_ w) (buffer_ w)]) else w).

Definition WriteNext : M t view :=
  this <- getM ;;
  (if decide (end_ this = length (buffer_ this)) then Flush else retM ()) ;;;
  this <- getM ;;
  putM (mk (buffer_ this) (length (buffer_ this)) (passed this)) ;;;
  retM (View (end_ this) (length (buffer_ this) - end_ this)).

(** A larger [count] would wrap [end_] around. *)
Definition WriteBackUp (count : nat) : M t () :=
  this <- getM ;;
  if decide (count ≤ end_ this) then putM (mk (buffer_ this) (end_ this - count) (passed this)) else failM UB.

Definition Store (v : view) (s : bytes) : M t () :=
  modM (λ w, mk (overwrite (voff v) s (buffer_ w)) (end_ w) (passed w)).

#[global] Instance bwriter : IBufferedWriter t :=
  {| Writers.WriteNext := WriteNext; Writers.WriteBackUp := WriteBackUp;
     Writers.Store := Store; Writers.Flush := Flush |}.
#[global] Instance writer : IWriter t := IBufferedWriter_Write.

(** What was written so far: what was passed on, and what is in the buffer. *)
Definition contents (w : t) : bytes := concat (passed w) ++ take (end_ w) (buffer_ w).

(** A call of [write] is never empty and at most as large as the buffer. *)
Definition ok (w : t) : Prop :=
  length (buffer_ w) = buffer_size ∧ end_ w ≤ buffer_size ∧ Forall (λ s, 0 < length s ≤ buffer_size) (passed w).

Definition lent (w : t) (v : view) (base : bytes) : Prop :=
  ok w ∧ end_ w = buffer_size ∧ voff v + vsize v = buffer_size ∧ concat (passed w) ++ take (voff v) (buffer_ w) = base.

Lemma signal_flush_ok w :
  ok w → ∃ w', Flush w = (Ok (), w') ∧ ok w' ∧ end_ w' = 0 ∧ contents w' = contents w ∧ concat (passed w') = contents w.
Proof.
  intros (Hl&He&Hp). unfold Flush, modM, contents. eexists. split; [reflexivity|]. case_decide as Hz; cbn.
  - rewrite concat_app. cbn. rewrite !app_nil_r. split_and!; [|done..]. split_and!; [done|cbn; lia|].
    apply Forall_app. split; [done|]. constructor; [rewrite length_take; lia|constructor].
  - rewrite Hz, take_0, !app_nil_r. by split_and!.
Qed.

Lemma signal_next_ok w : ok w → ∃ v w', WriteNext w = (Ok v, w') ∧ 0 < vsize v ∧ lent w' v (contents w).
Proof.
  intros Hok. assert (∃ w1, (if decide (end_ w = length (buffer_ w)) then Flush else retM ()) w = (Ok (), w1) ∧ ok w1 ∧
    end_ w1 < buffer_size ∧ contents w1 = contents w) as (w1&H1&(Hl&He&Hp)&Hlt&Hc).
  { destruct (signal_flush_ok w Hok) as (w1&Hf&Hok1&He1&Hc1&_). destruct Hok as (Hl&He&Hp). case_decide as Hd.
    - exists w1. rewrite He1. split_and!; [done|done|unfold buffer_size; lia|done].
    - exists w. split_and!; [done|done|lia|done]. }
  exists (View (end_ w1) (length (buffer_ w1) - end_ w1)), (mk (buffer_ w1) (length (buffer_ w1)) (passed w1)). split_and!.
  - unfold WriteNext. unfold bindM at 1, getM at 1. by mstep H1.
  - cbn. lia.
  - unfold lent, ok. cbn. rewrite <-Hc. unfold contents. split_and!; done || lia.
Qed.

#[global] Instance bwriter_spec : BufferedWriterSpec t.
Proof.
  refine {| bwriter_ok := ok; bwritten := contents; Writers.lent := lent |}.
  - exact signal_next_ok.
  - intros w [o k] base xs ((Hl&?&?)&He&Hv&Hb) Hle. cbn in *. eexists. split; [done|].
    unfold lent, ok. cbn. rewrite length_overwrite, take_overwrite by lia. rewrite app_assoc, Hb. split_and!; lia || done.
  - intros w [o k] base ((Hl&?&?)&He&Hv&Hb). cbn in *. exists (mk (buffer_ w) o (passed w)).
    unfold WriteBackUp, bindM, getM, putM, ok, contents. cbn. rewrite decide_True by lia.
    replace (end_ w - k) with o by lia. split_and!; lia || done.
  - intros w [o k] base (?&He&Hv&Hb) Hk. cbn in *. split; [done|]. unfold contents. by replace (end_ w) with o by lia.
Defined.

#[global] Instance writer_spec : WriterSpec t :=
  {| writer_ok := bwriter_ok; written := bwritten; write_spec := bwrite_spec |}.
End SignalSafeWriter.

(** ** The name of a fiber *)

(** [name] points to a string of the caller or into [name_storage]. *)
Inductive name_pointer : Type := Null | Caller (s : bytes) | Storage.
Record names : Type := mkNames { name : name_pointer; name_storage : bytes }.

(** [CHECK_NOTNULL] aborts when no fiber runs. *)
Definition SetFiberName_pointer (s : bytes) (this_fiber : option names) : outcome names :=
  match this_fiber with Some f => Ok (mkNames (Caller s) (name_storage f)) | None => Fail Abort end.
Definition SetFiberName_string (s : bytes) (this_fiber : option names) : outcome names :=
  match this_fiber with Some f => Ok (mkNames Storage s) | None => Fail Abort end.

(** What is shown: a C string ends at its first null character. *)
Fixpoint c_string (s : bytes) : bytes :=
  match s with [] => [] | c :: s => if decide (c = ch_nul) then [] else c :: c_string s end.
Definition shown (f : names) : bytes :=
  match name f with Null => [] | Caller s => c_string s | Storage => c_string (name_storage f) end.

Definition set_name (call : bool * bytes) (f : names) : outcome names :=
  if call.1 then SetFiberName_string call.2 (Some f) else SetFiberName_pointer call.2 (Some f).

Fixpoint set_names (calls : list (bool * bytes)) (f : names) : outcome names :=
  match calls with [] => Ok f | call :: calls => f <-? set_name call f ;; set_names calls f end.

Lemma set_names_last calls call f : ∃ f', set_names (calls ++ [call]) f = Ok f' ∧ shown f' = c_string call.2.
Proof.
  revert f. induction calls as [|c calls IH]; intros f; cbn [app set_names].
  - destruct call as [[] s]; by eexists.
  - destruct c as [[] s]; apply IH.
Qed.

(** ** The theorem *)

Fixpoint write_each (ss : list bytes) : M SignalSafeWriter.t () :=
  match ss with [] => retM () | s :: ss => Write s ;;; write_each ss end.

(** What the kernel takes of the buffers passed to [write]: of each, as much as it wants to. *)
Definition descriptor_gets (takes : bytes → nat) (passed : list bytes) : bytes := concat ((λ s, take (takes s) s) <$> passed).

Lemma write_each_ok ss w :
  SignalSafeWriter.ok w →
  ∃ w', write_each ss w = (Ok (), w') ∧ SignalSafeWriter.ok w' ∧ SignalSafeWriter.contents w' = SignalSafeWriter.contents w ++ concat ss.
Proof.
  revert w. induction ss as [|s ss IH]; intros w Hw; cbn [write_each].
  - exists w. by rewrite app_nil_r.
  - destruct (write_spec s w) as (w1&H1&Hw1&Hc1); [exact Hw|]. mstep H1. destruct (IH w1 Hw1) as (w2&H2&?&Hc2).
    exists w2. split_and!; [done|done|]. cbn [concat]. rewrite Hc2. cbn in Hc1. by rewrite Hc1, app_assoc.
Qed.

(** Any sequence of writes and a flush passes to [write] what was written, in pieces of 1 to 512
    bytes; the descriptor gets it if the kernel takes each piece whole.  The name that is shown is
    the one that was set last, by either function; without a fiber both abort. *)
Theorem debug_correct (ss : list bytes) calls call f :
  (∃ w, (write_each ss ;;; Flush) SignalSafeWriter.make = (Ok (), w) ∧ concat (SignalSafeWriter.passed w) = concat ss ∧
     Forall (λ s, 0 < length s ≤ 512) (SignalSafeWriter.passed w) ∧
     ∀ takes, (∀ s, length s ≤ takes s) → descriptor_gets takes (SignalSafeWriter.passed w) = concat ss) ∧
  (∃ f', set_names (calls ++ [call]) f = Ok f' ∧ shown f' = c_string call.2) ∧
  SetFiberName_pointer call.2 None = Fail Abort ∧ SetFiberName_string call.2 None = Fail Abort.
Proof.
  split_and!; [|apply set_names_last|done|done].
  destruct (write_each_ok ss SignalSafeWriter.make) as (w1&H1&Hw1&Hc1).
  { split_and!; [apply length_replicate|cbn; unfold SignalSafeWriter.buffer_size; lia|constructor]. }
  destruct (SignalSafeWriter.signal_flush_ok w1 Hw1) as (w2&H2&(_&_&Hp)&_&_&Hc2). exists w2.
  assert (concat (SignalSafeWriter.passed w2) = concat ss) as Hc by (by rewrite Hc2, Hc1).
  split_and!; [by mstep H1|done|done|]. intros takes Ht. rewrite <-Hc. unfold descriptor_gets.
  f_equal. rewrite <-(list_fmap_id (SignalSafeWriter.passed w2)) at 2. apply list_fmap_ext. intros i s _. by apply take_ge.
Qed.

(** A short write loses bytes: nothing is written again. *)
Lemma short_write_loses :
  ∃ w, (write_each [str "fiber"] ;;; Flush) SignalSafeWriter.make = (Ok (), w) ∧
    descriptor_gets (λ _, 3) (SignalSafeWriter.passed w) = str "fib".
Proof. eexists. split; [vm_compute; reflexivity|reflexivity]. Qed.
