(* ===== verification/BalancerServe.v ===== *)
(** * The balancer at work (balancer/balancer.cpp)

    The balancer of Balancer.v together with the connections that it forwards: a fiber in
    [ProcessConnection] has the tunnel of Proxy.v, whose two fibers run [TransferData], and it
    gives the load back when both have ended.  [Run] accepts clients and spawns
    [MakeConnection] for each.

    Connections may break: any call may throw, and a [Write] that throws may have sent a part of
    its bytes.  In every interleaving of the fibers the load of a peer is the number of its open
    connections; what was sent to a side is a prefix of what the other sends; a direction of a
    connection that ended without an exception was forwarded in full and closed; and every
    connection ends after a bounded number of calls. *)

From S2P Require Import Prelude Readers Writers Net Proxy Balancer.

#[local] Set Warnings "-clear-no-such-hyp".

(** ** Connections that break *)

(** What a connection promises that may break: [received] are the bytes that are still to come
    from the other side and [sent] those that were sent to it; [half_closed] that [CloseWrite]
    succeeded.  [received] is a prophecy: it names what the other side will send in the run that
    is looked at, whatever that depends on, and only the specification mentions it.  A call that throws may lose what was to come, or
    send a part of what it was to send. *)
Class BreakableSpec (C : Type) `{!IConn C} := {
  valid : C → Prop;
  received : C → bytes;
  sent : C → bytes;
  half_closed : C → bool;
  read_law : ∀ n c, valid c → 0 < n → ∃ r c', Read n c = (r, c') ∧ valid c' ∧ sent c' = sent c ∧ half_closed c' = half_closed c ∧
    match r with
    | Ok chunk => received c = chunk ++ received c' ∧ (chunk = [] → received c = [])
    | Fail f => (∃ e, f = Exn e) ∧ received c' `suffix_of` received c
    end;
  write_law : ∀ s c, valid c → s ≠ [] → ∃ r c', Write s c = (r, c') ∧ valid c' ∧ received c' = received c ∧ half_closed c' = half_closed c ∧
    match r with
    | Ok _ => sent c' = sent c ++ s
    | Fail f => (∃ e, f = Exn e) ∧ ∃ part, part `prefix_of` s ∧ sent c' = sent c ++ part
    end;
  close_law : ∀ c, valid c → ∃ r c', CloseWrite c = (r, c') ∧ valid c' ∧ received c' = received c ∧ sent c' = sent c ∧
    match r with
    | Ok _ => half_closed c' = true
    | Fail f => (∃ e, f = Exn e) ∧ half_closed c' = half_closed c
    end;
}.

(** A connection that does not break is one of them. *)
#[program] Definition unbroken (C : Type) `{!IConn C, !ConnSpec C} : BreakableSpec C := {|
  valid := conn_ok; received := incoming; sent := outgoing; half_closed := write_closed;
|}.
Next Obligation.
  intros C ? ? n c Hc Hn. destruct (conn_read n c Hc Hn) as (chunk&c'&?&?&?&_&?&?&?). by exists (Ok chunk), c'.
Qed.
Next Obligation.
  intros C ? ? s c Hc Hs. destruct (write_closed c) eqn:E.
  - destruct (conn_write_fails s c Hc E Hs) as (c'&?&?&?&?&?). exists (Fail (Exn SystemError)), c'. split_and!; try done; [by eexists|].
    exists []. split; [apply prefix_nil|by rewrite app_nil_r].
  - destruct (conn_write s c Hc E) as (c'&?&?&?&?&?). by exists (Ok ()), c'.
Qed.
Next Obligation.
  intros C ? ? c Hc. destruct (conn_close_write c Hc) as (c'&?&?&?&?&?). by exists (Ok ()), c'.
Qed.

(** ** The program *)

Section Serve.
Context {C : Type} `{!IConn C}.

(** Auxiliary: [begun], the connections as they were when the session began, and [broke], for
    each direction whether a call of its fiber threw. *)
Record session : Type := { fibers : tunnel C; begun : C * C; broke_up : bool; broke_down : bool }.

(** The sessions are in the order of [serving]; [ended] is auxiliary. *)
Record service : Type := { state : balancer; sessions : list session; ended : list session }.

Definition begin (client_conn peer_conn : C) : session :=
  {| fibers := open_tunnel client_conn peer_conn; begun := (client_conn, peer_conn); broke_up := false; broke_down := false |}.

(** The next call of a fiber at [at_] throws. *)
Definition throws (at_ : xfer) (in_conn out_conn : C) : bool :=
  let thrown {A} (r : outcome A) := match r with Fail (Exn _) => true | _ => false end in
  match at_ with
  | Reading => thrown (Read 256 in_conn).1
  | Writing buf => thrown (Write buf out_conn).1
  | Closing => thrown (CloseWrite out_conn).1
  | Finished => false
  end.

(** A round of [MakeConnection] for [client_conn]: [DialTCP] gives a connection to the address, or
    none when it throws or takes too long. *)
Definition MakeConnection_round (DialTCP : SocketAddress.t → option C) (client_conn : C) (s : service) : outcome service :=
  r <-? MakeConnection_body (λ a, bool_decide (is_Some (DialTCP a))) (state s) ;;
  match r with
  | (None, b) => Ok {| state := b; sessions := sessions s; ended := ended s |}
  | (Some p, b) =>
      x <-? deref p b ;;
      match DialTCP (address x) with
      | None => Fail UB
      | Some peer_conn =>
          Ok {| state := b; ended := ended s;
                sessions := begin client_conn peer_conn :: sessions s |}
      end
  end.

(** A call of one of the two fibers of the [i]-th [ProcessConnection]; the [TransferData] that they
    run is word for word that of socksd.cpp. *)
Definition ProcessConnection_call (i : nat) (from_client : bool) (s : service) : outcome service :=
  match sessions s !! i with
  | None => Fail UB
  | Some x =>
      let t := fibers x in
      t' <-? tunnel_step from_client t ;;
      let x := {| fibers := t'; begun := begun x;
                  broke_up := broke_up x || from_client && throws (up t) (conn t) (proxy_conn t);
                  broke_down := broke_down x || negb from_client && throws (down t) (proxy_conn t) (conn t) |} in
      Ok {| state := state s; sessions := <[i := x]> (sessions s); ended := ended s |}
  end.

Definition is_finished (x : xfer) : bool := match x with Finished => true | _ => false end.

(** [peer_group.Wait()] returns when both fibers have ended, and then the load is given back. *)
Definition ProcessConnection_wait (i : nat) (s : service) : outcome (option service) :=
  match sessions s !! i with
  | None => Fail UB
  | Some x =>
      if is_finished (up (fibers x)) && is_finished (down (fibers x)) then
        b <-? ProcessConnection_end i (state s) ;;
        Ok (Some {| state := b; sessions := delete i (sessions s); ended := x :: ended s |})
      else Ok None
  end.

Context `{!BreakableSpec C}.

(** A new connection: nothing was closed yet. *)
Definition fresh_conn (c : C) : Prop := valid c ∧ half_closed c = false.

Inductive step : service → service → Prop :=
| step_backends peers s : step s {| state := SetBackends peers (state s); sessions := sessions s; ended := ended s |}
| step_round DialTCP client_conn s s' :
    fresh_conn client_conn → (∀ a c, DialTCP a = Some c → fresh_conn c) →
    MakeConnection_round DialTCP client_conn s = Ok s' → step s s'
| step_call i from_client s s' :
    i < length (sessions s) → ProcessConnection_call i from_client s = Ok s' → step s s'
| step_wait i s s' : i < length (sessions s) → ProcessConnection_wait i s = Ok (Some s') → step s s'.

Definition init (s : service) : Prop :=
  Balancer.init (state s) ∧ sessions s = [] ∧ ended s = [].

(** ** The invariant *)

(** One direction: [all] is everything that is to be on the other side in the end, [broke] that
    it was ended by an exception. *)
Record relays (all : bytes) (x : xfer) (broke : bool) (in_ out : C) : Prop := {
  rl_prefix : (sent out ++ pending x) `prefix_of` all;
  rl_at : match x with
    | Reading => broke = false ∧ sent out ++ received in_ = all ∧ half_closed out = false
    | Writing buf => broke = false ∧ buf ≠ [] ∧ sent out ++ buf ++ received in_ = all ∧ half_closed out = false
    | Closing => broke = false ∧ sent out = all ∧ half_closed out = false
    | Finished => if broke then half_closed out = false else sent out = all ∧ half_closed out = true
    end;
}.

Lemma relays_step all x broke in_ out :
  valid in_ → valid out → relays all x broke in_ out →
  ∃ x' in' out', TransferData_step x in_ out = Ok (x', in', out') ∧ valid in' ∧ valid out' ∧
    relays all x' (broke || throws x in_ out) in' out' ∧
    sent in' = sent in_ ∧ half_closed in' = half_closed in_ ∧ received out' = received out ∧
    calls_left x' (length (received in')) ≤ calls_left x (length (received in_)) - 1.
Proof.
  intros Hi Ho [Hp Ha]. destruct x as [|buf| |]; cbn [TransferData_step throws pending calls_left] in *.
  - destruct Ha as (->&Hall&Hh). destruct (read_law 256 in_ Hi ltac:(lia)) as (r&in'&->&Hi'&?&?&Hr). destruct r as [chunk|f].
    + destruct Hr as [Hin Hnil]. destruct chunk as [|b chunk].
      * exists Closing, in', out. rewrite (Hnil eq_refl) in *. rewrite app_nil_r in Hall. split_and!; try done; by split.
      * exists (Writing (b :: chunk)), in', out. rewrite Hin in *. split_and!; try done; [|cbn; rewrite length_app; lia].
        split; [|by split_and!]. cbn [pending]. rewrite <- Hall, app_assoc. by apply prefix_app_r.
    + destruct Hr as [[e ->] _]. exists Finished, in', out. split_and!; try done. cbn. lia.
  - destruct Ha as (->&Hne&Hall&Hh). destruct (write_law buf out Ho Hne) as (r&out'&->&Ho'&?&Hh'&Hr). destruct r as [[]|f].
    + exists Reading, in_, out'. split_and!; try done; try (cbn; lia). rewrite app_assoc in Hall. split; cbn [pending]; [by rewrite Hr, app_nil_r|].
      split_and!; [done|by rewrite Hr|congruence].
    + destruct Hr as [[e ->] (part&Hpart&Hs)]. exists Finished, in_, out'. split_and!; try done; try (cbn; lia).
      split; cbn; [|congruence]. rewrite Hs, app_nil_r. etrans; [|exact Hp]. by apply prefix_app.
  - destruct Ha as (->&Hall&Hh). destruct (close_law out Ho) as (r&out'&->&Ho'&?&Hs&Hr). destruct r as [[]|f].
    + exists Finished, in_, out'. split_and!; try done. split; cbn; [by rewrite Hs|]. by rewrite Hs.
    + destruct Hr as [[e ->] Hh']. exists Finished, in_, out'. split_and!; try done. split; cbn; [by rewrite Hs|congruence].
  - exists Finished, in_, out. rewrite orb_false_r. split_and!; try done; cbn; lia.
Qed.

(** The other direction sees nothing of a step but what it shares. *)
Lemma relays_frame all x broke in_ out in' out' :
  relays all x broke in_ out → received in' = received in_ → sent out' = sent out → half_closed out' = half_closed out →
  relays all x broke in' out'.
Proof. intros [? ?] Hi Ho Hw. split; by rewrite ?Hi, ?Ho, ?Hw. Qed.

(** What the client and the peer of a session are to get. *)
Definition to_peer (x : session) : bytes := sent (begun x).2 ++ received (begun x).1.
Definition to_client (x : session) : bytes := sent (begun x).1 ++ received (begun x).2.

Record session_ok (x : session) : Prop := {
  so_conn : valid (conn (fibers x));
  so_peer : valid (proxy_conn (fibers x));
  so_up : relays (to_peer x) (up (fibers x)) (broke_up x) (conn (fibers x)) (proxy_conn (fibers x));
  so_down : relays (to_client x) (down (fibers x)) (broke_down x) (proxy_conn (fibers x)) (conn (fibers x));
}.

(** Each direction was forwarded in full and closed, or ended by an exception after a part. *)
Definition forwarded (x : session) : Prop :=
  (if broke_up x then sent (proxy_conn (fibers x)) `prefix_of` to_peer x
   else sent (proxy_conn (fibers x)) = to_peer x ∧ half_closed (proxy_conn (fibers x)) = true) ∧
  (if broke_down x then sent (conn (fibers x)) `prefix_of` to_client x
   else sent (conn (fibers x)) = to_client x ∧ half_closed (conn (fibers x)) = true).

(** The calls that the two fibers still make, at most. *)
Definition calls_up (x : session) : nat := calls_left (up (fibers x)) (length (received (conn (fibers x)))).
Definition calls_down (x : session) : nat := calls_left (down (fibers x)) (length (received (proxy_conn (fibers x)))).

Record inv (s : service) : Prop := {
  i_state : wf (state s);
  i_length : length (sessions s) = length (serving (state s));
  i_sessions : Forall session_ok (sessions s);
  i_ended : Forall forwarded (ended s);
}.

Lemma open_ok c p : fresh_conn c → fresh_conn p → session_ok (begin c p).
Proof.
  intros [? ?] [? ?]. split; try done; (split; [cbn; rewrite app_nil_r; by apply prefix_app_r|by split_and!]).
Qed.

Lemma finished_forwarded x :
  session_ok x → is_finished (up (fibers x)) && is_finished (down (fibers x)) = true → forwarded x.
Proof.
  intros [_ _ [Hp1 Hu] [Hp2 Hd]] [Eu Ed]%andb_prop. destruct (up (fibers x)), (down (fibers x)); try done.
  cbn in Hp1, Hp2. rewrite app_nil_r in Hp1, Hp2. split; [by destruct (broke_up x)|by destruct (broke_down x)].
Qed.

Lemma set_backends_serving peers b : serving (SetBackends peers b) = serving b.
Proof.
  unfold SetBackends. generalize (@nil nat). generalize (heap b). induction peers as [|a peers IH]; intros h l; [done|].
  cbn. by rewrite IH.
Qed.

(** A round keeps the invariant, and it fails only because no peer is left. *)
Lemma round_inv DialTCP c s :
  inv s → fresh_conn c → (∀ a c, DialTCP a = Some c → fresh_conn c) →
  match MakeConnection_round DialTCP c s with
  | Ok s' => inv s' ∧ ended s' = ended s ∧
      (sessions s' = sessions s ∨ ∃ p, sessions s' = begin c p :: sessions s)
  | Fail f => f = Exn SystemError ∧ ∀ p x, p ∈ peers_ (state s) → heap (state s) !! p = Some x → is_dead x = true
  end.
Proof.
  intros [Hwf Hl Hs He] Hc Hd. unfold MakeConnection_round. set (dial := λ a, bool_decide (is_Some (DialTCP a))).
  destruct (round_ok dial (state s) Hwf) as [[-> Hdead]|(p&x&_&Hx&_&Hm)]; [done|].
  destruct (dial (address x)) eqn:E; rewrite Hm; cbn [bindO].
  - apply bool_decide_eq_true in E as [peer Hp]. unfold deref. cbn [heap upd]. rewrite lookup_insert_eq. cbn [bindO address].
    rewrite Hp. split; [|split; [done|by right; exists peer]]. split; cbn [state sessions ended length serving].
    + apply (step_wf (state s)); [done|]. by eapply (Balancer.step_round dial).
    + cbn. by rewrite Hl.
    + constructor; [|done]. apply open_ok; [done|by eapply Hd].
    + done.
  - split; [|split; [done|by left]]. split; cbn [state sessions ended]; [|done..]. apply (step_wf (state s)); [done|]. by eapply (Balancer.step_round dial).
Qed.

(** A call of a fiber returns, also if the connection breaks, and there is one less for it to
    make. *)
Lemma call_inv i d s x :
  inv s → sessions s !! i = Some x →
  ∃ s' x', ProcessConnection_call i d s = Ok s' ∧ inv s' ∧ sessions s' = <[i := x']> (sessions s) ∧ state s' = state s ∧ begun x' = begun x ∧
    calls_up x' ≤ calls_up x - Nat.b2n d ∧ calls_down x' ≤ calls_down x - Nat.b2n (negb d).
Proof.
  intros [Hwf Hl Hs He] Hx. unfold ProcessConnection_call. rewrite Hx.
  assert (session_ok x) as [Hc Hp Hu Hd] by (by eapply Forall_lookup_1).
  unfold tunnel_step, calls_up, calls_down. destruct d; cbn [negb Nat.b2n andb].
  - destruct (relays_step _ _ _ _ _ Hc Hp Hu) as (y&in'&out'&->&?&?&Hr&Hs1&Hh1&Hr1&Hle). cbn [bindO fst snd].
    eexists _, _. split; [done|]. split; [|split_and!; [done..| |]; cbn; rewrite ?Hr1; lia].
    split; cbn [state sessions ended]; [done|by rewrite length_insert| |done]. apply Forall_insert; [done|].
    split; cbn; try done. rewrite orb_false_r. by eapply relays_frame.
  - destruct (relays_step _ _ _ _ _ Hp Hc Hd) as (y&in'&out'&->&?&?&Hr&Hs1&Hh1&Hr1&Hle). cbn [bindO fst snd].
    eexists _, _. split; [done|]. split; [|split_and!; [done..| |]; cbn; rewrite ?Hr1; lia].
    split; cbn [state sessions ended]; [done|by rewrite length_insert| |done]. apply Forall_insert; [done|].
    split; cbn; try done. rewrite orb_false_r. by eapply relays_frame.
Qed.

(** The calls of a session, [true] for the fiber that reads from the client. *)
Definition run_session (i : nat) (schedule : list bool) (s : service) : outcome service :=
  forO (ProcessConnection_call i) schedule s.

Lemma run_session_inv i schedule s x :
  inv s → sessions s !! i = Some x →
  ∃ s' x', run_session i schedule s = Ok s' ∧ inv s' ∧ sessions s' !! i = Some x' ∧ length (sessions s') = length (sessions s) ∧ state s' = state s ∧
    begun x' = begun x ∧ calls_up x' ≤ calls_up x - count id schedule ∧ calls_down x' ≤ calls_down x - count negb schedule.
Proof.
  revert s x. induction schedule as [|d schedule IH]; intros s x Hs Hx; unfold run_session; cbn [forO].
  { exists s, x. change (count id []) with 0. change (count negb []) with 0. split_and!; try done; lia. }
  destruct (call_inv i d s x Hs Hx) as (s1&x1&->&Hs1&Hss&Hst&Hb&Hu&Hd). cbn [bindO].
  assert (i < length (sessions s)) as Hi by (by eapply lookup_lt_Some).
  destruct (IH s1 x1 Hs1) as (s2&x2&Hr&Hs2&Hx2&Hl2&Hst2&Hb2&Hu2&Hd2); [rewrite Hss; by rewrite list_lookup_insert_eq|].
  exists s2, x2. rewrite !count_cons. rewrite Hss, length_insert in Hl2. split_and!; [exact Hr|done|done|done|congruence|congruence|unfold id at 1; lia|lia].
Qed.

Lemma calls_left_none x n : calls_left x n = 0 → is_finished x = true.
Proof. destruct x; cbn; done || lia. Qed.

(** The wait gives back the load when the fibers have ended. *)
Lemma wait_inv i s :
  inv s → i < length (sessions s) →
  ∃ r, ProcessConnection_wait i s = Ok r ∧
    match r with
    | Some s' => inv s' ∧ ∃ x, sessions s !! i = Some x ∧ forwarded x ∧ sessions s' = delete i (sessions s) ∧ ended s' = x :: ended s
    | None => ∃ x, sessions s !! i = Some x ∧ is_finished (up (fibers x)) && is_finished (down (fibers x)) = false
    end.
Proof.
  intros [Hwf Hl Hs He] Hi. unfold ProcessConnection_wait. destruct (lookup_lt_is_Some_2 _ _ Hi) as [x Hx]. rewrite Hx.
  destruct (is_finished _ && _) eqn:E; [|eexists; split; [done|]; by exists x].
  assert (forwarded x) as Hf by (apply finished_forwarded; [by eapply Forall_lookup_1|done]).
  rewrite Hl in Hi. destruct (end_wf i (state s) Hwf Hi) as (b&Hb&Hwf'&_). rewrite Hb. cbn [bindO].
  eexists. split; [done|]. split; [|by exists x]. split; cbn [state sessions ended]; [done| | |by constructor].
  - unfold ProcessConnection_end in Hb. destruct (serving (state s) !! i) as [p|] eqn:Ep; [|done].
    destruct (deref p (state s)); [|done]. injection Hb as <-. cbn [serving].
    rewrite !length_delete by eauto. by rewrite Hl.
  - by apply Forall_delete.
Qed.

Lemma inv_step s s' : inv s → step s s' → inv s'.
Proof.
  intros Hs Hstep. destruct Hstep as [peers s|dial c s s' Hc Hd Hr|i d s s' Hi Hr|i s s' Hi Hr].
  - destruct Hs. split; cbn [state sessions ended]; [by apply set_backends_wf|by rewrite set_backends_serving|done|done].
  - pose proof (round_inv dial c s Hs Hc Hd) as Hi. rewrite Hr in Hi. apply Hi.
  - destruct (lookup_lt_is_Some_2 _ _ Hi) as [x Hx]. destruct (call_inv i d s x Hs Hx) as (s1&x1&H1&Hi1&_). rewrite Hr in H1. by injection H1 as <-.
  - destruct (wait_inv i s Hs Hi) as (r&H1&Hi1). rewrite Hr in H1. injection H1 as <-. by destruct Hi1.
Qed.

Lemma service_inv s : reachable init step s → inv s.
Proof.
  apply invariant_reachable; [|intros ? ?; apply inv_step]. intros s0 (Hb&Hs&He).
  split; [by apply init_wf| |by rewrite Hs|by rewrite He]. rewrite Hs, Hb. done.
Qed.

End Serve.

(** C40 In every interleaving of new clients, calls of the fibers, ends of connections and changes of
    the backends, with connections any call of which may throw: the load of a peer is the number
    of the connections that are open to it; of an ended connection each direction was forwarded
    in full and closed, unless a call of its fiber threw, and then a prefix was forwarded; no
    exception leaves a fiber, and of an open connection each side was sent a prefix of what it is
    to get.  In whatever order its two fibers make their calls, whether or not some throw, after a
    bounded number of them the connection has ended and its load is given back.  A new client is
    turned away only when all peers are dead. *)
Theorem balancer_serves {C : Type} `{!IConn C, !BreakableSpec C} (s : service (C := C)) :
  reachable init step s →
  (∀ p x, heap (state s) !! p = Some x → load x = u64 (Z.of_nat (connections p (state s)))) ∧
  length (sessions s) = length (serving (state s)) ∧
  Forall forwarded (ended s) ∧
  (∀ i x, sessions s !! i = Some x →
    (∀ d, ∃ s', ProcessConnection_call i d s = Ok s') ∧
    sent (proxy_conn (fibers x)) `prefix_of` to_peer x ∧
    sent (conn (fibers x)) `prefix_of` to_client x ∧
    ∀ schedule, calls_up x ≤ count id schedule → calls_down x ≤ count negb schedule →
      ∃ s1 y s2, run_session i schedule s = Ok s1 ∧ sessions s1 !! i = Some y ∧ begun y = begun x ∧ forwarded y ∧
        ProcessConnection_wait i s1 = Ok (Some s2) ∧ length (serving (state s2)) = length (serving (state s)) - 1) ∧
  ∀ DialTCP c, fresh_conn c → (∀ a c, DialTCP a = Some c → fresh_conn c) →
    match MakeConnection_round DialTCP c s with
    | Ok s' => ended s' = ended s ∧ (sessions s' = sessions s ∨ ∃ p, sessions s' = begin c p :: sessions s)
    | Fail f => f = Exn SystemError ∧ ∀ p x, p ∈ peers_ (state s) → heap (state s) !! p = Some x → is_dead x = true
    end.
Proof.
  intros Hinv%service_inv. assert (Hinv' := Hinv). destruct Hinv' as [Hwf Hl Hs He].
  split_and!; [apply (wf_load _ Hwf)|done|done| |].
  2: { intros DialTCP c Hc Hd. pose proof (round_inv DialTCP c s Hinv Hc Hd) as Hr. destruct (MakeConnection_round _ _ _); [apply Hr|done]. }
  intros i x Hx. assert (session_ok x) as [_ _ [Hu _] [Hd _]] by (by eapply Forall_lookup_1). split_and!.
  - intros d. destruct (call_inv i d s x Hinv Hx) as (s'&x'&?&_). by exists s'.
  - etrans; [|exact Hu]. by apply prefix_app_r.
  - etrans; [|exact Hd]. by apply prefix_app_r.
  - intros schedule Hcu Hcd. destruct (run_session_inv i schedule s x Hinv Hx) as (s1&y&Hr&Hs1&Hy&Hlen&Hst&Hb&Hlu&Hld).
    assert (is_finished (up (fibers y)) = true) as Eu by (apply (calls_left_none _ (length (received (conn (fibers y))))); fold (calls_up y); lia).
    assert (is_finished (down (fibers y)) = true) as Ed by (apply (calls_left_none _ (length (received (proxy_conn (fibers y))))); fold (calls_down y); lia).
    destruct (wait_inv i s1 Hs1) as (r&Hw&Hm); [by eapply lookup_lt_Some|]. destruct r as [s2|].
    + destruct Hm as ([_ Hl' _ _]&z&Hz&Hf&Hss&_). rewrite Hy in Hz. injection Hz as <-. exists s1, y, s2. split_and!; try done.
      rewrite <-Hl', Hss, length_delete by eauto. by rewrite Hlen, Hl.
    + destruct Hm as (z&Hz&Hno). rewrite Hy in Hz. injection Hz as <-. by rewrite Eu, Ed in Hno.
Qed.

(** ** Witness: a client that is forwarded to a backend, whose connection breaks *)

Module Demo.

(** A connection that breaks after [life] calls. *)
Record line : Type := Line { input : bytes; output : bytes; shut : bool; life : nat }.

#[local] Instance line_reader : IReader line := λ n c,
  match life c with
  | 0 => (Fail (Exn SystemError), c)
  | S k => (Ok (take n (input c)), Line (drop n (input c)) (output c) (shut c) k)
  end.
#[local] Instance line_writer : IWriter line := λ b c,
  match life c with
  | 0 => (Fail (Exn SystemError), c)
  | S k => (Ok (), Line (input c) (output c ++ b) (shut c) k)
  end.
#[local] Instance line_conn : IConn line := {|
  CloseWrite := λ c,
    match life c with
    | 0 => (Fail (Exn SystemError), c)
    | S k => (Ok (), Line (input c) (output c) true k)
    end
|}.

#[local, program] Instance line_spec : BreakableSpec line :=
  {| valid := λ _, True; received := input; sent := output; half_closed := shut |}.
Next Obligation.
  intros n [i o b [|k]] _ Hn; do 2 eexists; (split; [reflexivity|]); cbn; split_and!; try done; [by eexists|by rewrite take_drop|].
  destruct n, i; done || lia.
Qed.
Next Obligation.
  intros s [i o b [|k]] _ Hn; do 2 eexists; (split; [reflexivity|]); cbn; split_and!; try done; [by eexists|].
  exists []. split; [apply prefix_nil|by rewrite app_nil_r].
Qed.
Next Obligation.
  intros [i o b [|k]] _; do 2 eexists; (split; [reflexivity|]); cbn; split_and!; try done. by eexists.
Qed.

Definition backend : SocketAddress.t := SocketAddress.from_ip_port 1 80.
Definition client : line := Line (str "ab") [] false 10.
Definition dial (a : SocketAddress.t) : option line := Some (Line (str "xyz") [] false 1).

Definition s0 : service (C := line) := {| state := SetBackends [backend] {| heap := ∅; peers_ := []; serving := [] |}; sessions := []; ended := [] |}.
Definition s1 : service (C := line) := match MakeConnection_round dial client s0 with Ok s => s | Fail _ => s0 end.

Lemma s1_reachable : reachable init step s1.
Proof.
  eapply reachable_step; [eapply reachable_step; [apply reachable_init|apply (step_backends [backend])]|].
  - by instantiate (1 := {| state := {| heap := ∅; peers_ := []; serving := [] |}; sessions := []; ended := [] |}).
  - apply (step_round dial client s0); [done|by intros a c [= <-]|]. vm_compute. reflexivity.
Qed.

Definition schedule : list bool := concat (replicate 8 [false; true]).

(** The answer of the backend is forwarded, then its connection breaks: both directions end by
    an exception, the client has the answer, the backend nothing, and the load is given back. *)
Lemma balancer_serves_witness :
  ∃ x s' y, sessions s1 = [x] ∧ run_session 0 schedule s1 = Ok s' ∧ sessions s' = [y] ∧
    broke_up y = true ∧ broke_down y = true ∧ output (conn (fibers y)) = str "xyz" ∧ output (proxy_conn (fibers y)) = [] ∧
    forwarded y ∧ ∃ s'', ProcessConnection_wait 0 s' = Ok (Some s'') ∧ serving (state s'') = [].
Proof.
  destruct (balancer_serves s1 s1_reachable) as (_&Hlen&_&H&_).
  assert (∃ x, sessions s1 = [x] ∧ calls_up x = 6 ∧ calls_down x = 8) as (x&Hx&Hu&Hd) by (eexists; split_and!; [vm_compute; reflexivity|reflexivity..]).
  destruct (H 0 x) as (_&_&_&Hr); [by rewrite Hx|].
  destruct (Hr schedule) as (s'&y&s''&Hs&Hy&_&Hf&Hw&Hlast); [rewrite Hu; vm_compute; lia|rewrite Hd; vm_compute; lia|].
  assert (∃ y', sessions s' = [y'] ∧ broke_up y' = true ∧ broke_down y' = true ∧ output (conn (fibers y')) = str "xyz" ∧
    output (proxy_conn (fibers y')) = []) as (y'&Hys&Hbu&Hbd&Ho1&Ho2).
  { assert (∃ s2, run_session 0 schedule s1 = Ok s2 ∧ ∃ y', sessions s2 = [y'] ∧ broke_up y' = true ∧ broke_down y' = true ∧
      output (conn (fibers y')) = str "xyz" ∧ output (proxy_conn (fibers y')) = []) as (s2&Hs2&?)
      by (eexists; split; [vm_compute; reflexivity|]; eexists; split_and!; reflexivity).
    rewrite Hs in Hs2. by injection Hs2 as ->. }
  rewrite Hys in Hy. injection Hy as ->. exists x, s', y. split_and!; [exact Hx|exact Hs|exact Hys|exact Hbu|exact Hbd|exact Ho1|exact Ho2|exact Hf|].
  exists s''. split; [exact Hw|]. apply length_zero_iff_nil. rewrite Hlast, <-Hlen, Hx. reflexivity.
Defined.

End Demo.
