(* ===== verification/Image.v ===== *)
(** * Images (jpeg-decoder/image.h)

    The container that the decoder fills: rows of pixels and a comment.  An index outside of a
    row or a column is undefined behaviour. *)

From S2P Require Import Prelude.

Record RGB : Type := { r : Z; g : Z; b : Z }.
Definition black : RGB := {| r := 0; g := 0; b := 0 |}.

Record Image : Type := { data_ : list (list RGB); comment_ : bytes }.

Definition empty : Image := {| data_ := []; comment_ := [] |}.

Definition SetSize (width height : nat) (image : Image) : Image :=
  {| data_ := replicate height (replicate width black); comment_ := comment_ image |}.

Definition make (width height : nat) : Image := SetSize width height empty.

Definition Width (image : Image) : nat := match data_ image with [] => 0 | row :: _ => length row end.
Definition Height (image : Image) : nat := length (data_ image).

Definition SetPixel (y x : nat) (pixel : RGB) (image : Image) : outcome Image :=
  match data_ image !! y with
  | None => Fail UB
  | Some row =>
      if decide (x < length row) then Ok {| data_ := <[y := <[x := pixel]> row]> (data_ image); comment_ := comment_ image |}
      else Fail UB
  end.

Definition GetPixel (y x : nat) (image : Image) : outcome RGB :=
  match data_ image !! y ≫= lookup x with Some pixel => Ok pixel | None => Fail UB end.

Definition SetComment (comment : bytes) (image : Image) : Image := {| data_ := data_ image; comment_ := comment |}.
Definition GetComment (image : Image) : bytes := comment_ image.

(** ** The operations as they are called, and what they mean on a function of the coordinates *)

Inductive op : Type := OSize (width height : nat) | OSet (y x : nat) (pixel : RGB) | OComment (comment : bytes).

Definition run (o : op) (image : Image) : outcome Image :=
  match o with
  | OSize w h => Ok (SetSize w h image)
  | OSet y x pixel => SetPixel y x pixel image
  | OComment c => Ok (SetComment c image)
  end.

Record picture : Type := { p_width : nat; p_height : nat; p_pixel : nat → nat → RGB; p_comment : bytes }.

Definition draw (o : op) (p : picture) : outcome picture :=
  match o with
  | OSize w h => Ok {| p_width := w; p_height := h; p_pixel := λ _ _, black; p_comment := p_comment p |}
  | OSet y x pixel =>
      if decide (y < p_height p ∧ x < p_width p) then
        Ok {| p_width := p_width p; p_height := p_height p; p_comment := p_comment p;
              p_pixel := λ y' x', if decide (y' = y ∧ x' = x) then pixel else p_pixel p y' x' |}
      else Fail UB
  | OComment c => Ok {| p_width := p_width p; p_height := p_height p; p_pixel := p_pixel p; p_comment := c |}
  end.

(** The rows of the image are the rows of the picture. *)
Record shows (image : Image) (p : picture) : Prop := {
  sh_height : Height image = p_height p;
  sh_rows : ∀ y row, data_ image !! y = Some row → length row = p_width p;
  sh_pixels : ∀ y x, y < p_height p → x < p_width p → GetPixel y x image = Ok (p_pixel p y x);
  sh_comment : comment_ image = p_comment p;
}.

Lemma set_size_shows w h image p :
  shows image p → shows (SetSize w h image) {| p_width := w; p_height := h; p_pixel := λ _ _, black; p_comment := p_comment p |}.
Proof.
  intros [_ _ _ Hc]. split; cbn.
  - unfold Height. cbn. apply length_replicate.
  - intros y row [-> _]%lookup_replicate. apply length_replicate.
  - intros y x Hy Hx. unfold GetPixel. cbn. rewrite lookup_replicate_2 by done. cbn. by rewrite lookup_replicate_2.
  - done.
Qed.

Lemma set_pixel_shows y x pixel image p :
  shows image p →
  match SetPixel y x pixel image, draw (OSet y x pixel) p with
  | Ok image', Ok p' => shows image' p'
  | Fail f, Fail f' => f = UB ∧ f' = UB
  | _, _ => False
  end.
Proof.
  intros [Hh Hr Hp Hc]. unfold SetPixel. cbn [draw]. destruct (data_ image !! y) as [row|] eqn:Ey.
  - assert (y < p_height p) as Hy by (rewrite <-Hh; by eapply lookup_lt_Some). rewrite (Hr _ _ Ey).
    destruct (decide (x < p_width p)) as [Hx|Hx]; [|by rewrite decide_False by tauto]. rewrite decide_True by done.
    split; cbn; [by unfold Height; cbn; rewrite length_insert| | |done].
    + intros y' row' Hy'. destruct (decide (y' = y)) as [->|Hne].
      * rewrite list_lookup_insert_eq in Hy' by (by eapply lookup_lt_Some). injection Hy' as <-. by rewrite length_insert, (Hr _ _ Ey).
      * rewrite list_lookup_insert_ne in Hy' by done. by eapply Hr.
    + intros y' x' Hy' Hx'. specialize (Hp y' x' Hy' Hx'). unfold GetPixel in *. cbn.
      destruct (decide (y' = y)) as [->|Hne].
      * rewrite list_lookup_insert_eq by (by eapply lookup_lt_Some). rewrite Ey in Hp. cbn in Hp |- *.
        destruct (decide (x' = x)) as [->|Hnx]; [by rewrite list_lookup_insert_eq, decide_True by (done || rewrite (Hr _ _ Ey); done)|].
        rewrite list_lookup_insert_ne, decide_False by (done || tauto). exact Hp.
      * rewrite list_lookup_insert_ne, decide_False by (done || tauto). exact Hp.
  - rewrite decide_False; [done|]. intros [Hy _]. apply lookup_ge_None in Ey. unfold Height in Hh. lia.
Qed.

(** After any calls the image is the picture that they draw: the pixels that were set last, black
    where none was since the size was set.  A pixel outside of the picture is undefined behaviour
    to set and to get, and to set or get one inside is not.  [Width] is the width, except that of
    an image without rows, which is 0. *)
Theorem image_correct (ops : list op) (w h : nat) :
  let p0 := {| p_width := w; p_height := h; p_pixel := λ _ _, black; p_comment := [] |} in
  match forO run ops (make w h), forO draw ops p0 with
  | Ok image, Ok p =>
      Height image = p_height p ∧ Width image = (if decide (p_height p = 0) then 0 else p_width p) ∧
      GetComment image = p_comment p ∧
      ∀ y x, GetPixel y x image = if decide (y < p_height p ∧ x < p_width p) then Ok (p_pixel p y x) else Fail UB
  | Fail f, Fail f' => f = UB ∧ f' = UB
  | _, _ => False
  end.
Proof.
  intros p0. assert (shows (make w h) p0) as H0.
  { apply (set_size_shows w h empty {| p_width := 0; p_height := 0; p_pixel := λ _ _, black; p_comment := [] |}).
    split; cbn; [done|by intros y row; rewrite lookup_nil|lia|done]. }
  generalize dependent p0. generalize (make w h). induction ops as [|o ops IH]; intros image p Hs; cbn [forO].
  - destruct Hs as [Hh Hr Hp Hc]. split_and!; [done| |done|].
    + unfold Width, Height in *. destruct (data_ image) as [|row rows] eqn:E; cbn in Hh; [by rewrite decide_True by lia|].
      rewrite decide_False by lia. by apply (Hr 0 row).
    + intros y x. case_decide as Hin; [by apply Hp; apply Hin|]. unfold GetPixel, Height in *.
      destruct (data_ image !! y) as [row|] eqn:Ey; [|done]. cbn. rewrite lookup_ge_None_2; [done|].
      rewrite (Hr _ _ Ey). apply lookup_lt_Some in Ey. lia.
  - destruct o as [w' h'|y x pixel|c].
    + apply IH. by apply set_size_shows.
    + pose proof (set_pixel_shows y x pixel image p Hs) as Hp. cbn [run].
      destruct (SetPixel y x pixel image), (draw (OSet y x pixel) p); try done. by apply IH.
    + apply IH. destruct Hs. by split.
Qed.
